(* ===== verification/_CoqProject ===== *)
-Q . S2P
Prelude.v
Rust.v
CoreBase.v
Json.v
Float.v
LoopDetect.v
LoopDetectProofs.v
Velocity.v
Core.v
CoreProofs.v
Identity.v
Validator.v
IdentityProofs.v
Compress.v
CompressProofs.v
Rpc.v
RpcProofs.v
Store.v
StoreProofs.v
StoreConc.v
Budget.v
BudgetProofs.v
Sandbox.v
SandboxProofs.v
Jcs.v
JcsProofs.v
RedisStore.v
RedisProofs.v
Serde.v
Events.v
EventsProofs.v
Receipts.v
ReceiptsProofs.v
Journal.v
Inflight.v
Atif.v
Session.v
SessionProofs.v
Finalizer.v
FinalizerProofs.v
PromotionProofs.v
Exchange.v
Revocation.v
RevocationProofs.v
TokenRoutes.v
ExchangeProofs.v
TokenRoutesProofs.v
Worker.v
WorkerProofs.v
WorkerQueue.v
WorkerQueueProofs.v
Authz.v
ChatPayload.v
Pipeline.v
AuthzProofs.v
PipelineProofs.v
Attempts.v
AttemptProofs.v
AtifWire.v
AtifWireProofs.v
Validate.v
ValidateProofs.v
Disk.v
EventLog.v
EventLogProofs.v
EventLogCrash.v
EventLogOps.v
EventLogRetain.v
EventLogSystem.v
EventLogExamples.v
BridgeManifest.v
BridgeManifestProofs.v
Broker.v
BrokerProofs.v
Redact.v
RedactProofs.v
RedactTree.v
