(* ===== verification/Prelude.v ===== *)
(** AgentVisor AI: a verification development.

    AgentVisor is a gateway between agents and the models and tools they use.  A
    request carries an identity token; its tool calls pass a sandbox (parse,
    schema, policy, budget); budgets are counters in a state store, in memory or
    on Redis; a loop detector may stop a session; prompts are compressed before
    they are sent; and every event is chained and signed over a canonical JSON
    text.  The service that wires these crates ([av-harness]) keeps a session per
    client-chosen id, admits its requests against reserved capacity and a token debit,
    hands what it captures to a worker that journals and publishes it, and closes a
    session into a signed receipt or a trajectory document that may be promoted to a
    receipt later; it also exchanges, introspects and revokes tokens.  Events are published
    to a bus, which on a single node is a log of the process's own on the local disk;
    sensitive content is redacted from what is kept.  The crates under
    [src/crates] that hold this logic are modelled here, and of the service its
    journal, in-flight tracker, sessions, finalizer, worker, revocation list, token
    endpoints, policy decision point and request pipeline.

    * Files and what they model

    - [Prelude], [Rust]: results and the [?] operator, automation, list lemmas;
      machine integers with their saturating, checked and wrapping operations,
      strings as Unicode scalar values with UTF-8/UTF-16, formatters.
    - [CoreBase], [Core], [CoreProofs]: [av-core] ([error], [units], [hash],
      [digest], [text], [ids], [tokens], [time], [url_redact]).
    - [Json], [Float]: [serde_json::Value] as the code uses it; [f32]/[f64] on the
      standard library's IEEE 754 floats.
    - [Store], [StoreProofs]: [av-state/src/store.rs].  The class [StateStore] is
      the trait, [Contract] the ledger it promises, [StateStoreLaws] the promise,
      [InMemory] the single-node store.  [StoreConc]: the same methods as
      sequences of atomic accesses under the transaction lock, interleaved.
    - [RedisStore], [RedisProofs]: [av-state/src/redis_store.rs], its Lua scripts
      in a small state-and-error monad and the client around them.
    - [Budget], [BudgetProofs]: [av-state/src/budget.rs] over any [StateStore].
      [Velocity]: [av-state/src/velocity.rs].
    - [Rpc], [RpcProofs], [Sandbox], [SandboxProofs]: [av-sandbox] ([denial_code],
      [rpc], [policy], [sandbox]) over any [StateStore].
    - [Identity], [Validator], [IdentityProofs]: [av-identity] ([claims],
      [revocation], [validator]).
    - [LoopDetect], [LoopDetectProofs]: [av-loopdetect] ([embed], [breaker]).
    - [Compress], [CompressProofs]: [av-compress] ([marker], [passes]).
    - [Jcs], [JcsProofs], [Receipts], [ReceiptsProofs]: [av-receipts] ([jcs],
      [chain], [keys], [receipt]).
    - [Serde], [Events], [EventsProofs]: the derived readers and writers, and
      [av-events] ([model], [validate], [stop_reason]).
    - [Atif]: [av-atif] ([model], the builder of [writer]).  [AtifWire],
      [AtifWireProofs]: the readers and writers of its documents.  [Validate],
      [ValidateProofs]: its validator ([validate]) and the writer that calls it.
    - [Redact], [RedactProofs], [RedactTree]: [av-redact]; the spans cut from a text, and
      the walk over a JSON tree.
    - [Journal], [Inflight]: [av-harness] ([journal], [inflight]).
    - [Session], [SessionProofs]: [av-harness/src/session.rs].  A session is a
      record; the registry ([Registry]) maps ids to addresses in a heap of
      sessions, as the shared references do; [Closing] is the race of a close
      against admission, lock step by lock step.
    - [Finalizer], [FinalizerProofs], [PromotionProofs]: closing and promoting
      ([av-harness/src/reconciler.rs]) in a monad whose every call to the outside
      may return, fail or be the await at which the future is dropped, while other
      threads act; [FinalizerProofs] has a small program logic for it.
    - [Exchange], [ExchangeProofs]: token exchange ([av-identity/src/exchange.rs]).
      [Revocation], [RevocationProofs]: [av-harness/src/revocation.rs], the list kept
      in the state store and the guard with its cache and breaker; [RevocationLaws] is
      what the token endpoints rely on.  [TokenRoutes],
      [TokenRoutesProofs]: the token endpoints ([token_routes.rs], of [routes.rs] the
      exchange, the signer of [authz.rs]).
    - [Worker], [WorkerProofs]: [av-harness/src/worker.rs], a job from its journal
      record to the bus, the totals and the hash chain, group commit and response
      markers, in a monad over a spool whose writes may fail or stop half way.
      [WorkerQueue], [WorkerQueueProofs]: its two semaphores, the channels and the
      dispatcher of a shard.
    - [Authz], [ChatPayload], [Pipeline], [AuthzProofs], [PipelineProofs]:
      [av-harness/src/pipeline.rs] and the decision point of [authz.rs]: who calls,
      what a payload says, admission, forwarding and tool interception over the
      store, the sessions and the queue.  A handler is a state-and-error program on
      [Server]; handlers run one at a time, what runs during an await is an argument
      of the handler, and a guard dropped on any path is a function called there.
      [Attempts], [AttemptProofs]: the session, the worker's journal and the tool attempts
      of the pipeline composed: an attempt is opened in the journal, runs, and is resolved
      or recovered.
    - [Disk]: a file whose writes, renames and creations may be lost until they are
      synchronized.  [EventLog]: a partition of the embedded log
      ([av-bridge/src/embedded.rs]): recovery, publishing with its repair and its index of
      event ids, both readers, retention.  An operation is a program over the disk in
      which each call may fail and at whose every step the process may die.
      [EventLogProofs], [EventLogCrash] (a program logic whose triples carry a crash
      invariant), [EventLogOps], [EventLogRetain] (the triple of each operation),
      [EventLogSystem] (a partition over all restarts: what is reachable and what holds
      there), [EventLogExamples].
    - [BridgeManifest], [BridgeManifestProofs]: [av-bridge/src/manifest.rs].  [Broker],
      [BrokerProofs]: topics over partitions and the default methods of the bus ([bus.rs]).

    A record is a struct, an inductive type an enum, and a definition keeps the
    name of the function it translates where that is free.  [&self] with interior
    mutability and [&mut self] are state passing: an operation returns the new
    state and its answer.  A lock held over a method makes it one transition;
    [StoreConc] justifies this for the store, whose methods are what threads race
    on.  [Result] is [result], errors are values with the source's constructors
    and messages.  The clock, elapsed time and fresh ids are arguments.

    Crates and services outside the repository are classes: [Sha256],
    [HmacSha256], [SerdeJson] with [JsonReader] and [JsonTextLaws], [JsonSchema],
    [DisplayF64], [Ryu], [Regex] and [JsonPointer], [Lowercase] and [UnicodeTables] (standard-library tables),
    [TokenLibs] and [ExchangeLibs] (jsonwebtoken, base64, regex), [RecordSerde] (derived
    readers of journal records), [Ed25519] with [Ed25519Laws],
    [Base64], [DashIter] (the concurrent map's order of iteration) and
    [RedisServer] with [RedisLaws].
    Their laws are documented behaviour, and the witnesses instantiate each with
    a concrete function.

    The disk keeps what was written and synchronized; of what was only written a power loss
    keeps any earlier state (one image per file), a process that dies without one leaves the
    cache as it is.  A rename that reports failure has not happened.  Every partition counts
    the synchronization of its own directory entry only, which promises less than the
    directory of its topic does.  Records are those the crate can write: one line, valid
    UTF-8, below 16 MiB, and files are shorter than 2^64 bytes.

    * What the theorems show

    - State.  The in-memory store refines the ledger under every schedule of
      calls and every interleaving of threads; a counter never passes its cap; a
      batch of spends is all or nothing.  Redis and the in-memory store answer
      alike and count alike; a refusal keeps its caps alive; a replayed refund
      does nothing; prefix removal is exact and ends.
    - Budgets and the sandbox.  A tool call is charged exactly once per ledger
      when it is allowed and not at all when it is blocked, whatever gate blocked
      it; refunds undo charges; a principal's cap holds over any number of
      sessions; positive payouts are never charged zero.
    - Trust boundary.  An accepted payload reads the same to a decoder that keeps
      the first of two equal names, and the depth gate is exact.
    - Identity.  A delegated token never exceeds any ancestor in scope or time;
      an accepted token is signed, addressed, fresh and short-lived; revocations
      persist; key rotation is all or nothing and spares manual keys.
    - Receipts.  The canonical text determines an integer document and does not
      depend on member order; the event chain is tamper evident up to a hash
      collision; an issued receipt verifies under every later key ring, a verified
      one was signed by the trusted key over exactly its body, and its text shows
      what was signed.
    - Events and journals.  An accepted event is well typed and the builder makes
      exactly the acceptable ones; a journal entry opens only where it was sealed;
      a finished trajectory adds up.  A document the strict validator accepts loads and is
      sound, and the writer persists only documents that load.
    - The log.  Whatever fails and wherever the process dies, an acknowledged event is read
      at its offset until retention drops it, and then its cold copy is there; every state
      the log can leave opens again; offsets are not reused; a repeated publication answers
      with the first offset and writes nothing; the slow lookup of an event agrees with the
      index.
    - Redaction.  The spans cut are exactly the matched characters; no card number survives
      whole in a run of digits; redaction is idempotent once its passes settle; a map whose
      keys collide loses no value.
    - Sessions.  A session's history only moves forward; an id never has two
      sessions that admit work; sweeps take finished sessions only and bound what
      they retain; an id refused by enforcement stays refused; a close waits for
      a number that only falls; shutdown wakes every waiter.
    - Closing.  Whatever fails and wherever a future is dropped, a close ends
      complete with a secured artifact, sealed, or open with its claim given back,
      and drops no journal before the artifact is secured; a promotion leaves no
      claim behind; a session has one receipt; recovery restores what a close
      persisted.
    - Loop detection and compression.  A loop trips the breaker; compression
      keeps roles, order and tail, is idempotent with the middle pass off, and its
      stubs cannot be forged without the key.
    - Tokens.  An exchanged token never exceeds the request, the subject, its ancestors
      or the actor; a token the endpoint issued verifies until it expires; what an
      operator or the holder revoked is never reported active again; the guard of the
      list answers from it or refuses, and recovers after a failure.
    - The worker.  Journal, bus, totals and chain hold exactly one entry per job unless
      the session is marked, whatever fails; granted capacity is always honoured; a
      session's envelopes run in order.  Every tool attempt written to the journal is closed
      exactly once, by its resolution or by recovery.
    - Requests.  An identity is earned or anonymous by configuration, missions only
      narrow, an admitted request entered the open session of its id, a refused one
      costs nothing, and an allowed tool call passed every gate.
    - Leaf functions: the calendar is Gregorian, session ids and redaction are
      exact, the token estimate is monotone and subadditive.

    * Bounds and fuel

    Integers are [Z] with their width written out at each operation; counters are
    bounded by [JCS_SAFE_MAX] (2^53), which is also what keeps Lua's doubles
    exact.  Loops that are not structural take fuel that is enough:
    [count_matches] and the JSON lexer consume a character per turn
    ([count_matches_fuel_enough], [lex_loop_fuel]); the delegation walk deepens the
    chain each turn and the depth is capped ([chain_loop_fuel]); the [SCAN] loop
    ends by the server's law ([redis_remove_prefix_exact]).

    * Not modelled

    Network I/O, process start-up and configuration, the command line and the console;
    connections lost in mid-command and cluster routing; the wasm policy engine, the neural
    embedder and the vector sink (they enter as any [PolicyEngine] or [Embedder]).  Of the
    finalizer, the bodies of the calls it makes (outboxes, removal of journals, provenance
    files) and the recovery scans.  Of the pipeline, metrics, secret files and the
    construction of the application; of the worker, panics and the waiting wrappers; of the
    routes, all but the token endpoints, so also the dialects of the providers and the relay
    of responses.  Of the bridge, provisioning, the schema documents, the clients of object
    stores, Kafka and NATS, and that readers of other processes see a partition in
    mid-write.  These are input and output, wiring, or calls into libraries; what is left
    of the program's own logic in them is the provider dialects and the recovery scans. *)

From Stdlib Require Export ZArith Lia Bool.
From stdpp Require Export base list gmap sets strings sorting.

#[global] Open Scope Z_scope.

(** * Results, options and their notation *)

(** Rust's [Result<A, E>]. *)
Inductive result (A E : Type) : Type :=
| Ok (a : A)
| Err (e : E).
Arguments Ok {A E} _.
Arguments Err {A E} _.

#[global] Instance result_eq_dec {A E} `{EqDecision A, EqDecision E} :
  EqDecision (result A E).
Proof. solve_decision. Defined.

Declare Scope av_scope.
Delimit Scope av_scope with av.
#[global] Open Scope av_scope.

(** The [?] operator: propagate the error, bind the value. *)
Notation "'let?' x ':=' e 'in' k" :=
  (match e with Ok x => k | Err err => Err err end)
  (at level 10, x pattern, e at level 100, k at level 200) : av_scope.

Definition is_ok {A E} (r : result A E) : bool :=
  match r with Ok _ => true | Err _ => false end.

(** [Option::ok_or]. *)
Definition ok_or {A E} (o : option A) (e : E) : result A E :=
  match o with Some a => Ok a | None => Err e end.

(** [Result::map_err]. *)
Definition map_err {A E F} (f : E -> F) (r : result A E) : result A F :=
  match r with Ok a => Ok a | Err e => Err (f e) end.

(** First element satisfying a test, with its index ([iter().enumerate().find]). *)
Fixpoint find_index {A} (f : A -> bool) (l : list A) : option (nat * A) :=
  match l with
  | [] => None
  | x :: l' =>
      if f x then Some (O, x)
      else match find_index f l' with
           | Some (i, y) => Some (S i, y)
           | None => None
           end
  end.

(** * Automation *)

Create HintDb av discriminated.
Create Rewrite HintDb av.

(** Case analysis on the scrutinee of a [match] or [if] in the goal or in a
    hypothesis, remembering the equation. *)
Ltac break_match :=
  match goal with
  | |- context [match ?x with _ => _ end] =>
      lazymatch x with context [match _ with _ => _ end] => fail | _ => destruct x eqn:? end
  | H : context [match ?x with _ => _ end] |- _ =>
      lazymatch x with context [match _ with _ => _ end] => fail | _ => destruct x eqn:? end
  end.

Ltac break_hyp H :=
  match type of H with
  | context [match ?x with _ => _ end] =>
      lazymatch x with context [match _ with _ => _ end] => fail | _ => destruct x eqn:? end
  end.

(** Turn boolean tests of the code into propositions. *)
Ltac b2p :=
  repeat match goal with
  | H : (_ && _) = true |- _ => apply andb_prop in H; destruct H
  | H : (_ || _) = false |- _ => apply orb_false_elim in H; destruct H
  | H : negb _ = true |- _ => apply negb_true_iff in H
  | H : negb _ = false |- _ => apply negb_false_iff in H
  | H : (_ =? _) = true |- _ => apply Z.eqb_eq in H
  | H : (_ =? _) = false |- _ => apply Z.eqb_neq in H
  | H : (_ <? _) = true |- _ => apply Z.ltb_lt in H
  | H : (_ <? _) = false |- _ => apply Z.ltb_ge in H
  | H : (_ <=? _) = true |- _ => apply Z.leb_le in H
  | H : (_ <=? _) = false |- _ => apply Z.leb_gt in H
  | H : (_ >? _) = true |- _ => rewrite Z.gtb_ltb in H; apply Z.ltb_lt in H
  | H : (_ >? _) = false |- _ => rewrite Z.gtb_ltb in H; apply Z.ltb_ge in H
  | H : (_ >=? _) = true |- _ => rewrite Z.geb_leb in H; apply Z.leb_le in H
  | H : (_ >=? _) = false |- _ => rewrite Z.geb_leb in H; apply Z.leb_gt in H
  | H : bool_decide _ = true |- _ => apply bool_decide_eq_true in H
  | H : bool_decide _ = false |- _ => apply bool_decide_eq_false in H
  | H : Is_true _ |- _ => apply Is_true_true in H
  end.

(** Split every conjunction and existential of the context. *)
Ltac deex :=
  repeat match goal with
  | H : exists x, _ |- _ => let y := fresh x in destruct H as [y H]
  | H : _ /\ _ |- _ => destruct H
  end.

Lemma Ok_inj {A E} (a b : A) : @Ok A E a = Ok b -> a = b.
Proof. congruence. Qed.

Lemma snd_eq_pair {A B} (p : A * B) b : p.2 = b -> p = (p.1, b).
Proof. intros <-. by destruct p. Qed.

(** * Lists *)

Section Lists.
Context {A B : Type}.
Implicit Types (l : list A) (f : A -> bool).

Lemma forallb_app' f l1 l2 : forallb f (l1 ++ l2) = forallb f l1 && forallb f l2.
Proof. apply forallb_app. Qed.

Lemma forallb_true_iff f l : forallb f l = true <-> Forall (fun x => f x = true) l.
Proof. rewrite forallb_forall, List.Forall_forall. done. Qed.

Lemma existsb_false_iff f l : existsb f l = false <-> Forall (fun x => f x = false) l.
Proof.
  induction l as [|x l IH]; cbn; [by split|].
  rewrite orb_false_iff, IH, Forall_cons. done.
Qed.

Lemma find_index_None f l : find_index f l = None <-> Forall (fun x => f x = false) l.
Proof.
  induction l as [|x l IH]; cbn; [by split|]. rewrite Forall_cons.
  destruct (f x); [naive_solver|]. destruct (find_index f l) as [[]|]; naive_solver.
Qed.

Lemma find_index_Some f l i x : find_index f l = Some (i, x) ->
  l !! i = Some x /\ f x = true /\ Forall (fun y => f y = false) (take i l).
Proof.
  revert i. induction l as [|y l IH]; intros i; cbn; [done|].
  destruct (f y) eqn:Ey; [intros [= <- ->]; naive_solver|].
  destruct (find_index f l) as [[j z]|]; [|done]. intros [= <- <-].
  destruct (IH j) as (?&?&?); [done|]. cbn. rewrite Forall_cons. naive_solver.
Qed.

Lemma find_index_ext f g l : (forall x, f x = g x) -> find_index f l = find_index g l.
Proof. intros Hfg. induction l as [|x l IH]; cbn; [done|]. by rewrite Hfg, IH. Qed.

Lemma app_inj_length (a1 a2 b1 b2 : list A) :
  length a1 = length a2 -> a1 ++ b1 = a2 ++ b2 -> a1 = a2 /\ b1 = b2.
Proof. intros Hl H. by apply app_inj_1. Qed.
End Lists.

#[export] Hint Rewrite @length_app @length_map @length_insert : av.
