(* ===== verification/Rust.v ===== *)
(** The parts of Rust's language and standard library the modelled crates use:
    fixed-width integers ([u64], [i64], their saturating, checked and wrapping
    operations), [str] as a list of Unicode scalar values with its UTF-8 and
    UTF-16 encodings and searching methods, character classes, and the decimal,
    hexadecimal and [{:?}] formatters. *)

From S2P Require Import Prelude.
From Stdlib Require Import DecimalN DecimalZ DecimalFacts Ascii.

(** * Machine integers *)

Definition u64_max : Z := 2 ^ 64 - 1.
Definition i64_max : Z := 2 ^ 63 - 1.
Definition i64_min : Z := - 2 ^ 63.

Definition is_u64 (n : Z) : Prop := 0 <= n <= u64_max.
Definition is_i64 (n : Z) : Prop := i64_min <= n <= i64_max.

(** [u64::saturating_add], [saturating_sub], [saturating_mul]. *)
Definition sat_add (a b : Z) : Z := Z.min (a + b) u64_max.
Definition sat_sub (a b : Z) : Z := Z.max (a - b) 0.
Definition sat_mul (a b : Z) : Z := Z.min (a * b) u64_max.

(** [u64::wrapping_mul]. *)
Definition wrapping_mul (a b : Z) : Z := (a * b) mod 2 ^ 64.

(** [u64::div_ceil]. *)
Definition div_ceil (a b : Z) : Z := a / b + (if a mod b >? 0 then 1 else 0).

(** [i64::try_from(u64)] and [u64::try_from(i64)]. *)
Definition i64_of_u64 (n : Z) : option Z := if n <=? i64_max then Some n else None.
Definition u64_of_i64 (n : Z) : option Z := if 0 <=? n then Some n else None.

(** [i64::checked_add] and [i64::saturating_sub]. *)
Definition i64_checked_add (a b : Z) : option Z :=
  let s := a + b in
  if (i64_min <=? s) && (s <=? i64_max) then Some s else None.
Definition i64_sat_sub (a b : Z) : Z := Z.max i64_min (Z.min i64_max (a - b)).

(** * Strings *)

(** A [str] is its sequence of [char]s, each a Unicode scalar value. *)
Abbreviation str := (list Z).

Fixpoint lit (s : string) : str :=
  match s with
  | String.EmptyString => []
  | String.String a s' => Z.of_N (N_of_ascii a) :: lit s'
  end.

Definition is_scalar (c : Z) : Prop := (0 <= c <= 0xD7FF) \/ (0xE000 <= c <= 0x10FFFF).

Definition str_eqb (a b : str) : bool := bool_decide (a = b).

(** [char::len_utf8] and [str::len]: a [str]'s length is counted in bytes. *)
Definition len_utf8 (c : Z) : Z :=
  if c <? 0x80 then 1 else if c <? 0x800 then 2 else if c <? 0x10000 then 3 else 4.

Fixpoint str_len (s : str) : Z :=
  match s with [] => 0 | c :: s' => len_utf8 c + str_len s' end.

(** [str::as_bytes]. *)
Definition encode_utf8_char (c : Z) : list Z :=
  if c <? 0x80 then [c]
  else if c <? 0x800 then [0xC0 + c / 64; 0x80 + c mod 64]
  else if c <? 0x10000 then
    [0xE0 + c / 4096; 0x80 + c / 64 mod 64; 0x80 + c mod 64]
  else
    [0xF0 + c / 262144; 0x80 + c / 4096 mod 64; 0x80 + c / 64 mod 64; 0x80 + c mod 64].

Definition as_bytes (s : str) : list Z := List.concat (map encode_utf8_char s).

(** [str::encode_utf16]: a supplementary-plane character is a surrogate pair. *)
Definition encode_utf16_char (c : Z) : list Z :=
  if c <? 0x10000 then [c]
  else let c' := c - 0x10000 in
       [0xD800 + c' / 0x400; 0xDC00 + c' mod 0x400].

Definition encode_utf16 (s : str) : list Z := List.concat (map encode_utf16_char s).

(** Lexicographic comparison of integer sequences ([Iterator::cmp]). *)
Fixpoint lex_cmp (a b : list Z) : comparison :=
  match a, b with
  | [], [] => Eq
  | [], _ => Lt
  | _, [] => Gt
  | x :: a', y :: b' =>
      match Z.compare x y with Eq => lex_cmp a' b' | c => c end
  end.

(** ** Searching *)

Fixpoint starts_with (p s : str) : bool :=
  match p, s with
  | [], _ => true
  | _, [] => false
  | x :: p', y :: s' => (x =? y) && starts_with p' s'
  end.

(** [str::split_once] / [str::find]: first occurrence of a pattern. *)
Fixpoint split_once (p s : str) : option (str * str) :=
  if starts_with p s then Some ([], drop (length p) s)
  else match s with
       | [] => None
       | c :: s' =>
           match split_once p s' with
           | Some (a, b) => Some (c :: a, b)
           | None => None
           end
       end.

(** [str::strip_prefix]. *)
Definition strip_prefix (p s : str) : option str :=
  if starts_with p s then Some (drop (length p) s) else None.

(** [str::rsplit_once] / [str::rfind]: last occurrence of a pattern. *)
Fixpoint rsplit_once (p s : str) : option (str * str) :=
  match s with
  | [] => if starts_with p s then Some ([], drop (length p) s) else None
  | c :: s' =>
      match rsplit_once p s' with
      | Some (a, b) => Some (c :: a, b)
      | None => if starts_with p s then Some ([], drop (length p) s) else None
      end
  end.

Definition contains (p s : str) : bool :=
  match split_once p s with Some _ => true | None => false end.

(** [str::matches(p).count()]: non-overlapping occurrences.  The fuel is the
    length of the text: every step consumes at least one character. *)
Fixpoint count_matches_fuel (fuel : nat) (p s : str) : nat :=
  match fuel with
  | O => 0
  | S fuel' =>
      match split_once p s with
      | Some (_, rest) => S (count_matches_fuel fuel' p rest)
      | None => 0
      end
  end.
Definition count_matches (p s : str) : nat := count_matches_fuel (S (length s)) p s.

(** The longest prefix whose characters fail [f], and the rest
    ([s.find(f)] as a split point, end of text when there is none). *)
Fixpoint break_at (f : Z -> bool) (s : str) : str * str :=
  match s with
  | [] => ([], [])
  | c :: s' => if f c then ([], s) else let '(a, b) := break_at f s' in (c :: a, b)
  end.

(** [trim_start_matches(c)] and [trim_end_matches(c)]. *)
Fixpoint trim_start_matches (c : Z) (s : str) : str :=
  match s with
  | [] => []
  | x :: s' => if x =? c then trim_start_matches c s' else s
  end.
Definition trim_end_matches (c : Z) (s : str) : str := rev (trim_start_matches c (rev s)).

(** ** Character classes *)

Definition is_ascii_lowercase (c : Z) : bool := (0x61 <=? c) && (c <=? 0x7A).
Definition is_ascii_uppercase (c : Z) : bool := (0x41 <=? c) && (c <=? 0x5A).
Definition is_ascii_digit (c : Z) : bool := (0x30 <=? c) && (c <=? 0x39).
Definition is_ascii_alphabetic (c : Z) : bool := is_ascii_lowercase c || is_ascii_uppercase c.
Definition is_ascii_alphanumeric (c : Z) : bool := is_ascii_alphabetic c || is_ascii_digit c.
Definition is_ascii (c : Z) : bool := (0 <=? c) && (c <=? 0x7F).

(** [u8::is_ascii_whitespace]: space, tab, line feed, form feed, return. *)
Definition is_ascii_whitespace (b : Z) : bool :=
  (b =? 0x20) || (b =? 0x09) || (b =? 0x0A) || (b =? 0x0C) || (b =? 0x0D).

(** [char::is_whitespace]: the Unicode [White_Space] property. *)
Definition is_whitespace (c : Z) : bool :=
  ((0x09 <=? c) && (c <=? 0x0D)) || (c =? 0x20) || (c =? 0x85) || (c =? 0xA0)
  || (c =? 0x1680) || ((0x2000 <=? c) && (c <=? 0x200A)) || (c =? 0x2028)
  || (c =? 0x2029) || (c =? 0x202F) || (c =? 0x205F) || (c =? 0x3000).

(** [char::is_control]: general category [Cc]. *)
Definition is_control (c : Z) : bool :=
  ((0 <=? c) && (c <=? 0x1F)) || ((0x7F <=? c) && (c <=? 0x9F)).

(** ** Formatting *)

Fixpoint uint_str (u : Decimal.uint) : str :=
  match u with
  | Decimal.Nil => []
  | Decimal.D0 u => 48 :: uint_str u | Decimal.D1 u => 49 :: uint_str u
  | Decimal.D2 u => 50 :: uint_str u | Decimal.D3 u => 51 :: uint_str u
  | Decimal.D4 u => 52 :: uint_str u | Decimal.D5 u => 53 :: uint_str u
  | Decimal.D6 u => 54 :: uint_str u | Decimal.D7 u => 55 :: uint_str u
  | Decimal.D8 u => 56 :: uint_str u | Decimal.D9 u => 57 :: uint_str u
  end.

(** [{}] on an integer. *)
Definition fmt_int (z : Z) : str :=
  match Z.to_int z with
  | Decimal.Pos u => uint_str u
  | Decimal.Neg u => 45 :: uint_str u
  end.

(** [{:0w$}] on a non-negative integer. *)
Definition fmt_pad (w : nat) (z : Z) : str :=
  let d := fmt_int z in replicate (w - length d) 48 ++ d.

Definition hex_digit (n : Z) : Z := if n <? 10 then 48 + n else 87 + n.

(** [hex::encode], lower case. *)
Definition hex_encode (bs : list Z) : str :=
  List.concat (map (fun b => [hex_digit (b / 16); hex_digit (b mod 16)]) bs).

(** [{:04x}] on a value below 2^16. *)
Definition fmt_04x (n : Z) : str :=
  [hex_digit (n / 4096); hex_digit (n / 256 mod 16); hex_digit (n / 16 mod 16);
   hex_digit (n mod 16)].

(** Lower-case hexadecimal without leading zeros ([{:x}]), for values below 2^24. *)
Definition fmt_x (n : Z) : str :=
  let ds := [hex_digit (n / 1048576 mod 16); hex_digit (n / 65536 mod 16);
             hex_digit (n / 4096 mod 16); hex_digit (n / 256 mod 16);
             hex_digit (n / 16 mod 16)] in
  trim_start_matches 48 ds ++ [hex_digit (n mod 16)].

(** The two Unicode data tables that [{:?}] consults for non-ASCII characters. *)
Class UnicodeTables := {
  is_printable : Z -> bool;
  is_grapheme_extended : Z -> bool;
}.

Section Debug.
Context {UT : UnicodeTables}.

(** [char::escape_debug_ext]: whether grapheme extenders, single quotes and
    double quotes are escaped. *)
Definition escape_debug_ext (grapheme single double : bool) (c : Z) : str :=
  if c =? 0 then [92; 48]
  else if c =? 9 then [92; 116]
  else if c =? 13 then [92; 114]
  else if c =? 10 then [92; 110]
  else if (c =? 34) && double then [92; 34]
  else if (c =? 39) && single then [92; 39]
  else if c =? 92 then [92; 92]
  else if is_ascii c then
    if is_control c then lit "\u{" ++ fmt_x c ++ [125] else [c]
  else if (is_grapheme_extended c && grapheme) || negb (is_printable c)
       then lit "\u{" ++ fmt_x c ++ [125]
  else [c].

(** The flags of [<str as Debug>::fmt]. *)
Definition escape_debug_char (c : Z) : str := escape_debug_ext true false true c.

(** [str::escape_debug]. *)
Definition escape_debug (s : str) : str :=
  match s with
  | [] => []
  | c :: s' => escape_debug_ext true true true c
               ++ List.concat (map (escape_debug_ext false true true) s')
  end.

(** [{s:?}] on a [str]. *)
Definition fmt_debug (s : str) : str :=
  34 :: List.concat (map escape_debug_char s) ++ [34].
End Debug.

(** An instance good enough for evaluating the model on ASCII text. *)
Definition ascii_tables : UnicodeTables :=
  {| is_printable := fun _ => true; is_grapheme_extended := fun _ => false |}.

(** * Lemmas *)

(** Evaluate every string literal of the goal and the hypotheses. *)
Ltac eval_lit :=
  repeat match goal with
  | |- context [lit ?s] => let v := eval vm_compute in (lit s) in change (lit s) with v
  | H : context [lit ?s] |- _ =>
      let v := eval vm_compute in (lit s) in change (lit s) with v in H
  end.

Lemma str_eqb_eq a b : str_eqb a b = true <-> a = b.
Proof. apply bool_decide_eq_true. Qed.

Lemma str_eqb_neq a b : str_eqb a b = false <-> a <> b.
Proof. apply bool_decide_eq_false. Qed.

Lemma str_eqb_refl a : str_eqb a a = true.
Proof. by apply str_eqb_eq. Qed.

Lemma starts_with_app p s : starts_with p (p ++ s) = true.
Proof. induction p; cbn; [done|]. by rewrite Z.eqb_refl. Qed.

Lemma starts_with_iff p s : starts_with p s = true <-> exists r, s = p ++ r.
Proof.
  split.
  - revert s. induction p as [|x p IH]; intros s; cbn; [by exists s|].
    destruct s as [|y s]; [done|]. intros [->%Z.eqb_eq [r ->]%IH]%andb_prop. by exists r.
  - intros [r ->]. apply starts_with_app.
Qed.

Lemma sat_sub_le a b : 0 <= b -> 0 <= a -> sat_sub a b <= a.
Proof. unfold sat_sub. lia. Qed.

Lemma div_ceil_4 n : 0 <= n -> div_ceil n 4 = (n + 3) / 4.
Proof.
  intros H. unfold div_ceil. destruct (n mod 4 >? 0) eqn:E; b2p;
    pose proof (Z.mod_pos_bound n 4); Z.div_mod_to_equations; lia.
Qed.

(** Two texts over a class of characters, each followed by a character outside
    the class (or by nothing), agree piecewise when their concatenations agree. *)
Lemma span_unique (P : Z -> bool) a b r r' :
  Forall (fun c => P c = true) a -> Forall (fun c => P c = true) b ->
  (forall c x, r = c :: x -> P c = false) -> (forall c x, r' = c :: x -> P c = false) ->
  a ++ r = b ++ r' -> a = b /\ r = r'.
Proof.
  revert b. induction a as [|x a IH]; intros b Ha Hb Hr Hr' H.
  - destruct b as [|y b]; [done|]. cbn in H. apply Forall_cons in Hb as [Hy _].
    by rewrite (Hr _ _ H) in Hy.
  - apply Forall_cons in Ha as [Hx Ha]. destruct b as [|y b]; cbn in H.
    + by rewrite (Hr' x (a ++ r)) in Hx by done.
    + apply Forall_cons in Hb as [_ Hb]. injection H as -> H0.
      destruct (IH b Ha Hb Hr Hr' H0) as [-> ->]. done.
Qed.

(** ** Decimal text *)

Lemma uint_str_inj u u' : uint_str u = uint_str u' -> u = u'.
Proof.
  revert u'. induction u; destruct u'; cbn; intros H; try done; injection H as H; f_equal; auto.
Qed.

Lemma uint_str_digits u : Forall (fun c => is_ascii_digit c = true) (uint_str u).
Proof. induction u; constructor; done. Qed.

Definition int_char (c : Z) : bool := is_ascii_digit c || (c =? 45).

Lemma fmt_int_chars z : Forall (fun c => int_char c = true) (fmt_int z).
Proof.
  unfold fmt_int. destruct (Z.to_int z) as [u|u]; [|constructor; [done|]];
    (eapply Forall_impl; [apply uint_str_digits|]); intros c Hc; unfold int_char; by rewrite Hc.
Qed.

Lemma fmt_int_inj z z' : fmt_int z = fmt_int z' -> z = z'.
Proof.
  intros H. rewrite <- (DecimalZ.of_to z), <- (DecimalZ.of_to z'). f_equal.
  unfold fmt_int in H.
  assert (forall u u', uint_str u <> 45 :: uint_str u') as Hne.
  { intros u u' Hu. pose proof (uint_str_digits u) as Hd. rewrite Hu in Hd.
    apply Forall_cons in Hd as [Hd _]. done. }
  destruct (Z.to_int z) as [u|u], (Z.to_int z') as [u'|u'].
  - by apply uint_str_inj in H as ->.
  - by apply Hne in H.
  - symmetry in H. by apply Hne in H.
  - injection H as H. by apply uint_str_inj in H as ->.
Qed.

Lemma fmt_int_nonempty z : fmt_int z <> [].
Proof.
  unfold fmt_int. destruct z as [|p|p]; cbn; [done|..|done].
  change (Pos.to_uint p) with (N.to_uint (Npos p)). intros H.
  assert (N.to_uint (Npos p) = Decimal.Nil) as Hn by (by apply uint_str_inj).
  assert (N.of_uint (N.to_uint (Npos p)) = 0%N) as H0 by (by rewrite Hn).
  rewrite DecimalN.Unsigned.of_to in H0. done.
Qed.

Lemma hex_digit_inj a b : 0 <= a < 16 -> 0 <= b < 16 -> hex_digit a = hex_digit b -> a = b.
Proof. unfold hex_digit. intros. repeat case_match; b2p; lia. Qed.

Lemma fmt_04x_inj a b : 0 <= a < 4096 -> 0 <= b < 4096 -> fmt_04x a = fmt_04x b -> a = b.
Proof.
  unfold fmt_04x. intros Ha Hb H. injection H as _ H1 H2 H3.
  apply hex_digit_inj in H1, H2, H3; try (apply Z.mod_pos_bound; lia).
  Z.div_mod_to_equations. lia.
Qed.

(** ** Encodings *)

Lemma lex_cmp_eq a b : lex_cmp a b = Eq <-> a = b.
Proof.
  revert b. induction a as [|x a IH]; intros [|y b]; cbn; try done.
  destruct (Z.compare_spec x y); subst; rewrite ?IH; naive_solver lia.
Qed.

Lemma lex_cmp_antisym a b : lex_cmp b a = CompOpp (lex_cmp a b).
Proof.
  revert b. induction a as [|x a IH]; intros [|y b]; cbn; try done.
  rewrite (Z.compare_antisym x y). destruct (x ?= y); cbn; [apply IH|done..].
Qed.

Lemma lex_cmp_trans a b c : lex_cmp a b <> Gt -> lex_cmp b c <> Gt -> lex_cmp a c <> Gt.
Proof.
  revert b c. induction a as [|x a IH]; intros [|y b] [|z c]; cbn; try done.
  destruct (Z.compare_spec x y), (Z.compare_spec y z), (Z.compare_spec x z);
    subst; try done; try lia. apply IH.
Qed.

Lemma encode_utf16_char_inj c c' x y : is_scalar c -> is_scalar c' ->
  encode_utf16_char c ++ x = encode_utf16_char c' ++ y -> c = c' /\ x = y.
Proof.
  unfold encode_utf16_char, is_scalar. intros Hc Hc' H.
  destruct (c <? 65536) eqn:E, (c' <? 65536) eqn:E'; b2p; cbn in H; injection H; intros; subst;
    try (split; [lia|done]); Z.div_mod_to_equations; first [lia|split; [lia|done]].
Qed.

Lemma encode_utf16_inj s s' : Forall is_scalar s -> Forall is_scalar s' ->
  encode_utf16 s = encode_utf16 s' -> s = s'.
Proof.
  unfold encode_utf16. revert s'. induction s as [|c s IH]; intros [|c' s'] Hs Hs'; cbn; try done.
  - intros H. unfold encode_utf16_char in H. by case_match.
  - intros H. unfold encode_utf16_char in H. by case_match.
  - apply Forall_cons in Hs as [? ?], Hs' as [? ?]. intros Heq.
    apply encode_utf16_char_inj in Heq as [-> Heq]; [|done..]. f_equal. by apply IH.
Qed.

Lemma encode_utf8_char_inj c c' x y : is_scalar c -> is_scalar c' ->
  encode_utf8_char c ++ x = encode_utf8_char c' ++ y -> c = c' /\ x = y.
Proof.
  unfold encode_utf8_char, is_scalar. intros Hc Hc' H.
  destruct (c <? 128) eqn:E1; [|destruct (c <? 2048) eqn:E2; [|destruct (c <? 65536) eqn:E3]];
  (destruct (c' <? 128) eqn:E1'; [|destruct (c' <? 2048) eqn:E2'; [|destruct (c' <? 65536) eqn:E3']]);
  b2p; cbn in H; injection H; intros; subst;
    first [exfalso; Z.div_mod_to_equations; lia
          |split; [Z.div_mod_to_equations; lia|done]].
Qed.

Lemma as_bytes_inj s s' : Forall is_scalar s -> Forall is_scalar s' ->
  as_bytes s = as_bytes s' -> s = s'.
Proof.
  unfold as_bytes. revert s'. induction s as [|c s IH]; intros [|c' s'] Hs Hs'; cbn; try done.
  - intros H. unfold encode_utf8_char in H. by repeat case_match.
  - intros H. unfold encode_utf8_char in H. by repeat case_match.
  - apply Forall_cons in Hs as [? ?], Hs' as [? ?]. intros Heq.
    apply encode_utf8_char_inj in Heq as [-> Heq]; [|done..]. f_equal. by apply IH.
Qed.
