(* ===== verification/CoreBase.v ===== *)
(** The small leaf modules of [av-core]: [error.rs], [units.rs], [hash.rs],
    and [digest.rs]. *)

From S2P Require Import Prelude Rust.

(** * error.rs *)

Inductive CoreError :=
| UnsafeInteger (n : Z)
| CoreOverflow (context : str)
| InvalidId (reason : str).

Definition JCS_SAFE_MAX : Z := Z.shiftl 1 53.

Definition check_jcs_safe (n : Z) : result Z CoreError :=
  if n >? JCS_SAFE_MAX then Err (UnsafeInteger n) else Ok n.

(** * units.rs *)

Definition MS_PER_SEC : Z := 1000.
Definition MS_PER_HOUR : Z := 3600 * MS_PER_SEC.
Definition MS_PER_DAY : Z := 24 * MS_PER_HOUR.
Definition SECS_PER_DAY : Z := 24 * 3600.
Definition USD_MICROS_PER_DOLLAR : Z := 1000000.
Definition COST_MICROS_MAX : Z := 9000000000 * USD_MICROS_PER_DOLLAR.

(** * hash.rs *)

Definition FNV_OFFSET : Z := 0xcbf29ce484222325.
Definition FNV_PRIME : Z := 0x100000001b3.

Definition fnv1a (bytes : list Z) : Z :=
  fold_left (fun h b => wrapping_mul (Z.lxor h b) FNV_PRIME) bytes FNV_OFFSET.

(** * digest.rs *)

(** The [sha2] crate's SHA-256: a total function from byte strings to 32 bytes. *)
Class Sha256 := {
  sha256 : list Z -> list Z;
  sha256_length m : length (sha256 m) = 32%nat;
  sha256_byte m : Forall (fun b => 0 <= b < 256) (sha256 m);
}.

Section Digest.
Context {SHA : Sha256}.

Definition sha256_hex (data : list Z) : str := hex_encode (sha256 data).

(** [Digest::update] over the parts is hashing their concatenation. *)
Definition sha256_concat_hex (parts : list (list Z)) : str := hex_encode (sha256 (concat parts)).
End Digest.

(** A toy digest for evaluating the model: the first 32 bytes, zero padded. *)
Definition toy_digest (m : list Z) : list Z :=
  map (fun b => b mod 256) (take 32 (m ++ replicate 32 0)).

Lemma toy_digest_length m : length (toy_digest m) = 32%nat.
Proof. unfold toy_digest. rewrite length_map, length_take, length_app, length_replicate. lia. Qed.

Lemma toy_digest_byte m : Forall (fun b => 0 <= b < 256) (toy_digest m).
Proof. apply Forall_fmap, Forall_true. intros b. apply Z.mod_pos_bound. lia. Qed.

Definition toy_sha256 : Sha256 :=
  {| sha256 := toy_digest; sha256_length := toy_digest_length; sha256_byte := toy_digest_byte |}.
