(* ===== verification/Json.v ===== *)
(** [serde_json::Value] as the crates use it (built with [preserve_order], so a
    [Map] keeps insertion order and compares without regard to it), with the
    accessors, [Map::insert] and the equality the code relies on.  Parsing and
    printing are the crate's own and enter the model as a class. *)

From S2P Require Import Prelude Rust.
From Stdlib Require Export SpecFloat.

(** * IEEE-754 doubles *)

Abbreviation f64 := spec_float.
Definition f64_prec : Z := 53.
Definition f64_emax : Z := 1024.

(** [n as f64], rounding to nearest even. *)
Definition f64_of_int (n : Z) : f64 := binary_normalize f64_prec f64_emax n 0 false.

Definition is_finite (f : spec_float) : bool :=
  match f with S754_zero _ | S754_finite _ _ _ => true | _ => false end.

(** * Values *)

(** [serde_json::Number]'s three representations. *)
Inductive number :=
| PosInt (u : Z)
| NegInt (i : Z)
| Float (f : f64).

Inductive Value :=
| Null
| Bool (b : bool)
| Number (n : number)
| JString (s : str)
| Array (items : list Value)
| Object (members : list (str * Value)).

Definition as_u64 (n : number) : option Z :=
  match n with PosInt u => Some u | _ => None end.

Definition as_i64 (n : number) : option Z :=
  match n with
  | PosInt u => if u <=? i64_max then Some u else None
  | NegInt i => Some i
  | Float _ => None
  end.

Definition num_as_f64 (n : number) : option f64 :=
  match n with
  | PosInt u => Some (f64_of_int u)
  | NegInt i => Some (f64_of_int i)
  | Float f => Some f
  end.

Definition as_f64 (v : Value) : option f64 :=
  match v with Number n => num_as_f64 n | _ => None end.

Definition as_str (v : Value) : option str :=
  match v with JString s => Some s | _ => None end.
Definition as_array (v : Value) : option (list Value) :=
  match v with Array l => Some l | _ => None end.
Definition as_object (v : Value) : option (list (str * Value)) :=
  match v with Object m => Some m | _ => None end.
Definition is_object (v : Value) : bool :=
  match v with Object _ => true | _ => false end.

(** [Map::get], [Map::contains_key]. *)
Fixpoint map_get (key : str) (m : list (str * Value)) : option Value :=
  match m with
  | [] => None
  | (k, v) :: m' => if str_eqb k key then Some v else map_get key m'
  end.
Definition contains_key (key : str) (m : list (str * Value)) : bool :=
  match map_get key m with Some _ => true | None => false end.

(** [Map::insert]: replaces in place, or appends a new key. *)
Fixpoint map_insert (key : str) (v : Value) (m : list (str * Value)) : list (str * Value) :=
  match m with
  | [] => [(key, v)]
  | (k, w) :: m' => if str_eqb k key then (k, v) :: m' else (k, w) :: map_insert key v m'
  end.

(** [Value::get(key)]: [None] unless the value is an object. *)
Definition value_get (key : str) (v : Value) : option Value :=
  match v with Object m => map_get key m | _ => None end.

(** [obj.insert(key, x)] through [as_object_mut]: no effect on a non-object. *)
Definition value_insert (key : str) (x v : Value) : Value :=
  match v with Object m => Object (map_insert key x m) | _ => v end.

(** [Number]'s derived [PartialEq]. *)
Definition number_eqb (a b : number) : bool :=
  match a, b with
  | PosInt x, PosInt y => x =? y
  | NegInt x, NegInt y => x =? y
  | Float x, Float y => SFeqb x y
  | _, _ => false
  end.

(** [Value]'s [PartialEq]: objects compare as maps, whatever the order. *)
Fixpoint value_eqb (a b : Value) {struct a} : bool :=
  match a, b with
  | Null, Null => true
  | Bool x, Bool y => Bool.eqb x y
  | Number x, Number y => number_eqb x y
  | JString x, JString y => str_eqb x y
  | Array l, Array l' =>
      (fix go (l l' : list Value) : bool :=
         match l, l' with
         | [], [] => true
         | x :: r, y :: r' => value_eqb x y && go r r'
         | _, _ => false
         end) l l'
  | Object m, Object m' =>
      (length m =? length m')%nat &&
      forallb (fun kv => match kv with
                         | (k, x) => match map_get k m' with
                                     | Some y => value_eqb x y
                                     | None => false
                                     end
                         end) m
  | _, _ => false
  end.

(** * Well-formed values *)

Definition number_wf (n : number) : Prop :=
  match n with
  | PosInt u => is_u64 u
  | NegInt i => i64_min <= i < 0
  | Float f => is_finite f = true
  end.

(** What the types guarantee of a [Value]: scalar values in strings, integers in
    range, and distinct keys in every object. *)
Fixpoint value_wf (v : Value) : Prop :=
  match v with
  | Null | Bool _ => True
  | Number n => number_wf n
  | JString s => Forall is_scalar s
  | Array l => (fix all (l : list Value) : Prop :=
                  match l with [] => True | x :: r => value_wf x /\ all r end) l
  | Object m => NoDup (map fst m) /\
      (fix all (m : list (str * Value)) : Prop :=
         match m with
         | [] => True
         | (k, x) :: r => Forall is_scalar k /\ value_wf x /\ all r
         end) m
  end.

(** * The serde_json crate *)

(** [from_slice] / [from_str] and [to_string]. *)
Class SerdeJson := {
  from_bytes : list Z -> result Value str;
  to_string : Value -> str;
}.

(** * Induction *)

Section Induction.
Variable P : Value -> Prop.
Hypothesis HNull : P Null.
Hypothesis HBool : forall b, P (Bool b).
Hypothesis HNumber : forall n, P (Number n).
Hypothesis HString : forall s, P (JString s).
Hypothesis HArray : forall l, Forall P l -> P (Array l).
Hypothesis HObject : forall m, Forall (fun kv => P kv.2) m -> P (Object m).

Fixpoint value_ind' (v : Value) : P v :=
  match v with
  | Null => HNull
  | Bool b => HBool b
  | Number n => HNumber n
  | JString s => HString s
  | Array l => HArray l ((fix all (l : list Value) : Forall P l :=
      match l with
      | [] => Forall_nil_2 _
      | x :: r => Forall_cons_2 _ _ _ (value_ind' x) (all r)
      end) l)
  | Object m => HObject m ((fix all (m : list (str * Value)) : Forall (fun kv => P kv.2) m :=
      match m with
      | [] => Forall_nil_2 _
      | kv :: r => Forall_cons_2 (fun kv => P kv.2) _ _ (value_ind' kv.2) (all r)
      end) m)
  end.
End Induction.

Lemma value_wf_array l : value_wf (Array l) <-> Forall value_wf l.
Proof. cbn. induction l as [|x l IH]; [by split|]. rewrite Forall_cons, <- IH. done. Qed.

Lemma value_wf_object m : value_wf (Object m) <->
  NoDup (map fst m) /\ Forall (fun kv => Forall is_scalar kv.1 /\ value_wf kv.2) m.
Proof.
  cbn. apply and_iff_compat_l. induction m as [|[k x] m IH]; [by split|].
  rewrite Forall_cons, <- IH. cbn. tauto.
Qed.

Lemma map_get_insert_eq k v m : map_get k (map_insert k v m) = Some v.
Proof.
  induction m as [|[k' w] m IH]; cbn; [by rewrite str_eqb_refl|].
  destruct (str_eqb k' k) eqn:E; cbn; by rewrite E.
Qed.

Lemma map_get_insert_ne k k' v m : k <> k' -> map_get k' (map_insert k v m) = map_get k' m.
Proof.
  intros Hne. induction m as [|[k2 w] m IH]; cbn.
  { by rewrite (proj2 (str_eqb_neq _ _)). }
  destruct (str_eqb k2 k) eqn:E; cbn; [|by rewrite IH].
  apply str_eqb_eq in E as ->. by rewrite (proj2 (str_eqb_neq _ _)).
Qed.

Lemma map_get_In k m v : map_get k m = Some v -> (k, v) ∈ m.
Proof.
  induction m as [|[k' w] m IH]; cbn; [done|]. destruct (str_eqb k' k) eqn:E.
  - apply str_eqb_eq in E as ->. intros [= ->]. by left.
  - intros H. right. by apply IH.
Qed.

(** Inserting under a new key appends. *)
Lemma map_insert_fresh k v m : k ∉ map fst m -> map_insert k v m = m ++ [(k, v)].
Proof.
  induction m as [|[k' w] m IH]; cbn; [done|]. intros H. apply not_elem_of_cons in H as [Hk H].
  rewrite (proj2 (str_eqb_neq k' k)) by congruence. by rewrite IH.
Qed.
