(* ===== verification/Float.v ===== *)
(** Rust's [f32] and [f64] on the standard library's [SpecFloat] (IEEE 754 with
    rounding to nearest even): the operations the loop detector and the payout
    gate use, and the order lemmas their proofs need. *)

From S2P Require Import Prelude Rust Json.

(** * Operations *)

Abbreviation f32 := spec_float.
Definition f32_prec : Z := 24.
Definition f32_emax : Z := 128.

Definition f32_add := SFadd f32_prec f32_emax.
Definition f32_sub := SFsub f32_prec f32_emax.
Definition f32_mul := SFmul f32_prec f32_emax.
Definition f32_div := SFdiv f32_prec f32_emax.
Definition f32_sqrt := SFsqrt f32_prec f32_emax.
Definition f64_add := SFadd f64_prec f64_emax.
Definition f64_mul := SFmul f64_prec f64_emax.
Definition f64_div := SFdiv f64_prec f64_emax.
Definition f64_sqrt := SFsqrt f64_prec f64_emax.

Definition f32_of_int (n : Z) : f32 := binary_normalize f32_prec f32_emax n 0 false.

(** Conversion between formats: exact when widening, rounding when narrowing. *)
Definition sf_convert (prec emax : Z) (f : spec_float) : spec_float :=
  match f with
  | S754_finite s m e => binary_normalize prec emax (if s then Zneg m else Zpos m) e s
  | _ => f
  end.
Definition f64_from_f32 : f32 -> f64 := sf_convert f64_prec f64_emax.
Definition f32_from_f64 : f64 -> f32 := sf_convert f32_prec f32_emax.

Definition zero : spec_float := S754_zero false.
Definition one_f32 : f32 := f32_of_int 1.

Definition is_nan (f : spec_float) : bool := match f with S754_nan => true | _ => false end.

(** [f32::min]: a NaN argument is ignored. *)
Definition fmin (a b : spec_float) : spec_float :=
  if is_nan a then b else if is_nan b then a else if SFltb b a then b else a.

(** [f32::clamp]: a NaN stays a NaN. *)
Definition fclamp (lo hi f : spec_float) : spec_float :=
  if SFltb f lo then lo else if SFltb hi f then hi else f.

(** [Iterator::sum] for floats starts from negative zero. *)
Definition f64_sum (l : list f64) : f64 := fold_left f64_add l (S754_zero true).
Definition f32_sum (l : list f32) : f32 := fold_left f32_add l (S754_zero true).

(** * Order *)

(** The rank of a number that is not a NaN. *)
Definition rank (f : spec_float) : list Z :=
  match f with
  | S754_nan => []
  | S754_infinity true => [-2; 0; 0]
  | S754_finite true m e => [-1; - e; Zneg m]
  | S754_zero _ => [0; 0; 0]
  | S754_finite false m e => [1; e; Zpos m]
  | S754_infinity false => [2; 0; 0]
  end.

Lemma compare_cont_Zcompare m n : Pos.compare_cont Eq m n = (Zpos m ?= Zpos n).
Proof. reflexivity. Qed.

Lemma SFcompare_rank a b : is_nan a = false -> is_nan b = false ->
  SFcompare a b = Some (lex_cmp (rank a) (rank b)).
Proof.
  destruct a as [?|[]| |[] m e], b as [?|[]| |[] m' e']; try done; intros _ _; cbn -[Z.compare].
  - rewrite Z.compare_opp, (Z.compare_antisym e e').
    change (Zneg m ?= Zneg m') with (CompOpp (Zpos m ?= Zpos m')). rewrite compare_cont_Zcompare.
    destruct (e ?= e'); try done. by destruct (Zpos m ?= Zpos m').
  - rewrite compare_cont_Zcompare. destruct (e ?= e'); try done. by destruct (Zpos m ?= Zpos m').
Qed.

Lemma SFltb_rank a b : SFltb a b = true <->
  is_nan a = false /\ is_nan b = false /\ lex_cmp (rank a) (rank b) = Lt.
Proof.
  unfold SFltb. destruct (is_nan a) eqn:Ea; [destruct a; naive_solver|].
  destruct (is_nan b) eqn:Eb; [destruct a, b; naive_solver|].
  rewrite SFcompare_rank by done. destruct (lex_cmp _ _); naive_solver.
Qed.

Lemma lex_cmp_lt_trans a b c : lex_cmp a b = Lt -> lex_cmp b c = Lt -> lex_cmp a c = Lt.
Proof.
  intros Hab Hbc. destruct (lex_cmp a c) eqn:E; [|done|].
  - apply lex_cmp_eq in E as <-. rewrite lex_cmp_antisym, Hab in Hbc. done.
  - exfalso. apply (lex_cmp_trans a b c); [congruence..|done].
Qed.

Lemma SFltb_trans a b c : SFltb a b = true -> SFltb b c = true -> SFltb a c = true.
Proof.
  rewrite !SFltb_rank. intros (?&?&?) (?&?&?). repeat split; try done. by eapply lex_cmp_lt_trans.
Qed.

Lemma SFltb_irrefl a : SFltb a a = false.
Proof.
  apply not_true_is_false. rewrite SFltb_rank. intros (_ & _ & H).
  assert (lex_cmp (rank a) (rank a) = Eq) by (by apply lex_cmp_eq). congruence.
Qed.

(** The minimum is below a threshold exactly when one of the two is. *)
Lemma fmin_ltb a b t : SFltb (fmin a b) t = SFltb a t || SFltb b t.
Proof.
  unfold fmin. destruct (is_nan a) eqn:Ea.
  { destruct a; try done. }
  destruct (is_nan b) eqn:Eb.
  { destruct b; try done. rewrite orb_comm. done. }
  destruct (SFltb b a) eqn:Eba.
  - destruct (SFltb a t) eqn:Eat; [|done]. by rewrite (SFltb_trans b a t).
  - destruct (SFltb b t) eqn:Ebt; [|by rewrite orb_false_r]. rewrite orb_true_r.
    apply SFltb_rank in Ebt as (_ & Ht & Hlt). apply SFltb_rank. split; [done|]. split; [done|].
    destruct (lex_cmp (rank a) (rank b)) eqn:E.
    + apply lex_cmp_eq in E. by rewrite E.
    + by eapply lex_cmp_lt_trans.
    + exfalso. revert Eba. apply eq_true_false_abs. apply SFltb_rank.
      split; [done|]. split; [done|]. by rewrite lex_cmp_antisym, E.
Qed.

Lemma fold_fmin_ltb l a t :
  SFltb (fold_left fmin l a) t = SFltb a t || existsb (fun x => SFltb x t) l.
Proof.
  revert a. induction l as [|x l IH]; intros a; cbn; [by rewrite orb_false_r|].
  by rewrite IH, fmin_ltb, orb_assoc.
Qed.

(** * Rounding keeps positive numbers positive *)

Section Rounding.
Variables prec emax : Z.
Hypothesis prec_pos : 0 < prec.

Lemma digits2_bound p : 2 ^ (Zpos (digits2_pos p) - 1) <= Zpos p < 2 ^ Zpos (digits2_pos p).
Proof.
  induction p as [p IH|p IH|]; cbn [digits2_pos]; [..|done];
    rewrite Pos2Z.inj_succ, Z.pow_succ_r by lia;
    replace (Z.succ (Zpos (digits2_pos p)) - 1) with (Z.succ (Zpos (digits2_pos p) - 1)) by lia;
    rewrite Z.pow_succ_r by lia; lia.
Qed.

Lemma shr_1_half r : 0 <= shr_m r -> shr_m (shr_1 r) = shr_m r / 2.
Proof.
  destruct r as [[|p|p] rb sb]; cbn; [done| |lia]. intros _.
  destruct p; cbn; [..|done]; Z.div_mod_to_equations; lia.
Qed.

Lemma iter_shr p r : 0 <= shr_m r -> shr_m (iter_pos shr_1 p r) = shr_m r / 2 ^ Zpos p.
Proof.
  assert (forall q, 0 < 2 ^ Zpos q) as H2 by (intros q; apply Z.pow_pos_nonneg; lia).
  revert r. induction p as [p IH|p IH|]; intros r Hr; cbn [iter_pos].
  - assert (0 <= shr_m (shr_1 r)) as H1 by (rewrite shr_1_half by done; apply Z.div_pos; lia).
    rewrite IH by (rewrite IH by done; apply Z.div_pos; [done|apply H2]).
    rewrite IH, shr_1_half by done. rewrite !Z.div_div by (try apply Z.pow_nonzero; try apply H2; lia).
    f_equal. rewrite (Pos2Z.inj_xI p). replace (2 * Zpos p + 1) with (1 + Zpos p + Zpos p) by lia.
    rewrite !Z.pow_add_r by lia. lia.
  - rewrite IH by (rewrite IH by done; apply Z.div_pos; [done|apply H2]). rewrite IH by done.
    rewrite Z.div_div by (try apply Z.pow_nonzero; try apply H2; lia).
    f_equal. rewrite (Pos2Z.inj_xO p). replace (2 * Zpos p) with (Zpos p + Zpos p) by lia.
    by rewrite Z.pow_add_r by lia.
  - by rewrite shr_1_half.
Qed.

(** A shift that drops fewer digits than there are leaves a positive mantissa. *)
Lemma shr_positive r p e n : shr_m r = Zpos p -> n < Zpos (digits2_pos p) ->
  exists q, shr_m (shr r e n).1 = Zpos q /\ (shr r e n).2 = e + Z.max n 0.
Proof.
  intros Hr Hn. destruct n as [|n|n]; cbn [shr fst snd]; [exists p; split; [done|lia]| |exists p; split; [done|lia]].
  rewrite iter_shr by (rewrite Hr; lia). rewrite Hr.
  assert (0 < Zpos p / 2 ^ Zpos n) as Hq.
  { apply Z.div_str_pos. split; [apply Z.pow_pos_nonneg; lia|].
    destruct (digits2_bound p) as [Hd _]. etransitivity; [|exact Hd].
    apply Z.pow_le_mono_r; lia. }
  destruct (Zpos p / 2 ^ Zpos n) as [|q|q]; try lia. exists q. split; [done|lia].
Qed.

Lemma shr_record_of_loc_m m l : shr_m (shr_record_of_loc m l) = m.
Proof. by destruct l as [|[]]. Qed.

Lemma round_up m l p : m = Zpos p -> exists q, round_nearest_even m l = Zpos q.
Proof.
  intros ->. unfold round_nearest_even.
  destruct l as [|[]]; try case_match; try (by eexists);
    (destruct (Zpos p + 1) as [|q|q] eqn:E; [lia|by eexists|lia]).
Qed.

Lemma binary_round_positive p ex :
  emin prec emax - ex < Zpos (digits2_pos p) ->
  match binary_round_aux prec emax false (Zpos p) ex loc_Exact with
  | S754_finite false _ _ | S754_infinity false => True
  | _ => False
  end.
Proof.
  intros Hex. unfold binary_round_aux, shr_fexp. cbn [Zdigits2].
  set (n1 := fexp prec emax (Zpos (digits2_pos p) + ex) - ex).
  destruct (shr_positive (shr_record_of_loc (Zpos p) loc_Exact) p ex n1) as (p1 & Hm1 & He1).
  { apply shr_record_of_loc_m. }
  { unfold n1, fexp. lia. }
  destruct (shr (shr_record_of_loc (Zpos p) loc_Exact) ex n1) as [r1 e1]. cbn [fst snd] in Hm1, He1.
  destruct (round_up (shr_m r1) (loc_of_shr_record r1) p1 Hm1) as [p2 Hp2]. rewrite Hp2.
  cbn [Zdigits2]. set (n2 := fexp prec emax (Zpos (digits2_pos p2) + e1) - e1).
  destruct (shr_positive (shr_record_of_loc (Zpos p2) loc_Exact) p2 e1 n2) as (p3 & Hm3 & He3).
  { apply shr_record_of_loc_m. }
  { unfold n2, fexp. subst e1. unfold n1, fexp. lia. }
  destruct (shr (shr_record_of_loc (Zpos p2) loc_Exact) e1 n2) as [r3 e3]. cbn [fst snd] in Hm3.
  rewrite Hm3. by destruct (e3 <=? emax - prec).
Qed.
End Rounding.
