(* ===== verification/LoopDetect.v ===== *)
(** The loop detector ([av-loopdetect]): the feature-hashing embedder and the
    cosine of [embed.rs], and the per-session circuit breaker of [breaker.rs].
    The breaker's state sits behind one mutex, so an operation is a function
    from the state to the new state and its answer. *)

From S2P Require Import Prelude Rust CoreBase Json Float.

(** * embed.rs *)

(** The [Embedder] trait; [try_embed]'s default is [Ok] of [embed]. *)
Class Embedder := {
  dim : Z;
  embed : str -> list f32;
}.

Definition try_embed {E : Embedder} (text : str) : result (list f32) str := Ok (embed text).

(** [char::to_lowercase], a Unicode table.  The lower case of a character that
    is not white space never contains a space. *)
Class Lowercase := {
  to_lowercase : Z -> str;
  to_lowercase_no_space c : is_whitespace c = false ->
    Forall (fun l => l <> 32) (to_lowercase c) /\ to_lowercase c <> [];
}.

Section Hash.
Context {LC : Lowercase}.

(** The loop that normalizes the text, over [(out, last_ws)]. *)
Fixpoint normalize_loop (out : str) (last_ws : bool) (text : str) : str :=
  match text with
  | [] => out
  | ch :: text' =>
      if is_whitespace ch then
        normalize_loop (if negb last_ws && negb (str_eqb out []) then out ++ [32] else out) true text'
      else normalize_loop (out ++ to_lowercase ch) false text'
  end.

(** [if out.ends_with(' ') { out.pop(); }]. *)
Definition pop_space (out : str) : str :=
  match last out with
  | Some c => if c =? 32 then take (length out - 1) out else out
  | None => out
  end.

Definition normalize_text (text : str) : str := pop_space (normalize_loop [] false text).

(** Accumulate the sign of a gram's hash in its bucket. *)
Definition bump (v : list f32) (gram : str) (d : Z) : list f32 :=
  let h := fnv1a (as_bytes gram) in
  let idx := Z.to_nat (h mod d) in
  let sign := if Z.shiftr h 63 =? 0 then one_f32 else SFopp one_f32 in
  match v !! idx with
  | Some slot => <[idx := f32_add slot sign]> v
  | None => v
  end.

(** [chars.windows(n)]. *)
Fixpoint windows (n : nat) (chars : str) : list str :=
  match chars with
  | [] => []
  | _ :: rest => if (n <=? length chars)%nat then take n chars :: windows n rest else []
  end.

(** The grams hashed for one [n]. *)
Definition grams (n : nat) (chars : str) : list str :=
  if (length chars <? n)%nat then [chars] else windows n chars.

Definition hash_embed (d : Z) (text : str) : list f32 :=
  let v := replicate (Z.to_nat d) zero in
  let chars := normalize_text text in
  if str_eqb chars [] then v
  else
    let v := fold_left (fun v gram => bump v gram d)
               (grams 3 chars ++ grams 4 chars ++ grams 5 chars) v in
    let norm := f32_sqrt (f32_sum (map (fun x => f32_mul x x) v)) in
    if SFltb zero norm then map (fun x => f32_div x norm) v else v.

(** [HashEmbedder::new] and [HashEmbedder::default]. *)
Definition hash_embedder_new (d : Z) : Embedder :=
  let d := Z.max d 8 in {| dim := d; embed := hash_embed d |}.
Definition hash_embedder_default : Embedder := {| dim := 512; embed := hash_embed 512 |}.
End Hash.

Definition cosine (a b : list f32) : f32 :=
  if negb (length a =? length b)%nat then zero
  else
    let dot := f64_sum (zip_with (fun x y => f64_mul (f64_from_f32 x) (f64_from_f32 y)) a b) in
    let na := f64_sqrt (f64_sum (map (fun x => f64_mul (f64_from_f32 x) (f64_from_f32 x)) a)) in
    let nb := f64_sqrt (f64_sum (map (fun x => f64_mul (f64_from_f32 x) (f64_from_f32 x)) b)) in
    if SFeqb na zero || SFeqb nb zero then zero
    else
      let similarity := f32_from_f64 (f64_div dot (f64_mul na nb)) in
      fclamp (SFopp one_f32) one_f32 similarity.

(** * breaker.rs *)

Module Breaker.

Inductive BreakerAction := Reject | Inject | Abort.

Record BreakerConfig := mkConfig {
  delta_epsilon : f32;
  window : Z;
  min_tokens : Z;
  cfg_action : BreakerAction;
}.

(** [0.30f32]. *)
Definition default_epsilon : f32 := S754_finite false 10066330 (-25).

Definition default_config : BreakerConfig := mkConfig default_epsilon 3 1000 Reject.

Inductive BreakerVerdict :=
| Progressing (delta : f32)
| Suspicious (delta : f32) (streak : Z)
| Tripped (delta : f32) (streak tokens_consumed : Z) (action : BreakerAction).

Inductive BreakerState := Closed | Open.

Record Inner := mkInner {
  recent_embeddings : list (list f32);
  streak : Z;
  tokens_consumed : Z;
  state : BreakerState;
}.

Definition RECENT_EMBEDDING_WINDOW : nat := 8.

Definition new : Inner := mkInner [] 0 0 Closed.

Definition embedding_is_hostile (embedding : list f32) : bool :=
  negb (forallb is_finite embedding) || forallb (fun x => SFeqb x zero) embedding.

Definition adjacent_delta (recent : list (list f32)) (embedding : list f32) : f32 :=
  if embedding_is_hostile embedding then zero
  else match recent with
       | [] => one_f32
       | _ => fold_left fmin (map (fun prev => f32_sub one_f32 (cosine prev embedding)) recent)
                (S754_infinity false)
       end.

Definition step_delta (recent : list (list f32)) (embedding : list f32)
    (nearest_similarity : option f32) : f32 :=
  let adjacent := adjacent_delta recent embedding in
  match nearest_similarity with
  | Some similarity =>
      if is_finite similarity
      then fmin adjacent (f32_sub one_f32 (fclamp (SFopp one_f32) one_f32 similarity))
      else adjacent
  | None => adjacent
  end.

(** [push_back] followed by [pop_front] beyond the window. *)
Definition remember (recent : list (list f32)) (embedding : list f32) : list (list f32) :=
  if embedding_is_hostile embedding then recent
  else
    let recent := recent ++ [embedding] in
    if (RECENT_EMBEDDING_WINDOW <? length recent)%nat then tail recent else recent.

Definition observe_embedding_with_similarity (cfg : BreakerConfig) (inner : Inner)
    (embedding : list f32) (step_tokens : Z) (nearest_similarity : option f32)
    : Inner * BreakerVerdict :=
  let tokens := sat_add (tokens_consumed inner) step_tokens in
  let delta := step_delta (recent_embeddings inner) embedding nearest_similarity in
  let recent := remember (recent_embeddings inner) embedding in
  let streak' := if SFltb delta (delta_epsilon cfg) then streak inner + 1 else 0 in
  if (streak' >=? window cfg) && (tokens >=? min_tokens cfg) then
    (mkInner recent streak' tokens Open, Tripped delta streak' tokens (cfg_action cfg))
  else if streak' >? 0 then
    (mkInner recent streak' tokens (state inner), Suspicious delta streak')
  else (mkInner recent streak' tokens (state inner), Progressing delta).

Definition observe_embedding (cfg : BreakerConfig) (inner : Inner) (embedding : list f32)
    (step_tokens : Z) : Inner * BreakerVerdict :=
  observe_embedding_with_similarity cfg inner embedding step_tokens None.

Definition observe {E : Embedder} (cfg : BreakerConfig) (inner : Inner) (text : str)
    (step_tokens : Z) : Inner * BreakerVerdict :=
  observe_embedding cfg inner (embed text) step_tokens.

Definition release_embedding (inner : Inner) : Inner :=
  mkInner [] (streak inner) (tokens_consumed inner) (state inner).

Definition reset (inner : Inner) : Inner := mkInner [] 0 (tokens_consumed inner) Closed.
End Breaker.
