(* ===== verification/LoopDetectProofs.v ===== *)
(** Properties of the loop detector: the verdict of every step, the invariant of
    reachable breaker states, the guarantee that a loop trips the breaker, and
    the white-space invariance of the default embedder. *)

From S2P Require Import Prelude Rust CoreBase Json Float LoopDetect.

Section Verdicts.
Import Breaker.

(** A step close to something seen before, without the minimum over the window:
    an unusable embedding counts as a repetition, the first usable one as new. *)
Definition near_step (cfg : BreakerConfig) (recent : list (list f32)) (e : list f32)
    (sim : option f32) : bool :=
  (if embedding_is_hostile e then SFltb zero (delta_epsilon cfg)
   else match recent with
        | [] => SFltb one_f32 (delta_epsilon cfg)
        | _ => existsb (fun prev => SFltb (f32_sub one_f32 (cosine prev e)) (delta_epsilon cfg)) recent
        end)
  || match sim with
     | Some s => is_finite s &&
         SFltb (f32_sub one_f32 (fclamp (SFopp one_f32) one_f32 s)) (delta_epsilon cfg)
     | None => false
     end.

Lemma existsb_map {A B} (f : A -> B) (p : B -> bool) l : existsb p (map f l) = existsb (fun x => p (f x)) l.
Proof. induction l as [|x l IH]; cbn; [done|]. by rewrite IH. Qed.

Lemma infinity_not_below t : SFltb (S754_infinity false) t = false.
Proof. by destruct t as [?|[]| |[] ??]. Qed.

Lemma adjacent_near cfg recent e :
  SFltb (adjacent_delta recent e) (delta_epsilon cfg) =
  if embedding_is_hostile e then SFltb zero (delta_epsilon cfg)
  else match recent with
       | [] => SFltb one_f32 (delta_epsilon cfg)
       | _ => existsb (fun prev => SFltb (f32_sub one_f32 (cosine prev e)) (delta_epsilon cfg)) recent
       end.
Proof.
  unfold adjacent_delta. destruct (embedding_is_hostile e); [done|]. destruct recent as [|p r]; [done|].
  by rewrite fold_fmin_ltb, infinity_not_below, existsb_map.
Qed.

Lemma delta_near cfg recent e sim :
  SFltb (step_delta recent e sim) (delta_epsilon cfg) = near_step cfg recent e sim.
Proof.
  unfold step_delta, near_step. destruct sim as [s|]; [destruct (is_finite s)|];
    rewrite ?fmin_ltb, adjacent_near, ?orb_false_r; done.
Qed.

(** The operations of a session's breaker, in any order. *)
Inductive op :=
| OpObserve (e : list f32) (tokens : Z) (sim : option f32)
| OpRelease
| OpReset.

Definition apply_op (cfg : BreakerConfig) (inner : Inner) (o : op) : Inner :=
  match o with
  | OpObserve e t sim => (observe_embedding_with_similarity cfg inner e t sim).1
  | OpRelease => release_embedding inner
  | OpReset => reset inner
  end.

Definition run_ops (cfg : BreakerConfig) (ops : list op) : Inner := fold_left (apply_op cfg) ops new.

Definition op_tokens (o : op) : Z := match o with OpObserve _ t _ => t | _ => 0 end.

Definition tokens_seen (ops : list op) : Z := foldr (fun o acc => op_tokens o + acc) 0 ops.

(** A run of consecutive observations, with the last verdict. *)
Fixpoint run_steps (cfg : BreakerConfig) (inner : Inner) (steps : list (list f32 * Z * option f32))
    (last : option BreakerVerdict) : Inner * option BreakerVerdict :=
  match steps with
  | [] => (inner, last)
  | (e, t, sim) :: steps' =>
      let '(inner', v) := observe_embedding_with_similarity cfg inner e t sim in
      run_steps cfg inner' steps' (Some v)
  end.

(** Every step of the run repeats something. *)
Fixpoint near_run (cfg : BreakerConfig) (inner : Inner) (steps : list (list f32 * Z * option f32)) : Prop :=
  match steps with
  | [] => True
  | (e, t, sim) :: steps' =>
      near_step cfg (recent_embeddings inner) e sim = true /\
      near_run cfg (observe_embedding_with_similarity cfg inner e t sim).1 steps'
  end.

Definition steps_tokens (steps : list (list f32 * Z * option f32)) : Z :=
  foldr (fun s acc => s.1.2 + acc) 0 steps.

(** One observation, field by field. *)
Lemma observe_fields cfg inner e t sim :
  let '(inner', v) := observe_embedding_with_similarity cfg inner e t sim in
  recent_embeddings inner' = remember (recent_embeddings inner) e /\
  tokens_consumed inner' = sat_add (tokens_consumed inner) t /\
  streak inner' = (if near_step cfg (recent_embeddings inner) e sim then streak inner + 1 else 0) /\
  state inner' = (if (streak inner' >=? window cfg) && (tokens_consumed inner' >=? min_tokens cfg)
                  then Open else state inner) /\
  v = (let d := step_delta (recent_embeddings inner) e sim in
       if (streak inner' >=? window cfg) && (tokens_consumed inner' >=? min_tokens cfg)
       then Tripped d (streak inner') (tokens_consumed inner') (cfg_action cfg)
       else if 0 <? streak inner'
       then Suspicious d (streak inner') else Progressing d).
Proof.
  unfold observe_embedding_with_similarity. rewrite delta_near.
  set (s := if near_step _ _ _ _ then _ else _). set (t' := sat_add _ _).
  assert ((0 <? s) = (s >? 0)) as Hs by (by rewrite Z.gtb_ltb).
  destruct ((s >=? window cfg) && (t' >=? min_tokens cfg)) eqn:Et; cbn; rewrite ?Et; [done|].
  destruct (s >? 0) eqn:E0; cbn; rewrite Et, Hs; done.
Qed.

(** Usable embeddings only, at most eight of them. *)
Definition window_ok (recent : list (list f32)) : Prop :=
  (length recent <= RECENT_EMBEDDING_WINDOW)%nat /\
  Forall (fun e => embedding_is_hostile e = false) recent.

Lemma remember_ok recent e : window_ok recent -> window_ok (remember recent e).
Proof.
  intros [Hl Hr]. unfold remember. destruct (embedding_is_hostile e) eqn:E; [done|].
  assert (Forall (fun e => embedding_is_hostile e = false) (recent ++ [e])) as Hf
    by (apply Forall_app; split; [done|by apply Forall_singleton]).
  destruct (_ <? _)%nat eqn:El; split.
  - destruct recent; cbn in *; rewrite ?length_app in *; cbn; lia.
  - by apply Forall_tail.
  - by apply Nat.ltb_ge in El.
  - done.
Qed.

Definition inner_inv (cfg : BreakerConfig) (seen : Z) (inner : Inner) : Prop :=
  window_ok (recent_embeddings inner) /\ 0 <= streak inner /\
  tokens_consumed inner = Z.min u64_max seen /\ 0 <= seen /\
  (state inner = Open -> min_tokens cfg <= tokens_consumed inner).

Lemma apply_op_inv cfg seen inner o : 0 <= op_tokens o ->
  inner_inv cfg seen inner -> inner_inv cfg (seen + op_tokens o) (apply_op cfg inner o).
Proof.
  intros Ho (Hw & Hs & Ht & Hn & Hopen). destruct o as [e t sim| |]; cbn [apply_op op_tokens] in *.
  - pose proof (observe_fields cfg inner e t sim) as H.
    destruct (observe_embedding_with_similarity cfg inner e t sim) as [inner' v].
    destruct H as (Hr & Htok & Hst & Hstate & _). cbn [fst].
    repeat split.
    + rewrite Hr. by apply remember_ok.
    + rewrite Hr. by apply remember_ok.
    + rewrite Hst. destruct (near_step _ _ _ _); lia.
    + rewrite Htok, Ht. unfold sat_add. lia.
    + lia.
    + rewrite Hstate. destruct (_ && _) eqn:E; b2p; [lia|]. intros Hop. specialize (Hopen Hop).
      rewrite Htok. unfold sat_add. lia.
  - rewrite Z.add_0_r. unfold inner_inv. cbn. unfold window_ok. cbn. repeat split; [lia|constructor|..];
      first [done|lia|apply Hopen].
  - rewrite Z.add_0_r. unfold inner_inv, window_ok. cbn. repeat split; [lia|constructor|..];
      first [done|lia].
Qed.

Lemma near_run_streak cfg inner steps last : near_run cfg inner steps -> 0 <= streak inner ->
  Forall (fun s => 0 <= s.1.2) steps ->
  let '(inner', v) := run_steps cfg inner steps last in
  streak inner' = streak inner + Z.of_nat (length steps) /\
  (0 <= tokens_consumed inner <= u64_max ->
   tokens_consumed inner' = Z.min u64_max (tokens_consumed inner + steps_tokens steps)) /\
  (steps <> [] -> window cfg <= streak inner' -> min_tokens cfg <= tokens_consumed inner' ->
   state inner' = Open /\
   exists d, v = Some (Tripped d (streak inner') (tokens_consumed inner') (cfg_action cfg))).
Proof.
  revert inner last. induction steps as [|[[e t] sim] steps IH]; intros inner last Hn Hs Ht;
    cbn [run_steps].
  { cbn. repeat split; [lia..|done|done]. }
  destruct Hn as [Hn Hrest]. apply Forall_cons in Ht as [Ht0 Ht]. cbn in Ht0.
  pose proof (observe_fields cfg inner e t sim) as H.
  destruct (observe_embedding_with_similarity cfg inner e t sim) as [inner1 v1].
  destruct H as (_ & Htok & Hst & Hstate & Hv). rewrite Hn in Hst. cbn [fst] in Hrest.
  specialize (IH inner1 (Some v1) Hrest ltac:(lia) Ht).
  destruct (run_steps cfg inner1 steps (Some v1)) as [inner' v] eqn:Er.
  destruct IH as (IH1 & IH2 & IH3). split; [cbn [length]; lia|]. split.
  - intros Hb. cbn [steps_tokens foldr fst snd]. rewrite IH2 by (rewrite Htok; unfold sat_add; lia).
    rewrite Htok. unfold sat_add. fold (steps_tokens steps).
    assert (0 <= steps_tokens steps)
      by (clear -Ht; unfold steps_tokens; induction Ht; cbn [foldr]; lia). lia.
  - intros _ Hw Hm. destruct steps as [|s steps].
    + cbn in Er. injection Er as <- <-.
      rewrite (proj2 (Z.geb_le _ _) Hw), (proj2 (Z.geb_le _ _) Hm) in Hstate, Hv.
      split; [done|]. eexists. by rewrite Hv.
    + by apply IH3.
Qed.

Lemma hostile_near_run cfg inner steps : SFltb zero (delta_epsilon cfg) = true ->
  Forall (fun s => embedding_is_hostile s.1.1 = true) steps -> near_run cfg inner steps.
Proof.
  intros He Hs. revert inner. induction Hs as [|[[e t] sim] steps Hh _ IH]; intros inner; [done|].
  cbn in Hh |- *. split; [|apply IH]. unfold near_step. by rewrite Hh, He.
Qed.
End Verdicts.

(** The verdict of a step.  Tokens accumulate with saturation; the streak
    grows exactly when the step is close to some remembered step, to the
    nearest step the vector engine reports, or carries an unusable embedding,
    and otherwise returns to zero; the breaker trips exactly when the streak
    reaches the window and the session has consumed the token floor, and an
    open breaker is never closed by an observation. *)
Theorem observe_verdict_exact (cfg : Breaker.BreakerConfig) (inner : Breaker.Inner)
    (e : list f32) (t : Z) (sim : option f32) :
  let '(inner', v) := Breaker.observe_embedding_with_similarity cfg inner e t sim in
  let near := near_step cfg (Breaker.recent_embeddings inner) e sim in
  let trip := (Breaker.streak inner' >=? Breaker.window cfg)
              && (Breaker.tokens_consumed inner' >=? Breaker.min_tokens cfg) in
  let d := Breaker.step_delta (Breaker.recent_embeddings inner) e sim in
  Breaker.tokens_consumed inner' = sat_add (Breaker.tokens_consumed inner) t /\
  Breaker.streak inner' = (if near then Breaker.streak inner + 1 else 0) /\
  (Breaker.state inner' = Breaker.Open <-> trip = true \/ Breaker.state inner = Breaker.Open) /\
  v = (if trip
       then Breaker.Tripped d (Breaker.streak inner') (Breaker.tokens_consumed inner')
              (Breaker.cfg_action cfg)
       else if 0 <? Breaker.streak inner' then Breaker.Suspicious d (Breaker.streak inner')
       else Breaker.Progressing d).
Proof.
  pose proof (observe_fields cfg inner e t sim) as H.
  destruct (Breaker.observe_embedding_with_similarity cfg inner e t sim) as [inner' v].
  destruct H as (_ & Ht & Hs & Hst & Hv). cbn zeta. repeat split; try done.
  - rewrite Hst. destruct (_ && _); auto.
  - rewrite Hst. intros [-> | ->]; [done|]. by destruct (_ && _).
Qed.

(** Invariant of every breaker reachable by observations, releases and
    resets: at most eight embeddings are remembered and all are usable, the
    session's token count is the saturated total of everything observed,
    resets included, and the breaker is open only if that total has reached
    the token floor. *)
Theorem breaker_reachable_inv (cfg : Breaker.BreakerConfig) (ops : list op) :
  Forall (fun o => 0 <= op_tokens o) ops -> 0 <= Breaker.min_tokens cfg ->
  let inner := run_ops cfg ops in
  (length (Breaker.recent_embeddings inner) <= 8)%nat /\
  Forall (fun e => Breaker.embedding_is_hostile e = false) (Breaker.recent_embeddings inner) /\
  Breaker.tokens_consumed inner = Z.min u64_max (tokens_seen ops) /\
  (Breaker.state inner = Breaker.Open -> Breaker.min_tokens cfg <= tokens_seen ops).
Proof.
  intros Hops Hm. cbn zeta.
  assert (inner_inv cfg (0 + tokens_seen ops) (run_ops cfg ops)) as ((Hl & Hr) & _ & Ht & Hn & Ho).
  { unfold run_ops. assert (inner_inv cfg 0 Breaker.new) as H0.
    { repeat split; cbn; try lia; try constructor; done. }
    assert (forall seen inner, inner_inv cfg seen inner ->
      inner_inv cfg (seen + tokens_seen ops) (fold_left (apply_op cfg) ops inner)) as H;
      [|by apply H]. clear Hm H0.
    induction Hops as [|o ops Ho _ IH]; intros seen inner H0; cbn [fold_left tokens_seen foldr].
    - by rewrite Z.add_0_r.
    - rewrite Z.add_assoc. apply IH. by apply apply_op_inv. }
  rewrite Z.add_0_l in *. split; [done|]. split; [done|]. split; [done|].
  intros H. apply Ho in H. lia.
Qed.

(** A loop is always caught: from any state, a run of at least [window]
    steps that each repeat something ends with the breaker tripped and open as
    soon as the session's tokens have reached the floor.  Steps whose embedding
    is not finite or all zero are such repetitions whatever came before. *)
Theorem loop_trips_breaker (cfg : Breaker.BreakerConfig) (inner : Breaker.Inner)
    (steps : list (list f32 * Z * option f32)) :
  near_run cfg inner steps \/
    (SFltb zero (Breaker.delta_epsilon cfg) = true /\
     Forall (fun s => Breaker.embedding_is_hostile s.1.1 = true) steps) ->
  steps <> [] -> Forall (fun s => 0 <= s.1.2) steps ->
  0 <= Breaker.streak inner -> 0 <= Breaker.tokens_consumed inner <= u64_max ->
  Breaker.window cfg <= Z.of_nat (length steps) ->
  Breaker.min_tokens cfg <= u64_max ->
  Breaker.min_tokens cfg <= Breaker.tokens_consumed inner + steps_tokens steps ->
  let '(inner', v) := run_steps cfg inner steps None in
  Breaker.state inner' = Breaker.Open /\
  exists d, v = Some (Breaker.Tripped d (Breaker.streak inner') (Breaker.tokens_consumed inner')
                        (Breaker.cfg_action cfg)).
Proof.
  intros Hnear Hne Ht Hs Htok Hw Hmax Hmin.
  assert (near_run cfg inner steps) as Hn.
  { destruct Hnear as [|[He Hh]]; [done|]. by apply hostile_near_run. }
  pose proof (near_run_streak cfg inner steps None Hn Hs Ht) as H.
  destruct (run_steps cfg inner steps None) as [inner' v]. destruct H as (H1 & H2 & H3).
  apply H3; [done|lia|]. rewrite H2 by done. lia.
Qed.

Definition zero_step : list f32 * Z * option f32 := ([zero; zero], 400, None).

Lemma loop_trips_breaker_witness :
  Breaker.state (run_steps Breaker.default_config Breaker.new [zero_step; zero_step; zero_step] None).1
  = Breaker.Open.
Proof.
  pose proof (loop_trips_breaker Breaker.default_config Breaker.new
    [zero_step; zero_step; zero_step]) as H.
  destruct (run_steps _ _ _ _) as [i v]. apply H.
  - right. split; [vm_compute; reflexivity|]. repeat constructor.
  - discriminate.
  - repeat constructor; cbn; lia.
  - cbn; lia.
  - split; [cbn; lia|discriminate].
  - cbn; lia.
  - discriminate.
  - cbn; lia.
Defined.

Lemma breaker_reachable_inv_witness :
  Breaker.tokens_consumed (run_ops Breaker.default_config [OpObserve [one_f32] 7 None; OpReset])
  = Z.min u64_max 7.
Proof.
  refine (proj1 (proj2 (proj2 (breaker_reachable_inv Breaker.default_config
    [OpObserve [one_f32] 7 None; OpReset] _ _)))).
  - repeat constructor; cbn; lia.
  - cbn; lia.
Defined.

(** * The default embedder *)

Section Normalize.
Context {LC : Lowercase}.

Definition norm_step (st : str * bool) (ch : Z) : str * bool :=
  let '(out, last_ws) := st in
  if is_whitespace ch
  then (if negb last_ws && negb (str_eqb out []) then out ++ [32] else out, true)
  else (out ++ to_lowercase ch, false).

Lemma normalize_loop_fold text out lw :
  normalize_loop out lw text = (fold_left norm_step text (out, lw)).1.
Proof.
  revert out lw. induction text as [|c text IH]; intros out lw; cbn; [done|].
  destruct (is_whitespace c); apply IH.
Qed.

Definition all_ws (s : str) : Prop := Forall (fun c => is_whitespace c = true) s.

Lemma norm_ws ws st : all_ws ws -> ws <> [] ->
  fold_left norm_step ws st =
  (if negb st.2 && negb (str_eqb st.1 []) then st.1 ++ [32] else st.1, true).
Proof.
  intros Hws Hne. destruct st as [out lw]. destruct Hws as [|c ws Hc Hws]; [done|]. cbn.
  rewrite Hc. clear Hc Hne. generalize (if negb lw && negb (str_eqb out []) then out ++ [32] else out).
  intros o. induction Hws as [|d ws Hd _ IH]; cbn; [done|]. by rewrite Hd.
Qed.

(** A state that does not end a white-space run never ends with a space. *)
Definition norm_inv (st : str * bool) : Prop :=
  st.1 = [] \/ st.2 = true \/ last st.1 <> Some 32.

Lemma norm_step_inv st c : norm_inv st -> norm_inv (norm_step st c).
Proof.
  destruct st as [out lw]. intros _. unfold norm_inv. cbn. destruct (is_whitespace c) eqn:E; cbn.
  - auto.
  - right. right. destruct (to_lowercase_no_space c E) as [Hn Hne].
    destruct (to_lowercase c) as [|x l] using rev_ind; [done|].
    rewrite app_assoc, last_snoc. apply Forall_app in Hn as [_ Hn].
    rewrite Forall_singleton in Hn. congruence.
Qed.

Lemma norm_fold_inv text st : norm_inv st -> norm_inv (fold_left norm_step text st).
Proof. revert st. induction text; cbn; auto using norm_step_inv. Qed.

Lemma pop_space_snoc o : pop_space (o ++ [32]) = o.
Proof.
  unfold pop_space. rewrite last_snoc, length_app. cbn.
  by rewrite Nat.add_sub, take_app_length.
Qed.

Lemma norm_lead text b : fold_left norm_step text ([], b) = fold_left norm_step text ([], false) \/
  text = [].
Proof.
  destruct text as [|c text]; [by right|]. left. cbn. destruct (is_whitespace c); [|done].
  by rewrite !andb_false_r.
Qed.

Lemma normalize_lead ws text : all_ws ws -> normalize_text (ws ++ text) = normalize_text text.
Proof.
  intros Hws. unfold normalize_text. f_equal.
  rewrite !normalize_loop_fold, fold_left_app.
  destruct ws as [|w ws]; [done|]. rewrite (norm_ws (w :: ws)) by done. cbn [fst snd].
  destruct (norm_lead text true) as [Hl| ->]; [|done].
  change (if negb false && negb (str_eqb [] []) then [] ++ [32] else []) with (@nil Z). by rewrite Hl.
Qed.

Lemma normalize_trail text ws : all_ws ws -> normalize_text (text ++ ws) = normalize_text text.
Proof.
  intros Hws. destruct ws as [|w ws]; [by rewrite app_nil_r|]. unfold normalize_text.
  rewrite !normalize_loop_fold, fold_left_app.
  rewrite (norm_ws (w :: ws)) by done. cbn [fst].
  assert (norm_inv (fold_left norm_step text ([], false))) as Hi
    by (apply norm_fold_inv; by left).
  destruct (fold_left norm_step text ([], false)) as [o lw]. unfold norm_inv in Hi. cbn in Hi |- *.
  destruct lw; cbn; [done|]. destruct (str_eqb o []) eqn:Eo; cbn; [done|].
  apply str_eqb_neq in Eo. rewrite pop_space_snoc. unfold pop_space.
  destruct (last o) as [c|] eqn:El; [|done].
  destruct (c =? 32) eqn:Ec; b2p; [subst; naive_solver|done].
Qed.

Lemma normalize_inner a ws ws' b : all_ws ws -> all_ws ws' -> ws <> [] -> ws' <> [] ->
  normalize_text (a ++ ws ++ b) = normalize_text (a ++ ws' ++ b).
Proof.
  intros. unfold normalize_text. f_equal.
  rewrite !normalize_loop_fold, !fold_left_app. by rewrite (norm_ws ws), (norm_ws ws').
Qed.

Lemma embed_normalized d s s' : normalize_text s = normalize_text s' -> hash_embed d s = hash_embed d s'.
Proof. intros H. unfold hash_embed. by rewrite H. Qed.

Lemma bump_length v gram d : length (bump v gram d) = length v.
Proof. unfold bump. case_match; [apply length_insert|done]. Qed.

Lemma hash_embed_length d s : length (hash_embed d s) = Z.to_nat d.
Proof.
  unfold hash_embed. destruct (str_eqb _ _); [apply length_replicate|].
  assert (forall gs v, length (fold_left (fun v g => bump v g d) gs v) = length v) as H.
  { induction gs; intros v; cbn; [done|]. by rewrite IHgs, bump_length. }
  case_match; rewrite ?length_map, H; apply length_replicate.
Qed.
End Normalize.

(** The default embedder always returns a vector of its dimension and does
    not see white-space layout: leading and trailing runs are ignored, and an
    inner run embeds like any other run, so re-spacing a repeated step cannot
    make it look new. *)
Theorem hash_embed_whitespace_invariant {LC : Lowercase} (d : Z) (a b lead trail ws ws' : str) :
  all_ws lead -> all_ws trail -> all_ws ws -> all_ws ws' -> ws <> [] -> ws' <> [] ->
  length (hash_embed d a) = Z.to_nat d /\
  hash_embed d (lead ++ a ++ trail) = hash_embed d a /\
  hash_embed d (a ++ ws ++ b) = hash_embed d (a ++ ws' ++ b).
Proof.
  intros. split; [apply hash_embed_length|]. split; apply embed_normalized.
  - by rewrite normalize_lead, normalize_trail.
  - by apply normalize_inner.
Qed.

Definition ascii_lower (c : Z) : str := [if is_ascii_uppercase c then c + 32 else c].

Lemma ascii_lower_ok c : is_whitespace c = false ->
  Forall (fun l => l <> 32) (ascii_lower c) /\ ascii_lower c <> [].
Proof.
  intros H. split; [|done]. constructor; [|constructor]. unfold is_ascii_uppercase.
  destruct (_ && _) eqn:E; b2p; [lia|]. intros ->. done.
Qed.

Definition ascii_lowercase : Lowercase :=
  {| to_lowercase := ascii_lower; to_lowercase_no_space := ascii_lower_ok |}.

Lemma hash_embed_whitespace_invariant_witness :
  @hash_embed ascii_lowercase 8 (lit "a" ++ [32] ++ lit "b")
  = @hash_embed ascii_lowercase 8 (lit "a" ++ [9; 10] ++ lit "b").
Proof.
  apply (@hash_embed_whitespace_invariant ascii_lowercase 8 (lit "a") (lit "b") [] [] [32] [9; 10]);
    try discriminate; repeat constructor.
Defined.
