(* ===== verification/Velocity.v ===== *)
(** Sliding-window token velocity ([av-state/src/velocity.rs]).  The samples sit
    behind one mutex: an operation maps the deque to the new deque and its
    answer. *)

From S2P Require Import Prelude Rust.

Module Velocity.

(** A sample: timestamp in milliseconds, tokens. *)
Abbreviation sample := (Z * Z)%type.

Record TokenVelocity := mkVelocity { window_ms : Z; samples : list sample }.

Definition new (window_ms : Z) : TokenVelocity := mkVelocity (Z.max window_ms 1) [].

Definition windowed_total (l : list sample) : Z :=
  fold_left (fun acc s => sat_add acc s.2) l 0.

(** [retain(|(t, _)| *t >= cutoff)]. *)
Definition retain (cutoff : Z) (l : list sample) : list sample :=
  List.filter (fun s => s.1 >=? cutoff) l.

Definition record_at (v : TokenVelocity) (now_ms tokens : Z) : TokenVelocity * Z :=
  let pushed := samples v ++ [(now_ms, tokens)] in
  let cutoff := sat_sub now_ms (window_ms v) in
  let kept := retain cutoff pushed in
  (mkVelocity (window_ms v) kept, windowed_total kept).

Definition current_at (v : TokenVelocity) (now_ms : Z) : Z :=
  windowed_total (retain (sat_sub now_ms (window_ms v)) (samples v)).

(** A sequence of records, with the answers. *)
Fixpoint record_all (v : TokenVelocity) (l : list sample) : TokenVelocity * list Z :=
  match l with
  | [] => (v, [])
  | (now, n) :: l' =>
      let '(v', r) := record_at v now n in
      let '(v'', rs) := record_all v' l' in (v'', r :: rs)
  end.
End Velocity.

(** * Specification *)

Section Facts.
Import Velocity.

(** The samples of a history that no record since has aged out: a sample stays
    as long as it is not older than the window of any later record. *)
Fixpoint live (w : Z) (h : list sample) : list sample :=
  match h with
  | [] => []
  | s :: h' =>
      if forallb (fun s' => s.1 >=? sat_sub s'.1 w) (s :: h') then s :: live w h' else live w h'
  end.

Definition total (l : list sample) : Z := foldr (fun s acc => s.2 + acc) 0 l.

Definition ordered (h : list sample) : Prop := StronglySorted (fun a b => a.1 <= b.1) h.

Definition history_wf (h : list sample) : Prop := Forall (fun s => 0 <= s.1 /\ 0 <= s.2) h.

Lemma total_nonneg l : Forall (fun s => 0 <= s.2) l -> 0 <= total l.
Proof. unfold total. induction 1; cbn [foldr]; lia. Qed.

Lemma windowed_total_sat l : Forall (fun s => 0 <= s.2) l ->
  windowed_total l = Z.min u64_max (total l).
Proof.
  unfold windowed_total. assert (0 <= 0 <= u64_max) as H0 by done.
  assert (forall a, 0 <= a <= u64_max -> Forall (fun s => 0 <= s.2) l ->
    fold_left (fun acc s => sat_add acc s.2) l a = Z.min u64_max (a + total l)) as H.
  { clear H0. induction l as [|s l IH]; intros a Ha Hl; cbn [fold_left total foldr]; [lia|].
    apply Forall_cons in Hl as [Hs Hl].
    pose proof (total_nonneg l Hl).
    change (foldr _ 0 l) with (total l).
    rewrite IH by (try done; unfold sat_add; lia). unfold sat_add. lia. }
  intros Hl. rewrite H by done. done.
Qed.

Lemma live_snoc w h s : live w (h ++ [s]) = retain (sat_sub s.1 w) (live w h ++ [s]).
Proof.
  unfold retain. induction h as [|x h IH]; cbn [live app].
  - cbn. rewrite andb_true_r. done.
  - change (x :: h ++ [s]) with ((x :: h) ++ [s]). rewrite forallb_app. cbn [forallb].
    rewrite IH, andb_true_r. set (b := forallb _ h).
    change ((x.1 >=? sat_sub x.1 w) && b) with (forallb (fun s' => x.1 >=? sat_sub s'.1 w) (x :: h)).
    destruct (forallb (fun s' => x.1 >=? sat_sub s'.1 w) (x :: h)); [|done].
    cbn [app List.filter]. by destruct (x.1 >=? sat_sub s.1 w).
Qed.

Lemma record_all_live w h :
  (record_all (new w) h).1 = mkVelocity (Z.max w 1) (live (Z.max w 1) h).
Proof.
  assert (forall v h s, (record_all v (h ++ [s])).1 = (record_at (record_all v h).1 s.1 s.2).1) as Hs.
  { clear. intros v h [t n]. revert v. induction h as [|[t' n'] h IH]; intros v; cbn [record_all app].
    - done.
    - destruct (record_at v t' n') as [v' r]. specialize (IH v').
      destruct (record_all v' (h ++ [(t, n)])), (record_all v' h). done. }
  induction h as [|s h IH] using rev_ind; [done|].
  rewrite Hs, IH, live_snoc. unfold record_at. cbn. by destruct s.
Qed.

Lemma ordered_last h s : ordered (h ++ [s]) -> Forall (fun y => y.1 <= s.1) h.
Proof.
  induction h as [|x h IH]; [constructor|]. cbn [app]. intros Ho.
  apply StronglySorted_inv in Ho as [Ho Hx]. apply Forall_cons. split; [|by apply IH].
  apply Forall_app in Hx as [_ Hx]. by rewrite Forall_singleton in Hx.
Qed.

Lemma live_ordered w h s : 0 <= w -> ordered (h ++ [s]) -> history_wf (h ++ [s]) ->
  live w (h ++ [s]) = retain (sat_sub s.1 w) (h ++ [s]).
Proof.
  intros Hw. induction h as [|x h IH]; intros Ho Hh; cbn [app].
  - cbn. by rewrite andb_true_r.
  - apply StronglySorted_inv in Ho as [Ho Hx]. apply Forall_cons in Hh as [Hx0 Hh].
    cbn [live]. rewrite IH by done. unfold retain. cbn [List.filter].
    assert (forallb (fun s' => x.1 >=? sat_sub s'.1 w) (x :: h ++ [s]) =
            (x.1 >=? sat_sub s.1 w)) as ->; [|done].
    apply eq_true_iff_eq. rewrite forallb_true_iff, Forall_cons, Forall_app, Forall_singleton.
    rewrite !Z.geb_le. split; [tauto|]. intros Hs.
    split; [unfold sat_sub; lia|]. split; [|done].
    eapply Forall_impl; [exact (ordered_last _ _ Ho)|].
    intros y Hy. cbn beta in Hy |- *. rewrite Z.geb_le. unfold sat_sub in *. lia.
Qed.

Lemma live_wf w h : history_wf h -> Forall (fun s => 0 <= s.2) (live w h).
Proof.
  induction 1 as [|s h Hs Hh IH]; cbn [live]; [constructor|].
  case_match; [|done]. constructor; [apply Hs|done].
Qed.
End Facts.

(** Every record answers with the saturated sum of the samples still alive:
    those that no record made since has aged out, whatever order the clock
    produces timestamps in.  When timestamps do not decrease, these are exactly
    the samples of the last window. *)
Theorem record_at_windowed_sum (w now n : Z) (h : list Velocity.sample) :
  1 <= w -> history_wf (h ++ [(now, n)]) ->
  let v := (Velocity.record_all (Velocity.new w) h).1 in
  (Velocity.record_at v now n).2 = Z.min u64_max (total (live w (h ++ [(now, n)]))) /\
  (ordered (h ++ [(now, n)]) ->
   (Velocity.record_at v now n).2 =
   Z.min u64_max (total (List.filter (fun s => s.1 >=? now - w) (h ++ [(now, n)])))).
Proof.
  intros Hw Hh v. cbn zeta.
  assert ((Velocity.record_at v now n).2 = Z.min u64_max (total (live w (h ++ [(now, n)])))) as H.
  { rewrite <- windowed_total_sat by (by apply live_wf). rewrite live_snoc. unfold v.
    rewrite record_all_live, Z.max_l by lia. reflexivity. }
  split; [exact H|]. intros Ho. rewrite H, live_ordered by (done || lia). f_equal. f_equal.
  unfold Velocity.retain. cbn [fst]. clear H v Ho. revert Hh. generalize (h ++ [(now, n)]) as l.
  induction 1 as [|s l [Hs _] _ IH]; cbn [List.filter]; [done|].
  rewrite IH. replace (s.1 >=? sat_sub now w) with (s.1 >=? now - w); [done|].
  apply eq_true_iff_eq. rewrite !Z.geb_le. unfold sat_sub. lia.
Qed.

Lemma record_at_windowed_sum_witness :
  (Velocity.record_at (Velocity.record_all (Velocity.new 1000) [(0, 100); (500, 50)]).1 1400 10).2
  = Z.min u64_max 60.
Proof.
  rewrite (proj2 (record_at_windowed_sum 1000 1400 10 [(0, 100); (500, 50)] ltac:(lia)
                    ltac:(repeat constructor; cbn; lia))); [reflexivity|].
  repeat constructor; cbn; lia.
Defined.
