(* ===== verification/Core.v ===== *)
(** The leaf modules of [av-core] with behaviour of their own: the Unicode guard
    of [text.rs], the identifier newtypes of [ids.rs], the approximate tokenizer
    of [tokens.rs], the calendar of [time.rs] and the credential redaction of
    [url_redact.rs]. *)

From S2P Require Import Prelude Rust CoreBase Json.

(** * text.rs *)

Definition DANGEROUS_CODEPOINTS : list Z :=
  [0x00AD; 0x061C; 0x180E; 0x200B; 0x200C; 0x200D; 0x200E; 0x200F; 0x2028; 0x2029;
   0x202A; 0x202B; 0x202C; 0x202D; 0x202E; 0x2060; 0x2061; 0x2062; 0x2063; 0x2064;
   0x2066; 0x2067; 0x2068; 0x2069; 0x206A; 0x206B; 0x206C; 0x206D; 0x206E; 0x206F;
   0xFEFF].

Definition is_bidi_or_zero_width (c : Z) : bool := existsb (Z.eqb c) DANGEROUS_CODEPOINTS.

Definition contains_bidi_or_zero_width (s : str) : bool := existsb is_bidi_or_zero_width s.

(** * ids.rs *)

Module Ids.
Section Ids.
Context {UT : UnicodeTables}.

(** [&s[..s.floor_char_boundary(n)]]: the longest prefix of whole characters of
    at most [n] bytes. *)
Fixpoint floor_prefix (n : Z) (s : str) : str :=
  match s with
  | [] => []
  | c :: s' => if len_utf8 c <=? n then c :: floor_prefix (n - len_utf8 c) s' else []
  end.

Definition visible_ascii (b : Z) : bool := (0x21 <=? b) && (b <=? 0x7e).

Record SessionId := mkSessionId { session_str : str }.
Record InstanceUid := mkInstanceUid { instance_str : str }.

Definition parse_session_id (s : str) : result SessionId CoreError :=
  if str_eqb s [] then Err (InvalidId (lit "session id is empty"))
  else if str_len s >? 128 then
    Err (InvalidId (lit "session id is " ++ fmt_int (str_len s)
                    ++ lit " bytes (max 128); starts "
                    ++ fmt_debug (floor_prefix (Z.min 24 (str_len s)) s)))
  else if negb (forallb visible_ascii (as_bytes s)) then
    Err (InvalidId (lit "session id " ++ fmt_debug s
                    ++ lit " contains bytes outside visible ASCII (0x21-0x7e)"))
  else Ok (mkSessionId s).

Definition parse_instance_uid (s : str) : result InstanceUid CoreError :=
  if str_eqb s [] then Err (InvalidId (lit "instance uid is empty"))
  else if str_len s >? 128 then
    Err (InvalidId (lit "instance uid is " ++ fmt_int (str_len s)
                    ++ lit " bytes (max 128); starts "
                    ++ fmt_debug (floor_prefix (Z.min 24 (str_len s)) s)))
  else if negb (forallb visible_ascii (as_bytes s)) then
    Err (InvalidId (lit "instance uid " ++ fmt_debug s
                    ++ lit " contains bytes outside visible ASCII (0x21-0x7e)"))
  else Ok (mkInstanceUid s).
End Ids.
End Ids.

(** * tokens.rs *)

(** The loop of [approx_tokens] over the state [(tokens, ascii_run)]. *)
Fixpoint approx_tokens_loop (tokens ascii_run : Z) (text : str) : Z :=
  match text with
  | [] => tokens + div_ceil ascii_run 4
  | ch :: text' =>
      if is_ascii_alphanumeric ch then approx_tokens_loop tokens (ascii_run + 1) text'
      else
        let tokens := tokens + div_ceil ascii_run 4 in
        if is_whitespace ch then approx_tokens_loop tokens 0 text'
        else approx_tokens_loop (tokens + 1) 0 text'
  end.

Definition approx_tokens (text : str) : Z := approx_tokens_loop 0 0 text.

(** [serde_json::to_writer] into a buffer, whose text is then counted. *)
Definition approx_tokens_json {SJ : SerdeJson} (value : Value) : Z :=
  approx_tokens (to_string value).

(** * time.rs *)

Definition civil_from_days (z : Z) : Z * Z * Z :=
  let z := z + 719468 in
  let era := Z.quot (if z >=? 0 then z else z - 146096) 146097 in
  let doe := z - era * 146097 in
  let yoe := Z.quot (doe - Z.quot doe 1460 + Z.quot doe 36524 - Z.quot doe 146096) 365 in
  let y := yoe + era * 400 in
  let doy := doe - (365 * yoe + Z.quot yoe 4 - Z.quot yoe 100) in
  let mp := Z.quot (5 * doy + 2) 153 in
  let d := doy - Z.quot (153 * mp + 2) 5 + 1 in
  let m := if mp <? 10 then mp + 3 else mp - 9 in
  (if m <=? 2 then y + 1 else y, m, d).

Definition iso8601_ms (epoch_ms : Z) : str :=
  let secs := epoch_ms / MS_PER_SEC in
  let ms := epoch_ms mod MS_PER_SEC in
  let days := secs / SECS_PER_DAY in
  let rem := secs mod SECS_PER_DAY in
  let h := rem / 3600 in
  let m := rem mod 3600 / 60 in
  let s := rem mod 60 in
  let '(year, month, day) := civil_from_days days in
  fmt_pad 4 year ++ [45] ++ fmt_pad 2 month ++ [45] ++ fmt_pad 2 day ++ [84]
  ++ fmt_pad 2 h ++ [58] ++ fmt_pad 2 m ++ [58] ++ fmt_pad 2 s ++ [46]
  ++ fmt_pad 3 ms ++ [90].

(** * url_redact.rs *)

Definition scheme_sep : str := lit "://".

Definition scheme_char (b : Z) : bool :=
  is_ascii_alphanumeric b || (b =? 43) || (b =? 45) || (b =? 46).

Definition starts_with_scheme (s : str) : bool :=
  match split_once scheme_sep s with
  | None => false
  | Some (scheme, _) =>
      match as_bytes scheme with
      | [] => false
      | first :: bytes => is_ascii_alphabetic first && forallb scheme_char bytes
      end
  end.

(** The segments of [split_url_list], [seg] being the current one reversed. *)
Fixpoint split_url_loop (seg input : str) : list str :=
  match input with
  | [] => [rev seg]
  | c :: input' =>
      if (c =? 44) && starts_with_scheme input' then rev seg :: split_url_loop [] input'
      else split_url_loop (c :: seg) input'
  end.

Definition split_url_list (input : str) : list str := split_url_loop [] input.

(** [['/', '?', '#']]. *)
Definition authority_end (c : Z) : bool := (c =? 47) || (c =? 63) || (c =? 35).

Definition redact_single (input : str) : str :=
  match split_once scheme_sep input with
  | None => input
  | Some (scheme, rest) =>
      let scheme_prefix := scheme ++ scheme_sep in
      let '(authority, trailing) := break_at authority_end rest in
      match rsplit_once [64] authority with
      | Some (_, host_segment) => scheme_prefix ++ lit "***@" ++ host_segment ++ trailing
      | None =>
          let truncated_userinfo :=
            negb (contains [91] authority) &&
            match rsplit_once [58] authority with
            | Some (_, suffix) =>
                negb (str_eqb suffix []) && negb (forallb is_ascii_digit (as_bytes suffix))
            | None => false
            end in
          if negb truncated_userinfo then input
          else match rsplit_once [64] rest with
               | Some (_, after_at) =>
                   let '(host_segment, tail) := break_at authority_end after_at in
                   scheme_prefix ++ lit "***@" ++ host_segment ++ tail
               | None => input
               end
      end
  end.

(** [Vec<String>::join(",")]. *)
Fixpoint join_comma (segs : list str) : str :=
  match segs with
  | [] => []
  | [s] => s
  | s :: segs' => s ++ [44] ++ join_comma segs'
  end.

Definition redact_userinfo (input : str) : str :=
  if negb (contains scheme_sep input) then input
  else if Nat.ltb 1 (count_matches scheme_sep input)
       then join_comma (map redact_single (split_url_list input))
  else redact_single input.
