(* ===== verification/CoreProofs.v ===== *)
(** Properties of the leaf modules of [av-core]: the tokenizer is monotone and
    subadditive, the calendar is the proleptic Gregorian one, identifiers accept
    exactly their documented alphabet and redaction hides the user information
    of every URL. *)

From S2P Require Import Prelude Rust CoreBase Json Core.

(** * tokens.rs *)

Section Tokens.

Lemma div_ceil_4_mono a b : 0 <= a <= b -> div_ceil a 4 <= div_ceil b 4.
Proof. intros. rewrite !div_ceil_4 by lia. apply Z.div_le_mono; lia. Qed.

Lemma div_ceil_4_bound a : 0 <= a -> 0 <= div_ceil a 4 <= a.
Proof. intros. rewrite div_ceil_4 by lia. Z.div_mod_to_equations. lia. Qed.

Lemma div_ceil_4_add a b : 0 <= a -> 0 <= b ->
  div_ceil (a + b) 4 <= div_ceil a 4 + div_ceil b 4.
Proof. intros. rewrite !div_ceil_4 by lia. Z.div_mod_to_equations. lia. Qed.

Lemma tokens_shift t r s : approx_tokens_loop t r s = t + approx_tokens_loop 0 r s.
Proof.
  revert t r. induction s as [|c s IH]; intros t r; cbn [approx_tokens_loop]; [lia|].
  destruct (is_ascii_alphanumeric c); [apply IH|].
  destruct (is_whitespace c); rewrite IH, (IH (_ + _)); lia.
Qed.

Lemma tokens_ge_run r s : 0 <= r -> div_ceil r 4 <= approx_tokens_loop 0 r s.
Proof.
  revert r. induction s as [|c s IH]; intros r Hr; cbn [approx_tokens_loop]; [lia|].
  pose proof (IH 0 ltac:(lia)) as H0. pose proof (div_ceil_4_bound 0 ltac:(lia)).
  destruct (is_ascii_alphanumeric c).
  - transitivity (div_ceil (r + 1) 4); [apply div_ceil_4_mono; lia|apply IH; lia].
  - destruct (is_whitespace c); rewrite tokens_shift; lia.
Qed.

Lemma tokens_append r a b : 0 <= r ->
  approx_tokens_loop 0 r a <= approx_tokens_loop 0 r (a ++ b).
Proof.
  revert r. induction a as [|c a IH]; intros r Hr; cbn [approx_tokens_loop app].
  - by apply tokens_ge_run.
  - destruct (is_ascii_alphanumeric c); [apply IH; lia|].
    destruct (is_whitespace c); rewrite tokens_shift, (tokens_shift (_ + _) 0 (a ++ b));
      specialize (IH 0); lia.
Qed.

(** Carrying a run into a text costs at most the run's own tokens. *)
Lemma tokens_run_add r k s : 0 <= r -> 0 <= k ->
  approx_tokens_loop 0 (r + k) s <= div_ceil r 4 + approx_tokens_loop 0 k s.
Proof.
  revert k. induction s as [|c s IH]; intros k Hr Hk; cbn [approx_tokens_loop].
  - pose proof (div_ceil_4_add r k Hr Hk). lia.
  - destruct (is_ascii_alphanumeric c).
    + rewrite <- Z.add_assoc. apply IH; lia.
    + pose proof (div_ceil_4_add r k Hr Hk).
      destruct (is_whitespace c).
      * rewrite (tokens_shift (0 + div_ceil (r + k) 4)), (tokens_shift (0 + div_ceil k 4)). lia.
      * rewrite (tokens_shift (0 + div_ceil (r + k) 4 + 1)), (tokens_shift (0 + div_ceil k 4 + 1)).
        lia.
Qed.

Lemma tokens_subadd r a b : 0 <= r ->
  approx_tokens_loop 0 r (a ++ b) <= approx_tokens_loop 0 r a + approx_tokens b.
Proof.
  revert r. induction a as [|c a IH]; intros r Hr; cbn [approx_tokens_loop app].
  - pose proof (tokens_run_add r 0 b Hr ltac:(lia)) as H. rewrite Z.add_0_r in H. done.
  - destruct (is_ascii_alphanumeric c); [apply IH; lia|].
    destruct (is_whitespace c); rewrite tokens_shift, (tokens_shift (_ + _) 0 a);
      specialize (IH 0); lia.
Qed.

Lemma tokens_bound r s : 0 <= r -> 0 <= approx_tokens_loop 0 r s <= r + Z.of_nat (length s).
Proof.
  revert r. induction s as [|c s IH]; intros r Hr; cbn [approx_tokens_loop length];
    pose proof (div_ceil_4_bound r Hr); [lia|].
  destruct (is_ascii_alphanumeric c); [specialize (IH (r + 1)); lia|].
  destruct (is_whitespace c); rewrite tokens_shift; specialize (IH 0); lia.
Qed.

(** Some character is not white space: the text costs at least one token. *)
Lemma tokens_pos r s : 0 <= r -> 0 < r \/ existsb (fun c => negb (is_whitespace c)) s = true ->
  0 < approx_tokens_loop 0 r s.
Proof.
  revert r. induction s as [|c s IH]; intros r Hr H; cbn [approx_tokens_loop].
  - destruct H as [H|H]; [|done]. rewrite div_ceil_4 by lia. Z.div_mod_to_equations. lia.
  - destruct (is_ascii_alphanumeric c); [apply IH; lia|].
    pose proof (tokens_bound 0 s ltac:(lia)). pose proof (div_ceil_4_bound r Hr).
    destruct (is_whitespace c) eqn:Ew; rewrite tokens_shift; [|lia].
    destruct H as [H|H].
    + assert (0 < div_ceil r 4); [|lia]. rewrite div_ceil_4 by lia. Z.div_mod_to_equations. lia.
    + cbn in H. rewrite Ew in H. specialize (IH 0 ltac:(lia) (or_intror H)). lia.
Qed.
End Tokens.

(** The token estimate is monotone and subadditive under concatenation, is
    zero on the empty text, is positive as soon as a character is not white
    space, and never exceeds the number of characters, so the [u64]
    accumulators cannot overflow. *)
Theorem approx_tokens_laws (a b : str) :
  approx_tokens [] = 0 /\
  approx_tokens a <= approx_tokens (a ++ b) <= approx_tokens a + approx_tokens b /\
  0 <= approx_tokens a <= Z.of_nat (length a) /\
  (existsb (fun c => negb (is_whitespace c)) a = true <-> 0 < approx_tokens a).
Proof.
  split; [done|]. split; [split; [apply tokens_append|apply tokens_subadd]; lia|].
  split; [apply (tokens_bound 0); lia|]. split; [intros H; apply tokens_pos; [lia|by right]|].
  unfold approx_tokens. intros H. destruct (existsb _ a) eqn:E; [done|]. exfalso.
  cut (approx_tokens_loop 0 0 a = 0); [lia|]. clear H. apply existsb_false_iff in E.
  induction E as [|c a Hc _ IH]; [done|]. b2p. cbn [approx_tokens_loop].
  destruct (is_ascii_alphanumeric c) eqn:Ea; [|by rewrite Hc].
  exfalso. revert Ea Hc. clear. unfold is_ascii_alphanumeric, is_ascii_alphabetic,
    is_ascii_lowercase, is_ascii_uppercase, is_ascii_digit, is_whitespace.
  rewrite !orb_true_iff, !andb_true_iff, !Z.leb_le, !Z.eqb_eq. lia.
Qed.

(** * time.rs *)

(** The proleptic Gregorian calendar, by its rules. *)
Definition is_leap (y : Z) : bool :=
  (y mod 4 =? 0) && (negb (y mod 100 =? 0) || (y mod 400 =? 0)).

Definition days_in_month (y m : Z) : Z :=
  if m =? 2 then (if is_leap y then 29 else 28)
  else if (m =? 4) || (m =? 6) || (m =? 9) || (m =? 11) then 30 else 31.

Definition valid_date (date : Z * Z * Z) : Prop :=
  let '(y, m, d) := date in 1 <= m <= 12 /\ 1 <= d <= days_in_month y m.

Definition next_day (date : Z * Z * Z) : Z * Z * Z :=
  let '(y, m, d) := date in
  if d <? days_in_month y m then (y, m, d + 1)
  else if m <? 12 then (y, m + 1, 1)
  else (y + 1, 1, 1).

Section Calendar.

(** Days of the years before year [yoe] of an era, the years starting in March. *)
Definition year_start (yoe : Z) : Z := 365 * yoe + yoe / 4 - yoe / 100.

(** Whether the March-based year [yoe] ends with a leap day. *)
Definition year_len (yoe : Z) : Z := if is_leap (yoe + 1) then 366 else 365.

Lemma year_len_pos yoe : 365 <= year_len yoe <= 366.
Proof. unfold year_len. destruct (is_leap _); lia. Qed.

Definition yoe_of (doe : Z) : Z := (doe - doe / 1460 + doe / 36524 - doe / 146096) / 365.

Lemma yoe_correct yoe doy : 0 <= yoe < 400 -> 0 <= doy < year_len yoe ->
  yoe_of (year_start yoe + doy) = yoe.
Proof.
  unfold year_len, is_leap, yoe_of, year_start. intros Hy Hd.
  assert (0 <= doy < 365 \/ (doy = 365 /\ (yoe + 1) mod 4 = 0 /\
            ((yoe + 1) mod 100 <> 0 \/ (yoe + 1) mod 400 = 0))) as H.
  { destruct ((yoe + 1) mod 4 =? 0) eqn:E1, ((yoe + 1) mod 100 =? 0) eqn:E2,
      ((yoe + 1) mod 400 =? 0) eqn:E3; cbn in Hd; b2p; lia. }
  clear Hd. Z.div_mod_to_equations. lia.
Qed.

Definition march_date (y doy : Z) : Z * Z * Z :=
  let mp := (5 * doy + 2) / 153 in
  let d := doy - (153 * mp + 2) / 5 + 1 in
  let m := if mp <? 10 then mp + 3 else mp - 9 in
  (if m <=? 2 then y + 1 else y, m, d).

Lemma march_split doe : 0 <= doe < 146097 -> exists yoe doy,
  0 <= yoe < 400 /\ 0 <= doy < year_len yoe /\ doe = year_start yoe + doy.
Proof.
  intros H. exists (yoe_of doe), (doe - year_start (yoe_of doe)).
  assert (0 <= doe - year_start (yoe_of doe) < 365 \/
    (doe - year_start (yoe_of doe) = 365 /\ (yoe_of doe + 1) mod 4 = 0 /\
      ((yoe_of doe + 1) mod 100 <> 0 \/ (yoe_of doe + 1) mod 400 = 0))) as Hd.
  { unfold year_start, yoe_of. Z.div_mod_to_equations. lia. }
  split; [unfold yoe_of; Z.div_mod_to_equations; lia|]. split; [|lia].
  unfold year_len, is_leap.
  destruct ((yoe_of doe + 1) mod 4 =? 0) eqn:E1, ((yoe_of doe + 1) mod 100 =? 0) eqn:E2,
      ((yoe_of doe + 1) mod 400 =? 0) eqn:E3; cbn; b2p; lia.
Qed.

Lemma civil_march era yoe doy : 0 <= yoe < 400 -> 0 <= doy < year_len yoe ->
  civil_from_days (146097 * era + year_start yoe + doy - 719468) =
  march_date (yoe + era * 400) doy.
Proof.
  intros Hy Hd. pose proof (yoe_correct yoe doy Hy Hd) as Hyoe.
  assert (0 <= doy <= 365) as Hd' by (unfold year_len in Hd; case_match; lia).
  assert (0 <= year_start yoe + doy < 146097) as Hdoe.
  { unfold year_len, is_leap, year_start in *.
    destruct ((yoe + 1) mod 4 =? 0) eqn:E1, ((yoe + 1) mod 100 =? 0) eqn:E2,
      ((yoe + 1) mod 400 =? 0) eqn:E3; cbn in Hd; b2p; Z.div_mod_to_equations; lia. }
  set (doe := year_start yoe + doy) in *. unfold civil_from_days.
  replace (146097 * era + year_start yoe + doy - 719468 + 719468) with (146097 * era + doe)
    by (unfold doe; lia).
  assert (Z.quot (if 146097 * era + doe >=? 0 then 146097 * era + doe
                  else 146097 * era + doe - 146096) 146097 = era) as ->.
  { destruct (_ >=? 0) eqn:E; b2p.
    - rewrite Z.quot_div_nonneg by lia. Z.div_mod_to_equations. lia.
    - rewrite <- (Z.opp_involutive (_ - 146096)), Z.quot_opp_l by lia.
      rewrite Z.quot_div_nonneg by lia. Z.div_mod_to_equations. lia. }
  replace (146097 * era + doe - era * 146097) with doe by lia.
  rewrite !(Z.quot_div_nonneg doe) by lia. unfold yoe_of in Hyoe.
  rewrite (Z.quot_div_nonneg (_ - _)) by (Z.div_mod_to_equations; lia). rewrite Hyoe.
  rewrite !(Z.quot_div_nonneg yoe) by lia.
  replace (doe - (365 * yoe + yoe / 4 - yoe / 100)) with doy by (unfold doe, year_start; lia).
  rewrite (Z.quot_div_nonneg (5 * doy + 2)) by lia.
  rewrite (Z.quot_div_nonneg (153 * _ + 2)) by (Z.div_mod_to_equations; lia).
  unfold march_date. done.
Qed.

(** The month a day of the March-based year falls in. *)
Lemma month_cases doy : 0 <= doy <= 365 ->
  let mp := (5 * doy + 2) / 153 in
  exists lo len, In (mp, lo, len)
    [(0, 0, 31); (1, 31, 30); (2, 61, 31); (3, 92, 30); (4, 122, 31); (5, 153, 31);
     (6, 184, 30); (7, 214, 31); (8, 245, 30); (9, 275, 31); (10, 306, 31); (11, 337, 29)] /\
    (153 * mp + 2) / 5 = lo /\ lo <= doy < lo + len.
Proof.
  intros Hd mp. assert (0 <= mp <= 11) as Hmp by (unfold mp; Z.div_mod_to_equations; lia).
  assert (153 * mp <= 5 * doy + 2 < 153 * mp + 153) as Hb
    by (unfold mp; Z.div_mod_to_equations; lia).
  clearbody mp.
  assert (mp = 0 \/ mp = 1 \/ mp = 2 \/ mp = 3 \/ mp = 4 \/ mp = 5 \/ mp = 6 \/ mp = 7 \/
          mp = 8 \/ mp = 9 \/ mp = 10 \/ mp = 11) as Hc by lia.
  repeat destruct Hc as [->|Hc]; [..|subst mp]; do 2 eexists;
    (split; [cbn; eauto 20|split; [reflexivity|cbn in Hb; lia]]).
Qed.

Lemma march_next y doy : 0 <= doy < year_len y ->
  valid_date (march_date y doy) /\
  next_day (march_date y doy) =
    if doy + 1 <? year_len y then march_date y (doy + 1) else march_date (y + 1) 0.
Proof.
  intros Hd. pose proof (year_len_pos y) as Hl.
  destruct (month_cases doy ltac:(lia)) as (lo & len & Hin & Hlo & Hr).
  change (march_date (y + 1) 0) with (y + 1, 3, 1).
  unfold march_date, valid_date, next_day. rewrite Hlo.
  destruct (doy + 1 <? year_len y) eqn:E; b2p.
  - destruct (month_cases (doy + 1) ltac:(lia)) as (lo' & len' & Hin' & Hlo' & Hr').
    rewrite Hlo'. unfold year_len in *. cbn in Hin, Hin'.
    repeat destruct Hin as [Hin|Hin]; [..|done]; injection Hin as <- <- <-;
      repeat destruct Hin' as [Hin'|Hin']; try done; injection Hin' as <- <- <-; try lia;
      unfold days_in_month; cbn -[Z.add Z.sub]; repeat case_match; b2p; try lia; try congruence;
      (split; [lia|]); repeat f_equal; lia.
  - unfold year_len in *. cbn in Hin.
    repeat destruct Hin as [Hin|Hin]; [..|done]; injection Hin as <- <- <-; try lia;
      unfold days_in_month; cbn -[Z.add Z.sub]; repeat case_match; b2p; try lia; try congruence;
      (split; [lia|]); repeat f_equal; lia.
Qed.

Lemma year_start_next yoe : 0 <= yoe < 399 -> year_start yoe + year_len yoe = year_start (yoe + 1).
Proof.
  intros Hy. unfold year_len, is_leap, year_start.
  destruct ((yoe + 1) mod 4 =? 0) eqn:E1, ((yoe + 1) mod 100 =? 0) eqn:E2,
      ((yoe + 1) mod 400 =? 0) eqn:E3; cbn; b2p; Z.div_mod_to_equations; lia.
Qed.

Lemma year_len_period yoe era : year_len (yoe + era * 400) = year_len yoe.
Proof.
  unfold year_len, is_leap. replace (yoe + era * 400 + 1) with (yoe + 1 + era * 400) by lia.
  rewrite Z.mod_add by lia.
  replace (era * 400) with (era * 100 * 4) by lia. rewrite Z.mod_add by lia.
  replace (era * 100 * 4) with (era * 4 * 100) by lia. rewrite Z.mod_add by lia. done.
Qed.

Lemma march_exists z : exists era yoe doy,
  0 <= yoe < 400 /\ 0 <= doy < year_len yoe /\
  z = 146097 * era + year_start yoe + doy - 719468.
Proof.
  destruct (march_split ((z + 719468) mod 146097)) as (yoe & doy & Hy & Hd & He).
  { apply Z.mod_pos_bound. lia. }
  exists ((z + 719468) / 146097), yoe, doy. split; [done|]. split; [done|].
  pose proof (Z.div_mod (z + 719468) 146097). lia.
Qed.
(** Every day number names a date that exists, and the next one its successor. *)
Lemma civil_step z : valid_date (civil_from_days z) /\
  civil_from_days (z + 1) = next_day (civil_from_days z).
Proof.
  destruct (march_exists z) as (era & yoe & doy & Hy & Hd & ->).
  rewrite civil_march by done.
  destruct (march_next (yoe + era * 400) doy) as [Hv Hn]; [by rewrite year_len_period|].
  split; [done|]. rewrite Hn, year_len_period. destruct (doy + 1 <? year_len yoe) eqn:E; b2p.
  - rewrite <- civil_march by lia. f_equal. lia.
  - destruct (decide (yoe < 399)).
    + replace (yoe + era * 400 + 1) with (yoe + 1 + era * 400) by lia.
      rewrite <- civil_march; [|lia|pose proof (year_len_pos (yoe + 1)); lia].
      f_equal. rewrite <- year_start_next by lia. lia.
    + replace (yoe + era * 400 + 1) with (0 + (era + 1) * 400) by lia.
      rewrite <- civil_march; [|lia|pose proof (year_len_pos 0); lia].
      f_equal. assert (yoe = 399) as -> by lia. change (year_len 399) with 366 in *.
      change (year_start 399) with 145731. change (year_start 0) with 0. lia.
Qed.
End Calendar.

(** The hand-rolled calendar is the proleptic Gregorian calendar: day 0 is
    1970-01-01, every day number names a date that exists (leap years
    included, before the epoch too), and the date of the next day number is
    the calendar's next day. *)
Theorem civil_from_days_gregorian (z : Z) :
  civil_from_days 0 = (1970, 1, 1) /\
  valid_date (civil_from_days z) /\
  civil_from_days (z + 1) = next_day (civil_from_days z).
Proof. split; [done|]. apply civil_step. Qed.

(** * ids.rs *)

Section Ids.
Import Ids.
Context {UT : UnicodeTables}.

Lemma visible_bytes s : forallb visible_ascii (as_bytes s) = forallb visible_ascii s.
Proof.
  unfold as_bytes. induction s as [|c s IH]; cbn; [done|]. rewrite forallb_app, IH. f_equal.
  unfold encode_utf8_char, visible_ascii. repeat case_match; b2p; cbn; [by rewrite andb_true_r|..].
  all: rewrite (proj2 (Z.leb_gt c 126)) by lia; rewrite andb_false_r.
  all: match goal with |- context [?x <=? 126] =>
         rewrite (proj2 (Z.leb_gt x 126)) by (Z.div_mod_to_equations; lia) end.
  all: by rewrite andb_false_r.
Qed.

Lemma visible_len s : forallb visible_ascii s = true -> str_len s = Z.of_nat (length s).
Proof.
  induction s as [|c s IH]; cbn -[Z.of_nat]; [done|]. intros H. b2p. rewrite IH by done.
  unfold visible_ascii in *. b2p. unfold len_utf8. rewrite (proj2 (Z.ltb_lt c 128)) by lia. lia.
Qed.

Lemma visible_not_bidi c : visible_ascii c = true -> is_bidi_or_zero_width c = false.
Proof.
  unfold visible_ascii, is_bidi_or_zero_width. intros H. b2p. apply existsb_false_iff.
  unfold DANGEROUS_CODEPOINTS. rewrite ?Forall_cons, Forall_nil, !Z.eqb_neq. lia.
Qed.

Lemma visible_no_spoofing s :
  forallb visible_ascii s = true -> contains_bidi_or_zero_width s = false.
Proof.
  rewrite forallb_true_iff. intros H. apply existsb_false_iff. eapply Forall_impl; [exact H|].
  apply visible_not_bidi.
Qed.

Lemma str_len_pos s : s <> [] -> 0 < str_len s.
Proof.
  assert (forall c, 1 <= len_utf8 c) as Hc by (intros c; unfold len_utf8; repeat case_match; lia).
  assert (forall s, 0 <= str_len s) as Hs.
  { induction s0 as [|c s0 IH]; cbn; [done|]. pose proof (Hc c). lia. }
  destruct s as [|c s]; [done|]. intros _. cbn. pose proof (Hc c). pose proof (Hs s). lia.
Qed.
End Ids.

(** A session id is accepted exactly when it has 1 to 128 characters, all
    visible ASCII; it is then kept verbatim and carries no spoofing code
    point.  An over-long id is refused with a message that depends only on its
    length and on its first 24 bytes. *)
Theorem parse_session_id_exact {UT : UnicodeTables} (s : str) :
  ((exists id, Ids.parse_session_id s = Ok id) <->
     (1 <= length s <= 128)%nat /\ Forall (fun c => 0x21 <= c <= 0x7e) s) /\
  (forall id, Ids.parse_session_id s = Ok id ->
     Ids.session_str id = s /\ contains_bidi_or_zero_width s = false) /\
  (forall s', 128 < str_len s -> str_len s' = str_len s ->
     Ids.floor_prefix 24 s' = Ids.floor_prefix 24 s ->
     Ids.parse_session_id s' = Ids.parse_session_id s).
Proof.
  assert (forallb Ids.visible_ascii s = true <-> Forall (fun c => 0x21 <= c <= 0x7e) s) as Hvis.
  { rewrite forallb_true_iff, !Forall_forall. unfold Ids.visible_ascii.
    setoid_rewrite andb_true_iff. by setoid_rewrite Z.leb_le. }
  split; [|split].
  - rewrite <- Hvis. unfold Ids.parse_session_id. rewrite visible_bytes. split.
    + intros [id H]. repeat (case_match; [done|]). b2p. rewrite str_eqb_neq in *.
      split; [|done]. rewrite visible_len in * by done. destruct s; [done|]. cbn in *. lia.
    + intros [Hl Hv]. rewrite Hv, visible_len by done. destruct s as [|c s]; [cbn in Hl; lia|].
      rewrite (proj2 (str_eqb_neq _ _)) by done. case_match; b2p; [lia|]. by eexists.
  - unfold Ids.parse_session_id. rewrite visible_bytes. intros id H.
    repeat (case_match; [done|]). b2p. injection H as <-. split; [done|].
    by apply visible_no_spoofing.
  - intros s' Hl Hl' Hp. unfold Ids.parse_session_id.
    assert (forall t, 128 < str_len t -> str_eqb t [] = false) as Hne.
    { intros [|]; [done|]. intros _. by apply str_eqb_neq. }
    rewrite !Hne by lia. rewrite Hl', (proj2 (Z.gtb_lt _ _)) by lia.
    by rewrite Z.min_l, Hp by lia.
Qed.

Lemma parse_session_id_exact_witness :
  @Ids.parse_session_id ascii_tables (replicate 200 65 ++ [10]) =
  @Ids.parse_session_id ascii_tables (replicate 201 65).
Proof.
  apply (proj2 (proj2 (@parse_session_id_exact ascii_tables (replicate 201 65)))); reflexivity.
Defined.

(** * url_redact.rs *)

Section Redact.

(** User information: no [/], [?] or [#], the characters that end an authority. *)
Definition is_userinfo (ui : str) : Prop := Forall (fun c => authority_end c = false) ui.

Definition is_scheme (s : str) : Prop := Forall (fun c => scheme_char c = true) s.

Lemma sep_eq : scheme_sep = [58; 47; 47].
Proof. reflexivity. Qed.

Lemma scheme_char_neq c : scheme_char c = true -> c <> 58 /\ c <> 44 /\ c <> 64.
Proof. intros H. repeat split; intros ->; done. Qed.

Lemma split_once_scheme s y : is_scheme s -> split_once scheme_sep (s ++ scheme_sep ++ y) = Some (s, y).
Proof.
  rewrite sep_eq. induction 1 as [|c s Hc Hs IH]; [done|].
  apply scheme_char_neq in Hc as [Hc _]. cbn -[starts_with] in IH |- *.
  assert (starts_with [58; 47; 47] (c :: s ++ 58 :: 47 :: 47 :: y) = false) as ->.
  { cbn [starts_with]. apply andb_false_iff. left. apply Z.eqb_neq. congruence. }
  by rewrite IH.
Qed.

Lemma split_once_userinfo ui x : is_userinfo ui ->
  split_once scheme_sep (ui ++ 64 :: x) =
  match split_once scheme_sep x with Some (a, b) => Some (ui ++ 64 :: a, b) | None => None end.
Proof.
  rewrite sep_eq. induction 1 as [|c ui Hc Hui IH]; [done|]. cbn -[starts_with].
  assert (starts_with [58; 47; 47] (c :: ui ++ 64 :: x) = false) as ->.
  { cbn [starts_with app]. apply andb_false_iff. right. destruct Hui as [|d ui Hd _]; [done|].
    cbn [starts_with app]. apply andb_false_iff. left. apply Z.eqb_neq. intros <-. done. }
  rewrite IH. by destruct (split_once _ x) as [[a b]|].
Qed.

Lemma not_scheme_after_userinfo ui x : is_userinfo ui -> starts_with_scheme (ui ++ 64 :: x) = false.
Proof.
  intros Hui. unfold starts_with_scheme. rewrite split_once_userinfo by done.
  destruct (split_once _ x) as [[a b]|]; [|done].
  assert (In 64 (as_bytes (ui ++ 64 :: a))) as Hin.
  { unfold as_bytes. rewrite map_app, concat_app. apply in_app_iff. right. by left. }
  destruct (as_bytes _) as [|f bs]; [done|]. apply andb_false_iff. destruct Hin as [->|Hin].
  - by left.
  - right. apply not_true_is_false. rewrite forallb_forall. intros H. by specialize (H _ Hin).
Qed.

Lemma split_url_userinfo seg ui x : is_userinfo ui ->
  split_url_loop seg (ui ++ 64 :: x) = split_url_loop (64 :: rev ui ++ seg) x.
Proof.
  intros Hui. revert seg. induction Hui as [|c ui Hc Hui IH]; intros seg; [done|]. cbn.
  rewrite not_scheme_after_userinfo, andb_false_r, IH by done. by rewrite <- app_assoc.
Qed.

Lemma split_url_scheme seg s x : is_scheme s ->
  split_url_loop seg (s ++ x) = split_url_loop (rev s ++ seg) x.
Proof.
  intros Hs. revert seg. induction Hs as [|c s Hc Hs IH]; intros seg; [done|]. cbn.
  apply scheme_char_neq in Hc as (_ & Hc & _). rewrite (proj2 (Z.eqb_neq c 44)) by done. cbn.
  rewrite IH. by rewrite <- app_assoc.
Qed.

Lemma split_url_acc seg x : exists h t, split_url_loop [] x = h :: t /\
  split_url_loop seg x = (rev seg ++ h) :: t.
Proof.
  assert (forall x s, exists h t, forall seg, split_url_loop (s ++ seg) x = (rev seg ++ h) :: t) as H.
  { clear. induction x as [|c x IH]; intros s; cbn.
    - exists (rev s), []. intros seg. by rewrite rev_app_distr.
    - destruct ((c =? 44) && starts_with_scheme x).
      + exists (rev s), (split_url_loop [] x). intros seg. by rewrite rev_app_distr.
      + apply (IH (c :: s)). }
  destruct (H x []) as (h & t & Ht). exists h, t. split; [apply (Ht [])|apply (Ht seg)].
Qed.

Lemma break_userinfo ui x : is_userinfo ui ->
  break_at authority_end (ui ++ 64 :: x) =
  (let '(a, b) := break_at authority_end x in (ui ++ 64 :: a, b)).
Proof.
  induction 1 as [|c ui Hc Hui IH]; cbn.
  - by destruct (break_at _ x).
  - rewrite Hc, IH. by destruct (break_at _ x).
Qed.

Definition after_last_at (a : str) : str :=
  match rsplit_once [64] a with Some (_, h) => h | None => a end.

Lemma rsplit_userinfo ui a : exists p, rsplit_once [64] (ui ++ 64 :: a) = Some (p, after_last_at a).
Proof.
  induction ui as [|c ui [p IH]]; cbn -[starts_with].
  - unfold after_last_at. destruct (rsplit_once [64] a) as [[q h]|]; [by eexists|].
    by exists [].
  - rewrite IH. by eexists.
Qed.

Lemma redact_single_userinfo s ui x : is_scheme s -> is_userinfo ui ->
  redact_single (s ++ scheme_sep ++ ui ++ 64 :: x) =
  (let '(a, b) := break_at authority_end x in
   s ++ scheme_sep ++ lit "***@" ++ after_last_at a ++ b).
Proof.
  intros Hs Hui. unfold redact_single. rewrite split_once_scheme, break_userinfo by done.
  destruct (break_at _ x) as [a b]. destruct (rsplit_userinfo ui a) as [p ->].
  by rewrite <- app_assoc.
Qed.

Lemma split_once_shorter s a b : split_once scheme_sep s = Some (a, b) -> (length b < length s)%nat.
Proof.
  rewrite sep_eq. revert a b. induction s as [|c s IH]; intros a b; [done|].
  cbn -[starts_with drop]. destruct (starts_with _ (c :: s)) eqn:Es.
  - intros [= <- <-]. rewrite length_drop. cbn. lia.
  - destruct (split_once _ s) as [[a' b']|]; [|done]. intros [= <- <-].
    specialize (IH a' b' eq_refl). cbn. lia.
Qed.

Lemma count_matches_fuel_enough f f' s : (length s < f)%nat -> (length s < f')%nat ->
  count_matches_fuel f scheme_sep s = count_matches_fuel f' scheme_sep s.
Proof.
  revert f' s. induction f as [|f IH]; intros f' s Hf Hf'; [lia|]. destruct f' as [|f']; [lia|].
  cbn [count_matches_fuel].
  destruct (split_once scheme_sep s) as [[a b]|] eqn:E; [|done]. f_equal.
  apply split_once_shorter in E. apply IH; lia.
Qed.

Lemma count_matches_step s : count_matches scheme_sep s =
  match split_once scheme_sep s with Some (_, b) => S (count_matches scheme_sep b) | None => 0%nat end.
Proof.
  unfold count_matches at 1. cbn [count_matches_fuel].
  destruct (split_once scheme_sep s) as [[a b]|] eqn:E; [|done].
  f_equal. unfold count_matches. apply split_once_shorter in E. apply count_matches_fuel_enough; lia.
Qed.

Lemma count_matches_userinfo ui x : is_userinfo ui ->
  count_matches scheme_sep (ui ++ 64 :: x) = count_matches scheme_sep x.
Proof.
  intros Hui. rewrite !(count_matches_step), split_once_userinfo by done.
  by destruct (split_once _ x) as [[a b]|].
Qed.
End Redact.

(** Redaction is independent of the credentials: for a URL
    [scheme://userinfo@rest], whatever the user information is (commas, colons
    and at-signs included) and whatever follows (cluster host lists and lists
    of further URLs included), the result is the one obtained with the user
    information already replaced by [***]. *)
Theorem redact_userinfo_hides_credentials (scheme ui rest : str) :
  is_scheme scheme -> is_userinfo ui ->
  redact_userinfo (scheme ++ scheme_sep ++ ui ++ 64 :: rest) =
  redact_userinfo (scheme ++ scheme_sep ++ lit "***" ++ 64 :: rest).
Proof.
  intros Hs Hui. assert (is_userinfo (lit "***")) as Hst by (repeat constructor).
  revert Hst. generalize (lit "***") as st. intros st Hst.
  unfold redact_userinfo, contains. rewrite !split_once_scheme by done. cbn [negb].
  rewrite !(count_matches_step (scheme ++ _)), !split_once_scheme, !count_matches_userinfo by done.
  unfold split_url_list. rewrite !(split_url_scheme [] scheme) by done.
  assert (forall u, is_userinfo u -> split_url_loop (rev scheme ++ []) (scheme_sep ++ u ++ 64 :: rest) =
    split_url_loop (64 :: rev u ++ rev (scheme ++ scheme_sep)) rest) as Hl.
  { intros u Hu. rewrite sep_eq. cbn. rewrite split_url_userinfo, rev_app_distr by done. cbn.
    by rewrite app_nil_r. }
  rewrite !Hl by done.
  destruct (split_url_acc (64 :: rev ui ++ rev (scheme ++ scheme_sep)) rest) as (h & t & Ht & ->).
  destruct (split_url_acc (64 :: rev st ++ rev (scheme ++ scheme_sep)) rest)
    as (h' & t' & Ht' & ->).
  rewrite Ht in Ht'. injection Ht' as <- <-.
  assert (forall u, is_userinfo u ->
    redact_single (rev (64 :: rev u ++ rev (scheme ++ scheme_sep)) ++ h) =
    redact_single (scheme ++ scheme_sep ++ u ++ 64 :: h)) as Hseg.
  { intros u _. f_equal. cbn [rev]. rewrite rev_app_distr, !rev_involutive, <- !app_assoc. done. }
  cbn [map]. rewrite !Hseg, !redact_single_userinfo by done. done.
Qed.

Lemma redact_userinfo_hides_credentials_witness :
  redact_userinfo (lit "redis://u:p,w@h1:6379,redis://a@h2") =
  redact_userinfo (lit "redis://***@h1:6379,redis://a@h2").
Proof.
  apply (redact_userinfo_hides_credentials (lit "redis") (lit "u:p,w") (lit "h1:6379,redis://a@h2"));
    repeat constructor.
Defined.
