(* ===== verification/Identity.v ===== *)
(** Non-human identities ([av-identity]: [claims.rs] and [revocation.rs]): the
    audience and actor claims, the token claims, and the revocation store with
    its single-node implementation. *)

From S2P Require Import Prelude Rust CoreBase Json.

(** * claims.rs *)

Definition MAX_TTL_SECS : Z := 15 * 60.

Inductive Audience :=
| Single (value : str)
| Multi (values : list str).

(** Why a JSON value is not an audience: the visitor's own refusals, or a value
    (or array element) of another type. *)
Inductive audience_error :=
| AudCustom (msg : str)
| AudType.

(** [seq.next_element::<String>] until the end. *)
Fixpoint string_elements (items : list Value) : option (list str) :=
  match items with
  | [] => Some []
  | JString s :: items' => match string_elements items' with Some l => Some (s :: l) | None => None end
  | _ => None
  end.

Definition empty_aud_msg : str :=
  lit "aud claim must not be an empty string; provide the audience or omit the claim".

Definition deserialize_audience (v : Value) : result Audience audience_error :=
  match v with
  | JString value => if str_eqb value [] then Err (AudCustom empty_aud_msg) else Ok (Single value)
  | Array items =>
      match string_elements items with
      | None => Err AudType
      | Some [] => Err (AudCustom (lit "aud claim must not be an empty array; provide the audience or omit the claim"))
      | Some values =>
          if existsb (fun s => str_eqb s []) values
          then Err (AudCustom (lit "aud claim array must not contain empty strings"))
          else Ok (Multi values)
      end
  | _ => Err AudType
  end.

Definition serialize_audience (a : Audience) : Value :=
  match a with Single s => JString s | Multi l => Array (map JString l) end.

Definition audience_contains (a : Audience) (expected : str) : bool :=
  match a with
  | Single value => str_eqb value expected
  | Multi values => existsb (fun v => str_eqb v expected) values
  end.

Definition audience_primary (a : Audience) : str :=
  match a with Single value => value | Multi values => default [] (head values) end.

Inductive ActorClaim := mkActor (act_sub : str) (act_inner : option ActorClaim).

Fixpoint actor_depth (a : ActorClaim) : nat :=
  match a with
  | mkActor _ None => 0
  | mkActor _ (Some inner) => 1 + actor_depth inner
  end.

Record NhiClaims := mkClaims {
  sub : str; iss : str; aud : Audience; iat : Z; nbf : option Z; exp : Z; jti : str;
  azp : option str; act : option ActorClaim; instance_uid : str; charter : str; version : str;
  scopes : list str; parent_token : option str;
}.

Definition scopes_cover (self candidate : NhiClaims) : bool :=
  forallb (fun s => existsb (fun p => str_eqb p s) (scopes self)) (scopes candidate).

(** * revocation.rs *)

Record RevocationIdentity := mkRevocationIdentity {
  ri_iss : str; ri_jti : str; ri_instance_uid : str; ri_iat : Z;
}.

Definition revocation_identity (c : NhiClaims) : RevocationIdentity :=
  mkRevocationIdentity (iss c) (jti c) (instance_uid c) (iat c).

Inductive RevokedBy := ByJti | ByInstance (cutoff : Z).

Inductive RevokeOutcome := Revoked | AlreadyRevoked.

(** [trait RevocationStore]; [health] reads no state of the model. *)
Class RevocationStore (RS : Type) := {
  rs_revoke : RS -> str -> Z -> RS * result unit str;
  rs_is_revoked : RS -> str -> result bool str;
  rs_sweep_expired : RS -> Z -> RS;
  rs_try_revoke : RS -> str -> Z -> RS * result RevokeOutcome str;
  rs_revoke_instance : RS -> str -> Z -> Z -> RS * result unit str;
  rs_try_revoke_token : RS -> str -> str -> Z -> RS * result RevokeOutcome str;
  rs_check_token : RS -> str -> str -> str -> Z -> result (option RevokedBy) str;
  rs_check : RS -> str -> str -> Z -> result (option RevokedBy) str;
}.

Module InMemoryRevocation.

Record t := mk {
  entries : gmap str Z;
  issued_entries : gmap (str * str) Z;
  instances : gmap str (Z * Z);
}.

Definition new : t := mk ∅ ∅ ∅.

Definition sweep (s : t) (now_s : Z) : t :=
  mk (filter (fun kv => now_s <= kv.2) (entries s))
     (filter (fun kv => now_s <= kv.2) (issued_entries s))
     (filter (fun kv => now_s <= kv.2.2) (instances s)).

Definition len (s : t) : nat := size (entries s) + size (issued_entries s) + size (instances s).

Definition is_empty (s : t) : bool :=
  bool_decide (entries s = ∅) && bool_decide (issued_entries s = ∅) && bool_decide (instances s = ∅).

Definition try_revoke (s : t) (jti : str) (expires_at : Z) : t * result RevokeOutcome str :=
  match entries s !! jti with
  | None => (mk (<[jti := expires_at]> (entries s)) (issued_entries s) (instances s), Ok Revoked)
  | Some e =>
      (mk (<[jti := Z.max e expires_at]> (entries s)) (issued_entries s) (instances s), Ok AlreadyRevoked)
  end.

Definition revoke (s : t) (jti : str) (expires_at : Z) : t * result unit str :=
  let '(s', r) := try_revoke s jti expires_at in
  (s', match r with Ok _ => Ok tt | Err e => Err e end).

Definition is_revoked (s : t) (jti : str) : result bool str :=
  Ok (bool_decide (is_Some (entries s !! jti))).

Definition try_revoke_token (s : t) (issuer jti : str) (expires_at : Z) : t * result RevokeOutcome str :=
  match issued_entries s !! (issuer, jti) with
  | None =>
      (mk (entries s) (<[(issuer, jti) := expires_at]> (issued_entries s)) (instances s), Ok Revoked)
  | Some e =>
      (mk (entries s) (<[(issuer, jti) := Z.max e expires_at]> (issued_entries s)) (instances s),
       Ok AlreadyRevoked)
  end.

Definition revoke_instance (s : t) (uid : str) (cutoff expires_at : Z) : t * result unit str :=
  let entry := default (cutoff, expires_at) (instances s !! uid) in
  (mk (entries s) (issued_entries s)
      (<[uid := (Z.max entry.1 cutoff, Z.max entry.2 expires_at)]> (instances s)), Ok tt).

Definition check (s : t) (jti uid : str) (iat : Z) : result (option RevokedBy) str :=
  let? revoked := is_revoked s jti in
  if revoked : bool then Ok (Some ByJti)
  else Ok (match instances s !! uid with
           | Some (cutoff, _) => if iat <=? cutoff then Some (ByInstance cutoff) else None
           | None => None
           end).

Definition check_token (s : t) (issuer jti uid : str) (iat : Z) : result (option RevokedBy) str :=
  if bool_decide (is_Some (issued_entries s !! (issuer, jti))) then Ok (Some ByJti)
  else check s jti uid iat.

#[global] Instance store : RevocationStore t := {|
  rs_revoke := revoke;
  rs_is_revoked := is_revoked;
  rs_sweep_expired := sweep;
  rs_try_revoke := try_revoke;
  rs_revoke_instance := revoke_instance;
  rs_try_revoke_token := try_revoke_token;
  rs_check_token := check_token;
  rs_check := check;
|}.
End InMemoryRevocation.
