(* ===== verification/Validator.v ===== *)
(** Token validation ([av-identity/src/validator.rs]): key registration and JWKS
    rotation, the checks on one token, and the walk up a delegation chain. *)

From S2P Require Import Prelude Rust CoreBase Json Core Identity.

Definition DEFAULT_LEEWAY_SECS : Z := 30.
Definition MAX_SCOPES : nat := 64.
Definition MAX_IDENTITY_STRING_CHARS : nat := 256.
Definition MAX_INSTANCE_UID_CHARS : nat := 128.
Definition MAX_JWT_BYTES : Z := 8 * 1024.
Definition MAX_JWKS_KEYS : nat := 256.

Inductive KeyMaterial :=
| Ed25519Pem (pem : str)
| Ed25519Jwk (x : str)
| HmacSecret (secret : list Z).

Inductive IdentityError :=
| Malformed (msg : str)
| MissingKid
| UnknownKid (kid : str)
| AlgorithmRejected (alg kid : str)
| Verification (msg : str)
| TtlTooLong (ttl : Z)
| BadTimestamps (iat exp : Z)
| FutureIat (iat now : Z)
| Expired (exp now : Z)
| EmptyField (field : str)
| FieldTooLong (field : str) (max : nat)
| SpoofingCharacter (field : str)
| BadIssuer (iss : str)
| Jwks (msg : str)
| ScopeEscalation (scope : str)
| ExpEscalation (child parent : Z)
| IatEscalation (child parent : Z)
| NbfEscalation (child parent : Z)
| ChainTooDeep (max : nat)
| TokenRevokedError (jti : str)
| InstanceRevoked (instance_uid : str) (cutoff : Z)
| RevocationUnavailable (msg : str)
| SubjectNotHuman
| SubjectPattern (msg : str).

Record ValidatedIdentity := mkIdentity {
  vi_claims : NhiClaims;
  chain_depth : nat;
  chain_tokens : list RevocationIdentity;
  total_delegation_depth : nat;
  ttl_remaining_s : Z;
}.

(** * Third-party pieces *)

(** [jsonwebtoken::Algorithm], with the [Debug] names of those the code accepts. *)
Inductive Algorithm := HS256 | EdDSA | OtherAlg (name : str).

#[global] Instance Algorithm_eq_dec : EqDecision Algorithm.
Proof. solve_decision. Defined.

Definition alg_debug (a : Algorithm) : str :=
  match a with HS256 => lit "HS256" | EdDSA => lit "EdDSA" | OtherAlg n => n end.

(** A decoded JOSE header; [h_b64] is the extension member [b64] read as a
    boolean, [None] when it has another type. *)
Record Header := mkHeader {
  h_alg : Algorithm;
  h_kid : option str;
  h_typ : option str;
  h_crit : option (list str);
  h_b64 : option (option bool);
}.

(** [jsonwebtoken::Validation] as the code sets it.  The required claims are not
    a field: [NhiClaims] cannot be read without them. *)
Record Validation := mkValidation {
  v_alg : Algorithm;
  v_audience : str;
  v_leeway : Z;
  v_validate_nbf : bool;
  v_validate_exp : bool;
}.

Inductive jwt_error := ExpiredSignature (msg : str) | OtherJwtError (msg : str).

Definition jwt_error_to_string (e : jwt_error) : str :=
  match e with ExpiredSignature m | OtherJwtError m => m end.

(** The [jsonwebtoken], [base64] and [regex] crates.  [decode] takes the time it
    reads from the clock; the claims it returns are signed under the key, are
    addressed to the audience, and satisfy the time checks that are on. *)
Class TokenLibs := {
  DecodingKey : Type;
  decode_header : str -> result Header str;
  from_ed_pem : str -> result DecodingKey str;
  from_ed_components : str -> result DecodingKey str;
  from_secret : list Z -> DecodingKey;
  decode : Z -> str -> DecodingKey -> Validation -> result NhiClaims jwt_error;
  signed_by : str -> DecodingKey -> NhiClaims -> Prop;
  decode_sound now token key v claims : decode now token key v = Ok claims ->
    signed_by token key claims /\ audience_contains (aud claims) (v_audience v) = true /\
    (v_validate_exp v = true -> now <= exp claims + v_leeway v) /\
    (v_validate_nbf v = true -> forall n, nbf claims = Some n -> n <= now + v_leeway v);
  b64url_decode : str -> result (list Z) str;
  compile_regex : str -> result (str -> bool) str;
  value_debug : Value -> str;
}.

(** * State *)

(** The two locked maps of the validator. *)
Record KeySet := mkKeySet {
  keys : gmap str KeyMaterial;
  jwks_kids : gset str;
}.

Definition no_keys : KeySet := mkKeySet ∅ ∅.

(** The rest of [IdentityValidator], fixed once the service runs.  A revocation
    store is the function its [check_token] computes. *)
Record ValidatorConfig := mkValidatorConfig {
  audience : str;
  allowed_issuers : option (list str);
  max_chain_depth : nat;
  leeway_secs : Z;
  revocation : option (str -> str -> str -> Z -> result (option RevokedBy) str);
  human_subject : option (str -> bool);
}.

Definition validator_new (audience : str) : ValidatorConfig :=
  mkValidatorConfig audience None 4 DEFAULT_LEEWAY_SECS None None.

Section Validator.
Context {UT : UnicodeTables} {TL : TokenLibs}.

Definition set_human_subject_pattern (cfg : ValidatorConfig) (pattern : str)
  : result ValidatorConfig IdentityError :=
  let? compiled := map_err SubjectPattern (compile_regex pattern) in
  Ok (mkValidatorConfig (audience cfg) (allowed_issuers cfg) (max_chain_depth cfg) (leeway_secs cfg)
        (revocation cfg) (Some compiled)).

Definition allow_issuers (cfg : ValidatorConfig) (issuers : list str) : ValidatorConfig :=
  mkValidatorConfig (audience cfg) (Some issuers) (max_chain_depth cfg) (leeway_secs cfg)
    (revocation cfg) (human_subject cfg).

Definition set_max_chain_depth (cfg : ValidatorConfig) (depth : nat) : ValidatorConfig :=
  mkValidatorConfig (audience cfg) (allowed_issuers cfg) depth (leeway_secs cfg)
    (revocation cfg) (human_subject cfg).

Definition set_revocation_store `{RevocationStore RS} (cfg : ValidatorConfig) (store : RS)
  : ValidatorConfig :=
  mkValidatorConfig (audience cfg) (allowed_issuers cfg) (max_chain_depth cfg) (leeway_secs cfg)
    (Some (rs_check_token store)) (human_subject cfg).

Definition subject_is_human (cfg : ValidatorConfig) (s : str) : bool :=
  match human_subject cfg with None => true | Some is_match => is_match s end.

(** * Keys *)

Definition add_key (ks : KeySet) (kid : str) (key : KeyMaterial) : KeySet * result unit IdentityError :=
  if bool_decide (kid ∈ jwks_kids ks) then
    (ks, Err (Jwks (lit "manual kid " ++ fmt_debug kid
                    ++ lit " conflicts with a JWKS-tracked kid; rotate JWKS first")))
  else (mkKeySet (<[kid := key]> (keys ks)) (jwks_kids ks), Ok tt).

Definition key_count (ks : KeySet) : nat := size (keys ks).

Definition str_member (name : str) (v : Value) : option str := value_get name v ≫= as_str.

(** [key_ops]: unique strings, among them [verify]. *)
Fixpoint key_ops_ok (seen : gset str) (operations : list Value) : option (gset str) :=
  match operations with
  | [] => Some seen
  | JString op :: rest =>
      if bool_decide (op ∈ seen) then None else key_ops_ok ({[op]} ∪ seen) rest
  | _ => None
  end.

Definition non_empty (s : str) : option str := if str_eqb s [] then None else Some s.

(** One entry of the JWKS array: skipped, refused, or a key. *)
Definition parse_jwk (seen : gset str) (key : Value)
  : result (option (str * KeyMaterial)) IdentityError :=
  if negb (bool_decide (str_member (lit "kty") key = Some (lit "OKP")))
     || negb (bool_decide (str_member (lit "crv") key = Some (lit "Ed25519"))) then Ok None
  else
  let kid_for_diag := default (lit "<missing>") (str_member (lit "kid") key) in
  let quoted s := [34] ++ lit s ++ [34] in
  let? _ := match value_get (lit "use") key with
            | Some use_ =>
                if bool_decide (as_str use_ = Some (lit "sig")) then Ok tt
                else Err (Jwks (lit "kid " ++ fmt_debug kid_for_diag ++ lit " declares use="
                                ++ value_debug use_ ++ lit "; only " ++ quoted "sig" ++ lit " is accepted"))
            | None => Ok tt
            end in
  let? _ := match value_get (lit "alg") key with
            | Some alg =>
                if bool_decide (as_str alg = Some (lit "EdDSA")) then Ok tt
                else Err (Jwks (lit "kid " ++ fmt_debug kid_for_diag ++ lit " declares alg="
                                ++ value_debug alg ++ lit "; only " ++ quoted "EdDSA"
                                ++ lit " is accepted for OKP/Ed25519"))
            | None => Ok tt
            end in
  let? _ := match value_get (lit "key_ops") key with
            | Some operations =>
                match as_array operations with
                | None => Err (Jwks (lit "kid " ++ fmt_debug kid_for_diag ++ lit " key_ops must be an array"))
                | Some ops =>
                    match key_ops_ok ∅ ops with
                    | Some seen_operations =>
                        if bool_decide (lit "verify" ∈ seen_operations) then Ok tt
                        else Err (Jwks (lit "kid " ++ fmt_debug kid_for_diag
                                        ++ lit " key_ops must contain unique strings and permit verify"))
                    | None => Err (Jwks (lit "kid " ++ fmt_debug kid_for_diag
                                         ++ lit " key_ops must contain unique strings and permit verify"))
                    end
                end
            | None => Ok tt
            end in
  let? kid := ok_or (str_member (lit "kid") key ≫= non_empty) (Jwks (lit "Ed25519 key missing kid")) in
  if bool_decide (kid ∈ seen) then
    Err (Jwks (lit "duplicate kid " ++ fmt_debug kid
               ++ lit " in JWKS document; refusing to accept a poisoned key set"))
  else
  let? x := ok_or (str_member (lit "x") key ≫= non_empty)
              (Jwks (lit "key " ++ fmt_debug kid ++ lit " missing x")) in
  let? decoded := map_err (fun e => Jwks (lit "key " ++ fmt_debug kid
                             ++ lit " has malformed base64url `x`: " ++ e)) (b64url_decode x) in
  if negb (length decoded =? 32)%nat then
    Err (Jwks (lit "key " ++ fmt_debug kid ++ lit " `x` decodes to " ++ fmt_int (Z.of_nat (length decoded))
               ++ lit " bytes; Ed25519 public keys must be exactly 32"))
  else Ok (Some (kid, Ed25519Jwk x)).

(** The loop over the array; the kids parsed so far are the set [seen].  The cap
    on parsed keys inside the loop cannot fire: the array was capped before it. *)
Fixpoint parse_jwks (seen : gset str) (entries : list Value)
  : result (list (str * KeyMaterial)) IdentityError :=
  match entries with
  | [] => Ok []
  | e :: rest =>
      let? k := parse_jwk seen e in
      match k with
      | None => parse_jwks seen rest
      | Some (kid, key) =>
          let? ks := parse_jwks ({[kid]} ∪ seen) rest in Ok ((kid, key) :: ks)
      end
  end.

(** Remove every JWKS-tracked key. *)
Definition retire (ks : KeySet) : gmap str KeyMaterial :=
  set_fold (fun kid m => delete kid m) (keys ks) (jwks_kids ks).

Definition install (parsed : list (str * KeyMaterial)) (ks : gmap str KeyMaterial * gset str)
  : gmap str KeyMaterial * gset str :=
  fold_left (fun acc kv => (<[kv.1 := kv.2]> acc.1, {[kv.1]} ∪ acc.2)) parsed ks.

Definition add_jwks (ks : KeySet) (document : Value) : KeySet * result Z IdentityError :=
  match value_get (lit "keys") document ≫= as_array with
  | None => (ks, Err (Jwks (lit "missing keys array")))
  | Some entries =>
      if (MAX_JWKS_KEYS <? length entries)%nat then
        (ks, Err (Jwks (lit "JWKS keys array carries " ++ fmt_int (Z.of_nat (length entries))
                        ++ lit " entries; refusing to walk more than 256 (this cap fires before the inner parser regardless of `kty`)")))
      else
        match parse_jwks ∅ entries with
        | Err e => (ks, Err e)
        | Ok [] =>
            if (length entries =? 0)%nat then (mkKeySet (retire ks) ∅, Ok 0)
            else (ks, Err (Jwks (lit "no Ed25519 OKP keys found")))
        | Ok parsed =>
            match find_index (fun kv => bool_decide (is_Some (keys ks !! kv.1))
                                        && negb (bool_decide (kv.1 ∈ jwks_kids ks))) parsed with
            | Some (_, (kid, _)) =>
                (ks, Err (Jwks (lit "JWKS kid " ++ fmt_debug kid
                                ++ lit " conflicts with a manually-registered key; rename one")))
            | None =>
                let '(loaded, prior) := install parsed (retire ks, ∅) in
                (mkKeySet loaded prior, Ok (Z.of_nat (length parsed)))
            end
        end
  end.

(** * One token *)

Definition validate_jose_header (h : Header) : result unit IdentityError :=
  if bool_decide (is_Some (h_crit h)) ||
     negb (bool_decide (h_b64 h = Some None) || bool_decide (h_b64 h = Some (Some true)))
  then Err (Verification (lit "unsupported critical JWT header or unencoded payload"))
  else Ok tt.

Fixpoint validate_actor_chain (actor : ActorClaim) : result unit IdentityError :=
  match actor with
  | mkActor s inner =>
      if str_eqb s [] then Err (EmptyField (lit "act.sub"))
      else if contains_bidi_or_zero_width s then Err (SpoofingCharacter (lit "act.sub"))
      else if (MAX_IDENTITY_STRING_CHARS <? length s)%nat
           then Err (FieldTooLong (lit "act.sub") MAX_IDENTITY_STRING_CHARS)
      else match inner with Some i => validate_actor_chain i | None => Ok tt end
  end.

(** [value.trim().is_empty()]. *)
Definition is_blank (s : str) : bool := forallb is_whitespace s.

(** The first failing check of a list, in order. *)
Fixpoint first_error (checks : list (bool * IdentityError)) : result unit IdentityError :=
  match checks with
  | [] => Ok tt
  | (failed, e) :: rest => if failed : bool then Err e else first_error rest
  end.

Definition control_check (field value : str) : list (bool * IdentityError) :=
  [(is_blank value, EmptyField field);
   (existsb is_control value,
    Malformed (lit "identity field " ++ field ++ lit " contains a control character"))].

(** [identity_fields] and [bidi_fields]. *)
Definition identity_fields (c : NhiClaims) : list (str * str) :=
  [(lit "instance_uid", instance_uid c); (lit "charter", charter c); (lit "version", version c);
   (lit "sub", sub c); (lit "iss", iss c); (lit "jti", jti c)]
  ++ match azp c with Some a => [(lit "azp", a)] | None => [] end.

Definition scope_checks (s : str) : list (bool * IdentityError) :=
  [(str_eqb s [] || existsb (fun c => is_whitespace c || is_control c) s,
    Malformed (lit "scope entries must be non-empty without whitespace or controls"));
   ((MAX_IDENTITY_STRING_CHARS <? length s)%nat,
    FieldTooLong (lit "scopes[]") MAX_IDENTITY_STRING_CHARS)].

Definition claim_checks_before_actor (c : NhiClaims) (now_s leeway : Z) (for_revocation : bool)
  : list (bool * IdentityError) :=
  let future_bound := sat_add (sat_add now_s leeway) (if for_revocation then MAX_TTL_SECS else 0) in
  let ttl := exp c - iat c in
  [(exp c <=? iat c, BadTimestamps (iat c) (exp c));
   ((iat c >? future_bound)
    || (for_revocation && match nbf c with Some n => n >? future_bound | None => false end),
    FutureIat (iat c) now_s);
   (ttl >? MAX_TTL_SECS, TtlTooLong ttl);
   (str_eqb (iss c) [], EmptyField (lit "iss"));
   (str_eqb (sub c) [], EmptyField (lit "sub"));
   (str_eqb (jti c) [], EmptyField (lit "jti"));
   (str_eqb (instance_uid c) [], EmptyField (lit "instance_uid"))]
  ++ control_check (lit "jti") (jti c) ++ control_check (lit "instance_uid") (instance_uid c)
  ++ [(str_eqb (charter c) [], EmptyField (lit "charter"));
      (str_eqb (version c) [], EmptyField (lit "version"));
      ((MAX_INSTANCE_UID_CHARS <? length (instance_uid c))%nat,
       FieldTooLong (lit "instance_uid") MAX_INSTANCE_UID_CHARS);
      (match azp c with Some a => str_eqb a [] | None => false end, EmptyField (lit "azp"))].

Definition claim_checks_after_actor (c : NhiClaims) : list (bool * IdentityError) :=
  map (fun nv => ((MAX_IDENTITY_STRING_CHARS <? length nv.2)%nat,
                  FieldTooLong nv.1 MAX_IDENTITY_STRING_CHARS)) (identity_fields c)
  ++ [((MAX_SCOPES <? length (scopes c))%nat, FieldTooLong (lit "scopes") MAX_SCOPES)]
  ++ List.concat (map scope_checks (scopes c))
  ++ map (fun nv => (contains_bidi_or_zero_width nv.2, SpoofingCharacter nv.1)) (identity_fields c)
  ++ map (fun s => (contains_bidi_or_zero_width s, SpoofingCharacter (lit "scopes[]"))) (scopes c).

Definition validate_claim_fields (c : NhiClaims) (now_s leeway : Z) (for_revocation : bool)
  : result unit IdentityError :=
  let? _ := first_error (claim_checks_before_actor c now_s leeway for_revocation) in
  let? _ := match act c with Some a => validate_actor_chain a | None => Ok tt end in
  first_error (claim_checks_after_actor c).

(** The only algorithm and the key a registered key admits. *)
Definition key_for (kid : str) (key : KeyMaterial) : result (Algorithm * DecodingKey) IdentityError :=
  match key with
  | Ed25519Pem pem =>
      let? k := map_err (fun e => Malformed (lit "bad key for kid " ++ kid ++ lit ": " ++ e))
                  (from_ed_pem pem) in Ok (EdDSA, k)
  | Ed25519Jwk x =>
      let? k := map_err (fun e => Malformed (lit "bad JWK for kid " ++ kid ++ lit ": " ++ e))
                  (from_ed_components x) in Ok (EdDSA, k)
  | HmacSecret secret => Ok (HS256, from_secret secret)
  end.

(** The error of a failed decode: on expiry, the claims are read again with the
    expiry check off to report [exp]. *)
Definition decode_failure (now_s : Z) (token : str) (key : DecodingKey) (v : Validation)
    (e : jwt_error) : IdentityError :=
  match e with
  | ExpiredSignature m =>
      match decode now_s token key
              (mkValidation (v_alg v) (v_audience v) (v_leeway v) (v_validate_nbf v) false) with
      | Ok peek => Expired (exp peek) now_s
      | Err _ => Verification m
      end
  | OtherJwtError m => Verification m
  end.

Definition is_backend_profile (typ : option str) : bool :=
  bool_decide (typ = Some (lit "av-tool+jwt")) || bool_decide (typ = Some (lit "av-intent+jwt")).

(** [now_s] is the clock while the call runs. *)
Definition validate_single (cfg : ValidatorConfig) (ks : KeySet) (now_s : Z) (token : str)
    (for_revocation : bool) : result NhiClaims IdentityError :=
  if str_len token >? MAX_JWT_BYTES then
    Err (Malformed (lit "token is " ++ fmt_int (str_len token) ++ lit " bytes, exceeds pre-auth cap of 8192"))
  else
  let? header := map_err Malformed (decode_header token) in
  let? _ := validate_jose_header header in
  if is_backend_profile (h_typ header) then
    Err (Verification (lit "backend token profile is not an inbound identity"))
  else
  let? kid := ok_or (h_kid header) MissingKid in
  let? key := ok_or (keys ks !! kid) (UnknownKid kid) in
  let? (expected_alg, decoding_key) := key_for kid key in
  if negb (bool_decide (h_alg header = expected_alg)) then
    Err (AlgorithmRejected (alg_debug (h_alg header)) kid)
  else
  let validation := mkValidation expected_alg (audience cfg) (leeway_secs cfg) (negb for_revocation) true in
  let? claims := map_err (decode_failure now_s token decoding_key validation)
                   (decode now_s token decoding_key validation) in
  let? _ := validate_claim_fields claims now_s (leeway_secs cfg) for_revocation in
  match allowed_issuers cfg with
  | Some allowed =>
      if existsb (fun i => str_eqb i (iss claims)) allowed then Ok claims else Err (BadIssuer (iss claims))
  | None => Ok claims
  end.

Definition check_not_revoked (cfg : ValidatorConfig) (c : NhiClaims) : result unit IdentityError :=
  match revocation cfg with
  | None => Ok tt
  | Some check_token =>
      match check_token (iss c) (jti c) (instance_uid c) (iat c) with
      | Ok None => Ok tt
      | Ok (Some ByJti) => Err (TokenRevokedError (jti c))
      | Ok (Some (ByInstance cutoff)) => Err (InstanceRevoked (instance_uid c) cutoff)
      | Err error => Err (RevocationUnavailable error)
      end
  end.

(** [parent.strip_suffix(":*")]. *)
Definition strip_wildcard (parent : str) : option str :=
  if starts_with (rev (lit ":*")) (rev parent)
  then Some (take (length parent - 2) parent) else None.

Definition scope_covers (parent scope : str) : bool :=
  str_eqb parent (lit "*") || str_eqb parent scope
  || match strip_wildcard parent with
     | Some prefix => starts_with (prefix ++ lit ":") scope
     | None => false
     end.

Definition scope_covered_by (scope : str) (parent_scopes : list str) : bool :=
  existsb (fun parent => scope_covers parent scope) parent_scopes.

Definition act_nesting (c : NhiClaims) : nat :=
  match act c with Some a => 1 + actor_depth a | None => 0 end.

Definition effective_start (c : NhiClaims) : Z := default (iat c) (nbf c).

(** What a child may not do beyond its parent. *)
Definition check_link (child parent : NhiClaims) : result unit IdentityError :=
  match find (fun s => negb (scope_covered_by s (scopes parent))) (scopes child) with
  | Some escalated => Err (ScopeEscalation escalated)
  | None =>
      if exp child >? exp parent then Err (ExpEscalation (exp child) (exp parent))
      else if iat child <? iat parent then Err (IatEscalation (iat child) (iat parent))
      else if effective_start child <? effective_start parent
           then Err (NbfEscalation (effective_start child) (effective_start parent))
      else Ok tt
  end.

(** The [while let] loop.  Every turn deepens the chain, whose depth is capped,
    so [max_chain_depth] turns are enough. *)
Fixpoint chain_loop (fuel : nat) (cfg : ValidatorConfig) (ks : KeySet) (now_s : Z)
    (for_revocation : bool) (depth act_depth : nat) (child : NhiClaims)
    (tokens : list RevocationIdentity)
    : result (nat * nat * list RevocationIdentity) IdentityError :=
  match parent_token child with
  | None => Ok (depth, act_depth, tokens)
  | Some pt =>
      let depth := S depth in
      if (max_chain_depth cfg <? depth + act_depth)%nat then Err (ChainTooDeep (max_chain_depth cfg))
      else
      match fuel with
      | O => Err (ChainTooDeep (max_chain_depth cfg))
      | S fuel' =>
          let? parent := validate_single cfg ks now_s pt for_revocation in
          let act_depth := (act_depth + act_nesting parent)%nat in
          if (max_chain_depth cfg <? depth + act_depth)%nat then Err (ChainTooDeep (max_chain_depth cfg))
          else
          let? _ := if for_revocation then Ok tt else check_not_revoked cfg parent in
          let? _ := check_link child parent in
          chain_loop fuel' cfg ks now_s for_revocation depth act_depth parent
            (tokens ++ [revocation_identity parent])
      end
  end.

Definition validate_inner (cfg : ValidatorConfig) (ks : KeySet) (now_s : Z) (token : str)
    (for_revocation : bool) : result ValidatedIdentity IdentityError :=
  let? leaf := validate_single cfg ks now_s token for_revocation in
  let? _ := if for_revocation then Ok tt
            else let? _ := check_not_revoked cfg leaf in
                 if negb (subject_is_human cfg (sub leaf)) then Err SubjectNotHuman else Ok tt in
  let act_depth := act_nesting leaf in
  if (max_chain_depth cfg <? act_depth)%nat then Err (ChainTooDeep (max_chain_depth cfg))
  else
  let? (depth, act_depth, tokens) :=
    chain_loop (max_chain_depth cfg) cfg ks now_s for_revocation 0 act_depth leaf
      [revocation_identity leaf] in
  if (depth =? 0)%nat && (max_chain_depth cfg <? act_depth)%nat then
    Err (ChainTooDeep (max_chain_depth cfg))
  else
  Ok (mkIdentity leaf depth tokens (depth + act_depth)%nat (sat_sub (exp leaf) now_s)).

Definition validate (cfg : ValidatorConfig) (ks : KeySet) (now_s : Z) (token : str)
  : result ValidatedIdentity IdentityError :=
  validate_inner cfg ks now_s token false.

Definition validate_for_revocation (cfg : ValidatorConfig) (ks : KeySet) (now_s : Z) (token : str)
  : result ValidatedIdentity IdentityError :=
  validate_inner cfg ks now_s token true.
End Validator.
