(* ===== verification/IdentityProofs.v ===== *)
(** Properties of identity validation: delegation never amplifies authority,
    every accepted token is signed, addressed, fresh and not revoked, revocations
    persist, and key rotation leaves manual keys alone. *)

From S2P Require Import Prelude Rust CoreBase Json Core Identity Validator.

(** * Scopes *)

Section Scopes.

Lemma strip_wildcard_Some p x : strip_wildcard p = Some x <-> p = x ++ lit ":*".
Proof.
  unfold strip_wildcard. split.
  - destruct (starts_with _ _) eqn:E; [|done]. intros [= <-].
    apply starts_with_iff in E as [r Hr]. apply (f_equal (@rev Z)) in Hr.
    rewrite rev_involutive, rev_app_distr, rev_involutive in Hr. subst p.
    rewrite length_app. cbn [length lit]. rewrite Nat.add_sub, take_app_length. done.
  - intros ->. rewrite rev_app_distr, starts_with_app, length_app. cbn [length lit].
    by rewrite Nat.add_sub, take_app_length.
Qed.

Lemma scope_covers_iff p s : scope_covers p s = true <->
  p = lit "*" \/ p = s \/ exists x r, p = x ++ lit ":*" /\ s = x ++ lit ":" ++ r.
Proof.
  unfold scope_covers. rewrite !orb_true_iff, !str_eqb_eq. split.
  - intros [[?|?]|H]; [by left|by right; left|]. right; right.
    destruct (strip_wildcard p) as [x|] eqn:E; [|done]. apply strip_wildcard_Some in E.
    apply starts_with_iff in H as [r Hr]. exists x, r. by rewrite app_assoc.
  - intros [?|[?|(x & r & Hp & Hs)]]; [by left; left|by left; right|]. right.
    apply strip_wildcard_Some in Hp as ->. rewrite Hs, app_assoc. apply starts_with_app.
Qed.

(** Wildcards compose: what covers a covering scope covers the scope. *)
Lemma scope_covers_trans g p s : scope_covers g p = true -> scope_covers p s = true ->
  scope_covers g s = true.
Proof.
  rewrite !scope_covers_iff. intros [->|[->|(y & r & -> & Hp)]] Hps; [by left|done|].
  destruct Hps as [->|[->|(x & r' & -> & ->)]].
  - exfalso. destruct y as [|c y]; [done|]. injection Hp as _ Hp. by destruct y.
  - right; right. by exists y, r.
  - right; right. exists y. revert Hp. eval_lit. cbn [app]. intros Hp.
    assert (exists z, x ++ [58] = y ++ 58 :: z) as [z Hz].
    { assert (x ++ [58] ++ [42] = y ++ [58] ++ r) as Heq by exact Hp.
      rewrite app_assoc in Heq. destruct r as [|c r _] using rev_ind.
      - exfalso. rewrite app_nil_r in Heq. apply app_inj_tail in Heq as [_ ?]. done.
      - rewrite !app_assoc in Heq. apply app_inj_tail in Heq as [Heq _].
        exists r. by rewrite <- app_assoc in Heq. }
    exists (z ++ r'). change (58 :: r') with ([58] ++ r'). rewrite app_assoc, Hz, <- app_assoc. done.
Qed.

Lemma scope_covered_trans s ps gs :
  (forall p, p ∈ ps -> scope_covered_by p gs = true) ->
  scope_covered_by s ps = true -> scope_covered_by s gs = true.
Proof.
  unfold scope_covered_by. intros Hg Hs. apply existsb_exists in Hs as (p & Hp & Hps).
  apply list_elem_of_In in Hp. specialize (Hg p Hp). apply existsb_exists in Hg as (g & Hgin & Hgp).
  apply existsb_exists. exists g. split; [done|]. by eapply scope_covers_trans.
Qed.
End Scopes.

(** * Delegation chains *)

Section Chains.
Context {TL : TokenLibs}.

(** [c] holds no authority its delegator [a] does not have, and not for longer. *)
Definition within (c a : NhiClaims) : Prop :=
  Forall (fun s => scope_covered_by s (scopes a) = true) (scopes c) /\
  exp c <= exp a /\ iat a <= iat c /\ effective_start a <= effective_start c.

Lemma within_trans c p a : within c p -> within p a -> within c a.
Proof.
  intros (Hs & He & Hi & Hn) (Hs' & He' & Hi' & Hn'). split; [|lia].
  rewrite Forall_forall in Hs. rewrite Forall_forall in Hs'. apply Forall_forall. intros s Hin.
  eapply scope_covered_trans; [exact Hs'|by apply Hs].
Qed.

Lemma check_link_ok c p : check_link c p = Ok tt -> within c p.
Proof.
  unfold check_link. destruct (find _ (scopes c)) eqn:Ef; [done|].
  repeat (case_match; [done|]). intros _. b2p. split; [|lia].
  apply Forall_forall. intros s Hs. apply list_elem_of_In in Hs.
  pose proof (find_none _ _ Ef s Hs) as Hn. cbn beta in Hn. by apply negb_false_iff in Hn.
Qed.

(** The claims of a validated chain above [child]: each is carried by the token
    its child embeds, accepted on its own and not revoked. *)
Inductive ancestry (cfg : ValidatorConfig) (ks : KeySet) (now : Z) : NhiClaims -> list NhiClaims -> Prop :=
| anc_root c : parent_token c = None -> ancestry cfg ks now c []
| anc_link c pt p l : parent_token c = Some pt ->
    validate_single cfg ks now pt false = Ok p -> check_not_revoked cfg p = Ok tt ->
    within c p -> ancestry cfg ks now p l -> ancestry cfg ks now c (p :: l).

Definition nesting_total (l : list NhiClaims) : nat := list_sum (map act_nesting l).

Lemma nesting_total_cons c l : nesting_total (c :: l) = (act_nesting c + nesting_total l)%nat.
Proof. done. Qed.

Lemma chain_loop_ok fuel cfg ks now d ad child toks d' ad' toks' :
  chain_loop fuel cfg ks now false d ad child toks = Ok (d', ad', toks') ->
  exists l, ancestry cfg ks now child l /\ d' = (d + length l)%nat /\
    ad' = (ad + nesting_total l)%nat /\ toks' = toks ++ map revocation_identity l /\
    (l <> [] -> (d' + ad' <= max_chain_depth cfg)%nat).
Proof.
  revert d ad child toks. induction fuel as [|fuel IH]; intros d ad child toks; cbn [chain_loop];
    destruct (parent_token child) as [pt|] eqn:Ep.
  - by case_match.
  - intros [= <- <- <-]. exists []. repeat split; try done; try (cbn; lia); [by constructor|].
    by rewrite app_nil_r.
  - case_match; [done|]. destruct (validate_single cfg ks now pt false) as [p|] eqn:Ev; [|done].
    case_match eqn:Eb; [done|]. destruct (check_not_revoked cfg p) as [[]|] eqn:Er; [|done].
    destruct (check_link child p) as [[]|] eqn:El; [|done]. intros Hrec.
    apply IH in Hrec as (l & Ha & -> & -> & -> & Hb). exists (p :: l).
    split; [econstructor; eauto using check_link_ok|].
    split; [cbn; lia|]. split; [rewrite nesting_total_cons; lia|].
    split; [by rewrite <- app_assoc|]. intros _. destruct l as [|q l]; [|by apply Hb].
    apply Nat.ltb_ge in Eb. change (nesting_total []) with 0%nat. cbn. lia.
  - intros [= <- <- <-]. exists []. repeat split; try done; try (cbn; lia); [by constructor|].
    by rewrite app_nil_r.
Qed.

(** The fuel is never what stops the loop: more of it changes nothing. *)
Lemma chain_loop_fuel fuel extra cfg ks now fr d ad child toks :
  (max_chain_depth cfg <= fuel + d)%nat ->
  chain_loop (fuel + extra) cfg ks now fr d ad child toks = chain_loop fuel cfg ks now fr d ad child toks.
Proof.
  revert d ad child toks. induction fuel as [|fuel IH]; intros d ad child toks Hf.
  - assert ((max_chain_depth cfg <? S d + ad)%nat = true) as E by (apply Nat.ltb_lt; lia).
    destruct extra; cbn [chain_loop Nat.add]; [done|]. cbn [Nat.add] in E.
    destruct (parent_token child); by rewrite ?E.
  - cbn [chain_loop Nat.add]. destruct (parent_token child) as [pt|]; [|done].
    case_match; [done|]. destruct (validate_single cfg ks now pt fr) as [p|]; [|done].
    case_match; [done|]. destruct (if fr then Ok tt else check_not_revoked cfg p); [|done].
    destruct (check_link child p); [|done]. apply IH. lia.
Qed.

Lemma ancestry_within cfg ks now c l : ancestry cfg ks now c l -> Forall (within c) l.
Proof.
  induction 1 as [|c pt p l _ _ _ Hw _ IH]; [constructor|]. constructor; [done|].
  eapply Forall_impl; [exact IH|]. intros a Ha. by eapply within_trans.
Qed.

Lemma ancestry_checked cfg ks now c l : ancestry cfg ks now c l ->
  Forall (fun a => (exists t, validate_single cfg ks now t false = Ok a) /\
                   check_not_revoked cfg a = Ok tt) l.
Proof. induction 1; constructor; eauto. Qed.

Lemma validate_inv cfg ks now token vi : validate cfg ks now token = Ok vi ->
  exists l, validate_single cfg ks now token false = Ok (vi_claims vi) /\
    check_not_revoked cfg (vi_claims vi) = Ok tt /\
    subject_is_human cfg (sub (vi_claims vi)) = true /\
    ancestry cfg ks now (vi_claims vi) l /\
    chain_depth vi = length l /\
    chain_tokens vi = map revocation_identity (vi_claims vi :: l) /\
    total_delegation_depth vi = (length l + nesting_total (vi_claims vi :: l))%nat /\
    (total_delegation_depth vi <= max_chain_depth cfg)%nat /\
    ttl_remaining_s vi = sat_sub (exp (vi_claims vi)) now.
Proof.
  unfold validate, validate_inner.
  destruct (validate_single cfg ks now token false) as [leaf|] eqn:Ev; [|done].
  destruct (check_not_revoked cfg leaf) as [[]|] eqn:Er; [|done].
  destruct (subject_is_human cfg (sub leaf)) eqn:Eh; [|done]. cbn [negb].
  case_match eqn:Ea; [done|]. apply Nat.ltb_ge in Ea.
  destruct (chain_loop _ _ _ _ _ _ _ _ _) as [[[d ad] toks]|] eqn:Ec; [|done].
  apply chain_loop_ok in Ec as (l & Hl & -> & -> & -> & Hb).
  case_match; [done|]. intros [= <-]. cbn [vi_claims chain_depth chain_tokens total_delegation_depth ttl_remaining_s].
  exists l. repeat (split; [first [done|rewrite nesting_total_cons; lia]|]). split; [|done].
  destruct l as [|a l]; [cbn; lia|]. by apply Hb.
Qed.
End Chains.


(** * One token *)

Section Single.
Context {TL : TokenLibs}.

Lemma first_error_ok l : first_error l = Ok tt <-> Forall (fun ck => ck.1 = false) l.
Proof.
  induction l as [|[b e] l IH]; cbn; [by split|]. rewrite Forall_cons. cbn.
  destruct b; [naive_solver|]. rewrite IH. naive_solver.
Qed.

(** A text that is safe to show and bounded. *)
Definition field_ok (s : str) : Prop :=
  (length s <= MAX_IDENTITY_STRING_CHARS)%nat /\ contains_bidi_or_zero_width s = false.

Definition scope_ok (s : str) : Prop :=
  s <> [] /\ Forall (fun c => is_whitespace c = false /\ is_control c = false) s /\ field_ok s.

Lemma claim_fields_ok c now leeway : validate_claim_fields c now leeway false = Ok tt ->
  0 < exp c - iat c <= MAX_TTL_SECS /\ iat c <= sat_add (sat_add now leeway) 0 /\
  iss c <> [] /\ sub c <> [] /\ jti c <> [] /\ instance_uid c <> [] /\
  (length (instance_uid c) <= 128)%nat /\
  Forall (fun nv => field_ok nv.2) (identity_fields c) /\
  (length (scopes c) <= MAX_SCOPES)%nat /\ Forall scope_ok (scopes c).
Proof.
  unfold validate_claim_fields.
  destruct (first_error (claim_checks_before_actor c now leeway false)) as [[]|] eqn:E1; [|done].
  destruct (match act c with Some a => validate_actor_chain a | None => Ok tt end) as [[]|]; [|done].
  intros E2. apply first_error_ok in E1, E2.
  unfold claim_checks_before_actor, control_check in E1. cbn zeta in E1.
  rewrite !Forall_app in E1. destruct E1 as (Ha & _ & _ & Hb).
  rewrite !Forall_cons in Ha. rewrite !Forall_cons in Hb. cbn [fst andb] in Ha, Hb.
  rewrite orb_false_r in Ha. rewrite !str_eqb_neq in Ha. destruct Ha as (H1 & H2 & H3 & H4 & H5 & H6 & H7 & _).
  destruct Hb as (_ & _ & Hu & _). apply Nat.ltb_ge in Hu. b2p.
  unfold claim_checks_after_actor in E2. rewrite !Forall_app in E2.
  destruct E2 as (Hlen & Hsc & Hscopes & Hbidi & Hsb).
  repeat (split; [first [done|lia]|]). split; [|split].
  - rewrite Forall_map in Hlen. rewrite Forall_map in Hbidi.
    pose proof (proj2 (Forall_and _ _) (conj Hlen Hbidi)) as H. eapply Forall_impl; [exact H|].
    cbn. intros nv [Hl Hn]. split; [by apply Nat.ltb_ge|done].
  - rewrite Forall_cons in Hsc. destruct Hsc as [Hsc _]. by apply Nat.ltb_ge in Hsc.
  - rewrite Forall_map in Hsb. apply Forall_forall. intros s Hs.
    rewrite Forall_forall in Hsb. specialize (Hsb s Hs). cbn in Hsb.
    assert (Forall (fun ck => ck.1 = false) (scope_checks s)) as Hck.
    { rewrite Forall_concat, Forall_map, Forall_forall in Hscopes. by apply Hscopes. }
    unfold scope_checks in Hck. rewrite !Forall_cons in Hck. cbn [fst] in Hck.
    destruct Hck as (Hc & Hl & _). b2p. split; [by apply str_eqb_neq|]. split.
    + match goal with H : existsb _ s = false |- _ => apply existsb_false_iff in H;
        eapply Forall_impl; [exact H|] end. intros x Hx. cbn in Hx. by b2p.
    + split; [by apply Nat.ltb_ge|done].
Qed.
End Single.

(** C30. Every token accepted for access was signed under the key registered for
    its [kid], with the algorithm that key's type dictates (so the header cannot
    choose another), is addressed to this audience, is within its validity
    period, lives at most fifteen minutes, comes from an allowed issuer, and
    has bounded identity fields and scopes without spoofing characters. *)
Theorem accepted_token_sound {TL : TokenLibs}
    (cfg : ValidatorConfig) (ks : KeySet) (now : Z) (token : str) (c : NhiClaims) :
  validate_single cfg ks now token false = Ok c ->
  (exists h kid key dk,
     decode_header token = Ok h /\ h_kid h = Some kid /\ keys ks !! kid = Some key /\
     key_for kid key = Ok (h_alg h, dk) /\ signed_by token dk c) /\
  audience_contains (aud c) (audience cfg) = true /\
  now <= exp c + leeway_secs cfg /\
  (forall n, nbf c = Some n -> n <= now + leeway_secs cfg) /\
  0 < exp c - iat c <= MAX_TTL_SECS /\
  (forall allowed, allowed_issuers cfg = Some allowed -> iss c ∈ allowed) /\
  Forall (fun nv => field_ok nv.2) (identity_fields c) /\
  (length (scopes c) <= MAX_SCOPES)%nat /\ Forall scope_ok (scopes c).
Proof.
  unfold validate_single. case_match; [done|].
  destruct (decode_header token) as [h|] eqn:Eh; [|done]. cbn [map_err].
  destruct (validate_jose_header h) as [[]|]; [|done]. case_match; [done|].
  destruct (h_kid h) as [kid|] eqn:Ek; [|done]. cbn [ok_or].
  destruct (keys ks !! kid) as [key|] eqn:Ekey; [|done]. cbn [ok_or].
  destruct (key_for kid key) as [[alg dk]|] eqn:Ef; [|done].
  case_match eqn:Ealg; [done|]. b2p. subst alg.
  destruct (decode now token dk _) as [claims|] eqn:Ed; [|done]. cbn [map_err].
  destruct (validate_claim_fields _ _ _ _) as [[]|] eqn:Ec; [|done].
  apply decode_sound in Ed as (Hsig & Haud & Hexp & Hnbf).
  cbn [v_audience v_leeway v_validate_exp v_validate_nbf negb] in *.
  apply claim_fields_ok in Ec as (Httl & _ & _ & _ & _ & _ & _ & Hf & Hn & Hs).
  intros Hiss. assert (c = claims /\ forall allowed, allowed_issuers cfg = Some allowed -> iss claims ∈ allowed)
    as [-> Hal].
  { destruct (allowed_issuers cfg) as [allowed|]; [|by injection Hiss as <-].
    destruct (existsb _ allowed) eqn:Ee; [|done]. injection Hiss as <-. split; [done|].
    intros ? [= <-]. apply existsb_exists in Ee as (i & Hi & Heq). apply str_eqb_eq in Heq as ->.
    by apply list_elem_of_In. }
  split; [by exists h, kid, key, dk|]. repeat (split; [by auto|]). done.
Qed.

(** * Revocation *)

Section Revocation.
Import InMemoryRevocation.

Inductive rev_op :=
| RevJti (jti : str) (expires : Z)
| RevToken (issuer jti : str) (expires : Z)
| RevInstance (uid : str) (cutoff expires : Z)
| RevSweep (now : Z).

Definition apply_rev (s : t) (o : rev_op) : t :=
  match o with
  | RevJti j e => (try_revoke s j e).1
  | RevToken i j e => (try_revoke_token s i j e).1
  | RevInstance u c e => (revoke_instance s u c e).1
  | RevSweep now => sweep s now
  end.

Definition run_rev (s : t) (ops : list rev_op) : t := fold_left apply_rev ops s.

(** No sweep runs past the second [e]. *)
Definition sweeps_until (e : Z) (ops : list rev_op) : Prop :=
  Forall (fun o => match o with RevSweep now => now <= e | _ => True end) ops.

Definition held {K} `{Countable K} (m : gmap K Z) (k : K) (e : Z) : Prop :=
  exists e', m !! k = Some e' /\ e <= e'.

Lemma held_update {K} `{Countable K} (m : gmap K Z) k k' e e' : held m k e ->
  held (match m !! k' with None => <[k' := e']> m | Some x => <[k' := Z.max x e']> m end) k e.
Proof.
  intros (x & Hx & Hle). unfold held. destruct (decide (k' = k)) as [->|Hk].
  - rewrite Hx, lookup_insert_eq. eexists. split; [done|lia].
  - destruct (m !! k'); rewrite lookup_insert_ne by done; eauto.
Qed.

Lemma held_sweep {K} `{Countable K} (m : gmap K Z) k e now : now <= e -> held m k e ->
  held (filter (fun kv => now <= kv.2) m) k e.
Proof.
  intros Hn (x & Hx & Hle). exists x. split; [|done]. apply map_lookup_filter_Some. split; [done|].
  cbn. lia.
Qed.

Lemma entries_step s o jti e : sweeps_until e [o] -> held (entries s) jti e ->
  held (entries (apply_rev s o)) jti e.
Proof.
  unfold sweeps_until. rewrite Forall_singleton. intros Ho Hh. destruct o as [j x|i j x|u c x|now]; cbn.
  - pose proof (held_update _ _ j _ x Hh) as H. unfold try_revoke. by destruct (entries s !! j).
  - unfold try_revoke_token. by destruct (issued_entries s !! (i, j)).
  - done.
  - by apply held_sweep.
Qed.

Lemma issued_step s o k e : sweeps_until e [o] -> held (issued_entries s) k e ->
  held (issued_entries (apply_rev s o)) k e.
Proof.
  unfold sweeps_until. rewrite Forall_singleton. intros Ho Hh. destruct o as [j x|i j x|u c x|now]; cbn.
  - unfold try_revoke. by destruct (entries s !! j).
  - pose proof (held_update _ _ (i, j) _ x Hh) as H. unfold try_revoke_token.
    by destruct (issued_entries s !! (i, j)).
  - done.
  - by apply held_sweep.
Qed.

(** An instance rule that refuses everything issued up to [cutoff]. *)
Definition cut (s : t) (uid : str) (cutoff e : Z) : Prop :=
  exists c' e', instances s !! uid = Some (c', e') /\ cutoff <= c' /\ e <= e'.

Lemma instances_step s o uid cutoff e : sweeps_until e [o] -> cut s uid cutoff e ->
  cut (apply_rev s o) uid cutoff e.
Proof.
  unfold sweeps_until. rewrite Forall_singleton. intros Ho (c' & e' & Hl & Hc & He).
  unfold cut. destruct o as [j x|i j x|u c x|now]; cbn.
  - unfold try_revoke. destruct (entries s !! j); cbn; eauto 10.
  - unfold try_revoke_token. destruct (issued_entries s !! (i, j)); cbn; eauto 10.
  - destruct (decide (u = uid)) as [->|Hu].
    + rewrite Hl, lookup_insert_eq. cbn. do 2 eexists. split; [done|lia].
    + rewrite lookup_insert_ne by done. eauto 10.
  - exists c', e'. split; [|done]. apply map_lookup_filter_Some. split; [done|]. cbn. lia.
Qed.

Lemma run_rev_ind (P : t -> Prop) e ops s :
  (forall s o, sweeps_until e [o] -> P s -> P (apply_rev s o)) ->
  sweeps_until e ops -> P s -> P (run_rev s ops).
Proof.
  intros Hstep. revert s. induction ops as [|o ops IH]; intros s Hs HP; [done|].
  apply Forall_cons in Hs as [Ho Hs]. apply IH; [done|]. apply Hstep; [by apply Forall_singleton|done].
Qed.

Lemma held_check_issued s issuer j uid i e : held (issued_entries s) (issuer, j) e ->
  check_token s issuer j uid i = Ok (Some ByJti).
Proof.
  intros (x & Hx & _). unfold check_token. rewrite Hx. by rewrite bool_decide_eq_true_2 by by eexists.
Qed.

Lemma held_check_jti s issuer j uid i e : held (entries s) j e ->
  check_token s issuer j uid i = Ok (Some ByJti).
Proof.
  intros (x & Hx & _). unfold check_token, check, is_revoked. case_bool_decide; [done|].
  rewrite Hx. by rewrite bool_decide_eq_true_2 by by eexists.
Qed.

Lemma cut_check s issuer j uid i cutoff e : cut s uid cutoff e -> i <= cutoff ->
  exists by_, check_token s issuer j uid i = Ok (Some by_).
Proof.
  intros (c' & e' & Hl & Hc & _) Hi. unfold check_token, check, is_revoked.
  case_bool_decide; [by eexists|]. case_bool_decide; [by eexists|]. rewrite Hl.
  destruct (i <=? c') eqn:E; b2p; [by eexists|lia].
Qed.
End Revocation.

(** A revocation holds for as long as it is needed: once a token is revoked
    by its holder (within its issuer), by an operator (for every issuer), or
    through its instance (everything issued up to the cutoff), every check
    refuses it after any further revocations and sweeps, up to the retention
    second it was recorded with.  A holder's revocation touches no other
    issuer's token of the same identifier. *)
Theorem revocation_persists (s : InMemoryRevocation.t) (issuer j uid : str) (i cutoff e : Z)
    (ops : list rev_op) :
  sweeps_until e ops ->
  InMemoryRevocation.check_token
    (run_rev (InMemoryRevocation.try_revoke_token s issuer j e).1 ops) issuer j uid i = Ok (Some ByJti) /\
  InMemoryRevocation.check_token
    (run_rev (InMemoryRevocation.try_revoke s j e).1 ops) issuer j uid i = Ok (Some ByJti) /\
  (i <= cutoff -> exists by_, InMemoryRevocation.check_token
    (run_rev (InMemoryRevocation.revoke_instance s uid cutoff e).1 ops) issuer j uid i = Ok (Some by_)) /\
  (forall other, other <> issuer ->
     InMemoryRevocation.check_token (InMemoryRevocation.try_revoke_token s issuer j e).1 other j uid i =
     InMemoryRevocation.check_token s other j uid i).
Proof.
  intros Hs. split; [|split; [|split]].
  - eapply held_check_issued. eapply (run_rev_ind (fun s => held (InMemoryRevocation.issued_entries s) (issuer, j) e));
      [by intros; apply issued_step|done|].
    unfold InMemoryRevocation.try_revoke_token. destruct (_ !! (issuer, j)) as [x|]; cbn;
      (eexists; rewrite lookup_insert_eq; split; [done|lia]).
  - eapply held_check_jti. eapply (run_rev_ind (fun s => held (InMemoryRevocation.entries s) j e));
      [by intros; apply entries_step|done|].
    unfold InMemoryRevocation.try_revoke. destruct (_ !! j) as [x|]; cbn;
      (eexists; rewrite lookup_insert_eq; split; [done|lia]).
  - intros Hi. eapply cut_check; [|exact Hi].
    eapply (run_rev_ind (fun s => cut s uid cutoff e)); [by intros; apply instances_step|done|].
    unfold cut. cbn. rewrite lookup_insert_eq. do 2 eexists. split; [done|]. cbn. lia.
  - intros other Ho. unfold InMemoryRevocation.check_token, InMemoryRevocation.try_revoke_token.
    destruct (_ !! (issuer, j)); cbn; by rewrite lookup_insert_ne by congruence.
Qed.

Lemma revocation_persists_witness :
  InMemoryRevocation.check_token
    (run_rev (InMemoryRevocation.try_revoke_token InMemoryRevocation.new (lit "i") (lit "j") 100).1
       [RevSweep 50; RevJti (lit "k") 3; RevSweep 100]) (lit "i") (lit "j") (lit "u") 7
  = Ok (Some ByJti).
Proof.
  refine (proj1 (revocation_persists InMemoryRevocation.new (lit "i") (lit "j") (lit "u") 7 0 100
            [RevSweep 50; RevJti (lit "k") 3; RevSweep 100] _)).
  repeat constructor; lia.
Defined.

(** * Key rotation *)

Section Rotation.
Context {UT : UnicodeTables} {TL : TokenLibs}.

(** What rotation installs: a 32-byte Ed25519 public key. *)
Definition ed25519_jwk (key : KeyMaterial) : Prop :=
  exists x bytes, key = Ed25519Jwk x /\ b64url_decode x = Ok bytes /\ length bytes = 32%nat.

Lemma parse_jwk_ok seen v kid key : parse_jwk seen v = Ok (Some (kid, key)) ->
  kid ∉ seen /\ ed25519_jwk key.
Proof.
  unfold parse_jwk. case_match; [done|]. cbn zeta.
  do 3 (match goal with |- match ?X with Ok _ => _ | Err _ => _ end = _ -> _ => destruct X; [|done] end).
  destruct (str_member (lit "kid") v ≫= non_empty) as [k|]; [|done]; cbn [ok_or];
    destruct (bool_decide (k ∈ seen)) eqn:Hk; [done|]; apply bool_decide_eq_false in Hk;
    destruct (str_member (lit "x") v ≫= non_empty) as [x|]; [|done]; cbn [ok_or];
    destruct (b64url_decode x) as [bytes|] eqn:Eb; [|done]; cbn [map_err];
    destruct (length bytes =? 32)%nat eqn:El; [|done]; cbn [negb];
    intros [= <- <-]; split; [done|]; exists x, bytes; split; [done|]; split; [done|by apply Nat.eqb_eq].
Qed.

Lemma parse_jwks_ok seen entries parsed : parse_jwks seen entries = Ok parsed ->
  NoDup parsed.*1 /\ Forall (fun kv => kv.1 ∉ seen /\ ed25519_jwk kv.2) parsed /\
  (length parsed <= length entries)%nat.
Proof.
  revert seen parsed. induction entries as [|e entries IH]; intros seen parsed; cbn [parse_jwks].
  { intros [= <-]. split; [constructor|]. by split. }
  destruct (parse_jwk seen e) as [[[kid key]|]|] eqn:Ek; [| |done].
  - destruct (parse_jwks _ entries) as [ks|] eqn:Er; [|done]. intros [= <-].
    apply parse_jwk_ok in Ek as [Hs He]. apply IH in Er as (Hn & Hf & Hl). cbn. split; [|split; [|lia]].
    + constructor; [|done]. rewrite list_elem_of_fmap. intros ([k y] & -> & Hin). cbn in Hs.
      rewrite Forall_forall in Hf. specialize (Hf _ Hin). set_solver.
    + constructor; [done|]. eapply Forall_impl; [exact Hf|]. cbn. set_solver.
  - intros H. apply IH in H as (Hn & Hf & Hl). cbn. split; [done|]. split; [done|lia].
Qed.

Lemma lookup_retire ks kid :
  (kid ∈ jwks_kids ks -> retire ks !! kid = None) /\
  (kid ∉ jwks_kids ks -> retire ks !! kid = keys ks !! kid).
Proof.
  unfold retire.
  apply (set_fold_ind_L (fun m X => (kid ∈ X -> m !! kid = None) /\ (kid ∉ X -> m !! kid = keys ks !! kid))).
  - set_solver.
  - intros x X m Hx [Hin Hout]. destruct (decide (x = kid)) as [->|Hne].
    + rewrite lookup_delete_eq. set_solver.
    + rewrite lookup_delete_ne by done. set_solver.
Qed.

Lemma install_other parsed m p kid : kid ∉ parsed.*1 -> (install parsed (m, p)).1 !! kid = m !! kid.
Proof.
  unfold install. revert m p. induction parsed as [|[k y] parsed IH]; intros m p Hk; [done|].
  cbn in Hk |- *. apply not_elem_of_cons in Hk as [Hne Hk]. rewrite IH by done.
  by rewrite lookup_insert_ne by done.
Qed.

Lemma install_in parsed m p kid key : NoDup parsed.*1 -> (kid, key) ∈ parsed ->
  (install parsed (m, p)).1 !! kid = Some key.
Proof.
  revert m p. induction parsed as [|[k y] parsed IH]; intros m p Hn Hin; [by apply not_elem_of_nil in Hin|].
  cbn in Hn. apply NoDup_cons in Hn as [Hk Hn]. apply elem_of_cons in Hin as [[= -> ->]|Hin].
  - change ((install parsed (<[k := y]> m, {[k]} ∪ p)).1 !! k = Some y).
    rewrite install_other by done. apply lookup_insert_eq.
  - by apply (IH (<[k := y]> m) ({[k]} ∪ p)).
Qed.

Lemma install_kids parsed m p : (install parsed (m, p)).2 = list_to_set parsed.*1 ∪ p.
Proof.
  unfold install. revert m p. induction parsed as [|[k y] parsed IH]; intros m p; cbn; [set_solver|].
  rewrite IH. cbn. set_solver.
Qed.
End Rotation.

(** Key rotation is all or nothing and touches only rotated keys: a refused
    document leaves the key set as it was; an accepted one registers exactly the
    keys it carries (32-byte Ed25519 keys with distinct ids, at most 256),
    withdraws every previously rotated key it no longer carries, and changes no
    manually registered key. *)
Theorem jwks_rotation_exact {UT : UnicodeTables} {TL : TokenLibs} (ks : KeySet) (document : Value) :
  match add_jwks ks document with
  | (ks', Err _) => ks' = ks
  | (ks', Ok n) => exists parsed : list (str * KeyMaterial),
      n = Z.of_nat (length parsed) /\ (length parsed <= MAX_JWKS_KEYS)%nat /\
      NoDup parsed.*1 /\ Forall (fun kv => ed25519_jwk kv.2) parsed /\
      jwks_kids ks' = list_to_set parsed.*1 /\
      (forall kid key, (kid, key) ∈ parsed -> keys ks' !! kid = Some key) /\
      (forall kid, kid ∈ jwks_kids ks -> kid ∉ parsed.*1 -> keys ks' !! kid = None) /\
      (forall kid, kid ∉ jwks_kids ks -> is_Some (keys ks !! kid) -> keys ks' !! kid = keys ks !! kid)
  end.
Proof.
  unfold add_jwks. destruct (value_get _ document ≫= as_array) as [entries|]; [|done].
  destruct (MAX_JWKS_KEYS <? length entries)%nat eqn:Ecap; [done|]. apply Nat.ltb_ge in Ecap.
  destruct (parse_jwks ∅ entries) as [[|kv parsed]|] eqn:Ep; [| |done].
  - destruct (length entries =? 0)%nat; [|done]. exists []. split; [done|]. split; [cbn; lia|]. split; [constructor|].
    split; [constructor|]. split; [done|]. cbn [keys]. split; [set_solver|]. split; intros kid Hk Hx.
    + by apply lookup_retire.
    + by apply lookup_retire.
  - set (l := kv :: parsed) in *. apply parse_jwks_ok in Ep as (Hn & Hf & Hl).
    destruct (find_index _ l) as [[? []]|] eqn:Ec; [done|].
    destruct (install l (retire ks, ∅)) as [loaded prior] eqn:Ei. exists l.
    assert (loaded = (install l (retire ks, ∅)).1) as -> by by rewrite Ei.
    assert (prior = (install l (retire ks, ∅)).2) as -> by by rewrite Ei.
    cbn [keys jwks_kids]. apply find_index_None in Ec. rewrite Forall_forall in Ec.
    split; [done|]. split; [lia|]. split; [done|].
    split; [by eapply Forall_impl; [exact Hf|intros ? []]|].
    split; [rewrite install_kids; set_solver|].
    split; [intros; by apply install_in|]. split; intros kid Hk Hx.
    + rewrite install_other by done. by apply lookup_retire.
    + rewrite install_other; [by apply lookup_retire|].
      rewrite list_elem_of_fmap. intros (y & -> & Hy). specialize (Ec _ Hy). cbn beta in Ec.
      by rewrite bool_decide_eq_true_2, bool_decide_eq_false_2 in Ec.
Qed.

(** * A delegation that validates *)

(** Two tokens, a root and a leaf that embeds it, in a token library whose
    tokens are names. *)
Module Sample.

Definition root_claims : NhiClaims :=
  mkClaims (lit "alice") (lit "issuer") (Single (lit "av")) 1000 None 1800 (lit "j1") None None
    (lit "u1") (lit "c") (lit "v1") [lit "fs:*"] None.

Definition leaf_claims : NhiClaims :=
  mkClaims (lit "agent") (lit "issuer") (Single (lit "av")) 1100 None 1700 (lit "j2") None
    (Some (mkActor (lit "alice") None)) (lit "u2") (lit "c") (lit "v1") [lit "fs:read"] (Some (lit "root")).

Definition claims_of (token : str) : option NhiClaims :=
  if str_eqb token (lit "root") then Some root_claims
  else if str_eqb token (lit "leaf") then Some leaf_claims else None.

Definition times_ok (now : Z) (c : NhiClaims) (v : Validation) : bool :=
  audience_contains (aud c) (v_audience v)
  && (negb (v_validate_exp v) || (now <=? exp c + v_leeway v))
  && (negb (v_validate_nbf v) || match nbf c with Some n => n <=? now + v_leeway v | None => true end).

Definition decode (now : Z) (token : str) (key : unit) (v : Validation) : result NhiClaims jwt_error :=
  match claims_of token with
  | Some c => if times_ok now c v then Ok c else Err (ExpiredSignature (lit "expired"))
  | None => Err (OtherJwtError (lit "no such token"))
  end.

Lemma decode_checks now token key v c : decode now token key v = Ok c ->
  claims_of token = Some c /\ audience_contains (aud c) (v_audience v) = true /\
  (v_validate_exp v = true -> now <= exp c + v_leeway v) /\
  (v_validate_nbf v = true -> forall n, nbf c = Some n -> n <= now + v_leeway v).
Proof.
  unfold decode. destruct (claims_of token) as [c'|]; [|done].
  destruct (times_ok now c' v) eqn:E; [|done]. intros [= ->]. unfold times_ok in E.
  apply andb_true_iff in E as [E H3]. apply andb_true_iff in E as [H1 H2].
  split; [done|]. split; [done|]. split; intros Hv; rewrite Hv in *; cbn in *.
  - lia.
  - intros n Hn. rewrite Hn in H3. lia.
Qed.

Definition libs : TokenLibs := {|
  DecodingKey := unit;
  decode_header token := Ok (mkHeader EdDSA (Some (lit "k")) None None (Some None));
  from_ed_pem _ := Ok tt;
  from_ed_components _ := Ok tt;
  from_secret _ := tt;
  Validator.decode := decode;
  signed_by token _ c := claims_of token = Some c;
  decode_sound := decode_checks;
  b64url_decode s := Ok s;
  compile_regex p := Ok (fun s => str_eqb s p);
  value_debug _ := [];
|}.

Definition key_set : KeySet := (@add_key ascii_tables no_keys (lit "k") (Ed25519Pem (lit "pem"))).1.

Definition config : ValidatorConfig :=
  set_revocation_store (allow_issuers (validator_new (lit "av")) [lit "issuer"]) InMemoryRevocation.new.

Definition identity : ValidatedIdentity :=
  mkIdentity leaf_claims 1 (map revocation_identity [leaf_claims; root_claims]) 2 500.

Lemma validate_leaf : @validate libs config key_set 1200 (lit "leaf") = Ok identity.
Proof. vm_compute. reflexivity. Qed.

Lemma accept_leaf :
  @validate_single libs config key_set 1200 (lit "leaf") false = Ok leaf_claims.
Proof. vm_compute. reflexivity. Qed.
End Sample.


Lemma accepted_token_sound_witness :
  audience_contains (aud Sample.leaf_claims) (audience Sample.config) = true.
Proof.
  exact (proj1 (proj2 (@accepted_token_sound Sample.libs Sample.config Sample.key_set 1200
           (lit "leaf") Sample.leaf_claims Sample.accept_leaf))).
Defined.
