(* ===== verification/Compress.v ===== *)
(** Context compression ([av-compress]: [marker.rs] and [passes.rs]): the keyed
    audit stubs and the pruning passes over the [messages] of a chat payload. *)

From S2P Require Import Prelude Rust CoreBase Json Core.

(** * marker.rs *)

(** The [hmac] crate over SHA-256: key bytes, message bytes, 32-byte tag. *)
Class HmacSha256 := {
  hmac : list Z -> list Z -> list Z;
  hmac_length k m : length (hmac k m) = 32%nat;
  hmac_byte k m : Forall (fun b => 0 <= b < 256) (hmac k m);
}.

Definition TAG_BYTES : nat := 16.
Definition MAC_CONTEXT : list Z := lit "agentvisor-compress-marker-v1".
Definition KEY_CONTEXT : list Z := lit "agentvisor-compress-marker-key-v1".
Definition TAG_SEPARATOR : str := lit " tag:".
Definition STUB_PREFIX : str := lit "[pruned:".

Section Marker.
Context {HM : HmacSha256}.

Definition derive_marker_key (journal_key : list Z) : list Z := hmac journal_key KEY_CONTEXT.

Definition sign (key : list Z) (body : str) : str :=
  hex_encode (take TAG_BYTES (hmac key (MAC_CONTEXT ++ as_bytes body))).

Definition tag_stub (key : option (list Z)) (body : str) : str :=
  match key with
  | None => body
  | Some key => body ++ TAG_SEPARATOR ++ sign key body
  end.

(** The comparison without early exit: the lengths, then the or of the xors. *)
Definition ct_eq (a b : list Z) : bool :=
  (length a =? length b)%nat
  && (fold_left (fun acc ab => Z.lor acc (Z.lxor ab.1 ab.2)) (zip a b) 0 =? 0).

Definition verify (key : list Z) (content : str) : bool :=
  match rsplit_once TAG_SEPARATOR content with
  | None => false
  | Some (body, tag_hex) => ct_eq (as_bytes (sign key body)) (as_bytes tag_hex)
  end.

Definition is_machine_stub (key : option (list Z)) (content : str) : bool :=
  if negb (starts_with STUB_PREFIX content) then false
  else match key with Some key => verify key content | None => true end.

Definition is_middle_history_stub (key : option (list Z)) (content : str) : bool :=
  if negb (starts_with STUB_PREFIX content)
     || negb (contains (lit "reason: middle history]") content) then false
  else match key with Some key => verify key content | None => true end.
End Marker.

(** * passes.rs *)

Record CompressionConfig := mkCompressionConfig {
  keep_tail : nat;
  tool_output_stub_threshold : Z;
  collapse_duplicates : bool;
  normalize_json : bool;
  min_tokens_to_engage : Z;
  summarize_middle : bool;
  target_reduction_millis : Z;
  marker_key : option (list Z);
}.

Definition default_compression_config : CompressionConfig :=
  mkCompressionConfig 8 128 true true 512 true 300 None.

Record CompressionOutcome := mkOutcome {
  out_payload : Value;
  tokens_before : Z;
  tokens_after : Z;
  out_changed : bool;
}.

Definition pruned_tokens (o : CompressionOutcome) : Z := sat_sub (tokens_before o) (tokens_after o).

Definition pruning_ratio_millis (o : CompressionOutcome) : Z :=
  if tokens_before o =? 0 then 0 else sat_mul (pruned_tokens o) 1000 / tokens_before o.

Definition msg_role (m : Value) : str := default [] (value_get (lit "role") m ≫= as_str).
Definition msg_content_str (m : Value) : option str := value_get (lit "content") m ≫= as_str.

(** ** The JSON lexer that vets minification *)

(** Skip the inside of a string: a backslash takes two bytes, a quote ends it. *)
Fixpoint skip_string (fuel : nat) (bytes : list Z) : list Z :=
  match fuel, bytes with
  | S fuel', b :: rest =>
      if b =? 92 then skip_string fuel' (drop 1 rest)
      else if b =? 34 then rest
      else skip_string fuel' rest
  | _, _ => bytes
  end.

Fixpoint skip_ws (bytes : list Z) : list Z :=
  match bytes with
  | b :: rest => if is_ascii_whitespace b then skip_ws rest else bytes
  | [] => []
  end.

Definition number_byte (b : Z) : bool :=
  is_ascii_digit b || (b =? 46) || (b =? 101) || (b =? 69) || (b =? 43) || (b =? 45).

(** The loop over the bytes: (numeric literals, number of keys).  Every turn
    consumes at least one byte, so the number of bytes is fuel enough. *)
Fixpoint lex_loop (fuel : nat) (bytes : list Z) : list (list Z) * nat :=
  match fuel, bytes with
  | S fuel', b :: rest =>
      if b =? 34 then
        let rest := skip_string (length rest) rest in
        let '(numbers, keys) := lex_loop fuel' rest in
        (numbers, if bool_decide (head (skip_ws rest) = Some 58) then S keys else keys)
      else if (b =? 45) || is_ascii_digit b then
        let '(token, rest) := break_at (fun x => negb (number_byte x)) rest in
        let '(numbers, keys) := lex_loop fuel' rest in
        ((b :: token) :: numbers, keys)
      else lex_loop fuel' rest
  | _, _ => ([], O)
  end.

Definition lex_json (raw : str) : list (list Z) * nat :=
  let bytes := as_bytes raw in lex_loop (length bytes) bytes.

Definition numeric_literals (raw : str) : list (list Z) := (lex_json raw).1.

(** [content.trim_start()] starts with [{] or [[]. *)
Fixpoint looks_like_json (content : str) : bool :=
  match content with
  | c :: rest => if is_whitespace c then looks_like_json rest else (c =? 123) || (c =? 91)
  | [] => false
  end.

Section Passes.
Context {SJ : SerdeJson} {SHA : Sha256} {HM : HmacSha256}.

(** [serde_json::from_str]. *)
Definition from_str (s : str) : result Value str := from_bytes (as_bytes s).

Definition has_duplicate_keys (raw : str) : bool :=
  match from_str raw with
  | Err _ => true
  | Ok parsed => negb ((lex_json raw).2 =? (lex_json (to_string parsed)).2)%nat
  end.

Definition audit_stub (reason : str) (tokens : Z) (original : Value) (key : option (list Z)) : str :=
  tag_stub key
    (lit "[pruned: " ++ fmt_int tokens ++ lit " tokens (" ++ reason ++ lit "), sha256:"
     ++ sha256_hex (as_bytes (to_string original)) ++ lit "]").

(** A pass visits the indices below [stop] in order; [f] rewrites one message or
    leaves it, and the flag records whether any was rewritten. *)
Fixpoint map_before (f : Value -> option Value) (stop : nat) (messages : list Value)
  : list Value * bool :=
  match stop, messages with
  | S stop', m :: rest =>
      let '(rest', changed) := map_before f stop' rest in
      match f m with
      | Some m' => (m' :: rest', true)
      | None => (m :: rest', changed)
      end
  | _, _ => (messages, false)
  end.

(** *** Minify JSON-formatted content *)

Definition normalize_message (m : Value) : option Value :=
  let role := msg_role m in
  if negb (str_eqb role (lit "tool")) && negb (str_eqb role (lit "assistant")) then None
  else match msg_content_str m with
  | None => None
  | Some content =>
      if negb (looks_like_json content) then None
      else match from_str content with
      | Err _ => None
      | Ok parsed =>
          let minified := to_string parsed in
          let round_trips :=
            match from_str minified with Ok reparsed => value_eqb reparsed parsed | Err _ => false end
            && bool_decide (numeric_literals content = numeric_literals minified)
            && negb (has_duplicate_keys content) in
          if negb round_trips then None
          else if str_len minified <? str_len content
               then (if is_object m then Some (value_insert (lit "content") (JString minified) m) else None)
               else None
      end
  end.

Definition normalize_json_content (messages : list Value) (tail_start : nat) : list Value * bool :=
  map_before normalize_message tail_start messages.

(** *** Collapse later copies of the first system message *)

Definition stub_message (role stub : str) : Value :=
  Object [(lit "role", JString role); (lit "content", JString stub)].

Definition collapse_system_message (reference : Value) (key : option (list Z)) (m : Value)
  : option Value :=
  if str_eqb (msg_role m) (lit "system") && value_eqb m reference then
    let tokens := approx_tokens (to_string reference) in
    let stub := audit_stub (lit "duplicate system message") tokens reference key in
    if approx_tokens stub >=? tokens then None else Some (stub_message (lit "system") stub)
  else None.

Definition collapse_duplicate_system (messages : list Value) (tail_start : nat)
    (key : option (list Z)) : list Value * bool :=
  match find_index (fun m => str_eqb (msg_role m) (lit "system")) messages with
  | None => (messages, false)
  | Some (first_system, reference) =>
      let '(rest, changed) :=
        map_before (collapse_system_message reference key)
          (tail_start - S first_system) (drop (S first_system) messages) in
      (take (S first_system) messages ++ rest, changed)
  end.

(** *** Collapse repeated user and assistant messages *)

(** [DefaultHasher] fed with the role and the content. *)
Variable default_hash : str -> str -> Z.

Definition only_role_and_content (m : Value) : bool :=
  match as_object m with
  | Some obj => (length obj =? 2)%nat && contains_key (lit "role") obj && contains_key (lit "content") obj
  | None => false
  end.

(** The message an index collapses to, if its role, fields and content qualify. *)
Definition duplicate_candidate (key : option (list Z)) (m : Value) : option (str * str) :=
  let role := msg_role m in
  if negb (str_eqb role (lit "user")) && negb (str_eqb role (lit "assistant")) then None
  else if negb (only_role_and_content m) then None
  else match msg_content_str m with
       | None => None
       | Some content => if is_machine_stub key content then None else Some (role, content)
       end.

Definition duplicate_stub (key : option (list Z)) (role content : str) (m : Value) : option Value :=
  let tokens := approx_tokens content in
  let stub := audit_stub (lit "duplicate message") tokens m key in
  if approx_tokens stub >=? tokens then None else Some (stub_message role stub).

(** The loop over [0..tail_start]: [seen] maps a hash to the message of its
    first occurrence ([messages[first_index]], which the loop never rewrites
    after inserting it). *)
Fixpoint collapse_loop (key : option (list Z)) (seen : gmap Z Value) (stop : nat)
    (messages : list Value) : list Value * bool :=
  match stop, messages with
  | S stop', m :: rest =>
      let skip seen :=
        let '(rest', changed) := collapse_loop key seen stop' rest in (m :: rest', changed) in
      match duplicate_candidate key m with
      | None => skip seen
      | Some (role, content) =>
          let h := default_hash role content in
          match seen !! h with
          | None => skip (<[h := m]> seen)
          | Some first =>
              if negb (value_eqb first m) then skip seen
              else match duplicate_stub key role content m with
                   | None => skip seen
                   | Some m' =>
                       let '(rest', _) := collapse_loop key seen stop' rest in (m' :: rest', true)
                   end
          end
      end
  | _, _ => (messages, false)
  end.

Definition collapse_duplicate_messages (messages : list Value) (tail_start : nat)
    (key : option (list Z)) : list Value * bool :=
  collapse_loop key ∅ tail_start messages.

(** *** Stub stale tool outputs *)

Definition stub_tool_message (threshold : Z) (key : option (list Z)) (m : Value) : option Value :=
  if negb (str_eqb (msg_role m) (lit "tool")) then None
  else match msg_content_str m with
  | None => None
  | Some content =>
      if is_machine_stub key content then None
      else
        let tokens := approx_tokens content in
        if tokens <=? threshold then None
        else
          let stub := tag_stub key
            (lit "[pruned: " ++ fmt_int tokens ++ lit " tokens, sha256:"
             ++ sha256_hex (as_bytes content) ++ lit "]") in
          if is_object m then Some (value_insert (lit "content") (JString stub) m) else None
  end.

Definition stub_stale_tool_outputs (messages : list Value) (tail_start : nat) (threshold : Z)
    (key : option (list Z)) : list Value * bool :=
  map_before (stub_tool_message threshold key) tail_start messages.

(** *** Stub the middle of the history down to the target *)

Definition payload_tokens_with_messages (payload : Value) (messages : list Value) : Z :=
  approx_tokens (to_string (value_insert (lit "messages") (Array messages) payload)).

(** The replacement of one message with its serialized token counts before and
    after. *)
Definition stub_middle_message (key : option (list Z)) (m : Value) : option (Value * Z * Z) :=
  let role := msg_role m in
  if str_eqb role (lit "system") || str_eqb role (lit "developer") || str_eqb role (lit "tool")
     || bool_decide (is_Some (value_get (lit "tool_calls") m)) then None
  else match msg_content_str m with
  | None => None
  | Some content =>
      if is_machine_stub key content then None
      else
        let tokens := approx_tokens content in
        if tokens <? 32 then None
        else
          let stub := tag_stub key
            (lit "[pruned: " ++ fmt_int tokens ++ lit " tokens, sha256:"
             ++ sha256_hex (as_bytes content) ++ lit ", reason: middle history]") in
          if is_object m then
            Some (value_insert (lit "content") (JString stub) m,
                  approx_tokens (to_string (JString content)),
                  approx_tokens (to_string (JString stub)))
          else None
  end.

Fixpoint stub_middle_loop (key : option (list Z)) (target current : Z) (stop : nat)
    (messages : list Value) : list Value * bool :=
  match stop, messages with
  | S stop', m :: rest =>
      if current <=? target then (messages, false)
      else match stub_middle_message key m with
           | None =>
               let '(rest', changed) := stub_middle_loop key target current stop' rest in
               (m :: rest', changed)
           | Some (m', before, after) =>
               let current := sat_add (sat_sub current before) after in
               let '(rest', _) := stub_middle_loop key target current stop' rest in
               (m' :: rest', true)
           end
  | _, _ => (messages, false)
  end.

Definition has_stub (is_stub : str -> bool) (messages : list Value) : bool :=
  existsb (fun m => match msg_content_str m with Some c => is_stub c | None => false end) messages.

Definition stub_middle_to_target (payload : Value) (messages : list Value) (tail_start : nat)
    (tokens_before target_reduction : Z) (key : option (list Z)) : list Value * bool :=
  let scan_end := Nat.min tail_start (length messages) in
  if has_stub (is_middle_history_stub key) (take scan_end messages) then (messages, false)
  else
    let target := sat_mul tokens_before (sat_sub 1000 (Z.min target_reduction 1000)) / 1000 in
    stub_middle_loop key target (payload_tokens_with_messages payload messages) tail_start messages.

(** *** The run *)

Definition unchanged (payload : Value) (tokens : Z) : CompressionOutcome :=
  mkOutcome payload tokens tokens false.

Definition apply_if (b : bool) (pass : list Value -> list Value * bool) (st : list Value * bool)
  : list Value * bool :=
  if b then let '(out, changed) := pass st.1 in (out, st.2 || changed) else st.

Definition run_passes (payload : Value) (cfg : CompressionConfig) (tokens : Z)
    (messages : list Value) : list Value * bool :=
  let tail_start := (length messages - keep_tail cfg)%nat in
  let key := marker_key cfg in
  let input_already_compressed := has_stub (is_machine_stub key) (take tail_start messages) in
  let st := (messages, false) in
  let st := apply_if (normalize_json cfg) (fun out => normalize_json_content out tail_start) st in
  let st := apply_if true (fun out => collapse_duplicate_system out tail_start key) st in
  let st := apply_if (collapse_duplicates cfg)
              (fun out => collapse_duplicate_messages out tail_start key) st in
  let st := apply_if true
              (fun out => stub_stale_tool_outputs out tail_start (tool_output_stub_threshold cfg) key) st in
  apply_if (summarize_middle cfg && (tokens >=? 50000) && negb input_already_compressed)
    (fun out => stub_middle_to_target payload out tail_start tokens (target_reduction_millis cfg) key) st.

Definition compress (payload : Value) (cfg : CompressionConfig) : CompressionOutcome :=
  let tokens := approx_tokens (to_string payload) in
  match value_get (lit "messages") payload ≫= as_array with
  | None => unchanged payload tokens
  | Some messages =>
      if (tokens <? min_tokens_to_engage cfg) || (length messages =? 0)%nat then unchanged payload tokens
      else
        let '(out, changed) := run_passes payload cfg tokens messages in
        if negb changed then unchanged payload tokens
        else
          let new_payload := value_insert (lit "messages") (Array out) payload in
          let after := approx_tokens (to_string new_payload) in
          if after >? tokens then unchanged payload tokens
          else mkOutcome new_payload tokens after true
  end.
End Passes.
