(* ===== verification/CompressProofs.v ===== *)
(** Properties of the compressor: audit stubs are authentic, compression never
    destroys structure, and it is idempotent when the middle pass is off. *)

From S2P Require Import Prelude Rust CoreBase Json Core CoreProofs Compress.

(** * Fuel of the lexer *)

Lemma skip_string_length fuel bytes : (length (skip_string fuel bytes) <= length bytes)%nat.
Proof.
  revert bytes. induction fuel as [|fuel IH]; intros [|b rest]; cbn [skip_string]; try done.
  case_match; [|case_match; cbn; [lia|etransitivity; [apply IH|lia]]].
  etransitivity; [apply IH|]. rewrite length_drop. cbn. lia.
Qed.

Lemma skip_string_fuel fuel extra bytes : (length bytes <= fuel)%nat ->
  skip_string (fuel + extra) bytes = skip_string fuel bytes.
Proof.
  revert bytes. induction fuel as [|fuel IH]; intros [|b rest] Hl; cbn [length] in Hl; try lia; try done.
  - by destruct extra.
  - cbn [skip_string Nat.add]. case_match; [|case_match; [done|apply IH; lia]].
    apply IH. rewrite length_drop. lia.
Qed.

Lemma break_at_length (f : Z -> bool) l : (length (break_at f l).2 <= length l)%nat.
Proof.
  induction l as [|x l IH]; cbn; [done|]. destruct (f x); cbn; [done|].
  destruct (break_at f l) as [a b]; cbn in *. lia.
Qed.

(** Every turn of the lexer consumes a byte, so more fuel changes nothing. *)
Lemma lex_loop_fuel fuel extra bytes : (length bytes <= fuel)%nat ->
  lex_loop (fuel + extra) bytes = lex_loop fuel bytes.
Proof.
  revert bytes. induction fuel as [|fuel IH]; intros [|b rest] Hl; cbn [length] in Hl; try lia; try done.
  - by destruct extra.
  - cbn [lex_loop Nat.add]. case_match.
    + rewrite IH; [done|]. pose proof (skip_string_length (length rest) rest). lia.
    + case_match; [|apply IH; lia].
      pose proof (break_at_length (fun x => negb (number_byte x)) rest) as Hb.
      destruct (break_at _ rest) as [token rest']. cbn in Hb. rewrite IH; [done|lia].
Qed.

(** * Stubs *)

Section Stubs.
Context {HM : HmacSha256}.

Lemma fold_lor_zero (l : list (Z * Z)) acc :
  fold_left (fun acc ab => Z.lor acc (Z.lxor ab.1 ab.2)) l acc = 0 <->
  acc = 0 /\ Forall (fun ab => ab.1 = ab.2) l.
Proof.
  revert acc. induction l as [|[a b] l IH]; intros acc; cbn; [rewrite Forall_nil; tauto|].
  rewrite IH, Z.lor_eq_0_iff, Z.lxor_eq_0_iff, Forall_cons. cbn. tauto.
Qed.

Lemma ct_eq_true a b : ct_eq a b = true <-> a = b.
Proof.
  unfold ct_eq. rewrite andb_true_iff, Nat.eqb_eq, Z.eqb_eq, fold_lor_zero. split.
  - intros [Hl [_ H]]. revert b Hl H. induction a as [|x a IH]; intros [|y b] Hl H; try done.
    cbn in H. apply Forall_cons in H as [Hx H]. cbn in Hx. subst. f_equal. apply IH; [by injection Hl|done].
  - intros <-. split; [done|]. split; [done|]. induction a as [|x a IH]; cbn; by constructor.
Qed.

Lemma hex_digit_ascii n : 0 <= n < 16 -> 48 <= hex_digit n <= 102.
Proof. unfold hex_digit. case_match; b2p; lia. Qed.

(** The text of a tag: hexadecimal digits, so no separator inside. *)
Lemma rsplit_hex body tag : Forall (fun c => c <> 58) tag ->
  rsplit_once TAG_SEPARATOR (body ++ TAG_SEPARATOR ++ tag) = Some (body, tag).
Proof.
  intros Ht.
  assert (forall s, Forall (fun c => c <> 58) s -> rsplit_once TAG_SEPARATOR s = None) as Hnone.
  { assert (forall s, Forall (fun c => c <> 58) s -> starts_with TAG_SEPARATOR s = false) as Hs.
    { intros s Hs. apply not_true_is_false. rewrite starts_with_iff. intros [r ->].
      apply Forall_app in Hs as [Hs _]. revert Hs. unfold TAG_SEPARATOR. eval_lit.
      rewrite !Forall_cons. lia. }
    induction 1 as [|c s Hc Hr IH]; [done|]. cbn [rsplit_once]. rewrite IH.
    rewrite Hs; [done|by constructor]. }
  induction body as [|c body IH].
  - unfold TAG_SEPARATOR in *. eval_lit. cbn [app].
    cbn [rsplit_once]. rewrite Hnone by done. cbn. by rewrite drop_0.
  - cbn [app rsplit_once]. by rewrite IH.
Qed.

Lemma hex_encode_chars bs : Forall (fun b => 0 <= b < 256) bs ->
  Forall (fun c => 48 <= c <= 102 /\ c <> 58) (hex_encode bs).
Proof.
  unfold hex_encode. induction 1 as [|b bs Hb _ IH]; cbn [map List.concat app]; [constructor|].
  assert (forall n, 0 <= n < 16 -> 48 <= hex_digit n <= 102 /\ hex_digit n <> 58) as Hd.
  { intros n Hn. split; [by apply hex_digit_ascii|]. unfold hex_digit. case_match; b2p; lia. }
  constructor; [apply Hd; Z.div_mod_to_equations; lia|].
  constructor; [apply Hd; Z.div_mod_to_equations; lia|done].
Qed.

Lemma sign_chars k body : Forall (fun c => 48 <= c <= 102 /\ c <> 58) (sign k body).
Proof. apply hex_encode_chars, Forall_take, hmac_byte. Qed.

Lemma sign_no_colon k body : Forall (fun c => c <> 58) (sign k body).
Proof. eapply Forall_impl; [apply sign_chars|]. by intros c [_ ?]. Qed.

Lemma sign_scalar k body : Forall is_scalar (sign k body).
Proof. eapply Forall_impl; [apply sign_chars|]. unfold is_scalar. intros c Hc. lia. Qed.

Lemma rsplit_once_eq p s a b : rsplit_once p s = Some (a, b) -> s = a ++ p ++ b.
Proof.
  assert (forall s a b, Some ([], drop (length p) s) = Some (a, b) -> starts_with p s = true ->
            s = a ++ p ++ b) as Hd.
  { intros s' a' b' [= <- <-] H. apply starts_with_iff in H as [r ->]. cbn.
    by rewrite drop_app_length. }
  revert a b. induction s as [|c s IH]; intros a b; cbn [rsplit_once].
  - case_match eqn:E; [|done]. intros H. by apply Hd.
  - destruct (rsplit_once p s) as [[a' b']|].
    + intros [= <- <-]. cbn. by rewrite (IH a' b').
    + case_match eqn:E; [|done]. intros H. by apply Hd.
Qed.

Lemma tag_stub_prefix key body : starts_with STUB_PREFIX body = true ->
  starts_with STUB_PREFIX (tag_stub key body) = true.
Proof.
  intros H. apply starts_with_iff in H as [r ->]. destruct key; cbn [tag_stub]; [|apply starts_with_app].
  rewrite <- app_assoc. apply starts_with_app.
Qed.

(** Whatever the passes mint is recognised afterwards. *)
Lemma tag_stub_recognised key body : starts_with STUB_PREFIX body = true ->
  is_machine_stub key (tag_stub key body) = true.
Proof.
  intros H. unfold is_machine_stub. rewrite tag_stub_prefix by done. cbn [negb].
  destruct key as [k|]; [|done]. unfold verify, tag_stub.
  rewrite rsplit_hex by apply sign_no_colon. by apply ct_eq_true.
Qed.
End Stubs.

(** Audit stubs are authentic: with a marker key, a text counts as a stub
    exactly when it has the stub prefix and ends with the separator and the
    HMAC tag of everything before it, so quoting the stub shape is not enough;
    and every stub the compressor mints is recognised. *)
Theorem machine_stub_authentic {HM : HmacSha256} (key : list Z) (content body : str) :
  Forall is_scalar content ->
  (is_machine_stub (Some key) content = true <->
     starts_with STUB_PREFIX content = true /\
     exists b, content = b ++ TAG_SEPARATOR ++ sign key b) /\
  (starts_with STUB_PREFIX body = true ->
   is_machine_stub (Some key) (tag_stub (Some key) body) = true).
Proof.
  intros Hsc. split; [|apply tag_stub_recognised]. unfold is_machine_stub.
  destruct (starts_with STUB_PREFIX content); cbn [negb]; [|split; [done|by intros []]].
  unfold verify. split.
  - destruct (rsplit_once TAG_SEPARATOR content) as [[b tag]|] eqn:E; [|done].
    intros H. apply ct_eq_true in H. apply rsplit_once_eq in E. split; [done|]. exists b.
    assert (sign key b = tag) as ->; [|done]. apply as_bytes_inj; [apply sign_scalar| |done].
    rewrite E in Hsc. apply Forall_app in Hsc as [_ Hsc]. by apply Forall_app in Hsc as [_ Hsc].
  - intros [_ [b ->]]. rewrite rsplit_hex by apply sign_no_colon. by apply ct_eq_true.
Qed.

(** * Structure *)

Section Structure.
Context {SJ : SerdeJson} {SHA : Sha256} {HM : HmacSha256}.
Variable default_hash : str -> str -> Z.

Definition is_sys (m : Value) : bool := str_eqb (msg_role m) (lit "system").

(** The role survives, and outside system messages every field but the content. *)
Definition kept (m m' : Value) : Prop :=
  msg_role m' = msg_role m /\
  (is_sys m = false -> forall k, k <> lit "content" -> value_get k m' = value_get k m).

(** What every pass, and hence the whole run, guarantees. *)
Definition preserved (tail_start : nat) (msgs out : list Value) : Prop :=
  Forall2 kept msgs out /\ drop tail_start out = drop tail_start msgs /\
  (forall i m, find_index is_sys msgs = Some (i, m) -> out !! i = Some m).

Lemma kept_refl m : kept m m.
Proof. done. Qed.

Lemma kept_sys m m' : kept m m' -> is_sys m' = is_sys m.
Proof. intros [Hr _]. unfold is_sys. by rewrite Hr. Qed.

Lemma kept_trans a b c : kept a b -> kept b c -> kept a c.
Proof.
  intros Hab Hbc. pose proof (kept_sys _ _ Hab) as Hs. destruct Hab as [Hr Hf], Hbc as [Hr' Hf'].
  split; [congruence|]. intros H k Hk. rewrite Hf', Hf by (done || congruence). done.
Qed.

Lemma preserved_refl ts msgs : preserved ts msgs msgs.
Proof.
  split; [|split; [done|]].
  - induction msgs; constructor; [apply kept_refl|done].
  - intros i m H. by apply find_index_Some in H as [? _].
Qed.

Lemma find_index_kept msgs out : Forall2 kept msgs out ->
  forall i m, find_index is_sys msgs = Some (i, m) -> exists m', find_index is_sys out = Some (i, m').
Proof.
  induction 1 as [|a b msgs out Hab _ IH]; intros i m; cbn; [done|].
  rewrite (kept_sys _ _ Hab). destruct (is_sys a); [intros [= <- <-]; by eexists|].
  destruct (find_index is_sys msgs) as [[j x]|]; [|done]. intros [= <- <-].
  destruct (IH j x eq_refl) as [m' ->]. by eexists.
Qed.

Lemma preserved_trans ts a b c : preserved ts a b -> preserved ts b c -> preserved ts a c.
Proof.
  intros (Hab & Htab & Hsab) (Hbc & Htbc & Hsbc). split; [|split; [congruence|]].
  - clear -Hab Hbc. revert c Hbc. induction Hab as [|x y a b Hxy _ IH]; intros c Hbc.
    + inversion Hbc. constructor.
    + inversion Hbc; subst. constructor; [by eapply kept_trans|by apply IH].
  - intros i m H. destruct (find_index_kept a b Hab i m H) as [m' Hm'].
    pose proof (Hsab i m H) as Hb. rewrite (Hsbc i m' Hm').
    apply find_index_Some in Hm' as [Hm' _]. congruence.
Qed.

(** A pass that rewrites messages one by one, never a system message. *)
Definition rewrites (m m' : Value) : Prop := m' = m \/ (kept m m' /\ is_sys m = false).

Lemma rewrites_preserved ts msgs out :
  Forall2 rewrites msgs out -> drop ts out = drop ts msgs -> preserved ts msgs out.
Proof.
  intros H Hd. split; [|split; [done|]].
  - clear Hd. induction H as [|a b msgs out Hab _ IH]; constructor; [|done].
    destruct Hab as [->|[? _]]; [apply kept_refl|done].
  - clear Hd. induction H as [|a b msgs out Hab _ IH]; intros i m; cbn; [done|].
    destruct (is_sys a) eqn:E; [intros [= <- <-]; destruct Hab as [->|[_ ?]]; [done|congruence]|].
    destruct (find_index is_sys msgs) as [[j x]|]; [|done]. intros [= <- <-]. cbn. by apply IH.
Qed.

Lemma rewrites_refl msgs : Forall2 rewrites msgs msgs.
Proof. induction msgs; constructor; [by left|done]. Qed.

Lemma map_before_preserved f stop msgs :
  (forall m m', f m = Some m' -> kept m m' /\ is_sys m = false) ->
  preserved stop msgs (map_before f stop msgs).1.
Proof.
  intros Hf. apply rewrites_preserved.
  - revert stop. induction msgs as [|m msgs IH]; intros [|stop]; cbn; try apply rewrites_refl.
    specialize (IH stop). destruct (map_before f stop msgs) as [r c].
    destruct (f m) as [m'|] eqn:E; cbn; (constructor; [|done]).
    + right. by apply Hf.
    + by left.
  - revert stop. induction msgs as [|m msgs IH]; intros [|stop]; cbn; try done.
    specialize (IH stop). destruct (map_before f stop msgs) as [r c]. by destruct (f m).
Qed.

Lemma insert_content_kept c m : kept m (value_insert (lit "content") c m).
Proof.
  assert (forall k, k <> lit "content" ->
    value_get k (value_insert (lit "content") c m) = value_get k m) as H.
  { intros k Hk. destruct m; try done. apply map_get_insert_ne. congruence. }
  split; [|by intros _]. unfold msg_role. by rewrite H.
Qed.

Lemma role_not_sys m r : msg_role m = r -> r <> lit "system" -> is_sys m = false.
Proof. intros <- H. by apply str_eqb_neq. Qed.

Lemma normalize_message_kept m m' : normalize_message m = Some m' -> kept m m' /\ is_sys m = false.
Proof.
  unfold normalize_message. intros H.
  destruct (negb (str_eqb (msg_role m) (lit "tool")) && _) eqn:Er; [done|].
  repeat break_hyp H; try done. injection H as <-. split; [apply insert_content_kept|].
  apply andb_false_iff in Er as [E|E]; b2p; apply str_eqb_eq in E; by eapply role_not_sys.
Qed.

Lemma stub_tool_kept th key m m' : stub_tool_message th key m = Some m' -> kept m m' /\ is_sys m = false.
Proof.
  unfold stub_tool_message. intros H. destruct (str_eqb (msg_role m) (lit "tool")) eqn:Er; [|done].
  cbn [negb] in H. repeat break_hyp H; try done. injection H as <-. split; [apply insert_content_kept|].
  apply str_eqb_eq in Er. by eapply role_not_sys.
Qed.

Lemma stub_middle_kept key m m' a b : stub_middle_message key m = Some (m', a, b) ->
  kept m m' /\ is_sys m = false.
Proof.
  unfold stub_middle_message. fold (is_sys m). intros H. destruct (is_sys m) eqn:Es; [done|].
  cbn [orb] in H. repeat break_hyp H; try done. injection H as <- _ _.
  split; [apply insert_content_kept|done].
Qed.

(** A message with exactly a role and a content has no other field to lose. *)
Lemma only_two_fields m k : only_role_and_content m = true -> k <> lit "role" -> k <> lit "content" ->
  value_get k m = None.
Proof.
  unfold only_role_and_content. destruct m as [| | | | |obj]; try done. cbn [as_object value_get].
  intros H Hr Hc. b2p. destruct obj as [|[k1 v1] [|[k2 v2] [|]]]; try done.
  unfold contains_key in *. cbn [map_get] in *.
  assert (str_eqb k (lit "role") = false /\ str_eqb k (lit "content") = false) as [Hkr Hkc]
    by (by rewrite !str_eqb_neq).
  assert (forall x, str_eqb x (lit "role") = true -> str_eqb x (lit "content") = false) as Hx.
  { intros x Hx. apply str_eqb_eq in Hx as ->. done. }
  destruct (str_eqb k1 k) eqn:E1; [exfalso|destruct (str_eqb k2 k) eqn:E2; [exfalso|done]].
  - apply str_eqb_eq in E1 as ->. rewrite Hkr, Hkc in *.
    destruct (str_eqb k2 (lit "role")) eqn:E3; [|done]. by rewrite (Hx _ E3) in *.
  - apply str_eqb_eq in E2 as ->. rewrite Hkr, Hkc in *.
    destruct (str_eqb k1 (lit "role")) eqn:E3; [|done]. by rewrite (Hx _ E3) in *.
Qed.

Lemma stub_message_role role stub : msg_role (stub_message role stub) = role.
Proof. unfold msg_role, stub_message. cbn [value_get map_get]. by rewrite str_eqb_refl. Qed.

Lemma stub_message_other role stub k : k <> lit "role" -> k <> lit "content" ->
  value_get k (stub_message role stub) = None.
Proof.
  intros Hr Hc. cbn [value_get stub_message map_get].
  by rewrite !(proj2 (str_eqb_neq _ k)) by congruence.
Qed.

Lemma duplicate_kept key m role content m' : duplicate_candidate key m = Some (role, content) ->
  duplicate_stub key role content m = Some m' -> kept m m' /\ is_sys m = false.
Proof.
  unfold duplicate_candidate, duplicate_stub. intros Hc Hs.
  destruct (negb (str_eqb (msg_role m) (lit "user")) && _) eqn:Er; [done|].
  destruct (only_role_and_content m) eqn:Eo; [|done]. cbn [negb] in Hc.
  repeat break_hyp Hc; try done. injection Hc as <- <-.
  repeat break_hyp Hs; try done. injection Hs as <-.
  assert (is_sys m = false) as Hsys.
  { apply andb_false_iff in Er as [E|E]; b2p; apply str_eqb_eq in E; by eapply role_not_sys. }
  split; [|done]. split; [apply stub_message_role|]. intros _ k Hk.
  destruct (decide (k = lit "role")) as [->|Hr].
  - cbn [value_get stub_message map_get]. rewrite str_eqb_refl.
    clear -Er. unfold msg_role in *. destruct (value_get (lit "role") m) as [v|]; [|done].
    destruct v; try done.
  - rewrite stub_message_other, only_two_fields by done. done.
Qed.

Lemma collapse_loop_preserved key seen stop msgs :
  preserved stop msgs (collapse_loop default_hash key seen stop msgs).1.
Proof.
  apply rewrites_preserved.
  - revert seen stop. induction msgs as [|m msgs IH]; intros seen [|stop]; cbn [collapse_loop];
      try apply rewrites_refl.
    assert (forall seen', Forall2 rewrites (m :: msgs)
      (let '(rest', changed) := collapse_loop default_hash key seen' stop msgs in
       (m :: rest', changed)).1) as Hskip.
    { intros seen'. specialize (IH seen' stop). destruct (collapse_loop _ _ _ _ _).
      constructor; [by left|done]. }
    destruct (duplicate_candidate key m) as [[role content]|] eqn:Ec; [|apply Hskip].
    destruct (seen !! _) as [first|]; [|apply Hskip].
    destruct (negb (value_eqb first m)); [apply Hskip|].
    destruct (duplicate_stub key role content m) as [m'|] eqn:Es; [|apply Hskip].
    specialize (IH seen stop). destruct (collapse_loop _ _ _ _ _). cbn. constructor; [|done].
    right. by eapply duplicate_kept.
  - revert seen stop. induction msgs as [|m msgs IH]; intros seen [|stop]; cbn [collapse_loop];
      try done.
    assert (forall seen', drop (S stop)
      (let '(rest', changed) := collapse_loop default_hash key seen' stop msgs in
       (m :: rest', changed)).1 = drop (S stop) (m :: msgs)) as Hskip.
    { intros seen'. specialize (IH seen' stop). by destruct (collapse_loop _ _ _ _ _). }
    destruct (duplicate_candidate key m) as [[role content]|] eqn:Ec; [|apply Hskip].
    destruct (seen !! _) as [first|]; [|apply Hskip].
    destruct (negb (value_eqb first m)); [apply Hskip|].
    destruct (duplicate_stub key role content m) as [m'|] eqn:Es; [|apply Hskip].
    specialize (IH seen stop). by destruct (collapse_loop _ _ _ _ _).
Qed.

Lemma stub_middle_loop_preserved key target current stop msgs :
  preserved stop msgs (stub_middle_loop key target current stop msgs).1.
Proof.
  apply rewrites_preserved.
  - revert current stop. induction msgs as [|m msgs IH]; intros current [|stop];
      cbn [stub_middle_loop]; try apply rewrites_refl.
    destruct (current <=? target); [apply rewrites_refl|].
    destruct (stub_middle_message key m) as [[[m' a] b]|] eqn:E.
    + specialize (IH (sat_add (sat_sub current a) b) stop). destruct (stub_middle_loop _ _ _ _ _).
      cbn. constructor; [|done]. right. by eapply stub_middle_kept.
    + specialize (IH current stop). destruct (stub_middle_loop _ _ _ _ _). constructor; [by left|done].
  - revert current stop. induction msgs as [|m msgs IH]; intros current [|stop];
      cbn [stub_middle_loop]; try done.
    destruct (current <=? target); [done|].
    destruct (stub_middle_message key m) as [[[m' a] b]|] eqn:E.
    + specialize (IH (sat_add (sat_sub current a) b) stop). by destruct (stub_middle_loop _ _ _ _ _).
    + specialize (IH current stop). by destruct (stub_middle_loop _ _ _ _ _).
Qed.

Lemma system_message_kept reference key m m' : collapse_system_message reference key m = Some m' ->
  msg_role m' = lit "system" /\ is_sys m = true.
Proof.
  unfold collapse_system_message. fold (is_sys m). intros H. destruct (is_sys m) eqn:Es; [|done].
  cbn [andb] in H. repeat break_hyp H; try done. injection H as <-. by rewrite stub_message_role.
Qed.

Lemma map_before_kept f stop msgs : (forall m m', f m = Some m' -> kept m m') ->
  Forall2 kept msgs (map_before f stop msgs).1.
Proof.
  intros Hf. revert stop. induction msgs as [|m msgs IH]; intros [|stop]; cbn;
    try apply preserved_refl with (ts := 0%nat).
  specialize (IH stop). destruct (map_before f stop msgs) as [r c].
  destruct (f m) as [m'|] eqn:E; cbn; (constructor; [|done]); [by apply Hf|apply kept_refl].
Qed.

Lemma map_before_drop f stop msgs : drop stop (map_before f stop msgs).1 = drop stop msgs.
Proof.
  revert stop. induction msgs as [|m msgs IH]; intros [|stop]; cbn; try done.
  specialize (IH stop). destruct (map_before f stop msgs) as [r c]. by destruct (f m).
Qed.

Lemma collapse_system_preserved ts key msgs :
  preserved ts msgs (collapse_duplicate_system msgs ts key).1.
Proof.
  unfold collapse_duplicate_system.
  destruct (find_index _ msgs) as [[f ref]|] eqn:Ef; [|apply preserved_refl].
  change (fun m => str_eqb (msg_role m) (lit "system")) with is_sys in Ef.
  pose proof (find_index_Some _ _ _ _ Ef) as (Hf & _ & _). apply lookup_lt_Some in Hf as Hlt.
  set (g := collapse_system_message ref key). set (rest := drop (S f) msgs).
  assert (forall m m', g m = Some m' -> kept m m') as Hg.
  { intros m m' H. apply system_message_kept in H as [H1 H2]. split; [|congruence].
    unfold is_sys in H2. apply str_eqb_eq in H2. congruence. }
  pose proof (map_before_kept g (ts - S f) rest Hg) as Hk.
  pose proof (map_before_drop g (ts - S f) rest) as Hd.
  destruct (map_before g (ts - S f) rest) as [out c]. cbn [fst] in *.
  assert (length (take (S f) msgs) = S f) as Hl by (rewrite length_take; lia).
  split; [|split].
  - rewrite <- (take_drop (S f) msgs) at 1. apply Forall2_app; [|done].
    apply (preserved_refl 0%nat).
  - rewrite <- (take_drop (S f) msgs) at 2. rewrite !drop_app, Hl. fold rest. by rewrite Hd.
  - intros i m Hi. rewrite Ef in Hi. injection Hi as <- <-.
    rewrite lookup_app_l by lia. by rewrite lookup_take_lt by lia.
Qed.

Lemma run_passes_preserved payload cfg tokens msgs :
  preserved (length msgs - keep_tail cfg) msgs (run_passes default_hash payload cfg tokens msgs).1.
Proof.
  assert (forall ts b pass st msgs', preserved ts msgs' st.1 ->
    (forall out, preserved ts out (pass out).1) -> preserved ts msgs' (apply_if b pass st).1) as Happ.
  { intros ts b pass [out c] msgs' Hst Hp. unfold apply_if. destruct b; [|done]. cbn [fst] in *.
    specialize (Hp out). destruct (pass out) as [o ch]. by eapply preserved_trans. }
  unfold run_passes. cbn zeta. repeat apply Happ.
  - apply preserved_refl.
  - intros out. apply map_before_preserved, normalize_message_kept.
  - intros out. apply collapse_system_preserved.
  - intros out. apply collapse_loop_preserved.
  - intros out. apply map_before_preserved, stub_tool_kept.
  - intros out. unfold stub_middle_to_target. case_match; [apply preserved_refl|].
    apply stub_middle_loop_preserved.
Qed.
End Structure.

(** Compression is never structurally destructive.  Only the [messages] of the
    payload can change; their number, the role of each, and (outside copies of
    the system message) every field but the content survive, so tool-call
    links stay intact; the first system message and the last [keep_tail]
    messages are identical; and the reported token counts are those of the
    payloads, the second never larger than the first. *)
Theorem compress_preserves_structure {SJ : SerdeJson} {SHA : Sha256} {HM : HmacSha256}
    (default_hash : str -> str -> Z) (payload : Value) (cfg : CompressionConfig) :
  let o := compress default_hash payload cfg in
  tokens_before o = approx_tokens (to_string payload) /\
  tokens_after o = approx_tokens (to_string (out_payload o)) /\
  tokens_after o <= tokens_before o /\
  (out_payload o = payload \/
   exists msgs out, value_get (lit "messages") payload = Some (Array msgs) /\
     out_payload o = value_insert (lit "messages") (Array out) payload /\
     length out = length msgs /\
     preserved (length msgs - keep_tail cfg) msgs out).
Proof.
  unfold compress. set (tokens := approx_tokens (to_string payload)). cbn zeta.
  assert (forall P : Prop, (tokens_before (unchanged payload tokens) = tokens /\
     tokens_after (unchanged payload tokens) =
       approx_tokens (to_string (out_payload (unchanged payload tokens))) /\
     tokens_after (unchanged payload tokens) <= tokens_before (unchanged payload tokens) /\
     (out_payload (unchanged payload tokens) = payload \/ P))) as Hsame.
  { intros P. cbn. split; [done|]. split; [done|]. split; [lia|by left]. }
  destruct (value_get (lit "messages") payload ≫= as_array) as [msgs|] eqn:Em; [|apply Hsame].
  destruct (_ || _); [apply Hsame|].
  pose proof (run_passes_preserved default_hash payload cfg tokens msgs) as Hp.
  destruct (run_passes _ _ _ _ _) as [out changed]. cbn [fst] in Hp.
  destruct changed; cbn [negb]; [|apply Hsame]. destruct (_ >? tokens) eqn:Eg; [apply Hsame|]. b2p.
  cbn [tokens_before tokens_after out_payload].
  split; [done|]. split; [done|]. split; [done|]. right. exists msgs, out.
  split; [apply bind_Some in Em as (v & -> & Hv); destruct v; try done; by injection Hv as ->|].
  split; [done|]. split; [|done]. destruct Hp as [Hk _]. symmetry. by eapply Forall2_length.
Qed.

(** * Idempotence *)

(** Two facts about [serde_json] texts: printing a document read back from its
    own print gives the same text, and a text that starts like a stub is not
    JSON. *)
Class JsonTextLaws {SJ : SerdeJson} := {
  reprint v w : from_bytes (as_bytes (to_string v)) = Ok w -> to_string w = to_string v;
  stub_not_json s : starts_with STUB_PREFIX s = true -> is_ok (from_bytes (as_bytes s)) = false;
}.

Section Idempotence.
Context {SJ : SerdeJson} {JL : JsonTextLaws} {SHA : Sha256} {HM : HmacSha256}.
Variable default_hash : str -> str -> Z.

Lemma map_before_rel (R : Value -> Value -> Prop) f stop msgs :
  (forall m, R m m) -> (forall m m', f m = Some m' -> R m m') ->
  Forall2 R msgs (map_before f stop msgs).1.
Proof.
  intros Hr Hf. assert (forall l, Forall2 R l l) as Hl by (induction l; by constructor).
  revert stop. induction msgs as [|m msgs IH]; intros [|stop]; cbn; try apply Hl.
  specialize (IH stop). destruct (map_before f stop msgs) as [r c].
  destruct (f m) as [m'|] eqn:E; cbn; (constructor; [|done]); [by apply Hf|done].
Qed.

Lemma map_before_id f stop msgs :
  Forall (fun m => f m = None \/ f m = Some m) (take stop msgs) -> (map_before f stop msgs).1 = msgs.
Proof.
  revert stop. induction msgs as [|m msgs IH]; intros [|stop]; cbn; try done.
  rewrite Forall_cons. intros [Hm H]. specialize (IH stop H).
  destruct (map_before f stop msgs) as [r c]. cbn in IH. subst.
  by destruct Hm as [-> | ->].
Qed.

(** After a pass whose rewrites satisfy [P], the visited messages satisfy [P] or
    were left alone. *)
Lemma map_before_settled f stop msgs (P : Value -> Prop) :
  (forall m m', f m = Some m' -> P m') -> (forall m, f m = None -> P m) ->
  Forall P (take stop (map_before f stop msgs).1).
Proof.
  intros Hs Hn. revert stop. induction msgs as [|m msgs IH]; intros [|stop]; cbn; try constructor.
  specialize (IH stop). destruct (map_before f stop msgs) as [r c].
  destruct (f m) as [m'|] eqn:E; cbn; constructor; eauto.
Qed.

Lemma collapse_loop_rel (R : Value -> Value -> Prop) key seen stop msgs :
  (forall m, R m m) ->
  (forall m role content m', duplicate_candidate key m = Some (role, content) ->
     duplicate_stub key role content m = Some m' -> R m m') ->
  Forall2 R msgs (collapse_loop default_hash key seen stop msgs).1.
Proof.
  intros Hr Hd. assert (forall l, Forall2 R l l) as Hl by (induction l; by constructor).
  revert seen stop. induction msgs as [|m msgs IH]; intros seen [|stop]; cbn [collapse_loop];
    try apply Hl.
  assert (forall seen', Forall2 R (m :: msgs)
    (let '(rest', changed) := collapse_loop default_hash key seen' stop msgs in
     (m :: rest', changed)).1) as Hskip.
  { intros seen'. specialize (IH seen' stop). destruct (collapse_loop _ _ _ _ _).
    constructor; [apply Hr|done]. }
  destruct (duplicate_candidate key m) as [[role content]|] eqn:Ec; [|apply Hskip].
  destruct (seen !! _) as [first|]; [|apply Hskip].
  destruct (negb (value_eqb first m)); [apply Hskip|].
  destruct (duplicate_stub key role content m) as [m'|] eqn:Es; [|apply Hskip].
  specialize (IH seen stop). destruct (collapse_loop _ _ _ _ _). cbn. constructor; [|done].
  by eapply Hd.
Qed.

Lemma stub_text_prefix rest : starts_with STUB_PREFIX (lit "[pruned: " ++ rest) = true.
Proof. unfold STUB_PREFIX. eval_lit. cbn [app starts_with]. by rewrite !Z.eqb_refl. Qed.

Lemma audit_stub_prefix reason tokens v key :
  starts_with STUB_PREFIX (audit_stub reason tokens v key) = true.
Proof. apply tag_stub_prefix, stub_text_prefix. Qed.

Lemma audit_stub_recognised reason tokens v key :
  is_machine_stub key (audit_stub reason tokens v key) = true.
Proof. apply tag_stub_recognised, stub_text_prefix. Qed.

Lemma stub_message_content role stub : msg_content_str (stub_message role stub) = Some stub.
Proof.
  unfold msg_content_str, stub_message. cbn [value_get map_get].
  rewrite (proj2 (str_eqb_neq (lit "role") (lit "content"))) by done. by rewrite str_eqb_refl.
Qed.

Lemma insert_content m c : is_object m = true ->
  msg_content_str (value_insert (lit "content") (JString c) m) = Some c.
Proof.
  destruct m as [| | | | |obj]; try done. intros _. unfold msg_content_str. cbn [value_insert value_get].
  assert (map_get (lit "content") (map_insert (lit "content") (JString c) obj) = Some (JString c)) as ->;
    [|done].
  generalize (lit "content") as k. intros k.
  induction obj as [|[x w] obj IH]; cbn; [by rewrite str_eqb_refl|].
  destruct (str_eqb x k) eqn:E; cbn; rewrite E; done.
Qed.

(** ** Minification *)

Lemma normalize_settled m m' : normalize_message m = Some m' -> normalize_message m' = None.
Proof.
  intros H. pose proof (normalize_message_kept m m' H) as [[Hrole _] _].
  unfold normalize_message in H.
  destruct (negb (str_eqb (msg_role m) (lit "tool")) && _) eqn:Er; [done|].
  destruct (msg_content_str m) as [content|]; [|done].
  destruct (looks_like_json content); [|done]. cbn [negb] in H.
  destruct (from_str content) as [parsed|]; [|done].
  destruct (from_str (to_string parsed)) as [reparsed|] eqn:Ep; [|done].
  destruct (negb _) in H; [done|]. destruct (_ <? _) in H; [|done].
  destruct (is_object m) eqn:Eo; [|done]. injection H as <-.
  unfold normalize_message. rewrite Hrole, Er, insert_content by done.
  destruct (looks_like_json _); [|done]. cbn [negb]. rewrite Ep.
  apply reprint in Ep. rewrite Ep. case_match; [done|]. by rewrite Z.ltb_irrefl.
Qed.

Lemma stub_content_settled m c : msg_content_str m = Some c -> starts_with STUB_PREFIX c = true ->
  normalize_message m = None.
Proof.
  intros Hc Hp. unfold normalize_message. case_match; [done|]. rewrite Hc.
  case_match; [done|]. unfold from_str. apply stub_not_json in Hp.
  by destruct (from_bytes (as_bytes c)).
Qed.

(** ** Repeated messages *)

Lemma duplicate_stub_skipped key role content m m' :
  duplicate_stub key role content m = Some m' -> duplicate_candidate key m' = None.
Proof.
  unfold duplicate_stub. case_match; [done|]. intros [= <-]. unfold duplicate_candidate.
  rewrite stub_message_content. case_match; [done|]. case_match; [done|].
  by rewrite audit_stub_recognised.
Qed.

Lemma collapse_loop_twice key seen stop msgs :
  let out := (collapse_loop default_hash key seen stop msgs).1 in
  (collapse_loop default_hash key seen stop out).1 = out.
Proof.
  cbn zeta. revert seen stop. induction msgs as [|m msgs IH]; intros seen [|stop];
    cbn [collapse_loop]; try done.
  destruct (duplicate_candidate key m) as [[role content]|] eqn:Ec.
  2:{ specialize (IH seen stop). destruct (collapse_loop _ _ seen _ msgs) as [r c]. cbn [fst] in *.
      cbn [collapse_loop]. rewrite Ec. destruct (collapse_loop _ _ _ _ r). cbn in *. congruence. }
  destruct (seen !! default_hash role content) as [first|] eqn:Es.
  2:{ specialize (IH (<[default_hash role content := m]> seen) stop).
      destruct (collapse_loop _ _ _ _ msgs) as [r c]. cbn [fst] in *. cbn [collapse_loop].
      rewrite Ec, Es. destruct (collapse_loop _ _ _ _ r). cbn in *. congruence. }
  specialize (IH seen stop). destruct (collapse_loop _ _ seen _ msgs) as [r c]. cbn [fst] in *.
  destruct (negb (value_eqb first m)) eqn:Ev.
  { cbn [fst collapse_loop]. rewrite Ec, Es, Ev. destruct (collapse_loop _ _ _ _ r). cbn in *. congruence. }
  destruct (duplicate_stub key role content m) as [m'|] eqn:Ed; cbn [fst collapse_loop].
  - rewrite (duplicate_stub_skipped _ _ _ _ _ Ed). destruct (collapse_loop _ _ _ _ r). cbn in *. congruence.
  - rewrite Ec, Es, Ev, Ed. destruct (collapse_loop _ _ _ _ r). cbn in *. congruence.
Qed.

Lemma tool_not_candidate key m : msg_role m = lit "tool" -> duplicate_candidate key m = None.
Proof. intros H. unfold duplicate_candidate. by rewrite H. Qed.

Lemma stub_tool_role th key m m' : stub_tool_message th key m = Some m' ->
  msg_role m = lit "tool" /\ msg_role m' = lit "tool".
Proof.
  intros H. pose proof (stub_tool_kept th key m m' H) as [[Hr _] _]. unfold stub_tool_message in H.
  destruct (str_eqb (msg_role m) (lit "tool")) eqn:E; [|done]. apply str_eqb_eq in E. split; congruence.
Qed.

(** Stubbing tool outputs does not disturb the duplicate pass. *)
Lemma collapse_loop_tools th key seen stop msgs :
  (collapse_loop default_hash key seen stop msgs).1 = msgs ->
  let out := (map_before (stub_tool_message th key) stop msgs).1 in
  (collapse_loop default_hash key seen stop out).1 = out.
Proof.
  cbn zeta. revert seen stop. induction msgs as [|m msgs IH]; intros seen [|stop];
    cbn [collapse_loop map_before]; try done. intros Hfix.
  assert (forall seen', (collapse_loop default_hash key seen' stop msgs).1 = msgs ->
    (collapse_loop default_hash key seen' stop (map_before (stub_tool_message th key) stop msgs).1).1
    = (map_before (stub_tool_message th key) stop msgs).1) as IH' by (intros; by apply IH).
  clear IH. destruct (map_before (stub_tool_message th key) stop msgs) as [r c]. cbn [fst] in *.
  destruct (stub_tool_message th key m) as [m'|] eqn:Et.
  - apply stub_tool_role in Et as [Hm Hm']. rewrite tool_not_candidate in Hfix by done.
    cbn [fst collapse_loop]. rewrite tool_not_candidate by done. specialize (IH' seen).
    destruct (collapse_loop _ _ _ _ msgs). cbn in Hfix. injection Hfix as Hfix.
    destruct (collapse_loop _ _ _ _ r). cbn in *. f_equal. by apply IH'.
  - cbn [fst collapse_loop]. destruct (duplicate_candidate key m) as [[role content]|].
    2:{ specialize (IH' seen). destruct (collapse_loop _ _ _ _ msgs). cbn in Hfix. injection Hfix as Hfix.
        destruct (collapse_loop _ _ _ _ r). cbn in *. f_equal. by apply IH'. }
    destruct (seen !! default_hash role content) as [first|].
    2:{ specialize (IH' (<[default_hash role content := m]> seen)).
        destruct (collapse_loop _ _ _ _ msgs). cbn in Hfix. injection Hfix as Hfix.
        destruct (collapse_loop _ _ _ _ r). cbn in *. f_equal. by apply IH'. }
    specialize (IH' seen). destruct (collapse_loop _ _ seen _ msgs) as [x cx].
    destruct (collapse_loop _ _ seen _ r) as [y cy]. cbn [fst] in IH'.
    destruct (negb (value_eqb first m)); cbn in *; [injection Hfix as Hfix; f_equal; by apply IH'|].
    destruct (duplicate_stub key role content m); cbn in *;
      [injection Hfix as Hm Hfix; rewrite Hm|injection Hfix as Hfix]; f_equal; by apply IH'.
Qed.

(** ** Copies of the system message *)

Lemma find_index_rewrites a b : Forall2 rewrites a b -> find_index is_sys b = find_index is_sys a.
Proof.
  induction 1 as [|m m' a b Hm _ IH]; [done|]. cbn.
  assert (is_sys m' = is_sys m) as ->.
  { destruct Hm as [->|[Hk _]]; [done|by apply kept_sys]. }
  destruct (is_sys m) eqn:E; [destruct Hm as [->|[_ ?]]; [done|congruence]|]. by rewrite IH.
Qed.

Definition system_settled (reference : Value) (key : option (list Z)) (m : Value) : Prop :=
  collapse_system_message reference key m = None \/ collapse_system_message reference key m = Some m.

Lemma system_settled_rewrites reference key m m' :
  rewrites m m' -> system_settled reference key m -> system_settled reference key m'.
Proof.
  intros [->|[Hk Hs]]; [done|]. intros _. left. unfold collapse_system_message.
  fold (is_sys m'). by rewrite (kept_sys _ _ Hk), Hs.
Qed.

(** A replaced copy is replaced by the same text again, or left. *)
Lemma system_resettled reference key m m' :
  collapse_system_message reference key m = Some m' -> system_settled reference key m'.
Proof.
  unfold system_settled, collapse_system_message. intros H.
  destruct (_ && _) in H; [|done]. destruct (_ >=? _) eqn:E in H; [done|]. injection H as <-.
  destruct (_ && _); [|by left]. rewrite E. by right.
Qed.

Lemma collapse_system_fixed ts key msgs out :
  Forall2 rewrites (collapse_duplicate_system msgs ts key).1 out ->
  (collapse_duplicate_system out ts key).1 = out.
Proof.
  intros Hrw. pose proof (collapse_system_preserved ts key msgs) as (Hk & _ & Hsys).
  unfold collapse_duplicate_system in *.
  change (fun m => str_eqb (msg_role m) (lit "system")) with is_sys in *.
  destruct (find_index is_sys msgs) as [[f ref]|] eqn:Ef.
  - set (g := collapse_system_message ref key) in *.
    assert (Forall (system_settled ref key)
              (take (ts - S f) (map_before g (ts - S f) (drop (S f) msgs)).1)) as Hset.
    { apply map_before_settled; [apply system_resettled|]. intros m Hm. by left. }
    destruct (map_before g (ts - S f) (drop (S f) msgs)) as [rest c]. cbn [fst] in *.
    pose proof (find_index_Some _ _ _ _ Ef) as (Hlk & _). apply lookup_lt_Some in Hlk as Hlt.
    destruct (find_index_kept _ _ Hk f ref Ef) as [m' Hm'].
    pose proof (find_index_Some _ _ _ _ Hm') as (Hlk' & _). rewrite (Hsys f ref eq_refl) in Hlk'.
    injection Hlk' as <-. rewrite (find_index_rewrites _ _ Hrw), Hm'. fold g.
    assert (Forall (system_settled ref key) (take (ts - S f) (drop (S f) out))) as Hset'.
    { apply Forall2_app_inv_l in Hrw as (o1 & o2 & Ho1 & Ho2 & ->).
      apply Forall2_length in Ho1. rewrite length_take in Ho1.
      rewrite drop_app_length' by lia. revert Hset Ho2. generalize (ts - S f)%nat as n. clear.
      intros n Hset H. revert n Hset. induction H as [|a b r o Hab _ IH]; intros [|n]; cbn; try done.
      rewrite !Forall_cons. intros [Ha Hr]. split; [by eapply system_settled_rewrites|by apply IH]. }
    apply (map_before_id g) in Hset'. destruct (map_before g (ts - S f) (drop (S f) out)). cbn in *.
    subst. apply take_drop.
  - cbn [fst] in *. by rewrite (find_index_rewrites _ _ Hrw), Ef.
Qed.

Lemma Forall2_rewrites_trans a b c : Forall2 rewrites a b -> Forall2 rewrites b c -> Forall2 rewrites a c.
Proof.
  intros H. revert c. induction H as [|x y a b Hxy _ IH]; intros c Hbc; inversion Hbc; subst; constructor.
  - match goal with Hyz : rewrites y _ |- _ => destruct Hxy as [->|[Hk Hs]], Hyz as [->|[Hk' Hs']] end.
    + by left.
    + by right.
    + by right.
    + right. split; [by eapply kept_trans|done].
  - by apply IH.
Qed.

(** ** The whole run *)

Definition settled (m : Value) : Prop := normalize_message m = None.

Lemma settled_step ts a b : Forall2 (fun m m' => m' = m \/ settled m') a b ->
  Forall settled (take ts a) -> Forall settled (take ts b).
Proof.
  intros H. revert ts. induction H as [|m m' a b Hm _ IH]; intros [|ts]; cbn; try done.
  rewrite !Forall_cons. intros [Ha Hr]. split; [by destruct Hm as [->|]|by apply IH].
Qed.

Lemma system_stub_settled reference key m m' :
  collapse_system_message reference key m = Some m' -> settled m'.
Proof.
  intros H. apply system_message_kept in H as [Hr _]. unfold settled, normalize_message. by rewrite Hr.
Qed.

Lemma duplicate_stub_settled key role content m m' :
  duplicate_stub key role content m = Some m' -> settled m'.
Proof.
  unfold duplicate_stub. case_match; [done|]. intros [= <-].
  eapply stub_content_settled; [apply stub_message_content|apply audit_stub_prefix].
Qed.

Lemma tool_stub_content th key m m' : stub_tool_message th key m = Some m' ->
  exists c, msg_content_str m' = Some c /\ starts_with STUB_PREFIX c = true /\ is_machine_stub key c = true.
Proof.
  unfold stub_tool_message. intros H. repeat break_hyp H; try done. injection H as <-.
  eexists. split; [by apply insert_content|].
  split; [apply tag_stub_prefix|apply tag_stub_recognised]; apply stub_text_prefix.
Qed.

Lemma tool_stub_settled th key m m' : stub_tool_message th key m = Some m' -> settled m'.
Proof.
  intros H. destruct (tool_stub_content _ _ _ _ H) as (c & Hc & Hp & _).
  by eapply stub_content_settled.
Qed.

Lemma tool_stub_done th key m m' : stub_tool_message th key m = Some m' ->
  stub_tool_message th key m' = None.
Proof.
  intros H. destruct (tool_stub_content _ _ _ _ H) as (c & Hc & _ & Hs).
  unfold stub_tool_message. case_match; [done|]. by rewrite Hc, Hs.
Qed.

Lemma apply_if_fst b pass st : (apply_if b pass st).1 = if b then (pass st.1).1 else st.1.
Proof. unfold apply_if. destruct b; [|done]. by destruct (pass st.1). Qed.

Lemma collapse_system_rel (R : Value -> Value -> Prop) ts key msgs : (forall m, R m m) ->
  (forall reference m m', collapse_system_message reference key m = Some m' -> R m m') ->
  Forall2 R msgs (collapse_duplicate_system msgs ts key).1.
Proof.
  intros Hr Hs. assert (forall l, Forall2 R l l) as Hl by (induction l; by constructor).
  unfold collapse_duplicate_system. destruct (find_index _ msgs) as [[f ref]|]; [|apply Hl].
  pose proof (map_before_rel R (collapse_system_message ref key) (ts - S f) (drop (S f) msgs) Hr
                (Hs ref)) as H.
  destruct (map_before _ _ _) as [rest c]. cbn [fst] in *.
  rewrite <- (take_drop (S f) msgs) at 1. by apply Forall2_app.
Qed.

(** The passes that run when the middle of the history is left alone. *)
Definition four_passes (cfg : CompressionConfig) (ts : nat) (msgs : list Value) : list Value :=
  let key := marker_key cfg in
  let x1 := if normalize_json cfg then (normalize_json_content msgs ts).1 else msgs in
  let x2 := (collapse_duplicate_system x1 ts key).1 in
  let x3 := if collapse_duplicates cfg
            then (collapse_duplicate_messages default_hash x2 ts key).1 else x2 in
  (stub_stale_tool_outputs x3 ts (tool_output_stub_threshold cfg) key).1.

Lemma run_passes_four payload cfg tokens msgs : summarize_middle cfg = false ->
  (run_passes default_hash payload cfg tokens msgs).1 =
  four_passes cfg (length msgs - keep_tail cfg) msgs.
Proof. intros Hm. unfold run_passes. cbn zeta. rewrite Hm. cbn [andb]. by rewrite !apply_if_fst. Qed.

(** Without the middle pass, a second run of the passes changes no message. *)
Lemma four_passes_twice cfg ts msgs :
  four_passes cfg ts (four_passes cfg ts msgs) = four_passes cfg ts msgs.
Proof.
  set (key := marker_key cfg). set (th := tool_output_stub_threshold cfg).
  set (x1 := if normalize_json cfg then (normalize_json_content msgs ts).1 else msgs).
  set (x2 := (collapse_duplicate_system x1 ts key).1).
  set (x3 := if collapse_duplicates cfg
             then (collapse_duplicate_messages default_hash x2 ts key).1 else x2).
  set (x4 := (stub_stale_tool_outputs x3 ts th key).1).
  change (four_passes cfg ts msgs) with x4.
  assert (Forall2 rewrites x2 x3) as H23.
  { unfold x3. destruct (collapse_duplicates cfg); [|apply rewrites_refl].
    apply collapse_loop_rel; [by left|]. intros m role content m' Hc Hs. right. by eapply duplicate_kept. }
  assert (Forall2 rewrites x3 x4) as H34.
  { apply map_before_rel; [by left|]. intros m m' H. right. by eapply stub_tool_kept. }
  assert ((if normalize_json cfg then (normalize_json_content x4 ts).1 else x4) = x4) as N4.
  { destruct (normalize_json cfg) eqn:En; [|done]. apply map_before_id.
    assert (Forall settled (take ts x1)) as Hx1.
    { unfold x1. apply map_before_settled; [apply normalize_settled|done]. }
    assert (Forall settled (take ts x4)) as H; [|eapply Forall_impl; [exact H|]; intros m Hm; by left].
    eapply (settled_step ts x3); [apply map_before_rel; [by left|];
      intros m m' H; right; by eapply tool_stub_settled|].
    eapply (settled_step ts x2); [|eapply (settled_step ts x1); [|exact Hx1]].
    - unfold x3. destruct (collapse_duplicates cfg).
      + apply collapse_loop_rel; [by left|]. intros m role content m' _ Hs. right.
        by eapply duplicate_stub_settled.
      + clear. induction x2; constructor; [by left|done].
    - apply collapse_system_rel; [by left|]. intros r m m' H. right. by eapply system_stub_settled. }
  assert ((collapse_duplicate_system x4 ts key).1 = x4) as S4.
  { eapply collapse_system_fixed. by eapply Forall2_rewrites_trans. }
  assert ((if collapse_duplicates cfg
           then (collapse_duplicate_messages default_hash x4 ts key).1 else x4) = x4) as D4.
  { destruct (collapse_duplicates cfg) eqn:Ed; [|done]. apply collapse_loop_tools.
    unfold x3. apply collapse_loop_twice. }
  assert ((stub_stale_tool_outputs x4 ts th key).1 = x4) as T4.
  { apply map_before_id. apply map_before_settled; [|by left].
    intros m m' H. left. by eapply tool_stub_done. }
  unfold four_passes. fold key th. rewrite N4, S4, D4. exact T4.
Qed.
End Idempotence.

Lemma value_reinsert k v x y : value_insert k y (value_insert k x v) = value_insert k y v.
Proof.
  destruct v as [| | | | |m]; try done. cbn. f_equal.
  induction m as [|[k' w] m IH]; cbn; [by rewrite str_eqb_refl|].
  destruct (str_eqb k' k) eqn:E; cbn; rewrite E; [done|]. by rewrite IH.
Qed.

Lemma value_get_insert k v x : is_object v = true -> value_get k (value_insert k x v) = Some x.
Proof.
  destruct v as [| | | | |m]; try done. intros _. cbn.
  induction m as [|[k' w] m IH]; cbn; [by rewrite str_eqb_refl|].
  destruct (str_eqb k' k) eqn:E; cbn; rewrite E; done.
Qed.

Lemma bind_as_array o l : o ≫= as_array = Some l -> o = Some (Array l).
Proof. destruct o as [[]|]; cbn; congruence. Qed.

Lemma compress_cases {SJ : SerdeJson} {SHA : Sha256} {HM : HmacSha256} default_hash payload cfg :
  let out := out_payload (compress default_hash payload cfg) in
  out = payload \/
  exists msgs, value_get (lit "messages") payload = Some (Array msgs) /\
    out = value_insert (lit "messages")
            (Array (run_passes default_hash payload cfg (approx_tokens (to_string payload)) msgs).1)
            payload.
Proof.
  cbn zeta. unfold compress.
  destruct (value_get (lit "messages") payload ≫= as_array) as [msgs|] eqn:Em; [|by left].
  apply bind_as_array in Em. destruct (_ || _); [by left|].
  destruct (run_passes _ _ _ _ _) as [out changed] eqn:Er. destruct changed; cbn [negb]; [|by left].
  destruct (_ >? _); [by left|]. right. exists msgs. split; [done|]. by rewrite Er.
Qed.

(** Compression is idempotent when the middle pass is off: compressing an
    already compressed payload returns it unchanged. *)
Theorem compress_idempotent {SJ : SerdeJson} {JL : JsonTextLaws} {SHA : Sha256} {HM : HmacSha256}
    (default_hash : str -> str -> Z) (payload : Value) (cfg : CompressionConfig) :
  summarize_middle cfg = false ->
  let once := out_payload (compress default_hash payload cfg) in
  out_payload (compress default_hash once cfg) = once.
Proof.
  intros Hm. cbn zeta. destruct (compress_cases default_hash payload cfg) as [Hsame|(msgs & Hget & Hout)].
  { by rewrite !Hsame. }
  rewrite Hout. rewrite run_passes_four in * by done.
  set (x := four_passes default_hash cfg (length msgs - keep_tail cfg) msgs) in *.
  set (p' := value_insert (lit "messages") (Array x) payload).
  assert (length x = length msgs) as Hlen.
  { unfold x. rewrite <- (run_passes_four default_hash payload cfg 0) by done.
    symmetry. eapply Forall2_length. apply run_passes_preserved. }
  destruct (compress_cases default_hash p' cfg) as [->|(msgs' & Hget' & ->)]; [done|].
  assert (is_object payload = true) as Hobj by (by destruct payload).
  unfold p' in Hget'. rewrite value_get_insert in Hget' by done. injection Hget' as <-.
  rewrite run_passes_four by done. rewrite Hlen. unfold x at 1. rewrite four_passes_twice.
  apply value_reinsert.
Qed.

(** * Evaluation *)

Definition toy_hmac : HmacSha256 :=
  {| hmac k m := toy_digest (k ++ m); hmac_length k m := toy_digest_length (k ++ m);
     hmac_byte k m := toy_digest_byte (k ++ m) |}.

(** A printer that shows the string contents, and a reader of nothing. *)
Fixpoint toy_print (v : Value) : str :=
  match v with
  | JString s => s
  | Array l => List.concat (map toy_print l)
  | Object m => List.concat (map (fun kv => match kv with (k, x) => k ++ [58] ++ toy_print x ++ [44] end) m)
  | _ => [48]
  end.

Definition toy_printer : SerdeJson := {| from_bytes _ := Err []; to_string := toy_print |}.

Definition toy_text_laws : @JsonTextLaws toy_printer.
Proof. by split. Defined.

Definition toy_payload : Value :=
  Object [(lit "messages", Array [stub_message (lit "tool") (replicate 900 33);
                                  stub_message (lit "user") (lit "go")])].

Definition toy_cfg : CompressionConfig := mkCompressionConfig 1 128 true true 512 false 300 (Some [1; 2]).

Definition toy_compress : Value -> CompressionConfig -> CompressionOutcome :=
  @compress toy_printer toy_sha256 toy_hmac (fun _ _ => 0).

Lemma compress_idempotent_witness :
  out_payload (toy_compress (out_payload (toy_compress toy_payload toy_cfg)) toy_cfg)
  = out_payload (toy_compress toy_payload toy_cfg).
Proof.
  exact (@compress_idempotent toy_printer toy_text_laws toy_sha256 toy_hmac (fun _ _ => 0)
           toy_payload toy_cfg eq_refl).
Defined.

Lemma toy_scalar : Forall is_scalar (lit "[pruned: 3]").
Proof. repeat constructor; unfold is_scalar; cbn; lia. Defined.

Lemma machine_stub_authentic_witness :
  @is_machine_stub toy_hmac (Some [1]) (@tag_stub toy_hmac (Some [1]) (lit "[pruned: 3]")) = true.
Proof.
  exact (proj2 (@machine_stub_authentic toy_hmac [1] (lit "[pruned: 3]") (lit "[pruned: 3]")
                  toy_scalar) eq_refl).
Defined.
