(* ===== verification/Rpc.v ===== *)
(** The JSON-RPC trust boundary of the sandbox ([av-sandbox]: [denial_code.rs]
    and [rpc.rs]): size, duplicate-key, trailing-content and depth gates, the
    MCP [tools/call] envelope, and the error responses. *)

From S2P Require Import Prelude Rust CoreBase Json Core.

(** * denial_code.rs *)

Inductive DenialCode :=
| ParseError | PassthroughRefused | SchemaViolation | SchemaMissing | PolicyDenied
| BudgetExceeded | BudgetError | UnmappedTool | MissionExpired | MissionDenied
| ScopeInsufficient | TokenRevoked | NoBackend | IntentTokenError | PayoutInvalid
| PdpDenied.

#[global] Instance DenialCode_eq_dec : EqDecision DenialCode.
Proof. solve_decision. Defined.

Definition denial_as_str (c : DenialCode) : str :=
  match c with
  | ParseError => lit "PARSE_ERROR"
  | PassthroughRefused => lit "PASSTHROUGH_REFUSED"
  | SchemaViolation => lit "SCHEMA_VIOLATION"
  | SchemaMissing => lit "SCHEMA_MISSING"
  | PolicyDenied => lit "POLICY_DENIED"
  | BudgetExceeded => lit "BUDGET_EXCEEDED"
  | BudgetError => lit "BUDGET_ERROR"
  | UnmappedTool => lit "UNMAPPED_TOOL"
  | MissionExpired => lit "MISSION_EXPIRED"
  | MissionDenied => lit "MISSION_DENIED"
  | ScopeInsufficient => lit "SCOPE_INSUFFICIENT"
  | TokenRevoked => lit "TOKEN_REVOKED"
  | NoBackend => lit "NO_BACKEND"
  | IntentTokenError => lit "INTENT_TOKEN_ERROR"
  | PayoutInvalid => lit "PAYOUT_INVALID"
  | PdpDenied => lit "PDP_DENIED"
  end.

(** * The JSON reader *)

(** What a JSON text delivers to a visitor, in document order: scalars,
    sequences and maps with every member (repeated names included), each of
    which may stop at a syntax error. *)
Inductive Raw :=
| RLeaf (v : Value)
| RSeq (items : list Raw) (stop : option str)
| RMap (members : list (str * Raw)) (stop : option str)
| RFail (msg : str).

(** The document a reader builds when, of repeated names, the last value is
    kept in the first one's place ([serde_json]). *)
Fixpoint last_wins (r : Raw) : Value :=
  match r with
  | RLeaf v => v
  | RSeq items _ => Array (map last_wins items)
  | RMap members _ =>
      Object (fold_left (fun m kv => map_insert kv.1 kv.2 m)
                (map (fun kr => match kr with (k, x) => (k, last_wins x) end) members) [])
  | RFail _ => Null
  end.

(** ... or when the first value is kept (other decoders). *)
Definition insert_if_absent (m : list (str * Value)) (kv : str * Value) : list (str * Value) :=
  if contains_key kv.1 m then m else m ++ [kv].

Fixpoint first_wins (r : Raw) : Value :=
  match r with
  | RLeaf v => v
  | RSeq items _ => Array (map first_wins items)
  | RMap members _ =>
      Object (fold_left insert_if_absent
                (map (fun kr => match kr with (k, x) => (k, first_wins x) end) members) [])
  | RFail _ => Null
  end.

(** [serde_json::Deserializer]: the events of a text, the error [end()] reports
    for what follows the first value, and how an error raised by a visitor is
    displayed (its text with a position appended).  A text that
    [serde_json::from_slice] accepts is read without an error and yields the
    last-wins document of its events. *)
Class JsonReader {SJ : SerdeJson} := {
  scan : list Z -> Raw;
  end_error : list Z -> option str;
  custom_error : list Z -> str -> str;
  custom_error_prefix raw msg : starts_with msg (custom_error raw msg) = true;
  from_bytes_scan raw v : from_bytes raw = Ok v -> v = last_wins (scan raw);
}.

(** * rpc.rs *)

Record ToolCallRequest := mkRequest {
  req_id : option Value;
  req_tool : str;
  req_arguments : Value;
}.

Inductive RpcError :=
| RpcJson (msg : str)
| NotJsonRpc (msg : str)
| NotToolCall (method : str)
| BadParams (msg : str)
| TooLarge (len bound : Z).

Definition MAX_PAYLOAD_BYTES : Z := 4 * 1024 * 1024.
Definition MAX_JSON_DEPTH : nat := 64.

Section Rpc.
Context {UT : UnicodeTables} {SJ : SerdeJson} {JR : JsonReader}.

Definition rpc_error_to_string (e : RpcError) : str :=
  match e with
  | RpcJson m => lit "invalid JSON: " ++ m
  | NotJsonRpc m => lit "not a JSON-RPC 2.0 request: " ++ m
  | NotToolCall m => lit "method " ++ fmt_debug m ++ lit " is not tools/call"
  | BadParams m => lit "invalid tools/call params: " ++ m
  | TooLarge n b => lit "payload of " ++ fmt_int n ++ lit " bytes exceeds the "
                    ++ fmt_int b ++ lit "-byte bound"
  end.

Fixpoint depth_of (v : Value) (current : nat) {struct v} : nat :=
  if (MAX_JSON_DEPTH <? current)%nat then current
  else
    match v with
    | Array items =>
        match map (fun i => depth_of i (S current)) items with
        | [] => S current
        | d :: ds => fold_left Nat.max ds d
        end
    | Object members =>
        match map (fun kv => match kv with (_, i) => depth_of i (S current) end) members with
        | [] => S current
        | d :: ds => fold_left Nat.max ds d
        end
    | _ => current
    end.

Definition DUP_KEY_SENTINEL : str := lit "__av_sandbox_dup:".

(** An error met by the [NoDupKeys] visitor: its own, or the reader's. *)
Inductive scan_error := DupKey (key : str) | ReadError (msg : str).

Definition stop_result (stop : option str) : result unit scan_error :=
  match stop with Some m => Err (ReadError m) | None => Ok tt end.

(** [visit_seq]: each element in turn, then the end of the sequence. *)
Fixpoint visit_all (items : list (result unit scan_error)) (stop : option str)
  : result unit scan_error :=
  match items with
  | [] => stop_result stop
  | Ok _ :: items' => visit_all items' stop
  | Err e :: _ => Err e
  end.

(** [visit_map]: [seen] is the set of names met so far. *)
Fixpoint visit_members (seen : gset str) (members : list (str * result unit scan_error))
    (stop : option str) : result unit scan_error :=
  match members with
  | [] => stop_result stop
  | (key, r) :: members' =>
      if bool_decide (key ∈ seen) then Err (DupKey key)
      else let? _ := r in visit_members ({[key]} ∪ seen) members' stop
  end.

Fixpoint no_dup_keys (r : Raw) : result unit scan_error :=
  match r with
  | RLeaf _ => Ok tt
  | RSeq items stop => visit_all (map no_dup_keys items) stop
  | RMap members stop =>
      visit_members ∅ (map (fun kr => match kr with (k, x) => (k, no_dup_keys x) end) members) stop
  | RFail msg => Err (ReadError msg)
  end.

Definition scan_error_msg (raw : list Z) (e : scan_error) : str :=
  match e with
  | DupKey key =>
      custom_error raw (DUP_KEY_SENTINEL ++ lit "duplicate object key `" ++ escape_debug key ++ lit "`")
  | ReadError m => m
  end.

Definition reject_duplicate_keys (raw : list Z) : result unit RpcError :=
  match no_dup_keys (scan raw) with
  | Err e =>
      let msg := scan_error_msg raw e in
      match strip_prefix DUP_KEY_SENTINEL msg with
      | Some rest => Err (RpcJson (lit "duplicate JSON key rejected: " ++ rest))
      | None => Err (RpcJson msg)
      end
  | Ok _ =>
      match end_error raw with
      | Some error => Err (RpcJson (lit "trailing content after JSON value: " ++ error))
      | None => Ok tt
      end
  end.

Definition refuse_duplicate_json_keys (raw : list Z) : result unit str :=
  map_err rpc_error_to_string (reject_duplicate_keys raw).

(** [{other:?}] on an [Option<&str>]. *)
Definition fmt_debug_option (o : option str) : str :=
  match o with Some s => lit "Some(" ++ fmt_debug s ++ lit ")" | None => lit "None" end.

Definition is_rpc_id (v : Value) : bool :=
  match v with JString _ | Number _ | Null => true | _ => false end.

(** The checks on [params.name], in order. *)
Definition check_tool_name (tool : str) : result unit RpcError :=
  if contains_bidi_or_zero_width tool then
    Err (BadParams (lit "params.name carries a bidi/zero-width spoofing character"))
  else if existsb (fun c => is_control c || is_whitespace c) tool then
    Err (BadParams (lit "params.name contains a control character or whitespace"))
  else if negb (forallb is_ascii tool) then
    Err (BadParams (lit "params.name must be ASCII: non-ASCII tool names introduce a Unicode-normalization mismatch between this proxy's exact-byte matching and downstream MCP servers that fold NFC/NFKC"))
  else if existsb is_ascii_uppercase tool then
    Err (BadParams (lit "params.name must be lowercase: mixed-case tool names bypass policy deny-lists that use exact-byte matching while downstream MCP servers apply ASCII case folding"))
  else Ok tt.

(** The section sign of the message about the id. *)
Definition bad_id_msg : str :=
  lit "id must be a string, number, or null per JSON-RPC 2.0 " ++ [0xA7] ++ lit "4".

Definition parse_tool_call (raw : list Z) : result ToolCallRequest RpcError :=
  let len := Z.of_nat (length raw) in
  if len >? MAX_PAYLOAD_BYTES then Err (TooLarge len MAX_PAYLOAD_BYTES)
  else
  let? _ := reject_duplicate_keys raw in
  let? v := map_err RpcJson (from_bytes raw) in
  if (MAX_JSON_DEPTH <? depth_of v 0)%nat then
    Err (NotJsonRpc (lit "nesting exceeds depth bound"))
  else
  let? obj := ok_or (as_object v) (NotJsonRpc (lit "root is not an object")) in
  let other := map_get (lit "jsonrpc") obj ≫= as_str in
  if negb (bool_decide (other = Some (lit "2.0"))) then
    Err (NotJsonRpc (lit "jsonrpc field is " ++ fmt_debug_option other
                     ++ lit ", need " ++ [34] ++ lit "2.0" ++ [34]))
  else
  let? method := ok_or (map_get (lit "method") obj ≫= as_str)
                   (NotJsonRpc (lit "method missing or not a string")) in
  if negb (str_eqb method (lit "tools/call")) then Err (NotToolCall method)
  else
  let? params := ok_or (map_get (lit "params") obj ≫= as_object)
                   (BadParams (lit "params missing or not an object")) in
  let? tool := ok_or ((map_get (lit "name") params ≫= as_str) ≫=
                        (fun s => if str_eqb s [] then None else Some s))
                 (BadParams (lit "params.name missing or empty")) in
  let? _ := check_tool_name tool in
  let id := map_get (lit "id") obj in
  if match id with Some i => negb (is_rpc_id i) | None => false end then Err (BadParams bad_id_msg)
  else if negb (bool_decide (is_Some id)) then
    Err (BadParams (lit "tools/call requires an id; JSON-RPC notifications are not accepted"))
  else
  let arguments := default (Object []) (map_get (lit "arguments") params) in
  if negb (is_object arguments) then Err (BadParams (lit "params.arguments must be an object"))
  else Ok (mkRequest id tool arguments).

(** The [json!] object both error builders share. *)
Definition rpc_response (id : option Value) (code : Z) (message : str) (data : list (str * Value))
  : Value :=
  Object [(lit "jsonrpc", JString (lit "2.0"));
          (lit "id", default Null id);
          (lit "error", Object [(lit "code", Number (NegInt code));
                                (lit "message", JString message);
                                (lit "data", Object data)])].

Definition blocked_message : str := lit "tool call blocked by AgentVisor AI policy".

Definition authorization_error (id : option Value) (reason : str) : Value :=
  rpc_response id (-32001) blocked_message [(lit "reason", JString reason)].

Definition denial_error (id : option Value) (code : DenialCode) (reason : str) : Value :=
  rpc_response id (-32001) blocked_message
    [(lit "reason", JString reason); (lit "code", JString (denial_as_str code))].

Definition detectable_error_id (raw : list Z) (error : RpcError) : option Value :=
  match error with
  | NotToolCall _ | BadParams _ =>
      match from_bytes raw with
      | Ok value =>
          match as_object value ≫= map_get (lit "id") with
          | Some id => if is_rpc_id id then Some id else None
          | None => None
          end
      | Err _ => None
      end
  | _ => None
  end.

Definition protocol_error (id : option Value) (error : RpcError) : Value :=
  let respond code message :=
    rpc_response id code message
      [(lit "reason", JString (rpc_error_to_string error));
       (lit "code", JString (denial_as_str ParseError))] in
  match error with
  | RpcJson _ => respond (-32700) (lit "parse error")
  | NotJsonRpc _ | TooLarge _ _ => respond (-32600) (lit "invalid request")
  | BadParams _ => respond (-32602) (lit "invalid params")
  | NotToolCall _ => denial_error id PassthroughRefused (rpc_error_to_string error)
  end.
End Rpc.
