(* ===== verification/RpcProofs.v ===== *)
(** Properties of the JSON-RPC trust boundary: an accepted payload reads the same
    to decoders that resolve repeated names differently, its tool name is in
    canonical form, and the depth gate is exact. *)

From S2P Require Import Prelude Rust CoreBase Json Core CoreProofs Rpc.

(** * Documents without repeated names *)

Section RawInd.
Variable P : Raw -> Prop.
Hypothesis HLeaf : forall v, P (RLeaf v).
Hypothesis HSeq : forall items stop, Forall P items -> P (RSeq items stop).
Hypothesis HMap : forall members stop, Forall (fun kr => P kr.2) members -> P (RMap members stop).
Hypothesis HFail : forall msg, P (RFail msg).

Fixpoint raw_ind' (r : Raw) : P r :=
  match r with
  | RLeaf v => HLeaf v
  | RSeq items stop =>
      HSeq items stop
        ((fix go (l : list Raw) : Forall P l :=
            match l with
            | [] => Forall_nil_2 _
            | x :: l' => Forall_cons_2 _ _ _ (raw_ind' x) (go l')
            end) items)
  | RMap members stop =>
      HMap members stop
        ((fix go (l : list (str * Raw)) : Forall (fun kr => P kr.2) l :=
            match l with
            | [] => Forall_nil_2 _
            | (k, x) :: l' => Forall_cons_2 (fun kr => P kr.2) (k, x) _ (raw_ind' x) (go l')
            end) members)
  | RFail msg => HFail msg
  end.
End RawInd.

Section Unambiguous.

Lemma visit_all_ok items stop : visit_all items stop = Ok tt ->
  Forall (fun r => r = Ok tt) items /\ stop = None.
Proof.
  induction items as [|[[]|] items IH]; cbn; [by destruct stop|..]; [|done].
  intros H. destruct (IH H). by split; [constructor|].
Qed.

Lemma visit_members_ok seen members stop : visit_members seen members stop = Ok tt ->
  NoDup (map fst members) /\ (forall k, k ∈ map fst members -> k ∉ seen) /\
  Forall (fun kr => kr.2 = Ok tt) members /\ stop = None.
Proof.
  revert seen. induction members as [|[k r] members IH]; intros seen; cbn.
  - destruct stop; [done|]. intros _. repeat split; try constructor; try done.
    intros k Hk. by apply not_elem_of_nil in Hk.
  - destruct (bool_decide (k ∈ seen)) eqn:Ek; [done|]. destruct r as [[]|]; [|done]. intros H.
    apply IH in H as (Hn & Hs & Hf & ->). b2p. split; [|split; [|split; [|done]]].
    + constructor; [|done]. intros Hin. apply (Hs k Hin). set_solver.
    + intros k' Hk'. apply elem_of_cons in Hk' as [->|Hk']; [done|].
      specialize (Hs k' Hk'). set_solver.
    + by constructor.
Qed.

Lemma contains_fresh k m : k ∉ map fst m -> contains_key k m = false.
Proof.
  unfold contains_key. induction m as [|[k' w] m IH]; cbn; [done|]. intros H.
  apply not_elem_of_cons in H as [Hk H]. rewrite (proj2 (str_eqb_neq k' k)) by congruence.
  by apply IH.
Qed.

Lemma fold_fresh (f : list (str * Value) -> str * Value -> list (str * Value)) l acc :
  (forall m kv, kv.1 ∉ map fst m -> f m kv = m ++ [kv]) ->
  NoDup (map fst (acc ++ l)) -> fold_left f l acc = acc ++ l.
Proof.
  intros Hf. revert acc. induction l as [|[k v] l IH]; intros acc Hn; cbn; [by rewrite app_nil_r|].
  rewrite Hf.
  - rewrite IH; rewrite <- app_assoc; [done|exact Hn].
  - rewrite map_app in Hn. apply NoDup_app in Hn as (_ & Hn & _). intros Hin.
    apply (Hn _ Hin). cbn. by left.
Qed.

Definition keyed (f : Raw -> Value) (kr : str * Raw) : str * Value :=
  match kr with (k, x) => (k, f x) end.

Lemma keyed_fst f l : map fst (map (keyed f) l) = map fst l.
Proof. induction l as [|[k x] l IH]; cbn; [done|]. by rewrite IH. Qed.

Lemma unique_readings r : no_dup_keys r = Ok tt -> first_wins r = last_wins r.
Proof.
  induction r as [v|items stop IH|members stop IH|msg] using raw_ind'; intros H.
  - done.
  - cbn [no_dup_keys] in H. apply visit_all_ok in H as [H _]. cbn. f_equal.
    apply map_ext_Forall. rewrite Forall_forall in IH; rewrite Forall_forall in H; apply Forall_forall. intros x Hx. apply IH; [done|].
    apply H. apply list_elem_of_In, in_map, list_elem_of_In. done.
  - cbn [no_dup_keys] in H. apply visit_members_ok in H as (Hn & _ & Hf & _).
    assert (map fst (map (fun kr : str * Raw => match kr with (k, x) => (k, no_dup_keys x) end) members)
            = map fst members) as Hk by (rewrite map_map; apply map_ext; by intros []).
    rewrite Hk in Hn. cbn [first_wins last_wins].
    change (fun kr : str * Raw => match kr with (k, x) => (k, first_wins x) end) with (keyed first_wins).
    change (fun kr : str * Raw => match kr with (k, x) => (k, last_wins x) end) with (keyed last_wins).
    rewrite !fold_fresh; rewrite ?app_nil_l, ?keyed_fst; try done.
    + f_equal. apply map_ext_Forall. rewrite Forall_forall in IH; rewrite Forall_forall in Hf; apply Forall_forall. intros [k x] Hx. cbn. f_equal.
      apply (IH (k, x) Hx). specialize (Hf (k, no_dup_keys x)). apply Hf.
      apply list_elem_of_In. apply in_map_iff. exists (k, x). by split; [|apply list_elem_of_In].
    + intros m kv Hfresh. rewrite map_insert_fresh by done. by destruct kv.
    + intros m kv Hfresh. unfold insert_if_absent. by rewrite contains_fresh.
  - done.
Qed.
End Unambiguous.

(** * The depth gate *)

(** Nesting depth of a document: scalars have depth 0. *)
Fixpoint nesting (v : Value) : nat :=
  match v with
  | Array items => S (list_max (map nesting items))
  | Object members => S (list_max (map (fun kv => match kv with (_, x) => nesting x end) members))
  | _ => 0
  end.

Section Depth.

Lemma fold_max_min (l : list nat) (d c : nat) :
  fold_left Nat.max (map (fun n => Nat.min (c + n) 65) l) (Nat.min (c + d) 65) =
  Nat.min (c + Nat.max d (list_max l)) 65.
Proof.
  revert d. induction l as [|n l IH]; intros d; cbn [map fold_left list_max fold_right].
  - f_equal. lia.
  - replace (Nat.max (Nat.min (c + d) 65) (Nat.min (c + n) 65))
      with (Nat.min (c + Nat.max d n) 65) by lia.
    rewrite IH. change (fold_right Nat.max 0%nat l) with (list_max l). lia.
Qed.

Lemma depth_children (l : list nat) (c : nat) : (c <= 64)%nat ->
  match map (fun n => Nat.min (S c + n) 65) l with
  | [] => S c
  | d :: ds => fold_left Nat.max ds d
  end = Nat.min (c + S (list_max l)) 65.
Proof.
  intros Hc. destruct l as [|n l]; cbn [map]; [cbn; lia|].
  rewrite (fold_max_min l n (S c)). cbn [list_max fold_right].
  change (fold_right Nat.max 0%nat l) with (list_max l). lia.
Qed.

Lemma depth_of_min v c : (c <= 65)%nat -> depth_of v c = Nat.min (c + nesting v) 65.
Proof.
  revert c. induction v as [|b|n|s|l IH|m IH] using value_ind'; intros c Hc;
    cbn [depth_of nesting]; unfold MAX_JSON_DEPTH;
    (destruct (64 <? c)%nat eqn:E; [apply Nat.ltb_lt in E; lia|apply Nat.ltb_ge in E]); try lia.
  - replace (map (fun i => depth_of i (S c)) l)
      with (map (fun n => Nat.min (S c + n) 65) (map nesting l)); [apply depth_children; lia|].
    rewrite map_map. apply map_ext_Forall. eapply Forall_impl; [exact IH|].
    intros x Hx. cbn beta. by rewrite Hx by lia.
  - replace (map (fun kv : str * Value => let (_, i) := kv in depth_of i (S c)) m)
      with (map (fun n => Nat.min (S c + n) 65)
              (map (fun kv : str * Value => let (_, x) := kv in nesting x) m));
      [apply depth_children; lia|].
    rewrite map_map. apply map_ext_Forall. eapply Forall_impl; [exact IH|].
    intros [k x] Hx. cbn in Hx |- *. by rewrite Hx by lia.
Qed.
End Depth.

(** The depth gate is exact although the scan stops early: a document is
    over the bound exactly when its nesting exceeds it. *)
Theorem depth_gate_exact (v : Value) :
  (MAX_JSON_DEPTH <? depth_of v 0)%nat = (64 <? nesting v)%nat.
Proof.
  rewrite depth_of_min by lia. unfold MAX_JSON_DEPTH. cbn [Nat.add].
  apply eq_true_iff_eq. rewrite !Nat.ltb_lt. lia.
Qed.

(** * Accepted calls *)

Section Accepted.
Context {UT : UnicodeTables} {SJ : SerdeJson} {JR : JsonReader}.

(** A character of an accepted tool name: visible ASCII, not upper case. *)
Definition tool_char (c : Z) : Prop := 0x21 <= c <= 0x7e /\ ~ (0x41 <= c <= 0x5a).

Lemma check_tool_name_ok tool : check_tool_name tool = Ok tt -> Forall tool_char tool.
Proof.
  unfold check_tool_name. repeat (case_match; [done|]). intros _. b2p.
  match goal with H : existsb is_ascii_uppercase tool = false |- _ => apply existsb_false_iff in H end.
  match goal with H : existsb (fun c => is_control c || _) tool = false |- _ =>
    apply existsb_false_iff in H end.
  match goal with H : forallb is_ascii tool = true |- _ => apply forallb_true_iff in H end.
  rewrite !Forall_forall in *. intros c Hc.
  repeat match goal with H : forall x, x ∈ tool -> _ |- _ => specialize (H c Hc) end. b2p.
  unfold is_control, is_whitespace, is_ascii, is_ascii_uppercase, tool_char in *.
  repeat match goal with H : (_ && _) = false |- _ => apply andb_false_iff in H end. b2p.
  repeat match goal with H : _ \/ _ |- _ => destruct H end; b2p; lia.
Qed.

(** The request a document carries. *)
Definition carries (v : Value) (req : ToolCallRequest) : Prop :=
  exists obj params,
    v = Object obj /\ map_get (lit "params") obj = Some (Object params) /\
    map_get (lit "jsonrpc") obj = Some (JString (lit "2.0")) /\
    map_get (lit "method") obj = Some (JString (lit "tools/call")) /\
    map_get (lit "id") obj = req_id req /\
    map_get (lit "name") params = Some (JString (req_tool req)) /\
    default (Object []) (map_get (lit "arguments") params) = req_arguments req.

Lemma ok_or_Ok {A E} (o : option A) (e : E) a : ok_or o e = Ok a -> o = Some a.
Proof. destruct o; cbn; congruence. Qed.

Lemma bind_as_str o s : o ≫= as_str = Some s -> o = Some (JString s).
Proof. destruct o as [[]|]; cbn; congruence. Qed.

Lemma bind_as_object o m : o ≫= as_object = Some m -> o = Some (Object m).
Proof. destruct o as [[]|]; cbn; congruence. Qed.

Lemma parse_tool_call_inv raw req : parse_tool_call raw = Ok req ->
  Z.of_nat (length raw) <= MAX_PAYLOAD_BYTES /\
  no_dup_keys (scan raw) = Ok tt /\ end_error raw = None /\
  (exists v, from_bytes raw = Ok v /\ (nesting v <= 64)%nat /\ carries v req) /\
  req_tool req <> [] /\ Forall tool_char (req_tool req) /\
  (exists id, req_id req = Some id /\ is_rpc_id id = true) /\
  is_object (req_arguments req) = true.
Proof.
  unfold parse_tool_call. case_match; [done|]. b2p.
  destruct (reject_duplicate_keys raw) as [[]|] eqn:Ed; [|done].
  unfold reject_duplicate_keys in Ed. destruct (no_dup_keys (scan raw)) as [[]|] eqn:En;
    [|by case_match]. destruct (end_error raw) eqn:Ee; [done|].
  destruct (from_bytes raw) as [v|] eqn:Ev; [|done]. cbn [map_err].
  rewrite depth_gate_exact. destruct (64 <? nesting v)%nat eqn:En'; [done|]. apply Nat.ltb_ge in En'.
  destruct (as_object v) as [obj|] eqn:Eo; [|done]. cbn [ok_or].
  destruct v; try done. injection Eo as ->.
  case_match eqn:Ej; [done|]. b2p. apply bind_as_str in Ej.
  destruct (ok_or (map_get (lit "method") obj ≫= as_str) _) as [method|] eqn:Em; [|done].
  apply ok_or_Ok, bind_as_str in Em. case_match eqn:Et; [done|]. b2p. apply str_eqb_eq in Et as ->.
  destruct (ok_or (map_get (lit "params") obj ≫= as_object) _) as [params|] eqn:Ep; [|done].
  apply ok_or_Ok, bind_as_object in Ep.
  destruct (ok_or ((map_get (lit "name") params ≫= as_str) ≫= _) _) as [tool|] eqn:En2; [|done].
  apply ok_or_Ok, bind_Some in En2 as (tool' & Hname & En2). apply bind_as_str in Hname.
  destruct (str_eqb tool' []) eqn:Ene; [done|]. injection En2 as ->. apply str_eqb_neq in Ene.
  destruct (check_tool_name tool) as [[]|] eqn:Ec; [|done]. apply check_tool_name_ok in Ec.
  destruct (map_get (lit "id") obj) as [id|] eqn:Ei; [|done].
  destruct (negb (is_rpc_id id)) eqn:Eid; [done|]. cbn [negb bool_decide decide].
  case_match; [done|]. case_match; [done|]. intros [= <-]. b2p. cbn [req_id req_tool req_arguments].
  split; [lia|]. split; [done|]. split; [done|]. split.
  - exists (Object obj). split; [done|]. split; [done|]. exists obj, params. done.
  - split; [done|]. split; [done|]. split; [by eexists|done].
Qed.
End Accepted.


(** Every accepted call is bounded (4 MiB, nesting 64), carries a string,
    number or null id and object arguments, and names its tool in canonical
    form: non-empty visible ASCII without upper-case letters or spoofing code
    points, so exact-byte policy matching cannot be bypassed by spelling. *)
Theorem parse_tool_call_canonical {UT : UnicodeTables} {SJ : SerdeJson} {JR : JsonReader}
    (raw : list Z) (req : ToolCallRequest) :
  parse_tool_call raw = Ok req ->
  Z.of_nat (length raw) <= 4194304 /\
  (exists v, from_bytes raw = Ok v /\ (nesting v <= 64)%nat) /\
  req_tool req <> [] /\ Forall tool_char (req_tool req) /\
  contains_bidi_or_zero_width (req_tool req) = false /\
  (exists id, req_id req = Some id /\ is_rpc_id id = true) /\
  is_object (req_arguments req) = true.
Proof.
  intros H. apply parse_tool_call_inv in H as (Hl & _ & _ & (v & Hv & Hn & _) & Hne & Ht & Hid & Ha).
  repeat (split; [first [done|by eexists]|]). split; [|done].
  apply visible_no_spoofing, forallb_true_iff. eapply Forall_impl; [exact Ht|].
  intros c [Hc _]. unfold Ids.visible_ascii. apply andb_true_iff. rewrite !Z.leb_le. lia.
Qed.

(** * A concrete reader *)

(** A reader of a single text (written with [~] for the quotes), enough to
    evaluate the parser. *)
Definition toy_text : list Z :=
  map (fun c => if c =? 126 then 34 else c) (lit "{~jsonrpc~:~2.0~,~id~:1,~method~:~tools/call~,~params~:{~name~:~db_write~,~arguments~:{~amount_usd~:2}}}").

Definition toy_events : Raw :=
  RMap [(lit "jsonrpc", RLeaf (JString (lit "2.0"))); (lit "id", RLeaf (Number (PosInt 1)));
        (lit "method", RLeaf (JString (lit "tools/call")));
        (lit "params", RMap [(lit "name", RLeaf (JString (lit "db_write")));
                             (lit "arguments",
                               RMap [(lit "amount_usd", RLeaf (Number (PosInt 2)))] None)] None)] None.

Definition toy_serde : SerdeJson :=
  {| from_bytes raw := if bool_decide (raw = toy_text) then Ok (last_wins toy_events)
                       else Err (lit "expected value");
     to_string _ := [] |}.

Definition toy_scan (raw : list Z) : Raw :=
  if bool_decide (raw = toy_text) then toy_events else RFail (lit "expected value").

Lemma toy_scan_ok raw v : @from_bytes toy_serde raw = Ok v -> v = last_wins (toy_scan raw).
Proof. unfold toy_scan. cbn -[toy_text]. case_match; [|done]. by intros [= <-]. Qed.

Definition toy_reader : @JsonReader toy_serde :=
  {| scan := toy_scan; end_error _ := None; custom_error _ msg := msg ++ lit " at line 1 column 1";
     custom_error_prefix _ msg := starts_with_app msg _; from_bytes_scan := toy_scan_ok |}.

Definition toy_request : ToolCallRequest :=
  mkRequest (Some (Number (PosInt 1))) (lit "db_write") (Object [(lit "amount_usd", Number (PosInt 2))]).

Lemma toy_parse : @parse_tool_call ascii_tables toy_serde toy_reader toy_text = Ok toy_request.
Proof. vm_compute. reflexivity. Qed.


Lemma parse_tool_call_canonical_witness : Forall tool_char (lit "db_write").
Proof.
  exact (proj1 (proj2 (proj2 (proj2 (@parse_tool_call_canonical ascii_tables toy_serde toy_reader
           toy_text toy_request toy_parse))))).
Defined.
