(* ===== verification/Store.v ===== *)
(** [av-state/src/store.rs]: the [StateStore] trait, the contract every backend
    promises (an abstract ledger of counters), and [InMemoryStore], its
    single-node implementation. *)

From S2P Require Import Prelude Rust CoreBase.

(** * Data *)

Inductive StateError :=
| Overflow (key : str)
| Backend (msg : str).

Record Spend := mkSpend { sp_key : str; sp_amount : Z; sp_limit : Z }.

Record Refund := mkRefund { rf_key : str; rf_amount : Z }.

Inductive TrySpendOutcome :=
| Committed (post_commit_min_remaining : Z)
| Refused (index : nat).

#[global] Instance StateError_eq_dec : EqDecision StateError.
Proof. solve_decision. Defined.
#[global] Instance Spend_eq_dec : EqDecision Spend.
Proof. solve_decision. Defined.
#[global] Instance TrySpendOutcome_eq_dec : EqDecision TrySpendOutcome.
Proof. solve_decision. Defined.

(** The fields are [u64] values. *)
Definition spend_typed (sp : Spend) : Prop := is_u64 (sp_amount sp) /\ is_u64 (sp_limit sp).

(** * The trait *)

(** [trait StateStore].  [&self] with interior mutability is explicit state
    passing: an operation returns the store after it. *)
Class StateStore (St : Type) := {
  st_add : St -> str -> Z -> St * result Z StateError;
  st_fetch_max : St -> str -> Z -> St * result Z StateError;
  st_get : St -> str -> result Z StateError;
  st_try_spend_many : St -> list Spend -> St * result TrySpendOutcome StateError;
  st_remove : St -> str -> St;
  st_refund : St -> str -> Z -> St;
  st_refund_many : St -> list Refund -> St;
  st_remove_prefix : St -> str -> St;
}.

(** The trait's default [try_spend], routed through [try_spend_many]. *)
Definition try_spend `{StateStore St} (s : St) (key : str) (amount limit : Z)
  : St * result bool StateError :=
  let '(s', r) := st_try_spend_many s [mkSpend key amount limit] in
  (s', match r with
       | Ok (Committed _) => Ok true
       | Ok (Refused _) => Ok false
       | Err e => Err e
       end).

(** [refuse_duplicate_spend_keys]: the [HashSet] of keys seen so far. *)
Section Duplicates.
Context {UT : UnicodeTables}.

Definition duplicate_key_msg (k : str) : str :=
  lit "try_spend_many received duplicate key " ++ fmt_debug k.

Fixpoint refuse_duplicates_loop (seen : gset str) (spends : list Spend)
  : result unit StateError :=
  match spends with
  | [] => Ok tt
  | sp :: rest =>
      if bool_decide (sp_key sp ∈ seen) then Err (Backend (duplicate_key_msg (sp_key sp)))
      else refuse_duplicates_loop ({[sp_key sp]} ∪ seen) rest
  end.

Definition refuse_duplicate_spend_keys (spends : list Spend) : result unit StateError :=
  refuse_duplicates_loop ∅ spends.
End Duplicates.

(** * InMemoryStore *)

Module InMemory.

Definition COUNTER_MAX : Z := JCS_SAFE_MAX.

(** [counters: DashMap<String, Arc<AtomicI64>>].  Every mutator runs under
    [transaction_lock], so one mutator's effect is one transition here. *)
Record t := mk { counters : gmap str Z }.

Definition new : t := mk ∅.

(** [counters.get(key).map(load).unwrap_or(0)]. *)
Definition load (s : t) (key : str) : Z := default 0 (counters s !! key).

(** [entry(key).or_insert_with(0)]: materialises a missing cell. *)
Definition cell (s : t) (key : str) : t := mk (<[key := load s key]> (counters s)).

Definition store_cell (s : t) (key : str) (v : Z) : t := mk (<[key := v]> (counters s)).

(** [AtomicI64::fetch_add] wraps around. *)
Definition i64_wrap (n : Z) : Z := (n + 2 ^ 63) mod 2 ^ 64 - 2 ^ 63.

Definition fetch_max (s : t) (key : str) (value : Z) : t * result Z StateError :=
  if value >? JCS_SAFE_MAX then (s, Err (Overflow key))
  else
    let s1 := cell s key in
    let current := load s1 key in
    if negb ((0 <=? current) && (current <=? COUNTER_MAX)) then (s1, Err (Overflow key))
    else match i64_of_u64 value with
         | None => (s1, Err (Overflow key))
         | Some v =>
             let prior := current in
             (store_cell s1 key (Z.max prior v), ok_or (u64_of_i64 (Z.max prior v)) (Overflow key))
         end.

Definition add (s : t) (key : str) (delta : Z) : t * result Z StateError :=
  match i64_of_u64 delta with
  | None => (s, Err (Overflow key))
  | Some d =>
      let s1 := cell s key in
      let prev := load s1 key in
      match i64_checked_add prev d with
      | Some new =>
          if new <=? COUNTER_MAX
          then (store_cell s1 key new, ok_or (u64_of_i64 new) (Overflow key))
          else (s1, Err (Overflow key))
      | None => (s1, Err (Overflow key))
      end
  end.

Definition get (s : t) (key : str) : result Z StateError :=
  match counters s !! key with
  | None => Ok 0
  | Some raw =>
      if raw <? 0 then Err (Overflow key) else ok_or (u64_of_i64 raw) (Overflow key)
  end.

(** One entry of the [prepared] vector: key, amount, limit, next value. *)
Record prep := mkPrep { pr_key : str; pr_amount : Z; pr_limit : Z; pr_next : Z }.

(** The validation phase of [try_spend_many]: reads only. *)
Fixpoint validate (s : t) (index : nat) (spends : list Spend) (prepared : list prep)
  : result (list prep + nat) StateError :=
  match spends with
  | [] => Ok (inl prepared)
  | sp :: rest =>
      if sp_amount sp >? JCS_SAFE_MAX then Err (Overflow (sp_key sp))
      else if sp_limit sp >? JCS_SAFE_MAX then Err (Overflow (sp_key sp))
      else
        let? amount := ok_or (i64_of_u64 (sp_amount sp)) (Overflow (sp_key sp)) in
        let? limit := ok_or (i64_of_u64 (sp_limit sp)) (Overflow (sp_key sp)) in
        let current := load s (sp_key sp) in
        let? next := ok_or (i64_checked_add current amount) (Overflow (sp_key sp)) in
        if next >? limit then Ok (inr index)
        else validate s (S index) rest (prepared ++ [mkPrep (sp_key sp) amount limit next])
  end.

(** The commit phase: [cell], [fetch_add], and the running minimum headroom. *)
Fixpoint commit (s : t) (prepared : list prep) (min_remaining : Z) : t * Z :=
  match prepared with
  | [] => (s, min_remaining)
  | p :: rest =>
      let s1 := cell s (pr_key p) in
      let s2 := store_cell s1 (pr_key p) (i64_wrap (load s1 (pr_key p) + pr_amount p)) in
      let remaining := default 0 (u64_of_i64 (i64_wrap (pr_limit p - pr_next p))) in
      commit s2 rest (Z.min min_remaining remaining)
  end.

Definition try_spend_many {UT : UnicodeTables} (s : t) (spends : list Spend)
  : t * result TrySpendOutcome StateError :=
  match refuse_duplicate_spend_keys spends with
  | Err e => (s, Err e)
  | Ok _ =>
      match validate s 0 spends [] with
      | Err e => (s, Err e)
      | Ok (inr index) => (s, Ok (Refused index))
      | Ok (inl prepared) =>
          let '(s', min_remaining) := commit s prepared u64_max in
          (s', Ok (Committed min_remaining))
      end
  end.

Definition remove (s : t) (key : str) : t := mk (delete key (counters s)).

Definition refund (s : t) (key : str) (amount : Z) : t :=
  match counters s !! key with
  | None => s
  | Some prev =>
      let amount := default i64_max (i64_of_u64 amount) in
      store_cell s key (Z.max (i64_sat_sub prev amount) 0)
  end.

Fixpoint refund_loop (s : t) (refunds : list Refund) : t :=
  match refunds with
  | [] => s
  | r :: rest =>
      match counters s !! rf_key r with
      | None => refund_loop s rest
      | Some prev =>
          let amount := default i64_max (i64_of_u64 (rf_amount r)) in
          refund_loop (store_cell s (rf_key r) (Z.max (i64_sat_sub prev amount) 0)) rest
      end
  end.

Definition refund_many (s : t) (refunds : list Refund) : t :=
  match refunds with [] => s | _ => refund_loop s refunds end.

Definition remove_prefix (s : t) (prefix : str) : t :=
  mk (filter (fun kv => starts_with prefix kv.1 = false) (counters s)).

#[export] Instance store {UT : UnicodeTables} : StateStore t := {|
  st_add := add; st_fetch_max := fetch_max; st_get := get;
  st_try_spend_many := try_spend_many; st_remove := remove;
  st_refund := refund; st_refund_many := refund_many;
  st_remove_prefix := remove_prefix;
|}.
End InMemory.

(** * The contract *)

(** What the trait promises, stated on an abstract ledger: a total map from keys
    to counter values, absent keys reading 0. *)
Module Contract.

Abbreviation ledger := (str -> Z).

Definition upd (L : ledger) (key : str) (v : Z) : ledger :=
  fun k => if bool_decide (k = key) then v else L k.

(** A spend is refused outright when a field is past the JCS-safe range,
    and does not fit when it would push the counter above its limit. *)
Definition out_of_range (sp : Spend) : bool :=
  (sp_amount sp >? JCS_SAFE_MAX) || (sp_limit sp >? JCS_SAFE_MAX).
Definition fits (L : ledger) (sp : Spend) : bool :=
  negb (out_of_range sp) && (L (sp_key sp) + sp_amount sp <=? sp_limit sp).

(** All spends of a batch charged at once. *)
Definition charge (L : ledger) (spends : list Spend) : ledger :=
  fun k => L k + foldr Z.add 0
    (map sp_amount (filter (fun sp => sp_key sp = k) spends)).

Definition headroom (L : ledger) (spends : list Spend) : Z :=
  foldr Z.min u64_max (map (fun sp => sp_limit sp - charge L spends (sp_key sp)) spends).

Definition try_spend_many {UT : UnicodeTables} (L : ledger) (spends : list Spend)
  : ledger * result TrySpendOutcome StateError :=
  match refuse_duplicate_spend_keys spends with
  | Err e => (L, Err e)
  | Ok _ =>
      match find_index (fun sp => negb (fits L sp)) spends with
      | Some (i, sp) =>
          (L, if out_of_range sp then Err (Overflow (sp_key sp)) else Ok (Refused i))
      | None => (charge L spends, Ok (Committed (headroom L spends)))
      end
  end.

Definition add (L : ledger) (key : str) (d : Z) : ledger * result Z StateError :=
  let v := L key + d in
  if v <=? JCS_SAFE_MAX then (upd L key v, Ok v) else (L, Err (Overflow key)).

Definition fetch_max (L : ledger) (key : str) (v : Z) : ledger * result Z StateError :=
  if v <=? JCS_SAFE_MAX then (upd L key (Z.max (L key) v), Ok (Z.max (L key) v))
  else (L, Err (Overflow key)).

Definition refund (L : ledger) (key : str) (amount : Z) : ledger :=
  upd L key (sat_sub (L key) amount).

Definition refund_many (L : ledger) (refunds : list Refund) : ledger :=
  fold_left (fun L r => refund L (rf_key r) (rf_amount r)) refunds L.

Definition remove (L : ledger) (key : str) : ledger := upd L key 0.

Definition remove_prefix (L : ledger) (prefix : str) : ledger :=
  fun k => if starts_with prefix k then 0 else L k.
End Contract.

(** Observational equality of ledgers. *)
Definition ledger_eq (L1 L2 : str -> Z) : Prop := forall k, L1 k = L2 k.
Infix "=L" := ledger_eq (at level 70) : av_scope.

(** A backend keeps the contract: [st_view] is the ledger it represents and
    [st_wf] the invariant its operations maintain. *)
Class StateStoreLaws (St : Type) {UT : UnicodeTables} `{StateStore St} := {
  st_wf : St -> Prop;
  st_view : St -> str -> Z;
  st_view_range s k : st_wf s -> 0 <= st_view s k <= JCS_SAFE_MAX;
  st_get_law s k : st_wf s -> st_get s k = Ok (st_view s k);
  st_spend_law s spends : st_wf s -> Forall spend_typed spends ->
    let '(s', r) := st_try_spend_many s spends in
    st_wf s' /\ r = (Contract.try_spend_many (st_view s) spends).2 /\
    st_view s' =L (Contract.try_spend_many (st_view s) spends).1;
  st_add_law s k d : st_wf s -> is_u64 d ->
    let '(s', r) := st_add s k d in
    st_wf s' /\ r = (Contract.add (st_view s) k d).2 /\
    st_view s' =L (Contract.add (st_view s) k d).1;
  st_fetch_max_law s k v : st_wf s -> is_u64 v ->
    let '(s', r) := st_fetch_max s k v in
    st_wf s' /\ r = (Contract.fetch_max (st_view s) k v).2 /\
    st_view s' =L (Contract.fetch_max (st_view s) k v).1;
  st_refund_law s k a : st_wf s -> is_u64 a ->
    st_wf (st_refund s k a) /\ st_view (st_refund s k a) =L Contract.refund (st_view s) k a;
  st_refund_many_law s rs : st_wf s -> Forall (fun r => is_u64 (rf_amount r)) rs ->
    st_wf (st_refund_many s rs) /\
    st_view (st_refund_many s rs) =L Contract.refund_many (st_view s) rs;
  st_remove_law s k : st_wf s ->
    st_wf (st_remove s k) /\ st_view (st_remove s k) =L Contract.remove (st_view s) k;
  st_remove_prefix_law s p : st_wf s ->
    st_wf (st_remove_prefix s p) /\
    st_view (st_remove_prefix s p) =L Contract.remove_prefix (st_view s) p;
}.

(** * Operation sequences *)

(** The mutating operations as data: a schedule of calls from any number of
    clients, in the order in which they take [transaction_lock]. *)
Inductive op :=
| OpAdd (key : str) (delta : Z)
| OpFetchMax (key : str) (value : Z)
| OpSpend (spends : list Spend)
| OpRefund (key : str) (amount : Z)
| OpRefundMany (refunds : list Refund)
| OpRemove (key : str)
| OpRemovePrefix (prefix : str).

Definition op_typed (o : op) : Prop :=
  match o with
  | OpAdd _ d => is_u64 d
  | OpFetchMax _ v => is_u64 v
  | OpSpend l => Forall spend_typed l
  | OpRefund _ a => is_u64 a
  | OpRefundMany l => Forall (fun r => is_u64 (rf_amount r)) l
  | OpRemove _ | OpRemovePrefix _ => True
  end.

Definition run_op `{StateStore St} (s : St) (o : op) : St :=
  match o with
  | OpAdd k d => (st_add s k d).1
  | OpFetchMax k v => (st_fetch_max s k v).1
  | OpSpend l => (st_try_spend_many s l).1
  | OpRefund k a => st_refund s k a
  | OpRefundMany l => st_refund_many s l
  | OpRemove k => st_remove s k
  | OpRemovePrefix p => st_remove_prefix s p
  end.

Definition spec_op {UT : UnicodeTables} (L : str -> Z) (o : op) : str -> Z :=
  match o with
  | OpAdd k d => (Contract.add L k d).1
  | OpFetchMax k v => (Contract.fetch_max L k v).1
  | OpSpend l => (Contract.try_spend_many L l).1
  | OpRefund k a => Contract.refund L k a
  | OpRefundMany l => Contract.refund_many L l
  | OpRemove k => Contract.remove L k
  | OpRemovePrefix p => Contract.remove_prefix L p
  end.
