(* ===== verification/StoreProofs.v ===== *)
(** Theorems about [av-state/src/store.rs]: [InMemoryStore] keeps the contract of
    the [StateStore] trait, and what the contract guarantees to its clients under
    any schedule of operations. *)

From S2P Require Import Prelude Rust CoreBase Store.

Local Arguments JCS_SAFE_MAX : simpl never.
Local Arguments u64_max : simpl never.
Local Arguments i64_max : simpl never.

Lemma JCS_SAFE_MAX_eq : JCS_SAFE_MAX = 9007199254740992.
Proof. reflexivity. Qed.
Lemma u64_max_eq : u64_max = 18446744073709551615.
Proof. reflexivity. Qed.
Lemma i64_max_eq : i64_max = 9223372036854775807.
Proof. reflexivity. Qed.
Lemma i64_min_eq : i64_min = -9223372036854775808.
Proof. reflexivity. Qed.

(** Expose the machine bounds as numerals and finish with [lia]. *)
Ltac bounds :=
  unfold is_u64, is_i64, InMemory.COUNTER_MAX in *;
  rewrite ?JCS_SAFE_MAX_eq, ?u64_max_eq, ?i64_max_eq, ?i64_min_eq in *; lia.

(** * Ledgers *)

#[global] Instance ledger_eq_equiv : Equivalence ledger_eq.
Proof.
  split; [by intros ??|by intros ????|].
  intros x y z H1 H2 k. by rewrite (H1 k).
Qed.

Lemma upd_eq L k v : Contract.upd L k v k = v.
Proof. unfold Contract.upd. by rewrite bool_decide_eq_true_2. Qed.

Lemma upd_ne L k k' v : k' <> k -> Contract.upd L k v k' = L k'.
Proof. intros. unfold Contract.upd. by rewrite bool_decide_eq_false_2. Qed.

#[global] Instance upd_proper : Proper (ledger_eq ==> eq ==> eq ==> ledger_eq) Contract.upd.
Proof. intros L1 L2 HL k ? <- v ? <- k'. unfold Contract.upd. case_bool_decide; [done|apply HL]. Qed.

#[global] Instance fits_proper : Proper (ledger_eq ==> eq ==> eq) Contract.fits.
Proof. intros L1 L2 HL sp ? <-. unfold Contract.fits. by rewrite HL. Qed.

#[global] Instance charge_proper : Proper (ledger_eq ==> eq ==> ledger_eq) Contract.charge.
Proof. intros L1 L2 HL l ? <- k. unfold Contract.charge. by rewrite HL. Qed.

Lemma headroom_ext L1 L2 l : L1 =L L2 -> Contract.headroom L1 l = Contract.headroom L2 l.
Proof.
  intros HL. unfold Contract.headroom. f_equal. apply map_ext. intros sp.
  by rewrite (charge_proper _ _ HL l l eq_refl (sp_key sp)).
Qed.

Section Proper.
Context {UT : UnicodeTables}.

Lemma spec_spend_ext L1 L2 l : L1 =L L2 ->
  (Contract.try_spend_many L1 l).2 = (Contract.try_spend_many L2 l).2 /\
  (Contract.try_spend_many L1 l).1 =L (Contract.try_spend_many L2 l).1.
Proof.
  intros HL. unfold Contract.try_spend_many.
  destruct (refuse_duplicate_spend_keys l); [|done].
  rewrite (find_index_ext _ (fun sp => negb (Contract.fits L2 sp)))
    by (intros; by rewrite HL).
  destruct (find_index _ l) as [[i sp]|]; cbn; [done|].
  rewrite (headroom_ext _ _ _ HL). split; [done|]. by rewrite HL.
Qed.

Lemma spec_refund_many_ext rs L1 L2 : L1 =L L2 ->
  Contract.refund_many L1 rs =L Contract.refund_many L2 rs.
Proof.
  unfold Contract.refund_many. revert L1 L2.
  induction rs as [|r rs IH]; intros L1 L2 HL; cbn; [done|].
  apply IH. unfold Contract.refund. by rewrite (HL (rf_key r)), HL.
Qed.

#[global] Instance spec_op_proper : Proper (ledger_eq ==> eq ==> ledger_eq) spec_op.
Proof.
  intros L1 L2 HL o ? <-. destruct o as [k d|k v|l|k a|l|k|p]; cbn.
  - unfold Contract.add. rewrite (HL k). case_match; cbn; by rewrite HL.
  - unfold Contract.fetch_max. rewrite (HL k). case_match; cbn; by rewrite HL.
  - by apply spec_spend_ext.
  - unfold Contract.refund. by rewrite (HL k), HL.
  - by apply spec_refund_many_ext.
  - unfold Contract.remove. by rewrite HL.
  - intros k. unfold Contract.remove_prefix. by rewrite (HL k).
Qed.
End Proper.

(** * Duplicate keys *)

Section Dup.
Context {UT : UnicodeTables}.

Lemma refuse_duplicates_loop_ok seen l :
  refuse_duplicates_loop seen l = Ok tt <->
  NoDup (map sp_key l) /\ Forall (fun sp => sp_key sp ∉ seen) l.
Proof.
  revert seen. induction l as [|sp l IH]; intros seen; cbn.
  { split; [intros _; split; constructor|done]. }
  case_bool_decide as Hin.
  - split; [done|]. rewrite Forall_cons. naive_solver.
  - rewrite IH, Forall_cons, NoDup_cons, list_elem_of_fmap, !Forall_forall. set_solver.
Qed.

Lemma refuse_duplicates_ok l :
  refuse_duplicate_spend_keys l = Ok tt <-> NoDup (map sp_key l).
Proof.
  unfold refuse_duplicate_spend_keys. rewrite refuse_duplicates_loop_ok.
  split; [by intros [? _]|]. intros; split; [done|]. apply Forall_forall. set_solver.
Qed.
End Dup.

(** * InMemoryStore keeps the contract *)

Module InMemoryFacts.
Import InMemory.

Definition wf (s : t) : Prop := map_Forall (fun _ v => 0 <= v <= COUNTER_MAX) (counters s).

Lemma load_range s k : wf s -> 0 <= load s k <= JCS_SAFE_MAX.
Proof.
  intros Hwf. unfold load. destruct (counters s !! k) as [v|] eqn:E; cbn.
  - apply (Hwf _ _ E).
  - bounds.
Qed.

Lemma load_store_cell s k v k' :
  load (store_cell s k v) k' = Contract.upd (load s) k v k'.
Proof.
  unfold load, store_cell, Contract.upd; cbn. rewrite lookup_insert.
  repeat case_match; repeat case_bool_decide; naive_solver.
Qed.

Lemma load_cell s k k' : load (cell s k) k' = load s k'.
Proof.
  unfold cell. change (load (store_cell s k (load s k)) k' = load s k').
  rewrite load_store_cell. unfold Contract.upd. by case_bool_decide; subst.
Qed.

Lemma wf_store_cell s k v : wf s -> 0 <= v <= COUNTER_MAX -> wf (store_cell s k v).
Proof. intros Hwf Hv. by apply map_Forall_insert_2. Qed.

Lemma wf_cell s k : wf s -> wf (cell s k).
Proof. intros Hwf. apply wf_store_cell; [done|by apply load_range]. Qed.

#[local] Hint Resolve wf_store_cell wf_cell load_range : av.

Lemma i64_checked_add_ok s k a : wf s -> 0 <= a <= JCS_SAFE_MAX ->
  i64_checked_add (load s k) a = Some (load s k + a).
Proof.
  intros Hwf Ha. pose proof (load_range s k Hwf). unfold i64_checked_add.
  rewrite (proj2 (Z.leb_le _ _)), (proj2 (Z.leb_le _ _)) by bounds. done.
Qed.

Lemma i64_of_u64_ok a : a <= JCS_SAFE_MAX -> i64_of_u64 a = Some a.
Proof. intros. unfold i64_of_u64. by rewrite (proj2 (Z.leb_le _ _)) by bounds. Qed.

Lemma u64_of_i64_ok a : 0 <= a -> u64_of_i64 a = Some a.
Proof. intros. unfold u64_of_i64. by rewrite (proj2 (Z.leb_le _ _)). Qed.

Lemma i64_wrap_id n : is_i64 n -> i64_wrap n = n.
Proof. unfold is_i64, i64_min, i64_max, i64_wrap. intros. rewrite Z.mod_small; lia. Qed.

Definition prep_of (s : t) (sp : Spend) : prep :=
  mkPrep (sp_key sp) (sp_amount sp) (sp_limit sp) (load s (sp_key sp) + sp_amount sp).

(** The validation loop finds the first spend that does not fit. *)
Lemma validate_spec s l i acc : wf s -> Forall spend_typed l ->
  validate s i l acc =
    match find_index (fun sp => negb (Contract.fits (load s) sp)) l with
    | Some (j, sp) =>
        if Contract.out_of_range sp then Err (Overflow (sp_key sp)) else Ok (inr (i + j)%nat)
    | None => Ok (inl (acc ++ map (prep_of s) l))
    end.
Proof.
  intros Hwf. revert i acc. induction l as [|sp l IH]; intros i acc Hty; cbn.
  { by rewrite app_nil_r. }
  apply Forall_cons in Hty as [[Hta Htl] Hty].
  assert (Contract.out_of_range sp
          = (sp_amount sp >? JCS_SAFE_MAX) || (sp_limit sp >? JCS_SAFE_MAX)) as Hr by done.
  unfold Contract.fits. destruct (sp_amount sp >? _) eqn:Ea; cbn in Hr.
  { rewrite Hr; cbn. by rewrite Hr. }
  destruct (sp_limit sp >? _) eqn:El; cbn in Hr.
  { rewrite Hr; cbn. by rewrite Hr. }
  rewrite Hr; cbn. b2p.
  rewrite !i64_of_u64_ok by done. cbn. rewrite i64_checked_add_ok by (bounds || done). cbn.
  rewrite Z.gtb_ltb, Z.ltb_antisym.
  destruct (load s (sp_key sp) + sp_amount sp <=? sp_limit sp) eqn:Ef; cbn.
  - rewrite IH by done. destruct (find_index _ l) as [[j x]|].
    + case_match; [done|]. do 2 f_equal. lia.
    + by rewrite <- app_assoc.
  - rewrite Hr. do 2 f_equal. lia.
Qed.

Lemma charge_cons L sp l k :
  Contract.charge L (sp :: l) k
  = Contract.charge (Contract.upd L (sp_key sp) (L (sp_key sp) + sp_amount sp)) l k.
Proof.
  unfold Contract.charge, Contract.upd. rewrite filter_cons.
  case_decide as H; case_bool_decide as H'; subst; cbn; lia || naive_solver.
Qed.

Lemma charge_notin L l k : k ∉ map sp_key l -> Contract.charge L l k = L k.
Proof.
  revert L. induction l as [|sp l IH]; intros L Hk; [unfold Contract.charge; cbn; lia|].
  cbn in Hk. apply not_elem_of_cons in Hk as [Hne Hk].
  rewrite charge_cons, IH by done. by rewrite upd_ne.
Qed.

Lemma charge_at L l sp : NoDup (map sp_key l) -> sp ∈ l ->
  Contract.charge L l (sp_key sp) = L (sp_key sp) + sp_amount sp.
Proof.
  revert L. induction l as [|sp' l IH]; intros L Hnd Hin; [by apply not_elem_of_nil in Hin|].
  cbn in Hnd. apply NoDup_cons in Hnd as [Hni Hnd].
  rewrite charge_cons. apply elem_of_cons in Hin as [->|Hin].
  - by rewrite charge_notin, upd_eq.
  - rewrite IH by done. rewrite upd_ne; [done|]. intros Heq.
    apply Hni. rewrite <- Heq. by apply list_elem_of_fmap_2.
Qed.

(** One step of the commit loop. *)
Lemma commit_step s sp : wf s -> spend_typed sp ->
  sp_limit sp <= JCS_SAFE_MAX -> load s (sp_key sp) + sp_amount sp <= sp_limit sp ->
  let s1 := cell s (sp_key sp) in
  let v := i64_wrap (load s1 (sp_key sp) + sp_amount sp) in
  v = load s (sp_key sp) + sp_amount sp /\ wf (store_cell s1 (sp_key sp) v).
Proof.
  intros Hwf [Ha Hl] Hle Hfit s1 v. pose proof (load_range s (sp_key sp) Hwf).
  assert (v = load s (sp_key sp) + sp_amount sp) as Hv.
  { unfold v, s1. rewrite load_cell. apply i64_wrap_id. bounds. }
  split; [done|]. apply wf_store_cell; [by apply wf_cell|]. rewrite Hv. bounds.
Qed.

Definition committable (s : t) (sp : Spend) : Prop :=
  spend_typed sp /\ sp_limit sp <= JCS_SAFE_MAX /\ load s (sp_key sp) + sp_amount sp <= sp_limit sp.

(** The commit loop charges the whole batch and returns its least headroom. *)
Lemma commit_spec s0 l s m : wf s -> NoDup (map sp_key l) ->
  (forall sp, sp ∈ l -> load s (sp_key sp) = load s0 (sp_key sp)) ->
  Forall (committable s) l ->
  let '(s', m') := commit s (map (prep_of s0) l) m in
  wf s' /\ load s' =L Contract.charge (load s) l /\
  m' = foldl Z.min m
         (map (fun sp => sp_limit sp - (load s0 (sp_key sp) + sp_amount sp)) l).
Proof.
  revert s m. induction l as [|sp l IH]; intros s m Hwf Hnd Hs0 Hc; cbn [map commit].
  { split; [done|]. split; [|done]. intros k. unfold Contract.charge. cbn. lia. }
  apply Forall_cons in Hc as [(Hty & Hle & Hfit) Hc]. cbn in Hnd.
  apply NoDup_cons in Hnd as [Hni Hnd]. cbn [pr_key pr_amount pr_limit pr_next prep_of].
  destruct (commit_step s sp Hwf Hty Hle Hfit) as [Hv Hwf']. cbn zeta in Hv, Hwf'.
  assert (forall k, k <> sp_key sp ->
    load (store_cell (cell s (sp_key sp)) (sp_key sp)
      (i64_wrap (load (cell s (sp_key sp)) (sp_key sp) + sp_amount sp))) k = load s k) as Hoth.
  { intros k Hk. rewrite load_store_cell, upd_ne by done. apply load_cell. }
  assert (forall x, x ∈ l -> sp_key x <> sp_key sp) as Hne.
  { intros x Hx Heq. apply Hni. rewrite <- Heq. by apply list_elem_of_fmap_2. }
  specialize (IH _ (m `min` default 0 (u64_of_i64 (i64_wrap (sp_limit sp
     - (load s0 (sp_key sp) + sp_amount sp))))) Hwf' Hnd).
  destruct (commit _ _ _) as [s' m']. destruct IH as (Hwf2 & Hl2 & Hm2).
  - intros x Hx. rewrite Hoth by auto. apply Hs0. by right.
  - apply Forall_forall. intros x Hx. rewrite Forall_forall in Hc.
    destruct (Hc x Hx) as (?&?&?). repeat split; try apply H; try done. by rewrite Hoth by auto.
  - split; [done|]. split.
    + intros k. rewrite (Hl2 k), charge_cons. apply charge_proper; [|done].
      intros k'. rewrite load_store_cell, Hv. unfold Contract.upd.
      case_bool_decide; [done|]. apply load_cell.
    + rewrite Hm2. cbn. rewrite <- (Hs0 sp) by left.
      pose proof (load_range s (sp_key sp) Hwf). destruct Hty.
      rewrite i64_wrap_id by bounds. by rewrite u64_of_i64_ok by lia.
Qed.

Lemma foldl_min_foldr l m :
  Forall (fun x => x <= u64_max) l -> m <= u64_max ->
  foldl Z.min m l = Z.min m (foldr Z.min u64_max l).
Proof.
  revert m. induction l as [|x l IH]; intros m Hl Hm; cbn; [lia|].
  apply Forall_cons in Hl as [Hx Hl]. rewrite IH by (done || lia). lia.
Qed.

Lemma foldr_min_le l : foldr Z.min u64_max l <= u64_max.
Proof. induction l; cbn; lia. Qed.

Lemma fits_committable s sp : spend_typed sp ->
  negb (Contract.fits (load s) sp) = false -> committable s sp.
Proof.
  unfold Contract.fits, Contract.out_of_range. intros Hty H. b2p. by repeat split; try apply Hty.
Qed.

Lemma headroom_prepared s l : wf s -> NoDup (map sp_key l) -> Forall (committable s) l ->
  foldl Z.min u64_max
    (map (fun sp => sp_limit sp - (load s (sp_key sp) + sp_amount sp)) l)
  = Contract.headroom (load s) l.
Proof.
  intros Hwf Hnd Hc. unfold Contract.headroom.
  rewrite (map_ext_in (fun sp => sp_limit sp - Contract.charge (load s) l (sp_key sp))
             (fun sp => sp_limit sp - (load s (sp_key sp) + sp_amount sp))).
  2:{ intros sp Hsp%list_elem_of_In. by rewrite charge_at. }
  rewrite foldl_min_foldr; [|apply Forall_fmap, Forall_forall|done].
  - apply Z.min_r, foldr_min_le.
  - intros sp Hsp. cbn. rewrite Forall_forall in Hc. destruct (Hc sp Hsp) as ([]&?&?).
    pose proof (load_range s (sp_key sp) Hwf). bounds.
Qed.

Section Laws.
Context {UT : UnicodeTables}.

Lemma spend_law s l : wf s -> Forall spend_typed l ->
  let '(s', r) := try_spend_many s l in
  wf s' /\ r = (Contract.try_spend_many (load s) l).2 /\
  load s' =L (Contract.try_spend_many (load s) l).1.
Proof.
  intros Hwf Hty. unfold try_spend_many, Contract.try_spend_many.
  destruct (refuse_duplicate_spend_keys l) as [[]|] eqn:Hd; [|done].
  apply refuse_duplicates_ok in Hd. rewrite validate_spec by done.
  destruct (find_index _ l) as [[j sp]|] eqn:Hf; [by destruct (Contract.out_of_range sp)|].
  apply find_index_None in Hf. cbn [app].
  assert (Forall (committable s) l) as Hc.
  { eapply Forall_impl; [apply Forall_and; split; [exact Hty|exact Hf]|].
    intros sp []. by apply fits_committable. }
  pose proof (commit_spec s l s u64_max Hwf Hd (fun _ _ => eq_refl) Hc) as H.
  destruct (commit _ _ _) as [s' m]. destruct H as (Hwf' & Hl & ->).
  cbn. split; [done|]. split; [|done]. by rewrite headroom_prepared.
Qed.

Lemma add_law s k d : wf s -> is_u64 d ->
  let '(s', r) := add s k d in
  wf s' /\ r = (Contract.add (load s) k d).2 /\ load s' =L (Contract.add (load s) k d).1.
Proof.
  intros Hwf Hd. pose proof (load_range s k Hwf). unfold add, Contract.add, i64_of_u64.
  destruct (d <=? i64_max) eqn:Ed.
  2:{ b2p. rewrite (proj2 (Z.leb_gt _ _)) by bounds. done. }
  b2p. rewrite load_cell. unfold i64_checked_add.
  destruct (load s k + d <=? JCS_SAFE_MAX) eqn:E; b2p.
  - rewrite (proj2 (Z.leb_le _ _)), (proj2 (Z.leb_le _ _)) by bounds. cbn.
    unfold COUNTER_MAX. rewrite (proj2 (Z.leb_le _ _)) by done.
    split; [apply wf_store_cell; [by apply wf_cell|bounds]|].
    rewrite u64_of_i64_ok by bounds. split; [done|]. intros k'.
    rewrite load_store_cell. apply upd_proper; [|done..]. intros ?. apply load_cell.
  - assert (forall r, wf (cell s k) /\ Err (Overflow k) = r /\ load (cell s k) =L load s
              <-> r = @Err Z _ (Overflow k)) as Hcell.
    { intros r. split; [by intros (_&<-&_)|]. intros ->.
      split; [by apply wf_cell|]. split; [done|]. intros ?. apply load_cell. }
    destruct ((i64_min <=? _) && _); [|by apply Hcell].
    unfold COUNTER_MAX. rewrite (proj2 (Z.leb_gt _ _)) by done. by apply Hcell.
Qed.

Lemma fetch_max_law s k v : wf s -> is_u64 v ->
  let '(s', r) := fetch_max s k v in
  wf s' /\ r = (Contract.fetch_max (load s) k v).2 /\
  load s' =L (Contract.fetch_max (load s) k v).1.
Proof.
  intros Hwf Hv. pose proof (load_range s k Hwf). unfold fetch_max, Contract.fetch_max.
  rewrite Z.gtb_ltb, Z.ltb_antisym. destruct (v <=? JCS_SAFE_MAX) eqn:E; b2p; cbn; [|done].
  rewrite load_cell. unfold COUNTER_MAX at 1.
  rewrite (proj2 (Z.leb_le _ _)), (proj2 (Z.leb_le _ _)) by bounds. cbn.
  rewrite i64_of_u64_ok, u64_of_i64_ok by bounds. cbn.
  split; [apply wf_store_cell; [by apply wf_cell|bounds]|]. split; [done|]. intros k'.
  rewrite load_store_cell. apply upd_proper; [|done..]. intros ?. apply load_cell.
Qed.

Lemma refund_law s k a : wf s -> is_u64 a ->
  wf (refund s k a) /\ load (refund s k a) =L Contract.refund (load s) k a.
Proof.
  intros Hwf Ha. unfold refund, Contract.refund.
  destruct (counters s !! k) as [prev|] eqn:E.
  - assert (load s k = prev) as Hp by (unfold load; by rewrite E).
    pose proof (load_range s k Hwf). rewrite Hp in *.
    assert (Z.max (i64_sat_sub prev (default i64_max (i64_of_u64 a))) 0 = sat_sub prev a) as ->.
    { unfold i64_sat_sub, sat_sub, i64_of_u64. case_match; b2p; cbn; bounds. }
    split; [apply wf_store_cell; [done|unfold sat_sub; bounds]|].
    intros k'. apply load_store_cell.
  - split; [done|]. intros k'. unfold Contract.upd. case_bool_decide; [subst|done].
    unfold load. rewrite E. cbn. unfold sat_sub. bounds.
Qed.

Lemma refund_loop_refund s r rs :
  refund_loop s (r :: rs) = refund_loop (refund s (rf_key r) (rf_amount r)) rs.
Proof. cbn. unfold refund. by case_match. Qed.

Lemma refund_many_law s rs : wf s -> Forall (fun r => is_u64 (rf_amount r)) rs ->
  wf (refund_many s rs) /\ load (refund_many s rs) =L Contract.refund_many (load s) rs.
Proof.
  intros Hwf Hrs. assert (refund_many s rs = refund_loop s rs) as -> by (by destruct rs).
  revert s Hwf Hrs. induction rs as [|r rs IH]; intros s Hwf Hrs; [done|].
  apply Forall_cons in Hrs as [Hr Hrs]. rewrite refund_loop_refund.
  destruct (refund_law s (rf_key r) (rf_amount r) Hwf Hr) as [Hwf' Hl].
  destruct (IH _ Hwf' Hrs) as [? Hl']. split; [done|].
  rewrite Hl'. cbn. by apply spec_refund_many_ext.
Qed.

Lemma remove_law s k : wf s ->
  wf (remove s k) /\ load (remove s k) =L Contract.remove (load s) k.
Proof.
  intros Hwf. split; [by apply map_Forall_delete|]. intros k'.
  unfold load, Contract.remove, Contract.upd, remove. cbn. rewrite lookup_delete.
  repeat case_match; repeat case_bool_decide; naive_solver.
Qed.

Lemma remove_prefix_law s p : wf s ->
  wf (remove_prefix s p) /\ load (remove_prefix s p) =L Contract.remove_prefix (load s) p.
Proof.
  intros Hwf. split.
  - intros k v Hk. apply map_lookup_filter_Some in Hk as [Hk _]. by apply (Hwf k).
  - intros k. unfold load, Contract.remove_prefix, remove_prefix. cbn.
    rewrite map_lookup_filter. cbn.
    destruct (starts_with p k) eqn:E; destruct (counters s !! k); cbn; try done;
      case_guard; naive_solver.
Qed.

Lemma get_law s k : wf s -> get s k = Ok (load s k).
Proof.
  intros Hwf. pose proof (load_range s k Hwf). unfold get, load in *.
  destruct (counters s !! k) as [v|]; cbn in *; [|done].
  rewrite (proj2 (Z.ltb_ge _ _)) by lia. by rewrite u64_of_i64_ok by lia.
Qed.

#[export] Instance store_laws : StateStoreLaws t := {|
  st_wf := wf; st_view := load;
  st_view_range s k H := load_range s k H;
  st_get_law := get_law; st_spend_law := spend_law; st_add_law := add_law;
  st_fetch_max_law := fetch_max_law; st_refund_law := refund_law;
  st_refund_many_law := refund_many_law; st_remove_law := remove_law;
  st_remove_prefix_law := remove_prefix_law;
|}.
End Laws.

Lemma wf_new : wf new.
Proof. apply map_Forall_empty. Qed.
End InMemoryFacts.

(** * What the contract guarantees *)

Section Clients.
Context `{StateStoreLaws St}.

Lemma run_op_law s o : st_wf s -> op_typed o ->
  st_wf (run_op s o) /\ st_view (run_op s o) =L spec_op (st_view s) o.
Proof.
  intros Hwf Hty. destruct o as [k d|k v|l|k a|l|k|p]; cbn in *.
  - pose proof (st_add_law s k d Hwf Hty). destruct (st_add s k d). naive_solver.
  - pose proof (st_fetch_max_law s k v Hwf Hty). destruct (st_fetch_max s k v). naive_solver.
  - pose proof (st_spend_law s l Hwf Hty). destruct (st_try_spend_many s l). naive_solver.
  - by apply st_refund_law.
  - by apply st_refund_many_law.
  - by apply st_remove_law.
  - by apply st_remove_prefix_law.
Qed.

Lemma foldl_spec_op_ext ops L1 L2 :
  L1 =L L2 -> foldl spec_op L1 ops =L foldl spec_op L2 ops.
Proof.
  revert L1 L2. induction ops as [|o ops IH]; intros L1 L2 HL; cbn; [done|].
  apply IH. by rewrite HL.
Qed.

Lemma run_refines ops s : st_wf s -> Forall op_typed ops ->
  st_wf (foldl run_op s ops) /\
  st_view (foldl run_op s ops) =L foldl spec_op (st_view s) ops.
Proof.
  revert s. induction ops as [|o ops IH]; intros s Hwf Hty; cbn; [done|].
  apply Forall_cons in Hty as [Ho Hty]. destruct (run_op_law s o Hwf Ho) as [Hwf' Hl].
  destruct (IH _ Hwf' Hty) as [? Hv]. split; [done|]. rewrite Hv. by apply foldl_spec_op_ext.
Qed.

(** The three outcomes of a batch, read off the ledger. *)
Lemma spec_spend_committed L l L' m :
  Contract.try_spend_many L l = (L', Ok (Committed m)) ->
  NoDup (map sp_key l) /\ Forall (fun sp => Contract.fits L sp = true) l /\
  L' = Contract.charge L l /\ m = Contract.headroom L l.
Proof.
  unfold Contract.try_spend_many. intros Hs.
  destruct (refuse_duplicate_spend_keys l) as [[]|] eqn:Hd; [|done].
  apply refuse_duplicates_ok in Hd.
  destruct (find_index _ l) as [[i sp]|] eqn:Hf; [by destruct (Contract.out_of_range sp)|].
  apply find_index_None in Hf. split; [done|]. split; [|by inversion Hs].
  eapply Forall_impl; [exact Hf|]. intros sp Hsp. by apply negb_false_iff.
Qed.

Lemma spec_spend_other L l L' r :
  Contract.try_spend_many L l = (L', r) -> (forall m, r <> Ok (Committed m)) -> L' = L.
Proof.
  unfold Contract.try_spend_many. intros Hs Hr.
  destruct (refuse_duplicate_spend_keys l) as [[]|]; [|naive_solver].
  destruct (find_index _ l) as [[i sp]|]; inversion Hs; subst; [done|naive_solver].
Qed.

Lemma spec_spend_refused L l L' i :
  Contract.try_spend_many L l = (L', Ok (Refused i)) ->
  exists sp, l !! i = Some sp /\ L (sp_key sp) + sp_amount sp > sp_limit sp /\
    Forall (fun x => Contract.fits L x = true) (take i l).
Proof.
  unfold Contract.try_spend_many. intros Hs.
  destruct (refuse_duplicate_spend_keys l) as [[]|]; [|done].
  destruct (find_index _ l) as [[j sp]|] eqn:Hf; [|done].
  apply find_index_Some in Hf as (Hj & Hsp & Hpre).
  destruct (Contract.out_of_range sp) eqn:Ho; inversion Hs; subst. exists sp.
  split; [done|]. split.
  - unfold Contract.fits in Hsp. rewrite Ho in Hsp. cbn in Hsp. b2p. lia.
  - eapply Forall_impl; [exact Hpre|]. intros x Hx. by apply negb_false_iff.
Qed.

Lemma headroom_le L l sp : sp ∈ l ->
  Contract.headroom L l <= sp_limit sp - Contract.charge L l (sp_key sp).
Proof.
  unfold Contract.headroom. set (f := fun sp => sp_limit sp - Contract.charge L l (sp_key sp)).
  change (sp ∈ l -> foldr Z.min u64_max (map f l) <= f sp). clearbody f.
  intros Hin. induction l as [|x l IH]; [by apply not_elem_of_nil in Hin|].
  cbn. apply elem_of_cons in Hin as [->|Hin]; [lia|]. specialize (IH Hin). lia.
Qed.

Lemma headroom_attained L l : Contract.headroom L l = u64_max \/
  exists sp, sp ∈ l /\ Contract.headroom L l = sp_limit sp - Contract.charge L l (sp_key sp).
Proof.
  unfold Contract.headroom. set (f := fun sp => sp_limit sp - Contract.charge L l (sp_key sp)).
  change (foldr Z.min u64_max (map f l) = u64_max \/
          exists sp, sp ∈ l /\ foldr Z.min u64_max (map f l) = f sp). clearbody f.
  induction l as [|x l [IH|(sp & Hsp & IH)]]; cbn; [by left|..].
  - destruct (Z.min_spec (f x) (foldr Z.min u64_max (map f l))) as [[_ ->]|[_ ->]];
      [right; exists x; by split; [left|]|by left].
  - right. destruct (Z.min_spec (f x) (foldr Z.min u64_max (map f l))) as [[_ ->]|[_ ->]].
    + exists x. by split; [left|].
    + exists sp. by split; [right|].
Qed.

(** A schedule respects [cap] on [key] when it only charges [key] through
    [try_spend_many] with limits at most [cap]. *)
Definition respects_cap (key : str) (cap : Z) (o : op) : Prop :=
  match o with
  | OpAdd k _ | OpFetchMax k _ => k <> key
  | OpSpend l => Forall (fun sp => sp_key sp = key -> sp_limit sp <= cap) l
  | _ => True
  end.

Lemma refund_many_le rs L key : (forall k, 0 <= L k) ->
  Forall (fun r => is_u64 (rf_amount r)) rs -> Contract.refund_many L rs key <= L key.
Proof.
  unfold Contract.refund_many. revert L. induction rs as [|r rs IH]; intros L HL Hty; cbn; [lia|].
  apply Forall_cons in Hty as [[Hr _] Hty]. etrans; [apply IH; [|done]|];
    unfold Contract.refund, Contract.upd, sat_sub.
  - intros k. pose proof (HL k). case_bool_decide; lia.
  - pose proof (HL key). case_bool_decide; subst; lia.
Qed.

Lemma spec_op_cap L o key cap : (forall k, 0 <= L k) -> 0 <= cap -> op_typed o ->
  respects_cap key cap o -> L key <= cap -> spec_op L o key <= cap.
Proof.
  intros HL Hcap Hty Hr Hle. pose proof (HL key).
  destruct o as [k d|k v|l|k a|l|k|p]; cbn in *.
  - unfold Contract.add. case_match; cbn; [by rewrite upd_ne|done].
  - unfold Contract.fetch_max. case_match; cbn; [by rewrite upd_ne|done].
  - destruct (Contract.try_spend_many L l) as [L' r] eqn:E. cbn.
    destruct r as [[m|i]|e];
      [|by rewrite (spec_spend_other _ _ _ _ E) by done..].
    apply spec_spend_committed in E as (Hnd & Hfit & -> & _).
    destruct (decide (key ∈ map sp_key l)) as [Hin|Hin].
    + apply list_elem_of_fmap in Hin as (sp & -> & Hin).
      rewrite InMemoryFacts.charge_at by done.
      rewrite Forall_forall in Hfit, Hr. specialize (Hfit _ Hin). specialize (Hr _ Hin eq_refl).
      unfold Contract.fits in Hfit. b2p. lia.
    + by rewrite InMemoryFacts.charge_notin.
  - unfold Contract.refund, Contract.upd, sat_sub. case_bool_decide; subst; [|done].
    destruct Hty. lia.
  - etrans; [by apply refund_many_le|done].
  - unfold Contract.remove, Contract.upd. case_bool_decide; lia.
  - unfold Contract.remove_prefix. case_match; lia.
Qed.

Lemma run_cap ops s key cap : st_wf s -> 0 <= cap ->
  Forall op_typed ops -> Forall (respects_cap key cap) ops ->
  st_view s key <= cap -> st_view (foldl run_op s ops) key <= cap.
Proof.
  intros Hwf Hcap. revert s Hwf. induction ops as [|o ops IH]; intros s Hwf Hty Hr Hle; [done|].
  apply Forall_cons in Hty as [Ho Hty]. apply Forall_cons in Hr as [Hro Hr].
  destruct (run_op_law s o Hwf Ho) as [Hwf' Hv]. apply IH; [done..|].
  rewrite (Hv key). apply spec_op_cap; try done. intros k. by apply st_view_range.
Qed.
End Clients.

(** * Properties of InMemoryStore *)

Import InMemory InMemoryFacts.

(** C2. Refinement: the in-memory store implements the abstract ledger.  After any
    schedule of mutating operations from the empty store, the invariant
    [0 <= counter <= 2^53] holds and every counter reads what the ledger
    specification computes for that schedule. *)
Theorem in_memory_refines_ledger {UT : UnicodeTables} (ops : list op) :
  Forall op_typed ops ->
  wf (foldl run_op new ops) /\
  forall k, get (foldl run_op new ops) k = Ok (foldl spec_op (fun _ => 0) ops k).
Proof.
  intros Hty. destruct (run_refines ops new) as [Hwf Hv]; [apply wf_new|done|].
  split; [done|]. intros k. rewrite get_law by done. f_equal. apply Hv.
Qed.

Definition sample_key : str := lit "budget:{s}:tokens".
Definition sample_ops : list op :=
  [OpSpend [mkSpend sample_key 6 10]; OpAdd (lit "other") 5;
   OpSpend [mkSpend sample_key 5 10]; OpRefund sample_key 2;
   OpSpend [mkSpend sample_key 5 10]].

Lemma sample_ops_typed : Forall op_typed sample_ops.
Proof. repeat (constructor || split); vm_compute; congruence. Defined.

Lemma in_memory_refines_ledger_witness :
  get (foldl (@run_op t (@store ascii_tables)) new sample_ops) sample_key = Ok 9.
Proof.
  rewrite (proj2 (@in_memory_refines_ledger ascii_tables sample_ops sample_ops_typed) sample_key).
  vm_compute. reflexivity.
Defined.

(** A committed batch: each spend lands exactly once on its own key, no counter
    exceeds its limit, every other counter keeps its value, and the reported
    headroom is the least remaining headroom of the batch after the commit. *)
Theorem try_spend_many_committed {UT : UnicodeTables} (s s' : t) (l : list Spend) (m : Z) :
  wf s -> Forall spend_typed l ->
  try_spend_many s l = (s', Ok (Committed m)) ->
  (forall sp, sp ∈ l -> load s' (sp_key sp) = load s (sp_key sp) + sp_amount sp
                        /\ load s' (sp_key sp) <= sp_limit sp
                        /\ m <= sp_limit sp - load s' (sp_key sp)) /\
  (forall k, k ∉ map sp_key l -> load s' k = load s k) /\
  (m = u64_max \/ exists sp, sp ∈ l /\ m = sp_limit sp - load s' (sp_key sp)).
Proof.
  intros Hwf Hty Hs. pose proof (spend_law s l Hwf Hty) as H. rewrite Hs in H.
  destruct H as (_ & Hr & Hl). destruct (Contract.try_spend_many (load s) l) as [L r] eqn:E.
  cbn in Hr, Hl. subst r. apply spec_spend_committed in E as (Hnd & Hf & -> & ->).
  split; [|split].
  - intros sp Hsp. rewrite (Hl (sp_key sp)), charge_at by done.
    pose proof (headroom_le (load s) l sp Hsp) as Hh. rewrite charge_at in Hh by done.
    rewrite Forall_forall in Hf. specialize (Hf _ Hsp). unfold Contract.fits in Hf. b2p. lia.
  - intros k Hk. by rewrite (Hl k), charge_notin.
  - destruct (headroom_attained (load s) l) as [?|(sp & ? & ?)]; [by left|].
    right. exists sp. by rewrite (Hl (sp_key sp)).
Qed.

Definition two_spends : list Spend :=
  [mkSpend (lit "dim-a") 3 10; mkSpend (lit "dim-b") 4 10].

Lemma two_spends_typed : Forall spend_typed two_spends.
Proof. repeat (constructor || split); vm_compute; congruence. Defined.

Lemma try_spend_many_committed_witness :
  load (@try_spend_many ascii_tables new two_spends).1 (lit "dim-b")
  = load new (lit "dim-b") + 4.
Proof.
  refine (proj1 (proj1 (@try_spend_many_committed ascii_tables new _ two_spends 6
            wf_new two_spends_typed _) (mkSpend (lit "dim-b") 4 10) _)).
  - vm_compute. reflexivity.
  - right. left.
Defined.

(** All or nothing: when a batch does not commit (refusal, range error or
    duplicate key) the store is unchanged, cell for cell, so no zero counter is
    materialised either; and a refusal names the first spend that would exceed its
    limit, every earlier one fitting. *)
Theorem try_spend_many_atomic {UT : UnicodeTables} (s s' : t) (l : list Spend) r :
  wf s -> Forall spend_typed l ->
  try_spend_many s l = (s', r) -> (forall m, r <> Ok (Committed m)) ->
  s' = s /\
  forall i, r = Ok (Refused i) ->
    exists sp, l !! i = Some sp /\ load s (sp_key sp) + sp_amount sp > sp_limit sp /\
      Forall (fun x => Contract.fits (load s) x = true) (take i l).
Proof.
  intros Hwf Hty Hs Hr. split.
  - unfold try_spend_many in Hs. repeat case_match; simplify_eq; try done. by destruct (Hr z).
  - intros i ->. pose proof (spend_law s l Hwf Hty) as H. rewrite Hs in H.
    destruct H as (_ & Hr' & _). destruct (Contract.try_spend_many (load s) l) as [L r] eqn:E.
    cbn in Hr'. subst r. by eapply spec_spend_refused.
Qed.

Definition over_spends : list Spend :=
  [mkSpend (lit "dim-a") 3 10; mkSpend (lit "dim-b") 20 10].

Lemma over_spends_typed : Forall spend_typed over_spends.
Proof. repeat (constructor || split); vm_compute; congruence. Defined.

Lemma try_spend_many_atomic_witness :
  (@try_spend_many ascii_tables new over_spends).1 = new.
Proof.
  refine (proj1 (@try_spend_many_atomic ascii_tables new _ over_spends (Ok (Refused 1))
            wf_new over_spends_typed _ _)); [vm_compute; reflexivity|discriminate].
Defined.

(** C19. A budget never over-spends: under any schedule in which the counter is
    charged only through [try_spend_many] with limits at most [cap], in any order
    with refunds and removals, the counter never exceeds [cap]. *)
Theorem counter_never_exceeds_cap {UT : UnicodeTables} (ops : list op) (key : str) (cap : Z) :
  0 <= cap -> Forall op_typed ops -> Forall (respects_cap key cap) ops ->
  load (foldl run_op new ops) key <= cap.
Proof. intros. change (st_view (foldl run_op new ops) key <= cap). by apply run_cap; [apply wf_new|..]. Qed.

Lemma counter_never_exceeds_cap_witness :
  load (foldl (@run_op t (@store ascii_tables)) new sample_ops) sample_key <= 10.
Proof.
  apply (@counter_never_exceeds_cap ascii_tables sample_ops sample_key 10);
    [lia|exact sample_ops_typed|].
  repeat constructor; vm_compute; try congruence.
Defined.
