(* ===== verification/StoreConc.v ===== *)
(** Concurrency of [InMemoryStore] ([av-state/src/store.rs]).  Each mutating
    method is a sequence of atomic accesses to the [DashMap] and its [AtomicI64]
    cells, executed between [transaction_lock.lock()] and the guard's drop, while
    other threads may contend for the lock or read cells without it ([get]).  The
    step relation interleaves them; the theorem is that every execution is
    equivalent to the sequential one in lock order. *)

From S2P Require Import Prelude Rust CoreBase Store StoreProofs.
Import InMemory.

(** * Cell programs *)

(** One method body as a tree of atomic accesses; a continuation takes what the
    access read. *)
Inductive prog (A : Type) : Type :=
| Ret (a : A)
| Lookup (key : str) (k : option Z -> prog A)
| OrInsert (key : str) (k : prog A)
| StoreCell (key : str) (v : Z) (k : prog A)
| FetchAdd (key : str) (d : Z) (k : prog A)
| FetchMax (key : str) (v : Z) (k : Z -> prog A)
| Delete (key : str) (k : prog A)
| Retain (prefix : str) (k : prog A).
Arguments Ret {A} _.
Arguments Lookup {A} _ _.
Arguments OrInsert {A} _ _.
Arguments StoreCell {A} _ _ _.
Arguments FetchAdd {A} _ _ _.
Arguments FetchMax {A} _ _ _.
Arguments Delete {A} _ _.
Arguments Retain {A} _ _.

(** One atomic access; [None] once the program has returned. *)
Definition micro {A} (p : prog A) (s : t) : option (prog A * t) :=
  match p with
  | Ret _ => None
  | Lookup key k => Some (k (counters s !! key), s)
  | OrInsert key k => Some (k, cell s key)
  | StoreCell key v k => Some (k, store_cell s key v)
  | FetchAdd key d k => Some (k, store_cell s key (i64_wrap (load s key + d)))
  | FetchMax key v k => Some (k (load s key), store_cell s key (Z.max (load s key) v))
  | Delete key k => Some (k, remove s key)
  | Retain prefix k => Some (k, remove_prefix s prefix)
  end.

(** The program run without interference. *)
Fixpoint run_prog {A} (p : prog A) (s : t) : t * A :=
  match p with
  | Ret a => (s, a)
  | Lookup key k => run_prog (k (counters s !! key)) s
  | OrInsert key k => run_prog k (cell s key)
  | StoreCell key v k => run_prog k (store_cell s key v)
  | FetchAdd key d k => run_prog k (store_cell s key (i64_wrap (load s key + d)))
  | FetchMax key v k => run_prog (k (load s key)) (store_cell s key (Z.max (load s key) v))
  | Delete key k => run_prog k (remove s key)
  | Retain prefix k => run_prog k (remove_prefix s prefix)
  end.

(** * The method bodies *)

(** What a method returns. *)
Inductive reply :=
| RSpend (r : result TrySpendOutcome StateError)
| RNum (r : result Z StateError)
| RUnit.

Section Bodies.
Context {UT : UnicodeTables}.

Fixpoint commit_prog (prepared : list prep) (min_remaining : Z) : prog reply :=
  match prepared with
  | [] => Ret (RSpend (Ok (Committed min_remaining)))
  | p :: rest =>
      OrInsert (pr_key p) (FetchAdd (pr_key p) (pr_amount p)
        (commit_prog rest
           (Z.min min_remaining
              (default 0 (u64_of_i64 (i64_wrap (pr_limit p - pr_next p)))))))
  end.

Fixpoint validate_prog (index : nat) (spends : list Spend) (prepared : list prep)
  : prog reply :=
  match spends with
  | [] => commit_prog prepared u64_max
  | sp :: rest =>
      let fail := Ret (RSpend (Err (Overflow (sp_key sp)))) in
      if sp_amount sp >? JCS_SAFE_MAX then fail
      else if sp_limit sp >? JCS_SAFE_MAX then fail
      else match i64_of_u64 (sp_amount sp), i64_of_u64 (sp_limit sp) with
           | Some amount, Some limit =>
               Lookup (sp_key sp) (fun c =>
                 match i64_checked_add (default 0 c) amount with
                 | None => fail
                 | Some next =>
                     if next >? limit then Ret (RSpend (Ok (Refused index)))
                     else validate_prog (S index) rest
                            (prepared ++ [mkPrep (sp_key sp) amount limit next])
                 end)
           | _, _ => fail
           end
  end.

Definition spend_prog (spends : list Spend) : prog reply :=
  match refuse_duplicate_spend_keys spends with
  | Err e => Ret (RSpend (Err e))
  | Ok _ => validate_prog 0 spends []
  end.

Definition add_prog (key : str) (delta : Z) : prog reply :=
  let fail := Ret (RNum (Err (Overflow key))) in
  match i64_of_u64 delta with
  | None => fail
  | Some d =>
      OrInsert key (Lookup key (fun c =>
        match i64_checked_add (default 0 c) d with
        | Some new =>
            if new <=? COUNTER_MAX
            then StoreCell key new (Ret (RNum (ok_or (u64_of_i64 new) (Overflow key))))
            else fail
        | None => fail
        end))
  end.

Definition fetch_max_prog (key : str) (value : Z) : prog reply :=
  let fail := Ret (RNum (Err (Overflow key))) in
  if value >? JCS_SAFE_MAX then fail
  else OrInsert key (Lookup key (fun c =>
         let current := default 0 c in
         if negb ((0 <=? current) && (current <=? COUNTER_MAX)) then fail
         else match i64_of_u64 value with
              | None => fail
              | Some v =>
                  FetchMax key v (fun prior =>
                    Ret (RNum (ok_or (u64_of_i64 (Z.max prior v)) (Overflow key))))
              end)).

Fixpoint refund_prog (refunds : list Refund) : prog reply :=
  match refunds with
  | [] => Ret RUnit
  | r :: rest =>
      Lookup (rf_key r) (fun c =>
        match c with
        | None => refund_prog rest
        | Some prev =>
            StoreCell (rf_key r)
              (Z.max (i64_sat_sub prev (default i64_max (i64_of_u64 (rf_amount r)))) 0)
              (refund_prog rest)
        end)
  end.

Definition op_prog (o : op) : prog reply :=
  match o with
  | OpAdd k d => add_prog k d
  | OpFetchMax k v => fetch_max_prog k v
  | OpSpend l => spend_prog l
  | OpRefund k a => refund_prog [mkRefund k a]
  | OpRefundMany l => refund_prog l
  | OpRemove k => Delete k (Ret RUnit)
  | OpRemovePrefix p => Retain p (Ret RUnit)
  end.

(** The reply of the sequential operation. *)
Definition op_reply (s : t) (o : op) : reply :=
  match o with
  | OpAdd k d => RNum (add s k d).2
  | OpFetchMax k v => RNum (fetch_max s k v).2
  | OpSpend l => RSpend (try_spend_many s l).2
  | _ => RUnit
  end.

(** * The machine *)

(** Shared memory, the lock with its holder's remaining body, and the calls
    completed so far with their replies, in lock order. *)
Record machine := mkMachine {
  cells : t;
  holder : option (nat * op * prog reply);
  log : list (nat * op * reply);
}.

Definition boot : machine := mkMachine new None [].

Inductive step : machine -> machine -> Prop :=
| step_acquire c lg tid o :
    step (mkMachine c None lg) (mkMachine c (Some (tid, o, op_prog o)) lg)
| step_access c c' lg tid o p p' :
    micro p c = Some (p', c') ->
    step (mkMachine c (Some (tid, o, p)) lg) (mkMachine c' (Some (tid, o, p')) lg)
| step_release c lg tid o r :
    step (mkMachine c (Some (tid, o, Ret r)) lg)
         (mkMachine c None (lg ++ [(tid, o, r)]))
| step_get m (tid : nat) key r :
    get (cells m) key = r -> step m m.

Definition reachable : machine -> Prop := rtc step boot.

(** Sequential replay of a log. *)
Definition replay (lg : list (nat * op * reply)) : t :=
  foldl run_op new (map (fun e => e.1.2) lg).

Fixpoint replies_ok (s : t) (lg : list (nat * op * reply)) : Prop :=
  match lg with
  | [] => True
  | (_, o, r) :: rest => r = op_reply s o /\ replies_ok (run_op s o) rest
  end.

(** * Proofs *)

Lemma commit_prog_run prepared m s :
  run_prog (commit_prog prepared m) s
  = let '(s', m') := commit s prepared m in (s', RSpend (Ok (Committed m'))).
Proof. revert m s. induction prepared as [|p l IH]; intros m s; cbn; [done|]. apply IH. Qed.

Lemma validate_prog_run l i acc s :
  run_prog (validate_prog i l acc) s
  = match validate s i l acc with
    | Err e => (s, RSpend (Err e))
    | Ok (inr j) => (s, RSpend (Ok (Refused j)))
    | Ok (inl pr) => let '(s', m) := commit s pr u64_max in (s', RSpend (Ok (Committed m)))
    end.
Proof.
  revert i acc. induction l as [|sp l IH]; intros i acc; [apply commit_prog_run|].
  cbn -[JCS_SAFE_MAX]. do 2 (case_match; [done|]).
  destruct (i64_of_u64 (sp_amount sp)), (i64_of_u64 (sp_limit sp)); cbn; try done.
  unfold load. destruct (i64_checked_add _ _); cbn; [|done]. case_match; [done|]. apply IH.
Qed.

Lemma refund_prog_run l s : run_prog (refund_prog l) s = (refund_loop s l, RUnit).
Proof.
  revert s. induction l as [|r l IH]; intros s; cbn; [done|]. case_match; apply IH.
Qed.

(** Each body, run alone, is the sequential operation of [InMemoryStore]. *)
Lemma op_prog_run o s : run_prog (op_prog o) s = (run_op s o, op_reply s o).
Proof.
  destruct o as [k d|k v|l|k a|l|k|p]; cbn -[refund_prog].
  - unfold add_prog, add. case_match; [|done]. cbn. change (default 0 (counters ?x !! k))
      with (load x k). change (default 0 (<[k:=load s k]> (counters s) !! k)) with (load (cell s k) k).
    case_match; [|done]. by case_match.
  - unfold fetch_max_prog, fetch_max. case_match; [done|]. cbn -[JCS_SAFE_MAX].
    change (default 0 (<[k:=load s k]> (counters s) !! k)) with (load (cell s k) k).
    case_match; [done|]. by case_match.
  - unfold spend_prog, try_spend_many. case_match; [|done]. rewrite validate_prog_run.
    case_match; [|done]. case_match; [|done]. by case_match.
  - rewrite refund_prog_run. cbn. unfold refund. by case_match.
  - rewrite refund_prog_run. f_equal. by destruct l.
  - done.
  - done.
Qed.

Lemma micro_run {A} (p p' : prog A) s s' :
  micro p s = Some (p', s') -> run_prog p s = run_prog p' s'.
Proof. destruct p; cbn; intros [= <- <-]; done. Qed.

Definition coherent (m : machine) : Prop :=
  replies_ok new (log m) /\
  match holder m with
  | None => cells m = replay (log m)
  | Some (_, o, p) =>
      run_prog p (cells m) = (run_op (replay (log m)) o, op_reply (replay (log m)) o)
  end.

Lemma replies_ok_snoc s lg e :
  replies_ok s (lg ++ [e]) <->
  replies_ok s lg /\ e.2 = op_reply (foldl run_op s (map (fun e => e.1.2) lg)) e.1.2.
Proof.
  destruct e as [[tid o] r]. revert s. induction lg as [|[[t' o'] r'] lg IH]; intros s; cbn.
  - naive_solver.
  - rewrite IH. cbn. naive_solver.
Qed.

Lemma replay_snoc lg e : replay (lg ++ [e]) = run_op (replay lg) e.1.2.
Proof. unfold replay. by rewrite map_app, foldl_app. Qed.

Lemma step_coherent m m' : step m m' -> coherent m -> coherent m'.
Proof.
  intros Hs [Hr Hh]. destruct Hs as [c lg tid o|c c' lg tid o p p' Hm|c lg tid o r|]; cbn in *.
  - split; [done|]. cbn. by rewrite Hh, op_prog_run.
  - split; [done|]. cbn. by rewrite <- (micro_run _ _ _ _ Hm).
  - inversion Hh. split; cbn; [by apply replies_ok_snoc|exact (eq_sym (replay_snoc lg (tid, o, _)))].
  - done.
Qed.

Lemma reachable_coherent m : reachable m -> coherent m.
Proof.
  unfold reachable. intros H. remember boot as b eqn:Hb.
  assert (coherent b) as Hc by (subst; done). clear Hb.
  induction H; [done|]. apply IHrtc. by eapply step_coherent.
Qed.
End Bodies.


(** Two clients race for the last unit of one counter: the second is refused. *)
Definition race_key : str := lit "k".
Definition race_spend : op := OpSpend [mkSpend race_key 1 1].
Definition race_end : machine :=
  mkMachine (mk {[race_key := 1]}) None
    [(7%nat, race_spend, RSpend (Ok (Committed 0)));
     (8%nat, race_spend, RSpend (Ok (Refused 0)))].

Lemma race_reachable : @reachable ascii_tables race_end.
Proof.
  unfold reachable, boot.
  eapply rtc_l; [apply (step_acquire new [] 7%nat race_spend)|].
  do 3 (eapply rtc_l; [apply step_access; vm_compute; reflexivity|]).
  eapply rtc_l; [apply step_release|].
  eapply rtc_l; [apply (step_acquire _ _ 8%nat race_spend)|].
  eapply rtc_l; [apply step_access; vm_compute; reflexivity|].
  eapply rtc_l; [apply step_release|]. apply rtc_refl.
Defined.

