(* ===== verification/Budget.v ===== *)
(** [av-state/src/budget.rs]: declarative budgets enforced through a
    [StateStore], for a session or for a principal. *)

From S2P Require Import Prelude Rust CoreBase Store.

(** * Data *)

Record BudgetSpec := mkBudgetSpec {
  max_tokens : option Z;
  max_payout_usd_micros : option Z;
  max_tool_calls : gmap str Z;
  max_total_tool_calls : option Z;
}.

Definition binds_anything (b : BudgetSpec) : bool :=
  bool_decide (is_Some (max_tokens b))
  || bool_decide (is_Some (max_payout_usd_micros b))
  || bool_decide (is_Some (max_total_tool_calls b))
  || negb (bool_decide (max_tool_calls b = ∅)).

Inductive BudgetDecision :=
| Allowed (remaining : Z)
| BudgetRefused (limit : str) (cap : Z).

#[global] Instance BudgetDecision_eq_dec : EqDecision BudgetDecision.
Proof. solve_decision. Defined.

Definition is_allowed (d : BudgetDecision) : bool :=
  match d with Allowed _ => true | BudgetRefused _ _ => false end.

(** Which accounting bucket a check writes to. *)
Inductive Scope :=
| Session (id : str)
| Principal (id : str).

(** [ActionBudget { store, scope, spec }]; the store is passed to each method. *)
Record ActionBudget := mkActionBudget { ab_scope : Scope; ab_spec : BudgetSpec }.

Definition for_session (session : str) (spec : BudgetSpec) : ActionBudget :=
  mkActionBudget (Session session) spec.
Definition for_principal (principal : str) (spec : BudgetSpec) : ActionBudget :=
  mkActionBudget (Principal principal) spec.

(** * Keys *)

Section Keys.
Context {SHA : Sha256}.

(** [digest.get(..32).unwrap_or(&digest)]. *)
Definition digest_tag (id : str) : str :=
  let digest := sha256_hex (as_bytes id) in
  if (32 <=? Z.of_nat (length digest)) then take 32 digest else digest.

Definition session_prefix (session : str) : str :=
  lit "budget:{" ++ digest_tag session ++ lit "}:".

Definition principal_prefix (principal : str) : str :=
  lit "budget:principal:{" ++ digest_tag principal ++ lit "}:".

Definition scope_prefix (sc : Scope) : str :=
  match sc with Session id => session_prefix id | Principal id => principal_prefix id end.

Definition key (b : ActionBudget) (dim : str) : str := scope_prefix (ab_scope b) ++ dim.
End Keys.

(** * Operations *)

Section Operations.
Context {SHA : Sha256} `{StateStore St}.

Definition invalid_index_msg (index : nat) : str :=
  lit "invalid failed spend index " ++ fmt_int (Z.of_nat index).

(** The [spends] and [limit_names] vectors of [try_tool_call], in the fixed
    order total calls, per-tool, payout; [None] when a payout has no cap. *)
Definition tool_call_spends (b : ActionBudget) (tool : str) (payout : Z)
  : option (list Spend * list str) :=
  let total :=
    match max_total_tool_calls (ab_spec b) with
    | Some cap => [(mkSpend (key b (lit "total_calls")) 1 cap, lit "max_total_tool_calls")]
    | None => []
    end in
  let per_tool :=
    match max_tool_calls (ab_spec b) !! tool with
    | Some cap =>
        [(mkSpend (key b (lit "tool:" ++ tool)) 1 cap, lit "max_tool_calls." ++ tool)]
    | None => []
    end in
  let finish l := Some (map fst l, map snd l) in
  if payout >? 0 then
    match max_payout_usd_micros (ab_spec b) with
    | Some cap =>
        finish (total ++ per_tool ++
                [(mkSpend (key b (lit "payout")) payout cap, lit "max_payout_usd_micros")])
    | None => None
    end
  else finish (total ++ per_tool).

Definition try_tool_call (s : St) (b : ActionBudget) (tool : str) (payout : Z)
  : St * result BudgetDecision StateError :=
  match tool_call_spends b tool payout with
  | None => (s, Ok (BudgetRefused (lit "max_payout_usd_micros(unset)") 0))
  | Some (spends, limit_names) =>
      let '(s', r) := st_try_spend_many s spends in
      (s', match r with
           | Err e => Err e
           | Ok (Refused index) =>
               let? spend := ok_or (spends !! index) (Backend (invalid_index_msg index)) in
               let? limit := ok_or (limit_names !! index) (Backend (invalid_index_msg index)) in
               Ok (BudgetRefused limit (sp_limit spend))
           | Ok (Committed post) => Ok (Allowed post)
           end)
  end.

(** The [refunds] vector of [refund_tool_call]. *)
Definition tool_call_refunds (b : ActionBudget) (tool : str) (payout : Z) : list Refund :=
  match max_total_tool_calls (ab_spec b) with
  | Some _ => [mkRefund (key b (lit "total_calls")) 1]
  | None => []
  end ++
  match max_tool_calls (ab_spec b) !! tool with
  | Some _ => [mkRefund (key b (lit "tool:" ++ tool)) 1]
  | None => []
  end ++
  if (payout >? 0) && bool_decide (is_Some (max_payout_usd_micros (ab_spec b)))
  then [mkRefund (key b (lit "payout")) payout] else [].

Definition refund_tool_call (s : St) (b : ActionBudget) (tool : str) (payout : Z) : St :=
  match tool_call_refunds b tool payout with
  | [] => s
  | refunds => st_refund_many s refunds
  end.

Definition refund_tokens (s : St) (b : ActionBudget) (tokens : Z) : St :=
  if (tokens >? 0) && bool_decide (is_Some (max_tokens (ab_spec b)))
  then st_refund s (key b (lit "tokens")) tokens else s.

Definition try_tokens (s : St) (b : ActionBudget) (tokens : Z)
  : St * result BudgetDecision StateError :=
  match max_tokens (ab_spec b) with
  | Some cap =>
      let '(s', r) := st_try_spend_many s [mkSpend (key b (lit "tokens")) tokens cap] in
      (s', match r with
           | Err e => Err e
           | Ok (Committed post) => Ok (Allowed post)
           | Ok (Refused _) => Ok (BudgetRefused (lit "max_tokens") cap)
           end)
  | None => (s, Ok (Allowed u64_max))
  end.
End Operations.

(** The caps are [u64] values. *)
Definition spec_typed (b : BudgetSpec) : Prop :=
  (forall c, max_tokens b = Some c -> is_u64 c) /\
  (forall c, max_payout_usd_micros b = Some c -> is_u64 c) /\
  (forall c, max_total_tool_calls b = Some c -> is_u64 c) /\
  map_Forall (fun _ c => is_u64 c) (max_tool_calls b).
