(* ===== verification/BudgetProofs.v ===== *)
(** Theorems about [av-state/src/budget.rs], proved against the [StateStore]
    contract, so that they hold for every backend that keeps it. *)

From S2P Require Import Prelude Rust CoreBase Store StoreProofs Budget.

(** * Keys *)

Section Keys.
Context {SHA : Sha256}.

(** Session and principal counters live in disjoint name spaces. *)
Lemma prefix_disjoint sid pid d1 d2 :
  session_prefix sid ++ d1 <> principal_prefix pid ++ d2.
Proof. unfold session_prefix, principal_prefix. intros H. eval_lit. discriminate H. Qed.

Lemma key_inj b d1 d2 : key b d1 = key b d2 -> d1 = d2.
Proof. unfold key. apply app_inv_head. Qed.

Lemma session_prefix_principal sid pid d :
  starts_with (session_prefix sid) (principal_prefix pid ++ d) = false.
Proof.
  destruct (starts_with _ _) eqn:E; [|done].
  apply starts_with_iff in E as [r Hr]. symmetry in Hr. by apply prefix_disjoint in Hr.
Qed.
End Keys.

(** * Ledger facts *)

Definition to_refund (sp : Spend) : Refund := mkRefund (sp_key sp) (sp_amount sp).

Lemma refund_many_notin L rs k : k ∉ map rf_key rs -> Contract.refund_many L rs k = L k.
Proof.
  unfold Contract.refund_many. revert L. induction rs as [|r rs IH]; intros L Hk; cbn; [done|].
  cbn in Hk. apply not_elem_of_cons in Hk as [? ?]. rewrite IH by done. by apply upd_ne.
Qed.

(** Refunding what a batch charged undoes the charge. *)
Lemma refund_charge L l : (forall k, 0 <= L k) -> NoDup (map sp_key l) ->
  Contract.refund_many (Contract.charge L l) (map to_refund l) =L L.
Proof.
  revert L. induction l as [|sp l IH]; intros L HL Hnd.
  { intros k. unfold Contract.charge. cbn. lia. }
  cbn in Hnd. apply NoDup_cons in Hnd as [Hni Hnd].
  assert (Contract.refund (Contract.charge L (sp :: l)) (sp_key sp) (sp_amount sp)
          =L Contract.charge L l) as Hstep.
  { intros k. unfold Contract.refund, Contract.upd. case_bool_decide; subst.
    - rewrite InMemoryFacts.charge_cons, !InMemoryFacts.charge_notin by done.
      rewrite upd_eq. pose proof (HL (sp_key sp)). unfold sat_sub. lia.
    - rewrite InMemoryFacts.charge_cons. unfold Contract.charge. by rewrite upd_ne. }
  etrans; [exact (spec_refund_many_ext (map to_refund l) _ _ Hstep)|]. by apply IH.
Qed.

(** * Tool calls *)

Section ToolCalls.
Context {SHA : Sha256}.

Definition typed_budget (b : ActionBudget) : Prop := spec_typed (ab_spec b).

Lemma tool_spends_facts b tool payout l names :
  typed_budget b -> is_u64 payout -> tool_call_spends b tool payout = Some (l, names) ->
  NoDup (map sp_key l) /\ length l = length names /\ Forall spend_typed l /\
  tool_call_refunds b tool payout = map to_refund l /\
  Forall (fun sp => exists d, sp_key sp = key b d) l.
Proof.
  intros (_ & Hp & Ht & Hm) Hpay. unfold tool_call_spends, tool_call_refunds.
  assert (is_u64 1) as H1 by (split; vm_compute; congruence).
  assert (forall d1 d2, d1 <> d2 -> key b d1 <> key b d2) as Hk
    by (intros d1 d2 Hd ?%key_inj; done).
  assert (lit "total_calls" <> lit "tool:" ++ tool) as K1 by (eval_lit; discriminate).
  assert (lit "total_calls" <> lit "payout") as K2 by done.
  assert (lit "tool:" ++ tool <> lit "payout") as K3 by (eval_lit; discriminate).
  apply Hk in K1, K2, K3. generalize dependent (key b). intros ky Hk K1 K2 K3.
  destruct (max_total_tool_calls (ab_spec b)) as [c1|];
    destruct (max_tool_calls (ab_spec b) !! tool) as [c2|] eqn:E2;
    destruct (payout >? 0); destruct (max_payout_usd_micros (ab_spec b)) as [c3|];
    cbn; intros [= <- <-]; cbn;
    (split; [repeat constructor; rewrite ?elem_of_cons, ?elem_of_nil; intuition congruence|]);
    (split; [done|]);
    (split; [repeat constructor; cbn; first [apply H1|apply Hpay|by eapply Hm|by apply Ht|by apply Hp]
            |]);
    (split; [done|repeat constructor; cbn; eauto]).
Qed.

Context `{StateStoreLaws St}.

(** The outcome of [try_tool_call] in terms of the ledger. *)
Definition tool_call_post (s s' : St) (b : ActionBudget) (tool : str) (payout : Z)
    (r : result BudgetDecision StateError) : Prop :=
  match r with
  | Ok (Allowed m) => exists l names,
      tool_call_spends b tool payout = Some (l, names) /\
      Forall (fun sp => Contract.fits (st_view s) sp = true) l /\
      st_view s' =L Contract.charge (st_view s) l /\ m = Contract.headroom (st_view s) l
  | Ok (BudgetRefused _ _) => st_view s' =L st_view s
  | Err e => st_view s' =L st_view s /\ exists k, e = Overflow k
  end.

Lemma try_tool_call_spec s b tool payout :
  st_wf s -> typed_budget b -> is_u64 payout ->
  let '(s', r) := try_tool_call s b tool payout in
  st_wf s' /\ tool_call_post s s' b tool payout r.
Proof.
  intros Hwf Hb Hpay. unfold try_tool_call.
  destruct (tool_call_spends b tool payout) as [[l names]|] eqn:E; [|done].
  destruct (tool_spends_facts b tool payout l names Hb Hpay E) as (Hnd & Hlen & Hty & _).
  pose proof (st_spend_law s l Hwf Hty) as Hlaw.
  destruct (st_try_spend_many s l) as [s' r]. destruct Hlaw as (Hwf' & Hr & Hl).
  split; [done|]. destruct (Contract.try_spend_many (st_view s) l) as [L' r'] eqn:Hs.
  cbn in Hr, Hl. subst r'. destruct r as [[m|i]|e].
  - apply spec_spend_committed in Hs as (_ & Hf & -> & ->). by exists l, names.
  - assert (L' = st_view s) as -> by by eapply spec_spend_other.
    apply spec_spend_refused in Hs as (sp & Hsp & _). rewrite Hsp. cbn.
    destruct (names !! i) eqn:En; cbn; [done|].
    apply lookup_lt_Some in Hsp. apply lookup_ge_None in En. lia.
  - assert (L' = st_view s) as -> by by eapply spec_spend_other.
    split; [done|]. unfold Contract.try_spend_many in Hs.
    rewrite (proj2 (refuse_duplicates_ok l) Hnd) in Hs.
    destruct (find_index _ l) as [[j sp]|]; [|done].
    destruct (Contract.out_of_range sp); inversion Hs. eauto.
Qed.

Lemma refund_tool_call_law s b tool payout : st_wf s -> is_u64 payout ->
  st_wf (refund_tool_call s b tool payout) /\
  st_view (refund_tool_call s b tool payout)
    =L Contract.refund_many (st_view s) (tool_call_refunds b tool payout).
Proof.
  intros Hwf Hpay. unfold refund_tool_call.
  destruct (tool_call_refunds b tool payout) as [|r rs] eqn:E; [done|].
  apply st_refund_many_law; [done|]. rewrite <- E. unfold tool_call_refunds.
  assert (is_u64 1) by (split; vm_compute; congruence).
  repeat case_match; repeat constructor; try done; apply Hpay || apply H2.
Qed.

Lemma try_tokens_spec s b n : st_wf s -> typed_budget b -> is_u64 n ->
  let '(s', r) := try_tokens s b n in
  st_wf s' /\
  match r with
  | Ok (Allowed _) =>
      st_view s' =L match max_tokens (ab_spec b) with
                    | Some _ => Contract.charge (st_view s) [mkSpend (key b (lit "tokens")) n 0]
                    | None => st_view s
                    end /\
      (forall cap, max_tokens (ab_spec b) = Some cap ->
         st_view s (key b (lit "tokens")) + n <= cap)
  | _ => st_view s' =L st_view s
  end.
Proof.
  intros Hwf (Ht & _) Hn. unfold try_tokens.
  destruct (max_tokens (ab_spec b)) as [cap|] eqn:E; [|done].
  set (sp := mkSpend (key b (lit "tokens")) n cap).
  assert (Forall spend_typed [sp]) as Hty by (repeat constructor; cbn; apply Hn || by apply Ht).
  pose proof (st_spend_law s [sp] Hwf Hty) as Hlaw.
  destruct (st_try_spend_many s [sp]) as [s' r]. destruct Hlaw as (Hwf' & Hr & Hl).
  split; [done|]. destruct (Contract.try_spend_many (st_view s) [sp]) as [L' r'] eqn:Hs.
  cbn in Hr, Hl. subst r'. destruct r as [[m|i]|e].
  - apply spec_spend_committed in Hs as (_ & Hf & -> & _). split.
    + rewrite Hl. intros k. unfold Contract.charge. rewrite !filter_cons, !filter_nil.
      subst sp. cbn [sp_key]. by destruct (decide (key b (lit "tokens") = k)).
    + intros ? [= <-]. apply Forall_cons in Hf as [Hf _]. unfold Contract.fits in Hf. b2p. done.
  - assert (L' = st_view s) as -> by by eapply spec_spend_other. done.
  - assert (L' = st_view s) as -> by by eapply spec_spend_other. done.
Qed.
End ToolCalls.

(** * Properties *)

(** Tool-call accounting, for every backend that keeps the [StateStore]
    contract.  An allowed call raises each configured counter (total calls, this
    tool's calls, payout) by exactly its amount, none of them past its cap, and
    touches no other counter; a refused call and a failing call change no counter;
    and the only error is a counter-range overflow: the duplicate-key and
    bad-index branches are unreachable. *)
Theorem try_tool_call_accounting {SHA : Sha256} `{StateStoreLaws St}
    (s s' : St) (b : ActionBudget) (tool : str) (payout : Z) r :
  st_wf s -> typed_budget b -> is_u64 payout ->
  try_tool_call s b tool payout = (s', r) ->
  st_wf s' /\
  match r with
  | Ok (Allowed _) =>
      exists l names, tool_call_spends b tool payout = Some (l, names) /\
      (forall sp, sp ∈ l -> st_view s' (sp_key sp) = st_view s (sp_key sp) + sp_amount sp
                            /\ st_view s' (sp_key sp) <= sp_limit sp) /\
      (forall k, k ∉ map sp_key l -> st_view s' k = st_view s k)
  | Ok (BudgetRefused _ _) => forall k, st_view s' k = st_view s k
  | Err e => (forall k, st_view s' k = st_view s k) /\ exists k, e = Overflow k
  end.
Proof.
  intros Hwf Hb Hp Ht. pose proof (try_tool_call_spec s b tool payout Hwf Hb Hp) as Hs.
  rewrite Ht in Hs. destruct Hs as [? Hpost]. split; [done|].
  destruct r as [[m|]|]; cbn in Hpost; [|done..].
  destruct Hpost as (l & names & Hl & Hf & Hv & _). exists l, names. split; [done|].
  destruct (tool_spends_facts b tool payout l names Hb Hp Hl) as (Hnd & _). split.
  - intros sp Hsp. rewrite (Hv (sp_key sp)), InMemoryFacts.charge_at by done.
    rewrite Forall_forall in Hf. specialize (Hf _ Hsp). unfold Contract.fits in Hf. b2p. lia.
  - intros k Hk. by rewrite (Hv k), InMemoryFacts.charge_notin.
Qed.

Definition sample_spec : BudgetSpec :=
  mkBudgetSpec (Some 1000) (Some 50000000) {[lit "db_write" := 3]} (Some 10).
Definition sample_budget : ActionBudget := for_session (lit "s1") sample_spec.

Lemma sample_typed : typed_budget sample_budget.
Proof.
  split; [|split; [|split]].
  1-3: (intros ? [= <-]; split; vm_compute; congruence).
  intros k c Hk. cbn in Hk. apply lookup_singleton_Some in Hk as [_ <-]. split; vm_compute; congruence.
Defined.

Lemma u64_2000 : is_u64 2000.
Proof. split; vm_compute; congruence. Defined.

Abbreviation toy_call :=
  (@try_tool_call toy_sha256 InMemory.t (@InMemory.store ascii_tables)).

Definition toy_after : InMemory.t := (toy_call InMemory.new sample_budget (lit "db_write") 2000).1.

Lemma toy_call_allowed :
  toy_call InMemory.new sample_budget (lit "db_write") 2000 = (toy_after, Ok (Allowed 2)).
Proof. apply snd_eq_pair. vm_compute. reflexivity. Qed.

Lemma try_tool_call_accounting_witness :
  InMemoryFacts.wf toy_after.
Proof.
  exact (proj1 (@try_tool_call_accounting toy_sha256 InMemory.t ascii_tables _ (@InMemoryFacts.store_laws ascii_tables)
           InMemory.new toy_after sample_budget (lit "db_write") 2000 (Ok (Allowed 2))
           InMemoryFacts.wf_new sample_typed u64_2000
           toy_call_allowed)).
Defined.

(** Compensation is exact: refunding an allowed tool call (a lost execution
    claim, a saturated worker) restores every counter of every ledger. *)
Theorem tool_call_refund_roundtrip {SHA : Sha256} `{StateStoreLaws St}
    (s s' : St) (b : ActionBudget) (tool : str) (payout m : Z) :
  st_wf s -> typed_budget b -> is_u64 payout ->
  try_tool_call s b tool payout = (s', Ok (Allowed m)) ->
  forall k, st_view (refund_tool_call s' b tool payout) k = st_view s k.
Proof.
  intros Hwf Hb Hp Ht. pose proof (try_tool_call_spec s b tool payout Hwf Hb Hp) as Hs.
  rewrite Ht in Hs. destruct Hs as [Hwf' (l & names & Hl & Hf & Hv & _)].
  destruct (tool_spends_facts b tool payout l names Hb Hp Hl) as (Hnd & _ & _ & Hrf & _).
  destruct (refund_tool_call_law s' b tool payout Hwf' Hp) as [_ Hr].
  intros k. rewrite (Hr k), Hrf. rewrite (spec_refund_many_ext _ _ _ Hv k).
  apply refund_charge; [|done]. intros k'. by apply st_view_range.
Qed.

Lemma tool_call_refund_roundtrip_witness :
  InMemory.load
    (@refund_tool_call toy_sha256 InMemory.t (@InMemory.store ascii_tables)
       toy_after sample_budget (lit "db_write") 2000)
    (@key toy_sha256 sample_budget (lit "payout")) = 0.
Proof.
  exact (@tool_call_refund_roundtrip toy_sha256 InMemory.t ascii_tables _ (@InMemoryFacts.store_laws ascii_tables)
           InMemory.new toy_after sample_budget (lit "db_write") 2000 2
           InMemoryFacts.wf_new sample_typed u64_2000
           toy_call_allowed (@key toy_sha256 sample_budget (lit "payout"))).
Defined.

(** Ledger isolation: whatever the identifiers, a session counter is never a
    principal counter, and dropping a closed session's counters by prefix leaves
    every principal counter as it was, so the principal ledger outlives sessions. *)
Theorem principal_ledger_survives_session_close {SHA : Sha256} `{StateStoreLaws St}
    (s : St) (session principal : str) (spec : BudgetSpec) (dim : str) :
  st_wf s ->
  st_view (st_remove_prefix s (session_prefix session)) (key (for_principal principal spec) dim)
  = st_view s (key (for_principal principal spec) dim) /\
  forall d, st_view (st_remove_prefix s (session_prefix session)) (key (for_session session spec) d) = 0.
Proof.
  intros Hwf. destruct (st_remove_prefix_law s (session_prefix session) Hwf) as [_ Hv].
  split; [|intros d]; rewrite (Hv _); unfold Contract.remove_prefix, key; cbn [scope_prefix ab_scope for_principal for_session].
  - by rewrite session_prefix_principal.
  - by rewrite starts_with_app.
Qed.

Lemma principal_ledger_survives_session_close_witness :
  InMemory.load (InMemory.remove_prefix InMemory.new (@session_prefix toy_sha256 (lit "s1")))
    (@key toy_sha256 (for_principal (lit "p") sample_spec) (lit "tokens"))
  = InMemory.load InMemory.new
      (@key toy_sha256 (for_principal (lit "p") sample_spec) (lit "tokens")).
Proof.
  exact (proj1 (@principal_ledger_survives_session_close toy_sha256 InMemory.t ascii_tables _ (@InMemoryFacts.store_laws ascii_tables)
                  InMemory.new (lit "s1") (lit "p") sample_spec (lit "tokens")
                  InMemoryFacts.wf_new)).
Defined.
