(* ===== verification/Sandbox.v ===== *)
(** The sandbox ([av-sandbox]: [policy.rs] and [sandbox.rs]): the policy chain,
    the payout amount, and the gates parse, schema, policy and budget of
    [check_with_principal], over any [StateStore]. *)

From S2P Require Import Prelude Rust CoreBase Json Float Core Rpc Store Budget.

(** * policy.rs *)

Inductive PolicyDecision :=
| PolicyAllow
| Deny (reason : str).

(** [trait PolicyEngine]: a total evaluation of (tool, arguments). *)
Record PolicyEngine := mkPolicy {
  policy_name : str;
  evaluate : str -> Value -> PolicyDecision;
}.

Section Policies.
Context {UT : UnicodeTables}.

Definition deny_tools (tools : list str) : PolicyEngine :=
  let denied : gset str := list_to_set tools in
  mkPolicy (lit "deny_tools") (fun tool _ =>
    if bool_decide (tool ∈ denied)
    then Deny (lit "tool " ++ fmt_debug tool ++ lit " is deny-listed")
    else PolicyAllow).

Definition allow_only (tools : list str) : PolicyEngine :=
  let allowed : gset str := list_to_set tools in
  mkPolicy (lit "allow_only") (fun tool _ =>
    if bool_decide (tool ∈ allowed) then PolicyAllow
    else Deny (lit "tool " ++ fmt_debug tool ++ lit " is not allow-listed")).
End Policies.

(** * Schemas *)

(** The [jsonschema] crate: compile a schema (formats enforced), and list the
    errors of an instance. *)
Class JsonSchema := {
  Validator : Type;
  compile : Value -> result Validator str;
  iter_errors : Validator -> Value -> list str;
}.

(** [{}] on an [f64]. *)
Class DisplayF64 := { fmt_f64 : f64 -> str }.

(** * sandbox.rs *)

Record SandboxConfig := mkSandboxConfig {
  schemas : list (str * Value);
  cfg_budget : BudgetSpec;
  payout_field : str;
  require_schema : bool;
}.

Definition default_sandbox_config : SandboxConfig :=
  mkSandboxConfig [] (mkBudgetSpec None None ∅ None) (lit "amount_usd") false.

Inductive ToolVerdict :=
| ToolAllowed (tool : str) (budget_remaining elapsed_us payout_micros : Z) (principal_id : option str)
| Blocked (tool stage : str) (policy : option str) (denial_code : DenialCode) (reason : str)
    (response : Value) (elapsed_us : Z).

Definition verdict_is_allowed (v : ToolVerdict) : bool :=
  match v with ToolAllowed _ _ _ _ _ => true | Blocked _ _ _ _ _ _ _ => false end.

Definition verdict_elapsed_us (v : ToolVerdict) : Z :=
  match v with ToolAllowed _ _ e _ _ => e | Blocked _ _ _ _ _ _ e => e end.

(** [f.ceil() as u64]: the least integer not below [f] (a double, since [f] is),
    then the saturating cast. *)
Definition ceil_as_u64 (f : f64) : Z :=
  match f with
  | S754_nan | S754_zero _ => 0
  | S754_infinity s => if s then 0 else u64_max
  | S754_finite s m e =>
      let z := if s then Zneg m else Zpos m in
      let c := if e >=? 0 then z * 2 ^ e else - ((- z) / 2 ^ (- e)) in
      Z.max 0 (Z.min u64_max c)
  end.

(** [1.0e12]. *)
Definition payout_sanity_bound : f64 := f64_of_int 1000000000000.

Section Sandbox.
Context {UT : UnicodeTables} {SJ : SerdeJson} {JR : JsonReader} {JS : JsonSchema} {DF : DisplayF64}.

Record Sandbox := mkSandbox {
  validators : list (str * Validator);
  policies : list PolicyEngine;
  config : SandboxConfig;
}.

(** The loop of [Sandbox::new] over the schemas, in map order. *)
Fixpoint compile_all (schemas : list (str * Value)) : result (list (str * Validator)) str :=
  match schemas with
  | [] => Ok []
  | (tool, schema) :: rest =>
      let? v := map_err (fun e => lit "schema for tool " ++ fmt_debug tool
                                  ++ lit " does not compile: " ++ e) (compile schema) in
      let? vs := compile_all rest in
      Ok ((tool, v) :: vs)
  end.

Definition sandbox_new (cfg : SandboxConfig) (ps : list PolicyEngine) : result Sandbox str :=
  let? vs := compile_all (schemas cfg) in Ok (mkSandbox vs ps cfg).

(** [validators.get(tool)]. *)
Fixpoint get_validator (tool : str) (vs : list (str * Validator)) : option Validator :=
  match vs with
  | [] => None
  | (t, v) :: vs' => if str_eqb t tool then Some v else get_validator tool vs'
  end.

Definition extract_payout_micros (arguments : Value) (field : str) : result Z str :=
  match value_get field arguments with
  | None => Ok 0
  | Some v =>
      let? usd := ok_or (as_f64 v) (field ++ lit " must be a number") in
      if negb (is_finite usd) || SFltb usd zero then
        Err (field ++ lit " must be a finite non-negative number, got " ++ fmt_f64 usd)
      else if SFltb payout_sanity_bound usd then
        Err (field ++ lit " of " ++ fmt_f64 usd ++ lit " exceeds sanity bounds")
      else Ok (ceil_as_u64 (f64_mul usd (f64_of_int USD_MICROS_PER_DOLLAR)))
  end.

(** The first policy that denies, with its reason. *)
Fixpoint first_deny (ps : list PolicyEngine) (tool : str) (arguments : Value) : option (str * str) :=
  match ps with
  | [] => None
  | p :: ps' =>
      match evaluate p tool arguments with
      | Deny reason => Some (policy_name p, reason)
      | PolicyAllow => first_deny ps' tool arguments
      end
  end.

Definition policy_reason (name reason : str) : str :=
  lit "policy " ++ fmt_debug name ++ lit ": " ++ reason.

Definition sanitize (sb : Sandbox) (operation : str) (payload : Value) : result unit str :=
  match first_deny (policies sb) operation payload with
  | Some (name, reason) => Err (policy_reason name reason)
  | None => Ok tt
  end.

(** [StateError]'s [Display]. *)
Definition state_error_to_string (e : StateError) : str :=
  match e with
  | Overflow key => lit "counter overflow for key " ++ fmt_debug key
  | Backend m => lit "state backend unavailable: " ++ m
  end.

(** [errors.join("; ")]. *)
Fixpoint join_errors (errors : list str) : str :=
  match errors with
  | [] => []
  | [e] => e
  | e :: errors' => e ++ lit "; " ++ join_errors errors'
  end.

Definition block (req : ToolCallRequest) (stage : str) (policy : option str) (code : DenialCode)
    (reason : str) (elapsed : Z) : ToolVerdict :=
  Blocked (req_tool req) stage policy code reason (denial_error (req_id req) code reason) elapsed.

(** Gate 1: the verdict for a payload that does not parse. *)
Definition parse_failure (raw : list Z) (e : RpcError) (elapsed : Z) : ToolVerdict :=
  let '(stage, reason, code) :=
    match e with
    | NotToolCall _ => (lit "passthrough", lit "passthrough refused: " ++ rpc_error_to_string e,
                        PassthroughRefused)
    | _ => (lit "parse", rpc_error_to_string e, ParseError)
    end in
  Blocked (lit "<unparsed>") stage None code reason
    (protocol_error (detectable_error_id raw e) e) elapsed.

(** Gate 2: schema. *)
Definition schema_gate (sb : Sandbox) (req : ToolCallRequest) (elapsed : Z) : option ToolVerdict :=
  match get_validator (req_tool req) (validators sb) with
  | Some validator =>
      match take 3 (iter_errors validator (req_arguments req)) with
      | [] => None
      | errors =>
          Some (block req (lit "schema") None SchemaViolation
                  (lit "schema validation failed: " ++ join_errors errors) elapsed)
      end
  | None =>
      if require_schema (config sb) then
        Some (block req (lit "schema") None SchemaMissing
                (lit "no argument schema configured for tool " ++ fmt_debug (req_tool req)) elapsed)
      else None
  end.

(** Gate 3: policy chain. *)
Definition policy_gate (sb : Sandbox) (req : ToolCallRequest) (elapsed : Z) : option ToolVerdict :=
  match first_deny (policies sb) (req_tool req) (req_arguments req) with
  | Some (name, reason) =>
      Some (block req (lit "policy") (Some name) PolicyDenied (policy_reason name reason) elapsed)
  | None => None
  end.

Context {SHA : Sha256} `{StateStore St}.

Definition exceeded (who limit : str) (cap : Z) : str :=
  who ++ lit "action budget exceeded: " ++ limit ++ lit " (cap " ++ fmt_int cap ++ lit ")".
Definition failed_closed (who : str) (e : StateError) : str :=
  who ++ lit "budget check failed closed: " ++ state_error_to_string e.

(** Gate 4: the principal's ledger first, then the session's, with the
    principal's debit taken back when the session refuses. *)
Definition budget_gate (sb : Sandbox) (s : St) (session : str)
    (principal : option (str * BudgetSpec)) (req : ToolCallRequest) (payout elapsed : Z)
    : St * ToolVerdict :=
  let budget := for_session session (cfg_budget (config sb)) in
  let refuse who limit cap :=
    block req (lit "budget") None BudgetExceeded (exceeded who limit cap) elapsed in
  let fail who e := block req (lit "budget") None BudgetError (failed_closed who e) elapsed in
  match principal with
  | Some (principal_id, principal_spec) =>
      let principal_budget := for_principal principal_id principal_spec in
      let '(s1, r1) := try_tool_call s principal_budget (req_tool req) payout in
      match r1 with
      | Ok (BudgetRefused limit cap) => (s1, refuse (lit "principal ") limit cap)
      | Err e => (s1, fail (lit "principal ") e)
      | Ok (Allowed _) =>
          let '(s2, r2) := try_tool_call s1 budget (req_tool req) payout in
          match r2 with
          | Ok (Allowed remaining) =>
              (s2, ToolAllowed (req_tool req) remaining elapsed payout (Some principal_id))
          | Ok (BudgetRefused limit cap) =>
              (refund_tool_call s2 principal_budget (req_tool req) payout, refuse [] limit cap)
          | Err e => (refund_tool_call s2 principal_budget (req_tool req) payout, fail [] e)
          end
      end
  | None =>
      let '(s1, r1) := try_tool_call s budget (req_tool req) payout in
      match r1 with
      | Ok (Allowed remaining) => (s1, ToolAllowed (req_tool req) remaining elapsed payout None)
      | Ok (BudgetRefused limit cap) => (s1, refuse [] limit cap)
      | Err e => (s1, fail [] e)
      end
  end.

(** [elapsed] stands for what the monotonic clock measures. *)
Definition check_with_principal (sb : Sandbox) (s : St) (session : str)
    (principal : option (str * BudgetSpec)) (raw : list Z) (elapsed : Z) : St * ToolVerdict :=
  match parse_tool_call raw with
  | Err e => (s, parse_failure raw e elapsed)
  | Ok req =>
      match schema_gate sb req elapsed with
      | Some v => (s, v)
      | None =>
          match policy_gate sb req elapsed with
          | Some v => (s, v)
          | None =>
              match extract_payout_micros (req_arguments req) (payout_field (config sb)) with
              | Err reason =>
                  (s, block req (lit "budget") None PayoutInvalid reason elapsed)
              | Ok payout => budget_gate sb s session principal req payout elapsed
              end
          end
      end
  end.

Definition check (sb : Sandbox) (s : St) (session : str) (raw : list Z) (elapsed : Z)
  : St * ToolVerdict :=
  check_with_principal sb s session None raw elapsed.
End Sandbox.
