(* ===== verification/SandboxProofs.v ===== *)
(** Properties of the sandbox: a blocked call consumes nothing, an allowed call
    passed every gate and is charged exactly once per ledger, and a principal's
    cap holds over any number of sessions. *)

From S2P Require Import Prelude Rust CoreBase Json Float Core Rpc RpcProofs.
From S2P Require Import Store StoreProofs Budget BudgetProofs Sandbox.

(** * Payout amounts *)

Section Payout.

Lemma ceil_as_u64_range f : is_u64 (ceil_as_u64 f).
Proof.
  unfold is_u64, ceil_as_u64. assert (0 <= u64_max) by (vm_compute; congruence).
  destruct f as [| [] | |]; try lia.
Qed.

Lemma extract_payout_range {DF : DisplayF64} args field p :
  extract_payout_micros args field = Ok p -> is_u64 p.
Proof.
  unfold extract_payout_micros. destruct (value_get field args) as [v|]; cbn.
  - destruct (as_f64 v); cbn; [|done]. repeat case_match; try done.
    intros [= <-]. apply ceil_as_u64_range.
  - intros [= <-]. split; [lia|]. vm_compute. congruence.
Qed.

(** The least integer not below a positive number is at least one. *)
Lemma ceil_positive f :
  match f with S754_finite false _ _ | S754_infinity false => True | _ => False end ->
  1 <= ceil_as_u64 f.
Proof.
  assert (1 <= u64_max) by (vm_compute; congruence).
  destruct f as [| [] | |[] m e]; try done. intros _. unfold ceil_as_u64. cbv zeta.
  destruct (e >=? 0) eqn:E; b2p.
  - assert (0 < 2 ^ e) by (apply Z.pow_pos_nonneg; lia). nia.
  - assert (0 < 2 ^ (- e)) by (apply Z.pow_pos_nonneg; lia).
    assert (- Zpos m / 2 ^ (- e) < 0) by (apply Z.div_lt_upper_bound; lia). lia.
Qed.

Lemma micros_per_dollar_f64 :
  f64_of_int USD_MICROS_PER_DOLLAR = S754_finite false 8589934592000000 (-33).
Proof. vm_compute. reflexivity. Qed.

Lemma digits2_mono p q : (p <= q)%positive -> Zpos (digits2_pos p) <= Zpos (digits2_pos q).
Proof.
  intros Hpq. destruct (Z.lt_ge_cases (Zpos (digits2_pos q)) (Zpos (digits2_pos p))) as [Hlt|]; [|lia].
  destruct (digits2_bound p) as [Hp _], (digits2_bound q) as [_ Hq].
  assert (2 ^ Zpos (digits2_pos q) <= 2 ^ (Zpos (digits2_pos p) - 1)) by (apply Z.pow_le_mono_r; lia).
  lia.
Qed.

Lemma micros_positive f : valid_binary f64_prec f64_emax f = true -> is_finite f = true ->
  SFltb zero f = true -> 1 <= ceil_as_u64 (f64_mul f (f64_of_int USD_MICROS_PER_DOLLAR)).
Proof.
  rewrite micros_per_dollar_f64. destruct f as [| | |[] m e]; try done. intros Hv _ _.
  apply ceil_positive. cbn [f64_mul SFmul xorb]. unfold f64_mul, SFmul. cbn [xorb].
  apply binary_round_positive; [done|].
  cbn [valid_binary] in Hv. unfold bounded, canonical_mantissa, fexp in Hv. b2p.
  pose proof (digits2_mono 8589934592000000 (m * 8589934592000000) ltac:(lia)) as Hd.
  change (Zpos (digits2_pos 8589934592000000)) with 53 in Hd. lia.
Qed.
End Payout.

(** * The budget gate *)

Section Gate.
Context {UT : UnicodeTables} {SJ : SerdeJson} {JR : JsonReader} {JS : JsonSchema} {DF : DisplayF64}
  {SHA : Sha256} {St : Type} {SS : StateStore St} {SL : StateStoreLaws St}.

Definition spends_of (b : ActionBudget) (tool : str) (payout : Z) (l : list Spend) : Prop :=
  exists names, tool_call_spends b tool payout = Some (l, names).

Definition principal_typed (principal : option (str * BudgetSpec)) : Prop :=
  match principal with Some (_, spec) => spec_typed spec | None => True end.

(** What an allowed call charged: the principal's batch, then the session's. *)
Definition charged (sb : Sandbox) (session : str) (principal : option (str * BudgetSpec))
    (tool : str) (payout : Z) (L L' : str -> Z) : Prop :=
  exists lp ls,
    match principal with
    | Some (pid, spec) =>
        spends_of (for_principal pid spec) tool payout lp /\
        Forall (fun sp => Contract.fits L sp = true) lp
    | None => lp = []
    end /\
    spends_of (for_session session (cfg_budget (config sb))) tool payout ls /\
    Forall (fun sp => Contract.fits (Contract.charge L lp) sp = true) ls /\
    L' =L Contract.charge (Contract.charge L lp) ls.

Definition gate_post (sb : Sandbox) (s s' : St) (session : str)
    (principal : option (str * BudgetSpec)) (tool : str) (payout : Z) (v : ToolVerdict) : Prop :=
  match v with
  | ToolAllowed t _ _ p pid =>
      t = tool /\ p = payout /\ pid = fst <$> principal /\
      charged sb session principal tool payout (st_view s) (st_view s')
  | Blocked _ _ _ _ _ _ _ => st_view s' =L st_view s
  end.

Lemma charge_nil L : Contract.charge L [] =L L.
Proof. intros k. unfold Contract.charge. cbn. lia. Qed.

Lemma fits_ext L1 L2 l : L1 =L L2 -> Forall (fun sp => Contract.fits L1 sp = true) l ->
  Forall (fun sp => Contract.fits L2 sp = true) l.
Proof.
  intros HL Hf. eapply Forall_impl; [exact Hf|]. intros sp. unfold Contract.fits.
  by rewrite (HL (sp_key sp)).
Qed.

Lemma charge_ext L1 L2 l : L1 =L L2 -> Contract.charge L1 l =L Contract.charge L2 l.
Proof. intros HL k. unfold Contract.charge. by rewrite (HL k). Qed.

(** Taking back an admitted call restores the ledger, whatever unrelated
    refusal came in between. *)
Lemma unwind s s1 s2 b tool payout l : st_wf s -> st_wf s2 -> typed_budget b -> is_u64 payout ->
  spends_of b tool payout l -> st_view s1 =L Contract.charge (st_view s) l ->
  st_view s2 =L st_view s1 ->
  st_wf (refund_tool_call s2 b tool payout) /\
  st_view (refund_tool_call s2 b tool payout) =L st_view s.
Proof.
  intros Hwf Hwf2 Hb Hp [names Hl] H1 H2.
  destruct (tool_spends_facts b tool payout l names Hb Hp Hl) as (Hnd & _ & _ & Hrf & _).
  destruct (refund_tool_call_law s2 b tool payout Hwf2 Hp) as [Hwf' Hr]. split; [done|].
  intros k. rewrite (Hr k), Hrf.
  assert (st_view s2 =L Contract.charge (st_view s) l) as Hv by (intros x; by rewrite (H2 x), (H1 x)).
  rewrite (spec_refund_many_ext _ _ _ Hv k). apply refund_charge; [|done].
  intros k'. by apply st_view_range.
Qed.

Lemma budget_gate_spec sb s session principal req payout elapsed :
  st_wf s -> spec_typed (cfg_budget (config sb)) -> principal_typed principal -> is_u64 payout ->
  let '(s', v) := budget_gate sb s session principal req payout elapsed in
  st_wf s' /\ gate_post sb s s' session principal (req_tool req) payout v.
Proof.
  intros Hwf Hb Hp Hpay. unfold budget_gate.
  destruct principal as [[pid spec]|]; cbn in Hp.
  - pose proof (try_tool_call_spec s (for_principal pid spec) (req_tool req) payout Hwf Hp Hpay) as H1.
    destruct (try_tool_call s _ _ _) as [s1 r1]. destruct H1 as [Hwf1 H1].
    destruct r1 as [[m|]|e]; cbn in H1; [|done|by destruct H1].
    destruct H1 as (lp & names & Hlp & Hf & Hv1 & _).
    pose proof (try_tool_call_spec s1 (for_session session (cfg_budget (config sb)))
                  (req_tool req) payout Hwf1 Hb Hpay) as H2.
    destruct (try_tool_call s1 _ _ _) as [s2 r2]. destruct H2 as [Hwf2 H2].
    destruct r2 as [[m2|]|e]; cbn in H2.
    + split; [done|]. repeat (split; [done|]). destruct H2 as (ls & names2 & Hls & Hf2 & Hv2 & _).
      exists lp, ls. split; [by split; [eexists|]|]. split; [by eexists|]. split.
      * by eapply fits_ext.
      * intros k. rewrite (Hv2 k). by apply charge_ext.
    + eapply (unwind s s1 s2); try done. by eexists.
    + destruct H2 as [H2 _]. eapply (unwind s s1 s2); try done. by eexists.
  - pose proof (try_tool_call_spec s (for_session session (cfg_budget (config sb)))
                  (req_tool req) payout Hwf Hb Hpay) as H1.
    destruct (try_tool_call s _ _ _) as [s1 r1]. destruct H1 as [Hwf1 H1].
    destruct r1 as [[m|]|e]; cbn in H1; [|done|by destruct H1].
    split; [done|]. repeat (split; [done|]). destruct H1 as (ls & names & Hls & Hf & Hv & _).
    exists [], ls. split; [done|]. split; [by eexists|].
    assert (st_view s =L Contract.charge (st_view s) []) as He
      by (intros k; symmetry; apply charge_nil).
    split; [by eapply fits_ext|]. intros k. rewrite (Hv k). by apply charge_ext.
Qed.

(** The whole check. *)
Definition passed_gates (sb : Sandbox) (raw : list Z) (req : ToolCallRequest) (payout : Z) : Prop :=
  parse_tool_call raw = Ok req /\
  match get_validator (req_tool req) (validators sb) with
  | Some v => iter_errors v (req_arguments req) = []
  | None => require_schema (config sb) = false
  end /\
  Forall (fun p => evaluate p (req_tool req) (req_arguments req) = PolicyAllow) (policies sb) /\
  extract_payout_micros (req_arguments req) (payout_field (config sb)) = Ok payout.

Lemma first_deny_None ps tool args : first_deny ps tool args = None <->
  Forall (fun p => evaluate p tool args = PolicyAllow) ps.
Proof.
  induction ps as [|p ps IH]; cbn; [by split|]. rewrite Forall_cons.
  destruct (evaluate p tool args); [rewrite IH|]; naive_solver.
Qed.

Lemma schema_gate_None sb req elapsed : schema_gate sb req elapsed = None <->
  match get_validator (req_tool req) (validators sb) with
  | Some v => iter_errors v (req_arguments req) = []
  | None => require_schema (config sb) = false
  end.
Proof.
  unfold schema_gate. destruct (get_validator _ _) as [v|].
  - destruct (iter_errors v _); cbn; naive_solver.
  - destruct (require_schema _); naive_solver.
Qed.

Lemma gate_blocks sb req elapsed v :
  schema_gate sb req elapsed = Some v \/ policy_gate sb req elapsed = Some v ->
  verdict_is_allowed v = false.
Proof.
  unfold schema_gate, policy_gate, block.
  intros [H1|H1]; repeat break_hyp H1; try done; by injection H1 as <-.
Qed.

Lemma check_spec sb s session principal raw elapsed :
  st_wf s -> spec_typed (cfg_budget (config sb)) -> principal_typed principal ->
  let '(s', v) := check_with_principal sb s session principal raw elapsed in
  st_wf s' /\
  ((exists req payout, passed_gates sb raw req payout /\
      gate_post sb s s' session principal (req_tool req) payout v) \/
   (verdict_is_allowed v = false /\ s' = s)).
Proof.
  intros Hwf Hb Hp. unfold check_with_principal.
  destruct (parse_tool_call raw) as [req|e] eqn:Ep.
  2:{ split; [done|]. right. split; [|done]. unfold parse_failure. by destruct e. }
  destruct (schema_gate sb req elapsed) as [v|] eqn:Es.
  { split; [done|]. right. split; [|done]. eapply gate_blocks. eauto. }
  destruct (policy_gate sb req elapsed) as [v|] eqn:Epo.
  { split; [done|]. right. split; [|done]. eapply gate_blocks. eauto. }
  destruct (extract_payout_micros _ _) as [payout|] eqn:Ex; [|split; [done|by right]].
  pose proof (extract_payout_range _ _ _ Ex) as Hpay.
  pose proof (budget_gate_spec sb s session principal req payout elapsed Hwf Hb Hp Hpay) as Hg.
  destruct (budget_gate _ _ _ _ _ _ _) as [s' v]. destruct Hg as [Hwf' Hg]. split; [done|].
  left. exists req, payout. split; [|done]. split; [done|].
  split; [by apply schema_gate_None in Es|]. split; [|done].
  unfold policy_gate in Epo. apply first_deny_None.
  by destruct (first_deny _ _ _) as [[]|].
Qed.
End Gate.

(** * A principal's quota over many sessions *)

Section Rotation.
Context {UT : UnicodeTables} {SJ : SerdeJson} {JR : JsonReader} {JS : JsonSchema} {DF : DisplayF64}
  {SHA : Sha256} {St : Type} {SS : StateStore St} {SL : StateStoreLaws St}.

(** What a client of one identity can cause: calls under session ids of its
    choice, and sessions being closed (their counters dropped by prefix). *)
Inductive event :=
| EvCheck (session : str) (raw : list Z) (elapsed : Z)
| EvClose (session : str).

(** The store after the events, and the number of calls allowed. *)
Fixpoint run_events (sb : Sandbox) (pid : str) (spec : BudgetSpec) (s : St) (evs : list event)
  : St * Z :=
  match evs with
  | [] => (s, 0)
  | EvCheck session raw elapsed :: evs' =>
      let '(s1, v) := check_with_principal sb s session (Some (pid, spec)) raw elapsed in
      let '(s2, n) := run_events sb pid spec s1 evs' in
      (s2, (if verdict_is_allowed v then 1 else 0) + n)
  | EvClose session :: evs' => run_events sb pid spec (st_remove_prefix s (session_prefix session)) evs'
  end.

Definition total_key (pid : str) (spec : BudgetSpec) : str :=
  key (for_principal pid spec) (lit "total_calls").

Lemma session_spends_other session spec tool payout l pid pspec : spec_typed spec -> is_u64 payout ->
  spends_of (for_session session spec) tool payout l -> total_key pid pspec ∉ map sp_key l.
Proof.
  intros Hs Hp [names Hl] Hin.
  destruct (tool_spends_facts (for_session session spec) _ _ _ _ Hs Hp Hl) as (_ & _ & _ & _ & Hk).
  apply list_elem_of_In, in_map_iff in Hin as (sp & Heq & Hsp). rewrite Forall_forall in Hk.
  apply list_elem_of_In in Hsp. destruct (Hk sp Hsp) as [d Hd]. rewrite Hd in Heq.
  by apply prefix_disjoint in Heq.
Qed.

Lemma principal_spends_total pid spec tool payout l cap : max_total_tool_calls spec = Some cap ->
  spends_of (for_principal pid spec) tool payout l -> mkSpend (total_key pid spec) 1 cap ∈ l.
Proof.
  intros Hc [names Hl]. unfold tool_call_spends in Hl. cbn [ab_spec for_principal] in Hl. rewrite Hc in Hl.
  destruct (payout >? 0); [destruct (max_payout_usd_micros spec); [|done]|];
    injection Hl as <- _; cbn; left.
Qed.

Lemma charged_total sb session pid spec tool payout L L' cap :
  spec_typed (cfg_budget (config sb)) -> spec_typed spec -> is_u64 payout ->
  max_total_tool_calls spec = Some cap ->
  charged sb session (Some (pid, spec)) tool payout L L' ->
  L' (total_key pid spec) = L (total_key pid spec) + 1 /\ L' (total_key pid spec) <= cap.
Proof.
  intros Hb Hs Hp Hc (lp & ls & [Hlp Hf] & Hls & _ & Hv). rewrite (Hv _).
  rewrite InMemoryFacts.charge_notin by (eapply session_spends_other; [exact Hb|exact Hp|exact Hls]).
  pose proof (principal_spends_total _ _ _ _ _ _ Hc Hlp) as Hin. destruct Hlp as [names Hlp].
  destruct (tool_spends_facts (for_principal pid spec) _ _ _ _ Hs Hp Hlp) as (Hnd & _).
  pose proof (InMemoryFacts.charge_at L lp _ Hnd Hin) as Hat. cbn [sp_amount sp_key] in Hat.
  rewrite Hat.
  rewrite Forall_forall in Hf. specialize (Hf _ Hin). unfold Contract.fits in Hf. b2p. cbn in *. lia.
Qed.

Lemma check_total sb s session pid spec raw elapsed cap :
  st_wf s -> spec_typed (cfg_budget (config sb)) -> spec_typed spec ->
  max_total_tool_calls spec = Some cap ->
  let '(s', v) := check_with_principal sb s session (Some (pid, spec)) raw elapsed in
  st_wf s' /\
  st_view s' (total_key pid spec) =
    st_view s (total_key pid spec) + (if verdict_is_allowed v then 1 else 0) /\
  (verdict_is_allowed v = true -> st_view s' (total_key pid spec) <= cap).
Proof.
  intros Hwf Hb Hs Hc. pose proof (check_spec sb s session (Some (pid, spec)) raw elapsed Hwf Hb Hs) as H.
  destruct (check_with_principal _ _ _ _ _ _) as [s' v]. destruct H as [Hwf' H]. split; [done|].
  destruct H as [(req & payout & Hg & H)|[Hv ->]]; [|rewrite Hv; split; [lia|done]].
  destruct v as [t rem el p pid'|]; cbn in H |- *; [|rewrite (H _); split; [lia|done]].
  destruct H as (_ & -> & _ & H). destruct Hg as (_ & _ & _ & Hx).
  apply extract_payout_range in Hx. eapply charged_total in H as [H1 H2]; try done.
Qed.

Lemma close_total s session pid spec : st_wf s ->
  st_wf (st_remove_prefix s (session_prefix session)) /\
  st_view (st_remove_prefix s (session_prefix session)) (total_key pid spec) =
  st_view s (total_key pid spec).
Proof.
  intros Hwf. destruct (st_remove_prefix_law s (session_prefix session) Hwf) as [Hwf' Hv].
  split; [done|]. rewrite (Hv _). unfold Contract.remove_prefix, total_key, key. cbn [scope_prefix ab_scope for_principal].
  by rewrite session_prefix_principal.
Qed.

Lemma run_events_total sb pid spec cap s evs : st_wf s ->
  spec_typed (cfg_budget (config sb)) -> spec_typed spec -> max_total_tool_calls spec = Some cap ->
  let '(s', n) := run_events sb pid spec s evs in
  0 <= n /\ st_view s' (total_key pid spec) = st_view s (total_key pid spec) + n /\
  (0 < n -> st_view s (total_key pid spec) + n <= cap).
Proof.
  intros Hwf Hb Hs Hc. revert s Hwf. induction evs as [|[session raw el|session] evs IH];
    intros s Hwf; cbn [run_events].
  - lia.
  - pose proof (check_total sb s session pid spec raw el cap Hwf Hb Hs Hc) as H1.
    destruct (check_with_principal _ _ _ _ _ _) as [s1 v]. destruct H1 as (Hwf1 & H1 & Hle).
    specialize (IH s1 Hwf1). destruct (run_events sb pid spec s1 evs) as [s2 n].
    destruct IH as (Hn & H2 & Hcap). destruct (verdict_is_allowed v); [specialize (Hle eq_refl)|];
      (split; [lia|]); (split; [lia|]); intros ?; destruct (decide (0 < n)); lia.
  - destruct (close_total s session pid spec Hwf) as [Hwf1 Hv]. specialize (IH _ Hwf1).
    destruct (run_events _ _ _ _ evs) as [s2 n]. rewrite Hv in IH. exact IH.
Qed.
End Rotation.

(** No payout escapes accounting: a positive payout amount, however small, is
    charged as at least one micro-dollar (so the cap, or its absence, always has
    a say), while an absent field costs nothing and anything that is not a
    finite non-negative number within the sanity bound is refused. *)
Theorem positive_payout_is_charged {DF : DisplayF64} (arguments : Value) (field : str) (v : Value)
    (usd : f64) :
  value_get field arguments = Some v -> as_f64 v = Some usd ->
  valid_binary f64_prec f64_emax usd = true ->
  match extract_payout_micros arguments field with
  | Ok micros => is_u64 micros /\ is_finite usd = true /\ SFltb usd zero = false /\
                 SFltb payout_sanity_bound usd = false /\
                 (SFltb zero usd = true -> 1 <= micros)
  | Err _ => is_finite usd = false \/ SFltb usd zero = true \/ SFltb payout_sanity_bound usd = true
  end.
Proof.
  intros Hv Hf Hb. pose proof (extract_payout_range arguments field) as Hr.
  destruct (extract_payout_micros arguments field) as [p|] eqn:E; unfold extract_payout_micros in E;
    rewrite Hv, Hf in E; cbn [ok_or] in E.
  - split; [by apply Hr|]. destruct (negb (is_finite usd) || _) eqn:E1; [done|]. b2p.
    destruct (SFltb payout_sanity_bound usd) eqn:E2; [done|]. apply Ok_inj in E as <-.
    repeat split; try done. intros Hpos. by apply micros_positive.
  - destruct (negb (is_finite usd) || _) eqn:E1.
    + apply orb_prop in E1 as [E1|E1]; b2p; auto.
    + destruct (SFltb payout_sanity_bound usd); [auto|done].
Qed.

(** C1. A blocked call is fully non-consumptive: whichever gate refuses (and also
    when the principal's ledger had already been debited) every counter of
    every ledger reads as before the call. *)
Theorem blocked_call_consumes_nothing {UT : UnicodeTables} {SJ : SerdeJson} {JR : JsonReader}
    {JS : JsonSchema} {DF : DisplayF64} {SHA : Sha256} {St : Type} {SS : StateStore St}
    {SL : StateStoreLaws St} (sb : Sandbox) (s : St) (session : str)
    (principal : option (str * BudgetSpec)) (raw : list Z) (elapsed : Z) :
  st_wf s -> spec_typed (cfg_budget (config sb)) -> principal_typed principal ->
  verdict_is_allowed (check_with_principal sb s session principal raw elapsed).2 = false ->
  forall k, st_view (check_with_principal sb s session principal raw elapsed).1 k = st_view s k.
Proof.
  intros Hwf Hb Hp. pose proof (check_spec sb s session principal raw elapsed Hwf Hb Hp) as H.
  destruct (check_with_principal _ _ _ _ _ _) as [s' v]. cbn. intros Hv k.
  destruct H as [_ [(req & payout & _ & H)|[_ ->]]]; [|done]. by destruct v.
Qed.

(** An allowed call passed every gate: it parsed, its arguments have no
    schema error (or no schema is required), every policy allowed it, and the
    payout taken from its arguments was charged within the caps, once on the
    principal's ledger when there is one and once on the session's, with no
    other counter changed. *)
Theorem allowed_call_passed_every_gate {UT : UnicodeTables} {SJ : SerdeJson} {JR : JsonReader}
    {JS : JsonSchema} {DF : DisplayF64} {SHA : Sha256} {St : Type} {SS : StateStore St}
    {SL : StateStoreLaws St} (sb : Sandbox) (s s' : St) (session : str)
    (principal : option (str * BudgetSpec)) (raw : list Z) (elapsed : Z)
    tool remaining el payout pid :
  st_wf s -> spec_typed (cfg_budget (config sb)) -> principal_typed principal ->
  check_with_principal sb s session principal raw elapsed =
    (s', ToolAllowed tool remaining el payout pid) ->
  exists req, req_tool req = tool /\ passed_gates sb raw req payout /\ pid = fst <$> principal /\
    charged sb session principal tool payout (st_view s) (st_view s').
Proof.
  intros Hwf Hb Hp Hc. pose proof (check_spec sb s session principal raw elapsed Hwf Hb Hp) as H.
  rewrite Hc in H. destruct H as [_ [(req & p & Hg & -> & -> & Hpid & Hch)|[Hv _]]]; [|done].
  by exists req.
Qed.

(** C18. Header rotation does not reset a principal's quota: over any sequence of
    calls under any session ids, with sessions closed and their counters
    dropped at any point, the calls allowed to a principal are exactly what its
    ledger records and never exceed its cap. *)
Theorem principal_cap_survives_rotation {UT : UnicodeTables} {SJ : SerdeJson} {JR : JsonReader}
    {JS : JsonSchema} {DF : DisplayF64} {SHA : Sha256} {St : Type} {SS : StateStore St}
    {SL : StateStoreLaws St} (sb : Sandbox) (pid : str) (spec : BudgetSpec) (cap : Z) (s : St)
    (evs : list event) :
  st_wf s -> spec_typed (cfg_budget (config sb)) -> spec_typed spec ->
  max_total_tool_calls spec = Some cap ->
  let '(s', n) := run_events sb pid spec s evs in
  n <= cap /\ st_view s' (total_key pid spec) = st_view s (total_key pid spec) + n.
Proof.
  intros Hwf Hb Hs Hc. pose proof (run_events_total sb pid spec cap s evs Hwf Hb Hs Hc) as H.
  destruct (run_events sb pid spec s evs) as [s' n]. destruct H as (Hn & Hv & Hcap). split; [|done].
  pose proof (st_view_range s (total_key pid spec) Hwf). destruct (decide (0 < n)); [lia|].
  destruct Hs as (_ & _ & Ht & _). specialize (Ht cap Hc). unfold is_u64 in Ht. lia.
Qed.

(** * Evaluation *)

Definition toy_schema : JsonSchema :=
  {| Validator := unit; compile _ := Ok tt; iter_errors _ _ := [] |}.
Definition toy_display : DisplayF64 := {| fmt_f64 _ := lit "0" |}.

Definition no_calls : BudgetSpec := mkBudgetSpec None (Some 50000000) ∅ (Some 0).
Definition toy_sandbox (spec : BudgetSpec) : @Sandbox toy_schema :=
  @mkSandbox toy_schema [(lit "db_write", tt)] [@deny_tools ascii_tables [lit "shell"]]
    (mkSandboxConfig [] spec (lit "amount_usd") true).

Abbreviation toy_check :=
  (@check_with_principal ascii_tables toy_serde toy_reader toy_schema toy_display toy_sha256
     InMemory.t (@InMemory.store ascii_tables)).
Abbreviation toy_laws := (@InMemoryFacts.store_laws ascii_tables).

Lemma no_calls_typed : spec_typed no_calls.
Proof.
  split; [|split; [|split]].
  1-3: (intros ? [= <-]; split; vm_compute; congruence).
  apply map_Forall_empty.
Qed.

(** The session refuses after the principal admitted: the principal is refunded. *)
Lemma toy_blocked :
  verdict_is_allowed (toy_check (toy_sandbox no_calls) InMemory.new (lit "s1")
    (Some (lit "p", sample_spec)) toy_text 5).2 = false.
Proof. vm_compute. reflexivity. Qed.

Lemma blocked_call_consumes_nothing_witness :
  InMemory.load (toy_check (toy_sandbox no_calls) InMemory.new (lit "s1")
    (Some (lit "p", sample_spec)) toy_text 5).1 (@total_key toy_sha256 (lit "p") sample_spec) = 0.
Proof.
  exact (@blocked_call_consumes_nothing ascii_tables toy_serde toy_reader toy_schema toy_display
    toy_sha256 InMemory.t _ toy_laws (toy_sandbox no_calls) InMemory.new (lit "s1")
    (Some (lit "p", sample_spec)) toy_text 5 InMemoryFacts.wf_new no_calls_typed sample_typed
    toy_blocked (@total_key toy_sha256 (lit "p") sample_spec)).
Defined.

Definition toy_checked : InMemory.t :=
  (toy_check (toy_sandbox sample_spec) InMemory.new (lit "s1") (Some (lit "p", sample_spec)) toy_text 5).1.

Lemma toy_allowed :
  toy_check (toy_sandbox sample_spec) InMemory.new (lit "s1") (Some (lit "p", sample_spec)) toy_text 5
  = (toy_checked, ToolAllowed (lit "db_write") 2 5 2000000 (Some (lit "p"))).
Proof. unfold toy_checked. apply snd_eq_pair. vm_compute. reflexivity. Qed.

Lemma allowed_call_passed_every_gate_witness :
  exists req, req_tool req = lit "db_write" /\
    @passed_gates ascii_tables toy_serde toy_reader toy_schema toy_display
      (toy_sandbox sample_spec) toy_text req 2000000.
Proof.
  destruct (@allowed_call_passed_every_gate ascii_tables toy_serde toy_reader toy_schema toy_display
    toy_sha256 InMemory.t _ toy_laws (toy_sandbox sample_spec) InMemory.new toy_checked (lit "s1")
    (Some (lit "p", sample_spec)) toy_text 5 (lit "db_write") 2 5 2000000 (Some (lit "p"))
    InMemoryFacts.wf_new sample_typed sample_typed toy_allowed) as (req & Ht & Hg & _).
  exists req. exact (conj Ht Hg).
Defined.

Definition toy_events_rotation : list event :=
  [EvCheck (lit "s1") toy_text 1; EvClose (lit "s1"); EvCheck (lit "s2") toy_text 1].

Lemma principal_cap_survives_rotation_witness :
  let '(_, n) := @run_events ascii_tables toy_serde toy_reader toy_schema toy_display toy_sha256
      InMemory.t (@InMemory.store ascii_tables) (toy_sandbox sample_spec) (lit "p") sample_spec
      InMemory.new toy_events_rotation in
  n <= 10.
Proof.
  pose proof (@principal_cap_survives_rotation ascii_tables toy_serde toy_reader toy_schema toy_display
    toy_sha256 InMemory.t _ toy_laws (toy_sandbox sample_spec) (lit "p") sample_spec 10 InMemory.new
    toy_events_rotation InMemoryFacts.wf_new sample_typed sample_typed eq_refl) as H.
  destruct (run_events _ _ _ _ _) as [s' n]. exact (proj1 H).
Defined.

(** The smallest positive double. *)
Definition tiny_usd : f64 := S754_finite false 1 (-1074).

Lemma positive_payout_is_charged_witness :
  match @extract_payout_micros toy_display
          (Object [(lit "amount_usd", Number (Float tiny_usd))]) (lit "amount_usd") with
  | Ok micros => 1 <= micros
  | Err _ => False
  end.
Proof.
  pose proof (@positive_payout_is_charged toy_display
    (Object [(lit "amount_usd", Number (Float tiny_usd))]) (lit "amount_usd")
    (Number (Float tiny_usd)) tiny_usd eq_refl eq_refl eq_refl) as H.
  destruct (extract_payout_micros _ _) as [micros|e].
  - exact (proj2 (proj2 (proj2 (proj2 H))) eq_refl).
  - destruct H as [H|[H|H]]; discriminate H.
Defined.
