(* ===== verification/Jcs.v ===== *)
(** [av-receipts/src/jcs.rs] (RFC 8785 canonicalization) and
    [av-receipts/src/chain.rs] (the session event chain). *)

From S2P Require Import Prelude Rust CoreBase Json.

(** * jcs.rs *)

Inductive JcsError :=
| JcsUnsafeInteger (n : str)
| NonFinite
| TooDeep (bound : nat).

Definition MAX_NESTED_DEPTH : nat := 128.

(** [depth > MAX_NESTED_DEPTH]. *)
Definition too_deep (depth : nat) : bool := (MAX_NESTED_DEPTH <? depth)%nat.
Arguments too_deep : simpl never.

(** [utf16_cmp]. *)
Definition utf16_cmp (a b : str) : comparison := lex_cmp (encode_utf16 a) (encode_utf16 b).
Definition utf16_le (a b : str) : Prop := utf16_cmp a b <> Gt.

#[global] Instance utf16_le_dec : RelDecision utf16_le.
Proof. intros a b. unfold utf16_le. destruct (utf16_cmp a b); [left|left|right]; congruence. Defined.

(** The escapes of [write_string], one character at a time. *)
Definition escape_char (c : Z) : str :=
  if c =? 34 then [92; 34]
  else if c =? 92 then [92; 92]
  else if c =? 8 then [92; 98]
  else if c =? 12 then [92; 102]
  else if c =? 10 then [92; 110]
  else if c =? 13 then [92; 114]
  else if c =? 9 then [92; 116]
  else if c <? 32 then [92; 117] ++ fmt_04x c
  else [c].

Definition write_string (s : str) : str := 34 :: List.concat (map escape_char s) ++ [34].
Arguments write_string : simpl never.

(** [str::parse::<i64>]: an optional sign and decimal digits, in range. *)
Fixpoint parse_digits (acc : Z) (s : str) : option Z :=
  match s with
  | [] => Some acc
  | c :: s' => if is_ascii_digit c then parse_digits (10 * acc + (c - 48)) s' else None
  end.

Definition parse_i64 (s : str) : option Z :=
  let '(sign, ds) := match s with
                     | 45 :: r => (-1, r)
                     | 43 :: r => (1, r)
                     | _ => (1, s)
                     end in
  match ds with
  | [] => None
  | _ => match parse_digits 0 ds with
         | Some n => let z := sign * n in
                     if (i64_min <=? z) && (z <=? i64_max) then Some z else None
         | None => None
         end
  end.

(** [split_once(['e', 'E'])]. *)
Definition split_exp (s : str) : option (str * str) :=
  match break_at (fun c => (c =? 101) || (c =? 69)) s with
  | (a, _ :: b) => Some (a, b)
  | (_, []) => None
  end.

Definition digits_and_k (printed : str) : str * Z :=
  let '(mantissa, e) :=
    match split_exp printed with
    | Some (mant, exp) => (mant, default 0 (parse_i64 exp))
    | None => (printed, 0)
    end in
  let '(int_part, frac_part) :=
    match split_once [46] mantissa with
    | Some (i, f) => (i, f)
    | None => (mantissa, [])
    end in
  let int_stripped := trim_start_matches 48 int_part in
  let '(raw, k) :=
    match int_stripped with
    | [] =>
        let lead_zeros :=
          Z.of_nat (length frac_part) - Z.of_nat (length (trim_start_matches 48 frac_part)) in
        (trim_start_matches 48 frac_part, e - lead_zeros)
    | _ => (int_stripped ++ frac_part, Z.of_nat (length int_stripped) + e)
    end in
  match trim_end_matches 48 raw with
  | [] => ([48], k)
  | digits => (digits, k)
  end.

(** The layout rules of [ecma_number], given the digits and [k]. *)
Definition ecma_layout (digits : str) (k : Z) : str :=
  let n := Z.of_nat (length digits) in
  if ((1 <=? k) && (k <=? 21)) && (n <=? k) then
    digits ++ replicate (Z.to_nat (k - n)) 48
  else if (1 <=? k) && (k <=? 21) then
    take (Z.to_nat k) digits ++ [46] ++ drop (Z.to_nat k) digits
  else if (-5 <=? k) && (k <=? 0) then
    [48; 46] ++ replicate (Z.to_nat (- k)) 48 ++ digits
  else
    let exp_val := k - 1 in
    let sign := if 0 <=? exp_val then 43 else 45 in
    match drop 1 digits with
    | [] => take 1 digits ++ [101; sign] ++ fmt_int (Z.abs exp_val)
    | rest => take 1 digits ++ [46] ++ rest ++ [101; sign] ++ fmt_int (Z.abs exp_val)
    end.

(** The [ryu] crate: shortest decimal text of a positive finite double. *)
Class Ryu := { format_finite : f64 -> str }.

Section Jcs.
Context {R : Ryu}.

Definition ecma_positive (f : f64) : str :=
  let '(digits, k) := digits_and_k (format_finite f) in ecma_layout digits k.

Definition ecma_number (f : f64) : str :=
  if SFeqb f (S754_zero false) then [48]
  else if SFltb f (S754_zero false) then 45 :: ecma_positive (SFopp f)
  else ecma_positive f.

Definition write_number (n : number) : result str JcsError :=
  match as_u64 n with
  | Some u =>
      if u >? JCS_SAFE_MAX then Err (JcsUnsafeInteger (fmt_int u)) else Ok (fmt_int u)
  | None =>
      match as_i64 n with
      | Some i =>
          if i <? - JCS_SAFE_MAX then Err (JcsUnsafeInteger (fmt_int i)) else Ok (fmt_int i)
      | None =>
          match num_as_f64 n with
          | None => Err NonFinite
          | Some f =>
              if negb (is_finite f) then Err NonFinite
              else if SFltb (f64_of_int JCS_SAFE_MAX) (SFabs f)
                      && SFltb (SFabs f) (f64_of_int (10 ^ 21))
                   then Err (JcsUnsafeInteger (ecma_number f))
              else Ok (ecma_number f)
          end
      end
  end.

(** Comma-separated concatenation, stopping at the first error. *)
Fixpoint join_results (sep : str) (l : list (result str JcsError)) : result str JcsError :=
  match l with
  | [] => Ok []
  | [r] => r
  | r :: rest =>
      let? a := r in
      let? b := join_results sep rest in
      Ok (a ++ sep ++ b)
  end.

(** One object member in key order; [map.get(key)] of a sorted key. *)
Definition member_text (rendered : list (str * result str JcsError)) (key : str)
  : result str JcsError :=
  match List.find (fun kr => str_eqb kr.1 key) rendered with
  | Some (_, r) => let? t := r in Ok (write_string key ++ [58] ++ t)
  | None => Ok (write_string key ++ [58])
  end.

Fixpoint write_value (depth : nat) (v : Value) {struct v} : result str JcsError :=
  if too_deep depth then Err (TooDeep MAX_NESTED_DEPTH)
  else
    match v with
    | Null => Ok (lit "null")
    | Bool true => Ok (lit "true")
    | Bool false => Ok (lit "false")
    | Number n => write_number n
    | JString s => Ok (write_string s)
    | Array items =>
        let? body := join_results [44] (map (fun x => write_value (S depth) x) items) in
        Ok ([91] ++ body ++ [93])
    | Object members =>
        let rendered := map (fun kv => match kv with (k, x) => (k, write_value (S depth) x) end)
                          members in
        let keys := merge_sort utf16_le (map fst rendered) in
        let? body := join_results [44] (map (member_text rendered) keys) in
        Ok ([123] ++ body ++ [125])
    end.

Definition canonicalize (v : Value) : result str JcsError := write_value 0 v.

(** * chain.rs *)

Context {SHA : Sha256}.

Record EventChain := mkChain { head : list Z; count : Z }.

Definition chain_new (session_id : str) : EventChain :=
  mkChain (sha256 (as_bytes (lit "av-genesis") ++ as_bytes session_id)) 0.

Definition chain_append (c : EventChain) (event : Value) : result EventChain JcsError :=
  let? canon := canonicalize event in
  Ok (mkChain (sha256 (head c ++ as_bytes canon)) (count c + 1)).

Definition head_hex (c : EventChain) : str := hex_encode (head c).

Fixpoint append_all (c : EventChain) (events : list Value) : result EventChain JcsError :=
  match events with
  | [] => Ok c
  | e :: rest => let? c' := chain_append c e in append_all c' rest
  end.

Definition chain_compute (session_id : str) (events : list Value) : result EventChain JcsError :=
  append_all (chain_new session_id) events.
End Jcs.
