(* ===== verification/JcsProofs.v ===== *)
(** Theorems about [av-receipts/src/jcs.rs] and [chain.rs]: the canonical text
    determines the document up to the order of object members, and the event
    chain is tamper evident. *)

From S2P Require Import Prelude Rust CoreBase Json Jcs.

(** * The key order *)

Lemma utf16_le_total a b : utf16_le a b \/ utf16_le b a.
Proof.
  unfold utf16_le, utf16_cmp. rewrite (lex_cmp_antisym (encode_utf16 a) (encode_utf16 b)).
  destruct (lex_cmp _ _); naive_solver.
Qed.

#[global] Instance utf16_le_Total : Total utf16_le.
Proof. intros a b. apply utf16_le_total. Qed.

#[global] Instance utf16_le_Trans : Transitive utf16_le.
Proof. intros a b c. apply lex_cmp_trans. Qed.

Lemma utf16_le_antisym a b : Forall is_scalar a -> Forall is_scalar b ->
  utf16_le a b -> utf16_le b a -> a = b.
Proof.
  unfold utf16_le, utf16_cmp. intros Ha Hb H1 H2.
  rewrite (lex_cmp_antisym (encode_utf16 a) (encode_utf16 b)) in H2.
  destruct (lex_cmp _ _) eqn:E; try done. by apply lex_cmp_eq, encode_utf16_inj in E.
Qed.

(** A strictly increasing rearrangement is unique: two sorted permutations of the
    same key-distinct members coincide. *)
Definition member_le {A} (p q : str * A) : Prop := utf16_le p.1 q.1.

#[global] Instance member_le_dec {A} : RelDecision (@member_le A).
Proof. intros p q. apply utf16_le_dec. Defined.
#[global] Instance member_le_Total {A} : Total (@member_le A).
Proof. intros p q. apply utf16_le_total. Qed.
#[global] Instance member_le_Trans {A} : Transitive (@member_le A).
Proof. intros p q r. apply utf16_le_Trans. Qed.

Lemma sorted_perm_unique {A} (l1 l2 : list (str * A)) :
  StronglySorted member_le l1 -> StronglySorted member_le l2 -> l1 ≡ₚ l2 ->
  NoDup (map fst l1) -> Forall (fun kv => Forall is_scalar kv.1) l1 -> l1 = l2.
Proof.
  revert l2. induction l1 as [|p l1 IH]; intros l2 H1 H2 Hp Hnd Hsc.
  { by apply Permutation_nil_l in Hp. }
  destruct l2 as [|q l2]; [by apply Permutation_nil_r in Hp|].
  apply StronglySorted_inv in H1 as [H1 Hle1], H2 as [H2 Hle2].
  assert (p = q) as ->.
  { assert (p ∈ q :: l2) as Hpin by (rewrite <- Hp; left).
    assert (q ∈ p :: l1) as Hqin by (rewrite Hp; left).
    apply elem_of_cons in Hpin as [->|Hpin]; [done|].
    apply elem_of_cons in Hqin as [->|Hqin]; [done|].
    rewrite Forall_forall in Hle1, Hle2.
    pose proof (Hle1 q Hqin) as Hpq. pose proof (Hle2 p Hpin) as Hqp.
    apply Forall_cons in Hsc as [Hscp Hscl]. rewrite Forall_forall in Hscl.
    assert (p.1 = q.1) as Heq by (apply utf16_le_antisym; auto).
    cbn in Hnd. apply NoDup_cons in Hnd as [Hni _]. exfalso. apply Hni. rewrite Heq.
    by apply list_elem_of_fmap_2. }
  f_equal. apply IH; try done.
  - by apply Permutation_cons_inv in Hp.
  - by apply NoDup_cons in Hnd as [_ ?].
  - by apply Forall_cons in Hsc as [_ ?].
Qed.

Lemma merge_sort_perm_eq {A} (l1 l2 : list (str * A)) :
  l1 ≡ₚ l2 -> NoDup (map fst l1) -> Forall (fun kv => Forall is_scalar kv.1) l1 ->
  merge_sort member_le l1 = merge_sort member_le l2.
Proof.
  intros Hp Hnd Hsc. apply sorted_perm_unique.
  - apply Sorted_StronglySorted, Sorted_merge_sort; apply _.
  - apply Sorted_StronglySorted, Sorted_merge_sort; apply _.
  - by rewrite !merge_sort_Permutation.
  - by rewrite merge_sort_Permutation.
  - by rewrite merge_sort_Permutation.
Qed.

(** * Equivalence of documents *)

(** Reordering object members at any depth. *)
Inductive jeq : Value -> Value -> Prop :=
| jeq_refl v : jeq v v
| jeq_sym v w : jeq v w -> jeq w v
| jeq_trans u v w : jeq u v -> jeq v w -> jeq u w
| jeq_perm m m' : m ≡ₚ m' -> jeq (Object m) (Object m')
| jeq_item l1 x y l2 : jeq x y -> jeq (Array (l1 ++ x :: l2)) (Array (l1 ++ y :: l2))
| jeq_member m1 k x y m2 : jeq x y ->
    jeq (Object (m1 ++ (k, x) :: m2)) (Object (m1 ++ (k, y) :: m2)).

#[global] Instance jeq_equiv : Equivalence jeq.
Proof. split; [intros ?; apply jeq_refl|intros ???; by apply jeq_sym|intros ??? ??; by eapply jeq_trans]. Qed.

(** The representative with every object sorted. *)
Fixpoint norm (v : Value) : Value :=
  match v with
  | Array l => Array (map norm l)
  | Object m => Object (merge_sort member_le (map (fun kv => match kv with (k, x) => (k, norm x) end) m))
  | _ => v
  end.

Abbreviation norm_member := (fun kv : str * Value => match kv with (k, x) => (k, norm x) end).

Lemma map_fst_norm m : map fst (map norm_member m) = map fst m.
Proof. induction m as [|[k x] m IH]; cbn; [done|]. by rewrite IH. Qed.

Lemma value_wf_keys m : value_wf (Object m) ->
  NoDup (map fst m) /\ Forall (fun kv => Forall is_scalar kv.1) m.
Proof.
  rewrite value_wf_object. intros [? H]. split; [done|].
  eapply Forall_impl; [exact H|]. by intros ? [? _].
Qed.

Lemma jeq_wf v w : jeq v w -> (value_wf v <-> value_wf w).
Proof.
  induction 1 as [|?? _ IH|??? _ IH1 _ IH2|m m' Hp|l1 x y l2 _ IH|m1 k x y m2 _ IH].
  - done.
  - by rewrite IH.
  - by rewrite IH1.
  - by rewrite !value_wf_object, Hp.
  - by rewrite !value_wf_array, !Forall_app, !Forall_cons, IH.
  - rewrite !value_wf_object, !map_app, !Forall_app, !Forall_cons. cbn. by rewrite IH.
Qed.

Lemma Forall_scalar_norm m :
  Forall (fun kv => Forall is_scalar kv.1) m ->
  Forall (fun kv => Forall is_scalar kv.1) (map norm_member m).
Proof. intros H. apply Forall_fmap. eapply Forall_impl; [exact H|]. by intros [k x]. Qed.

(** Equivalent documents have the same representative. *)
Lemma jeq_norm v w : jeq v w -> value_wf v -> norm v = norm w.
Proof.
  induction 1 as [|v w Hv IH|u v w Hu IH1 Hv IH2|m m' Hp|l1 x y l2 Hx IH|m1 k x y m2 Hx IH];
    intros Hwf.
  - done.
  - symmetry. apply IH. by rewrite (jeq_wf v w Hv).
  - rewrite IH1 by done. apply IH2. by rewrite <- (jeq_wf u v Hu).
  - cbn [norm]. f_equal. apply value_wf_keys in Hwf as [Hnd Hsc]. apply merge_sort_perm_eq.
    + by apply Permutation_map.
    + by rewrite map_fst_norm.
    + by apply Forall_scalar_norm.
  - cbn [norm]. rewrite !map_app. cbn. do 3 f_equal. apply IH.
    rewrite value_wf_array, Forall_app, Forall_cons in Hwf. naive_solver.
  - cbn [norm]. rewrite !map_app. cbn. rewrite IH; [done|].
    rewrite value_wf_object, Forall_app, Forall_cons in Hwf. naive_solver.
Qed.

Lemma jeq_items l l' pre : Forall2 jeq l l' -> jeq (Array (pre ++ l)) (Array (pre ++ l')).
Proof.
  intros H. revert pre. induction H as [|x y l l' Hxy _ IH]; intros pre; [reflexivity|].
  etrans; [by apply jeq_item|]. rewrite (cons_middle y pre l), (cons_middle y pre l'). 
  rewrite !(app_assoc pre). apply IH.
Qed.

Lemma jeq_members m m' pre :
  Forall2 (fun p q => p.1 = q.1 /\ jeq p.2 q.2) m m' -> jeq (Object (pre ++ m)) (Object (pre ++ m')).
Proof.
  intros H. revert pre. induction H as [|[k x] [k' y] m m' [Hk Hxy] _ IH]; intros pre; [reflexivity|].
  cbn in Hk, Hxy. subst k'. etrans; [by apply jeq_member|].
  rewrite (cons_middle (k, y) pre m), (cons_middle (k, y) pre m').
  rewrite !(app_assoc pre). apply IH.
Qed.

Lemma norm_jeq v : jeq v (norm v).
Proof.
  induction v as [| | | |l IH|m IH] using value_ind'; try reflexivity; cbn [norm].
  - apply (jeq_items l (map norm l) []). apply Forall2_fmap_r. by apply Forall_Forall2_diag.
  - etrans; [|apply jeq_perm; symmetry; apply merge_sort_Permutation].
    apply (jeq_members m (map norm_member m) []). apply Forall2_fmap_r, Forall_Forall2_diag.
    eapply Forall_impl; [exact IH|]. by intros [k x].
Qed.

(** * The writer on representatives *)

Section Writer.
Context {R : Ryu}.

Definition member_render (kr : str * result str JcsError) : result str JcsError :=
  let? t := kr.2 in Ok (write_string kr.1 ++ [58] ++ t).

(** The writer with members taken in the order they are in. *)
Fixpoint wr (depth : nat) (v : Value) {struct v} : result str JcsError :=
  if too_deep depth then Err (TooDeep MAX_NESTED_DEPTH)
  else
    match v with
    | Array items =>
        let? body := join_results [44] (map (fun x => wr (S depth) x) items) in
        Ok ([91] ++ body ++ [93])
    | Object members =>
        let? body := join_results [44]
            (map (fun kv => match kv with (k, x) => member_render (k, wr (S depth) x) end)
               members) in
        Ok ([123] ++ body ++ [125])
    | _ => write_value depth v
    end.

Lemma member_text_find (rendered : list (str * result str JcsError)) kr :
  NoDup (map fst rendered) -> kr ∈ rendered ->
  member_text rendered kr.1 = member_render kr.
Proof.
  intros Hnd Hin. unfold member_text.
  assert (List.find (fun x => str_eqb x.1 kr.1) rendered = Some kr) as ->; [|by destruct kr].
  induction rendered as [|x l IH]; [by apply not_elem_of_nil in Hin|]. cbn in Hnd |- *.
  apply NoDup_cons in Hnd as [Hni Hnd]. apply elem_of_cons in Hin as [->|Hin].
  - by rewrite str_eqb_refl.
  - rewrite (proj2 (str_eqb_neq x.1 kr.1)); [by apply IH|].
    intros Heq. apply Hni. rewrite Heq. by apply list_elem_of_fmap_2.
Qed.

Lemma Sorted_map_fst {A} (l : list (str * A)) :
  Sorted member_le l -> Sorted utf16_le (map fst l).
Proof.
  induction 1 as [|p l Hs IH Hh]; cbn; constructor; [done|].
  destruct Hh; cbn; constructor. done.
Qed.

Lemma merge_sort_map_fst {A} (l : list (str * A)) :
  NoDup (map fst l) -> Forall (fun kv => Forall is_scalar kv.1) l ->
  merge_sort utf16_le (map fst l) = map fst (merge_sort member_le l).
Proof.
  intros Hnd Hsc.
  set (f := fun k : str => (k, tt)).
  assert (forall l1 l2, map f l1 = map f l2 -> l1 = l2) as Hinj.
  { intros l1 l2 H. apply (f_equal (map fst)) in H. rewrite !map_map in H. cbn in H.
    by rewrite !map_id in H. }
  assert (forall l, Sorted utf16_le l -> StronglySorted member_le (map f l)) as Hsort.
  { intros l0 H. apply Sorted_StronglySorted; [apply _|].
    induction H as [|x l0 Hs IH Hh]; cbn; constructor; [done|]. destruct Hh; constructor. done. }
  apply Hinj, sorted_perm_unique.
  - apply Hsort, Sorted_merge_sort; apply _.
  - apply Hsort, Sorted_map_fst, Sorted_merge_sort; apply _.
  - apply Permutation_map. rewrite merge_sort_Permutation.
    apply Permutation_map. symmetry. apply merge_sort_Permutation.
  - rewrite map_map. cbn. rewrite map_id. by rewrite merge_sort_Permutation.
  - apply Forall_fmap. rewrite merge_sort_Permutation. apply Forall_fmap.
    eapply Forall_impl; [exact Hsc|]. done.
Qed.

(** Sorting commutes with a relabelling that keeps the keys. *)
Lemma merge_sort_map {A B} (g : A -> B) (l : list (str * A)) :
  NoDup (map fst l) -> Forall (fun kv => Forall is_scalar kv.1) l ->
  merge_sort member_le (map (fun kv => (kv.1, g kv.2)) l)
  = map (fun kv => (kv.1, g kv.2)) (merge_sort member_le l).
Proof.
  intros Hnd Hsc. apply sorted_perm_unique.
  - apply Sorted_StronglySorted, Sorted_merge_sort; apply _.
  - apply Sorted_StronglySorted; [apply _|].
    assert (Sorted member_le (merge_sort member_le l)) as Hs by (apply Sorted_merge_sort; apply _).
    induction Hs as [|x l0 Hs IH Hh]; cbn; constructor; [done|]. destruct Hh; constructor. done.
  - rewrite merge_sort_Permutation. apply Permutation_map. symmetry. apply merge_sort_Permutation.
  - rewrite merge_sort_Permutation, map_map. done.
  - rewrite merge_sort_Permutation. apply Forall_fmap. eapply Forall_impl; [exact Hsc|]. done.
Qed.

Lemma write_object_members (rendered : list (str * result str JcsError)) :
  NoDup (map fst rendered) -> Forall (fun kv => Forall is_scalar kv.1) rendered ->
  map (member_text rendered) (merge_sort utf16_le (map fst rendered))
  = map member_render (merge_sort member_le rendered).
Proof.
  intros Hnd Hsc. rewrite merge_sort_map_fst, map_map by done.
  apply map_ext_in. intros kr Hkr%list_elem_of_In. apply member_text_find; [done|].
  by rewrite merge_sort_Permutation in Hkr.
Qed.

(** The code's writer is the plain writer on the sorted representative. *)
Lemma write_value_norm v depth : value_wf v -> write_value depth v = wr depth (norm v).
Proof.
  revert depth. induction v as [| | | |l IH|m IH] using value_ind'; intros d Hwf;
    try solve [cbn -[lit write_number write_string]; by case_match].
  - cbn. case_match; [done|]. rewrite map_map.
    rewrite (map_ext_in (fun x => write_value (S d) x) (fun x => wr (S d) (norm x))); [done|].
    intros x Hx%list_elem_of_In. rewrite value_wf_array, Forall_forall in Hwf.
    rewrite Forall_forall in IH. auto.
  - cbn -[merge_sort map member_text]. case_match; [done|].
    pose proof (value_wf_keys m Hwf) as [Hnd Hsc]. rewrite value_wf_object in Hwf.
    destruct Hwf as [_ Hwf].
    assert (forall l, (forall kv, kv ∈ l -> kv ∈ m) ->
              map (fun kv : str * Value => match kv with (k, x) => (k, write_value (S d) x) end) l
            = map (fun kv => (kv.1, wr (S d) kv.2)) (map norm_member l)) as Hr.
    { intros l0 Hl0. rewrite map_map. apply map_ext_in. intros [k x] Hx%list_elem_of_In. cbn.
      rewrite Forall_forall in IH, Hwf. f_equal. apply (IH (k, x)); [auto|].
      by apply (Hwf (k, x)), Hl0. }
    rewrite Hr by done. rewrite write_object_members.
    + rewrite merge_sort_map; [|by rewrite map_fst_norm|by apply Forall_scalar_norm].
      rewrite map_map.
      erewrite (map_ext (fun x => member_render (x.1, wr (S d) x.2))); [done|]. by intros [k x].
    + rewrite map_map. cbn. by rewrite map_fst_norm.
    + apply Forall_fmap. apply Forall_scalar_norm in Hsc. eapply Forall_impl; [exact Hsc|]. done.
Qed.

(** * Unique decoding *)

(** What may follow a value inside a document. *)
Definition stop (r : str) : Prop :=
  forall c x, r = c :: x -> c = 44 \/ c = 93 \/ c = 125.

Definition opens (a : str) : Prop :=
  exists c x, a = c :: x /\ c <> 44 /\ c <> 93 /\ c <> 125.

(** A printer is decodable on [x]: its text, in front of a stop, determines the
    value and the rest. *)
Definition decodable {A} (P : A -> Prop) (f : A -> result str JcsError) (x : A) : Prop :=
  forall y a b r r', P y -> f x = Ok a -> f y = Ok b -> a ++ r = b ++ r' -> stop r -> stop r' ->
  x = y /\ r = r'.

Lemma escape_char_inj c c' x y : 0 <= c -> 0 <= c' ->
  escape_char c ++ x = escape_char c' ++ y -> c = c' /\ x = y.
Proof.
  intros H0 H0' H. unfold escape_char in H.
  destruct (c <? 32) eqn:E, (c' <? 32) eqn:E'; repeat case_match; b2p; cbn in H;
    try (injection H; intros; subst; first [split; [lia|done]|lia]).
  injection H as X1 X2 X3 X4 X5. split; [|done].
  apply fmt_04x_inj; try lia. unfold fmt_04x. congruence.
Qed.

Lemma escape_char_head c : 0 <= c -> exists d x, escape_char c = d :: x /\ d <> 34.
Proof.
  intros Hc. unfold escape_char. repeat case_match; b2p; cbn; eexists _, _; (split; [reflexivity|lia]).
Qed.

Lemma escapes_inj s s' r r' :
  Forall (fun c => 0 <= c) s -> Forall (fun c => 0 <= c) s' ->
  List.concat (map escape_char s) ++ 34 :: r = List.concat (map escape_char s') ++ 34 :: r' ->
  s = s' /\ r = r'.
Proof.
  revert s'. induction s as [|c s IH]; intros [|c' s'] Hs Hs' H; cbn in H.
  - by injection H as ->.
  - apply Forall_cons in Hs' as [Hc' _]. destruct (escape_char_head c' Hc') as (d & x & E & Hd).
    rewrite E in H. cbn in H. congruence.
  - apply Forall_cons in Hs as [Hc _]. destruct (escape_char_head c Hc) as (d & x & E & Hd).
    rewrite E in H. cbn in H. congruence.
  - apply Forall_cons in Hs as [Hc Hs], Hs' as [Hc' Hs']. rewrite <- !app_assoc in H.
    apply escape_char_inj in H as [-> H]; [|done..]. by destruct (IH s' Hs Hs' H) as [-> ->].
Qed.

Lemma scalar_nonneg s : Forall is_scalar s -> Forall (fun c => 0 <= c) s.
Proof. intros H. eapply Forall_impl; [exact H|]. unfold is_scalar. intros; lia. Qed.

Lemma write_string_inj s s' r r' : Forall is_scalar s -> Forall is_scalar s' ->
  write_string s ++ r = write_string s' ++ r' -> s = s' /\ r = r'.
Proof.
  intros Hs Hs' H. unfold write_string in H. cbn in H. injection H as H. rewrite <- !app_assoc in H.
  by apply escapes_inj in H; try apply scalar_nonneg.
Qed.

Lemma stop_not_int r c x : stop r -> r = c :: x -> int_char c = false.
Proof. intros Hs ->. by destruct (Hs c x eq_refl) as [->|[->| ->]]. Qed.

Lemma fmt_int_decodable z z' r r' : stop r -> stop r' ->
  fmt_int z ++ r = fmt_int z' ++ r' -> z = z' /\ r = r'.
Proof.
  intros Hs Hs' H.
  apply (span_unique int_char _ _ _ _ (fmt_int_chars z) (fmt_int_chars z')
           (fun c x => stop_not_int r c x Hs) (fun c x => stop_not_int r' c x Hs')) in H as [H ->].
  by apply fmt_int_inj in H.
Qed.

(** ** Sequences *)

Section Sequences.
Context {A : Type} (P : A -> Prop) (f : A -> result str JcsError) (close : Z).
Hypothesis close_stop : close = 93 \/ close = 125.

Lemma join_ok l body : join_results [44] (map f l) = Ok body ->
  match l with
  | [] => body = []
  | x :: l' => exists a, f x = Ok a /\
      (l' = [] /\ body = a \/
       l' <> [] /\ exists b, join_results [44] (map f l') = Ok b /\ body = a ++ 44 :: b)
  end.
Proof.
  destruct l as [|x [|y l]]; cbn -[join_results].
  - by intros [= <-].
  - cbn. intros H. exists body. by split; [|left].
  - intros H. change (join_results [44] (f x :: f y :: map f l)) with
      (match f x with
       | Ok a => match join_results [44] (f y :: map f l) with
                 | Ok b => Ok (a ++ [44] ++ b) | Err e => Err e end
       | Err e => Err e end) in H.
    destruct (f x) as [a|]; [|done]. exists a. split; [done|]. right. split; [done|].
    destruct (join_results [44] (f y :: map f l)) as [b|]; [|done]. exists b.
    split; [done|]. cbn in H. congruence.
Qed.

Lemma join_decodable l : Forall (decodable P f) l -> Forall P l ->
  (forall x a, P x -> f x = Ok a -> opens a) ->
  forall l' body body' r r', Forall P l' ->
  join_results [44] (map f l) = Ok body -> join_results [44] (map f l') = Ok body' ->
  body ++ close :: r = body' ++ close :: r' -> l = l' /\ r = r'.
Proof.
  intros Hl HP Ho. induction Hl as [|x l Hx Hl IH]; intros l' body body' r r' HP' H H' Heq;
    apply join_ok in H, H'.
  - subst body. destruct l' as [|y l']; [subst; cbn in Heq; by injection Heq as ->|].
    destruct H' as (a & Ha & H'). apply Forall_cons in HP' as [Hy HP']. destruct (Ho y a Hy Ha) as (c & z & -> & Hc).
    destruct H' as [[_ ->]|(_ & b & _ & ->)]; cbn in Heq; injection Heq; lia.
  - apply Forall_cons in HP as [Hpx HP]. destruct H as (a & Ha & H). destruct l' as [|y l'].
    { subst body'. destruct (Ho x a Hpx Ha) as (c & z & -> & Hc).
      destruct H as [[_ ->]|(_ & b & _ & ->)]; cbn in Heq; injection Heq; lia. }
    destruct H' as (a' & Ha' & H'). apply Forall_cons in HP' as [Hy HP'].
    assert (stop (close :: r) /\ stop (close :: r')) as [Hs Hs'].
    { split; intros c z [= <- _]; lia. }
    assert (forall z, stop (44 :: z)) as Hc by (intros z c w [= <- _]; lia).
    destruct H as [[-> ->]|(Hne & b & Hb & ->)], H' as [[-> ->]|(Hne' & b' & Hb' & ->)].
    + destruct (Hx y _ _ _ _ Hy Ha Ha' Heq Hs Hs') as [-> [= ->]]. done.
    + rewrite <- app_assoc in Heq. cbn in Heq.
      destruct (Hx y _ _ _ _ Hy Ha Ha' Heq Hs (Hc _)) as [-> [= E _]]. lia.
    + rewrite <- app_assoc in Heq. cbn in Heq.
      destruct (Hx y _ _ _ _ Hy Ha Ha' Heq (Hc _) Hs') as [-> [= E _]]. lia.
    + rewrite <- !app_assoc in Heq. cbn in Heq.
      destruct (Hx y _ _ _ _ Hy Ha Ha' Heq (Hc _) (Hc _)) as [-> [= E]].
      destruct (IH HP l' b b' r r' HP' Hb Hb' E) as [-> ->]. done.
Qed.
End Sequences.

(** ** Documents without floating-point numbers *)

Fixpoint int_only (v : Value) : bool :=
  match v with
  | Number (Float _) => false
  | Array l => forallb int_only l
  | Object m => forallb (fun kv => match kv with (_, x) => int_only x end) m
  | _ => true
  end.

Definition int_doc (v : Value) : Prop := value_wf v /\ int_only v = true.
Definition int_member (kv : str * Value) : Prop := Forall is_scalar kv.1 /\ int_doc kv.2.

Lemma int_doc_array l : int_doc (Array l) <-> Forall int_doc l.
Proof.
  unfold int_doc. rewrite value_wf_array. cbn. rewrite forallb_true_iff, <- Forall_and. done.
Qed.

Lemma int_doc_object m : int_doc (Object m) <-> NoDup (map fst m) /\ Forall int_member m.
Proof.
  unfold int_doc. rewrite value_wf_object. cbn. rewrite forallb_true_iff.
  assert (Forall int_member m <->
    Forall (fun kv => Forall is_scalar kv.1 /\ value_wf kv.2) m /\
    Forall (fun kv : str * Value => (let (_, x) := kv in int_only x) = true) m) as ->; [|tauto].
  rewrite <- Forall_and. apply Forall_iff. intros [k x]. unfold int_member, int_doc. cbn. tauto.
Qed.

Lemma jeq_int v w : jeq v w -> int_only v = int_only w.
Proof.
  induction 1 as [|?? _ IH|??? _ IH1 _ IH2|m m' Hp|l1 x y l2 _ IH|m1 k x y m2 _ IH]; cbn.
  - done.
  - done.
  - congruence.
  - apply eq_bool_prop_intro. rewrite !Is_true_true, !forallb_true_iff. by rewrite Hp.
  - rewrite !forallb_app. cbn. by rewrite IH.
  - rewrite !forallb_app. cbn. by rewrite IH.
Qed.

Lemma int_doc_norm v : int_doc v -> int_doc (norm v).
Proof.
  unfold int_doc. by rewrite (jeq_wf v (norm v) (norm_jeq v)), (jeq_int v (norm v) (norm_jeq v)).
Qed.

Lemma fmt_int_opens z : opens (fmt_int z).
Proof.
  pose proof (fmt_int_nonempty z). pose proof (fmt_int_chars z) as Hc.
  destruct (fmt_int z) as [|c x]; [done|]. apply Forall_cons in Hc as [Hc _].
  exists c, x. split; [done|]. unfold int_char, is_ascii_digit in Hc.
  destruct ((48 <=? c) && (c <=? 57)) eqn:E; cbn in Hc; b2p; lia.
Qed.

(** The text of an integer. *)
Lemma write_number_int n a : number_wf n -> int_only (Number n) = true -> write_number n = Ok a ->
  exists z, a = fmt_int z /\ ((n = PosInt z /\ 0 <= z) \/ (n = NegInt z /\ z < 0)).
Proof.
  unfold write_number. destruct n as [u|i|f]; cbn -[JCS_SAFE_MAX]; [..|done]; intros Hwf _;
    case_match; try done; intros [= <-]; eexists; (split; [reflexivity|]).
  - left. split; [done|]. apply Hwf.
  - right. split; [done|]. lia.
Qed.

Lemma wr_opens d v a : int_doc v -> wr d v = Ok a -> opens a.
Proof.
  intros [Hwf Hi]. destruct v as [|[]|n|s|l|m]; cbn -[write_number write_string join_results];
    (case_match; [done|]).
  - intros [= <-]. eexists _, _. by split; [reflexivity|].
  - intros [= <-]. eexists _, _. by split; [reflexivity|].
  - intros [= <-]. eexists _, _. by split; [reflexivity|].
  - intros Hn. apply write_number_int in Hn as (z & -> & _); [|done..]. apply fmt_int_opens.
  - intros [= <-]. eexists _, _. by split; [reflexivity|].
  - case_match; [|done]. intros [= <-]. eexists _, _. by split; [reflexivity|].
  - case_match; [|done]. intros [= <-]. eexists _, _. by split; [reflexivity|].
Qed.

(** The first character of a text fixes the kind of value. *)
Definition wr_head (v : Value) : Z :=
  match v with
  | Null => 110 | Bool true => 116 | Bool false => 102 | Number _ => 0
  | JString _ => 34 | Array _ => 91 | Object _ => 123
  end.

Lemma wr_head_ok d v a : int_doc v -> wr d v = Ok a ->
  exists c x, a = c :: x /\ (c = wr_head v \/ (exists n, v = Number n) /\ int_char c = true).
Proof.
  intros [Hwf Hi]. destruct v as [|[]|n|s|l|m]; cbn -[write_number write_string join_results];
    (case_match; [done|]).
  1-3, 5: (intros [= <-]; eexists _, _; (split; [reflexivity|by left])).
  2-3: (case_match; [|done]; intros [= <-]; eexists _, _; (split; [reflexivity|by left])).
  intros Hn. apply write_number_int in Hn as (z & -> & _); [|done..].
  pose proof (fmt_int_nonempty z). pose proof (fmt_int_chars z) as Hc.
  destruct (fmt_int z) as [|c x]; [done|]. apply Forall_cons in Hc as [Hc _].
  exists c, x. split; [done|]. right. eauto.
Qed.

Definition mw (d : nat) (kv : str * Value) : result str JcsError :=
  match kv with (k, x) => member_render (k, wr d x) end.

Lemma mw_opens d kv a : mw d kv = Ok a -> opens a.
Proof.
  destruct kv as [k x]. unfold mw, member_render. cbn. case_match; [|done]. intros [= <-].
  eexists _, _. by split; [reflexivity|].
Qed.

Lemma mw_decodable d k x : Forall is_scalar k ->
  decodable int_doc (wr d) x -> decodable int_member (mw d) (k, x).
Proof.
  intros Hk Hx [k' y] a b r r' [Hk' Hy] Ha Hb Heq Hs Hs'. unfold mw, member_render in Ha, Hb.
  cbn in Ha, Hb, Hk', Hy. destruct (wr d x) as [t|] eqn:Et; [|done].
  destruct (wr d y) as [t'|] eqn:Et'; [|done]. apply Ok_inj in Ha as <-. apply Ok_inj in Hb as <-.
  rewrite <- (app_assoc (write_string k)), <- (app_assoc (write_string k')) in Heq.
  apply write_string_inj in Heq as [-> Heq]; [|done..].
  cbn in Heq. injection Heq as Heq.
  destruct (Hx y t t' r r' Hy Et Et' Heq Hs Hs') as [-> ->]. done.
Qed.

Lemma wr_atom_ok d v a : wr d v = Ok a -> too_deep d = false.
Proof. destruct v as [|[]| | | |]; cbn; by case_match. Qed.

(** Values of different kinds start differently. *)
Lemma wr_same_kind d v w a b r r' : int_doc v -> int_doc w ->
  wr d v = Ok a -> wr d w = Ok b -> a ++ r = b ++ r' ->
  wr_head v = wr_head w.
Proof.
  intros Hv Hw Ha Hb Heq. destruct (wr_head_ok d v a Hv Ha) as (c & x & -> & Hc).
  destruct (wr_head_ok d w b Hw Hb) as (c' & x' & -> & Hc'). cbn in Heq. injection Heq as -> _.
  destruct Hc as [->|[[n ->] Hi]], Hc' as [Hc'|[[n' ->] Hi']]; cbn in *; try done.
  - destruct v as [|[]| | | |]; done.
  - subst c'. destruct w as [|[]| | | |]; done.
Qed.

Lemma wr_decodable v d : int_doc v -> decodable int_doc (wr d) v.
Proof.
  revert d. induction v as [|b|n|s|l IH|m IH] using value_ind'; intros d Hv w a a' r r' Hw Ha Hb Heq Hs Hs';
    pose proof (wr_same_kind d _ w _ _ _ _ Hv Hw Ha Hb Heq) as Hk;
    pose proof (wr_atom_ok _ _ _ Ha) as Hd.
  - destruct w as [|[]| | | |]; try done. cbn in Ha, Hb. rewrite Hd in Ha, Hb.
    apply Ok_inj in Ha as <-. apply Ok_inj in Hb as <-. by apply app_inv_head in Heq.
  - destruct b, w as [|[]| | | |]; try done; cbn in Ha, Hb; rewrite Hd in Ha, Hb;
      apply Ok_inj in Ha as <-; apply Ok_inj in Hb as <-; by apply app_inv_head in Heq.
  - destruct w as [|[]|n'| | |]; try done. destruct Hv as [Hwf Hi], Hw as [Hwf' Hi'].
    cbn -[write_number] in Ha, Hb. rewrite Hd in Ha, Hb.
    apply write_number_int in Ha as (z & -> & Hz); [|done..].
    apply write_number_int in Hb as (z' & -> & Hz'); [|done..].
    apply fmt_int_decodable in Heq as [-> ->]; [|done..].
    split; [|done]. f_equal. destruct Hz as [[-> ?]|[-> ?]], Hz' as [[-> ?]|[-> ?]]; done || lia.
  - destruct w as [|[]| |s'| |]; try done. destruct Hv as [Hwf _], Hw as [Hwf' _].
    cbn -[write_string] in Ha, Hb. rewrite Hd in Ha, Hb. apply Ok_inj in Ha as <-. apply Ok_inj in Hb as <-.
    by apply write_string_inj in Heq as [-> ->].
  - destruct w as [|[]| | |l'|]; try done. rewrite int_doc_array in Hv, Hw.
    cbn -[join_results] in Ha, Hb. rewrite Hd in Ha, Hb.
    destruct (join_results _ (map _ l)) as [t|] eqn:Et; [|done].
    destruct (join_results _ (map _ l')) as [t'|] eqn:Et'; [|done].
    apply Ok_inj in Ha as <-. apply Ok_inj in Hb as <-. cbn in Heq. injection Heq as Heq.
    rewrite <- !app_assoc in Heq.
    assert (Forall (decodable int_doc (wr (S d))) l) as Hdec.
    { rewrite Forall_forall in *. auto. }
    destruct (join_decodable int_doc (wr (S d)) 93 (or_introl eq_refl) l Hdec Hv
                (fun x a Hx => wr_opens (S d) x a Hx) l' t t' r r' Hw Et Et' Heq) as [-> ->]. done.
  - destruct w as [|[]| | | |m']; try done. rewrite int_doc_object in Hv, Hw.
    destruct Hv as [_ Hv], Hw as [_ Hw].
    cbn -[join_results] in Ha, Hb. rewrite Hd in Ha, Hb.
    destruct (join_results _ (map _ m)) as [t|] eqn:Et; [|done].
    destruct (join_results _ (map _ m')) as [t'|] eqn:Et'; [|done].
    apply Ok_inj in Ha as <-. apply Ok_inj in Hb as <-. cbn in Heq. injection Heq as Heq.
    rewrite <- !app_assoc in Heq.
    assert (Forall (decodable int_member (mw (S d))) m) as Hdec.
    { rewrite Forall_forall in *. intros [k x] Hin. destruct (Hv _ Hin) as [? ?].
      apply mw_decodable; [done|]. by apply (IH (k, x)). }
    destruct (join_decodable int_member (mw (S d)) 125 (or_intror eq_refl) m Hdec Hv
                (fun x a _ => mw_opens (S d) x a) m' t t' r r' Hw Et Et' Heq) as [-> ->]. done.
Qed.
End Writer.

(** * Properties *)

(** Canonical form is canonical: documents that differ only in the order of
    object members, at any depth, canonicalize to the same result, error cases
    included. *)
Theorem canonicalize_order_independent {R : Ryu} (v w : Value) :
  value_wf v -> jeq v w -> canonicalize v = canonicalize w.
Proof.
  intros Hv Hj. unfold canonicalize.
  rewrite !write_value_norm; [by rewrite (jeq_norm v w)|by rewrite <- (jeq_wf v w Hj)|done].
Qed.

(** C16. Canonical form is faithful: two documents without floating-point numbers
    that canonicalize to the same text are the same document up to the order of
    object members.  With the previous property the text identifies exactly the
    equivalence class, so a hash of it commits to the content. *)
Theorem canonicalize_injective {R : Ryu} (v w : Value) (s : str) :
  int_doc v -> int_doc w ->
  canonicalize v = Ok s -> canonicalize w = Ok s -> jeq v w.
Proof.
  unfold canonicalize. intros Hv Hw Hsv Hsw.
  rewrite write_value_norm in Hsv by apply Hv. rewrite write_value_norm in Hsw by apply Hw.
  assert (stop []) as Hs by done.
  destruct (wr_decodable (norm v) 0 (int_doc_norm v Hv) (norm w) s s [] []
              (int_doc_norm w Hw) Hsv Hsw eq_refl Hs Hs) as [Heq _].
  rewrite (norm_jeq v), Heq. symmetry. apply norm_jeq.
Qed.

Definition toy_ryu : Ryu := {| format_finite _ := lit "1.0" |}.

Definition doc_ab : Value :=
  Object [(lit "a", Number (PosInt 1)); (lit "b", Array [Null; JString (lit "x")])].
Definition doc_ba : Value :=
  Object [(lit "b", Array [Null; JString (lit "x")]); (lit "a", Number (PosInt 1))].

Ltac solve_doc :=
  repeat (split || constructor); cbn; try done; unfold is_scalar; try lia;
  rewrite ?not_elem_of_cons, ?list_elem_of_singleton, ?elem_of_nil;
  repeat split; try tauto; try (vm_compute; congruence).

Lemma doc_ab_wf : value_wf doc_ab.
Proof. solve_doc. Defined.
Lemma doc_ba_wf : value_wf doc_ba.
Proof. solve_doc. Defined.

Lemma canonicalize_order_independent_witness :
  @canonicalize toy_ryu doc_ab = @canonicalize toy_ryu doc_ba.
Proof.
  apply (@canonicalize_order_independent toy_ryu doc_ab doc_ba doc_ab_wf).
  apply jeq_perm, Permutation_swap.
Defined.

Lemma canonicalize_injective_witness : jeq doc_ab doc_ba.
Proof.
  refine (@canonicalize_injective toy_ryu doc_ab doc_ba _ (conj doc_ab_wf eq_refl)
            (conj doc_ba_wf eq_refl) eq_refl _). vm_compute. reflexivity.
Defined.

(** * The event chain *)

Section Chain.
Context {R : Ryu} {SHA : Sha256}.

Lemma fmt_int_scalar z : Forall is_scalar (fmt_int z).
Proof.
  eapply Forall_impl; [apply fmt_int_chars|]. unfold int_char, is_ascii_digit, is_scalar.
  intros c Hc. destruct ((48 <=? c) && (c <=? 57)) eqn:E; cbn in Hc; b2p; lia.
Qed.

Lemma hex_digit_scalar n : 0 <= n < 16 -> is_scalar (hex_digit n).
Proof. unfold hex_digit, is_scalar. case_match; b2p; lia. Qed.

Lemma escape_char_scalar c : is_scalar c -> Forall is_scalar (escape_char c).
Proof.
  intros Hc. unfold escape_char. repeat case_match; b2p; unfold fmt_04x;
    repeat (apply Forall_cons; split); try apply Forall_nil_2; try done; try (unfold is_scalar; lia).
  all: apply hex_digit_scalar; unfold is_scalar in Hc; Z.div_mod_to_equations; lia.
Qed.

Lemma write_string_scalar s : Forall is_scalar s -> Forall is_scalar (write_string s).
Proof.
  intros Hs. unfold write_string. apply Forall_cons. split; [unfold is_scalar; lia|].
  apply Forall_app. split.
  - induction Hs as [|c s Hc _ IH]; cbn; [constructor|]. apply Forall_app.
    split; [by apply escape_char_scalar|done].
  - constructor; [unfold is_scalar; lia|constructor].
Qed.

Lemma join_scalar {A} (f : A -> result str JcsError) l body :
  Forall (fun x => forall a, f x = Ok a -> Forall is_scalar a) l ->
  join_results [44] (map f l) = Ok body -> Forall is_scalar body.
Proof.
  intros Hl. revert body. induction Hl as [|x l Hx _ IH]; intros body H; apply join_ok in H.
  - subst. constructor.
  - destruct H as (a & Ha & [[_ ->]|(_ & b & Hb & ->)]); [by apply Hx|].
    apply Forall_app. split; [by apply Hx|]. constructor; [unfold is_scalar; lia|by apply IH].
Qed.

Lemma brackets_scalar o c body : is_scalar o -> is_scalar c -> Forall is_scalar body ->
  Forall is_scalar ([o] ++ body ++ [c]).
Proof.
  intros. cbn. apply Forall_cons. split; [done|]. apply Forall_app. split; [done|].
  by apply Forall_singleton.
Qed.

(** Canonical text is a sequence of Unicode scalar values. *)
Lemma wr_scalar v d a : int_doc v -> wr d v = Ok a -> Forall is_scalar a.
Proof.
  revert d a. induction v as [|b|n|s|l IH|m IH] using value_ind'; intros d a Hv Ha;
    pose proof (wr_atom_ok _ _ _ Ha) as Hd; cbn -[write_number join_results lit] in Ha;
    rewrite Hd in Ha.
  - apply Ok_inj in Ha as <-. repeat constructor; unfold is_scalar; cbn; lia.
  - destruct b; apply Ok_inj in Ha as <-; repeat constructor; unfold is_scalar; cbn; lia.
  - destruct Hv as [Hwf Hi]. apply write_number_int in Ha as (z & -> & _); [|done..].
    apply fmt_int_scalar.
  - apply Ok_inj in Ha as <-. by apply write_string_scalar, (proj1 Hv).
  - rewrite int_doc_array in Hv. destruct (join_results _ _) as [t|] eqn:Et; [|done].
    apply Ok_inj in Ha as <-. apply brackets_scalar; [unfold is_scalar; lia..|].
    eapply join_scalar; [|exact Et]. rewrite Forall_forall in *. intros x Hx a Hxa.
    eapply IH; [exact Hx|by apply Hv|exact Hxa].
  - rewrite int_doc_object in Hv. destruct (join_results _ _) as [t|] eqn:Et; [|done].
    apply Ok_inj in Ha as <-. apply brackets_scalar; [unfold is_scalar; lia..|].
    eapply join_scalar; [|exact Et]. destruct Hv as [_ Hv]. rewrite Forall_forall in *.
    intros [k x] Hin a Ha. destruct (Hv _ Hin) as [Hk Hx]. unfold member_render in Ha. cbn in Ha.
    destruct (wr (S d) x) as [t'|] eqn:E; [|done]. apply Ok_inj in Ha as <-.
    apply Forall_app. split; [by apply write_string_scalar|].
    apply Forall_cons. split; [unfold is_scalar; lia|].
    eapply (IH (k, x)); [exact Hin|exact Hx|exact E].
Qed.

Lemma canonicalize_scalar v s : int_doc v -> canonicalize v = Ok s -> Forall is_scalar s.
Proof.
  intros Hv Hs. unfold canonicalize in Hs. rewrite write_value_norm in Hs by apply Hv.
  eapply wr_scalar; [by apply int_doc_norm|exact Hs].
Qed.

Lemma canonicalize_bytes_inj v w a b : int_doc v -> int_doc w ->
  canonicalize v = Ok a -> canonicalize w = Ok b -> as_bytes a = as_bytes b -> jeq v w.
Proof.
  intros Hv Hw Ha Hb Heq.
  apply as_bytes_inj in Heq as ->; [|exact (canonicalize_scalar _ _ Hv Ha)|exact (canonicalize_scalar _ _ Hw Hb)].
  unfold canonicalize in *. rewrite write_value_norm in Ha by apply Hv.
  rewrite write_value_norm in Hb by apply Hw. assert (stop []) as Hs by done.
  destruct (wr_decodable (norm v) 0 (int_doc_norm v Hv) (norm w) b b [] []
              (int_doc_norm w Hw) Ha Hb eq_refl Hs Hs) as [Heq _].
  rewrite (norm_jeq v), Heq. symmetry. apply norm_jeq.
Qed.

Lemma append_all_snoc c es e c' : append_all c (es ++ [e]) = Ok c' <->
  exists c1 a, append_all c es = Ok c1 /\ canonicalize e = Ok a /\
    c' = mkChain (sha256 (head c1 ++ as_bytes a)) (count c1 + 1).
Proof.
  revert c. induction es as [|x es IH]; intros c; cbn.
  - unfold chain_append. destruct (canonicalize e) as [a|]; naive_solver.
  - destruct (chain_append c x); [apply IH|]. naive_solver.
Qed.

Lemma append_all_count c es c' : append_all c es = Ok c' ->
  count c' = count c + Z.of_nat (length es).
Proof.
  revert c. induction es as [|e es IH]; intros c; cbn; [intros [= ->]; lia|].
  unfold chain_append. destruct (canonicalize e); [|done]. intros H. apply IH in H. cbn in H. lia.
Qed.

(** The head of a chain is a digest. *)
Lemma append_all_head c es c' : length (head c) = 32%nat -> append_all c es = Ok c' ->
  length (head c') = 32%nat.
Proof.
  revert c. induction es as [|e es IH]; intros c Hc; cbn; [by intros [= <-]|].
  unfold chain_append. destruct (canonicalize e); [|done]. apply IH. apply sha256_length.
Qed.

Definition collision : Prop := exists x y : list Z, x <> y /\ sha256 x = sha256 y.

Lemma sha256_eq x y : sha256 x = sha256 y -> x = y \/ collision.
Proof. intros H. destruct (decide (x = y)); [by left|]. right. by exists x, y. Qed.
End Chain.


Definition toy_chain (es : list Value) : result EventChain JcsError :=
  @chain_compute toy_ryu toy_sha256 (lit "s") es.

Lemma lit_s_scalar : Forall is_scalar (lit "s").
Proof. repeat constructor; unfold is_scalar; cbn; lia. Defined.

