(* ===== verification/RedisStore.v ===== *)
(** [av-state/src/redis_store.rs]: the distributed [StateStore].  The Lua scripts
    and the client code around them are translated; the server that runs their
    commands is a class with the documented behaviour of each command as laws. *)

From S2P Require Import Prelude Rust CoreBase Store StoreConc.

Definition BUDGET_COUNTER_TTL_SECS : Z := 86400.
Definition REFUND_MARKER_TTL_SECS : Z := 300.

(** * The server *)

(** The commands the code issues.  [entry] is what a key holds now, read as an
    integer, with its expiry time in milliseconds; an expired key holds nothing.
    [cmd_set] takes the [EX] seconds, [cmd_scan] a cursor, a pattern and a count,
    and [pass] lets milliseconds go by. *)
Class RedisServer := {
  Db : Type;
  r_now : Db -> Z;
  entry : Db -> str -> option (Z * option Z);
  cmd_set : Db -> str -> Z -> option Z -> Db;
  cmd_set_nx : Db -> str -> Z -> Z -> Db * bool;
  cmd_incrby : Db -> str -> Z -> Db * result Z str;
  cmd_decrby : Db -> str -> Z -> Db * result Z str;
  cmd_expire : Db -> str -> Z -> Db;
  cmd_del : Db -> list str -> Db;
  cmd_scan : Db -> Z -> str -> Z -> Z * list str;
  glob_match : str -> str -> bool;
  scan_turns : Db -> nat;
  pass : Db -> Z -> Db;
}.

(** [SCAN] calls from cursor [c] to the returned cursor, with the database and
    the batch of each call; only the last call may return cursor 0. *)
Inductive scanning {D} (scan : D -> Z -> Z * list str) : Z -> list (D * list str) -> Z -> Prop :=
| scan_last c d batch next : scan d c = (next, batch) -> scanning scan c [(d, batch)] next
| scan_more c d batch next l c' : scan d c = (next, batch) -> next <> 0 ->
    scanning scan next l c' -> scanning scan c ((d, batch) :: l) c'.

Section Observations.
Context {RS : RedisServer}.

(** [GET] (as [tonumber] reads it) and [EXISTS]. *)
Definition value_of (d : Db) (k : str) : option Z := fst <$> entry d k.
Definition expiry_of (d : Db) (k : str) : option Z := entry d k ≫= snd.
Definition cmd_exists (d : Db) (k : str) : bool := bool_decide (is_Some (entry d k)).

Definition deadline (d : Db) (secs : Z) : Z := r_now d + 1000 * secs.

(** [d'] differs from [d] at most at [k], which holds [e]. *)
Definition sets (d d' : Db) (k : str) (e : option (Z * option Z)) : Prop :=
  r_now d' = r_now d /\ forall k', entry d' k' = if bool_decide (k' = k) then e else entry d k'.

Definition same (d d' : Db) : Prop := r_now d' = r_now d /\ forall k, entry d' k = entry d k.

(** What [INCRBY] (and [DECRBY], with the opposite sign) does: refuse a result
    outside the 64-bit range, else store it and keep the expiry. *)
Definition moves (d : Db) (k : str) (n : Z) (out : Db * result Z str) : Prop :=
  let v := default 0 (value_of d k) + n in
  match out with
  | (d', Ok r) => r = v /\ is_i64 v /\ sets d d' k (Some (v, expiry_of d k))
  | (d', Err _) => ~ is_i64 v /\ same d d'
  end.
End Observations.

(** Characters with a meaning in a [MATCH] pattern. *)
Definition is_glob_meta (c : Z) : bool :=
  (c =? 42) || (c =? 63) || (c =? 91) || (c =? 93) || (c =? 92).

(** The documented behaviour of the commands.  A full [SCAN] iteration returns
    every matching key present throughout, and ends when keys only disappear. *)
Class RedisLaws (RS : RedisServer) := {
  set_law d k v ex : (forall s, ex = Some s -> 0 < s) -> sets d (cmd_set d k v ex) k (Some (v, deadline d <$> ex));
  set_nx_law d k v ex : 0 < ex ->
    match cmd_set_nx d k v ex with
    | (d', true) => entry d k = None /\ sets d d' k (Some (v, Some (deadline d ex)))
    | (d', false) => is_Some (entry d k) /\ same d d'
    end;
  incrby_law d k n : moves d k n (cmd_incrby d k n);
  decrby_law d k n : moves d k (- n) (cmd_decrby d k n);
  expire_law d k secs : 0 < secs ->
    sets d (cmd_expire d k secs) k ((fun e => (e.1, Some (deadline d secs))) <$> entry d k);
  del_law d ks : r_now (cmd_del d ks) = r_now d /\
    forall k, entry (cmd_del d ks) k = if bool_decide (k ∈ ks) then None else entry d k;
  pass_law d dt : 0 <= dt -> r_now (pass d dt) = r_now d + dt /\
    forall k, entry (pass d dt) k =
      match entry d k with
      | Some (v, Some w) => if r_now d + dt <=? w then Some (v, Some w) else None
      | e => e
      end;
  glob_star s : glob_match (lit "*") s = true;
  glob_literal c p s : is_glob_meta c = false ->
    glob_match (c :: p) s = match s with x :: s' => (x =? c) && glob_match p s' | [] => false end;
  glob_escaped c p s :
    glob_match (92 :: c :: p) s = match s with x :: s' => (x =? c) && glob_match p s' | [] => false end;
  scan_matches d c p n k : k ∈ (cmd_scan d c p n).2 -> glob_match p k = true;
  scan_complete p n l k : scanning (fun d c => cmd_scan d c p n) 0 l 0 -> glob_match p k = true ->
    Forall (fun x => is_Some (entry x.1 k)) l -> exists x, x ∈ l /\ k ∈ x.2;
  scan_ends p n d b l c : scanning (fun d c => cmd_scan d c p n) 0 ((d, b) :: l) c ->
    Forall (fun x => forall k, is_Some (entry x.1 k) -> is_Some (entry d k)) l ->
    (length l < scan_turns d)%nat;
}.

Section Redis.
Context {UT : UnicodeTables} {RS : RedisServer}.

(** * Lua *)

(** A script changes the database and returns a value or raises the error of a
    command, keeping the writes made before it. *)
Definition script (A : Type) : Type := Db -> Db * result A str.

Definition ret {A} (a : A) : script A := fun d => (d, Ok a).
Definition bind {A B} (m : script A) (k : A -> script B) : script B :=
  fun d => match m d with (d', Ok a) => k a d' | (d', Err e) => (d', Err e) end.
Definition reads {A} (f : Db -> A) : script A := fun d => (d, Ok (f d)).
Definition writes (f : Db -> Db) : script unit := fun d => (f d, Ok tt).

Notation "'let!' x ':=' m 'in' k" := (bind m (fun x => k))
  (at level 10, x pattern, m at level 100, k at level 200).

(** A Lua number is a double: an integer is kept up to 53 bits and rounded to the
    nearest double (ties to even) beyond. *)
Definition lua_num (z : Z) : Z :=
  let a := Z.abs z in
  if a <=? 2 ^ 53 then z
  else
    let ulp := 2 ^ (Z.log2 a - 52) in
    let q := a / ulp in
    let r := 2 * (a mod ulp) in
    let q := if (r >? ulp) || ((r =? ulp) && Z.odd q) then q + 1 else q in
    Z.sgn z * (q * ulp).

Definition lua_sub (a b : Z) : Z := lua_num (a - b).

(** [tonumber(redis.call('GET', key) or '0')]. *)
Definition lua_get (key : str) : script Z := reads (fun d => lua_num (default 0 (value_of d key))).

(** A number passed to a command is printed with 17 significant digits, an
    integer only below [10^17]. *)
Definition incrby_number (key : str) (n : Z) : script Z :=
  if Z.abs n <? 10 ^ 17 then fun d => cmd_incrby d key n
  else fun d => (d, Err (lit "ERR value is not an integer or out of range")).

(** * The scripts *)

(** [for j, k in ipairs(KEYS)]: refresh the TTL of every existing key. *)
Fixpoint refresh_ttls (keys : list str) : script unit :=
  match keys with
  | [] => ret tt
  | k :: rest =>
      let! e := reads (fun d => cmd_exists d k) in
      let! _ := if e : bool then writes (fun d => cmd_expire d k BUDGET_COUNTER_TTL_SECS) else ret tt in
      refresh_ttls rest
  end.

(** The check phase of [TRY_SPEND_LUA]: the 1-based index of the first refusal. *)
Fixpoint spend_check (i : Z) (spends : list Spend) : script (option Z) :=
  match spends with
  | [] => ret None
  | sp :: rest =>
      let! current := lua_get (sp_key sp) in
      let amount := lua_num (sp_amount sp) in
      let limit := lua_num (sp_limit sp) in
      if (current >? limit) || (amount >? lua_sub limit current) then ret (Some i)
      else spend_check (i + 1) rest
  end.

(** Its commit phase. *)
Fixpoint spend_commit (spends : list Spend) (min_remaining : Z) : script Z :=
  match spends with
  | [] => ret min_remaining
  | sp :: rest =>
      let amount := lua_num (sp_amount sp) in
      let limit := lua_num (sp_limit sp) in
      let! new := incrby_number (sp_key sp) amount in
      let! _ := writes (fun d => cmd_expire d (sp_key sp) BUDGET_COUNTER_TTL_SECS) in
      let remaining := lua_sub limit (lua_num new) in
      let remaining := if remaining <? 0 then 0 else remaining in
      spend_commit rest
        (if (min_remaining =? -1) || (remaining <? min_remaining) then remaining else min_remaining)
  end.

Definition TRY_SPEND_LUA (spends : list Spend) : script (Z * Z) :=
  let! refused := spend_check 1 spends in
  match refused with
  | Some i => let! _ := refresh_ttls (map sp_key spends) in ret (-1, i)
  | None => let! min_remaining := spend_commit spends (-1) in ret (min_remaining, 0)
  end.

(** [INCRBY KEYS[1] ARGV[1]] passes the argument's text, not a number. *)
Definition ADD_LUA (key : str) (amount_arg limit_arg : Z) : script Z :=
  let! current := lua_get key in
  let amount := lua_num amount_arg in
  let limit := lua_num limit_arg in
  if (current >? limit) || (amount >? lua_sub limit current) then
    let! _ := refresh_ttls [key] in ret (-1)
  else
    let! result := (fun d => cmd_incrby d key amount_arg) in
    let! _ := writes (fun d => cmd_expire d key BUDGET_COUNTER_TTL_SECS) in
    ret (lua_num result).

Definition FETCH_MAX_LUA (key : str) (value_arg limit_arg : Z) : script Z :=
  let! current := lua_get key in
  let value := lua_num value_arg in
  let limit := lua_num limit_arg in
  if (current <? 0) || (current >? limit) then ret (-1)
  else
    let! e := reads (fun d => cmd_exists d key) in
    let raise := (value >? current) || negb e in
    let! _ := if raise : bool then writes (fun d => cmd_set d key value_arg None) else ret tt in
    let! _ := writes (fun d => cmd_expire d key BUDGET_COUNTER_TTL_SECS) in
    ret (if raise then value else current).

(** The refund of one key: never a missing one, clamped at zero. *)
Definition refund_key (key : str) (amount : Z) : script Z :=
  let! e := reads (fun d => cmd_exists d key) in
  if negb e then ret 0
  else
    let! new := (fun d => cmd_decrby d key amount) in
    if lua_num new <? 0 then
      let! _ := writes (fun d => cmd_set d key 0 (Some BUDGET_COUNTER_TTL_SECS)) in ret 0
    else
      let! _ := writes (fun d => cmd_expire d key BUDGET_COUNTER_TTL_SECS) in ret (lua_num new).

(** [SET marker 1 NX EX]: whether this invocation is the first. *)
Definition claim_marker (marker : str) : script bool :=
  fun d => let '(d', first) := cmd_set_nx d marker 1 REFUND_MARKER_TTL_SECS in (d', Ok first).

Definition REFUND_LUA (key marker : str) (amount : Z) : script Z :=
  let! first := claim_marker marker in
  if negb first then ret (-1) else refund_key key amount.

Fixpoint refund_keys (items : list (str * Z)) : script Z :=
  match items with
  | [] => ret 0
  | (key, amount) :: rest => let! _ := refund_key key amount in refund_keys rest
  end.

Definition REFUND_MANY_LUA (items : list (str * Z)) (marker : str) : script Z :=
  let! first := claim_marker marker in
  if negb first then ret (-1) else refund_keys items.

(** * The client *)

(** Each function runs on an open connection; [redis::Script::invoke] runs the
    script and reports its error. *)
Definition invoke {A} (s : script A) (d : Db) : Db * result A StateError :=
  let '(d', r) := s d in (d', map_err Backend r).

Definition add_on (d : Db) (key : str) (delta : Z) : Db * result Z StateError :=
  if delta >? JCS_SAFE_MAX then (d, Err (Overflow key))
  else
    let '(d', r) := invoke (ADD_LUA key delta JCS_SAFE_MAX) d in
    (d', let? value := r in
         if value <? 0 then Err (Overflow key) else ok_or (u64_of_i64 value) (Overflow key)).

Definition get_on (d : Db) (key : str) : result Z StateError :=
  let? value := match value_of d key with
                | None => Ok 0
                | Some v => if v <? 0 then Err (Overflow key) else ok_or (u64_of_i64 v) (Overflow key)
                end in
  if value >? JCS_SAFE_MAX then Err (Overflow key) else Ok value.

Definition fetch_max_on (d : Db) (key : str) (value : Z) : Db * result Z StateError :=
  if value >? JCS_SAFE_MAX then (d, Err (Overflow key))
  else
    let '(d', r) := invoke (FETCH_MAX_LUA key value JCS_SAFE_MAX) d in
    (d', let? result := r in ok_or (u64_of_i64 result) (Overflow key)).

(** The pair the script returns: a refusal [(-1, index)] or a commit
    [(min_remaining, 0)]. *)
Definition spend_outcome (outcome : Z * Z) : result TrySpendOutcome StateError :=
  let '(a, b) := outcome in
  if a =? -1 then
    if b - 1 <? 0 then Err (Backend (lit "invalid Lua failure index " ++ fmt_int b))
    else Ok (Refused (Z.to_nat (b - 1)))
  else if b =? 0 then
    Ok (Committed (if a <? 0 then u64_max else default 0 (u64_of_i64 a)))
  else Err (Backend (lit "TRY_SPEND_LUA returned unrecognised shape [" ++ fmt_int a
                     ++ lit ", " ++ fmt_int b ++ lit "]")).

Definition spend_many_on (d : Db) (spends : list Spend) : Db * result TrySpendOutcome StateError :=
  match refuse_duplicate_spend_keys spends with
  | Err e => (d, Err e)
  | Ok _ =>
      match find Contract.out_of_range spends with
      | Some sp => (d, Err (Overflow (sp_key sp)))
      | None =>
          match spends with
          | [] => (d, Ok (Committed u64_max))
          | _ =>
              let '(d', r) := invoke (TRY_SPEND_LUA spends) d in
              (d', let? outcome := r in spend_outcome outcome)
          end
      end
  end.

(** [{key}:r:{uid}]; the uid comes from [new_event_uid]. *)
Definition marker_of (key uid : str) : str := key ++ lit ":r:" ++ uid.

Definition clamp_i64 (amount : Z) : Z := default i64_max (i64_of_u64 amount).

Definition refund_on (d : Db) (key : str) (amount : Z) (uid : str) : Db :=
  (invoke (REFUND_LUA key (marker_of key uid) (clamp_i64 amount)) d).1.

Definition refund_many_on (d : Db) (refunds : list Refund) (uid : str) : Db :=
  match refunds with
  | [] => d
  | first :: _ =>
      (invoke (REFUND_MANY_LUA (map (fun r => (rf_key r, clamp_i64 (rf_amount r))) refunds)
                 (marker_of (rf_key first) uid)) d).1
  end.

Definition remove_on (d : Db) (key : str) : Db := cmd_del d [key].

(** The escaped prefix followed by a star. *)
Definition scan_pattern (prefix : str) : str :=
  List.concat (map (fun c => if is_glob_meta c then [92; c] else [c]) prefix) ++ lit "*".

Definition SCAN_COUNT : Z := 500.

(** The loop ends on cursor 0; [None] is running out of fuel. *)
Fixpoint scan_and_delete (fuel : nat) (d : Db) (pattern : str) (cursor : Z) : option Db :=
  match fuel with
  | O => None
  | S fuel' =>
      let '(next, batch) := cmd_scan d cursor pattern SCAN_COUNT in
      let d := match batch with [] => d | _ => cmd_del d batch end in
      if next =? 0 then Some d else scan_and_delete fuel' d pattern next
  end.

Definition remove_prefix_on (d : Db) (prefix : str) : Db :=
  default d (scan_and_delete (scan_turns d) d (scan_pattern prefix) 0).

(** * The store *)

(** A [RedisStore] with the server behind it; [pool] is the error [pool.get()]
    returns when no connection can be had.  Single-node and cluster backends
    issue the same commands. *)
Record RedisStore := mkRedis { server : Db; pool : option str }.

Definition counter_ttl_secs : option Z := Some BUDGET_COUNTER_TTL_SECS.

Definition with_conn {A} (s : RedisStore) (f : Db -> Db * result A StateError)
  : RedisStore * result A StateError :=
  match pool s with
  | Some e => (s, Err (Backend e))
  | None => let '(d, r) := f (server s) in (mkRedis d (pool s), r)
  end.

(** Best-effort operations log a failure and return. *)
Definition best_effort (s : RedisStore) (f : Db -> Db) : RedisStore :=
  match pool s with Some _ => s | None => mkRedis (f (server s)) (pool s) end.

Definition redis_fetch_max (s : RedisStore) key value := with_conn s (fun d => fetch_max_on d key value).
Definition redis_add (s : RedisStore) key delta := with_conn s (fun d => add_on d key delta).
Definition redis_get (s : RedisStore) (key : str) : result Z StateError :=
  match pool s with Some e => Err (Backend e) | None => get_on (server s) key end.
Definition redis_try_spend_many (s : RedisStore) spends := with_conn s (fun d => spend_many_on d spends).
Definition redis_remove (s : RedisStore) key := best_effort s (fun d => remove_on d key).
Definition redis_refund (s : RedisStore) key amount uid := best_effort s (fun d => refund_on d key amount uid).
Definition redis_refund_many (s : RedisStore) refunds uid :=
  best_effort s (fun d => refund_many_on d refunds uid).
Definition redis_remove_prefix (s : RedisStore) prefix :=
  best_effort s (fun d => remove_prefix_on d prefix).

(** One operation of a schedule and its reply; [uid] is the fresh id a refund draws. *)
Definition redis_op (s : RedisStore) (o : op) (uid : str) : RedisStore * reply :=
  match o with
  | OpAdd k d => let '(s', r) := redis_add s k d in (s', RNum r)
  | OpFetchMax k v => let '(s', r) := redis_fetch_max s k v in (s', RNum r)
  | OpSpend l => let '(s', r) := redis_try_spend_many s l in (s', RSpend r)
  | OpRefund k a => (redis_refund s k a uid, RUnit)
  | OpRefundMany l => (redis_refund_many s l uid, RUnit)
  | OpRemove k => (redis_remove s k, RUnit)
  | OpRemovePrefix p => (redis_remove_prefix s p, RUnit)
  end.

Fixpoint redis_run (s : RedisStore) (ops : list (op * str)) : RedisStore * list reply :=
  match ops with
  | [] => (s, [])
  | (o, uid) :: rest =>
      let '(s1, r) := redis_op s o uid in
      let '(s2, rs) := redis_run s1 rest in (s2, r :: rs)
  end.
End Redis.

Notation "'let!' x ':=' m 'in' k" := (bind m (fun x => k))
  (at level 10, x pattern, m at level 100, k at level 200) : av_scope.
