(* ===== verification/RedisProofs.v ===== *)
(** Theorems about [av-state/src/redis_store.rs]: on counter keys the Redis store
    answers and accounts exactly as the in-memory one, a refused spend keeps its
    caps alive, a replayed refund does nothing, and prefix removal is exact. *)

From S2P Require Import Prelude Rust CoreBase Store StoreProofs StoreConc RedisStore.

#[local] Existing Instance InMemory.store.
#[local] Existing Instance InMemoryFacts.store_laws.

Local Arguments JCS_SAFE_MAX : simpl never.
Local Arguments u64_max : simpl never.
Local Arguments i64_max : simpl never.

(** * Lua numbers *)

Lemma lua_num_id z : Z.abs z <= JCS_SAFE_MAX -> lua_num z = z.
Proof.
  intros H. unfold lua_num. change (2 ^ 53) with JCS_SAFE_MAX.
  by rewrite (proj2 (Z.leb_le _ _)).
Qed.

Lemma lua_num_sign z : (lua_num z <? 0) = (z <? 0).
Proof.
  unfold lua_num. destruct (Z.abs z <=? 2 ^ 53) eqn:E; [done|]. b2p.
  set (ulp := 2 ^ (Z.log2 (Z.abs z) - 52)).
  assert (53 <= Z.log2 (Z.abs z)) as Hl by (apply Z.log2_le_pow2; lia).
  assert (0 < ulp) as Hu by (apply Z.pow_pos_nonneg; lia).
  assert (ulp <= Z.abs z) as Hle.
  { transitivity (2 ^ Z.log2 (Z.abs z)); [apply Z.pow_le_mono_r; lia|apply Z.log2_spec; lia]. }
  assert (0 < Z.abs z / ulp) as Hq by (apply Z.div_str_pos; lia).
  set (q := if _ : bool then Z.abs z / ulp + 1 else Z.abs z / ulp).
  assert (0 < q * ulp) as Hp by (apply Z.mul_pos_pos; [unfold q; case_match; lia|done]).
  destruct (z <? 0) eqn:Hz; b2p; [rewrite Z.sgn_neg by lia; lia|].
  apply Z.ltb_ge. apply Z.mul_nonneg_nonneg; [by apply Z.sgn_nonneg|lia].
Qed.

(** * Scripts *)

Lemma ttl_pos : 0 < BUDGET_COUNTER_TTL_SECS.
Proof. done. Qed.

Section Effects.
Context {RS : RedisServer} {RL : RedisLaws RS}.

Lemma sets_trans d d1 d2 k e1 e2 : sets d d1 k e1 -> sets d1 d2 k e2 -> sets d d2 k e2.
Proof.
  intros [Hn1 H1] [Hn2 H2]. split; [congruence|]. intros k'. rewrite H2, H1. by case_bool_decide.
Qed.

Lemma expire_after d d1 k v x secs : 0 < secs -> sets d d1 k (Some (v, x)) ->
  sets d (cmd_expire d1 k secs) k (Some (v, Some (deadline d secs))).
Proof.
  intros Hp H1. pose proof (expire_law d1 k secs Hp) as H2. destruct H1 as [Hn H1].
  rewrite (H1 k), bool_decide_eq_true_2 in H2 by done. cbn in H2.
  unfold deadline in *. rewrite Hn in H2. by eapply sets_trans; [split; [exact Hn|exact H1]|].
Qed.

(** Refreshing changes the expiry of the listed keys that exist, and no value. *)
Definition refreshed (d d' : Db) (keys : list str) : Prop :=
  r_now d' = r_now d /\ forall k, entry d' k =
    if bool_decide (k ∈ keys)
    then (fun e => (e.1, Some (deadline d BUDGET_COUNTER_TTL_SECS))) <$> entry d k else entry d k.

Lemma refresh_ttls_ok keys d : exists d', refresh_ttls keys d = (d', Ok tt) /\ refreshed d d' keys.
Proof.
  revert d. induction keys as [|k keys IH]; intros d; cbn.
  { exists d. split; [done|]. split; [done|]. intros k. by rewrite bool_decide_eq_false_2 by set_solver. }
  unfold bind, reads, writes, ret, cmd_exists. case_bool_decide as He.
  - destruct (IH (cmd_expire d k BUDGET_COUNTER_TTL_SECS)) as (d' & Hr & Hn & He'). exists d'.
    split; [exact Hr|]. destruct (expire_law d k BUDGET_COUNTER_TTL_SECS ttl_pos) as [Hn1 H1].
    split; [congruence|]. intros k'. rewrite He'. unfold deadline. rewrite Hn1, H1.
    destruct (decide (k' = k)) as [->|Hne].
    + rewrite !(bool_decide_eq_true_2 (k = k)) by done. rewrite (bool_decide_eq_true_2 (k ∈ k :: keys)) by left.
      destruct (entry d k) as [[]|]; cbn; by case_bool_decide.
    + rewrite (bool_decide_eq_false_2 (k' = k)) by done. do 2 case_bool_decide; set_solver.
  - destruct (IH d) as (d' & Hr & Hn & He'). exists d'. split; [exact Hr|]. split; [done|].
    intros k'. rewrite He'. apply eq_None_not_Some in He.
    destruct (decide (k' = k)) as [->|Hne]; [rewrite He; by repeat case_bool_decide|].
    do 2 case_bool_decide; set_solver.
Qed.

Lemma refreshed_value d d' keys k : refreshed d d' keys -> value_of d' k = value_of d k.
Proof.
  intros [_ H]. unfold value_of. rewrite H. case_bool_decide; [|done]. by destruct (entry d k) as [[]|].
Qed.

(** Adding to a counter and refreshing its TTL. *)
Lemma incr_expire d k n secs : 0 < secs -> is_i64 (default 0 (value_of d k) + n) ->
  exists d1, cmd_incrby d k n = (d1, Ok (default 0 (value_of d k) + n)) /\
    sets d (cmd_expire d1 k secs) k
      (Some (default 0 (value_of d k) + n, Some (deadline d secs))).
Proof.
  intros Hp Hi. pose proof (incrby_law d k n) as H. unfold moves in H.
  destruct (cmd_incrby d k n) as [d1 [r|e]]; [|tauto]. destruct H as (-> & _ & H).
  exists d1. split; [done|]. by eapply expire_after.
Qed.
End Effects.

(** * Counters and markers *)

(** A refund marker contains [:r:]; a counter key does not. *)
Definition counter (k : str) : bool := negb (contains (lit ":r:") k).

Lemma contains_middle p a b : contains p (a ++ p ++ b) = true.
Proof.
  unfold contains. induction a as [|c a IH]; cbn [app].
  - destruct (p ++ b) eqn:E; cbn [split_once]; rewrite <- E at 1; by rewrite starts_with_app.
  - cbn [split_once]. destruct (starts_with p (c :: a ++ p ++ b)); [done|].
    by destruct (split_once p (a ++ p ++ b)) as [[]|].
Qed.

Lemma marker_not_counter k u : counter (marker_of k u) = false.
Proof. unfold counter, marker_of. by rewrite contains_middle. Qed.

Section Refinement.
Context {UT : UnicodeTables} {RS : RedisServer} {RL : RedisLaws RS}.

(** The ledger a database represents: its counters, markers left out. *)
Definition cview (d : Db) (k : str) : Z := if counter k then default 0 (value_of d k) else 0.

Definition in_range (d : Db) : Prop := forall k, 0 <= cview d k <= JCS_SAFE_MAX.

(** [d'] represents [L], and the keys of [d'] that are not counters were in [d]
    or are in [M]. *)
Definition tracks (M : list str) (d d' : Db) (L : str -> Z) : Prop :=
  cview d' =L L /\
  forall k, counter k = false -> is_Some (entry d' k) -> is_Some (entry d k) \/ k ∈ M.

Lemma cview_counter d k : counter k = true -> cview d k = default 0 (value_of d k).
Proof. intros H. unfold cview. by rewrite H. Qed.

Lemma tracks_same d d' : (forall k, value_of d' k = value_of d k) -> tracks [] d d' (cview d).
Proof.
  intros H. split.
  - intros k. unfold cview. by rewrite H.
  - intros k _ [x Hx]. left. specialize (H k). unfold value_of in H. rewrite Hx in H.
    destruct (entry d k); [by eexists|done].
Qed.

Lemma tracks_refl d : tracks [] d d (cview d).
Proof. by apply tracks_same. Qed.

Lemma tracks_sets d d' k v x : counter k = true -> sets d d' k (Some (v, x)) ->
  tracks [] d d' (Contract.upd (cview d) k v).
Proof.
  intros Hc [_ H]. split.
  - intros k'. unfold cview, Contract.upd, value_of. rewrite H. case_bool_decide; [|done].
    subst. by rewrite Hc.
  - intros k' Hk'. rewrite H. case_bool_decide; [congruence|]. by left.
Qed.

Lemma tracks_trans M1 M2 d d1 d2 L1 L2 :
  tracks M1 d d1 L1 -> tracks M2 d1 d2 L2 -> tracks (M1 ++ M2) d d2 L2.
Proof.
  intros [_ H1] [HL H2]. split; [done|]. intros k Hk Hs. rewrite elem_of_app.
  destruct (H2 k Hk Hs) as [Hs1|]; [|tauto]. destruct (H1 k Hk Hs1); tauto.
Qed.

Lemma tracks_ext M d d' L L' : tracks M d d' L -> L =L L' -> tracks M d d' L'.
Proof. intros [H1 H2] HL. split; [by rewrite H1|done]. Qed.

Lemma upd_same L k v : L k = v -> Contract.upd L k v =L L.
Proof. intros <- k'. unfold Contract.upd. by case_bool_decide; subst. Qed.

(** The scripts' refusal test is the ledger's. *)
Lemma lua_test d k amount limit : in_range d -> counter k = true ->
  0 <= amount <= JCS_SAFE_MAX -> 0 <= limit <= JCS_SAFE_MAX ->
  let current := lua_num (default 0 (value_of d k)) in
  (current >? lua_num limit) || (lua_num amount >? lua_sub (lua_num limit) current)
  = negb (cview d k + amount <=? limit).
Proof.
  intros Hd Hk Ha Hl. specialize (Hd k). rewrite (cview_counter d k Hk) in *. cbn zeta.
  unfold lua_sub. rewrite !lua_num_id by bounds.
  destruct (_ >? limit) eqn:E1, (amount >? _) eqn:E2, (_ <=? limit) eqn:E3; b2p; cbn; lia.
Qed.

(** ** add and fetch_max *)

Lemma add_on_law d k a : in_range d -> counter k = true -> is_u64 a ->
  let '(d', r) := add_on d k a in
  r = (Contract.add (cview d) k a).2 /\ tracks [] d d' (Contract.add (cview d) k a).1.
Proof.
  intros Hd Hk Ha. pose proof (Hd k) as Hr. unfold add_on, Contract.add.
  destruct (a >? JCS_SAFE_MAX) eqn:Eb; b2p.
  { rewrite (proj2 (Z.leb_gt _ _)) by lia. split; [done|apply tracks_refl]. }
  unfold invoke, ADD_LUA, bind at 1, lua_get, reads.
  pose proof (lua_test d k a JCS_SAFE_MAX Hd Hk ltac:(bounds) ltac:(bounds)) as Ht. cbn zeta in Ht. rewrite Ht.
  destruct (cview d k + a <=? JCS_SAFE_MAX) eqn:Ef; cbn [negb].
  - b2p. rewrite (cview_counter d k Hk) in *.
    destruct (incr_expire d k a BUDGET_COUNTER_TTL_SECS) as (d1 & Hi & Hs); [done|bounds|].
    unfold bind, writes, ret. rewrite Hi. cbn [map_err]. rewrite lua_num_id by bounds.
    rewrite (proj2 (Z.ltb_ge _ _)) by bounds. rewrite InMemoryFacts.u64_of_i64_ok by bounds.
    split; [done|]. by eapply tracks_sets.
  - destruct (refresh_ttls_ok [k] d) as (d' & Hr' & Hf). unfold bind at 1. rewrite Hr'. cbn.
    split; [done|]. apply tracks_same. intros k'. by eapply refreshed_value.
Qed.

Lemma fetch_max_on_law d k v : in_range d -> counter k = true -> is_u64 v ->
  let '(d', r) := fetch_max_on d k v in
  r = (Contract.fetch_max (cview d) k v).2 /\ tracks [] d d' (Contract.fetch_max (cview d) k v).1.
Proof.
  intros Hd Hk Hv. pose proof (Hd k) as Hr. unfold fetch_max_on, Contract.fetch_max.
  destruct (v >? JCS_SAFE_MAX) eqn:Eb; b2p.
  { rewrite (proj2 (Z.leb_gt _ _)) by lia. split; [done|apply tracks_refl]. }
  rewrite (proj2 (Z.leb_le _ _)) by lia. unfold invoke, FETCH_MAX_LUA, bind at 1, lua_get, reads.
  rewrite <- (cview_counter d k Hk). rewrite !lua_num_id by bounds.
  rewrite (proj2 (Z.ltb_ge _ _)), Z.gtb_ltb, (proj2 (Z.ltb_ge _ _)) by bounds. cbn [orb].
  unfold bind, writes, ret. unfold cmd_exists.
  destruct ((v >? cview d k) || negb (bool_decide (is_Some (entry d k)))) eqn:Er; cbn [map_err].
  - assert (Z.max (cview d k) v = v) as ->.
    { apply orb_true_iff in Er as [Er|Er]; b2p; [lia|]. apply eq_None_not_Some in Er.
      rewrite (cview_counter d k Hk). unfold value_of. rewrite Er. cbn. bounds. }
    rewrite InMemoryFacts.u64_of_i64_ok by bounds. split; [done|].
    eapply tracks_sets; [done|]. eapply expire_after; [done|]. by apply set_law.
  - apply orb_false_iff in Er as [E1 E2]. b2p. rewrite InMemoryFacts.u64_of_i64_ok by bounds.
    rewrite Z.max_l by lia. split; [done|]. eapply tracks_ext; [|symmetry; by apply upd_same].
    apply tracks_same. intros k'. destruct (expire_law d k BUDGET_COUNTER_TTL_SECS ttl_pos) as [_ H].
    unfold value_of. rewrite H. case_bool_decide; [subst|done]. by destruct (entry d k) as [[]|].
Qed.

(** ** try_spend_many *)

Definition spendable (sp : Spend) : Prop :=
  counter (sp_key sp) = true /\ 0 <= sp_amount sp <= JCS_SAFE_MAX /\ 0 <= sp_limit sp <= JCS_SAFE_MAX.

Lemma spendable_fits L sp : spendable sp ->
  Contract.fits L sp = (L (sp_key sp) + sp_amount sp <=? sp_limit sp).
Proof.
  intros (_ & Ha & Hl). unfold Contract.fits, Contract.out_of_range.
  rewrite !Z.gtb_ltb, !(proj2 (Z.ltb_ge _ _)) by lia. done.
Qed.

Lemma spend_check_law i l d : in_range d -> Forall spendable l ->
  spend_check i l d = (d, Ok (match find_index (fun sp => negb (Contract.fits (cview d) sp)) l with
                              | Some (j, _) => Some (i + Z.of_nat j)
                              | None => None
                              end)).
Proof.
  intros Hd. revert i. induction l as [|sp l IH]; intros i Hl; cbn [spend_check find_index]; [done|].
  apply Forall_cons in Hl as [Hsp Hl]. rewrite (spendable_fits _ _ Hsp). destruct Hsp as (Hc & Ha & Hlim).
  unfold bind, lua_get, reads. pose proof (lua_test d _ _ _ Hd Hc Ha Hlim) as Ht. cbn zeta in Ht. rewrite Ht.
  destruct (_ <=? sp_limit sp); cbn [negb].
  - rewrite IH by done. destruct (find_index _ l) as [[j x]|]; [|done].
    by replace (i + 1 + Z.of_nat j) with (i + Z.of_nat (S j)) by lia.
  - unfold ret. by rewrite Z.add_0_r.
Qed.

(** The running minimum of the commit loop, [-1] standing for "none yet". *)
Definition min_step (m r : Z) : Z := if (m =? -1) || (r <? m) then r else m.

Lemma min_step_fold rs m : 0 <= m -> fold_left min_step rs m = foldl Z.min m rs \/ Exists (fun r => r < 0) rs.
Proof.
  revert m. induction rs as [|r rs IH]; intros m Hm; [by left|]. cbn.
  destruct (decide (r < 0)) as [Hr|Hr]; [right; by left|].
  assert (min_step m r = Z.min m r) as ->.
  { unfold min_step. destruct (m =? -1) eqn:E1; b2p; [lia|]. cbn. case_match; b2p; lia. }
  destruct (IH (Z.min m r)) as [?|?]; [lia|by left|right; by right].
Qed.

Lemma spend_commit_law l m d : in_range d -> NoDup (map sp_key l) -> Forall spendable l ->
  Forall (fun sp => Contract.fits (cview d) sp = true) l ->
  exists d', spend_commit l m d =
    (d', Ok (fold_left min_step (map (fun sp => sp_limit sp - (cview d (sp_key sp) + sp_amount sp)) l) m)) /\
  tracks [] d d' (Contract.charge (cview d) l).
Proof.
  revert m d. induction l as [|sp l IH]; intros m d Hd Hnd Hl Hf; cbn [spend_commit map fold_left].
  { exists d. split; [done|]. eapply tracks_ext; [apply tracks_refl|]. intros k. unfold Contract.charge. cbn. lia. }
  cbn in Hnd. apply NoDup_cons in Hnd as [Hni Hnd]. apply Forall_cons in Hl as [Hsp Hl].
  apply Forall_cons in Hf as [Hfit Hf]. rewrite (spendable_fits _ _ Hsp) in Hfit.
  destruct Hsp as (Hc & Ha & Hlim). pose proof (Hd (sp_key sp)) as Hv. b2p.
  rewrite !lua_num_id by bounds. unfold incrby_number.
  rewrite (proj2 (Z.ltb_lt _ _)) by bounds. set (k := sp_key sp) in *.
  rewrite (cview_counter d k Hc) in Hv, Hfit.
  destruct (incr_expire d k (sp_amount sp) BUDGET_COUNTER_TTL_SECS) as (d1 & Hi & Hs); [done|bounds|].
  unfold bind at 1. rewrite Hi. unfold bind at 1, writes. unfold lua_sub.
  rewrite (lua_num_id (default 0 (value_of d k) + _)), lua_num_id by bounds.
  pose proof (tracks_sets _ _ _ _ _ Hc Hs) as Ht. rewrite <- (cview_counter d k Hc) in *.
  rewrite (proj2 (Z.ltb_ge (sp_limit sp - (cview d k + sp_amount sp)) 0)) by lia.
  set (d2 := cmd_expire d1 k BUDGET_COUNTER_TTL_SECS) in *.
  assert (forall x, x ∈ l -> cview d2 (sp_key x) = cview d (sp_key x)) as Hsame.
  { intros x Hx. rewrite (proj1 Ht (sp_key x)). apply upd_ne. intros Heq. apply Hni. rewrite <- Heq.
    by apply list_elem_of_fmap_2. }
  destruct (IH (min_step m (sp_limit sp - (cview d k + sp_amount sp))) d2) as (d' & Hr & Ht'); try done.
  - intros k'. rewrite (proj1 Ht k'). unfold Contract.upd. case_bool_decide; [bounds|apply Hd].
  - rewrite Forall_forall in Hf |- *. intros x Hx. specialize (Hf x Hx). unfold Contract.fits in *.
    by rewrite Hsame.
  - exists d'. split.
    + change (if _ || _ then _ else m) with (min_step m (sp_limit sp - (cview d k + sp_amount sp))).
      rewrite Hr. do 2 f_equal. f_equal. apply map_ext_in. intros x Hx%list_elem_of_In. by rewrite Hsame.
    + eapply (tracks_trans [] []); [exact Ht|]. eapply tracks_ext; [exact Ht'|]. intros k'.
      rewrite InMemoryFacts.charge_cons. apply charge_proper; [exact (proj1 Ht)|done].
Qed.

(** The reported minimum is the ledger's headroom. *)
Lemma commit_headroom d sp l : in_range d -> NoDup (map sp_key (sp :: l)) -> Forall spendable (sp :: l) ->
  Forall (fun sp => Contract.fits (cview d) sp = true) (sp :: l) ->
  fold_left min_step (map (fun sp => sp_limit sp - (cview d (sp_key sp) + sp_amount sp)) (sp :: l)) (-1)
  = Contract.headroom (cview d) (sp :: l) /\ 0 <= Contract.headroom (cview d) (sp :: l).
Proof.
  intros Hd Hnd Hl Hf. unfold Contract.headroom. set (f := fun x => sp_limit x - (cview d (sp_key x) + sp_amount x)).
  rewrite (map_ext_in (fun x => sp_limit x - Contract.charge (cview d) (sp :: l) (sp_key x)) f).
  2:{ intros x Hx%list_elem_of_In. by rewrite InMemoryFacts.charge_at. }
  assert (Forall (fun r => 0 <= r <= u64_max) (map f (sp :: l))) as Hr.
  { apply Forall_fmap, Forall_forall. intros x Hx. cbn. unfold f.
    rewrite Forall_forall in Hl. rewrite Forall_forall in Hf. specialize (Hl x Hx). specialize (Hf x Hx).
    rewrite (spendable_fits _ _ Hl) in Hf. destruct Hl as (_ & Ha & Hlim).
    pose proof (Hd (sp_key x)). b2p. bounds. }
  clear -Hr. cbn [map] in *. apply Forall_cons in Hr as [H0 Hr]. cbn [fold_left foldr].
  change (min_step (-1) (f sp)) with (f sp).
  assert (forall rs, Forall (fun r => 0 <= r <= u64_max) rs -> 0 <= foldr Z.min u64_max rs) as Hpos.
  { induction 1; cbn; bounds. }
  specialize (Hpos _ Hr). split; [|lia].
  destruct (min_step_fold (map f l) (f sp)) as [->|Hex]; [lia| |].
  - apply InMemoryFacts.foldl_min_foldr; [|lia]. eapply Forall_impl; [exact Hr|]. cbn. lia.
  - exfalso. apply List.Exists_exists in Hex as (r & Hin%list_elem_of_In & Hneg).
    rewrite Forall_forall in Hr. specialize (Hr r Hin). cbn in Hr. lia.
Qed.

Lemma spend_on_law d l : in_range d -> Forall spendable l ->
  let '(d', r) := spend_many_on d l in
  r = (Contract.try_spend_many (cview d) l).2 /\
  tracks [] d d' (Contract.try_spend_many (cview d) l).1.
Proof.
  intros Hd Hl. unfold spend_many_on, Contract.try_spend_many.
  destruct (refuse_duplicate_spend_keys l) as [[]|] eqn:Hdup; [|split; [done|apply tracks_refl]].
  apply refuse_duplicates_ok in Hdup.
  assert (forall sp, sp ∈ l -> Contract.out_of_range sp = false) as Ho.
  { intros sp Hsp. rewrite Forall_forall in Hl. destruct (Hl sp Hsp) as (_ & Ha & Hlim).
    unfold Contract.out_of_range. by rewrite !Z.gtb_ltb, !(proj2 (Z.ltb_ge _ _)) by lia. }
  destruct (find Contract.out_of_range l) as [sp|] eqn:Ef.
  { apply find_some in Ef as [Hin Hx]. apply list_elem_of_In in Hin. by rewrite Ho in Hx. }
  destruct l as [|sp l]; [split; [done|]|].
  { eapply tracks_ext; [apply tracks_refl|]. intros k. unfold Contract.charge. cbn. lia. }
  unfold invoke, TRY_SPEND_LUA, bind at 1. rewrite spend_check_law by done.
  destruct (find_index _ (sp :: l)) as [[j x]|] eqn:Ei.
  - destruct (refresh_ttls_ok (map sp_key (sp :: l)) d) as (d' & Hr & Hrf). unfold bind at 1.
    rewrite Hr. cbn [ret map_err spend_outcome]. change (-1 =? -1) with true.
    rewrite (proj2 (Z.ltb_ge _ _)) by lia. apply find_index_Some in Ei as (Hj & _ & _).
    rewrite Ho by by eapply list_elem_of_lookup_2. split.
    + cbn. do 2 f_equal. lia.
    + apply tracks_same. intros k. by eapply refreshed_value.
  - apply find_index_None in Ei.
    assert (Forall (fun sp => Contract.fits (cview d) sp = true) (sp :: l)) as Hf.
    { eapply Forall_impl; [exact Ei|]. intros y Hy. by apply negb_false_iff. }
    destruct (spend_commit_law (sp :: l) (-1) d Hd Hdup Hl Hf) as (d' & Hr & Ht).
    destruct (commit_headroom d sp l Hd Hdup Hl Hf) as [Hm Hpos].
    unfold bind at 1. rewrite Hr. cbn [ret map_err spend_outcome]. rewrite Hm. split; [|exact Ht].
    rewrite (proj2 (Z.eqb_neq _ (-1))) by lia. change (0 =? 0) with true. cbn [snd].
    rewrite (proj2 (Z.ltb_ge _ _)) by lia. by rewrite InMemoryFacts.u64_of_i64_ok by lia.
Qed.

(** ** refund *)

Lemma clamp_range a : is_u64 a -> 0 <= clamp_i64 a <= i64_max.
Proof. unfold clamp_i64, i64_of_u64. intros Ha. case_match; cbn; b2p; bounds. Qed.

Lemma clamp_sat v a : 0 <= v <= JCS_SAFE_MAX -> is_u64 a -> sat_sub v (clamp_i64 a) = sat_sub v a.
Proof. unfold clamp_i64, i64_of_u64, sat_sub. intros Hv Ha. case_match; cbn; b2p; bounds. Qed.

Lemma refund_key_law d k a : in_range d -> counter k = true -> is_u64 a ->
  exists d' r, refund_key k (clamp_i64 a) d = (d', Ok r) /\
    tracks [] d d' (Contract.refund (cview d) k a).
Proof.
  intros Hd Hk Ha. pose proof (Hd k) as Hv. pose proof (clamp_range a Ha) as Hc.
  unfold Contract.refund. rewrite <- clamp_sat by (done || apply Hd). unfold refund_key, bind at 1, reads.
  unfold cmd_exists. case_bool_decide as He; cbn [negb].
  - pose proof (decrby_law d k (clamp_i64 a)) as Hm. unfold moves in Hm. unfold bind at 1.
    rewrite <- (cview_counter d k Hk) in Hm.
    destruct (cmd_decrby d k (clamp_i64 a)) as [d1 [new|e]]; [|exfalso; apply (proj1 Hm); bounds].
    destruct Hm as (-> & _ & Hs). rewrite lua_num_sign. unfold bind, writes, ret, sat_sub.
    destruct (_ <? 0) eqn:En; b2p.
    + do 2 eexists. split; [done|]. rewrite Z.max_r by lia. eapply tracks_sets; [done|].
      pose proof (set_law d1 k 0 (Some BUDGET_COUNTER_TTL_SECS) ltac:(by intros ? [= <-])) as H2. eapply sets_trans; [exact Hs|exact H2].
    + do 2 eexists. split; [done|]. rewrite Z.max_l by lia. eapply tracks_sets; [done|].
      eapply expire_after; [done|exact Hs].
  - do 2 eexists. split; [done|]. apply eq_None_not_Some in He.
    assert (cview d k = 0) as H0 by (rewrite (cview_counter d k Hk); unfold value_of; by rewrite He).
    eapply tracks_ext; [apply tracks_refl|]. symmetry. apply upd_same. rewrite H0. unfold sat_sub. lia.
Qed.

Lemma claim_law d m : counter m = false -> entry d m = None ->
  exists d', claim_marker m d = (d', Ok true) /\ tracks [m] d d' (cview d).
Proof.
  intros Hm Hf. unfold claim_marker. pose proof (set_nx_law d m 1 REFUND_MARKER_TTL_SECS eq_refl) as H.
  destruct (cmd_set_nx d m 1 REFUND_MARKER_TTL_SECS) as [d' [|]].
  - destruct H as [_ [_ H]]. exists d'. split; [done|]. split.
    + intros k. unfold cview, value_of. rewrite H. case_bool_decide; [subst; by rewrite Hm|done].
    + intros k _ Hs. rewrite H in Hs. case_bool_decide; [right; set_solver|by left].
  - destruct H as [[] _]. congruence.
Qed.

Lemma tracks_in_range M d d' L : tracks M d d' L -> (forall k, 0 <= L k <= JCS_SAFE_MAX) -> in_range d'.
Proof. intros [H _] HL k. rewrite (H k). apply HL. Qed.

Lemma refund_spec_range L k a : (forall k, 0 <= L k <= JCS_SAFE_MAX) -> is_u64 a ->
  forall k', 0 <= Contract.refund L k a k' <= JCS_SAFE_MAX.
Proof.
  intros HL Ha k'. unfold Contract.refund, Contract.upd, sat_sub. specialize (HL k) as H1.
  specialize (HL k'). case_bool_decide; bounds.
Qed.

Definition refundable (r : Refund) : Prop := counter (rf_key r) = true /\ is_u64 (rf_amount r).

Lemma refund_keys_law l d : in_range d -> Forall refundable l ->
  exists d' r, refund_keys (map (fun r => (rf_key r, clamp_i64 (rf_amount r))) l) d = (d', Ok r) /\
    tracks [] d d' (Contract.refund_many (cview d) l).
Proof.
  revert d. induction l as [|x l IH]; intros d Hd Hl; cbn [map refund_keys].
  { exists d, 0. split; [done|]. apply tracks_refl. }
  apply Forall_cons in Hl as [[Hk Ha] Hl]. destruct (refund_key_law d _ _ Hd Hk Ha) as (d1 & r & Hr & Ht).
  unfold bind. rewrite Hr. destruct (IH d1) as (d' & r' & Hr' & Ht'); [|done|].
  { eapply tracks_in_range; [exact Ht|]. by apply refund_spec_range. }
  exists d', r'. split; [done|]. eapply (tracks_trans [] []); [exact Ht|]. eapply tracks_ext; [exact Ht'|].
  cbn. apply spec_refund_many_ext, (proj1 Ht).
Qed.

Lemma refund_on_law d k a u : in_range d -> counter k = true -> is_u64 a ->
  entry d (marker_of k u) = None ->
  tracks [marker_of k u] d (refund_on d k a u) (Contract.refund (cview d) k a).
Proof.
  intros Hd Hk Ha Hf. unfold refund_on, invoke, REFUND_LUA, bind.
  destruct (claim_law d (marker_of k u) (marker_not_counter k u) Hf) as (d1 & Hc & Ht). rewrite Hc.
  destruct (refund_key_law d1 k a) as (d' & r & Hr & Ht'); [by eapply tracks_in_range|done|done|].
  cbn [negb]. rewrite Hr. cbn [fst]. eapply (tracks_trans [_] []); [exact Ht|].
  eapply tracks_ext; [exact Ht'|]. unfold Contract.refund. rewrite (proj1 Ht k). apply upd_proper; [|done..].
  exact (proj1 Ht).
Qed.

Lemma refund_many_on_law d l u : in_range d -> Forall refundable l ->
  (forall r, head l = Some r -> entry d (marker_of (rf_key r) u) = None) ->
  tracks (match l with r :: _ => [marker_of (rf_key r) u] | [] => [] end) d (refund_many_on d l u)
    (Contract.refund_many (cview d) l).
Proof.
  intros Hd Hl Hf. destruct l as [|x l]; [apply tracks_refl|].
  unfold refund_many_on, invoke, REFUND_MANY_LUA, bind.
  destruct (claim_law d (marker_of (rf_key x) u) (marker_not_counter _ u) (Hf x eq_refl)) as (d1 & Hc & Ht).
  rewrite Hc. cbn [negb].
  destruct (refund_keys_law (x :: l) d1) as (d' & r & Hr & Ht'); [by eapply tracks_in_range|done|].
  rewrite Hr. cbn [fst]. eapply (tracks_trans [_] []); [exact Ht|]. eapply tracks_ext; [exact Ht'|].
  apply spec_refund_many_ext, (proj1 Ht).
Qed.

(** ** remove and remove_prefix *)

Lemma remove_on_law d k : counter k = true -> tracks [] d (remove_on d k) (Contract.remove (cview d) k).
Proof.
  intros Hk. destruct (del_law d [k]) as [_ H]. split.
  - intros k'. unfold cview, Contract.remove, Contract.upd, value_of, remove_on. rewrite H.
    destruct (decide (k' = k)) as [->|Hne].
    + rewrite !bool_decide_eq_true_2 by set_solver. by rewrite Hk.
    + by rewrite !bool_decide_eq_false_2 by set_solver.
  - intros k' _. unfold remove_on. rewrite H. case_bool_decide; [by intros []|by left].
Qed.

(** The escaped pattern matches the keys that start with the prefix. *)
Lemma scan_pattern_match prefix k : glob_match (scan_pattern prefix) k = starts_with prefix k.
Proof.
  unfold scan_pattern. revert k. induction prefix as [|c p IH]; intros k; cbn [map List.concat].
  - rewrite (glob_star (RS := RS)). by destruct k.
  - rewrite <- app_assoc. destruct (is_glob_meta c) eqn:E; cbn [app];
      [rewrite glob_escaped|rewrite glob_literal by done];
      (destruct k as [|x k]; [done|]; rewrite IH; cbn [starts_with]; by rewrite Z.eqb_sym).
Qed.

Lemma scanning_snoc {D} (scan : D -> Z -> Z * list str) c l c' d next batch :
  scanning scan c l c' -> c' <> 0 -> scan d c' = (next, batch) -> scanning scan c (l ++ [(d, batch)]) next.
Proof.
  induction 1 as [c d0 b n H|c d0 b n l c' H Hn _ IH]; intros Hc Hs; cbn.
  - eapply scan_more; [done..|]. by constructor.
  - eapply scan_more; [done..|]. by apply IH.
Qed.

(** [d] is [d0] without the keys returned so far. *)
Definition without (d0 d : Db) (seen : list (Db * list str)) : Prop :=
  forall k, entry d k = if bool_decide (k ∈ List.concat (map snd seen)) then None else entry d0 k.

Lemma without_step d0 d seen batch : without d0 d seen ->
  without d0 (match batch with [] => d | _ => cmd_del d batch end) (seen ++ [(d, batch)]).
Proof.
  intros H k. assert (entry (match batch with [] => d | _ => cmd_del d batch end) k
    = if bool_decide (k ∈ batch) then None else entry d k) as ->.
  { destruct batch as [|x b]; [by rewrite bool_decide_eq_false_2 by set_solver|]. apply del_law. }
  rewrite H, map_app, concat_app. cbn [map List.concat snd]. rewrite app_nil_r.
  repeat case_bool_decide; set_solver.
Qed.

Lemma without_sub d0 d seen k : without d0 d seen -> is_Some (entry d k) -> is_Some (entry d0 k).
Proof. intros H. rewrite H. case_bool_decide; [by intros []|done]. Qed.

Lemma scan_turns_pos (p : str) (d : Db) : (0 < scan_turns d)%nat.
Proof.
  destruct (cmd_scan d 0 p SCAN_COUNT) as [next batch] eqn:E.
  apply (scan_ends p SCAN_COUNT d batch [] next); [by constructor|constructor].
Qed.

(** The loop ends and has gone through a whole iteration. *)
Lemma scan_and_delete_ends p d0 fuel seen d cursor :
  (seen = [] /\ cursor = 0 \/
   scanning (fun d c => cmd_scan d c p SCAN_COUNT) 0 seen cursor /\ cursor <> 0) ->
  (seen <> [] -> exists b, head seen = Some (d0, b)) -> (seen = [] -> d = d0) ->
  Forall (fun x => exists s, without d0 x.1 s /\ forall k, k ∈ List.concat (map snd s) ->
                     k ∈ List.concat (map snd seen)) seen ->
  without d0 d seen -> (scan_turns d0 <= length seen + fuel)%nat ->
  exists d' all, scan_and_delete fuel d p cursor = Some d' /\ without d0 d' all /\
    scanning (fun d c => cmd_scan d c p SCAN_COUNT) 0 all 0 /\
    Forall (fun x => exists s, without d0 x.1 s /\ forall k, k ∈ List.concat (map snd s) ->
                       k ∈ List.concat (map snd all)) all.
Proof.
  revert seen d cursor. induction fuel as [|fuel IH]; intros seen d cursor Hc Hh H0 Hall Hw Hf.
  { exfalso. destruct Hc as [[-> _]|[Hs Hn]]; [pose proof (scan_turns_pos p d0); cbn in Hf; lia|].
    destruct seen as [|[dx b] l]; [inversion Hs|]. destruct Hh as [b' Hb]; [done|]. injection Hb as -> ->.
    destruct (cmd_scan d cursor p SCAN_COUNT) as [next batch] eqn:Es.
    pose proof (scanning_snoc _ _ _ _ _ _ _ Hs Hn Es) as Hs'. cbn [app] in Hs'.
    apply scan_ends in Hs'; [rewrite length_app in Hs'; cbn in Hf, Hs'; lia|].
    apply Forall_cons in Hall as [_ Hall]. apply Forall_app. split.
    - eapply Forall_impl; [exact Hall|]. intros x (s & Hx & _) k. by apply (without_sub _ _ s).
    - apply Forall_singleton. intros k. by eapply without_sub. }
  cbn [scan_and_delete]. destruct (cmd_scan d cursor p SCAN_COUNT) as [next batch] eqn:Es.
  pose proof (without_step d0 d seen batch Hw) as Hw'.
  assert (scanning (fun d c => cmd_scan d c p SCAN_COUNT) 0 (seen ++ [(d, batch)]) next) as Hs'.
  { destruct Hc as [[-> ->]|[Hs Hn]]; [by constructor|by eapply scanning_snoc]. }
  assert (Forall (fun x => exists s, without d0 x.1 s /\ forall k, k ∈ List.concat (map snd s) ->
            k ∈ List.concat (map snd (seen ++ [(d, batch)]))) (seen ++ [(d, batch)])) as Hall'.
  { assert (forall k, k ∈ List.concat (map snd seen) -> k ∈ List.concat (map snd (seen ++ [(d, batch)]))) as Hi.
    { intros k Hk. rewrite map_app, concat_app, elem_of_app. by left. }
    apply Forall_app. split; [|apply Forall_singleton; by exists seen].
    eapply Forall_impl; [exact Hall|]. intros x (s & Hx & Hk). exists s. split; [done|]. eauto. }
  destruct (next =? 0) eqn:En; b2p.
  - subst next. by eexists _, _.
  - eapply IH; [by right| | |exact Hall'|exact Hw'|].
    + intros _. destruct seen as [|x l]; [rewrite H0 by done; by eexists|]. by apply Hh.
    + by destruct seen.
    + rewrite length_app. cbn. lia.
Qed.

(** Prefix removal: exactly the keys with the prefix are gone. *)
Lemma remove_prefix_entries d p :
  exists d', scan_and_delete (scan_turns d) d (scan_pattern p) 0 = Some d' /\
  forall k, entry d' k = if starts_with p k then None else entry d k.
Proof.
  destruct (scan_and_delete_ends (scan_pattern p) d (scan_turns d) [] d 0)
    as (d' & all & Hr & Hw & Hs & Hall); [by left|done|done|constructor| |cbn; lia|].
  { intros k. cbn. by rewrite bool_decide_eq_false_2 by set_solver. }
  exists d'. split; [done|]. intros k. rewrite (Hw k). case_bool_decide as Hin.
  - assert (starts_with p k = true) as ->; [|done]. rewrite <- scan_pattern_match.
    clear -RL Hin Hs. induction Hs as [c d0 b n Hd|c d0 b n l c' Hd Hn _ IH]; cbn in Hin.
    + rewrite app_nil_r in Hin. apply (scan_matches d0 c _ SCAN_COUNT). by rewrite Hd.
    + apply elem_of_app in Hin as [Hin|Hin]; [|by apply IH]. apply (scan_matches d0 c _ SCAN_COUNT). by rewrite Hd.
  - destruct (starts_with p k) eqn:Ek; [|done]. apply eq_None_not_Some. intros Hs0. apply Hin.
    destruct (scan_complete (scan_pattern p) SCAN_COUNT all k) as (x & Hx & Hk); [done|by rewrite scan_pattern_match| |].
    + eapply Forall_impl; [exact Hall|]. intros x (s & Hx & Hsub). rewrite (Hx k).
      rewrite bool_decide_eq_false_2; [done|]. intros Hk. by apply Hin, Hsub.
    + apply list_elem_of_In, in_concat. exists x.2. split; [|by apply list_elem_of_In].
      apply in_map, list_elem_of_In, Hx.
Qed.

Lemma remove_prefix_on_law d p : tracks [] d (remove_prefix_on d p) (Contract.remove_prefix (cview d) p).
Proof.
  unfold remove_prefix_on. destruct (remove_prefix_entries d p) as (d' & -> & H). cbn [default]. split.
  - intros k. unfold cview, Contract.remove_prefix, value_of. rewrite H.
    destruct (starts_with p k); cbn; by destruct (counter k).
  - intros k _. rewrite H. destruct (starts_with p k); [by intros []|by left].
Qed.

(** ** Schedules *)

(** An operation on counter keys with amounts of type [u64], spends within the
    exact range. *)
Definition redis_op_ok (o : op) : Prop :=
  match o with
  | OpAdd k d => counter k = true /\ is_u64 d
  | OpFetchMax k v => counter k = true /\ is_u64 v
  | OpSpend l => Forall spendable l
  | OpRefund k a => counter k = true /\ is_u64 a
  | OpRefundMany l => Forall refundable l
  | OpRemove k => counter k = true
  | OpRemovePrefix _ => True
  end.

Definition spec_reply (L : str -> Z) (o : op) : reply :=
  match o with
  | OpAdd k d => RNum (Contract.add L k d).2
  | OpFetchMax k v => RNum (Contract.fetch_max L k v).2
  | OpSpend l => RSpend (Contract.try_spend_many L l).2
  | _ => RUnit
  end.

Definition op_markers (o : op) (u : str) : list str :=
  match o with
  | OpRefund k _ => [marker_of k u]
  | OpRefundMany (r :: _) => [marker_of (rf_key r) u]
  | _ => []
  end.

Lemma redis_op_law d o u : in_range d -> redis_op_ok o ->
  Forall (fun m => entry d m = None) (op_markers o u) ->
  exists d', redis_op (mkRedis d None) o u = (mkRedis d' None, spec_reply (cview d) o) /\
    tracks (op_markers o u) d d' (spec_op (cview d) o).
Proof.
  intros Hd Ho Hm. destruct o as [k a|k v|l|k a|l|k|p]; cbn in Ho |- *;
    unfold redis_add, redis_fetch_max, redis_try_spend_many, with_conn; cbn [pool server].
  - destruct Ho as [Hk Ha]. pose proof (add_on_law d k a Hd Hk Ha) as H.
    destruct (add_on d k a) as [d' r]. destruct H as [-> H]. by eexists.
  - destruct Ho as [Hk Ha]. pose proof (fetch_max_on_law d k v Hd Hk Ha) as H.
    destruct (fetch_max_on d k v) as [d' r]. destruct H as [-> H]. by eexists.
  - pose proof (spend_on_law d l Hd Ho) as H.
    destruct (spend_many_on d l) as [d' r]. destruct H as [-> H]. by eexists.
  - destruct Ho as [Hk Ha]. cbn in Hm. rewrite Forall_singleton in Hm. eexists. split; [done|].
    by apply refund_on_law.
  - eexists. split; [done|]. cbn [server]. destruct l as [|r l]; [apply tracks_refl|].
    cbn in Hm. rewrite Forall_singleton in Hm.
    apply (refund_many_on_law d (r :: l) u Hd Ho). by intros r' [= <-].
  - eexists. split; [done|]. by apply remove_on_law.
  - eexists. split; [done|]. apply remove_prefix_on_law.
Qed.

Lemma redis_op_typed o : redis_op_ok o -> op_typed o.
Proof.
  destruct o as [k a|k v|l|k a|l|k|p]; cbn; try (by intros []); try done.
  - intros H. eapply Forall_impl; [exact H|]. intros sp (_ & ? & ?). split; bounds.
  - intros H. eapply Forall_impl; [exact H|]. by intros r [].
Qed.

Lemma memory_reply s o : InMemoryFacts.wf s -> op_typed o -> op_reply s o = spec_reply (InMemory.load s) o.
Proof.
  intros Hwf Ho. destruct o as [k a|k v|l|k a|l|k|p]; cbn in *; try done.
  - pose proof (InMemoryFacts.add_law s k a Hwf Ho) as H. destruct (InMemory.add s k a) as [? ?]; cbn.
    by destruct H as (_ & -> & _).
  - pose proof (InMemoryFacts.fetch_max_law s k v Hwf Ho) as H. destruct (InMemory.fetch_max s k v) as [? ?]; cbn.
    by destruct H as (_ & -> & _).
  - pose proof (InMemoryFacts.spend_law s l Hwf Ho) as H. destruct (InMemory.try_spend_many s l) as [? ?]; cbn.
    by destruct H as (_ & -> & _).
Qed.

Lemma spec_reply_ext L1 L2 o : L1 =L L2 -> spec_reply L1 o = spec_reply L2 o.
Proof.
  intros H. destruct o as [k a|k v|l|k a|l|k|p]; cbn; try done.
  - unfold Contract.add. rewrite (H k). by case_match.
  - unfold Contract.fetch_max. rewrite (H k). by case_match.
  - by rewrite (proj1 (spec_spend_ext _ _ l H)).
Qed.

(** The in-memory store run on the same operations. *)
Fixpoint memory_run (s : InMemory.t) (ops : list op) : InMemory.t * list reply :=
  match ops with
  | [] => (s, [])
  | o :: rest => let '(s', rs) := memory_run (run_op s o) rest in (s', op_reply s o :: rs)
  end.

Lemma marker_inj k k' u u' : length u = length u' -> marker_of k u = marker_of k' u' -> u = u'.
Proof.
  intros Hl H. unfold marker_of in H. apply app_inj_2 in H as [_ H]; [|rewrite !length_app; lia].
  by apply app_inv_head in H.
Qed.

(** The markers present were drawn with ids in [used]. *)
Definition marked (used : list str) (d : Db) : Prop :=
  forall k, counter k = false -> is_Some (entry d k) -> exists key u, u ∈ used /\ k = marker_of key u.

Lemma op_markers_id o u m : m ∈ op_markers o u -> exists key, m = marker_of key u.
Proof.
  destruct o as [k a|k v|l|k a|l|k|p]; cbn; try set_solver.
  destruct l; set_solver.
Qed.

Lemma run_agrees ops used d s :
  InMemoryFacts.wf s -> cview d =L InMemory.load s -> marked used d ->
  Forall redis_op_ok ops.*1 -> NoDup (used ++ ops.*2) ->
  Forall (fun u => length u = 36%nat) (used ++ ops.*2) ->
  exists d', redis_run (mkRedis d None) ops = (mkRedis d' None, (memory_run s ops.*1).2) /\
    InMemoryFacts.wf (memory_run s ops.*1).1 /\ cview d' =L InMemory.load (memory_run s ops.*1).1.
Proof.
  revert used d s. induction ops as [|[o u] ops IH]; intros used d s Hwf Hv Hmk Hok Hnd Hlen; cbn [redis_run].
  { by exists d. }
  cbn in Hok, Hnd, Hlen. apply Forall_cons in Hok as [Ho Hok].
  assert (in_range d) as Hd by (intros k; rewrite (Hv k); by apply InMemoryFacts.load_range).
  assert (Forall (fun m => entry d m = None) (op_markers o u)) as Hfresh.
  { apply Forall_forall. intros m Hm. apply eq_None_not_Some. intros Hs.
    apply op_markers_id in Hm as [key ->].
    destruct (Hmk _ (marker_not_counter key u) Hs) as (key' & u' & Hu' & Heq).
    apply marker_inj in Heq as ->.
    - apply NoDup_app in Hnd as (_ & Hdis & _). apply (Hdis u' Hu'). by left.
    - rewrite Forall_forall in Hlen. rewrite !Hlen by set_solver. done. }
  destruct (redis_op_law d o u Hd Ho Hfresh) as (d1 & -> & Hview & Hnew).
  pose proof (redis_op_typed o Ho) as Hty.
  destruct (@run_op_law InMemory.t UT _ InMemoryFacts.store_laws s o Hwf Hty) as [Hwf1 Hv1].
  destruct (IH (used ++ [u]) d1 (run_op s o)) as (d' & Hr & Hwf' & Hv').
  - exact Hwf1.
  - rewrite Hview, Hv. symmetry. exact Hv1.
  - intros k Hk Hs. destruct (Hnew k Hk Hs) as [Hold|Hin].
    + destruct (Hmk k Hk Hold) as (key & u' & Hu' & ->). exists key, u'. split; [set_solver|done].
    + apply op_markers_id in Hin as [key ->]. exists key, u. split; [set_solver|done].
  - done.
  - by rewrite <- app_assoc.
  - by rewrite <- app_assoc.
  - rewrite Hr. cbn. destruct (memory_run (run_op s o) ops.*1) as [s2 rs]. cbn in *.
    exists d'. split; [|done]. do 2 f_equal. rewrite memory_reply by done. by apply spec_reply_ext.
Qed.
End Refinement.


(** * Lifetime of a cap *)

Section Lifetime.
Context {UT : UnicodeTables} {RS : RedisServer} {RL : RedisLaws RS}.

Lemma spend_check_state i l d : exists r, spend_check i l d = (d, Ok r).
Proof.
  revert i. induction l as [|sp l IH]; intros i; cbn [spend_check]; [by eexists|].
  unfold bind, lua_get, reads, ret. case_match; [by eexists|apply IH].
Qed.

Lemma spend_check_values i l d d' :
  (forall k, k ∈ map sp_key l -> value_of d' k = value_of d k) ->
  (spend_check i l d').2 = (spend_check i l d).2.
Proof.
  revert i. induction l as [|sp l IH]; intros i H; cbn [spend_check]; [done|].
  unfold bind, lua_get, reads, ret. rewrite (H (sp_key sp)) by (cbn; left).
  case_match; [done|]. apply IH. intros k Hk. apply H. cbn. by right.
Qed.

(** A refreshed key outlives the day. *)
Lemma refreshed_pass d d' keys dt k : refreshed d d' keys -> k ∈ keys ->
  0 <= dt <= 1000 * BUDGET_COUNTER_TTL_SECS -> value_of (pass d' dt) k = value_of d k.
Proof.
  intros [Hn He] Hk Hdt. destruct (pass_law d' dt ltac:(lia)) as [_ Hp]. unfold value_of.
  rewrite Hp, He, bool_decide_eq_true_2 by done. destruct (entry d k) as [[v w]|]; cbn; [|done].
  unfold deadline. rewrite (proj2 (Z.leb_le _ _)) by lia. done.
Qed.

Lemma refused_refreshes d l d' i : spend_many_on d l = (d', Ok (Refused i)) ->
  refreshed d d' (map sp_key l) /\ l <> [] /\
  refuse_duplicate_spend_keys l = Ok tt /\ find Contract.out_of_range l = None /\
  exists j, (spend_check 1 l d).2 = Ok (Some j) /\ spend_outcome (-1, j) = Ok (Refused i).
Proof.
  unfold spend_many_on. destruct (refuse_duplicate_spend_keys l) as [[]|]; [|done].
  destruct (find Contract.out_of_range l); [done|]. destruct l as [|sp l]; [done|].
  set (all := sp :: l) in *. unfold invoke, TRY_SPEND_LUA, bind at 1.
  destruct (spend_check_state 1 all d) as [r Hr]. rewrite Hr. destruct r as [j|].
  - destruct (refresh_ttls_ok (map sp_key all) d) as (d1 & Hf & Href). unfold bind. rewrite Hf.
    cbn [ret map_err]. intros [= <- Hi]. do 4 (split; [done|]). by exists j.
  - unfold bind. destruct (spend_commit all (-1) d) as [d1 [m|e]]; cbn [ret map_err]; [|done].
    unfold spend_outcome. intros [= _ H]. exfalso. destruct (m =? -1); cbn in H; done.
Qed.
End Lifetime.

(** A refusal keeps the caps alive: after a refused batch, every counter of
    the batch reads the same at any time within the next 24 hours, and the same
    batch is refused again with the same answer.  Retrying at a cap never lets
    the counter expire and the budget start over. *)
Theorem refused_cap_persists {UT : UnicodeTables} {RS : RedisServer} {RL : RedisLaws RS}
    (d d' : Db) (spends : list Spend) (i : nat) (dt : Z) :
  spend_many_on d spends = (d', Ok (Refused i)) -> 0 <= dt <= 24 * 3600 * 1000 ->
  (forall k, k ∈ map sp_key spends -> value_of (pass d' dt) k = value_of d k) /\
  (spend_many_on (pass d' dt) spends).2 = Ok (Refused i).
Proof.
  intros H Hdt. apply refused_refreshes in H as (Href & Hne & Hdup & Hfind & j & Hj & Ho).
  assert (forall k, k ∈ map sp_key spends -> value_of (pass d' dt) k = value_of d k) as Hval.
  { intros k Hk. eapply refreshed_pass; [done..|]. unfold BUDGET_COUNTER_TTL_SECS. lia. }
  split; [done|]. unfold spend_many_on. rewrite Hdup, Hfind. destruct spends as [|sp l]; [done|].
  unfold invoke, TRY_SPEND_LUA, bind at 1.
  destruct (spend_check_state 1 (sp :: l) (pass d' dt)) as [r Hr].
  pose proof (spend_check_values 1 (sp :: l) d (pass d' dt) Hval) as Hsame.
  rewrite Hr, Hj in Hsame. cbn in Hsame. injection Hsame as ->. rewrite Hr.
  destruct (refresh_ttls_ok (map sp_key (sp :: l)) (pass d' dt)) as (d2 & Hf & _).
  unfold bind. rewrite Hf. exact Ho.
Qed.

(** * Replayed refunds *)

Section Replay.
Context {UT : UnicodeTables} {RS : RedisServer} {RL : RedisLaws RS}.

Lemma sets_other d d' k e k' : sets d d' k e -> k' <> k -> r_now d' = r_now d /\ entry d' k' = entry d k'.
Proof. intros [Hn H] Hk. split; [done|]. by rewrite H, bool_decide_eq_false_2. Qed.

(** A refund leaves every other key alone, error or not. *)
Lemma refund_key_other d k a k' : k' <> k ->
  r_now (refund_key k a d).1 = r_now d /\ entry (refund_key k a d).1 k' = entry d k'.
Proof.
  intros Hk. unfold refund_key, bind, reads, writes, ret. case_match; [done|].
  pose proof (decrby_law d k a) as Hm. unfold moves in Hm.
  destruct (cmd_decrby d k a) as [d1 [new|e]]; [|by destruct Hm as [_ [? ?]]].
  destruct Hm as (_ & _ & Hs). apply (sets_other _ _ _ _ k') in Hs as [Hn1 H1]; [|done].
  case_match; cbn [fst].
  - destruct (sets_other _ _ _ _ k' (set_law d1 k 0 (Some BUDGET_COUNTER_TTL_SECS) ltac:(by intros ? [= <-])) Hk). split; congruence.
  - destruct (sets_other _ _ _ _ k' (expire_law d1 k BUDGET_COUNTER_TTL_SECS ttl_pos) Hk). split; congruence.
Qed.

Lemma refund_keys_other items d k' : k' ∉ items.*1 ->
  r_now (refund_keys items d).1 = r_now d /\ entry (refund_keys items d).1 k' = entry d k'.
Proof.
  revert d. induction items as [|[k a] items IH]; intros d Hk; [done|]. cbn in Hk.
  apply not_elem_of_cons in Hk as [Hne Hk]. cbn [refund_keys]. unfold bind.
  pose proof (refund_key_other d k a k' Hne) as [Hn H]. destruct (refund_key k a d) as [d1 [r|e]]; [|done].
  cbn in Hn, H. destruct (IH d1 Hk). split; congruence.
Qed.

(** Once set, the marker turns the script away until it expires. *)
Lemma claim_fresh d m : entry d m = None -> exists d1, claim_marker m d = (d1, Ok true) /\
  r_now d1 = r_now d /\ entry d1 m = Some (1, Some (deadline d REFUND_MARKER_TTL_SECS)).
Proof.
  intros Hf. unfold claim_marker. pose proof (set_nx_law d m 1 REFUND_MARKER_TTL_SECS eq_refl) as H.
  destruct (cmd_set_nx d m 1 REFUND_MARKER_TTL_SECS) as [d1 [|]]; [|destruct H as [[] _]; congruence].
  destruct H as [_ [Hn H]]. exists d1. split; [done|]. split; [done|]. by rewrite H, bool_decide_eq_true_2.
Qed.

Lemma claim_again d1 d m dt : entry d1 m = Some (1, Some (deadline d REFUND_MARKER_TTL_SECS)) ->
  r_now d1 = r_now d -> 0 <= dt <= 1000 * REFUND_MARKER_TTL_SECS ->
  exists d2, claim_marker m (pass d1 dt) = (d2, Ok false) /\ same (pass d1 dt) d2.
Proof.
  intros He Hn Hdt. destruct (pass_law d1 dt ltac:(lia)) as [_ Hp].
  assert (is_Some (entry (pass d1 dt) m)) as Hs.
  { rewrite Hp, He. unfold deadline. rewrite (proj2 (Z.leb_le _ _)) by lia. by eexists. }
  unfold claim_marker. pose proof (set_nx_law (pass d1 dt) m 1 REFUND_MARKER_TTL_SECS eq_refl) as H.
  destruct (cmd_set_nx (pass d1 dt) m 1 REFUND_MARKER_TTL_SECS) as [d2 [|]].
  - destruct H as [H _]. destruct Hs. congruence.
  - destruct H as [_ H]. by exists d2.
Qed.

Lemma marker_ne k u : marker_of k u <> k.
Proof.
  intros H. apply (f_equal length) in H. unfold marker_of in H. rewrite !length_app in H. cbn in H. lia.
Qed.

(** After a first run the marker is set. *)
Lemma refund_on_marked d key amount uid : entry d (marker_of key uid) = None ->
  entry (refund_on d key amount uid) (marker_of key uid)
    = Some (1, Some (deadline d REFUND_MARKER_TTL_SECS)) /\ r_now (refund_on d key amount uid) = r_now d.
Proof.
  intros Hf. unfold refund_on, invoke, REFUND_LUA, bind.
  destruct (claim_fresh d _ Hf) as (d1 & Hc & Hn & He). rewrite Hc. cbn [negb].
  destruct (refund_key_other d1 key (clamp_i64 amount) _ (marker_ne key uid)) as [Hn' He'].
  destruct (refund_key key (clamp_i64 amount) d1) as [d2 r]. cbn [fst] in *. split; congruence.
Qed.

Lemma refund_many_on_marked d first rest uid : entry d (marker_of (rf_key first) uid) = None ->
  marker_of (rf_key first) uid ∉ map rf_key rest ->
  let d1 := refund_many_on d (first :: rest) uid in
  entry d1 (marker_of (rf_key first) uid) = Some (1, Some (deadline d REFUND_MARKER_TTL_SECS)) /\
  r_now d1 = r_now d.
Proof.
  intros Hf Hni. unfold refund_many_on, invoke, REFUND_MANY_LUA, bind.
  destruct (claim_fresh d _ Hf) as (d1 & Hc & Hn & He). rewrite Hc. cbn [negb]. set (items := map _ (first :: rest)).
  destruct (refund_keys_other items d1 (marker_of (rf_key first) uid)) as [Hn' He'].
  { unfold items. cbn [map fmap list_fmap fst]. apply not_elem_of_cons. split; [apply marker_ne|]. intros Hin.
    apply Hni. apply list_elem_of_fmap in Hin as ([k a] & Hk & Hin).
    apply list_elem_of_fmap in Hin as (x & [= -> ->] & Hin). cbn [fst] in Hk. rewrite Hk.
    by apply list_elem_of_fmap_2. }
  destruct (refund_keys items d1) as [d2 r]. cbn [fst] in *. split; congruence.
Qed.
End Replay.

(** A refund is applied at most once: when the driver replays a refund whose
    reply was lost, within the five minutes its marker lives, the second run
    changes nothing, for one key or a batch. *)
Theorem refund_replay_is_noop {RS : RedisServer} {RL : RedisLaws RS} (d : Db) (uid : str) (dt : Z) :
  0 <= dt <= 300 * 1000 ->
  (forall key amount, entry d (marker_of key uid) = None ->
     let d1 := refund_on d key amount uid in
     same (pass d1 dt) (refund_on (pass d1 dt) key amount uid)) /\
  (forall first rest, entry d (marker_of (rf_key first) uid) = None ->
     marker_of (rf_key first) uid ∉ map rf_key rest ->
     let d1 := refund_many_on d (first :: rest) uid in
     same (pass d1 dt) (refund_many_on (pass d1 dt) (first :: rest) uid)).
Proof.
  intros Hdt. assert (0 <= dt <= 1000 * REFUND_MARKER_TTL_SECS) as Hdt' by (unfold REFUND_MARKER_TTL_SECS; lia).
  split.
  - intros key amount Hf d1. destruct (refund_on_marked d key amount uid Hf) as [He Hn].
    destruct (claim_again d1 d (marker_of key uid) dt He Hn Hdt') as (d2 & Hc & Hs).
    unfold refund_on, invoke, REFUND_LUA, bind. by rewrite Hc.
  - intros first rest Hf Hni d1. destruct (refund_many_on_marked d first rest uid Hf Hni) as [He Hn].
    destruct (claim_again d1 d (marker_of (rf_key first) uid) dt He Hn Hdt') as (d2 & Hc & Hs).
    unfold refund_many_on, invoke, REFUND_MANY_LUA, bind. by rewrite Hc.
Qed.

(** Removing a prefix ends, and removes exactly the keys that start with the
    prefix, whatever pattern characters the prefix contains. *)
Theorem redis_remove_prefix_exact {RS : RedisServer} {RL : RedisLaws RS} (d : Db) (prefix : str) :
  is_Some (scan_and_delete (scan_turns d) d (scan_pattern prefix) 0) /\
  forall k, entry (remove_prefix_on d prefix) k = if starts_with prefix k then None else entry d k.
Proof.
  destruct (remove_prefix_entries d prefix) as (d' & Hr & H). unfold remove_prefix_on. rewrite Hr.
  split; [by eexists|exact H].
Qed.

(** * A concrete server *)

(** A server that keeps its keys in a map and scans in one call. *)
Module MapServer.

Record db := mk { store : gmap str (Z * option Z); clock : Z }.

Definition live (d : db) (k : str) : option (Z * option Z) :=
  match store d !! k with
  | Some (v, Some w) => if clock d <=? w then Some (v, Some w) else None
  | e => e
  end.

Definition put (d : db) (k : str) (e : Z * option Z) : db := mk (<[k := e]> (store d)) (clock d).

Definition move (d : db) (k : str) (n : Z) : db * result Z str :=
  let v := default 0 (fst <$> live d k) + n in
  if (i64_min <=? v) && (v <=? i64_max) then (put d k (v, live d k ≫= snd), Ok v)
  else (d, Err (lit "ERR increment or decrement would overflow")).

(** Patterns with at most a final star. *)
Fixpoint glob (p s : str) : bool :=
  match p with
  | [] => bool_decide (s = [])
  | c :: p' =>
      if bool_decide (c = 42 /\ p' = []) then true
      else if c =? 92 then
        match p', s with e :: p'', x :: s' => (x =? e) && glob p'' s' | _, _ => false end
      else match s with x :: s' => (x =? c) && glob p' s' | [] => false end
  end.

Definition matching (d : db) (p : str) : list str :=
  filter (fun k => is_Some (live d k) /\ glob p k = true) (map_to_list (store d)).*1.

#[export] Instance server : RedisServer := {|
  Db := db; r_now := clock; entry := live;
  cmd_set d k v ex := put d k (v, (fun s => clock d + 1000 * s) <$> ex);
  cmd_set_nx d k v ex := match live d k with
                         | None => (put d k (v, Some (clock d + 1000 * ex)), true)
                         | Some _ => (d, false)
                         end;
  cmd_incrby := move;
  cmd_decrby d k n := move d k (- n);
  cmd_expire d k secs := match live d k with
                         | Some (v, _) => put d k (v, Some (clock d + 1000 * secs))
                         | None => d
                         end;
  cmd_del d ks := mk (filter (fun kv => kv.1 ∉ ks) (store d)) (clock d);
  cmd_scan d c p n := (0, matching d p);
  glob_match := glob;
  scan_turns _ := 1%nat;
  pass d dt := mk (store d) (clock d + dt);
|}.

(** A key whose expiry is not in the past is live. *)
Lemma put_sets (d : db) k v w : match w with Some x => clock d <= x | None => True end ->
  @sets server d (put d k (v, w)) k (Some (v, w)).
Proof.
  intros Hw. split; [done|]. intros k'. cbn. unfold live, put. cbn.
  destruct (decide (k' = k)) as [->|Hne].
  - rewrite lookup_insert_eq, bool_decide_eq_true_2 by done. destruct w; [|done].
    by rewrite (proj2 (Z.leb_le _ _)).
  - by rewrite lookup_insert_ne, bool_decide_eq_false_2 by done.
Qed.

Lemma live_expiry d k v w : live d k = Some (v, Some w) -> clock d <= w.
Proof.
  unfold live. destruct (store d !! k) as [[v' [w'|]]|]; [|done..].
  destruct (clock d <=? w') eqn:E; [|done]. intros [= _ ->]. by b2p.
Qed.

Lemma move_moves d k n : @moves server d k n (move d k n).
Proof.
  unfold moves, move. cbn. unfold value_of, expiry_of. cbn.
  set (v := default 0 (fst <$> live d k) + n). unfold is_i64.
  destruct ((i64_min <=? v) && (v <=? i64_max)) eqn:E; b2p.
  - split; [done|]. split; [done|]. apply put_sets.
    destruct (live d k) as [[x [w|]]|] eqn:El; cbn; try done. by eapply live_expiry.
  - split; [|by split]. intros [H1 H2]. rewrite (proj2 (Z.leb_le _ _) H1), (proj2 (Z.leb_le _ _) H2) in E. done.
Qed.

Lemma scan_one c l c' : scanning (fun (d : db) (_ : Z) => (0, matching d c)) 0 l c' ->
  exists d, l = [(d, matching d c)].
Proof.
  inversion 1; match goal with H : (_, _) = (_, _) |- _ => injection H as ? ? end; subst; [by eexists|done].
Qed.

Lemma matching_spec d p k : k ∈ matching d p <-> is_Some (live d k) /\ glob p k = true.
Proof.
  unfold matching. rewrite list_elem_of_filter. split; [by intros []|]. intros H. split; [done|].
  apply list_elem_of_fmap. destruct H as [[e He] _]. unfold live in He.
  destruct (store d !! k) as [x|] eqn:E; [|done]. exists (k, x). split; [done|].
  by apply elem_of_map_to_list.
Qed.

#[export] Instance laws : RedisLaws server.
Proof.
  split.
  - intros d k v [s|] Hs; [|by apply put_sets]. apply put_sets. specialize (Hs s eq_refl).
    unfold deadline. cbn. lia.
  - intros d k v ex Hex. cbn. destruct (live d k) as [e|] eqn:E; [split; [by eexists|by split]|].
    split; [done|]. apply put_sets. unfold deadline. cbn. lia.
  - intros. apply move_moves.
  - intros. apply move_moves.
  - intros d k secs Hs. cbn. destruct (live d k) as [[v w]|] eqn:E; cbn.
    + apply put_sets. unfold deadline. cbn. lia.
    + split; [done|]. intros k'. case_bool_decide; [by subst|done].
  - intros d ks. split; [done|]. intros k. cbn. unfold live. cbn. rewrite map_lookup_filter.
    destruct (store d !! k) as [[v w]|]; cbn; [|by case_bool_decide]. case_guard; case_bool_decide; done.
  - intros d dt Hdt. split; [done|]. intros k. cbn. unfold live. cbn.
    destruct (store d !! k) as [[v [w|]]|]; [|done..].
    destruct (clock d <=? w) eqn:E1; [done|]. destruct (clock d + dt <=? w) eqn:E2; [b2p; lia|done].
  - intros s. done.
  - intros c p s Hc. unfold is_glob_meta in Hc. b2p. cbn. rewrite bool_decide_eq_false_2 by naive_solver.
    by rewrite (proj2 (Z.eqb_neq c 92)).
  - intros c p s. by destruct s.
  - intros d c p n k Hk. by apply matching_spec in Hk as [_ ?].
  - intros p n l k Hs Hg Hl. apply scan_one in Hs as [d ->]. rewrite Forall_singleton in Hl.
    exists (d, matching d p). split; [by left|]. by apply matching_spec.
  - intros p n d b l c Hs _. apply scan_one in Hs as [d' [= -> -> ->]]. cbn. lia.
Qed.
End MapServer.

(** * Concrete runs *)

Module RedisSample.

Definition empty : MapServer.db := MapServer.mk ∅ 0.

Definition uid (n : Z) : str := replicate 36 n.

Definition ops : list (op * str) :=
  [(OpSpend [mkSpend (lit "a") 3 10; mkSpend (lit "b") 4 10], uid 48);
   (OpRefundMany [mkRefund (lit "a") 1; mkRefund (lit "b") 100], uid 49);
   (OpSpend [mkSpend (lit "a") 9 10], uid 50);
   (OpAdd (lit "b") 7, uid 51)].

Lemma ops_ok : Forall redis_op_ok ops.*1.
Proof.
  repeat (apply Forall_cons; split); try apply Forall_nil; repeat split;
    repeat (apply Forall_cons; split); try apply Forall_nil; repeat split; try reflexivity; cbn; bounds.
Qed.

Lemma uids_ok : NoDup ops.*2 /\ Forall (fun u => length u = 36%nat) ops.*2.
Proof. split; [apply (bool_decide_unpack (NoDup ops.*2)); vm_compute; exact I|repeat constructor]. Qed.

(** A counter at its cap: the next spend is refused. *)
Definition capped : MapServer.db :=
  (@spend_many_on ascii_tables MapServer.server empty [mkSpend (lit "a") 10 10]).1.

Definition refused : MapServer.db :=
  (@spend_many_on ascii_tables MapServer.server capped [mkSpend (lit "a") 1 10]).1.

Lemma capped_refused :
  @spend_many_on ascii_tables MapServer.server capped [mkSpend (lit "a") 1 10] = (refused, Ok (Refused 0)).
Proof. unfold refused. apply snd_eq_pair. vm_compute. reflexivity. Qed.
End RedisSample.


Lemma refused_cap_persists_witness :
  (@spend_many_on ascii_tables MapServer.server (MapServer.mk (MapServer.store RedisSample.refused)
     (MapServer.clock RedisSample.refused + 80000000)) [mkSpend (lit "a") 1 10]).2 = Ok (Refused 0).
Proof.
  refine (proj2 (@refused_cap_persists ascii_tables MapServer.server MapServer.laws RedisSample.capped
    RedisSample.refused [mkSpend (lit "a") 1 10] 0 80000000 RedisSample.capped_refused _)). lia.
Defined.

Lemma refund_replay_is_noop_witness :
  let d1 := @refund_on MapServer.server RedisSample.capped (lit "a") 4 (RedisSample.uid 48) in
  @same MapServer.server (MapServer.mk (MapServer.store d1) (MapServer.clock d1 + 1000))
    (@refund_on MapServer.server (MapServer.mk (MapServer.store d1) (MapServer.clock d1 + 1000))
       (lit "a") 4 (RedisSample.uid 48)).
Proof.
  refine (proj1 (@refund_replay_is_noop MapServer.server MapServer.laws RedisSample.capped
    (RedisSample.uid 48) 1000 _) (lit "a") 4 _); [lia|]. vm_compute. reflexivity.
Defined.

Lemma redis_remove_prefix_exact_witness :
  MapServer.live (@remove_prefix_on MapServer.server RedisSample.capped [42]) (lit "a")
  = MapServer.live RedisSample.capped (lit "a").
Proof.
  exact (proj2 (@redis_remove_prefix_exact MapServer.server MapServer.laws RedisSample.capped [42]) (lit "a")).
Defined.

(** The range check comes first in Redis and in turn in memory: a batch whose
    first spend is over its cap and whose second is out of range is refused by
    one backend and fails on the other. *)
Example range_check_order_differs :
  let batch := [mkSpend (lit "a") 2 1; mkSpend (lit "b") 1 (JCS_SAFE_MAX + 1)] in
  (@spend_many_on ascii_tables MapServer.server RedisSample.empty batch).2 = Err (Overflow (lit "b")) /\
  (@InMemory.try_spend_many ascii_tables InMemory.new batch).2 = Ok (Refused 0).
Proof. split; vm_compute; reflexivity. Qed.
