(* ===== verification/Serde.v ===== *)
(** The shape of the code that [serde]'s derive macros generate: writing a struct
    as an object (with [skip_serializing_if = "Option::is_none"] on optional
    members) and reading one back from a [serde_json::Value].  A struct with
    [deny_unknown_fields] reads from an object with no other key, or from an array
    that holds every field in order. *)

From S2P Require Import Prelude Rust Json.

(** * Writing *)

Definition ser_u (n : Z) : Value := Number (PosInt n).

Definition member (name : string) (v : Value) : list (str * Value) := [(lit name, v)].

(** [skip_serializing_if = "Option::is_none"]. *)
Definition opt_member {A} (name : string) (f : A -> Value) (o : option A) : list (str * Value) :=
  match o with Some a => [(lit name, f a)] | None => [] end.

(** An [Option] written without the attribute. *)
Definition ser_opt {A} (f : A -> Value) (o : option A) : Value :=
  match o with Some a => f a | None => Null end.

(** * Reading *)

(** Fields are read one after another; the struct is read if all of them are. *)
Definition ap_opt {A B} (f : option (A -> B)) (x : option A) : option B :=
  match f, x with Some g, Some a => Some (g a) | _, _ => None end.

Notation "f <*> x" := (ap_opt f x) (at level 61, left associativity) : av_scope.

Definition de_str (v : Value) : option str := as_str v.

Definition de_bool (v : Value) : option bool :=
  match v with Bool b => Some b | _ => None end.

(** An unsigned integer of the width whose maximum is [max]. *)
Definition de_uint (max : Z) (v : Value) : option Z :=
  match v with
  | Number (PosInt u) => if u <=? max then Some u else None
  | _ => None
  end.

Definition u8_max : Z := 255.
Definition u32_max : Z := 2 ^ 32 - 1.

Definition de_value (v : Value) : option Value := Some v.

(** A unit variant: its name, or a one-member object whose value is [null]. *)
Definition de_unit_variant {A} (of_name : str -> option A) (v : Value) : option A :=
  match v with
  | JString s => of_name s
  | Object [(k, Null)] => of_name k
  | _ => None
  end.

Fixpoint de_seq {A} (f : Value -> option A) (l : list Value) : option (list A) :=
  match l with
  | [] => Some []
  | v :: l' => match f v, de_seq f l' with
               | Some a, Some r => Some (a :: r)
               | _, _ => None
               end
  end.

Definition de_vec {A} (f : Value -> option A) (v : Value) : option (list A) :=
  match v with Array l => de_seq f l | _ => None end.

(** A field that must be there, and an [Option] field. *)
Definition required {A} (f : Value -> option A) (o : option Value) : option A := o ≫= f.

Definition optional {A} (f : Value -> option A) (o : option Value) : option (option A) :=
  match o with
  | None | Some Null => Some None
  | Some v => Some <$> f v
  end.

(** A field with [#[serde(default)]]. *)
Definition defaulted {A} (d : A) (f : Value -> option A) (o : option Value) : option A :=
  match o with None => Some d | Some v => f v end.

Definition known (names : list str) (k : str) : bool := existsb (str_eqb k) names.

(** The fields of a struct with [deny_unknown_fields], in declaration order. *)
Definition strict_fields (names : list str) (v : Value) : option (list (option Value)) :=
  match v with
  | Object m =>
      if forallb (fun kv => known names kv.1) m then Some (map (fun n => map_get n m) names)
      else None
  | Array l => if (length l =? length names)%nat then Some (map Some l) else None
  | _ => None
  end.

(** * Lemmas *)

Definition field_keys (m : list (str * Value)) : list str := map fst m.

Lemma map_get_app k m1 m2 :
  map_get k (m1 ++ m2) = match map_get k m1 with Some v => Some v | None => map_get k m2 end.
Proof. induction m1 as [|[k' w] m1 IH]; cbn; [done|]. by destruct (str_eqb k' k). Qed.

Lemma map_get_None k m : map_get k m = None <-> k ∉ map fst m.
Proof.
  induction m as [|[k' w] m IH]; cbn; [by split; [inversion 2|]|].
  rewrite not_elem_of_cons. destruct (str_eqb k' k) eqn:E.
  - apply str_eqb_eq in E as ->. naive_solver.
  - apply str_eqb_neq in E. naive_solver.
Qed.

Lemma known_iff names k : known names k = true <-> k ∈ names.
Proof.
  unfold known. rewrite existsb_exists. split.
  - intros (x & Hin & ->%str_eqb_eq). by apply list_elem_of_In.
  - intros H. exists k. split; [by apply list_elem_of_In|apply str_eqb_refl].
Qed.

Lemma de_uint_ser max n : 0 <= n <= max -> de_uint max (ser_u n) = Some n.
Proof. intros H. cbn. rewrite (proj2 (Z.leb_le _ _)); [done|lia]. Qed.

Lemma de_uint_wf max n v : value_wf v -> de_uint max v = Some n -> 0 <= n <= max.
Proof.
  destruct v as [| |[u|i|f]| | |]; cbn; try done. unfold is_u64. intros [? ?] Hu.
  destruct (u <=? max) eqn:Hle; simplify_eq. b2p. lia.
Qed.

Lemma optional_opt {A} (f : Value -> option A) (g : A -> Value) o :
  (forall a, o = Some a -> f (g a) = Some a /\ g a <> Null) ->
  optional f (g <$> o) = Some o.
Proof.
  destruct o as [a|]; cbn; [|done]. intros H. destruct (H a eq_refl) as [E Hn].
  destruct (g a); cbn in *; by rewrite ?E.
Qed.

Lemma de_seq_map {A} (f : Value -> option A) (g : A -> Value) l :
  (forall a, a ∈ l -> f (g a) = Some a) -> de_seq f (map g l) = Some l.
Proof.
  induction l as [|a l IH]; cbn; [done|]. intros H.
  rewrite H by by left. rewrite IH; [done|]. intros b Hb. apply H. by right.
Qed.

(** Looking a name up in the members of a struct. *)
Lemma map_get_member k name v m :
  map_get k (member name v ++ m) = if str_eqb (lit name) k then Some v else map_get k m.
Proof. done. Qed.

Lemma map_get_opt_member {A} k name (f : A -> Value) o m :
  map_get k (opt_member name f o ++ m) =
  if str_eqb (lit name) k then match o with Some a => Some (f a) | None => map_get k m end
  else map_get k m.
Proof. by destruct o; cbn; destruct (str_eqb (lit name) k). Qed.

Lemma filter_unknown_member names name v : known names (lit name) = true ->
  List.filter (fun kv => negb (known names kv.1)) (member name v) = [].
Proof. intros H. cbn [member List.filter fst]. by rewrite H. Qed.

Lemma filter_unknown_opt_member {A} names name (f : A -> Value) o : known names (lit name) = true ->
  List.filter (fun kv => negb (known names kv.1)) (opt_member name f o) = [].
Proof. intros H. destruct o; cbn [opt_member List.filter fst]; by rewrite ?H. Qed.

Lemma known_member names name v : known names (lit name) = true ->
  forallb (fun kv => known names kv.1) (member name v) = true.
Proof. intros H. cbn [member forallb fst]. by rewrite H. Qed.

Lemma known_opt_member {A} names name (f : A -> Value) o : known names (lit name) = true ->
  forallb (fun kv => known names kv.1) (opt_member name f o) = true.
Proof. intros H. destruct o; cbn [opt_member forallb fst]; by rewrite ?H. Qed.

Lemma filter_all {A} (f : A -> bool) l : forallb f l = true -> List.filter f l = l.
Proof. induction l as [|x l IH]; cbn; [done|]. intros [-> ?]%andb_prop. by rewrite IH. Qed.

(** Adding members under new names appends them. *)
Lemma fold_insert_fresh new m : NoDup (map fst new) -> (forall k, k ∈ map fst new -> k ∉ map fst m) ->
  fold_left (fun m kv => map_insert kv.1 kv.2 m) new m = m ++ new.
Proof.
  revert m. induction new as [|[k v] new IH]; intros m Hnd Hf; cbn; [by rewrite app_nil_r|].
  apply NoDup_cons in Hnd as [Hk Hnd]. rewrite map_insert_fresh by (apply Hf; by left).
  rewrite IH; [by rewrite <- app_assoc|done|]. intros k' Hk'.
  rewrite map_app, elem_of_app. cbn. rewrite list_elem_of_singleton.
  intros [?| ->]; [|done]. eapply Hf; [by right|done].
Qed.

(** Decide every comparison of two literal names in the goal. *)
Ltac eval_names :=
  repeat match goal with
  | |- context [str_eqb (lit ?a) (lit ?b)] =>
      let v := eval vm_compute in (str_eqb (lit a) (lit b)) in
      change (str_eqb (lit a) (lit b)) with v; cbv iota
  end.

(** Look literal names up in the members of a struct. *)
Ltac get_names :=
  repeat (first [rewrite map_get_member|rewrite map_get_opt_member]; eval_names).
