(* ===== verification/Events.v ===== *)
(** [av-events]: stop reasons ([stop_reason.rs]), the event envelope and its
    builder ([model.rs]) and the structural validator ([validate.rs]). *)

From S2P Require Import Prelude Rust CoreBase Json Core Serde.
From S2P Require Import Identity Validator.

(** * stop_reason.rs *)

Module StopReason.

Inductive t :=
| Unknown | Stop | MaxTokens | ToolUse | ContentFilter | LoopDetected | BudgetExceeded
| PolicyBlocked | IdentityRejected | SessionClosed | Other.

#[global] Instance t_eq_dec : EqDecision t.
Proof. solve_decision. Defined.

Definition id (r : t) : Z :=
  match r with
  | Unknown => 0
  | Stop => 1
  | MaxTokens => 2
  | ToolUse => 3
  | SessionClosed => 4
  | ContentFilter => 90
  | LoopDetected => 91
  | BudgetExceeded => 92
  | PolicyBlocked => 93
  | IdentityRejected => 94
  | Other => 99
  end.

Definition caption (r : t) : str :=
  match r with
  | Unknown => lit "Unknown"
  | Stop => lit "Stop"
  | MaxTokens => lit "Length"
  | ToolUse => lit "Tool Use"
  | ContentFilter => lit "Content Filter"
  | LoopDetected => lit "Loop Detected"
  | BudgetExceeded => lit "Budget Exceeded"
  | PolicyBlocked => lit "Policy Blocked"
  | IdentityRejected => lit "Identity Rejected"
  | SessionClosed => lit "Session Closed"
  | Other => lit "Other"
  end.

Definition from_id (n : Z) : t :=
  if n =? 0 then Unknown
  else if n =? 1 then Stop
  else if n =? 2 then MaxTokens
  else if n =? 3 then ToolUse
  else if n =? 4 then SessionClosed
  else if n =? 90 then ContentFilter
  else if n =? 91 then LoopDetected
  else if n =? 92 then BudgetExceeded
  else if n =? 93 then PolicyBlocked
  else if n =? 94 then IdentityRejected
  else if n =? 99 then Other
  else Unknown.

(** The derived [Serialize]: the variant's name. *)
Definition serde_name (r : t) : str :=
  match r with
  | Unknown => lit "Unknown"
  | Stop => lit "Stop"
  | MaxTokens => lit "MaxTokens"
  | ToolUse => lit "ToolUse"
  | ContentFilter => lit "ContentFilter"
  | LoopDetected => lit "LoopDetected"
  | BudgetExceeded => lit "BudgetExceeded"
  | PolicyBlocked => lit "PolicyBlocked"
  | IdentityRejected => lit "IdentityRejected"
  | SessionClosed => lit "SessionClosed"
  | Other => lit "Other"
  end.

(** The list of variants in [validate_event]. *)
Definition all : list t :=
  [Unknown; Stop; MaxTokens; ToolUse; SessionClosed; ContentFilter; LoopDetected;
   BudgetExceeded; PolicyBlocked; IdentityRejected; Other].

(** The derived [Deserialize], with [#[serde(other)]] on [Other]. *)
Definition of_serde_name (s : str) : t :=
  match List.find (fun r => str_eqb (serde_name r) s) all with
  | Some r => r
  | None => Other
  end.

(** [matches!(id, 0..=4 | 90..=94 | 99)]. *)
Definition known_id (n : Z) : bool :=
  ((0 <=? n) && (n <=? 4)) || ((90 <=? n) && (n <=? 94)) || (n =? 99).

End StopReason.

(** * model.rs *)

Definition OCSF_VERSION : str := lit "1.10.0".
Definition PRODUCT_NAME : str := lit "agentvisor-ai".
Definition CATEGORY_UID : Z := 6.

Module EventClass.

Inductive t := ToolCall | StopReason | Receipt | Compression | Identity | Session.

#[global] Instance t_eq_dec : EqDecision t.
Proof. solve_decision. Defined.

Definition class_uid (c : t) : Z :=
  match c with
  | ToolCall => 9901
  | StopReason => 9902
  | Receipt => 9903
  | Compression => 9904
  | Identity => 9905
  | Session => 9906
  end.

Definition topic (c : t) : str :=
  match c with
  | ToolCall => lit "agent.tool_call"
  | StopReason => lit "agent.stop_reason"
  | Receipt => lit "agent.receipt"
  | Compression => lit "agent.compression"
  | Identity => lit "agent.identity"
  | Session => lit "agent.session"
  end.

Definition all : list t := [ToolCall; StopReason; Receipt; Compression; Identity; Session].

(** The [#[serde(rename)]] names are the topics. *)
Definition of_name (s : str) : option t := List.find (fun c => str_eqb (topic c) s) all.

End EventClass.

Module StatusId.

Inductive t := Unknown | Success | Failure.

Definition id (s : t) : Z := match s with Unknown => 0 | Success => 1 | Failure => 2 end.

End StatusId.

Record CharterFile := mkCharter { ch_name : str; ch_type_id : Z }.

(** [From<String>]. *)
Definition charter_of (name : str) : CharterFile := mkCharter name 1.

Record Product := mkProduct { pd_name : str; pd_vendor_name : str; pd_version : str }.

Record AgentIdentity := mkAgentIdentity {
  ag_version : str;
  ag_charter : CharterFile;
  ag_instance_uid : str;
  ag_ttl_remaining_s : option Z;
}.

Record EventMetrics := mkMetrics {
  em_prompt_tokens : option Z;
  em_completion_tokens : option Z;
  em_cached_tokens : option Z;
  em_pruned_tokens : option Z;
  em_pruning_ratio_millis : option Z;
}.

Record Fingerprint := mkFingerprint {
  fp_algorithm_id : Z;
  fp_algorithm : str;
  fp_serialization_id : Z;
  fp_serialization : str;
  fp_value : str;
}.

Definition sha256_jcs (value_hex : str) : Fingerprint :=
  mkFingerprint 3 (lit "SHA-256") 2 (lit "JCS") value_hex.

Record Metadata := mkMetadata {
  md_version : str;
  md_uid : str;
  md_product : Product;
  md_sequence : Z;
}.

Record OcsfEvent := mkEvent {
  ev_metadata : Metadata;
  ev_class_name : EventClass.t;
  ev_class_uid : Z;
  ev_category_uid : Z;
  ev_activity_id : Z;
  ev_type_uid : Z;
  ev_time : Z;
  ev_time_iso : str;
  ev_severity_id : Z;
  ev_status_id : Z;
  ev_session_uid : str;
  ev_ai_agent : AgentIdentity;
  ev_stop_reason_id : option Z;
  ev_stop_reason : option str;
  ev_payload : Value;
  ev_metrics : option EventMetrics;
  ev_inventory : option Fingerprint;
  ev_prev_inventory : option Fingerprint;
  ev_unmapped : list (str * Value);
}.

(** * The builder *)

Record OcsfEventBuilder := mkBuilder {
  eb_class : EventClass.t;
  eb_session_uid : str;
  eb_ai_agent : AgentIdentity;
  eb_seq : Z;
  eb_activity_id : Z;
  eb_severity_id : Z;
  eb_status : StatusId.t;
  eb_stop_reason : option StopReason.t;
  eb_native_stop_reason : option str;
  eb_payload : Value;
  eb_metrics : option EventMetrics;
  eb_inventory : option Fingerprint;
  eb_prev_inventory : option Fingerprint;
}.

Module Builder.

Definition new (class : EventClass.t) (session_uid : str) (ai_agent : AgentIdentity) (seq : Z)
  : OcsfEventBuilder :=
  mkBuilder class session_uid ai_agent seq 1 1 StatusId.Success None None Null None None None.

Definition severity (n : Z) (b : OcsfEventBuilder) : OcsfEventBuilder :=
  mkBuilder (eb_class b) (eb_session_uid b) (eb_ai_agent b) (eb_seq b) (eb_activity_id b)
    n (eb_status b) (eb_stop_reason b) (eb_native_stop_reason b) (eb_payload b)
    (eb_metrics b) (eb_inventory b) (eb_prev_inventory b).

Definition status (s : StatusId.t) (b : OcsfEventBuilder) : OcsfEventBuilder :=
  mkBuilder (eb_class b) (eb_session_uid b) (eb_ai_agent b) (eb_seq b) (eb_activity_id b)
    (eb_severity_id b) s (eb_stop_reason b) (eb_native_stop_reason b) (eb_payload b)
    (eb_metrics b) (eb_inventory b) (eb_prev_inventory b).

Definition stop_reason (r : StopReason.t) (b : OcsfEventBuilder) : OcsfEventBuilder :=
  mkBuilder (eb_class b) (eb_session_uid b) (eb_ai_agent b) (eb_seq b) (eb_activity_id b)
    (eb_severity_id b) (eb_status b) (Some r) None (eb_payload b)
    (eb_metrics b) (eb_inventory b) (eb_prev_inventory b).

Definition stop_reason_native (r : StopReason.t) (native : str) (b : OcsfEventBuilder)
  : OcsfEventBuilder :=
  mkBuilder (eb_class b) (eb_session_uid b) (eb_ai_agent b) (eb_seq b) (eb_activity_id b)
    (eb_severity_id b) (eb_status b) (Some r) (Some native) (eb_payload b)
    (eb_metrics b) (eb_inventory b) (eb_prev_inventory b).

Definition payload (p : Value) (b : OcsfEventBuilder) : OcsfEventBuilder :=
  mkBuilder (eb_class b) (eb_session_uid b) (eb_ai_agent b) (eb_seq b) (eb_activity_id b)
    (eb_severity_id b) (eb_status b) (eb_stop_reason b) (eb_native_stop_reason b) p
    (eb_metrics b) (eb_inventory b) (eb_prev_inventory b).

Definition metrics (m : EventMetrics) (b : OcsfEventBuilder) : OcsfEventBuilder :=
  mkBuilder (eb_class b) (eb_session_uid b) (eb_ai_agent b) (eb_seq b) (eb_activity_id b)
    (eb_severity_id b) (eb_status b) (eb_stop_reason b) (eb_native_stop_reason b)
    (eb_payload b) (Some m) (eb_inventory b) (eb_prev_inventory b).

Definition inventory (current : Fingerprint) (previous : option Fingerprint)
  (b : OcsfEventBuilder) : OcsfEventBuilder :=
  mkBuilder (eb_class b) (eb_session_uid b) (eb_ai_agent b) (eb_seq b) (eb_activity_id b)
    (eb_severity_id b) (eb_status b) (eb_stop_reason b) (eb_native_stop_reason b)
    (eb_payload b) (eb_metrics b) (Some current) previous.

(** The loop [for v in [..].into_iter().flatten() { check_jcs_safe(v)?; }]. *)
Fixpoint check_all_safe (l : list (option Z)) : result () CoreError :=
  match l with
  | [] => Ok ()
  | None :: l' => check_all_safe l'
  | Some v :: l' => let? _ := check_jcs_safe v in check_all_safe l'
  end.

Definition counters (m : EventMetrics) : list (option Z) :=
  [em_prompt_tokens m; em_completion_tokens m; em_cached_tokens m; em_pruned_tokens m;
   em_pruning_ratio_millis m].

Definition check_metrics (o : option EventMetrics) : result () CoreError :=
  match o with
  | None => Ok ()
  | Some m =>
      let? _ := check_all_safe (counters m) in
      match em_pruning_ratio_millis m with
      | Some ratio => if ratio >? 1000 then Err (UnsafeInteger ratio) else Ok ()
      | None => Ok ()
      end
  end.

(** [now] is the clock's reading, [uid] the fresh event id and [pkg_version] the
    crate version compiled in. *)
Definition build (now : Z) (uid pkg_version : str) (b : OcsfEventBuilder)
  : result OcsfEvent CoreError :=
  let? _ := check_jcs_safe (eb_seq b) in
  let? _ := check_metrics (eb_metrics b) in
  let? _ := check_all_safe [ag_ttl_remaining_s (eb_ai_agent b)] in
  if negb ((1 <=? eb_severity_id b) && (eb_severity_id b <=? 6))
  then Err (UnsafeInteger (eb_severity_id b))
  else
  let? _ := check_jcs_safe now in
  let class_uid := EventClass.class_uid (eb_class b) in
  Ok {| ev_metadata := mkMetadata OCSF_VERSION uid
          (mkProduct PRODUCT_NAME (lit "AgentVisor AI") pkg_version) (eb_seq b);
        ev_class_name := eb_class b;
        ev_class_uid := class_uid;
        ev_category_uid := CATEGORY_UID;
        ev_activity_id := eb_activity_id b;
        ev_type_uid := class_uid * 100 + eb_activity_id b;
        ev_time := now;
        ev_time_iso := iso8601_ms now;
        ev_severity_id := eb_severity_id b;
        ev_status_id := StatusId.id (eb_status b);
        ev_session_uid := eb_session_uid b;
        ev_ai_agent := eb_ai_agent b;
        ev_stop_reason_id := StopReason.id <$> eb_stop_reason b;
        ev_stop_reason :=
          match eb_native_stop_reason b with
          | Some native => Some native
          | None => StopReason.caption <$> eb_stop_reason b
          end;
        ev_payload := eb_payload b;
        ev_metrics := eb_metrics b;
        ev_inventory := eb_inventory b;
        ev_prev_inventory := eb_prev_inventory b;
        ev_unmapped := [] |}.

End Builder.

(** [ValidatedIdentity::agent_identity] of [av-identity]. *)
Definition agent_identity (v : ValidatedIdentity) : AgentIdentity :=
  {| ag_version := version (vi_claims v);
     ag_charter := charter_of (charter (vi_claims v));
     ag_instance_uid := instance_uid (vi_claims v);
     ag_ttl_remaining_s := Some (ttl_remaining_s v) |}.

(** * validate.rs *)

Definition SCHEMA_TIME_MAX_MS : Z := 253402300799999.

Inductive ValidationError :=
| EmptyField (field : str)
| FieldTooLong (field : str) (len max : Z)
| UnmappedNotPublishable (n : Z)
| TypeUidMismatch (type_uid class_uid activity_id : Z)
| ClassUidMismatch (class_uid : Z)
| BadCategory (category_uid : Z)
| BadCharterType (type_id : Z)
| BadSeverity (severity_id : Z)
| BadStatus (status_id : Z)
| BadActivityId (activity_id : Z)
| StopReasonPairMismatch
| StopReasonCaptionMismatch (id : Z) (expected_caption actual_caption : str)
| JcsUnsafeInteger (field : str) (value : Z)
| OutOfSchemaRange (field : str) (value max : Z)
| ZeroTime
| UnknownStopReasonId (id : Z)
| BadOcsfVersion (version : str)
| BadFingerprint (field : str)
| PayloadTooManyProperties (n : Z)
| TimeBeyondSchemaRange (time : Z)
| TimeIsoMismatch (time : Z) (time_iso expected_iso : str).

(** [if cond { errors.push(e) }]. *)
Definition push_if (cond : bool) (e : ValidationError) : list ValidationError :=
  if cond then [e] else [].

Definition is_empty_str (s : str) : bool := match s with [] => true | _ => false end.

(** [s.chars().count()]. *)
Definition chars_count (s : str) : Z := Z.of_nat (length s).

Definition not_empty (field : string) (s : str) : list ValidationError :=
  push_if (is_empty_str s) (EmptyField (lit field)).

Definition at_most_128 (field : string) (s : str) : list ValidationError :=
  push_if (chars_count s >? 128) (FieldTooLong (lit field) (chars_count s) 128).

Definition is_lower_hex (b : Z) : bool :=
  is_ascii_digit b || ((0x61 <=? b) && (b <=? 0x66)).

Definition hex64 (s : str) : bool := (str_len s =? 64) && forallb is_lower_hex (as_bytes s).

Definition fingerprint_ok (fp : Fingerprint) : bool :=
  negb (negb (fp_algorithm_id fp =? 3)
        || negb (str_eqb (fp_algorithm fp) (lit "SHA-256"))
        || negb (fp_serialization_id fp =? 2)
        || negb (str_eqb (fp_serialization fp) (lit "JCS"))
        || negb (hex64 (fp_value fp))).

Definition check_fingerprint (field : string) (o : option Fingerprint) : list ValidationError :=
  match o with
  | None => []
  | Some fp => push_if (negb (fingerprint_ok fp)) (BadFingerprint (lit field))
  end.

Definition check_known_id (o : option Z) : list ValidationError :=
  match o with
  | Some n => push_if (negb (StopReason.known_id n)) (UnknownStopReasonId n)
  | None => []
  end.

Definition check_payload (p : Value) : list ValidationError :=
  match as_object p with
  | Some m => push_if (Z.of_nat (length m) >? 512)
                (PayloadTooManyProperties (Z.of_nat (length m)))
  | None => []
  end.

(** A canonical caption of another variant than the id's. *)
Definition cross_wired (n : Z) (caption : str) : bool :=
  StopReason.known_id n
  && negb (str_eqb (StopReason.caption (StopReason.from_id n)) caption)
  && existsb (fun other => str_eqb (StopReason.caption other) caption) StopReason.all.

Definition check_caption (id : option Z) (caption : option str) : list ValidationError :=
  match id, caption with
  | Some n, Some c =>
      push_if (cross_wired n c)
        (StopReasonCaptionMismatch n (StopReason.caption (StopReason.from_id n)) c)
  | _, _ => []
  end.

Definition check_safe (field : string) (o : option Z) : list ValidationError :=
  match o with
  | Some v => push_if (negb (is_ok (check_jcs_safe v))) (JcsUnsafeInteger (lit field) v)
  | None => []
  end.

Definition validate_metrics (o : option EventMetrics) : list ValidationError :=
  match o with
  | None => []
  | Some m =>
      check_safe "metrics.prompt_tokens" (em_prompt_tokens m)
      ++ check_safe "metrics.completion_tokens" (em_completion_tokens m)
      ++ check_safe "metrics.cached_tokens" (em_cached_tokens m)
      ++ check_safe "metrics.pruned_tokens" (em_pruned_tokens m)
      ++ check_safe "metrics.pruning_ratio_millis" (em_pruning_ratio_millis m)
      ++ match em_pruning_ratio_millis m with
         | Some v => push_if (v >? 1000)
                       (OutOfSchemaRange (lit "metrics.pruning_ratio_millis") v 1000)
         | None => []
         end
  end.

Definition is_some {A} (o : option A) : bool := match o with Some _ => true | None => false end.

(** The violations, in the order they are pushed. *)
Definition event_errors (ev : OcsfEvent) : list ValidationError :=
  push_if (negb (Nat.eqb (length (ev_unmapped ev)) 0))
    (UnmappedNotPublishable (Z.of_nat (length (ev_unmapped ev))))
  ++ not_empty "metadata.uid" (md_uid (ev_metadata ev))
  ++ not_empty "metadata.version" (md_version (ev_metadata ev))
  ++ not_empty "metadata.product.name" (pd_name (md_product (ev_metadata ev)))
  ++ not_empty "metadata.product.vendor_name" (pd_vendor_name (md_product (ev_metadata ev)))
  ++ not_empty "metadata.product.version" (pd_version (md_product (ev_metadata ev)))
  ++ not_empty "session_uid" (ev_session_uid ev)
  ++ at_most_128 "session_uid" (ev_session_uid ev)
  ++ at_most_128 "ai_agent.instance_uid" (ag_instance_uid (ev_ai_agent ev))
  ++ not_empty "ai_agent.version" (ag_version (ev_ai_agent ev))
  ++ not_empty "ai_agent.charter.name" (ch_name (ag_charter (ev_ai_agent ev)))
  ++ push_if (negb (ch_type_id (ag_charter (ev_ai_agent ev)) =? 1))
       (BadCharterType (ch_type_id (ag_charter (ev_ai_agent ev))))
  ++ not_empty "ai_agent.instance_uid" (ag_instance_uid (ev_ai_agent ev))
  ++ push_if (negb (ev_class_uid ev =? EventClass.class_uid (ev_class_name ev)))
       (ClassUidMismatch (ev_class_uid ev))
  ++ push_if (negb (ev_category_uid ev =? CATEGORY_UID)) (BadCategory (ev_category_uid ev))
  ++ push_if (negb (ev_type_uid ev
                    =? EventClass.class_uid (ev_class_name ev) * 100 + ev_activity_id ev))
       (TypeUidMismatch (ev_type_uid ev) (ev_class_uid ev) (ev_activity_id ev))
  ++ push_if (ev_activity_id ev >=? 100) (BadActivityId (ev_activity_id ev))
  ++ push_if (negb ((1 <=? ev_severity_id ev) && (ev_severity_id ev <=? 6)))
       (BadSeverity (ev_severity_id ev))
  ++ push_if (ev_status_id ev >? 2) (BadStatus (ev_status_id ev))
  ++ push_if (negb (Bool.eqb (is_some (ev_stop_reason_id ev)) (is_some (ev_stop_reason ev))))
       StopReasonPairMismatch
  ++ check_known_id (ev_stop_reason_id ev)
  ++ push_if (negb (str_eqb (md_version (ev_metadata ev)) OCSF_VERSION))
       (BadOcsfVersion (md_version (ev_metadata ev)))
  ++ check_fingerprint "inventory" (ev_inventory ev)
  ++ check_fingerprint "prev_inventory" (ev_prev_inventory ev)
  ++ check_payload (ev_payload ev)
  ++ push_if (bool_decide (ev_stop_reason ev = Some [])) (EmptyField (lit "stop_reason"))
  ++ check_caption (ev_stop_reason_id ev) (ev_stop_reason ev)
  ++ push_if (ev_time ev =? 0) ZeroTime
  ++ push_if (ev_time ev >? SCHEMA_TIME_MAX_MS) (TimeBeyondSchemaRange (ev_time ev))
  ++ push_if (negb (str_eqb (ev_time_iso ev) (iso8601_ms (ev_time ev))))
       (TimeIsoMismatch (ev_time ev) (ev_time_iso ev) (iso8601_ms (ev_time ev)))
  ++ check_safe "time" (Some (ev_time ev))
  ++ check_safe "metadata.sequence" (Some (md_sequence (ev_metadata ev)))
  ++ check_safe "ai_agent.ttl_remaining_s" (ag_ttl_remaining_s (ev_ai_agent ev))
  ++ validate_metrics (ev_metrics ev).

Definition validate_event (ev : OcsfEvent) : result () (list ValidationError) :=
  match event_errors ev with
  | [] => Ok ()
  | errors => Err errors
  end.

(** * The wire form *)

(** The derived [Serialize] and [Deserialize] of the structs of [model.rs], over
    [serde_json::Value]. *)
Module Wire.

Definition charter_names : list str := [lit "name"; lit "type_id"].
Definition charter_to (c : CharterFile) : Value :=
  Object (member "name" (JString (ch_name c)) ++ member "type_id" (ser_u (ch_type_id c))).
Definition charter_from (v : Value) : option CharterFile :=
  match strict_fields charter_names v with
  | Some [n; t] => mkCharter <$> required de_str n <*> required (de_uint u8_max) t
  | _ => None
  end.

Definition product_names : list str := [lit "name"; lit "vendor_name"; lit "version"].
Definition product_to (p : Product) : Value :=
  Object (member "name" (JString (pd_name p)) ++ member "vendor_name" (JString (pd_vendor_name p))
          ++ member "version" (JString (pd_version p))).
Definition product_from (v : Value) : option Product :=
  match strict_fields product_names v with
  | Some [n; vn; ve] =>
      mkProduct <$> required de_str n <*> required de_str vn <*> required de_str ve
  | _ => None
  end.

Definition agent_names : list str :=
  [lit "version"; lit "charter"; lit "instance_uid"; lit "ttl_remaining_s"].
Definition agent_to (a : AgentIdentity) : Value :=
  Object (member "version" (JString (ag_version a)) ++ member "charter" (charter_to (ag_charter a))
          ++ member "instance_uid" (JString (ag_instance_uid a))
          ++ opt_member "ttl_remaining_s" ser_u (ag_ttl_remaining_s a)).
Definition agent_from (v : Value) : option AgentIdentity :=
  match strict_fields agent_names v with
  | Some [ve; c; i; t] =>
      mkAgentIdentity <$> required de_str ve <*> required charter_from c <*> required de_str i
        <*> optional (de_uint u64_max) t
  | _ => None
  end.

Definition metrics_names : list str :=
  [lit "prompt_tokens"; lit "completion_tokens"; lit "cached_tokens"; lit "pruned_tokens";
   lit "pruning_ratio_millis"].
Definition metrics_to (m : EventMetrics) : Value :=
  Object (opt_member "prompt_tokens" ser_u (em_prompt_tokens m)
          ++ opt_member "completion_tokens" ser_u (em_completion_tokens m)
          ++ opt_member "cached_tokens" ser_u (em_cached_tokens m)
          ++ opt_member "pruned_tokens" ser_u (em_pruned_tokens m)
          ++ opt_member "pruning_ratio_millis" ser_u (em_pruning_ratio_millis m)).
Definition metrics_from (v : Value) : option EventMetrics :=
  match strict_fields metrics_names v with
  | Some [p; c; h; r; q] =>
      mkMetrics <$> optional (de_uint u64_max) p <*> optional (de_uint u64_max) c
        <*> optional (de_uint u64_max) h <*> optional (de_uint u64_max) r
        <*> optional (de_uint u64_max) q
  | _ => None
  end.

Definition fingerprint_names : list str :=
  [lit "algorithm_id"; lit "algorithm"; lit "serialization_id"; lit "serialization"; lit "value"].
Definition fingerprint_to (f : Fingerprint) : Value :=
  Object (member "algorithm_id" (ser_u (fp_algorithm_id f))
          ++ member "algorithm" (JString (fp_algorithm f))
          ++ member "serialization_id" (ser_u (fp_serialization_id f))
          ++ member "serialization" (JString (fp_serialization f))
          ++ member "value" (JString (fp_value f))).
Definition fingerprint_from (v : Value) : option Fingerprint :=
  match strict_fields fingerprint_names v with
  | Some [a; b; c; d; e] =>
      mkFingerprint <$> required (de_uint u8_max) a <*> required de_str b
        <*> required (de_uint u8_max) c <*> required de_str d <*> required de_str e
  | _ => None
  end.

Definition metadata_names : list str :=
  [lit "version"; lit "uid"; lit "product"; lit "sequence"].
Definition metadata_to (m : Metadata) : Value :=
  Object (member "version" (JString (md_version m)) ++ member "uid" (JString (md_uid m))
          ++ member "product" (product_to (md_product m))
          ++ member "sequence" (ser_u (md_sequence m))).
Definition metadata_from (v : Value) : option Metadata :=
  match strict_fields metadata_names v with
  | Some [ve; u; p; q] =>
      mkMetadata <$> required de_str ve <*> required de_str u <*> required product_from p
        <*> required (de_uint u64_max) q
  | _ => None
  end.

Definition event_names : list str :=
  [lit "metadata"; lit "class_name"; lit "class_uid"; lit "category_uid"; lit "activity_id";
   lit "type_uid"; lit "time"; lit "time_iso"; lit "severity_id"; lit "status_id";
   lit "session_uid"; lit "ai_agent"; lit "stop_reason_id"; lit "stop_reason"; lit "payload";
   lit "metrics"; lit "inventory"; lit "prev_inventory"].

Definition event_members (ev : OcsfEvent) : list (str * Value) :=
  member "metadata" (metadata_to (ev_metadata ev))
  ++ member "class_name" (JString (EventClass.topic (ev_class_name ev)))
  ++ member "class_uid" (ser_u (ev_class_uid ev))
  ++ member "category_uid" (ser_u (ev_category_uid ev))
  ++ member "activity_id" (ser_u (ev_activity_id ev))
  ++ member "type_uid" (ser_u (ev_type_uid ev))
  ++ member "time" (ser_u (ev_time ev))
  ++ member "time_iso" (JString (ev_time_iso ev))
  ++ member "severity_id" (ser_u (ev_severity_id ev))
  ++ member "status_id" (ser_u (ev_status_id ev))
  ++ member "session_uid" (JString (ev_session_uid ev))
  ++ member "ai_agent" (agent_to (ev_ai_agent ev))
  ++ opt_member "stop_reason_id" ser_u (ev_stop_reason_id ev)
  ++ opt_member "stop_reason" JString (ev_stop_reason ev)
  ++ member "payload" (ev_payload ev)
  ++ opt_member "metrics" metrics_to (ev_metrics ev)
  ++ opt_member "inventory" fingerprint_to (ev_inventory ev)
  ++ opt_member "prev_inventory" fingerprint_to (ev_prev_inventory ev).

(** [#[serde(flatten)]] writes the unmapped members last. *)
Definition event_to (ev : OcsfEvent) : Value :=
  Object (fold_left (fun m kv => map_insert kv.1 kv.2 m) (ev_unmapped ev) (event_members ev)).

(** The keys that are no field go to [unmapped]. *)
Definition event_from (v : Value) : option OcsfEvent :=
  match v with
  | Object m =>
      let g name := map_get (lit name) m in
      mkEvent <$> required metadata_from (g "metadata")
        <*> required (de_unit_variant EventClass.of_name) (g "class_name")
        <*> required (de_uint u32_max) (g "class_uid")
        <*> required (de_uint u8_max) (g "category_uid")
        <*> required (de_uint u8_max) (g "activity_id")
        <*> required (de_uint u64_max) (g "type_uid")
        <*> required (de_uint u64_max) (g "time")
        <*> required de_str (g "time_iso")
        <*> required (de_uint u8_max) (g "severity_id")
        <*> required (de_uint u8_max) (g "status_id")
        <*> required de_str (g "session_uid")
        <*> required agent_from (g "ai_agent")
        <*> optional (de_uint u8_max) (g "stop_reason_id")
        <*> optional de_str (g "stop_reason")
        <*> required de_value (g "payload")
        <*> optional metrics_from (g "metrics")
        <*> optional fingerprint_from (g "inventory")
        <*> optional fingerprint_from (g "prev_inventory")
        <*> Some (List.filter (fun kv => negb (known event_names kv.1)) m)
  | _ => None
  end.

End Wire.
