(* ===== verification/EventsProofs.v ===== *)
(** Facts about [Events]: what the validator accepts, that the builder and the
    identity validator only produce what it accepts, and that the wire form loses
    nothing. *)

From S2P Require Import Prelude Rust CoreBase Json Core CoreProofs Serde.
From S2P Require Import Identity Validator IdentityProofs Events.

(** * Stop reasons *)

Lemma stop_reason_all r : r ∈ StopReason.all.
Proof. apply list_elem_of_In. destruct r; cbn; tauto. Qed.

Lemma caption_inj r r' : StopReason.caption r = StopReason.caption r' -> r = r'.
Proof. destruct r, r'; try done; intros H; vm_compute in H; congruence. Qed.

Lemma from_id_id r : StopReason.from_id (StopReason.id r) = r.
Proof. by destruct r. Qed.

Lemma known_id_id r : StopReason.known_id (StopReason.id r) = true.
Proof. by destruct r. Qed.

Lemma known_id_iff n : StopReason.known_id n = true <-> exists r, StopReason.id r = n.
Proof.
  split; [|intros [r <-]; apply known_id_id]. unfold StopReason.known_id. intros H.
  exists (StopReason.from_id n). unfold StopReason.from_id.
  repeat match goal with |- context [n =? ?k] => destruct (n =? k) eqn:?; b2p; [by subst|] end.
  apply orb_true_iff in H as [[[H1 H2]%andb_prop|[H1 H2]%andb_prop]%orb_true_iff|H]; b2p; lia.
Qed.

Lemma caption_nonempty r : StopReason.caption r <> [].
Proof. by destruct r. Qed.

Lemma cross_wired_own r : cross_wired (StopReason.id r) (StopReason.caption r) = false.
Proof. unfold cross_wired. by rewrite from_id_id, str_eqb_refl, andb_false_r. Qed.

(** A caption is cross-wired exactly when another variant owns it. *)
Lemma cross_wired_iff r c : cross_wired (StopReason.id r) c = true <->
  exists r', r' <> r /\ c = StopReason.caption r'.
Proof.
  unfold cross_wired. rewrite known_id_id, from_id_id. cbn [andb].
  rewrite andb_true_iff, negb_true_iff, str_eqb_neq, existsb_exists. split.
  - intros [Hne (r' & _ & Hc%str_eqb_eq)]. exists r'. split; [by intros ->|done].
  - intros (r' & Hne & ->). split; [by intros ?%caption_inj|].
    exists r'. rewrite <- list_elem_of_In. split; [apply stop_reason_all|apply str_eqb_refl].
Qed.

Lemma serde_name_roundtrip r : StopReason.of_serde_name (StopReason.serde_name r) = r.
Proof. by destruct r. Qed.

Lemma class_of_topic c : EventClass.of_name (EventClass.topic c) = Some c.
Proof. by destruct c. Qed.

(** * Timestamps *)

Definition date_key (d : Z * Z * Z) : Z :=
  let '(y, m, day) := d in y * 10000 + m * 100 + day.

Lemma next_day_key d : valid_date d -> date_key d < date_key (next_day d).
Proof.
  destruct d as [[y m] day]. unfold valid_date, next_day, date_key. intros [Hm Hd].
  assert (days_in_month y m <= 31) by (unfold days_in_month; repeat case_match; lia).
  repeat case_match; simplify_eq; b2p; lia.
Qed.

Lemma civil_key_mono z z' : z < z' -> date_key (civil_from_days z) < date_key (civil_from_days z').
Proof.
  intros H. replace z' with (z + 1 + (z' - z - 1)) by lia.
  assert (0 <= z' - z - 1) as Hk by lia. generalize dependent (z' - z - 1). intros k Hk.
  revert k Hk. apply natlike_ind.
  - rewrite Z.add_0_r. destruct (civil_step z) as [Hv ->]. by apply next_day_key.
  - intros k Hk IH. replace (z + 1 + Z.succ k) with (z + 1 + k + 1) by lia.
    destruct (civil_step (z + 1 + k)) as [Hv ->]. apply next_day_key in Hv. lia.
Qed.

Lemma civil_inj z z' : civil_from_days z = civil_from_days z' -> z = z'.
Proof.
  intros H. destruct (Z.lt_trichotomy z z') as [Hl|[->|Hl]]; [|done|];
    apply civil_key_mono in Hl; rewrite H in Hl; lia.
Qed.

(** Reading a decimal field back. *)
Definition decimal (s : str) : Z := fold_left (fun a c => a * 10 + (c - 48)) s 0.

Definition pad_ok (w : nat) (z : Z) : bool :=
  (decimal (fmt_pad w z) =? z) && Nat.eqb (length (fmt_pad w z)) w.

Lemma pad_table : forallb (pad_ok 2) (seqZ 0 100) && forallb (pad_ok 3) (seqZ 0 1000)
  && forallb (pad_ok 4) (seqZ 0 10000) = true.
Proof. vm_compute. reflexivity. Qed.

Lemma pad_spec w hi z : forallb (pad_ok w) (seqZ 0 hi) = true -> 0 <= z < hi ->
  decimal (fmt_pad w z) = z /\ length (fmt_pad w z) = w.
Proof.
  intros H Hz. rewrite forallb_forall in H. specialize (H z).
  rewrite <- list_elem_of_In, elem_of_seqZ in H. apply andb_prop in H as [H1 H2]; [|lia].
  split; [by apply Z.eqb_eq|by apply Nat.eqb_eq].
Qed.

Lemma pad_spec_all z :
  (0 <= z < 100 -> decimal (fmt_pad 2 z) = z /\ length (fmt_pad 2 z) = 2%nat) /\
  (0 <= z < 1000 -> decimal (fmt_pad 3 z) = z /\ length (fmt_pad 3 z) = 3%nat) /\
  (0 <= z < 10000 -> decimal (fmt_pad 4 z) = z /\ length (fmt_pad 4 z) = 4%nat).
Proof.
  pose proof pad_table as H. apply andb_prop in H as [H H4]. apply andb_prop in H as [H2 H3].
  split; [exact (pad_spec 2 100 z H2)|].
  split; [exact (pad_spec 3 1000 z H3)|exact (pad_spec 4 10000 z H4)].
Qed.

Lemma pad_app_inj w z z' r r' :
  decimal (fmt_pad w z) = z /\ length (fmt_pad w z) = w ->
  decimal (fmt_pad w z') = z' /\ length (fmt_pad w z') = w ->
  fmt_pad w z ++ r = fmt_pad w z' ++ r' -> z = z' /\ r = r'.
Proof.
  intros [Hd Hl] [Hd' Hl'] H. apply app_inj_length in H as [H Hr]; [|congruence].
  split; [|done]. rewrite <- Hd, <- Hd'. by rewrite H.
Qed.

(** The fields of a timestamp of a four-digit year. *)
Lemma iso_fields t : 0 <= t <= SCHEMA_TIME_MAX_MS ->
  exists y m d, civil_from_days (t / MS_PER_SEC / SECS_PER_DAY) = (y, m, d) /\
    0 <= y < 10000 /\ 0 <= m < 100 /\ 0 <= d < 100.
Proof.
  unfold SCHEMA_TIME_MAX_MS, MS_PER_SEC, SECS_PER_DAY. intros Ht.
  set (days := t / 1000 / (24 * 3600)).
  assert (0 <= days <= 2932896) as Hd by (unfold days; Z.div_mod_to_equations; lia).
  destruct (civil_from_days days) as [[y m] d] eqn:E. exists y, m, d. split; [done|].
  pose proof (civil_step days) as [Hv _]. rewrite E in Hv. destruct Hv as [Hm Hday].
  assert (days_in_month y m <= 31) by (unfold days_in_month; repeat case_match; lia).
  assert (date_key (1970, 1, 1) <= date_key (civil_from_days days) <= date_key (9999, 12, 31)) as Hk.
  { change (1970, 1, 1) with (civil_from_days 0).
    change (9999, 12, 31) with (civil_from_days 2932896). split.
    - destruct (decide (days = 0)) as [->|]; [lia|].
      apply Z.lt_le_incl, civil_key_mono. lia.
    - destruct (decide (days = 2932896)) as [->|]; [lia|].
      apply Z.lt_le_incl, civil_key_mono. lia. }
  rewrite E in Hk. unfold date_key in Hk. lia.
Qed.

Lemma iso8601_inj t t' : 0 <= t <= SCHEMA_TIME_MAX_MS -> 0 <= t' <= SCHEMA_TIME_MAX_MS ->
  iso8601_ms t = iso8601_ms t' -> t = t'.
Proof.
  intros Ht Ht'. destruct (iso_fields t Ht) as (y & m & d & E & Hy & Hm & Hd).
  destruct (iso_fields t' Ht') as (y' & m' & d' & E' & Hy' & Hm' & Hd').
  unfold iso8601_ms. rewrite E, E'. intros H.
  apply pad_app_inj in H as [-> H]; [|apply pad_spec_all; lia..]. injection H as H.
  apply pad_app_inj in H as [-> H]; [|apply pad_spec_all; lia..]. injection H as H.
  apply pad_app_inj in H as [-> H]; [|apply pad_spec_all; lia..]. injection H as H.
  rewrite <- E' in E. apply civil_inj in E. unfold MS_PER_SEC, SECS_PER_DAY in *.
  do 2 (apply pad_app_inj in H as [? H]; [|apply pad_spec_all; Z.div_mod_to_equations; lia..];
        injection H as H).
  apply pad_app_inj in H as [? H]; [|apply pad_spec_all; Z.div_mod_to_equations; lia..].
  injection H as H.
  apply pad_app_inj in H as [? _]; [|apply pad_spec_all; Z.div_mod_to_equations; lia..].
  Z.div_mod_to_equations. lia.
Qed.

Lemma iso8601_length t : 0 <= t <= SCHEMA_TIME_MAX_MS -> length (iso8601_ms t) = 24%nat.
Proof.
  intros Ht. destruct (iso_fields t Ht) as (y & m & d & E & Hy & Hm & Hd).
  unfold iso8601_ms. rewrite E. unfold MS_PER_SEC, SECS_PER_DAY in *. rewrite !length_app.
  rewrite (proj2 (proj2 (proj2 (pad_spec_all y)) Hy)).
  rewrite (proj2 (proj1 (proj2 (pad_spec_all (t mod 1000))) ltac:(Z.div_mod_to_equations; lia))).
  rewrite !(fun z H => proj2 (proj1 (pad_spec_all z) H)); [done|Z.div_mod_to_equations; lia..].
Qed.

(** * What the validator accepts *)

Lemma push_if_nil b e : push_if b e = [] <-> b = false.
Proof. unfold push_if. by destruct b. Qed.

Lemma is_empty_str_false s : is_empty_str s = false <-> s <> [].
Proof. by destruct s. Qed.

Lemma check_jcs_safe_ok n : is_ok (check_jcs_safe n) = true <-> n <= JCS_SAFE_MAX.
Proof.
  unfold check_jcs_safe. destruct (n >? JCS_SAFE_MAX) eqn:E; cbn; b2p; split; try done; lia.
Qed.

(** An optional counter is absent or an exact double. *)
Definition safe_opt (o : option Z) : Prop := forall n, o = Some n -> n <= JCS_SAFE_MAX.

Lemma check_safe_nil f o : check_safe f o = [] <-> safe_opt o.
Proof.
  unfold check_safe, safe_opt. destruct o as [v|]; [|naive_solver].
  rewrite push_if_nil, negb_false_iff, check_jcs_safe_ok. naive_solver.
Qed.

Definition metrics_valid (o : option EventMetrics) : Prop :=
  forall m, o = Some m -> Forall safe_opt (Builder.counters m) /\
    forall r, em_pruning_ratio_millis m = Some r -> r <= 1000.

Lemma validate_metrics_nil o : validate_metrics o = [] <-> metrics_valid o.
Proof.
  unfold validate_metrics, metrics_valid. destruct o as [m|]; [|naive_solver].
  assert (match em_pruning_ratio_millis m with
          | Some v => push_if (v >? 1000) (OutOfSchemaRange (lit "metrics.pruning_ratio_millis") v 1000)
          | None => [] end = [] <-> forall r, em_pruning_ratio_millis m = Some r -> r <= 1000) as Hr.
  { destruct (em_pruning_ratio_millis m) as [v|]; [|naive_solver].
    rewrite push_if_nil, Z.gtb_ltb, Z.ltb_ge. naive_solver. }
  rewrite !app_nil, !check_safe_nil, Hr. unfold Builder.counters.
  split; [intros H ? [= <-]|intros H; specialize (H m eq_refl)];
    rewrite ?Forall_cons in *; naive_solver.
Qed.

Definition fingerprint_valid (fp : Fingerprint) : Prop :=
  exists digest, fp = sha256_jcs digest /\ hex64 digest = true.

Lemma fingerprint_ok_iff fp : fingerprint_ok fp = true <-> fingerprint_valid fp.
Proof.
  unfold fingerprint_ok, fingerprint_valid.
  rewrite negb_true_iff, !orb_false_iff, !negb_false_iff, !Z.eqb_eq, !str_eqb_eq.
  destruct fp as [a b c d e]; cbn -[lit hex64]. unfold sha256_jcs. split.
  - intros [[[[-> ->] ->] ->] H]. by exists e.
  - intros (g & [= -> -> -> -> ->] & H). done.
Qed.

Lemma check_fingerprint_nil f o :
  check_fingerprint f o = [] <-> forall fp, o = Some fp -> fingerprint_valid fp.
Proof.
  unfold check_fingerprint. destruct o as [fp|]; [|naive_solver].
  rewrite push_if_nil, negb_false_iff, fingerprint_ok_iff. naive_solver.
Qed.

(** The pair of a stop reason id and its text: both absent, or a reason and a
    text that is not another reason's caption. *)
Definition stop_reason_valid (id : option Z) (text : option str) : Prop :=
  match id, text with
  | None, None => True
  | Some n, Some c => exists r, n = StopReason.id r /\ c <> [] /\
      forall r', c = StopReason.caption r' -> r' = r
  | _, _ => False
  end.

Lemma stop_reason_nil id text :
  push_if (negb (Bool.eqb (is_some id) (is_some text))) StopReasonPairMismatch = [] /\
  check_known_id id = [] /\
  push_if (bool_decide (text = Some [])) (EmptyField (lit "stop_reason")) = [] /\
  check_caption id text = [] <-> stop_reason_valid id text.
Proof.
  rewrite !push_if_nil, bool_decide_eq_false. unfold check_known_id, check_caption, stop_reason_valid.
  destruct id as [n|], text as [c|]; cbn -[lit]; rewrite ?push_if_nil; [|naive_solver..].
  rewrite negb_false_iff, known_id_iff. split.
  - intros (_ & [r <-] & Hne & Hx). exists r. split; [done|]. split; [congruence|].
    intros r' ->. destruct (decide (r' = r)) as [|Hr]; [done|].
    exfalso. rewrite (proj2 (cross_wired_iff r _)) in Hx; [done|by exists r'].
  - intros (r & -> & Hne & Hu). split; [done|]. split; [by exists r|]. split; [congruence|].
    apply not_true_iff_false. intros (r' & Hr & Hc)%cross_wired_iff. by apply Hr, Hu.
Qed.

Record valid_event (ev : OcsfEvent) : Prop := {
  val_unmapped : ev_unmapped ev = [];
  val_uid : md_uid (ev_metadata ev) <> [];
  val_version : md_version (ev_metadata ev) = OCSF_VERSION;
  val_product : pd_name (md_product (ev_metadata ev)) <> [] /\
    pd_vendor_name (md_product (ev_metadata ev)) <> [] /\
    pd_version (md_product (ev_metadata ev)) <> [];
  val_session : 0 < chars_count (ev_session_uid ev) <= 128;
  val_agent : 0 < chars_count (ag_instance_uid (ev_ai_agent ev)) <= 128 /\
    ag_version (ev_ai_agent ev) <> [] /\ ch_name (ag_charter (ev_ai_agent ev)) <> [] /\
    ch_type_id (ag_charter (ev_ai_agent ev)) = 1;
  val_class : ev_class_uid ev = EventClass.class_uid (ev_class_name ev) /\
    ev_category_uid ev = CATEGORY_UID /\
    ev_type_uid ev = EventClass.class_uid (ev_class_name ev) * 100 + ev_activity_id ev /\
    ev_activity_id ev < 100;
  val_severity : 1 <= ev_severity_id ev <= 6;
  val_status : ev_status_id ev <= 2;
  val_stop_reason : stop_reason_valid (ev_stop_reason_id ev) (ev_stop_reason ev);
  val_fingerprints : (forall fp, ev_inventory ev = Some fp -> fingerprint_valid fp) /\
    forall fp, ev_prev_inventory ev = Some fp -> fingerprint_valid fp;
  val_payload : forall m, ev_payload ev = Object m -> Z.of_nat (length m) <= 512;
  val_time : ev_time ev <> 0 /\ ev_time ev <= SCHEMA_TIME_MAX_MS /\
    ev_time_iso ev = iso8601_ms (ev_time ev);
  val_counters : md_sequence (ev_metadata ev) <= JCS_SAFE_MAX /\
    safe_opt (ag_ttl_remaining_s (ev_ai_agent ev)) /\ metrics_valid (ev_metrics ev);
}.

Lemma check_payload_nil p :
  check_payload p = [] <-> forall m, p = Object m -> Z.of_nat (length m) <= 512.
Proof.
  unfold check_payload. destruct p; cbn [as_object]; try naive_solver.
  rewrite push_if_nil, Z.gtb_ltb, Z.ltb_ge. naive_solver.
Qed.

Lemma chars_count_pos s : 0 < chars_count s <-> s <> [].
Proof. unfold chars_count. destruct s; cbn [length]; naive_solver lia. Qed.

Lemma time_max_safe t : t <= SCHEMA_TIME_MAX_MS -> safe_opt (Some t).
Proof.
  unfold safe_opt, SCHEMA_TIME_MAX_MS. intros H n [= <-].
  change JCS_SAFE_MAX with 9007199254740992. lia.
Qed.

Lemma event_errors_nil ev : event_errors ev = [] <-> valid_event ev.
Proof.
  unfold event_errors, not_empty, at_most_128. rewrite !app_nil, !check_fingerprint_nil, !check_safe_nil,
    validate_metrics_nil, check_payload_nil.
  pose proof (stop_reason_nil (ev_stop_reason_id ev) (ev_stop_reason ev)) as Hsr.
  rewrite !push_if_nil in *. rewrite !negb_false_iff, !is_empty_str_false, !str_eqb_eq in *.
  rewrite !Z.gtb_ltb, !Z.ltb_ge, !Z.eqb_eq, Z.eqb_neq, Z.geb_leb, Z.leb_gt, andb_true_iff, !Z.leb_le,
    Nat.eqb_eq, length_zero_iff_nil, <- !chars_count_pos.
  split.
  - intros H. destruct_and! H. constructor; split_and?;
      first [assumption|by apply chars_count_pos|by apply Hsr|auto].
  - intros [? ? Hver ? ? ? ? ? ? Hs%Hsr ? ? ? ?]. destruct_and?.
    assert (0 < chars_count (md_version (ev_metadata ev))) by (by rewrite Hver).
    split_and!; first [assumption|by apply chars_count_pos|by apply time_max_safe|by intros ? [= <-]].
Qed.

Lemma validate_event_ok ev : validate_event ev = Ok () <-> valid_event ev.
Proof.
  rewrite <- event_errors_nil. unfold validate_event. destruct (event_errors ev); naive_solver.
Qed.

(** What any two accepted events share, stated on the wire fields alone. *)
Lemma class_uid_range c : 9901 <= EventClass.class_uid c <= 9906.
Proof. destruct c; cbn; lia. Qed.

Lemma class_uid_inj c c' : EventClass.class_uid c = EventClass.class_uid c' -> c = c'.
Proof. by destruct c, c'. Qed.

Lemma Forall_present (P : Z -> Prop) (l : list (option Z)) :
  Forall (fun o => forall n, o = Some n -> P n) l -> Forall P (omap id l).
Proof.
  induction 1 as [|[n|] l Ho _ IH]; [constructor|..|exact IH]. constructor; [by apply Ho|exact IH].
Qed.

(** Accepted events are well typed.  For events whose unsigned fields are not
    negative, acceptance makes [type_uid] a faithful tag (it determines the class
    and the activity), makes the caption and the epoch timestamp two names of one
    instant (24 characters, equal captions only for equal times), and keeps every
    integer within the doubles' exact range. *)
Theorem accepted_event_well_typed (ev ev' : OcsfEvent) :
  validate_event ev = Ok () -> validate_event ev' = Ok () ->
  0 <= ev_activity_id ev -> 0 <= ev_activity_id ev' -> 0 <= ev_time ev -> 0 <= ev_time ev' ->
  (ev_type_uid ev = ev_type_uid ev' ->
     ev_class_name ev = ev_class_name ev' /\ ev_activity_id ev = ev_activity_id ev') /\
  (ev_time_iso ev = ev_time_iso ev' -> ev_time ev = ev_time ev') /\
  length (ev_time_iso ev) = 24%nat /\
  Forall (fun n => n <= JCS_SAFE_MAX)
    ([ev_time ev; md_sequence (ev_metadata ev); ev_type_uid ev; ev_severity_id ev; ev_status_id ev]
     ++ omap id [ag_ttl_remaining_s (ev_ai_agent ev); ev_stop_reason_id ev]
     ++ from_option (fun m => omap id (Builder.counters m)) [] (ev_metrics ev)).
Proof.
  rewrite !validate_event_ok. intros H H' Ha Ha' Ht Ht'.
  destruct (val_class _ H) as (_ & _ & Hty & Hac), (val_class _ H') as (_ & _ & Hty' & Hac').
  destruct (val_time _ H) as (_ & Hmax & Hiso), (val_time _ H') as (_ & Hmax' & Hiso').
  destruct (val_counters _ H) as (Hseq & Httl & Hm).
  pose proof (class_uid_range (ev_class_name ev)) as Hc.
  pose proof (class_uid_range (ev_class_name ev')) as Hc'.
  split_and!.
  - rewrite Hty, Hty'. intros He. split; [apply class_uid_inj|]; lia.
  - rewrite Hiso, Hiso'. by apply iso8601_inj.
  - rewrite Hiso. by apply iso8601_length.
  - assert (JCS_SAFE_MAX = 9007199254740992) as HM by done.
    rewrite !Forall_app, !Forall_cons. pose proof (val_severity _ H). pose proof (val_status _ H).
    pose proof (time_max_safe _ Hmax _ eq_refl). split_and!; try done; try lia.
    + apply Forall_present, Forall_cons. split; [exact Httl|].
      apply Forall_cons. split; [|done]. pose proof (val_stop_reason _ H) as Hs.
      intros n Hn. rewrite Hn in Hs. cbn in Hs. destruct (ev_stop_reason ev); [|done].
      destruct Hs as (r & -> & _). rewrite HM. destruct r; cbn; lia.
    + destruct (ev_metrics ev) as [m|]; [|by apply Forall_nil].
      destruct (Hm m eq_refl) as [Hs _]. by apply Forall_present.
Qed.

(** * The builder *)

Lemma check_jcs_safe_iff n : check_jcs_safe n = Ok n <-> n <= JCS_SAFE_MAX.
Proof.
  rewrite <- check_jcs_safe_ok. unfold check_jcs_safe. by destruct (n >? JCS_SAFE_MAX).
Qed.

Lemma check_all_safe_ok l : Builder.check_all_safe l = Ok () <-> Forall safe_opt l.
Proof.
  induction l as [|[v|] l IH]; cbn [Builder.check_all_safe]; rewrite ?Forall_cons; [by split|..].
  - unfold check_jcs_safe, safe_opt at 1. destruct (v >? JCS_SAFE_MAX) eqn:E; b2p.
    + split; [done|]. intros [H _]. specialize (H v eq_refl). lia.
    + rewrite IH. naive_solver.
  - rewrite IH. unfold safe_opt at 2. naive_solver.
Qed.

Lemma check_metrics_ok o : Builder.check_metrics o = Ok () <-> metrics_valid o.
Proof.
  unfold Builder.check_metrics, metrics_valid. destruct o as [m|]; [|naive_solver].
  destruct (Builder.check_all_safe (Builder.counters m)) as [[]|] eqn:E.
  - apply check_all_safe_ok in E. destruct (em_pruning_ratio_millis m) as [r|] eqn:Hq.
    + destruct (r >? 1000) eqn:Er; b2p.
      * split; [done|]. intros H. destruct (H m eq_refl) as [_ Hr]. specialize (Hr r Hq). lia.
      * split; [intros _ ? [= <-]|done]. split; [done|]. intros x Hx. by simplify_eq.
    + split; [intros _ ? [= <-]|done]. split; [done|]. congruence.
  - split; [done|]. intros H. destruct (H m eq_refl) as [Hs _].
    apply check_all_safe_ok in Hs. congruence.
Qed.

(** What [build] itself enforces. *)
Definition buildable (now : Z) (b : OcsfEventBuilder) : Prop :=
  eb_seq b <= JCS_SAFE_MAX /\ metrics_valid (eb_metrics b) /\
  safe_opt (ag_ttl_remaining_s (eb_ai_agent b)) /\ 1 <= eb_severity_id b <= 6 /\
  now <= JCS_SAFE_MAX.

Lemma check_jcs_cases n : (check_jcs_safe n = Ok n /\ n <= JCS_SAFE_MAX) \/
  (check_jcs_safe n = Err (UnsafeInteger n) /\ JCS_SAFE_MAX < n).
Proof. unfold check_jcs_safe. destruct (n >? JCS_SAFE_MAX) eqn:E; b2p; [right|left]; auto. Qed.

Lemma build_inv now uid pv b ev : Builder.build now uid pv b = Ok ev -> buildable now b.
Proof.
  unfold Builder.build, buildable. destruct (check_jcs_cases (eb_seq b)) as [[-> ?]|[-> ?]]; [|done].
  destruct (Builder.check_metrics _) as [[]|] eqn:Em; [|done]. apply check_metrics_ok in Em.
  destruct (Builder.check_all_safe _) as [[]|] eqn:Et; [|done].
  apply check_all_safe_ok in Et. rewrite Forall_singleton in Et.
  destruct ((1 <=? _) && _) eqn:Es; [|done]. b2p. cbn [negb].
  destruct (check_jcs_cases now) as [[-> ?]|[-> ?]]; [|done]. intros _. by split_and!.
Qed.

Lemma build_total now uid pv b : buildable now b -> exists ev, Builder.build now uid pv b = Ok ev.
Proof.
  intros (Hs & Hm & Ht & Hv & Hn). unfold Builder.build.
  apply check_jcs_safe_iff in Hs as ->. apply check_metrics_ok in Hm as ->.
  rewrite (proj2 (check_all_safe_ok _)) by by rewrite Forall_singleton.
  rewrite (proj2 (andb_true_iff _ _)) by by rewrite !Z.leb_le.
  apply check_jcs_safe_iff in Hn as ->. by eexists.
Qed.

(** What is left to the caller. *)
Record publishable (now : Z) (uid pv : str) (b : OcsfEventBuilder) : Prop := {
  pub_ids : uid <> [] /\ pv <> [];
  pub_session : 0 < chars_count (eb_session_uid b) <= 128;
  pub_agent : 0 < chars_count (ag_instance_uid (eb_ai_agent b)) <= 128 /\
    ag_version (eb_ai_agent b) <> [] /\ ch_name (ag_charter (eb_ai_agent b)) <> [] /\
    ch_type_id (ag_charter (eb_ai_agent b)) = 1;
  pub_activity : eb_activity_id b < 100;
  pub_native : forall native, eb_native_stop_reason b = Some native ->
    exists r, eb_stop_reason b = Some r /\ native <> [] /\
      forall r', native = StopReason.caption r' -> r' = r;
  pub_fingerprints : (forall fp, eb_inventory b = Some fp -> fingerprint_valid fp) /\
    forall fp, eb_prev_inventory b = Some fp -> fingerprint_valid fp;
  pub_payload : forall m, eb_payload b = Object m -> Z.of_nat (length m) <= 512;
  pub_now : now <> 0 /\ now <= SCHEMA_TIME_MAX_MS;
}.

Lemma built_stop_reason r native :
  stop_reason_valid (StopReason.id <$> r)
    (match native with Some n => Some n | None => StopReason.caption <$> r end) <->
  forall n, native = Some n -> exists r0, r = Some r0 /\ n <> [] /\
    forall r', n = StopReason.caption r' -> r' = r0.
Proof.
  assert (forall r r', StopReason.id r = StopReason.id r' -> r = r') as Hinj
    by (intros x y; destruct x, y; done).
  destruct r as [r|], native as [n|]; cbn.
  - split.
    + intros (r0 & <-%Hinj & Hn & Hu) ? [= <-]. by exists r.
    + intros H. destruct (H n eq_refl) as (r0 & [= <-] & Hn & Hu). by exists r.
  - split; [done|]. intros _. exists r. split; [done|]. split; [apply caption_nonempty|].
    intros r' H. by apply caption_inj in H.
  - split; [done|]. intros H. by destruct (H n eq_refl) as (? & ? & _).
  - done.
Qed.

Lemma built_valid now uid pv b ev : Builder.build now uid pv b = Ok ev ->
  validate_event ev = Ok () <-> publishable now uid pv b.
Proof.
  intros Hb. rewrite validate_event_ok. pose proof (build_inv _ _ _ _ _ Hb) as (Hs & Hm & Ht & Hv & Hn).
  unfold Builder.build in Hb. apply check_jcs_safe_iff in Hs as Hs'. rewrite Hs' in Hb.
  rewrite (proj2 (check_metrics_ok _) Hm), (proj2 (check_all_safe_ok _)) in Hb
    by by rewrite Forall_singleton.
  rewrite (proj2 (andb_true_iff _ _)) in Hb by by rewrite !Z.leb_le.
  rewrite (proj2 (check_jcs_safe_iff _) Hn) in Hb. cbn [negb] in Hb. injection Hb as <-.
  pose proof (built_stop_reason (eb_stop_reason b) (eb_native_stop_reason b)) as Hsr.
  split.
  - intros []. cbn -[chars_count lit] in *. destruct_and?. constructor; try done. by apply Hsr.
  - intros []. destruct_and?. constructor; cbn -[chars_count lit]; split_and?; try done.
    + destruct (eb_status b); cbn; lia.
    + by apply Hsr.
Qed.

(** The builder against the validator: [build] succeeds exactly on in-range
    counters and severities, and what it returns is accepted exactly when the
    texts the caller passed are present and bounded, a native stop text does not
    name another reason, fingerprints and payload have their shape and the clock
    reads a year up to 9999: no other field of a built event can be refused. *)
Theorem build_validates_exactly (now : Z) (uid pv : str) (b : OcsfEventBuilder) :
  ((exists ev, Builder.build now uid pv b = Ok ev) <-> buildable now b) /\
  (forall ev, Builder.build now uid pv b = Ok ev ->
     (validate_event ev = Ok () <-> publishable now uid pv b)).
Proof.
  split; [split; [intros [ev H]; by eapply build_inv|apply build_total]|].
  intros ev. apply built_valid.
Qed.

(** * From an accepted identity to a publishable event *)

Section FromIdentity.
Context {TL : TokenLibs}.

Lemma validate_single_fields cfg ks now token c : validate_single cfg ks now token false = Ok c ->
  validate_claim_fields c now (leeway_secs cfg) false = Ok tt.
Proof.
  unfold validate_single. intros H.
  repeat (break_hyp H; try discriminate H); injection H as <-;
    match goal with E : validate_claim_fields _ _ _ _ = Ok ?u |- _ => by destruct u end.
Qed.

Lemma claim_texts_ok c now leeway : validate_claim_fields c now leeway false = Ok tt ->
  charter c <> [] /\ version c <> [].
Proof.
  unfold validate_claim_fields.
  destruct (first_error (claim_checks_before_actor c now leeway false)) as [[]|] eqn:E1; [|done].
  intros _. apply first_error_ok in E1. unfold claim_checks_before_actor in E1.
  rewrite !Forall_app, !Forall_cons in E1. cbn [fst] in E1. rewrite !str_eqb_neq in E1. tauto.
Qed.

Lemma agent_identity_valid cfg ks now token vi :
  leeway_secs cfg = DEFAULT_LEEWAY_SECS -> 0 <= now -> validate cfg ks now token = Ok vi ->
  let a := agent_identity vi in
  (0 < chars_count (ag_instance_uid a) <= 128 /\ ag_version a <> [] /\ ch_name (ag_charter a) <> [] /\
   ch_type_id (ag_charter a) = 1) /\ safe_opt (ag_ttl_remaining_s a).
Proof.
  intros Hl Hn H. apply validate_inv in H as (l & Hv & _ & _ & _ & _ & _ & _ & _ & Httl).
  apply validate_single_fields in Hv. destruct (claim_texts_ok _ _ _ Hv) as [Hc Hver].
  apply claim_fields_ok in Hv as (He & Hi & _ & _ & _ & Hu & Hu' & _). rewrite Hl in Hi.
  cbn -[chars_count]. rewrite chars_count_pos. split; [split_and!; try done; unfold chars_count; lia|].
  intros n [= <-]. rewrite Httl. unfold sat_sub, sat_add, MAX_TTL_SECS, DEFAULT_LEEWAY_SECS in *.
  change JCS_SAFE_MAX with 9007199254740992. lia.
Qed.
End FromIdentity.

Lemma session_id_chars {UT : UnicodeTables} s id : Ids.parse_session_id s = Ok id ->
  0 < chars_count s <= 128.
Proof.
  unfold Ids.parse_session_id. rewrite visible_bytes.
  destruct (str_eqb s []) eqn:E0; [done|]. destruct (str_len s >? 128) eqn:E1; [done|].
  destruct (forallb _ s) eqn:E2; [|done]. intros _. apply str_eqb_neq in E0. b2p.
  rewrite visible_len in E1 by done. rewrite chars_count_pos. by split.
Qed.

(** Every token the identity validator accepts can be reported.  With its agent
    block, any session id that parses, any class and reason, an event number
    within the exact doubles and a clock within the four-digit years, building
    the event succeeds and the validator (hence the broker's schema gate)
    accepts it; so an admitted caller's stop is never lost for its form. *)
Theorem accepted_identity_is_reportable {UT : UnicodeTables} {TL : TokenLibs}
    (cfg : ValidatorConfig) (ks : KeySet) (now_s : Z) (token : str) (vi : ValidatedIdentity)
    (session : str) (id : Ids.SessionId) (class : EventClass.t) (r : StopReason.t) (seq now : Z)
    (uid pv : str) :
  leeway_secs cfg = DEFAULT_LEEWAY_SECS -> 0 <= now_s ->
  validate cfg ks now_s token = Ok vi -> Ids.parse_session_id session = Ok id ->
  seq <= JCS_SAFE_MAX -> 0 < now <= SCHEMA_TIME_MAX_MS -> uid <> [] -> pv <> [] ->
  exists ev, Builder.build now uid pv
      (Builder.stop_reason r (Builder.new class session (agent_identity vi) seq)) = Ok ev /\
    validate_event ev = Ok ().
Proof.
  intros Hl Hn Hv Hid Hseq Hnow Huid Hpv.
  destruct (agent_identity_valid _ _ _ _ _ Hl Hn Hv) as [Ha Ht].
  apply session_id_chars in Hid.
  assert (now <= JCS_SAFE_MAX) by (apply (time_max_safe now); [lia|done]).
  set (b := Builder.stop_reason _ _).
  destruct (build_total now uid pv b) as [ev Hb]; [split_and!; try done; cbn; lia|].
  exists ev. split; [done|]. apply built_valid in Hb as ->. subst b.
  constructor; cbn -[chars_count]; try done; lia.
Qed.

(** * The wire form *)

Module WireFacts.
Import Wire.

Definition width (max n : Z) : Prop := 0 <= n <= max.
Definition width_opt (max : Z) (o : option Z) : Prop := forall n, o = Some n -> width max n.

(** The ranges of the Rust types, and unmapped keys as reading leaves them. *)
Record typed_event (ev : OcsfEvent) : Prop := {
  typed_sequence : width u64_max (md_sequence (ev_metadata ev));
  typed_class_uid : width u32_max (ev_class_uid ev);
  typed_u8 : Forall (width u8_max) [ev_category_uid ev; ev_activity_id ev; ev_severity_id ev;
    ev_status_id ev; ch_type_id (ag_charter (ev_ai_agent ev))];
  typed_u64 : Forall (width u64_max) [ev_type_uid ev; ev_time ev];
  typed_reason : width_opt u8_max (ev_stop_reason_id ev);
  typed_ttl : width_opt u64_max (ag_ttl_remaining_s (ev_ai_agent ev));
  typed_metrics : forall m, ev_metrics ev = Some m -> Forall (width_opt u64_max) (Builder.counters m);
  typed_fp : forall fp, ev_inventory ev = Some fp \/ ev_prev_inventory ev = Some fp ->
    width u8_max (fp_algorithm_id fp) /\ width u8_max (fp_serialization_id fp);
  typed_unmapped : NoDup (map fst (ev_unmapped ev)) /\
    forall k, k ∈ map fst (ev_unmapped ev) -> k ∉ event_names;
}.

Lemma de_uint_num max n : width max n -> de_uint max (Number (PosInt n)) = Some n.
Proof. apply de_uint_ser. Qed.

Lemma charter_wire c : width u8_max (ch_type_id c) -> charter_from (charter_to c) = Some c.
Proof. destruct c as [n t]. intros H. cbv -[de_uint u8_max]. by rewrite de_uint_num. Qed.

Lemma product_wire p : product_from (product_to p) = Some p.
Proof. by destruct p. Qed.

Lemma metadata_wire m : width u64_max (md_sequence m) -> metadata_from (metadata_to m) = Some m.
Proof.
  destruct m as [v u p q]. intros H. cbv -[de_uint u64_max product_from product_to].
  by rewrite product_wire, de_uint_num.
Qed.

Lemma agent_wire a : width u8_max (ch_type_id (ag_charter a)) -> width_opt u64_max (ag_ttl_remaining_s a) ->
  agent_from (agent_to a) = Some a.
Proof.
  destruct a as [v c i t]. cbn [ag_charter ag_ttl_remaining_s]. intros Hc Ht.
  destruct t as [t|]; cbv -[de_uint u64_max charter_from charter_to]; rewrite charter_wire by done;
    [by rewrite de_uint_num by by apply Ht|done].
Qed.

Lemma metrics_wire m : Forall (width_opt u64_max) (Builder.counters m) ->
  metrics_from (metrics_to m) = Some m.
Proof.
  destruct m as [p c h r q]. unfold Builder.counters. cbn. rewrite !Forall_cons. intros H. destruct_and! H.
  unfold width_opt in *.
  destruct p, c, h, r, q; cbv -[de_uint u64_max]; rewrite ?de_uint_num by eauto; done.
Qed.

Lemma fingerprint_wire f : width u8_max (fp_algorithm_id f) -> width u8_max (fp_serialization_id f) ->
  fingerprint_from (fingerprint_to f) = Some f.
Proof.
  destruct f as [a b c d e]. intros H1 H2. cbn in H1, H2. cbv -[de_uint u8_max].
  by rewrite !de_uint_num.
Qed.

Lemma optional_members {A} (f : Value -> option A) (g : A -> Value) o :
  (forall a, o = Some a -> f (g a) = Some a /\ g a <> Null) ->
  optional f (match o with Some a => Some (g a) | None => None end) = Some o.
Proof. exact (optional_opt f g o). Qed.

Lemma event_member_names ev k : k ∈ map fst (event_members ev) -> k ∈ event_names.
Proof.
  assert (forallb (fun kv => known event_names kv.1) (event_members ev) = true) as Hk.
  { unfold event_members. rewrite !forallb_app.
    by rewrite !known_member, !known_opt_member by (vm_compute; reflexivity). }
  intros (kv & -> & Hin)%list_elem_of_fmap. rewrite forallb_forall in Hk.
  apply known_iff, Hk. by apply list_elem_of_In.
Qed.

Lemma event_to_members ev : typed_event ev -> event_to ev = Object (event_members ev ++ ev_unmapped ev).
Proof.
  intros H. unfold event_to. destruct (typed_unmapped _ H) as [Hnd Hf].
  rewrite fold_insert_fresh; [done|done|]. intros k Hk Hm. by apply event_member_names, Hf in Hm.
Qed.

Lemma event_unmapped_filter ev : typed_event ev ->
  List.filter (fun kv => negb (known event_names kv.1)) (event_members ev ++ ev_unmapped ev) =
  ev_unmapped ev.
Proof.
  intros H. destruct (typed_unmapped _ H) as [_ Hf]. rewrite List.filter_app.
  rewrite (filter_all _ (ev_unmapped ev)).
  - unfold event_members. rewrite !List.filter_app.
    by rewrite !filter_unknown_member, !filter_unknown_opt_member by (vm_compute; reflexivity).
  - apply forallb_forall. intros kv Hin. apply negb_true_iff, not_true_iff_false.
    rewrite known_iff. apply Hf. apply list_elem_of_In, in_map, Hin.
Qed.

(** The wire form loses nothing: reading back what was written gives the event,
    its optional members and the unmapped ones of a newer peer included. *)
Theorem event_wire_roundtrip (ev : OcsfEvent) : typed_event ev -> event_from (event_to ev) = Some ev.
Proof.
  intros H. rewrite event_to_members by done. unfold event_from. rewrite event_unmapped_filter by done.
  assert (forall n, lit n ∈ event_names -> map_get (lit n) (ev_unmapped ev) = None) as Hn.
  { intros n Hin. apply map_get_None. intros Hk. by eapply (typed_unmapped _ H). }
  unfold event_members. rewrite <- !app_assoc. get_names.
  rewrite !Hn by (apply known_iff; vm_compute; reflexivity). cbn [required mbind option_bind].
  pose proof (typed_u8 _ H) as H8. pose proof (typed_u64 _ H) as H64. rewrite !Forall_cons in H8.
  rewrite !Forall_cons in H64.   destruct_and!. pose proof (typed_sequence _ H). pose proof (typed_class_uid _ H).
  pose proof (typed_ttl _ H). pose proof (typed_reason _ H).
  rewrite metadata_wire, agent_wire by assumption.
  unfold ser_u. rewrite !de_uint_num by assumption. cbn [de_str as_str de_value de_unit_variant].
  rewrite class_of_topic.
  rewrite (optional_members _ (fun n => Number (PosInt n))) by (intros n Hnum; split; [by apply de_uint_num, (typed_reason _ H)|discriminate]).
  rewrite (optional_members de_str JString) by (intros; split; [reflexivity|discriminate]).
  rewrite (optional_members _ metrics_to) by (intros; split; [by apply metrics_wire, (typed_metrics _ H)|discriminate]).
  rewrite !(optional_members _ fingerprint_to)
    by (intros; split; [apply fingerprint_wire; eapply (typed_fp _ H); auto|discriminate]).
  by destruct ev.
Qed.
End WireFacts.

(** * Concrete events *)

Module EventSample.

Definition agent : AgentIdentity := mkAgentIdentity (lit "2.1") (charter_of (lit "billing")) (lit "i-1") (Some 300).

Definition fp : Fingerprint := sha256_jcs (replicate 64 97).

Definition builder : OcsfEventBuilder :=
  Builder.inventory fp None
    (Builder.metrics (mkMetrics (Some 120) None (Some 7) None (Some 350))
       (Builder.payload (Object [(lit "tool", JString (lit "pay"))])
          (Builder.stop_reason_native StopReason.Stop (lit "end_turn")
             (Builder.status StatusId.Failure
                (Builder.severity 4 (Builder.new EventClass.ToolCall (lit "s-1") agent 12)))))).

Definition event : OcsfEvent :=
  match Builder.build 1750000000123 (lit "u-1") (lit "0.3.0") builder with
  | Ok ev => ev
  | Err _ => mkEvent (mkMetadata [] [] (mkProduct [] [] []) 0) EventClass.Session 0 0 0 0 0 [] 0 0 []
               agent None None Null None None None []
  end.

Lemma event_accepted : validate_event event = Ok ().
Proof. vm_compute. reflexivity. Qed.

(** An event from a newer peer, with a member this version does not know. *)
Definition newer : OcsfEvent :=
  mkEvent (ev_metadata event) (ev_class_name event) (ev_class_uid event) (ev_category_uid event)
    (ev_activity_id event) (ev_type_uid event) (ev_time event) (ev_time_iso event)
    (ev_severity_id event) (ev_status_id event) (ev_session_uid event) (ev_ai_agent event)
    None None Null (ev_metrics event) None (ev_inventory event) [(lit "region", JString (lit "eu"))].

Lemma newer_refused : validate_event newer = Err [UnmappedNotPublishable 1].
Proof. vm_compute. reflexivity. Qed.

End EventSample.

Lemma accepted_event_well_typed_witness : length (ev_time_iso EventSample.event) = 24%nat.
Proof.
  pose proof (accepted_event_well_typed EventSample.event EventSample.event
                EventSample.event_accepted EventSample.event_accepted) as H.
  destruct H as (_ & _ & H & _); [vm_compute; discriminate..|]. exact H.
Defined.

Lemma accepted_identity_is_reportable_witness : exists ev,
  Builder.build 1750000000123 (lit "u-1") (lit "0.3.0")
    (Builder.stop_reason StopReason.LoopDetected
       (Builder.new EventClass.StopReason (lit "s-1") (agent_identity Sample.identity) 7)) = Ok ev /\
  validate_event ev = Ok ().
Proof.
  refine (@accepted_identity_is_reportable ascii_tables Sample.libs Sample.config Sample.key_set 1200
            (lit "leaf") Sample.identity (lit "s-1") (Ids.mkSessionId (lit "s-1"))
            EventClass.StopReason StopReason.LoopDetected 7 1750000000123 (lit "u-1") (lit "0.3.0")
            eq_refl _ Sample.validate_leaf eq_refl _ _ _ _); try done.
Defined.

Lemma event_wire_roundtrip_witness :
  Wire.event_from (Wire.event_to EventSample.newer) = Some EventSample.newer.
Proof.
  apply WireFacts.event_wire_roundtrip. constructor.
  - vm_compute. split; discriminate.
  - vm_compute. split; discriminate.
  - repeat (apply Forall_cons; split; [vm_compute; split; discriminate|]). apply Forall_nil. exact I.
  - repeat (apply Forall_cons; split; [vm_compute; split; discriminate|]). apply Forall_nil. exact I.
  - discriminate.
  - intros n [= <-]. vm_compute. split; discriminate.
  - intros m [= <-]. repeat (apply Forall_cons; split;
      [intros n Hn; try discriminate Hn; injection Hn as <-; vm_compute; split; discriminate|]).
    apply Forall_nil. exact I.
  - intros f [Hf|Hf]; [discriminate|]. injection Hf as <-. vm_compute. repeat split; discriminate.
  - split; [apply NoDup_singleton|]. intros k Hk. apply list_elem_of_singleton in Hk as ->.
    intros H. apply known_iff in H. vm_compute in H. discriminate.
Defined.
