(* ===== verification/Receipts.v ===== *)
(** [av-receipts/src/keys.rs] (signers and the verification keyring) and
    [av-receipts/src/receipt.rs] (the signed session receipt: its body, wire form,
    issuance and offline verification). *)

From S2P Require Import Prelude Rust CoreBase Json Core Rpc Jcs Serde Events.

(** * Third-party cryptography *)

(** [ed25519_dalek]: keys, [sign] and [verify_strict]. *)
Class Ed25519 := {
  SigningKey : Type;
  VerifyingKey : Type;
  signing_from_bytes : list Z -> SigningKey;
  signing_to_bytes : SigningKey -> list Z;
  verifying_key : SigningKey -> VerifyingKey;
  vk_from_bytes : list Z -> result VerifyingKey str;
  vk_as_bytes : VerifyingKey -> list Z;
  is_weak : VerifyingKey -> bool;
  ed_sign : SigningKey -> list Z -> list Z;
  verify_strict : VerifyingKey -> list Z -> list Z -> bool;
}.

(** Their documented behaviour: encodings have fixed lengths and are kept, and a
    signature made with a key verifies under its public half when that is a key of
    full order. *)
Class Ed25519Laws (E : Ed25519) := {
  vk_bytes_length vk : length (vk_as_bytes vk) = 32%nat;
  vk_bytes_byte vk : Forall (fun b => 0 <= b < 256) (vk_as_bytes vk);
  vk_bytes_roundtrip vk : vk_from_bytes (vk_as_bytes vk) = Ok vk;
  vk_bytes_kept bytes vk : vk_from_bytes bytes = Ok vk -> vk_as_bytes vk = bytes;
  signature_length sk m : length (ed_sign sk m) = 64%nat;
  signature_byte sk m : Forall (fun b => 0 <= b < 256) (ed_sign sk m);
  signature_verifies sk m :
    is_weak (verifying_key sk) = false -> verify_strict (verifying_key sk) m (ed_sign sk m) = true;
}.

(** [base64::engine::general_purpose::STANDARD]. *)
Class Base64 := {
  b64_encode : list Z -> str;
  b64_decode : str -> option (list Z);
  b64_roundtrip bs : Forall (fun b => 0 <= b < 256) bs -> b64_decode (b64_encode bs) = Some bs;
  b64_scalar bs : Forall (fun b => 0 <= b < 256) bs -> Forall is_scalar (b64_encode bs);
}.

(** * keys.rs *)

Section Keys.
Context {SHA : Sha256} {E : Ed25519}.

Definition derive_key_id (vk : VerifyingKey) : str := take 32 (sha256_hex (vk_as_bytes vk)).

(** [trait Signer]. *)
Record Signer := mkSigner {
  sg_key_id : str;
  sg_sign : list Z -> list Z;
  sg_public_key_bytes : list Z;
}.

Record Ed25519Signer := mkEd25519Signer { es_key_id : str; es_key : SigningKey }.

Definition from_seed (seed : list Z) : Ed25519Signer :=
  let key := signing_from_bytes seed in
  mkEd25519Signer (derive_key_id (verifying_key key)) key.

(** The seeds [generate] draws again. *)
Definition weak_seed (seed : list Z) : bool :=
  bool_decide (seed = replicate 32 0) || bool_decide (seed = replicate 32 255).

(** [generate]: [draws] are the seeds the operating system supplies. *)
Fixpoint generate (draws : list (list Z)) : option Ed25519Signer :=
  match draws with
  | [] => None
  | bytes :: draws' => if weak_seed bytes then generate draws' else Some (from_seed bytes)
  end.

Definition signer_seed (s : Ed25519Signer) : list Z := signing_to_bytes (es_key s).

(** [impl Signer for Ed25519Signer]. *)
Definition as_signer (s : Ed25519Signer) : Signer :=
  {| sg_key_id := es_key_id s;
     sg_sign := ed_sign (es_key s);
     sg_public_key_bytes := vk_as_bytes (verifying_key (es_key s)) |}.

Inductive KeyError :=
| InvalidKey (msg : str)
| WeakKey
| InvalidSignature
| UnknownKeyId (key_id : str)
| BadSignature (key_id : str)
| KeyIdMismatch (key_id : str).

Definition Keyring : Type := gmap str VerifyingKey.

Definition keyring_new : Keyring := ∅.

Definition add_key_bytes (bytes : list Z) (ring : Keyring) : Keyring * result str KeyError :=
  match vk_from_bytes bytes with
  | Err e => (ring, Err (InvalidKey e))
  | Ok vk =>
      if is_weak vk then (ring, Err WeakKey)
      else
        let id := derive_key_id vk in
        match ring !! id with
        | Some existing =>
            if bool_decide (vk_as_bytes existing = vk_as_bytes vk) then (ring, Ok id)
            else (ring, Err (KeyIdMismatch id))
        | None => (<[id := vk]> ring, Ok id)
        end
  end.

Definition add_signer (signer : Signer) (ring : Keyring) : Keyring * result str KeyError :=
  add_key_bytes (sg_public_key_bytes signer) ring.

Definition keyring_verify (ring : Keyring) (key_id : str) (msg sig : list Z) : result unit KeyError :=
  let? vk := ok_or (ring !! key_id) (UnknownKeyId key_id) in
  if negb (Nat.eqb (length sig) 64) then Err InvalidSignature
  else if verify_strict vk msg sig then Ok tt else Err (BadSignature key_id).

Definition keyring_len (ring : Keyring) : nat := size ring.
Definition keyring_is_empty (ring : Keyring) : bool := Nat.eqb (size ring) 0.
End Keys.

(** * receipt.rs: data *)

Definition RECEIPT_VERSION : Z := 2.

(** [b"agentvisor-receipt-v2\0"]. *)
Definition RECEIPT_DOMAIN_TAG_V2 : list Z := as_bytes (lit "agentvisor-receipt-v2") ++ [0].

Inductive ReceiptSubject :=
| EventChainSubject (chain_head : str) (event_count : Z)
| AtifTrajectorySubject (trajectory_digest : str) (step_count : Z) (retroactive : bool).

Record ToolCallSummary := mkToolCalls { tc_total : Z; tc_allowed : Z; tc_blocked : Z }.

Record CostSummary := mkCost {
  cs_prompt_tokens : Z;
  cs_completion_tokens : Z;
  cs_cached_tokens : Z;
  cs_cost_usd_micros : Z;
}.

Record ReceiptBody := mkBody {
  rb_receipt_version : Z;
  rb_receipt_id : str;
  rb_session_id : str;
  rb_issued_at : Z;
  rb_issued_at_iso : str;
  rb_ai_agent : AgentIdentity;
  rb_subject : ReceiptSubject;
  rb_tool_calls : ToolCallSummary;
  rb_cost : CostSummary;
  rb_stop_reason_id : Z;
  rb_stop_reason : str;
  rb_key_id : str;
  rb_public_key_b64 : str;
}.

Record Receipt := mkReceipt { rc_body : ReceiptBody; rc_signature_b64 : str }.

(** [serde_json]'s own messages are not modelled. *)
Inductive ReceiptError :=
| ReceiptJcs (e : JcsError)
| ReceiptSerde
| ReceiptKey (e : KeyError)
| ReceiptBase64
| ReceiptKeyMismatch (key_id : str)
| DuplicateKey (msg : str)
| SemanticInvariant (msg : str).

(** * receipt.rs: the wire form *)

Module ReceiptWire.

Definition subject_to (s : ReceiptSubject) : Value :=
  match s with
  | EventChainSubject h n =>
      Object (member "kind" (JString (lit "event_chain")) ++ member "chain_head" (JString h)
              ++ member "event_count" (ser_u n))
  | AtifTrajectorySubject d n r =>
      Object (member "kind" (JString (lit "atif_trajectory"))
              ++ member "trajectory_digest" (JString d) ++ member "step_count" (ser_u n)
              ++ member "retroactive" (Bool r))
  end.

(** An internally tagged enum: the tag is the member [kind] of an object or the
    first item of an array; the other members or items are the variant's. *)
Definition untag (v : Value) : option (str * Value) :=
  match v with
  | Object m =>
      match map_get (lit "kind") m with
      | Some (JString t) => Some (t, Object (List.filter (fun kv => negb (str_eqb kv.1 (lit "kind"))) m))
      | _ => None
      end
  | Array (JString t :: items) => Some (t, Array items)
  | _ => None
  end.

Definition chain_names : list str := [lit "chain_head"; lit "event_count"].
Definition atif_names : list str := [lit "trajectory_digest"; lit "step_count"; lit "retroactive"].

Definition subject_from (v : Value) : option ReceiptSubject :=
  match untag v with
  | None => None
  | Some (t, rest) =>
      if str_eqb t (lit "event_chain") then
        match strict_fields chain_names rest with
        | Some [h; n] => EventChainSubject <$> required de_str h <*> required (de_uint u64_max) n
        | _ => None
        end
      else if str_eqb t (lit "atif_trajectory") then
        match strict_fields atif_names rest with
        | Some [d; n; r] =>
            AtifTrajectorySubject <$> required de_str d <*> required (de_uint u64_max) n
              <*> required de_bool r
        | _ => None
        end
      else None
  end.

Definition tool_calls_names : list str := [lit "total"; lit "allowed"; lit "blocked"].
Definition tool_calls_to (t : ToolCallSummary) : Value :=
  Object (member "total" (ser_u (tc_total t)) ++ member "allowed" (ser_u (tc_allowed t))
          ++ member "blocked" (ser_u (tc_blocked t))).
Definition tool_calls_from (v : Value) : option ToolCallSummary :=
  match strict_fields tool_calls_names v with
  | Some [t; a; b] =>
      mkToolCalls <$> required (de_uint u64_max) t <*> required (de_uint u64_max) a
        <*> required (de_uint u64_max) b
  | _ => None
  end.

Definition cost_names : list str :=
  [lit "prompt_tokens"; lit "completion_tokens"; lit "cached_tokens"; lit "cost_usd_micros"].
Definition cost_to (c : CostSummary) : Value :=
  Object (member "prompt_tokens" (ser_u (cs_prompt_tokens c))
          ++ member "completion_tokens" (ser_u (cs_completion_tokens c))
          ++ member "cached_tokens" (ser_u (cs_cached_tokens c))
          ++ member "cost_usd_micros" (ser_u (cs_cost_usd_micros c))).
Definition cost_from (v : Value) : option CostSummary :=
  match strict_fields cost_names v with
  | Some [p; c; h; u] =>
      mkCost <$> required (de_uint u64_max) p <*> required (de_uint u64_max) c
        <*> required (de_uint u64_max) h <*> required (de_uint u64_max) u
  | _ => None
  end.

Definition body_names : list str :=
  [lit "receipt_version"; lit "receipt_id"; lit "session_id"; lit "issued_at";
   lit "issued_at_iso"; lit "ai_agent"; lit "subject"; lit "tool_calls"; lit "cost";
   lit "stop_reason_id"; lit "stop_reason"; lit "key_id"; lit "public_key_b64"].

Definition body_members (b : ReceiptBody) : list (str * Value) :=
  member "receipt_version" (ser_u (rb_receipt_version b))
  ++ member "receipt_id" (JString (rb_receipt_id b))
  ++ member "session_id" (JString (rb_session_id b))
  ++ member "issued_at" (ser_u (rb_issued_at b))
  ++ member "issued_at_iso" (JString (rb_issued_at_iso b))
  ++ member "ai_agent" (Wire.agent_to (rb_ai_agent b))
  ++ member "subject" (subject_to (rb_subject b))
  ++ member "tool_calls" (tool_calls_to (rb_tool_calls b))
  ++ member "cost" (cost_to (rb_cost b))
  ++ member "stop_reason_id" (ser_u (rb_stop_reason_id b))
  ++ member "stop_reason" (JString (rb_stop_reason b))
  ++ member "key_id" (JString (rb_key_id b))
  ++ member "public_key_b64" (JString (rb_public_key_b64 b)).

Definition body_to (b : ReceiptBody) : Value := Object (body_members b).

Definition body_from (v : Value) : option ReceiptBody :=
  match strict_fields body_names v with
  | Some [ver; rid; sid; at_; iso; ag; su; tc; co; sr; srt; kid; pk] =>
      mkBody <$> required (de_uint u32_max) ver <*> required de_str rid <*> required de_str sid
        <*> required (de_uint u64_max) at_ <*> required de_str iso
        <*> required Wire.agent_from ag <*> required subject_from su
        <*> required tool_calls_from tc <*> required cost_from co
        <*> required (de_uint u8_max) sr <*> required de_str srt <*> required de_str kid
        <*> required de_str pk
  | _ => None
  end.

Definition receipt_to (r : Receipt) : Value :=
  Object (body_members (rc_body r) ++ member "signature_b64" (JString (rc_signature_b64 r))).

Definition ALLOWED_RECEIPT_TOP_LEVEL_KEYS : list str := body_names ++ [lit "signature_b64"].

(** Items one after another, all of them or none. *)
Fixpoint collect {A} (l : list (option A)) : option (list A) :=
  match l with
  | [] => Some []
  | Some a :: l' => match collect l' with Some r => Some (a :: r) | None => None end
  | None :: _ => None
  end.

(** The members of an object being built; a name already there is refused. *)
Fixpoint checked_members (members : list (str * option Value)) (object : list (str * Value))
  : option (list (str * Value)) :=
  match members with
  | [] => Some object
  | (key, value) :: members' =>
      if contains_key key object then None
      else match value with
           | Some v => checked_members members' (map_insert key v object)
           | None => None
           end
  end.

(** [CheckedValue]: the value of the events, unless a name repeats, a [null]
    occurs or the text stops at an error.  A leaf is a scalar: containers are
    delivered as sequences and maps. *)
Fixpoint checked (r : Raw) : option Value :=
  match r with
  | RLeaf (Bool b) => Some (Bool b)
  | RLeaf (Number n) => Some (Number n)
  | RLeaf (JString s) => Some (JString s)
  | RSeq items None => Array <$> collect (map checked items)
  | RMap members None =>
      Object <$> checked_members
                   (map (fun kr => match kr with (k, x) => (k, checked x) end) members) []
  | _ => None
  end.

(** [ReceiptVisitor::visit_map]: whitelisted names, each once; then the signature
    is taken out and the rest read as the body. *)
Definition receipt_visit (r : Raw) : option Receipt :=
  match r with
  | RMap members None =>
      if negb (forallb (fun kr => known ALLOWED_RECEIPT_TOP_LEVEL_KEYS kr.1) members) then None
      else
        match checked_members (map (fun kr => match kr with (k, x) => (k, checked x) end) members) [] with
        | None => None
        | Some raw =>
            let rest := List.filter (fun kv => negb (str_eqb kv.1 (lit "signature_b64"))) raw in
            match required de_str (map_get (lit "signature_b64") raw), body_from (Object rest) with
            | Some sig, Some body => Some (mkReceipt body sig)
            | _, _ => None
            end
        end
  | _ => None
  end.

End ReceiptWire.

(** * receipt.rs: reading, issuing, verifying *)

Section Receipts.
Context {UT : UnicodeTables} {SJ : SerdeJson} {JR : JsonReader}.
Context {R : Ryu} {SHA : Sha256} {E : Ed25519} {B : Base64}.

(** [NoDupVisitor]: what it refuses, or the reader's error. *)
Inductive strict_error := SeDup (key : str) | SeNull | SeDepth | SeRead (msg : str).

Definition RECEIPT_DUP_KEY_SENTINEL : str := lit "__av_dup:".

Definition strict_stop (stop : option str) : result unit strict_error :=
  match stop with Some m => Err (SeRead m) | None => Ok tt end.

Fixpoint strict_items (items : list (result unit strict_error)) (stop : option str)
  : result unit strict_error :=
  match items with
  | [] => strict_stop stop
  | Ok _ :: items' => strict_items items' stop
  | Err e :: _ => Err e
  end.

Fixpoint strict_members (seen : gset str) (members : list (str * result unit strict_error))
    (stop : option str) : result unit strict_error :=
  match members with
  | [] => strict_stop stop
  | (key, r) :: members' =>
      if bool_decide (key ∈ seen) then Err (SeDup key)
      else let? _ := r in strict_members ({[key]} ∪ seen) members' stop
  end.

(** [depth] counts the containers entered. *)
Fixpoint no_dup (depth : nat) (r : Raw) : result unit strict_error :=
  match r with
  | RLeaf Null => Err SeNull
  | RLeaf _ => Ok tt
  | RSeq items stop =>
      if too_deep (S depth) then Err SeDepth
      else strict_items (map (fun x => no_dup (S depth) x) items) stop
  | RMap members stop =>
      if too_deep (S depth) then Err SeDepth
      else strict_members ∅
             (map (fun kr => match kr with (k, x) => (k, no_dup (S depth) x) end) members) stop
  | RFail msg => Err (SeRead msg)
  end.

Definition strict_error_msg (bytes : list Z) (e : strict_error) : str :=
  match e with
  | SeDup key =>
      custom_error bytes (RECEIPT_DUP_KEY_SENTINEL ++ lit "duplicate key `" ++ escape_debug key
                          ++ lit "` in JSON object")
  | SeNull =>
      custom_error bytes (RECEIPT_DUP_KEY_SENTINEL
        ++ lit "explicit JSON null is not permitted (a signed absent-Option cannot be re-serialised as null without breaking canonicalisation invariance)")
  | SeDepth =>
      custom_error bytes (RECEIPT_DUP_KEY_SENTINEL ++ lit "JSON nesting exceeds "
                          ++ fmt_int (Z.of_nat MAX_NESTED_DEPTH))
  | SeRead msg => msg
  end.

Definition check_no_duplicate_keys (bytes : list Z) : result unit ReceiptError :=
  match no_dup 0 (scan bytes) with
  | Ok _ => Ok tt
  | Err e =>
      let msg := strict_error_msg bytes e in
      match strip_prefix RECEIPT_DUP_KEY_SENTINEL msg with
      | Some rest => Err (DuplicateKey rest)
      | None =>
          if contains (lit "recursion limit exceeded") msg then Err (DuplicateKey msg)
          else Err ReceiptSerde
      end
  end.

(** [serde_json::from_slice::<Receipt>]: the value, then nothing but blanks. *)
Definition receipt_from_slice (bytes : list Z) : result Receipt ReceiptError :=
  match ReceiptWire.receipt_visit (scan bytes), end_error bytes with
  | Some r, None => Ok r
  | _, _ => Err ReceiptSerde
  end.

Definition from_json_slice (bytes : list Z) : result Receipt ReceiptError :=
  let? _ := check_no_duplicate_keys bytes in receipt_from_slice bytes.

Definition from_json_str (s : str) : result Receipt ReceiptError := from_json_slice (as_bytes s).

(** [u64::to_be_bytes]. *)
Definition u64_be_bytes (n : Z) : list Z :=
  map (fun i => Z.land (Z.shiftr n (8 * i)) 255) [7; 6; 5; 4; 3; 2; 1; 0].

Definition signing_message (receipt_version : Z) (canonical_body : str)
  : result (list Z) ReceiptError :=
  if receipt_version =? 1 then Ok (as_bytes canonical_body)
  else if receipt_version =? 2 then
    Ok (RECEIPT_DOMAIN_TAG_V2 ++ u64_be_bytes (str_len canonical_body) ++ as_bytes canonical_body)
  else Err (SemanticInvariant (lit "receipt_version " ++ fmt_int receipt_version
              ++ lit " has no defined signature framing (supported: 1, 2)")).

(** The five identifier fields with their names. *)
Definition id_fields (b : ReceiptBody) : list (str * str) :=
  [(lit "receipt_id", rb_receipt_id b); (lit "session_id", rb_session_id b);
   (lit "ai_agent.version", ag_version (rb_ai_agent b));
   (lit "ai_agent.charter.name", ch_name (ag_charter (rb_ai_agent b)));
   (lit "ai_agent.instance_uid", ag_instance_uid (rb_ai_agent b))].

Fixpoint fields_non_empty (l : list (str * str)) : result unit ReceiptError :=
  match l with
  | [] => Ok tt
  | (field, value) :: l' =>
      if is_empty_str value
      then Err (SemanticInvariant (field ++ lit " is empty (schema requires minLength 1)"))
      else fields_non_empty l'
  end.

Fixpoint fields_bounded (l : list (str * str)) : result unit ReceiptError :=
  match l with
  | [] => Ok tt
  | (field, value) :: l' =>
      if chars_count value >? 128
      then Err (SemanticInvariant (field ++ lit " exceeds 128 characters (schema maxLength)"))
      else fields_bounded l'
  end.

Definition MAX_ISSUED_AT_MS : Z := 253402300799999.

(** [digest_ok]. *)
Definition digest_ok (digest : str) : bool :=
  (str_len digest =? 64) && forallb is_lower_hex (as_bytes digest).

Definition check_subject (s : ReceiptSubject) : result unit ReceiptError :=
  match s with
  | EventChainSubject chain_head _ =>
      if negb (digest_ok chain_head)
      then Err (SemanticInvariant (lit "chain_head is not a lowercase 64-hex digest")) else Ok tt
  | AtifTrajectorySubject trajectory_digest _ retroactive =>
      if negb (digest_ok trajectory_digest)
      then Err (SemanticInvariant (lit "trajectory_digest is not a lowercase 64-hex digest"))
      else if negb retroactive
      then Err (SemanticInvariant (lit "AtifTrajectory.retroactive must be true (this receipt attests a retroactive promotion)"))
      else Ok tt
  end.

(** [u64::checked_add]. *)
Definition u64_checked_add (a b : Z) : option Z := if a + b <=? u64_max then Some (a + b) else None.

Definition check_tool_accounting (t : ToolCallSummary) : result unit ReceiptError :=
  if match u64_checked_add (tc_allowed t) (tc_blocked t) with
     | Some classified => classified >? tc_total t
     | None => true
     end
  then Err (SemanticInvariant (lit "tool_calls allowed (" ++ fmt_int (tc_allowed t)
              ++ lit ") + blocked (" ++ fmt_int (tc_blocked t)
              ++ lit ") exceeds total (" ++ fmt_int (tc_total t) ++ lit ")"))
  else Ok tt.

Definition verify_semantic_invariants (r : Receipt) : result unit ReceiptError :=
  let b := rc_body r in
  if negb ((rb_receipt_version b =? 1) || (rb_receipt_version b =? 2))
  then Err (SemanticInvariant (lit "receipt_version " ++ fmt_int (rb_receipt_version b)
              ++ lit " is not a supported version (1 or 2)"))
  else if negb (ch_type_id (ag_charter (rb_ai_agent b)) =? 1)
  then Err (SemanticInvariant (lit "ai_agent.charter.type_id "
              ++ fmt_int (ch_type_id (ag_charter (rb_ai_agent b)))
              ++ lit " is not Regular File (1)"))
  else
  let? _ := fields_non_empty (id_fields b) in
  let? _ := fields_bounded (id_fields b) in
  if rb_issued_at b >? MAX_ISSUED_AT_MS
  then Err (SemanticInvariant (lit "issued_at " ++ fmt_int (rb_issued_at b)
              ++ lit " is beyond year 9999 (RFC 3339 date-time cannot express it)"))
  else
  let? _ := check_subject (rb_subject b) in
  let expected_iso := iso8601_ms (rb_issued_at b) in
  if negb (str_eqb (rb_issued_at_iso b) expected_iso)
  then Err (SemanticInvariant (lit "issued_at_iso " ++ fmt_debug (rb_issued_at_iso b)
              ++ lit " does not match issued_at (" ++ fmt_int (rb_issued_at b)
              ++ lit "); expected " ++ fmt_debug expected_iso))
  else if cross_wired (rb_stop_reason_id b) (rb_stop_reason b)
  then Err (SemanticInvariant (lit "stop_reason " ++ fmt_debug (rb_stop_reason b)
              ++ lit " is the canonical caption of a different variant than stop_reason_id ("
              ++ fmt_int (rb_stop_reason_id b) ++ lit "); expected "
              ++ fmt_debug (StopReason.caption (StopReason.from_id (rb_stop_reason_id b)))
              ++ lit " or a non-canonical native caption"))
  else check_tool_accounting (rb_tool_calls b).

(** The steps [verify] and [verify_embedded] share up to the signature: the
    embedded key, its id, the message and the signature bytes. *)
Definition verify_prefix (r : Receipt) : result (Keyring * str * list Z * list Z) ReceiptError :=
  let b := rc_body r in
  let? _ := verify_semantic_invariants r in
  let? embedded := ok_or (b64_decode (rb_public_key_b64 b)) ReceiptBase64 in
  if negb (Nat.eqb (length embedded) 32) then Err ReceiptBase64
  else
  let '(probe, added) := add_key_bytes embedded keyring_new in
  let? derived_id := map_err ReceiptKey added in
  if negb (str_eqb derived_id (rb_key_id b)) then Err (ReceiptKeyMismatch (rb_key_id b))
  else
  let? canon := map_err ReceiptJcs (canonicalize (ReceiptWire.body_to b)) in
  let? message := signing_message (rb_receipt_version b) canon in
  let? sig := ok_or (b64_decode (rc_signature_b64 r)) ReceiptBase64 in
  Ok (probe, derived_id, message, sig).

Definition verify (ring : Keyring) (r : Receipt) : result unit ReceiptError :=
  let? (_, _, message, sig) := verify_prefix r in
  map_err ReceiptKey (keyring_verify ring (rb_key_id (rc_body r)) message sig).

Definition verify_embedded (r : Receipt) : result unit ReceiptError :=
  let? (probe, id, message, sig) := verify_prefix r in
  map_err ReceiptKey (keyring_verify probe id message sig).

(** The body with the issuer's version and key. *)
Definition stamp (signer : Signer) (b : ReceiptBody) : ReceiptBody :=
  mkBody RECEIPT_VERSION (rb_receipt_id b) (rb_session_id b) (rb_issued_at b) (rb_issued_at_iso b)
    (rb_ai_agent b) (rb_subject b) (rb_tool_calls b) (rb_cost b) (rb_stop_reason_id b)
    (rb_stop_reason b) (sg_key_id signer) (b64_encode (sg_public_key_bytes signer)).

Definition issue (body : ReceiptBody) (signer : Signer) : result Receipt ReceiptError :=
  let body := stamp signer body in
  let? canon := map_err ReceiptJcs (canonicalize (ReceiptWire.body_to body)) in
  let? message := signing_message (rb_receipt_version body) canon in
  let receipt := mkReceipt body (b64_encode (sg_sign signer message)) in
  let? _ := verify_embedded receipt in
  Ok receipt.

(** [now] is the clock's reading and [uid] the fresh receipt id. *)
Definition new_body (now : Z) (uid : str) (session_id : str) (ai_agent : AgentIdentity)
    (subject : ReceiptSubject) (tool_calls : ToolCallSummary) (cost : CostSummary)
    (stop_reason : StopReason.t) : ReceiptBody :=
  mkBody RECEIPT_VERSION uid session_id now (iso8601_ms now) ai_agent subject tool_calls cost
    (StopReason.id stop_reason) (StopReason.caption stop_reason) [] [].
End Receipts.
