(* ===== verification/ReceiptsProofs.v ===== *)
(** Facts about [Receipts]: issued receipts verify, verified receipts were signed
    by a trusted key over exactly the body, the signed bytes determine the body,
    and the wire text shows what was signed. *)

From S2P Require Import Prelude Rust CoreBase Json Core CoreProofs Rpc RpcProofs Jcs JcsProofs.
From S2P Require Import Serde Events EventsProofs Receipts.

(** * Keys *)

Section KeyFacts.
Context {SHA : Sha256} {E : Ed25519}.

(** What every keyring built through the API satisfies. *)
Definition ring_wf (ring : Keyring) : Prop :=
  forall id vk, ring !! id = Some vk -> derive_key_id vk = id /\ is_weak vk = false.

Lemma ring_new_wf : ring_wf keyring_new.
Proof. intros id vk H. unfold keyring_new, Keyring in H. by rewrite lookup_empty in H. Qed.

Lemma add_key_bytes_ok bytes ring ring' id : add_key_bytes bytes ring = (ring', Ok id) ->
  exists vk, vk_from_bytes bytes = Ok vk /\ is_weak vk = false /\ id = derive_key_id vk /\
    (ring' = ring /\ (exists vk', ring !! id = Some vk' /\ vk_as_bytes vk' = vk_as_bytes vk) \/
     ring' = <[id := vk]> ring /\ ring !! id = None).
Proof.
  unfold add_key_bytes. destruct (vk_from_bytes bytes) as [vk|] eqn:Ev; [|done].
  destruct (is_weak vk) eqn:Ew; [done|]. destruct (ring !! derive_key_id vk) as [ex|] eqn:Er.
  - destruct (bool_decide _) eqn:Eb; [|done]. b2p. intros [= <- <-]. exists vk. naive_solver.
  - intros [= <- <-]. exists vk. naive_solver.
Qed.

Lemma add_key_bytes_wf bytes ring : ring_wf ring -> ring_wf (add_key_bytes bytes ring).1.
Proof.
  intros Hw. unfold add_key_bytes. destruct (vk_from_bytes bytes) as [vk|]; [|done].
  destruct (is_weak vk) eqn:Ew; [done|]. destruct (ring !! _) as [ex|] eqn:Er.
  - by destruct (bool_decide _).
  - cbn. intros id vk'. unfold Keyring. rewrite lookup_insert_Some. intros [[<- <-]|[_ H]]; [done|by apply Hw].
Qed.

(** Adding never replaces a key. *)
Lemma add_key_bytes_keeps bytes ring id vk :
  ring !! id = Some vk -> (add_key_bytes bytes ring).1 !! id = Some vk.
Proof.
  intros H. unfold add_key_bytes. destruct (vk_from_bytes bytes) as [vk'|]; [|done].
  destruct (is_weak vk'); [done|]. destruct (ring !! derive_key_id vk') as [ex|] eqn:Er.
  - by destruct (bool_decide _).
  - cbn. unfold Keyring. rewrite lookup_insert_ne; [done|]. congruence.
Qed.

Lemma keyring_verify_ok ring id msg sig : keyring_verify ring id msg sig = Ok tt <->
  exists vk, ring !! id = Some vk /\ length sig = 64%nat /\ verify_strict vk msg sig = true.
Proof.
  unfold keyring_verify. destruct (ring !! id) as [vk|]; cbn; [|split; [done|by intros (?&?&_)]].
  destruct (Nat.eqb (length sig) 64) eqn:El; cbn.
  - apply Nat.eqb_eq in El. destruct (verify_strict vk msg sig) eqn:Es.
    + split; [by exists vk|done].
    + split; [done|]. intros (? & [= <-] & _ & ?). congruence.
  - apply Nat.eqb_neq in El. split; [done|]. by intros (? & _ & ? & _).
Qed.

(** Two different public keys under one key id: a collision of the truncated
    digest. *)
Definition id_collision : Prop :=
  exists vk vk', vk_as_bytes vk <> vk_as_bytes vk' /\ derive_key_id vk = derive_key_id vk'.
End KeyFacts.

(** * Issuing and verifying *)

Section Verify.
Context {UT : UnicodeTables} {R : Ryu} {SHA : Sha256} {E : Ed25519} {B : Base64}.

(** What [verify_prefix] establishes. *)
Lemma verify_prefix_ok r probe id msg sig : verify_prefix r = Ok (probe, id, msg, sig) <->
  verify_semantic_invariants r = Ok tt /\
  exists embedded vk canon,
    b64_decode (rb_public_key_b64 (rc_body r)) = Some embedded /\ length embedded = 32%nat /\
    vk_from_bytes embedded = Ok vk /\ is_weak vk = false /\
    derive_key_id vk = rb_key_id (rc_body r) /\
    canonicalize (ReceiptWire.body_to (rc_body r)) = Ok canon /\
    signing_message (rb_receipt_version (rc_body r)) canon = Ok msg /\
    b64_decode (rc_signature_b64 r) = Some sig /\
    id = derive_key_id vk /\ probe = {[id := vk]}.
Proof.
  unfold verify_prefix. split.
  - destruct (verify_semantic_invariants r) as [[]|] eqn:Es; [|done].
    destruct (b64_decode (rb_public_key_b64 (rc_body r))) as [emb|] eqn:Ed; [|done]. cbn [ok_or].
    destruct (Nat.eqb (length emb) 32) eqn:El; [|done]. apply Nat.eqb_eq in El. cbn [negb].
    destruct (add_key_bytes emb keyring_new) as [pr [did|]] eqn:Ea; [|done]. cbn [map_err].
    apply add_key_bytes_ok in Ea as (vk & Hv & Hw & -> & Hr).
    destruct (str_eqb _ (rb_key_id (rc_body r))) eqn:Ek; [|done]. apply str_eqb_eq in Ek. cbn [negb].
    destruct (canonicalize _) as [canon|] eqn:Ec; [|done]. cbn [map_err].
    destruct (signing_message _ canon) as [m|] eqn:Em; [|done].
    destruct (b64_decode (rc_signature_b64 r)) as [s|] eqn:Eg; [|done]. cbn [ok_or]. intros [= <- <- <- <-].
    split; [done|]. exists emb, vk, canon. split_and!; try done.
    destruct Hr as [(-> & vk' & Hk & _)|[-> _]]; [by unfold keyring_new, Keyring in Hk; rewrite lookup_empty in Hk|done].
  - intros (-> & emb & vk & canon & Hd & Hl & Hv & Hw & Hk & Hc & Hm & Hs & -> & ->).
    rewrite Hd. cbn [ok_or]. rewrite (proj2 (Nat.eqb_eq _ _) Hl). cbn [negb]. unfold add_key_bytes, keyring_new, Keyring.
    rewrite Hv, Hw, lookup_empty. cbn [map_err]. rewrite Hk, str_eqb_refl. cbn [negb].
    rewrite Hc. cbn [map_err]. rewrite Hm, Hs. done.
Qed.

Lemma map_err_ok {A X Y} (f : X -> Y) (r : result A X) a : map_err f r = Ok a <-> r = Ok a.
Proof. destruct r; cbn; naive_solver. Qed.

Lemma verify_ok ring r : verify ring r = Ok tt <->
  exists probe id msg sig, verify_prefix r = Ok (probe, id, msg, sig) /\
    keyring_verify ring (rb_key_id (rc_body r)) msg sig = Ok tt.
Proof.
  unfold verify. destruct (verify_prefix r) as [[[[probe id] msg] sig]|] eqn:Ep; [|naive_solver].
  rewrite map_err_ok. naive_solver.
Qed.

(** An honest signer: its key id is derived from its key. *)
Definition honest (s : Ed25519Signer) : Prop := es_key_id s = derive_key_id (verifying_key (es_key s)).

Lemma from_seed_honest seed : honest (from_seed seed).
Proof. done. Qed.

Lemma generate_honest draws s : generate draws = Some s -> honest s /\
  exists seed, seed ∈ draws /\ weak_seed seed = false /\ s = from_seed seed.
Proof.
  induction draws as [|seed draws IH]; cbn; [done|]. destruct (weak_seed seed) eqn:Ew.
  - intros H. destruct (IH H) as (Hh & s0 & Hin & ?). split; [done|]. exists s0. by split; [right|].
  - intros [= <-]. split; [done|]. exists seed. by split; [left|].
Qed.

Context {EL : Ed25519Laws E}.

Lemma issue_ok body s r : honest s -> issue body (as_signer s) = Ok r <->
  exists canon msg, is_weak (verifying_key (es_key s)) = false /\
    canonicalize (ReceiptWire.body_to (stamp (as_signer s) body)) = Ok canon /\
    signing_message RECEIPT_VERSION canon = Ok msg /\
    r = mkReceipt (stamp (as_signer s) body) (b64_encode (ed_sign (es_key s) msg)) /\
    verify_semantic_invariants r = Ok tt.
Proof.
  intros Hh. unfold issue. set (b := stamp (as_signer s) body). change (rb_receipt_version b) with RECEIPT_VERSION.
  destruct (canonicalize (ReceiptWire.body_to b)) as [canon|] eqn:Ec; cbn [map_err]; [|naive_solver].
  destruct (signing_message RECEIPT_VERSION canon) as [msg|] eqn:Em; [|naive_solver].
  set (r0 := mkReceipt b _).
  assert (verify_embedded r0 = Ok tt <-> is_weak (verifying_key (es_key s)) = false /\
            verify_semantic_invariants r0 = Ok tt) as Hv.
  { unfold verify_embedded.
    assert (b64_decode (rb_public_key_b64 b) = Some (vk_as_bytes (verifying_key (es_key s)))) as Hpk
      by (apply b64_roundtrip, vk_bytes_byte).
    assert (b64_decode (rc_signature_b64 r0) = Some (ed_sign (es_key s) msg)) as Hsg
      by (apply b64_roundtrip, signature_byte).
    split.
    - destruct (verify_prefix r0) as [[[[probe id] m] sg]|] eqn:Ep; [|done]. intros _.
      apply verify_prefix_ok in Ep as (Hs & emb & vk & c & Hd & _ & Hf & Hw & _). split; [|done].
      change (rc_body r0) with b in Hd. rewrite Hpk in Hd. injection Hd as <-.
      rewrite vk_bytes_roundtrip in Hf. by injection Hf as ->.
    - intros [Hw Hs].
      rewrite (proj2 (verify_prefix_ok r0 {[es_key_id s := verifying_key (es_key s)]} (es_key_id s) msg
                        (ed_sign (es_key s) msg))).
      + apply map_err_ok, keyring_verify_ok. exists (verifying_key (es_key s)).
        unfold Keyring. rewrite lookup_singleton_eq. split; [done|]. split; [apply signature_length|by apply signature_verifies].
      + split; [done|]. exists (vk_as_bytes (verifying_key (es_key s))), (verifying_key (es_key s)), canon.
        split_and!; try done; [apply vk_bytes_length|apply vk_bytes_roundtrip]. }
  destruct (verify_embedded r0) as [[]|] eqn:Ee.
  - destruct (proj1 Hv eq_refl) as [Hw Hs]. split.
    + intros [= <-]. by exists canon, msg.
    + intros (c & m & _ & [= <-] & Hm & -> & _). rewrite Em in Hm. by injection Hm as <-.
  - split; [done|]. intros (c & m & Hw & [= <-] & Hm & -> & Hs). exfalso.
    rewrite Em in Hm. injection Hm as <-.
    assert (@Err unit ReceiptError e = Ok tt) by by apply Hv. done.
Qed.
End Verify.

(** * What the invariants say *)

(** The digest a subject attests. *)
Definition subject_digest (s : ReceiptSubject) : str :=
  match s with EventChainSubject h _ => h | AtifTrajectorySubject d _ _ => d end.

Record semantic (b : ReceiptBody) : Prop := {
  sem_version : rb_receipt_version b = 1 \/ rb_receipt_version b = 2;
  sem_charter : ch_type_id (ag_charter (rb_ai_agent b)) = 1;
  sem_fields : Forall (fun fv => 0 < chars_count fv.2 <= 128) (id_fields b);
  sem_issued : rb_issued_at b <= SCHEMA_TIME_MAX_MS /\ rb_issued_at_iso b = iso8601_ms (rb_issued_at b);
  sem_digest : digest_ok (subject_digest (rb_subject b)) = true;
  sem_retroactive : forall d n r, rb_subject b = AtifTrajectorySubject d n r -> r = true;
  sem_reason : cross_wired (rb_stop_reason_id b) (rb_stop_reason b) = false;
  sem_tools : tc_allowed (rb_tool_calls b) + tc_blocked (rb_tool_calls b) <= u64_max /\
    tc_allowed (rb_tool_calls b) + tc_blocked (rb_tool_calls b) <= tc_total (rb_tool_calls b);
}.

Section Semantic.
Context {UT : UnicodeTables}.

Lemma fields_non_empty_ok l : fields_non_empty l = Ok tt <-> Forall (fun fv => fv.2 <> []) l.
Proof.
  induction l as [|[f v] l IH]; cbn [fields_non_empty]; rewrite ?Forall_cons; [by split; [constructor|]|].
  cbn [snd]. rewrite <- is_empty_str_false. destruct (is_empty_str v); [naive_solver|]. rewrite IH. naive_solver.
Qed.

Lemma fields_bounded_ok l : fields_bounded l = Ok tt <-> Forall (fun fv => chars_count fv.2 <= 128) l.
Proof.
  induction l as [|[f v] l IH]; cbn [fields_bounded]; rewrite ?Forall_cons; [by split; [constructor|]|].
  cbn [snd]. rewrite <- Z.ltb_ge, <- Z.gtb_ltb. destruct (chars_count v >? 128); [naive_solver|].
  rewrite IH. naive_solver.
Qed.

Lemma check_subject_ok s : check_subject s = Ok tt <->
  digest_ok (subject_digest s) = true /\ forall d n r, s = AtifTrajectorySubject d n r -> r = true.
Proof.
  destruct s as [h n|d n r]; cbn [check_subject subject_digest].
  - destruct (digest_ok h); cbn [negb]; naive_solver.
  - destruct (digest_ok d); cbn [negb]; [|naive_solver]. destruct r; cbn [negb]; naive_solver.
Qed.

Lemma check_tool_accounting_ok t : check_tool_accounting t = Ok tt <->
  tc_allowed t + tc_blocked t <= u64_max /\ tc_allowed t + tc_blocked t <= tc_total t.
Proof.
  unfold check_tool_accounting, u64_checked_add.
  destruct (tc_allowed t + tc_blocked t <=? u64_max) eqn:E1; b2p.
  - destruct (_ >? tc_total t) eqn:E2; b2p; split; intros H; try done; lia.
  - split; [done|]. lia.
Qed.

Lemma semantic_iff r : verify_semantic_invariants r = Ok tt <-> semantic (rc_body r).
Proof.
  unfold verify_semantic_invariants. set (b := rc_body r). split.
  - destruct ((rb_receipt_version b =? 1) || _) eqn:Ev; [|done]. apply orb_true_iff in Ev. rewrite !Z.eqb_eq in Ev.
    destruct (ch_type_id _ =? 1) eqn:Ec; [|done]. b2p. cbn [negb].
    destruct (fields_non_empty (id_fields b)) as [[]|] eqn:E1; [|done].
    destruct (fields_bounded (id_fields b)) as [[]|] eqn:E2; [|done].
    destruct (rb_issued_at b >? MAX_ISSUED_AT_MS) eqn:E3; [done|]. b2p.
    destruct (check_subject (rb_subject b)) as [[]|] eqn:E4; [|done].
    destruct (str_eqb _ _) eqn:E5; [|done]. apply str_eqb_eq in E5. cbn [negb].
    destruct (cross_wired _ _) eqn:E6; [done|]. intros E7.
    apply fields_non_empty_ok in E1. apply fields_bounded_ok in E2.
    apply check_subject_ok in E4 as []. apply check_tool_accounting_ok in E7.
    constructor; try done. pose proof (proj2 (Forall_and _ _) (conj E1 E2)) as Hall.
    eapply Forall_impl; [exact Hall|]. intros fv [? ?]. split; [by apply chars_count_pos|done].
  - intros [Hv Hc Hf [Hi Hiso] Hd Hr Hx Ht].
    rewrite (proj2 (orb_true_iff _ _)) by (by rewrite !Z.eqb_eq). cbn [negb].
    rewrite (proj2 (Z.eqb_eq _ _) Hc). cbn [negb].
    rewrite (proj2 (fields_non_empty_ok _)), (proj2 (fields_bounded_ok _));
      [|eapply Forall_impl; [exact Hf|]; intros fv []; first [done|by apply chars_count_pos]..].
    destruct (rb_issued_at b >? MAX_ISSUED_AT_MS) eqn:E3; b2p; [unfold MAX_ISSUED_AT_MS, SCHEMA_TIME_MAX_MS in *; lia|].
    rewrite (proj2 (check_subject_ok _)) by done. rewrite Hiso, str_eqb_refl. cbn [negb]. rewrite Hx.
    by apply check_tool_accounting_ok.
Qed.
End Semantic.

(** Adding keys one after another. *)
Definition add_keys {SHA : Sha256} {E : Ed25519} (keys : list (list Z)) (ring : Keyring) : Keyring :=
  fold_left (fun ring k => (add_key_bytes k ring).1) keys ring.

Lemma add_keys_keeps {SHA : Sha256} {E : Ed25519} keys (ring : Keyring) id vk :
  ring !! id = Some vk -> add_keys keys ring !! id = Some vk.
Proof.
  revert ring. induction keys as [|k keys IH]; intros ring H; [done|]. cbn. apply IH.
  by apply add_key_bytes_keeps.
Qed.

Lemma add_keys_wf {SHA : Sha256} {E : Ed25519} keys (ring : Keyring) : ring_wf ring -> ring_wf (add_keys keys ring).
Proof.
  revert ring. induction keys as [|k keys IH]; intros ring H; [done|]. cbn. by apply IH, add_key_bytes_wf.
Qed.

Lemma add_signer_found {SHA : Sha256} {E : Ed25519} {EL : Ed25519Laws E} s (ring ring' : Keyring) id :
  add_signer (as_signer s) ring = (ring', Ok id) -> ring' !! id = Some (verifying_key (es_key s)) /\
    id = derive_key_id (verifying_key (es_key s)) /\ is_weak (verifying_key (es_key s)) = false.
Proof.
  intros H. apply add_key_bytes_ok in H as (vk & Hv & Hw & Hid & Hr). cbn in Hv.
  rewrite vk_bytes_roundtrip in Hv. injection Hv as <-. split; [|done].
  destruct Hr as [(-> & vk' & Hk & Hb)|[-> _]]; [|unfold Keyring; by rewrite lookup_insert_eq].
  rewrite Hk. f_equal. apply (@Ok_inj _ str). by rewrite <- !vk_bytes_roundtrip, Hb.
Qed.

Lemma issue_verifies {UT : UnicodeTables} {R : Ryu} {SHA : Sha256} {E : Ed25519} {B : Base64}
    {EL : Ed25519Laws E} (s : Ed25519Signer) (body : ReceiptBody) (ring ring' : Keyring) (id : str)
    (later : list (list Z)) (r : Receipt) :
  honest s -> add_signer (as_signer s) ring = (ring', Ok id) -> issue body (as_signer s) = Ok r ->
  rc_body r = stamp (as_signer s) body /\ verify (add_keys later ring') r = Ok tt.
Proof.
  intros Hh Ha. apply add_signer_found in Ha as (Hk & Hid & Hw).
  intros Hi. apply issue_ok in Hi as (canon & msg & _ & Hc & Hm & -> & Hs); [|done].
  split; [done|]. apply verify_ok.
  exists {[es_key_id s := verifying_key (es_key s)]}, (es_key_id s), msg, (ed_sign (es_key s) msg). split.
  + apply verify_prefix_ok. split; [done|].
    exists (vk_as_bytes (verifying_key (es_key s))), (verifying_key (es_key s)), canon.
    split_and!; try done; [apply b64_roundtrip, vk_bytes_byte|apply vk_bytes_length|apply vk_bytes_roundtrip
      |apply b64_roundtrip, signature_byte].
  + apply keyring_verify_ok. exists (verifying_key (es_key s)). split.
    * cbn. rewrite Hh, <- Hid. by apply add_keys_keeps.
    * split; [apply signature_length|by apply signature_verifies].
Qed.

(** Receipts stay verifiable.  What an honest signer issues verifies against
    every keyring its key was ever added to, whatever keys are added before or
    after (rotation); the receipt carries the caller's body unchanged but for the
    current version and the signer's own id and key; and issuing fails only on a
    body no verifier would accept, an unsafe integer or a weak key. *)
Theorem issued_receipts_verify {UT : UnicodeTables} {R : Ryu} {SHA : Sha256} {E : Ed25519} {B : Base64}
    {EL : Ed25519Laws E} (s : Ed25519Signer) (body : ReceiptBody) (ring ring' : Keyring) (id : str)
    (later : list (list Z)) :
  honest s -> add_signer (as_signer s) ring = (ring', Ok id) ->
  (forall r, issue body (as_signer s) = Ok r ->
     rc_body r = stamp (as_signer s) body /\ verify (add_keys later ring') r = Ok tt) /\
  ((exists canon, canonicalize (ReceiptWire.body_to (stamp (as_signer s) body)) = Ok canon) ->
   semantic (stamp (as_signer s) body) -> exists r, issue body (as_signer s) = Ok r).
Proof.
  intros Hh Ha. split; [intros r; by eapply issue_verifies|].
  intros [canon Hc] Hs. apply add_signer_found in Ha as (_ & _ & Hw).
  set (msg := RECEIPT_DOMAIN_TAG_V2 ++ u64_be_bytes (str_len canon) ++ as_bytes canon).
  exists (mkReceipt (stamp (as_signer s) body) (b64_encode (ed_sign (es_key s) msg))).
  apply issue_ok; [done|]. exists canon, msg. split_and!; try done. by apply semantic_iff.
Qed.

(** C12. A verified receipt is authentic.  When a receipt verifies against a keyring
    built by adding keys, the key the ring trusts under its key id signed exactly
    the framed canonical text of this body; that key is not weak; the embedded key
    is the same one, unless two keys share an id; and the body's claims are
    consistent: both times name one instant, tool outcomes do not exceed the
    calls, the digest is well formed. *)
Theorem verified_receipt_authentic {UT : UnicodeTables} {R : Ryu} {SHA : Sha256} {E : Ed25519} {B : Base64}
    {EL : Ed25519Laws E} (keys : list (list Z)) (r : Receipt) :
  let ring := add_keys keys keyring_new in
  verify ring r = Ok tt ->
  exists vk canon msg sig embedded,
    ring !! rb_key_id (rc_body r) = Some vk /\ is_weak vk = false /\
    canonicalize (ReceiptWire.body_to (rc_body r)) = Ok canon /\
    signing_message (rb_receipt_version (rc_body r)) canon = Ok msg /\
    b64_decode (rc_signature_b64 r) = Some sig /\ verify_strict vk msg sig = true /\
    b64_decode (rb_public_key_b64 (rc_body r)) = Some embedded /\
    (embedded = vk_as_bytes vk \/ id_collision) /\
    semantic (rc_body r).
Proof.
  intros ring Hv. assert (ring_wf ring) as Hwf by (apply add_keys_wf, ring_new_wf).
  apply verify_ok in Hv as (probe & id & msg & sig & Hp & Hk).
  apply verify_prefix_ok in Hp as (Hs & emb & vk' & canon & Hd & Hl & Hf & Hw & Hid & Hc & Hm & Hsig & _ & _).
  apply keyring_verify_ok in Hk as (vk & Hr & _ & Hver). destruct (Hwf _ _ Hr) as [Hvk Hweak].
  exists vk, canon, msg, sig, emb. split_and!; try done; [|by apply semantic_iff].
  apply vk_bytes_kept in Hf. destruct (decide (emb = vk_as_bytes vk)) as [->|Hne]; [by left|right].
  exists vk', vk. split; congruence.
Qed.

(** * The signed bytes determine the body *)

Lemma map_get_elem k v m : NoDup (map fst m) -> map_get k m = Some v <-> (k, v) ∈ m.
Proof.
  intros Hn. split; [apply map_get_In|]. induction m as [|[k' w] m IH]; [by intros H; inversion H|].
  cbn in *. apply NoDup_cons in Hn as [Hk Hn]. rewrite elem_of_cons. intros [[= -> ->]|Hin].
  - by rewrite str_eqb_refl.
  - rewrite (proj2 (str_eqb_neq _ _)); [by apply IH|]. intros ->. apply Hk.
    apply list_elem_of_In, in_map_iff. exists (k, v). by split; [|apply list_elem_of_In].
Qed.

Lemma map_get_perm k m m' : NoDup (map fst m) -> m ≡ₚ m' -> map_get k m = map_get k m'.
Proof.
  intros Hn Hp. assert (NoDup (map fst m')) as Hn' by by rewrite <- Hp.
  destruct (map_get k m) as [v|] eqn:Ev.
  - apply map_get_elem in Ev; [|done]. rewrite Hp in Ev. symmetry. by apply map_get_elem.
  - apply map_get_None in Ev. symmetry. apply map_get_None. by rewrite <- Hp.
Qed.

Lemma map_get_norm k m : map_get k (map norm_member m) = norm <$> map_get k m.
Proof. induction m as [|[k' w] m IH]; cbn; [done|]. by destruct (str_eqb k' k). Qed.

Lemma map_get_sorted k (m : list (str * Value)) : NoDup (map fst m) ->
  map_get k (merge_sort member_le m) = map_get k m.
Proof.
  intros Hn. symmetry. apply map_get_perm; [done|]. symmetry. apply merge_sort_Permutation.
Qed.

(** Equivalent objects have equivalent members. *)
Lemma norm_get k m m' : NoDup (map fst m) -> NoDup (map fst m') ->
  norm (Object m) = norm (Object m') -> norm <$> map_get k m = norm <$> map_get k m'.
Proof.
  intros Hn Hn' H. cbn [norm] in H. injection H as H. rewrite <- !map_get_norm.
  rewrite <- (map_get_sorted k (map norm_member m)), <- (map_get_sorted k (map norm_member m'))
    by by rewrite map_fst_norm. by rewrite H.
Qed.

Lemma names_NoDup (names : list str) : bool_decide (NoDup names) = true -> NoDup names.
Proof. by intros H%bool_decide_eq_true. Qed.

(** Read the members of two equivalent structs side by side. *)
Lemma norm_fields names m m' : NoDup (map fst m) -> NoDup (map fst m') ->
  norm (Object m) = norm (Object m') ->
  map (fun n => norm <$> map_get n m) names = map (fun n => norm <$> map_get n m') names.
Proof. intros Hn Hn' H. apply map_ext. intros n. by apply norm_get. Qed.

Module Injective.
Import Wire ReceiptWire.

(** The members of two equivalent structs, by name. *)
Ltac fields_of H names :=
  apply (norm_fields names) in H; [|apply names_NoDup; vm_compute; reflexivity..].

Lemma charter_inj c c' : norm (charter_to c) = norm (charter_to c') -> c = c'.
Proof. destruct c, c'. intros H. fields_of H charter_names. cbv -[norm] in H. by simplify_eq/=. Qed.

Lemma tool_calls_inj t t' : norm (tool_calls_to t) = norm (tool_calls_to t') -> t = t'.
Proof. destruct t, t'. intros H. fields_of H tool_calls_names. cbv -[norm] in H. by simplify_eq/=. Qed.

Lemma cost_inj c c' : norm (cost_to c) = norm (cost_to c') -> c = c'.
Proof. destruct c, c'. intros H. fields_of H cost_names. cbv -[norm] in H. by simplify_eq/=. Qed.

Lemma subject_inj s s' : norm (subject_to s) = norm (subject_to s') -> s = s'.
Proof.
  destruct s, s'; intros H; fields_of H (lit "kind" :: chain_names ++ atif_names);
    cbv -[norm] in H; by simplify_eq/=.
Qed.

Lemma agent_inj a a' : norm (agent_to a) = norm (agent_to a') -> a = a'.
Proof.
  destruct a as [v c i t], a' as [v' c' i' t']. intros H.
  assert (c = c') as ->.
  { apply charter_inj. destruct t, t'; fields_of H agent_names; cbv -[norm charter_to] in H; congruence. }
  destruct t, t'; fields_of H agent_names; cbv -[norm charter_to] in H; by simplify_eq/=.
Qed.

Lemma body_inj b b' : norm (body_to b) = norm (body_to b') -> b = b'.
Proof.
  destruct b as [v1 v2 v3 v4 v5 ag su tc co v10 v11 v12 v13],
    b' as [w1 w2 w3 w4 w5 ag' su' tc' co' w10 w11 w12 w13]. intros H.
  fields_of H body_names. cbv -[norm agent_to subject_to tool_calls_to cost_to] in H.
  assert (ag = ag') as -> by (apply agent_inj; congruence).
  assert (su = su') as -> by (apply subject_inj; congruence).
  assert (tc = tc') as -> by (apply tool_calls_inj; congruence).
  assert (co = co') as -> by (apply cost_inj; congruence).
  generalize dependent (norm (agent_to ag')). generalize dependent (norm (subject_to su')).
  generalize dependent (norm (tool_calls_to tc')). generalize dependent (norm (cost_to co')).
  intros ? ? ? ? H. cbn [norm] in H. congruence.
Qed.
End Injective.

(** The Rust types of a body: [String]s hold scalar values, integers their width. *)
Record body_typed (b : ReceiptBody) : Prop := {
  bt_ints : Forall is_u64 [rb_receipt_version b; rb_issued_at b; rb_stop_reason_id b;
    tc_total (rb_tool_calls b); tc_allowed (rb_tool_calls b); tc_blocked (rb_tool_calls b);
    cs_prompt_tokens (rb_cost b); cs_completion_tokens (rb_cost b); cs_cached_tokens (rb_cost b);
    cs_cost_usd_micros (rb_cost b); ch_type_id (ag_charter (rb_ai_agent b));
    match rb_subject b with EventChainSubject _ n => n | AtifTrajectorySubject _ n _ => n end;
    from_option id 0 (ag_ttl_remaining_s (rb_ai_agent b))];
  bt_texts : Forall (Forall is_scalar) [rb_receipt_id b; rb_session_id b; rb_issued_at_iso b;
    ag_version (rb_ai_agent b); ch_name (ag_charter (rb_ai_agent b));
    ag_instance_uid (rb_ai_agent b); subject_digest (rb_subject b); rb_stop_reason b; rb_key_id b;
    rb_public_key_b64 b];
}.

Definition scalar_text (s : str) : bool :=
  forallb (fun c => ((0 <=? c) && (c <=? 0xD7FF)) || ((0xE000 <=? c) && (c <=? 0x10FFFF))) s.

Lemma scalar_text_ok s : scalar_text s = true -> Forall is_scalar s.
Proof.
  unfold scalar_text. rewrite forallb_true_iff. intros Hs. eapply Forall_impl; [exact Hs|].
  unfold is_scalar. intros c H. apply orb_true_iff in H. rewrite !andb_true_iff, !Z.leb_le in H. tauto.
Qed.

Lemma int_member_doc k v : scalar_text (lit k) = true -> int_doc v -> int_member (lit k, v).
Proof. intros H Hv. split; [by apply scalar_text_ok|done]. Qed.

Lemma int_doc_u n : is_u64 n -> int_doc (ser_u n).
Proof. by intros H. Qed.

Lemma int_doc_s s : Forall is_scalar s -> int_doc (JString s).
Proof. by intros H. Qed.

Lemma int_doc_struct m : bool_decide (NoDup (map fst m)) = true -> Forall int_member m -> int_doc (Object m).
Proof. intros Hn Hm. apply int_doc_object. split; [by apply names_NoDup|done]. Qed.

(** A struct of literal names is an integer document when its members are. *)
Ltac int_struct :=
  apply int_doc_struct; [vm_compute; reflexivity|]; unfold member, opt_member; cbn [app];
  repeat (apply Forall_cons; split; [apply int_member_doc; [vm_compute; reflexivity|]|]);
  [try assumption; try (by apply int_doc_u); try (by apply int_doc_s)..|apply Forall_nil; exact I].

Lemma agent_int_doc a : is_u64 (ch_type_id (ag_charter a)) -> is_u64 (from_option id 0 (ag_ttl_remaining_s a)) ->
  Forall (Forall is_scalar) [ag_version a; ch_name (ag_charter a); ag_instance_uid a] ->
  int_doc (Wire.agent_to a).
Proof.
  intros Ht Hl. rewrite !Forall_cons. intros (Hv & Hc & Hi & _).
  assert (int_doc (Wire.charter_to (ag_charter a))) by int_struct.
  unfold Wire.agent_to. destruct (ag_ttl_remaining_s a); int_struct.
Qed.

Lemma subject_int_doc su :
  is_u64 (match su with EventChainSubject _ n => n | AtifTrajectorySubject _ n _ => n end) ->
  Forall is_scalar (subject_digest su) -> int_doc (ReceiptWire.subject_to su).
Proof.
  destruct su; cbn [subject_digest]; intros; int_struct; [by apply int_doc_s, scalar_text_ok..|done].
Qed.

Lemma body_int_doc b : body_typed b -> int_doc (ReceiptWire.body_to b).
Proof.
  intros [Hi Ht]. rewrite !Forall_cons in Hi. rewrite !Forall_cons in Ht. destruct_and! Hi. destruct_and! Ht.
  assert (int_doc (Wire.agent_to (rb_ai_agent b))) by (apply agent_int_doc; rewrite ?Forall_cons; auto).
  assert (int_doc (ReceiptWire.subject_to (rb_subject b))) by by apply subject_int_doc.
  assert (int_doc (ReceiptWire.tool_calls_to (rb_tool_calls b))) by int_struct.
  assert (int_doc (ReceiptWire.cost_to (rb_cost b))) by int_struct.
  unfold ReceiptWire.body_to, ReceiptWire.body_members. int_struct.
Qed.

Section Signed.
Context {R : Ryu}.

Lemma canonicalize_object_head m s : canonicalize (Object m) = Ok s -> exists t, s = 123 :: t.
Proof.
  unfold canonicalize. cbn [write_value]. destruct (too_deep 0); [done|].
  destruct (join_results _ _) as [body|]; [|done]. intros [= <-]. by eexists.
Qed.

(** The two framings. *)
Lemma signing_message_ok v c m : signing_message v c = Ok m <->
  v = 1 /\ m = as_bytes c \/
  v = 2 /\ m = RECEIPT_DOMAIN_TAG_V2 ++ u64_be_bytes (str_len c) ++ as_bytes c.
Proof.
  unfold signing_message. destruct (v =? 1) eqn:E1; b2p; [naive_solver lia|].
  destruct (v =? 2) eqn:E2; b2p; naive_solver lia.
Qed.

Lemma tag_head : exists x, RECEIPT_DOMAIN_TAG_V2 = 97 :: x.
Proof. eexists. vm_compute. reflexivity. Qed.

Lemma signing_message_inj v v' c c' m t t' : c = 123 :: t -> c' = 123 :: t' ->
  signing_message v c = Ok m -> signing_message v' c' = Ok m -> v = v' /\ as_bytes c = as_bytes c'.
Proof.
  intros -> ->. rewrite !signing_message_ok. intros [[-> ->]|[-> ->]] [[-> H]|[-> H]].
  - done.
  - destruct tag_head as [x Hx]. rewrite Hx in H. discriminate H.
  - destruct tag_head as [x Hx]. rewrite Hx in H. discriminate H.
  - split; [done|]. apply app_inv_head in H. apply app_inj_length in H as [_ ->]; done.
Qed.
End Signed.

(** A signature commits to one receipt.  If two well-typed bodies, of either
    version, are signed as the same bytes, they are the same body: no field, and
    not the version either, can be changed under a signature that was not made
    for the change. *)
Theorem signed_bytes_determine_body {R : Ryu} (b b' : ReceiptBody) (canon canon' : str) (msg : list Z) :
  body_typed b -> body_typed b' ->
  canonicalize (ReceiptWire.body_to b) = Ok canon ->
  canonicalize (ReceiptWire.body_to b') = Ok canon' ->
  signing_message (rb_receipt_version b) canon = Ok msg ->
  signing_message (rb_receipt_version b') canon' = Ok msg -> b = b'.
Proof.
  intros Hb%body_int_doc Hb'%body_int_doc Hc Hc' Hm Hm'.
  destruct (canonicalize_object_head _ _ Hc) as [t ->], (canonicalize_object_head _ _ Hc') as [t' ->].
  destruct (signing_message_inj _ _ _ _ _ t t' eq_refl eq_refl Hm Hm') as [_ Heq].
  apply Injective.body_inj, jeq_norm; [|apply Hb].
  eapply canonicalize_bytes_inj; eauto.
Qed.

(** * The wire text shows what was signed *)

(** No [null] and no array anywhere. *)
Fixpoint no_null (v : Value) : bool :=
  match v with
  | Null => false
  | Array l => forallb no_null l
  | Object m => forallb (fun kv => match kv with (_, x) => no_null x end) m
  | _ => true
  end.

Fixpoint no_array (v : Value) : bool :=
  match v with
  | Array _ => false
  | Object m => forallb (fun kv => match kv with (_, x) => no_array x end) m
  | _ => true
  end.

Module Shown.
Import Wire ReceiptWire.

Lemma collect_ok {A} (l : list (option A)) r : collect l = Some r -> l = map Some r.
Proof.
  revert r. induction l as [|[a|] l IH]; cbn; intros r; [by intros [= <-]| |done].
  destruct (collect l); [|done]. intros [= <-]. cbn. f_equal. by apply IH.
Qed.

Lemma checked_members_ok l acc m : NoDup (map fst acc) -> checked_members l acc = Some m ->
  exists vs, l = map (fun kv => (kv.1, Some kv.2)) vs /\ m = acc ++ vs /\ NoDup (map fst m).
Proof.
  revert acc. induction l as [|[k [v|]] l IH]; intros acc Hn; cbn.
  - intros [= <-]. exists []. by rewrite app_nil_r.
  - unfold contains_key. destruct (map_get k acc) eqn:Eg; [done|]. apply map_get_None in Eg.
    rewrite map_insert_fresh by done. intros H. apply IH in H as (vs & -> & -> & Hm).
    + exists ((k, v) :: vs). rewrite <- app_assoc. split; [done|]. split; [done|]. by rewrite <- app_assoc in Hm.
    + rewrite map_app. cbn. apply NoDup_app. split_and!; [done| |apply NoDup_singleton].
      intros x Hx Hx'%list_elem_of_singleton. by subst.
  - by destruct (contains_key k acc).
Qed.

(** What is checked reads the same whichever of two equal names a decoder keeps. *)
Definition reads (r : Raw) (v : Value) : Prop := last_wins r = v /\ first_wins r = v.

Lemma reads_items items vs : Forall (fun r => forall v, checked r = Some v -> reads r v) items ->
  map checked items = map Some vs -> map last_wins items = vs /\ map first_wins items = vs.
Proof.
  revert vs. induction items as [|x items IH]; intros [|v vs] Hall; try done.
  apply Forall_cons in Hall as [Hx Hall]. intros [= Hv Hvs]. destruct (Hx v Hv) as [H1 H2].
  destruct (IH vs Hall Hvs) as [H3 H4]. cbn. by rewrite H1, H2, H3, H4.
Qed.

Lemma reads_members members vs :
  Forall (fun kr => forall v, checked kr.2 = Some v -> reads kr.2 v) members ->
  map (fun kr => match kr with (k, x) => (k, checked x) end) members =
    map (fun kv => (kv.1, Some kv.2)) vs ->
  map (keyed last_wins) members = vs /\ map (keyed first_wins) members = vs.
Proof.
  revert vs. induction members as [|[k x] members IH]; intros [|[k' v] vs] Hall; try done.
  apply Forall_cons in Hall as [Hx Hall]. intros [= -> Hv Hvs]. destruct (Hx v Hv) as [H1 H2].
  destruct (IH vs Hall Hvs) as [H3 H4]. cbn [map keyed]. cbn in H1, H2. by rewrite H1, H2, H3, H4.
Qed.

Lemma reads_object members vs stop : NoDup (map fst vs) ->
  map (keyed last_wins) members = vs /\ map (keyed first_wins) members = vs ->
  reads (RMap members stop) (Object vs).
Proof.
  intros Hn [H1 H2]. unfold reads. cbn [last_wins first_wins].
  change (fun kr : str * Raw => match kr with (k, x) => (k, first_wins x) end) with (keyed first_wins).
  change (fun kr : str * Raw => match kr with (k, x) => (k, last_wins x) end) with (keyed last_wins).
  rewrite H1, H2, !fold_fresh; try done.
  - intros m [k v] Hf. unfold insert_if_absent. by rewrite contains_fresh.
  - intros m [k v] Hf. by rewrite map_insert_fresh.
Qed.

Lemma checked_reads r v : checked r = Some v -> reads r v.
Proof.
  revert v. induction r as [w|items stop IH|members stop IH|msg] using raw_ind'; intros v; cbn [checked].
  - destruct w; try done; by intros [= <-].
  - destruct stop; [done|]. destruct (collect _) as [vs|] eqn:Ec; [|done]. intros [= <-].
    apply collect_ok, reads_items in Ec as [H1 H2]; [|done]. unfold reads. cbn. by rewrite H1, H2.
  - destruct stop; [done|]. destruct (checked_members _ []) as [m|] eqn:Ec; [|done]. intros [= <-].
    apply checked_members_ok in Ec as (vs & Hvs & -> & Hn); [|constructor].
    apply reads_members in Hvs; [|done]. by apply reads_object.
  - done.
Qed.

(** ... and holds no [null]. *)
Lemma checked_no_null r v : checked r = Some v -> no_null v = true.
Proof.
  revert v. induction r as [w|items stop IH|members stop IH|msg] using raw_ind'; intros v; cbn [checked].
  - destruct w; try done; by intros [= <-].
  - destruct stop; [done|]. destruct (collect _) as [vs|] eqn:Ec; [|done]. intros [= <-].
    apply collect_ok in Ec. cbn [no_null]. revert vs Ec.
    induction IH as [|x l Hx _ IH2]; intros [|v vs]; try done. intros [= Hv Ec]. cbn [forallb].
    by rewrite (Hx v Hv), (IH2 vs Ec).
  - destruct stop; [done|]. destruct (checked_members _ []) as [m|] eqn:Ec; [|done]. intros [= <-].
    apply checked_members_ok in Ec as (vs & Ec & -> & _); [|constructor]. cbn [no_null app].
    revert vs Ec. induction IH as [|[k x] l Hx _ IH2]; intros [|[k' v] vs]; try done.
    intros [= -> Hv Ec]. cbn [forallb]. cbn in Hx. by rewrite (Hx v Hv), (IH2 vs Ec).
  - done.
Qed.

(** The members of an object whose names are known, listed in the order of the
    names. *)
Definition listing (names : list str) (m : list (str * Value)) : list (str * Value) :=
  omap (fun n => pair n <$> map_get n m) names.

Lemma listing_elem names m k v : NoDup (map fst m) ->
  (k, v) ∈ listing names m <-> k ∈ names /\ (k, v) ∈ m.
Proof.
  intros Hn. unfold listing. rewrite list_elem_of_omap. split.
  - intros (n & Hin & Hg). destruct (map_get n m) as [w|] eqn:Eg; [|done]. injection Hg as -> ->.
    split; [done|]. by apply map_get_elem.
  - intros [Hk Hin]. exists k. split; [done|]. by rewrite (proj2 (map_get_elem k v m Hn)).
Qed.

Lemma listing_fst names m : map fst (listing names m) `sublist_of` names.
Proof.
  unfold listing. induction names as [|n names IH]; [constructor|]. cbn.
  destruct (map_get n m); cbn; by constructor.
Qed.

Lemma listing_perm names m : NoDup names -> NoDup (map fst m) ->
  forallb (fun kv => known names kv.1) m = true -> m ≡ₚ listing names m.
Proof.
  intros Hnames Hm Hk. rewrite forallb_forall in Hk. apply NoDup_Permutation.
  - by eapply NoDup_fmap_1.
  - eapply NoDup_fmap_1 with (f := fst). eapply sublist_NoDup; [exact Hnames|apply listing_fst].
  - intros [k v]. rewrite listing_elem by done. split; [|tauto]. intros Hin. split; [|done].
    apply known_iff, (Hk (k, v)). by apply list_elem_of_In.
Qed.

(** A struct read from an object is that object with its members listed. *)
Lemma strict_listing names m fs : bool_decide (NoDup names) = true -> NoDup (map fst m) ->
  strict_fields names (Object m) = Some fs ->
  jeq (Object m) (Object (listing names m)) /\ fs = map (fun n => map_get n m) names.
Proof.
  intros Hn Hm. cbn. destruct (forallb _ m) eqn:Ek; [|done]. intros [= <-]. split; [|done].
  apply jeq_perm, listing_perm; [by apply names_NoDup|done|done].
Qed.

(** A document of objects and scalars, as the types and the reader leave it. *)
Definition clean (v : Value) : Prop := value_wf v /\ no_array v = true /\ no_null v = true.

Lemma clean_get m k v : clean (Object m) -> map_get k m = Some v -> clean v.
Proof.
  intros (Hw & Ha & Hn) Hg. apply map_get_In in Hg. apply value_wf_object in Hw as [_ Hw].
  rewrite Forall_forall in Hw. cbn in Ha, Hn. rewrite forallb_forall in Ha, Hn.
  split; [by apply (Hw (k, v))|]. apply list_elem_of_In in Hg. split; [by apply (Ha (k, v))|by apply (Hn (k, v))].
Qed.

Lemma clean_keys m : clean (Object m) -> NoDup (map fst m).
Proof. intros [Hw _]. by apply value_wf_object in Hw as [? _]. Qed.

Lemma clean_not_null v : clean v -> v <> Null.
Proof. by intros (_ & _ & H) ->. Qed.

Lemma forallb_filter {A} (f g : A -> bool) l : forallb f l = true -> forallb f (List.filter g l) = true.
Proof.
  rewrite !forallb_forall. intros H x Hx. apply filter_In in Hx as [Hx _]. by apply H.
Qed.

Lemma filter_NoDup_fst f (m : list (str * Value)) : NoDup (map fst m) -> NoDup (map fst (List.filter f m)).
Proof.
  induction m as [|[k v] m IH]; cbn; [done|]. rewrite NoDup_cons. intros [Hk Hn].
  destruct (f (k, v)); cbn; [|by apply IH]. apply NoDup_cons. split; [|by apply IH].
  intros (kv & -> & Hin)%list_elem_of_fmap. apply Hk. apply list_elem_of_In, filter_In in Hin as [Hin _].
  apply list_elem_of_In, in_map, Hin.
Qed.

Lemma clean_filter f m : clean (Object m) -> clean (Object (List.filter f m)).
Proof.
  intros (Hw & Ha & Hn). split; [|split; by apply forallb_filter].
  apply value_wf_object in Hw as [Hnd Hw]. apply value_wf_object. split; [by apply filter_NoDup_fst|].
  rewrite Forall_forall in Hw. apply Forall_forall. intros x Hx. apply Hw.
  apply list_elem_of_In, filter_In in Hx as [Hx _]. by apply list_elem_of_In.
Qed.

Lemma ap_opt_Some {A B} (f : option (A -> B)) x y :
  f <*> x = Some y -> exists g a, f = Some g /\ x = Some a /\ y = g a.
Proof. destruct f, x; cbn; try done. intros [= <-]. by do 2 eexists. Qed.

Lemma required_str o s : required de_str o = Some s -> o = Some (JString s).
Proof. destruct o as [[]|]; cbn; try done. by intros [= <-]. Qed.

Lemma required_uint max o n : required (de_uint max) o = Some n -> o = Some (ser_u n).
Proof.
  destruct o as [[| |[u|?|?]| | |]|]; cbn; try done. destruct (u <=? max); [|done]. by intros [= <-].
Qed.

Lemma required_bool o b : required de_bool o = Some b -> o = Some (Bool b).
Proof. destruct o as [[]|]; cbn; try done. by intros [= <-]. Qed.

Lemma optional_uint max o r : (forall v, o = Some v -> v <> Null) ->
  optional (de_uint max) o = Some r -> o = ser_u <$> r.
Proof.
  intros Hnn. destruct o as [v|]; [|by intros [= <-]].
  assert (optional (de_uint max) (Some v) = Some <$> de_uint max v) as -> .
  { destruct v; try done. by destruct (Hnn Null eq_refl). }
  destruct v as [| |[u|?|?]| | |]; cbn; try done. destruct (u <=? max); [|done]. by intros [= <-].
Qed.

(** Take apart the reading of a struct: every field was there. *)
Ltac ap_inv :=
  repeat match goal with
  | H : _ <*> _ = Some _ |- _ => apply ap_opt_Some in H as (? & ? & ? & ? & ?)
  | H : _ <$> _ = Some _ |- _ => apply fmap_Some in H as (? & ? & ?)
  | H : required de_str _ = Some _ |- _ => apply required_str in H
  | H : required (de_uint _) _ = Some _ |- _ => apply required_uint in H
  | H : required de_bool _ = Some _ |- _ => apply required_bool in H
  end; subst.

Lemma shown_struct names m fs : bool_decide (NoDup names) = true -> clean (Object m) ->
  strict_fields names (Object m) = Some fs ->
  jeq (Object m) (Object (listing names m)) /\ fs = map (fun n => map_get n m) names.
Proof. intros Hn Hc. apply strict_listing; [done|by apply clean_keys]. Qed.

Lemma strict_object names v fs : no_array v = true -> strict_fields names v = Some fs -> exists m, v = Object m.
Proof. destruct v; try done. by eexists. Qed.

(** Open the reading [Es] of a struct from the clean document [v]: the document is
    an object, equivalent to the listing of its fields. *)
Ltac open_struct Hc Es H m Hj names :=
  let Ho := fresh in
  destruct (strict_object _ _ _ (proj1 (proj2 Hc)) Es) as [m Ho]; subst;
  apply shown_struct in Es as [Hj ->]; [|vm_compute; reflexivity|done];
  unfold names in H; cbn [map] in H; ap_inv;
  etrans; [exact Hj|]; unfold listing, names; cbn [omap list_omap];
  repeat match goal with E : map_get _ _ = Some _ |- _ => rewrite E; revert E end; intros; cbn [fmap option_fmap option_map].

Ltac same_members := apply (jeq_members _ _ []); repeat (constructor; [split; [reflexivity|first [assumption|reflexivity]]|]); constructor.

Lemma charter_shown v c : clean v -> charter_from v = Some c -> jeq v (charter_to c).
Proof.
  unfold charter_from. intros Hc H. destruct (strict_fields charter_names v) as [fs|] eqn:Es; [|done].
  open_struct Hc Es H m Hj charter_names. reflexivity.
Qed.

Lemma tool_calls_shown v t : clean v -> tool_calls_from v = Some t -> jeq v (tool_calls_to t).
Proof.
  unfold tool_calls_from. intros Hc H. destruct (strict_fields tool_calls_names v) as [fs|] eqn:Es; [|done].
  open_struct Hc Es H m Hj tool_calls_names. reflexivity.
Qed.

Lemma cost_shown v c : clean v -> cost_from v = Some c -> jeq v (cost_to c).
Proof.
  unfold cost_from. intros Hc H. destruct (strict_fields cost_names v) as [fs|] eqn:Es; [|done].
  open_struct Hc Es H m Hj cost_names. reflexivity.
Qed.

Lemma required_Some {A} (f : Value -> option A) o a : required f o = Some a ->
  exists v, o = Some v /\ f v = Some a.
Proof. destruct o as [v|]; cbn; [by exists v|done]. Qed.

Lemma agent_shown v a : clean v -> agent_from v = Some a -> jeq v (agent_to a).
Proof.
  unfold agent_from. intros Hc H. destruct (strict_fields agent_names v) as [fs|] eqn:Es; [|done].
  open_struct Hc Es H m Hj agent_names.
  match goal with E : required charter_from _ = Some _ |- _ => apply required_Some in E as (cv & Hg & Hcv) end.
  match goal with E : optional _ _ = Some _ |- _ => apply optional_uint in E as Hgt;
    [|intros w Hw; by eapply clean_not_null, clean_get] end.
  rewrite Hg, Hgt. apply charter_shown in Hcv; [|by eapply clean_get].
  unfold agent_to, member, opt_member. cbn [ag_version ag_charter ag_instance_uid ag_ttl_remaining_s].
  match goal with |- context [ser_u <$> ?t] => destruct t end; cbn [fmap option_fmap option_map app]; same_members.
Qed.

Lemma map_get_filter_ne k k' m : k <> k' ->
  map_get k (List.filter (fun kv => negb (str_eqb kv.1 k')) m) = map_get k m.
Proof.
  intros Hne. induction m as [|[k0 w] m IH]; cbn; [done|].
  destruct (str_eqb k0 k') eqn:E; cbn; rewrite IH; [|done].
  apply str_eqb_eq in E as ->. by rewrite (proj2 (str_eqb_neq _ _)).
Qed.

(** Taking one member out of an object and listing the rest. *)
Lemma split_member key names m v fs :
  bool_decide (NoDup (key :: names)) = true -> clean (Object m) -> map_get key m = Some v ->
  strict_fields names (Object (List.filter (fun kv => negb (str_eqb kv.1 key)) m)) = Some fs ->
  jeq (Object m) (Object ((key, v) :: listing names m)) /\ fs = map (fun n => map_get n m) names.
Proof.
  intros Hn Hc Hg. pose proof (names_NoDup _ Hn) as Hnd. cbn [strict_fields].
  destruct (forallb _ _) eqn:Ek; [|done]. intros [= <-]. split.
  - assert ((key, v) :: listing names m = listing (key :: names) m) as ->.
    { unfold listing. cbn. by rewrite Hg. }
    apply jeq_perm, listing_perm; [done|by apply clean_keys|].
    rewrite forallb_forall in Ek. apply forallb_forall. intros [k w] Hin. apply known_iff, elem_of_cons.
    destruct (str_eqb k key) eqn:E; [left; by apply str_eqb_eq|right]. apply known_iff, (Ek (k, w)).
    apply filter_In. split; [done|]. cbn. by rewrite E.
  - apply NoDup_cons in Hnd as [Hk _]. apply map_ext_Forall, Forall_forall. intros n Hin.
    apply map_get_filter_ne. by intros ->.
Qed.

Lemma subject_shown v s : clean v -> subject_from v = Some s -> jeq v (subject_to s).
Proof.
  unfold subject_from. intros Hc H. destruct (untag v) as [[t rest]|] eqn:Eu; [|done].
  destruct v as [| | | |items|m]; try done; [by destruct Hc as (_ & ? & _)|]. cbn [untag] in Eu.
  destruct (map_get (lit "kind") m) as [[| | |t0| |]|] eqn:Ek; try done. injection Eu as -> <-.
  destruct (str_eqb t (lit "event_chain")) eqn:E1; [|destruct (str_eqb t (lit "atif_trajectory")) eqn:E2; [|done]].
  - apply str_eqb_eq in E1 as ->. destruct (strict_fields chain_names _) as [fs|] eqn:Es; [|done].
    apply (split_member _ _ _ (JString (lit "event_chain"))) in Es as [Hj ->]; [|vm_compute; reflexivity|done..].
    unfold chain_names in H. cbn [map] in H. ap_inv. etrans; [exact Hj|]. unfold listing, chain_names. cbn [omap list_omap].
    repeat match goal with E : map_get _ _ = Some _ |- _ => rewrite E; clear E end. reflexivity.
  - apply str_eqb_eq in E2 as ->. destruct (strict_fields atif_names _) as [fs|] eqn:Es; [|done].
    apply (split_member _ _ _ (JString (lit "atif_trajectory"))) in Es as [Hj ->]; [|vm_compute; reflexivity|done..].
    unfold atif_names in H. cbn [map] in H. ap_inv. etrans; [exact Hj|]. unfold listing, atif_names. cbn [omap list_omap].
    repeat match goal with E : map_get _ _ = Some _ |- _ => rewrite E; clear E end. reflexivity.
Qed.

Ltac get_nested E := apply required_Some in E as (? & ? & E).

Lemma body_shown v b : clean v -> body_from v = Some b -> jeq v (body_to b).
Proof.
  unfold body_from. intros Hc H. destruct (strict_fields body_names v) as [fs|] eqn:Es; [|done].
  open_struct Hc Es H m Hj body_names.
  repeat match goal with
  | E : required agent_from _ = Some _ |- _ => get_nested E; apply agent_shown in E; [|by eapply clean_get]
  | E : required subject_from _ = Some _ |- _ => get_nested E; apply subject_shown in E; [|by eapply clean_get]
  | E : required tool_calls_from _ = Some _ |- _ => get_nested E; apply tool_calls_shown in E; [|by eapply clean_get]
  | E : required cost_from _ = Some _ |- _ => get_nested E; apply cost_shown in E; [|by eapply clean_get]
  end.
  repeat match goal with E : map_get _ _ = Some _ |- _ => rewrite E; clear E end.
  cbn [fmap option_fmap option_map]. unfold body_to, body_members, member. cbn [app]. same_members.
Qed.

(** * Reading *)

Section Reading.
Context {UT : UnicodeTables} {SJ : SerdeJson} {JR : JsonReader}.

Lemma from_json_slice_ok bytes r : from_json_slice bytes = Ok r ->
  no_dup 0 (scan bytes) = Ok tt /\ receipt_visit (scan bytes) = Some r /\ end_error bytes = None.
Proof.
  unfold from_json_slice, check_no_duplicate_keys, receipt_from_slice.
  destruct (no_dup 0 (scan bytes)) as [[]|] eqn:En.
  - destruct (receipt_visit (scan bytes)); [|done]. destruct (end_error bytes); [done|]. by intros [= ->].
  - destruct (strip_prefix _ _); [done|]. by destruct (contains _ _).
Qed.
End Reading.

Lemma receipt_visit_ok raw r : receipt_visit raw = Some r ->
  exists m, reads raw (Object m) /\ no_null (Object m) = true /\
    forallb (fun kv => known ALLOWED_RECEIPT_TOP_LEVEL_KEYS kv.1) m = true /\
    map_get (lit "signature_b64") m = Some (JString (rc_signature_b64 r)) /\
    body_from (Object (List.filter (fun kv => negb (str_eqb kv.1 (lit "signature_b64"))) m)) = Some (rc_body r).
Proof.
  unfold receipt_visit. destruct raw as [| |members stop|]; try done. destruct stop; [done|].
  destruct (forallb _ members) eqn:Ek; [|done]. cbn [negb].
  destruct (checked_members _ []) as [m|] eqn:Ec; [|done].
  destruct (required de_str _) as [sig|] eqn:Eg; [|done]. destruct (body_from _) as [body|] eqn:Eb; [|done].
  intros [= <-]. cbn [rc_body rc_signature_b64]. exists m.
  assert (checked (RMap members None) = Some (Object m)) as Hch by (cbn [checked]; by rewrite Ec).
  split_and!; [by apply checked_reads|by eapply checked_no_null| |by apply required_str|done].
  apply checked_members_ok in Ec as (vs & Hvs & -> & _); [|constructor]. cbn [app].
  clear Eg Eb Hch. revert vs Hvs. induction members as [|[k x] members IH]; intros [|[k' v] vs]; try done.
  intros [= -> _ Hvs]. cbn in Ek |- *. apply andb_prop in Ek as [-> Ek]. by apply IH.
Qed.
End Shown.

(** C34. A receipt shows what was signed.  When the wire text of a receipt is
    accepted, every decoder reads the same document from it, whichever of two
    equal names it keeps; the document has only declared members and no [null];
    and if it is written with objects (as every issuer writes it), the canonical
    text of the document without its signature is the canonical text of the body,
    the one the signature covers: nothing a reader sees escapes the signature. *)
Theorem receipt_shows_what_is_signed {UT : UnicodeTables} {SJ : SerdeJson} {JR : JsonReader} {R : Ryu}
    (bytes : list Z) (r : Receipt) :
  from_json_slice bytes = Ok r -> value_wf (last_wins (scan bytes)) ->
  exists m, last_wins (scan bytes) = Object m /\ first_wins (scan bytes) = Object m /\
    no_null (Object m) = true /\
    (forall k v, (k, v) ∈ m -> k ∈ ReceiptWire.ALLOWED_RECEIPT_TOP_LEVEL_KEYS) /\
    map_get (lit "signature_b64") m = Some (JString (rc_signature_b64 r)) /\
    (no_array (Object m) = true ->
     canonicalize (Object (List.filter (fun kv => negb (str_eqb kv.1 (lit "signature_b64"))) m)) =
     canonicalize (ReceiptWire.body_to (rc_body r))).
Proof.
  intros H Hw. apply Shown.from_json_slice_ok in H as (_ & Hv & _).
  apply Shown.receipt_visit_ok in Hv as (m & [Hl Hf] & Hn & Hk & Hs & Hb). rewrite Hl in Hw.
  exists m. split_and!; try done.
  - intros k v Hin. rewrite forallb_forall in Hk. apply known_iff, (Hk (k, v)). by apply list_elem_of_In.
  - intros Ha. assert (Shown.clean (Object (List.filter (fun kv => negb (str_eqb kv.1 (lit "signature_b64"))) m))) as Hc.
    { apply Shown.clean_filter. by split. }
    apply Shown.body_shown in Hb; [|done]. unfold canonicalize.
    rewrite !write_value_norm; [by rewrite (jeq_norm _ _ Hb) by apply Hc| |apply Hc].
    rewrite <- (jeq_wf _ _ Hb). apply Hc.
Qed.

(** * Concrete receipts *)

(** The events of a document. *)
Fixpoint to_raw (v : Value) : Raw :=
  match v with
  | Array l => RSeq (map to_raw l) None
  | Object m => RMap (map (fun kv => match kv with (k, x) => (k, to_raw x) end) m) None
  | _ => RLeaf v
  end.

Module ReceiptSample.

(** Two keys, one of them weak; a signature is the toy digest of the message
    followed by the key's encoding. *)
Definition key_bytes (k : bool) : list Z := replicate 32 (if k then 2 else 1).

Definition toy_vk_from (bytes : list Z) : result bool str :=
  if bool_decide (bytes = key_bytes true) then Ok true
  else if bool_decide (bytes = key_bytes false) then Ok false
  else Err (lit "bad point").

Definition toy_ed : Ed25519 :=
  {| SigningKey := bool; VerifyingKey := bool;
     signing_from_bytes b := bool_decide (hd 0 b = 2); signing_to_bytes := key_bytes;
     verifying_key k := k;
     vk_from_bytes := toy_vk_from; vk_as_bytes := key_bytes;
     is_weak := negb;
     ed_sign k m := toy_digest m ++ key_bytes k;
     verify_strict k m s := bool_decide (s = toy_digest m ++ key_bytes k) |}.

Lemma key_bytes_byte k : Forall (fun b => 0 <= b < 256) (key_bytes k).
Proof. apply Forall_replicate. destruct k; lia. Qed.

Lemma toy_ed_laws : Ed25519Laws toy_ed.
Proof.
  split; cbn [vk_as_bytes vk_from_bytes ed_sign verify_strict verifying_key is_weak toy_ed].
  - intros k. apply length_replicate.
  - apply key_bytes_byte.
  - by intros [].
  - intros bytes k. unfold toy_vk_from. destruct (bool_decide (bytes = _)) eqn:E1; b2p; [by intros [= <-]|].
    destruct (bool_decide (bytes = _)) eqn:E2; b2p; [by intros [= <-]|done].
  - intros k m. rewrite length_app, toy_digest_length. by destruct k.
  - intros k m. apply Forall_app. split; [apply toy_digest_byte|apply key_bytes_byte].
  - intros k m _. by apply bool_decide_eq_true.
Qed.

Lemma byte_is_scalar bs : Forall (fun b => 0 <= b < 256) bs -> Forall is_scalar bs.
Proof. intros H. eapply Forall_impl; [exact H|]. unfold is_scalar. cbn. lia. Qed.

Definition toy_b64 : Base64 :=
  {| b64_encode bs := bs; b64_decode s := Some s; b64_roundtrip _ _ := eq_refl; b64_scalar := byte_is_scalar |}.

Definition signer : @Ed25519Signer toy_ed := @from_seed toy_sha256 toy_ed [2].

Definition draft : ReceiptBody :=
  new_body 1750000000123 (lit "r-1") (lit "s-1") EventSample.agent
    (EventChainSubject (replicate 64 97) 3) (mkToolCalls 2 1 1) (mkCost 120 40 0 1500) StopReason.Stop.

Definition issued : result Receipt ReceiptError :=
  @issue ascii_tables toy_ryu toy_sha256 toy_ed toy_b64 draft (@as_signer toy_ed signer).

Definition receipt : Receipt :=
  match issued with Ok r => r | Err _ => mkReceipt draft [] end.

Lemma issued_ok : issued = Ok receipt.
Proof. vm_compute. reflexivity. Qed.

Definition ring : @Keyring toy_ed := (@add_signer toy_sha256 toy_ed (@as_signer toy_ed signer) ∅).1.

Lemma ring_ok : @add_signer toy_sha256 toy_ed (@as_signer toy_ed signer) ∅ =
  (ring, Ok (@es_key_id toy_ed signer)).
Proof. apply snd_eq_pair. vm_compute. reflexivity. Qed.

(** The same receipt with its cost written as an array. *)
Definition with_array_cost (v : Value) : Value :=
  value_insert (lit "cost") (Array [ser_u 120; ser_u 40; ser_u 0; ser_u 1500]) v.

Definition events (bytes : list Z) : Raw :=
  let v := ReceiptWire.receipt_to receipt in
  to_raw (if bool_decide (bytes = [1]) then with_array_cost v else v).

Definition serde : SerdeJson := {| from_bytes b := Ok (last_wins (events b)); to_string _ := [] |}.

Lemma events_ok raw v : @from_bytes serde raw = Ok v -> v = last_wins (events raw).
Proof. by intros [= <-]. Qed.

Definition reader : @JsonReader serde :=
  {| scan := events; end_error _ := None; custom_error _ msg := msg;
     custom_error_prefix _ msg := eq_trans (f_equal (starts_with msg) (eq_sym (app_nil_r msg))) (starts_with_app msg []);
     from_bytes_scan := events_ok |}.

Lemma read_ok : @from_json_slice ascii_tables serde reader [0] = Ok receipt.
Proof. vm_compute. reflexivity. Qed.

(** A nested struct written as an array is read as the same receipt: the accepted
    texts of one signed body are not only reorderings of its members. *)
Example array_form_is_read :
  @from_json_slice ascii_tables serde reader [1] = Ok receipt /\
  no_array (last_wins (events [1])) = false.
Proof. vm_compute. split; reflexivity. Qed.
End ReceiptSample.

Lemma issued_receipts_verify_witness :
  @verify ascii_tables toy_ryu toy_sha256 ReceiptSample.toy_ed ReceiptSample.toy_b64
    (@add_keys toy_sha256 ReceiptSample.toy_ed [replicate 32 1; replicate 32 2] ReceiptSample.ring)
    ReceiptSample.receipt = Ok tt.
Proof.
  exact (proj2 (proj1 (@issued_receipts_verify ascii_tables toy_ryu toy_sha256 ReceiptSample.toy_ed
           ReceiptSample.toy_b64 ReceiptSample.toy_ed_laws ReceiptSample.signer ReceiptSample.draft ∅
           ReceiptSample.ring (@es_key_id ReceiptSample.toy_ed ReceiptSample.signer)
           [replicate 32 1; replicate 32 2] eq_refl ReceiptSample.ring_ok)
           ReceiptSample.receipt ReceiptSample.issued_ok)).
Defined.

Lemma sample_verifies :
  @verify ascii_tables toy_ryu toy_sha256 ReceiptSample.toy_ed ReceiptSample.toy_b64
    (@add_keys toy_sha256 ReceiptSample.toy_ed [replicate 32 2] ∅) ReceiptSample.receipt = Ok tt.
Proof. vm_compute. reflexivity. Qed.

Lemma verified_receipt_authentic_witness : semantic (rc_body ReceiptSample.receipt).
Proof.
  destruct (@verified_receipt_authentic ascii_tables toy_ryu toy_sha256 ReceiptSample.toy_ed
              ReceiptSample.toy_b64 ReceiptSample.toy_ed_laws [replicate 32 2] ReceiptSample.receipt
              sample_verifies) as (vk & c & m & s & e & _ & _ & _ & _ & _ & _ & _ & _ & Hs).
  exact Hs.
Defined.

Lemma sample_body_typed : body_typed (rc_body ReceiptSample.receipt).
Proof.
  split.
  - repeat (apply Forall_cons; split; [vm_compute; split; discriminate|]). apply Forall_nil. exact I.
  - repeat (apply Forall_cons; split; [apply scalar_text_ok; vm_compute; reflexivity|]). apply Forall_nil. exact I.
Qed.

Definition sample_canon : str :=
  match @canonicalize toy_ryu (ReceiptWire.body_to (rc_body ReceiptSample.receipt)) with
  | Ok c => c | Err _ => [] end.

Lemma sample_canon_ok :
  @canonicalize toy_ryu (ReceiptWire.body_to (rc_body ReceiptSample.receipt)) = Ok sample_canon.
Proof. vm_compute. reflexivity. Qed.

(** Any well-typed body signed as the sample's bytes is the sample. *)
Lemma signed_bytes_determine_body_witness :
  rc_body ReceiptSample.receipt = rc_body ReceiptSample.receipt.
Proof.
  exact (@signed_bytes_determine_body toy_ryu
           (rc_body ReceiptSample.receipt) (rc_body ReceiptSample.receipt) sample_canon sample_canon
           (RECEIPT_DOMAIN_TAG_V2 ++ u64_be_bytes (str_len sample_canon) ++ as_bytes sample_canon)
           sample_body_typed sample_body_typed sample_canon_ok sample_canon_ok eq_refl eq_refl).
Defined.

Lemma sample_document : last_wins (ReceiptSample.events [0]) = ReceiptWire.receipt_to ReceiptSample.receipt.
Proof. vm_compute. reflexivity. Qed.

Lemma sample_document_wf : value_wf (last_wins (ReceiptSample.events [0])).
Proof.
  rewrite sample_document.
  assert (int_doc (ReceiptWire.receipt_to ReceiptSample.receipt)) as [Hw _]; [|exact Hw].
  pose proof (body_int_doc _ sample_body_typed) as H. apply int_doc_object in H as [_ H].
  apply int_doc_struct; [vm_compute; reflexivity|]. apply Forall_app. split; [exact H|].
  apply Forall_singleton, int_member_doc; [vm_compute; reflexivity|].
  apply int_doc_s, scalar_text_ok. vm_compute. reflexivity.
Qed.

Lemma receipt_shows_what_is_signed_witness :
  first_wins (ReceiptSample.events [0]) = last_wins (ReceiptSample.events [0]).
Proof.
  destruct (@receipt_shows_what_is_signed ascii_tables ReceiptSample.serde ReceiptSample.reader toy_ryu
              [0] ReceiptSample.receipt ReceiptSample.read_ok
              sample_document_wf) as (m & Hl & Hf & _).
  exact (eq_trans Hf (eq_sym Hl)).
Defined.
