(* ===== verification/Journal.v ===== *)
(** [av-harness/src/journal.rs]: authenticated envelopes of the crash journals, and
    what they guarantee: an envelope opens only for the domain and position it was
    sealed for, and no receipt signature doubles as the journal key. *)

From S2P Require Import Prelude Rust CoreBase Json Core Rpc Jcs JcsProofs Compress CompressProofs Serde Events.
From S2P Require Import EventsProofs Receipts ReceiptsProofs.

Module Journal.

Definition LIFECYCLE_OUTBOX_DOMAIN : str := lit "lifecycle-outbox".
Definition TOOL_INTENT_DOMAIN : str := lit "tool-intent".
Definition TOOL_OUTCOME_DOMAIN : str := lit "tool-outcome".
Definition TOOL_AUDITED_DOMAIN : str := lit "tool-audited".

Definition RECEIPT_OUTBOX_KIND : str := lit "receipt".
Definition SESSION_CLOSE_OUTBOX_KIND : str := lit "session-close".
Definition SESSION_QUARANTINE_OUTBOX_KIND : str := lit "session-quarantine".

Record Envelope := mkEnvelope { en_index : Z; en_payload : Value; en_mac : str }.

(** The errors of [open]; those of [serde_json] carry no modelled text. *)
Inductive JournalError :=
| JSerde
| JCanonical (e : JcsError)
| JMacTooLong (len : Z)
| JHex
| JAuthentication
| JPosition.

(** * Envelopes on the wire *)

Definition envelope_names : list str := [lit "index"; lit "payload"; lit "mac"].

Definition envelope_to (e : Envelope) : Value :=
  Object (member "index" (ser_u (en_index e)) ++ member "payload" (en_payload e)
          ++ member "mac" (JString (en_mac e))).

(** The derived reader ignores unknown members and refuses a field given twice;
    an array of the three fields is read as well. *)
Definition envelope_fields (v : Value) : option (list (option Value)) :=
  match v with
  | Object m => Some (map (fun n => map_get n m) envelope_names)
  | Array l => if Nat.eqb (length l) 3 then Some (map Some l) else None
  | _ => None
  end.

Definition repeats_field (r : Raw) : bool :=
  match r with
  | RMap members _ =>
      negb (bool_decide (NoDup (List.filter (known envelope_names) (map fst members))))
  | _ => false
  end.

Definition envelope_from (v : Value) : option Envelope :=
  match envelope_fields v with
  | Some [i; p; m] =>
      mkEnvelope <$> required (de_uint u64_max) i <*> required de_value p <*> required de_str m
  | _ => None
  end.

(** [hex::decode], either case. *)
Definition hex_value (c : Z) : option Z :=
  if is_ascii_digit c then Some (c - 48)
  else if (0x61 <=? c) && (c <=? 0x66) then Some (c - 87)
  else if (0x41 <=? c) && (c <=? 0x46) then Some (c - 55)
  else None.

Fixpoint hex_decode (s : str) : option (list Z) :=
  match s with
  | [] => Some []
  | [_] => None
  | a :: b :: s' =>
      match hex_value a, hex_value b, hex_decode s' with
      | Some x, Some y, Some r => Some (x * 16 + y :: r)
      | _, _, _ => None
      end
  end.

(** * Operations *)

(** [b"agentvisor-active-journal-key-v1"], what the signer signs to make the key. *)
Definition KEY_MESSAGE : list Z := as_bytes (lit "agentvisor-active-journal-key-v1").

Definition key_from_signer (signer : Signer) : list Z := take 32 (sg_sign signer KEY_MESSAGE).

(** [b"agentvisor-journal-v1\0"]. *)
Definition JOURNAL_TAG : list Z := as_bytes (lit "agentvisor-journal-v1") ++ [0].

(** What [build_mac] feeds to the MAC. *)
Definition mac_message (domain : str) (index : Z) (canonical : str) : list Z :=
  JOURNAL_TAG ++ u64_be_bytes (str_len domain) ++ as_bytes domain ++ u64_be_bytes index
  ++ u64_be_bytes (str_len canonical) ++ as_bytes canonical.

Section Journal.
Context {R : Ryu} {HM : HmacSha256} {SJ : SerdeJson} {JR : JsonReader}.
Context {T : Type} (to_value : T -> Value) (from_value : Value -> option T).

Definition build_mac (key : list Z) (domain : str) (index : Z) (payload : Value)
  : result (list Z) JournalError :=
  let? canonical := map_err JCanonical (canonicalize payload) in
  Ok (hmac key (mac_message domain index canonical)).

(** The envelope of a value. *)
Definition sealed (key : list Z) (domain : str) (index : Z) (value : T)
  : result Envelope JournalError :=
  let payload := to_value value in
  let? mac := build_mac key domain index payload in
  Ok (mkEnvelope index payload (hex_encode mac)).

Definition seal (key : list Z) (domain : str) (index : Z) (value : T)
  : result (list Z) JournalError :=
  let? envelope := sealed key domain index value in
  Ok (as_bytes (to_string (envelope_to envelope))).

Definition read_envelope (bytes : list Z) : result Envelope JournalError :=
  match from_bytes bytes with
  | Err _ => Err JSerde
  | Ok v => if repeats_field (scan bytes) then Err JSerde else ok_or (envelope_from v) JSerde
  end.

Definition open (key : list Z) (domain : str) (expected_index : Z) (bytes : list Z)
  : result T JournalError :=
  let? envelope := read_envelope bytes in
  if str_len (en_mac envelope) >? 128 then Err (JMacTooLong (str_len (en_mac envelope)))
  else
  let? claimed := ok_or (hex_decode (en_mac envelope)) JHex in
  let? expected := build_mac key domain (en_index envelope) (en_payload envelope) in
  if negb (bool_decide (claimed = expected)) then Err JAuthentication
  else if negb (en_index envelope =? expected_index) then Err JPosition
  else ok_or (from_value (en_payload envelope)) JSerde.
End Journal.
End Journal.

(** * Framing *)

Lemma u64_be_bytes_length n : length (u64_be_bytes n) = 8%nat.
Proof. done. Qed.

Definition be_value (bs : list Z) : Z := fold_left (fun a b => a * 256 + b) bs 0.

Lemma u64_be_value n : 0 <= n <= u64_max -> be_value (u64_be_bytes n) = n.
Proof.
  unfold u64_max, u64_be_bytes, be_value. intros H. cbn [map fold_left].
  change 255 with (Z.ones 8). rewrite !Z.land_ones, !Z.shiftr_div_pow2 by lia.
  change (2 ^ (8 * 7)) with (256 * 256 * 256 * 256 * 256 * 256 * 256).
  change (2 ^ (8 * 6)) with (256 * 256 * 256 * 256 * 256 * 256). change (2 ^ (8 * 5)) with (256 * 256 * 256 * 256 * 256).
  change (2 ^ (8 * 4)) with (256 * 256 * 256 * 256). change (2 ^ (8 * 3)) with (256 * 256 * 256).
  change (2 ^ (8 * 2)) with (256 * 256). change (2 ^ (8 * 1)) with 256. change (2 ^ (8 * 0)) with 1.
  change (2 ^ 8) with 256. rewrite Z.div_1_r, <- !Z.div_div by lia. Z.div_mod_to_equations. lia.
Qed.

Lemma u64_be_bytes_inj n n' : 0 <= n <= u64_max -> 0 <= n' <= u64_max ->
  u64_be_bytes n = u64_be_bytes n' -> n = n'.
Proof. intros H H' Heq. rewrite <- (u64_be_value n), <- (u64_be_value n'); by rewrite ?Heq. Qed.

Lemma as_bytes_length s : Forall is_scalar s -> Z.of_nat (length (as_bytes s)) = str_len s.
Proof.
  unfold as_bytes. induction 1 as [|c s Hc _ IH]; [done|]. cbn [map List.concat str_len].
  rewrite length_app, Nat2Z.inj_add, IH. f_equal. unfold encode_utf8_char, len_utf8.
  repeat case_match; b2p; try done; exfalso; unfold is_scalar in Hc; lia.
Qed.

(** The domain, the position and the payload's bytes are recovered from the
    message. *)
Lemma mac_message_inj d d' i i' c c' : Forall is_scalar d -> Forall is_scalar d' ->
  is_u64 i -> is_u64 i' -> is_u64 (str_len d) -> is_u64 (str_len d') ->
  Journal.mac_message d i c = Journal.mac_message d' i' c' ->
  d = d' /\ i = i' /\ as_bytes c = as_bytes c'.
Proof.
  intros Hd Hd' Hi Hi' Hl Hl' H. unfold Journal.mac_message in H. apply app_inv_head in H.
  apply app_inj_length in H as [Hlen H]; [|done]. apply u64_be_bytes_inj in Hlen; [|done..].
  apply app_inj_length in H as [Hdd H].
  2: { apply Nat2Z.inj. by rewrite !as_bytes_length. }
  apply as_bytes_inj in Hdd as ->; [|done..]. apply app_inj_length in H as [Hii H]; [|done].
  apply u64_be_bytes_inj in Hii as ->; [|done..]. by apply app_inj_length in H as [_ H].
Qed.

Lemma hex_value_digit n : 0 <= n < 16 -> Journal.hex_value (hex_digit n) = Some n.
Proof.
  intros H. assert (In n (map Z.of_nat (seq 0 16))) as Hin.
  { apply in_map_iff. exists (Z.to_nat n). rewrite in_seq. lia. }
  revert Hin. cbn. intros Hin. repeat destruct Hin as [<-|Hin]; try reflexivity. done.
Qed.

Lemma hex_decode_encode bs : Forall (fun b => 0 <= b < 256) bs -> Journal.hex_decode (hex_encode bs) = Some bs.
Proof.
  induction 1 as [|b bs Hb _ IH]; [done|]. unfold hex_encode in *. cbn [map List.concat app Journal.hex_decode].
  rewrite !hex_value_digit by (Z.div_mod_to_equations; lia). rewrite IH. do 2 f_equal.
  Z.div_mod_to_equations. lia.
Qed.

(** * Envelopes *)

(** What [serde_json] promises of a document it printed: the text reads back,
    delivering each member once. *)
Definition prints_back {SJ : SerdeJson} {JR : JsonReader} (v : Value) : Prop :=
  from_bytes (as_bytes (to_string v)) = Ok v /\ scan (as_bytes (to_string v)) = to_raw v.

Section Envelopes.
Context {R : Ryu} {HM : HmacSha256} {SJ : SerdeJson} {JR : JsonReader}.
Context {T : Type} (to_value : T -> Value) (from_value : Value -> option T).

(** Two messages with one tag under this key. *)
Definition mac_collision (key : list Z) : Prop := exists m m', m <> m' /\ hmac key m = hmac key m'.

(** What an accepted envelope holds. *)
Lemma open_ok key d i bytes y : Journal.open from_value key d i bytes = Ok y ->
  exists env canon, Journal.read_envelope bytes = Ok env /\ Journal.en_index env = i /\
    canonicalize (Journal.en_payload env) = Ok canon /\
    Journal.hex_decode (Journal.en_mac env) = Some (hmac key (Journal.mac_message d i canon)) /\
    from_value (Journal.en_payload env) = Some y.
Proof.
  unfold Journal.open, Journal.build_mac. destruct (Journal.read_envelope bytes) as [env|]; [|done].
  destruct (_ >? 128); [done|]. destruct (Journal.hex_decode _) as [tag|] eqn:Eh; [|done]. cbn [ok_or].
  destruct (canonicalize _) as [canon|] eqn:Ec; [|done]. cbn [map_err].
  destruct (bool_decide _) eqn:Eb; [|done]. b2p. subst tag. cbn [negb].
  destruct (_ =? i) eqn:Ei; [|done]. b2p. subst i. cbn [negb].
  destruct (from_value _) as [z|] eqn:Ef; [|done]. intros [= ->]. by exists env, canon.
Qed.

Lemma envelope_read e : is_u64 (Journal.en_index e) ->
  Journal.envelope_from (Journal.envelope_to e) = Some e.
Proof.
  destruct e as [i p m]. intros H. unfold Journal.envelope_from, Journal.envelope_to. cbv -[de_uint u64_max].
  by rewrite WireFacts.de_uint_num.
Qed.

Lemma hex_encode_len bs : Forall (fun b => 0 <= b < 256) bs ->
  str_len (hex_encode bs) = 2 * Z.of_nat (length bs).
Proof.
  assert (forall n, 0 <= n < 16 -> len_utf8 (hex_digit n) = 1) as Hd.
  { intros n Hn. unfold len_utf8, hex_digit. destruct (n <? 10) eqn:E; b2p;
      rewrite (proj2 (Z.ltb_lt _ _)) by lia; done. }
  induction 1 as [|b bs Hb _ IH]; [done|]. unfold hex_encode in *. cbn [map List.concat app str_len length].
  rewrite !Hd by (Z.div_mod_to_equations; lia). lia.
Qed.
End Envelopes.

(** An accepted journal entry is bound to its place.  Whatever the bytes, an
    envelope that opens carries the tag of exactly this domain, position and
    payload under the key; and if the same bytes open for a second domain or
    position, the places and the values are the same, or two messages share a tag:
    entries cannot be moved between domains or reordered. *)
Theorem journal_entry_is_bound {R : Ryu} {HM : HmacSha256} {SJ : SerdeJson} {JR : JsonReader} {T : Type}
    (from_value : Value -> option T) (key : list Z) (d d' : str) (i i' : Z) (bytes : list Z) (y y' : T) :
  Journal.open from_value key d i bytes = Ok y -> Journal.open from_value key d' i' bytes = Ok y' ->
  Forall is_scalar d -> Forall is_scalar d' -> is_u64 (str_len d) -> is_u64 (str_len d') ->
  is_u64 i -> is_u64 i' ->
  (exists payload canon tag, from_value payload = Some y /\ canonicalize payload = Ok canon /\
     Journal.hex_decode tag = Some (hmac key (Journal.mac_message d i canon))) /\
  (d = d' /\ i = i' /\ y = y' \/ mac_collision key).
Proof.
  intros H H' Hd Hd' Hl Hl' Hi Hi'. apply open_ok in H as (env & canon & He & <- & Hc & Ht & Hy).
  apply open_ok in H' as (env' & canon' & He' & <- & Hc' & Ht' & Hy'). rewrite He in He'. injection He' as <-.
  rewrite Hc in Hc'. injection Hc' as <-. split; [by eexists _, canon, _|]. rewrite Ht in Ht'. injection Ht' as Ht'.
  destruct (decide (Journal.mac_message d (Journal.en_index env) canon =
                    Journal.mac_message d' (Journal.en_index env) canon)) as [Heq|Hne].
  - left. apply mac_message_inj in Heq as (-> & _ & _); [|done..]. split_and!; try done. congruence.
  - right. by do 2 eexists.
Qed.

(** Sealing then opening gives the value back, for every domain and position:
    a crash between the two loses nothing that was journaled. *)
Theorem journal_seal_open {R : Ryu} {HM : HmacSha256} {SJ : SerdeJson} {JR : JsonReader}
    {T : Type} (to_value : T -> Value) (from_value : Value -> option T)
    (key : list Z) (d : str) (i : Z) (x : T) (bytes : list Z) :
  (forall env, Journal.sealed to_value key d i x = Ok env -> prints_back (Journal.envelope_to env)) ->
  from_value (to_value x) = Some x -> is_u64 i ->
  Journal.seal to_value key d i x = Ok bytes -> Journal.open from_value key d i bytes = Ok x.
Proof.
  intros Hp Hx Hi. unfold Journal.seal. destruct (Journal.sealed _ _ _ _ _) as [env|] eqn:Es; [|done].
  intros [= <-]. destruct (Hp env eq_refl) as [Hparse Hscan]. unfold Journal.sealed, Journal.build_mac in Es.
  destruct (canonicalize (to_value x)) as [canon|] eqn:Ec; [|done]. cbn [map_err] in Es. injection Es as Henv.
  set (tag := hmac key _) in Henv. pose proof (hmac_byte key (Journal.mac_message d i canon)) as Hb. fold tag in Hb.
  unfold Journal.open, Journal.read_envelope. rewrite Hparse, Hscan.
  assert (Journal.repeats_field (to_raw (Journal.envelope_to env)) = false) as -> by (vm_compute; reflexivity).
  subst env. rewrite envelope_read by done. cbn [ok_or Journal.en_mac Journal.en_payload Journal.en_index].
  rewrite hex_encode_len by done. unfold tag at 1 2. rewrite hmac_length. cbn [Z.of_nat Z.mul Z.gtb].
  rewrite hex_decode_encode by done. cbn [ok_or]. unfold Journal.build_mac. rewrite Ec. cbn [map_err].
  fold tag. rewrite bool_decide_eq_true_2 by done. rewrite Z.eqb_refl. cbn [negb]. by rewrite Hx.
Qed.

(** The signing key never leaks the journal key.  The key that authenticates
    the journals is a signature of one fixed message by the receipt key; no receipt
    of either version, whatever its body, is signed as that message or as any
    message of the journal's MAC, so publishing receipts reveals neither. *)
Theorem receipts_never_sign_the_journal_key {R : Ryu} (version : Z) (b : ReceiptBody) (canon : str)
    (msg : list Z) :
  canonicalize (ReceiptWire.body_to b) = Ok canon -> signing_message version canon = Ok msg ->
  msg <> Journal.KEY_MESSAGE /\ forall d i c, msg <> Journal.mac_message d i c.
Proof.
  intros Hc Hm. destruct (canonicalize_object_head _ _ Hc) as [t ->].
  assert (take 12 msg <> take 12 Journal.KEY_MESSAGE /\ take 12 msg <> take 12 Journal.JOURNAL_TAG) as [H1 H2].
  { apply signing_message_ok in Hm as [[-> ->]|[-> ->]].
    - assert (take 12 (as_bytes (123 :: t)) = 123 :: take 11 (as_bytes t)) as -> by reflexivity.
      split; intros [=].
    - rewrite take_app_le by (vm_compute; lia). split; vm_compute; discriminate. }
  split; [congruence|]. intros d i c ->. apply H2. unfold Journal.mac_message.
  rewrite take_app_le; [done|vm_compute; lia].
Qed.

(** * A concrete journal *)

Module JournalSample.

(** One printed text, of the entry at position 7. *)
Definition entry : Value := Object [(lit "tool", JString (lit "pay")); (lit "seq", ser_u 3)].
Definition key : list Z := replicate 32 9.
Definition domain : str := Journal.TOOL_INTENT_DOMAIN.

Definition envelope : Journal.Envelope :=
  match @Journal.sealed toy_ryu toy_hmac Value id key domain 7 entry with
  | Ok e => e | Err _ => Journal.mkEnvelope 0 Null [] end.

Definition events : Raw := to_raw (Journal.envelope_to envelope).

Definition serde : SerdeJson := {| from_bytes _ := Ok (last_wins events); to_string _ := lit "entry" |}.

Lemma journal_events_ok raw v : @from_bytes serde raw = Ok v -> v = last_wins events.
Proof. by intros [= <-]. Qed.

Definition reader : @JsonReader serde :=
  {| scan _ := events; end_error _ := None; custom_error _ msg := msg;
     custom_error_prefix _ msg := eq_trans (f_equal (starts_with msg) (eq_sym (app_nil_r msg))) (starts_with_app msg []);
     from_bytes_scan := journal_events_ok |}.

Definition text : list Z := as_bytes (lit "entry").

Lemma seal_ok : @Journal.seal toy_ryu toy_hmac serde Value id key domain 7 entry = Ok text.
Proof. vm_compute. reflexivity. Qed.

Lemma prints env : @Journal.sealed toy_ryu toy_hmac Value id key domain 7 entry = Ok env ->
  @prints_back serde reader (Journal.envelope_to env).
Proof.
  assert (@Journal.sealed toy_ryu toy_hmac Value id key domain 7 entry = Ok envelope) as ->
    by (vm_compute; reflexivity).
  intros [= <-]. split; vm_compute; reflexivity.
Qed.

Lemma open_text : @Journal.open toy_ryu toy_hmac serde reader Value Some key domain 7 text = Ok entry.
Proof. vm_compute. reflexivity. Qed.
End JournalSample.

Lemma journal_seal_open_witness :
  @Journal.open toy_ryu toy_hmac JournalSample.serde JournalSample.reader Value Some JournalSample.key
    JournalSample.domain 7 JournalSample.text = Ok JournalSample.entry.
Proof.
  refine (@journal_seal_open toy_ryu toy_hmac JournalSample.serde JournalSample.reader Value id Some
            JournalSample.key JournalSample.domain 7 JournalSample.entry JournalSample.text
            JournalSample.prints eq_refl _ JournalSample.seal_ok).
  vm_compute. split; discriminate.
Defined.

Lemma journal_entry_is_bound_witness : exists tag : str, Journal.hex_decode tag <> None.
Proof.
  destruct (@journal_entry_is_bound toy_ryu toy_hmac JournalSample.serde JournalSample.reader Value Some
              JournalSample.key JournalSample.domain JournalSample.domain 7 7 JournalSample.text
              JournalSample.entry JournalSample.entry JournalSample.open_text JournalSample.open_text)
    as [(p & c & tag & _ & _ & Ht) _];
    try (apply scalar_text_ok; vm_compute; reflexivity); try (vm_compute; split; discriminate).
  exists tag. rewrite Ht. discriminate.
Defined.

Lemma receipts_never_sign_the_journal_key_witness :
  RECEIPT_DOMAIN_TAG_V2 ++ u64_be_bytes (str_len sample_canon) ++ as_bytes sample_canon <> Journal.KEY_MESSAGE.
Proof.
  exact (proj1 (@receipts_never_sign_the_journal_key toy_ryu 2 (rc_body ReceiptSample.receipt) sample_canon
           (RECEIPT_DOMAIN_TAG_V2 ++ u64_be_bytes (str_len sample_canon) ++ as_bytes sample_canon)
           sample_canon_ok eq_refl)).
Defined.
