(* ===== verification/Inflight.v ===== *)
(** [av-harness/src/inflight.rs]: the counter of detached tasks that shutdown waits
    for, as a machine of atomic steps.  Tasks enter and drop their guard, waiters run
    the loop of [wait_drained]; tokio's [Notify] is its documented behaviour: a
    [Notified] that is enabled is woken by every later [notify_waiters].  The counter
    does not wrap: it counts live guards. *)

From S2P Require Import Prelude.

Module Inflight.

(** Where a waiter stands in the loop: before [enable], between [enable] and the
    load, suspended in [notified.await], or returned. *)
Inductive pc := Start | Enabled | Awaiting | Returned.

#[global] Instance pc_eq_dec : EqDecision pc.
Proof. solve_decision. Defined.

(** [woken]: whether the waiter's [Notified] has been notified since it was enabled. *)
Record waiter := mkWaiter { at_pc : pc; woken : bool }.

(** [notifying] counts the drops that brought the counter to zero and have not yet
    called [notify_waiters]. *)
Record tracker := mkTracker {
  tr_count : nat;
  notifying : nat;
  waiters : list waiter;
}.

(** [InflightTracker::new], with [n] tasks that will call [wait_drained]. *)
Definition new (n : nat) : tracker := mkTracker 0 0 (replicate n (mkWaiter Start false)).

Definition count (t : tracker) : nat := tr_count t.

(** [enter]: [fetch_add(1)]. *)
Definition enter (t : tracker) : tracker :=
  mkTracker (S (tr_count t)) (notifying t) (waiters t).

(** The first half of [InflightGuard::drop]: [fetch_sub(1) == 1] decides whether to
    notify. *)
Definition drop_sub (t : tracker) : option tracker :=
  match tr_count t with
  | O => None
  | S n => Some (mkTracker n (if Nat.eqb n 0 then S (notifying t) else notifying t) (waiters t))
  end.

(** A [Notified] in the list of waiters is woken. *)
Definition notify (w : waiter) : waiter :=
  match at_pc w with
  | Enabled | Awaiting => mkWaiter (at_pc w) true
  | _ => w
  end.

(** The second half: [notify_waiters]. *)
Definition drop_notify (t : tracker) : option tracker :=
  match notifying t with
  | O => None
  | S n => Some (mkTracker (tr_count t) n (map notify (waiters t)))
  end.

(** One step of the loop of [wait_drained] that sees the counter at [c]; [None] when
    the waiter has returned or is suspended. *)
Definition wait_step (c : nat) (w : waiter) : option waiter :=
  match at_pc w with
  | Start => Some (mkWaiter Enabled false)
  | Enabled => Some (mkWaiter (if Nat.eqb c 0 then Returned else Awaiting) (woken w))
  | Awaiting => if woken w then Some (mkWaiter Start false) else None
  | Returned => None
  end.

Inductive step : tracker -> tracker -> Prop :=
| step_enter t : step t (enter t)
| step_drop t t' : drop_sub t = Some t' -> step t t'
| step_notify t t' : drop_notify t = Some t' -> step t t'
| step_wait t i w w' :
    waiters t !! i = Some w -> wait_step (tr_count t) w = Some w' ->
    step t (mkTracker (tr_count t) (notifying t) (<[i := w']> (waiters t))).

(** Runs of the [i]-th waiter alone, nothing else moving. *)
Inductive waits (i : nat) : tracker -> tracker -> Prop :=
| waits_refl t : waits i t t
| waits_step t w w' t' :
    waiters t !! i = Some w -> wait_step (tr_count t) w = Some w' ->
    waits i (mkTracker (tr_count t) (notifying t) (<[i := w']> (waiters t))) t' -> waits i t t'.

(** A suspended waiter has been woken, or tasks are running, or a wake-up is due. *)
Definition no_lost (t : tracker) : Prop :=
  Forall (fun w => at_pc w = Awaiting -> woken w = true \/ (0 < tr_count t)%nat \/ (0 < notifying t)%nat)
    (waiters t).

Lemma new_no_lost n : no_lost (new n).
Proof. apply Forall_replicate. by cbn. Qed.

Lemma step_no_lost t t' : step t t' -> no_lost t -> no_lost t'.
Proof.
  unfold no_lost. intros Hs H. destruct Hs as [t|t t' Hd|t t' Hd|t i w w' Hi Hw].
  - eapply Forall_impl; [exact H|]. cbn. intros w _ _. right. left. lia.
  - unfold drop_sub in Hd. destruct (tr_count t) as [|n] eqn:En; [done|]. injection Hd as <-.
    eapply Forall_impl; [exact H|]. cbn. intros w Hw Ha. destruct (Hw Ha) as [?|[_|?]]; [auto| |].
    + destruct n; cbn; [right; right; lia|right; left; lia].
    + right. right. destruct (Nat.eqb n 0); lia.
  - unfold drop_notify in Hd. destruct (notifying t) as [|n] eqn:En; [done|]. injection Hd as <-.
    cbn. apply Forall_fmap, Forall_true. intros [p b]. cbn. unfold notify. destruct p; cbn; auto; done.
  - cbn. apply Forall_insert; [done|]. rewrite Forall_forall in H.
    specialize (H w (list_elem_of_lookup_2 _ _ _ Hi)). unfold wait_step in Hw.
    destruct (at_pc w) eqn:Ep; try done; [by injection Hw as <-| |by destruct (woken w); [injection Hw as <-|]].
    injection Hw as <-. cbn. destruct (tr_count t); cbn; [done|]. intros _. right. left. lia.
Qed.

Lemma reachable_no_lost n t : rtc step (new n) t -> no_lost t.
Proof.
  intros Hr. pose proof (new_no_lost n) as H0. induction Hr as [|x y z Hs _ IH]; [done|].
  apply IH. by eapply step_no_lost.
Qed.

(** The loop of one waiter at a zero counter ends. *)
Lemma waiter_returns t i w : tr_count t = O -> waiters t !! i = Some w ->
  (at_pc w = Awaiting -> woken w = true) ->
  exists t' w', waits i t t' /\ waiters t' !! i = Some w' /\ at_pc w' = Returned.
Proof.
  intros Hc Hi Ha.
  assert (forall b ws, ws !! i = Some (mkWaiter Enabled b) -> exists t' w',
    waits i (mkTracker (tr_count t) (notifying t) ws) t' /\ waiters t' !! i = Some w' /\ at_pc w' = Returned) as He.
  { intros b ws Hw.
    exists (mkTracker (tr_count t) (notifying t) (<[i := mkWaiter Returned b]> ws)), (mkWaiter Returned b).
    split; [|split; [|done]].
    - eapply waits_step; [exact Hw|cbn; by rewrite Hc|apply waits_refl].
    - cbn. apply list_lookup_insert_eq. by eapply lookup_lt_Some. }
  assert (forall b ws, ws !! i = Some (mkWaiter Start b) -> exists t' w',
    waits i (mkTracker (tr_count t) (notifying t) ws) t' /\ waiters t' !! i = Some w' /\ at_pc w' = Returned) as Hst.
  { intros b ws Hw. destruct (He false (<[i := mkWaiter Enabled false]> ws)) as (t' & w' & Hrun & Ht).
    - apply list_lookup_insert_eq. by eapply lookup_lt_Some.
    - exists t', w'. split; [|done]. by eapply waits_step. }
  destruct t as [c nt ws]. cbn in *. destruct w as [[] b]; cbn in *.
  - by eapply Hst.
  - by eapply He.
  - destruct (Hst false (<[i := mkWaiter Start false]> ws)) as (t' & w' & Hrun & Ht).
    + apply list_lookup_insert_eq. by eapply lookup_lt_Some.
    + exists t', w'. split; [|done]. eapply waits_step; [exact Hi|cbn; by rewrite Ha|done].
  - eexists _, _. split; [apply waits_refl|done].
Qed.
End Inflight.

(** Shutdown neither hangs nor returns early.  In every interleaving of tasks
    entering, dropping their guard and waiters polling, once no task is running
    and no wake-up is pending, every waiter on its own reaches the end of its
    loop (no wake-up was lost between the registration and the load); and a waiter
    only returns by a step that reads the counter at zero. *)
Theorem drain_wakes_every_waiter (n : nat) (t : Inflight.tracker) :
  rtc Inflight.step (Inflight.new n) t ->
  (Inflight.count t = O -> Inflight.notifying t = O ->
   forall i w, Inflight.waiters t !! i = Some w ->
     exists t' w', Inflight.waits i t t' /\ Inflight.waiters t' !! i = Some w' /\
       Inflight.at_pc w' = Inflight.Returned) /\
  (forall c w w', Inflight.wait_step c w = Some w' -> Inflight.at_pc w' = Inflight.Returned -> c = O).
Proof.
  intros Hr%Inflight.reachable_no_lost. split.
  - intros Hc Hn i w Hi. apply (Inflight.waiter_returns t i w Hc Hi). intros Ha.
    unfold Inflight.no_lost in Hr. rewrite Forall_forall in Hr.
    destruct (Hr w (list_elem_of_lookup_2 _ _ _ Hi) Ha) as [?|[?|?]]; [done| |lia].
    unfold Inflight.count in Hc. lia.
  - intros c w w'. unfold Inflight.wait_step. destruct (Inflight.at_pc w); [by intros [= <-]| |by destruct (Inflight.woken w); [intros [= <-]|]|done].
    intros [= <-]. cbn. by destruct c.
Qed.

(** A task enters, the waiter enables, reads one and suspends; the drop wakes it. *)
Lemma drain_wakes_every_waiter_witness : exists t' w',
  Inflight.waits 0 (Inflight.mkTracker 0 0 [Inflight.mkWaiter Inflight.Awaiting true]) t' /\
  Inflight.waiters t' !! 0%nat = Some w' /\ Inflight.at_pc w' = Inflight.Returned.
Proof.
  refine (proj1 (drain_wakes_every_waiter 1
    (Inflight.mkTracker 0 0 [Inflight.mkWaiter Inflight.Awaiting true]) _) eq_refl eq_refl 0%nat _ eq_refl).
  eapply rtc_l; [apply Inflight.step_enter|].
  eapply rtc_l; [eapply (Inflight.step_wait _ 0%nat); reflexivity|].
  eapply rtc_l; [eapply (Inflight.step_wait _ 0%nat); reflexivity|].
  eapply rtc_l; [apply Inflight.step_drop; reflexivity|].
  eapply rtc_l; [apply Inflight.step_notify; reflexivity|]. apply rtc_refl.
Defined.
