(* ===== verification/Atif.v ===== *)
(** [av-atif]: the trajectory document ([model.rs]) and its incremental builder
    ([writer.rs]).  The builder is the unsigned workflow's evidence: its steps are
    numbered in order and its totals are the sums of its steps. *)

From S2P Require Import Prelude.
From S2P Require Import Rust.
From S2P Require Import CoreBase.
From S2P Require Import Json.
From S2P Require Import Float.
From S2P Require Import Core.

Module Atif.

(** * model.rs *)

Definition ATIF_VERSION : str := lit "ATIF-v1.7".

Definition SUPPORTED_VERSIONS : list str :=
  [lit "ATIF-v1.0"; lit "ATIF-v1.1"; lit "ATIF-v1.2"; lit "ATIF-v1.3"; lit "ATIF-v1.4";
   lit "ATIF-v1.5"; lit "ATIF-v1.6"; lit "ATIF-v1.7"].

Inductive Source := System | User | AgentSource.

#[global] Instance Source_eq_dec : EqDecision Source.
Proof. solve_decision. Defined.

Record Agent := mkAgent {
  at_name : str;
  at_version : str;
  at_model_name : option str;
  at_tool_definitions : option (list (list (str * Value)));
  at_extra : option Value;
}.

Inductive ReasoningEffort := EffortText (s : str) | EffortNumeric (f : f64).

Record ToolCall := mkToolCall {
  tl_tool_call_id : str;
  tl_function_name : str;
  tl_arguments : Value;
  tl_extra : option Value;
}.

Record SubagentTrajectoryRef := mkSubagentRef {
  sr_trajectory_id : option str;
  sr_session_id : option str;
  sr_trajectory_path : option str;
  sr_extra : option Value;
}.

Record ObservationResult := mkObservationResult {
  or_source_call_id : option str;
  or_content : option Value;
  or_subagent_trajectory_ref : option (list SubagentTrajectoryRef);
  or_extra : option Value;
}.

Record Observation := mkObservation { ob_results : list ObservationResult }.

Record Metrics := mkStepMetrics {
  mt_prompt_tokens : option Z;
  mt_completion_tokens : option Z;
  mt_cached_tokens : option Z;
  mt_cost_usd : option f64;
  mt_logprobs : option (list f64);
  mt_completion_token_ids : option (list Z);
  mt_prompt_token_ids : option (list Z);
  mt_extra : option Value;
}.

Record Step := mkStep {
  st_step_id : Z;
  st_timestamp : option str;
  st_source : Source;
  st_message : Value;
  st_reasoning_effort : option ReasoningEffort;
  st_reasoning_content : option str;
  st_model_name : option str;
  st_tool_calls : option (list ToolCall);
  st_observation : option Observation;
  st_metrics : option Metrics;
  st_is_copied_context : option bool;
  st_llm_call_count : option Z;
  st_extra : option Value;
}.

Record FinalMetrics := mkFinalMetrics {
  fm_total_prompt_tokens : option Z;
  fm_total_completion_tokens : option Z;
  fm_total_cached_tokens : option Z;
  fm_total_cost_usd : option f64;
  fm_total_steps : option Z;
  fm_extra : option Value;
}.

Inductive Trajectory := mkTrajectory {
  tj_schema_version : str;
  tj_session_id : option str;
  tj_trajectory_id : option str;
  tj_agent : Agent;
  tj_steps : list Step;
  tj_notes : option str;
  tj_final_metrics : option FinalMetrics;
  tj_continued_trajectory_ref : option str;
  tj_subagent_trajectories : option (list Trajectory);
  tj_extra : option Value;
}.

(** * writer.rs *)

(** [9e9], the cap of [validate.rs] on costs. *)
Definition MAX_COST_USD : f64 := f64_of_int 9000000000.

Record TrajectoryBuilder := mkTrajectoryBuilder {
  bd_session_id : option str;
  bd_trajectory_id : option str;
  bd_agent : Agent;
  bd_steps : list Step;
  bd_total_prompt : Z;
  bd_total_completion : Z;
  bd_total_cached : Z;
  bd_total_cost : f64;
}.

(** [uid] is the fresh trajectory id. *)
Definition builder_new (uid : str) (agent : Agent) (session_id : option str) : TrajectoryBuilder :=
  mkTrajectoryBuilder session_id (Some uid) agent [] 0 0 0 (S754_zero false).

Definition builder_len (b : TrajectoryBuilder) : nat := length (bd_steps b).
Definition builder_is_empty (b : TrajectoryBuilder) : bool := Nat.eqb (length (bd_steps b)) 0.

Definition with_step_id (n : Z) (s : Step) : Step :=
  mkStep n (st_timestamp s) (st_source s) (st_message s) (st_reasoning_effort s)
    (st_reasoning_content s) (st_model_name s) (st_tool_calls s) (st_observation s)
    (st_metrics s) (st_is_copied_context s) (st_llm_call_count s) (st_extra s).

Definition present {A} (o : option A) : bool := match o with Some _ => true | None => false end.

Definition metrics_complete (o : option Metrics) : bool :=
  match o with
  | Some m => present (mt_prompt_tokens m) && present (mt_completion_tokens m)
              && present (mt_cached_tokens m)
  | None => false
  end.

(** The coupling of [llm_call_count] and [metrics] on agent steps. *)
Definition check_agent_step (s : Step) : result unit CoreError :=
  if negb (bool_decide (st_source s = AgentSource)) then Ok tt
  else if bool_decide (st_llm_call_count s = Some 0) then
    if present (st_metrics s) || present (st_reasoning_content s)
    then Err (InvalidId (lit "agent step with llm_call_count 0 must not carry metrics or reasoning_content"))
    else Ok tt
  else if metrics_complete (st_metrics s) then Ok tt
  else Err (InvalidId (lit "agent step requires metrics with prompt/completion/cached token counts (strict ATIF-v1.7 agent-step fidelity)")).

(** [checked_add] into a total. *)
Definition add_total (context : string) (total : Z) (delta : option Z) : result Z CoreError :=
  let sum := total + default 0 delta in
  if sum <=? u64_max then Ok sum else Err (CoreOverflow (lit context)).

Definition add_cost (total : f64) (cost : option f64) : result f64 CoreError :=
  let step_cost := default (S754_zero false) cost in
  if negb (is_finite step_cost) || SFltb step_cost (S754_zero false)
  then Err (CoreOverflow (lit "step_cost_usd"))
  else if SFltb MAX_COST_USD step_cost then Err (CoreOverflow (lit "step_cost_usd"))
  else
    let next_cost := f64_add total step_cost in
    if negb (is_finite next_cost) then Err (CoreOverflow (lit "total_cost_usd"))
    else if SFltb MAX_COST_USD next_cost then Err (CoreOverflow (lit "total_cost_usd"))
    else Ok next_cost.

(** The totals the step would give. *)
Definition next_totals (b : TrajectoryBuilder) (o : option Metrics)
  : result (Z * Z * Z * f64) CoreError :=
  match o with
  | None => Ok (bd_total_prompt b, bd_total_completion b, bd_total_cached b, bd_total_cost b)
  | Some m =>
      let? next_prompt := add_total "total_prompt_tokens" (bd_total_prompt b) (mt_prompt_tokens m) in
      let? next_completion :=
        add_total "total_completion_tokens" (bd_total_completion b) (mt_completion_tokens m) in
      let? next_cached := add_total "total_cached_tokens" (bd_total_cached b) (mt_cached_tokens m) in
      let? _ := check_jcs_safe next_prompt in
      let? _ := check_jcs_safe next_completion in
      let? _ := check_jcs_safe next_cached in
      let? next_cost := add_cost (bd_total_cost b) (mt_cost_usd m) in
      Ok (next_prompt, next_completion, next_cached, next_cost)
  end.

Definition push_step (b : TrajectoryBuilder) (s : Step) : TrajectoryBuilder * result unit CoreError :=
  let step := with_step_id (Z.of_nat (length (bd_steps b)) + 1) s in
  match check_agent_step step with
  | Err e => (b, Err e)
  | Ok _ =>
      match next_totals b (st_metrics step) with
      | Err e => (b, Err e)
      | Ok (p, c, h, cost) =>
          (mkTrajectoryBuilder (bd_session_id b) (bd_trajectory_id b) (bd_agent b)
             (bd_steps b ++ [step]) p c h cost, Ok tt)
      end
  end.

Definition finish (b : TrajectoryBuilder) : Trajectory :=
  {| tj_schema_version := ATIF_VERSION;
     tj_session_id := bd_session_id b;
     tj_trajectory_id := bd_trajectory_id b;
     tj_agent := bd_agent b;
     tj_steps := bd_steps b;
     tj_notes := None;
     tj_final_metrics := Some (mkFinalMetrics (Some (bd_total_prompt b)) (Some (bd_total_completion b))
       (Some (bd_total_cached b)) (Some (bd_total_cost b))
       (Some (Z.of_nat (length (bd_steps b)))) None);
     tj_continued_trajectory_ref := None;
     tj_subagent_trajectories := None;
     tj_extra := None |}.

(** [writer::metrics]. *)
Definition metrics (prompt completion cached : Z) (cost_usd : f64) : Metrics :=
  mkStepMetrics (Some prompt) (Some completion) (Some cached) (Some cost_usd) None None None None.

(** * The invariant of the builder *)

Definition sum_of (f : Metrics -> option Z) (steps : list Step) : Z :=
  fold_right Z.add 0 (map (fun s => match st_metrics s with Some m => default 0 (f m) | None => 0 end) steps).

Definition cost_of (steps : list Step) : f64 :=
  fold_left (fun a s => match st_metrics s with
                        | Some m => f64_add a (default (S754_zero false) (mt_cost_usd m))
                        | None => a end) steps (S754_zero false).

(** A step a strict reader accepts. *)
Definition step_ok (s : Step) : Prop := check_agent_step s = Ok tt.

Record wf (b : TrajectoryBuilder) : Prop := {
  wf_ids : map st_step_id (bd_steps b) = seqZ 1 (Z.of_nat (length (bd_steps b)));
  wf_steps : Forall step_ok (bd_steps b);
  wf_prompt : bd_total_prompt b = sum_of mt_prompt_tokens (bd_steps b);
  wf_completion : bd_total_completion b = sum_of mt_completion_tokens (bd_steps b);
  wf_cached : bd_total_cached b = sum_of mt_cached_tokens (bd_steps b);
  wf_cost : bd_total_cost b = cost_of (bd_steps b);
  wf_bounds : Forall (fun n => n <= JCS_SAFE_MAX) [bd_total_prompt b; bd_total_completion b; bd_total_cached b];
  wf_cost_bounds : is_finite (bd_total_cost b) = true /\ SFltb MAX_COST_USD (bd_total_cost b) = false;
}.

Lemma builder_new_wf uid agent sid : wf (builder_new uid agent sid).
Proof.
  split; try done. repeat (apply Forall_cons; split; [by vm_compute|]). by apply Forall_nil.
Qed.

Lemma sum_of_snoc f steps s : sum_of f (steps ++ [s]) =
  sum_of f steps + match st_metrics s with Some m => default 0 (f m) | None => 0 end.
Proof.
  unfold sum_of. rewrite map_app, fold_right_app. cbn. rewrite Z.add_0_r.
  induction (map _ steps) as [|x l IH]; cbn; lia.
Qed.

Lemma cost_of_snoc steps s : cost_of (steps ++ [s]) =
  match st_metrics s with
  | Some m => f64_add (cost_of steps) (default (S754_zero false) (mt_cost_usd m))
  | None => cost_of steps
  end.
Proof. unfold cost_of. by rewrite fold_left_app. Qed.

Lemma add_total_ok ctx t d n : add_total ctx t d = Ok n -> n = t + default 0 d.
Proof. unfold add_total. case_match; [|done]. by intros [= <-]. Qed.

Lemma add_cost_ok t c n : add_cost t c = Ok n ->
  n = f64_add t (default (S754_zero false) c) /\ is_finite n = true /\ SFltb MAX_COST_USD n = false.
Proof.
  unfold add_cost. destruct (_ || _); [done|]. destruct (SFltb MAX_COST_USD _); [done|].
  set (x := f64_add t _). destruct (is_finite x) eqn:Ef; [|done]. cbn [negb].
  destruct (SFltb MAX_COST_USD x) eqn:Es; [done|]. by intros [= <-].
Qed.

Lemma next_totals_ok b o p c h cost : wf b -> next_totals b o = Ok (p, c, h, cost) ->
  (p = bd_total_prompt b + match o with Some m => default 0 (mt_prompt_tokens m) | None => 0 end /\
   c = bd_total_completion b + match o with Some m => default 0 (mt_completion_tokens m) | None => 0 end /\
   h = bd_total_cached b + match o with Some m => default 0 (mt_cached_tokens m) | None => 0 end /\
   cost = match o with Some m => f64_add (bd_total_cost b) (default (S754_zero false) (mt_cost_usd m))
                     | None => bd_total_cost b end) /\
  Forall (fun n => n <= JCS_SAFE_MAX) [p; c; h] /\ is_finite cost = true /\ SFltb MAX_COST_USD cost = false.
Proof.
  intros Hw. destruct o as [m|]; cbn.
  - destruct (add_total _ _ (mt_prompt_tokens m)) as [p'|] eqn:E1; [|done].
    destruct (add_total _ _ (mt_completion_tokens m)) as [c'|] eqn:E2; [|done].
    destruct (add_total _ _ (mt_cached_tokens m)) as [h'|] eqn:E3; [|done].
    unfold check_jcs_safe. destruct (p' >? _) eqn:F1; [done|]. destruct (c' >? _) eqn:F2; [done|].
    destruct (h' >? _) eqn:F3; [done|]. destruct (add_cost _ _) as [x|] eqn:E4; [|done].
    intros [= <- <- <- <-]. apply add_total_ok in E1, E2, E3. apply add_cost_ok in E4. b2p. naive_solver.
  - intros [= <- <- <- <-]. rewrite !Z.add_0_r. split; [done|]. split; [apply Hw|apply Hw].
Qed.

Lemma push_step_wf b s : wf b -> wf (push_step b s).1.
Proof.
  intros Hw. unfold push_step. set (st := with_step_id _ s).
  destruct (check_agent_step st) as [[]|] eqn:Ec; [|done].
  destruct (next_totals b (st_metrics st)) as [[[[p c] h] cost]|] eqn:En; [|done].
  apply next_totals_ok in En as ((-> & -> & -> & ->) & Hb & Hc); [|done]. cbn [fst].
  destruct Hw as [Hi Hs Hp Hcm Hh Hcost _ _]. split; cbn -[JCS_SAFE_MAX MAX_COST_USD f64_add sum_of cost_of]; try done.
  - rewrite map_app, length_app, Hi. cbn. rewrite Nat2Z.inj_add, seqZ_app by lia. f_equal.
    cbn. by rewrite seqZ_cons, Z.add_comm by lia.
  - apply Forall_app. by split; [|apply Forall_singleton].
  - by rewrite sum_of_snoc, Hp.
  - by rewrite sum_of_snoc, Hcm.
  - by rewrite sum_of_snoc, Hh.
  - by rewrite cost_of_snoc, Hcost.
Qed.

(** The steps of a run of [push_step] that were accepted, as they were given. *)
Fixpoint accepted (b : TrajectoryBuilder) (steps : list Step) : list Step :=
  match steps with
  | [] => []
  | s :: steps' =>
      match push_step b s with
      | (b', Ok _) => s :: accepted b' steps'
      | (b', Err _) => accepted b' steps'
      end
  end.

Definition push_all (b : TrajectoryBuilder) (steps : list Step) : TrajectoryBuilder :=
  fold_left (fun b s => (push_step b s).1) steps b.

Lemma push_all_wf b steps : wf b -> wf (push_all b steps).
Proof.
  revert b. induction steps as [|s steps IH]; intros b Hw; [done|]. cbn. by apply IH, push_step_wf.
Qed.

(** A step without its number. *)
Definition content (s : Step) : Step := with_step_id 0 s.

Lemma push_all_content b steps :
  map content (bd_steps (push_all b steps)) = map content (bd_steps b ++ accepted b steps).
Proof.
  revert b. induction steps as [|s steps IH]; intros b; [cbn; by rewrite app_nil_r|].
  change (push_all b (s :: steps)) with (push_all (push_step b s).1 steps). rewrite IH.
  cbn [accepted]. unfold push_step. destruct (check_agent_step _) as [[]|]; [|done].
  destruct (next_totals _ _) as [[[[p c] h] cost]|]; [|done]. cbn [fst bd_steps].
  rewrite !map_app, <- app_assoc. done.
Qed.
End Atif.

(** A trajectory adds up.  Whatever steps are offered, the finished trajectory
    holds exactly the accepted ones in order, numbered from one without a gap; its
    aggregates are the sums over those steps, exact doubles and within the cost cap;
    every agent step carries its token counts or declares that no model was called;
    and a refused step leaves the builder as it was. *)
Theorem trajectory_adds_up (uid : str) (agent : Atif.Agent) (sid : option str) (steps : list Atif.Step) :
  let b := Atif.push_all (Atif.builder_new uid agent sid) steps in
  let t := Atif.finish b in
  map Atif.content (Atif.tj_steps t) =
    map Atif.content (Atif.accepted (Atif.builder_new uid agent sid) steps) /\
  map Atif.st_step_id (Atif.tj_steps t) = seqZ 1 (Z.of_nat (length (Atif.tj_steps t))) /\
  Forall Atif.step_ok (Atif.tj_steps t) /\
  (exists p c h cost,
     Atif.tj_final_metrics t =
       Some (Atif.mkFinalMetrics (Some p) (Some c) (Some h) (Some cost)
               (Some (Z.of_nat (length (Atif.tj_steps t)))) None) /\
     p = Atif.sum_of Atif.mt_prompt_tokens (Atif.tj_steps t) /\
     c = Atif.sum_of Atif.mt_completion_tokens (Atif.tj_steps t) /\
     h = Atif.sum_of Atif.mt_cached_tokens (Atif.tj_steps t) /\
     cost = Atif.cost_of (Atif.tj_steps t) /\
     Forall (fun n => n <= JCS_SAFE_MAX) [p; c; h] /\
     is_finite cost = true /\ SFltb Atif.MAX_COST_USD cost = false) /\
  (forall s e, (Atif.push_step b s).2 = Err e -> (Atif.push_step b s).1 = b).
Proof.
  intros b t. assert (Atif.wf b) as [Hi Hs Hp Hc Hh Hco Hb Hcb] by apply Atif.push_all_wf, Atif.builder_new_wf.
  split; [apply Atif.push_all_content|]. split; [exact Hi|]. split; [exact Hs|]. split.
  - exists (Atif.bd_total_prompt b), (Atif.bd_total_completion b), (Atif.bd_total_cached b), (Atif.bd_total_cost b).
    by split_and!; try apply Hcb.
  - intros s e. unfold Atif.push_step. destruct (Atif.check_agent_step _); [|done].
    by destruct (Atif.next_totals _ _) as [[[[? ?] ?] ?]|].
Qed.
