(* ===== verification/Session.v ===== *)
(** [av-harness/src/session.rs]: the live session and the registry of sessions.

    A [Session] is shared by reference; every operation is a function from the state
    it finds to the state it leaves.  The registry maps an id to the address of a
    session, so that a handle obtained earlier stays valid when the id is recycled or
    evicted.  The clocks and the fresh uids are arguments.  Mutexes and atomics are
    held inside one operation; the one lock held across operations, [admission], is
    modelled step by step in the module [Closing]. *)

From S2P Require Import Prelude.
From S2P Require Import Rust.
From S2P Require Import CoreBase.
From S2P Require Import Json.
From S2P Require Import Float.
From S2P Require Import LoopDetect.
From S2P Require Import Core.
From S2P Require Import Jcs.
From S2P Require Import Serde.
From S2P Require Import Events.
From S2P Require Import Receipts.
From S2P Require Import Atif.
From coqutil Require Export Datatypes.RecordSetters.
Export TriangleBracketNotations.

Module Workflow.
Inductive t := Signed | Unsigned.

#[global] Instance t_eq_dec : EqDecision t.
Proof. solve_decision. Defined.

Definition as_str (w : t) : str :=
  match w with Signed => lit "signed" | Unsigned => lit "unsigned" end.

Definition parse (value : str) : option t :=
  if str_eqb value (lit "signed") then Some Signed
  else if str_eqb value (lit "unsigned") then Some Unsigned
  else None.
End Workflow.

Module SessionState.
Inductive t := Open | Draining | Sealed | Complete.

#[global] Instance t_eq_dec : EqDecision t.
Proof. solve_decision. Defined.

(** [state as u8]. *)
Definition as_u8 (s : t) : Z :=
  match s with Open => 0 | Draining => 1 | Sealed => 2 | Complete => 3 end.

Definition decode (raw : Z) : t :=
  if raw =? 1 then Draining else if raw =? 2 then Sealed else if raw =? 3 then Complete else Open.
End SessionState.

Record Totals := mkTotals {
  tool_calls : Z;
  tool_allowed : Z;
  tool_blocked : Z;
  prompt_tokens : Z;
  completion_tokens : Z;
  cached_tokens : Z;
  cost_usd_micros : Z;
}.

Definition totals_default : Totals := mkTotals 0 0 0 0 0 0 0.

(** The locks and notifications carry no data; [loop_state] is the breaker with its
    configuration, [last_activity_instant] the monotonic clock in nanoseconds. *)
Record Session := mkSession {
  id : str;
  session_scope : str;
  workflow : Workflow.t;
  identity : AgentIdentity;
  latest_identity : AgentIdentity;
  binding : option (option str);
  seq : Z;
  journal_index : Z;
  loop_state : Breaker.BreakerConfig * Breaker.Inner;
  chain : EventChain;
  atif : Atif.TrajectoryBuilder;
  totals : Totals;
  last_activity_ms : Z;
  last_activity_instant : Z;
  last_stop_reason_id : Z;
  tripped : Z;
  closed : Z;
  active_streams : Z;
  receipt : option Receipt;
  atif_path : option str;
  promoted : Z;
  pending_jobs : Z;
  capture_lost : Z;
  atif_steps : Z;
  lifecycle : Z;
}.

(** [AtomicU64::fetch_add(1)] and [fetch_sub(1)] wrap around. *)
Definition fetch_add (n : Z) : Z := (n + 1) mod 2 ^ 64.
Definition fetch_sub (n : Z) : Z := (n - 1) mod 2 ^ 64.

(** [compare_exchange]: the new value, or the one found. *)
Definition compare_exchange (cell expected new : Z) : result Z Z :=
  if cell =? expected then Ok new else Err cell.

(** * The session *)

Section Session.
Context {SHA : Sha256}.

Definition principal_binding (s : Session) : option str :=
  match binding s with Some p => p | None => None end.

Definition bind_principal (s : Session) (principal : option str) : Session * bool :=
  match binding s with
  | Some current => (s, bool_decide (current = principal))
  | None => (s<|binding := Some principal|>, true)
  end.

(** The agent block of a trajectory. *)
Definition agent_block (i : AgentIdentity) : Atif.Agent :=
  Atif.mkAgent (lit "agentvisor-ai-harness") (ag_version i) None None
    (Some (Object [(lit "charter", Wire.charter_to (ag_charter i));
                   (lit "instance_uid", JString (ag_instance_uid i));
                   (lit "ttl_remaining_s", match ag_ttl_remaining_s i with Some n => ser_u n | None => Null end)])).

(** [uid] and [tuid] are the fresh uids of the scope and of the trajectory. *)
Definition new (uid tuid : str) (now_ms now : Z) (sid : str) (w : Workflow.t) (i : AgentIdentity)
    (breaker : Breaker.BreakerConfig) : Session :=
  {| id := sid;
     session_scope := sid ++ lit "#" ++ uid;
     workflow := w;
     identity := i;
     latest_identity := i;
     binding := None;
     seq := 0;
     journal_index := 0;
     loop_state := (breaker, Breaker.new);
     chain := chain_new sid;
     atif := Atif.builder_new tuid (agent_block i) (Some sid);
     totals := totals_default;
     last_activity_ms := now_ms;
     last_activity_instant := now;
     last_stop_reason_id := 0;
     tripped := 0;
     closed := 0;
     active_streams := 0;
     receipt := None;
     atif_path := None;
     promoted := 0;
     pending_jobs := 0;
     capture_lost := 0;
     atif_steps := 0;
     lifecycle := SessionState.as_u8 SessionState.Open |}.

(** ** Sequence numbers *)

Definition next_seq (s : Session) : Session * Z := (s<|seq := fetch_add (seq s)|>, seq s).
Definition peek_seq (s : Session) : Z := seq s.
Definition advance_seq_past (s : Session) (n : Z) : Session := s<|seq := sat_add n 1|>.
Definition restore_next_seq (s : Session) (next : Z) : Session := s<|seq := next|>.

Definition commit_journal_index (s : Session) (index : Z) : Session * result unit str :=
  match compare_exchange (journal_index s) index (sat_add index 1) with
  | Ok next => (s<|journal_index := next|>, Ok tt)
  | Err actual =>
      (s, Err (lit "journal index changed from " ++ fmt_int index ++ lit " to " ++ fmt_int actual))
  end.
Definition restore_journal_index (s : Session) (next : Z) : Session := s<|journal_index := next|>.

(** ** Activity *)

Definition touch (now_ms now : Z) (s : Session) : Session :=
  s<|last_activity_ms := now_ms|><|last_activity_instant := now|>.

(** [Instant::elapsed] saturates at zero. *)
Definition idle_duration (now : Z) (s : Session) : Z := sat_sub now (last_activity_instant s).

(** ** Lifecycle *)

Definition lifecycle_state (s : Session) : SessionState.t := SessionState.decode (lifecycle s).

(** The loop ends with the first [compare_exchange] that finds what was loaded; with
    the state unchanged in between, that is the first. *)
Definition transition (from : list SessionState.t) (to : SessionState.t) (s : Session) : Session :=
  let state := lifecycle_state s in
  if bool_decide (state ∈ from) then s<|lifecycle := SessionState.as_u8 to|>
  else s.

(** The state [transition] refuses with a panic in debug builds. *)
Definition transition_illegal (from : list SessionState.t) (to : SessionState.t) (s : Session) : bool :=
  let state := lifecycle_state s in
  negb (bool_decide (state ∈ from)) && (SessionState.as_u8 state <? SessionState.as_u8 to).

Definition try_close (s : Session) : Session * bool :=
  match compare_exchange (closed s) 0 1 with
  | Ok c => (transition [SessionState.Open] SessionState.Draining (s<|closed := c|>), true)
  | Err _ => (s, false)
  end.

Definition artifact_committed_flag (s : Session) : bool :=
  match lifecycle_state s with SessionState.Sealed | SessionState.Complete => true | _ => false end.

Definition close_complete_flag (s : Session) : bool :=
  bool_decide (lifecycle_state s = SessionState.Complete).

Definition is_closed (s : Session) : bool := negb (closed s =? 0) || artifact_committed_flag s.

Definition reset_close (s : Session) : Session :=
  transition [SessionState.Draining] SessionState.Open (s<|closed := 0|>).

Definition mark_artifact_committed (s : Session) : Session :=
  transition [SessionState.Open; SessionState.Draining] SessionState.Sealed s.

Definition mark_close_complete (s : Session) : Session :=
  transition [SessionState.Sealed] SessionState.Complete s.

(** ** Leases *)

Definition lease_new (s : Session) : Session := s<|active_streams := fetch_add (active_streams s)|>.

Definition try_lease (s : Session) : option Session :=
  if is_closed s then None else Some (lease_new s).

(** [SessionLease::drop]: whether the waiters are notified. *)
Definition lease_drop (s : Session) : Session * bool :=
  (s<|active_streams := fetch_sub (active_streams s)|>, active_streams s =? 1).

Definition worker_job_started (s : Session) : Session := s<|pending_jobs := fetch_add (pending_jobs s)|>.

Definition worker_job_finished (s : Session) : Session * bool :=
  (s<|pending_jobs := fetch_sub (pending_jobs s)|>, pending_jobs s =? 1).

Definition note_atif_step (s : Session) : Session := s<|atif_steps := fetch_add (atif_steps s)|>.

(** ** Promotion *)

Definition try_promote (s : Session) : Session * bool :=
  match compare_exchange (promoted s) 0 1 with
  | Ok p => (s<|promoted := p|>, true)
  | Err _ => (s, false)
  end.
Definition is_promoted (s : Session) : bool := promoted s =? 2.
Definition finish_promotion (s : Session) : Session := s<|promoted := 2|>.
Definition reset_promotion (s : Session) : Session :=
  match compare_exchange (promoted s) 1 0 with
  | Ok p => s<|promoted := p|>
  | Err _ => s
  end.
Definition restore_pending_receipt (s : Session) (r : Receipt) : Session := s<|receipt := Some r|>.
Definition restore_receipt (s : Session) (r : Receipt) : Session :=
  finish_promotion (restore_pending_receipt s r).

(** ** Evidence and enforcement *)

Definition mark_capture_failed (s : Session) : Session := s<|capture_lost := 1|>.
Definition capture_failed (s : Session) : bool := negb (capture_lost s =? 0).
Definition refresh_identity (s : Session) (i : AgentIdentity) : Session := s<|latest_identity := i|>.
Definition record_stop_reason (s : Session) (r : StopReason.t) : Session :=
  s<|last_stop_reason_id := StopReason.id r|>.
Definition latch_enforcement (s : Session) (r : StopReason.t) : Session := s<|tripped := StopReason.id r|>.
Definition enforcement_tripped (s : Session) : bool := negb (tripped s =? 0).

Definition is_empty_unsigned_quarantine (s : Session) : bool :=
  bool_decide (workflow s = Workflow.Unsigned) && artifact_committed_flag s
  && bool_decide (atif_path s = None).

(** ** Trajectories *)

Definition stamp_trajectory_principal (s : Session) (t : Atif.Trajectory) : Atif.Trajectory :=
  let a := Atif.tj_agent t in
  let extra := value_insert (lit "principal_binding")
    (match principal_binding s with Some p => JString p | None => Null end)
    (default (Object []) (Atif.at_extra a)) in
  t<|Atif.tj_agent := a<|Atif.at_extra := Some extra|>|>.

Definition fresh_builder (tuid : str) (s : Session) : Atif.TrajectoryBuilder :=
  Atif.builder_new tuid (agent_block (latest_identity s)) (Some (id s)).

Definition take_trajectory (tuid : str) (s : Session) : Session * Atif.Trajectory :=
  (s<|atif := fresh_builder tuid s|>, stamp_trajectory_principal s (Atif.finish (atif s))).

Definition snapshot_trajectory (s : Session) : Atif.Trajectory :=
  stamp_trajectory_principal s (Atif.finish (atif s)).

Definition drain_trajectory_builder (tuid : str) (s : Session) : Session :=
  s<|atif := fresh_builder tuid s|>.

(** ** Receipts *)

(** [u8::try_from(n).unwrap_or(0)]. *)
Definition u8_or_zero (n : Z) : Z := if n <=? 255 then n else 0.

Definition receipt_body (now : Z) (uid : str) (s : Session) (subject : ReceiptSubject)
    (stop : StopReason.t) : ReceiptBody :=
  let recorded := StopReason.from_id (u8_or_zero (last_stop_reason_id s)) in
  let stop := if last_stop_reason_id s =? 0 then stop else recorded in
  let t := totals s in
  new_body now uid (id s) (latest_identity s) subject
    (mkToolCalls (tool_calls t) (tool_allowed t) (tool_blocked t))
    (mkCost (prompt_tokens t) (completion_tokens t) (cached_tokens t) (cost_usd_micros t)) stop.

(** ** Recovery *)

Definition recovered_counter (value : option Z) (field : string) : result Z str :=
  let value := default 0 value in
  if value >? JCS_SAFE_MAX then Err (lit "recovered " ++ lit field ++ lit " exceeds JCS-safe bounds")
  else Ok value.

(** [f.round()]: to the nearest integer, halves away from zero. *)
Definition f64_round (f : f64) : f64 :=
  match f with
  | S754_finite s m e =>
      if e >=? 0 then f
      else
        let n := (2 * Zpos m + 2 ^ (- e)) / (2 * 2 ^ (- e)) in
        binary_normalize f64_prec f64_emax (if s then - n else n) 0 s
  | _ => f
  end.

(** [f as u64]: towards zero, saturating. *)
Definition f64_as_u64 (f : f64) : Z :=
  match f with
  | S754_nan | S754_zero _ => 0
  | S754_infinity s => if s then 0 else u64_max
  | S754_finite s m e =>
      if s then 0 else Z.min u64_max (if e >=? 0 then Zpos m * 2 ^ e else Zpos m / 2 ^ (- e))
  end.

Definition cost_from_atif_total (cost : option f64) : result Z str :=
  match cost with
  | None => Ok 0
  | Some cost =>
      if negb (is_finite cost) || SFltb cost zero
      then Err (lit "recovered cost is not finite and nonnegative")
      else
        let micros := f64_round (f64_mul cost (f64_of_int USD_MICROS_PER_DOLLAR)) in
        if SFltb (f64_of_int JCS_SAFE_MAX) micros
        then Err (lit "recovered cost exceeds JCS-safe bounds")
        else Ok (f64_as_u64 micros)
  end.

(** [extra.get(key).and_then(Value::as_u64)]. *)
Definition extra_u64 (key : string) (extra : Value) : option Z :=
  match value_get (lit key) extra with Some (Number n) => as_u64 n | _ => None end.

Definition recovered_cost (extra : Value) (total_cost_usd : option f64) : result Z str :=
  match extra_u64 "cost_usd_micros" extra with
  | Some v => recovered_counter (Some v) "cost"
  | None => cost_from_atif_total total_cost_usd
  end.

(** The branch of an artifact with an [extra] block. *)
Definition recover_extra (s : Session) (extra : Value) (total_cost_usd : option f64)
  : result Session str :=
  let? cost := recovered_cost extra total_cost_usd in
  let? calls := recovered_counter (extra_u64 "tool_calls" extra) "tool calls" in
  let? allowed := recovered_counter (extra_u64 "tool_allowed" extra) "allowed tools" in
  let? blocked := recovered_counter (extra_u64 "tool_blocked" extra) "blocked tools" in
  if match u64_checked_add allowed blocked with None => true | Some c => c >? calls end
  then Err (lit "recovered tool accounting is inconsistent")
  else
    let t := totals s in
    let s := s<|totals := mkTotals calls allowed blocked (prompt_tokens t) (completion_tokens t)
                            (cached_tokens t) cost|> in
    let? s :=
      match extra_u64 "stop_reason_id" extra with
      | Some n => if n >? 255 then Err (lit "recovered stop reason exceeds u8")
                  else Ok (s<|last_stop_reason_id := n|>)
      | None => Ok s
      end in
    match extra_u64 "enforcement_latched" extra with
    | Some n => if n >? 255 then Err (lit "recovered enforcement latch exceeds u8")
                else Ok (if n =? 0 then s else s<|tripped := n|>)
    | None => Ok s
    end.

Definition recover_metrics (s : Session) (m : Atif.FinalMetrics) : result Session str :=
  let? p := recovered_counter (Atif.fm_total_prompt_tokens m) "prompt tokens" in
  let? c := recovered_counter (Atif.fm_total_completion_tokens m) "completion tokens" in
  let? h := recovered_counter (Atif.fm_total_cached_tokens m) "cached tokens" in
  let t := totals s in
  let s := s<|totals := mkTotals (tool_calls t) (tool_allowed t) (tool_blocked t) p c h
                          (cost_usd_micros t)|> in
  match Atif.fm_extra m, Atif.fm_total_cost_usd m with
  | Some extra, cost => recover_extra s extra cost
  | None, Some cost =>
      let? micros := cost_from_atif_total (Some cost) in
      let t := totals s in
      Ok (s<|totals := mkTotals (tool_calls t) (tool_allowed t) (tool_blocked t) p c h micros|>)
  | None, None => Ok s
  end.

Definition recover_unsigned_with_principal (uid tuid : str) (now_ms now : Z) (sid : str)
    (i : AgentIdentity) (breaker : Breaker.BreakerConfig) (path : str)
    (metrics : option Atif.FinalMetrics) (next : Z) (principal : option str) : result Session str :=
  let s := new uid tuid now_ms now sid Workflow.Unsigned i breaker in
  let s := (bind_principal s principal).1 in
  let s := restore_next_seq s next in
  let s := mark_artifact_committed (try_close s).1 in
  let s := s<|atif_path := Some path|> in
  match metrics with
  | Some m => recover_metrics s m
  | None => Ok s
  end.

Definition recover_unsigned (uid tuid : str) (now_ms now : Z) (sid : str) (i : AgentIdentity)
    (breaker : Breaker.BreakerConfig) (path : str) (metrics : option Atif.FinalMetrics) (next : Z)
  : result Session str :=
  recover_unsigned_with_principal uid tuid now_ms now sid i breaker path metrics next None.
End Session.

(** * The registry *)

Abbreviation addr := nat.

(** [heap] holds every session ever allocated (an [Arc] keeps it alive while someone
    can reach it); [sessions] is the concurrent map. *)
Record World := mkWorld { heap : list Session; sessions : gmap str addr }.

(** [DashMap::iter]: each entry once, in an unspecified order. *)
Class DashIter := {
  dash_iter : gmap str addr -> list (str * addr);
  dash_iter_perm m : dash_iter m ≡ₚ map_to_list m;
}.

Module Registry.

Definition empty : World := mkWorld [] ∅.

Definition alloc (w : World) (s : Session) : World * addr :=
  (mkWorld (heap w ++ [s]) (sessions w), length (heap w)).

Definition install (w : World) (sid : str) (s : Session) : World * addr :=
  (mkWorld (heap w ++ [s]) (<[sid := length (heap w)]> (sessions w)), length (heap w)).

(** A test on the session an address holds. *)
Definition holds (w : World) (f : Session -> bool) (a : addr) : bool :=
  match heap w !! a with Some s => f s | None => false end.

(** [fresh] is the session [Session::new] would give. *)
Definition get_or_open_inner (reopen_after_close : bool) (fresh : Session) (sid : str) (w : World)
  : World * addr :=
  match sessions w !! sid with
  | Some a =>
      if reopen_after_close && holds w close_complete_flag a then
        if holds w enforcement_tripped a then (w, a) else install w sid fresh
      else (w, a)
  | None => install w sid fresh
  end.

Section Registry.
Context {SHA : Sha256} {DI : DashIter}.

Definition get_or_open (uid tuid : str) (now_ms now : Z) (sid : str) (wf : Workflow.t)
    (i : AgentIdentity) (breaker : Breaker.BreakerConfig) (w : World) : World * addr :=
  get_or_open_inner true (new uid tuid now_ms now sid wf i breaker) sid w.

Definition get_or_open_no_reopen (uid tuid : str) (now_ms now : Z) (sid : str) (wf : Workflow.t)
    (i : AgentIdentity) (breaker : Breaker.BreakerConfig) (w : World) : World * addr :=
  get_or_open_inner false (new uid tuid now_ms now sid wf i breaker) sid w.

Definition get (w : World) (sid : str) : option addr := sessions w !! sid.

(** [digest.get(..32)]: the digest is ASCII. *)
Definition live_atif_stems (w : World) : gset str :=
  list_to_set (map (fun e => take 32 (sha256_hex (as_bytes e.1))) (dash_iter (sessions w))).

Definition insert_recovered (s : Session) (w : World) : World * addr :=
  match sessions w !! id s with
  | Some a => (w, a)
  | None => install w (id s) s
  end.

Definition try_insert_recovered (s : Session) (w : World) : World * result addr addr :=
  match sessions w !! id s with
  | Some a => (w, Err a)
  | None => let '(w', a) := install w (id s) s in (w', Ok a)
  end.

Definition remove (sid : str) (w : World) : World := mkWorld (heap w) (delete sid (sessions w)).

(** ** Eviction *)

Definition quiet (s : Session) : bool := (active_streams s =? 0) && (pending_jobs s =? 0).

Definition NANOS_PER_SEC : Z := 1000000000.

(** The test of the [retain] pass, the clock standing at [now]. *)
Definition finished_idle (idle_s now : Z) (s : Session) : bool :=
  bool_decide (workflow s = Workflow.Signed) && close_complete_flag s && negb (capture_failed s)
  && negb (enforcement_tripped s) && quiet s && (idle_duration now s >=? idle_s * NANOS_PER_SEC).

(** The three retained classes. *)
Definition latched (s : Session) : bool :=
  bool_decide (workflow s = Workflow.Signed) && close_complete_flag s && enforcement_tripped s
  && negb (capture_failed s) && quiet s.
Definition capture_quarantined (s : Session) : bool :=
  artifact_committed_flag s && capture_failed s && quiet s.
Definition empty_quarantined (s : Session) : bool := is_empty_unsigned_quarantine s && quiet s.

Definition MAX_LATCHED_RETAINED : nat := Z.to_nat 4096.
Definition MAX_CAPTURE_FAILED_RETAINED : nat := Z.to_nat 4096.
Definition MAX_EMPTY_UNSIGNED_RETAINED : nat := Z.to_nat 4096.

(** [sort_by_key] on [Reverse(idle)], which is stable. *)
Fixpoint insert_idle (x : addr * Z) (l : list (addr * Z)) : list (addr * Z) :=
  match l with
  | [] => [x]
  | y :: l' => if y.2 <? x.2 then x :: l else y :: insert_idle x l'
  end.
Definition sort_idle (l : list (addr * Z)) : list (addr * Z) :=
  fold_left (fun acc x => insert_idle x acc) l [].

(** The registered sessions that satisfy a test, in the map's order. *)
Definition select (f : Session -> bool) (w : World) : list addr :=
  List.filter (holds w f) (map snd (dash_iter (sessions w))).

Definition id_of (w : World) (a : addr) : str :=
  match heap w !! a with Some s => id s | None => [] end.
Definition idle_of (w : World) (now : Z) (a : addr) : Z :=
  match heap w !! a with Some s => idle_duration now s | None => 0 end.

(** One overflow pass: beyond the cap, the longest idle go.  [clock a] is the reading
    for the session at [a]. *)
Definition overflow (f : Session -> bool) (cap : nat) (clock : addr -> Z) (w : World)
  : World * list addr :=
  let l := select f w in
  if (cap <? length l)%nat then
    let by_idle := map fst (sort_idle (map (fun a => (a, idle_of w (clock a) a)) l)) in
    let victims := take (length l - cap) by_idle in
    (mkWorld (heap w) (fold_left (fun m a => delete (id_of w a) m) victims (sessions w)), victims)
  else (w, []).

Definition retain_pass (idle_s : Z) (clock : addr -> Z) (w : World) : World * list addr :=
  let evict a := holds w (finished_idle idle_s (clock a)) a in
  (mkWorld (heap w) (filter (fun e => evict e.2 = false) (sessions w)),
   List.filter evict (map snd (dash_iter (sessions w)))).

(** [clock k a] is the clock's reading when pass [k] looks at the session at [a]. *)
Definition evict_finalized (idle_s : Z) (clock : nat -> addr -> Z) (w : World) : World * list addr :=
  let '(w, e0) := retain_pass idle_s (clock 0%nat) w in
  let '(w, e1) := overflow latched MAX_LATCHED_RETAINED (clock 1%nat) w in
  let '(w, e2) := overflow capture_quarantined MAX_CAPTURE_FAILED_RETAINED (clock 2%nat) w in
  let '(w, e3) := overflow empty_quarantined MAX_EMPTY_UNSIGNED_RETAINED (clock 3%nat) w in
  (w, e0 ++ e1 ++ e2 ++ e3).

(** ** Views *)

Definition pending_close_sessions (w : World) : list addr :=
  select (fun s => artifact_committed_flag s && negb (close_complete_flag s)
                   && negb (capture_failed s) && negb (is_empty_unsigned_quarantine s)) w.

Definition idle_sessions (idle_s : Z) (clock : addr -> Z) (w : World) : list addr :=
  List.filter (fun a => holds w (fun s => (idle_duration (clock a) s >=? idle_s * NANOS_PER_SEC)
                                          && negb (is_closed s) && (active_streams s =? 0)) a)
    (map snd (dash_iter (sessions w))).

Definition open_sessions_including_closed (w : World) : list addr := map snd (dash_iter (sessions w)).
Definition open_sessions (w : World) : list addr := select (fun s => negb (is_closed s)) w.
Definition len (w : World) : nat := size (sessions w).
Definition is_empty (w : World) : bool := Nat.eqb (size (sessions w)) 0.
End Registry.
End Registry.

(** * Closing against admission *)

Module Closing.

(** The session with its [admission] lock: [readers] hold the read guard and have not
    looked at the session yet, [admitted] hold it, found the session open and are
    about to take their lease; [writer] tells whether the write guard is held. *)
Record t := mk { session : Session; readers : nat; admitted : nat; writer : bool }.

(** [is_closed] loads two atomics; no claim is made while the read guard is held, so
    the load of [lifecycle] decides.  A closer seals only under its claim. *)
Inductive step : t -> t -> Prop :=
| admission_guard s r a : step (mk s r a false) (mk s (S r) a false)
| lease_refused s r a w : is_closed s = true -> step (mk s (S r) a w) (mk s r a w)
| lease_granted s r a w : is_closed s = false -> step (mk s (S r) a w) (mk s r (S a) w)
| lease_taken s r a w : step (mk s r (S a) w) (mk (lease_new s) r a w)
| lease_dropped s r a w : 0 < active_streams s -> step (mk s r a w) (mk (lease_drop s).1 r a w)
| close_guard s : step (mk s 0 0 false) (mk s 0 0 true)
| claimed s r a : step (mk s r a true) (mk (try_close s).1 r a true)
| close_guard_dropped s r a : step (mk s r a true) (mk s r a false)
| sealed s r a w : closed s <> 0 -> step (mk s r a w) (mk (mark_artifact_committed s) r a w)
| completed s r a w : step (mk s r a w) (mk (mark_close_complete s) r a w)
| claim_dropped s r a w : step (mk s r a w) (mk (reset_close s) r a w).
End Closing.
