(* ===== verification/SessionProofs.v ===== *)
(** What the session and the registry guarantee: histories only move forward, an id
    has at most one session that admits work, sweeps remove finished sessions only. *)

From S2P Require Import Prelude.
From S2P Require Import Rust.
From S2P Require Import CoreBase.
From S2P Require Import Json.
From S2P Require Import LoopDetect.
From S2P Require Import Jcs.
From S2P Require Import Events.
From S2P Require Import Receipts.
From S2P Require Import Atif.
From S2P Require Import Session.

(** * One session *)

(** Every way the program changes a session it shares: the operations of the type and
    the writes to its public fields.  The latch is set with the reasons of the
    enforcement sites, none of which is [Unknown]. *)
Inductive session_step : Session -> Session -> Prop :=
| ss_bind s p : session_step s (bind_principal s p).1
| ss_next_seq s : session_step s (next_seq s).1
| ss_advance s n : session_step s (advance_seq_past s n)
| ss_restore_seq s n : session_step s (restore_next_seq s n)
| ss_commit_index s n : session_step s (commit_journal_index s n).1
| ss_restore_index s n : session_step s (restore_journal_index s n)
| ss_touch s now_ms now : session_step s (touch now_ms now s)
| ss_try_close s : session_step s (try_close s).1
| ss_reset_close s : session_step s (reset_close s)
| ss_seal s : session_step s (mark_artifact_committed s)
| ss_complete s : session_step s (mark_close_complete s)
| ss_lease s s' : try_lease s = Some s' -> session_step s s'
| ss_lease_drop s : session_step s (lease_drop s).1
| ss_job_started s : session_step s (worker_job_started s)
| ss_job_finished s : session_step s (worker_job_finished s).1
| ss_note_step s : session_step s (note_atif_step s)
| ss_try_promote s : session_step s (try_promote s).1
| ss_finish_promotion s : session_step s (finish_promotion s)
| ss_reset_promotion s : session_step s (reset_promotion s)
| ss_restore_receipt s r : session_step s (restore_receipt s r)
| ss_restore_pending s r : session_step s (restore_pending_receipt s r)
| ss_capture_failed s : session_step s (mark_capture_failed s)
| ss_refresh s i : session_step s (refresh_identity s i)
| ss_stop_reason s r : session_step s (record_stop_reason s r)
| ss_latch s r : r <> StopReason.Unknown -> session_step s (latch_enforcement s r)
| ss_take s tuid : session_step s (take_trajectory tuid s).1
| ss_drain s tuid : session_step s (drain_trajectory_builder tuid s)
| ss_public s l c b t r p :
    session_step s (s<|loop_state := l|><|chain := c|><|atif := b|><|totals := t|>
                     <|receipt := r|><|atif_path := p|>).

(** What a step never undoes. *)
Record evolves (s s' : Session) : Prop := {
  ev_names : (id s', session_scope s', workflow s', identity s')
             = (id s, session_scope s, workflow s, identity s);
  ev_binding : forall p, binding s = Some p -> binding s' = Some p;
  ev_committed : artifact_committed_flag s = true -> artifact_committed_flag s' = true;
  ev_complete : close_complete_flag s = true -> close_complete_flag s' = true;
  ev_tripped : enforcement_tripped s = true -> enforcement_tripped s' = true;
  ev_capture : capture_failed s = true -> capture_failed s' = true;
  ev_promoted : is_promoted s = true -> is_promoted s' = true;
}.

#[global] Instance evolves_preorder : PreOrder evolves.
Proof.
  split.
  - by intros s; split.
  - intros s1 s2 s3 [] []. split; try (by auto). congruence.
Qed.

Lemma reason_id_nonzero r : r <> StopReason.Unknown -> StopReason.id r <> 0.
Proof. by destruct r. Qed.

Lemma transition_evolves from to s :
  (forall st, st ∈ from -> SessionState.as_u8 st < SessionState.as_u8 to \/ st = SessionState.Draining) ->
  evolves s (transition from to s).
Proof.
  intros Hf. unfold transition. case_bool_decide as Hi; [|done]. apply Hf in Hi. revert Hi.
  unfold lifecycle_state. destruct s; cbn.
  split; try done; unfold artifact_committed_flag, close_complete_flag, lifecycle_state; cbn in *;
    destruct (SessionState.decode _), to; cbn in *; try done; intros; exfalso; destruct Hi; (lia || done).
Qed.

(** The claim flag is outside the chain. *)
Lemma set_closed_evolves s c : evolves s (s<|closed := c|>).
Proof. by destruct s. Qed.

Lemma session_step_evolves s s' : session_step s s' -> evolves s s'.
Proof.
  destruct 1; try (by destruct s).
  - unfold bind_principal. destruct (binding s) eqn:Hb; [done|]. destruct s; cbn in *. by split; subst.
  - unfold commit_journal_index. destruct (compare_exchange _ _ _); by destruct s.
  - unfold try_close. destruct (compare_exchange _ _ _); [|done]. cbn.
    etrans; [apply set_closed_evolves|]. apply transition_evolves. intros st ->%list_elem_of_singleton. by left.
  - unfold reset_close. etrans; [apply set_closed_evolves|]. apply transition_evolves.
    intros st ->%list_elem_of_singleton. by right.
  - apply transition_evolves. intros st [->| ->%list_elem_of_singleton]%elem_of_cons; by left.
  - apply transition_evolves. intros st ->%list_elem_of_singleton. by left.
  - unfold try_lease in H. destruct (is_closed s); [done|]. injection H as <-. by destruct s.
  - unfold try_promote, compare_exchange. destruct (promoted s =? 0) eqn:E; [|done].
    destruct s; cbn in *. split; try done. unfold is_promoted. cbn. b2p. by subst.
  - unfold reset_promotion, compare_exchange. destruct (promoted s =? 1) eqn:E; [|done].
    destruct s; cbn in *. split; try done. unfold is_promoted. cbn. b2p. by subst.
  - apply reason_id_nonzero in H. destruct s; split; try done. unfold enforcement_tripped. cbn. intros _.
    apply negb_true_iff. by apply Z.eqb_neq.
Qed.

(** * The registry *)

Section World.
Context {SHA : Sha256} {DI : DashIter}.

(** An entry leads to a session that bears its key. *)
Definition keyed (w : World) : Prop :=
  forall k a, sessions w !! k = Some a -> exists s, heap w !! a = Some s /\ id s = k.

(** A session no longer registered, and not taken out by [remove], is sealed. *)
Definition retired (w : World) (R : gset addr) : Prop :=
  forall a s, heap w !! a = Some s ->
    sessions w !! id s = Some a \/ artifact_committed_flag s = true \/ a ∈ R.

(** The registry and the sessions it shares, with the addresses that [remove] took
    out. *)
Inductive world_step : World * gset addr -> World * gset addr -> Prop :=
| ws_session w R a s s' :
    heap w !! a = Some s -> session_step s s' ->
    world_step (w, R) (mkWorld (<[a := s']> (heap w)) (sessions w), R)
| ws_get_or_open w R uid tuid now_ms now sid wf i breaker :
    world_step (w, R) ((Registry.get_or_open uid tuid now_ms now sid wf i breaker w).1, R)
| ws_get_or_open_no_reopen w R uid tuid now_ms now sid wf i breaker :
    world_step (w, R) ((Registry.get_or_open_no_reopen uid tuid now_ms now sid wf i breaker w).1, R)
| ws_insert_recovered w R s : world_step (w, R) ((Registry.insert_recovered s w).1, R)
| ws_try_insert_recovered w R s : world_step (w, R) ((Registry.try_insert_recovered s w).1, R)
| ws_remove w R sid a :
    sessions w !! sid = Some a -> world_step (w, R) (Registry.remove sid w, R ∪ {[a]})
| ws_evict w R idle_s clock : world_step (w, R) ((Registry.evict_finalized idle_s clock w).1, R).

Lemma keyed_inj w k k' a : keyed w -> sessions w !! k = Some a -> sessions w !! k' = Some a -> k = k'.
Proof. intros Hk (s & Hs & <-)%Hk (s' & Hs' & <-)%Hk. congruence. Qed.

Lemma install_keyed w s : keyed w -> keyed (Registry.install w (id s) s).1.
Proof.
  intros Hw k a. cbn. rewrite lookup_insert. case_decide as E.
  - intros [= <-]. exists s. by rewrite lookup_app_r, Nat.sub_diag.
  - intros (s' & Hs & Hid)%Hw. exists s'. by rewrite lookup_app_l by (by eapply lookup_lt_Some).
Qed.

(** Installing retires whatever held the id, which must be sealed already. *)
Lemma install_retired w R s : keyed w -> retired w R ->
  (forall a, sessions w !! id s = Some a -> Registry.holds w artifact_committed_flag a = true) ->
  retired (Registry.install w (id s) s).1 R.
Proof.
  intros Hw Hr Ho a s'. cbn. rewrite lookup_snoc_Some, lookup_insert. intros [[Hl Ha]|[-> ->]].
  - destruct (Hr a s' Ha) as [Hs|?]; [|by auto]. case_decide as E; [|by auto].
    rewrite <- E in Hs. apply Ho in Hs. unfold Registry.holds in Hs. rewrite Ha in Hs. auto.
  - left. by rewrite decide_True.
Qed.

(** ** Sweeps *)

(** One pass: it takes entries out, the ones it reports, each for a reason [P]. *)
Record pass (P : Session -> Prop) (w w' : World) (ev : list addr) : Prop := {
  pass_heap : heap w' = heap w;
  pass_sub : sessions w' ⊆ sessions w;
  pass_nodup : NoDup ev;
  pass_out : forall a, a ∈ ev <-> exists k, sessions w !! k = Some a /\ sessions w' !! k = None;
  pass_why : forall a, a ∈ ev -> exists s, heap w !! a = Some s /\ P s;
}.

Lemma pass_none P w : pass P w w [].
Proof.
  split; try done; [apply NoDup_nil_2| |by intros a ?%not_elem_of_nil].
  intros a. split; [by intros ?%not_elem_of_nil|]. intros (k & H1 & H2). congruence.
Qed.

Lemma pass_keyed P w w' ev : pass P w w' ev -> keyed w -> keyed w'.
Proof.
  intros [Hh Hs _ _ _] Hw k a Ha. rewrite Hh. apply Hw. by eapply lookup_weaken.
Qed.

Lemma pass_mono P Q w w' ev : (forall s, P s -> Q s) -> pass P w w' ev -> pass Q w w' ev.
Proof. intros HPQ [H1 H2 H3 H4 H5]. split; try done. intros a (s & Hs & Hp)%H5. eauto. Qed.

Lemma pass_trans P w1 w2 w3 e1 e2 : keyed w1 ->
  pass P w1 w2 e1 -> pass P w2 w3 e2 -> pass P w1 w3 (e1 ++ e2).
Proof.
  intros Hk [Hh1 Hs1 Hn1 Ho1 Hy1] [Hh2 Hs2 Hn2 Ho2 Hy2]. split.
  - congruence.
  - by trans (sessions w2).
  - apply NoDup_app. split_and!; [done| |done]. intros a (k & H1 & H2)%Ho1 (k' & H1' & H2')%Ho2.
    pose proof (lookup_weaken _ _ _ _ H1' Hs1) as Hw.
    pose proof (keyed_inj _ _ _ _ Hk H1 Hw) as ->. congruence.
  - intros a. rewrite elem_of_app, Ho1, Ho2. split.
    + intros [(k & H1 & H2)|(k & H1 & H2)]; exists k; split; try done.
      * destruct (sessions w3 !! k) eqn:E; [|done]. pose proof (lookup_weaken _ _ _ _ E Hs2). congruence.
      * by eapply lookup_weaken.
    + intros (k & H1 & H3). destruct (sessions w2 !! k) as [b|] eqn:E.
      * right. exists k. split; [|done]. pose proof (lookup_weaken _ _ _ _ E Hs1). congruence.
      * left. eauto.
  - intros a [Ha|Ha]%elem_of_app; [by apply Hy1|]. rewrite <- Hh1. by apply Hy2.
Qed.

Lemma pass_retired P w w' ev R : (forall s, P s -> artifact_committed_flag s = true) ->
  pass P w w' ev -> keyed w -> retired w R -> retired w' R.
Proof.
  intros HP [Hh Hs _ Ho Hy] Hk Hr a s. rewrite Hh. intros Ha.
  destruct (Hr a s Ha) as [Hl|?]; [|by auto]. destruct (sessions w' !! id s) as [b|] eqn:E.
  - left. pose proof (lookup_weaken _ _ _ _ E Hs). congruence.
  - right. left. destruct (Hy a) as (s' & Hs' & Hp); [apply Ho; eauto|].
    assert (s' = s) as -> by congruence. auto.
Qed.

Lemma dash_iter_elem m k a : (k, a) ∈ dash_iter m <-> m !! k = Some a.
Proof. by rewrite dash_iter_perm, elem_of_map_to_list. Qed.

Lemma addresses_elem w a : a ∈ map snd (dash_iter (sessions w)) <-> exists k, sessions w !! k = Some a.
Proof.
  rewrite list_elem_of_fmap. split.
  - intros ([k b] & -> & H). exists k. by apply dash_iter_elem.
  - intros [k H]. exists (k, a). split; [done|]. by apply dash_iter_elem.
Qed.

Lemma addresses_nodup w : keyed w -> NoDup (map snd (dash_iter (sessions w))).
Proof.
  intros Hk. assert (Hn : NoDup (dash_iter (sessions w))) by (rewrite dash_iter_perm; apply NoDup_map_to_list).
  apply NoDup_fmap_2_strong; [|done]. intros [k a] [k' a'] H1 H2. cbn. intros ->.
  apply dash_iter_elem in H1, H2. f_equal. by eapply keyed_inj.
Qed.

Lemma filter_elem {A} (f : A -> bool) l x : x ∈ List.filter f l <-> x ∈ l /\ f x = true.
Proof. by rewrite !list_elem_of_In, filter_In. Qed.

Lemma filter_nodup {A} (f : A -> bool) l : NoDup l -> NoDup (List.filter f l).
Proof. rewrite !NoDup_ListNoDup. apply List.NoDup_filter. Qed.

Lemma select_elem f w a :
  a ∈ Registry.select f w <-> (exists k, sessions w !! k = Some a) /\ Registry.holds w f a = true.
Proof. unfold Registry.select. by rewrite filter_elem, addresses_elem. Qed.

Lemma select_nodup f w : keyed w -> NoDup (Registry.select f w).
Proof. intros. by apply filter_nodup, addresses_nodup. Qed.

Lemma nodup_length {A} (l l' : list A) : NoDup l -> (forall x, x ∈ l -> x ∈ l') -> (length l <= length l')%nat.
Proof. intros Hn Hi. by apply submseteq_length, NoDup_submseteq. Qed.

(** Taking entries out does not enlarge a class. *)
Lemma select_shrinks P f w w' ev : keyed w -> pass P w w' ev ->
  (length (Registry.select f w') <= length (Registry.select f w))%nat.
Proof.
  intros Hk Hp. apply nodup_length; [by eapply select_nodup, pass_keyed|]. destruct Hp as [Hh Hs _ _ _].
  intros a. rewrite !select_elem. unfold Registry.holds. rewrite Hh. intros [[k H] ?]. split; [|done].
  exists k. by eapply lookup_weaken.
Qed.

Lemma holds_true f w a : Registry.holds w f a = true <-> exists s, heap w !! a = Some s /\ f s = true.
Proof. unfold Registry.holds. destruct (heap w !! a); naive_solver. Qed.

Lemma retain_pass_ok idle_s clock w : keyed w ->
  pass (fun s => exists now, Registry.finished_idle idle_s now s = true) w
    (Registry.retain_pass idle_s clock w).1 (Registry.retain_pass idle_s clock w).2.
Proof.
  intros Hk. unfold Registry.retain_pass. split; cbn.
  - done.
  - apply map_filter_subseteq.
  - by apply filter_nodup, addresses_nodup.
  - intros a. rewrite filter_elem, addresses_elem. split.
    + intros [[k H] He]. exists k. split; [done|]. apply map_lookup_filter_None_2. right.
      intros b Hb. cbn. rewrite Hb in H. injection H as ->. congruence.
    + intros (k & H & Hn). split; [by exists k|]. rewrite map_lookup_filter_None in Hn.
      destruct Hn as [?|Hn]; [congruence|]. specialize (Hn a H). cbn in Hn.
      by destruct (Registry.holds w _ a).
  - intros a [_ (s & Hs & Hf)%holds_true]%filter_elem. eauto.
Qed.

Lemma insert_idle_perm x l : Registry.insert_idle x l ≡ₚ x :: l.
Proof.
  induction l as [|y l IH]; cbn; [done|]. case_match; [done|]. rewrite IH. by constructor.
Qed.

Lemma sort_idle_perm l : Registry.sort_idle l ≡ₚ l.
Proof.
  unfold Registry.sort_idle. cut (forall acc, fold_left (fun acc x => Registry.insert_idle x acc) l acc ≡ₚ l ++ acc).
  { intros H. rewrite H. by rewrite app_nil_r. }
  induction l as [|x l IH]; intros acc; cbn; [done|]. rewrite IH, insert_idle_perm. by rewrite Permutation_middle.
Qed.

Lemma fold_delete_lookup {A} (g : A -> str) (l : list A) (m : gmap str addr) (k : str) :
  fold_left (fun m a => delete (g a) m) l m !! k = if bool_decide (k ∈ map g l) then None else m !! k.
Proof.
  revert m. induction l as [|x l IH]; intros m; cbn; [done|]. rewrite IH.
  destruct (decide (k = g x)) as [->|Hne].
  - rewrite lookup_delete_eq. rewrite (bool_decide_eq_true_2 (_ ∈ _ :: _)) by constructor. by case_bool_decide.
  - rewrite lookup_delete_ne by done.
    rewrite (bool_decide_ext (k ∈ g x :: map g l) (k ∈ map g l)); [done|]. set_solver.
Qed.

Definition longer (x y : addr * Z) : Prop := y.2 <= x.2.

Lemma insert_idle_sorted x l : StronglySorted longer l -> StronglySorted longer (Registry.insert_idle x l).
Proof.
  induction 1 as [|y l Hs IH Hf]; cbn; [by repeat constructor|]. case_match; b2p.
  - constructor; [by constructor|]. constructor; [unfold longer; lia|].
    eapply Forall_impl; [exact Hf|]. unfold longer. lia.
  - constructor; [done|]. apply Forall_forall. intros z. rewrite insert_idle_perm, elem_of_cons.
    rewrite Forall_forall in Hf. intros [->|Hz]; [done|by apply Hf].
Qed.

Lemma sort_idle_sorted l : StronglySorted longer (Registry.sort_idle l).
Proof.
  unfold Registry.sort_idle. assert (H0 : StronglySorted longer []) by constructor. revert H0.
  generalize (@nil (addr * Z)). induction l as [|x l IH]; intros acc Ha; cbn; [done|].
  by apply IH, insert_idle_sorted.
Qed.

(** The candidates of an overflow pass, longest idle first, with their idle times. *)
Definition ranked (f : Session -> bool) (clock : addr -> Z) (w : World) : list (addr * Z) :=
  Registry.sort_idle (map (fun a => (a, Registry.idle_of w (clock a) a)) (Registry.select f w)).

Lemma ranked_select f clock w : map fst (ranked f clock w) ≡ₚ Registry.select f w.
Proof.
  unfold ranked. rewrite sort_idle_perm, <- list_fmap_compose. cbn. by rewrite list_fmap_id.
Qed.

Lemma ranked_idle f clock w x : x ∈ ranked f clock w -> x.2 = Registry.idle_of w (clock x.1) x.1.
Proof. unfold ranked. rewrite sort_idle_perm. by intros (a & -> & _)%list_elem_of_fmap. Qed.

Lemma overflow_eq f cap clock w :
  (Registry.overflow f cap clock w).2 =
    take (length (Registry.select f w) - cap) (map fst (ranked f clock w)) /\
  heap (Registry.overflow f cap clock w).1 = heap w /\
  forall k, sessions (Registry.overflow f cap clock w).1 !! k =
    if bool_decide (k ∈ map (Registry.id_of w) (Registry.overflow f cap clock w).2) then None
    else sessions w !! k.
Proof.
  unfold Registry.overflow. destruct (_ <? _)%nat eqn:E.
  - split_and!; [done|done|]. intros k. apply fold_delete_lookup.
  - apply Nat.ltb_ge in E. split_and!; [|done|done]. by replace (length _ - cap)%nat with 0%nat by lia.
Qed.

Lemma overflow_ok f cap clock w : keyed w ->
  pass (fun s => f s = true) w (Registry.overflow f cap clock w).1 (Registry.overflow f cap clock w).2.
Proof.
  intros Hk. destruct (overflow_eq f cap clock w) as (He & Hh & Hl).
  assert (Hin : forall a, a ∈ (Registry.overflow f cap clock w).2 -> a ∈ Registry.select f w).
  { intros a. rewrite He. intros (i & Hi & _)%elem_of_take. apply list_elem_of_lookup_2 in Hi.
    by rewrite ranked_select in Hi. }
  assert (Hid : forall a k, sessions w !! k = Some a -> Registry.id_of w a = k).
  { intros a k (s & Hs & <-)%Hk. unfold Registry.id_of. by rewrite Hs. }
  split; [done| | | |].
  - apply map_subseteq_spec. intros k a. rewrite Hl. by case_bool_decide.
  - rewrite He. eapply sublist_NoDup; [|apply sublist_take]. rewrite ranked_select. by apply select_nodup.
  - intros a. split.
    + intros Ha. destruct (proj1 (select_elem _ _ _) (Hin a Ha)) as [[k Hka] _]. exists k. split; [done|].
      rewrite Hl, bool_decide_eq_true_2; [done|]. rewrite <- (Hid a k Hka). by apply list_elem_of_fmap_2.
    + intros (k & Hka & Hn). rewrite Hl in Hn. case_bool_decide as Hb; [|congruence].
      apply list_elem_of_fmap in Hb as (b & -> & Hb). destruct (proj1 (select_elem _ _ _) (Hin b Hb)) as [[k Hkb] _].
      rewrite (Hid b k Hkb) in Hka. congruence.
  - intros a [_ H]%Hin%select_elem. by apply holds_true.
Qed.

(** After the pass the class fits its cap. *)
Lemma overflow_bound f cap clock w : keyed w ->
  (length (Registry.select f (Registry.overflow f cap clock w).1) <= cap)%nat.
Proof.
  intros Hk. pose proof (overflow_ok f cap clock w Hk) as Hp.
  destruct (overflow_eq f cap clock w) as (He & Hh & _). set (w' := (Registry.overflow f cap clock w).1) in *.
  set (ev := (Registry.overflow f cap clock w).2) in *.
  assert (length (Registry.select f w' ++ ev) <= length (Registry.select f w))%nat as Hle.
  { apply nodup_length.
    - apply NoDup_app. split_and!; [by eapply select_nodup, pass_keyed| |apply Hp].
      intros a [[k Hka] _]%select_elem (k' & H1 & H2)%Hp.
      pose proof (lookup_weaken _ _ _ _ Hka (pass_sub _ _ _ _ Hp)) as H3.
      pose proof (keyed_inj _ _ _ _ Hk H1 H3) as ->. congruence.
    - intros a [[[k Hka] Hf]%select_elem|(k & H1 & H2)%Hp]%elem_of_app; apply select_elem.
      + split; [exists k; by eapply lookup_weaken, Hp|]. revert Hf. unfold Registry.holds. by rewrite Hh.
      + split; [by exists k|]. apply holds_true. apply (pass_why _ _ _ _ Hp). apply Hp. eauto. }
  rewrite length_app in Hle. rewrite He, length_take, (Permutation_length (ranked_select _ _ _)) in Hle. lia.
Qed.

(** The victims were idle at least as long as any of the class that stays. *)
Lemma overflow_oldest f cap clock w a b : keyed w ->
  a ∈ (Registry.overflow f cap clock w).2 -> b ∈ Registry.select f (Registry.overflow f cap clock w).1 ->
  Registry.idle_of w (clock b) b <= Registry.idle_of w (clock a) a.
Proof.
  intros Hk Ha Hb. pose proof (overflow_ok f cap clock w Hk) as Hp.
  destruct (overflow_eq f cap clock w) as (He & Hh & _).
  assert (Hnb : b ∉ (Registry.overflow f cap clock w).2).
  { intros (k' & H1 & H2)%Hp. apply select_elem in Hb as [[k Hkb] _].
    pose proof (lookup_weaken _ _ _ _ Hkb (pass_sub _ _ _ _ Hp)) as H3.
    pose proof (keyed_inj _ _ _ _ Hk H1 H3) as ->. congruence. }
  assert (Hbs : b ∈ Registry.select f w).
  { apply select_elem in Hb as [[k Hkb] Hf]. apply select_elem. split; [exists k; by eapply lookup_weaken, Hp|].
    revert Hf. unfold Registry.holds. by rewrite Hh. }
  rewrite He in Ha, Hnb. rewrite <- (ranked_select f clock w) in Hbs. set (n := (length _ - cap)%nat) in *.
  rewrite <- (take_drop n (ranked f clock w)) in Hbs. rewrite map_app, elem_of_app in Hbs.
  change (map fst) with (fmap (M := list) (@fst addr Z)) in *. rewrite <- fmap_take in Ha, Hnb.
  destruct Hbs as [?|Hbs]; [done|]. apply list_elem_of_fmap in Ha as (x & -> & Hx), Hbs as (y & -> & Hy).
  assert (longer x y) as Hxy.
  { pose proof (sort_idle_sorted (map (fun a => (a, Registry.idle_of w (clock a) a)) (Registry.select f w))) as Hs.
    fold (ranked f clock w) in Hs. rewrite <- (take_drop n (ranked f clock w)) in Hs.
    by eapply StronglySorted_app_1_elem_of. }
  unfold longer in Hxy. rewrite (ranked_idle f clock w x), (ranked_idle f clock w y) in Hxy; [done| |].
  - rewrite <- (take_drop n (ranked f clock w)). apply elem_of_app. by right.
  - rewrite <- (take_drop n (ranked f clock w)). apply elem_of_app. by left.
Qed.

(** Why a sweep may take a session out. *)
Definition evictable (idle_s : Z) (s : Session) : Prop :=
  (exists now, Registry.finished_idle idle_s now s = true) \/ Registry.latched s = true \/
  Registry.capture_quarantined s = true \/ Registry.empty_quarantined s = true.

Lemma complete_committed s : close_complete_flag s = true -> artifact_committed_flag s = true.
Proof. unfold close_complete_flag, artifact_committed_flag. intros ->%bool_decide_eq_true. done. Qed.

Lemma evictable_committed idle_s s : evictable idle_s s ->
  artifact_committed_flag s = true /\ active_streams s = 0 /\ pending_jobs s = 0.
Proof.
  unfold evictable, Registry.finished_idle, Registry.latched, Registry.capture_quarantined,
    Registry.empty_quarantined, is_empty_unsigned_quarantine, Registry.quiet.
  intros [[now H]|[H|[H|H]]]; b2p; auto using complete_committed.
Qed.

(** The worlds between the four passes. *)
Definition swept (k : nat) (idle_s : Z) (clock : nat -> addr -> Z) (w : World) : World :=
  let w0 := (Registry.retain_pass idle_s (clock 0%nat) w).1 in
  let w1 := (Registry.overflow Registry.latched Registry.MAX_LATCHED_RETAINED (clock 1%nat) w0).1 in
  let w2 := (Registry.overflow Registry.capture_quarantined Registry.MAX_CAPTURE_FAILED_RETAINED
               (clock 2%nat) w1).1 in
  let w3 := (Registry.overflow Registry.empty_quarantined Registry.MAX_EMPTY_UNSIGNED_RETAINED
               (clock 3%nat) w2).1 in
  match k with 0%nat => w0 | 1%nat => w1 | 2%nat => w2 | _ => w3 end.

Lemma evict_finalized_eq idle_s clock w :
  Registry.evict_finalized idle_s clock w =
    (swept 3 idle_s clock w,
     (Registry.retain_pass idle_s (clock 0%nat) w).2 ++
     (Registry.overflow Registry.latched Registry.MAX_LATCHED_RETAINED (clock 1%nat)
        (swept 0 idle_s clock w)).2 ++
     (Registry.overflow Registry.capture_quarantined Registry.MAX_CAPTURE_FAILED_RETAINED (clock 2%nat)
        (swept 1 idle_s clock w)).2 ++
     (Registry.overflow Registry.empty_quarantined Registry.MAX_EMPTY_UNSIGNED_RETAINED (clock 3%nat)
        (swept 2 idle_s clock w)).2).
Proof.
  unfold Registry.evict_finalized, swept.
  destruct (Registry.retain_pass _ _ w) as [w0 e0]. cbn [fst snd].
  destruct (Registry.overflow Registry.latched _ _ w0) as [w1 e1]. cbn [fst snd].
  destruct (Registry.overflow Registry.capture_quarantined _ _ w1) as [w2 e2]. cbn [fst snd].
  by destruct (Registry.overflow Registry.empty_quarantined _ _ w2) as [w3 e3].
Qed.

Lemma swept_pass idle_s clock w : keyed w ->
  pass (evictable idle_s) w (swept 0 idle_s clock w) (Registry.retain_pass idle_s (clock 0%nat) w).2 /\
  pass (evictable idle_s) (swept 0 idle_s clock w) (swept 1 idle_s clock w)
    (Registry.overflow Registry.latched Registry.MAX_LATCHED_RETAINED (clock 1%nat) (swept 0 idle_s clock w)).2 /\
  pass (evictable idle_s) (swept 1 idle_s clock w) (swept 2 idle_s clock w)
    (Registry.overflow Registry.capture_quarantined Registry.MAX_CAPTURE_FAILED_RETAINED (clock 2%nat)
        (swept 1 idle_s clock w)).2 /\
  pass (evictable idle_s) (swept 2 idle_s clock w) (swept 3 idle_s clock w)
    (Registry.overflow Registry.empty_quarantined Registry.MAX_EMPTY_UNSIGNED_RETAINED (clock 3%nat)
        (swept 2 idle_s clock w)).2 /\
  keyed (swept 0 idle_s clock w) /\ keyed (swept 1 idle_s clock w) /\ keyed (swept 2 idle_s clock w).
Proof.
  intros Hk. pose proof (retain_pass_ok idle_s (clock 0%nat) w Hk) as H0.
  assert (K0 : keyed (swept 0 idle_s clock w)) by (by eapply pass_keyed).
  pose proof (overflow_ok Registry.latched Registry.MAX_LATCHED_RETAINED (clock 1%nat) _ K0) as H1.
  assert (K1 : keyed (swept 1 idle_s clock w)) by (by eapply pass_keyed).
  pose proof (overflow_ok Registry.capture_quarantined Registry.MAX_CAPTURE_FAILED_RETAINED (clock 2%nat) _ K1) as H2.
  assert (K2 : keyed (swept 2 idle_s clock w)) by (by eapply pass_keyed).
  pose proof (overflow_ok Registry.empty_quarantined Registry.MAX_EMPTY_UNSIGNED_RETAINED (clock 3%nat) _ K2) as H3.
  split_and!; try done; (eapply pass_mono; [|eassumption]); unfold evictable; eauto.
Qed.

Lemma evict_pass idle_s clock w : keyed w ->
  pass (evictable idle_s) w (Registry.evict_finalized idle_s clock w).1
    (Registry.evict_finalized idle_s clock w).2.
Proof.
  intros Hk. rewrite evict_finalized_eq. cbn [fst snd].
  destruct (swept_pass idle_s clock w Hk) as (H0 & H1 & H2 & H3 & K0 & K1 & K2).
  eapply pass_trans; [done|exact H0|]. eapply pass_trans; [done|exact H1|].
  eapply pass_trans; [done|exact H2|exact H3].
Qed.

(** * The invariant of the world *)

Lemma session_step_retired w R a s s' : heap w !! a = Some s -> evolves s s' -> keyed w -> retired w R ->
  keyed (mkWorld (<[a := s']> (heap w)) (sessions w)) /\ retired (mkWorld (<[a := s']> (heap w)) (sessions w)) R.
Proof.
  intros Ha [Hn _ Hc _ _ _ _] Hk Hr. injection Hn as Hid _ _ _. pose proof (lookup_lt_Some _ _ _ Ha) as Hlt. split.
  - intros k b. cbn. intros (t & Ht & Hb)%Hk. destruct (decide (a = b)) as [->|Hne].
    + exists s'. rewrite list_lookup_insert_eq by done. split; [done|]. congruence.
    + exists t. by rewrite list_lookup_insert_ne.
  - intros b t. cbn. rewrite list_lookup_insert. case_decide as E.
    + destruct E as [<- _]. intros [= <-]. rewrite Hid. destruct (Hr a s Ha) as [?|[?|?]]; auto.
    + apply Hr.
Qed.

Lemma get_or_open_retired reopen fresh w R : keyed w -> retired w R ->
  keyed (Registry.get_or_open_inner reopen fresh (id fresh) w).1 /\
  retired (Registry.get_or_open_inner reopen fresh (id fresh) w).1 R.
Proof.
  intros Hk Hr. unfold Registry.get_or_open_inner. destruct (sessions w !! id fresh) as [a|] eqn:E.
  - destruct (reopen && _) eqn:Eb; [|done]. b2p. destruct (Registry.holds w enforcement_tripped a); [done|].
    split; [by apply install_keyed|]. apply install_retired; [done|done|]. intros b Hb.
    assert (b = a) as -> by congruence. apply holds_true in H0 as (s & Hs & Hc). apply holds_true. eauto using complete_committed.
  - split; [by apply install_keyed|]. apply install_retired; [done|done|]. congruence.
Qed.

Lemma insert_retired s w R : keyed w -> retired w R -> sessions w !! id s = None ->
  keyed (Registry.install w (id s) s).1 /\ retired (Registry.install w (id s) s).1 R.
Proof. intros Hk Hr E. split; [by apply install_keyed|]. apply install_retired; [done|done|]. congruence. Qed.

Definition world_inv (p : World * gset addr) : Prop := keyed p.1 /\ retired p.1 p.2.

Lemma world_step_inv p q : world_step p q -> world_inv p -> world_inv q.
Proof.
  unfold world_inv. destruct 1; cbn [fst snd]; intros [Hk Hr].
  - apply session_step_evolves in H0. by eapply session_step_retired.
  - by apply get_or_open_retired.
  - by apply get_or_open_retired.
  - unfold Registry.insert_recovered. destruct (sessions w !! id s) eqn:E; [done|]. by apply insert_retired.
  - unfold Registry.try_insert_recovered. destruct (sessions w !! id s) eqn:E; [done|]. by apply insert_retired.
  - split; intros k b; cbn.
    + rewrite lookup_delete. case_decide; [done|]. apply Hk.
    + intros Hb. destruct (Hr k b Hb) as [Hs|[?|?]]; [|auto|set_solver]. rewrite lookup_delete.
      case_decide as E; [|by auto]. subst. right. right. assert (k = a) as -> by congruence. set_solver.
  - pose proof (evict_pass idle_s clock w Hk) as Hp. split; [by eapply pass_keyed|].
    eapply pass_retired; [|done..]. intros s Hs. by destruct (evictable_committed _ _ Hs).
Qed.

Lemma world_reachable_inv p : rtc world_step (Registry.empty, ∅) p -> world_inv p.
Proof.
  intros Hr. assert (H0 : world_inv (Registry.empty, ∅)).
  { split; intros k a; cbn; [by rewrite lookup_empty|done]. }
  induction Hr as [|x y z Hs _ IH]; [done|]. apply IH. by eapply world_step_inv.
Qed.

(** ** Enforcement *)

(** The retained classes are within their caps. *)
Definition within_caps (w : World) : Prop :=
  (length (Registry.select Registry.latched w) <= Registry.MAX_LATCHED_RETAINED)%nat /\
  (length (Registry.select Registry.capture_quarantined w) <= Registry.MAX_CAPTURE_FAILED_RETAINED)%nat /\
  (length (Registry.select Registry.empty_quarantined w) <= Registry.MAX_EMPTY_UNSIGNED_RETAINED)%nat.

Definition capped_step (p q : World * gset addr) : Prop := world_step p q /\ within_caps p.1.

Lemma overflow_within f cap clock w :
  (length (Registry.select f w) <= cap)%nat -> Registry.overflow f cap clock w = (w, []).
Proof.
  intros H. unfold Registry.overflow. destruct (_ <? _)%nat eqn:E; [|done]. apply Nat.ltb_lt in E. lia.
Qed.

(** Within the caps only the first pass takes sessions out. *)
Lemma evict_within idle_s clock w : keyed w -> within_caps w ->
  Registry.evict_finalized idle_s clock w =
    ((Registry.retain_pass idle_s (clock 0%nat) w).1, (Registry.retain_pass idle_s (clock 0%nat) w).2).
Proof.
  intros Hk (H1 & H2 & H3). pose proof (retain_pass_ok idle_s (clock 0%nat) w Hk) as Hp.
  unfold Registry.evict_finalized. destruct (Registry.retain_pass _ _ w) as [w0 e0]. cbn [fst snd] in *.
  rewrite overflow_within by (etrans; [by eapply select_shrinks|done]).
  rewrite overflow_within by (etrans; [by eapply select_shrinks|done]).
  rewrite overflow_within by (etrans; [by eapply select_shrinks|done]). by rewrite app_nil_r.
Qed.

(** The registered session of [sid], at [a], finished its close and had tripped an
    enforcement. *)
Definition enforced (sid : str) (a : addr) (w : World) : Prop :=
  sessions w !! sid = Some a /\
  exists s, heap w !! a = Some s /\ close_complete_flag s = true /\ enforcement_tripped s = true.

Lemma enforced_returned reopen fresh sid a w : enforced sid a w ->
  Registry.get_or_open_inner reopen fresh sid w = (w, a).
Proof.
  intros (Hs & s & Ha & Hc & Ht). unfold Registry.get_or_open_inner, Registry.holds. rewrite Hs, Ha, Hc, Ht.
  by destruct reopen.
Qed.

Lemma install_elsewhere w k s sid a : sid <> k -> enforced sid a w -> enforced sid a (Registry.install w k s).1.
Proof.
  intros Hne (Hs & t & Ht & Hc). split; cbn; [by rewrite lookup_insert_ne|].
  exists t. split; [|done]. by rewrite lookup_app_l by (by eapply lookup_lt_Some).
Qed.

Lemma get_or_open_enforced reopen fresh k sid a w : enforced sid a w ->
  enforced sid a (Registry.get_or_open_inner reopen fresh k w).1.
Proof.
  intros He. destruct (decide (k = sid)) as [->|Hne]; [by rewrite (enforced_returned _ _ _ _ _ He)|].
  unfold Registry.get_or_open_inner. repeat case_match; try done; by apply install_elsewhere.
Qed.

Lemma insert_enforced sid a s w : sessions w !! id s = None -> enforced sid a w ->
  enforced sid a (Registry.install w (id s) s).1.
Proof. intros Hn He. apply install_elsewhere; [|done]. intros ->. destruct He. congruence. Qed.

Lemma capped_step_enforced p q sid a : world_inv p -> capped_step p q -> a ∉ q.2 ->
  enforced sid a p.1 -> enforced sid a q.1.
Proof.
  intros [Hk _] [Hs Hw] Ha He. destruct Hs; cbn [fst snd] in *.
  - destruct He as (Hl & t & Ht & Hc & Hx). split; [done|]. cbn. rewrite list_lookup_insert. case_decide as E.
    + destruct E as [-> _]. assert (t = s) as -> by congruence. apply session_step_evolves in H0 as [].
      exists s'. auto.
    + eauto.
  - by apply get_or_open_enforced.
  - by apply get_or_open_enforced.
  - unfold Registry.insert_recovered. destruct (sessions w !! id s) eqn:E; [done|]. by apply insert_enforced.
  - unfold Registry.try_insert_recovered. destruct (sessions w !! id s) eqn:E; [done|]. by apply insert_enforced.
  - destruct He as (Hl & He). split; [|done]. cbn. rewrite lookup_delete_ne; [done|].
    intros ->. apply Ha. assert (a0 = a) as -> by congruence. set_solver.
  - rewrite evict_within by done. destruct He as (Hl & s & Hs & Hc & Ht). split; [|by eauto].
    cbn. apply map_lookup_filter_Some_2; [done|]. cbn. unfold Registry.holds. rewrite Hs.
    unfold Registry.finished_idle. rewrite Ht. cbn. by rewrite andb_false_r.
Qed.

Lemma world_step_removed p q : world_step p q -> p.2 ⊆ q.2.
Proof. destruct 1; set_solver. Qed.

Lemma capped_run_enforced p q sid a : rtc capped_step p q -> world_inv p -> a ∉ q.2 ->
  enforced sid a p.1 -> enforced sid a q.1.
Proof.
  induction 1 as [|p r q Hs Hr IH]; [done|]. intros Hi Ha He.
  assert (Hsub : r.2 ⊆ q.2).
  { clear -Hr. induction Hr as [|x y z [Hs _] _ IH]; [done|]. apply world_step_removed in Hs. set_solver. }
  apply IH; [eapply world_step_inv; [apply Hs|done]|done|].
  eapply capped_step_enforced; [exact Hi|exact Hs|set_solver|done].
Qed.
End World.

(** * The properties *)

(** A session's history only moves forward.  Whatever operations run on a session,
    in any order and from any thread, it keeps its id, scope, workflow and opening
    identity; once a principal is bound it is the only one [bind_principal] admits;
    once its artifact is committed it stays closed and gives no lease, whatever
    becomes of the close claim; completion, promotion, the enforcement latch and the
    loss of capture are never undone. *)
Theorem session_history_moves_forward {SHA : Sha256} (s s' : Session) :
  rtc session_step s s' ->
  (id s', session_scope s', workflow s', identity s') = (id s, session_scope s, workflow s, identity s) /\
  (forall p q, binding s = Some p -> bind_principal s' q = (s', bool_decide (p = q))) /\
  (artifact_committed_flag s = true -> is_closed s' = true /\ try_lease s' = None) /\
  (close_complete_flag s = true -> close_complete_flag s' = true) /\
  (is_promoted s = true -> is_promoted s' = true /\ (try_promote s').2 = false) /\
  (enforcement_tripped s = true -> enforcement_tripped s' = true) /\
  (capture_failed s = true -> capture_failed s' = true).
Proof.
  intros Hr. assert (He : evolves s s').
  { induction Hr as [|x y z Hs _ IH]; [done|]. etrans; [by apply session_step_evolves|done]. }
  destruct He as [H1 H2 H3 H4 H5 H6 H7]. split_and!; try done.
  - intros p q Hb%H2. unfold bind_principal. by rewrite Hb.
  - intros Hc%H3. unfold try_lease, is_closed. by rewrite Hc, orb_true_r.
  - intros Hp%H7. split; [done|]. unfold is_promoted, try_promote, compare_exchange in *. b2p.
    destruct (promoted s' =? 0) eqn:E; [|done]. b2p. lia.
Qed.

(** C13. One admitting session per id.  In every world reachable by opening, recovering,
    evicting and removing sessions and by running operations on them, an entry leads
    to a session of that id; a session that still admits work is the registered one
    of its id, unless [remove] took it out; so of two sessions with one id at least
    one is closed: a recycled or evicted id never splits the record. *)
Theorem one_admitting_session_per_id {SHA : Sha256} {DI : DashIter} (w : World) (R : gset addr) :
  rtc world_step (Registry.empty, ∅) (w, R) ->
  (forall k a, Registry.get w k = Some a -> exists s, heap w !! a = Some s /\ id s = k) /\
  (forall a s, heap w !! a = Some s -> is_closed s = false -> a ∉ R -> Registry.get w (id s) = Some a) /\
  (forall a b s t, heap w !! a = Some s -> heap w !! b = Some t -> a <> b -> id s = id t ->
     a ∉ R -> b ∉ R -> is_closed s = true \/ is_closed t = true).
Proof.
  intros [Hk Hr]%world_reachable_inv. cbn [fst snd] in *.
  assert (Hreg : forall a s, heap w !! a = Some s -> is_closed s = false -> a ∉ R -> sessions w !! id s = Some a).
  { intros a s Ha Hc Hn. destruct (Hr a s Ha) as [?|[Hf|?]]; [done| |done].
    unfold is_closed in Hc. rewrite Hf, orb_true_r in Hc. done. }
  split_and!; [done|done|]. intros a b s t Ha Hb Hne Hid Hra Hrb.
  destruct (is_closed s) eqn:Es; [by left|]. destruct (is_closed t) eqn:Et; [by right|].
  pose proof (Hreg a s Ha Es Hra). pose proof (Hreg b t Hb Et Hrb). congruence.
Qed.

(** A sweep takes finished sessions only.  It leaves every session object as it
    was, reports exactly the entries it takes out, each once, and each of them has
    committed its artifact and has neither a live response nor a pending job; a
    session that admits work is never among them.  Afterwards each retained class
    fits its cap, and within a class the longest idle went first. *)
Theorem sweep_takes_finished_sessions {SHA : Sha256} {DI : DashIter} (w : World) (R : gset addr)
    (idle_s : Z) (clock : nat -> addr -> Z) (w' : World) (ev : list addr) :
  rtc world_step (Registry.empty, ∅) (w, R) -> Registry.evict_finalized idle_s clock w = (w', ev) ->
  heap w' = heap w /\ sessions w' ⊆ sessions w /\ NoDup ev /\
  (forall a, a ∈ ev <-> exists k, Registry.get w k = Some a /\ Registry.get w' k = None) /\
  (forall a, a ∈ ev -> exists s, heap w !! a = Some s /\ is_closed s = true /\ try_lease s = None /\
     active_streams s = 0 /\ pending_jobs s = 0) /\
  within_caps w' /\
  (forall a b, a ∈ (Registry.overflow Registry.latched Registry.MAX_LATCHED_RETAINED (clock 1%nat)
                      (swept 0 idle_s clock w)).2 ->
     b ∈ Registry.select Registry.latched (swept 1 idle_s clock w) ->
     Registry.idle_of w (clock 1%nat b) b <= Registry.idle_of w (clock 1%nat a) a).
Proof.
  intros [Hk _]%world_reachable_inv He. cbn [fst] in Hk.
  pose proof (evict_pass idle_s clock w Hk) as Hp. rewrite He in Hp. cbn [fst snd] in Hp.
  rewrite evict_finalized_eq in He. apply (f_equal fst) in He. cbn [fst] in He. subst w'.
  destruct (swept_pass idle_s clock w Hk) as (P0 & P1 & P2 & P3 & K0 & K1 & K2).
  unfold within_caps. split_and!; try apply Hp.
  - intros a (s & Hs & Hv)%(pass_why _ _ _ _ Hp). exists s. apply evictable_committed in Hv as (Hc & ? & ?).
    unfold try_lease, is_closed. by rewrite Hc, orb_true_r.
  - etrans; [eapply select_shrinks; [exact K2|exact P3]|]. etrans; [eapply select_shrinks; [exact K1|exact P2]|].
    by apply overflow_bound.
  - etrans; [eapply select_shrinks; [exact K2|exact P3]|]. by apply overflow_bound.
  - by apply overflow_bound.
  - intros a b Ha Hb. unfold Registry.idle_of. rewrite <- (pass_heap _ _ _ _ P0). by eapply overflow_oldest.
Qed.

(** C14. A refused id stays refused.  Once the session of an id has closed after an
    enforcement tripped, every later request for the id, whether it may reopen or
    not, gets that same session and no lease on it, however the sweeps and the other
    requests interleave, as long as the retained classes are within their caps and
    nobody removes it. *)
Theorem enforced_id_stays_refused {SHA : Sha256} {DI : DashIter} (p q : World * gset addr) (sid : str)
    (a : addr) (reopen : bool) (fresh : Session) :
  rtc world_step (Registry.empty, ∅) p -> rtc capped_step p q -> enforced sid a p.1 -> a ∉ q.2 ->
  Registry.get_or_open_inner reopen fresh sid q.1 = (q.1, a) /\
  exists s, heap q.1 !! a = Some s /\ enforcement_tripped s = true /\ is_closed s = true /\ try_lease s = None.
Proof.
  intros Hi%world_reachable_inv Hr He Ha. pose proof (capped_run_enforced p q sid a Hr Hi Ha He) as Hq.
  split; [by apply enforced_returned|]. destruct Hq as (_ & s & Hs & Hc%complete_committed & Ht).
  exists s. split_and!; [done|done| |]; unfold try_lease, is_closed; by rewrite Hc, orb_true_r.
Qed.

(** * Closing against admission *)

Record closing_inv (c : Closing.t) : Prop := {
  ci_writer : Closing.writer c = true -> Closing.readers c = O /\ Closing.admitted c = O;
  ci_closed : is_closed (Closing.session c) = true -> Closing.admitted c = O;
  ci_streams : is_u64 (active_streams (Closing.session c));
}.

Lemma transition_streams from to s : active_streams (transition from to s) = active_streams s.
Proof. unfold transition. case_bool_decide; [|done]. by destruct s. Qed.

Lemma transition_closed from to s : closed (transition from to s) = closed s.
Proof. unfold transition. case_bool_decide; [|done]. by destruct s. Qed.

Lemma try_close_streams s : active_streams (try_close s).1 = active_streams s.
Proof.
  unfold try_close. destruct (compare_exchange _ _ _); [|done]. cbn. rewrite transition_streams. by destruct s.
Qed.

Lemma reset_close_streams s : active_streams (reset_close s) = active_streams s.
Proof. unfold reset_close. rewrite transition_streams. by destruct s. Qed.

Lemma mod64_u64 n : is_u64 (n mod 2 ^ 64).
Proof. unfold is_u64, u64_max. pose proof (Z.mod_pos_bound n (2 ^ 64)). lia. Qed.

Lemma completed_is_closed s : is_closed (mark_close_complete s) = is_closed s.
Proof.
  unfold is_closed. unfold mark_close_complete at 1. rewrite transition_closed. f_equal.
  unfold mark_close_complete, transition. case_bool_decide as E; [|done]. apply list_elem_of_singleton in E.
  unfold artifact_committed_flag, lifecycle_state in *. rewrite E. by destruct s.
Qed.

Lemma reset_is_closed s : is_closed (reset_close s) = true -> artifact_committed_flag s = true.
Proof.
  unfold is_closed. unfold reset_close at 1. rewrite transition_closed. cbn [closed].
  replace (closed (s<|closed := 0|>)) with 0 by (by destruct s). cbn [negb Z.eqb orb].
  unfold reset_close, transition. case_bool_decide as E.
  - by destruct s.
  - by destruct s.
Qed.

Lemma closing_step_inv c c' : Closing.step c c' -> closing_inv c -> closing_inv c'.
Proof.
  intros Hs [H1 H2 H3]. destruct Hs; cbn in *; split; cbn; try done.
  - intros Hw. by apply H1 in Hw as [[=] _].
  - intros Hw. by apply H1 in Hw as [[=] _].
  - congruence.
  - intros Hw. by apply H1 in Hw as [_ [=]].
  - intros Hc. replace (is_closed (lease_new s)) with (is_closed s) in Hc by (by destruct s).
    by apply H2 in Hc as [=].
  - destruct s. apply mod64_u64.
  - destruct s. apply mod64_u64.
  - intros _. by apply H1.
  - by rewrite try_close_streams.
  - intros _. apply H2. unfold is_closed. by apply Z.eqb_neq in H as ->.
  - unfold mark_artifact_committed. by rewrite transition_streams.
  - by rewrite completed_is_closed.
  - unfold mark_close_complete. by rewrite transition_streams.
  - intros Hc%reset_is_closed. apply H2. unfold is_closed. by rewrite Hc, orb_true_r.
  - by rewrite reset_close_streams.
Qed.

(** Streams of a closed session only drain. *)
Lemma closing_step_drains c c' : Closing.step c c' -> closing_inv c ->
  is_closed (Closing.session c) = true ->
  active_streams (Closing.session c') <= active_streams (Closing.session c).
Proof.
  intros Hs [H1 H2 H3] Hc. destruct Hs; cbn in *; try done.
  - by apply H2 in Hc as [=].
  - destruct s. unfold fetch_sub, constant. unfold is_u64, u64_max in H3. cbn -[Z.pow Z.modulo Z.sub] in *. rewrite Z.mod_small; lia.
  - by rewrite try_close_streams.
  - unfold mark_artifact_committed. by rewrite transition_streams.
  - unfold mark_close_complete. by rewrite transition_streams.
  - by rewrite reset_close_streams.
Qed.

(** A run during which the session is closed throughout. *)
Definition closed_step (c c' : Closing.t) : Prop :=
  Closing.step c c' /\ is_closed (Closing.session c) = true.

(** A close waits for a number that can only fall.  However requests, closers and
    dropped claims interleave from an open session, a lease is taken only while the
    session is open; as long as it is closed the count of live responses never
    grows, so that once the closer has seen it at zero, nothing is admitted until a
    failed close gives the claim back. *)
Theorem close_excludes_admission (s0 : Session) (c c' : Closing.t) :
  is_closed s0 = false -> is_u64 (active_streams s0) ->
  rtc Closing.step (Closing.mk s0 0 0 false) c -> rtc closed_step c c' ->
  ((0 < Closing.admitted c)%nat -> is_closed (Closing.session c) = false) /\
  0 <= active_streams (Closing.session c') <= active_streams (Closing.session c) /\
  (active_streams (Closing.session c) = 0 -> active_streams (Closing.session c') = 0).
Proof.
  intros Ho Hu Hr Hr'. assert (Hi : closing_inv c).
  { assert (H0 : closing_inv (Closing.mk s0 0 0 false)) by done. clear -Hr H0.
    induction Hr as [|x y z Hs _ IH]; [done|]. apply IH. by eapply closing_step_inv. }
  assert (Hd : closing_inv c' /\ active_streams (Closing.session c') <= active_streams (Closing.session c)).
  { clear -Hr' Hi. induction Hr' as [x|x y z [Hs Hc] _ IH]; [done|].
    destruct IH as [? ?]; [by eapply closing_step_inv|]. split; [done|].
    pose proof (closing_step_drains x y Hs Hi Hc). lia. }
  destruct Hd as [[_ _ [Hlo _]] Hle]. split_and!; [|done|done|lia].
  intros Ha. destruct (is_closed (Closing.session c)) eqn:E; [|done]. apply Hi in E. lia.
Qed.

(** * Samples *)

Module SessionSample.

Definition map_order : DashIter := {| dash_iter m := map_to_list m; dash_iter_perm m := reflexivity _ |}.

Definition agent : AgentIdentity :=
  mkAgentIdentity (lit "1.0") (charter_of (lit "support")) (lit "agent-7") (Some 600).

Definition opened : Session :=
  @new toy_sha256 (lit "u1") (lit "t1") 1750000000000 0 (lit "s-1") Workflow.Signed agent Breaker.default_config.

Definition claimed : Session := (try_close opened).1.
Definition sealed : Session := mark_artifact_committed claimed.
Definition complete : Session := mark_close_complete sealed.
Definition latched : Session := latch_enforcement opened StopReason.BudgetExceeded.
Definition latched_claimed : Session := (try_close latched).1.
Definition latched_sealed : Session := mark_artifact_committed latched_claimed.
Definition latched_complete : Session := mark_close_complete latched_sealed.

(** A registry with the one session. *)
Definition world (s : Session) : World := mkWorld [s] {[lit "s-1" := 0%nat]}.

Lemma world_opened : rtc (@world_step toy_sha256 map_order) (Registry.empty, ∅) (world opened, ∅).
Proof.
  eapply rtc_l; [apply (@ws_get_or_open toy_sha256 map_order Registry.empty ∅ (lit "u1") (lit "t1") 1750000000000 0
    (lit "s-1") Workflow.Signed agent Breaker.default_config)|].
  apply rtc_refl.
Qed.

Lemma world_runs s s' : session_step s s' ->
  rtc (@world_step toy_sha256 map_order) (Registry.empty, ∅) (world s, ∅) ->
  rtc (@world_step toy_sha256 map_order) (Registry.empty, ∅) (world s', ∅).
Proof.
  intros Hs Hr. eapply rtc_r; [exact Hr|]. by apply (@ws_session toy_sha256 map_order (world s) ∅ 0%nat s s').
Qed.

Lemma world_complete : rtc (@world_step toy_sha256 map_order) (Registry.empty, ∅) (world complete, ∅).
Proof.
  apply (world_runs sealed); [apply ss_complete|]. apply (world_runs claimed); [apply ss_seal|].
  apply (world_runs opened); [apply ss_try_close|]. apply world_opened.
Qed.

Lemma world_latched : rtc (@world_step toy_sha256 map_order) (Registry.empty, ∅) (world latched_complete, ∅).
Proof.
  apply (world_runs latched_sealed); [apply ss_complete|]. apply (world_runs latched_claimed); [apply ss_seal|].
  apply (world_runs latched); [apply ss_try_close|]. apply (world_runs opened); [by apply ss_latch|].
  apply world_opened.
Qed.

Lemma opened_to_complete : rtc session_step opened complete.
Proof.
  eapply rtc_l; [apply ss_try_close|]. eapply rtc_l; [apply ss_seal|]. eapply rtc_l; [apply ss_complete|]. apply rtc_refl.
Qed.

Lemma sweep_result :
  @Registry.evict_finalized map_order 300 (fun _ _ => 400 * Registry.NANOS_PER_SEC) (world complete) =
  (mkWorld [complete] ∅, [0%nat]).
Proof. vm_compute. reflexivity. Qed.

Lemma latched_run : rtc (@capped_step toy_sha256 map_order) (world latched_complete, ∅) (world latched_complete, ∅).
Proof.
  eapply rtc_l; [|apply rtc_refl]. split.
  - exact (@ws_evict toy_sha256 map_order (world latched_complete) ∅ 300 (fun _ _ => 400 * Registry.NANOS_PER_SEC)).
  - split_and!; vm_compute; lia.
Qed.

Lemma closing_run : rtc Closing.step (Closing.mk opened 0 0 false) (Closing.mk claimed 0 0 false).
Proof.
  eapply rtc_l; [apply Closing.close_guard|]. eapply rtc_l; [apply Closing.claimed|].
  eapply rtc_l; [apply Closing.close_guard_dropped|]. apply rtc_refl.
Qed.

Lemma draining_run : rtc closed_step (Closing.mk claimed 0 0 false) (Closing.mk claimed 0 0 false).
Proof.
  eapply rtc_l; [split; [apply Closing.admission_guard|reflexivity]|].
  eapply rtc_l; [split; [apply Closing.lease_refused|]; reflexivity|]. apply rtc_refl.
Qed.
End SessionSample.

Lemma session_history_moves_forward_witness : try_lease SessionSample.complete = None.
Proof.
  refine (proj2 (proj1 (proj2 (proj2 (@session_history_moves_forward toy_sha256 SessionSample.sealed
    SessionSample.complete _))) eq_refl)).
  eapply rtc_l; [apply ss_complete|]. apply rtc_refl.
Defined.

Lemma one_admitting_session_per_id_witness :
  Registry.get (SessionSample.world SessionSample.opened) (lit "s-1") = Some 0%nat.
Proof.
  refine (proj1 (proj2 (@one_admitting_session_per_id toy_sha256 SessionSample.map_order
    (SessionSample.world SessionSample.opened) ∅ SessionSample.world_opened)) 0%nat SessionSample.opened eq_refl eq_refl _).
  apply not_elem_of_empty.
Defined.

Lemma sweep_takes_finished_sessions_witness : @within_caps SessionSample.map_order (mkWorld [SessionSample.complete] ∅).
Proof.
  exact (proj1 (proj2 (proj2 (proj2 (proj2 (proj2 (@sweep_takes_finished_sessions toy_sha256 SessionSample.map_order
    (SessionSample.world SessionSample.complete) ∅ 300 (fun _ _ => 400 * Registry.NANOS_PER_SEC)
    (mkWorld [SessionSample.complete] ∅) [0%nat] SessionSample.world_complete SessionSample.sweep_result))))))).
Defined.

Lemma enforced_id_stays_refused_witness :
  Registry.get_or_open_inner true SessionSample.opened (lit "s-1") (SessionSample.world SessionSample.latched_complete) =
  (SessionSample.world SessionSample.latched_complete, 0%nat).
Proof.
  refine (proj1 (@enforced_id_stays_refused toy_sha256 SessionSample.map_order
    (SessionSample.world SessionSample.latched_complete, ∅) (SessionSample.world SessionSample.latched_complete, ∅)
    (lit "s-1") 0%nat true SessionSample.opened SessionSample.world_latched SessionSample.latched_run _ _)).
  - split; [reflexivity|]. exists SessionSample.latched_complete. split; [reflexivity|]. split; reflexivity.
  - apply not_elem_of_empty.
Defined.

Lemma close_excludes_admission_witness : 0 <= active_streams SessionSample.claimed.
Proof.
  refine (proj1 (proj1 (proj2 (close_excludes_admission SessionSample.opened
    (Closing.mk SessionSample.claimed 0 0 false) (Closing.mk SessionSample.claimed 0 0 false) eq_refl _
    SessionSample.closing_run SessionSample.draining_run)))).
  split; [reflexivity|]. vm_compute. discriminate.
Defined.
