(* ===== verification/Finalizer.v ===== *)
(** [av-harness/src/reconciler.rs]: closing and promoting a session.

    The methods run against a disk, a bridge and other threads.  Each of their calls
    to the outside is an [Effect]; an environment says how the call ends (it returns,
    it fails, or the future is dropped at that await, after which only destructors
    run) and what the other threads did to the session meanwhile.  The effects asked
    for are recorded in order.  The bodies of those calls, the metrics and the log
    lines are outside this file. *)

From S2P Require Import Prelude.
From S2P Require Import Rust.
From S2P Require Import CoreBase.
From S2P Require Import Json.
From S2P Require Import Float.
From S2P Require Import LoopDetect.
From S2P Require Import Core.
From S2P Require Import Jcs.
From S2P Require Import Serde.
From S2P Require Import Events.
From S2P Require Import Receipts.
From S2P Require Import Journal.
From S2P Require Import Atif.
From S2P Require Import Session.

#[global] Instance ReceiptSubject_eq_dec : EqDecision ReceiptSubject.
Proof. solve_decision. Defined.

(** * Bounded sets of names *)

(** [QuarantinedSessions], and [WarnedArtifacts] which is the same code: a set with
    its insertion order, the oldest evicted beyond the cap. *)
Module BoundedSet.
Record t := mk { order : list str; set : gset str; cap : nat }.

Definition new (cap : nat) : t := mk [] ∅ (Nat.max cap 1).

Definition insert (x : str) (q : t) : t * bool :=
  if bool_decide (x ∈ set q) then (q, false)
  else
    let '(order, set) :=
      if (cap q <=? length (order q))%nat then
        match order q with
        | [] => ([], set q)
        | evicted :: rest => (rest, set q ∖ {[evicted]})
        end
      else (order q, set q) in
    (mk (order ++ [x]) ({[x]} ∪ set) (cap q), true).

Definition contains (x : str) (q : t) : bool := bool_decide (x ∈ set q).
End BoundedSet.

(** * Outcomes and effects *)

Module Finalizer.

Inductive FinalizeOutcome :=
| ReceiptOutcome (r : Receipt)
| AtifOutcome (path : str)
| AlreadyClosed.

(** The text of a wrapped error is its own [Display]. *)
Inductive FinalizeError :=
| Task
| Invariant (msg : str)
| ReceiptFailed (context : str)
| ReceiptSource (e : ReceiptError)
| KeySource (e : KeyError)
| AtifFailed (context : str)
| Promotion (msg : str)
| CaptureIncomplete
| ToolEvidence (msg : str)
| BridgeFailed (context : str)
| BridgeConfig (context : str).

Inductive Effect :=
| WaitStreams
| WaitJobs
| EmitQuarantine
| QuarantineTools
| EnsureTools
| PersistReceipt (r : Receipt)
| EmitReceipt (r : Receipt)
| RebuildTrajectory
| WriteAtif (path : str) (t : Atif.Trajectory)
| EnsureProvenance (path : str)
| EmitClose (w : Workflow.t)
| RemoveStepJournal
| RemoveTools
| RemoveOutbox (kind : str)
| PersistCloseMarker
| ClearBudget
| DeleteScope
| NoteQuarantined
| ReadArtifact (path : str)
| ReadMarker (path : str)
| PersistMarker (path : str) (session_id digest : str)
| RemoveMarker (path : str).

(** How a call ends. *)
Inductive Fate := Fine | Fails (e : FinalizeError) | Cancelled.

Record PromotionMarker := mkMarker { pm_session_id : str; pm_trajectory_digest : str }.

(** What surrounds the methods, after a history of effects. *)
Record Env := mkEnv {
  fate : list Effect -> Fate;
  others : list Effect -> Session -> Session;
  clock : list Effect -> Z;
  uid : list Effect -> str;
  rebuilt : list Effect -> option Atif.Trajectory;
  exists_at : list Effect -> str -> bool;
  artifact : list Effect -> list Z;
  parsed : list Z -> result Atif.Trajectory str;
  strict_issues : list Z -> result (list str) str;
  marker : list Effect -> PromotionMarker;
}.

(** The finalizer's configuration. *)
Record Config := mkFinalizer {
  signer : Signer;
  spool_dir : str;
  has_store : bool;
  has_sink : bool;
}.

(** * The monad *)

Inductive Outcome (A : Type) := Return (a : A) | Failed (e : FinalizeError) | Dropped.
Arguments Return {A} _.
Arguments Failed {A} _.
Arguments Dropped {A}.

(** [committed] is the field of the claim guard in scope. *)
Record St := mkSt { session : Session; committed : bool; log : list Effect }.

Definition M (A : Type) : Type := St -> St * Outcome A.

Definition ret {A} (a : A) : M A := fun st => (st, Return a).
Definition throw {A} (e : FinalizeError) : M A := fun st => (st, Failed e).
Definition bind {A B} (m : M A) (k : A -> M B) : M B := fun st =>
  match m st with
  | (st', Return a) => k a st'
  | (st', Failed e) => (st', Failed e)
  | (st', Dropped) => (st', Dropped)
  end.

Declare Scope finalizer_scope.
Notation "'let*' x ':=' m 'in' k" := (bind m (fun x => k))
  (at level 10, x pattern, m at level 100, k at level 200) : finalizer_scope.
Notation "m ';;' k" := (bind m (fun _ => k)) (at level 100, right associativity) : finalizer_scope.
Open Scope finalizer_scope.

Definition of_result {A E} (f : E -> FinalizeError) (r : result A E) : M A :=
  match r with Ok a => ret a | Err e => throw (f e) end.
Definition the_session : M Session := fun st => (st, Return (session st)).
Definition modify (f : Session -> Session) : M unit := fun st =>
  (mkSt (f (session st)) (committed st) (log st), Return tt).
Definition commit : M unit := fun st => (mkSt (session st) true (log st), Return tt).
Definition when (b : bool) (m : M unit) : M unit := if b then m else ret tt.

(** A call that does not await. *)
Definition note (e : Effect) : M unit := fun st =>
  (mkSt (session st) (committed st) (log st ++ [e]), Return tt).

Section Finalizer.
Context {UT : UnicodeTables} {R : Ryu} {SHA : Sha256} {E : Ed25519} {B : Base64}.
Context (env : Env) (cfg : Config).

Definition history {A} (f : list Effect -> A) : M A := fun st => (st, Return (f (log st))).

(** A call that awaits. *)
Definition call (e : Effect) : M unit := fun st =>
  let h := log st ++ [e] in
  let st' := mkSt (others env h (session st)) (committed st) h in
  match fate env h with
  | Fine => (st', Return tt)
  | Fails err => (st', Failed err)
  | Cancelled => (st', Dropped)
  end.

(** A call that awaits and whose failure, if any, is only logged. *)
Definition attempt (e : Effect) : M unit := fun st =>
  match call e st with
  | (st', Failed _) => (st', Return tt)
  | other => other
  end.

(** * Shared pieces *)

Definition verify_configured_receipt (r : Receipt) : result unit FinalizeError :=
  if negb (bool_decide (rb_key_id (rc_body r) = sg_key_id (signer cfg))) then
    Err (ReceiptFailed (lit "receipt key " ++ fmt_debug (rb_key_id (rc_body r))
           ++ lit " does not match configured key " ++ fmt_debug (sg_key_id (signer cfg))))
  else
    let '(keyring, added) := add_signer (signer cfg) keyring_new in
    let? _ := map_err KeySource added in
    map_err ReceiptSource (verify keyring r).

Definition clear_budget_state : M unit := when (has_store cfg) (note ClearBudget).

(** [Receipt::issue] on the session's body, then the durable write. *)
Definition issue_and_persist (subject : ReceiptSubject) (stop : StopReason.t) : M Receipt :=
  let* s := the_session in
  let* now := history (clock env) in
  let* fresh := history (uid env) in
  let* r := of_result ReceiptSource (issue (receipt_body now fresh s subject stop) (signer cfg)) in
  call (PersistReceipt r) ;;
  modify (fun s => s<|receipt := Some r|>) ;;
  ret r.

(** * Closing *)

(** The chain's head and count are read under its lock. *)
Definition chain_subject (s : Session) : ReceiptSubject :=
  EventChainSubject (head_hex (chain s)) (count (chain s)).

(** A persisted receipt that no longer verifies seals the session for good. *)
Definition seal_unverifiable (e : FinalizeError) : M Receipt :=
  modify mark_capture_failed ;;
  call EmitQuarantine ;;
  modify mark_artifact_committed ;;
  commit ;;
  clear_budget_state ;;
  attempt QuarantineTools ;;
  note NoteQuarantined ;;
  throw e.

(** A persisted receipt must verify and be about the present chain. *)
Definition check_persisted (subject : ReceiptSubject) (r : Receipt) : result unit FinalizeError :=
  let? _ := verify_configured_receipt r in
  if bool_decide (rb_subject (rc_body r) = subject) then Ok tt
  else Err (ReceiptFailed (lit "persisted receipt subject does not match reconstructed chain")).

Definition close_signed (stop : StopReason.t) : M FinalizeOutcome :=
  let* s := the_session in
  let subject := chain_subject s in
  let* r :=
    match receipt s with
    | Some r =>
        match check_persisted subject r with
        | Ok _ => ret r
        | Err e => seal_unverifiable e
        end
    | None => issue_and_persist subject stop
    end in
  modify mark_artifact_committed ;;
  call (EmitReceipt r) ;;
  ret (ReceiptOutcome r).

(** The trajectory as it is persisted: the session's identity and totals. *)
Definition principal_value (s : Session) : Value :=
  match principal_binding s with Some p => JString p | None => Null end.

Definition artifact_extra (s : Session) : Value :=
  let i := latest_identity s in
  Object [(lit "charter", Wire.charter_to (ag_charter i));
          (lit "instance_uid", JString (ag_instance_uid i));
          (lit "ttl_remaining_s", match ag_ttl_remaining_s i with Some n => ser_u n | None => Null end);
          (lit "principal_binding", principal_value s)].

Definition artifact_metrics (s : Session) (m : Atif.FinalMetrics) : Atif.FinalMetrics :=
  let t := totals s in
  Atif.mkFinalMetrics (Some (prompt_tokens t)) (Some (completion_tokens t)) (Some (cached_tokens t))
    (Some (f64_div (f64_of_int (cost_usd_micros t)) (f64_of_int USD_MICROS_PER_DOLLAR)))
    (Atif.fm_total_steps m)
    (Some (Object [(lit "tool_calls", ser_u (tool_calls t));
                   (lit "tool_allowed", ser_u (tool_allowed t));
                   (lit "tool_blocked", ser_u (tool_blocked t));
                   (lit "cost_usd_micros", ser_u (cost_usd_micros t));
                   (lit "stop_reason_id", ser_u (last_stop_reason_id s));
                   (lit "enforcement_latched", ser_u (tripped s))])).

Definition persisted_trajectory (s : Session) (t : Atif.Trajectory) : Atif.Trajectory :=
  t<|Atif.tj_agent := (Atif.tj_agent t)<|Atif.at_extra := Some (artifact_extra s)|>|>
   <|Atif.tj_final_metrics := artifact_metrics s <$> Atif.tj_final_metrics t|>.

(** [self.spool_dir.join(name)] with a relative name. *)
Definition path_join (dir name : str) : str :=
  match last dir with
  | None => name
  | Some c => if c =? 47 then dir ++ name else dir ++ lit "/" ++ name
  end.

Definition atif_file (sid : str) : str :=
  path_join (spool_dir cfg) (take 32 (sha256_hex (as_bytes sid)) ++ lit ".json").

Definition seal_empty : M str :=
  modify mark_artifact_committed ;;
  commit ;;
  clear_budget_state ;;
  throw (AtifFailed (lit "cannot finalize an unsigned session with no captured steps")).

Definition write_artifact : M str :=
  call RebuildTrajectory ;;
  let* from_journal := history (rebuilt env) in
  let* s := the_session in
  let trajectory := default (snapshot_trajectory s) from_journal in
  if Nat.eqb (length (Atif.tj_steps trajectory)) 0 then seal_empty
  else
    let path := atif_file (id s) in
    call (WriteAtif path (persisted_trajectory s trajectory)) ;;
    ret path.

Definition close_unsigned : M FinalizeOutcome :=
  let* s := the_session in
  let* path :=
    match atif_path s with
    | Some path => ret path
    | None => write_artifact
    end in
  call (EnsureProvenance path) ;;
  modify (fun s => s<|atif_path := Some path|>) ;;
  modify mark_artifact_committed ;;
  ret (AtifOutcome path).

Definition seal_capture_failed {A} : M A :=
  call EmitQuarantine ;;
  modify mark_artifact_committed ;;
  commit ;;
  clear_budget_state ;;
  attempt QuarantineTools ;;
  throw CaptureIncomplete.

(** The tail that publishes the close and drops the journals. *)
Definition close_tail (outcome : FinalizeOutcome) : M FinalizeOutcome :=
  let* s := the_session in
  call (EmitClose (workflow s)) ;;
  call RemoveStepJournal ;;
  call RemoveTools ;;
  call (RemoveOutbox Journal.RECEIPT_OUTBOX_KIND) ;;
  call (RemoveOutbox Journal.SESSION_CLOSE_OUTBOX_KIND) ;;
  commit ;;
  when (bool_decide (workflow s = Workflow.Unsigned)) (attempt PersistCloseMarker) ;;
  clear_budget_state ;;
  modify mark_close_complete ;;
  when (has_sink cfg) (attempt DeleteScope) ;;
  let* fresh := history (uid env) in
  when (bool_decide (workflow s = Workflow.Unsigned)) (modify (drain_trajectory_builder fresh)) ;;
  modify (fun s => s<|loop_state := ((loop_state s).1, Breaker.release_embedding (loop_state s).2)|>) ;;
  ret outcome.

Definition close_body (stop : StopReason.t) : M FinalizeOutcome :=
  call WaitStreams ;;
  call WaitJobs ;;
  let* s := the_session in
  if capture_failed s then seal_capture_failed
  else
    call EnsureTools ;;
    let* outcome :=
      match workflow s with
      | Workflow.Signed => close_signed stop
      | Workflow.Unsigned => close_unsigned
      end in
    close_tail outcome.

(** [CloseClaim::drop]. *)
Definition drop_close_claim (st : St) : St :=
  if committed st then st else mkSt (reset_close (session st)) (committed st) (log st).

(** The caller holds the session's lifecycle lock. *)
Definition close_session_locked (stop : StopReason.t) : M FinalizeOutcome := fun st =>
  match try_close (session st) with
  | (_, false) => (st, Return AlreadyClosed)
  | (s, true) =>
      let '(st', r) := close_body stop (mkSt s false (log st)) in
      (drop_close_claim st', r)
  end.

(** * Promotion *)

(** [path.with_extension(ext)] of a file whose name has a stem. *)
Definition with_extension (path ext : str) : str :=
  let '(dir, name) := match rsplit_once (lit "/") path with
                      | Some (d, n) => (d ++ lit "/", n)
                      | None => ([], path)
                      end in
  let stem := match rsplit_once (lit ".") name with
              | Some ([], _) | None => name
              | Some (s, _) => s
              end in
  dir ++ stem ++ lit "." ++ ext.

Definition RENDER_ISSUE_HEAD : nat := 16.

Fixpoint join_comma (l : list str) : str :=
  match l with
  | [] => []
  | [x] => x
  | x :: l' => x ++ lit ", " ++ join_comma l'
  end.

(** [issues] are given as their [Debug] text. *)
Definition check_strict (bytes : list Z) : M unit :=
  match strict_issues env bytes with
  | Err reason => throw (AtifFailed (lit "strict validation failed (bytes-level): " ++ reason))
  | Ok [] => ret tt
  | Ok issues =>
      let head := take RENDER_ISSUE_HEAD issues in
      throw (AtifFailed (lit "strict validation failed (" ++ fmt_int (Z.of_nat (length issues))
               ++ lit " issues, showing first " ++ fmt_int (Z.of_nat (length head)) ++ lit "): ["
               ++ join_comma head ++ lit "]"))
  end.

Definition promotion_subject (digest : str) (t : Atif.Trajectory) : ReceiptSubject :=
  AtifTrajectorySubject digest (Z.of_nat (length (Atif.tj_steps t))) true.

(** The intent to promote: checked when a marker is there, written otherwise. *)
Definition ensure_marker (path : str) (expected : PromotionMarker) : M unit :=
  let* there := history (exists_at env) in
  if there path then
    call (ReadMarker path) ;;
    let* actual := history (marker env) in
    if bool_decide (pm_session_id actual = pm_session_id expected)
       && bool_decide (pm_trajectory_digest actual = pm_trajectory_digest expected)
    then ret tt
    else throw (AtifFailed (lit "promotion marker does not match session and trajectory"))
  else call (PersistMarker path (pm_session_id expected) (pm_trajectory_digest expected)).

(** From the claim to the published receipt. *)
Definition promote_claimed (subject : ReceiptSubject) (persisted : option Receipt) (marker_path : str)
  : M Receipt :=
  let* r :=
    match persisted with
    | Some r =>
        of_result (fun e => e) (verify_configured_receipt r) ;;
        (if bool_decide (rb_subject (rc_body r) = subject) then ret r
         else throw (ReceiptFailed (lit "persisted promotion receipt does not match ATIF artifact")))
    | None => issue_and_persist subject StopReason.SessionClosed
    end in
  call (EmitReceipt r) ;;
  commit ;;
  modify finish_promotion ;;
  call (RemoveMarker marker_path) ;;
  call (RemoveOutbox Journal.RECEIPT_OUTBOX_KIND) ;;
  ret r.

(** [PromotionClaim::drop]. *)
Definition drop_promotion_claim (st : St) : St :=
  if committed st then st else mkSt (reset_promotion (session st)) (committed st) (log st).

Definition with_promotion_claim (body : M Receipt) : M Receipt := fun st =>
  match try_promote (session st) with
  | (_, false) => (st, Failed (Promotion (lit "promotion is already in progress")))
  | (s, true) =>
      let '(st', r) := body (mkSt s false (log st)) in
      (drop_promotion_claim st', r)
  end.

Definition replay_promoted : M Receipt :=
  let* s := the_session in
  let* r := of_result Promotion (ok_or (receipt s) (lit "promoted session has no persisted receipt")) in
  let* there := history (exists_at env) in
  match atif_path s with
  | Some path =>
      let marker_path := with_extension path (lit "promote") in
      when (there marker_path) (attempt (RemoveMarker marker_path)) ;;
      ret r
  | None => ret r
  end.

Definition promote_artifact : M Receipt :=
  call EnsureTools ;;
  let* s := the_session in
  let* path := of_result Promotion (ok_or (atif_path s) (lit "session has no persisted ATIF artifact")) in
  let marker_path := with_extension path (lit "promote") in
  let* there := history (exists_at env) in
  if negb (there (with_extension path (lit "atif-auth"))) then
    throw (AtifFailed (lit "ATIF artifact has no authenticated provenance"))
  else
    call (EnsureProvenance path) ;;
    call (ReadArtifact path) ;;
    let* bytes := history (artifact env) in
    let* trajectory := of_result AtifFailed (parsed env bytes) in
    check_strict bytes ;;
    let digest := sha256_hex bytes in
    ensure_marker marker_path (mkMarker (id s) digest) ;;
    with_promotion_claim (promote_claimed (promotion_subject digest trajectory) (receipt s) marker_path).

(** Under the session's lifecycle lock. *)
Definition promote : M Receipt :=
  let* s := the_session in
  if negb (bool_decide (workflow s = Workflow.Unsigned)) then
    of_result Promotion (ok_or (receipt s) (lit "signed session has no issued receipt"))
  else
    (if is_closed s then ret tt
     else close_session_locked StopReason.SessionClosed ;; ret tt) ;;
    let* s := the_session in
    if is_promoted s then replay_promoted
    else if capture_failed s then throw CaptureIncomplete
    else promote_artifact.
End Finalizer.
End Finalizer.
