(* ===== verification/FinalizerProofs.v ===== *)
(** What closing and promoting guarantee, whatever fails and wherever the future is
    dropped. *)

From S2P Require Import Prelude.
From S2P Require Import Rust.
From S2P Require Import CoreBase.
From S2P Require Import Json.
From S2P Require Import LoopDetect.
From S2P Require Import Jcs.
From S2P Require Import JcsProofs.
From S2P Require Import Events.
From S2P Require Import Receipts.
From S2P Require Import ReceiptsProofs.
From S2P Require Import Journal.
From S2P Require Import Atif.
From S2P Require Import Session.
From S2P Require Import SessionProofs.
From S2P Require Import Finalizer.

Import Finalizer.

(** * A program logic for the finalizer's methods *)

(** From [P], the method ends in [Q] when it returns and in [X] when it fails or is
    dropped. *)
Definition triple {A} (P : St -> Prop) (m : M A) (Q : A -> St -> Prop) (X : St -> Prop) : Prop :=
  forall st, P st -> match m st with (st', Return a) => Q a st' | (st', _) => X st' end.

Section Logic.
Context {A B : Type}.

Lemma triple_conseq (P P' : St -> Prop) (m : M A) (Q Q' : A -> St -> Prop) (X X' : St -> Prop) :
  (forall st, P st -> P' st) -> triple P' m Q' X' ->
  (forall a st, Q' a st -> Q a st) -> (forall st, X' st -> X st) -> triple P m Q X.
Proof.
  intros HP Hm HQ HX st Hst. specialize (Hm st (HP st Hst)). destruct (m st) as [st' [a|e|]]; auto.
Qed.

Lemma triple_bind (P : St -> Prop) (m : M A) (k : A -> M B) Q R X :
  triple P m Q X -> (forall a, triple (Q a) (k a) R X) -> triple P (bind m k) R X.
Proof.
  intros Hm Hk st Hst. specialize (Hm st Hst). unfold bind. destruct (m st) as [st' [a|e|]]; [|done..].
  by apply Hk.
Qed.

Lemma triple_seq (P Q : St -> Prop) (m : M A) (k : M B) R X :
  triple P m (fun _ => Q) X -> triple Q k R X -> triple P (bind m (fun _ => k)) R X.
Proof. intros Hm Hk. by eapply triple_bind. Qed.

Lemma triple_and (P P' : St -> Prop) (m : M A) Q Q' X X' :
  triple P m Q X -> triple P' m Q' X' ->
  triple (fun st => P st /\ P' st) m (fun a st => Q a st /\ Q' a st) (fun st => X st /\ X' st).
Proof. intros H H' st [Hp Hp']. specialize (H st Hp). specialize (H' st Hp'). by destruct (m st) as [st' [a|e|]]. Qed.

Lemma triple_ret (a : A) Q X : triple (Q a) (ret a) Q X.
Proof. by intros st. Qed.

Lemma triple_throw (e : FinalizeError) (Q : A -> St -> Prop) X : triple X (throw e) Q X.
Proof. by intros st. Qed.

Lemma triple_of_result {Er} (f : Er -> FinalizeError) (r : result A Er) (P : St -> Prop) Q (X : St -> Prop) :
  (forall a, r = Ok a -> forall st, P st -> Q a st) -> (forall st, P st -> X st) ->
  triple P (of_result f r) Q X.
Proof. intros HQ HX st Hst. destruct r; cbn; eauto. Qed.

Lemma triple_history (f : list Effect -> A) (P : St -> Prop) X :
  triple P (history f) (fun a st => P st /\ a = f (log st)) X.
Proof. by intros st. Qed.
End Logic.

Lemma triple_session (P : St -> Prop) X : triple P the_session (fun s st => P st /\ s = session st) X.
Proof. by intros st. Qed.

Lemma triple_modify f (P Q X : St -> Prop) :
  (forall st, P st -> Q (mkSt (f (session st)) (committed st) (log st))) ->
  triple P (modify f) (fun _ => Q) X.
Proof. intros H st. apply H. Qed.

Lemma triple_commit (P Q X : St -> Prop) :
  (forall st, P st -> Q (mkSt (session st) true (log st))) -> triple P commit (fun _ => Q) X.
Proof. intros H st. apply H. Qed.

Lemma triple_note e (P Q X : St -> Prop) :
  (forall st, P st -> Q (mkSt (session st) (committed st) (log st ++ [e]))) ->
  triple P (note e) (fun _ => Q) X.
Proof. intros H st. apply H. Qed.

Lemma triple_when b m (P Q X : St -> Prop) :
  triple P m (fun _ => Q) X -> (forall st, b = false -> P st -> Q st) -> triple P (when b m) (fun _ => Q) X.
Proof. intros Hm Hr. destruct b; [done|]. intros st Hst. cbn. auto. Qed.

(** The state after the await of an effect. *)
Definition awaited (env : Env) (e : Effect) (st : St) : St :=
  mkSt (others env (log st ++ [e]) (session st)) (committed st) (log st ++ [e]).

Lemma triple_call env e (P Q X : St -> Prop) :
  (forall st, P st -> Q (awaited env e st) /\ X (awaited env e st)) -> triple P (call env e) (fun _ => Q) X.
Proof. intros H st Hst. unfold call. destruct (fate _ _); apply (H st Hst). Qed.

Lemma triple_attempt env e (P Q X : St -> Prop) :
  (forall st, P st -> Q (awaited env e st) /\ X (awaited env e st)) -> triple P (attempt env e) (fun _ => Q) X.
Proof. intros H st Hst. unfold attempt, call. destruct (fate _ _); cbn; apply (H st Hst). Qed.

(** * The surroundings *)

(** What the other threads leave alone: the close and the promotion run under the
    session's lifecycle lock, and the chain rests once the worker's jobs are drained. *)
Definition frame (s : Session) :=
  (closed s, lifecycle s, workflow s, id s, receipt s, atif_path s, promoted s).

Record respects (env : Env) : Prop := {
  rs_frame : forall h s, frame (others env h s) = frame s;
  rs_chain : forall h s, WaitJobs ∈ h -> chain (others env h s) = chain s;
}.

(** The claim flag and the chain agree. *)
Definition coherent (s : Session) : Prop :=
  lifecycle s ∈ [0; 1; 2; 3] /\ closed s ∈ [0; 1] /\ (lifecycle s = 1 -> closed s = 1).

(** A close in progress. *)
Record live (st : St) : Prop := {
  lv_closed : closed (session st) = 1;
  lv_state : lifecycle (session st) ∈ [1; 2; 3];
  lv_commit : committed st = true -> artifact_committed_flag (session st) = true;
}.

Lemma committed_lifecycle s : artifact_committed_flag s = true <-> lifecycle s ∈ [2; 3].
Proof.
  unfold artifact_committed_flag, lifecycle_state, SessionState.decode.
  destruct (lifecycle s =? 1) eqn:E1; b2p; [rewrite E1; split; [done|set_solver]|].
  destruct (lifecycle s =? 2) eqn:E2; b2p; [rewrite E2; split; [set_solver|done]|].
  destruct (lifecycle s =? 3) eqn:E3; b2p; [rewrite E3; split; [set_solver|done]|].
  split; [done|]. rewrite !elem_of_cons, elem_of_nil. naive_solver.
Qed.

Lemma awaited_frame env e st : respects env -> frame (session (awaited env e st)) = frame (session st).
Proof. intros Hr. apply Hr. Qed.

Lemma live_frame st st' : frame (session st') = frame (session st) -> committed st' = committed st ->
  live st -> live st'.
Proof.
  intros [= Hc Hl _ _ _ _ _] Hcm [H1 H2 H3]. split; [congruence|by rewrite Hl|].
  rewrite Hcm. intros Ha%H3. apply committed_lifecycle. rewrite Hl. by apply committed_lifecycle.
Qed.

Lemma seal_fields s : frame (mark_artifact_committed s) =
  (closed s, lifecycle (mark_artifact_committed s), workflow s, id s, receipt s, atif_path s, promoted s) /\
  chain (mark_artifact_committed s) = chain s.
Proof. unfold mark_artifact_committed, transition. case_bool_decide; by destruct s. Qed.

Lemma seal_committed s : artifact_committed_flag (mark_artifact_committed s) = true.
Proof.
  unfold mark_artifact_committed, transition. case_bool_decide as E; [by destruct s|].
  unfold artifact_committed_flag. rewrite !elem_of_cons, elem_of_nil in E. destruct (lifecycle_state s); naive_solver.
Qed.

Lemma live_sealed s c l : live (mkSt s c l) -> live (mkSt (mark_artifact_committed s) c l).
Proof.
  intros [H1 H2 H3]. pose proof (seal_fields s) as [[= Hc _ _ _ _ _] _]. pose proof (seal_committed s) as Hs.
  split; cbn in *; [congruence| |done]. apply committed_lifecycle in Hs. set_solver.
Qed.

Section Close.
Context {UT : UnicodeTables} {RY : Ryu} {SHA : Sha256} {E : Ed25519} {B64 : Base64} {EL : Ed25519Laws E}.
Context (env : Env) (cfg : Config) (es : Ed25519Signer).
Hypothesis env_respects : respects env.
Hypothesis signer_honest : honest es.
Hypothesis signer_cfg : signer cfg = as_signer es.

(** The artifact a close secures before it drops the journals. *)
Definition secured (s : Session) (h : list Effect) : Prop :=
  artifact_committed_flag s = true /\
  match workflow s with
  | Workflow.Signed => exists r, receipt s = Some r /\ verify_configured_receipt cfg r = Ok tt /\
      rb_subject (rc_body r) = chain_subject s /\ EmitReceipt r ∈ h
  | Workflow.Unsigned => exists p, atif_path s = Some p /\ EnsureProvenance p ∈ h
  end.

(** Where a close may stop: no journal is dropped unless the artifact is secured and
    the close published. *)
Definition stopped (st : St) : Prop :=
  live st /\ (RemoveStepJournal ∈ log st ->
    secured (session st) (log st) /\ EmitClose (workflow (session st)) ∈ log st).

Definition begun (st : St) : Prop := live st /\ RemoveStepJournal ∉ log st.
Definition drained (st : St) : Prop := begun st /\ WaitJobs ∈ log st.

Lemma begun_stopped st : begun st -> stopped st.
Proof. intros [Hl Hn]. split; [done|]. by intros ?%Hn. Qed.

Lemma drained_stopped st : drained st -> stopped st.
Proof. intros [? _]. by apply begun_stopped. Qed.

Lemma begun_awaited e st : e <> RemoveStepJournal -> begun st -> begun (awaited env e st).
Proof.
  intros He [Hl Hn]. split; [eapply live_frame; [by apply awaited_frame|done|done]|].
  cbn. rewrite elem_of_app, list_elem_of_singleton. naive_solver.
Qed.

Lemma drained_awaited e st : e <> RemoveStepJournal -> drained st -> drained (awaited env e st).
Proof. intros He [Hb Hw]. split; [by apply begun_awaited|]. cbn. apply elem_of_app. by left. Qed.

Lemma secured_awaited e st : WaitJobs ∈ log st -> secured (session st) (log st) ->
  secured (session (awaited env e st)) (log (awaited env e st)).
Proof.
  intros Hw [Hc Ha]. pose proof (awaited_frame env e st env_respects) as [= _ Hl Hwf _ Hr Hp _].
  unfold awaited. cbn [session log]. split; [apply committed_lifecycle; rewrite Hl; by apply committed_lifecycle|]. rewrite Hwf.
  destruct (workflow (session st)).
  - destruct Ha as (r & H1 & H2 & H3 & H4). exists r. split_and!; [congruence|done| |apply elem_of_app; by left].
    rewrite H3. unfold chain_subject. rewrite (rs_chain env env_respects); [done|]. apply elem_of_app. by left.
  - destruct Ha as (p & H1 & H2). exists p. split; [congruence|]. apply elem_of_app. by left.
Qed.

Lemma drained_sealed s c l : drained (mkSt s c l) -> drained (mkSt (mark_artifact_committed s) c l).
Proof. intros [[Hl Hn] Hw]. split; [|done]. split; [by apply live_sealed|done]. Qed.

(** Any step that only writes fields outside the chain's state. *)
Lemma drained_update st s' :
  (closed s', lifecycle s') = (closed (session st), lifecycle (session st)) ->
  drained st -> drained (mkSt s' (committed st) (log st)).
Proof.
  intros [= Hc Hl] [[[H1 H2 H3] Hn] Hw]. split; [|done]. split; [|done].
  split; cbn; [congruence|by rewrite Hl|]. intros Ha%H3. apply committed_lifecycle. rewrite Hl.
  by apply committed_lifecycle.
Qed.

Lemma drained_note e st : e <> RemoveStepJournal -> drained st ->
  drained (mkSt (session st) (committed st) (log st ++ [e])).
Proof.
  intros He [[[H1 H2 H3] Hn] Hw]. split; [|cbn; apply elem_of_app; by left]. split; [by split|].
  cbn. rewrite elem_of_app, list_elem_of_singleton. naive_solver.
Qed.

(** ** Pieces *)

Lemma call_drained e : e <> RemoveStepJournal -> triple drained (call env e) (fun _ => drained) stopped.
Proof. intros He. apply triple_call. intros st Hst. split; [|apply drained_stopped]; by apply drained_awaited. Qed.

Lemma attempt_drained e : e <> RemoveStepJournal -> triple drained (attempt env e) (fun _ => drained) stopped.
Proof. intros He. apply triple_attempt. intros st Hst. split; [|apply drained_stopped]; by apply drained_awaited. Qed.

Lemma clear_drained : triple drained (clear_budget_state cfg) (fun _ => drained) stopped.
Proof.
  apply triple_when; [|done]. apply triple_note. intros st Hst. by apply drained_note.
Qed.

Lemma throw_stopped {A} e (Q : A -> St -> Prop) : triple drained (throw e) Q stopped.
Proof. eapply triple_conseq; [apply drained_stopped|apply triple_throw|done|done]. Qed.

(** Sealing under the claim, then committing it. *)
Lemma seal_commit_drained {A} (k : M A) Q : triple drained k Q stopped ->
  triple drained (bind (modify mark_artifact_committed) (fun _ => bind commit (fun _ => k))) Q stopped.
Proof.
  intros Hk. eapply triple_seq with (Q := fun st => drained st /\ artifact_committed_flag (session st) = true).
  { apply triple_modify. intros [s c l] Hst. cbn.
    split; [by apply drained_sealed|apply seal_committed]. }
  eapply triple_seq with (Q := drained); [|done].
  apply triple_commit. intros [s c l] [[[[H1 H2 H3] Hn] Hw] Ha]. by split.
Qed.

Lemma seal_capture_failed_ok {A} Q : triple drained (@seal_capture_failed env cfg A) Q stopped.
Proof.
  unfold seal_capture_failed. eapply triple_seq; [by apply call_drained|].
  apply seal_commit_drained. eapply triple_seq; [apply clear_drained|].
  eapply triple_seq; [by apply attempt_drained|]. apply throw_stopped.
Qed.

Lemma modify_drained f : (forall s, (closed (f s), lifecycle (f s)) = (closed s, lifecycle s)) ->
  triple drained (modify f) (fun _ => drained) stopped.
Proof.
  intros Hf. apply triple_modify. intros st Hst. by apply drained_update.
Qed.

Lemma seal_unverifiable_ok e Q : triple drained (seal_unverifiable env cfg e) Q stopped.
Proof.
  unfold seal_unverifiable. eapply triple_seq; [apply modify_drained; by intros []|].
  eapply triple_seq; [by apply call_drained|]. apply seal_commit_drained.
  eapply triple_seq; [apply clear_drained|]. eapply triple_seq; [by apply attempt_drained|].
  eapply triple_seq with (Q := drained); [|apply throw_stopped].
  apply triple_note. intros st Hst. by apply drained_note.
Qed.

Lemma seal_empty_ok Q : triple drained (seal_empty cfg) Q stopped.
Proof.
  unfold seal_empty. apply seal_commit_drained. eapply triple_seq; [apply clear_drained|].
  apply throw_stopped.
Qed.

(** What an honest signer issues, the configured check accepts. *)
Lemma fresh_verifies body r : issue body (signer cfg) = Ok r ->
  verify_configured_receipt cfg r = Ok tt /\ rb_subject (rc_body r) = rb_subject body.
Proof.
  rewrite signer_cfg. intros Hi. pose proof Hi as Hi'. apply issue_ok in Hi' as (canon & msg & Hw & _); [|done].
  assert (exists ring, add_signer (signer cfg) keyring_new = (ring, Ok (derive_key_id (verifying_key (es_key es)))))
    as [ring Ha].
  { rewrite signer_cfg. unfold add_signer, add_key_bytes, as_signer, sg_public_key_bytes.
    rewrite vk_bytes_roundtrip, Hw. unfold keyring_new, Keyring. rewrite lookup_empty. eauto. }
  pose proof Ha as Hs. rewrite signer_cfg in Hs.
  destruct (issue_verifies es body keyring_new ring _ [] r signer_honest Hs Hi) as [Hb Hv]. rewrite Hb.
  split; [|done]. unfold verify_configured_receipt. rewrite Ha, Hb, signer_cfg. cbn [stamp rb_key_id as_signer sg_key_id].
  rewrite bool_decide_eq_true_2 by done. cbn [negb map_err]. cbn in Hv. by rewrite Hv.
Qed.

(** ** The signed branch *)

Definition has_receipt (r : Receipt) (st : St) : Prop :=
  drained st /\ workflow (session st) = Workflow.Signed /\ receipt (session st) = Some r /\
  verify_configured_receipt cfg r = Ok tt /\ rb_subject (rc_body r) = chain_subject (session st).

Lemma awaited_drained_chain e st : drained st ->
  chain (session (awaited env e st)) = chain (session st).
Proof. intros [_ Hw]. apply env_respects. apply elem_of_app. by left. Qed.

(** A signed session whose chain is the subject. *)
Definition about (subject : ReceiptSubject) (st : St) : Prop :=
  drained st /\ workflow (session st) = Workflow.Signed /\ chain_subject (session st) = subject.

Lemma about_awaited subject e st : e <> RemoveStepJournal -> about subject st -> about subject (awaited env e st).
Proof.
  intros He (Hd & Hw & Hc). pose proof (awaited_frame env e st env_respects) as [= _ _ Hwf _ _ _ _].
  split_and!; [by apply drained_awaited|by rewrite <- Hw|]. rewrite <- Hc. unfold chain_subject.
  by rewrite awaited_drained_chain.
Qed.

Lemma issue_and_persist_ok subject stop :
  triple (about subject) (issue_and_persist env cfg subject stop) has_receipt stopped.
Proof.
  unfold issue_and_persist.
  eapply triple_bind; [apply triple_session|]. intros s. eapply triple_bind; [apply triple_history|]. intros now.
  eapply triple_bind; [apply triple_history|]. intros fresh.
  eapply triple_bind with (Q := fun r st => about subject st /\ verify_configured_receipt cfg r = Ok tt /\
    rb_subject (rc_body r) = subject).
  { apply triple_of_result.
    - intros r [Hv Hs]%fresh_verifies st [[[Ha _] _] _]. by rewrite Hs.
    - intros st [[[Ha _] _] _]. by apply drained_stopped, Ha. }
  intros r. eapply triple_seq with (Q := fun st => about subject st /\ verify_configured_receipt cfg r = Ok tt /\
    rb_subject (rc_body r) = subject).
  { apply triple_call. intros st (Ha & Hv & Hs). pose proof (about_awaited subject (PersistReceipt r) st ltac:(done) Ha) as Hw.
    split; [done|]. by apply drained_stopped, Hw. }
  eapply triple_seq with (Q := has_receipt r); [|by intros st].
  apply triple_modify. intros st ((Hd & Hw & Hc) & Hv & Hs). unfold has_receipt. cbn [session].
  split_and!; [|by destruct (session st)..|done|].
  - apply drained_update; [by destruct (session st)|done].
  - rewrite Hs, <- Hc. by destruct (session st).
Qed.

Lemma check_persisted_ok subject r : check_persisted cfg subject r = Ok tt ->
  verify_configured_receipt cfg r = Ok tt /\ rb_subject (rc_body r) = subject.
Proof.
  unfold check_persisted. destruct (verify_configured_receipt cfg r) as [[]|]; [|done].
  by case_bool_decide.
Qed.

(** The outcome is the artifact the session holds. *)
Definition reported (o : FinalizeOutcome) (s : Session) : Prop :=
  match o with
  | ReceiptOutcome r => receipt s = Some r
  | AtifOutcome p => atif_path s = Some p
  | AlreadyClosed => False
  end.

Definition closed_with (o : FinalizeOutcome) (st : St) : Prop :=
  drained st /\ secured (session st) (log st) /\ reported o (session st).

Lemma close_signed_ok stop :
  triple (fun st => drained st /\ workflow (session st) = Workflow.Signed) (close_signed env cfg stop)
    closed_with stopped.
Proof.
  unfold close_signed. intros st [Hd Hw]. unfold bind at 1, the_session at 1. cbn [fst snd].
  revert st Hd Hw. set (rest := fun r : Receipt => _ : M FinalizeOutcome).
  assert (Hrest : forall r, triple (has_receipt r) (rest r) closed_with stopped).
  { intros r. unfold rest. eapply triple_seq with (Q := fun st => has_receipt r st /\ artifact_committed_flag (session st) = true).
    - apply triple_modify. intros [s c l] (H1 & H2 & H3 & H4 & H5). unfold has_receipt. cbn [session committed log] in *.
      pose proof (seal_fields s) as [[= _ Hwf _ Hrc _ _] Hch]. unfold chain_subject in *.
      rewrite Hwf, Hrc, Hch. split_and!; try done; [by apply drained_sealed|apply seal_committed].
    - eapply triple_seq with (Q := fun st => drained st /\ secured (session st) (log st) /\ receipt (session st) = Some r).
      + apply triple_call. intros st [(H1 & H2 & H3 & H4 & H5) H6].
        pose proof (drained_awaited (EmitReceipt r) st ltac:(done) H1) as Hd. split; [|by apply drained_stopped].
        pose proof (awaited_frame env (EmitReceipt r) st env_respects) as [= _ Hl Hwf _ Hrc _ _].
        pose proof (awaited_drained_chain (EmitReceipt r) st H1) as Hc. unfold awaited in *. cbn [session log] in *.
        split_and!; [done| |by rewrite Hrc]. split; [apply committed_lifecycle; rewrite Hl; by apply committed_lifecycle|].
        rewrite Hwf, H2. exists r. split_and!; [congruence|done| |apply elem_of_app; right; by constructor].
        unfold chain_subject in *. by rewrite Hc.
      + intros st (H1 & H2 & H3). by split_and!. }
  intros st Hd Hw. destruct (receipt (session st)) as [r|] eqn:Er.
  - destruct (check_persisted cfg _ r) as [[]|e] eqn:Ec.
    + apply check_persisted_ok in Ec as [H1 H2]. apply (Hrest r st). by split_and!.
    + pose proof (seal_unverifiable_ok e (fun _ _ => False) st Hd) as Hu. unfold bind.
      destruct (seal_unverifiable env cfg e st) as [st' [a|e'|]]; by cbn in *.
  - pose proof (issue_and_persist_ok (chain_subject (session st)) stop st (conj Hd (conj Hw eq_refl))) as Hp.
    unfold bind. destruct (issue_and_persist _ _ _ _ st) as [st' [r|e|]]; [|done..]. by apply Hrest.
Qed.

(** ** The unsigned branch *)

Lemma write_artifact_ok : triple drained (write_artifact env cfg) (fun _ => drained) stopped.
Proof.
  unfold write_artifact. eapply triple_seq; [by apply call_drained|].
  eapply triple_bind; [apply triple_history|]. intros from_journal.
  eapply triple_bind; [apply triple_session|]. intros s. cbv beta.
  set (t := default _ from_journal). destruct (Nat.eqb _ 0).
  - eapply triple_conseq; [|apply seal_empty_ok|intros a st H; exact H|done]. by intros st [[Hd _] _].
  - eapply triple_seq with (Q := drained); [|by intros st].
    eapply triple_conseq; [|by apply call_drained|done|done]. by intros st [[Hd _] _].
Qed.

(** The workflow stays what it was. *)
Lemma write_artifact_workflow w :
  triple (fun st => workflow (session st) = w) (write_artifact env cfg)
    (fun _ st => workflow (session st) = w) (fun _ => True).
Proof.
  assert (Hcall : forall e, triple (fun st => workflow (session st) = w) (call env e)
                    (fun _ st => workflow (session st) = w) (fun _ => True)).
  { intros e. apply triple_call. intros st <-. split; [|done].
    by pose proof (awaited_frame env e st env_respects) as [= _ _ Hwf _ _ _ _]. }
  unfold write_artifact. eapply triple_seq; [apply Hcall|].
  eapply triple_bind; [apply triple_history|]. intros from_journal.
  eapply triple_bind; [apply triple_session|]. intros s. cbv beta.
  set (t := default _ from_journal). destruct (Nat.eqb _ 0).
  - intros st _. unfold seal_empty, clear_budget_state, when. by destruct (has_store cfg).
  - eapply triple_seq with (Q := fun st => workflow (session st) = w); [|by intros st].
    eapply triple_conseq; [|apply Hcall|done|done]. by intros st [[Hd _] _].
Qed.

Lemma close_unsigned_ok :
  triple (fun st => drained st /\ workflow (session st) = Workflow.Unsigned) (close_unsigned env cfg)
    closed_with stopped.
Proof.
  unfold close_unsigned. eapply triple_bind; [apply triple_session|]. intros s. cbv beta.
  eapply triple_bind with (Q := fun _ st => drained st /\ workflow (session st) = Workflow.Unsigned).
  { destruct (atif_path s) as [path|].
    - by intros st [Hst _].
    - eapply triple_conseq; [|apply triple_and; [apply write_artifact_ok|apply write_artifact_workflow]|
        intros a st H; exact H|by intros st [H _]]. by intros st [Hst _]. }
  intros path.
  eapply triple_seq with (Q := fun st => drained st /\ workflow (session st) = Workflow.Unsigned /\
    EnsureProvenance path ∈ log st).
  { apply triple_call. intros st [Hd Hw].
    pose proof (drained_awaited (EnsureProvenance path) st ltac:(done) Hd) as Ha. split; [|by apply drained_stopped].
    pose proof (awaited_frame env (EnsureProvenance path) st env_respects) as [= _ _ Hwf _ _ _ _].
    split_and!; [done|by rewrite <- Hw|]. apply elem_of_app. right. by constructor. }
  eapply triple_seq with (Q := fun st => drained st /\ workflow (session st) = Workflow.Unsigned /\
    EnsureProvenance path ∈ log st /\ atif_path (session st) = Some path).
  { apply triple_modify. intros st (Hd & Hw & Hp). cbn [session log]. split_and!; [|by destruct (session st)|done|by destruct (session st)].
    apply drained_update; [by destruct (session st)|done]. }
  eapply triple_seq with (Q := closed_with (AtifOutcome path)); [|by intros st].
  apply triple_modify. intros [s' c l] (Hd & Hw & Hp & Ha). cbn [session committed log] in *.
  pose proof (seal_fields s') as [[= _ Hwf _ _ Hat _] _]. split_and!; [by apply drained_sealed| |unfold reported; cbn [session]; by rewrite Hat].
  cbn. split; [apply seal_committed|]. rewrite Hwf, Hw. exists path. split; [by rewrite <- Ha|done].
Qed.

(** ** The tail *)

(** The journals may go: the artifact is secured and the close published. *)
Definition gone (st : St) : Prop :=
  live st /\ WaitJobs ∈ log st /\ secured (session st) (log st) /\ EmitClose (workflow (session st)) ∈ log st.

Lemma gone_stopped st : gone st -> stopped st.
Proof. by intros (Hl & _ & Hs & He). Qed.

Lemma gone_awaited e st : gone st -> gone (awaited env e st).
Proof.
  intros (Hl & Hw & Hs & He). pose proof (awaited_frame env e st env_respects) as Hf.
  split_and!; [by eapply live_frame|apply elem_of_app; by left|by apply secured_awaited|].
  injection Hf as _ _ Hwf _ _ _ _. cbn. rewrite Hwf. apply elem_of_app. by left.
Qed.

Lemma gone_call e : triple gone (call env e) (fun _ => gone) stopped.
Proof. apply triple_call. intros st Hst%(gone_awaited e). split; [done|]. by apply gone_stopped. Qed.

Lemma secured_log s h e : secured s h -> secured s (h ++ [e]).
Proof.
  intros [Hc Ha]. split; [done|]. destruct (workflow s).
  - destruct Ha as (r & ? & ? & ? & ?). exists r. split_and!; try done. apply elem_of_app. by left.
  - destruct Ha as (p & ? & ?). exists p. split; [done|]. apply elem_of_app. by left.
Qed.

Definition finishing (o : FinalizeOutcome) (st : St) : Prop := gone st /\ reported o (session st).

Lemma reported_frame o s s' : frame s' = frame s -> reported o s -> reported o s'.
Proof. intros [= _ _ _ _ Hr Ha _]. destruct o; cbn; congruence. Qed.

Lemma finishing_awaited o e st : finishing o st -> finishing o (awaited env e st).
Proof.
  intros [Hg Hr]. split; [by apply gone_awaited|]. eapply reported_frame; [by apply awaited_frame|done].
Qed.

Lemma finishing_call o e : triple (finishing o) (call env e) (fun _ => finishing o) stopped.
Proof. apply triple_call. intros st Hst%(finishing_awaited o e). split; [done|]. by apply gone_stopped, Hst. Qed.

Definition finished (o : FinalizeOutcome) (st : St) : Prop :=
  finishing o st /\ close_complete_flag (session st) = true.

Lemma complete_lifecycle s : close_complete_flag s = true <-> lifecycle s = 3.
Proof.
  unfold close_complete_flag, lifecycle_state, SessionState.decode. rewrite bool_decide_eq_true.
  destruct (lifecycle s =? 1) eqn:E1; b2p; [rewrite E1; by split|].
  destruct (lifecycle s =? 2) eqn:E2; b2p; [rewrite E2; by split|].
  destruct (lifecycle s =? 3) eqn:E3; b2p; by split.
Qed.

Lemma finished_awaited o e st : finished o st -> finished o (awaited env e st).
Proof.
  intros [Hf Hc]. split; [by apply finishing_awaited|]. rewrite complete_lifecycle in *.
  pose proof (awaited_frame env e st env_respects) as [= _ Hl _ _ _ _ _]. unfold awaited. cbn [session]. congruence.
Qed.

(** Writes outside the frame and the chain. *)
Lemma finished_update o st s' : frame s' = frame (session st) -> chain s' = chain (session st) ->
  finished o st -> finished o (mkSt s' (committed st) (log st)).
Proof.
  intros Hf Hch [[(Hl & Hw & Hs & He) Hr] Hc].
  split; [|rewrite complete_lifecycle in *; injection Hf as _ Hlc _ _ _ _ _; cbn [session]; congruence].
  split; [|by eapply reported_frame].
  split_and!; [by eapply live_frame|done| |injection Hf as _ _ Hwf _ _ _ _; cbn [session log]; by rewrite Hwf].
  destruct Hs as [Ha Hs]. injection Hf as _ Hli Hwf _ Hre Hat _. cbn. split.
  - apply committed_lifecycle. rewrite Hli. by apply committed_lifecycle.
  - rewrite Hwf. unfold chain_subject in *. rewrite Hch.
    destruct (workflow (session st)); [by rewrite Hre|by rewrite Hat].
Qed.

Lemma finishing_note o e st : finishing o st -> finishing o (mkSt (session st) (committed st) (log st ++ [e])).
Proof.
  intros [(Hl & Hw & Hs & He) Hr]. split; [|done]. split_and!; cbn; [|apply elem_of_app; by left|by apply secured_log|
    apply elem_of_app; by left]. by destruct Hl.
Qed.

Lemma finishing_complete o st : finishing o st ->
  finished o (mkSt (mark_close_complete (session st)) (committed st) (log st)).
Proof.
  intros [(Hl & Hw & [Ha Hs] & He) Hr]. set (s := session st) in *.
  assert (frame (mark_close_complete s) = (closed s, 3, workflow s, id s, receipt s, atif_path s, promoted s) /\
          chain (mark_close_complete s) = chain s) as [Hf Hch].
  { unfold mark_close_complete, transition. apply committed_lifecycle in Ha.
    destruct (decide (lifecycle s = 2)) as [E2|E2].
    - rewrite bool_decide_eq_true_2; [by destruct s|]. unfold lifecycle_state. rewrite E2. by constructor.
    - assert (lifecycle s = 3) as E3 by (rewrite !elem_of_cons, elem_of_nil in Ha; naive_solver).
      rewrite bool_decide_eq_false_2; [unfold frame; by rewrite E3|]. unfold lifecycle_state. rewrite E3.
      by intros [=]%list_elem_of_singleton. }
  injection Hf as Hc Hli Hwf Hid Hre Hat Hpr. unfold finished, finishing, gone, secured. cbn [session log committed].
  rewrite complete_lifecycle, committed_lifecycle, Hwf, Hli. split_and!; try done.
  - split; cbn; [rewrite Hc; apply Hl|rewrite Hli; set_solver|]. intros _. apply committed_lifecycle. rewrite Hli. set_solver.
  - set_solver.
  - unfold chain_subject. rewrite Hch, Hre, Hat. done.
  - destruct o; cbn in *; congruence.
Qed.

Lemma close_tail_ok o : triple (closed_with o) (close_tail env cfg o) (fun a st => a = o /\ finished o st) stopped.
Proof.
  unfold close_tail. eapply triple_bind; [apply triple_session|]. intros s. cbv beta.
  eapply triple_seq with (Q := fun st => closed_with o st /\ EmitClose (workflow (session st)) ∈ log st).
  { apply triple_call. intros st [(Hd & Hs & Hr) ->]. pose proof (awaited_frame env (EmitClose (workflow (session st))) st env_respects) as Hf.
    pose proof (drained_awaited (EmitClose (workflow (session st))) st ltac:(done) Hd) as Ha.
    split; [|by apply drained_stopped]. split; [|injection Hf as _ _ Hwf _ _ _ _; cbn; rewrite Hwf; apply elem_of_app; right; by constructor].
    split_and!; [done| |by eapply reported_frame]. apply secured_awaited; [apply Hd|done]. }
  eapply triple_seq with (Q := finishing o).
  { apply triple_call. intros st [([[Hl Hn] Hw] & Hs & Hr) He]. assert (finishing o st) as Hf by done.
    apply (finishing_awaited o RemoveStepJournal) in Hf. split; [done|]. by apply gone_stopped, Hf. }
  do 3 (eapply triple_seq; [apply finishing_call|]).
  eapply triple_seq with (Q := finishing o).
  { apply triple_commit. intros st [(Hl & Hw & Hs & He) Hr]. split; [|done]. split_and!; [|done..].
    destruct Hl as [H1 H2 _]. split; [done|done|]. intros _. apply Hs. }
  eapply triple_seq with (Q := finishing o).
  { apply triple_when; [|done]. apply triple_attempt. intros st Hst%(finishing_awaited o PersistCloseMarker).
    split; [done|]. by apply gone_stopped, Hst. }
  eapply triple_seq with (Q := finishing o).
  { apply triple_when; [|done]. apply triple_note. intros st. apply finishing_note. }
  eapply triple_seq with (Q := finished o).
  { apply triple_modify. intros st. apply finishing_complete. }
  eapply triple_seq with (Q := finished o).
  { apply triple_when; [|done]. apply triple_attempt. intros st Hst%(finished_awaited o DeleteScope).
    split; [done|]. by apply gone_stopped, Hst. }
  eapply triple_bind; [apply triple_history|]. intros fresh. cbv beta.
  eapply triple_seq with (Q := finished o).
  { apply triple_when; [|by intros st _ [? _]]. apply triple_modify. intros st [Hst _].
    apply finished_update; [by destruct (session st)..|done]. }
  eapply triple_seq with (Q := finished o); [|by intros st].
  apply triple_modify. intros st Hst. apply finished_update; [by destruct (session st)..|done].
Qed.

Lemma close_body_ok stop : triple begun (close_body env cfg stop) finished stopped.
Proof.
  unfold close_body. eapply triple_seq with (Q := begun).
  { apply triple_call. intros st Hst. split; [|apply begun_stopped]; by apply begun_awaited. }
  eapply triple_seq with (Q := drained).
  { apply triple_call. intros st Hst%(begun_awaited WaitJobs); [|done].
    assert (drained (awaited env WaitJobs st)) as Hd by (split; [done|]; apply elem_of_app; right; by constructor).
    split; [done|]. by apply drained_stopped. }
  eapply triple_bind; [apply triple_session|]. intros s. cbv beta. destruct (capture_failed s).
  { eapply triple_conseq; [|apply seal_capture_failed_ok|intros a st H; exact H|done]. by intros st [? _]. }
  eapply triple_seq with (Q := fun st => drained st /\ workflow (session st) = workflow s).
  { apply triple_call. intros st [Hd ->]. pose proof (drained_awaited EnsureTools st ltac:(done) Hd) as Ha.
    split; [|by apply drained_stopped]. split; [done|].
    by pose proof (awaited_frame env EnsureTools st env_respects) as [= _ _ Hwf _ _ _ _]. }
  eapply triple_bind with (Q := closed_with).
  - destruct (workflow s); [apply close_signed_ok|apply close_unsigned_ok].
  - intros o. eapply triple_conseq; [done|apply close_tail_ok| |done]. by intros a st [-> Hf].
Qed.
End Close.

(** * Giving the claim back *)

Lemma reset_fields s :
  (workflow (reset_close s), id (reset_close s), receipt (reset_close s), atif_path (reset_close s),
   promoted (reset_close s), chain (reset_close s)) =
  (workflow s, id s, receipt s, atif_path s, promoted s, chain s) /\
  closed (reset_close s) = 0 /\ (artifact_committed_flag s = true -> artifact_committed_flag (reset_close s) = true).
Proof.
  unfold reset_close, transition. case_bool_decide as Hd.
  - apply list_elem_of_singleton in Hd. split_and!; [by destruct s..|].
    unfold artifact_committed_flag. replace (lifecycle_state s) with SessionState.Draining by (by destruct s). done.
  - by destruct s.
Qed.

Lemma secured_reset {UT : UnicodeTables} {RY : Ryu} {SHA : Sha256} {E : Ed25519} {B64 : Base64} cfg s h :
  secured cfg s h -> secured cfg (reset_close s) h.
Proof.
  pose proof (reset_fields s) as ([= Hw _ Hr Ha _ Hc] & _ & Hcm). intros [H1 H2]. split; [auto|].
  unfold chain_subject in *. rewrite Hw, Hr, Ha, Hc. done.
Qed.

Lemma reset_lifecycle s : lifecycle (reset_close s) = if lifecycle s =? 1 then 0 else lifecycle s.
Proof.
  unfold reset_close, transition, lifecycle_state.
  replace (lifecycle (s<|closed := 0|>)) with (lifecycle s) by (by destruct s).
  unfold SessionState.decode. destruct (lifecycle s =? 1) eqn:E1.
  - rewrite bool_decide_eq_true_2 by (by constructor). by destruct s.
  - rewrite bool_decide_eq_false_2; [by destruct s|]. intros H%list_elem_of_singleton.
    repeat case_match; done.
Qed.

Lemma reset_state s : lifecycle s ∈ [1; 2; 3] -> lifecycle (reset_close s) ∈ [0; 2; 3] /\
  (artifact_committed_flag s = true \/ lifecycle_state (reset_close s) = SessionState.Open).
Proof.
  rewrite committed_lifecycle. unfold lifecycle_state. rewrite reset_lifecycle, !elem_of_cons, !elem_of_nil.
  intros [->|[->|[->|[]]]]; cbn; auto 6.
Qed.

Lemma claim_begun s s' h : coherent s -> RemoveStepJournal ∉ h -> try_close s = (s', true) ->
  begun (mkSt s' false h) /\ closed s = 0.
Proof.
  intros (Hl & Hc & Hd) Hn. unfold try_close, compare_exchange. destruct (closed s =? 0) eqn:E0; [|done].
  intros Hs. apply (f_equal fst) in Hs. cbn [fst] in Hs. subst s'. b2p.
  split; [|done]. split; [|done]. split; cbn [session committed]; [| |done].
  - rewrite transition_closed. by destruct s.
  - unfold transition, lifecycle_state.
    replace (lifecycle (s<|closed := 1|>)) with (lifecycle s) by (by destruct s).
    rewrite !elem_of_cons, elem_of_nil in Hl. destruct Hl as [Hl|[Hl|[Hl|[Hl|[]]]]].
    + rewrite Hl. rewrite bool_decide_eq_true_2 by (by constructor). destruct s. by constructor.
    + specialize (Hd Hl). lia.
    + rewrite Hl, bool_decide_eq_false_2 by (by intros [=]%list_elem_of_singleton). destruct s; cbn in *. subst. set_solver.
    + rewrite Hl, bool_decide_eq_false_2 by (by intros [=]%list_elem_of_singleton). destruct s; cbn in *. subst. set_solver.
Qed.

Section Dropping.
Context {UT : UnicodeTables} {RY : Ryu} {SHA : Sha256} {E : Ed25519} {B64 : Base64} (cfg : Config).

(** A stopped close leaves a sealed session, or an open one nobody holds. *)
Lemma drop_claim_ok st : stopped cfg st ->
  coherent (session (drop_close_claim st)) /\
  (RemoveStepJournal ∈ log (drop_close_claim st) ->
     secured cfg (session (drop_close_claim st)) (log (drop_close_claim st)) /\
     EmitClose (workflow (session (drop_close_claim st))) ∈ log (drop_close_claim st)) /\
  (artifact_committed_flag (session (drop_close_claim st)) = true \/
   (closed (session (drop_close_claim st)) = 0 /\
    lifecycle_state (session (drop_close_claim st)) = SessionState.Open)).
Proof.
  intros [[H1 H2 H3] H4]. unfold drop_close_claim. destruct (committed st) eqn:Ecm.
  - split_and!; [|done|left; auto]. unfold coherent. rewrite H1. set_solver.
  - cbn [session log]. pose proof (reset_fields (session st)) as ([= Hw _ _ _ _ _] & Hc0 & Hcm).
    destruct (reset_state (session st) H2) as [Hl Ho]. split_and!.
    + unfold coherent. rewrite Hc0. split_and!; [set_solver|set_solver|]. intros E1. rewrite E1 in Hl. set_solver.
    + intros Hj%H4. destruct Hj as [Hse He]. rewrite Hw. split; [by apply secured_reset|done].
    + destruct Ho; auto.
Qed.

(** Dropping the claim takes nothing from a finished close. *)
Lemma drop_finished_ok o st : finished cfg o st ->
  close_complete_flag (session (drop_close_claim st)) = true /\ reported o (session (drop_close_claim st)) /\
  secured cfg (session (drop_close_claim st)) (log (drop_close_claim st)) /\
  EmitClose (workflow (session (drop_close_claim st))) ∈ log (drop_close_claim st).
Proof.
  intros [[(_ & _ & Hsec & Hem) Hrep] Hcp]. unfold drop_close_claim. destruct (committed st); [done|].
  cbn [session log]. pose proof (reset_fields (session st)) as ([= Hw _ Hrc Hat _ _] & _ & _).
  split_and!; [|destruct o; cbn in *; congruence|by apply secured_reset|by rewrite Hw].
  rewrite complete_lifecycle in *. by rewrite reset_lifecycle, Hcp.
Qed.
End Dropping.

(** A close that returns reports what the session holds. *)
Lemma close_reports {UT : UnicodeTables} {RY : Ryu} {SHA : Sha256} {E : Ed25519} {B64 : Base64}
    {EL : Ed25519Laws E} (env : Env) (cfg : Config) (es : Ed25519Signer) s0 stop st o :
  respects env -> honest es -> signer cfg = as_signer es -> coherent s0 -> o <> AlreadyClosed ->
  close_session_locked env cfg stop (mkSt s0 false []) = (st, Return o) -> reported o (session st).
Proof.
  intros Hr Hh Hc Hs Ho. unfold close_session_locked. cbn [session log].
  destruct (try_close s0) as [s []] eqn:Et; [|by intros [= _ ?]].
  apply claim_begun with (h := []) in Et as [Hb _]; [|done|by intros ?%not_elem_of_nil].
  pose proof (close_body_ok env cfg es Hr Hh Hc stop _ Hb) as Hbody.
  destruct (close_body env cfg stop _) as [st' o']. intros [= <- ->]. by apply (drop_finished_ok cfg).
Qed.


(** * Bounded sets *)

(** The order lists the set, without repetition and within the cap. *)
Record bounded_wf (q : BoundedSet.t) : Prop := {
  bw_nodup : NoDup (BoundedSet.order q);
  bw_set : BoundedSet.set q = list_to_set (BoundedSet.order q);
  bw_cap : (length (BoundedSet.order q) <= BoundedSet.cap q)%nat;
  bw_pos : (1 <= BoundedSet.cap q)%nat;
}.

Lemma bounded_new_wf n : bounded_wf (BoundedSet.new n).
Proof. split; cbn; [apply NoDup_nil_2|done|lia|lia]. Qed.

(** Inserting remembers the name, forgets at most the oldest one, and stays bounded. *)
Lemma bounded_insert_ok x q : bounded_wf q ->
  bounded_wf (BoundedSet.insert x q).1 /\ BoundedSet.contains x (BoundedSet.insert x q).1 = true /\
  (BoundedSet.insert x q).2 = negb (BoundedSet.contains x q) /\
  (forall y, BoundedSet.contains y q = true ->
     BoundedSet.contains y (BoundedSet.insert x q).1 = true \/ List.hd_error (BoundedSet.order q) = Some y).
Proof.
  intros [Hn Hs Hc Hp]. unfold BoundedSet.insert, BoundedSet.contains. case_bool_decide as Hx.
  - cbn. split_and!; [done|by apply bool_decide_eq_true_2|done|auto].
  - rewrite Hs, elem_of_list_to_set in Hx. destruct (_ <=? _)%nat eqn:El.
    + apply Nat.leb_le in El. destruct (BoundedSet.order q) as [|z rest] eqn:Eo; [cbn in *; lia|].
      apply NoDup_cons in Hn as [Hz Hn]. cbn [fst snd BoundedSet.set]. split_and!.
      * split; cbn [BoundedSet.order BoundedSet.set BoundedSet.cap]; [| |rewrite length_app; cbn in *; lia|done].
        -- apply NoDup_app. split_and!; [done| |apply NoDup_singleton]. set_solver.
        -- rewrite Hs, list_to_set_app_L. set_solver.
      * apply bool_decide_eq_true_2. set_solver.
      * done.
      * intros y Hy%bool_decide_eq_true. rewrite Hs in Hy. destruct (decide (y = z)) as [->|Hne]; [by right|].
        left. apply bool_decide_eq_true_2. set_solver.
    + apply Nat.leb_gt in El. cbn [fst snd BoundedSet.set]. split_and!.
      * split; cbn [BoundedSet.order BoundedSet.set BoundedSet.cap]; [| |rewrite length_app; cbn; lia|done].
        -- apply NoDup_app. split_and!; [done| |apply NoDup_singleton]. set_solver.
        -- rewrite Hs, list_to_set_app_L. set_solver.
      * apply bool_decide_eq_true_2. set_solver.
      * done.
      * intros y Hy%bool_decide_eq_true. left. apply bool_decide_eq_true_2. set_solver.
Qed.

(** * Samples *)

Module FinalizerSample.

Definition calm : Session := SessionSample.opened.

(** Nothing fails and nobody interferes; [bytes] is the artifact on disk. *)
Definition trajectory : Atif.Trajectory :=
  Atif.finish (Atif.mkTrajectoryBuilder None None (agent_block SessionSample.agent)
    [Atif.mkStep 1 None Atif.User (JString (lit "hi")) None None None None None None None None None] 0 0 0
    (S754_zero false)).

Definition env_of (f : list Effect -> Fate) : Env :=
  {| fate := f;
     others _ s := s;
     clock _ := 1750000000123;
     uid _ := lit "r-9";
     rebuilt _ := Some trajectory;
     exists_at _ p := bool_decide (p = lit "spool/a.atif-auth");
     artifact _ := as_bytes (lit "artifact");
     parsed _ := Ok trajectory;
     strict_issues _ := Ok [];
     marker _ := mkMarker [] [] |}.

(** The bridge refuses the close event. *)
Definition bridge_down (h : list Effect) : Fate :=
  match last h with Some (EmitClose _) => Fails (BridgeFailed (lit "broker down")) | _ => Fine end.

Lemma env_of_respects f : respects (env_of f).
Proof. split; [done|]. by intros h s _. Qed.

Definition config : @Config :=
  mkFinalizer (@as_signer ReceiptSample.toy_ed ReceiptSample.signer) (lit "spool") true false.

Definition run (f : list Effect -> Fate) : St * Outcome FinalizeOutcome :=
  @close_session_locked ascii_tables toy_ryu toy_sha256 ReceiptSample.toy_ed ReceiptSample.toy_b64
    (env_of f) config StopReason.SessionClosed (mkSt calm false []).

(** The effects of a close nothing disturbs. *)
Example calm_close_effects :
  match run (fun _ => Fine) with
  | (st, Return (ReceiptOutcome r)) =>
      close_complete_flag (session st) = true /\
      log st = [WaitStreams; WaitJobs; EnsureTools; PersistReceipt r; EmitReceipt r; EmitClose Workflow.Signed;
                RemoveStepJournal; RemoveTools; RemoveOutbox Journal.RECEIPT_OUTBOX_KIND;
                RemoveOutbox Journal.SESSION_CLOSE_OUTBOX_KIND; ClearBudget]
  | _ => False
  end.
Proof. vm_compute. split; reflexivity. Qed.

Lemma calm_coherent : coherent calm.
Proof. split; [vm_compute; by constructor|]. split; [vm_compute; by constructor|done]. Qed.

(** The session the refused close leaves, and what it returned. *)
Definition refused : St := (run bridge_down).1.

Lemma refused_run : run bridge_down = (refused, Failed (BridgeFailed (lit "broker down"))).
Proof. apply snd_eq_pair. vm_compute. reflexivity. Qed.
End FinalizerSample.

