(* ===== verification/PromotionProofs.v ===== *)
(** Promotion: the claim is never left behind, a session has one receipt, and what a
    close persists is what recovery restores. *)

From S2P Require Import Prelude.
From S2P Require Import Rust.
From S2P Require Import CoreBase.
From S2P Require Import Json.
From S2P Require Import Float.
From S2P Require Import LoopDetect.
From S2P Require Import Jcs.
From S2P Require Import JcsProofs.
From S2P Require Import Serde.
From S2P Require Import Events.
From S2P Require Import Receipts.
From S2P Require Import ReceiptsProofs.
From S2P Require Import Journal.
From S2P Require Import Atif.
From S2P Require Import Session.
From S2P Require Import SessionProofs.
From S2P Require Import Finalizer.
From S2P Require Import FinalizerProofs.

Import Finalizer.

(** * Invariants of the session and the history *)

Definition keeps {A} (K : Session -> list Effect -> Prop) (m : M A) : Prop :=
  triple (fun st => K (session st) (log st)) m (fun _ st => K (session st) (log st))
    (fun st => K (session st) (log st)).

Section Keeps.
Context (K : Session -> list Effect -> Prop).

Lemma keeps_bind {A B} (m : M A) (k : A -> M B) : keeps K m -> (forall a, keeps K (k a)) -> keeps K (bind m k).
Proof. intros Hm Hk. eapply triple_bind; [exact Hm|exact Hk]. Qed.

(** The continuation of a read may use that it read the session. *)
Lemma keeps_session {B} (k : Session -> M B) :
  (forall s, triple (fun st => K (session st) (log st) /\ s = session st) (k s)
     (fun _ st => K (session st) (log st)) (fun st => K (session st) (log st))) ->
  keeps K (bind the_session k).
Proof. intros Hk. eapply triple_bind; [apply triple_session|exact Hk]. Qed.

Lemma keeps_weaken {A} (P : St -> Prop) (m : M A) : keeps K m ->
  triple (fun st => K (session st) (log st) /\ P st) m (fun _ st => K (session st) (log st))
    (fun st => K (session st) (log st)).
Proof. intros Hm. eapply triple_conseq; [|exact Hm|done|done]. by intros st [? _]. Qed.

Lemma keeps_ret {A} (a : A) : keeps K (ret a).
Proof. by intros st. Qed.

Lemma keeps_throw {A} e : keeps K (@throw A e).
Proof. by intros st. Qed.

Lemma keeps_of_result {A Er} (f : Er -> FinalizeError) (r : result A Er) : keeps K (of_result f r).
Proof. intros st Hst. by destruct r. Qed.

Lemma keeps_history {A} (f : list Effect -> A) : keeps K (history f).
Proof. by intros st. Qed.

Lemma keeps_commit : keeps K commit.
Proof. by intros st. Qed.

Lemma keeps_when b m : keeps K m -> keeps K (when b m).
Proof. intros Hm. destruct b; [done|apply keeps_ret]. Qed.

Lemma keeps_modify f : (forall s h, K s h -> K (f s) h) -> keeps K (modify f).
Proof. intros Hf st. apply Hf. Qed.
End Keeps.

#[export] Hint Resolve keeps_ret keeps_throw keeps_of_result keeps_history keeps_commit keeps_when : av.

(** An invariant that the other threads respect and that only looks at the receipt and
    the promotion flag. *)
Section Stable.
Context {UT : UnicodeTables} {RY : Ryu} {SHA : Sha256} {E : Ed25519} {B64 : Base64}.
Context (env : Env) (cfg : Config) (K : Session -> list Effect -> Prop).
Hypothesis K_effect : forall e s h, (forall r, e <> PersistReceipt r) -> K s h -> K (others env (h ++ [e]) s) (h ++ [e]).
Hypothesis K_note : forall e s h, (forall r, e <> PersistReceipt r) -> K s h -> K s (h ++ [e]).
Hypothesis K_fields : forall s s' h,
  (receipt s', promoted s') = (receipt s, promoted s) -> K s h -> K s' h.
Hypothesis K_issue : forall subject stop,
  triple (fun st => K (session st) (log st) /\ receipt (session st) = None)
    (issue_and_persist env cfg subject stop) (fun _ st => K (session st) (log st))
    (fun st => K (session st) (log st)).

Lemma keeps_call e : (forall r, e <> PersistReceipt r) -> keeps K (call env e).
Proof. intros He. apply triple_call. intros st Hst. split; by apply K_effect. Qed.

Lemma keeps_attempt e : (forall r, e <> PersistReceipt r) -> keeps K (attempt env e).
Proof. intros He. apply triple_attempt. intros st Hst. split; by apply K_effect. Qed.

Lemma keeps_note e : (forall r, e <> PersistReceipt r) -> keeps K (note e).
Proof. intros He. apply triple_note. intros st. by apply K_note. Qed.

Lemma keeps_fields f : (forall s, (receipt (f s), promoted (f s)) = (receipt s, promoted s)) -> keeps K (modify f).
Proof. intros Hf. apply keeps_modify. intros s h. by apply K_fields. Qed.

Lemma transition_receipt from to s :
  (receipt (transition from to s), promoted (transition from to s)) = (receipt s, promoted s).
Proof. unfold transition. case_bool_decide; by destruct s. Qed.

Lemma keeps_seal : keeps K (modify mark_artifact_committed).
Proof. apply keeps_fields. intros s. apply transition_receipt. Qed.

Lemma keeps_complete : keeps K (modify mark_close_complete).
Proof. apply keeps_fields. intros s. apply transition_receipt. Qed.

(** Peels a method down to its calls. *)
Ltac keep :=
  repeat first
    [ apply keeps_seal | apply keeps_complete
    | apply keeps_call; done | apply keeps_attempt; done | apply keeps_note; done
    | apply keeps_ret | apply keeps_throw | apply keeps_of_result | apply keeps_history | apply keeps_commit
    | apply keeps_when
    | apply keeps_fields; by intros []
    | apply keeps_session; intros ?; apply keeps_weaken
    | apply keeps_bind; [|intros ?] ].

Lemma write_artifact_keeps : keeps K (write_artifact env cfg).
Proof.
  unfold write_artifact, seal_empty, clear_budget_state. keep.
  cbv zeta. destruct (Nat.eqb _ 0); keep.
Qed.

Lemma close_unsigned_keeps : keeps K (close_unsigned env cfg).
Proof.
  unfold close_unsigned. keep. destruct (atif_path _); [keep|apply write_artifact_keeps].
Qed.

Lemma seal_unverifiable_keeps e : keeps K (seal_unverifiable env cfg e).
Proof. unfold seal_unverifiable, clear_budget_state. keep. Qed.

Lemma close_signed_keeps stop : keeps K (close_signed env cfg stop).
Proof.
  unfold close_signed. apply keeps_session. intros s. cbv zeta.
  eapply triple_bind with (Q := fun _ st => K (session st) (log st)); [|intros r; keep].
  destruct (receipt s) as [r|] eqn:Er.
  - destruct (check_persisted _ _ _); apply keeps_weaken; [keep|apply seal_unverifiable_keeps].
  - eapply triple_conseq; [|apply K_issue|done|done]. intros st [? ->]. done.
Qed.

Lemma close_body_keeps stop : keeps K (close_body env cfg stop).
Proof.
  unfold close_body, seal_capture_failed, clear_budget_state. keep.
  destruct (capture_failed _); keep.
  destruct (workflow _); [apply close_signed_keeps|apply close_unsigned_keeps].
Qed.

Lemma close_session_locked_keeps stop : keeps K (close_session_locked env cfg stop).
Proof.
  intros st Hst. unfold close_session_locked. destruct (try_close (session st)) as [s []] eqn:Et; [|done].
  assert (K s (log st)) as Hs.
  { eapply K_fields; [|exact Hst]. unfold try_close in Et. destruct (compare_exchange _ _ _); [|done].
    apply (f_equal fst) in Et. cbn [fst] in Et. subst s. rewrite transition_receipt. by destruct (session st). }
  pose proof (close_body_keeps stop (mkSt s false (log st)) Hs) as Hb.
  destruct (close_body env cfg stop _) as [st' o].
  assert (K (session st') (log st')) as Hk by (by destruct o).
  enough (K (session (drop_close_claim st')) (log (drop_close_claim st'))) by (by destruct o).
  unfold drop_close_claim. destruct (committed st'); [done|]. cbn. eapply K_fields; [|exact Hk].
  unfold reset_close. rewrite transition_receipt. by destruct (session st').
Qed.
End Stable.

(** * One receipt *)

(** The session holds [r0] and no other receipt has been written. *)
Definition holds_receipt (r0 : Receipt) (s : Session) (h : list Effect) : Prop :=
  receipt s = Some r0 /\ forall r, PersistReceipt r ∉ h.

Section OneReceipt.
Context {UT : UnicodeTables} {RY : Ryu} {SHA : Sha256} {E : Ed25519} {B64 : Base64}.
Context (env : Env) (cfg : Config) (r0 : Receipt).
Hypothesis env_respects : respects env.

Lemma holds_note e s h : (forall r, e <> PersistReceipt r) -> holds_receipt r0 s h -> holds_receipt r0 s (h ++ [e]).
Proof.
  intros He [Hr Hn]. split; [done|]. intros r [?|H%list_elem_of_singleton]%elem_of_app; [by eapply Hn|by eapply He].
Qed.

Lemma holds_effect e s h : (forall r, e <> PersistReceipt r) -> holds_receipt r0 s h ->
  holds_receipt r0 (others env (h ++ [e]) s) (h ++ [e]).
Proof.
  intros He Hk. destruct (holds_note e s h He Hk) as [Hr Hn]. split; [|done].
  by pose proof (rs_frame env env_respects (h ++ [e]) s) as [= _ _ _ _ -> _ _].
Qed.

Lemma holds_fields s s' h : receipt s' = receipt s -> holds_receipt r0 s h -> holds_receipt r0 s' h.
Proof. intros Hr [H1 H2]. split; [congruence|done]. Qed.

Lemma holds_issue subject stop :
  triple (fun st => holds_receipt r0 (session st) (log st) /\ receipt (session st) = None)
    (issue_and_persist env cfg subject stop) (fun _ st => holds_receipt r0 (session st) (log st))
    (fun st => holds_receipt r0 (session st) (log st)).
Proof. intros st [[H _] H']. congruence. Qed.

Ltac keep := repeat first
    [ apply keeps_call; [apply holds_effect|done] | apply keeps_attempt; [apply holds_effect|done]
    | apply keeps_ret | apply keeps_throw | apply keeps_of_result | apply keeps_history | apply keeps_commit
    | apply keeps_when
    | apply keeps_modify; intros ? ?; apply holds_fields; by destruct (_ : Session)
    | apply keeps_session; intros ?; apply keeps_weaken
    | apply keeps_bind; [|intros ?] ].

Lemma close_holds stop : keeps (holds_receipt r0) (close_session_locked env cfg stop).
Proof.
  apply close_session_locked_keeps; [apply holds_effect|apply holds_note| |apply holds_issue].
  intros s s' h [= Hr _]. by apply holds_fields.
Qed.

(** Returning [r0] and keeping it. *)
Definition returns_it (m : M Receipt) : Prop :=
  triple (fun st => holds_receipt r0 (session st) (log st)) m
    (fun r st => r = r0 /\ holds_receipt r0 (session st) (log st)) (fun st => holds_receipt r0 (session st) (log st)).

Lemma returns_bind {A} (m : M A) (k : A -> M Receipt) :
  keeps (holds_receipt r0) m -> (forall a, returns_it (k a)) -> returns_it (bind m k).
Proof. intros Hm Hk. eapply triple_bind; [exact Hm|exact Hk]. Qed.

Lemma returns_session (k : Session -> M Receipt) :
  (forall s, receipt s = Some r0 -> returns_it (k s)) -> returns_it (bind the_session k).
Proof. intros Hk st Hst. unfold bind. cbn. apply Hk; [apply Hst|done]. Qed.

Lemma returns_ret : returns_it (ret r0).
Proof. by intros st. Qed.

Lemma returns_throw e : returns_it (throw e).
Proof. by intros st. Qed.

Lemma promote_claimed_returns subject path : returns_it (promote_claimed env cfg subject (Some r0) path).
Proof.
  unfold promote_claimed. eapply triple_bind with (Q := fun r st => r = r0 /\ holds_receipt r0 (session st) (log st)).
  - apply returns_bind; [apply keeps_of_result|]. intros _. case_bool_decide; [apply returns_ret|apply returns_throw].
  - intros r st [-> Hst]. revert st Hst. fold (returns_it (call env (EmitReceipt r0) ;; commit ;; modify finish_promotion ;;
      call env (RemoveMarker path) ;; call env (RemoveOutbox Journal.RECEIPT_OUTBOX_KIND) ;; ret r0)).
    do 5 (apply returns_bind; [keep|intros _]). apply returns_ret.
Qed.

Lemma with_claim_returns (m : M Receipt) : returns_it m -> returns_it (with_promotion_claim m).
Proof.
  intros Hm st Hst. unfold with_promotion_claim, try_promote.
  destruct (compare_exchange _ _ _) as [p|]; [|done].
  set (s := (session st)<|promoted := p|>).
  assert (holds_receipt r0 s (log st)) as Hs by (eapply holds_fields; [|exact Hst]; subst s; by destruct (session st)).
  specialize (Hm (mkSt s false (log st)) Hs). destruct (m _) as [st' o].
  assert (forall x, holds_receipt r0 (session x) (log x) ->
    holds_receipt r0 (session (drop_promotion_claim x)) (log (drop_promotion_claim x))) as Hd.
  { intros x Hx. unfold drop_promotion_claim. destruct (committed x); [done|]. cbn. eapply holds_fields; [|exact Hx].
    unfold reset_promotion. destruct (compare_exchange _ _ _); by destruct (session x). }
  destruct o as [r|e|]; [|by apply Hd..]. destruct Hm as [-> Hm]. by split; [|apply Hd].
Qed.

Lemma returns_pure {A} (a : A) (k : A -> M Receipt) : returns_it (k a) -> returns_it (bind (ret a) k).
Proof. intros H st Hst. exact (H st Hst). Qed.

Lemma replay_returns : returns_it (replay_promoted env).
Proof.
  unfold replay_promoted. apply returns_session. intros s ->. apply returns_pure.
  apply returns_bind; [keep|]. intros there. destruct (atif_path s); [|apply returns_ret].
  apply returns_bind; [keep|]. intros _. apply returns_ret.
Qed.

Lemma ensure_marker_holds path m : keeps (holds_receipt r0) (ensure_marker env path m).
Proof. unfold ensure_marker. keep. destruct (_ path); keep. destruct (_ && _); keep. Qed.

Lemma check_strict_holds bytes : keeps (holds_receipt r0) (check_strict env bytes).
Proof. unfold check_strict. destruct (strict_issues env bytes) as [[|]|]; keep. Qed.

Lemma promote_artifact_returns : returns_it (promote_artifact env cfg).
Proof.
  unfold promote_artifact. apply returns_bind; [keep|intros _]. apply returns_session. intros s Hs.
  apply returns_bind; [keep|intros path]. apply returns_bind; [keep|intros there].
  destruct (negb _); [apply returns_throw|]. do 2 (apply returns_bind; [keep|intros _]).
  apply returns_bind; [keep|intros bytes]. apply returns_bind; [keep|intros t].
  apply returns_bind; [apply check_strict_holds|intros _]. apply returns_bind; [apply ensure_marker_holds|intros _].
  rewrite Hs. apply with_claim_returns, promote_claimed_returns.
Qed.

Lemma promote_returns : returns_it (promote env cfg).
Proof.
  unfold promote. apply returns_session. intros s Hs. destruct (negb _); [rewrite Hs; apply returns_ret|].
  apply returns_bind.
  { destruct (is_closed s); [keep|]. apply keeps_bind; [apply close_holds|intros _; keep]. }
  intros _. apply returns_session. intros s' Hs'. destruct (is_promoted s'); [apply replay_returns|].
  destruct (capture_failed s'); [apply returns_throw|apply promote_artifact_returns].
Qed.
End OneReceipt.

(** * The promotion claim *)

Definition unclaimed (s : Session) (h : list Effect) : Prop := promoted s ∈ [0; 2].

Section Promotion.
Context {UT : UnicodeTables} {RY : Ryu} {SHA : Sha256} {E : Ed25519} {B64 : Base64} {EL : Ed25519Laws E}.
Context (env : Env) (cfg : Config) (es : Ed25519Signer).
Hypothesis env_respects : respects env.
Hypothesis signer_honest : honest es.
Hypothesis signer_cfg : signer cfg = as_signer es.

(** The flag stands at [p] and the session holds the receipt [ro]. *)
Definition at_stage (p : Z) (ro : option Receipt) (st : St) : Prop :=
  promoted (session st) = p /\ receipt (session st) = ro.

Lemma at_stage_awaited p ro e st : at_stage p ro st -> at_stage p ro (awaited env e st).
Proof.
  intros [Hp Hr]. pose proof (awaited_frame env e st env_respects) as [= _ _ _ _ Hr' _ Hp']. by split; [rewrite <- Hp|rewrite <- Hr].
Qed.

(** Closing does not touch the flag. *)
Definition flag_at (p : Z) (s : Session) (h : list Effect) : Prop := promoted s = p.

Lemma close_flag p stop : keeps (flag_at p) (close_session_locked env cfg stop).
Proof.
  apply close_session_locked_keeps.
  - unfold flag_at. intros e s h _ Hs. by pose proof (rs_frame env env_respects (h ++ [e]) s) as [= _ _ _ _ _ _ ->].
  - done.
  - unfold flag_at. by intros s s' h [= _ ->].
  - intros subject stop'. apply (keeps_weaken (flag_at p)). unfold issue_and_persist.
    apply keeps_session. intros s. apply keeps_weaken. do 2 (apply keeps_bind; [apply keeps_history|intros ?]).
    apply keeps_bind; [apply keeps_of_result|intros r]. apply keeps_bind.
    { apply triple_call. intros st Hst. pose proof (awaited_frame env (PersistReceipt r) st env_respects) as [= _ _ _ _ _ _ Hp].
      unfold awaited, flag_at in *. cbn [session]. by rewrite Hp. }
    intros _. apply keeps_bind; [|intros _; apply keeps_ret]. apply keeps_modify. by intros [].
Qed.

(** What a promotion delivers. *)
Definition delivered (r : Receipt) (h : list Effect) : Prop :=
  verify_configured_receipt cfg r = Ok tt /\ EmitReceipt r ∈ h /\
  exists bytes t, parsed env bytes = Ok t /\ strict_issues env bytes = Ok [] /\
    rb_subject (rc_body r) = promotion_subject (sha256_hex bytes) t.

(** Inside the claim: not yet committed, or committed and finished. *)
Definition claimed_state (st : St) : Prop :=
  (committed st = false /\ promoted (session st) = 1) \/ (committed st = true /\ promoted (session st) = 2).

Lemma claimed_awaited e st : claimed_state st -> claimed_state (awaited env e st).
Proof.
  pose proof (awaited_frame env e st env_respects) as [= _ _ _ _ _ _ Hp]. unfold claimed_state, awaited.
  cbn [session committed]. by rewrite Hp.
Qed.

(** The receipt to promote with: the persisted one when it fits, or a fresh one. *)
Lemma promotion_receipt_ok subject persisted :
  triple (fun st => committed st = false /\ at_stage 1 persisted st)
    (match persisted with
     | Some r =>
         of_result (fun e => e) (verify_configured_receipt cfg r) ;;
         (if bool_decide (rb_subject (rc_body r) = subject) then ret r
          else throw (ReceiptFailed (lit "persisted promotion receipt does not match ATIF artifact")))
     | None => issue_and_persist env cfg subject StopReason.SessionClosed
     end)
    (fun r st => committed st = false /\ at_stage 1 (Some r) st /\ verify_configured_receipt cfg r = Ok tt /\
       rb_subject (rc_body r) = subject) claimed_state.
Proof.
  destruct persisted as [r|].
  - intros st [Hc Ha]. unfold bind. destruct (verify_configured_receipt cfg r) as [[]|] eqn:Ev; cbn; [|left; by split; [|apply Ha]].
    case_bool_decide; cbn; [done|]. left. by split; [|apply Ha].
  - unfold issue_and_persist. eapply triple_bind; [apply triple_session|]. intros s.
    eapply triple_bind; [apply triple_history|]. intros now. eapply triple_bind; [apply triple_history|]. intros fresh.
    eapply triple_bind with (Q := fun r st => committed st = false /\ promoted (session st) = 1 /\
      verify_configured_receipt cfg r = Ok tt /\ rb_subject (rc_body r) = subject).
    { apply triple_of_result.
      - intros r Hi st [[[[Hc [Hp _]] _] _] _]. by destruct (fresh_verifies cfg es signer_honest signer_cfg _ r Hi) as [Hv ->].
      - intros st [[[[Hc [Hp _]] _] _] _]. by left. }
    intros r. eapply triple_seq with (Q := fun st => committed st = false /\ promoted (session st) = 1 /\
      verify_configured_receipt cfg r = Ok tt /\ rb_subject (rc_body r) = subject).
    { apply triple_call. intros st (Hc & Hp & Hv & Hs).
      pose proof (awaited_frame env (PersistReceipt r) st env_respects) as [= _ _ _ _ _ _ Hp'].
      unfold claimed_state, awaited. cbn [session committed]. rewrite Hp', Hp. auto. }
    eapply triple_seq with (Q := fun st => committed st = false /\ at_stage 1 (Some r) st /\
      verify_configured_receipt cfg r = Ok tt /\ rb_subject (rc_body r) = subject); [|by intros st].
    apply triple_modify. intros st (Hc & Hp & Hv & Hs). unfold at_stage. cbn [session committed].
    split_and!; try done; by destruct (session st).
Qed.

Lemma promote_claimed_ok subject persisted path :
  triple (fun st => committed st = false /\ at_stage 1 persisted st)
    (promote_claimed env cfg subject persisted path)
    (fun r st => committed st = true /\ at_stage 2 (Some r) st /\ verify_configured_receipt cfg r = Ok tt /\
       rb_subject (rc_body r) = subject /\ EmitReceipt r ∈ log st) claimed_state.
Proof.
  unfold promote_claimed. eapply triple_bind; [apply promotion_receipt_ok|]. intros r.
  set (good := verify_configured_receipt cfg r = Ok tt /\ rb_subject (rc_body r) = subject).
  eapply triple_seq with (Q := fun st => committed st = false /\ at_stage 1 (Some r) st /\ good /\ EmitReceipt r ∈ log st).
  { apply triple_call. intros st (Hc & Ha & Hg). pose proof (at_stage_awaited _ _ (EmitReceipt r) st Ha) as Ha'.
    split; [|left; by split; [|apply Ha']]. split_and!; try done. apply elem_of_app. right. by constructor. }
  eapply triple_seq with (Q := fun st => committed st = true /\ at_stage 1 (Some r) st /\ good /\ EmitReceipt r ∈ log st).
  { apply triple_commit. by intros st (_ & Ha & Hg & He). }
  set (Q := fun st => committed st = true /\ at_stage 2 (Some r) st /\ good /\ EmitReceipt r ∈ log st).
  eapply triple_seq with (Q := Q).
  { apply triple_modify. intros st (Hc & [Hp Hr] & Hg & He). unfold Q, at_stage. cbn [session committed log].
    split_and!; try done; by destruct (session st). }
  assert (forall e, triple Q (call env e) (fun _ => Q) claimed_state) as Hcall.
  { intros e. apply triple_call. intros st (Hc & Ha & Hg & He). pose proof (at_stage_awaited _ _ e st Ha) as Ha'.
    split; [|right; by split; [|apply Ha']]. split_and!; try done; apply Ha' || (apply elem_of_app; by left). }
  do 2 (eapply triple_seq; [apply Hcall|]). intros st (Hc & Ha & [Hv Hs] & He). done.
Qed.

(** A promotion that returned, and one that stopped. *)
Definition promoted_with (r : Receipt) (st : St) : Prop := at_stage 2 (Some r) st /\ delivered r (log st).
Definition given_back (st : St) : Prop := unclaimed (session st) (log st).

Lemma stage0_back ro st : at_stage 0 ro st -> given_back st.
Proof. intros [Hp _]. unfold given_back, unclaimed. rewrite Hp. by constructor. Qed.

Lemma with_claim_ok subject persisted path bytes t :
  parsed env bytes = Ok t -> strict_issues env bytes = Ok [] -> subject = promotion_subject (sha256_hex bytes) t ->
  triple (at_stage 0 persisted) (with_promotion_claim (promote_claimed env cfg subject persisted path))
    promoted_with given_back.
Proof.
  intros Hparse Hstrict -> st [Hp Hr]. unfold with_promotion_claim, try_promote, compare_exchange.
  rewrite Hp, Z.eqb_refl. set (s := (session st)<|promoted := 1|>).
  assert (at_stage 1 persisted (mkSt s false (log st))) as Ha by (subst s persisted; by destruct (session st)).
  pose proof (promote_claimed_ok (promotion_subject (sha256_hex bytes) t) persisted path
    (mkSt s false (log st)) (conj eq_refl Ha)) as Hb.
  destruct (promote_claimed _ _ _ _ _ _) as [st' o].
  assert (forall x, claimed_state x -> given_back (drop_promotion_claim x)) as Hdrop.
  { intros x [[Hc Hx]|[Hc Hx]]; unfold given_back, unclaimed, drop_promotion_claim; rewrite Hc; [|rewrite Hx; set_solver].
    cbn [session]. unfold reset_promotion, compare_exchange. rewrite Hx. cbn [Z.eqb Pos.eqb].
    destruct (session x). by constructor. }
  destruct o as [r|e|]; [|by apply Hdrop..]. destruct Hb as (Hc & Ha2 & Hv & Hs & He).
  unfold drop_promotion_claim. rewrite Hc. split; [done|]. split_and!; [done|done|]. by exists bytes, t.
Qed.

Lemma promote_artifact_ok : triple (fun st => promoted (session st) = 0) (promote_artifact env cfg) promoted_with given_back.
Proof.
  assert (Hcall : forall e ro, triple (at_stage 0 ro) (call env e) (fun _ => at_stage 0 ro) given_back).
  { intros e ro. apply triple_call. intros st Ha%(at_stage_awaited _ _ e). split; [done|by eapply stage0_back]. }
  unfold promote_artifact. eapply triple_seq with (Q := fun st => promoted (session st) = 0).
  { apply triple_call. intros st Hp. destruct (at_stage_awaited 0 _ EnsureTools st (conj Hp eq_refl)) as [Hp' _].
    split; [done|]. unfold given_back, unclaimed. rewrite Hp'. by constructor. }
  eapply triple_bind; [apply triple_session|]. intros s.
  eapply triple_conseq with (P' := at_stage 0 (receipt s)); [by intros st [Hp ->]| |intros a st H; exact H|done].
  eapply triple_bind with (Q := fun _ => at_stage 0 (receipt s)).
  { apply triple_of_result; [done|apply stage0_back]. }
  intros path. eapply triple_bind with (Q := fun _ => at_stage 0 (receipt s)); [by intros st|]. intros there.
  destruct (negb _); [intros st Ha; by eapply stage0_back|]. do 2 (eapply triple_seq; [apply Hcall|]).
  eapply triple_bind with (Q := fun _ => at_stage 0 (receipt s)); [by intros st|]. intros bytes.
  eapply triple_bind with (Q := fun t st => at_stage 0 (receipt s) st /\ parsed env bytes = Ok t).
  { apply triple_of_result; [done|apply stage0_back]. }
  intros t. eapply triple_seq with (Q := fun st => at_stage 0 (receipt s) st /\ parsed env bytes = Ok t /\ strict_issues env bytes = Ok []).
  { intros st [Ha Hpa]. unfold check_strict. destruct (strict_issues env bytes) as [[|]|]; [done|by eapply stage0_back..]. }
  eapply triple_seq with (Q := fun st => at_stage 0 (receipt s) st /\ parsed env bytes = Ok t /\ strict_issues env bytes = Ok []).
  { intros st (Ha & Hx). unfold ensure_marker, bind, history. cbn -[call]. destruct (exists_at env (log st) _).
    - specialize (Hcall (ReadMarker (with_extension path (lit "promote"))) _ st Ha).
      destruct (call env _ st) as [st1 [u|e|]]; [|done..]. destruct (_ && _); cbn; [done|by eapply stage0_back].
    - pose proof (Hcall (PersistMarker (with_extension path (lit "promote")) (id s) (sha256_hex bytes)) _ st Ha) as Hm.
      cbn. by destruct (call env _ st) as [st1 [u|e|]]. }
  intros st (Ha & Hpa & Hst). by eapply with_claim_ok.
Qed.

(** Replaying a promotion gives the receipt the session holds. *)
Lemma replay_promoted_ok :
  triple (fun st => promoted (session st) = 2) (replay_promoted env)
    (fun r st => at_stage 2 (Some r) st) given_back.
Proof.
  intros st Hp. assert (given_back st) as Hg by (unfold given_back, unclaimed; rewrite Hp; set_solver).
  unfold replay_promoted, bind, history. cbn -[attempt]. destruct (receipt (session st)) as [r|] eqn:Er; cbn -[attempt]; [|done].
  destruct (atif_path (session st)) as [path|]; [|done]. unfold when. destruct (exists_at env _ _); [|done].
  unfold attempt, call. pose proof (at_stage_awaited 2 (Some r) (RemoveMarker (with_extension path (lit "promote"))) st (conj Hp Er)) as Ha.
  assert (given_back (awaited env (RemoveMarker (with_extension path (lit "promote"))) st)) as Hg'
    by (unfold given_back, unclaimed; destruct Ha as [-> _]; set_solver).
  by destruct (fate env _).
Qed.

Lemma promote_ok p : p ∈ [0; 2] ->
  triple (fun st => workflow (session st) = Workflow.Unsigned /\ promoted (session st) = p) (promote env cfg)
    (fun r st => at_stage 2 (Some r) st /\ (p = 0 -> delivered r (log st))) given_back.
Proof.
  intros Hin. assert (Hback : forall st, promoted (session st) = p -> given_back st).
  { intros st Hp. unfold given_back, unclaimed. by rewrite Hp. }
  unfold promote. eapply triple_bind; [apply triple_session|]. intros s.
  eapply triple_conseq with (P' := fun st => workflow s = Workflow.Unsigned /\ promoted (session st) = p);
    [by intros st [[Hw Hg] ->]| |intros a st H; exact H|done].
  destruct (bool_decide (workflow s = Workflow.Unsigned)) eqn:Ew; cbn [negb]; [|b2p; by intros st [? _]].
  eapply triple_seq with (Q := fun st => promoted (session st) = p).
  { destruct (is_closed s); [by intros st [_ ?]|].
    eapply triple_conseq with (P' := fun st => promoted (session st) = p)
      (Q' := fun _ st => promoted (session st) = p) (X' := fun st => promoted (session st) = p);
      [by intros st [_ ?]| |done|exact Hback].
    eapply triple_seq; [apply close_flag|]. by intros st. }
  eapply triple_bind; [apply triple_session|]. intros s'. destruct (is_promoted s') eqn:Ep.
  - unfold is_promoted in Ep. b2p. intros st [Hp ->]. pose proof (replay_promoted_ok st Ep) as Hr.
    destruct (replay_promoted env st) as [st' [r|e|]]; [|done..]. split; [done|]. congruence.
  - destruct (capture_failed s'); [intros st [? _]; by apply Hback|].
    eapply triple_conseq; [|apply promote_artifact_ok|by intros r st [? ?]|done]. intros st [Hg ->].
    unfold is_promoted in *. b2p. rewrite !elem_of_cons, elem_of_nil in Hin. naive_solver.
Qed.
End Promotion.

(** A promotion claim is never left behind.  Whatever fails and wherever the
    request is dropped, a promotion that found no promotion in progress leaves none:
    the flag is free again, or the promotion is finished.  When it returns, it
    returns the receipt the session holds; a first promotion's receipt verifies
    under the configured key, has been published, and is about the digest and the
    step count of an artifact that strict validation accepts. *)
Theorem promotion_claim_is_given_back {UT : UnicodeTables} {RY : Ryu} {SHA : Sha256} {E : Ed25519}
    {B64 : Base64} {EL : Ed25519Laws E} (env : Env) (cfg : Config) (es : Ed25519Signer) (s0 : Session)
    (st : St) (o : Outcome Receipt) :
  respects env -> honest es -> signer cfg = as_signer es ->
  workflow s0 = Workflow.Unsigned -> promoted s0 ∈ [0; 2] ->
  promote env cfg (mkSt s0 false []) = (st, o) ->
  promoted (session st) ∈ [0; 2] /\
  forall r, o = Return r ->
    promoted (session st) = 2 /\ receipt (session st) = Some r /\
    (promoted s0 = 0 ->
       verify_configured_receipt cfg r = Ok tt /\ EmitReceipt r ∈ log st /\
       exists bytes t, parsed env bytes = Ok t /\ strict_issues env bytes = Ok [] /\
         rb_subject (rc_body r) = AtifTrajectorySubject (sha256_hex bytes) (Z.of_nat (length (Atif.tj_steps t))) true).
Proof.
  intros Hr Hh Hc Hw Hp Hrun.
  pose proof (promote_ok env cfg es Hr Hh Hc (promoted s0) Hp (mkSt s0 false []) (conj Hw eq_refl)) as Hok.
  rewrite Hrun in Hok. destruct o as [r|e|]; [|by split; [exact Hok|]..].
  destruct Hok as [[H2 Hrc] Hd]. split; [rewrite H2; set_solver|]. intros r' [= <-]. by split_and!.
Qed.


(** * Recovery *)

(** The totals a receipt may carry. *)
Record totals_ok (t : Totals) : Prop := {
  to_counters : Forall (fun n => 0 <= n <= JCS_SAFE_MAX)
    [tool_calls t; tool_allowed t; tool_blocked t; prompt_tokens t; completion_tokens t; cached_tokens t; cost_usd_micros t];
  to_tools : tool_allowed t + tool_blocked t <= tool_calls t;
}.

Lemma recovered_counter_ok n field : n <= JCS_SAFE_MAX -> recovered_counter (Some n) field = Ok n.
Proof.
  intros H. unfold recovered_counter. change (default 0 (Some n)) with n. cbv zeta.
  destruct (n >? JCS_SAFE_MAX) eqn:Eg; [b2p; lia|done].
Qed.

Section Recovery.
Context {SHA : Sha256}.

Lemma artifact_extra_u64 s m :
  exists extra, Atif.fm_extra (artifact_metrics s m) = Some extra /\
  extra_u64 "tool_calls" extra = Some (tool_calls (totals s)) /\
  extra_u64 "tool_allowed" extra = Some (tool_allowed (totals s)) /\
  extra_u64 "tool_blocked" extra = Some (tool_blocked (totals s)) /\
  extra_u64 "cost_usd_micros" extra = Some (cost_usd_micros (totals s)) /\
  extra_u64 "stop_reason_id" extra = Some (last_stop_reason_id s) /\
  extra_u64 "enforcement_latched" extra = Some (tripped s).
Proof. eexists. split; [reflexivity|]. split_and!; reflexivity. Qed.

(** Reading back the metrics a close wrote. *)
Lemma recover_metrics_artifact base s m : totals_ok (totals s) ->
  last_stop_reason_id s <= 255 -> tripped s <= 255 -> tripped base = 0 ->
  exists s', recover_metrics base (artifact_metrics s m) = Ok s' /\
    totals s' = totals s /\ last_stop_reason_id s' = last_stop_reason_id s /\ tripped s' = tripped s /\
    frame s' = frame base /\ binding s' = binding base /\ seq s' = seq base /\ latest_identity s' = latest_identity base.
Proof.
  intros [Hc Ht] Hstop Htrip Hb. destruct (artifact_extra_u64 s m) as (extra & Hx & E1 & E2 & E3 & E4 & E5 & E6).
  rewrite !Forall_cons in Hc. destruct Hc as (C1 & C2 & C3 & C4 & C5 & C6 & C7 & _).
  unfold recover_metrics. rewrite Hx. cbn [artifact_metrics Atif.fm_total_prompt_tokens Atif.fm_total_completion_tokens
    Atif.fm_total_cached_tokens Atif.fm_total_cost_usd].
  rewrite !recovered_counter_ok by lia. unfold recover_extra, recovered_cost. rewrite E1, E2, E3, E4, E5, E6.
  rewrite !recovered_counter_ok by lia. unfold u64_checked_add.
  destruct (tool_allowed (totals s) + tool_blocked (totals s) <=? u64_max) eqn:Eu;
    [|b2p; change JCS_SAFE_MAX with 9007199254740992 in *; unfold u64_max in *; lia].
  destruct (tool_allowed (totals s) + tool_blocked (totals s) >? tool_calls (totals s)) eqn:Ec; [b2p; lia|].
  destruct (last_stop_reason_id s >? 255) eqn:Es; [b2p; lia|].
  destruct (tripped s >? 255) eqn:Et; [b2p; lia|].
  eexists. split; [reflexivity|].
  destruct (tripped s =? 0) eqn:Ez; b2p; destruct base; cbn in Hb |- *; split_and!;
    try reflexivity; try (by destruct (Session.totals s)); unfold constant; congruence.
Qed.

End Recovery.

(** C32. Recovery restores what a close persisted.  For a session whose totals a receipt
    may carry, a restart that reads the artifact's metrics back gives a session that is
    closed and sealed, bound to the same principal, with the same totals, stop reason
    and enforcement latch, continuing the sequence where it was; so the receipt a
    later promotion issues is the one it would have issued before the restart. *)
Theorem recovery_restores_the_close {SHA : Sha256} (s : Session) (m : Atif.FinalMetrics)
    (uid tuid : str) (now_ms now : Z) (breaker : Breaker.BreakerConfig) (path : str) (next : Z) :
  totals_ok (totals s) -> 0 <= last_stop_reason_id s <= 255 -> 0 <= tripped s <= 255 ->
  exists s',
    recover_unsigned_with_principal uid tuid now_ms now (id s) (latest_identity s) breaker path
      (Some (artifact_metrics s m)) next (principal_binding s) = Ok s' /\
    is_closed s' = true /\ try_lease s' = None /\ lifecycle_state s' = SessionState.Sealed /\
    totals s' = totals s /\ enforcement_tripped s' = enforcement_tripped s /\
    principal_binding s' = principal_binding s /\ peek_seq s' = next /\ atif_path s' = Some path /\
    (forall at_ms rid subject stop, receipt_body at_ms rid s' subject stop = receipt_body at_ms rid s subject stop).
Proof.
  intros Ht Hs Hl. set (base := (mark_artifact_committed (try_close (restore_next_seq (bind_principal
    (new uid tuid now_ms now (id s) Workflow.Unsigned (latest_identity s) breaker) (principal_binding s)).1 next)).1)
    <|atif_path := Some path|>).
  destruct (recover_metrics_artifact base s m) as (s' & Hr & H1 & H2 & H3 & Hf & H5 & H6 & H7); [done|lia|lia|done|].
  exists s'. split; [exact Hr|]. injection Hf as Hc Hli Hw Hid Hrc Hat Hp.
  change (closed base) with 1 in Hc. change (lifecycle base) with 2 in Hli.
  assert (is_closed s' = true) as Hcl by (unfold is_closed; by rewrite Hc).
  split_and!; [done|unfold try_lease; by rewrite Hcl|unfold lifecycle_state; by rewrite Hli|done| | | |done|].
  - unfold enforcement_tripped. by rewrite H3.
  - unfold principal_binding at 1. by rewrite H5.
  - by unfold peek_seq; rewrite H6.
  - intros at_ms rid subject stop. unfold receipt_body. by rewrite H1, H2, H7, Hid.
Qed.

(** * Samples *)

Module PromotionSample.

(** A recovered, unsigned, sealed session with its artifact on disk. *)
Definition artifact_session : Session :=
  let s := mark_artifact_committed (try_close (@new toy_sha256 (lit "u1") (lit "t1") 1750000000000 0 (lit "s-1")
             Workflow.Unsigned SessionSample.agent Breaker.default_config)).1 in
  s<|atif_path := Some (lit "spool/a.json")|><|totals := mkTotals 3 2 1 120 40 0 1500|><|last_stop_reason_id := 1|>
   <|tripped := 20|>.

Definition promotion (f : list Effect -> Fate) (s : Session) : St * Outcome Receipt :=
  @promote ascii_tables toy_ryu toy_sha256 ReceiptSample.toy_ed ReceiptSample.toy_b64
    (FinalizerSample.env_of f) FinalizerSample.config (mkSt s false []).

(** The request is dropped while the receipt is being published. *)
Definition client_gone (h : list Effect) : Fate :=
  match last h with Some (EmitReceipt _) => Cancelled | _ => Fine end.

Definition abandoned : St := (promotion client_gone artifact_session).1.

Lemma abandoned_run : promotion client_gone artifact_session = (abandoned, Dropped).
Proof. apply snd_eq_pair. vm_compute. reflexivity. Qed.

(** The next attempt succeeds with the receipt the first one wrote. *)
Definition first_receipt : Receipt :=
  match receipt (session abandoned) with Some r => r | None => ReceiptSample.receipt end.

Lemma abandoned_receipt : receipt (session abandoned) = Some first_receipt.
Proof. vm_compute. reflexivity. Qed.

Definition retried : St := (promotion (fun _ => Fine) (session abandoned)).1.

Lemma retried_run : promotion (fun _ => Fine) (session abandoned) = (retried, Return first_receipt).
Proof. apply snd_eq_pair. vm_compute. reflexivity. Qed.

Lemma abandoned_coherent : coherent (session abandoned).
Proof. split; [vm_compute; repeat constructor|]. split; [vm_compute; repeat constructor|]. done. Qed.

Lemma sample_totals_ok : totals_ok (totals artifact_session).
Proof. split; [repeat (apply Forall_cons; split; [split; by vm_compute|]); by apply Forall_nil|by vm_compute]. Qed.
End PromotionSample.

Lemma promotion_claim_is_given_back_witness : promoted (session PromotionSample.abandoned) ∈ [0; 2].
Proof.
  refine (proj1 (@promotion_claim_is_given_back ascii_tables toy_ryu toy_sha256 ReceiptSample.toy_ed ReceiptSample.toy_b64
    ReceiptSample.toy_ed_laws (FinalizerSample.env_of PromotionSample.client_gone) FinalizerSample.config
    ReceiptSample.signer PromotionSample.artifact_session PromotionSample.abandoned Dropped
    (FinalizerSample.env_of_respects _) eq_refl eq_refl eq_refl _ PromotionSample.abandoned_run)).
  constructor.
Defined.


Lemma recovery_restores_the_close_witness : exists s',
  @recover_unsigned_with_principal toy_sha256 (lit "u2") (lit "t2") 1750000001000 5 (lit "s-1") SessionSample.agent
    Breaker.default_config (lit "spool/a.json")
    (Some (artifact_metrics PromotionSample.artifact_session (Atif.mkFinalMetrics None None None None (Some 4) None))) 4
    None = Ok s' /\ totals s' = mkTotals 3 2 1 120 40 0 1500.
Proof.
  destruct (@recovery_restores_the_close toy_sha256 PromotionSample.artifact_session
    (Atif.mkFinalMetrics None None None None (Some 4) None) (lit "u2") (lit "t2") 1750000001000 5
    Breaker.default_config (lit "spool/a.json") 4 PromotionSample.sample_totals_ok) as (s' & Hr & _ & _ & _ & Ht & _).
  - split; vm_compute; discriminate.
  - split; vm_compute; discriminate.
  - exists s'. split; [exact Hr|exact Ht].
Defined.
