(* ===== verification/Exchange.v ===== *)
(** RFC 8693 token exchange ([av-identity/src/exchange.rs]): the scope
    intersection, the claims issued for a validated subject and an optional
    actor, the verifier of issued tokens, and their revocation check. *)

From S2P Require Import Prelude Rust CoreBase Json Core Identity Validator Serde.

(** * Data *)

Record ExchangedClaims := mkExchanged {
  xc_claims : NhiClaims;
  av_subject_tokens : list RevocationIdentity;
  av_actor_tokens : list RevocationIdentity;
  av_delegation_depth : nat;
}.

Definition TOKEN_EXCHANGE_GRANT_TYPE : str :=
  lit "urn:ietf:params:oauth:grant-type:token-exchange".
Definition JWT_TOKEN_TYPE : str := lit "urn:ietf:params:oauth:token-type:jwt".

Record TokenExchangeRequest := mkExchangeRequest {
  rq_grant_type : str;
  rq_subject_token : str;
  rq_subject_token_type : str;
  rq_audience : str;
  rq_scope : option str;
  rq_actor_token : option str;
  rq_actor_token_type : option str;
}.

Record TokenExchangeResponse := mkExchangeResponse {
  resp_access_token : str;
  resp_issued_token_type : str;
  resp_token_type : str;
  resp_expires_in : Z;
  resp_scope : option str;
}.

Inductive ExchangeError :=
| UnsupportedGrant (grant : str)
| UnsupportedTokenType (typ : str)
| SubjectInvalid (e : IdentityError)
| ScopeExceedsSubject (scope : str)
| EmptyIntersection
| SubjectExpired
| MissingSubjectChain
| InvalidScopes
| SigningFailed (msg : str)
| DelegationExceeded (depth max : nat)
| TargetNotAllowed (target : str)
| ActorNotDirect.

Record ExchangeActor := mkExchangeActor {
  xa_claims : NhiClaims;
  xa_chain : list RevocationIdentity;
}.

Record ExchangeParams := mkExchangeParams {
  ep_subject : NhiClaims;
  ep_subject_chain : list RevocationIdentity;
  ep_subject_delegation_depth : nat;
  ep_target_audience : str;
  ep_requested_scopes : option str;
  ep_azp : str;
  ep_now_s : Z;
  ep_ttl_s : Z;
  ep_issuer : str;
  ep_max_depth : nat;
  ep_allowed_audiences : list str;
}.

#[global] Instance RevocationIdentity_eq_dec : EqDecision RevocationIdentity.
Proof. solve_decision. Defined.

(** * Messages *)

Section Display.
Context {UT : UnicodeTables}.

Definition expiry_hint (past_s : Z) : str :=
  if past_s >? MAX_TTL_SECS
  then lit " " ++ [0x2014] ++ lit " longer than the maximum token TTL; this host's clock is likely ahead (check NTP)"
  else [].

Definition identity_error_to_string (e : IdentityError) : str :=
  match e with
  | Malformed m => lit "malformed token: " ++ m
  | MissingKid => lit "token header has no kid"
  | UnknownKid kid => lit "unknown kid " ++ fmt_debug kid
  | AlgorithmRejected alg kid =>
      lit "algorithm " ++ fmt_debug alg ++ lit " not permitted for kid " ++ fmt_debug kid
  | Verification m => lit "verification failed: " ++ m
  | TtlTooLong ttl => lit "ttl " ++ fmt_int ttl ++ lit "s exceeds the 900s NHI cap"
  | BadTimestamps iat exp =>
      lit "inconsistent timestamps (iat " ++ fmt_int iat ++ lit ", exp " ++ fmt_int exp ++ lit ")"
  | FutureIat iat now =>
      lit "issued-at timestamp " ++ fmt_int iat ++ lit " is in the future (now " ++ fmt_int now ++ lit ")"
  | Expired exp now =>
      lit "token expired: exp " ++ fmt_int exp ++ lit ", validator now " ++ fmt_int now ++ lit " ("
      ++ fmt_int (sat_sub now exp) ++ lit "s past expiry" ++ expiry_hint (sat_sub now exp) ++ lit ")"
  | EmptyField f => lit "empty identity field " ++ f
  | FieldTooLong f max =>
      lit "identity field " ++ f ++ lit " exceeds " ++ fmt_int (Z.of_nat max) ++ lit " characters"
  | SpoofingCharacter f => lit "identity field " ++ f ++ lit " carries a bidi/zero-width spoofing character"
  | BadIssuer i => lit "issuer " ++ fmt_debug i ++ lit " not allowed"
  | Jwks m => lit "invalid JWKS: " ++ m
  | ScopeEscalation s => lit "scope escalation: " ++ fmt_debug s ++ lit " not granted by parent"
  | ExpEscalation c p => lit "child exp " ++ fmt_int c ++ lit " outlives parent exp " ++ fmt_int p
  | IatEscalation c p => lit "child iat " ++ fmt_int c ++ lit " predates parent iat " ++ fmt_int p
  | NbfEscalation c p =>
      lit "child effective-start " ++ fmt_int c ++ lit " predates parent effective-start " ++ fmt_int p
  | ChainTooDeep n => lit "delegation chain deeper than " ++ fmt_int (Z.of_nat n)
  | TokenRevokedError j => lit "token " ++ fmt_debug j ++ lit " has been revoked"
  | InstanceRevoked u cutoff => lit "instance " ++ fmt_debug u ++ lit " revoked through " ++ fmt_int cutoff
  | RevocationUnavailable m => lit "revocation list unavailable: " ++ m
  | SubjectNotHuman => lit "token subject is not a human principal"
  | SubjectPattern m => lit "invalid human subject pattern: " ++ m
  end.

Definition exchange_error_to_string (e : ExchangeError) : str :=
  match e with
  | UnsupportedGrant g => lit "unsupported grant_type: " ++ g
  | UnsupportedTokenType t => lit "unsupported subject_token_type: " ++ t
  | SubjectInvalid i => lit "subject token validation failed: " ++ identity_error_to_string i
  | ScopeExceedsSubject s => lit "requested scope " ++ fmt_debug s ++ lit " exceeds subject scopes"
  | EmptyIntersection => lit "no scopes remain after intersection"
  | SubjectExpired => lit "subject token has expired"
  | MissingSubjectChain => lit "subject delegation chain is missing or inconsistent"
  | InvalidScopes => lit "requested scopes exceed supported limits or contain invalid characters"
  | SigningFailed m => lit "token signing failed: " ++ m
  | DelegationExceeded d max =>
      lit "delegation depth " ++ fmt_int (Z.of_nat d) ++ lit " exceeds maximum " ++ fmt_int (Z.of_nat max)
  | TargetNotAllowed t => lit "target audience " ++ fmt_debug t ++ lit " is not an allowed backend"
  | ActorNotDirect => lit "actor token must be an undelegated agent token"
  end.
End Display.

(** * Scopes *)

Definition scope_covers (parent child : str) : bool :=
  str_eqb parent (lit "*") || str_eqb parent child
  || match strip_wildcard parent with
     | Some prefix =>
         match strip_prefix prefix child with
         | Some rest => starts_with (lit ":") rest
         | None => false
         end
     | None => false
     end.

(** One of the two loops: the scopes of [l] that some scope of [other] covers,
    each pushed once; [seen] is the set of those pushed so far. *)
Fixpoint intersect_into (l other : list str) (seen : gset str) (result : list str)
  : gset str * list str :=
  match l with
  | [] => (seen, result)
  | scope :: l' =>
      if existsb (fun o => scope_covers o scope) other && negb (bool_decide (scope ∈ seen))
      then intersect_into l' other ({[scope]} ∪ seen) (result ++ [scope])
      else intersect_into l' other seen result
  end.

Definition scope_intersection (a b : list str) : list str :=
  let '(seen, result) := intersect_into a b ∅ [] in
  (intersect_into b a seen result).2.

(** [str::split] on one character: [""] splits into one empty piece. *)
Fixpoint split_on (c : Z) (s : str) : list str :=
  match s with
  | [] => [[]]
  | x :: s' =>
      if x =? c then [] :: split_on c s'
      else match split_on c s' with
           | piece :: rest => (x :: piece) :: rest
           | [] => [[x]]
           end
  end.

(** The bytes of an RFC 6749 scope token. *)
Definition scope_byte (b : Z) : bool :=
  (b =? 0x21) || ((0x23 <=? b) && (b <=? 0x5b)) || ((0x5d <=? b) && (b <=? 0x7e)).

Definition oauth_scope (s : str) : bool := negb (str_eqb s []) && forallb scope_byte (as_bytes s).

Definition requested_scope_bad (s : str) : bool :=
  str_eqb s [] || (MAX_IDENTITY_STRING_CHARS <? length s)%nat
  || negb (forallb scope_byte (as_bytes s)) || contains_bidi_or_zero_width s.

Definition MAX_SCOPE_REQUEST_BYTES : Z :=
  Z.of_nat MAX_SCOPES * (4 * Z.of_nat MAX_IDENTITY_STRING_CHARS + 1).

(** [requested]: the request split on spaces, one more than the limit at most. *)
Definition requested_list (p : ExchangeParams) : list str :=
  match ep_requested_scopes p with
  | Some scopes => take (S MAX_SCOPES) (split_on 32 scopes)
  | None => scopes (ep_subject p)
  end.

(** * The serialized claims *)

Fixpoint ser_actor (a : ActorClaim) : Value :=
  match a with
  | mkActor s inner =>
      Object (member "sub" (JString s)
              ++ match inner with Some i => [(lit "act", ser_actor i)] | None => [] end)
  end.

Definition ser_claims (c : NhiClaims) : list (str * Value) :=
  member "sub" (JString (sub c)) ++ member "iss" (JString (iss c))
  ++ member "aud" (serialize_audience (aud c)) ++ member "iat" (ser_u (iat c))
  ++ opt_member "nbf" ser_u (nbf c) ++ member "exp" (ser_u (exp c))
  ++ member "jti" (JString (jti c)) ++ opt_member "azp" JString (azp c)
  ++ opt_member "act" ser_actor (act c) ++ member "instance_uid" (JString (instance_uid c))
  ++ member "charter" (JString (charter c)) ++ member "version" (JString (version c))
  ++ member "scopes" (Array (map JString (scopes c)))
  ++ opt_member "parent_token" JString (parent_token c).

Definition ser_identity (i : RevocationIdentity) : Value :=
  Object (member "iss" (JString (ri_iss i)) ++ member "jti" (JString (ri_jti i))
          ++ member "instance_uid" (JString (ri_instance_uid i)) ++ member "iat" (ser_u (ri_iat i))).

(** The claims flattened, then the ancestry; no actor tokens, no member. *)
Definition ser_exchanged (e : ExchangedClaims) : Value :=
  Object (ser_claims (xc_claims e)
          ++ member "av_subject_tokens" (Array (map ser_identity (av_subject_tokens e)))
          ++ match av_actor_tokens e with
             | [] => []
             | l => member "av_actor_tokens" (Array (map ser_identity l))
             end
          ++ member "av_delegation_depth" (ser_u (Z.of_nat (av_delegation_depth e)))).

Definition MAX_CLAIMS_BYTES : Z := 11 * 1024.

(** * Issuing *)

Definition actor_is_direct (a : ExchangeActor) : bool :=
  negb (bool_decide (is_Some (parent_token (xa_claims a))))
  && negb (match act (xa_claims a) with Some _ => true | None => false end)
  && (length (xa_chain a) =? 1)%nat
  && bool_decide (head (xa_chain a) = Some (revocation_identity (xa_claims a))).

Definition subject_chain_ok (p : ExchangeParams) : bool :=
  bool_decide (head (ep_subject_chain p) = Some (revocation_identity (ep_subject p)))
  && negb (ep_subject_delegation_depth p <? length (ep_subject_chain p) - 1)%nat
  && negb (ep_subject_delegation_depth p <? act_nesting (ep_subject p))%nat.

(** The [act] claim, the authorized party and the number of new links. *)
Definition acting (p : ExchangeParams) (actor : option ExchangeActor) : ActorClaim * str * nat :=
  let subject_agent := mkActor (ep_azp p) (act (ep_subject p)) in
  match actor with
  | None => (subject_agent, ep_azp p, 1%nat)
  | Some a => (mkActor (instance_uid (xa_claims a)) (Some subject_agent), instance_uid (xa_claims a), 2%nat)
  end.

Definition exchange_exp (p : ExchangeParams) (actor : option ExchangeActor) : Z :=
  Z.min (Z.min (sat_add (ep_now_s p) (Z.min (ep_ttl_s p) MAX_TTL_SECS)) (exp (ep_subject p)))
    (match actor with None => u64_max | Some a => exp (xa_claims a) end).

Definition effective_scopes (p : ExchangeParams) (actor : option ExchangeActor) : list str :=
  let effective := scope_intersection (requested_list p) (scopes (ep_subject p)) in
  match actor with None => effective | Some a => scope_intersection effective (scopes (xa_claims a)) end.

Section Exchange.
Context {SJ : SerdeJson}.

(** [uid] is the fresh identifier [new_event_uid] returns.  Writing these claims
    as JSON cannot fail: every key is a string and no number is a float. *)
Definition build_exchanged_claims_with_actor (uid : str) (p : ExchangeParams)
    (actor : option ExchangeActor) : result ExchangedClaims ExchangeError :=
  let subject := ep_subject p in
  if match actor with Some a => negb (actor_is_direct a) | None => false end then Err ActorNotDirect
  else if negb (subject_chain_ok p) then Err MissingSubjectChain
  else if negb (bool_decide (ep_allowed_audiences p = []))
          && negb (existsb (fun a => str_eqb a (ep_target_audience p)) (ep_allowed_audiences p))
       then Err (TargetNotAllowed (ep_target_audience p))
  else if match ep_requested_scopes p with
          | Some s => str_len s >? MAX_SCOPE_REQUEST_BYTES | None => false end
       then Err InvalidScopes
  else if (MAX_SCOPES <? length (requested_list p))%nat || existsb requested_scope_bad (requested_list p)
       then Err InvalidScopes
  else if existsb (fun s => negb (oauth_scope s)) (scopes subject) then Err InvalidScopes
  else
  let effective := effective_scopes p actor in
  if bool_decide (effective = []) then Err EmptyIntersection
  else
  let '(actc, azpc, links) := acting p actor in
  let depth := (ep_subject_delegation_depth p + links)%nat in
  if (ep_max_depth p <? depth)%nat then Err (DelegationExceeded depth (ep_max_depth p))
  else
  let expc := exchange_exp p actor in
  if expc <=? ep_now_s p then Err SubjectExpired
  else
  let claims := mkClaims (sub subject) (ep_issuer p) (Single (ep_target_audience p)) (ep_now_s p)
                  (Some (Z.max (ep_now_s p) (effective_start subject))) expc uid (Some azpc) (Some actc)
                  (instance_uid subject) (charter subject) (version subject) effective None in
  let? _ := map_err SubjectInvalid
              (validate_claim_fields claims (ep_now_s p) DEFAULT_LEEWAY_SECS false) in
  let exchanged := mkExchanged claims (ep_subject_chain p)
                     (match actor with Some a => xa_chain a | None => [] end) depth in
  if str_len (to_string (ser_exchanged exchanged)) >? MAX_CLAIMS_BYTES then Err InvalidScopes
  else Ok exchanged.

Definition build_exchanged_claims (uid : str) (p : ExchangeParams)
  : result ExchangedClaims ExchangeError :=
  build_exchanged_claims_with_actor uid p None.
End Exchange.

(** * Verifying *)

(** [jsonwebtoken] as the gateway uses it on the tokens it issues: [encode] under
    its own key, [decode] with the accepted audiences and issuer, and the raw
    signature check.  [header_len] is the size of the header's JSON text. *)
Class ExchangeLibs {TL : TokenLibs} := {
  EncodingKey : Type;
  public_key : EncodingKey -> DecodingKey;
  encode : Header -> ExchangedClaims -> EncodingKey -> result str str;
  header_len : Header -> Z;
  decode_exchanged : str -> DecodingKey -> list str -> str -> result ExchangedClaims str;
  crypto_verify : str -> list Z -> DecodingKey -> bool;
}.

Record ExchangedValidation {TL : TokenLibs} := mkExchangedValidation {
  ev_key : DecodingKey;
  ev_kid : str;
  ev_issuer : str;
  ev_allowed_audiences : list str;
  ev_max_depth : nat;
  ev_now_s : Z;
  ev_token_type : str;
  ev_for_revocation : bool;
}.
Arguments mkExchangedValidation {TL}.

Definition ancestry_bad (max_depth : nat) (e : ExchangedClaims) : bool :=
  let c := xc_claims e in
  bool_decide (av_subject_tokens e = [])
  || (max_depth <? length (av_subject_tokens e))%nat
  || (1 <? length (av_actor_tokens e))%nat
  || (av_delegation_depth e =? 0)%nat
  || (max_depth <? av_delegation_depth e)%nat
  || (av_delegation_depth e <? length (av_subject_tokens e) + length (av_actor_tokens e))%nat
  || (av_delegation_depth e <? act_nesting c)%nat
  || match act c with None => true | Some _ => false end
  || match head (av_actor_tokens e) with
     | None => false
     | Some actor =>
         (act_nesting c <? 2)%nat
         || match act c with None => true | Some (mkActor s _) => negb (str_eqb s (ri_instance_uid actor)) end
     end.

Definition ancestor_bad (token_iat : Z) (a : RevocationIdentity) : bool :=
  str_eqb (ri_iss a) []
  || (MAX_IDENTITY_STRING_CHARS <? length (ri_iss a))%nat
  || contains_bidi_or_zero_width (ri_iss a)
  || is_blank (ri_jti a) || is_blank (ri_instance_uid a)
  || existsb is_control (ri_jti a) || existsb is_control (ri_instance_uid a)
  || (MAX_IDENTITY_STRING_CHARS <? length (ri_jti a))%nat
  || (128 <? length (ri_instance_uid a))%nat
  || contains_bidi_or_zero_width (ri_jti a) || contains_bidi_or_zero_width (ri_instance_uid a)
  || (ri_iat a >? sat_add token_iat DEFAULT_LEEWAY_SECS).

(** What is checked of the decoded claims. *)
Definition verify_claims (allowed_audiences : list str) (max_depth : nat) (now_s : Z)
    (for_revocation : bool) (e : ExchangedClaims) : result ExchangedClaims IdentityError :=
  let c := xc_claims e in
  match aud c with
  | Multi _ => Err (Verification (lit "exchanged audience must be a single backend"))
  | Single audience =>
      if negb (existsb (str_eqb audience) allowed_audiences)
         || bool_decide (is_Some (parent_token c))
      then Err (Verification (lit "invalid exchanged-token audience or parent"))
      else
      let? _ := validate_claim_fields c now_s DEFAULT_LEEWAY_SECS for_revocation in
      if existsb (fun s => negb (oauth_scope s)) (scopes c)
      then Err (Verification (lit "invalid OAuth scope token"))
      else if (negb for_revocation && (exp c <=? now_s)) || (exp c <? sat_sub now_s DEFAULT_LEEWAY_SECS)
      then Err (Expired (exp c) now_s)
      else if negb for_revocation
              && match nbf c with Some n => n >? sat_add now_s DEFAULT_LEEWAY_SECS | None => false end
      then Err (Verification (lit "token is not yet active"))
      else if ancestry_bad max_depth e
      then Err (Verification (lit "invalid exchanged-token ancestry or depth"))
      else if existsb (ancestor_bad (iat c)) (av_subject_tokens e ++ av_actor_tokens e)
      then Err (Verification (lit "invalid exchanged-token ancestor"))
      else if match head (av_subject_tokens e) with
              | None => true
              | Some source => negb (str_eqb (ri_instance_uid source) (instance_uid c))
              end
      then Err (Verification (lit "subject instance does not match ancestry"))
      else Ok e
  end.

Definition verify_exchanged_token {TL : TokenLibs} {EL : ExchangeLibs} (token : str)
    (p : ExchangedValidation) : result ExchangedClaims IdentityError :=
  if str_len token >? 16 * 1024 then Err (Malformed (lit "exchanged token exceeds 16 KiB"))
  else
  let? header := map_err Malformed (decode_header token) in
  let? _ := validate_jose_header header in
  if negb (str_eqb (ev_token_type p) (lit "JWT") || str_eqb (ev_token_type p) (lit "av-tool+jwt"))
     || negb (bool_decide (h_typ header = Some (ev_token_type p)))
     || negb (bool_decide (h_alg header = EdDSA))
     || negb (bool_decide (h_kid header = Some (ev_kid p)))
  then Err (Verification (lit "unexpected exchanged-token header"))
  else
  let? e := map_err Verification
              (decode_exchanged token (ev_key p) (ev_allowed_audiences p) (ev_issuer p)) in
  verify_claims (ev_allowed_audiences p) (ev_max_depth p) (ev_now_s p) (ev_for_revocation p) e.

(** * Revocation *)

Section Revocation.
Context {X U : Type} {RX : RevocationStore X} {RU : RevocationStore U}.

Fixpoint check_ancestors (upstream : U) (l : list RevocationIdentity) : result unit IdentityError :=
  match l with
  | [] => Ok tt
  | a :: rest =>
      let? r := map_err RevocationUnavailable
                  (rs_check_token upstream (ri_iss a) (ri_jti a) (ri_instance_uid a) (ri_iat a)) in
      match r with
      | None => check_ancestors upstream rest
      | Some ByJti => Err (TokenRevokedError (ri_jti a))
      | Some (ByInstance cutoff) => Err (InstanceRevoked (ri_instance_uid a) cutoff)
      end
  end.

Definition check_exchanged_revocation (e : ExchangedClaims) (exchanged : X) (upstream : U)
  : result unit IdentityError :=
  let c := xc_claims e in
  let? r := map_err RevocationUnavailable
              (rs_check_token exchanged (iss c) (jti c) (instance_uid c) (iat c)) in
  match r with
  | Some _ => Err (TokenRevokedError (jti c))
  | None => check_ancestors upstream (av_subject_tokens e ++ av_actor_tokens e)
  end.
End Revocation.
