(* ===== verification/Revocation.v ===== *)
(** Revocation lists of the harness ([av-harness/src/revocation.rs]): the list
    kept in the shared state store, and the fail-closed guard around a remote
    list (its cache of known revocations, its circuit breaker and its limit on
    concurrent reads).  [RevocationLaws] is what the token routes rely on. *)

From S2P Require Import Prelude Rust CoreBase Identity Store Sandbox.

(** * The contract of a revocation list *)

(** [rl_refuses s i e]: the list [s] refuses the identity [i] at least until the
    second [e].  Whatever else is written, and however often entries past their
    retention are swept before [e], the refusal stands; while it stands, no check
    answers that the identity is not revoked. *)
Class RevocationLaws (RS : Type) {R : RevocationStore RS} := {
  rl_wf : RS -> Prop;
  rl_refuses : RS -> RevocationIdentity -> Z -> Prop;
  rl_revoke_token_wf s issuer jti e : rl_wf s -> rl_wf (rs_try_revoke_token s issuer jti e).1;
  rl_revoke_wf s jti e : rl_wf s -> rl_wf (rs_try_revoke s jti e).1;
  rl_instance_wf s uid cutoff e : 0 <= cutoff -> rl_wf s -> rl_wf (rs_revoke_instance s uid cutoff e).1;
  rl_sweep_wf s now : rl_wf s -> rl_wf (rs_sweep_expired s now);
  rl_revoke_token s i e s' o : rl_wf s ->
    rs_try_revoke_token s (ri_iss i) (ri_jti i) e = (s', Ok o) -> rl_refuses s' i e;
  rl_revoke s i e s' o : rl_wf s ->
    rs_try_revoke s (ri_jti i) e = (s', Ok o) -> rl_refuses s' i e;
  rl_instance s i cutoff e s' : rl_wf s -> 0 <= ri_iat i <= cutoff ->
    rs_revoke_instance s (ri_instance_uid i) cutoff e = (s', Ok tt) -> rl_refuses s' i e;
  rl_keep_token s i e issuer jti x : rl_wf s -> rl_refuses s i e ->
    rl_refuses (rs_try_revoke_token s issuer jti x).1 i e;
  rl_keep_revoke s i e jti x : rl_wf s -> rl_refuses s i e ->
    rl_refuses (rs_try_revoke s jti x).1 i e;
  rl_keep_instance s i e uid cutoff x : rl_wf s -> 0 <= cutoff -> rl_refuses s i e ->
    rl_refuses (rs_revoke_instance s uid cutoff x).1 i e;
  rl_keep_sweep s i e now : rl_wf s -> now <= e -> rl_refuses s i e ->
    rl_refuses (rs_sweep_expired s now) i e;
  rl_check s i e : rl_wf s -> rl_refuses s i e ->
    rs_check_token s (ri_iss i) (ri_jti i) (ri_instance_uid i) (ri_iat i) <> Ok None;
}.

(** * StateRevocationStore *)

Module StateRevocation.

Section StateRevocation.
Context {St : Type} {SS : StateStore St} {SHA : Sha256} {UT : UnicodeTables}.

Record t := mk { store : St; prefix : str; instance_prefix : str }.

Definition new (s : St) : t := mk s (lit "av:revoked:") (lit "av:revoked-instance:").

Definition with_namespace (s : St) (namespace : str) : t :=
  mk s (lit "av:revoked-" ++ namespace ++ lit ":")
     (lit "av:revoked-" ++ namespace ++ lit "-instance:").

Definition key (r : t) (jti : str) : str := prefix r ++ sha256_hex (as_bytes jti).

Definition issued_key (r : t) (issuer jti : str) : str :=
  prefix r ++ lit "issuer:" ++ sha256_hex (as_bytes issuer) ++ lit ":" ++ sha256_hex (as_bytes jti).

Definition instance_key (r : t) (uid : str) : str := instance_prefix r ++ sha256_hex (as_bytes uid).

(** [store.add(key, 1)]: the first mark is a new revocation. *)
Definition mark (r : t) (k : str) : t * result RevokeOutcome str :=
  let '(s', res) := st_add (store r) k 1 in
  (mk s' (prefix r) (instance_prefix r),
   map_err state_error_to_string
     (let? marks := res in Ok (if marks =? 1 then Revoked else AlreadyRevoked))).

Definition try_revoke (r : t) (jti : str) (expires_at : Z) : t * result RevokeOutcome str :=
  mark r (key r jti).

Definition revoke (r : t) (jti : str) (expires_at : Z) : t * result unit str :=
  let '(r', res) := try_revoke r jti expires_at in (r', let? _ := res in Ok tt).

Definition try_revoke_token (r : t) (issuer jti : str) (expires_at : Z)
  : t * result RevokeOutcome str :=
  mark r (issued_key r issuer jti).

Definition is_revoked (r : t) (jti : str) : result bool str :=
  let? marks := map_err state_error_to_string (st_get (store r) (key r jti)) in Ok (marks >? 0).

(** The cutoff is stored plus one: zero is a missing key. *)
Definition revoke_instance (r : t) (uid : str) (cutoff expires_at : Z) : t * result unit str :=
  if cutoff + 1 >? u64_max then (r, Err (lit "instance cutoff overflow"))
  else
    let '(s', res) := st_fetch_max (store r) (instance_key r uid) (cutoff + 1) in
    (mk s' (prefix r) (instance_prefix r),
     map_err state_error_to_string (let? _ := res in Ok tt)).

Definition check (r : t) (jti uid : str) (iat : Z) : result (option RevokedBy) str :=
  let? revoked := is_revoked r jti in
  if revoked : bool then Ok (Some ByJti)
  else
    let? encoded := map_err state_error_to_string (st_get (store r) (instance_key r uid)) in
    Ok (if (1 <=? encoded) && (iat <=? encoded - 1) then Some (ByInstance (encoded - 1)) else None).

Definition check_token (r : t) (issuer jti uid : str) (iat : Z) : result (option RevokedBy) str :=
  let? marks := map_err state_error_to_string (st_get (store r) (issued_key r issuer jti)) in
  if marks >? 0 then Ok (Some ByJti) else check r jti uid iat.

#[global] Instance list : RevocationStore t := {|
  rs_revoke := revoke;
  rs_is_revoked := is_revoked;
  rs_sweep_expired r _ := r;
  rs_try_revoke := try_revoke;
  rs_revoke_instance := revoke_instance;
  rs_try_revoke_token := try_revoke_token;
  rs_check_token := check_token;
  rs_check := check;
|}.
End StateRevocation.
Arguments t : clear implicits.
End StateRevocation.

(** * GuardedRevocationStore *)

Module Guarded.

Definition BREAKER_FAILURE_THRESHOLD : Z := 3.
(** One second, in the nanoseconds of an [Instant]. *)
Definition BREAKER_OPEN_TIME : Z := 10 ^ 9.
Definition LOCAL_REVOKED_MAX : nat := Z.to_nat 100000.
Definition MAX_IN_FLIGHT_READS : nat := 32.

(** [RevocationClock]: one reading of both clocks serves one call. *)
Record Clock := mkClock { monotonic : Z; epoch_seconds : Z }.

Record CachedRevocation := mkCached { c_cutoff : option Z; c_expires_at : Z }.

Record GuardState := mkGuard {
  failures : Z;
  open_until : option Z;
  probe : option Z;
  next_probe : Z;
  in_flight : nat;
  last_success : option Z;
  revoked : gmap str CachedRevocation;
}.

Definition guard_default : GuardState := mkGuard 0 None None 0 0 None ∅.

Definition set_revoked (st : GuardState) (m : gmap str CachedRevocation) : GuardState :=
  mkGuard (failures st) (open_until st) (probe st) (next_probe st) (in_flight st) (last_success st) m.

Definition set_in_flight (st : GuardState) (n : nat) : GuardState :=
  mkGuard (failures st) (open_until st) (probe st) (next_probe st) n (last_success st) (revoked st).

(** A live entry; a stale one is dropped. *)
Definition cached (st : GuardState) (ck : Clock) (key : str) : GuardState * option CachedRevocation :=
  match revoked st !! key with
  | Some entry =>
      if c_expires_at entry >=? epoch_seconds ck then (st, Some entry)
      else (set_revoked st (delete key (revoked st)), None)
  | None => (st, None)
  end.

(** [Option::max]: [None] is least. *)
Definition opt_max (a b : option Z) : option Z :=
  match a, b with
  | None, o | o, None => o
  | Some x, Some y => Some (Z.max x y)
  end.

Definition remember (st : GuardState) (ck : Clock) (key : str) (cutoff : option Z) (expires_at : Z)
  : GuardState :=
  if expires_at <? epoch_seconds ck then st
  else match revoked st !! key with
       | Some entry =>
           set_revoked st (<[key := mkCached (opt_max (c_cutoff entry) cutoff)
                                      (Z.max (c_expires_at entry) expires_at)]> (revoked st))
       | None =>
           if (size (revoked st) <? LOCAL_REVOKED_MAX)%nat
           then set_revoked st (<[key := mkCached cutoff expires_at]> (revoked st)) else st
       end.

Definition retention_from_read (ck : Clock) : Z :=
  sat_add (sat_add (epoch_seconds ck) MAX_TTL_SECS) (2 * 30).

Definition unavailable_msg : str := lit "revocation dependency temporarily unavailable".

(** The permit of an admitted read is the probe it carries. *)
Definition begin_lookup (st : GuardState) (ck : Clock) : GuardState * result (option Z) str :=
  if (MAX_IN_FLIGHT_READS <=? in_flight st)%nat
     || match open_until st with
        | Some until => (monotonic ck <? until) || bool_decide (is_Some (probe st))
        | None => false
        end
  then (st, Err unavailable_msg)
  else match open_until st with
       | Some _ =>
           let p := (next_probe st + 1) mod 2 ^ 64 in
           (mkGuard (failures st) (open_until st) (Some p) p (S (in_flight st)) (last_success st)
              (revoked st), Ok (Some p))
       | None => (set_in_flight st (S (in_flight st)), Ok None)
       end.

Definition u32_sat_succ (n : Z) : Z := Z.min (n + 1) (2 ^ 32 - 1).

Definition record_result (st : GuardState) (ck : Clock) (success : bool) (p : option Z) : GuardState :=
  let owns_probe := bool_decide (is_Some p) && bool_decide (probe st = p) in
  let probe' := if owns_probe then None else probe st in
  if success then
    mkGuard 0 None probe' (next_probe st) (in_flight st) (Some (monotonic ck)) (revoked st)
  else
    let failures' := u32_sat_succ (failures st) in
    let open' := if (BREAKER_FAILURE_THRESHOLD <=? failures') || owns_probe
                 then Some (monotonic ck + BREAKER_OPEN_TIME) else open_until st in
    mkGuard failures' open' probe' (next_probe st) (in_flight st) (last_success st) (revoked st).

(** [LookupPermit::drop], after the outcome was recorded (a read that panicked
    records a failure there first). *)
Definition release (st : GuardState) : GuardState := set_in_flight st (in_flight st - 1).

Definition is_ok {A E} (r : result A E) : bool := match r with Ok _ => true | Err _ => false end.

(** [lookup], its read returning [answer]. *)
Definition lookup {A} (st : GuardState) (ck : Clock) (answer : result A str)
  : GuardState * result A str :=
  match begin_lookup st ck with
  | (st', Err e) => (st', Err e)
  | (st', Ok p) => (release (record_result st' ck (is_ok answer) p), answer)
  end.

Section Guarded.
Context {I : Type} {RI : RevocationStore I} {SHA : Sha256}.

Record t := mk { inner : I; state : GuardState }.

Definition new (i : I) : t := mk i guard_default.

Definition cache_key (kind id : str) : str := kind ++ lit ":" ++ sha256_hex (as_bytes id).

Definition issued_cache_key (issuer jti : str) : str :=
  lit "issuer:" ++ sha256_hex (as_bytes issuer) ++ lit ":" ++ sha256_hex (as_bytes jti).

Definition health (g : t) (ck : Clock) : bool * nat * option Z :=
  (negb (bool_decide (is_Some (open_until (state g)))), size (revoked (state g)),
   (fun last => sat_sub (monotonic ck) last / 10 ^ 9) <$> last_success (state g)).

Definition sweep_expired (g : t) (now_s : Z) : t :=
  mk (rs_sweep_expired (inner g) now_s)
     (set_revoked (state g) (filter (fun kv => now_s <= c_expires_at kv.2) (revoked (state g)))).

(** A write is remembered first, then always sent to the list. *)
Definition try_revoke (g : t) (ck : Clock) (jti : str) (expires_at : Z) : t * result RevokeOutcome str :=
  let st := remember (state g) ck (cache_key (lit "jti") jti) None expires_at in
  let '(i, r) := rs_try_revoke (inner g) jti expires_at in
  (mk i (record_result st ck (is_ok r) None), r).

Definition revoke (g : t) (ck : Clock) (jti : str) (expires_at : Z) : t * result unit str :=
  let '(g', r) := try_revoke g ck jti expires_at in (g', let? _ := r in Ok tt).

Definition try_revoke_token (g : t) (ck : Clock) (issuer jti : str) (expiry : Z)
  : t * result RevokeOutcome str :=
  let st := remember (state g) ck (issued_cache_key issuer jti) None expiry in
  let '(i, r) := rs_try_revoke_token (inner g) issuer jti expiry in
  (mk i (record_result st ck (is_ok r) None), r).

Definition revoke_instance (g : t) (ck : Clock) (uid : str) (cutoff expires_at : Z)
  : t * result unit str :=
  let st := remember (state g) ck (cache_key (lit "instance") uid) (Some cutoff) expires_at in
  let '(i, r) := rs_revoke_instance (inner g) uid cutoff expires_at in
  (mk i (record_result st ck (is_ok r) None), r).

(** The cached cutoff of an instance, if it covers [iat]. *)
Definition cached_cutoff (st : GuardState) (ck : Clock) (key : str) (iat : Z)
  : GuardState * option Z :=
  let '(st', entry) := cached st ck key in
  (st', match entry ≫= c_cutoff with
        | Some cutoff => if iat <=? cutoff then Some cutoff else None
        | None => None
        end).

(** The tail shared by [check_token] and [check]: read the list, and remember
    what it confirmed as revoked. *)
Definition read_through (g : t) (ck : Clock) (st : GuardState) (jti_key instance_key : str)
    (answer : result (option RevokedBy) str) : t * result (option RevokedBy) str :=
  match lookup st ck answer with
  | (st', Err e) => (mk (inner g) st', Err e)
  | (st', Ok r) =>
      (mk (inner g)
         (match r with
          | Some ByJti => remember st' ck jti_key None (retention_from_read ck)
          | Some (ByInstance cutoff) => remember st' ck instance_key (Some cutoff) (retention_from_read ck)
          | None => st'
          end), Ok r)
  end.

Definition check_token (g : t) (ck : Clock) (issuer jti uid : str) (iat : Z)
  : t * result (option RevokedBy) str :=
  let scoped := issued_cache_key issuer jti in
  let global := cache_key (lit "jti") jti in
  let '(st1, hit1) := cached (state g) ck scoped in
  let '(st2, hit2) := match hit1 with Some _ => (st1, hit1) | None => cached st1 ck global end in
  match hit2 with
  | Some _ => (mk (inner g) st2, Ok (Some ByJti))
  | None =>
      let instance := cache_key (lit "instance") uid in
      let '(st3, cutoff) := cached_cutoff st2 ck instance iat in
      match cutoff with
      | Some cutoff => (mk (inner g) st3, Ok (Some (ByInstance cutoff)))
      | None => read_through g ck st3 scoped instance (rs_check_token (inner g) issuer jti uid iat)
      end
  end.

Definition is_revoked (g : t) (ck : Clock) (jti : str) : t * result bool str :=
  let key := cache_key (lit "jti") jti in
  let '(st1, hit) := cached (state g) ck key in
  match hit with
  | Some _ => (mk (inner g) st1, Ok true)
  | None =>
      match lookup st1 ck (rs_is_revoked (inner g) jti) with
      | (st2, Err e) => (mk (inner g) st2, Err e)
      | (st2, Ok r) =>
          (mk (inner g) (if r : bool then remember st2 ck key None (retention_from_read ck) else st2), Ok r)
      end
  end.

Definition check (g : t) (ck : Clock) (jti uid : str) (iat : Z) : t * result (option RevokedBy) str :=
  let jti_key := cache_key (lit "jti") jti in
  let '(st1, hit) := cached (state g) ck jti_key in
  match hit with
  | Some _ => (mk (inner g) st1, Ok (Some ByJti))
  | None =>
      let instance_key := cache_key (lit "instance") uid in
      let '(st2, cutoff) := cached_cutoff st1 ck instance_key iat in
      match cutoff with
      | Some cutoff => (mk (inner g) st2, Ok (Some (ByInstance cutoff)))
      | None => read_through g ck st2 jti_key instance_key (rs_check (inner g) jti uid iat)
      end
  end.
End Guarded.
Arguments t : clear implicits.

(** ** Concurrent reads *)

(** The guard, the permits of the reads under way, and the number of reads whose
    outcome is recorded but whose permit is not yet released.  Every critical
    section is one step, in any order; a read that panics records a failure. *)
Record System := mkSystem { sy_state : GuardState; sy_permits : list (option Z); sy_recorded : nat }.

Inductive step : System -> System -> Prop :=
| step_begin st ps n ck st' p : begin_lookup st ck = (st', Ok p) ->
    step (mkSystem st ps n) (mkSystem st' (p :: ps) n)
| step_refused st ps n ck st' e : begin_lookup st ck = (st', Err e) ->
    step (mkSystem st ps n) (mkSystem st' ps n)
| step_record st l p r n ck success :
    step (mkSystem st (l ++ p :: r) n) (mkSystem (record_result st ck success p) (l ++ r) (S n))
| step_release st ps n :
    step (mkSystem st ps (S n)) (mkSystem (release st) ps n)
| step_write st ps n ck success :
    step (mkSystem st ps n) (mkSystem (record_result st ck success None) ps n)
| step_remember st ps n ck key cutoff e :
    step (mkSystem st ps n) (mkSystem (remember st ck key cutoff e) ps n)
| step_cached st ps n ck key :
    step (mkSystem st ps n) (mkSystem (cached st ck key).1 ps n)
| step_sweep st ps n now :
    step (mkSystem st ps n)
         (mkSystem (set_revoked st (filter (fun kv => now <= c_expires_at kv.2) (revoked st))) ps n).

Definition reachable (s : System) : Prop := rtc step (mkSystem guard_default [] 0) s.
End Guarded.
