(* ===== verification/RevocationProofs.v ===== *)
(** Properties of the revocation lists: both lists keep the contract
    [RevocationLaws], the guard never turns a revoked identity into an accepted
    one, and its circuit breaker is bounded and recovers. *)

From S2P Require Import Prelude Rust CoreBase Core Identity Validator IdentityProofs Store StoreProofs Revocation.

(** * The single-node list *)

Section InMemory.
Import InMemoryRevocation.

Definition in_memory_refuses (s : t) (i : RevocationIdentity) (e : Z) : Prop :=
  held (issued_entries s) (ri_iss i, ri_jti i) e \/ held (entries s) (ri_jti i) e \/
  exists cutoff, cut s (ri_instance_uid i) cutoff e /\ ri_iat i <= cutoff.

Lemma in_memory_keep s o i e : sweeps_until e [o] -> in_memory_refuses s i e ->
  in_memory_refuses (apply_rev s o) i e.
Proof.
  intros Ho [H|[H|(c & H & Hc)]].
  - left. by apply issued_step.
  - right; left. by apply entries_step.
  - right; right. exists c. split; [by apply instances_step|done].
Qed.

Lemma held_inserted {K} `{Countable K} (m : gmap K Z) k e :
  held (match m !! k with None => <[k := e]> m | Some x => <[k := Z.max x e]> m end) k e.
Proof.
  unfold held. destruct (m !! k); rewrite lookup_insert_eq; (eexists; split; [done|lia]).
Qed.

#[export] Program Instance in_memory_laws : RevocationLaws InMemoryRevocation.t := {|
  rl_wf _ := True;
  rl_refuses := in_memory_refuses;
|}.
Solve Obligations with done.
Next Obligation.
  intros s i e s' o _ H. cbn in H. apply (f_equal fst) in H. cbn in H. subst s'. left.
  pose proof (held_inserted (issued_entries s) (ri_iss i, ri_jti i) e) as Hh.
  unfold try_revoke_token. by destruct (issued_entries s !! (ri_iss i, ri_jti i)).
Qed.
Next Obligation.
  intros s i e s' o _ H. cbn in H. apply (f_equal fst) in H. cbn in H. subst s'. right; left.
  pose proof (held_inserted (entries s) (ri_jti i) e) as Hh.
  unfold try_revoke. by destruct (entries s !! ri_jti i).
Qed.
Next Obligation.
  intros s i cutoff e s' _ Hi H. cbn in H. injection H as <-. right; right. exists cutoff.
  split; [|lia]. unfold cut. cbn. rewrite lookup_insert_eq. do 2 eexists. split; [done|].
  destruct (instances s !! ri_instance_uid i); cbn; lia.
Qed.
Next Obligation.
  intros s i e issuer j x _ H. by apply (in_memory_keep s (RevToken issuer j x));
    [apply Forall_singleton|].
Qed.
Next Obligation.
  intros s i e j x _ H. by apply (in_memory_keep s (RevJti j x)); [apply Forall_singleton|].
Qed.
Next Obligation.
  intros s i e uid c x _ _ H. by apply (in_memory_keep s (RevInstance uid c x));
    [apply Forall_singleton|].
Qed.
Next Obligation.
  intros s i e now _ Hn H. by apply (in_memory_keep s (RevSweep now)); [apply Forall_singleton|].
Qed.
Next Obligation.
  intros s i e _ [H|[H|(c & H & Hc)]]; cbn.
  - by erewrite held_check_issued.
  - by erewrite held_check_jti.
  - edestruct cut_check as [by_ ->]; done.
Qed.
End InMemory.

(** * The list in the state store *)

Section StateList.
Import StateRevocation.
Context {St : Type} {UT : UnicodeTables} {SS : StateStore St} {SL : StateStoreLaws St} {SHA : Sha256}.

(** A mark under one of the two token keys, or a cutoff at or past [iat]. *)
Definition state_refuses (r : t St) (i : RevocationIdentity) (e : Z) : Prop :=
  0 < st_view (store r) (issued_key r (ri_iss i) (ri_jti i)) \/
  0 < st_view (store r) (key r (ri_jti i)) \/
  0 <= ri_iat i < st_view (store r) (instance_key r (ri_instance_uid i)).

(** Counters of the list only grow. *)
Definition grows (r r' : t St) : Prop :=
  prefix r' = prefix r /\ instance_prefix r' = instance_prefix r /\
  forall k, st_view (store r) k <= st_view (store r') k.

Lemma grows_refl r : grows r r.
Proof. done. Qed.

Lemma refuses_grows r r' i e : grows r r' -> state_refuses r i e -> state_refuses r' i e.
Proof.
  intros (Hp & Hi & Hv) H. unfold state_refuses, issued_key, key, instance_key in *. rewrite Hp, Hi.
  destruct H as [H|[H|H]]; [left|right; left|right; right];
    match goal with |- context [st_view (store r') ?k] => specialize (Hv k) end; lia.
Qed.

Lemma mark_spec r k : st_wf (store r) ->
  st_wf (store (mark r k).1) /\ grows r (mark r k).1 /\
  (forall o, (mark r k).2 = Ok o -> 0 < st_view (store (mark r k).1) k).
Proof.
  intros Hwf. unfold mark. pose proof (st_add_law (store r) k 1 Hwf) as H.
  destruct (st_add (store r) k 1) as [s' res]. destruct H as (Hwf' & -> & Hv); [done|].
  cbn [fst snd store]. split; [done|]. pose proof (st_view_range (store r)) as Hr.
  unfold Contract.add in *. specialize (Hr k Hwf) as Hk.
  destruct (st_view (store r) k + 1 <=? JCS_SAFE_MAX) eqn:E; cbn [fst snd] in *; split.
  - split; [done|]. split; [done|]. intros k'. cbn [store]. rewrite Hv. unfold Contract.upd.
    case_bool_decide; [subst; lia|lia].
  - intros o _. rewrite Hv. unfold Contract.upd. rewrite bool_decide_true by done. lia.
  - split; [done|]. split; [done|]. intros k'. cbn [store]. rewrite Hv. lia.
  - done.
Qed.

Lemma revoke_instance_spec r uid cutoff x : 0 <= cutoff -> st_wf (store r) ->
  st_wf (store (revoke_instance r uid cutoff x).1) /\ grows r (revoke_instance r uid cutoff x).1 /\
  ((revoke_instance r uid cutoff x).2 = Ok tt ->
   cutoff < st_view (store (revoke_instance r uid cutoff x).1) (instance_key r uid)).
Proof.
  intros Hc Hwf. unfold revoke_instance. case_match eqn:Eo; [done|].
  pose proof (st_fetch_max_law (store r) (instance_key r uid) (cutoff + 1) Hwf) as H.
  destruct (st_fetch_max _ _ _) as [s' res]. destruct H as (Hwf' & -> & Hv); [unfold is_u64; lia|].
  cbn [fst snd store]. split; [done|]. unfold Contract.fetch_max in *.
  destruct (cutoff + 1 <=? JCS_SAFE_MAX) eqn:E; cbn [fst snd] in *; split.
  - split; [done|]. split; [done|]. intros k'. cbn [store]. rewrite Hv. unfold Contract.upd.
    case_bool_decide; [subst; lia|lia].
  - intros _. rewrite Hv. unfold Contract.upd. rewrite bool_decide_true by done. lia.
  - split; [done|]. split; [done|]. intros k'. cbn [store]. rewrite Hv. lia.
  - done.
Qed.

#[export] Program Instance state_list_laws : RevocationLaws (t St) := {|
  rl_wf r := st_wf (store r);
  rl_refuses := state_refuses;
|}.
Solve Obligations with (intros; first [done | by apply mark_spec | by apply revoke_instance_spec
  | (eapply refuses_grows; [|done]); first [by apply mark_spec | by apply revoke_instance_spec]]).
Next Obligation.
  intros r i e r' o Hwf H. left. cbn in H. unfold try_revoke_token in H.
  destruct (mark_spec r (issued_key r (ri_iss i) (ri_jti i)) Hwf) as (_ & (Hp & _) & Hm).
  rewrite H in *. cbn [fst snd] in *. unfold issued_key in *. rewrite Hp. by eapply Hm.
Qed.
Next Obligation.
  intros r i e r' o Hwf H. right; left. cbn in H. unfold try_revoke in H.
  destruct (mark_spec r (key r (ri_jti i)) Hwf) as (_ & (Hp & _) & Hm).
  rewrite H in *. cbn [fst snd] in *. unfold key in *. rewrite Hp. by eapply Hm.
Qed.
Next Obligation.
  intros r i cutoff e r' Hwf Hi H. right; right. cbn in H.
  destruct (revoke_instance_spec r (ri_instance_uid i) cutoff e) as (_ & (_ & Hp & _) & Hm); [lia|done|].
  rewrite H in *. cbn [fst snd] in *. unfold instance_key in *. rewrite Hp. specialize (Hm eq_refl). lia.
Qed.
Next Obligation.
  intros r i e Hwf H. cbn. unfold check_token, check, is_revoked. rewrite !st_get_law by done.
  cbn [map_err]. case_match eqn:E1; [done|]. case_match eqn:E2; [done|]. case_match eqn:E3; [done|].
  b2p. destruct H as [H|[H|H]]; lia.
Qed.
End StateList.

(** * The guard *)

Section Guard.
Import Guarded.

(** The parts of the guard other than the cache do not touch the cache. *)
Lemma record_revoked st ck b p : revoked (record_result st ck b p) = revoked st.
Proof. unfold record_result. by destruct b. Qed.

Lemma begin_revoked st ck : revoked (begin_lookup st ck).1 = revoked st.
Proof. unfold begin_lookup. case_match; [done|]. by destruct (open_until st). Qed.

Lemma lookup_revoked {A} st ck (a : result A str) : revoked (Guarded.lookup st ck a).1 = revoked st.
Proof.
  unfold Guarded.lookup. pose proof (begin_revoked st ck) as H.
  destruct (begin_lookup st ck) as [st' [p|e]]; cbn in *; [|done]. by rewrite record_revoked.
Qed.

(** An admitted read returns what the list answered; a refused one an error. *)
Lemma lookup_answer {A} st ck (a : result A str) :
  (Guarded.lookup st ck a).2 = a \/ exists e, (Guarded.lookup st ck a).2 = Err e.
Proof.
  unfold Guarded.lookup. destruct (begin_lookup st ck) as [st' [p|e]]; cbn; eauto.
Qed.

(** The cached revocation under [k] lasts until [e] and covers [cutoff]. *)
Definition live (st : GuardState) (k : str) (cutoff : option Z) (e : Z) : Prop :=
  exists c, revoked st !! k = Some c /\ e <= c_expires_at c /\
    match cutoff, c_cutoff c with None, _ => True | Some x, Some y => x <= y | Some _, None => False end.

Lemma live_revoked st st' k c e : revoked st' = revoked st -> live st k c e -> live st' k c e.
Proof. unfold live. by intros ->. Qed.

Lemma live_remember st ck k c e key cutoff x : live st k c e -> live (remember st ck key cutoff x) k c e.
Proof.
  intros (d & Hd & He & Hc). unfold remember. destruct (x <? _); [by exists d|].
  destruct (decide (key = k)) as [->|Hk].
  - rewrite Hd. eexists. cbn. rewrite lookup_insert_eq. split; [done|]. cbn. split; [lia|].
    destruct c as [c|], (c_cutoff d) as [y|], cutoff as [z|]; cbn in *; first [done|lia].
  - exists d. split; [|done]. destruct (revoked st !! key); [by cbn; rewrite lookup_insert_ne|].
    destruct (size _ <? _)%nat; [|done]. cbn. by rewrite lookup_insert_ne.
Qed.

Lemma live_cached st ck k c e key : epoch_seconds ck <= e -> live st k c e -> live (cached st ck key).1 k c e.
Proof.
  intros Hn (d & Hd & He & Hc). unfold cached. destruct (revoked st !! key) as [x|] eqn:Ek; [|by exists d].
  destruct (c_expires_at x >=? _) eqn:Ex; [by exists d|]. b2p. exists d. cbn. split; [|done].
  destruct (decide (key = k)) as [->|Hk]; [|by rewrite lookup_delete_ne].
  rewrite Hd in Ek. simplify_eq. lia.
Qed.

Lemma live_hit st ck k c e : epoch_seconds ck <= e -> live st k c e ->
  exists d, cached st ck k = (st, Some d) /\ revoked st !! k = Some d.
Proof.
  intros Hn (d & Hd & He & _). exists d. unfold cached. rewrite Hd.
  destruct (c_expires_at d >=? _) eqn:Ex; [done|]. b2p. lia.
Qed.

Lemma cached_cutoff_hit st ck k x e iat : epoch_seconds ck <= e -> live st k (Some x) e -> iat <= x ->
  exists y, cached_cutoff st ck k iat = (st, Some y).
Proof.
  intros Hn Hl Hi. unfold cached_cutoff. destruct (live_hit _ _ _ _ _ Hn Hl) as (d & -> & Hd).
  destruct Hl as (d' & Hd' & _ & Hc). rewrite Hd in Hd'. simplify_eq. cbn.
  destruct (c_cutoff d') as [y|]; [|done]. cbn. rewrite (proj2 (Z.leb_le iat y)) by lia. eauto.
Qed.

Lemma remember_live st ck k c e : epoch_seconds ck <= e ->
  (size (revoked st) < LOCAL_REVOKED_MAX)%nat -> live (remember st ck k c e) k c e.
Proof.
  intros Hn Hs. unfold remember, live. rewrite (proj2 (Z.ltb_ge _ _)) by lia.
  destruct (revoked st !! k) as [d|]; [|rewrite (proj2 (Nat.ltb_lt _ _)) by done]; cbn;
    rewrite lookup_insert_eq; (eexists; split; [done|]); cbn.
  - split; [lia|]. destruct c as [c|], (c_cutoff d); cbn; first [done|lia].
  - split; [lia|]. by destruct c.
Qed.

Context {I : Type} {RI : RevocationStore I} {SHA : Sha256}.

(** Calls on one guard, and writes and sweeps other replicas make on its list. *)
Inductive guard_op :=
| GRevoke (ck : Clock) (jti : str) (e : Z)
| GRevokeToken (ck : Clock) (issuer jti : str) (e : Z)
| GRevokeInstance (ck : Clock) (uid : str) (cutoff e : Z)
| GSweep (now : Z)
| GCheckToken (ck : Clock) (issuer jti uid : str) (iat : Z)
| GCheck (ck : Clock) (jti uid : str) (iat : Z)
| GIsRevoked (ck : Clock) (jti : str)
| GRemote (o : rev_op).

Definition apply_remote (i : I) (o : rev_op) : I :=
  match o with
  | RevJti j e => (rs_try_revoke i j e).1
  | RevToken iss j e => (rs_try_revoke_token i iss j e).1
  | RevInstance u c e => (rs_revoke_instance i u c e).1
  | RevSweep now => rs_sweep_expired i now
  end.

Definition apply_guard (g : Guarded.t I) (o : guard_op) : Guarded.t I :=
  match o with
  | GRevoke ck j e => (Guarded.try_revoke g ck j e).1
  | GRevokeToken ck iss j e => (Guarded.try_revoke_token g ck iss j e).1
  | GRevokeInstance ck u c e => (Guarded.revoke_instance g ck u c e).1
  | GSweep now => Guarded.sweep_expired g now
  | GCheckToken ck iss j u i => (Guarded.check_token g ck iss j u i).1
  | GCheck ck j u i => (Guarded.check g ck j u i).1
  | GIsRevoked ck j => (Guarded.is_revoked g ck j).1
  | GRemote o => Guarded.mk (apply_remote (inner g) o) (state g)
  end.

Definition run_guard (g : Guarded.t I) (ops : list guard_op) : Guarded.t I := fold_left apply_guard ops g.

(** Nothing runs past the second [e]; cutoffs are unsigned. *)
Definition remote_by (e : Z) (o : rev_op) : Prop :=
  match o with RevSweep now => now <= e | RevInstance _ c _ => 0 <= c | _ => True end.

Definition guard_by (e : Z) (o : guard_op) : Prop :=
  match o with
  | GRevoke ck _ _ | GRevokeToken ck _ _ _ | GCheckToken ck _ _ _ _ | GCheck ck _ _ _
  | GIsRevoked ck _ => epoch_seconds ck <= e
  | GRevokeInstance ck _ c _ => epoch_seconds ck <= e /\ 0 <= c
  | GSweep now => now <= e
  | GRemote o => remote_by e o
  end.

Lemma read_through_inner (g : Guarded.t I) ck st j i a : inner (read_through g ck st j i a).1 = inner g.
Proof. unfold read_through. by destruct (Guarded.lookup st ck a) as [? [|]]. Qed.

Lemma read_through_live (g : Guarded.t I) ck st j i a k c e : live st k c e -> live (state (read_through g ck st j i a).1) k c e.
Proof.
  intros Hl. unfold read_through. pose proof (lookup_revoked st ck a) as Hr.
  destruct (Guarded.lookup st ck a) as [st' [r|x]]; cbn [fst] in Hr;
    (assert (live st' k c e) by by eapply live_revoked); [|done].
  destruct r as [[]|]; cbn; by try apply live_remember.
Qed.

Lemma read_through_none (g : Guarded.t I) ck st j i a : (read_through g ck st j i a).2 = Ok None -> a = Ok None.
Proof.
  unfold read_through. destruct (lookup_answer st ck a) as [H|[e H]];
    destruct (Guarded.lookup st ck a) as [st' [r|x]]; cbn in *; try done; by intros [= ->].
Qed.

Lemma cached_cutoff_state st ck k iat : (cached_cutoff st ck k iat).1 = (cached st ck k).1.
Proof. unfold cached_cutoff. by destruct (cached st ck k). Qed.

(** A check answers "not revoked" only when the list itself just did. *)
Lemma check_token_none (g : Guarded.t I) ck issuer jti uid iat :
  (Guarded.check_token g ck issuer jti uid iat).2 = Ok None ->
  rs_check_token (inner g) issuer jti uid iat = Ok None.
Proof.
  unfold Guarded.check_token. repeat case_match; try done; simplify_eq; try done.
  all: by intros Hn%read_through_none.
Qed.

(** Reads write nothing to the list. *)
Lemma reads_inner (g : Guarded.t I) ck issuer jti uid iat :
  inner (Guarded.check_token g ck issuer jti uid iat).1 = inner g /\
  inner (Guarded.check g ck jti uid iat).1 = inner g /\
  inner (Guarded.is_revoked g ck jti).1 = inner g.
Proof.
  unfold Guarded.check_token, Guarded.check, Guarded.is_revoked.
  repeat split; repeat case_match; simplify_eq; by rewrite ?read_through_inner.
Qed.

(** Step over a cache lookup, keeping the live entry of [Hl]. *)
Ltac step_cached Hn Hl :=
  match goal with
  | |- context [cached ?st ?ck ?k] =>
      let H := fresh "Hlive" in
      pose proof (live_cached st ck _ _ _ k Hn Hl) as H; clear Hl; rename H into Hl;
      destruct (cached st ck k) as [? [?|]]; cbn [fst] in Hl; [done|]
  end.

(** Reads keep what is cached until [e]. *)
Lemma check_token_live (g : Guarded.t I) ck issuer jti uid iat k c e :
  epoch_seconds ck <= e -> live (state g) k c e ->
  live (state (Guarded.check_token g ck issuer jti uid iat).1) k c e.
Proof.
  intros Hn Hl. unfold Guarded.check_token. do 2 step_cached Hn Hl.
  pose proof (live_cached _ ck _ _ _ (cache_key (lit "instance") uid) Hn Hl) as Hl3.
  rewrite <- cached_cutoff_state with (iat := iat) in Hl3.
  destruct (cached_cutoff _ _ _ _) as [st3 [d|]]; [done|]. by apply read_through_live.
Qed.

Lemma check_live (g : Guarded.t I) ck jti uid iat k c e :
  epoch_seconds ck <= e -> live (state g) k c e -> live (state (Guarded.check g ck jti uid iat).1) k c e.
Proof.
  intros Hn Hl. unfold Guarded.check. step_cached Hn Hl.
  pose proof (live_cached _ ck _ _ _ (cache_key (lit "instance") uid) Hn Hl) as Hl3.
  rewrite <- cached_cutoff_state with (iat := iat) in Hl3.
  destruct (cached_cutoff _ _ _ _) as [st3 [d|]]; [done|]. by apply read_through_live.
Qed.

Lemma is_revoked_live (g : Guarded.t I) ck jti k c e :
  epoch_seconds ck <= e -> live (state g) k c e -> live (state (Guarded.is_revoked g ck jti).1) k c e.
Proof.
  intros Hn Hl. unfold Guarded.is_revoked. step_cached Hn Hl.
  match goal with |- context [Guarded.lookup ?st ck ?a] =>
    pose proof (lookup_revoked st ck a) as Hr; destruct (Guarded.lookup st ck a) as [st' [r|x]] end;
    cbn [fst] in Hr; (eapply live_revoked in Hl; [|exact Hr]); [|done].
  destruct r; [by apply live_remember|done].
Qed.

Lemma apply_guard_live g o k c e : guard_by e o -> live (state g) k c e ->
  live (state (apply_guard g o)) k c e.
Proof.
  intros Ho Hl. destruct o as [ck j x|ck i j x|ck u y x|now|ck i j u y|ck j u y|ck j|o]; cbn in *.
  - unfold Guarded.try_revoke. destruct (rs_try_revoke _ _ _) as [i r]. eapply live_revoked;
      [apply record_revoked|by apply live_remember].
  - unfold Guarded.try_revoke_token. destruct (rs_try_revoke_token _ _ _ _) as [i' r].
    eapply live_revoked; [apply record_revoked|by apply live_remember].
  - unfold Guarded.revoke_instance. destruct (rs_revoke_instance _ _ _ _) as [i r].
    eapply live_revoked; [apply record_revoked|by apply live_remember].
  - destruct Hl as (d & Hd & He & Hc). exists d. split; [|done]. cbn.
    apply map_lookup_filter_Some. split; [done|]. cbn. lia.
  - by apply check_token_live.
  - by apply check_live.
  - by apply is_revoked_live.
  - done.
Qed.

Lemma run_guard_live ops g k c e : Forall (guard_by e) ops -> live (state g) k c e ->
  live (state (run_guard g ops)) k c e.
Proof.
  revert g. induction ops as [|o ops IH]; intros g Hf Hl; [done|].
  apply Forall_cons in Hf as [Ho Hf]. apply IH; [done|]. by apply apply_guard_live.
Qed.

(** ** Against a list that keeps the contract *)

Context {RL : RevocationLaws I}.

Definition list_refuses (g : Guarded.t I) (i : RevocationIdentity) (e : Z) : Prop :=
  rl_wf (inner g) /\ rl_refuses (inner g) i e.

Lemma apply_remote_refuses s o i e : remote_by e o -> rl_wf s -> rl_refuses s i e ->
  rl_wf (apply_remote s o) /\ rl_refuses (apply_remote s o) i e.
Proof.
  intros Ho Hwf Hr. destruct o; cbn in *.
  - split; [by apply rl_revoke_wf|by apply rl_keep_revoke].
  - split; [by apply rl_revoke_token_wf|by apply rl_keep_token].
  - split; [by apply rl_instance_wf|by apply rl_keep_instance].
  - split; [by apply rl_sweep_wf|by apply rl_keep_sweep].
Qed.

(** What a guard operation does to the list. *)
Lemma apply_guard_inner g o : inner (apply_guard g o) =
  match o with
  | GRevoke _ j x => apply_remote (inner g) (RevJti j x)
  | GRevokeToken _ i j x => apply_remote (inner g) (RevToken i j x)
  | GRevokeInstance _ u c x => apply_remote (inner g) (RevInstance u c x)
  | GSweep now => apply_remote (inner g) (RevSweep now)
  | GRemote o => apply_remote (inner g) o
  | _ => inner g
  end.
Proof.
  destruct o as [ck j x|ck i j x|ck u y x|now|ck i j u y|ck j u y|ck j|o]; cbn; try done.
  - unfold Guarded.try_revoke. by destruct (rs_try_revoke _ _ _).
  - unfold Guarded.try_revoke_token. by destruct (rs_try_revoke_token _ _ _ _).
  - unfold Guarded.revoke_instance. by destruct (rs_revoke_instance _ _ _ _).
  - apply reads_inner.
  - apply (reads_inner g ck [] j u y).
  - apply (reads_inner g ck [] j [] 0).
Qed.

Lemma run_guard_refuses ops g i e : Forall (guard_by e) ops -> list_refuses g i e ->
  list_refuses (run_guard g ops) i e.
Proof.
  revert g. induction ops as [|o ops IH]; intros g Hf Hl; [done|].
  apply Forall_cons in Hf as [Ho Hf]. apply IH; [done|]. destruct Hl as [Hwf Hr].
  unfold list_refuses. rewrite apply_guard_inner.
  destruct o; cbn in Ho; try done; apply apply_remote_refuses; cbn; tauto.
Qed.

Lemma refused_check g ck i e : list_refuses g i e ->
  (Guarded.check_token g ck (ri_iss i) (ri_jti i) (ri_instance_uid i) (ri_iat i)).2 <> Ok None.
Proof. intros [Hwf Hr] H%check_token_none. by eapply rl_check. Qed.

(** A successful revocation through the guard. *)
Inductive revokes (g : Guarded.t I) (i : RevocationIdentity) (e : Z) : Guarded.t I -> Prop :=
| revokes_token ck g' o :
    Guarded.try_revoke_token g ck (ri_iss i) (ri_jti i) e = (g', Ok o) -> revokes g i e g'
| revokes_jti ck g' o :
    Guarded.try_revoke g ck (ri_jti i) e = (g', Ok o) -> revokes g i e g'
| revokes_instance ck cutoff g' : 0 <= ri_iat i <= cutoff ->
    Guarded.revoke_instance g ck (ri_instance_uid i) cutoff e = (g', Ok tt) -> revokes g i e g'.

Lemma revokes_refuses g i e g' : rl_wf (inner g) -> revokes g i e g' -> list_refuses g' i e.
Proof.
  intros Hwf Hr. unfold list_refuses. inversion Hr as [ck g2 o H|ck g2 o H|ck cutoff g2 Hc H]; subst g2.
  - unfold Guarded.try_revoke_token in H. destruct (rs_try_revoke_token _ _ _ _) as [s r] eqn:E.
    simplify_eq. cbn. split; [|by eapply rl_revoke_token].
    pose proof (rl_revoke_token_wf (inner g) (ri_iss i) (ri_jti i) e Hwf) as Hw. by rewrite E in Hw.
  - unfold Guarded.try_revoke in H. destruct (rs_try_revoke _ _ _) as [s r] eqn:E.
    simplify_eq. cbn. split; [|by eapply rl_revoke].
    pose proof (rl_revoke_wf (inner g) (ri_jti i) e Hwf) as Hw. by rewrite E in Hw.
  - unfold Guarded.revoke_instance in H. destruct (rs_revoke_instance _ _ _ _) as [s r] eqn:E.
    simplify_eq. cbn. split; [|by eapply rl_instance].
    pose proof (rl_instance_wf (inner g) (ri_instance_uid i) cutoff e) as Hw. rewrite E in Hw.
    apply Hw; [lia|done].
Qed.

Lemma token_hit (g : Guarded.t I) ck i c e : epoch_seconds ck <= e ->
  live (state g) (issued_cache_key (ri_iss i) (ri_jti i)) c e ->
  (Guarded.check_token g ck (ri_iss i) (ri_jti i) (ri_instance_uid i) (ri_iat i)).2 = Ok (Some ByJti).
Proof.
  intros Hn Hl. unfold Guarded.check_token. by destruct (live_hit _ _ _ _ _ Hn Hl) as (d & -> & _).
Qed.

Lemma instance_hit (g : Guarded.t I) ck i cutoff e : epoch_seconds ck <= e -> ri_iat i <= cutoff ->
  live (state g) (cache_key (lit "instance") (ri_instance_uid i)) (Some cutoff) e ->
  exists by_, (Guarded.check_token g ck (ri_iss i) (ri_jti i) (ri_instance_uid i) (ri_iat i)).2 =
              Ok (Some by_).
Proof.
  intros Hn Hi Hl. unfold Guarded.check_token.
  pose proof (live_cached _ ck _ _ _ (issued_cache_key (ri_iss i) (ri_jti i)) Hn Hl) as Hl1.
  destruct (cached (state g) _ _) as [st1 [?|]]; [by eexists|]. cbn [fst] in Hl1.
  pose proof (live_cached _ ck _ _ _ (cache_key (lit "jti") (ri_jti i)) Hn Hl1) as Hl2.
  destruct (cached st1 _ _) as [st2 [?|]]; [by eexists|]. cbn [fst] in Hl2.
  destruct (cached_cutoff_hit _ _ _ _ _ _ Hn Hl2 Hi) as [y ->]. by eexists.
Qed.
End Guard.

(** C37. The guard around a remote revocation list fails closed.  Once an
    identity is revoked through it, no check of the guard answers "not revoked"
    before the retention second of the revocation, whatever reads, writes and
    sweeps follow on this guard and on the shared list up to that second, and
    whatever state the circuit breaker is in; a check answers "not revoked" only
    when the list itself answered so to that very call; and a revocation is
    refused locally, without asking the list, even when writing it failed, if
    the cache had room. *)
Theorem guard_fails_closed {I : Type} {RI : RevocationStore I} {RL : RevocationLaws I} {SHA : Sha256}
    (g : Guarded.t I) (i : RevocationIdentity) (e : Z) (ops : list guard_op) :
  rl_wf (Guarded.inner g) -> Forall (guard_by e) ops ->
  (forall g' ck, revokes g i e g' ->
     (Guarded.check_token (run_guard g' ops) ck (ri_iss i) (ri_jti i) (ri_instance_uid i)
        (ri_iat i)).2 <> Ok None) /\
  (forall g ck, (Guarded.check_token g ck (ri_iss i) (ri_jti i) (ri_instance_uid i) (ri_iat i)).2 =
     Ok None ->
     rs_check_token (Guarded.inner g) (ri_iss i) (ri_jti i) (ri_instance_uid i) (ri_iat i) = Ok None) /\
  (forall ck ck', Guarded.epoch_seconds ck <= e -> Guarded.epoch_seconds ck' <= e ->
     (size (Guarded.revoked (Guarded.state g)) < Guarded.LOCAL_REVOKED_MAX)%nat ->
     (Guarded.check_token
        (run_guard (Guarded.try_revoke_token g ck (ri_iss i) (ri_jti i) e).1 ops) ck'
        (ri_iss i) (ri_jti i) (ri_instance_uid i) (ri_iat i)).2 = Ok (Some ByJti)) /\
  (forall ck ck' cutoff, Guarded.epoch_seconds ck <= e -> Guarded.epoch_seconds ck' <= e ->
     (size (Guarded.revoked (Guarded.state g)) < Guarded.LOCAL_REVOKED_MAX)%nat -> ri_iat i <= cutoff ->
     exists by_, (Guarded.check_token
        (run_guard (Guarded.revoke_instance g ck (ri_instance_uid i) cutoff e).1 ops) ck'
        (ri_iss i) (ri_jti i) (ri_instance_uid i) (ri_iat i)).2 = Ok (Some by_)).
Proof.
  intros Hwf Hops. split; [|split; [|split]].
  - intros g' ck Hr. eapply refused_check, run_guard_refuses; [done|]. by eapply revokes_refuses.
  - intros g0 ck. apply check_token_none.
  - intros ck ck' Hn Hn' Hs. eapply token_hit; [done|]. apply run_guard_live; [done|].
    unfold Guarded.try_revoke_token. destruct (rs_try_revoke_token _ _ _ _) as [s r].
    eapply live_revoked; [apply record_revoked|by apply remember_live].
  - intros ck ck' cutoff Hn Hn' Hs Hi. eapply instance_hit; [done|done|]. apply run_guard_live; [done|].
    unfold Guarded.revoke_instance. destruct (rs_revoke_instance _ _ _ _) as [s r].
    eapply live_revoked; [apply record_revoked|by apply remember_live].
Qed.

(** * The circuit breaker *)

Section Breaker.
Import Guarded.

Local Opaque LOCAL_REVOKED_MAX MAX_IN_FLIGHT_READS.

(** What holds between any two critical sections: the reads counted in flight
    are those with a permit not yet released, and a probe the breaker waits for
    belongs to a read under way. *)
Record guard_inv (s : System) : Prop := {
  gi_flight : in_flight (sy_state s) = (length (sy_permits s) + sy_recorded s)%nat;
  gi_limit : (in_flight (sy_state s) <= MAX_IN_FLIGHT_READS)%nat;
  gi_cache : (size (revoked (sy_state s)) <= LOCAL_REVOKED_MAX)%nat;
  gi_probe p : probe (sy_state s) = Some p -> Some p ∈ sy_permits s;
}.

Lemma begin_ok st ck st' p : begin_lookup st ck = (st', Ok p) ->
  (in_flight st < MAX_IN_FLIGHT_READS)%nat /\ in_flight st' = S (in_flight st) /\
  revoked st' = revoked st /\ open_until st' = open_until st /\
  match open_until st with
  | Some u => u <= monotonic ck /\ probe st = None /\ probe st' = p /\ is_Some p
  | None => p = None /\ probe st' = probe st
  end.
Proof.
  unfold begin_lookup. case_match eqn:E; [done|]. apply orb_false_iff in E as [E1 E2].
  apply Nat.leb_gt in E1. destruct (open_until st) as [u|] eqn:Eo; intros [= <- <-]; cbn; [|by rewrite Eo].
  apply orb_false_iff in E2 as [E2 E3]. b2p.
  repeat split; try done; try lia. by apply eq_None_not_Some.
Qed.

Lemma begin_err st ck st' e : begin_lookup st ck = (st', Err e) ->
  st' = st /\ ((MAX_IN_FLIGHT_READS <= in_flight st)%nat \/
    exists u, open_until st = Some u /\ (monotonic ck < u \/ is_Some (probe st))).
Proof.
  unfold begin_lookup. case_match eqn:E; [|by case_match]. intros [= <- _]. split; [done|].
  apply orb_true_iff in E as [E|E]; [left; by apply Nat.leb_le|right].
  destruct (open_until st) as [u|]; [|done]. exists u. split; [done|].
  apply orb_true_iff in E as [E|E]; b2p; [left; lia|by right].
Qed.

Lemma record_fields st ck b p :
  in_flight (record_result st ck b p) = in_flight st /\
  (probe (record_result st ck b p) = probe st /\ (is_Some p -> probe st <> p) \/
   probe (record_result st ck b p) = None).
Proof.
  unfold record_result. set (o := bool_decide (is_Some p) && bool_decide (probe st = p)).
  assert (Ho : o = true \/ (is_Some p -> probe st <> p)).
  { unfold o. do 2 case_bool_decide; [by left|by right|by right|by right]. }
  destruct b; cbn; (split; [done|]); destruct o; first [by right|left; naive_solver].
Qed.

Lemma size_remember st ck k c e : (size (revoked st) <= LOCAL_REVOKED_MAX)%nat ->
  (size (revoked (remember st ck k c e)) <= LOCAL_REVOKED_MAX)%nat.
Proof.
  intros H. unfold remember, set_revoked. destruct (e <? _); [done|].
  destruct (revoked st !! k) as [d|] eqn:E; [cbn [revoked]; by rewrite map_size_insert_Some|].
  destruct (_ <? _)%nat eqn:Es; [|done]. cbn [revoked].
  apply Nat.ltb_lt in Es. rewrite map_size_insert_None by done. lia.
Qed.

Lemma size_cached st ck k : (size (revoked (cached st ck k).1) <= size (revoked st))%nat.
Proof.
  unfold cached. destruct (revoked st !! k) as [d|]; [|done]. destruct (_ >=? _); [done|]. cbn.
  apply map_subseteq_size, delete_subseteq.
Qed.

Lemma rest_of_guard st ck k c e :
  (in_flight (remember st ck k c e) = in_flight st /\ probe (remember st ck k c e) = probe st) /\
  (in_flight (cached st ck k).1 = in_flight st /\ probe (cached st ck k).1 = probe st).
Proof.
  unfold remember, cached. split.
  - destruct (e <? _); [done|]. destruct (revoked st !! k); [done|]. by destruct (size _ <? _)%nat.
  - destruct (revoked st !! k); [|done]. by destruct (_ >=? _).
Qed.

Lemma guard_step s s' : guard_inv s -> step s s' -> guard_inv s'.
Proof.
  intros [Hf Hl Hc Hp] Hs.
  destruct Hs as [st ps n ck st' p H|st ps n ck st' e H|st l p r n ck b|st ps n|st ps n ck b
                 |st ps n ck k c e|st ps n ck k|st ps n now]; cbn in *.
  - apply begin_ok in H as (Hlt & Hi & Hr & _ & Ho). split; cbn; rewrite ?Hi, ?Hr; try done; try lia.
    intros q Hq. destruct (open_until st).
    + destruct Ho as (_ & _ & Hpr & _). rewrite Hq in Hpr. subst p. by left.
    + destruct Ho as [_ Ho]. right. apply Hp. by rewrite <- Ho.
  - apply begin_err in H as [-> _]. by split.
  - destruct (record_fields st ck b p) as [Hi Hpr]. rewrite length_app in Hf. cbn in Hf.
    split; cbn; rewrite ?Hi, ?record_revoked, ?length_app; try done; try lia.
    intros q Hq. destruct Hpr as [[Hq' Hne]|Hq']; [|congruence].
    rewrite Hq' in Hq. specialize (Hp q Hq). rewrite elem_of_app, elem_of_cons in Hp.
    rewrite elem_of_app. destruct Hp as [?|[<-|?]]; [by left| |by right].
    exfalso. by apply Hne.
  - split; cbn; try done; try lia.
  - destruct (record_fields st ck b None) as [Hi Hpr]. split; cbn; rewrite ?Hi, ?record_revoked; try done.
    intros q Hq. destruct Hpr as [[Hq' _]|Hq']; [|congruence]. apply Hp. congruence.
  - destruct (rest_of_guard st ck k c e) as [[Hi Hpr] _]. split; cbn; rewrite ?Hi, ?Hpr; try done.
    by apply size_remember.
  - destruct (rest_of_guard st ck k None 0) as [_ [Hi Hpr]]. split; cbn; rewrite ?Hi, ?Hpr; try done.
    pose proof (size_cached st ck k). lia.
  - split; cbn; try done. etrans; [|exact Hc]. apply map_subseteq_size, map_filter_subseteq.
Qed.

Lemma reachable_inv s : reachable s -> guard_inv s.
Proof.
  intros H. unfold reachable in H.
  eapply (rtc_ind_r (fun s => guard_inv s)); [| |exact H].
  - split; cbn; try done; try lia. rewrite map_size_empty. lia.
  - intros; by eapply guard_step.
Qed.
End Breaker.


(** * A concrete guard *)

Module GuardSample.

(** A guard around the single-node list, and one around the list in the state store. *)
Definition guard : Guarded.t InMemoryRevocation.t := Guarded.new InMemoryRevocation.new.

Definition state_list : StateRevocation.t InMemory.t := StateRevocation.new InMemory.new.
Definition shared_guard : Guarded.t (StateRevocation.t InMemory.t) := Guarded.new state_list.

Definition identity : RevocationIdentity := mkRevocationIdentity (lit "idp") (lit "j1") (lit "u1") 100.
Definition clock : Guarded.Clock := Guarded.mkClock 0 100.

Definition ops : list guard_op :=
  [GRevokeInstance clock (lit "u2") 90 500; GSweep 300; GRemote (RevSweep 500);
   GCheckToken clock (lit "idp") (lit "j1") (lit "u1") 100].

(** Three failed writes open the circuit. *)
Definition opened : Guarded.GuardState :=
  let fail st := Guarded.record_result st clock false None in fail (fail (fail Guarded.guard_default)).

Lemma opened_reachable : Guarded.reachable (Guarded.mkSystem opened [] 0).
Proof.
  unfold Guarded.reachable, opened. cbn zeta.
  do 3 (eapply rtc_r; [|apply Guarded.step_write]). apply rtc_refl.
Qed.

Lemma opened_shut : Guarded.open_until opened = Some (10 ^ 9).
Proof. reflexivity. Qed.
End GuardSample.

Lemma guard_fails_closed_witness :
  (@Guarded.check_token _ (@StateRevocation.list _ (@InMemory.store ascii_tables) toy_sha256 ascii_tables) toy_sha256
     (@run_guard _ (@StateRevocation.list _ (@InMemory.store ascii_tables) toy_sha256 ascii_tables) toy_sha256
        (@Guarded.try_revoke_token _ (@StateRevocation.list _ (@InMemory.store ascii_tables) toy_sha256 ascii_tables)
           toy_sha256 GuardSample.shared_guard GuardSample.clock (lit "idp") (lit "j1") 1000).1
        GuardSample.ops) GuardSample.clock (lit "idp") (lit "j1") (lit "u1") 100).2 = Ok (Some ByJti).
Proof.
  refine (proj1 (proj2 (proj2 (@guard_fails_closed _
    (@StateRevocation.list _ (@InMemory.store ascii_tables) toy_sha256 ascii_tables)
    (@state_list_laws _ ascii_tables (@InMemory.store ascii_tables)
       (@InMemoryFacts.store_laws ascii_tables) toy_sha256)
    toy_sha256 GuardSample.shared_guard GuardSample.identity 1000 GuardSample.ops _ _)))
    GuardSample.clock GuardSample.clock _ _ _).
  - apply InMemoryFacts.wf_new.
  - repeat constructor; cbn; lia.
  - cbn. lia.
  - cbn. lia.
  - apply Nat.ltb_lt. vm_compute. reflexivity.
Defined.

