(* ===== verification/TokenRoutes.v ===== *)
(** The token endpoints of the harness: the gateway's token signer
    ([av-harness/src/authz.rs]), token exchange ([routes.rs]), introspection,
    holder and operator revocation ([token_routes.rs]) and the bearer parsing
    they share ([pipeline.rs]). *)

From S2P Require Import Prelude Rust CoreBase Json Core Identity Validator Serde Events Exchange.

(** * Bearer credentials *)

(** [single_header]: the values of one header name. *)
Definition single_header {A} (values : list A) : result (option A) unit :=
  match values with
  | [] => Ok None
  | [v] => Ok (Some v)
  | _ => Err tt
  end.

(** [str::split_at_checked], at a byte index. *)
Fixpoint split_at_checked (n : Z) (s : str) : option (str * str) :=
  if n =? 0 then Some ([], s)
  else match s with
       | [] => None
       | c :: s' =>
           if n <? len_utf8 c then None
           else match split_at_checked (n - len_utf8 c) s' with
                | Some (a, b) => Some (c :: a, b)
                | None => None
                end
       end.

Definition ascii_lower (c : Z) : Z := if is_ascii_uppercase c then c + 32 else c.

Definition eq_ignore_ascii_case (a b : str) : bool := str_eqb (map ascii_lower a) (map ascii_lower b).

Fixpoint trim_sp_tab (s : str) : str :=
  match s with
  | c :: s' => if (c =? 32) || (c =? 9) then trim_sp_tab s' else s
  | [] => []
  end.

Definition strip_bearer_scheme (value : str) : option str :=
  match split_at_checked 6 value with
  | None => None
  | Some (scheme, rest0) =>
      if negb (eq_ignore_ascii_case scheme (lit "Bearer")) then None
      else
      let rest := trim_sp_tab rest0 in
      if str_len rest =? str_len value - str_len scheme then None
      else if str_eqb rest [] then None
      else Some rest
  end.

(** Both sides are compared byte by byte; the configured one is lowercased. *)
Definition digest_matches (a b : str) : bool :=
  (str_len a =? 64) && (str_len b =? 64)
  && (fold_left (fun d ab => Z.lor d (Z.lxor ab.1 (ascii_lower ab.2))) (zip (as_bytes a) (as_bytes b)) 0 =? 0).

Section Bearer.
Context {SHA : Sha256}.

(** [auth]: the [Authorization] values, [None] for one that is not text. *)
Definition bearer_digest (auth : list (option str)) : option str :=
  match single_header auth with
  | Ok (Some (Some value)) =>
      match strip_bearer_scheme value with
      | Some token =>
          if (str_len token <? 32) || (str_len token >? 4096) then None
          else Some (sha256_hex (as_bytes token))
      | None => None
      end
  | _ => None
  end.
End Bearer.

(** * Responses *)

Record Response := mkResponse { status : Z; headers : list (str * str); body : option Value }.

Definition response (status : Z) (body : Value) : Response :=
  mkResponse status
    ([(lit "cache-control", lit "no-store"); (lit "pragma", lit "no-cache")]
     ++ if status =? 503 then [(lit "retry-after", lit "5")] else []) (Some body).

Definition error_body (code : str) : Value := Object (member "error" (JString code)).

Definition unavailable : Response := response 503 (error_body (lit "temporarily_unavailable")).

Definition unauthorized : Response :=
  let r := response 401 (error_body (lit "invalid_client")) in
  mkResponse (status r) (headers r ++ [(lit "www-authenticate", lit "Bearer")]) (body r).

Definition oauth_error (error description : str) : Value :=
  Object (member "error" (JString error) ++ member "error_description" (JString description)).

Definition oauth_unavailable : Response :=
  mkResponse 503 [(lit "retry-after", lit "5")]
    (Some (oauth_error (lit "temporarily_unavailable")
             (lit "the token revocation list is unavailable; retry shortly"))).

Definition plain_status (s : Z) : Response := mkResponse s [] None.

(** [slice.join(" ")]. *)
Fixpoint join_space (l : list str) : str :=
  match l with
  | [] => []
  | [s] => s
  | s :: l' => s ++ [32] ++ join_space l'
  end.

(** * State *)

Record OperatorToken := mkOperator { op_name : str; op_sha256 : str }.
Record IntrospectionToken := mkIntrospection { it_backend : str; it_sha256 : str }.

(** [serde_urlencoded] and [serde_json] reading a request body. *)
Record AdminRevocation := mkAdminRevocation {
  ar_jti : option str; ar_instance_uid : option str; ar_token_kind : option str;
}.

Class BodyReaders := {
  form_pairs : list Z -> option (list (str * str));
  read_exchange_form : list Z -> result TokenExchangeRequest str;
  read_token_form : list Z -> option str;
  read_admin_revocation : list Z -> option AdminRevocation;
}.

Section Routes.
Context {TL : TokenLibs} {EL : ExchangeLibs} {SJ : SerdeJson} {BR : BodyReaders}.
Context {SHA : Sha256} {UT : UnicodeTables}.
Context {U X : Type} {RU : RevocationStore U} {RX : RevocationStore X}.

(** [TokenSigner]. *)
Record TokenSigner := mkTokenSigner { ts_key : EncodingKey; ts_kid : str }.

Definition signer_header (kid typ : str) : Header := mkHeader EdDSA (Some kid) (Some typ) None (Some None).

Definition sign_with_typ (s : TokenSigner) (e : ExchangedClaims) (typ : str) : result str str :=
  encode (signer_header (ts_kid s) typ) e (ts_key s).

Definition sign (s : TokenSigner) (e : ExchangedClaims) : result str str := sign_with_typ s e (lit "JWT").

Definition decoding_key (s : TokenSigner) : DecodingKey := public_key (ts_key s).

(** The parts of [AppState] and its configuration these routes use.  The
    validator's own revocation list is [gw_nhi]; the exchanged tokens have
    their own, [gw_exchanged]. *)
Record Gateway := mkGateway {
  gw_identity : option (ValidatorConfig * KeySet);
  gw_nhi : option U;
  gw_exchanged : X;
  gw_signer : option TokenSigner;
  gw_workload : bool;
  cfg_token_exchange_enabled : bool;
  cfg_token_exchange_ttl_s : Z;
  cfg_audience : str;
  cfg_backends : list str;
  cfg_max_delegation_depth : nat;
  cfg_introspection_tokens : list IntrospectionToken;
  cfg_operator_tokens : list OperatorToken;
}.

Definition set_nhi (g : Gateway) (u : U) : Gateway :=
  mkGateway (gw_identity g) (Some u) (gw_exchanged g) (gw_signer g) (gw_workload g)
    (cfg_token_exchange_enabled g) (cfg_token_exchange_ttl_s g) (cfg_audience g) (cfg_backends g)
    (cfg_max_delegation_depth g) (cfg_introspection_tokens g) (cfg_operator_tokens g).

Definition set_exchanged (g : Gateway) (x : X) : Gateway :=
  mkGateway (gw_identity g) (gw_nhi g) x (gw_signer g) (gw_workload g)
    (cfg_token_exchange_enabled g) (cfg_token_exchange_ttl_s g) (cfg_audience g) (cfg_backends g)
    (cfg_max_delegation_depth g) (cfg_introspection_tokens g) (cfg_operator_tokens g).

(** The validator, reading the revocation list as it is now. *)
Definition validator (g : Gateway) : option (ValidatorConfig * KeySet) :=
  match gw_identity g with
  | None => None
  | Some (cfg, ks) =>
      Some (match gw_nhi g with Some u => set_revocation_store cfg u | None => cfg end, ks)
  end.

(** * Exchange *)

Definition exchange_params (g : Gateway) (vi : ValidatedIdentity) (target : str)
    (requested : option str) (now_s : Z) : ExchangeParams :=
  mkExchangeParams (vi_claims vi) (chain_tokens vi) (total_delegation_depth vi) target requested
    (instance_uid (vi_claims vi)) now_s (Z.min (cfg_token_exchange_ttl_s g) 900) (cfg_audience g)
    (cfg_max_delegation_depth g) (cfg_backends g).

Definition classify_identity_error (e : IdentityError) : str :=
  match e with
  | Jwks _ => lit "identity validator misconfigured"
  | _ => lit "identity validation failed"
  end.

Definition bad_request (code description : str) : Response :=
  mkResponse 400 [] (Some (oauth_error code description)).

Definition server_error (description : str) : Response :=
  mkResponse 500 [] (Some (oauth_error (lit "server_error") description)).

(** Validation of the subject or the actor token, or the response to give. *)
Definition validate_or_respond (cfg : ValidatorConfig) (ks : KeySet) (now_s : Z) (token : str)
  : result ValidatedIdentity Response :=
  match Validator.validate cfg ks now_s token with
  | Ok v => Ok v
  | Err (RevocationUnavailable _) => Err oauth_unavailable
  | Err e => Err (bad_request (lit "invalid_request") (classify_identity_error e))
  end.

Definition exchange_error_code (e : ExchangeError) : str :=
  match e with
  | EmptyIntersection | ScopeExceedsSubject _ | InvalidScopes => lit "invalid_scope"
  | DelegationExceeded _ _ | ActorNotDirect => lit "invalid_grant"
  | TargetNotAllowed _ => lit "invalid_target"
  | _ => lit "invalid_request"
  end.

Definition read_actor (cfg : ValidatorConfig) (ks : KeySet) (now_s : Z) (req : TokenExchangeRequest)
  : result (option ValidatedIdentity) Response :=
  match rq_actor_token req, rq_actor_token_type req with
  | None, None => Ok None
  | Some token, Some typ =>
      if str_eqb typ JWT_TOKEN_TYPE
      then let? a := validate_or_respond cfg ks now_s token in Ok (Some a)
      else Err (bad_request (lit "invalid_request") (lit "unsupported actor_token_type: " ++ fmt_debug typ))
  | _, _ => Err (bad_request (lit "invalid_request")
                   (lit "actor_token and actor_token_type must be sent together"))
  end.

Definition exchange_actor (a : ValidatedIdentity) : ExchangeActor :=
  mkExchangeActor (vi_claims a) (chain_tokens a).

(** What the exchange endpoint does with a request: hand a workload assertion to
    the workload grant, refuse, or issue. *)
Inductive ExchangeReply :=
| WorkloadGrant
| Refuse (r : Response)
| Issue (r : TokenExchangeResponse).

Definition JWT_BEARER_GRANT_TYPE : str := lit "urn:ietf:params:oauth:grant-type:jwt-bearer".

(** From the validated identities to the signed token. *)
Definition issue_exchanged (g : Gateway) (now_s : Z) (uid : str) (p : ExchangeParams)
    (actor : option ExchangeActor) : result TokenExchangeResponse Response :=
  let? exchanged := map_err (fun e => bad_request (exchange_error_code e) (exchange_error_to_string e))
                      (build_exchanged_claims_with_actor uid p actor) in
  let? signer := ok_or (gw_signer g)
                   (server_error (lit "token exchange is enabled but no signing key is configured")) in
  let? jwt := map_err (fun e => server_error (lit "token signing failed: " ++ e)) (sign signer exchanged) in
  let c := xc_claims exchanged in
  Ok (mkExchangeResponse jwt JWT_TOKEN_TYPE (lit "Bearer") (sat_sub (exp c) now_s)
        (match scopes c with [] => None | l => Some (join_space l) end)).

(** [now_v] and [now_s] are the clock at the validations and after them. *)
Definition token_exchange_inner (g : Gateway) (now_v now_s : Z) (uid : str) (bytes : list Z)
  : ExchangeReply :=
  let grant := match form_pairs bytes with
               | Some pairs => snd <$> List.find (fun kv => str_eqb kv.1 (lit "grant_type")) pairs
               | None => None
               end in
  if bool_decide (grant = Some JWT_BEARER_GRANT_TYPE) then WorkloadGrant
  else
  let reply :=
    let? _ := if cfg_token_exchange_enabled g then Ok tt else Err (plain_status 404) in
    let? (cfg, ks) := ok_or (validator g)
                        (server_error (lit "token exchange requires an identity validator")) in
    let? req := map_err (fun e => bad_request (lit "invalid_request")
                                    (lit "invalid token exchange request: " ++ e))
                  (read_exchange_form bytes) in
    let? _ := if str_eqb (rq_grant_type req) TOKEN_EXCHANGE_GRANT_TYPE then Ok tt
              else Err (bad_request (lit "unsupported_grant_type")
                          (lit "unsupported grant_type: " ++ fmt_debug (rq_grant_type req))) in
    let? _ := if str_eqb (rq_subject_token_type req) JWT_TOKEN_TYPE then Ok tt
              else Err (bad_request (lit "invalid_request")
                          (lit "unsupported subject_token_type: " ++ fmt_debug (rq_subject_token_type req))) in
    let? validated := validate_or_respond cfg ks now_v (rq_subject_token req) in
    let? _ := match cfg_backends g with
              | [] => Err (bad_request (lit "invalid_target")
                             (lit "no [[backends]] are configured, so no exchange audience is permitted"))
              | _ => Ok tt
              end in
    let? actor := read_actor cfg ks now_v req in
    issue_exchanged g now_s uid
      (exchange_params g validated (rq_audience req) (rq_scope req) now_s) (exchange_actor <$> actor) in
  match reply with Ok r => Issue r | Err r => Refuse r end.

(** The failures of the request pipeline, by the text they carry; a typed source is
    kept for the logs only. *)
Inductive PipelineError :=
| BadRequest (context : str)
| Unauthorized (reason : str)
| Blocked (context : str)
| Upstream (context : str)
| UpstreamTimeout (context : str)
| Abort (reason : str)
| Unavailable (context : str).

Definition exchange_token_for (g : Gateway) (now_s : Z) (uid : str) (validated : option ValidatedIdentity)
    (target requested : str) : result str PipelineError :=
  let refused reason := Blocked (lit "backend token exchange failed: " ++ reason) in
  let? signer := ok_or (gw_signer g)
                   (Unavailable (lit "backend token exchange is not configured on this gateway")) in
  let? vi := ok_or validated (refused (lit "no validated caller identity")) in
  let? exchanged := map_err (fun e => refused (exchange_error_to_string e))
                      (build_exchanged_claims uid (exchange_params g vi target (Some requested) now_s)) in
  map_err (fun _ => Unavailable (lit "backend token exchange could not sign a token"))
    (sign_with_typ signer exchanged (lit "av-tool+jwt")).

Definition tool_scope (tool : str) : str := lit "tool:" ++ tool.

Definition exchange_for_backend (g : Gateway) (now_s : Z) (uid : str) (validated : option ValidatedIdentity)
    (target tool : str) : result str PipelineError :=
  exchange_token_for g now_s uid validated target (tool_scope tool).

(** * Introspection *)

Definition verify_exchange (g : Gateway) (now_s : Z) (token : str) (audiences : list str)
    (for_revocation : bool) : result ExchangedClaims IdentityError :=
  if str_len token >? 16 * 1024 then Err (Malformed (lit "token exceeds 16 KiB"))
  else
  let? signer := ok_or (gw_signer g) (Verification (lit "exchange signer unavailable")) in
  let? header := map_err (fun _ => Verification (lit "invalid token")) (decode_header token) in
  verify_exchanged_token token
    (mkExchangedValidation (decoding_key signer) (ts_kid signer) (cfg_audience g) audiences
       (cfg_max_delegation_depth g) now_s (default [] (h_typ header)) for_revocation).

Definition inspect (g : Gateway) (now_s : Z) (token : str) (audiences : list str)
  : result ExchangedClaims IdentityError :=
  let? e := verify_exchange g now_s token audiences false in
  let? upstream := ok_or (match gw_identity g with Some _ => gw_nhi g | None => None end)
                     (RevocationUnavailable (lit "identity revocation is not configured")) in
  let? _ := check_exchanged_revocation e (gw_exchanged g) upstream in
  Ok e.

Definition active_body (e : ExchangedClaims) : Value :=
  let c := xc_claims e in
  Object (member "active" (Bool true) ++ member "scope" (JString (join_space (scopes c)))
          ++ member "client_id" (ser_opt JString (azp c)) ++ member "sub" (JString (sub c))
          ++ member "aud" (serialize_audience (aud c)) ++ member "iss" (JString (iss c))
          ++ member "iat" (ser_u (iat c)) ++ member "exp" (ser_u (exp c))
          ++ member "jti" (JString (jti c)) ++ member "token_type" (JString (lit "Bearer"))).

Definition inactive_body : Value := Object (member "active" (Bool false)).

(** [now_s] is the clock at the verification, [now_r] when the answer is written. *)
Definition introspect_inner (g : Gateway) (now_s now_r : Z) (auth : list (option str)) (bytes : list Z)
  : Response :=
  match bearer_digest auth with
  | None => unauthorized
  | Some digest =>
      match List.find (fun c => digest_matches digest (it_sha256 c)) (cfg_introspection_tokens g) with
      | None => unauthorized
      | Some client =>
          match read_token_form bytes with
          | None => response 400 (error_body (lit "invalid_request"))
          | Some token =>
              match inspect g now_s token [it_backend client] with
              | Ok e => if exp (xc_claims e) >? now_r then response 200 (active_body e)
                        else response 200 inactive_body
              | Err (RevocationUnavailable _) => unavailable
              | Err _ => response 200 inactive_body
              end
          end
      end
  end.

(** * Revocation *)

Definition has_gateway_signature (g : Gateway) (token : str) : bool :=
  if str_len token >? 16 * 1024 then false
  else match gw_signer g with
       | None => false
       | Some signer =>
           match rsplit_once (lit ".") token with
           | None => false
           | Some (message, signature) =>
               match split_once (lit ".") message with
               | None => false
               | Some (header, claims) =>
                   if str_eqb header [] || str_eqb claims [] || str_eqb signature []
                      || contains (lit ".") claims
                   then false
                   else crypto_verify signature (as_bytes message) (decoding_key signer)
               end
           end
       end.

Definition workload_issuer (g : Gateway) : str := cfg_audience g ++ lit "#workload".

Definition is_workload_token (g : Gateway) (token : str) : bool :=
  if negb (gw_workload g) || negb (has_gateway_signature g token) then false
  else match nth_error (split_on 46 token) 1 with
       | None => false
       | Some claims =>
           match b64url_decode claims with
           | Err _ => false
           | Ok bytes =>
               match from_bytes bytes with
               | Err _ => false
               | Ok v => match value_get (lit "iss") v ≫= as_str with
                         | Some i => str_eqb i (workload_issuer g)
                         | None => false
                         end
               end
           end
       end.

(** The claims to revoke, and whether they are of an exchanged token. *)
Definition revocation_target (g : Gateway) (now_s : Z) (cfg : ValidatorConfig) (ks : KeySet) (token : str)
  : result (option (NhiClaims * bool)) str :=
  match verify_exchange g now_s token (cfg_backends g) true with
  | Ok e => Ok (Some (xc_claims e, true))
  | Err _ =>
      if has_gateway_signature g token && negb (is_workload_token g token) then Ok None
      else match validate_for_revocation cfg ks now_s token with
           | Ok vi => Ok (Some (vi_claims vi, false))
           | Err (UnknownKid kid) =>
               if match gw_signer g with Some s => str_eqb (ts_kid s) kid | None => false end
               then Ok None else Err (lit "identity key may be rotating")
           | Err (RevocationUnavailable reason) => Err reason
           | Err _ => Ok None
           end
  end.

Definition revoked_identity (now_s : Z) (c : NhiClaims) : AgentIdentity :=
  mkAgentIdentity (version c) (charter_of (charter c)) (instance_uid c) (Some (sat_sub (exp c) now_s)).

Definition revoked_payload (kind : str) (c : NhiClaims) : Value :=
  Object (member "action" (JString (lit "token_revoked")) ++ member "method" (JString (lit "rfc7009"))
          ++ member "token_kind" (JString kind) ++ member "jti" (JString (jti c))
          ++ member "iss" (JString (iss c)) ++ member "sub" (JString (sub c))
          ++ member "token_iat" (ser_u (iat c)) ++ member "token_exp" (ser_u (exp c))).

(** Sweep one list, then revoke the token within its issuer. *)
Definition sweep_and_revoke {R} `{RevocationStore R} (store : R) (now_s : Z) (c : NhiClaims) (leeway : Z)
  : R * result RevokeOutcome str :=
  rs_try_revoke_token (rs_sweep_expired store now_s) (iss c) (jti c) (sat_add (exp c) leeway).

Definition revoke_verified (g : Gateway) (now_s : Z) (token : str)
  : Gateway * result (option (AgentIdentity * Value)) str :=
  match validator g, gw_nhi g with
  | Some (cfg, ks), Some nhi =>
      match revocation_target g now_s cfg ks token with
      | Err e => (g, Err e)
      | Ok None => (g, Ok None)
      | Ok (Some (c, exchanged)) =>
          let '(g', outcome) :=
            if exchanged : bool
            then let '(x, o) := sweep_and_revoke (gw_exchanged g) now_s c (leeway_secs cfg) in (set_exchanged g x, o)
            else let '(u, o) := sweep_and_revoke nhi now_s c (leeway_secs cfg) in (set_nhi g u, o) in
          (g', match outcome with
               | Err e => Err e
               | Ok AlreadyRevoked => Ok None
               | Ok Revoked =>
                   Ok (Some (revoked_identity now_s c,
                             revoked_payload (if exchanged : bool then lit "exchanged" else lit "nhi") c))
               end)
      end
  | _, _ => (g, Ok None)
  end.

(** The handler; the audit record of a new revocation goes to [record_revocation]. *)
Definition revoke_inner (g : Gateway) (now_s : Z) (bytes : list Z)
  : Gateway * Response * option (AgentIdentity * Value) :=
  match gw_identity g with
  | None => (g, plain_status 404, None)
  | Some _ =>
      match read_token_form bytes with
      | None => (g, response 400 (error_body (lit "invalid_request")), None)
      | Some token =>
          match revoke_verified g now_s token with
          | (g', Ok audit) => (g', mkResponse 200 [(lit "cache-control", lit "no-store")] None, audit)
          | (g', Err _) => (g', unavailable, None)
          end
      end
  end.

Definition valid_id (value : str) (limit : nat) : bool :=
  negb (is_blank value) && (length value <=? limit)%nat && negb (existsb is_control value)
  && negb (contains_bidi_or_zero_width value).

Definition fails_if (o : option str) (f : str -> bool) : bool := match o with Some s => f s | None => false end.

Definition admin_request_bad (r : AdminRevocation) : bool :=
  eqb (bool_decide (is_Some (ar_jti r))) (bool_decide (is_Some (ar_instance_uid r)))
  || fails_if (ar_jti r) (fun id => negb (valid_id id 256))
  || fails_if (ar_instance_uid r) (fun id => negb (valid_id id 128))
  || fails_if (ar_token_kind r) (fun k => negb (str_eqb k (lit "nhi") || str_eqb k (lit "exchanged")))
  || (bool_decide (is_Some (ar_instance_uid r)) && bool_decide (ar_token_kind r = Some (lit "exchanged"))).

Definition admin_write {R} `{RevocationStore R} (store : R) (now_s cutoff expires_at : Z) (r : AdminRevocation)
  : R * result unit str :=
  let swept := rs_sweep_expired store now_s in
  match ar_jti r, ar_instance_uid r with
  | Some j, _ => let '(s, o) := rs_try_revoke swept j (sat_add now_s 86400) in (s, let? _ := o in Ok tt)
  | None, Some uid => rs_revoke_instance swept uid cutoff expires_at
  | None, None => (swept, Err (lit "missing revocation target"))
  end.

Definition admin_cutoff (cfg : ValidatorConfig) (now_s : Z) : Z := sat_add now_s (leeway_secs cfg).
Definition admin_expires_at (cfg : ValidatorConfig) (now_s : Z) : Z :=
  sat_add (sat_add (admin_cutoff cfg now_s) MAX_TTL_SECS) (leeway_secs cfg).

Definition admin_payload (operator : str) (cutoff : Z) (r : AdminRevocation) : Value :=
  Object (member "action" (JString (lit "token_revoked")) ++ member "method" (JString (lit "operator"))
          ++ member "operator" (JString operator) ++ member "jti" (ser_opt JString (ar_jti r))
          ++ member "instance_uid" (ser_opt JString (ar_instance_uid r))
          ++ member "token_kind" (JString (default (lit "nhi") (ar_token_kind r)))
          ++ member "issued_at_or_before" (ser_opt (fun _ => ser_u cutoff) (ar_instance_uid r))).

Definition admin_identity (r : AdminRevocation) : AgentIdentity :=
  mkAgentIdentity (lit "operator") (charter_of (lit "revocation"))
    (default (lit "operator-revocation") (ar_instance_uid r)) None.

(** [audited] is what [record_revocation] reports of the audit record. *)
Definition admin_revoke_inner (g : Gateway) (now_s : Z) (auth : list (option str)) (bytes : list Z)
    (audited : bool) : Gateway * Response * option (AgentIdentity * Value) :=
  match bearer_digest auth with
  | None => (g, unauthorized, None)
  | Some digest =>
      match List.find (fun o => digest_matches digest (op_sha256 o)) (cfg_operator_tokens g) with
      | None => (g, unauthorized, None)
      | Some operator =>
          match read_admin_revocation bytes with
          | None => (g, response 400 (error_body (lit "invalid_request")), None)
          | Some r =>
              if admin_request_bad r then
                (g, response 400 (oauth_error (lit "invalid_request")
                       (lit "supply exactly one jti or instance_uid; token_kind may be nhi or exchanged for a jti")), None)
              else match gw_identity g, gw_nhi g with
                   | Some (cfg, _), Some nhi =>
                       let cutoff := admin_cutoff cfg now_s in
                       let expires_at := admin_expires_at cfg now_s in
                       let '(g', result) :=
                         if bool_decide (ar_token_kind r = Some (lit "exchanged"))
                         then let '(x, o) := admin_write (gw_exchanged g) now_s cutoff expires_at r in
                              (set_exchanged g x, o)
                         else let '(u, o) := admin_write nhi now_s cutoff expires_at r in (set_nhi g u, o) in
                       match result with
                       | Err _ => (g', unavailable, None)
                       | Ok _ =>
                           (g', response 200
                                  (Object (member "revoked" (Bool true) ++ member "audited" (Bool audited)
                                           ++ member "issued_at_or_before"
                                                (ser_opt (fun _ => ser_u cutoff) (ar_instance_uid r)))),
                            Some (admin_identity r, admin_payload (op_name operator) cutoff r))
                       end
                   | _, _ => (g, unavailable, None)
                   end
          end
      end
  end.
End Routes.
Arguments Gateway {TL EL} U X.
Arguments mkGateway {TL EL U X}.

(** * The audit record *)

(** [revocation_audit_window]: when the minute began and the records it holds. *)
Record AuditWindow := mkAuditWindow { aw_start : Z; aw_count : Z }.

(** What the other components answer while a record is written: the worker queue
    has room, the session registers, its capture succeeds, its close succeeds. *)
Record AuditEnv := mkAuditEnv {
  ae_reserved : bool; ae_registered : bool; ae_captured : bool; ae_closed : bool;
}.

(** [record_revocation], at [now] seconds of the monotonic clock: the window
    after it and whether the record was audited. *)
Definition record_revocation (per_minute : Z) (w : AuditWindow) (now : Z) (env : AuditEnv)
  : AuditWindow * bool :=
  let w := if now - aw_start w >=? 60 then mkAuditWindow now 0 else w in
  if aw_count w >=? per_minute then (w, false)
  else (mkAuditWindow (aw_start w) (aw_count w + 1),
        ae_reserved env && ae_registered env && ae_captured env && ae_closed env).
