(* ===== verification/ExchangeProofs.v ===== *)
(** Properties of token exchange: the scope intersection is exact, an exchanged
    token never carries more than its subject, its actor and every ancestor, and
    what the gateway issues it also accepts. *)

From S2P Require Import Prelude Rust CoreBase Json Core Identity Validator IdentityProofs Serde Exchange.

(** * Scopes *)

Section Scopes.

Lemma strip_prefix_Some p s r : strip_prefix p s = Some r <-> s = p ++ r.
Proof.
  unfold strip_prefix. split.
  - destruct (starts_with p s) eqn:E; [|done]. apply starts_with_iff in E as [r' ->].
    by rewrite drop_app_length; intros [= ->].
  - intros ->. by rewrite starts_with_app, drop_app_length.
Qed.

Lemma strip_prefix_None p s : strip_prefix p s = None -> starts_with p s = false.
Proof. unfold strip_prefix. by destruct (starts_with p s). Qed.

(** The exchange and the delegation validator read scopes alike. *)
Lemma scope_covers_same p c : Exchange.scope_covers p c = Validator.scope_covers p c.
Proof.
  unfold Exchange.scope_covers, Validator.scope_covers. f_equal.
  destruct (strip_wildcard p) as [x|]; [|done]. destruct (strip_prefix x c) as [r|] eqn:E.
  - apply strip_prefix_Some in E as ->. apply eq_true_iff_eq. rewrite !starts_with_iff.
    split; intros [t Ht].
    + exists t. by rewrite Ht, app_assoc.
    + exists t. rewrite <- app_assoc in Ht. by apply app_inv_head in Ht.
  - apply strip_prefix_None in E. destruct (starts_with (x ++ lit ":") c) eqn:E2; [|done].
    apply starts_with_iff in E2 as [t ->]. by rewrite <- app_assoc, starts_with_app in E.
Qed.

Lemma existsb_covers s l :
  existsb (fun o => Exchange.scope_covers o s) l = scope_covered_by s l.
Proof.
  unfold scope_covered_by. induction l as [|x l IH]; cbn; [done|]. by rewrite scope_covers_same, IH.
Qed.

Lemma scope_covers_refl s : Validator.scope_covers s s = true.
Proof. apply scope_covers_iff. tauto. Qed.

Lemma scope_covered_in s l : s ∈ l -> scope_covered_by s l = true.
Proof.
  intros H. apply existsb_exists. exists s. split; [by apply list_elem_of_In|apply scope_covers_refl].
Qed.

Lemma scope_covered_iff s l :
  scope_covered_by s l = true <-> exists p, p ∈ l /\ Validator.scope_covers p s = true.
Proof.
  unfold scope_covered_by. rewrite existsb_exists. split; intros (p & Hp & H); exists p;
    by rewrite ?list_elem_of_In in *.
Qed.

Definition in_both (l other : list str) (s : str) : Prop := s ∈ l /\ scope_covered_by s other = true.

Lemma intersect_into_spec l other seen res :
  (forall s, s ∈ seen <-> s ∈ res) -> NoDup res ->
  let r := intersect_into l other seen res in
  (forall s, s ∈ r.1 <-> s ∈ r.2) /\ NoDup r.2 /\
  (forall s, s ∈ r.2 <-> s ∈ res \/ in_both l other s).
Proof.
  revert seen res. induction l as [|x l IH]; intros seen res Hs Hn; cbn [intersect_into]; cbn zeta.
  - split; [done|]. split; [done|]. unfold in_both. intros s. split; [tauto|].
    intros [?|[H _]]; [done|by inversion H].
  - rewrite existsb_covers. unfold in_both in *.
    destruct (scope_covered_by x other) eqn:Ec; [case_bool_decide as Hx|]; cbn [negb andb].
    + destruct (IH seen res Hs Hn) as (H1 & H2 & H3). split; [done|]. split; [done|].
      intros s. rewrite H3, elem_of_cons. split; [tauto|]. intros [?|[[->|?] ?]]; [tauto|left; by apply Hs|tauto].
    + destruct (IH ({[x]} ∪ seen) (res ++ [x])) as (H1 & H2 & H3).
      * intros s. rewrite elem_of_app, list_elem_of_singleton, elem_of_union, elem_of_singleton, Hs. tauto.
      * apply NoDup_app. split; [done|]. split; [|apply NoDup_singleton].
        intros s Hin. rewrite list_elem_of_singleton. intros ->. by apply Hx, Hs.
      * split; [done|]. split; [done|]. intros s. rewrite H3, elem_of_app, list_elem_of_singleton, elem_of_cons.
        split; [intros [[?| ->]|?]; tauto|]. intros [?|[[->|?] ?]]; tauto.
    + destruct (IH seen res Hs Hn) as (H1 & H2 & H3). split; [done|]. split; [done|].
      intros s. rewrite H3, elem_of_cons. split; [tauto|]. intros [?|[[->|?] ?]]; [tauto|congruence|tauto].
Qed.

Lemma scope_intersection_elem a b s :
  s ∈ scope_intersection a b <-> in_both a b s \/ in_both b a s.
Proof.
  unfold scope_intersection.
  destruct (intersect_into_spec a b ∅ []) as (H1 & H2 & H3); [set_solver|constructor|].
  destruct (intersect_into a b ∅ []) as [seen res]. cbn [fst snd] in *.
  destruct (intersect_into_spec b a seen res H1 H2) as (_ & _ & H4).
  rewrite H4, H3. rewrite elem_of_nil. tauto.
Qed.

Lemma scope_intersection_nodup a b : NoDup (scope_intersection a b).
Proof.
  unfold scope_intersection.
  destruct (intersect_into_spec a b ∅ []) as (H1 & H2 & _); [set_solver|constructor|].
  destruct (intersect_into a b ∅ []) as [seen res]. cbn [fst snd] in *.
  by destruct (intersect_into_spec b a seen res H1 H2) as (_ & ? & _).
Qed.

(** Every scope of the intersection lies within both sides. *)
Lemma scope_intersection_within a b s : s ∈ scope_intersection a b ->
  scope_covered_by s a = true /\ scope_covered_by s b = true.
Proof.
  intros [[Hs Hc]|[Hs Hc]]%scope_intersection_elem; split; auto using scope_covered_in.
Qed.

(** Of two scopes that cover the same scope, one covers the other. *)
Lemma scope_covers_comparable p q s :
  Validator.scope_covers p s = true -> Validator.scope_covers q s = true ->
  Validator.scope_covers p q = true \/ Validator.scope_covers q p = true.
Proof.
  rewrite !scope_covers_iff. intros [->|[->|(x & r & -> & Hs)]] Hq; [tauto|tauto|].
  destruct Hq as [->|[->|(y & t & -> & Hs')]]; [tauto|left; right; right; by exists x, r|].
  rewrite Hs in Hs'. revert Hs'. eval_lit. cbn [app]. intros Heq.
  destruct (app_eq_inv _ _ _ _ Heq) as [(k & -> & Hk)|(k & -> & Hk)].
  - destruct k as [|c k]; [left; right; left; by rewrite app_nil_r|]. injection Hk as <- _.
    right. right; right. exists y, (k ++ [58; 42]). by rewrite <- app_assoc.
  - destruct k as [|c k]; [left; right; left; by rewrite app_nil_r|]. injection Hk as <- _.
    left. right; right. exists x, (k ++ [58; 42]). by rewrite <- app_assoc.
Qed.
End Scopes.

(** The scope intersection is exact: it authorizes a scope, wildcards
    included, exactly when both sides do, and lists no scope twice. *)
Theorem scope_intersection_exact (a b : list str) :
  (forall s, scope_covered_by s (scope_intersection a b) =
             scope_covered_by s a && scope_covered_by s b) /\
  NoDup (scope_intersection a b).
Proof.
  split; [|apply scope_intersection_nodup]. intros s. apply eq_true_iff_eq. rewrite andb_true_iff. split.
  - intros (p & Hp & Hs)%scope_covered_iff. apply scope_intersection_within in Hp as [Ha Hb].
    rewrite !scope_covered_iff in *. destruct Ha as (x & Hx & Hxp), Hb as (y & Hy & Hyp).
    split; [exists x|exists y]; split; eauto using scope_covers_trans.
  - rewrite !scope_covered_iff. intros [(p & Hp & Hps) (q & Hq & Hqs)].
    destruct (scope_covers_comparable p q s Hps Hqs) as [H|H].
    + exists q. split; [|done]. apply scope_intersection_elem. right. split; [done|].
      apply scope_covered_iff. eauto.
    + exists p. split; [|done]. apply scope_intersection_elem. left. split; [done|].
      apply scope_covered_iff. eauto.
Qed.

(** * Issuing *)

Section Issuing.
Context {SJ : SerdeJson}.

Definition links (actor : option ExchangeActor) : nat := match actor with None => 1 | Some _ => 2 end.

(** The claims an exchange issues. *)
Definition issued_claims (uid : str) (p : ExchangeParams) (actor : option ExchangeActor) : NhiClaims :=
  let s := ep_subject p in
  mkClaims (sub s) (ep_issuer p) (Single (ep_target_audience p)) (ep_now_s p)
    (Some (Z.max (ep_now_s p) (effective_start s))) (exchange_exp p actor) uid
    (Some (acting p actor).1.2) (Some (acting p actor).1.1) (instance_uid s) (charter s) (version s)
    (effective_scopes p actor) None.

(** What holds when an exchange succeeds. *)
Record built (uid : str) (p : ExchangeParams) (actor : option ExchangeActor) (e : ExchangedClaims) : Prop := {
  bu_actor a : actor = Some a -> actor_is_direct a = true;
  bu_chain : subject_chain_ok p = true;
  bu_target : ep_allowed_audiences p = [] \/ ep_target_audience p ∈ ep_allowed_audiences p;
  bu_requested : Forall (fun s => requested_scope_bad s = false) (requested_list p);
  bu_subject : Forall (fun s => oauth_scope s = true) (scopes (ep_subject p));
  bu_nonempty : effective_scopes p actor <> [];
  bu_depth : (ep_subject_delegation_depth p + links actor <= ep_max_depth p)%nat;
  bu_exp : ep_now_s p < exchange_exp p actor;
  bu_fields : validate_claim_fields (issued_claims uid p actor) (ep_now_s p) DEFAULT_LEEWAY_SECS false = Ok tt;
  bu_size : str_len (to_string (ser_exchanged e)) <= MAX_CLAIMS_BYTES;
  bu_claims : e = mkExchanged (issued_claims uid p actor) (ep_subject_chain p)
                    (match actor with Some a => xa_chain a | None => [] end)
                    (ep_subject_delegation_depth p + links actor);
}.

Lemma acting_links p actor : (acting p actor).2 = links actor.
Proof. by destruct actor. Qed.

Lemma exchange_build_inv uid p actor e :
  build_exchanged_claims_with_actor uid p actor = Ok e -> built uid p actor e.
Proof.
  unfold build_exchanged_claims_with_actor. intros H.
  destruct (match actor with Some a => _ | None => _ end) eqn:Ea; [done|].
  destruct (subject_chain_ok p) eqn:Echain; [|done]. cbn [negb] in H.
  destruct (negb (bool_decide (ep_allowed_audiences p = [])) && _) eqn:Eaud; [done|].
  destruct (match ep_requested_scopes p with Some s => _ | None => _ end); [done|].
  destruct (_ || existsb requested_scope_bad _) eqn:Ereq; [done|].
  destruct (existsb _ (scopes (ep_subject p))) eqn:Esub; [done|].
  case_bool_decide as Hne; [done|].
  pose proof (acting_links p actor) as Hlinks.
  destruct (acting p actor) as [[actc azpc] n] eqn:Eact. cbn [snd] in Hlinks. subst n.
  destruct (ep_max_depth p <? _)%nat eqn:Ed; [done|].
  destruct (exchange_exp p actor <=? ep_now_s p) eqn:Eexp; [done|].
  destruct (validate_claim_fields _ _ _ _) as [[]|] eqn:Ef; [|done]. cbn [map_err] in H.
  destruct (_ >? MAX_CLAIMS_BYTES) eqn:Esz; [done|]. injection H as <-.
  assert (Hcl : issued_claims uid p actor = mkClaims (sub (ep_subject p)) (ep_issuer p)
    (Single (ep_target_audience p)) (ep_now_s p)
    (Some (Z.max (ep_now_s p) (effective_start (ep_subject p)))) (exchange_exp p actor) uid
    (Some azpc) (Some actc) (instance_uid (ep_subject p)) (charter (ep_subject p))
    (version (ep_subject p)) (effective_scopes p actor) None).
  { unfold issued_claims. by rewrite Eact. }
  apply Nat.ltb_ge in Ed. b2p. split; rewrite ?Hcl; try done; try lia.
  - intros a ->. by apply negb_false_iff in Ea.
  - apply andb_false_iff in Eaud as [E|E]; [left; by b2p|right].
    apply negb_false_iff, existsb_exists in E as (x & Hx & ->%str_eqb_eq). by apply list_elem_of_In.
  - match goal with Hr : existsb requested_scope_bad _ = false |- _ => by apply existsb_false_iff in Hr end.
  - apply existsb_false_iff in Esub. eapply Forall_impl; [exact Esub|].
    intros s Hs. by apply negb_false_iff in Hs.
Qed.

Lemma direct_inv a : actor_is_direct a = true ->
  parent_token (xa_claims a) = None /\ act (xa_claims a) = None /\
  xa_chain a = [revocation_identity (xa_claims a)].
Proof.
  unfold actor_is_direct. intros H.
  apply andb_true_iff in H as [H H4]. apply andb_true_iff in H as [H H3].
  apply andb_true_iff in H as [H1 H2]. b2p.
  split; [by apply eq_None_not_Some|]. split; [by destruct (act (xa_claims a))|].
  destruct (xa_chain a) as [|x [|y l]]; try done. cbn in *. congruence.
Qed.

Lemma chain_ok_inv p : subject_chain_ok p = true ->
  exists rest, ep_subject_chain p = revocation_identity (ep_subject p) :: rest /\
    (length rest <= ep_subject_delegation_depth p)%nat /\
    (act_nesting (ep_subject p) <= ep_subject_delegation_depth p)%nat.
Proof.
  unfold subject_chain_ok. intros H.
  apply andb_true_iff in H as [H H3]. apply andb_true_iff in H as [H1 H2]. b2p.
  apply Nat.ltb_ge in H2, H3. destruct (ep_subject_chain p) as [|x rest]; [done|].
  cbn in *. exists rest. split; [congruence|]. split; lia.
Qed.

(** Every effective scope lies within the request, the subject and the actor. *)
Lemma effective_within p actor s : s ∈ effective_scopes p actor ->
  scope_covered_by s (requested_list p) = true /\ scope_covered_by s (scopes (ep_subject p)) = true /\
  (forall a, actor = Some a -> scope_covered_by s (scopes (xa_claims a)) = true).
Proof.
  unfold effective_scopes. destruct actor as [a|].
  - intros [H1 H2]%scope_intersection_within. apply scope_covered_iff in H1 as (q & Hq & Hs).
    apply scope_intersection_within in Hq as [Hr Hsub].
    assert (Hc : forall l, scope_covered_by q l = true -> scope_covered_by s l = true).
    { intros l Hl. rewrite !scope_covered_iff in *. destruct Hl as (x & Hx & Hxq).
      exists x. eauto using scope_covers_trans. }
    split; [by apply Hc|]. split; [by apply Hc|]. by intros ? [= <-].
  - intros [H1 H2]%scope_intersection_within. done.
Qed.
End Issuing.


(** * Accepting *)

(** Base64url without padding. *)
Definition b64_len (n : Z) : Z := (4 * n + 2) / 3.

(** What [jsonwebtoken] documents of a token it encoded: its header reads back, it
    decodes under the matching public key to the same claims when the required
    claims are there and issuer and audience match, its claims do not depend on
    what is asked of them, and it is the three base64url
    parts joined by dots, the last an Ed25519 signature. *)
Class ExchangeLibsLaws {TL : TokenLibs} {EL : ExchangeLibs} {SJ : SerdeJson} := {
  encode_header h e k t : encode h e k = Ok t -> decode_header t = Ok h;
  encode_decode h e k t auds issuer : encode h e k = Ok t -> h_alg h = EdDSA ->
    is_Some (nbf (xc_claims e)) -> iss (xc_claims e) = issuer ->
    (exists a, a ∈ auds /\ audience_contains (aud (xc_claims e)) a = true) ->
    decode_exchanged t (public_key k) auds issuer = Ok e;
  decode_same t k auds issuer e auds' issuer' e' :
    decode_exchanged t k auds issuer = Ok e -> decode_exchanged t k auds' issuer' = Ok e' -> e' = e;
  encode_len h e k t : encode h e k = Ok t ->
    str_len t = b64_len (header_len h) + 1 + b64_len (str_len (to_string (ser_exchanged e))) + 1 + b64_len 64;
}.

Section Accepting.
Context {TL : TokenLibs}.

Lemma accepted_single_fields cfg ks now token c : validate_single cfg ks now token false = Ok c ->
  validate_claim_fields c now (leeway_secs cfg) false = Ok tt /\
  (forall n, nbf c = Some n -> n <= now + leeway_secs cfg).
Proof.
  intros Hv. split; [|by apply accepted_token_sound in Hv as (_ & _ & _ & ? & _)].
  revert Hv. unfold validate_single. case_match; [done|].
  destruct (map_err _ (decode_header token)) as [h|]; [|done].
  destruct (validate_jose_header h) as [[]|]; [|done]. case_match; [done|].
  destruct (ok_or (h_kid h) _) as [kid|]; [|done].
  destruct (ok_or (keys ks !! kid) _) as [key|]; [|done].
  destruct (key_for kid key) as [[alg dk]|]; [|done]. case_match; [done|].
  destruct (map_err _ (decode _ _ _ _)) as [claims|]; [|done].
  destruct (validate_claim_fields claims _ _ _) as [[]|] eqn:Ec; [|done].
  destruct (allowed_issuers cfg) as [l|]; [case_match; [|done]|]; by intros [= <-].
Qed.

(** Only the check on [iat] reads the clock: fields accepted once stay accepted. *)
Lemma claim_fields_later c now now' leeway : 0 <= leeway -> now <= now' ->
  validate_claim_fields c now leeway false = Ok tt -> validate_claim_fields c now' leeway false = Ok tt.
Proof.
  intros Hl Hn. unfold validate_claim_fields.
  destruct (first_error (claim_checks_before_actor c now leeway false)) as [[]|] eqn:E1; [|done].
  intros H. apply first_error_ok in E1.
  assert (first_error (claim_checks_before_actor c now' leeway false) = Ok tt) as ->; [|done].
  apply first_error_ok. unfold claim_checks_before_actor in *. cbn zeta in *. cbn [app] in *.
  apply Forall_cons in E1 as [H1 E1]. apply Forall_cons in E1 as [H2 E1].
  apply Forall_cons. split; [done|]. apply Forall_cons. split; [|done].
  cbn [fst andb] in *. rewrite orb_false_r in *. unfold sat_add in *. lia.
Qed.

(** The ancestry entry of accepted claims passes the verifier's checks. *)
Lemma accepted_ancestor c now leeway token_iat :
  validate_claim_fields c now leeway false = Ok tt ->
  iat c <= sat_add token_iat DEFAULT_LEEWAY_SECS ->
  ancestor_bad token_iat (revocation_identity c) = false.
Proof.
  intros H Hi. pose proof (claim_fields_ok _ _ _ H) as (_ & _ & Hiss & _ & _ & _ & Hlen & Hf & _).
  assert (Hid : forall nv, nv ∈ identity_fields c -> field_ok nv.2) by by apply Forall_forall.
  destruct (Hid (lit "instance_uid", instance_uid c)) as [_ Hu2]; [by left|].
  destruct (Hid (lit "iss", iss c)) as [Hs1 Hs2]; [by do 4 right; left|].
  destruct (Hid (lit "jti", jti c)) as [Hj1 Hj2]; [by do 5 right; left|].
  unfold validate_claim_fields in H.
  destruct (first_error (claim_checks_before_actor c now leeway false)) as [[]|] eqn:E1; [|done].
  apply first_error_ok in E1. unfold claim_checks_before_actor, control_check in E1. cbn zeta in E1.
  rewrite !Forall_app in E1. destruct E1 as (_ & Hj & Hu & _).
  rewrite !Forall_cons in Hj, Hu. cbn [fst] in Hj, Hu. destruct Hj as (Hj3 & Hj4 & _), Hu as (Hu3 & Hu4 & _).
  unfold ancestor_bad, revocation_identity. cbn [ri_iss ri_jti ri_instance_uid ri_iat snd] in *.
  rewrite (proj2 (str_eqb_neq _ _) Hiss), Hs2, Hj3, Hu3, Hj4, Hu4, Hj2, Hu2.
  rewrite !(proj2 (Nat.ltb_ge _ _)) by done. cbn [orb]. lia.
Qed.

Lemma requested_is_oauth s : requested_scope_bad s = false -> oauth_scope s = true.
Proof.
  unfold requested_scope_bad, oauth_scope. intros H. b2p.
  repeat match goal with H : _ || _ = false |- _ => apply orb_false_iff in H as [? ?] end. b2p.
  by apply andb_true_iff; split; [by apply negb_true_iff|].
Qed.

(** All scopes of the actor are scope tokens of the OAuth grammar. *)
Definition actor_scopes_ok (actor : option ExchangeActor) : Prop :=
  match actor with
  | None => True
  | Some a => Forall (fun s => oauth_scope s = true) (scopes (xa_claims a))
  end.

Lemma effective_oauth {SJ : SerdeJson} uid p actor e : built uid p actor e -> actor_scopes_ok actor ->
  Forall (fun s => oauth_scope s = true) (effective_scopes p actor).
Proof.
  intros Hb Ha. pose proof (bu_requested _ _ _ _ Hb) as Hr. pose proof (bu_subject _ _ _ _ Hb) as Hs.
  assert (Hi : forall s, s ∈ scope_intersection (requested_list p) (scopes (ep_subject p)) ->
    oauth_scope s = true).
  { intros s [[Hin _]|[Hin _]]%scope_intersection_elem.
    - rewrite Forall_forall in Hr. by apply requested_is_oauth, Hr.
    - rewrite Forall_forall in Hs. by apply Hs. }
  apply Forall_forall. intros s. unfold effective_scopes. destruct actor as [a|]; [|apply Hi].
  intros [[Hin _]|[Hin _]]%scope_intersection_elem; [by apply Hi|].
  cbn in Ha. rewrite Forall_forall in Ha. by apply Ha.
Qed.

Lemma acting_nesting uid p actor :
  act_nesting (issued_claims uid p actor) = (links actor + act_nesting (ep_subject p))%nat.
Proof.
  unfold issued_claims, act_nesting, acting. cbn [act].
  destruct actor as [a|]; cbn; destruct (act (ep_subject p)); cbn; lia.
Qed.

Lemma built_ancestry {SJ : SerdeJson} uid p actor e : built uid p actor e ->
  ancestry_bad (ep_max_depth p) e = false.
Proof.
  intros [Hact Hchain _ _ _ _ Hd _ _ _ ->].
  destruct (chain_ok_inv _ Hchain) as (rest & Hc & Hlen & Hnest).
  unfold ancestry_bad. cbn [xc_claims av_subject_tokens av_actor_tokens av_delegation_depth].
  rewrite acting_nesting, Hc. rewrite bool_decide_eq_false_2 by done. cbn [length].
  assert (length (match actor with Some a => xa_chain a | None => [] end) + 1 = links actor)%nat as Hl.
  { destruct actor as [a|]; [|done]. destruct (direct_inv _ (Hact _ eq_refl)) as (_ & _ & ->). done. }
  assert (1 <= links actor <= 2)%nat by (destruct actor; cbn; lia).
  repeat (rewrite (proj2 (Nat.ltb_ge _ _)) by lia). rewrite (proj2 (Nat.eqb_neq _ _)) by lia. cbn [orb].
  unfold issued_claims, acting. cbn [act]. destruct actor as [a|]; [|done].
  destruct (direct_inv _ (Hact _ eq_refl)) as (_ & _ & ->). cbn. by rewrite str_eqb_refl.
Qed.

Context {SJ : SerdeJson} (cfg : ValidatorConfig) (ks : KeySet) (now_v : Z).

(** A token this validator accepted at [now_v]. *)
Definition accepted (vi : ValidatedIdentity) : Prop :=
  exists token, Validator.validate cfg ks now_v token = Ok vi.

Definition as_actor (a : ValidatedIdentity) : ExchangeActor := mkExchangeActor (vi_claims a) (chain_tokens a).

(** Every identity recorded in the claims comes from a token accepted at [now_v]. *)
Lemma accepted_chain vi token_iat : accepted vi -> leeway_secs cfg = DEFAULT_LEEWAY_SECS ->
  now_v <= token_iat ->
  Forall (fun i => ancestor_bad token_iat i = false) (chain_tokens vi) /\
  effective_start (vi_claims vi) <= now_v + DEFAULT_LEEWAY_SECS.
Proof.
  intros [token Hv] Hl Hn. apply validate_inv in Hv as (l & Hs & _ & _ & Ha & _ & -> & _).
  assert (Hi : forall c, validate_claim_fields c now_v (leeway_secs cfg) false = Ok tt ->
    iat c <= now_v + DEFAULT_LEEWAY_SECS /\ ancestor_bad token_iat (revocation_identity c) = false).
  { intros c Hc. pose proof (claim_fields_ok _ _ _ Hc) as (_ & Hi & _). rewrite Hl in Hi.
    unfold sat_add in Hi. split; [lia|]. eapply accepted_ancestor; [exact Hc|]. unfold sat_add. lia. }
  pose proof (accepted_single_fields _ _ _ _ _ Hs) as [Hf Hnbf]. split.
  - apply Forall_map. constructor; [by apply Hi|].
    apply ancestry_checked in Ha. eapply Forall_impl; [exact Ha|].
    intros a [[t Ht] _]. apply Hi. by apply accepted_single_fields in Ht as [? _].
  - unfold effective_start. destruct (nbf (vi_claims vi)) as [n|] eqn:En; cbn.
    + rewrite <- Hl. by apply Hnbf.
    + by apply Hi.
Qed.

(** What was built from accepted tokens passes the verifier until it expires. *)
Lemma built_verifies uid p vi actor e auds now :
  leeway_secs cfg = DEFAULT_LEEWAY_SECS -> accepted vi -> (forall a, actor = Some a -> accepted a) ->
  ep_subject p = vi_claims vi -> ep_subject_chain p = chain_tokens vi ->
  built uid p (as_actor <$> actor) e -> actor_scopes_ok (as_actor <$> actor) ->
  now_v <= ep_now_s p <= now -> 0 <= now < exp (xc_claims e) -> now + DEFAULT_LEEWAY_SECS <= u64_max ->
  ep_target_audience p ∈ auds ->
  verify_claims auds (ep_max_depth p) now false e = Ok e.
Proof.
  intros Hl Hvi Hva Hs Hchain Hb Hscopes Hnow Hexp Hu Htgt.
  pose proof (built_ancestry _ _ _ _ Hb) as Hanc. pose proof (effective_oauth _ _ _ _ Hb Hscopes) as Hoa.
  pose proof (claim_fields_later _ _ now DEFAULT_LEEWAY_SECS ltac:(done) (proj2 Hnow) (bu_fields _ _ _ _ Hb)) as Hf.
  pose proof (bu_claims _ _ _ _ Hb) as He. pose proof (bu_actor _ _ _ _ Hb) as Hdirect.
  destruct (accepted_chain vi (ep_now_s p) Hvi Hl (proj1 Hnow)) as [Hsub Hstart].
  unfold verify_claims. cbn zeta.
  replace (xc_claims e) with (issued_claims uid p (as_actor <$> actor)) in * by by rewrite He.
  change (aud (issued_claims uid p (as_actor <$> actor))) with (Single (ep_target_audience p)).
  change (parent_token (issued_claims uid p (as_actor <$> actor))) with (@None str).
  cbv iota. assert (existsb (str_eqb (ep_target_audience p)) auds = true) as ->.
  { apply existsb_exists. exists (ep_target_audience p). split; [by apply list_elem_of_In|apply str_eqb_refl]. }
  rewrite bool_decide_eq_false_2 by by intros [? ?]. cbn [negb orb]. rewrite Hf.
  change (scopes (issued_claims uid p (as_actor <$> actor))) with (effective_scopes p (as_actor <$> actor)).
  assert (existsb (fun s => negb (oauth_scope s)) (effective_scopes p (as_actor <$> actor)) = false) as ->.
  { apply existsb_false_iff. eapply Forall_impl; [exact Hoa|]. cbn. by intros s ->. }
  change (exp (issued_claims uid p (as_actor <$> actor))) with (exchange_exp p (as_actor <$> actor)) in *.
  unfold sat_sub, sat_add. unfold DEFAULT_LEEWAY_SECS in *.
  destruct (exchange_exp _ _ <=? now) eqn:E1; [lia|].
  destruct (exchange_exp _ _ <? Z.max (now - 30) 0) eqn:E2; [lia|].
  cbn [negb andb orb nbf issued_claims]. rewrite Hs. destruct (Z.max _ _ >? _) eqn:Enbf; [lia|].
  rewrite Hanc.
  assert (existsb (ancestor_bad (ep_now_s p)) (av_subject_tokens e ++ av_actor_tokens e) = false) as Hbad.
  { apply existsb_false_iff, Forall_app. rewrite He. cbn [av_subject_tokens av_actor_tokens].
    split; [by rewrite Hchain|]. destruct actor as [a|]; [|constructor]. cbn.
    exact (proj1 (accepted_chain a (ep_now_s p) (Hva a eq_refl) Hl (proj1 Hnow))). }
  cbn [iat issued_claims]. rewrite Hbad.
  destruct (chain_ok_inv _ (bu_chain _ _ _ _ Hb)) as (rest & Hc & _). rewrite He. cbn [av_subject_tokens].
  rewrite Hc. cbn [head instance_uid issued_claims revocation_identity ri_instance_uid].
  by rewrite str_eqb_refl.
Qed.

Context {EL : ExchangeLibs} {LL : ExchangeLibsLaws}.

(** The size limit on the claims keeps the signed token under the verifier's. *)
Lemma encoded_len h e k t : encode h e k = Ok t -> 0 <= header_len h <= 512 ->
  0 <= str_len (to_string (ser_exchanged e)) <= MAX_CLAIMS_BYTES -> str_len t <= 16 * 1024.
Proof.
  intros Ht Hh He. rewrite (encode_len _ _ _ _ Ht). unfold b64_len, MAX_CLAIMS_BYTES in *.
  Z.div_mod_to_equations. lia.
Qed.

Lemma verify_signed e t k kid typ auds max_depth now issuer :
  encode (mkHeader EdDSA (Some kid) (Some typ) None (Some None)) e k = Ok t ->
  typ = lit "JWT" \/ typ = lit "av-tool+jwt" -> str_len t <= 16 * 1024 ->
  is_Some (nbf (xc_claims e)) -> iss (xc_claims e) = issuer ->
  (exists a, a ∈ auds /\ audience_contains (aud (xc_claims e)) a = true) ->
  verify_claims auds max_depth now false e = Ok e ->
  verify_exchanged_token t (mkExchangedValidation (public_key k) kid issuer auds max_depth now typ false) = Ok e.
Proof.
  intros Ht Htyp Hlen Hn Hi Ha Hv. unfold verify_exchanged_token.
  destruct (str_len t >? 16 * 1024) eqn:E; [lia|]. rewrite (encode_header _ _ _ _ Ht). cbn [map_err].
  cbn [validate_jose_header h_crit h_b64 h_typ h_alg h_kid ev_token_type ev_kid].
  rewrite (bool_decide_eq_true_2 (Some typ = Some typ)), (bool_decide_eq_true_2 (Some kid = Some kid)) by done.
  rewrite (bool_decide_eq_true_2 (EdDSA = EdDSA)) by done.
  assert (str_eqb typ (lit "JWT") || str_eqb typ (lit "av-tool+jwt") = true) as ->.
  { apply orb_true_iff. rewrite !str_eqb_eq. done. }
  unfold validate_jose_header. cbn [h_crit h_b64]. rewrite bool_decide_eq_false_2 by by intros [? ?].
  rewrite bool_decide_eq_true_2 by done. cbn [negb orb ev_key ev_allowed_audiences ev_issuer].
  by rewrite (encode_decode _ _ _ _ auds issuer Ht).
Qed.
End Accepting.

(** * Concrete exchanges *)

Module ExchangeSample.

(** A printer that writes nothing. *)
Definition printer : SerdeJson := {| from_bytes _ := Err []; to_string _ := [] |}.

(** The delegated identity of the validator's sample, exchanged for one backend. *)
Definition params : ExchangeParams :=
  mkExchangeParams Sample.leaf_claims (map revocation_identity [Sample.leaf_claims; Sample.root_claims]) 2
    (lit "b") None (lit "u2") 1200 300 (lit "av") 4 [lit "b"].

Definition claims : ExchangedClaims :=
  match @build_exchanged_claims printer (lit "x1") params with
  | Ok e => e
  | Err _ => mkExchanged Sample.leaf_claims [] [] 0
  end.

Lemma builds : @build_exchanged_claims_with_actor printer (lit "x1") params None = Ok claims.
Proof. vm_compute. reflexivity. Qed.

(** An actor whose one scope is not ASCII; the subject holds a wildcard. *)
Definition scope : str := lit "fs:" ++ [252].
Definition actor_claims : NhiClaims :=
  mkClaims (lit "alice") (lit "issuer") (Single (lit "av")) 1100 None 1700 (lit "j3") None None
    (lit "u3") (lit "c") (lit "v1") [scope] None.
Definition actor : ExchangeActor := mkExchangeActor actor_claims [revocation_identity actor_claims].
Definition root_params : ExchangeParams :=
  mkExchangeParams Sample.root_claims [revocation_identity Sample.root_claims] 0
    (lit "b") None (lit "u1") 1200 300 (lit "av") 4 [lit "b"].
End ExchangeSample.


(** C36. The scope grammar is not enforced on the actor's scopes: an exchange
    whose subject holds a wildcard and whose actor, though its own claims pass
    the identity checks, holds a scope outside the OAuth grammar succeeds, puts
    that scope into the issued token, and every verification of the token then
    fails, although the exchange must never serialize such a scope. *)
Theorem actor_scope_escapes_the_grammar :
  validate_claim_fields ExchangeSample.actor_claims 1200 DEFAULT_LEEWAY_SECS false = Ok tt /\
  exists e, @build_exchanged_claims_with_actor ExchangeSample.printer (lit "x1") ExchangeSample.root_params
              (Some ExchangeSample.actor) = Ok e /\
    scopes (xc_claims e) = [ExchangeSample.scope] /\ oauth_scope ExchangeSample.scope = false /\
    forall auds max_depth now for_revocation,
      verify_claims auds max_depth now for_revocation e <> Ok e.
Proof.
  split; [vm_compute; reflexivity|].
  destruct (@build_exchanged_claims_with_actor ExchangeSample.printer (lit "x1") ExchangeSample.root_params
    (Some ExchangeSample.actor)) as [e|err] eqn:E; [|vm_compute in E; discriminate].
  exists e. split; [done|]. assert (Hs : scopes (xc_claims e) = [ExchangeSample.scope]).
  { vm_compute in E. by injection E as <-. }
  split; [done|]. split; [vm_compute; reflexivity|]. intros auds d now fr. unfold verify_claims. cbn zeta.
  destruct (aud (xc_claims e)); [|done]. destruct (_ || _); [done|].
  destruct (validate_claim_fields _ _ _ _); [|done]. rewrite Hs.
  assert (existsb (fun s => negb (oauth_scope s)) [ExchangeSample.scope] = true) as ->; [|done].
  vm_compute. reflexivity.
Qed.
