(* ===== verification/TokenRoutesProofs.v ===== *)
(** Properties of the token endpoints: what the gateway issues it accepts until
    it expires, and a revocation, by an operator or by the holder, reaches every
    exchanged token it concerns. *)

From S2P Require Import Prelude Rust CoreBase Json Core Identity Validator IdentityProofs Serde Events.
From S2P Require Import Exchange ExchangeProofs Store Revocation RevocationProofs TokenRoutes.

Section Routes.
Context {TL : TokenLibs} {EL : ExchangeLibs} {SJ : SerdeJson} {LL : ExchangeLibsLaws} {BR : BodyReaders}.
Context {SHA : Sha256} {UT : UnicodeTables}.
Context {U X : Type} {RU : RevocationStore U} {RX : RevocationStore X}.
Implicit Types g : Gateway U X.

(** * Issuing *)

(** What an issued token was made from. *)
Record issued_from g (now_v now_s : Z) (cfg : ValidatorConfig) (ks : KeySet) (signer : TokenSigner)
    (backend : str) (vi : ValidatedIdentity) (actor : option ValidatedIdentity) (e : ExchangedClaims)
    (token : str) : Prop := {
  if_validator : validator g = Some (cfg, ks);
  if_signer : gw_signer g = Some signer;
  if_subject : accepted cfg ks now_v vi;
  if_actor a : actor = Some a -> accepted cfg ks now_v a;
  if_built : exists uid requested,
    built uid (exchange_params g vi backend requested now_s) (as_actor <$> actor) e;
  if_backend : cfg_backends g <> [] -> backend ∈ cfg_backends g;
  if_signed : exists typ, (typ = lit "JWT" \/ typ = lit "av-tool+jwt") /\
    sign_with_typ signer e typ = Ok token;
}.

Lemma validate_or_respond_ok cfg ks now token vi : validate_or_respond cfg ks now token = Ok vi ->
  Validator.validate cfg ks now token = Ok vi.
Proof.
  unfold validate_or_respond. destruct (Validator.validate _ _ _ _) as [v|err]; [by intros [= ->]|]. by destruct err.
Qed.

Lemma read_actor_ok cfg ks now req va : read_actor cfg ks now req = Ok va ->
  forall a, va = Some a -> accepted cfg ks now a.
Proof.
  unfold read_actor. destruct (rq_actor_token req) as [t|], (rq_actor_token_type req) as [ty|]; try done.
  - destruct (str_eqb ty JWT_TOKEN_TYPE); [|done].
    destruct (validate_or_respond cfg ks now t) as [a|] eqn:E; [|done]. intros [= <-] ? [= <-].
    exists t. by apply validate_or_respond_ok.
  - by intros [= <-].
Qed.

Lemma issue_exchanged_inv g now_s uid p actor r : issue_exchanged g now_s uid p actor = Ok r ->
  exists e signer, built uid p actor e /\ gw_signer g = Some signer /\
    sign signer e = Ok (resp_access_token r) /\
    resp_expires_in r = sat_sub (exp (xc_claims e)) now_s.
Proof.
  unfold issue_exchanged.
  destruct (build_exchanged_claims_with_actor uid p actor) as [e|] eqn:Eb; [|done]. cbn [map_err].
  destruct (gw_signer g) as [signer|] eqn:Es; [|done]. cbn [ok_or].
  destruct (sign signer e) as [t|] eqn:Et; [|done]. cbn [map_err]. intros [= <-].
  exists e, signer. by split; [apply exchange_build_inv|].
Qed.

Lemma exchange_inv g now_v now_s uid bytes r :
  token_exchange_inner g now_v now_s uid bytes = Issue r ->
  exists cfg ks signer backend vi actor e,
    issued_from g now_v now_s cfg ks signer backend vi actor e (resp_access_token r) /\
    cfg_backends g <> [] /\ resp_expires_in r = sat_sub (exp (xc_claims e)) now_s /\
    exists req, read_exchange_form bytes = Ok req /\ read_actor cfg ks now_v req = Ok actor /\
      Validator.validate cfg ks now_v (rq_subject_token req) = Ok vi.
Proof.
  unfold token_exchange_inner. case_bool_decide; [done|].
  destruct (cfg_token_exchange_enabled g); [|done].
  destruct (validator g) as [[cfg ks]|] eqn:Ev; [|done]. cbn [ok_or].
  destruct (read_exchange_form bytes) as [req|] eqn:Er; [|done]. cbn [map_err].
  destruct (str_eqb (rq_grant_type req) _); [|done].
  destruct (str_eqb (rq_subject_token_type req) _); [|done].
  destruct (validate_or_respond cfg ks now_v (rq_subject_token req)) as [vi|] eqn:Evi; [|done].
  destruct (cfg_backends g) as [|b bs] eqn:Eb; [done|].
  destruct (read_actor cfg ks now_v req) as [va|] eqn:Ea; [|done].
  destruct (issue_exchanged _ _ _ _ _) as [r'|] eqn:Ei; [|done]. intros [= ->].
  apply issue_exchanged_inv in Ei as (e & signer & Hb & Hs & Ht & Hexp).
  exists cfg, ks, signer, (rq_audience req), vi, va, e. apply validate_or_respond_ok in Evi. split; [|by split; [|split; [|exists req]]].
  split; try done.
  - by exists (rq_subject_token req).
  - by eapply read_actor_ok.
  - by eexists _, _.
  - intros Hne. destruct (bu_target _ _ _ _ Hb) as [H0|H0]; [|done]. cbn in H0. congruence.
  - exists (lit "JWT"). split; [by left|done].
Qed.

(** A tool token is issued from a caller the validator accepted. *)
Lemma tool_token_inv g now_v now_s uid cfg ks vi target requested token :
  validator g = Some (cfg, ks) -> accepted cfg ks now_v vi ->
  exchange_token_for g now_s uid (Some vi) target requested = Ok token ->
  exists signer e, issued_from g now_v now_s cfg ks signer target vi None e token.
Proof.
  intros Hv Ha. unfold exchange_token_for. destruct (gw_signer g) as [signer|] eqn:Es; [|done]. cbn [ok_or].
  destruct (build_exchanged_claims uid _) as [e|] eqn:Eb; [|done]. cbn [map_err].
  destruct (sign_with_typ signer e _) as [t|] eqn:Et; [|done]. cbn [map_err]. intros [= <-].
  unfold build_exchanged_claims in Eb. apply exchange_build_inv in Eb. exists signer, e. split; try done.
  - by eexists _, _.
  - intros Hne. by destruct (bu_target _ _ _ _ Eb).
  - eexists. split; [by right|exact Et].
Qed.

Lemma str_len_nonneg s : 0 <= str_len s.
Proof.
  induction s as [|c s IH]; cbn; [done|]. unfold len_utf8. repeat case_match; lia.
Qed.

(** The headers the signer writes are short. *)
Definition short_headers (signer : TokenSigner) : Prop :=
  forall typ, 0 <= header_len (signer_header (ts_kid signer) typ) <= 512.

Lemma issued_len g now_v now_s cfg ks signer backend vi actor e token :
  issued_from g now_v now_s cfg ks signer backend vi actor e token -> short_headers signer ->
  str_len token <= 16 * 1024.
Proof.
  intros H Hh. destruct (if_built _ _ _ _ _ _ _ _ _ _ _ H) as (uid & req & Hb).
  destruct (if_signed _ _ _ _ _ _ _ _ _ _ _ H) as (typ & _ & Ht).
  eapply encoded_len; [exact Ht|apply Hh|]. split; [apply str_len_nonneg|exact (bu_size _ _ _ _ Hb)].
Qed.

Lemma issued_accepted g now_v now_s cfg ks signer backend vi actor e token auds now :
  issued_from g now_v now_s cfg ks signer backend vi actor e token -> short_headers signer ->
  leeway_secs cfg = DEFAULT_LEEWAY_SECS -> actor_scopes_ok (as_actor <$> actor) ->
  now_v <= now_s <= now -> 0 <= now < exp (xc_claims e) -> now + DEFAULT_LEEWAY_SECS <= u64_max ->
  backend ∈ auds -> verify_exchange g now token auds false = Ok e.
Proof.
  intros H Hh Hl Hs Hn He Hu Hb. pose proof (issued_len _ _ _ _ _ _ _ _ _ _ _ H Hh) as Hlen.
  destruct H as [_ Hsig Hvi Hva (uid & req & Hbuilt) _ (typ & Htyp & Ht)].
  unfold verify_exchange. destruct (str_len token >? 16 * 1024) eqn:E; [lia|].
  rewrite Hsig. cbn [ok_or]. rewrite (encode_header _ _ _ _ Ht). cbn [map_err].
  pose proof (bu_claims _ _ _ _ Hbuilt) as Hc.
  apply (verify_signed e token (ts_key signer) (ts_kid signer) typ auds _ now (cfg_audience g)); try done.
  - rewrite Hc. by eexists.
  - by rewrite Hc.
  - exists backend. split; [done|]. rewrite Hc. apply str_eqb_refl.
  - by eapply (built_verifies cfg ks now_v uid (exchange_params g vi backend req now_s) vi actor).
Qed.

(** * Introspection *)

Definition reports_active (r : Response) : bool :=
  match body r with
  | Some v => match value_get (lit "active") v with Some (Bool b) => b | _ => false end
  | None => false
  end.

Lemma introspect_active g now now_r auth bytes :
  reports_active (introspect_inner g now now_r auth bytes) = true ->
  exists token auds e, read_token_form bytes = Some token /\ inspect g now token auds = Ok e /\
    now_r < exp (xc_claims e).
Proof.
  unfold introspect_inner. destruct (bearer_digest auth) as [d|]; [|done].
  destruct (List.find _ _) as [client|]; [|done]. destruct (read_token_form bytes) as [token|]; [|done].
  destruct (inspect g now token [it_backend client]) as [e|err] eqn:Ei; [|by destruct err].
  destruct (_ >? now_r) eqn:En; [|done]. intros _. exists token, [it_backend client], e. split; [done|].
  split; [done|lia].
Qed.

Lemma inspect_inv g now token auds e : inspect g now token auds = Ok e ->
  exists u, gw_nhi g = Some u /\ verify_exchange g now token auds false = Ok e /\
    check_exchanged_revocation e (gw_exchanged g) u = Ok tt.
Proof.
  unfold inspect. destruct (verify_exchange _ _ _ _ _) as [e'|]; [|done].
  destruct (gw_identity g); [|done]. destruct (gw_nhi g) as [u|]; [|done]. cbn [ok_or].
  destruct (check_exchanged_revocation e' _ u) as [[]|] eqn:Ec; [|done]. intros [= <-]. by exists u.
Qed.

Lemma verify_claims_id auds max_depth now fr e e' : verify_claims auds max_depth now fr e = Ok e' -> e' = e.
Proof.
  unfold verify_claims. intros Hv. destruct (aud _); [|done]. case_match; [done|].
  destruct (validate_claim_fields _ _ _ _) as [[]|]; [|done].
  repeat (case_match; [done|]). by injection Hv.
Qed.

(** A verified token is not expired, and decodes under the gateway's key. *)
Lemma verify_exchange_inv g now token auds e : verify_exchange g now token auds false = Ok e ->
  exists signer, gw_signer g = Some signer /\ now < exp (xc_claims e) /\
    decode_exchanged token (decoding_key signer) auds (cfg_audience g) = Ok e.
Proof.
  unfold verify_exchange. case_match; [done|]. destruct (gw_signer g) as [signer|]; [|done]. cbn [ok_or].
  destruct (decode_header token) as [h|] eqn:Eh; [|done]. cbn [map_err].
  unfold verify_exchanged_token. case_match; [done|]. rewrite Eh. cbn [map_err].
  destruct (validate_jose_header h) as [[]|]; [|done]. case_match; [done|].
  cbn [ev_key ev_allowed_audiences ev_issuer ev_max_depth ev_now_s ev_for_revocation].
  destruct (decode_exchanged _ _ _ _) as [e'|] eqn:Ed; [|done]. cbn [map_err]. unfold verify_claims.
  intros Hv. exists signer. split; [done|].
  destruct (aud (xc_claims e')) as [a|]; [|done]. case_match; [done|].
  destruct (validate_claim_fields _ _ _ _) as [[]|]; [|done]. case_match; [done|].
  destruct (_ || _) eqn:Eexp in Hv; [done|]. cbn [negb andb] in Eexp. b2p.
  repeat (case_match; [done|]). injection Hv as <-. split; [lia|done].
Qed.

Lemma verify_exchange_decodes g now token auds fr e : verify_exchange g now token auds fr = Ok e ->
  exists signer, gw_signer g = Some signer /\
    decode_exchanged token (decoding_key signer) auds (cfg_audience g) = Ok e.
Proof.
  unfold verify_exchange. case_match; [done|]. destruct (gw_signer g) as [signer|]; [|done]. cbn [ok_or].
  destruct (decode_header token) as [h|] eqn:Eh; [|done]. cbn [map_err].
  unfold verify_exchanged_token. case_match; [done|]. rewrite Eh. cbn [map_err].
  destruct (validate_jose_header h) as [[]|]; [|done]. case_match; [done|].
  cbn [ev_key ev_allowed_audiences ev_issuer ev_max_depth ev_now_s ev_for_revocation].
  destruct (decode_exchanged _ _ _ _) as [e'|] eqn:Ed; [|done]. cbn [map_err]. intros Hv.
  exists signer. split; [done|]. rewrite (verify_claims_id _ _ _ _ _ _ Hv). done.
Qed.

(** A refused ancestor stops the check. *)
Lemma check_ancestors_refused (u : U) l i : i ∈ l ->
  rs_check_token u (ri_iss i) (ri_jti i) (ri_instance_uid i) (ri_iat i) <> Ok None ->
  check_ancestors u l <> Ok tt.
Proof.
  intros Hin Hr. induction l as [|a l IH]; [by inversion Hin|]. cbn. apply elem_of_cons in Hin as [->|Hin].
  - destruct (rs_check_token u _ _ _ _) as [[[]|]|]; done.
  - specialize (IH Hin). by destruct (rs_check_token u (ri_iss a) _ _ _) as [[[]|]|].
Qed.

(** * Operators *)

Lemma admin_revoke_instance g now auth bytes audited g' resp audit uid kind cfg ks u :
  admin_revoke_inner g now auth bytes audited = (g', resp, Some audit) ->
  read_admin_revocation bytes = Some (mkAdminRevocation None (Some uid) kind) ->
  gw_identity g = Some (cfg, ks) -> gw_nhi g = Some u ->
  exists u', g' = set_nhi g u' /\
    rs_revoke_instance (rs_sweep_expired u now) uid (admin_cutoff cfg now) (admin_expires_at cfg now) = (u', Ok tt).
Proof.
  unfold admin_revoke_inner. intros H Hr Hi Hu. destruct (bearer_digest auth) as [d|]; [|done].
  destruct (List.find _ _) as [op|]; [|done]. rewrite Hr in H.
  destruct (admin_request_bad _) eqn:Ebad; [done|]. rewrite Hi, Hu in H.
  assert (Hk : kind <> Some (lit "exchanged")).
  { intros ->. unfold admin_request_bad in Ebad. cbn in Ebad.
    by rewrite !bool_decide_eq_true_2, !orb_true_r in Ebad by by try eexists. }
  rewrite bool_decide_eq_false_2 in H by done. unfold admin_write in H. cbn [ar_jti ar_instance_uid] in H.
  destruct (rs_revoke_instance _ _ _ _) as [u' [[]|]]; simplify_eq. by exists u'.
Qed.

(** Other writers and sweeps act on the identity list. *)
Definition run_remote (u : U) (ops : list rev_op) : U := fold_left apply_remote ops u.

Context {RLU : RevocationLaws U}.

Lemma run_remote_refuses ops (u : U) i e : Forall (remote_by e) ops -> rl_wf u -> rl_refuses u i e ->
  rl_wf (run_remote u ops) /\ rl_refuses (run_remote u ops) i e.
Proof.
  revert u. induction ops as [|o ops IH]; intros u Hf Hw Hr; [done|].
  apply Forall_cons in Hf as [Ho Hf]. destruct (apply_remote_refuses u o i e Ho Hw Hr). by apply IH.
Qed.

Lemma run_remote_wf ops (u : U) now : Forall (remote_by now) ops -> rl_wf u -> rl_wf (run_remote u ops).
Proof.
  revert u. induction ops as [|o ops IH]; intros u Hf Hw; [done|].
  apply Forall_cons in Hf as [Ho Hf]. apply IH; [done|]. destruct o; cbn in *.
  - by apply rl_revoke_wf.
  - by apply rl_revoke_token_wf.
  - by apply rl_instance_wf.
  - by apply rl_sweep_wf.
Qed.

Lemma remote_by_mono e e' o : e <= e' -> remote_by e o -> remote_by e' o.
Proof. destruct o; cbn; lia. Qed.

Lemma recorded_iat g now_v now_s cfg ks signer backend vi actor e token i :
  issued_from g now_v now_s cfg ks signer backend vi actor e token ->
  leeway_secs cfg = DEFAULT_LEEWAY_SECS -> now_v <= now_s ->
  i ∈ av_subject_tokens e ++ av_actor_tokens e -> ri_iat i <= sat_add now_s DEFAULT_LEEWAY_SECS.
Proof.
  intros [_ _ Hvi Hva (uid & req & Hb) _ _] Hl Hn Hin. rewrite (bu_claims _ _ _ _ Hb) in Hin.
  cbn [av_subject_tokens av_actor_tokens exchange_params ep_subject_chain] in Hin.
  assert (Hbad : ancestor_bad now_s i = false).
  { apply elem_of_app in Hin as [Hin|Hin].
    - destruct (accepted_chain cfg ks now_v vi now_s Hvi Hl Hn) as [Hf _].
      rewrite Forall_forall in Hf. by apply Hf.
    - destruct actor as [a|]; [|by inversion Hin].
      destruct (accepted_chain cfg ks now_v a now_s (Hva a eq_refl) Hl Hn) as [Hf _].
      rewrite Forall_forall in Hf. by apply Hf. }
  unfold ancestor_bad in Hbad. apply orb_false_iff in Hbad as [_ Hbad]. lia.
Qed.

Lemma issued_exp g now_v now_s cfg ks signer backend vi actor e token :
  issued_from g now_v now_s cfg ks signer backend vi actor e token ->
  exp (xc_claims e) <= now_s + MAX_TTL_SECS.
Proof.
  intros [_ _ _ _ (uid & req & Hb) _ _]. rewrite (bu_claims _ _ _ _ Hb).
  cbn [xc_claims issued_claims exp]. unfold exchange_exp, sat_add. cbn [ep_now_s exchange_params]. lia.
Qed.

Lemma issued_decodes g now_v now_s cfg ks signer backend vi actor e token :
  issued_from g now_v now_s cfg ks signer backend vi actor e token ->
  decode_exchanged token (decoding_key signer) [backend] (iss (xc_claims e)) = Ok e.
Proof.
  intros [_ _ _ _ (uid & req & Hb) _ (typ & _ & Ht)].
  eapply encode_decode; [exact Ht|done| |done|].
  - rewrite (bu_claims _ _ _ _ Hb). by eexists.
  - exists backend. split; [by left|]. rewrite (bu_claims _ _ _ _ Hb). apply str_eqb_refl.
Qed.

(** A token whose ancestor is refused until its expiry is never reported active. *)
Lemma refused_inactive g now_v now_s cfg ks signer backend vi actor e token g3 u i T now now_r auth bytes :
  issued_from g now_v now_s cfg ks signer backend vi actor e token ->
  gw_signer g3 = gw_signer g -> gw_nhi g3 = Some u -> rl_wf u ->
  i ∈ av_subject_tokens e ++ av_actor_tokens e -> (now < exp (xc_claims e) -> rl_refuses u i T) ->
  read_token_form bytes = Some token ->
  reports_active (introspect_inner g3 now now_r auth bytes) = false.
Proof.
  intros Hi Hs Hu Hw Hin Hr Hb. destruct (reports_active _) eqn:E; [|done]. exfalso.
  apply introspect_active in E as (token' & auds & e' & Hb' & He' & _).
  rewrite Hb in Hb'. injection Hb' as <-. apply inspect_inv in He' as (u' & Hu' & Hv & Hc).
  rewrite Hu in Hu'. injection Hu' as <-. apply verify_exchange_inv in Hv as (s' & Hs' & Hexp & Hd).
  rewrite Hs, (if_signer _ _ _ _ _ _ _ _ _ _ _ Hi) in Hs'. injection Hs' as <-.
  apply (decode_same _ _ _ _ _ _ _ _ (issued_decodes _ _ _ _ _ _ _ _ _ _ _ Hi)) in Hd as ->.
  unfold check_exchanged_revocation in Hc. cbn zeta in Hc.
  destruct (rs_check_token (gw_exchanged g3) _ _ _ _) as [[|]|]; try done. cbn [map_err] in Hc.
  revert Hc. eapply check_ancestors_refused; [exact Hin|]. eapply rl_check; [done|by apply Hr].
Qed.
End Routes.


(** An operator's revocation of an instance reaches every token exchanged
    from it.  When a token was issued by exchange and an operator then revokes the
    instance of its subject, of any ancestor of its subject or of its actor, no
    introspection reports the token active from then on, whatever else is written
    to or swept from the list meanwhile. *)
Theorem operator_revocation_reaches_exchanged {TL : TokenLibs} {EL : ExchangeLibs} {SJ : SerdeJson}
    {LL : ExchangeLibsLaws} {BR : BodyReaders} {SHA : Sha256} {UT : UnicodeTables}
    {U X : Type} {RU : RevocationStore U} {RX : RevocationStore X} {RLU : RevocationLaws U}
    (g g1 g2 : Gateway U X) (now_v now_s now_r : Z) (uid : str) (bytes admin : list Z)
    (r : TokenExchangeResponse) (cfg cfg1 : ValidatorConfig) (ks ks1 : KeySet) (u u2 : U)
    (auth : list (option str)) (audited : bool) (resp : Response) (audit : AgentIdentity * Value)
    (instance : str) (kind : option str) :
  token_exchange_inner g now_v now_s uid bytes = Issue r ->
  validator g = Some (cfg, ks) -> leeway_secs cfg = DEFAULT_LEEWAY_SECS ->
  gw_identity g1 = Some (cfg1, ks1) -> leeway_secs cfg1 = DEFAULT_LEEWAY_SECS ->
  gw_signer g1 = gw_signer g -> gw_nhi g1 = Some u -> rl_wf u ->
  read_admin_revocation admin = Some (mkAdminRevocation None (Some instance) kind) ->
  admin_revoke_inner g1 now_r auth admin audited = (g2, resp, Some audit) -> gw_nhi g2 = Some u2 ->
  0 <= now_v <= now_s -> now_s <= now_r -> now_r + 1000 <= u64_max ->
  exists req vi actor, read_exchange_form bytes = Ok req /\
    Validator.validate cfg ks now_v (rq_subject_token req) = Ok vi /\
    read_actor cfg ks now_v req = Ok actor /\
    forall i, i ∈ chain_tokens vi ++ match actor with Some a => chain_tokens a | None => [] end ->
    ri_instance_uid i = instance -> 0 <= ri_iat i ->
    forall ops now now' auth' body', Forall (remote_by now) ops ->
    read_token_form body' = Some (resp_access_token r) ->
    reports_active (introspect_inner (set_nhi g2 (run_remote u2 ops)) now now' auth' body') = false.
Proof.
  intros H Hv Hl Hi1 Hl1 Hs1 Hu Hw Hadm Hrev Hu2 Hn Hnr Hmax.
  apply exchange_inv in H as (cfg' & ks' & signer & backend & vi & actor & e & H & _ & _ & req & Hreq & Hac & Hva).
  assert (cfg' = cfg /\ ks' = ks) as [-> ->].
  { pose proof (if_validator _ _ _ _ _ _ _ _ _ _ _ H) as Hv'. split; congruence. }
  exists req, vi, actor. do 3 (split; [done|]).
  intros i Hin Hinst Hiat ops now now' auth' body' Hops Hbody.
  assert (Hrec : i ∈ av_subject_tokens e ++ av_actor_tokens e).
  { destruct (if_built _ _ _ _ _ _ _ _ _ _ _ H) as (uid' & rq & Hb). rewrite (bu_claims _ _ _ _ Hb).
    cbn [av_subject_tokens av_actor_tokens exchange_params ep_subject_chain]. by destruct actor. }
  pose proof (recorded_iat _ _ _ _ _ _ _ _ _ _ _ _ H Hl (proj2 Hn) Hrec) as Hle.
  pose proof (issued_exp _ _ _ _ _ _ _ _ _ _ _ H) as Hexp. unfold MAX_TTL_SECS in Hexp.
  destruct (admin_revoke_instance _ _ _ _ _ _ _ _ _ _ _ _ _ Hrev Hadm Hi1 Hu) as (u2' & -> & Hri).
  cbn in Hu2. injection Hu2 as <-.
  pose proof (rl_sweep_wf u now_r Hw) as Hw1.
  unfold admin_cutoff, admin_expires_at, admin_cutoff, sat_add, MAX_TTL_SECS in Hri.
  unfold sat_add in Hle. rewrite Hl1 in Hri. unfold DEFAULT_LEEWAY_SECS in *.
  subst instance. assert (Hcut : 0 <= ri_iat i <= Z.min (now_r + 30) u64_max) by lia.
  pose proof (rl_instance _ i _ _ _ Hw1 Hcut Hri) as Href.
  assert (Hw2 : rl_wf u2').
  { change u2' with (u2', Ok tt : result unit str).1. rewrite <- Hri. apply rl_instance_wf; [lia|done]. }
  eapply (refused_inactive g now_v now_s cfg ks signer backend vi actor e); [exact H|done|done| |exact Hrec| |exact Hbody].
  - by eapply run_remote_wf.
  - intros Hlive. apply run_remote_refuses; [|done|exact Href].
    eapply Forall_impl; [exact Hops|]. intros o. apply remote_by_mono. lia.
Qed.

(** A holder's revocation ends the token.  When a holder presents a token the
    gateway issued and the revocation succeeds, no introspection reports the
    token active afterwards, whatever is written to or swept from the list of
    exchanged tokens meanwhile; presenting it again changes nothing for the
    caller. *)
Theorem holder_revocation_ends_the_token {TL : TokenLibs} {EL : ExchangeLibs} {SJ : SerdeJson}
    {LL : ExchangeLibsLaws} {BR : BodyReaders} {SHA : Sha256} {UT : UnicodeTables}
    {U X : Type} {RU : RevocationStore U} {RX : RevocationStore X} {RLX : RevocationLaws X}
    (g g' : Gateway U X) (now_r : Z) (token : str) (e : ExchangedClaims)
    (outcome : option (AgentIdentity * Value)) (cfg : ValidatorConfig) (ks : KeySet) (u : U)
    (ops : list rev_op) (now now' : Z) (auth : list (option str)) (body : list Z) :
  verify_exchange g now_r token (cfg_backends g) true = Ok e ->
  gw_identity g = Some (cfg, ks) -> gw_nhi g = Some u -> 0 <= leeway_secs cfg -> exp (xc_claims e) <= u64_max ->
  rl_wf (gw_exchanged g) -> revoke_verified g now_r token = (g', Ok outcome) ->
  Forall (remote_by now) ops -> read_token_form body = Some token ->
  reports_active (introspect_inner (set_exchanged g' (run_remote (gw_exchanged g') ops)) now now' auth body) = false.
Proof.
  intros Hve Hi Hu Hl Hmax Hw Hr Hops Hbody. unfold revoke_verified in Hr.
  assert (exists cfg', validator g = Some (cfg', ks) /\ leeway_secs cfg' = leeway_secs cfg) as (cfg' & Hv & Hl').
  { unfold validator. rewrite Hi, Hu. by eexists. }
  rewrite Hv, Hu in Hr. unfold revocation_target in Hr. rewrite Hve in Hr.
  unfold sweep_and_revoke in Hr. set (i := revocation_identity (xc_claims e)).
  destruct (rs_try_revoke_token _ _ _ _) as [x o] eqn:Er in Hr.
  pose proof (rl_sweep_wf (gw_exchanged g) now_r Hw) as Hw1.
  assert (Hg : g' = set_exchanged g x /\ exists o', o = Ok o').
  { destruct o as [[|]|]; simplify_eq; eauto. }
  destruct Hg as [-> [o' ->]]. cbn [gw_exchanged set_exchanged].
  pose proof (rl_revoke_token _ i _ _ _ Hw1 Er) as Href.
  pose proof (rl_revoke_token_wf _ (iss (xc_claims e)) (jti (xc_claims e))
    (sat_add (exp (xc_claims e)) (leeway_secs cfg')) Hw1) as Hw2. rewrite Er in Hw2. cbn [fst] in Hw2.
  destruct (reports_active _) eqn:E; [|done]. exfalso.
  apply introspect_active in E as (token' & auds & e' & Hb' & He' & _).
  rewrite Hbody in Hb'. injection Hb' as <-. apply inspect_inv in He' as (u' & Hu' & Hv' & Hc).
  apply verify_exchange_inv in Hv' as (signer & Hs & Hexp & Hd). cbn [gw_signer set_exchanged] in Hs.
  destruct (verify_exchange_decodes _ _ _ _ _ _ Hve) as (signer' & Hs' & Hd'). rewrite Hs in Hs'. injection Hs' as <-.
  apply (decode_same _ _ _ _ _ _ _ _ Hd') in Hd as ->.
  destruct (run_remote_refuses ops x i (sat_add (exp (xc_claims e)) (leeway_secs cfg'))) as [Hw3 Href3]; [|done|done|].
  { eapply Forall_impl; [exact Hops|]. intros op. apply remote_by_mono. unfold sat_add. lia. }
  apply (rl_check _ i _ Hw3) in Href3. unfold check_exchanged_revocation in Hc. cbn zeta in Hc.
  cbn [gw_exchanged set_exchanged] in Hc. change (ri_iss i) with (iss (xc_claims e)) in Href3.
  destruct (rs_check_token _ _ _ _ _) as [[|]|] eqn:Ec in Hc; try done.
Qed.

(** * A concrete gateway *)

#[global] Instance ActorClaim_eq_dec : EqDecision ActorClaim.
Proof.
  unfold EqDecision, Decision. fix IH 1. intros [s [i|]] [s' [i'|]].
  - destruct (decide (s = s')) as [->|]; [|by right; intros [=]].
    destruct (IH i i') as [->|]; [by left|by right; intros [=]].
  - by right.
  - by right.
  - destruct (decide (s = s')) as [->|]; [by left|by right; intros [=]].
Defined.

#[global] Instance Audience_eq_dec : EqDecision Audience.
Proof. solve_decision. Defined.
#[global] Instance NhiClaims_eq_dec : EqDecision NhiClaims.
Proof. solve_decision. Defined.
#[global] Instance ExchangedClaims_eq_dec : EqDecision ExchangedClaims.
Proof. solve_decision. Defined.
#[global] Instance Header_eq_dec : EqDecision Header.
Proof. solve_decision. Defined.

(** The delegated identity of the validator's sample, exchanged for one backend.
    The printer writes nothing, so a token is its dots and its signature. *)
Module RoutesSample.

Definition printer : SerdeJson := ExchangeSample.printer.

Definition token : str := repeat 120 88.
Definition header : Header := signer_header (lit "gk") (lit "JWT").

Definition claims : ExchangedClaims := ExchangeSample.claims.

Definition libs : TokenLibs := {|
  DecodingKey := unit;
  decode_header t :=
    Ok (if str_eqb t token then header else mkHeader EdDSA (Some (lit "k")) None None (Some None));
  from_ed_pem _ := Ok tt;
  from_ed_components _ := Ok tt;
  from_secret _ := tt;
  Validator.decode := Sample.decode;
  signed_by t _ c := Sample.claims_of t = Some c;
  decode_sound := Sample.decode_checks;
  b64url_decode s := Ok s;
  compile_regex p := Ok (fun s => str_eqb s p);
  value_debug _ := [];
|}.

(** The one token there is carries the one set of claims. *)
Definition jwt : @ExchangeLibs libs := @Build_ExchangeLibs libs unit (fun _ => tt)
  (fun h e _ => if bool_decide (h = header) && bool_decide (e = claims) then Ok token else Err [])
  (fun _ => 0)
  (fun t _ auds issuer =>
     if str_eqb t token && existsb (str_eqb (lit "b")) auds && str_eqb issuer (lit "av")
     then Ok claims else Err [])
  (fun _ _ _ => false).

Lemma encode_inv h e k t : @encode libs jwt h e k = Ok t -> t = token /\ h = header /\ e = claims.
Proof. cbn. do 2 case_bool_decide; try done. by intros [= <-]. Qed.

Lemma jwt_laws : @ExchangeLibsLaws libs jwt printer.
Proof.
  split.
  - intros h e k t (-> & -> & ->)%encode_inv. reflexivity.
  - intros h e k t auds issuer (-> & -> & ->)%encode_inv _ _ Hi (a & Ha & Hc).
    change (str_eqb (lit "b") a = true) in Hc. apply str_eqb_eq in Hc as <-. change (lit "av" = issuer) in Hi.
    subst issuer. cbn [decode_exchanged jwt]. rewrite !str_eqb_refl. cbn [andb].
    assert (existsb (str_eqb (lit "b")) auds = true) as ->; [|done].
    apply existsb_exists. exists (lit "b"). split; [by apply list_elem_of_In|apply str_eqb_refl].
  - intros t k auds issuer e auds' issuer' e'. cbn [decode_exchanged jwt]. case_match; [|done]. intros [= <-].
    case_match; [|done]. by intros [= <-].
  - intros h e k t (-> & -> & ->)%encode_inv. reflexivity.
Qed.

Definition request : TokenExchangeRequest :=
  mkExchangeRequest TOKEN_EXCHANGE_GRANT_TYPE (lit "leaf") JWT_TOKEN_TYPE (lit "b") None None None.

Definition readers : BodyReaders := {|
  form_pairs _ := None;
  read_exchange_form _ := Ok request;
  read_token_form _ := Some token;
  read_admin_revocation _ := Some (mkAdminRevocation None (Some (lit "u1")) None);
|}.

Definition credential : str := repeat 97 32.
Definition auth : list (option str) := [Some (lit "Bearer " ++ credential)].

Definition signer : @TokenSigner libs jwt := @mkTokenSigner libs jwt tt (lit "gk").

Definition validator_config : ValidatorConfig :=
  allow_issuers (validator_new (lit "av")) [lit "issuer"].

Definition gateway : @Gateway libs jwt InMemoryRevocation.t InMemoryRevocation.t :=
  @mkGateway libs jwt _ _ (Some (validator_config, Sample.key_set)) (Some InMemoryRevocation.new)
    InMemoryRevocation.new (Some signer) false true 300 (lit "av") [lit "b"] 4
    [mkIntrospection (lit "b") (@sha256_hex toy_sha256 (as_bytes credential))]
    [mkOperator (lit "ops") (@sha256_hex toy_sha256 (as_bytes credential))].

Definition reply : TokenExchangeResponse :=
  mkExchangeResponse token JWT_TOKEN_TYPE (lit "Bearer") 300 (Some (lit "fs:read")).

Lemma exchanges : @token_exchange_inner libs jwt printer readers ascii_tables _ _ _ gateway 1200 1200 (lit "x1") [] =
  Issue reply.
Proof. vm_compute. reflexivity. Qed.

Lemma validates : @validator libs jwt _ _ _ gateway =
  Some (set_revocation_store validator_config InMemoryRevocation.new, Sample.key_set).
Proof. reflexivity. Qed.

(** The operator revokes the root of the chain. *)
Definition revocation : @Gateway libs jwt InMemoryRevocation.t InMemoryRevocation.t * Response
    * option (AgentIdentity * Value) :=
  @admin_revoke_inner libs jwt readers toy_sha256 _ _ _ _ gateway 1250 auth [] true.
Definition after_revocation : @Gateway libs jwt InMemoryRevocation.t InMemoryRevocation.t := revocation.1.1.

Lemma active_before : reports_active
  (@introspect_inner libs jwt readers toy_sha256 _ _ _ _ gateway 1250 1250 auth []) = true.
Proof. vm_compute. reflexivity. Qed.
End RoutesSample.


(** The operator revokes the root agent, another writer sweeps; the token that
    was active before is not any more. *)
Lemma operator_revocation_reaches_exchanged_witness :
  reports_active (@introspect_inner RoutesSample.libs RoutesSample.jwt RoutesSample.readers toy_sha256 _ _ _ _
    RoutesSample.gateway 1250 1250 RoutesSample.auth []) = true /\
  reports_active (@introspect_inner RoutesSample.libs RoutesSample.jwt RoutesSample.readers toy_sha256 _ _ _ _
      (@set_nhi RoutesSample.libs RoutesSample.jwt _ _ RoutesSample.after_revocation
         (run_remote (default InMemoryRevocation.new (gw_nhi RoutesSample.after_revocation)) [RevSweep 1300]))
      1300 1300 RoutesSample.auth []) = false.
Proof.
  split; [exact RoutesSample.active_before|].
  destruct (@operator_revocation_reaches_exchanged RoutesSample.libs RoutesSample.jwt RoutesSample.printer
    RoutesSample.jwt_laws RoutesSample.readers toy_sha256 ascii_tables _ _ _ InMemoryRevocation.store in_memory_laws
    RoutesSample.gateway RoutesSample.gateway RoutesSample.after_revocation 1200 1200 1250 (lit "x1") [] []
    RoutesSample.reply _ RoutesSample.validator_config _ Sample.key_set InMemoryRevocation.new
    (default InMemoryRevocation.new (gw_nhi RoutesSample.after_revocation)) RoutesSample.auth true
    RoutesSample.revocation.1.2 (default (admin_identity (mkAdminRevocation None None None), Null) RoutesSample.revocation.2)
    (lit "u1") None
    RoutesSample.exchanges RoutesSample.validates eq_refl eq_refl eq_refl eq_refl eq_refl I eq_refl
    ltac:(vm_compute; reflexivity) ltac:(vm_compute; reflexivity) ltac:(lia) ltac:(lia)
    ltac:(unfold u64_max; lia)) as (req & vi & actor & Hreq & Hvi & _ & H).
  injection Hreq as <-. vm_compute in Hvi. injection Hvi as <-.
  apply (H (revocation_identity Sample.root_claims)); [by right; left|reflexivity|cbn; lia| |reflexivity].
  apply Forall_singleton. cbn. lia.
Defined.

Lemma holder_revocation_ends_the_token_witness :
  reports_active (@introspect_inner RoutesSample.libs RoutesSample.jwt RoutesSample.readers toy_sha256 _ _ _ _
    (@set_exchanged RoutesSample.libs RoutesSample.jwt _ _
       (@revoke_verified RoutesSample.libs RoutesSample.jwt RoutesSample.printer _ _ _ _
          RoutesSample.gateway 1250 RoutesSample.token).1
       (run_remote (gw_exchanged (@revoke_verified RoutesSample.libs RoutesSample.jwt RoutesSample.printer _ _ _ _
          RoutesSample.gateway 1250 RoutesSample.token).1) [RevSweep 1300])) 1300 1300 RoutesSample.auth []) = false.
Proof.
  apply (@holder_revocation_ends_the_token RoutesSample.libs RoutesSample.jwt RoutesSample.printer
    RoutesSample.jwt_laws RoutesSample.readers toy_sha256 ascii_tables _ _ _ InMemoryRevocation.store in_memory_laws
    RoutesSample.gateway _ 1250 RoutesSample.token RoutesSample.claims
    (Some (revoked_identity 1250 (xc_claims RoutesSample.claims),
           revoked_payload (lit "exchanged") (xc_claims RoutesSample.claims)))
    RoutesSample.validator_config Sample.key_set InMemoryRevocation.new);
    [vm_compute; reflexivity|reflexivity|reflexivity|vm_compute; discriminate|vm_compute; discriminate|done
    |vm_compute; reflexivity|apply Forall_singleton; cbn; lia|reflexivity].
Defined.
