(* ===== verification/Worker.v ===== *)
(** [av-harness/src/worker.rs]: what happens to a job once a worker shard has taken
    it: analysis, the event and its journal record (phase A), then everything that
    makes the job visible outside (phase B), singly or as a group-committed batch;
    and the durable markers of responses in flight.

    The spool directory is a map from relative paths to files.  A file knows how
    many of its bytes are known to be on disk, so that a crash can be stated.  Every
    operation that leaves the process consumes one tick of the environment, which
    decides what it answers and where it stops when it fails. *)

From S2P Require Import Prelude Rust CoreBase Json Float LoopDetect Core Jcs Rpc Compress Serde Events.
From S2P Require Import Receipts Journal Atif Session.

(** * Jobs and records *)

Record AtifCapture := mkCapture {
  ac_source : Atif.Source;
  ac_message : Value;
  ac_reasoning_content : option str;
  ac_model_name : option str;
  ac_tool_calls : option (list Atif.ToolCall);
  ac_observation : option Atif.Observation;
  ac_llm_call_count : option Z;
}.

Record ResponseAttempt := mkAttempt { ra_id : str; ra_terminal : bool }.

#[global] Instance ResponseAttempt_eq_dec : EqDecision ResponseAttempt.
Proof. solve_decision. Defined.

#[global] Instance EventClass_eq_dec : EqDecision EventClass.t.
Proof. solve_decision. Defined.

#[global] Instance StatusId_eq_dec : EqDecision StatusId.t.
Proof. solve_decision. Defined.

(** [wj_session] is the reference to the shared session. *)
Record WorkerJob := mkJob {
  wj_session : addr;
  wj_identity : AgentIdentity;
  wj_class : EventClass.t;
  wj_payload : Value;
  wj_text : str;
  wj_analyze_loop : bool;
  wj_status : StatusId.t;
  wj_stop_reason : option StopReason.t;
  wj_native_stop_reason : option str;
  wj_metrics : EventMetrics;
  wj_prompt_token_correction : Z;
  wj_cost_usd_micros : Z;
  wj_atif : option AtifCapture;
  wj_response_marker : option str;
  wj_response_attempt : option ResponseAttempt;
}.

Record InFlightResponse := mkInFlight {
  if_session_id : str;
  if_attempt_id : str;
  if_request_digest : str;
}.

Record ActiveJournalRecord := mkRecord {
  jr_event : Value;
  jr_identity : AgentIdentity;
  jr_atif_step : option Atif.Step;
  jr_tool_calls : Z;
  jr_tool_allowed : Z;
  jr_tool_blocked : Z;
  jr_prompt_tokens : Z;
  jr_completion_tokens : Z;
  jr_cached_tokens : Z;
  jr_cost_usd_micros : Z;
  jr_prompt_token_correction : Z;
  jr_stop_reason_id : option Z;
  jr_response_attempt : option ResponseAttempt;
}.

(** [RecoveredTotals] has the fields of the session's [Totals]. *)
Definition RecoveredTotals : Type := Totals.

(** The errors a job ends with: messages of the worker's own, and those of the
    crates it calls, kept as values where the code renders them. *)
Inductive WorkerError :=
| WText (s : str)
| WCore (e : CoreError)
| WJcs (e : JcsError)
| WJournal (e : Journal.JournalError)
| WIo (e : str).

(** ** The accounting fold *)

Definition validate_tool_accounting (t : RecoveredTotals) : result unit WorkerError :=
  match u64_checked_add (tool_allowed t) (tool_blocked t) with
  | Some classified =>
      if classified >? tool_calls t then Err (WText (lit "journal has inconsistent tool accounting"))
      else Ok tt
  | None => Err (WText (lit "journal has inconsistent tool accounting"))
  end.

Definition store_on (t : RecoveredTotals) (_ : Totals) : Totals := t.

Definition checked (current value : Z) (field : string) : result Z WorkerError :=
  match u64_checked_add current value with
  | Some total =>
      if total <=? JCS_SAFE_MAX then Ok total
      else Err (WText (lit "recovered " ++ lit field ++ lit " overflow"))
  | None => Err (WText (lit "recovered " ++ lit field ++ lit " overflow"))
  end.

Definition checked_cost (current value : Z) : result Z WorkerError :=
  match u64_checked_add current value with
  | Some total =>
      if total <=? COST_MICROS_MAX then Ok total
      else Err (WText (lit "recovered cost exceeds ATIF strict validator ceiling"))
  | None => Err (WText (lit "recovered cost exceeds ATIF strict validator ceiling"))
  end.

(** [u64::checked_add_signed]. *)
Definition checked_add_signed (a d : Z) : option Z :=
  if (0 <=? a + d) && (a + d <=? u64_max) then Some (a + d) else None.

Definition correct_prompt (prompt correction : Z) : result Z WorkerError :=
  if negb (correction =? 0) then
    match checked_add_signed prompt correction with
    | Some total =>
        if total <=? JCS_SAFE_MAX then Ok total
        else Err (WText (lit "recovered prompt token correction underflow/overflow"))
    | None => Err (WText (lit "recovered prompt token correction underflow/overflow"))
    end
  else Ok prompt.

(** [fold_into] leaves what it had written when a later field fails; its callers
    drop the totals then, so the error carries no totals. *)
Definition fold_into (r : ActiveJournalRecord) (t : RecoveredTotals)
  : result RecoveredTotals WorkerError :=
  let? calls := checked (tool_calls t) (jr_tool_calls r) "tool calls" in
  let? allowed := checked (tool_allowed t) (jr_tool_allowed r) "allowed tools" in
  let? blocked := checked (tool_blocked t) (jr_tool_blocked r) "blocked tools" in
  let? prompt := checked (prompt_tokens t) (jr_prompt_tokens r) "prompt tokens" in
  let? prompt := correct_prompt prompt (jr_prompt_token_correction r) in
  let? completion := checked (completion_tokens t) (jr_completion_tokens r) "completion tokens" in
  let? cached := checked (cached_tokens t) (jr_cached_tokens r) "cached tokens" in
  let? cost := checked_cost (cost_usd_micros t) (jr_cost_usd_micros r) in
  Ok (mkTotals calls allowed blocked prompt completion cached cost).

(** The snapshot is folded, and stored only when every field was accepted. *)
Definition apply_to_totals (r : ActiveJournalRecord) (t : Totals) : Totals * result unit WorkerError :=
  match fold_into r t with
  | Ok snapshot => (store_on snapshot t, Ok tt)
  | Err e => (t, Err e)
  end.

(** ** Content *)

(** [av_redact::RedactionEngine], as the worker uses it. *)
Record RedactionEngine := mkRedaction {
  redact_value : Value -> Value;
  redact_user_value : Value -> Value;
}.

Record ContentRecord := mkContent {
  cr_session_id : str;
  cr_event_uid : str;
  cr_class : EventClass.t;
  cr_success : bool;
  cr_identity : AgentIdentity;
  cr_time_ms : Z;
  cr_event : Value;
  cr_source : option str;
  cr_message : option Value;
  cr_reasoning : option str;
  cr_model : option str;
  cr_tool_calls : option Value;
  cr_observation : option Value;
  cr_prompt_tokens : option Z;
  cr_completion_tokens : option Z;
  cr_finish_reason : option str;
  cr_attempt_id : option str;
  cr_terminal : bool;
}.

Record PublishAck := mkAck { ack_topic : str; ack_partition : Z; ack_offset : Z }.

Record BrokerAckRecord := mkBrokerAck { ba_session_id : str; ba_event_uid : str; ba_ack : PublishAck }.

(** The writers and readers [serde]'s derive makes for the types that are sealed or
    exported. *)
Class RecordSerde := {
  record_to : ActiveJournalRecord -> Value;
  record_from : Value -> option ActiveJournalRecord;
  marker_to : InFlightResponse -> Value;
  marker_from : Value -> option InFlightResponse;
  broker_ack_to : BrokerAckRecord -> Value;
  tool_calls_json : list Atif.ToolCall -> option Value;
  observation_json : Atif.Observation -> option Value;
}.

(** A job whose record is appended and which still owes the rest. *)
Record PersistedJob := mkPersisted {
  pj_identity : AgentIdentity;
  pj_class : EventClass.t;
  pj_value : Value;
  pj_event_uid : str;
  pj_record : ActiveJournalRecord;
  pj_response_marker : option str;
  pj_content : option ContentRecord;
}.

(** * The surroundings *)

(** What becomes of one operation outside the process: done, or stopped after [n]
    bytes (for an operation without bytes: before it took effect when [n] is zero,
    after it otherwise) and reported as an error. *)
Inductive Fate := Fine | Stops (n : nat) (e : str).

Record File := mkFile { bytes : list Z; synced : nat }.

Abbreviation Spool := (gmap str File).

(** One event on the bus. *)
Record Published := mkPublished { pb_topic : str; pb_key : str; pb_value : Value; pb_uid : str }.

(** The fates are those of the successive operations; the clock, the fresh uids and
    the answers of the embedder and of the vector sink are drawn in order; the
    acknowledgment is that of the event at its place on the bus. *)
Record Env := mkEnv {
  fate : nat -> Fate;
  clock_ms : nat -> Z;
  fresh_uid : nat -> str;
  embedding : nat -> str -> result (list f32) str;
  nearest_similarity : nat -> str -> list f32 -> result (option f32) str;
  ack_of : nat -> PublishAck;
}.

Record WorkerConfig := mkWorkerConfig {
  has_spool : bool;
  journal_key : list Z;
  redaction : option RedactionEngine;
  has_dispatcher : bool;
  pkg_version : str;
}.

(** The session the jobs belong to, the spool, the bus, the exported content, and
    the number of operations and of draws so far. *)
Record WS := mkWS {
  ws_session : Session;
  ws_spool : Spool;
  ws_bus : list Published;
  ws_exported : list ContentRecord;
  ws_ticks : nat;
  ws_draws : nat;
}.

(** ** The monad *)

Definition W (A : Type) : Type := WS -> WS * result A WorkerError.

Definition wret {A} (a : A) : W A := fun st => (st, Ok a).
Definition wthrow {A} (e : WorkerError) : W A := fun st => (st, Err e).
Definition wbind {A B} (m : W A) (k : A -> W B) : W B := fun st =>
  match m st with
  | (st', Ok a) => k a st'
  | (st', Err e) => (st', Err e)
  end.

Declare Scope worker_scope.
Notation "'let*' x ':=' m 'in' k" := (wbind m (fun x => k))
  (at level 10, x pattern, m at level 100, k at level 200) : worker_scope.
Notation "m ';;' k" := (wbind m (fun _ => k)) (at level 100, right associativity) : worker_scope.
Open Scope worker_scope.

Definition wof {A E} (f : E -> WorkerError) (r : result A E) : W A :=
  match r with Ok a => wret a | Err e => wthrow (f e) end.
Definition wwhen (b : bool) (m : W unit) : W unit := if b then m else wret tt.
Definition the_session : W Session := fun st => (st, Ok (ws_session st)).
Definition on_session (f : Session -> Session) : W unit := fun st =>
  (st<|ws_session := f (ws_session st)|>, Ok tt).
Definition look {A} (f : WS -> A) : W A := fun st => (st, Ok (f st)).

Section Worker.
Context {UT : UnicodeTables} {R : Ryu} {SHA : Sha256} {HM : HmacSha256} {SJ : SerdeJson} {JR : JsonReader}.
Context {RS : RecordSerde}.
Context (env : Env) (cfg : WorkerConfig).

Definition tick : W nat := fun st => (st<|ws_ticks := S (ws_ticks st)|>, Ok (ws_ticks st)).
Definition draw : W nat := fun st => (st<|ws_draws := S (ws_draws st)|>, Ok (ws_draws st)).

(** An operation on the spool: [f None] when it is done, [f (Some n)] what it leaves
    when it stops. *)
Definition spool_op (f : option nat -> Spool -> Spool) : W unit :=
  let* t := tick in fun st =>
  match fate env t with
  | Fine => (st<|ws_spool := f None (ws_spool st)|>, Ok tt)
  | Stops n e => (st<|ws_spool := f (Some n) (ws_spool st)|>, Err (WIo e))
  end.

(** ** Files *)

(** [write_all] on a file opened to append, which [open] created when absent. *)
Definition append_bytes (path : str) (data : list Z) (stop : option nat) (sp : Spool) : Spool :=
  let old := default (mkFile [] 0) (sp !! path) in
  let written := match stop with None => data | Some n => take n data end in
  <[path := mkFile (bytes old ++ written) (synced old)]> sp.

Definition open_append (path : str) (stop : option nat) (sp : Spool) : Spool :=
  match stop with
  | Some O => sp
  | _ => match sp !! path with Some _ => sp | None => <[path := mkFile [] 0]> sp end
  end.

(** [sync_data]: nothing is known about the bytes of a sync that failed. *)
Definition sync_file (path : str) (stop : option nat) (sp : Spool) : Spool :=
  match stop, sp !! path with
  | None, Some f => <[path := mkFile (bytes f) (length (bytes f))]> sp
  | _, _ => sp
  end.

(** [write_atomic]: the whole file, durably, or nothing; an error after the rename
    leaves the file visible and its durability unknown. *)
Definition replace_file (path : str) (data : list Z) (stop : option nat) (sp : Spool) : Spool :=
  match stop with
  | Some O => sp
  | Some _ => <[path := mkFile data 0]> sp
  | None => <[path := mkFile data (length data)]> sp
  end.

Definition delete_file (path : str) (stop : option nat) (sp : Spool) : Spool :=
  match stop with Some O => sp | _ => delete path sp end.

(** Reading: [Ok None] is [ErrorKind::NotFound]. *)
Definition read_file (cap : Z) (path : str) : W (option (list Z)) :=
  let* t := tick in fun st =>
  match fate env t with
  | Stops _ e => (st, Err (WIo e))
  | Fine =>
      (st, match ws_spool st !! path with
           | None => Ok None
           | Some f => if Z.of_nat (length (bytes f)) >? cap
                       then Err (WIo (lit "file too large")) else Ok (Some (bytes f))
           end)
  end.

Definition file_exists (path : str) : W bool :=
  look (fun st => bool_decide (is_Some (ws_spool st !! path))).

Definition MAX_CONTROL_BYTES : Z := 1024 * 1024.
Definition MAX_ATIF_BYTES : Z := 64 * 1024 * 1024.

(** ** Paths *)

Definition stem (sid : str) : str := take 32 (sha256_hex (as_bytes sid)).
Definition events_path (sid : str) : str := stem sid ++ lit ".events.ndjson".
Definition metadata_path (sid : str) : str := stem sid ++ lit ".session.json".
Definition ack_journal_path (sid : str) : str := stem sid ++ lit ".acks.ndjson".
Definition INFLIGHT_RESPONSES : str := lit "inflight-responses".
Definition response_marker_path (sid attempt : str) : str :=
  INFLIGHT_RESPONSES ++ lit "/" ++ take 32 (sha256_hex (as_bytes (sid ++ lit ":" ++ attempt))) ++ lit ".json".

(** * Phase A *)

(** ** The journal *)

Definition metadata_payload (s : Session) : Value :=
  Object (member "journal_version" (ser_u 2) ++ member "session_id" (JString (id s))
          ++ member "identity" (Wire.agent_to (identity s))
          ++ member "principal_binding" (ser_opt JString (principal_binding s))
          ++ member "workflow" (JString (Workflow.as_str (workflow s)))).

(** Older anonymous journals have no binding member. *)
Definition upgrade_metadata (s : Session) (stored : Value) : Value :=
  match principal_binding s, value_get (lit "principal_binding") stored with
  | None, None => value_insert (lit "principal_binding") Null stored
  | _, _ => stored
  end.

Definition ensure_metadata (s : Session) : W unit :=
  let path := metadata_path (id s) in
  let* present := file_exists path in
  if negb present then
    let* sealed := wof WJournal (Journal.seal (fun v => v) (journal_key cfg) (lit "metadata") 0 (metadata_payload s)) in
    spool_op (replace_file path sealed)
  else
    let* found := read_file MAX_CONTROL_BYTES path in
    let* data := wof WIo (ok_or found (lit "not found")) in
    let* stored := wof WJournal (Journal.open Some (journal_key cfg) (lit "metadata") 0 data) in
    if value_eqb (upgrade_metadata s stored) (metadata_payload s) then wret tt
    else wthrow (WText (lit "journal metadata does not match session workflow, identity, and principal")).

(** The last call makes a new directory entry durable; it changes no file. *)
Definition append_journal (s : Session) (line : list Z) (sync : bool) : W unit :=
  ensure_metadata s ;;
  let path := events_path (id s) in
  let* present := file_exists path in
  spool_op (open_append path) ;;
  spool_op (append_bytes path line) ;;
  spool_op (append_bytes path [10]) ;;
  wwhen sync (spool_op (sync_file path)) ;;
  wwhen (negb present) (spool_op (fun _ sp => sp)).

Definition active_domain (sid : str) : str := sid ++ lit ":active".

Definition append_active_event_journal (r : ActiveJournalRecord) (sync : bool) : W unit :=
  let* s := the_session in
  let index := journal_index s in
  let* line := wof WJournal (Journal.seal record_to (journal_key cfg) (active_domain (id s)) index r) in
  append_journal s line sync ;;
  fun st => let '(s', r) := commit_journal_index (ws_session st) index in
            (st<|ws_session := s'|>, map_err WText r).

(** ** Analysis *)

Definition is_llm_agent_response (job : WorkerJob) : bool :=
  match wj_atif job with
  | Some c => bool_decide (ac_source c = Atif.AgentSource) && negb (bool_decide (ac_llm_call_count c = Some 0))
  | None => false
  end.

Definition step_tokens (m : EventMetrics) : Z :=
  sat_add (default 0 (em_prompt_tokens m)) (default 0 (em_completion_tokens m)).

(** The breaker observes the step; an embedder or a vector sink that fails only
    costs the observation or the similarity.  Recording the vector changes nothing
    here. *)
Definition analyze (job : WorkerJob) : W (option Breaker.BreakerVerdict) :=
  if negb (wj_analyze_loop job) then wret None
  else
    let* t := tick in
    match fate env t with
    | Stops _ e => wthrow (WIo e)
    | Fine =>
        let* d := draw in
        match embedding env d (wj_text job) with
        | Err _ => wret None
        | Ok v =>
            let* u := draw in
            let* s := the_session in
            let similarity := match nearest_similarity env u (session_scope s) v with
                              | Ok o => o | Err _ => None end in
            let '(inner, verdict) :=
              Breaker.observe_embedding_with_similarity (loop_state s).1 (loop_state s).2 v
                (step_tokens (wj_metrics job)) similarity in
            on_session (fun s => s<|loop_state := ((loop_state s).1, inner)|>) ;;
            wret (Some verdict)
        end
    end.

Definition ser_f32 (f : f32) : Value :=
  if is_finite f then Number (Float (f64_from_f32 f)) else Null.

Definition action_name (a : Breaker.BreakerAction) : str :=
  match a with
  | Breaker.Reject => lit "reject" | Breaker.Inject => lit "inject" | Breaker.Abort => lit "abort"
  end.

Definition terminal_action (a : Breaker.BreakerAction) : bool :=
  match a with Breaker.Abort | Breaker.Reject => true | Breaker.Inject => false end.

(** Class, status, stop reason and payload of the event: a trip replaces them. *)
Definition classify (job : WorkerJob) (verdict : option Breaker.BreakerVerdict)
  : EventClass.t * StatusId.t * option StopReason.t * Value :=
  match verdict with
  | Some (Breaker.Tripped delta streak tokens action) =>
      (EventClass.StopReason, StatusId.Failure, Some StopReason.LoopDetected,
       Object (member "delta" (ser_f32 delta) ++ member "streak" (ser_u streak)
               ++ member "tokens_consumed" (ser_u tokens)
               ++ member "action" (JString (action_name action))))
  | _ => (wj_class job, wj_status job, wj_stop_reason job, wj_payload job)
  end.

Definition latch_trip (verdict : option Breaker.BreakerVerdict) (s : Session) : Session :=
  match verdict with
  | Some (Breaker.Tripped _ _ _ action) =>
      if terminal_action action then latch_enforcement s StopReason.LoopDetected else s
  | _ => s
  end.

(** ** The event, the step and the record *)

Definition build_event (job : WorkerJob) (class : EventClass.t) (status : StatusId.t)
    (stop : option StopReason.t) (payload : Value) : W OcsfEvent :=
  let* s := the_session in
  let n := (next_seq s).2 in
  on_session (fun s => (next_seq s).1) ;;
  let b := Builder.metrics (wj_metrics job)
             (Builder.payload payload
               (Builder.status status (Builder.new class (id s) (wj_identity job) n))) in
  wwhen (is_some stop) (on_session (fun s => match stop with Some r => record_stop_reason s r | None => s end)) ;;
  let b := match stop with
           | Some r => match wj_native_stop_reason job with
                       | Some native => Builder.stop_reason_native r native b
                       | None => Builder.stop_reason r b
                       end
           | None => b
           end in
  let* t := draw in
  wof WCore (Builder.build (clock_ms env t) (fresh_uid env t) (pkg_version cfg) b).

Definition atif_step_of (job : WorkerJob) (c : AtifCapture) (now : Z) : Atif.Step :=
  let m := wj_metrics job in
  Atif.mkStep 0 (Some (iso8601_ms now)) (ac_source c) (ac_message c) None (ac_reasoning_content c)
    (ac_model_name c) (ac_tool_calls c) (ac_observation c)
    (if bool_decide (ac_source c = Atif.AgentSource) && negb (bool_decide (ac_llm_call_count c = Some 0))
     then Some (Atif.mkStepMetrics (Some (default 0 (em_prompt_tokens m)))
                  (Some (default 0 (em_completion_tokens m))) (Some (default 0 (em_cached_tokens m)))
                  (Some (f64_div (f64_of_int (wj_cost_usd_micros job)) (f64_of_int USD_MICROS_PER_DOLLAR)))
                  None None None None)
     else None)
    None (ac_llm_call_count c) None.

Definition build_step (job : WorkerJob) : W (option Atif.Step) :=
  let* s := the_session in
  match workflow s with
  | Workflow.Signed => wret None
  | Workflow.Unsigned =>
      let* c := wof WText (ok_or (wj_atif job) (lit "unsigned worker job has no ATIF capture")) in
      let* t := draw in
      wret (Some (atif_step_of job c (clock_ms env t)))
  end.

(** *** Redaction *)

Definition redact_call (e : RedactionEngine) (c : Atif.ToolCall) : Atif.ToolCall :=
  c<|Atif.tl_arguments := redact_user_value e (Atif.tl_arguments c)|>.

(** The observation of a tool authorization repeats the event payload as text. *)
Definition redact_result (e : RedactionEngine) (original : option str) (payload : option Value)
    (r : Atif.ObservationResult) : Atif.ObservationResult :=
  match Atif.or_content r with
  | None => r
  | Some content =>
      let copied := match original, as_str content with
                    | Some o, Some c => str_eqb o c | _, _ => false end in
      let content := match copied, payload with
                     | true, Some p => JString (to_string p)
                     | _, _ => content
                     end in
      r<|Atif.or_content := Some (redact_value e content)|>
  end.

Definition redact_step (e : RedactionEngine) (original : option str) (payload : option Value)
    (s : Atif.Step) : Atif.Step :=
  s<|Atif.st_message := redact_value e (Atif.st_message s)|>
   <|Atif.st_reasoning_content :=
       (fun r => match redact_value e (JString r) with JString x => x | _ => [] end)
         <$> Atif.st_reasoning_content s|>
   <|Atif.st_tool_calls := map (redact_call e) <$> Atif.st_tool_calls s|>
   <|Atif.st_observation :=
       (fun o => Atif.mkObservation (map (redact_result e original payload) (Atif.ob_results o)))
         <$> Atif.st_observation s|>.

Definition redact_audit_capture (value : Value) (step : option Atif.Step) (class : EventClass.t)
    (e : RedactionEngine) : Value * option Atif.Step :=
  let original := match class with
                  | EventClass.ToolCall => to_string <$> value_get (lit "payload") value
                  | _ => None
                  end in
  let value := match value_get (lit "payload") value with
               | Some p => value_insert (lit "payload") (redact_value e p) value
               | None => value
               end in
  (value, redact_step e original (value_get (lit "payload") value) <$> step).

Definition redact_capture (value : Value) (step : option Atif.Step) (class : EventClass.t)
  : W (Value * option Atif.Step) :=
  match redaction cfg with
  | None => wret (value, step)
  | Some e =>
      let* t := tick in
      match fate env t with
      | Fine => wret (redact_audit_capture value step class e)
      | Stops _ err => wthrow (WIo (lit "redaction task failed: " ++ err))
      end
  end.

(** The record is conditioned once, on the class the job was submitted with. *)
Definition build_record (job : WorkerJob) (value : Value) (step : option Atif.Step)
    (status : StatusId.t) (stop_reason_id : option Z) : ActiveJournalRecord :=
  let m := wj_metrics job in
  let is_tool_call := bool_decide (wj_class job = EventClass.ToolCall) in
  let is_response_accounting :=
    is_llm_agent_response job && negb (bool_decide (wj_class job = EventClass.Compression)) in
  let b2z (b : bool) := if b then 1 else 0 in
  {| jr_event := value;
     jr_identity := wj_identity job;
     jr_atif_step := step;
     jr_tool_calls := b2z is_tool_call;
     jr_tool_allowed := b2z (is_tool_call && bool_decide (status = StatusId.Success));
     jr_tool_blocked := b2z (is_tool_call && bool_decide (status = StatusId.Failure));
     jr_prompt_tokens :=
       if bool_decide (wj_class job = EventClass.Compression) then default 0 (em_prompt_tokens m) else 0;
     jr_completion_tokens := if is_response_accounting then default 0 (em_completion_tokens m) else 0;
     jr_cached_tokens := if is_response_accounting then default 0 (em_cached_tokens m) else 0;
     jr_cost_usd_micros := if is_response_accounting then wj_cost_usd_micros job else 0;
     jr_prompt_token_correction := if is_response_accounting then wj_prompt_token_correction job else 0;
     jr_stop_reason_id := stop_reason_id;
     jr_response_attempt := wj_response_attempt job |}.

Definition source_label (s : Atif.Source) : str :=
  match s with
  | Atif.User => lit "user" | Atif.AgentSource => lit "agent" | Atif.System => lit "system"
  end.

(** An unsigned session gives the redacted step, a signed one the capture. *)
Definition content_record (s : Session) (job : WorkerJob) (capture : option AtifCapture)
    (step : option Atif.Step) (class : EventClass.t) (status : StatusId.t) (event : Value)
    (uid : str) (now : Z) : ContentRecord :=
  let make source message reasoning model calls observation :=
    mkContent (id s) uid class (bool_decide (status = StatusId.Success)) (wj_identity job) now event
      source message reasoning model calls observation
      (em_prompt_tokens (wj_metrics job)) (em_completion_tokens (wj_metrics job))
      (wj_native_stop_reason job) (ra_id <$> wj_response_attempt job)
      (match wj_response_attempt job with Some a => ra_terminal a | None => false end) in
  match step, capture with
  | Some p, _ =>
      make (Some (source_label (Atif.st_source p))) (Some (Atif.st_message p)) (Atif.st_reasoning_content p)
        (Atif.st_model_name p) (Atif.st_tool_calls p ≫= tool_calls_json) (Atif.st_observation p ≫= observation_json)
  | None, Some c =>
      make (Some (source_label (ac_source c))) (Some (ac_message c)) (ac_reasoning_content c)
        (ac_model_name c) (ac_tool_calls c ≫= tool_calls_json) (ac_observation c ≫= observation_json)
  | None, None => make None None None None None None
  end.

Definition build_content (job : WorkerJob) (step : option Atif.Step) (class : EventClass.t)
    (status : StatusId.t) (value : Value) (uid : str) : W (option ContentRecord) :=
  if has_dispatcher cfg then
    let* s := the_session in
    let* t := draw in
    let capture := match workflow s with Workflow.Unsigned => None | Workflow.Signed => wj_atif job end in
    wret (Some (content_record s job capture step class status value uid (clock_ms env t)))
  else wret None.

Definition persist_job (job : WorkerJob) (sync_journal : bool) : W (option PersistedJob) :=
  let* s := the_session in
  if capture_failed s then wret None
  else
    let* verdict := analyze job in
    on_session (latch_trip verdict) ;;
    let '(class, status, stop, payload) := classify job verdict in
    let* event := build_event job class status stop payload in
    let* step := build_step job in
    let* captured := redact_capture (Wire.event_to event) step (wj_class job) in
    let '(value, step) := captured in
    let record := build_record job value step status (ev_stop_reason_id event) in
    wwhen (has_spool cfg) (append_active_event_journal record sync_journal) ;;
    let uid := md_uid (ev_metadata event) in
    let* content := build_content job step class status value uid in
    wret (Some (mkPersisted (wj_identity job) class value uid record (wj_response_marker job) content)).

(** * Phase B *)

Definition chain_event (value : Value) (record : ActiveJournalRecord) : W unit :=
  let* s := the_session in
  match workflow s with
  | Workflow.Signed =>
      let* c := wof WJcs (chain_append (chain s) value) in
      on_session (fun s => s<|chain := c|>)
  | Workflow.Unsigned =>
      match jr_atif_step record with
      | None => wthrow (WText (lit "unsigned ATIF step disappeared"))
      | Some _ => on_session note_atif_step
      end
  end.

Definition publish_idempotent (p : Published) : W PublishAck :=
  let* t := tick in fun st =>
  let published := st<|ws_bus := ws_bus st ++ [p]|> in
  match fate env t with
  | Fine => (published, Ok (ack_of env (length (ws_bus st))))
  | Stops O e => (st, Err (WIo e))
  | Stops _ e => (published, Err (WIo e))
  end.

Definition persist_broker_ack (sid uid : str) (ack : PublishAck) : W unit :=
  let* line := wof WJournal (Journal.seal broker_ack_to (journal_key cfg) (lit "broker-ack") 0
                               (mkBrokerAck sid uid ack)) in
  let path := ack_journal_path sid in
  let* present := file_exists path in
  spool_op (open_append path) ;;
  spool_op (append_bytes path line) ;;
  spool_op (append_bytes path [10]) ;;
  spool_op (sync_file path) ;;
  wwhen (negb present) (spool_op (fun _ sp => sp)).

Definition clear_response_marker (sid attempt : str) : W unit :=
  let path := response_marker_path sid attempt in
  let* found := read_file MAX_CONTROL_BYTES path in
  match found with
  | None => wret tt
  | Some data =>
      let* marker := wof WJournal (Journal.open marker_from (journal_key cfg) (lit "in-flight-response") 0 data) in
      if str_eqb (if_session_id marker) sid && str_eqb (if_attempt_id marker) attempt then
        spool_op (delete_file path) ;; spool_op (fun _ sp => sp)
      else wthrow (WText (lit "in-flight response marker does not match completed job"))
  end.

Definition apply_record (r : ActiveJournalRecord) : W unit := fun st =>
  let '(t, res) := apply_to_totals r (totals (ws_session st)) in
  (st<|ws_session := (ws_session st)<|totals := t|>|>, res).

Definition export (o : option ContentRecord) : W unit := fun st =>
  (match o with Some c => st<|ws_exported := ws_exported st ++ [c]|> | None => st end, Ok tt).

Definition finish_job (p : PersistedJob) : W unit :=
  chain_event (pj_value p) (pj_record p) ;;
  let* s := the_session in
  let* ack := publish_idempotent
                (mkPublished (EventClass.topic (pj_class p)) (ag_instance_uid (pj_identity p))
                   (pj_value p) (pj_event_uid p)) in
  wwhen (has_spool cfg) (persist_broker_ack (id s) (pj_event_uid p) ack) ;;
  apply_record (pj_record p) ;;
  match pj_response_marker p with
  | Some attempt => wwhen (has_spool cfg) (clear_response_marker (id s) attempt)
  | None => wret tt
  end ;;
  export (pj_content p).

Definition process_job (job : WorkerJob) : W unit :=
  let* persisted := persist_job job true in
  match persisted with
  | None => wret tt
  | Some p => finish_job p
  end.

(** * Envelopes and batches *)

(** The guards dropped with an envelope; a failed job has marked the session. *)
Definition fail_closed (failed : bool) (st : WS) : WS :=
  if failed then st<|ws_session := mark_capture_failed (ws_session st)|> else st.

Definition release_pending (st : WS) : WS :=
  st<|ws_session := (worker_job_finished (ws_session st)).1|>.

Definition process_envelope (job : WorkerJob) (st : WS) : WS :=
  let '(st', outcome) := process_job job st in
  release_pending (fail_closed (negb (is_ok outcome)) st').

Definition sync_session_journal (sid : str) : W unit :=
  let* present := file_exists (events_path sid) in
  wwhen present (spool_op (sync_file (events_path sid))).

(** Phase A over a batch: one slot and one outcome per job. *)
Fixpoint persist_all (failed : bool) (jobs : list WorkerJob) (st : WS)
  : WS * list (option PersistedJob * result unit WorkerError) :=
  match jobs with
  | [] => (st, [])
  | job :: rest =>
      if failed then
        let '(st', slots) := persist_all true rest st in (st', (None, Ok tt) :: slots)
      else
        match persist_job job false st with
        | (st1, Ok slot) =>
            let '(st', slots) := persist_all false rest st1 in (st', (slot, Ok tt) :: slots)
        | (st1, Err e) =>
            let '(st', slots) := persist_all true rest (fail_closed true st1) in
            (st', (None, Err e) :: slots)
        end
  end.

Definition sync_error (e : WorkerError) : WorkerError :=
  match e with
  | WIo m => WText (lit "batch journal sync failed: " ++ m)
  | _ => e
  end.

Definition unsynced (e : WorkerError) (slot : option PersistedJob * result unit WorkerError)
  : option PersistedJob * result unit WorkerError :=
  match slot with
  | (Some _, _) => (None, Err (sync_error e))
  | (None, outcome) => (None, outcome)
  end.

(** The sync every deferred append of the batch waits for. *)
Definition sync_batch (slots : list (option PersistedJob * result unit WorkerError)) (st : WS)
  : WS * list (option PersistedJob * result unit WorkerError) :=
  if has_spool cfg && existsb (fun s => is_some s.1) slots then
    match sync_session_journal (id (ws_session st)) st with
    | (st', Ok _) => (st', slots)
    | (st', Err e) => (st', map (unsynced e) slots)
    end
  else (st, slots).

Fixpoint finish_all (failed : bool) (slots : list (option PersistedJob * result unit WorkerError)) (st : WS)
  : WS * list (result unit WorkerError) :=
  match slots with
  | [] => (st, [])
  | (None, outcome) :: rest =>
      let '(st', outcomes) := finish_all failed rest st in (st', outcome :: outcomes)
  | (Some p, outcome) :: rest =>
      if failed then
        let '(st', outcomes) := finish_all true rest st in
        (st', Err (WText (lit "skipped after a batch sibling's post-persist failure")) :: outcomes)
      else
        let '(st1, r) := finish_job p st in
        let '(st', outcomes) := finish_all (negb (is_ok r)) rest st1 in
        (st', (match r with Ok _ => outcome | Err e => Err e end) :: outcomes)
  end.

Definition run_batch (jobs : list WorkerJob) (st : WS) : WS * list (result unit WorkerError) :=
  let '(st1, slots) := persist_all false jobs st in
  let '(st2, slots) := sync_batch slots st1 in
  finish_all false slots st2.

Definition process_envelope_batch (jobs : list WorkerJob) (st : WS) : WS :=
  match jobs with
  | [] => st
  | [job] => process_envelope job st
  | _ =>
      let '(st', outcomes) := run_batch jobs st in
      Nat.iter (length jobs) release_pending
        (fail_closed (existsb (fun o => negb (is_ok o)) outcomes) st')
  end.

(** * Markers of responses in flight *)

Definition write_response_marker (sid attempt digest : str) : W unit :=
  let* sealed := wof WJournal (Journal.seal marker_to (journal_key cfg) (lit "in-flight-response") 0
                                 (mkInFlight sid attempt digest)) in
  spool_op (replace_file (response_marker_path sid attempt) sealed).

(** Splits off the first line: its bytes before the newline, and what follows. *)
Fixpoint split_line (bs : list Z) : option (list Z * list Z) :=
  match bs with
  | [] => None
  | b :: rest =>
      if b =? 10 then Some ([], rest)
      else match split_line rest with
           | Some (line, rest') => Some (b :: line, rest')
           | None => None
           end
  end.

(** The scan of [journal_witnesses_terminal_attempt], up to the last newline; every
    turn consumes a line, so the length of the file bounds the turns. *)
Fixpoint witness_scan (fuel : nat) (domain attempt : str) (index : Z) (bs : list Z)
  : result bool WorkerError :=
  match fuel with
  | O => Ok false
  | S fuel =>
      match split_line bs with
      | None => Ok false
      | Some ([], _) => Err (WText (lit "active journal contains an empty line"))
      | Some (line, rest) =>
          let? record := map_err WJournal (Journal.open record_from (journal_key cfg) domain index line) in
          let found := match jr_response_attempt record with
                       | Some a => ra_terminal a && str_eqb (ra_id a) attempt
                       | None => false
                       end in
          if found then Ok true
          else if index + 1 <=? u64_max then witness_scan fuel domain attempt (index + 1) rest
          else Err (WText (lit "active journal index overflow"))
      end
  end.

Definition witness_bytes (sid attempt : str) (bs : list Z) : result bool WorkerError :=
  witness_scan (S (length bs)) (active_domain sid) attempt 0 bs.

Definition journal_witnesses_terminal_attempt (sid attempt : str) : W bool :=
  let* found := read_file MAX_ATIF_BYTES (events_path sid) in
  match found with
  | None => wret false
  | Some bs => wof (fun e => e) (witness_bytes sid attempt bs)
  end.

(** [Path::extension] of a file name is [json]. *)
Definition has_json_extension (path : str) : bool :=
  match rsplit_once (lit "/") path with
  | Some (_, name) =>
      match rsplit_once (lit ".") name with
      | Some (base, ext) => negb (str_eqb base []) && str_eqb ext (lit "json")
      | None => false
      end
  | None => false
  end.

(** The renamed marker does not end in [.json], so no later scan reads it. *)
Definition quarantine_name (path uid : str) : str :=
  match rsplit_once (lit ".") path with
  | Some (base, _) => base ++ lit ".corrupt-" ++ uid
  | None => path ++ lit ".corrupt-" ++ uid
  end.

Definition quarantine_inflight_marker (path : str) : W unit :=
  let* t := draw in
  let* k := tick in fun st =>
  match fate env k, ws_spool st !! path with
  | Fine, Some f =>
      (st<|ws_spool := <[quarantine_name path (fresh_uid env t) := f]> (delete path (ws_spool st))|>, Ok tt)
  | _, _ => (st, Ok tt)
  end.

(** What the scan makes of one directory entry: the session to quarantine, if any. *)
Definition scan_marker (path : str) : W (option str) :=
  let* found := read_file MAX_CONTROL_BYTES path in
  match found with
  | None => wret None
  | Some data =>
      match Journal.open marker_from (journal_key cfg) (lit "in-flight-response") 0 data with
      | Err _ => quarantine_inflight_marker path ;; wret None
      | Ok marker =>
          if negb (str_eqb path (response_marker_path (if_session_id marker) (if_attempt_id marker)))
          then quarantine_inflight_marker path ;; wret None
          else fun st =>
            match journal_witnesses_terminal_attempt (if_session_id marker) (if_attempt_id marker) st with
            | (st1, Ok true) =>
                (match spool_op (delete_file path) st1 with (st2, _) => st2 end, Ok None)
            | (st1, _) => (st1, Ok (Some (if_session_id marker)))
            end
      end
  end.

Fixpoint scan_markers (paths : list str) (acc : gset str) : W (gset str) :=
  match paths with
  | [] => wret acc
  | path :: rest =>
      if has_json_extension path then
        let* o := scan_marker path in
        scan_markers rest (match o with Some sid => {[sid]} ∪ acc | None => acc end)
      else scan_markers rest acc
  end.

(** The listing of the marker directory. *)
Definition marker_paths (sp : Spool) : list str :=
  List.filter (fun p => starts_with (INFLIGHT_RESPONSES ++ lit "/") p) (map fst (map_to_list sp)).

Definition inflight_response_sessions : W (gset str) :=
  let* t := tick in
  match fate env t with
  | Stops _ e => wthrow (WIo e)
  | Fine => let* paths := look (fun st => marker_paths (ws_spool st)) in scan_markers paths ∅
  end.
End Worker.

(** What a crash may leave of a file: the bytes known to be on disk, and any part of
    those that follow. *)
Definition survives (f g : File) : Prop :=
  exists n, (synced f <= n)%nat /\ bytes g = take n (bytes f) /\ synced g = length (bytes g).
