(* ===== verification/WorkerProofs.v ===== *)
(** What the worker guarantees about a session's evidence: the journal, the bus, the
    hash chain and the totals agree, whatever fails and wherever a write stops. *)

From S2P Require Import Prelude Rust CoreBase Json Float LoopDetect Core Jcs JcsProofs Rpc Compress Serde Events.
From S2P Require Import CompressProofs Receipts Journal Atif Session SessionProofs Worker.

(** * A program logic for the worker *)

(** From [P], the operation ends in [Q] when it succeeds and in [X] when it fails. *)
Definition wtriple {A} (P : WS -> Prop) (m : W A) (Q : A -> WS -> Prop) (X : WS -> Prop) : Prop :=
  forall st, P st -> match m st with (st', Ok a) => Q a st' | (st', Err _) => X st' end.

Lemma wt_bind {A B} P (m : W A) (k : A -> W B) Q R X :
  wtriple P m Q X -> (forall a, wtriple (Q a) (k a) R X) -> wtriple P (wbind m k) R X.
Proof.
  intros Hm Hk st Hst. specialize (Hm st Hst). unfold wbind. destruct (m st) as [st' [a|e]]; [|done].
  by apply Hk.
Qed.

Lemma wt_seq {A B} P Q (m : W A) (k : W B) R X :
  wtriple P m (fun _ => Q) X -> wtriple Q k R X -> wtriple P (wbind m (fun _ => k)) R X.
Proof. intros Hm Hk. by eapply wt_bind. Qed.

Lemma wt_ret {A} (a : A) (Q : A -> WS -> Prop) X : wtriple (Q a) (wret a) Q X.
Proof. by intros st. Qed.

Lemma wt_conseq {A} P P' (m : W A) Q Q' X X' :
  (forall st, P st -> P' st) -> wtriple P' m Q' X' ->
  (forall a st, Q' a st -> Q a st) -> (forall st, X' st -> X st) -> wtriple P m Q X.
Proof. intros HP Hm HQ HX st Hst. specialize (Hm st (HP st Hst)). destruct (m st) as [st' [a|e]]; auto. Qed.

Lemma wt_of {A E} (f : E -> WorkerError) (r : result A E) P Q X :
  (forall a, r = Ok a -> forall st, P st -> Q a st) -> (forall st, P st -> X st) ->
  wtriple P (wof f r) Q X.
Proof. intros HQ HX st Hst. destruct r; cbn; eauto. Qed.

Lemma wt_session P X : wtriple P the_session (fun s st => P st /\ s = ws_session st) X.
Proof. by intros st. Qed.

(** * What the evidence consists of *)

Section Evidence.
Context {UT : UnicodeTables} {R : Ryu} {SHA : Sha256} {HM : HmacSha256} {SJ : SerdeJson} {JR : JsonReader}.
Context {RS : RecordSerde}.
Context (env : Env) (cfg : WorkerConfig) (sid : str).

(** The bytes of a journal holding the records from a position on, and the position
    after them. *)
Fixpoint journal_bytes (index : Z) (rs : list ActiveJournalRecord) : result (list Z) Journal.JournalError :=
  match rs with
  | [] => Ok []
  | r :: rest =>
      let? line := Journal.seal record_to (journal_key cfg) (active_domain sid) index r in
      let? tail := journal_bytes (sat_add index 1) rest in
      Ok (line ++ [10] ++ tail)
  end.

Fixpoint advance (index : Z) (rs : list ActiveJournalRecord) : Z :=
  match rs with [] => index | _ :: rest => advance (sat_add index 1) rest end.

Fixpoint fold_records (rs : list ActiveJournalRecord) (t : Totals) : result Totals WorkerError :=
  match rs with
  | [] => Ok t
  | r :: rest => let? t' := fold_into r t in fold_records rest t'
  end.

Definition journal_file (st : WS) : File := default (mkFile [] 0) (ws_spool st !! events_path sid).

(** The evidence in RAM, by workflow. *)
Definition attests (rs : list ActiveJournalRecord) (s : Session) : Prop :=
  fold_records rs totals_default = Ok (totals s) /\
  match workflow s with
  | Workflow.Signed => chain_compute (id s) (map jr_event rs) = Ok (chain s)
  | Workflow.Unsigned => atif_steps s = Z.of_nat (length rs) mod 2 ^ 64
  end.

(** The events on the bus are those of [rs], whose lines begin the journal and are on
    disk. *)
Definition recoverable (base : list Value) (rs : list ActiveJournalRecord) (st : WS) : Prop :=
  id (ws_session st) = sid /\
  map pb_value (ws_bus st) = base ++ map jr_event rs /\
  exists pre tail, journal_bytes 0 rs = Ok pre /\ bytes (journal_file st) = pre ++ tail /\
    (length pre <= synced (journal_file st))%nat.

(** Besides, the journal holds [rs] and then exactly [pend], and the totals and the
    chain, or the step count, are those of [rs]. *)
Definition coherent (base : list Value) (rs pend : list ActiveJournalRecord) (st : WS) : Prop :=
  recoverable base rs st /\
  journal_bytes 0 (rs ++ pend) = Ok (bytes (journal_file st)) /\
  journal_index (ws_session st) = advance 0 (rs ++ pend) /\
  attests rs (ws_session st).

(** ** Operations that leave the evidence alone *)

Definition evidence (st : WS) :=
  let s := ws_session st in
  (id s, workflow s, journal_index s, totals s, chain s, atif_steps s, capture_lost s,
   ws_bus st, journal_file st).

Definition silent {A} (m : W A) : Prop := forall st, evidence (m st).1 = evidence st.

Lemma silent_bind {A B} (m : W A) (k : A -> W B) : silent m -> (forall a, silent (k a)) -> silent (wbind m k).
Proof.
  intros Hm Hk st. specialize (Hm st). unfold wbind. destruct (m st) as [st' [a|e]]; cbn in *; [|done].
  by rewrite Hk.
Qed.

Lemma silent_ret {A} (a : A) : silent (wret a).
Proof. by intros st. Qed.

Lemma silent_throw {A} e : silent (@wthrow A e).
Proof. by intros st. Qed.

Lemma silent_of {A E} f (r : result A E) : silent (wof f r).
Proof. by destruct r; intros st. Qed.

Lemma silent_session : silent the_session.
Proof. by intros st. Qed.

Lemma silent_look {A} (f : WS -> A) : silent (look f).
Proof. by intros st. Qed.

Lemma silent_tick : silent tick.
Proof. by intros st. Qed.

Lemma silent_draw : silent draw.
Proof. by intros st. Qed.

Lemma silent_when b m : silent m -> silent (wwhen b m).
Proof. destruct b; [done|]. intros _. apply silent_ret. Qed.

Lemma silent_read cap path : silent (read_file env cap path).
Proof.
  unfold read_file. apply silent_bind; [apply silent_tick|]. intros t st.
  destruct (fate env t); [|done]. by destruct (ws_spool st !! path).
Qed.

Lemma evidence_spool st sp :
  default (mkFile [] 0) (sp !! events_path sid) = journal_file st -> evidence (st<|ws_spool := sp|>) = evidence st.
Proof. intros H. unfold evidence. by rewrite <- H. Qed.

Lemma silent_spool f :
  (forall stop sp, f stop sp !! events_path sid = sp !! events_path sid) -> silent (spool_op env f).
Proof.
  intros Hf. unfold spool_op. apply silent_bind; [apply silent_tick|]. intros t st.
  destruct (fate env t); apply evidence_spool; unfold journal_file; by rewrite Hf.
Qed.

(** The part of a session the evidence reads. *)
Definition vouched (s : Session) :=
  (id s, workflow s, journal_index s, totals s, chain s, atif_steps s, capture_lost s).

Lemma silent_on_session f : (forall s, vouched (f s) = vouched s) -> silent (on_session f).
Proof.
  intros Hf st. specialize (Hf (ws_session st)). unfold vouched in Hf.
  injection Hf as H1 H2 H3 H4 H5 H6 H7. unfold evidence. change (ws_session (on_session f st).1) with (f (ws_session st)).
  by rewrite H1, H2, H3, H4, H5, H6, H7.
Qed.

(** An assertion on the evidence only survives a silent operation. *)
Definition evidential (P : WS -> Prop) : Prop := forall st st', evidence st = evidence st' -> P st -> P st'.

Lemma wt_silent {A} (m : W A) P : evidential P -> silent m -> wtriple P m (fun _ => P) P.
Proof.
  intros HP Hm st Hst. specialize (Hm st). destruct (m st) as [st' [a|e]]; cbn in *; by apply (HP st).
Qed.

Lemma coherent_evidential base rs pend : evidential (coherent base rs pend).
Proof.
  intros st st'. unfold evidence, coherent, recoverable, attests. intros [= Hi Hw Hj Ht Hc Ha _ Hb Hf].
  rewrite <- Hi, <- Hw, <- Hj, <- Ht, <- Hc, <- Ha, <- Hb, <- Hf. done.
Qed.

Lemma recoverable_evidential base rs : evidential (recoverable base rs).
Proof.
  intros st st'. unfold evidence, recoverable. intros [= Hi _ _ _ _ _ _ Hb Hf].
  by rewrite <- Hi, <- Hb, <- Hf.
Qed.

(** ** Paths *)

Lemma suffix_ne (p q s t : str) : length s = length t -> s <> t -> p ++ s <> q ++ t.
Proof. intros Hl Hst Heq. apply app_inj_2 in Heq as [_ ?]; done. Qed.

Lemma metadata_ne sid' : metadata_path sid' <> events_path sid.
Proof.
  unfold metadata_path, events_path. change (lit ".events.ndjson") with (lit ".e" ++ lit "vents.ndjson").
  change (lit ".session.json") with (lit "." ++ lit "session.json").
  rewrite !(assoc_L (++)). by apply suffix_ne.
Qed.

Lemma ack_ne sid' : ack_journal_path sid' <> events_path sid.
Proof.
  unfold ack_journal_path, events_path. change (lit ".events.ndjson") with (lit ".e" ++ lit "vents.ndjson").
  rewrite (assoc_L (++)). by apply suffix_ne.
Qed.

Lemma worker_marker_ne sid' attempt : response_marker_path sid' attempt <> events_path sid.
Proof.
  unfold response_marker_path, events_path.
  change (lit ".events.ndjson") with (lit ".events.n" ++ lit "djson").
  rewrite !(assoc_L (++)). by apply suffix_ne.
Qed.

Lemma replace_other path data stop sp : path <> events_path sid ->
  replace_file path data stop sp !! events_path sid = sp !! events_path sid.
Proof. intros H. unfold replace_file. destruct stop as [[|n]|]; [done|by rewrite lookup_insert_ne..]. Qed.

Lemma append_other path data stop sp : path <> events_path sid ->
  append_bytes path data stop sp !! events_path sid = sp !! events_path sid.
Proof. intros H. unfold append_bytes. by rewrite lookup_insert_ne. Qed.

Lemma open_other path stop sp : path <> events_path sid ->
  open_append path stop sp !! events_path sid = sp !! events_path sid.
Proof.
  intros H. unfold open_append.
  destruct stop as [[|n]|], (sp !! path); try done; by rewrite lookup_insert_ne.
Qed.

Lemma sync_other path stop sp : path <> events_path sid ->
  sync_file path stop sp !! events_path sid = sp !! events_path sid.
Proof. intros H. unfold sync_file. destruct stop, (sp !! path); try done. by rewrite lookup_insert_ne. Qed.

Lemma delete_other path stop sp : path <> events_path sid ->
  delete_file path stop sp !! events_path sid = sp !! events_path sid.
Proof. intros H. unfold delete_file. destruct stop as [[|n]|]; [done|by rewrite lookup_delete_ne..]. Qed.

(** ** The silent operations *)

Create HintDb silent discriminated.
#[local] Hint Resolve silent_ret silent_throw silent_of silent_session silent_look silent_tick silent_draw
  silent_when silent_read metadata_ne ack_ne worker_marker_ne replace_other append_other open_other sync_other
  delete_other : silent.

Ltac silent :=
  repeat match goal with
         | |- silent (wbind _ _) => apply silent_bind; [|intros ?]
         | |- silent (spool_op _ _) => apply silent_spool; intros ? ?; auto with silent
         | |- silent (wwhen _ _) => apply silent_when
         | |- silent (on_session _) => apply silent_on_session; intros ?
         | |- silent (let '(_, _) := ?p in _) => destruct p eqn:?
         | |- silent (match ?x with _ => _ end) => destruct x eqn:?
         | |- silent (if ?x then _ else _) => destruct x eqn:?
         | |- silent _ => solve [auto with silent]
         end.

Lemma silent_ensure_metadata s : silent (ensure_metadata env cfg s).
Proof. unfold ensure_metadata. cbv zeta. silent. Qed.

Lemma silent_analyze job : silent (analyze env job).
Proof. unfold analyze. silent. done. Qed.

Lemma silent_build_event job class status stop payload : silent (build_event env cfg job class status stop payload).
Proof. unfold build_event. cbv zeta. silent; by destruct stop. Qed.

Lemma silent_build_step job : silent (build_step env job).
Proof. unfold build_step. silent. Qed.

Lemma silent_redact value step class : silent (redact_capture env cfg value step class).
Proof. unfold redact_capture. silent. Qed.

Lemma silent_content job step class status value uid :
  silent (build_content env cfg job step class status value uid).
Proof. unfold build_content. cbv zeta. silent. Qed.

Lemma silent_ack sid' uid ack : silent (persist_broker_ack env cfg sid' uid ack).
Proof. unfold persist_broker_ack. cbv zeta. silent. Qed.

Lemma silent_clear sid' attempt : silent (clear_response_marker env cfg sid' attempt).
Proof. unfold clear_response_marker. cbv zeta. silent. Qed.

Lemma silent_export o : silent (export o).
Proof. intros st. by destruct o. Qed.

Lemma silent_latch verdict : silent (on_session (latch_trip verdict)).
Proof.
  apply silent_on_session. intros s. unfold latch_trip. destruct verdict as [[]|]; try done.
  by destruct (terminal_action _).
Qed.

Lemma silent_open : silent (spool_op env (open_append (events_path sid))).
Proof.
  unfold spool_op. apply silent_bind; [apply silent_tick|]. intros t st.
  destruct (fate env t) as [|[|n] e]; apply evidence_spool; unfold journal_file, open_append; [|done|];
    (destruct (ws_spool st !! events_path sid) eqn:E; [by rewrite E|by rewrite lookup_insert_eq]).
Qed.

(** * The books *)

Lemma journal_bytes_app index rs rs' :
  journal_bytes index (rs ++ rs') =
  (let? a := journal_bytes index rs in let? b := journal_bytes (advance index rs) rs' in Ok (a ++ b)).
Proof.
  revert index. induction rs as [|r rs IH]; intros index; cbn.
  { by destruct (journal_bytes index rs'). }
  destruct (Journal.seal _ _ _ _ r) as [line|]; [|done]. rewrite IH.
  destruct (journal_bytes _ rs) as [a|]; [|done]. destruct (journal_bytes _ rs') as [b|]; [|done].
  f_equal. by rewrite <- (assoc_L (++)).
Qed.

Lemma advance_app index rs rs' : advance index (rs ++ rs') = advance (advance index rs) rs'.
Proof. revert index. induction rs as [|r rs IH]; intros index; cbn; [done|]. apply IH. Qed.

Lemma fold_records_app rs rs' t :
  fold_records (rs ++ rs') t = (let? u := fold_records rs t in fold_records rs' u).
Proof.
  revert t. induction rs as [|r rs IH]; intros t; cbn; [done|]. destruct (fold_into r t); [apply IH|done].
Qed.

Definition chained (rs : list ActiveJournalRecord) (s : Session) : Prop :=
  match workflow s with
  | Workflow.Signed => chain_compute (id s) (map jr_event rs) = Ok (chain s)
  | Workflow.Unsigned => atif_steps s = Z.of_nat (length rs) mod 2 ^ 64
  end.

(** The records the journal holds, those on the bus, those counted and those chained. *)
Definition books (base : list Value) (jl bl tl cl : list ActiveJournalRecord) (tail : list Z) (st : WS) : Prop :=
  id (ws_session st) = sid /\
  (exists full, journal_bytes 0 jl = Ok full /\ bytes (journal_file st) = full ++ tail) /\
  journal_index (ws_session st) = advance 0 jl /\
  map pb_value (ws_bus st) = base ++ map jr_event bl /\
  fold_records tl totals_default = Ok (totals (ws_session st)) /\
  chained cl (ws_session st).

Definition durable (rs : list ActiveJournalRecord) (st : WS) : Prop :=
  exists pre, journal_bytes 0 rs = Ok pre /\ (length pre <= synced (journal_file st))%nat.

Definition all_synced (st : WS) : Prop :=
  (length (bytes (journal_file st)) <= synced (journal_file st))%nat.

Lemma coherent_books base rs pend st :
  coherent base rs pend st <-> books base (rs ++ pend) rs rs rs [] st /\ durable rs st.
Proof.
  unfold coherent, recoverable, books, durable, attests, chained. split.
  - intros ((Hi & Hb & pre & tail & Hpre & Hfile & Hs) & Hj & Hx & Ht & Hc).
    split; [|by exists pre]. split_and!; try done. eexists. split; [done|]. by rewrite app_nil_r.
  - intros ((Hi & (full & Hj & Hf) & Hx & Hb & Ht & Hc) & pre & Hpre & Hs). rewrite app_nil_r in Hf.
    split_and!; try done; [|by rewrite Hf].
    pose proof Hj as Hj'. rewrite journal_bytes_app, Hpre in Hj'.
    destruct (journal_bytes _ pend) as [b|]; [|done]. injection Hj' as <-. exists pre, b. by rewrite Hf.
Qed.

Lemma books_recoverable base jl bl tl cl tail st :
  books base jl bl tl cl tail st -> bl `prefix_of` jl -> durable bl st -> recoverable base bl st.
Proof.
  intros (Hi & (full & Hj & Hf) & _ & Hb & _) [rest ->] (pre & Hpre & Hs). split_and!; [done..|].
  rewrite journal_bytes_app, Hpre in Hj. destruct (journal_bytes _ rest) as [b|]; [|done].
  injection Hj as <-. exists pre, (b ++ tail). split_and!; [done| |done]. by rewrite Hf, (assoc_L (++)).
Qed.

Lemma synced_durable base jl bl tl cl tail st :
  books base jl bl tl cl tail st -> bl `prefix_of` jl -> all_synced st -> durable bl st.
Proof.
  intros (Hi & (full & Hj & Hf) & _) [rest ->] Hs. rewrite journal_bytes_app in Hj.
  destruct (journal_bytes 0 bl) as [pre|] eqn:Hpre; [|done]. destruct (journal_bytes _ rest) as [b|]; [|done].
  injection Hj as <-. exists pre. split; [done|]. unfold all_synced in Hs. rewrite Hf, !length_app in Hs. lia.
Qed.

Lemma books_evidential base jl bl tl cl tail : evidential (books base jl bl tl cl tail).
Proof.
  intros st st'. unfold evidence, books, chained. intros [= Hi Hw Hj Ht Hc Ha _ Hb Hf].
  by rewrite <- Hi, <- Hw, <- Hj, <- Ht, <- Hc, <- Ha, <- Hb, <- Hf.
Qed.

Lemma durable_evidential rs : evidential (durable rs).
Proof. intros st st'. unfold evidence, durable. intros [= _ _ _ _ _ _ _ _ Hf]. by rewrite Hf. Qed.

Lemma synced_evidential : evidential all_synced.
Proof. intros st st'. unfold evidence, all_synced. intros [= _ _ _ _ _ _ _ _ Hf]. by rewrite Hf. Qed.

Lemma evidential_and P Q : evidential P -> evidential Q -> evidential (fun st => P st /\ Q st).
Proof. intros HP HQ st st' E [??]. split; [by eapply HP|by eapply HQ]. Qed.

(** What a failed append leaves: something may follow the records. *)
Definition spoiled (base : list Value) (jl bl : list ActiveJournalRecord) (st : WS) : Prop :=
  exists tail, books base jl bl bl bl tail st /\ durable bl st.

Lemma spoiled_recoverable base jl bl st : bl `prefix_of` jl -> spoiled base jl bl st -> recoverable base bl st.
Proof. intros Hp (tail & Hb & Hd). by eapply books_recoverable. Qed.

Lemma coherent_spoiled base rs pend st : coherent base rs pend st -> spoiled base (rs ++ pend) rs st.
Proof. intros Hc. apply coherent_books in Hc as [Hb Hd]. by exists []. Qed.

(** ** Appending *)

Lemma append_file sp data stop :
  default (mkFile [] 0) (append_bytes (events_path sid) data stop sp !! events_path sid) =
  let f := default (mkFile [] 0) (sp !! events_path sid) in
  mkFile (bytes f ++ match stop with None => data | Some n => take n data end) (synced f).
Proof. unfold append_bytes. by rewrite lookup_insert_eq. Qed.

Lemma wt_append base jl bl tail data :
  bl `prefix_of` jl ->
  wtriple (fun st => books base jl bl bl bl tail st /\ durable bl st)
    (spool_op env (append_bytes (events_path sid) data))
    (fun _ st => books base jl bl bl bl (tail ++ data) st /\ durable bl st) (spoiled base jl bl).
Proof.
  intros Hp st [Hb Hd]. unfold spool_op, wbind, tick.
  set (st1 := st<|ws_ticks := S (ws_ticks st)|>).
  assert (forall stop, books base jl bl bl bl (tail ++ match stop with None => data | Some n => take n data end)
            (st1<|ws_spool := append_bytes (events_path sid) data stop (ws_spool st1)|>) /\
          durable bl (st1<|ws_spool := append_bytes (events_path sid) data stop (ws_spool st1)|>)) as H.
  { intros stop. destruct Hb as (Hi & (full & Hj & Hf) & Hx & Hb & Ht & Hc). destruct Hd as (pre & Hpre & Hs).
    unfold books, durable, journal_file in *. cbn [ws_spool ws_session ws_bus st1].
    change (ws_spool (st1<|ws_spool := append_bytes (events_path sid) data stop (ws_spool st1)|>))
      with (append_bytes (events_path sid) data stop (ws_spool st)). rewrite append_file. cbn.
    split; [split_and!; try done|by exists pre]. exists full. split; [done|]. by rewrite Hf, (assoc_L (++)). }
  destruct (fate env (ws_ticks st)) as [|n e].
  - apply (H None).
  - eexists. apply (H (Some n)).
Qed.

Lemma sync_file_bytes stop sp :
  let f := default (mkFile [] 0) (sp !! events_path sid) in
  let g := default (mkFile [] 0) (sync_file (events_path sid) stop sp !! events_path sid) in
  bytes g = bytes f /\ (synced g = synced f \/ synced g = length (bytes f)) /\
  (stop = None -> (length (bytes g) <= synced g)%nat).
Proof.
  unfold sync_file. destruct stop as [n|], (sp !! events_path sid) as [f|] eqn:E; cbn; rewrite ?E; cbn;
    rewrite ?lookup_insert_eq; cbn; split_and!; auto; try done; lia.
Qed.

Lemma durable_grows base jl bl tl cl tail st st' :
  books base jl bl tl cl tail st -> bl `prefix_of` jl -> durable bl st ->
  bytes (journal_file st') = bytes (journal_file st) ->
  synced (journal_file st') = synced (journal_file st) \/
  synced (journal_file st') = length (bytes (journal_file st)) -> durable bl st'.
Proof.
  intros (_ & (full & Hj & Hf) & _) [rest ->] (pre & Hpre & Hs) Hby Hsy. exists pre. split; [done|].
  rewrite journal_bytes_app, Hpre in Hj. destruct (journal_bytes _ rest) as [b|]; [|done]. injection Hj as <-.
  destruct Hsy as [->| ->]; [done|]. rewrite Hf, !length_app. lia.
Qed.

Lemma wt_sync base jl bl tail : bl `prefix_of` jl ->
  wtriple (fun st => books base jl bl bl bl tail st /\ durable bl st)
    (spool_op env (sync_file (events_path sid)))
    (fun _ st => (books base jl bl bl bl tail st /\ durable bl st) /\ all_synced st)
    (fun st => books base jl bl bl bl tail st /\ durable bl st).
Proof.
  intros Hp st [Hb Hd]. unfold spool_op, wbind, tick.
  set (st1 := st<|ws_ticks := S (ws_ticks st)|>).
  assert (forall stop, let st' := st1<|ws_spool := sync_file (events_path sid) stop (ws_spool st1)|> in
            (books base jl bl bl bl tail st' /\ durable bl st') /\ (stop = None -> all_synced st')) as H.
  { intros stop st'. pose proof (sync_file_bytes stop (ws_spool st)) as (Hby & Hsy & Hn). split; [|done].
    assert (bytes (journal_file st') = bytes (journal_file st)) as Hby' by apply Hby.
    split; [|by eapply durable_grows].
    destruct Hb as (Hi & (full & Hj & Hf) & Hx & Hb & Ht & Hc). unfold books. rewrite Hby'. eauto 10. }
  destruct (fate env (ws_ticks st)) as [|n e].
  - destruct (H None) as [H1 H2]. by split; [|apply H2].
  - by destruct (H (Some n)).
Qed.

Lemma append_journal_ok base jl bl s line sync : id s = sid -> bl `prefix_of` jl ->
  wtriple (fun st => books base jl bl bl bl [] st /\ durable bl st)
    (append_journal env cfg s line sync)
    (fun _ st => (books base jl bl bl bl (line ++ [10]) st /\ durable bl st) /\ (sync = true -> all_synced st))
    (spoiled base jl bl).
Proof.
  intros Hid Hp. unfold append_journal. rewrite Hid.
  set (P tail := fun st => books base jl bl bl bl tail st /\ durable bl st).
  assert (forall tail, evidential (P tail)) as HE
    by (intros; apply evidential_and; [apply books_evidential|apply durable_evidential]).
  assert (forall tail st, P tail st -> spoiled base jl bl st) as HX
    by (intros tail st H; by exists tail).
  assert (forall {A} (m : W A) tail, silent m -> wtriple (P tail) m (fun _ => P tail) (spoiled base jl bl)) as Hsil
    by (intros A m tail Hm; eapply wt_conseq; [done|apply wt_silent; [apply HE|done]|done|apply HX]).
  eapply wt_seq; [apply Hsil, silent_ensure_metadata|].
  eapply wt_bind; [apply Hsil, silent_look|]. intros present.
  eapply wt_seq; [apply Hsil, silent_open|].
  eapply wt_seq; [by apply wt_append|]. eapply wt_seq; [by apply wt_append|].
  eapply (wt_seq _ (fun st => P ([] ++ line ++ [10]) st /\ (sync = true -> all_synced st))).
  - rewrite (assoc_L (++)). destruct sync; cbn.
    + eapply wt_conseq; [intros st H; exact H|by apply wt_sync| |by apply HX]. by intros ? st [??].
    + by intros st Hst; split.
  - eapply wt_conseq; [| |intros ? st H; exact H|].
    2: apply wt_silent; [|by apply silent_when, silent_spool].
    + intros st H. exact H.
    + apply evidential_and; [apply HE|]. intros st st' E H Hs. by eapply synced_evidential, H.
    + intros st [Hst _]. by eapply HX.
Qed.

Lemma append_active_ok base rs pend r sync :
  wtriple (coherent base rs pend) (append_active_event_journal env cfg r sync)
    (fun _ st => coherent base rs (pend ++ [r]) st /\ (sync = true -> all_synced st)) (spoiled base (rs ++ pend) rs).
Proof.
  intros st Hc. apply coherent_books in Hc as [Hb Hd]. unfold append_active_event_journal.
  assert (rs `prefix_of` rs ++ pend) as Hp by by exists pend.
  assert (id (ws_session st) = sid /\ journal_index (ws_session st) = advance 0 (rs ++ pend)) as [Hid Hix]
    by (split; apply Hb).
  cbn [wbind the_session]. rewrite Hid, Hix.
  destruct (Journal.seal record_to (journal_key cfg) (active_domain sid) (advance 0 (rs ++ pend)) r)
    as [line|] eqn:Hseal; [|by exists []].
  cbn [wof wbind wret]. unfold wbind.
  pose proof (append_journal_ok base (rs ++ pend) rs (ws_session st) line sync Hid Hp st (conj Hb Hd)) as H.
  destruct (append_journal env cfg (ws_session st) line sync st) as [st' [[]|e]]; [|done].
  destruct H as [[(Hi & (full & Hj & Hf) & Hx & Hbus & Ht & Hch) Hd'] Hs].
  unfold commit_journal_index, compare_exchange. rewrite Hx, Z.eqb_refl. cbn [map_err].
  split; [|exact Hs]. apply coherent_books. split; [|exact Hd'].
  unfold books. rewrite (assoc_L (++)). split_and!; try done.
  - exists (full ++ line ++ [10]). split; [|by rewrite app_nil_r].
    rewrite journal_bytes_app, Hj. cbn. by rewrite Hseal.
  - by rewrite (advance_app 0 (rs ++ pend) [r]).
Qed.

(** * Phase A *)

(** What the record of a job says of the job. *)
Definition of_job (job : WorkerJob) (r : ActiveJournalRecord) : Prop :=
  jr_identity r = wj_identity job /\ jr_response_attempt r = wj_response_attempt job /\
  exists value step status stop, r = build_record job value step status stop.

Definition persisted_of (job : WorkerJob) (p : PersistedJob) : Prop :=
  pj_value p = jr_event (pj_record p) /\ pj_response_marker p = wj_response_marker job /\
  of_job job (pj_record p).

Lemma wt_silent_in {A} (m : W A) P (X : WS -> Prop) : evidential P -> (forall st, P st -> X st) -> silent m ->
  wtriple P m (fun _ => P) X.
Proof. intros HP HX Hm. eapply wt_conseq; [|by apply wt_silent| |apply HX]; intros; done. Qed.

Definition intact (st : WS) : Prop := capture_failed (ws_session st) = false.

Lemma intact_evidential : evidential intact.
Proof. intros st st'. unfold evidence, intact, capture_failed. intros [= _ _ _ _ _ _ Hc _ _]. by rewrite Hc. Qed.

Lemma wt_intact {A} P (m1 m2 : W A) Q X : (forall st, P st -> intact st) -> wtriple P m2 Q X ->
  wtriple P (let* s := the_session in if capture_failed s then m1 else m2) Q X.
Proof. intros Hi Hm st Hst. cbn [wbind the_session]. rewrite (Hi st Hst : capture_failed _ = false). by apply Hm. Qed.

(** The journal's own operations do not touch the session. *)
Definition steady {A} (m : W A) : Prop := forall st, ws_session (m st).1 = ws_session st.

Lemma steady_bind {A B} (m : W A) (k : A -> W B) : steady m -> (forall a, steady (k a)) -> steady (wbind m k).
Proof.
  intros Hm Hk st. specialize (Hm st). unfold wbind. destruct (m st) as [st' [a|e]]; cbn in *; [|done].
  by rewrite Hk.
Qed.

Lemma steady_of {A E} f (r : result A E) : steady (wof f r).
Proof. by destruct r; intros st. Qed.

Lemma steady_spool f : steady (spool_op env f).
Proof. apply steady_bind; [done|]. intros t st. by destruct (fate env t). Qed.

Lemma steady_read cap path : steady (read_file env cap path).
Proof. apply steady_bind; [done|]. intros t st. by destruct (fate env t). Qed.

Lemma steady_append s line sync : steady (append_journal env cfg s line sync).
Proof.
  unfold append_journal, ensure_metadata, wwhen. cbv zeta.
  repeat match goal with
         | |- steady (wbind _ _) => apply steady_bind; [|intros ?]
         | |- steady (if ?b then _ else _) => destruct b
         | |- steady _ => first [apply steady_of|apply steady_spool|apply steady_read|by intros ?]
         end.
Qed.

Lemma append_active_capture r sync st :
  capture_lost (ws_session (append_active_event_journal env cfg r sync st).1) = capture_lost (ws_session st).
Proof.
  unfold append_active_event_journal. cbn [wbind the_session]. unfold wbind.
  destruct (Journal.seal _ _ _ _ r) as [line|]; cbn [wof wret wthrow]; [|done].
  pose proof (steady_append (ws_session st) line sync st) as H.
  destruct (append_journal env cfg (ws_session st) line sync st) as [st' [u|e]]; cbn in H; [|by rewrite <- H].
  unfold commit_journal_index. destruct (compare_exchange _ _ _); cbn; by rewrite H.
Qed.

Lemma content_ok job step class status value uid Q X : evidential Q ->
  wtriple Q (build_content env cfg job step class status value uid) (fun _ => Q) X.
Proof.
  intros HQ st Hst. pose proof (silent_content job step class status value uid st) as He.
  unfold build_content, wbind, draw, the_session, wret in *. destruct (has_dispatcher cfg); [|done].
  by apply (HQ st).
Qed.

Lemma persist_ok base rs pend job sync : has_spool cfg = true ->
  wtriple (fun st => coherent base rs pend st /\ intact st) (persist_job env cfg job sync)
    (fun o st => exists p, o = Some p /\ persisted_of job p /\
       (coherent base rs (pend ++ [pj_record p]) st /\ (sync = true -> all_synced st)) /\ intact st)
    (spoiled base (rs ++ pend) rs).
Proof.
  intros Hspool. unfold persist_job.
  set (P := fun st => coherent base rs pend st /\ intact st).
  assert (evidential P) as HE by (apply evidential_and; [apply coherent_evidential|apply intact_evidential]).
  assert (forall st, P st -> spoiled base (rs ++ pend) rs st) as HX by (intros st [H _]; by apply coherent_spoiled).
  apply wt_intact; [by intros st [_ H]|].
  eapply wt_bind; [apply wt_silent_in; [done..|apply silent_analyze]|]. intros verdict.
  eapply wt_seq; [apply wt_silent_in; [done..|apply silent_latch]|].
  destruct (classify job verdict) as [[[class status] stop] payload].
  eapply wt_bind; [apply wt_silent_in; [done..|apply silent_build_event]|]. intros event.
  eapply wt_bind; [apply wt_silent_in; [done..|apply silent_build_step]|]. intros step.
  eapply wt_bind; [apply wt_silent_in; [done..|apply silent_redact]|]. intros [value step'].
  rewrite Hspool. cbn [wwhen].
  set (record := build_record _ _ _ _ _).
  set (Q := fun st => (coherent base rs (pend ++ [record]) st /\ (sync = true -> all_synced st)) /\ intact st).
  eapply (wt_seq _ Q).
  { intros st [Hc Hi]. pose proof (append_active_ok base rs pend record sync st Hc) as H.
    pose proof (append_active_capture record sync st) as Hk.
    destruct (append_active_event_journal env cfg record sync st) as [st' [u|e]]; [|done].
    split; [done|]. unfold intact, capture_failed in *. cbn in Hk. by rewrite Hk. }
  assert (evidential Q) as HQ.
  { apply evidential_and; [|apply intact_evidential]. apply evidential_and; [apply coherent_evidential|].
    intros st st' E H Hs. by eapply synced_evidential, H. }
  eapply wt_bind; [by apply (content_ok _ _ _ _ _ _ Q)|].
  intros content st HQst. eexists. split; [done|]. split; [|done].
  split_and!; [done..|]. split_and!; [done..|]. by exists value, step', status, (ev_stop_reason_id event).
Qed.

(** * Phase B *)

Definition standing (base : list Value) (jl bl tl cl : list ActiveJournalRecord) (tail : list Z) (st : WS) : Prop :=
  books base jl bl tl cl tail st /\ all_synced st.

Lemma standing_evidential base jl bl tl cl tail : evidential (standing base jl bl tl cl tail).
Proof. apply evidential_and; [apply books_evidential|apply synced_evidential]. Qed.

Lemma standing_recoverable base jl bl tl cl tail st :
  bl `prefix_of` jl -> standing base jl bl tl cl tail st -> recoverable base bl st.
Proof. intros Hp [Hb Hs]. eapply books_recoverable; [done..|]. by eapply synced_durable. Qed.

Lemma chained_signed rs s c : workflow s = Workflow.Signed ->
  chain_compute (id s) (map jr_event rs) = Ok c -> chained rs (s<|chain := c|>).
Proof. intros Hw Hc. unfold chained. change (workflow (s<|chain := c|>)) with (workflow s). by rewrite Hw. Qed.

Lemma chained_unsigned rs r s : workflow s = Workflow.Unsigned -> chained rs s ->
  chained (rs ++ [r]) (note_atif_step s).
Proof.
  unfold chained. intros Hw. change (workflow (note_atif_step s)) with (workflow s). rewrite Hw. intros Hc.
  change (atif_steps (note_atif_step s)) with (fetch_add (atif_steps s)). unfold fetch_add.
  rewrite Hc, length_app, Nat2Z.inj_add. apply Zplus_mod_idemp_l.
Qed.

Lemma chain_event_ok base jl rs r tail (X : WS -> Prop) :
  (forall st, standing base jl rs rs rs tail st -> X st) ->
  wtriple (standing base jl rs rs rs tail) (chain_event (jr_event r) r)
    (fun _ => standing base jl rs rs (rs ++ [r]) tail) X.
Proof.
  intros HX st Hst. pose proof Hst as [(Hi & Hj & Hx & Hb & Ht & Hc) Hs].
  unfold chain_event. cbn [wbind the_session]. destruct (workflow (ws_session st)) eqn:Hw.
  - unfold wbind, wof. destruct (chain_append (chain (ws_session st)) (jr_event r)) as [c|e] eqn:Ha; [|by apply HX].
    split; [|done]. split_and!; try done. apply chained_signed; [done|].
    unfold chained, chain_compute in *. rewrite Hw in Hc. rewrite map_app. apply append_all_snoc.
    unfold chain_append in Ha. destruct (canonicalize (jr_event r)) as [a|]; [|done]. injection Ha as <-. eauto.
  - destruct (jr_atif_step r); [|by apply HX]. split; [|done]. split_and!; try done.
    by apply chained_unsigned.
Qed.

Lemma publish_ok base jl rs r p tail (X : WS -> Prop) : pb_value p = jr_event r ->
  (forall st, standing base jl rs rs (rs ++ [r]) tail st -> X st) ->
  (forall st, standing base jl (rs ++ [r]) rs (rs ++ [r]) tail st -> X st) ->
  wtriple (standing base jl rs rs (rs ++ [r]) tail) (publish_idempotent env p)
    (fun _ => standing base jl (rs ++ [r]) rs (rs ++ [r]) tail) X.
Proof.
  intros Hp HX HX' st Hst. unfold publish_idempotent, wbind, tick.
  set (st1 := st<|ws_ticks := S (ws_ticks st)|>).
  assert (standing base jl rs rs (rs ++ [r]) tail st1) as H1 by exact Hst.
  assert (standing base jl (rs ++ [r]) rs (rs ++ [r]) tail (st1<|ws_bus := ws_bus st1 ++ [p]|>)) as H2.
  { destruct Hst as [(Hi & Hj & Hx & Hb & Ht & Hc) Hs]. split; [|done].
    split_and!; try done.
    change (map pb_value (ws_bus st ++ [p]) = base ++ map jr_event (rs ++ [r])).
    rewrite !map_app, Hb. cbn [map]. by rewrite Hp, (assoc_L (++)). }
  destruct (fate env (ws_ticks st)) as [|[|n] e]; auto.
Qed.

Lemma apply_ok base jl rs r tail (X : WS -> Prop) :
  (forall st, standing base jl (rs ++ [r]) rs (rs ++ [r]) tail st -> X st) ->
  wtriple (standing base jl (rs ++ [r]) rs (rs ++ [r]) tail) (apply_record r)
    (fun _ => standing base jl (rs ++ [r]) (rs ++ [r]) (rs ++ [r]) tail) X.
Proof.
  intros HX st Hst. pose proof Hst as [(Hi & Hj & Hx & Hb & Ht & Hc) Hs].
  unfold apply_record, apply_to_totals. destruct (fold_into r (totals (ws_session st))) as [t|e] eqn:Hf; cbn.
  - split; [|done]. split_and!; try done. rewrite fold_records_app, Ht. cbn. by rewrite Hf.
  - apply HX. split; [|done]. split_and!; try done.
Qed.

(** The error of phase B leaves the record published or not. *)
Lemma finish_ok base jl rs p tail : pj_value p = jr_event (pj_record p) -> rs ++ [pj_record p] `prefix_of` jl ->
  let r := pj_record p in
  wtriple (standing base jl rs rs rs tail) (finish_job env cfg p)
    (fun _ => standing base jl (rs ++ [r]) (rs ++ [r]) (rs ++ [r]) tail)
    (fun st => recoverable base rs st \/ recoverable base (rs ++ [r]) st).
Proof.
  intros Hv Hp2 r. set (X := fun st => _ \/ _).
  assert (rs `prefix_of` jl) as Hp1 by (etrans; [by exists [r]|done]).
  assert (forall tl cl st, standing base jl rs tl cl tail st -> X st) as HX1
    by (intros; left; by eapply standing_recoverable).
  assert (forall tl cl st, standing base jl (rs ++ [r]) tl cl tail st -> X st) as HX2
    by (intros; right; by eapply standing_recoverable).
  unfold finish_job. rewrite Hv. fold r.
  eapply wt_seq; [apply chain_event_ok, HX1|].
  eapply wt_bind; [apply wt_silent_in; [apply standing_evidential|apply HX1|apply silent_session]|]. intros s.
  eapply wt_bind; [apply (publish_ok base jl rs r); [done|apply HX1|apply HX2]|]. intros ack.
  eapply wt_seq; [apply wt_silent_in; [apply standing_evidential|apply HX2|apply silent_when, silent_ack]|].
  eapply wt_seq; [apply apply_ok, HX2|].
  eapply wt_seq; apply wt_silent_in; [apply standing_evidential|apply HX2| |apply standing_evidential|apply HX2|].
  - destruct (pj_response_marker p); [apply silent_when, silent_clear|apply silent_ret].
  - apply silent_export.
Qed.

(** A job in phase B does not clear the flag that closes the session. *)
Definition lossless {A} (m : W A) : Prop :=
  forall st, capture_lost (ws_session (m st).1) = capture_lost (ws_session st).

Lemma silent_lossless {A} (m : W A) : silent m -> lossless m.
Proof. intros Hm st. specialize (Hm st). unfold evidence in Hm. by injection Hm. Qed.

Lemma lossless_bind {A B} (m : W A) (k : A -> W B) :
  lossless m -> (forall a, lossless (k a)) -> lossless (wbind m k).
Proof.
  intros Hm Hk st. specialize (Hm st). unfold wbind. destruct (m st) as [st' [a|e]]; cbn in *; [|done].
  by rewrite Hk.
Qed.

Lemma lossless_finish p : lossless (finish_job env cfg p).
Proof.
  unfold finish_job. apply lossless_bind.
  { intros st. unfold chain_event. cbn [wbind the_session]. destruct (workflow _).
    - unfold wbind, wof. by destruct (chain_append _ _).
    - by destruct (jr_atif_step _). }
  intros _. apply lossless_bind; [done|]. intros s. apply lossless_bind.
  { intros st. unfold publish_idempotent, wbind, tick. by destruct (fate env _) as [|[|n] e]. }
  intros ack. apply lossless_bind; [apply silent_lossless, silent_when, silent_ack|]. intros _. apply lossless_bind.
  { intros st. unfold apply_record. by destruct (apply_to_totals _ _). }
  intros _. apply lossless_bind; [|intros _; apply silent_lossless, silent_export].
  apply silent_lossless. destruct (pj_response_marker p); [apply silent_when, silent_clear|apply silent_ret].
Qed.

(** * Batches *)

Definition failure (o : result unit WorkerError) : bool := negb (is_ok o).

Definition slot_records (slots : list (option PersistedJob * result unit WorkerError)) : list ActiveJournalRecord :=
  omap (fun s => pj_record <$> s.1) slots.

Definition sound_slot (s : option PersistedJob * result unit WorkerError) : Prop :=
  forall p, s.1 = Some p -> pj_value p = jr_event (pj_record p).

Lemma finish_all_skip slots st : (finish_all env cfg true slots st).1 = st.
Proof.
  induction slots as [|[[p|] o] slots IH]; cbn; [done| |];
    destruct (finish_all env cfg true slots st); cbn in *; by rewrite IH.
Qed.

Lemma finish_all_ok base jl tail slots : forall rs st,
  rs ++ slot_records slots `prefix_of` jl -> Forall sound_slot slots -> standing base jl rs rs rs tail st ->
  let '(st', outs) := finish_all env cfg false slots st in
  let all := rs ++ slot_records slots in
  (standing base jl all all all tail st' /\ outs = map snd slots) \/
  (existsb failure outs = true /\ exists k, recoverable base (rs ++ take k (slot_records slots)) st').
Proof.
  induction slots as [|[[p|] o] slots IH]; intros rs st Hp Hs Hst; cbn.
  { left. by rewrite app_nil_r. }
  - apply Forall_cons in Hs as [Hv Hs]. cbn in Hp.
    assert (rs ++ [pj_record p] `prefix_of` jl) as Hp1.
    { etrans; [|exact Hp]. apply prefix_app. by exists (slot_records slots). }
    pose proof (finish_ok base jl rs p tail (Hv p eq_refl) Hp1 st Hst) as H.
    destruct (finish_job env cfg p st) as [st1 [u|e]]; cbn.
    + assert ((rs ++ [pj_record p]) ++ slot_records slots `prefix_of` jl) as Hp2 by by rewrite <- (assoc_L (++)).
      specialize (IH _ st1 Hp2 Hs H). destruct (finish_all env cfg false slots st1) as [st' outs].
      rewrite <- (assoc_L (++)) in IH. destruct IH as [[H1 ->]|[H1 [k H2]]]; [by left|right].
      split; [cbn; by rewrite H1, orb_true_r|]. exists (S k). by rewrite <- (assoc_L (++)) in H2.
    + pose proof (finish_all_skip slots st1) as E. destruct (finish_all env cfg true slots st1) as [st' outs].
      cbn in E. subst st'. right. split; [done|]. destruct H as [H|H].
      * exists O. by rewrite app_nil_r.
      * by exists 1%nat.
  - apply Forall_cons in Hs as [_ Hs]. specialize (IH rs st Hp Hs Hst).
    destruct (finish_all env cfg false slots st) as [st' outs].
    destruct IH as [[H1 ->]|[H1 [k H2]]]; [by left|right]. split; [cbn; by rewrite H1, orb_true_r|by exists k].
Qed.

Lemma finish_all_lossless failed slots st :
  capture_lost (ws_session (finish_all env cfg failed slots st).1) = capture_lost (ws_session st).
Proof.
  revert failed st. induction slots as [|[[p|] o] slots IH]; intros failed st; cbn; [done| |].
  - destruct failed; cbn.
    + specialize (IH true st). destruct (finish_all env cfg true slots st). exact IH.
    + pose proof (lossless_finish p st) as H. destruct (finish_job env cfg p st) as [st1 r].
      specialize (IH (negb (is_ok r)) st1). destruct (finish_all env cfg _ slots st1). cbn in *. congruence.
  - specialize (IH failed st). destruct (finish_all env cfg failed slots st). exact IH.
Qed.

Lemma persist_all_skip jobs st :
  persist_all env cfg true jobs st = (st, map (fun _ => (None, Ok tt)) jobs).
Proof. induction jobs as [|job jobs IH]; cbn; [done|]. by rewrite IH. Qed.

Lemma slot_records_skip (jobs : list WorkerJob) :
  slot_records (map (fun _ => (None, Ok tt)) jobs) = [].
Proof. by induction jobs. Qed.

Lemma persist_all_ok base rs jobs : has_spool cfg = true -> forall pend st,
  coherent base rs pend st -> intact st ->
  let '(st', slots) := persist_all env cfg false jobs st in
  (exists ps, slots = map (fun p => (Some p, Ok tt)) ps /\ Forall2 persisted_of jobs ps /\
     coherent base rs (pend ++ map pj_record ps) st' /\ intact st') \/
  (existsb failure (map snd slots) = true /\ Forall sound_slot slots /\
     spoiled base (rs ++ pend ++ slot_records slots) rs st').
Proof.
  intros Hspool. induction jobs as [|job jobs IH]; intros pend st Hc Hi; cbn [persist_all].
  { left. exists []. cbn. rewrite app_nil_r. split_and!; [done|constructor|done..]. }
  pose proof (persist_ok base rs pend job false Hspool st (conj Hc Hi)) as H.
  destruct (persist_job env cfg job false st) as [st1 [slot|e]].
  - destruct H as (p & -> & Hp & [Hc1 _] & Hi1). specialize (IH _ st1 Hc1 Hi1).
    destruct (persist_all env cfg false jobs st1) as [st' slots].
    destruct IH as [(ps & -> & Hps & Hc' & Hi')|(Hf & Hs & Hsp)];
      cbn beta iota.
    + left. exists (p :: ps). cbn. rewrite <- (assoc_L (++)) in Hc'. split_and!; [done|by constructor|done..].
    + right. cbn. rewrite Hf. rewrite <- !(assoc_L (++)) in Hsp. split_and!; [done| |done].
      constructor; [|done]. intros p' Heq. cbn in Heq. injection Heq as <-. apply Hp.
  - rewrite persist_all_skip. cbn beta iota. right. cbn. rewrite slot_records_skip, app_nil_r. split_and!; [done| |exact H].
    constructor; [done|]. apply Forall_fmap, Forall_true. by intros ? ?.
Qed.

Lemma sync_session_ok base jl bl tail : bl `prefix_of` jl ->
  wtriple (fun st => books base jl bl bl bl tail st /\ durable bl st) (sync_session_journal env sid)
    (fun _ => standing base jl bl bl bl tail) (fun st => books base jl bl bl bl tail st /\ durable bl st).
Proof.
  intros Hp st [Hb Hd]. unfold sync_session_journal, file_exists, look. cbn [wbind].
  destruct (ws_spool st !! events_path sid) as [f|] eqn:E.
  - rewrite bool_decide_true by done. cbn [wwhen].
    pose proof (wt_sync base jl bl tail Hp st (conj Hb Hd)) as H.
    destruct (spool_op env _ st) as [st' [u|e]]; [|exact H]. by destruct H as [[H1 _] H2].
  - rewrite bool_decide_false by (by intros [? ?]). split; [done|]. unfold all_synced, journal_file. by rewrite E.
Qed.

Lemma finish_all_none failed slots st : Forall (fun s => s.1 = None) slots ->
  finish_all env cfg failed slots st = (st, map snd slots).
Proof.
  induction 1 as [|[o r] slots Ho _ IH]; [done|]. cbn in Ho. subst o. cbn. by rewrite IH.
Qed.

Lemma no_slot slots : existsb (fun s => is_some s.1) slots = false ->
  Forall (fun s : option PersistedJob * result unit WorkerError => s.1 = None) slots /\ slot_records slots = [].
Proof.
  induction slots as [|[[p|] r] slots IH]; cbn; [done|done|]. intros H. destruct (IH H) as [H1 H2].
  split; [by constructor|done].
Qed.

Lemma unsynced_none e slots : Forall (fun s => s.1 = None) (map (unsynced e) slots) /\
  (existsb (fun s => is_some s.1) slots || existsb failure (map snd slots) = true ->
   existsb failure (map snd (map (unsynced e) slots)) = true).
Proof.
  induction slots as [|[[p|] r] slots [IH1 IH2]]; cbn; [done| |]; (split; [by constructor|]); [done|].
  intros H. destruct (failure r); [done|]. by apply IH2.
Qed.

(** The sync and the tails of a batch, from any state phase A can leave. *)
Lemma settle_ok base rs jl tail slots st : has_spool cfg = true -> jl = rs ++ slot_records slots ->
  Forall sound_slot slots -> books base jl rs rs rs tail st -> durable rs st ->
  let '(st2, slots') := sync_batch env cfg slots st in
  let '(st', outs) := finish_all env cfg false slots' st2 in
  (books base jl jl jl jl tail st' /\ durable jl st' /\ outs = map snd slots) \/
  (existsb failure outs = true /\ exists rs', recoverable base (rs ++ rs') st').
Proof.
  intros Hspool Hjl Hs Hb Hd. unfold sync_batch. rewrite Hspool. cbn [andb].
  assert (rs `prefix_of` jl) as Hp by by exists (slot_records slots).
  destruct (existsb _ slots) eqn:He.
  - assert (id (ws_session st) = sid) as -> by apply Hb.
    pose proof (sync_session_ok base jl rs tail Hp st (conj Hb Hd)) as H.
    destruct (sync_session_journal env sid st) as [st2 [u|e]].
    + pose proof (finish_all_ok base jl tail slots rs st2) as Hf. rewrite <- Hjl in Hf.
      specialize (Hf ltac:(done) Hs H). destruct (finish_all env cfg false slots st2) as [st' outs].
      destruct Hf as [[[H1 H2] ->]|[H1 [k H2]]]; [left|right; eauto].
      split_and!; [done| |done]. by eapply synced_durable.
    + destruct (unsynced_none e slots) as [H1 H2]. rewrite finish_all_none by done. right.
      rewrite He in H2. split; [by apply H2|]. exists []. rewrite app_nil_r. destruct H. by eapply books_recoverable.
  - apply no_slot in He as [H1 H2]. rewrite finish_all_none by done. left. subst jl.
    rewrite H2, app_nil_r in *. done.
Qed.

Lemma settle_lossless slots st :
  let '(st2, slots') := sync_batch env cfg slots st in
  capture_lost (ws_session (finish_all env cfg false slots' st2).1) = capture_lost (ws_session st).
Proof.
  unfold sync_batch. destruct (_ && _); [|apply finish_all_lossless].
  assert (ws_session (sync_session_journal env (id (ws_session st)) st).1 = ws_session st) as Hs.
  { unfold sync_session_journal. apply steady_bind; [done|]. intros b. destruct b; [apply steady_spool|done]. }
  destruct (sync_session_journal env _ st) as [st2 [u|e]]; cbn in Hs; by rewrite finish_all_lossless, Hs.
Qed.

Lemma run_batch_ok base rs jobs st : has_spool cfg = true -> coherent base rs [] st -> intact st ->
  let '(st', outs) := run_batch env cfg jobs st in
  (existsb failure outs = false /\ exists ps, Forall2 persisted_of jobs ps /\
     coherent base (rs ++ map pj_record ps) [] st' /\ intact st') \/
  (existsb failure outs = true /\ exists rs', recoverable base (rs ++ rs') st').
Proof.
  intros Hspool Hc Hi. unfold run_batch.
  pose proof (persist_all_ok base rs jobs Hspool [] st Hc Hi) as H.
  destruct (persist_all env cfg false jobs st) as [st1 slots].
  pose proof (settle_lossless slots st1) as Hl.
  destruct H as [(ps & -> & Hps & Hc1 & Hi1)|(Hf & Hs & tail & Hb & Hd)]; cbn [app] in *.
  - set (slots := map (fun p => (Some p, Ok tt)) ps) in *. apply coherent_books in Hc1 as [Hb Hd].
    assert (slot_records slots = map pj_record ps) as Hr.
    { subst slots. clear. induction ps as [|p ps IH]; [done|]. cbn. f_equal. exact IH. }
    pose proof (settle_ok base rs (rs ++ map pj_record ps) [] slots st1 Hspool) as H. rewrite Hr in H.
    assert (Forall sound_slot slots) as Hss.
    { subst slots. clear -Hps. induction Hps as [|j p js ps Hp _ IH]; constructor; [|done].
      intros p' Heq. cbn in Heq. injection Heq as <-. apply Hp. }
    specialize (H eq_refl Hss Hb Hd). destruct (sync_batch env cfg slots st1) as [st2 slots'].
    destruct (finish_all env cfg false slots' st2) as [st' outs]. cbn in Hl.
    destruct H as [(H1 & H2 & ->)|H]; [left|by right]. split.
    { subst slots. clear. induction ps as [|p ps IH]; [done|]. exact IH. }
    exists ps. split_and!; [done| |].
    + apply coherent_books. rewrite app_nil_r. done.
    + unfold intact, capture_failed in *. by rewrite Hl.
  - pose proof (settle_ok base rs _ tail slots st1 Hspool eq_refl Hs Hb Hd) as H.
    destruct (sync_batch env cfg slots st1) as [st2 slots'].
    destruct (finish_all env cfg false slots' st2) as [st' outs]. right.
    destruct H as [(H1 & H2 & ->)|H]; [|done]. split; [done|]. exists (slot_records slots).
    by eapply books_recoverable.
Qed.

(** * Runs *)

Lemma process_job_ok base rs job st : has_spool cfg = true -> coherent base rs [] st -> intact st ->
  match process_job env cfg job st with
  | (st', Ok _) => exists p, persisted_of job p /\ coherent base (rs ++ [pj_record p]) [] st' /\ intact st'
  | (st', Err _) => exists rs', recoverable base (rs ++ rs') st'
  end.
Proof.
  intros Hspool Hc Hi. unfold process_job, wbind.
  pose proof (persist_ok base rs [] job true Hspool st (conj Hc Hi)) as H.
  destruct (persist_job env cfg job true st) as [st1 [o|e]].
  - destruct H as (p & -> & Hp & [Hc1 Hs] & Hi1). cbn [app] in Hc1. pose proof Hc1 as Hb.
    apply coherent_books in Hb as [Hb _].
    pose proof (finish_ok base (rs ++ [pj_record p]) rs p [] (proj1 Hp) ltac:(done) st1
                  (conj Hb (Hs eq_refl))) as H.
    pose proof (lossless_finish p st1) as Hl. destruct (finish_job env cfg p st1) as [st' [u|e]]; cbn in Hl.
    + exists p. split_and!; [done| |unfold intact, capture_failed in *; by rewrite Hl].
      apply coherent_books. rewrite app_nil_r. destruct H as [H1 H2]. split; [done|]. by eapply synced_durable.
    + destruct H as [H|H]; [|by eauto]. exists []. by rewrite app_nil_r.
  - exists []. rewrite app_nil_r. by eapply spoiled_recoverable; [apply prefix_app_r|].
Qed.

(** What holds between batches. *)
Definition vouches (base : list Value) (jobs : list WorkerJob) (st : WS) : Prop :=
  exists rs, recoverable base rs st /\ (intact st -> coherent base rs [] st /\ Forall2 of_job jobs rs).

Lemma persisted_records jobs ps : Forall2 persisted_of jobs ps -> Forall2 of_job jobs (map pj_record ps).
Proof. induction 1 as [|j p js ps Hp _ IH]; constructor; [apply Hp|done]. Qed.

Lemma persist_lost job sync st : ~ intact st -> persist_job env cfg job sync st = (st, Ok None).
Proof.
  intros Hi. unfold persist_job. cbn [wbind the_session].
  destruct (capture_failed (ws_session st)) eqn:E; [done|]. by destruct Hi.
Qed.

Lemma run_batch_lost jobs st : ~ intact st ->
  run_batch env cfg jobs st = (st, map (fun _ => Ok tt) jobs).
Proof.
  intros Hi. unfold run_batch.
  assert (persist_all env cfg false jobs st = (st, map (fun _ => (None, Ok tt)) jobs)) as ->.
  { induction jobs as [|job jobs IH]; [done|]. cbn [persist_all]. rewrite persist_lost by done. by rewrite IH. }
  assert (existsb (fun s : option PersistedJob * result unit WorkerError => is_some s.1)
            (map (fun _ => (None, Ok tt)) jobs) = false) as He by by induction jobs.
  unfold sync_batch. rewrite He, andb_false_r.
  rewrite finish_all_none by (apply Forall_fmap, Forall_true; done). by rewrite map_map.
Qed.

Lemma release_evidence n st : evidence (Nat.iter n release_pending st) = evidence st.
Proof. induction n as [|n IH]; [done|]. exact IH. Qed.

Lemma vouches_evidential base jobs : evidential (vouches base jobs).
Proof.
  intros st st' E (rs & Hr & Hc). exists rs. split; [by eapply recoverable_evidential|].
  intros Hi. destruct Hc as [H1 H2]; [by eapply intact_evidential|]. split; [by eapply coherent_evidential|done].
Qed.

Lemma failed_not_intact st : ~ intact (fail_closed true st).
Proof. done. Qed.

Lemma vouches_failed base jobs rs st : recoverable base rs st -> vouches base jobs (fail_closed true st).
Proof. intros H. exists rs. split; [exact H|]. intros Hi. by destruct (failed_not_intact st). Qed.

Lemma batch_vouches base done jobs st : has_spool cfg = true ->
  vouches base done st -> vouches base (done ++ jobs) (process_envelope_batch env cfg jobs st).
Proof.
  intros Hspool (rs & Hr & Hc). destruct (decide (intact st)) as [Hi|Hi].
  - destruct (Hc Hi) as [Hco Hd]. destruct jobs as [|job [|job' jobs]]; unfold process_envelope_batch.
    + rewrite app_nil_r. by exists rs.
    + unfold process_envelope. pose proof (process_job_ok base rs job st Hspool Hco Hi) as H.
      destruct (process_job env cfg job st) as [st' [u|e]].
      * apply (vouches_evidential base _ (fail_closed false st')); [done|]. destruct H as (p & Hp & H1 & H2). exists (rs ++ [pj_record p]). split; [apply H1|]. intros _.
        split; [done|]. apply Forall2_app; [done|]. constructor; [apply Hp|constructor].
      * apply (vouches_evidential base _ (fail_closed true st')); [done|].
        destruct H as [rs' H]. by eapply vouches_failed.
    + set (js := job :: job' :: jobs). pose proof (run_batch_ok base rs js st Hspool Hco Hi) as H.
      destruct (run_batch env cfg js st) as [st' outs].
      apply (vouches_evidential base _ (fail_closed (existsb failure outs) st')); [by rewrite release_evidence|].
      destruct H as [(-> & ps & Hps & H1 & H2)|[-> [rs' H]]]; [|by eapply vouches_failed].
      exists (rs ++ map pj_record ps). split; [apply H1|]. intros _. split; [done|].
      by apply Forall2_app, persisted_records.
  - assert (vouches base (done ++ jobs) st) as Hv by (exists rs; split; [done|]; by intros ?).
    destruct jobs as [|job [|job' jobs]]; unfold process_envelope_batch; [done| |].
    + unfold process_envelope, process_job, wbind. rewrite persist_lost by done.
      by apply (vouches_evidential base _ st).
    + set (js := job :: job' :: jobs) in *. rewrite run_batch_lost by done.
      assert (existsb (fun o => negb (is_ok o)) (map (fun _ : WorkerJob => @Ok unit WorkerError tt) js) = false) as ->
        by (clear; by induction js).
      apply (vouches_evidential base _ st); [by rewrite release_evidence|done].
Qed.

(** Between batches the request handlers change the session, but not its evidence. *)
Definition elsewhere (s s' : Session) : Prop :=
  (id s', workflow s', journal_index s', totals s', chain s', atif_steps s') =
  (id s, workflow s, journal_index s, totals s, chain s, atif_steps s) /\
  (capture_failed s = true -> capture_failed s' = true).

(** The worker's history of one session: the jobs taken in, in order. *)
Inductive worked : WS -> list WorkerJob -> WS -> Prop :=
| worked_none st : worked st [] st
| worked_batch st done st' jobs :
    worked st done st' -> worked st (done ++ jobs) (process_envelope_batch env cfg jobs st')
| worked_elsewhere st done st' s :
    worked st done st' -> elsewhere (ws_session st') s -> worked st done (st'<|ws_session := s|>).

(** A session no job of which has been taken in. *)
Definition unworked (st : WS) : Prop :=
  id (ws_session st) = sid /\ journal_index (ws_session st) = 0 /\ totals (ws_session st) = totals_default /\
  chain (ws_session st) = chain_new sid /\ atif_steps (ws_session st) = 0 /\ ws_spool st !! events_path sid = None.

Lemma unworked_vouches st : unworked st -> vouches (map pb_value (ws_bus st)) [] st.
Proof.
  intros (Hi & Hj & Ht & Hc & Ha & Hf). exists [].
  assert (books (map pb_value (ws_bus st)) [] [] [] [] [] st) as Hb.
  { unfold books, journal_file, chained. rewrite Hf, Ht, Ha, Hc, Hi, app_nil_r. cbn.
    split_and!; [done|by exists []|done..|]. by destruct (workflow _). }
  assert (durable [] st) as Hd by (exists []; cbn; split; [done|lia]).
  split; [by eapply books_recoverable|]. intros _. split; [|done]. by apply coherent_books.
Qed.

Lemma worked_vouches st jobs st' : has_spool cfg = true -> unworked st -> worked st jobs st' ->
  vouches (map pb_value (ws_bus st)) jobs st'.
Proof.
  intros Hspool Hu. induction 1 as [st|st jobs st' jobs' _ IH|st jobs st' s _ IH [He Hk]].
  - by apply unworked_vouches.
  - apply batch_vouches; auto.
  - destruct (IH Hu) as (rs & Hr & Hc). injection He as H1 H2 H3 H4 H5 H6. exists rs. split.
    + destruct Hr as (Hi & Hb & Hx). split_and!; [|done|done]. exact (eq_trans H1 Hi).
    + intros Hi. assert (intact st') as Hi'.
      { unfold intact in *. destruct (capture_failed (ws_session st')); [|done].
        specialize (Hk eq_refl). change (capture_failed s = false) in Hi. congruence. }
      destruct (Hc Hi') as [Hco Hd]. split; [|done]. apply coherent_books in Hco as [(B1 & B2 & B3 & B4 & B5 & B6) D].
      apply coherent_books. split; [|done]. unfold books, chained in *.
      change (ws_session (st'<|ws_session := s|>)) with s. rewrite H1, H2, H3, H4, H5, H6. done.
Qed.
End Evidence.

(** * The property *)

(** C9. Whatever fails, and wherever a write stops, the evidence of a session agrees.
    From a session none of whose jobs was taken in, after any history of batches, with
    the handlers changing the session in between: the events on the bus are exactly
    those of an initial run of journal records, in order, whose lines are on disk and
    so survive a crash; and unless the session is marked as having lost a capture, the
    journal holds one record per job taken in, with the job's identity and response
    attempt, nothing else, at the committed index; all of them are on disk and on the
    bus, the live totals are the recovery fold of the records, and the hash chain (or
    the step count) is that of their events. *)
Theorem evidence_agrees {UT : UnicodeTables} {R : Ryu} {SHA : Sha256} {HM : HmacSha256} {SJ : SerdeJson}
    {JR : JsonReader} {RS : RecordSerde} (env : Env) (cfg : WorkerConfig) (sid : str) (st st' : WS)
    (jobs : list WorkerJob) :
  has_spool cfg = true -> unworked sid st -> worked env cfg st jobs st' ->
  exists rs,
    recoverable cfg sid (map pb_value (ws_bus st)) rs st' /\
    (forall g, survives (journal_file sid st') g ->
       exists pre rest, journal_bytes cfg sid 0 rs = Ok pre /\ bytes g = pre ++ rest) /\
    (capture_failed (ws_session st') = false ->
       coherent cfg sid (map pb_value (ws_bus st)) rs [] st' /\ Forall2 of_job jobs rs).
Proof.
  intros Hspool Hu Hw. destruct (worked_vouches env cfg sid st jobs st' Hspool Hu Hw) as (rs & Hr & Hc).
  exists rs. split_and!; [done| |done].
  intros g (n & Hn & Hg & _). destruct Hr as (_ & _ & pre & tail & Hpre & Hf & Hs).
  exists pre, (take (n - length pre) tail). split; [done|].
  rewrite Hg, Hf, take_app_ge by lia. done.
Qed.

(** * A concrete worker *)

Module WorkerSample.

(** A record is written by its event alone. *)
Definition record_serde : RecordSerde := {|
  record_to := jr_event; record_from _ := None;
  marker_to m := JString (if_attempt_id m); marker_from _ := None;
  broker_ack_to a := JString (ba_event_uid a);
  tool_calls_json _ := None; observation_json _ := None |}.

Definition env : Env := mkEnv (fun _ => Fine) (fun _ => 1750000000000) (fun n => lit "u" ++ [48 + Z.of_nat n])
  (fun _ _ => Ok []) (fun _ _ _ => Ok None) (fun _ => mkAck (lit "t") 0 0).

Definition cfg : WorkerConfig := mkWorkerConfig true (replicate 32 9) None false (lit "1.0").

Definition start : WS := mkWS SessionSample.opened ∅ [] [] 0 0.

Definition job (tokens : Z) : WorkerJob :=
  mkJob 0%nat SessionSample.agent EventClass.ToolCall (Object [(lit "a", ser_u 1)]) (lit "hello") false
    StatusId.Success None None (mkMetrics (Some tokens) None None None None) 0 0 None None None.

(** The job's record is written, synced, published and counted. *)
Definition work : WS :=
  @process_envelope_batch toy_ryu toy_sha256 toy_hmac JournalSample.serde JournalSample.reader record_serde env cfg
    [job 5] start.
End WorkerSample.

Lemma evidence_agrees_witness :
  exists rs, Forall2 of_job [WorkerSample.job 5] rs /\
    map pb_value (ws_bus WorkerSample.work) = map jr_event rs.
Proof.
  destruct (@evidence_agrees ascii_tables toy_ryu toy_sha256 toy_hmac JournalSample.serde JournalSample.reader
    WorkerSample.record_serde WorkerSample.env WorkerSample.cfg (lit "s-1") WorkerSample.start WorkerSample.work
    [WorkerSample.job 5]) as (rs & Hr & _ & Hc).
  - reflexivity.
  - vm_compute. split_and!; reflexivity.
  - apply (worked_batch WorkerSample.env WorkerSample.cfg WorkerSample.start [] WorkerSample.start [WorkerSample.job 5]).
    apply worked_none.
  - destruct Hc as [Hco Hf]; [vm_compute; reflexivity|]. exists rs. split; [exact Hf|].
    destruct Hr as (_ & Hb & _). exact Hb.
Defined.
