(* ===== verification/WorkerQueue.v ===== *)
(** [av-harness/src/worker.rs]: the bounded queue between the request handlers and the
    worker shards.  [Pool] is the handle: two semaphores, one bounded channel per
    shard, permits and submissions.  [Dispatcher] is the loop of one shard, which runs
    the jobs of a session one batch at a time and several sessions at once. *)

From S2P Require Import Prelude Rust CoreBase Json Core Serde Events Atif Session Worker.

Inductive SubmitError := Full | Closed.

#[global] Instance SubmitError_eq_dec : EqDecision SubmitError.
Proof. solve_decision. Defined.

Definition submit_error_to_string (e : SubmitError) : str :=
  match e with Full => lit "worker queue is full" | Closed => lit "worker queue is closed" end.

Inductive DropStage := StageWorkerQueue | StageResponseSlot.

(** The semaphore a capacity permit came from, and returns to. *)
Inductive Origin := FromCapacity | FromResponse.

#[global] Instance Origin_eq_dec : EqDecision Origin.
Proof. solve_decision. Defined.

(** [en_sid] is the id of the job's session. *)
Record Envelope := mkEnvelope { en_sid : str; en_job : WorkerJob; en_origin : Origin }.

(** [av_bridge::bus::partition_for]. *)
Definition partition_for (key : str) (partitions : Z) : Z :=
  fnv1a (as_bytes key) mod Z.max partitions 1.

(** * The handle *)

Module Pool.

(** A bounded channel: what is queued, and the slots reserved by permits. *)
Record Channel := mkChannel {
  ch_queue : list Envelope;
  ch_reserved : nat;
  ch_capacity : nat;
  ch_open : bool;
}.

Record Drops := mkDrops { d_worker_queue : Z; d_response_slot : Z; d_worker_closed : Z }.

(** [capacity] and [response_capacity] are the permits left in the semaphores. *)
Record t := mk {
  senders : list Channel;
  pending : Z;
  capacity : nat;
  response_capacity : nat;
  drops : Drops;
}.

Definition MIN_SHARDS : nat := 16.

(** [spawn_worker_with_outputs]; [parallelism] is what the platform reports. *)
Definition spawn (cap : nat) (parallelism : option nat) : t :=
  let cap := Nat.max cap 1 in
  let shard_count := Nat.max (default MIN_SHARDS parallelism) MIN_SHARDS in
  let per_shard := (cap * 2)%nat in
  mk (replicate shard_count (mkChannel [] 0 per_shard true)) 0 cap cap (mkDrops 0 0 0).

Definition shard_of (h : t) (sid : str) : nat := Z.to_nat (partition_for sid (Z.of_nat (length (senders h)))).

Definition sender_for (h : t) (sid : str) : option Channel := senders h !! shard_of h sid.

Definition set_channel (h : t) (i : nat) (c : Channel) : t := h<|senders := <[i := c]> (senders h)|>.

Definition count_full (stage : DropStage) (h : t) : t :=
  let d := drops h in
  h<|drops := match stage with
              | StageWorkerQueue => mkDrops (d_worker_queue d + 1) (d_response_slot d) (d_worker_closed d)
              | StageResponseSlot => mkDrops (d_worker_queue d) (d_response_slot d + 1) (d_worker_closed d)
              end|>.

Definition count_closed (h : t) : t :=
  let d := drops h in h<|drops := mkDrops (d_worker_queue d) (d_response_slot d) (d_worker_closed d + 1)|>.

(** Returning a capacity permit. *)
Definition release (o : Origin) (h : t) : t :=
  match o with
  | FromCapacity => h<|capacity := S (capacity h)|>
  | FromResponse => h<|response_capacity := S (response_capacity h)|>
  end.

Definition try_capacity_labeled (stage : DropStage) (h : t) : t * result unit SubmitError :=
  match capacity h with
  | O => (count_full stage h, Err Full)
  | S n => (h<|capacity := n|>, Ok tt)
  end.

Definition has_room (c : Channel) : bool := (length (ch_queue c) + ch_reserved c <? ch_capacity c)%nat.

(** A [WorkerPermit] is known by its shard: it holds a slot there and a capacity
    permit. *)
Definition try_reserve (sid : str) (h : t) : t * result nat SubmitError :=
  match try_capacity_labeled StageWorkerQueue h with
  | (h, Err e) => (h, Err e)
  | (h, Ok _) =>
      match sender_for h sid with
      | None => (release FromCapacity h, Err Closed)
      | Some c =>
          if negb (ch_open c) then (count_closed (release FromCapacity h), Err Closed)
          else if negb (has_room c) then (count_full StageWorkerQueue (release FromCapacity h), Err Full)
          else (set_channel h (shard_of h sid) (c<|ch_reserved := S (ch_reserved c)|>), Ok (shard_of h sid))
      end
  end.

Definition drop_worker_permit (i : nat) (h : t) : t :=
  match senders h !! i with
  | Some c => release FromCapacity (set_channel h i (c<|ch_reserved := (ch_reserved c - 1)%nat|>))
  | None => release FromCapacity h
  end.

Definition try_reserve_response (h : t) : t * result unit SubmitError :=
  match response_capacity h with
  | O => (count_full StageResponseSlot h, Err Full)
  | S n => (h<|response_capacity := n|>, Ok tt)
  end.

(** A [ResponsePermit] holds only its capacity permit. *)
Definition drop_response_permit (h : t) : t := release FromResponse h.

Definition try_reserve_pair (sid : str) (h : t) : t * result nat SubmitError :=
  match try_reserve sid h with
  | (h, Err e) => (h, Err e)
  | (h, Ok i) =>
      match try_reserve_response h with
      | (h, Err e) => (drop_worker_permit i h, Err e)
      | (h, Ok _) => (h, Ok i)
      end
  end.

(** ** Submitting *)

Definition session_at (f : Session -> Session) (a : addr) (w : World) : World :=
  mkWorld (alter f a (heap w)) (sessions w).

Definition started (a : addr) : World -> World := session_at worker_job_started a.
Definition finished (a : addr) : World -> World := session_at (fun s => (worker_job_finished s).1) a.

Definition add_pending (h : t) : t := h<|pending := fetch_add (pending h)|>.
Definition sub_pending (h : t) : t := h<|pending := fetch_sub (pending h)|>.

(** [WorkerPermit::submit]: into the reserved slot. *)
Definition submit (i : nat) (sid : str) (job : WorkerJob) (w : World) (h : t) : World * t :=
  let w := started (wj_session job) w in
  let h := add_pending h in
  match senders h !! i with
  | Some c =>
      (w, set_channel h i (c<|ch_reserved := (ch_reserved c - 1)%nat|>
                            <|ch_queue := ch_queue c ++ [mkEnvelope sid job FromCapacity]|>))
  | None => (w, h)
  end.

(** The permit rides in the envelope, or is returned with it. *)
Definition submit_with_permit (sid : str) (job : WorkerJob) (o : Origin) (stage : DropStage) (w : World) (h : t)
  : World * t * result unit SubmitError :=
  match sender_for h sid with
  | None => (w, release o h, Err Closed)
  | Some c =>
      let w1 := started (wj_session job) w in
      let h1 := add_pending h in
      let undo (h : t) := release o (sub_pending h) in
      if negb (ch_open c) then (finished (wj_session job) w1, count_closed (undo h1), Err Closed)
      else if negb (has_room c) then (finished (wj_session job) w1, count_full stage (undo h1), Err Full)
      else (w1, set_channel h1 (shard_of h1 sid) (c<|ch_queue := ch_queue c ++ [mkEnvelope sid job o]|>), Ok tt)
  end.

(** [ResponsePermit::submit]. *)
Definition submit_response (sid : str) (job : WorkerJob) (w : World) (h : t) : World * t * result unit SubmitError :=
  submit_with_permit sid job FromResponse StageResponseSlot w h.

Definition try_submit (sid : str) (job : WorkerJob) (w : World) (h : t) : World * t * result unit SubmitError :=
  match try_capacity_labeled StageWorkerQueue h with
  | (h, Err e) => (w, h, Err e)
  | (h, Ok _) => submit_with_permit sid job FromCapacity StageWorkerQueue w h
  end.

(** ** The receiving side *)

(** A shard takes the next envelope off its channel. *)
Definition recv (i : nat) (h : t) : t * option Envelope :=
  match senders h !! i with
  | Some c => match ch_queue c with
              | e :: rest => (set_channel h i (c<|ch_queue := rest|>), Some e)
              | [] => (h, None)
              end
  | None => (h, None)
  end.

(** The guards of a processed envelope. *)
Definition complete (e : Envelope) (w : World) (h : t) : World * t :=
  (finished (wj_session (en_job e)) w, sub_pending (release (en_origin e) h)).
End Pool.

(** * One shard *)

Module Dispatcher.

Definition MAX_ACTIVE_SESSIONS_PER_SHARD : nat := 8.
Definition MAX_BATCH_PER_SESSION : nat := 16.

(** [tasks] are the batches in flight, by session. *)
Record t := mk {
  queues : gmap str (list Envelope);
  active : gset str;
  tasks : list (str * list Envelope);
  receiver_open : bool;
}.

Definition new : t := mk ∅ ∅ [] true.

Definition spawn_batch (batch : list Envelope) (d : t) : t :=
  let sid := match batch with e :: _ => en_sid e | [] => [] end in
  d<|tasks := tasks d ++ [(sid, batch)]|>.

(** The arm of [receiver.recv()]; [None] is a closed channel. *)
Definition on_recv (o : option Envelope) (d : t) : t :=
  match o with
  | None => d<|receiver_open := false|>
  | Some e =>
      let sid := en_sid e in
      if negb (bool_decide (sid ∈ active d)) && negb (bool_decide (is_Some (queues d !! sid)))
         && (size (active d) <? MAX_ACTIVE_SESSIONS_PER_SHARD)%nat
      then spawn_batch [e] (d<|active := {[sid]} ∪ active d|>)
      else d<|queues := <[sid := default [] (queues d !! sid) ++ [e]]> (queues d)|>
  end.

(** [queue.drain(..take)]: the batch, and the queues with what is left. *)
Definition drain (sid : str) (d : t) : list Envelope * t :=
  match queues d !! sid with
  | None => ([], d)
  | Some q =>
      let n := Nat.min (length q) MAX_BATCH_PER_SESSION in
      (take n q, d<|queues := <[sid := drop n q]> (queues d)|>)
  end.

(** Removes the entry of a session whose queue is empty. *)
Definition tidy (sid : str) (d : t) : t :=
  match queues d !! sid with
  | Some [] => d<|queues := delete sid (queues d)|>
  | _ => d
  end.

Definition activate (d : t) (sid : str) : t :=
  let '(batch, d) := drain sid d in
  match batch with
  | [] => d
  | _ => spawn_batch batch ((tidy sid d)<|active := {[sid]} ∪ active (tidy sid d)|>)
  end.

(** The waiting sessions, as many as there are free slots; [order] is the order in
    which the map lists its keys. *)
Definition waiting (order : list str) (d : t) : list str :=
  take (MAX_ACTIVE_SESSIONS_PER_SHARD - size (active d))
    (List.filter (fun sid => negb (bool_decide (sid ∈ active d))) order).

(** The arm of [tasks.join_next()], when the task of [sid] has ended. *)
Definition on_join (order : t -> list str) (sid : str) (d : t) : t :=
  let '(backlog, d1) := drain sid d in
  match backlog with
  | _ :: _ => spawn_batch backlog (tidy sid d1)
  | [] =>
      let d2 := d1<|queues := delete sid (queues d1)|><|active := active d1 ∖ {[sid]}|> in
      fold_left activate (waiting (order d2) d2) d2
  end.

(** [tasks.is_empty() && queues.is_empty()] with the channel closed. *)
Definition done (d : t) : bool :=
  negb (receiver_open d) && Nat.eqb (length (tasks d)) 0 && bool_decide (queues d = ∅).

(** The loop: an envelope arrives, the channel closes, or some task ends.  Tasks end
    in any order; only the teardown of the runtime aborts one, which is left out. *)
Inductive step (order : t -> list str) : t -> t -> Prop :=
| step_recv d e : receiver_open d = true -> step order d (on_recv (Some e) d)
| step_closed d : receiver_open d = true -> step order d (on_recv None d)
| step_join d pre sid batch post : tasks d = pre ++ (sid, batch) :: post ->
    step order d (on_join order sid (d<|tasks := pre ++ post|>)).
End Dispatcher.
