(* ===== verification/WorkerQueueProofs.v ===== *)
(** What the worker's queue guarantees: the channels never refuse what the semaphores
    admitted, the pending count is exact, and a shard runs each session's jobs in
    order, one batch at a time, without leaving a free slot idle. *)

From S2P Require Import Prelude Rust CoreBase Json Core Serde Events Atif Session SessionProofs Worker WorkerQueue.

(** * The pool *)

Module PoolFacts.
Import Pool.

(** The handle together with who holds what: the worker permits by shard, the number
    of response permits, and the envelopes being processed. *)
Record Sys := mkSys {
  handle : t;
  world : World;
  permits : list nat;
  responses : nat;
  running : list Envelope;
}.

Inductive pstep : Sys -> Sys -> Prop :=
| p_reserve s sid h' r : try_reserve sid (handle s) = (h', r) ->
    pstep s (s<|handle := h'|>
              <|permits := match r with Ok i => i :: permits s | Err _ => permits s end|>)
| p_pair s sid h' r : try_reserve_pair sid (handle s) = (h', r) ->
    pstep s (s<|handle := h'|>
              <|permits := match r with Ok i => i :: permits s | Err _ => permits s end|>
              <|responses := match r with Ok _ => S (responses s) | Err _ => responses s end|>)
| p_drop s i rest : permits s ≡ₚ i :: rest ->
    pstep s (s<|handle := drop_worker_permit i (handle s)|><|permits := rest|>)
| p_drop_response s n : responses s = S n ->
    pstep s (s<|handle := drop_response_permit (handle s)|><|responses := n|>)
| p_submit s i rest sid job w' h' : permits s ≡ₚ i :: rest ->
    submit i sid job (world s) (handle s) = (w', h') ->
    pstep s (s<|handle := h'|><|world := w'|><|permits := rest|>)
| p_submit_response s n sid job w' h' r : responses s = S n ->
    submit_response sid job (world s) (handle s) = (w', h', r) ->
    pstep s (s<|handle := h'|><|world := w'|><|responses := n|>)
| p_try_submit s sid job w' h' r :
    try_submit sid job (world s) (handle s) = (w', h', r) ->
    pstep s (s<|handle := h'|><|world := w'|>)
| p_recv s i h' e : recv i (handle s) = (h', Some e) ->
    pstep s (s<|handle := h'|><|running := e :: running s|>)
| p_complete s e rest w' h' : running s ≡ₚ e :: rest -> complete e (world s) (handle s) = (w', h') ->
    pstep s (s<|handle := h'|><|world := w'|><|running := rest|>)
| p_shut s i c : senders (handle s) !! i = Some c ->
    pstep s (s<|handle := set_channel (handle s) i (c<|ch_open := false|>)|>).

Definition start (cap : nat) (parallelism : option nat) (w : World) : Sys :=
  mkSys (spawn cap parallelism) w [] 0 [].

(** ** Counting *)

Definition cnt (o : Origin) (l : list Envelope) : nat :=
  length (List.filter (fun e => bool_decide (en_origin e = o)) l).

Definition load (o : Origin) (ss : list Channel) : nat := sum_list (map (fun c => cnt o (ch_queue c)) ss).

Lemma cnt_app o l l' : cnt o (l ++ l') = (cnt o l + cnt o l')%nat.
Proof. unfold cnt. by rewrite List.filter_app, length_app. Qed.

Lemma cnt_perm o l l' : l ≡ₚ l' -> cnt o l = cnt o l'.
Proof.
  induction 1 as [|x l l' _ IH|x y l|l1 l2 l3 _ IH1 _ IH2]; [done| | |congruence].
  - change (cnt o ([x] ++ l) = cnt o ([x] ++ l')). by rewrite !cnt_app, IH.
  - change (cnt o ([y] ++ [x] ++ l) = cnt o ([x] ++ [y] ++ l)). rewrite !cnt_app. lia.
Qed.

Lemma cnt_total l : (cnt FromCapacity l + cnt FromResponse l = length l)%nat.
Proof.
  induction l as [|e l IH]; [done|]. change (e :: l) with ([e] ++ l). rewrite !cnt_app, length_app.
  assert (cnt FromCapacity [e] + cnt FromResponse [e] = 1)%nat as H by (destruct e as [? ? []]; done).
  cbn [length]. lia.
Qed.

Lemma sum_insert {A} (f : A -> nat) l i x y : l !! i = Some x ->
  (sum_list (map f (<[i := y]> l)) + f x = sum_list (map f l) + f y)%nat.
Proof.
  revert i. induction l as [|z l IH]; intros [|i]; cbn; [done..| |].
  - intros [= ->]. lia.
  - intros Hi. specialize (IH i Hi). rewrite <- !Nat.add_assoc. f_equal. exact IH.
Qed.

Lemma sum_elem {A} (f : A -> nat) l i x : l !! i = Some x -> (f x <= sum_list (map f l))%nat.
Proof.
  revert i. induction l as [|z l IH]; intros [|i]; cbn; [done..| |].
  - intros [= ->]. lia.
  - intros Hi. specialize (IH i Hi). lia.
Qed.

Lemma load_set o ss i c c' : ss !! i = Some c ->
  (load o (<[i := c']> ss) + cnt o (ch_queue c) = load o ss + cnt o (ch_queue c'))%nat.
Proof. intros Hc. exact (sum_insert (fun c => cnt o (ch_queue c)) _ _ _ c' Hc). Qed.

(** Occurrences of a shard among the permits. *)
Definition held (i : nat) (l : list nat) : nat := length (List.filter (Nat.eqb i) l).

Lemma held_perm i l l' : l ≡ₚ l' -> held i l = held i l'.
Proof.
  unfold held. induction 1 as [|x l l' _ IH|x y l|l1 l2 l3 _ IH1 _ IH2]; cbn; [done| | |congruence].
  - destruct (i =? x)%nat; cbn; congruence.
  - by destruct (i =? x)%nat, (i =? y)%nat.
Qed.

Lemma held_le i l : (held i l <= length l)%nat.
Proof. unfold held. induction l as [|x l IH]; cbn; [done|]. destruct (i =? x)%nat; cbn; lia. Qed.

Lemma held_cons i j l : held i (j :: l) = ((if (i =? j)%nat then 1 else 0) + held i l)%nat.
Proof. unfold held. cbn. by destruct (i =? j)%nat. Qed.

(** ** The invariant *)

Section Bounds.
Variable C : nat.

(** On the channels, the pending count, the semaphores and the holders. *)
Record inv (ss : list Channel) (p : Z) (cap resp : nat) (ps : list nat) (q : nat) (run : list Envelope) : Prop := {
  inv_capacity : (cap + length ps + load FromCapacity ss + cnt FromCapacity run = C)%nat;
  inv_response : (resp + q + load FromResponse ss + cnt FromResponse run = C)%nat;
  inv_reserved : forall i c, ss !! i = Some c -> ch_reserved c = held i ps /\ ch_capacity c = (2 * C)%nat;
  inv_shards : Forall (fun i => (i < length ss)%nat) ps;
  inv_pending : p = Z.of_nat (load FromCapacity ss + load FromResponse ss + length run) mod 2 ^ 64;
}.

Definition inv_sys (s : Sys) : Prop :=
  let h := handle s in
  inv (senders h) (pending h) (capacity h) (response_capacity h) (permits s) (responses s) (running s).

Lemma channel_load ss i c : ss !! i = Some c ->
  (length (ch_queue c) <= load FromCapacity ss + load FromResponse ss)%nat.
Proof.
  intros Hc. rewrite <- (cnt_total (ch_queue c)).
  pose proof (sum_elem (fun c => cnt FromCapacity (ch_queue c)) _ _ _ Hc).
  pose proof (sum_elem (fun c => cnt FromResponse (ch_queue c)) _ _ _ Hc). unfold load. lia.
Qed.

(** A caller that holds a capacity permit outside the queue finds room. *)
Lemma room ss p cap resp ps q run i c : inv ss p cap resp ps q run -> ss !! i = Some c ->
  (0 < cap \/ 0 < q)%nat -> has_room c = true.
Proof.
  intros [H1 H2 H3 _ _] Hc Hfree. apply Nat.ltb_lt. destruct (H3 i c Hc) as [-> ->].
  pose proof (held_le i ps). pose proof (channel_load _ _ _ Hc). lia.
Qed.

Lemma mod64_succ n : fetch_add (Z.of_nat n mod 2 ^ 64) = Z.of_nat (S n) mod 2 ^ 64.
Proof. unfold fetch_add. rewrite Zplus_mod_idemp_l. f_equal. lia. Qed.

Lemma mod64_pred n : fetch_sub (Z.of_nat (S n) mod 2 ^ 64) = Z.of_nat n mod 2 ^ 64.
Proof. unfold fetch_sub. rewrite Zminus_mod_idemp_l. f_equal. lia. Qed.

Lemma channel_change (ss : list Channel) i c c' ps ps' : ss !! i = Some c ->
  (forall j d, ss !! j = Some d -> ch_reserved d = held j ps /\ ch_capacity d = (2 * C)%nat) ->
  (forall j, j <> i -> held j ps' = held j ps) -> ch_reserved c' = held i ps' -> ch_capacity c' = ch_capacity c ->
  forall j d, <[i := c']> ss !! j = Some d -> ch_reserved d = held j ps' /\ ch_capacity d = (2 * C)%nat.
Proof.
  intros Hc H Hne Hr Hk j d Hd. apply list_lookup_insert_Some in Hd as [(-> & -> & _)|[Hij Hd]].
  - destruct (H j c Hc) as [_ E]. by rewrite Hk, E.
  - destruct (H j d Hd) as [-> ->]. split; [|done]. symmetry. by apply Hne.
Qed.

Lemma step_reserve ss p n resp ps q run i c : inv ss p (S n) resp ps q run -> ss !! i = Some c ->
  inv (<[i := c<|ch_reserved := S (ch_reserved c)|>]> ss) p n resp (i :: ps) q run.
Proof.
  intros [H1 H2 H3 H4 H5] Hc. set (c' := c<|ch_reserved := _|>).
  pose proof (load_set FromCapacity ss i c c' Hc) as L1. pose proof (load_set FromResponse ss i c c' Hc) as L2.
  change (ch_queue c') with (ch_queue c) in L1, L2. split; cbn [length]; [lia|lia| | |].
  - apply (channel_change ss i c c' ps (i :: ps) Hc H3); [| |done].
    + intros j Hj. rewrite held_cons. by destruct (Nat.eqb_spec j i).
    + rewrite held_cons, Nat.eqb_refl. change (S (ch_reserved c) = 1 + held i ps)%nat.
      by rewrite (proj1 (H3 i c Hc)).
  - rewrite length_insert. constructor; [by eapply lookup_lt_Some|done].
  - rewrite H5. do 2 f_equal. lia.
Qed.

(** A worker permit goes: back to the semaphore, or into the queue with an envelope. *)
Lemma step_unreserve ss p cap resp ps q run i rest es : inv ss p cap resp ps q run -> ps ≡ₚ i :: rest ->
  Forall (fun e => en_origin e = FromCapacity) es -> (length es <= 1)%nat ->
  exists c, ss !! i = Some c /\
    inv (<[i := c<|ch_reserved := (ch_reserved c - 1)%nat|><|ch_queue := ch_queue c ++ es|>]> ss)
      (Nat.iter (length es) fetch_add p) (cap + 1 - length es) resp rest q run.
Proof.
  intros [H1 H2 H3 H4 H5] Hps Hes Hlen. rewrite Hps in H1, H4. apply Forall_cons in H4 as [Hi H4].
  apply lookup_lt_is_Some_2 in Hi as [c Hc]. exists c. split; [done|].
  set (c' := c<|ch_reserved := _|><|ch_queue := _|>).
  pose proof (load_set FromCapacity ss i c c' Hc) as L1. pose proof (load_set FromResponse ss i c c' Hc) as L2.
  change (ch_queue c') with (ch_queue c ++ es) in L1, L2. rewrite !cnt_app in L1, L2.
  assert (cnt FromCapacity es = length es /\ cnt FromResponse es = 0)%nat as [E1 E2].
  { clear -Hes. induction Hes as [|e es He _ [IH1 IH2]]; [done|]. change (e :: es) with ([e] ++ es).
    rewrite !cnt_app, length_app, IH1, IH2. destruct e as [? ? o]; cbn in He; subst o. done. }
  split; cbn [length] in *; [lia|lia| | |].
  - apply (channel_change ss i c c' ps rest Hc H3); [| |done].
    + intros j Hj. rewrite (held_perm j _ _ Hps), held_cons. by destruct (Nat.eqb_spec j i).
    + change (ch_reserved c - 1 = held i rest)%nat. rewrite (proj1 (H3 i c Hc)), (held_perm i _ _ Hps), held_cons.
      rewrite Nat.eqb_refl. lia.
  - by rewrite length_insert.
  - rewrite H5. destruct es as [|e [|]]; cbn [length] in *; unfold Nat.iter; cbn [nat_rect];
      [|rewrite mod64_succ|lia]; do 2 f_equal; lia.
Qed.

(** An envelope goes into the queue with a capacity permit. *)
Lemma step_send ss p cap resp ps q run i c e cap' q' : inv ss p cap resp ps q run -> ss !! i = Some c ->
  match en_origin e with
  | FromCapacity => cap = S cap' /\ q' = q
  | FromResponse => cap' = cap /\ q = S q'
  end ->
  inv (<[i := c<|ch_queue := ch_queue c ++ [e]|>]> ss) (fetch_add p) cap' resp ps q' run.
Proof.
  intros [H1 H2 H3 H4 H5] Hc Ho. set (c' := c<|ch_queue := _|>).
  pose proof (load_set FromCapacity ss i c c' Hc) as L1. pose proof (load_set FromResponse ss i c c' Hc) as L2.
  change (ch_queue c') with (ch_queue c ++ [e]) in L1, L2. rewrite !cnt_app in L1, L2.
  destruct e as [sid job o]; cbn in Ho.
  assert (cnt FromCapacity [mkEnvelope sid job o] + cnt FromResponse [mkEnvelope sid job o] = 1)%nat as E
    by apply cnt_total.
  assert (cnt FromCapacity [mkEnvelope sid job o] = match o with FromCapacity => 1 | FromResponse => 0 end)%nat as E'
    by by destruct o.
  split; [destruct o, Ho; subst; lia|destruct o, Ho; subst; lia| | |].
  - apply (channel_change ss i c c' ps ps Hc H3); [done| |done]. apply (H3 i c Hc).
  - by rewrite length_insert.
  - rewrite H5, mod64_succ. do 2 f_equal. lia.
Qed.

Lemma step_recv ss p cap resp ps q run i c e rest : inv ss p cap resp ps q run -> ss !! i = Some c ->
  ch_queue c = e :: rest -> inv (<[i := c<|ch_queue := rest|>]> ss) p cap resp ps q (e :: run).
Proof.
  intros [H1 H2 H3 H4 H5] Hc Hq. set (c' := c<|ch_queue := _|>).
  pose proof (load_set FromCapacity ss i c c' Hc) as L1. pose proof (load_set FromResponse ss i c c' Hc) as L2.
  change (ch_queue c') with rest in L1, L2. rewrite Hq in L1, L2.
  change (e :: rest) with ([e] ++ rest) in L1, L2. change (e :: run) with ([e] ++ run). rewrite cnt_app in L1, L2.
  pose proof (cnt_total [e]) as E. cbn [length] in E.
  split; rewrite ?cnt_app, ?length_app; cbn [length]; [lia|lia| | |].
  - apply (channel_change ss i c c' ps ps Hc H3); [done| |done]. apply (H3 i c Hc).
  - by rewrite length_insert.
  - rewrite H5. do 2 f_equal. lia.
Qed.

Lemma step_complete ss p cap resp ps q run e rest : inv ss p cap resp ps q run -> run ≡ₚ e :: rest ->
  inv ss (fetch_sub p) (match en_origin e with FromCapacity => S cap | FromResponse => cap end)
    (match en_origin e with FromCapacity => resp | FromResponse => S resp end) ps q rest.
Proof.
  intros [H1 H2 H3 H4 H5] Hr. rewrite (cnt_perm _ _ _ Hr) in H1. rewrite (cnt_perm _ _ _ Hr) in H2. rewrite Hr in H5.
  change (e :: rest) with ([e] ++ rest) in H1, H2. rewrite cnt_app in H1, H2. pose proof (cnt_total [e]) as E.
  assert (cnt FromCapacity [e] = match en_origin e with FromCapacity => 1 | FromResponse => 0 end)%nat as E'
    by by destruct e as [? ? []].
  cbn [length] in E. split; [| |done|done|].
  - destruct (en_origin e); lia.
  - destruct (en_origin e); lia.
  - rewrite H5. cbn [length]. rewrite Nat.add_succ_r. apply mod64_pred.
Qed.

(** ** The operations *)

Lemma try_reserve_spec sid h h' r ps q run :
  inv (senders h) (pending h) (capacity h) (response_capacity h) ps q run -> try_reserve sid h = (h', r) ->
  response_capacity h' = response_capacity h /\
  inv (senders h') (pending h') (capacity h') (response_capacity h')
    (match r with Ok i => i :: ps | Err _ => ps end) q run /\
  (r = Err Full -> capacity h = 0%nat).
Proof.
  intros Hi. unfold try_reserve, try_capacity_labeled. destruct (capacity h) as [|n] eqn:Hn.
  { intros [= <- <-]. split_and!; [done| |done].
    change (inv (senders h) (pending h) (capacity h) (response_capacity h) ps q run). by rewrite Hn. }
  change (sender_for (h<|capacity := n|>) sid) with (sender_for h sid).
  change (shard_of (h<|capacity := n|>) sid) with (shard_of h sid).
  unfold sender_for. destruct (senders h !! shard_of h sid) as [c|] eqn:Hc; [|intros [= <- <-]; by split_and!].
  destruct (ch_open c); cbn [negb]; [|intros [= <- <-]; by split_and!].
  rewrite (room _ _ _ _ _ _ _ _ _ Hi Hc) by lia. cbn [negb]. intros [= <- <-]. split_and!; [done| |done].
  by apply (step_reserve (senders h) (pending h) n).
Qed.

Lemma drop_permit_spec i h ps rest q run :
  inv (senders h) (pending h) (capacity h) (response_capacity h) ps q run -> ps ≡ₚ i :: rest ->
  let h' := drop_worker_permit i h in
  inv (senders h') (pending h') (capacity h') (response_capacity h') rest q run.
Proof.
  intros Hi Hps. destruct (step_unreserve _ _ _ _ _ _ _ _ _ [] Hi Hps) as (c & Hc & H); [constructor|cbn; lia|].
  unfold drop_worker_permit. rewrite Hc. cbn [length] in H. rewrite Nat.sub_0_r, Nat.add_1_r in H.
  rewrite app_nil_r in H. exact H.
Qed.

Lemma submit_spec i sid job w h w' h' ps rest q run :
  inv (senders h) (pending h) (capacity h) (response_capacity h) ps q run -> ps ≡ₚ i :: rest ->
  submit i sid job w h = (w', h') ->
  inv (senders h') (pending h') (capacity h') (response_capacity h') rest q run.
Proof.
  intros Hi Hps. destruct (step_unreserve _ _ _ _ _ _ _ _ _ [mkEnvelope sid job FromCapacity] Hi Hps)
    as (c & Hc & H); [by repeat constructor|done|].
  unfold submit. change (senders (add_pending h)) with (senders h). rewrite Hc. intros [= _ <-].
  cbn [length] in H. rewrite Nat.add_sub in H. exact H.
Qed.

(** With the permit already taken out of its semaphore. *)
Lemma send_spec sid job o stage w h w' h' r ps q run :
  let cap := match o with FromCapacity => S (capacity h) | FromResponse => capacity h end in
  let q0 := match o with FromCapacity => q | FromResponse => S q end in
  inv (senders h) (pending h) cap (response_capacity h) ps q0 run ->
  submit_with_permit sid job o stage w h = (w', h', r) ->
  inv (senders h') (pending h') (capacity h') (response_capacity h') ps q run /\ r <> Err Full.
Proof.
  intros cap q0 Hi. unfold submit_with_permit.
  assert (forall p, p = pending h -> inv (senders h) p (capacity (release o h)) (response_capacity (release o h)) ps q run)
    as Hback.
  { intros p ->. destruct Hi as [H1 H2 H3 H4 H5]. subst cap q0. destruct o; split; cbn in *; try done; lia. }
  destruct (sender_for h sid) as [c|] eqn:Hc; [|intros [= <- <- <-]; split; [|done];
    specialize (Hback _ eq_refl); by destruct o].
  assert (fetch_sub (fetch_add (pending h)) = pending h) as Hp.
  { rewrite (inv_pending _ _ _ _ _ _ _ Hi), mod64_succ. apply mod64_pred. }
  destruct (ch_open c); cbn [negb].
  - unfold sender_for in Hc. rewrite (room _ _ _ _ _ _ _ _ _ Hi Hc) by (subst cap q0; destruct o; lia).
    cbn [negb]. intros [= <- <- <-]. split; [|done].
    apply (step_send _ _ cap _ _ q0 _ _ _ (mkEnvelope sid job o) (capacity h) q Hi Hc).
    subst cap q0. by destruct o.
  - intros [= <- <- <-]. split; [|done]. specialize (Hback _ Hp). by destruct o.
Qed.

Lemma take_response ss p cap r ps q run : inv ss p cap (S r) ps q run -> inv ss p cap r ps (S q) run.
Proof. intros [H1 H2 H3 H4 H5]. split; [done|lia|done..]. Qed.

Lemma give_response ss p cap r ps q run : inv ss p cap r ps (S q) run -> inv ss p cap (S r) ps q run.
Proof. intros [H1 H2 H3 H4 H5]. split; [done|lia|done..]. Qed.

Lemma reserve_pair_spec sid h h' r ps q run :
  inv (senders h) (pending h) (capacity h) (response_capacity h) ps q run -> try_reserve_pair sid h = (h', r) ->
  inv (senders h') (pending h') (capacity h') (response_capacity h')
    (match r with Ok i => i :: ps | Err _ => ps end) (match r with Ok _ => S q | Err _ => q end) run /\
  (r = Err Full -> capacity h = 0%nat \/ response_capacity h = 0%nat).
Proof.
  intros Hi. unfold try_reserve_pair. destruct (try_reserve sid h) as [h1 [i|e]] eqn:E.
  - destruct (try_reserve_spec _ _ _ _ _ _ _ Hi E) as (Hresp & Hi1 & _). rewrite <- Hresp.
    unfold try_reserve_response. destruct (response_capacity h1) as [|n] eqn:Hn.
    + intros [= <- <-]. split; [|by right].
      apply (drop_permit_spec i (count_full StageResponseSlot h1) (i :: ps)); [|done].
      change (inv (senders h1) (pending h1) (capacity h1) (response_capacity h1) (i :: ps) q run). by rewrite Hn.
    + intros [= <- <-]. split; [|done]. by apply (take_response (senders h1) (pending h1) (capacity h1) n).
  - intros [= <- <-]. destruct (try_reserve_spec _ _ _ _ _ _ _ Hi E) as (_ & Hi1 & Hf). split; [done|].
    intros [= ->]. left. by apply Hf.
Qed.

Lemma pstep_inv s s' : inv_sys s -> pstep s s' -> inv_sys s'.
Proof.
  unfold inv_sys. intros Hi Hs. destruct Hs as [s sid h' r E|s sid h' r E|s i rest E|s n E|s i rest sid job w' h' Ep E
    |s n sid job w' h' r Er E|s sid job w' h' r E|s i h' e E|s e rest w' h' Er E|s i c E]; cbn in *.
  - by destruct (try_reserve_spec _ _ _ _ _ _ _ Hi E) as (_ & H & _).
  - by destruct (reserve_pair_spec _ _ _ _ _ _ _ Hi E) as [H _].
  - by eapply drop_permit_spec.
  - rewrite E in Hi. by apply give_response.
  - by eapply submit_spec.
  - rewrite Er in Hi. by destruct (send_spec sid job FromResponse _ _ _ _ _ _ _ _ _ Hi E) as [H _].
  - unfold try_submit, try_capacity_labeled in E. destruct (capacity (handle s)) as [|n] eqn:Hn.
    + injection E as <- <- <-.
      change (inv (senders (handle s)) (pending (handle s)) (capacity (handle s)) (response_capacity (handle s))
                (permits s) (responses s) (running s)). by rewrite Hn.
    + set (h1 := (handle s)<|capacity := n|>) in E.
      assert (inv (senders h1) (pending h1) (S (capacity h1)) (response_capacity h1)
                (permits s) (responses s) (running s)) as Hi1 by exact Hi.
      by destruct (send_spec sid job FromCapacity _ _ h1 _ _ _ _ _ _ Hi1 E) as [H _].
  - unfold recv in E. destruct (senders (handle s) !! i) as [c|] eqn:Hc; [|done].
    destruct (ch_queue c) as [|e' rest] eqn:Hq; [done|]. injection E as <- <-. by apply (step_recv _ _ _ _ _ _ _ i c).
  - unfold complete in E. injection E as <- <-. pose proof (step_complete _ _ _ _ _ _ _ _ _ Hi Er) as H.
    by destruct (en_origin e).
  - destruct Hi as [H1 H2 H3 H4 H5]. set (c' := c<|ch_open := false|>).
    pose proof (load_set FromCapacity _ i c c' E) as L1. pose proof (load_set FromResponse _ i c c' E) as L2.
    change (ch_queue c') with (ch_queue c) in L1, L2.
    change (inv (<[i := c']> (senders (handle s))) (pending (handle s)) (capacity (handle s))
              (response_capacity (handle s)) (permits s) (responses s) (running s)).
    split; [lia|lia| | |].
    + apply (channel_change _ i c c' (permits s) (permits s) E H3); [done|apply (H3 i c E)|done].
    + by rewrite length_insert.
    + rewrite H5. do 2 f_equal. lia.
Qed.
End Bounds.

Lemma start_inv cap parallelism w : inv_sys (Nat.max cap 1) (start cap parallelism w).
Proof.
  unfold inv_sys, start, spawn. cbn [handle permits responses running senders pending capacity response_capacity].
  set (n := Nat.max (default MIN_SHARDS parallelism) MIN_SHARDS). set (C := Nat.max cap 1).
  assert (forall o, load o (replicate n (mkChannel [] 0 (C * 2) true)) = 0%nat) as HL.
  { intros o. unfold load. induction n as [|m IH]; [done|]. exact IH. }
  split; rewrite ?HL; cbn [length cnt List.filter]; try lia; [|done|done].
  intros i c Hc. apply lookup_replicate in Hc as [-> _]. cbn. lia.
Qed.

Lemma shard_reachable_inv cap parallelism w s : rtc pstep (start cap parallelism w) s -> inv_sys (Nat.max cap 1) s.
Proof.
  intros Hr. remember (start cap parallelism w) as s0 eqn:E.
  assert (inv_sys (Nat.max cap 1) s0) as H0 by (subst; apply start_inv). clear E.
  induction Hr as [|s1 s2 s3 Hs _ IH]; [done|]. apply IH. by eapply pstep_inv.
Qed.
End PoolFacts.

(** * One shard *)

Module DispatcherFacts.
Import Dispatcher.

Section Order.
Context (order : t -> list str).

(** A run of the loop, with the envelopes received and the batches spawned so far. *)
Inductive runs : list Envelope -> list (str * list Envelope) -> t -> Prop :=
| runs_new : runs [] [] new
| runs_recv recvd spawned d e : runs recvd spawned d -> receiver_open d = true ->
    let d' := on_recv (Some e) d in
    runs (recvd ++ [e]) (spawned ++ drop (length (tasks d)) (tasks d')) d'
| runs_closed recvd spawned d : runs recvd spawned d -> receiver_open d = true ->
    runs recvd spawned (on_recv None d)
| runs_join recvd spawned d pre sid batch post : runs recvd spawned d -> tasks d = pre ++ (sid, batch) :: post ->
    let d' := on_join order sid (d<|tasks := pre ++ post|>) in
    runs recvd (spawned ++ drop (length (pre ++ post)) (tasks d')) d'.

Definition of_session (sid : str) (l : list Envelope) : list Envelope :=
  List.filter (fun e => str_eqb (en_sid e) sid) l.

Definition spawned_for (sid : str) (l : list (str * list Envelope)) : list Envelope :=
  concat (map snd (List.filter (fun b => str_eqb b.1 sid) l)).

Definition queue_of (d : t) (sid : str) : list Envelope := default [] (queues d !! sid).

(** The shape of the state. *)
Record shaped (d : t) : Prop := {
  sh_active : forall sid, sid ∈ active d <-> sid ∈ map fst (tasks d);
  sh_nodup : NoDup (map fst (tasks d));
  sh_queues : forall sid q, queues d !! sid = Some q -> q <> [] /\ Forall (fun e => en_sid e = sid) q;
  sh_size : (size (active d) <= MAX_ACTIVE_SESSIONS_PER_SHARD)%nat;
}.

(** A session that waits does so because every slot is taken. *)
Definition conserving (d : t) : Prop :=
  forall sid, is_Some (queues d !! sid) -> sid ∉ active d -> size (active d) = MAX_ACTIVE_SESSIONS_PER_SHARD.

Definition fifo (recvd : list Envelope) (spawned : list (str * list Envelope)) (d : t) : Prop :=
  (forall sid, spawned_for sid spawned ++ queue_of d sid = of_session sid recvd) /\
  Forall (fun b => b.2 <> [] /\ (length b.2 <= MAX_BATCH_PER_SESSION)%nat) spawned.

Lemma spawned_for_snoc sid l b :
  spawned_for sid (l ++ [b]) = spawned_for sid l ++ (if str_eqb b.1 sid then b.2 else []).
Proof.
  unfold spawned_for. rewrite List.filter_app, map_app, concat_app. f_equal. cbn.
  destruct (str_eqb b.1 sid); cbn; [|done]. apply app_nil_r.
Qed.

Lemma of_session_snoc sid l e :
  of_session sid (l ++ [e]) = of_session sid l ++ (if str_eqb (en_sid e) sid then [e] else []).
Proof. unfold of_session. rewrite List.filter_app. done. Qed.

(** ** Spawning what a session has queued *)

Definition queues_ok (d : t) : Prop :=
  forall sid q, queues d !! sid = Some q -> q <> [] /\ Forall (fun e => en_sid e = sid) q.

(** [sid] takes a batch off its queue; the other queues do not change. *)
Record launched (sid : str) (d d' : t) (batch : list Envelope) : Prop := {
  la_tasks : tasks d' = tasks d ++ [(sid, batch)];
  la_queue : batch ++ queue_of d' sid = queue_of d sid;
  la_other : forall sid', sid' <> sid -> queues d' !! sid' = queues d !! sid';
  la_batch : batch <> [] /\ (length batch <= MAX_BATCH_PER_SESSION)%nat;
  la_tidy : forall q, queues d' !! sid = Some q -> q <> [] /\ Forall (fun e => en_sid e = sid) q;
}.

Lemma drain_spec sid d q : queues_ok d -> queues d !! sid = Some q ->
  exists batch rest, drain sid d = (batch, d<|queues := <[sid := rest]> (queues d)|>) /\ batch ++ rest = q /\
    batch <> [] /\ (length batch <= MAX_BATCH_PER_SESSION)%nat /\
    (exists e es, batch = e :: es /\ en_sid e = sid) /\ Forall (fun e => en_sid e = sid) rest.
Proof.
  intros Hs Hq. destruct (Hs sid q Hq) as [Hne Hf]. unfold drain. rewrite Hq.
  set (n := Nat.min (length q) MAX_BATCH_PER_SESSION). exists (take n q), (drop n q).
  destruct q as [|e q]; [done|]. assert (exists m, n = S m) as [m Hm].
  { destruct n as [|m] eqn:En; [|by exists m]. subst n. unfold MAX_BATCH_PER_SESSION in En. cbn in En. lia. }
  rewrite Hm. split_and!; [done|apply take_drop|done| | |by apply Forall_drop].
  - rewrite length_take, <- Hm. subst n. lia.
  - exists e, (take m q). split; [done|]. by apply Forall_inv in Hf.
Qed.

Lemma tidy_queue sid sid' d : queue_of (tidy sid d) sid' = queue_of d sid'.
Proof.
  unfold tidy, queue_of. destruct (queues d !! sid) as [[|e q]|] eqn:E; [|done..].
  change (queues (d<|queues := delete sid (queues d)|>)) with (delete sid (queues d)).
  destruct (decide (sid = sid')) as [<-|Hne]; [by rewrite lookup_delete_eq, E|by rewrite lookup_delete_ne].
Qed.

Lemma tidy_ne sid sid' d : sid' <> sid -> queues (tidy sid d) !! sid' = queues d !! sid'.
Proof.
  intros Hn. unfold tidy. destruct (queues d !! sid) as [[|e q]|] eqn:E; [|done..].
  by apply (lookup_delete_ne (queues d)).
Qed.

Lemma tidy_eq sid d : queues (tidy sid d) !! sid = match queues d !! sid with Some [] => None | o => o end.
Proof.
  unfold tidy. destruct (queues d !! sid) as [[|e q]|] eqn:E; [|done..]. apply (lookup_delete_eq (queues d)).
Qed.

(** The three uses of [drain] followed by [spawn_batch]; [A] is the set of active
    sessions they leave. *)
Lemma launch_spec sid d q A : queues_ok d -> queues d !! sid = Some q ->
  exists batch d1, drain sid d = (batch, d1) /\ batch <> [] /\
  launched sid d (spawn_batch batch ((tidy sid d1)<|active := A|>)) batch /\
  launched sid d (spawn_batch batch (tidy sid d1)) batch /\
  active (tidy sid d1) = active d /\ receiver_open (tidy sid d1) = receiver_open d.
Proof.
  intros Hs Hq. destruct (drain_spec sid d q Hs Hq) as (batch & rest & Hd & Hbr & Hne & Hlen & (e & es & -> & He) & Hf).
  set (d2 := d<|queues := <[sid := rest]> (queues d)|>) in *. exists (e :: es), d2.
  assert (tasks (tidy sid d2) = tasks d /\ active (tidy sid d2) = active d /\
          receiver_open (tidy sid d2) = receiver_open d) as (E1 & E2 & E3)
    by (unfold tidy; destruct (queues d2 !! sid) as [[|]|]; done).
  assert (tasks (tidy sid d2) ++ [(en_sid e, e :: es)] = tasks d ++ [(sid, e :: es)]) as H1 by by rewrite E1, He.
  assert ((e :: es) ++ queue_of (tidy sid d2) sid = queue_of d sid) as H2.
  { rewrite tidy_queue. change ((e :: es) ++ default [] (<[sid := rest]> (queues d) !! sid) = queue_of d sid).
    rewrite lookup_insert_eq. unfold queue_of. by rewrite Hq, <- Hbr. }
  assert (forall sid', sid' <> sid -> queues (tidy sid d2) !! sid' = queues d !! sid') as H3.
  { intros sid' Hn. rewrite tidy_ne by done. by apply (lookup_insert_ne (queues d)). }
  assert (forall q', queues (tidy sid d2) !! sid = Some q' -> q' <> [] /\ Forall (fun e => en_sid e = sid) q') as H4.
  { intros q' Hq'. rewrite tidy_eq in Hq'. change (queues d2) with (<[sid := rest]> (queues d)) in Hq'.
    rewrite lookup_insert_eq in Hq'. destruct rest; [done|]. by injection Hq' as <-. }
  split_and!; [done|done| | |done|done]; by split.
Qed.

Lemma launched_queues sid d d' batch : queues_ok d -> launched sid d d' batch -> queues_ok d'.
Proof.
  intros Hs Hl sid' q Hq. destruct (decide (sid' = sid)) as [->|Hne]; [by apply (la_tidy _ _ _ _ Hl)|].
  apply Hs. by rewrite <- (la_other _ _ _ _ Hl sid' Hne).
Qed.

Lemma launched_fifo sid d d' batch recvd spawned :
  fifo recvd spawned d -> launched sid d d' batch -> fifo recvd (spawned ++ [(sid, batch)]) d'.
Proof.
  intros [Hf Hb] Hl. split; [|apply Forall_app; split; [done|]; constructor; [apply Hl|constructor]].
  intros sid'. rewrite <- (Hf sid'), spawned_for_snoc. cbn [fst snd].
  destruct (str_eqb sid sid') eqn:E.
  - apply str_eqb_eq in E as <-. by rewrite <- (la_queue _ _ _ _ Hl), <- (assoc_L (++)).
  - apply str_eqb_neq in E. rewrite app_nil_r. unfold queue_of. by rewrite (la_other _ _ _ _ Hl) by done.
Qed.

(** ** The waiting sessions *)

Lemma activate_spec sid d q : queues_ok d -> queues d !! sid = Some q ->
  exists batch, launched sid d (activate d sid) batch /\ active (activate d sid) = {[sid]} ∪ active d /\
  receiver_open (activate d sid) = receiver_open d.
Proof.
  intros Hs Hq. destruct (launch_spec sid d q ({[sid]} ∪ active d) Hs Hq) as (batch & d1 & Hd & Hne & Hl & _ & Ha & Hr).
  exists batch. unfold activate. rewrite Hd. destruct batch as [|e es]; [done|]. by rewrite Ha.
Qed.

(** Activating distinct waiting sessions one after another. *)
Lemma activate_all ws d recvd spawned :
  shaped d -> fifo recvd spawned d -> NoDup ws -> (forall sid, sid ∈ ws -> is_Some (queues d !! sid) /\ sid ∉ active d) ->
  (size (active d) + length ws <= MAX_ACTIVE_SESSIONS_PER_SHARD)%nat ->
  let d' := fold_left activate ws d in
  shaped d' /\ (exists new, tasks d' = tasks d ++ new /\ fifo recvd (spawned ++ new) d') /\
  active d' = list_to_set ws ∪ active d /\ receiver_open d' = receiver_open d /\
  size (active d') = (size (active d) + length ws)%nat /\
  (forall sid, sid ∉ ws -> queues d' !! sid = queues d !! sid).
Proof.
  revert d spawned. induction ws as [|sid ws IH]; intros d spawned Hs Hf Hnd Hw Hsz; cbn zeta; cbn [fold_left].
  { split_and!; [done| |cbn; by rewrite union_empty_l_L|done|cbn; lia|done].
    exists []. by rewrite !app_nil_r. }
  apply NoDup_cons in Hnd as [Hni Hnd]. destruct (Hw sid) as [[q Hq] Hna]; [by left|].
  destruct (activate_spec sid d q (sh_queues d Hs) Hq) as (batch & Hl & Ha & Hr).
  set (d1 := activate d sid) in *. cbn [length] in Hsz.
  assert (size (active d1) = S (size (active d))) as Hsz1.
  { rewrite Ha, size_union by set_solver. by rewrite size_singleton. }
  assert (shaped d1) as Hs1.
  { split; [| |exact (launched_queues sid d d1 batch (sh_queues d Hs) Hl)|lia].
    - intros x. rewrite Ha, (la_tasks _ _ _ _ Hl), map_app, elem_of_union, elem_of_app, elem_of_singleton.
      rewrite (sh_active d Hs x). cbn. rewrite list_elem_of_singleton. naive_solver.
    - rewrite (la_tasks _ _ _ _ Hl), map_app. apply NoDup_app. split_and!; [apply (sh_nodup d Hs)| |apply NoDup_singleton].
      intros x Hx. cbn. rewrite list_elem_of_singleton. intros ->. apply Hna. by apply (sh_active d Hs). }
  destruct (IH d1 (spawned ++ [(sid, batch)]) Hs1) as (H1 & (new & H2 & H3) & H4 & H5 & H6 & H7).
  - by eapply launched_fifo.
  - done.
  - intros x Hx. destruct (Hw x) as [Hq' Hna']; [by right|]. assert (x <> sid) by (by intros ->).
    rewrite (la_other _ _ _ _ Hl x) by done. split; [done|]. rewrite Ha. set_solver.
  - lia.
  - split_and!; [done| | |congruence|cbn [length]; lia|].
    + exists ((sid, batch) :: new). rewrite H2, (la_tasks _ _ _ _ Hl), <- !(assoc_L (++)) in *. done.
    + rewrite H4, Ha. cbn [list_to_set]. set_solver.
    + intros x Hx. apply not_elem_of_cons in Hx as [Hx1 Hx2]. rewrite H7 by done. by apply (la_other _ _ _ _ Hl).
Qed.

(** ** The arms of the loop *)

Definition held_up (recvd : list Envelope) (spawned : list (str * list Envelope)) (d : t) : Prop :=
  shaped d /\ conserving d /\ fifo recvd spawned d.

Lemma fifo_recv recvd spawned d d' e new :
  fifo recvd spawned d -> Forall (fun b => b.2 <> [] /\ (length b.2 <= MAX_BATCH_PER_SESSION)%nat) new ->
  (forall sid, spawned_for sid new ++ queue_of d' sid =
     queue_of d sid ++ (if str_eqb (en_sid e) sid then [e] else [])) ->
  fifo (recvd ++ [e]) (spawned ++ new) d'.
Proof.
  intros [Hf Hb] Hn Hq. split; [|by apply Forall_app]. intros sid. rewrite of_session_snoc, <- Hf.
  rewrite <- (assoc_L (++)), <- Hq. unfold spawned_for. by rewrite List.filter_app, map_app, concat_app, (assoc_L (++)).
Qed.

Lemma recv_ok e recvd spawned d : held_up recvd spawned d ->
  let d' := on_recv (Some e) d in
  exists new, tasks d' = tasks d ++ new /\ held_up (recvd ++ [e]) (spawned ++ new) d'.
Proof.
  intros (Hs & Hc & Hf). cbn zeta. unfold on_recv. set (sid := en_sid e).
  destruct (negb _ && negb _ && (_ <? _)%nat) eqn:E.
  - rewrite !andb_true_iff, !negb_true_iff, !bool_decide_eq_false in E. destruct E as [[Hna Hq] Hsz].
    apply Nat.ltb_lt in Hsz. apply eq_None_not_Some in Hq. exists [(sid, [e])]. split; [done|].
    assert (forall x, is_Some (queues d !! x) -> x ∈ active d) as Hnone.
    { intros x Hx. destruct (decide (x ∈ active d)); [done|]. specialize (Hc x Hx n). lia. }
    split_and!.
    + split; cbn [active tasks queues spawn_batch].
      * intros x. change (x ∈ {[sid]} ∪ active d <-> x ∈ map fst (tasks d ++ [(sid, [e])])).
        rewrite map_app, elem_of_union, elem_of_app, elem_of_singleton, (sh_active d Hs x). cbn.
        rewrite list_elem_of_singleton. naive_solver.
      * change (NoDup (map fst (tasks d ++ [(sid, [e])]))). rewrite map_app. apply NoDup_app.
        split_and!; [apply (sh_nodup d Hs)| |apply NoDup_singleton].
        intros x Hx. cbn. rewrite list_elem_of_singleton. intros ->. apply Hna. by apply (sh_active d Hs).
      * apply (sh_queues d Hs).
      * change (size ({[sid]} ∪ active d) <= MAX_ACTIVE_SESSIONS_PER_SHARD)%nat.
        rewrite size_union by set_solver. rewrite size_singleton. lia.
    + intros x Hx Hxa. change (x ∉ {[sid]} ∪ active d) in Hxa. specialize (Hnone x Hx). set_solver.
    + eapply fifo_recv; [done| |].
      * constructor; [|constructor]. cbn. split; [done|]. unfold MAX_BATCH_PER_SESSION. lia.
      * intros x. change (queue_of (spawn_batch [e] (d<|active := {[sid]} ∪ active d|>)) x) with (queue_of d x).
        unfold spawned_for. cbn. fold sid. destruct (str_eqb sid x) eqn:Ex; cbn; [|by rewrite app_nil_r].
        apply str_eqb_eq in Ex as <-. unfold queue_of. by rewrite Hq.
  - exists []. rewrite !app_nil_r. split; [done|]. set (q := default [] (queues d !! sid) ++ [e]).
    assert (queues (d<|queues := <[sid := q]> (queues d)|>) = <[sid := q]> (queues d)) as Eq by done.
    split_and!.
    + split; [apply (sh_active d Hs)|apply (sh_nodup d Hs)| |apply (sh_size d Hs)].
      intros x q' Hq'. rewrite Eq in Hq'. apply lookup_insert_Some in Hq' as [[<- <-]|[Hne Hq']].
      * split; [by destruct (default [] (queues d !! sid))|]. apply Forall_app. split; [|by constructor].
        destruct (queues d !! sid) as [q0|] eqn:Eq0; [|constructor]. by apply (sh_queues d Hs sid q0).
      * by apply (sh_queues d Hs).
    + intros x Hx Hxa. rewrite Eq in Hx. change (x ∉ active d) in Hxa.
      change (size (active d) = MAX_ACTIVE_SESSIONS_PER_SHARD).
      destruct (decide (x = sid)) as [->|Hne]; [|rewrite lookup_insert_ne in Hx by done; by apply (Hc x)].
      rewrite bool_decide_false in E by done. cbn [negb andb] in E. pose proof (sh_size d Hs).
      apply andb_false_iff in E as [E|E]; [|apply Nat.ltb_ge in E; lia].
      apply negb_false_iff, bool_decide_eq_true in E. by apply (Hc sid).
    + rewrite <- (app_nil_r spawned). eapply fifo_recv; [done|constructor|].
      intros x. unfold queue_of. rewrite Eq. cbn. fold sid. destruct (str_eqb sid x) eqn:Ex.
      * apply str_eqb_eq in Ex as <-. by rewrite lookup_insert_eq.
      * apply str_eqb_neq in Ex. by rewrite lookup_insert_ne, app_nil_r.
Qed.

Hypothesis order_lists : forall d, order d ≡ₚ map fst (map_to_list (queues d)).

Lemma order_nodup d : NoDup (order d).
Proof. rewrite order_lists. apply NoDup_fst_map_to_list. Qed.

Lemma order_elem d sid : sid ∈ order d <-> is_Some (queues d !! sid).
Proof.
  rewrite order_lists. split.
  - intros H. apply list_elem_of_fmap in H as ([k q] & -> & H). apply elem_of_map_to_list in H. by exists q.
  - intros [q H]. apply list_elem_of_fmap. exists (sid, q). split; [done|]. by apply elem_of_map_to_list.
Qed.

Lemma waiting_spec d : (size (active d) <= MAX_ACTIVE_SESSIONS_PER_SHARD)%nat ->
  let ws := waiting (order d) d in
  NoDup ws /\ (forall sid, sid ∈ ws -> is_Some (queues d !! sid) /\ sid ∉ active d) /\
  (size (active d) + length ws <= MAX_ACTIVE_SESSIONS_PER_SHARD)%nat /\
  (forall sid, is_Some (queues d !! sid) -> sid ∉ active d -> sid ∉ ws ->
     (size (active d) + length ws)%nat = MAX_ACTIVE_SESSIONS_PER_SHARD).
Proof.
  intros Hsz. unfold waiting. set (n := (_ - _)%nat). set (l := List.filter _ (order d)).
  assert (forall x, x ∈ l <-> is_Some (queues d !! x) /\ x ∉ active d) as Hl.
  { intros x. unfold l. rewrite filter_elem, order_elem, negb_true_iff, bool_decide_eq_false. done. }
  split_and!.
  - apply (sublist_NoDup _ l); [apply filter_nodup, order_nodup|apply sublist_take].
  - intros x Hx. apply Hl. eapply elem_of_submseteq; [done|]. apply sublist_submseteq, sublist_take.
  - rewrite length_take. subst n. lia.
  - intros x Hq Ha Hx. rewrite length_take. assert (n < length l)%nat; [|subst n; lia].
    apply Nat.nle_gt. intros Hle. apply Hx. rewrite take_ge by done. by apply Hl.
Qed.

Lemma on_join_ok recvd spawned d pre sid batch post : held_up recvd spawned d -> tasks d = pre ++ (sid, batch) :: post ->
  let d0 := d<|tasks := pre ++ post|> in let d' := on_join order sid d0 in
  exists new, tasks d' = (pre ++ post) ++ new /\ held_up recvd (spawned ++ new) d'.
Proof.
  intros (Hs & Hc & Hf) Ht d0 d'.
  assert (sid :: map fst (pre ++ post) ≡ₚ map fst (tasks d)) as Hperm.
  { rewrite Ht, !map_app. cbn. by rewrite Permutation_middle. }
  assert (NoDup (sid :: map fst (pre ++ post))) as Hnd by (rewrite Hperm; apply (sh_nodup d Hs)).
  assert (forall x, x ∈ active d <-> x = sid \/ x ∈ map fst (pre ++ post)) as Ha.
  { intros x. rewrite (sh_active d Hs x), <- Hperm. apply elem_of_cons. }
  assert (queues_ok d0) as Hq0 by exact (sh_queues d Hs). unfold d', on_join.
  destruct (queues d !! sid) as [q|] eqn:Hq.
  - destruct (launch_spec sid d0 q ∅ Hq0 Hq) as (b & d1 & Hd & Hne & _ & Hl & Hact & _). rewrite Hd.
    destruct b as [|e es]; [done|]. set (d2 := spawn_batch (e :: es) (tidy sid d1)) in *.
    assert (active d2 = active d) as Ea by exact Hact.
    exists [(sid, e :: es)]. split; [exact (la_tasks _ _ _ _ Hl)|]. split_and!.
    + split; [| |exact (launched_queues _ _ _ _ Hq0 Hl)|by rewrite Ea; apply (sh_size d Hs)].
      * intros x. rewrite Ea, Ha, (la_tasks _ _ _ _ Hl), (map_app fst _ [(sid, e :: es)]).
        change (tasks d0) with (pre ++ post). cbn [map fst].
        rewrite (elem_of_app (map fst (pre ++ post)) [sid]), list_elem_of_singleton. naive_solver.
      * rewrite (la_tasks _ _ _ _ Hl), (map_app fst _ [(sid, e :: es)]). cbn [map fst].
        change (tasks d0) with (pre ++ post). by rewrite (Permutation_app_comm (map fst (pre ++ post)) [sid]).
    + intros x Hx Hxa. rewrite Ea in *. destruct (decide (x = sid)) as [->|Hn]; [set_solver|].
      apply (Hc x); [|done]. by rewrite (la_other _ _ _ _ Hl x Hn) in Hx.
    + exact (launched_fifo sid d0 d2 _ recvd spawned Hf Hl).
  - unfold drain. change (queues d0) with (queues d). rewrite Hq. rewrite delete_id by done.
    set (d2 := d0<|queues := queues d|><|active := active d0 ∖ {[sid]}|>).
    apply NoDup_cons in Hnd as [Hni Hnd].
    assert (shaped d2) as Hs2.
    { split; [|done|exact (sh_queues d Hs)|].
      - intros x. change (x ∈ active d ∖ {[sid]} <-> x ∈ map fst (pre ++ post)).
        rewrite elem_of_difference, elem_of_singleton, Ha. naive_solver.
      - change (size (active d ∖ {[sid]}) <= MAX_ACTIVE_SESSIONS_PER_SHARD)%nat.
        pose proof (sh_size d Hs). pose proof (subseteq_size (active d ∖ {[sid]}) (active d)). set_solver by lia. }
    destruct (waiting_spec d2 (sh_size d2 Hs2)) as (W1 & W2 & W3 & W4).
    destruct (activate_all (waiting (order d2) d2) d2 recvd spawned Hs2 Hf W1 W2 W3)
      as (H1 & (new & H2 & H3) & H4 & _ & H6 & H7).
    exists new. split; [exact H2|]. split_and!; [done| |done].
    intros x Hx Hxa. change (x ∉ active (fold_left activate (waiting (order d2) d2) d2)) in Hxa.
    change (is_Some (queues (fold_left activate (waiting (order d2) d2) d2) !! x)) in Hx.
    refine (eq_trans H6 _). rewrite H4 in Hxa.
    apply (W4 x); [|set_solver|set_solver]. rewrite <- H7; [done|]. set_solver.
Qed.

Lemma runs_held recvd spawned d : runs recvd spawned d -> held_up recvd spawned d.
Proof.
  induction 1 as [|recvd spawned d e _ IH _ d'|recvd spawned d _ IH _|recvd spawned d pre sid batch post _ IH Ht d'].
  - split_and!; [|by intros ? [? ?]|by split].
    split; [set_solver|constructor|done|]. change (size (∅ : gset str) <= 8)%nat. by rewrite size_empty; lia.
  - destruct (recv_ok e recvd spawned d IH) as (new & E & H). fold d' in E, H. by rewrite E, drop_app_length.
  - destruct IH as ([H1 H2 H3 H4] & Hc & Hf). by split_and!.
  - destruct (on_join_ok recvd spawned d pre sid batch post IH Ht) as (new & E & H). fold d' in E, H.
    by rewrite E, drop_app_length.
Qed.

Lemma idle_done recvd spawned d : held_up recvd spawned d -> tasks d = [] -> queues d = ∅.
Proof.
  intros (Hs & Hc & _) Ht. assert (active d = ∅) as Ha.
  { apply set_eq. intros x. rewrite (sh_active d Hs x), Ht. set_solver. }
  apply map_eq. intros x. rewrite lookup_empty. destruct (queues d !! x) as [q|] eqn:E; [|done].
  assert (size (active d) = MAX_ACTIVE_SESSIONS_PER_SHARD) as Hz by (apply (Hc x); [done|rewrite Ha; set_solver]).
  rewrite Ha, size_empty in Hz. done.
Qed.
End Order.
End DispatcherFacts.

(** * The properties *)

(** The envelopes queued or being processed. *)
Definition in_flight (s : PoolFacts.Sys) : list Envelope :=
  concat (map Pool.ch_queue (Pool.senders (PoolFacts.handle s))) ++ PoolFacts.running s.

Lemma in_flight_length s : length (in_flight s) =
  (PoolFacts.load FromCapacity (Pool.senders (PoolFacts.handle s))
   + PoolFacts.load FromResponse (Pool.senders (PoolFacts.handle s)) + length (PoolFacts.running s))%nat.
Proof.
  unfold in_flight, PoolFacts.load. rewrite length_app. f_equal.
  induction (Pool.senders (PoolFacts.handle s)) as [|c l IH]; [done|]. cbn. rewrite length_app, IH.
  pose proof (PoolFacts.cnt_total (Pool.ch_queue c)). lia.
Qed.


(** C40. A shard keeps each session's order and its slots busy.  In every run of the
    loop, with the keys of the waiting map listed in any order and the tasks ending in
    any order: the batches spawned for a session, followed by what it still has queued,
    are its envelopes in the order they arrived; no session has two batches in flight,
    at most eight sessions run, and a batch holds between one and sixteen envelopes; a
    session waits only while all eight slots are taken, so that when no task is left
    nothing is queued and every envelope received was spawned. *)
Theorem shard_runs_sessions_in_order (order : Dispatcher.t -> list str) (recvd : list Envelope)
    (spawned : list (str * list Envelope)) (d : Dispatcher.t) :
  (forall d, order d ≡ₚ map fst (map_to_list (Dispatcher.queues d))) ->
  DispatcherFacts.runs order recvd spawned d ->
  (forall sid, DispatcherFacts.spawned_for sid spawned ++ DispatcherFacts.queue_of d sid
     = DispatcherFacts.of_session sid recvd) /\
  NoDup (map fst (Dispatcher.tasks d)) /\
  (length (Dispatcher.tasks d) <= 8)%nat /\
  Forall (fun b => 1 <= length b.2 <= 16)%nat spawned /\
  (forall sid, is_Some (Dispatcher.queues d !! sid) -> sid ∉ map fst (Dispatcher.tasks d) ->
     length (Dispatcher.tasks d) = 8%nat) /\
  (Dispatcher.tasks d = [] ->
     Dispatcher.queues d = ∅ /\
     forall sid, DispatcherFacts.spawned_for sid spawned = DispatcherFacts.of_session sid recvd).
Proof.
  intros Ho Hr. pose proof (DispatcherFacts.runs_held order Ho _ _ _ Hr) as Hh.
  pose proof Hh as (Hs & Hc & Hf & Hb).
  assert (size (Dispatcher.active d) = length (Dispatcher.tasks d)) as Hsz.
  { assert (Dispatcher.active d = list_to_set (map fst (Dispatcher.tasks d))) as ->.
    { apply set_eq. intros x. rewrite (DispatcherFacts.sh_active d Hs x). by rewrite elem_of_list_to_set. }
    rewrite size_list_to_set by apply (DispatcherFacts.sh_nodup d Hs). by rewrite length_map. }
  pose proof (DispatcherFacts.sh_size d Hs) as H8. unfold Dispatcher.MAX_ACTIVE_SESSIONS_PER_SHARD in H8.
  split_and!; [done|apply (DispatcherFacts.sh_nodup d Hs)|lia| | |].
  - eapply Forall_impl; [exact Hb|]. intros [sid b] [Hne Hle]. cbn in *. unfold Dispatcher.MAX_BATCH_PER_SESSION in Hle.
    destruct b; cbn in *; [done|lia].
  - intros sid Hq Ha. rewrite <- Hsz. apply (Hc sid Hq). by rewrite (DispatcherFacts.sh_active d Hs sid).
  - intros Ht. assert (Dispatcher.queues d = ∅) as He by (by eapply DispatcherFacts.idle_done). split; [done|].
    intros sid. rewrite <- Hf. unfold DispatcherFacts.queue_of. rewrite He, lookup_empty. by rewrite app_nil_r.
Qed.


(** * Samples *)

Module QueueSample.

Definition agent : AgentIdentity := mkAgentIdentity (lit "dev") (charter_of (lit "anonymous")) (lit "anonymous") None.

Definition job : WorkerJob :=
  mkJob 0 agent EventClass.StopReason Null [] false StatusId.Failure (Some StopReason.Other) None
    (mkMetrics None None None None None) 0 0 None None None.

Definition world : World := mkWorld [] ∅.

Definition admitted : PoolFacts.Sys :=
  let h := (Pool.try_reserve_pair (lit "s") (Pool.spawn 1 None)).1 in
  PoolFacts.mkSys h world [Pool.shard_of (Pool.spawn 1 None) (lit "s")] 1 [].

Lemma admitted_reachable : rtc PoolFacts.pstep (PoolFacts.start 1 None world) admitted.
Proof.
  apply rtc_once. refine (eq_rect _ _ (PoolFacts.p_pair (PoolFacts.start 1 None world) (lit "s") _ _ eq_refl) _ _).
  vm_compute. reflexivity.
Defined.

Definition envelope (n : Z) : Envelope := mkEnvelope (lit "a") (job<|wj_cost_usd_micros := n|>) FromCapacity.

Definition listed (d : Dispatcher.t) : list str := map fst (map_to_list (Dispatcher.queues d)).

Lemma listed_ok d : listed d ≡ₚ map fst (map_to_list (Dispatcher.queues d)).
Proof. reflexivity. Qed.

Definition first : Dispatcher.t := Dispatcher.on_recv (Some (envelope 1)) Dispatcher.new.
Definition backed_up : Dispatcher.t := Dispatcher.on_recv (Some (envelope 2)) first.
Definition resumed : Dispatcher.t := Dispatcher.on_join listed (lit "a") (backed_up<|Dispatcher.tasks := []|>).

Lemma resumed_runs : DispatcherFacts.runs listed [envelope 1; envelope 2]
  [(lit "a", [envelope 1]); (lit "a", [envelope 2])] resumed.
Proof.
  pose proof (DispatcherFacts.runs_recv listed _ _ _ (envelope 1) (DispatcherFacts.runs_new listed) eq_refl) as H1.
  pose proof (DispatcherFacts.runs_recv listed _ _ _ (envelope 2) H1 eq_refl) as H2.
  pose proof (DispatcherFacts.runs_join listed _ _ _ [] (lit "a") [envelope 1] [] H2 eq_refl) as H3.
  exact H3.
Defined.
End QueueSample.


Lemma shard_runs_sessions_in_order_witness :
  DispatcherFacts.spawned_for (lit "a")
    [(lit "a", [QueueSample.envelope 1]); (lit "a", [QueueSample.envelope 2])]
    ++ DispatcherFacts.queue_of QueueSample.resumed (lit "a")
  = DispatcherFacts.of_session (lit "a") [QueueSample.envelope 1; QueueSample.envelope 2].
Proof.
  exact (proj1 (shard_runs_sessions_in_order QueueSample.listed _ _ _ QueueSample.listed_ok
                  QueueSample.resumed_runs) (lit "a")).
Defined.
