(* ===== verification/Authz.v ===== *)
(** Who calls, and what the caller may do: the identity part of
    [av-harness/src/pipeline.rs] (headers, authentication, scopes, session binding) and
    the policy decision point of [authz.rs] with the missions of [config.rs]. *)

From S2P Require Import Prelude Rust CoreBase Json Core Identity Validator Rpc Budget Serde Events Exchange TokenRoutes.
From S2P Require Import LoopDetect Sandbox Atif Session.

(** * Errors *)

Definition core_error_to_string (e : CoreError) : str :=
  match e with
  | UnsafeInteger n =>
      lit "integer " ++ fmt_int n ++ lit " exceeds the 2^53 JCS-safe bound"
  | CoreOverflow context => lit "arithmetic overflow in " ++ context
  | InvalidId reason => lit "invalid identifier: " ++ reason
  end.

Definition pipeline_error_to_string (e : PipelineError) : str :=
  match e with
  | BadRequest c => lit "bad request: " ++ c
  | Unauthorized r => lit "unauthorized: " ++ r
  | TokenRoutes.Blocked c => lit "request blocked: " ++ c
  | Upstream c => lit "upstream request failed: " ++ c
  | UpstreamTimeout c => lit "upstream request timed out: " ++ c
  | Abort r => lit "connection aborted: " ++ r
  | Unavailable c => lit "service unavailable: " ++ c
  end.

(** [PipelineError::status]. *)
Definition pipeline_status (e : PipelineError) : Z :=
  match e with
  | BadRequest _ => 400
  | Unauthorized _ => 401
  | TokenRoutes.Blocked _ => 403
  | Upstream _ => 502
  | UpstreamTimeout _ => 504
  | Abort _ => 409
  | Unavailable _ => 503
  end.

(** * Missions and decisions *)

Record MissionConfig := mkMission {
  ms_id : str;
  ms_allowed_intents : list str;
  ms_expires_at : Z;
  ms_agents : list str;
  ms_charters : list str;
  ms_subjects : list str;
}.

Definition is_nil {A} (l : list A) : bool := match l with [] => true | _ => false end.

Definition has_selectors (m : MissionConfig) : bool :=
  negb (is_nil (ms_agents m)) || negb (is_nil (ms_charters m)) || negb (is_nil (ms_subjects m)).

Definition selects (m : MissionConfig) (instance_uid charter : str) (subject : option str) : bool :=
  has_selectors m
  && (is_nil (ms_agents m) || existsb (fun agent => str_eqb agent instance_uid) (ms_agents m))
  && (is_nil (ms_charters m) || existsb (fun name => str_eqb name charter) (ms_charters m))
  && (is_nil (ms_subjects m)
      || match subject with
         | Some sub => existsb (fun s => str_eqb s sub) (ms_subjects m)
         | None => false
         end).

Record CallerFacts := mkFacts { cf_instance_uid : str; cf_charter : str; cf_subject : option str }.

Definition ANONYMOUS : CallerFacts := mkFacts (lit "anonymous") (lit "anonymous") None.

Inductive AuthzDecision :=
| Permit (intent : str)
| Deny (code : DenialCode) (reason : str).

Record PolicyDecisionPoint := mkPdp {
  pd_intent_map : gmap str str;
  pd_require_mapping : bool;
  pd_mission : option MissionConfig;
  pd_missions : list MissionConfig;
  pd_intent_token_ttl_s : Z;
  pd_issuer : str;
}.

Section Pdp.
Context {UT : UnicodeTables}.

Definition applicable_missions (p : PolicyDecisionPoint) (c : CallerFacts) : list MissionConfig :=
  option_list (pd_mission p)
  ++ List.filter (fun m => selects m (cf_instance_uid c) (cf_charter c) (cf_subject c)) (pd_missions p).

(** The loop over the missions: the first that refuses. *)
Fixpoint mission_refusal (intent : str) (now_s : Z) (ms : list MissionConfig) : option (DenialCode * str) :=
  match ms with
  | [] => None
  | m :: rest =>
      if now_s >=? ms_expires_at m then
        Some (MissionExpired,
              lit "mission " ++ fmt_debug (ms_id m) ++ lit " expired at " ++ fmt_int (ms_expires_at m)
              ++ lit " (now " ++ fmt_int now_s ++ lit ")")
      else if negb (existsb (fun ai => str_eqb ai intent) (ms_allowed_intents m)) then
        Some (MissionDenied,
              lit "intent " ++ fmt_debug intent ++ lit " not permitted by mission " ++ fmt_debug (ms_id m))
      else mission_refusal intent now_s rest
  end.

Definition decide_for (p : PolicyDecisionPoint) (tool : str) (now_s : Z) (c : CallerFacts) : AuthzDecision :=
  let under intent :=
    match mission_refusal intent now_s (applicable_missions p c) with
    | Some (code, reason) => Deny code reason
    | None => Permit intent
    end in
  match pd_intent_map p !! tool with
  | Some intent => under intent
  | None =>
      if pd_require_mapping p then
        Deny UnmappedTool (lit "tool " ++ fmt_debug tool ++ lit " has no configured intent mapping")
      else under tool
  end.

Definition pdp_decide (p : PolicyDecisionPoint) (tool : str) (now_s : Z) : AuthzDecision :=
  decide_for p tool now_s ANONYMOUS.

Definition intent_for (p : PolicyDecisionPoint) (tool : str) : str := default tool (pd_intent_map p !! tool).

(** ** Intent tokens *)

Record IntentClaims := mkIntentClaims {
  ic_iss : str;
  ic_aud : str;
  ic_sub : str;
  ic_act : option str;
  ic_tool : str;
  ic_intent : str;
  ic_missions : list str;
  ic_iat : Z;
  ic_exp : Z;
  ic_jti : str;
}.

(** The claims [mint_intent_token] signs; [jti] is a fresh uid. *)
Definition intent_claims (p : PolicyDecisionPoint) (tool intent : str) (c : CallerFacts) (audience : str)
    (now_s : Z) (jti : str) : IntentClaims :=
  let missions := applicable_missions p c in
  {| ic_iss := pd_issuer p;
     ic_aud := audience;
     ic_sub := default (cf_instance_uid c) (cf_subject c);
     ic_act := (fun _ => cf_instance_uid c) <$> cf_subject c;
     ic_tool := tool;
     ic_intent := intent;
     ic_missions := map ms_id missions;
     ic_iat := now_s;
     ic_exp := fold_left Z.min (map ms_expires_at missions) (sat_add now_s (pd_intent_token_ttl_s p));
     ic_jti := jti |}.

(** [sign] is the configured signer with the type of intent tokens, if there is one. *)
Definition mint_intent_token (sign : option (IntentClaims -> result str str)) (p : PolicyDecisionPoint)
    (tool intent : str) (c : CallerFacts) (audience : str) (now_s : Z) (jti : str) : option str :=
  match sign with
  | None => None
  | Some sign =>
      match sign (intent_claims p tool intent c audience now_s jti) with
      | Ok jwt => Some jwt
      | Err _ => None
      end
  end.
End Pdp.

(** * Headers *)

(** A header value: its bytes, and the text [to_str] reads from them if it does. *)
Record HeaderValue := mkHeaderValue { hv_bytes : list Z; hv_text : option str }.

(** The entries of the map, names in lower case. *)
Abbreviation HeaderMap := (list (str * HeaderValue)).

Definition SESSION_HEADER : str := lit "x-av-session".
Definition WORKFLOW_HEADER : str := lit "x-av-workflow".

Definition header (hs : HeaderMap) (name : str) : result (option HeaderValue) PipelineError :=
  map_err (fun _ => BadRequest (lit "request carries more than one " ++ name ++ lit " header; provide exactly one"))
    (single_header (map snd (List.filter (fun e => str_eqb e.1 name) hs))).

Section Headers.
Context {UT : UnicodeTables}.

(** [uid]: what [new_session_id] draws. *)
Definition session_id (uid : str) (hs : HeaderMap) : result str PipelineError :=
  let? found := header hs SESSION_HEADER in
  match found with
  | None => Ok uid
  | Some value =>
      let? value := ok_or (hv_text value) (BadRequest (lit "X-AV-Session is not valid text")) in
      match Ids.parse_session_id value with
      | Ok _ => Ok value
      | Err e => Err (BadRequest (core_error_to_string e))
      end
  end.

Definition workflow_of (hs : HeaderMap) (default_workflow : str) : result Workflow.t PipelineError :=
  let? found := header hs WORKFLOW_HEADER in
  let? value := match found with
                | None => Ok default_workflow
                | Some h => ok_or (hv_text h) (BadRequest (lit "X-AV-Workflow is not valid text"))
                end in
  ok_or (Workflow.parse value)
    (BadRequest (lit "X-AV-Workflow must be signed or unsigned, got " ++ fmt_debug value)).
End Headers.

(** * Configuration *)

(** What the request pipeline reads of [AppState]: the configuration, the validator
    with its keys, the sandbox, the decision point and the journal key. *)
Section App.
Context {JS : JsonSchema}.

Record App := mkApp {
  default_workflow : str;
  require_identity : bool;
  enforce_identity_scopes : bool;
  upstream_authorization_passthrough : bool;
  upstream_api_key_env : option str;
  upstream_api_key_file : option str;
  ignore_client_authorization : bool;
  chat_scope : str;
  breaker : Breaker.BreakerConfig;
  budget : BudgetSpec;
  principal_budget : option BudgetSpec;
  compression_enabled : bool;
  consequential_tools : list str;
  app_identity : option (ValidatorConfig * KeySet);
  app_sandbox : Sandbox;
  app_pdp : PolicyDecisionPoint;
  app_journal_key : list Z;
  app_upstream_auth : option (str * HeaderValue);
}.
End App.

(** * Callers *)

#[global] Instance CharterFile_eq_dec : EqDecision CharterFile.
Proof. solve_decision. Defined.

Definition scope_allows (scopes : list str) (required : str) : bool :=
  existsb (fun scope =>
    str_eqb scope (lit "*") || str_eqb scope required
    || match strip_wildcard scope with
       | Some prefix =>
           match strip_prefix prefix required with
           | Some rest => starts_with (lit ":") rest
           | None => false
           end
       | None => false
       end) scopes.

Definition TOOL_INVOKE_SCOPE : str := lit "tool:invoke".

Definition identity_error_to_pipeline (e : IdentityError) : PipelineError :=
  match e with
  | RevocationUnavailable _ => Unavailable (lit "identity revocation list is unavailable; retry shortly")
  | _ => Unauthorized (classify_identity_error e)
  end.

Definition anonymous_identity : AgentIdentity :=
  mkAgentIdentity (lit "dev") (charter_of (lit "anonymous")) (lit "anonymous") None.

Record AuthenticatedCaller := mkCaller { ca_identity : AgentIdentity; ca_validated : option ValidatedIdentity }.

Definition missing_bearer : PipelineError := Unauthorized (lit "missing bearer token").

Definition unexpected_bearer : PipelineError :=
  Unauthorized (lit "bearer token presented but identity validator is not configured " ++ [0x2014] ++ lit " refusing to silently record the request as anonymous (either configure identity_jwks_url / identity_hmac_secret_file, or set upstream_authorization_passthrough=true if the bearer is meant for the upstream provider)").

Definition principal_id_for_budget (i : AgentIdentity) : str :=
  if str_eqb (ag_instance_uid i) [] then lit "anonymous" else ag_instance_uid i.

Section Callers.
Context {UT : UnicodeTables} {TL : TokenLibs} {SHA : Sha256} {SJ : SerdeJson} {JS : JsonSchema}.
Variable app : App.

Definition scope_required (required : str) : PipelineError :=
  TokenRoutes.Blocked (lit "identity scope " ++ fmt_debug required ++ lit " is required").

(** The scope check, where scopes are enforced and one is required. *)
Definition check_scope (c : NhiClaims) (scope : option str) : result unit PipelineError :=
  if enforce_identity_scopes app then
    match scope with
    | Some required => if negb (scope_allows (scopes c) required) then Err (scope_required required) else Ok tt
    | None => Ok tt
    end
  else Ok tt.

Definition bearer_of (hs : HeaderMap) : result (option str) PipelineError :=
  let? found := header hs (lit "authorization") in
  Ok (match found with Some value => hv_text value ≫= strip_bearer_scheme | None => None end).

Definition resolve_anonymous_identity (now_s : Z) (hs : HeaderMap) (required_scope : option str)
  : result AgentIdentity PipelineError :=
  let? bearer := bearer_of hs in
  match bearer, app_identity app with
  | Some token, Some (cfg, ks) =>
      let? v := map_err identity_error_to_pipeline (validate cfg ks now_s token) in
      let? _ := check_scope (vi_claims v) required_scope in
      Ok (agent_identity v)
  | Some _, None =>
      let has_static_key :=
        bool_decide (is_Some (upstream_api_key_env app)) || bool_decide (is_Some (upstream_api_key_file app)) in
      if upstream_authorization_passthrough app then Ok anonymous_identity
      else if has_static_key || ignore_client_authorization app then Ok anonymous_identity
      else Err unexpected_bearer
  | None, _ => if require_identity app then Err missing_bearer else Ok anonymous_identity
  end.

Definition authenticate (now_s : Z) (hs : HeaderMap) : result AuthenticatedCaller PipelineError :=
  let? bearer := bearer_of hs in
  match bearer, app_identity app with
  | Some token, Some (cfg, ks) =>
      let? v := map_err identity_error_to_pipeline (validate cfg ks now_s token) in
      Ok (mkCaller (agent_identity v) (Some v))
  | _, _ =>
      let? i := resolve_anonymous_identity now_s hs None in
      Ok (mkCaller i None)
  end.

Definition authorize (c : AuthenticatedCaller) (now_s : Z) (scope : option str)
  : result AgentIdentity PipelineError :=
  match ca_validated c with
  | Some v =>
      let leeway := match app_identity app with Some (cfg, _) => leeway_secs cfg | None => 0 end in
      if now_s >? sat_add (exp (vi_claims v)) leeway then Err (Unauthorized (lit "identity validation failed"))
      else
      let? _ := check_scope (vi_claims v) scope in
      Ok (mkAgentIdentity (ag_version (ca_identity c)) (ag_charter (ca_identity c))
            (ag_instance_uid (ca_identity c)) (Some (sat_sub (exp (vi_claims v)) now_s)))
  | None => Ok (ca_identity c)
  end.

(** [now_v] and [now_a]: the clock at the validation and at the authorization. *)
Definition resolve_identity (now_v now_a : Z) (hs : HeaderMap) (required_scope : option str)
  : result AgentIdentity PipelineError :=
  let? caller := authenticate now_v hs in authorize caller now_a required_scope.

Definition facts (c : AuthenticatedCaller) : CallerFacts :=
  match ca_validated c with
  | Some v => mkFacts (instance_uid (vi_claims v)) (charter (vi_claims v)) (Some (sub (vi_claims v)))
  | None => mkFacts (ag_instance_uid (ca_identity c)) (lit "anonymous") None
  end.

Definition principal_digest (c : AuthenticatedCaller) : option str :=
  (fun v => sha256_hex (as_bytes (to_string (Array [JString (iss (vi_claims v)); JString (sub (vi_claims v))]))))
    <$> ca_validated c.

(** ** Sessions *)

Definition validate_session_binding (s : Session) (w : Workflow.t) (i : AgentIdentity) : result unit PipelineError :=
  if negb (bool_decide (workflow s = w)) then
    Err (BadRequest (lit "session workflow cannot change after open"))
  else if negb (str_eqb (ag_instance_uid (identity s)) (ag_instance_uid i))
          || negb (bool_decide (ag_charter (identity s) = ag_charter i))
          || negb (str_eqb (ag_version (identity s)) (ag_version i)) then
    Err (Unauthorized (lit "session is bound to a different agent identity"))
  else Ok tt.

Definition bind_session (c : AuthenticatedCaller) (s : Session) : Session * result unit PipelineError :=
  match bind_principal s (principal_digest c) with
  | (s', true) => (s', Ok tt)
  | (s', false) => (s', Err (Unauthorized (lit "session is bound to a different principal")))
  end.

Definition authorize_session (c : AuthenticatedCaller) (now_s : Z) (s : Session) (scope : str)
  : Session * result unit PipelineError :=
  match authorize c now_s (Some scope) with
  | Err e => (s, Err e)
  | Ok i =>
      match validate_session_binding s (workflow s) i with
      | Err e => (s, Err e)
      | Ok _ =>
          match bind_session c s with
          | (s', Err e) => (s', Err e)
          | (s', Ok _) => (refresh_identity s' i, Ok tt)
          end
      end
  end.
End Callers.
