(* ===== verification/ChatPayload.v ===== *)
(** What [av-harness/src/pipeline.rs] reads and writes in a chat payload: the text the
    loop detector sees, the step of the trajectory, the number of choices, and the
    corrective message. *)

From S2P Require Import Prelude Rust CoreBase Json Core Serde Events Atif Session TokenRoutes Worker Authz.

Fixpoint join_lines (l : list str) : str :=
  match l with
  | [] => []
  | [x] => x
  | x :: rest => x ++ [10] ++ join_lines rest
  end.

Definition messages_of (payload : Value) : option (list Value) := value_get (lit "messages") payload ≫= as_array.

(** [n] is absent, null or exactly the integer one. *)
Definition single_choice (payload : Value) : bool :=
  match value_get (lit "n") payload with
  | None | Some Null => true
  | Some (Number n) => bool_decide (as_u64 n = Some 1)
  | Some _ => false
  end.

Section Payload.
Context {UT : UnicodeTables} {SJ : SerdeJson}.

(** One tool call as text: its name and its arguments, which some clients send as a
    string of JSON and others as JSON. *)
Definition call_text (call : Value) : option str :=
  let function := value_get (lit "function") call in
  match (function ≫= value_get (lit "name")) ≫= as_str with
  | None => None
  | Some name =>
      let args := match function ≫= value_get (lit "arguments") with
                  | Some (JString s) => s
                  | Some other => to_string other
                  | None => []
                  end in
      Some (name ++ lit "(" ++ args ++ lit ")")
  end.

Definition last_message_text (payload : Value) : str :=
  match messages_of payload ≫= last with
  | None => []
  | Some message =>
      let content := value_get (lit "content") message in
      let text := default [] (content ≫= as_str) in
      if negb (str_eqb text []) then text
      else
        let calls := omap call_text (default [] (value_get (lit "tool_calls") message ≫= as_array)) in
        if negb (is_nil calls) then join_lines calls
        else join_lines (omap (fun part => value_get (lit "text") part ≫= as_str)
                           (default [] (content ≫= as_array)))
  end.

Definition json_type_name (v : Value) : str :=
  match v with
  | Null => lit "null"
  | Bool _ => lit "boolean"
  | Number _ => lit "number"
  | JString _ => lit "string"
  | Array _ => lit "array"
  | Object _ => lit "object"
  end.

(** The source of a step by the role of its message. *)
Definition source_of_role (role : option str) : result Atif.Source PipelineError :=
  match role with
  | None => Err (BadRequest (lit "chat message has no role"))
  | Some r =>
      if existsb (str_eqb r) [lit "system"; lit "developer"; lit "tool"; lit "function"] then Ok Atif.System
      else if str_eqb r (lit "user") then Ok Atif.User
      else if str_eqb r (lit "assistant") then Ok Atif.AgentSource
      else Err (BadRequest (lit "unsupported chat role " ++ fmt_debug r))
  end.

(** [uid] is what is drawn for a call without an id. *)
Definition captured_call (uid : str) (call : Value) : option Atif.ToolCall :=
  match value_get (lit "function") call with
  | None => None
  | Some function =>
      let arguments := default (Object []) (value_get (lit "arguments") function) in
      let arguments := match as_str arguments with
                       | Some raw => match from_bytes (as_bytes raw) with Ok v => v | Err _ => arguments end
                       | None => arguments
                       end in
      match value_get (lit "name") function ≫= as_str with
      | None => None
      | Some name =>
          Some (Atif.mkToolCall (default uid (value_get (lit "id") call ≫= as_str)) name arguments None)
      end
  end.

Definition content_of (message : Value) : Value :=
  match value_get (lit "content") message with
  | Some ((JString _ | Array _) as v) => v
  | _ => JString []
  end.

(** [uids]: the uid drawn for the call at each position. *)
Definition atif_capture_from_request (uids : nat -> str) (payload : Value) : result AtifCapture PipelineError :=
  let? messages_value := ok_or (value_get (lit "messages") payload)
                           (BadRequest (lit "chat payload is missing 'messages'")) in
  let? messages := ok_or (as_array messages_value)
                     (BadRequest (lit "'messages' must be a JSON array, got " ++ json_type_name messages_value)) in
  let? message := ok_or (last messages) (BadRequest (lit "chat payload 'messages' is empty")) in
  let role := value_get (lit "role") message ≫= as_str in
  let? source := source_of_role role in
  let content := content_of message in
  let tool_calls :=
    (fun calls => omap (fun o => o) (imap (fun i call => captured_call (uids i) call) calls))
      <$> (value_get (lit "tool_calls") message ≫= as_array) in
  let observation :=
    if bool_decide (role = Some (lit "tool")) then
      Some (Atif.mkObservation [Atif.mkObservationResult None (Some content) None
        ((fun call_id => Object (member "tool_call_id" call_id)) <$> value_get (lit "tool_call_id") message)])
    else None in
  let for_agent {A} (o : option A) : option A := if bool_decide (source = Atif.AgentSource) then o else None in
  Ok (mkCapture source content
        (for_agent (value_get (lit "reasoning_content") message ≫= as_str))
        (for_agent (value_get (lit "model") payload ≫= as_str))
        (for_agent tool_calls) observation (for_agent (Some 1))).

Definition CORRECTIVE_MESSAGE : Value :=
  Object [(lit "role", JString (lit "system"));
          (lit "content", JString (lit "AgentVisor AI detected a semantic loop. Stop repeating the previous approach, identify new evidence, and choose a materially different next action."))].

Definition inject_corrective_message (payload : Value) : result Value PipelineError :=
  match payload with
  | Object m =>
      match map_get (lit "messages") m with
      | Some (Array messages) =>
          Ok (Object (map_insert (lit "messages") (Array (messages ++ [CORRECTIVE_MESSAGE])) m))
      | _ => Err (BadRequest (lit "chat payload has no messages array"))
      end
  | _ => Err (BadRequest (lit "chat payload has no messages array"))
  end.
End Payload.
