(* ===== verification/Pipeline.v ===== *)
(** The request pipeline of [av-harness/src/pipeline.rs]: admission of a chat request
    with its reservations and its token debit, the guards that resolve an admitted
    request however it ends, forwarding, and the interception of a tool call.
    The handlers run one at a time here; what runs while one awaits is an argument. *)

From S2P Require Import Prelude Rust CoreBase Json Float LoopDetect Core Jcs Identity Validator Compress Rpc Store Budget.
From S2P Require Import Sandbox Serde Events Journal Exchange TokenRoutes Atif Session Worker WorkerQueue Authz ChatPayload.

(** * State *)

Record Server (St : Type) := mkServer {
  sv_store : St;
  sv_world : World;
  sv_pool : Pool.t;
  sv_window : Z * Z;
  sv_spool : Spool;
  sv_ticks : nat;
  sv_draws : nat;
}.
Arguments mkServer {St}.
Arguments sv_store {St}.
Arguments sv_world {St}.
Arguments sv_pool {St}.
Arguments sv_window {St}.
Arguments sv_spool {St}.
Arguments sv_ticks {St}.
Arguments sv_draws {St}.

(** What one request draws: fresh uids, and readings of the clocks, wall ([ms]) and
    monotonic, in the order of the code. *)
Record Draws := mkDraws {
  d_session_uid : str;
  d_probe_uid : str;
  d_scope_uid : str;
  d_trajectory_uid : str;
  d_attempt_uid : str;
  d_marker_uid : str;
  d_tool_uid : str;
  d_call_uid : nat -> str;
  d_audit_uid : str;
  d_audit_scope_uid : str;
  d_audit_trajectory_uid : str;
  d_validate_ms : Z;
  d_authorize_ms : Z;
  d_open : Z * Z;
  d_touch : Z * Z;
  d_decide_ms : Z;
  d_elapsed_us : Z;
  d_window_instant : Z;
  d_audit : Z * Z;
}.

(** ** The monad *)

Definition P (St A : Type) : Type := Server St -> Server St * result A PipelineError.

Section Monad.
Context {St : Type}.

Definition pret {A} (a : A) : P St A := fun sv => (sv, Ok a).
Definition pfail {A} (e : PipelineError) : P St A := fun sv => (sv, Err e).
Definition pbind {A B} (m : P St A) (k : A -> P St B) : P St B := fun sv =>
  match m sv with
  | (sv', Ok a) => k a sv'
  | (sv', Err e) => (sv', Err e)
  end.
Definition pof {A} (r : result A PipelineError) : P St A := fun sv => (sv, r).
Definition pdo (f : Server St -> Server St) : P St unit := fun sv => (f sv, Ok tt).
Definition pwhen (b : bool) (e : PipelineError) : P St unit := if b then pfail e else pret tt.

Definition on_session_at (f : Session -> Session) (a : addr) (sv : Server St) : Server St :=
  sv<|sv_world := Pool.session_at f a (sv_world sv)|>.
Definition on_store (f : St -> St) (sv : Server St) : Server St := sv<|sv_store := f (sv_store sv)|>.
Definition on_pool (f : Pool.t -> Pool.t) (sv : Server St) : Server St := sv<|sv_pool := f (sv_pool sv)|>.
End Monad.

Declare Scope pipeline_scope.
Notation "'let^' x ':=' m 'in' k" := (pbind m (fun x => k))
  (at level 10, x pattern, m at level 100, k at level 200) : pipeline_scope.
Notation "m ';^' k" := (pbind m (fun _ => k)) (at level 100, right associativity) : pipeline_scope.
Open Scope pipeline_scope.

(** * Bytes as text *)

Definition is_continuation (b : Z) : bool := (0x80 <=? b) && (b <=? 0xBF).

(** Whether a lead byte of a sequence of three or four admits the byte after it. *)
Definition second_ok (b c : Z) : bool :=
  if b =? 0xE0 then (0xA0 <=? c) && (c <=? 0xBF)
  else if b =? 0xED then (0x80 <=? c) && (c <=? 0x9F)
  else if b =? 0xF0 then (0x90 <=? c) && (c <=? 0xBF)
  else if b =? 0xF4 then (0x80 <=? c) && (c <=? 0x8F)
  else is_continuation c.

Definition low6 (b : Z) : Z := Z.land b 63.

(** [String::from_utf8_lossy]: a replacement character for each maximal part of a
    sequence that does not go on as it began. *)
Fixpoint utf8_lossy (bs : list Z) : str :=
  match bs with
  | [] => []
  | b :: r =>
      if b <? 0x80 then b :: utf8_lossy r
      else if (0xC2 <=? b) && (b <=? 0xDF) then
        match r with
        | c :: r1 => if is_continuation c then (Z.land b 31 * 64 + low6 c) :: utf8_lossy r1 else 0xFFFD :: utf8_lossy r
        | [] => [0xFFFD]
        end
      else if (0xE0 <=? b) && (b <=? 0xEF) then
        match r with
        | c :: r1 =>
            if second_ok b c then
              match r1 with
              | e :: r2 => if is_continuation e then (Z.land b 15 * 4096 + low6 c * 64 + low6 e) :: utf8_lossy r2
                           else 0xFFFD :: utf8_lossy r1
              | [] => [0xFFFD]
              end
            else 0xFFFD :: utf8_lossy r
        | [] => [0xFFFD]
        end
      else if (0xF0 <=? b) && (b <=? 0xF4) then
        match r with
        | c :: r1 =>
            if second_ok b c then
              match r1 with
              | e :: r2 =>
                  if is_continuation e then
                    match r2 with
                    | g :: r3 =>
                        if is_continuation g then
                          (Z.land b 7 * 262144 + low6 c * 4096 + low6 e * 64 + low6 g) :: utf8_lossy r3
                        else 0xFFFD :: utf8_lossy r2
                    | [] => [0xFFFD]
                    end
                  else 0xFFFD :: utf8_lossy r1
              | [] => [0xFFFD]
              end
            else 0xFFFD :: utf8_lossy r
        | [] => [0xFFFD]
        end
      else 0xFFFD :: utf8_lossy r
  end.

(** * Guards *)

(** The token debit an admitted request holds. *)
Record AdmissionDebit := mkDebit {
  ad_session_id : str;
  ad_budget : BudgetSpec;
  ad_principal : option (str * BudgetSpec);
  ad_tokens : Z;
}.

(** The owner of a journalled attempt, of its marker once there is one, and of the
    response slot until it is handed on. *)
Record ResponseCaptureGuard := mkGuard {
  rg_session : addr;
  rg_identity : AgentIdentity;
  rg_marker : option str;
  rg_attempt_id : str;
  rg_permit : bool;
  rg_armed : bool;
}.

(** The lease is that of [pr_session]. *)
Record PreparedRequest := mkPrepared {
  pr_session : addr;
  pr_identity : AgentIdentity;
  pr_payload : Value;
  pr_admission_debit : AdmissionDebit;
  pr_capture_guard : ResponseCaptureGuard;
  pr_client_authorization : option HeaderValue;
  pr_upstream_passthrough_headers : list (str * HeaderValue);
}.

(** What is sent upstream: body and headers. *)
Record UpstreamRequest := mkUpstream { up_body : Value; up_headers : list (str * HeaderValue) }.

Record ForwardedResponse := mkForwarded {
  fr_session : addr;
  fr_status : Z;
  fr_billed_prompt_tokens : Z;
  fr_capture_guard : ResponseCaptureGuard;
}.

(** The predicates of a [reqwest::Error]. *)
Record SendError := mkSendError {
  is_timeout : bool;
  is_connect : bool;
  is_request : bool;
  is_body : bool;
  is_decode : bool;
  is_status : bool;
}.

Definition classify_upstream_error (e : SendError) : str :=
  if is_timeout e then lit "upstream timed out"
  else if is_connect e then lit "upstream unreachable"
  else if is_request e then lit "upstream request rejected"
  else if is_body e || is_decode e then lit "upstream response malformed"
  else if is_status e then lit "upstream returned error status"
  else lit "upstream forwarding failed".

Definition metrics_default : EventMetrics := mkMetrics None None None None None.

(** ** Jobs *)

(** The step an unsigned session records for a failure. *)
Definition failure_capture (w : Workflow.t) (reason : str) : option AtifCapture :=
  if bool_decide (w = Workflow.Unsigned)
  then Some (mkCapture Atif.AgentSource (JString reason) None None None None (Some 0)) else None.

(** [failure_job] of the session at [a], whose workflow is [w]. *)
Definition failure_job (a : addr) (w : Workflow.t) (i : AgentIdentity) (stop_reason : StopReason.t) (reason : str)
  : WorkerJob :=
  {| wj_session := a; wj_identity := i; wj_class := EventClass.StopReason;
     wj_payload := Object (member "reason" (JString reason));
     wj_text := []; wj_analyze_loop := false; wj_status := StatusId.Failure;
     wj_stop_reason := Some stop_reason; wj_native_stop_reason := None; wj_metrics := metrics_default;
     wj_prompt_token_correction := 0; wj_cost_usd_micros := 0;
     wj_atif := failure_capture w reason; wj_response_marker := None; wj_response_attempt := None |}.

Definition refused_response_failure_job (a : addr) (w : Workflow.t) (i : AgentIdentity) (reason : str)
    (marker : option str) (attempt : str) : WorkerJob :=
  {| wj_session := a; wj_identity := i; wj_class := EventClass.StopReason;
     wj_payload := Object (member "reason" (JString reason) ++ member "direction" (JString (lit "upstream_response")));
     wj_text := []; wj_analyze_loop := false; wj_status := StatusId.Failure;
     wj_stop_reason := Some StopReason.Other; wj_native_stop_reason := None; wj_metrics := metrics_default;
     wj_prompt_token_correction := 0; wj_cost_usd_micros := 0;
     wj_atif := failure_capture w reason; wj_response_marker := marker;
     wj_response_attempt := Some (mkAttempt attempt true) |}.

Definition resolving (marker : option str) (attempt : str) (job : WorkerJob) : WorkerJob :=
  job<|wj_response_marker := marker|><|wj_response_attempt := Some (mkAttempt attempt true)|>.

Section Pipeline.
Context {UT : UnicodeTables} {R : Ryu} {SHA : Sha256} {HM : HmacSha256} {SJ : SerdeJson} {JR : JsonReader}.
Context {TL : TokenLibs} {JS : JsonSchema} {DF : DisplayF64} {RS : RecordSerde}.
Context {St : Type} {ST : StateStore St}.
(** [DefaultHasher], the surroundings of the spool, and the application. *)
Context (default_hash : str -> str -> Z) (env : Env) (wcfg : WorkerConfig) (app : App).

#[local] Instance session_inhabited : Inhabited Session :=
  populate (new [] [] 0 0 [] Workflow.Signed anonymous_identity Breaker.default_config).

(** The session behind a reference. *)
Definition session_of (a : addr) (sv : Server St) : Session := heap (sv_world sv) !!! a.

(** ** Submitting *)

(** [WorkerPermit::submit], through the slot of shard [i]. *)
Definition submit_reserved (i : nat) (job : WorkerJob) (sv : Server St) : Server St :=
  let '(w, h) := Pool.submit i (id (session_of (wj_session job) sv)) job (sv_world sv) (sv_pool sv) in
  sv<|sv_world := w|><|sv_pool := h|>.

Definition submit_through
    (f : str -> WorkerJob -> World -> Pool.t -> World * Pool.t * result unit SubmitError)
    (job : WorkerJob) (sv : Server St) : Server St * result unit SubmitError :=
  let '(w, h, r) := f (id (session_of (wj_session job) sv)) job (sv_world sv) (sv_pool sv) in
  (sv<|sv_world := w|><|sv_pool := h|>, r).

(** A capture that cannot be submitted fails the session closed. *)
Definition submit_or_fail_closed
    (f : str -> WorkerJob -> World -> Pool.t -> World * Pool.t * result unit SubmitError)
    (job : WorkerJob) (sv : Server St) : Server St :=
  match submit_through f job sv with
  | (sv', Ok _) => sv'
  | (sv', Err _) => on_session_at mark_capture_failed (wj_session job) sv'
  end.

Definition enqueue_failure (a : addr) (i : AgentIdentity) (stop_reason : StopReason.t) (reason : str) : P St unit :=
  fun sv =>
    let '(sv', r) := submit_through Pool.try_submit
                       (failure_job a (workflow (session_of a sv)) i stop_reason reason) sv in
    (sv', map_err (fun e => Unavailable (submit_error_to_string e)) r).

(** ** Rejected identities *)

Definition MAX_AUDITED_REJECTIONS_PER_MINUTE : Z := 60.
Definition MAX_ECHO : Z := 64.

(** The window after a rejection, and whether it is audited in full. *)
Definition count_rejection (now : Z) (window : Z * Z) : (Z * Z) * bool :=
  let window := if sat_sub now window.1 >=? 60 * Registry.NANOS_PER_SEC then (now, 0) else window in
  if window.2 >=? MAX_AUDITED_REJECTIONS_PER_MINUTE then (window, false)
  else ((window.1, window.2 + 1), true).

Definition rejection_text (sid reason : str) : str :=
  let echo := Ids.floor_prefix (Z.min MAX_ECHO (str_len sid)) sid in
  lit "requested session " ++ fmt_debug echo
  ++ (if str_len echo <? str_len sid then 0x2026 :: lit "(truncated)" else [])
  ++ lit ": " ++ reason.

Definition enqueue_transient_failure (d : Draws) (sid : str) (stop_reason : StopReason.t) (reason : str) : P St unit :=
  fun sv =>
    let '(window, audited) := count_rejection (d_window_instant d) (sv_window sv) in
    let sv := sv<|sv_window := window|> in
    if negb audited then (sv, Ok tt)
    else
      let audit_id := lit "identity-rejected-" ++ d_audit_uid d in
      let i := mkAgentIdentity (lit "unknown") (charter_of (lit "identity-rejected")) audit_id None in
      let '(w, a) := Registry.alloc (sv_world sv)
                       (new (d_audit_scope_uid d) (d_audit_trajectory_uid d) (d_audit d).1 (d_audit d).2
                          audit_id Workflow.Signed i (breaker app)) in
      enqueue_failure a i stop_reason (rejection_text sid reason) (sv<|sv_world := w|>).

Definition audit_authentication_error (d : Draws) (hs : HeaderMap) (e : PipelineError) : P St unit :=
  match e with
  | Unauthorized _ | TokenRoutes.Blocked _ =>
      enqueue_transient_failure d (match session_id (d_session_uid d) hs with Ok s => s | Err _ => [] end)
        StopReason.IdentityRejected (pipeline_error_to_string e)
  | _ => pret tt
  end.

(** [match m { Ok(x) => x, Err(error) => { audit(error)?; return Err(error) } }]. *)
Definition audited {A} (r : result A PipelineError) (audit : PipelineError -> P St unit) : P St A :=
  match r with
  | Ok a => pret a
  | Err e => audit e ;^ pfail e
  end.

(** ** The token debit *)

(** The principal ledger, where one is configured. *)
Definition principal_ledger (i : AgentIdentity) : option (str * BudgetSpec) :=
  (fun spec => (principal_id_for_budget i, spec)) <$> principal_budget app.

Definition refund_principal (p : option (str * BudgetSpec)) (tokens : Z) (st : St) : St :=
  match p with
  | Some (pid, spec) => refund_tokens st (for_principal pid spec) tokens
  | None => st
  end.

(** Both ledgers, in the order they were spent last. *)
Definition refund_both (sid : str) (b : BudgetSpec) (p : option (str * BudgetSpec)) (tokens : Z) (st : St) : St :=
  refund_principal p tokens (refund_tokens st (for_session sid b) tokens).

Definition take_for_dispatch (ad : AdmissionDebit) : AdmissionDebit * Z :=
  (ad<|ad_tokens := 0|>, ad_tokens ad).

Definition refund_now (ad : AdmissionDebit) (sv : Server St) : Server St * AdmissionDebit :=
  if ad_tokens ad =? 0 then (sv, ad<|ad_tokens := 0|>)
  else (on_store (refund_both (ad_session_id ad) (ad_budget ad) (ad_principal ad) (ad_tokens ad)) sv,
        ad<|ad_tokens := 0|>).

(** [AdmissionDebit::drop]; the refund it may hand to the blocking pool is done. *)
Definition drop_debit (ad : AdmissionDebit) (sv : Server St) : Server St :=
  if ad_tokens ad =? 0 then sv
  else on_store (refund_both (ad_session_id ad) (ad_budget ad) (ad_principal ad) (ad_tokens ad)) sv.

(** The charge after compression: [None] when both ledgers were debited, or the error
    and whether a cap was reached. *)
Definition charge_session (sid : str) (p : option (str * BudgetSpec)) (tokens : Z) (st : St)
  : St * option (bool * PipelineError) :=
  match try_tokens st (for_session sid (budget app)) tokens with
  | (st, Err e) =>
      (refund_principal p tokens st,
       Some (false, TokenRoutes.Blocked (lit "quota backend failed closed: " ++ state_error_to_string e)))
  | (st, Ok (BudgetRefused limit cap)) =>
      (refund_principal p tokens st,
       Some (true, TokenRoutes.Blocked (limit ++ lit " exceeded (cap " ++ fmt_int cap ++ lit ")")))
  | (st, Ok (Allowed _)) => (st, None)
  end.

Definition charge (sid : str) (p : option (str * BudgetSpec)) (tokens : Z) (st : St)
  : St * option (bool * PipelineError) :=
  match p with
  | None => charge_session sid p tokens st
  | Some (pid, spec) =>
      match try_tokens st (for_principal pid spec) tokens with
      | (st, Err e) =>
          (st, Some (false, TokenRoutes.Blocked (lit "quota backend failed closed (principal): " ++ state_error_to_string e)))
      | (st, Ok (BudgetRefused limit cap)) =>
          (st, Some (true, TokenRoutes.Blocked (lit "principal." ++ limit ++ lit " exceeded (cap " ++ fmt_int cap ++ lit ")")))
      | (st, Ok (Allowed _)) => charge_session sid p tokens st
      end
  end.

(** ** The capture guard *)

Definition guard_new (a : addr) (i : AgentIdentity) (attempt : str) (permit : bool) : ResponseCaptureGuard :=
  mkGuard a i None attempt permit true.

Definition take_permit (g : ResponseCaptureGuard) : ResponseCaptureGuard * bool :=
  (g<|rg_permit := false|>, rg_permit g).

Definition set_marker (g : ResponseCaptureGuard) (marker : str) : ResponseCaptureGuard := g<|rg_marker := Some marker|>.

Definition defuse (g : ResponseCaptureGuard) : ResponseCaptureGuard * option str :=
  (g<|rg_armed := false|><|rg_marker := None|>, rg_marker g).

(** A guard that is not armed still returns the slot it holds. *)
Definition drop_guard (g : ResponseCaptureGuard) (sv : Server St) : Server St :=
  if negb (rg_armed g) then (if rg_permit g then on_pool Pool.drop_response_permit sv else sv)
  else
    let job := refused_response_failure_job (rg_session g) (workflow (session_of (rg_session g) sv)) (rg_identity g)
                 (lit "request_cancelled_before_response_capture") (rg_marker g) (rg_attempt_id g) in
    submit_or_fail_closed (if rg_permit g then Pool.submit_response else Pool.try_submit) job sv.

Definition drop_lease (a : addr) (sv : Server St) : Server St := on_session_at (fun s => (lease_drop s).1) a sv.

(** The fields of a dropped request, in declaration order. *)
Definition drop_prepared (pr : PreparedRequest) (sv : Server St) : Server St :=
  drop_lease (pr_session pr) (drop_guard (pr_capture_guard pr) (drop_debit (pr_admission_debit pr) sv)).

Definition drop_forwarded (fr : ForwardedResponse) (sv : Server St) : Server St :=
  drop_lease (fr_session fr) (drop_guard (fr_capture_guard fr) sv).

(** ** Admission of a chat request *)

Definition UPSTREAM_HEADER_ALLOWLIST : list str :=
  [lit "openai-organization"; lit "openai-project"; lit "openai-beta"].

Fixpoint passthrough_headers (hs : HeaderMap) (names : list str) : result (list (str * HeaderValue)) PipelineError :=
  match names with
  | [] => Ok []
  | name :: rest =>
      let? found := header hs name in
      let? others := passthrough_headers hs rest in
      Ok (match found with Some v => (name, v) :: others | None => others end)
  end.

Record ChatHeaders := mkChatHeaders {
  ch_session_id : str;
  ch_workflow : Workflow.t;
  ch_client_authorization : option HeaderValue;
  ch_upstream : list (str * HeaderValue);
}.

(** What is checked before any state is touched. *)
Definition chat_headers (d : Draws) (hs : HeaderMap) (payload : Value) : result ChatHeaders PipelineError :=
  let? sid := session_id (d_session_uid d) hs in
  let? w := workflow_of hs (default_workflow app) in
  let? _ := if single_choice payload then Ok tt
            else Err (BadRequest (lit "multi-choice completions (n != 1) are not supported: the audit capture attests a single response message per request")) in
  let? auth := if upstream_authorization_passthrough app then header hs (lit "authorization") else Ok None in
  let? upstream := passthrough_headers hs UPSTREAM_HEADER_ALLOWLIST in
  Ok (mkChatHeaders sid w auth upstream).

Definition chat_identity (d : Draws) (hs : HeaderMap) (hint : option AgentIdentity) : P St AgentIdentity :=
  match hint with
  | Some i => pret i
  | None =>
      audited (resolve_identity app (d_validate_ms d / 1000) (d_authorize_ms d / 1000) hs (Some (chat_scope app)))
        (audit_authentication_error d hs)
  end.

(** The refusal of a closed session. *)
Definition closed_refusal (s : Session) : PipelineError :=
  if capture_failed s then
    BadRequest (lit "session is quarantined (audit capture failed); use a new session id")
  else if is_empty_unsigned_quarantine s then
    BadRequest (lit "session is quarantined (closed with no captured steps); use a new session id")
  else if close_complete_flag s && enforcement_tripped s then
    TokenRoutes.Blocked (lit "session was closed by budget or loop enforcement; use a new session id")
  else Unavailable (lit "session close is completing; retry shortly or use a new session id").

Definition capture_incomplete : PipelineError := Unavailable (lit "session audit capture is incomplete").

(** Binding an opened session to its caller: [caller] is absent where the identity
    was resolved without one. *)
Definition bind_caller (a : addr) (caller : option AuthenticatedCaller) : P St unit := fun sv =>
  match caller with
  | None => (sv, Ok tt)
  | Some c =>
      let '(s, r) := bind_session c (session_of a sv) in
      (on_session_at (fun _ => s) a sv, r)
  end.

(** [open]: [get_or_open] or its strict variant; [refusal]: what a closed session
    answers. *)
Definition enter_session
    (open : str -> str -> Z -> Z -> str -> Workflow.t -> AgentIdentity -> Breaker.BreakerConfig -> World -> World * addr)
    (refusal : Session -> PipelineError) (d : Draws) (sid : str) (w : Workflow.t) (i : AgentIdentity)
    (caller : option AuthenticatedCaller) : P St addr :=
  let^ a := (fun sv =>
    let '(world, a) := open (d_scope_uid d) (d_trajectory_uid d) (d_open d).1 (d_open d).2 sid w i (breaker app)
                         (sv_world sv) in
    (sv<|sv_world := world|>, Ok a)) in
  let^ s := (fun sv => (sv, Ok (session_of a sv))) in
  pof (validate_session_binding s w i) ;^
  bind_caller a caller ;^
  pdo (on_session_at (fun s => refresh_identity s i) a) ;^
  let^ s := (fun sv => (sv, Ok (session_of a sv))) in
  pwhen (is_closed s) (refusal s) ;^
  pwhen (capture_failed s) capture_incomplete ;^
  pdo (on_session_at (touch (d_touch d).1 (d_touch d).2) a) ;^
  pret a.

Definition breaker_open (s : Session) : bool :=
  match Breaker.state (loop_state s).2 with Breaker.Open => true | Breaker.Closed => false end.

Definition breaker_action (s : Session) : Breaker.BreakerAction := Breaker.cfg_action (loop_state s).1.

Definition reset_breaker (s : Session) : Session := s<|loop_state := ((loop_state s).1, Breaker.reset (loop_state s).2)|>.

Definition latch (r : StopReason.t) : addr -> Server St -> Server St :=
  on_session_at (fun s => latch_enforcement s r).

Definition BREAKER_OPEN : str := lit "semantic loop circuit breaker is open".

(** An open breaker refuses the request, or has it corrected and is reset. *)
Definition breaker_gate (a : addr) (payload : Value) : P St Value := fun sv =>
  let s := session_of a sv in
  if negb (breaker_open s) then (sv, Ok payload)
  else match breaker_action s with
       | Breaker.Reject =>
           (latch StopReason.LoopDetected a sv, Err (TokenRoutes.Blocked BREAKER_OPEN))
       | Breaker.Abort =>
           (latch StopReason.LoopDetected a sv,
            Err (Abort (lit "semantic loop circuit breaker requested connection close")))
       | Breaker.Inject =>
           match inject_corrective_message payload with
           | Err e => (sv, Err e)
           | Ok payload => (on_session_at reset_breaker a sv, Ok payload)
           end
       end.

(** A pool operation that may refuse. *)
Definition reserve {A} (f : Pool.t -> Pool.t * result A SubmitError) : P St A := fun sv =>
  let '(h, r) := f (sv_pool sv) in
  (sv<|sv_pool := h|>, map_err (fun e => Unavailable (submit_error_to_string e)) r).

(** A refusal after the reservation: the failure is recorded through the worker slot
    of shard [i], and the response slot returned. *)
Definition refuse_reserved {A} (i : nat) (a : addr) (who : AgentIdentity) (stop_reason : StopReason.t)
    (e : PipelineError) : P St A := fun sv =>
  let job := failure_job a (workflow (session_of a sv)) who stop_reason (pipeline_error_to_string e) in
  (on_pool Pool.drop_response_permit (submit_reserved i job sv), Err e).

Definition compressed (payload : Value) : CompressionOutcome :=
  let raw := approx_tokens_json payload in
  if compression_enabled app then
    compress default_hash payload
      (default_compression_config<|marker_key := Some (derive_marker_key (app_journal_key app))|>)
  else mkOutcome payload raw raw false.

Definition admission_job (a : addr) (who : AgentIdentity) (o : CompressionOutcome) (text : str) (capture : AtifCapture)
    (attempt : str) : WorkerJob :=
  {| wj_session := a; wj_identity := who; wj_class := EventClass.Compression;
     wj_payload := Object (member "changed" (Bool (out_changed o)) ++ member "tokens_before" (ser_u (tokens_before o))
                           ++ member "tokens_after" (ser_u (tokens_after o)));
     wj_text := text;
     wj_analyze_loop := bool_decide (ac_source capture = Atif.AgentSource) && negb (str_eqb text []);
     wj_status := StatusId.Success; wj_stop_reason := None; wj_native_stop_reason := None;
     wj_metrics := mkMetrics (Some (tokens_after o)) (Some 0) (Some 0) (Some (pruned_tokens o))
                     (Some (pruning_ratio_millis o));
     wj_prompt_token_correction := 0; wj_cost_usd_micros := 0;
     wj_atif := Some capture; wj_response_marker := None;
     wj_response_attempt := Some (mkAttempt attempt false) |}.

(** The charge on both ledgers, or the refusal with the cap latched. *)
Definition charge_gate (i : nat) (a : addr) (sid : str) (who : AgentIdentity) (tokens : Z) : P St unit := fun sv =>
  match charge sid (principal_ledger who) tokens (sv_store sv) with
  | (st, None) => (sv<|sv_store := st|>, Ok tt)
  | (st, Some (capped, e)) =>
      let sv := sv<|sv_store := st|> in
      refuse_reserved i a who StopReason.BudgetExceeded e (if capped then latch StopReason.BudgetExceeded a sv else sv)
  end.

(** The step of the request, or the refusal with both debits returned. *)
Definition capture_gate (d : Draws) (i : nat) (a : addr) (sid : str) (who : AgentIdentity) (o : CompressionOutcome)
  : P St AtifCapture := fun sv =>
  match atif_capture_from_request (d_call_uid d) (out_payload o) with
  | Ok capture => (sv, Ok capture)
  | Err e =>
      refuse_reserved i a who StopReason.Other e
        (on_store (refund_both sid (budget app) (principal_ledger who) (tokens_after o)) sv)
  end.

Definition prepare_chat_with_caller (d : Draws) (hs : HeaderMap) (payload : Value) (hint : option AgentIdentity)
    (caller : option AuthenticatedCaller) : P St PreparedRequest :=
  let^ h := pof (chat_headers d hs payload) in
  let sid := ch_session_id h in
  let^ who := chat_identity d hs hint in
  let^ a := enter_session Registry.get_or_open closed_refusal d sid (ch_workflow h) who caller in
  let^ payload := breaker_gate a payload in
  let^ i := reserve (Pool.try_reserve_pair sid) in
  match sanitize (app_sandbox app) (lit "chat/completions") payload with
  | Err reason => refuse_reserved i a who StopReason.PolicyBlocked (TokenRoutes.Blocked reason)
  | Ok _ =>
      let o := compressed payload in
      charge_gate i a sid who (tokens_after o) ;^
      let^ capture := capture_gate d i a sid who o in
      pdo (submit_reserved i (admission_job a who o (last_message_text (out_payload o)) capture (d_attempt_uid d))) ;^
      pdo (on_session_at lease_new a) ;^
      let^ s := (fun sv => (sv, Ok (session_of a sv))) in
      pret {| pr_session := a; pr_identity := who; pr_payload := out_payload o;
              pr_admission_debit := mkDebit (id s) (budget app) (principal_ledger who) (tokens_after o);
              pr_capture_guard := guard_new a who (d_attempt_uid d) true;
              pr_client_authorization := ch_client_authorization h;
              pr_upstream_passthrough_headers := ch_upstream h |}
  end.

Definition prepare_chat (d : Draws) (hs : HeaderMap) (payload : Value) (hint : option AgentIdentity)
  : P St PreparedRequest := prepare_chat_with_caller d hs payload hint None.

(** ** Callers already authenticated *)

(** [authenticate_chat_nonblocking]: the caller, once its scope was checked. *)
Definition authenticate_chat (d : Draws) (hs : HeaderMap) : result AuthenticatedCaller PipelineError :=
  let? caller := authenticate app (d_validate_ms d / 1000) hs in
  let? _ := authorize app caller (d_authorize_ms d / 1000) (Some (chat_scope app)) in
  Ok caller.

Definition prepare_authenticated_chat (d : Draws) (hs : HeaderMap) (payload : Value) (caller : AuthenticatedCaller)
  : P St PreparedRequest :=
  let^ who := pof (authorize app caller (d_authorize_ms d / 1000) (Some (chat_scope app))) in
  prepare_chat_with_caller d hs payload (Some who) (Some caller).

Definition chat_preparation_can_run_inline (body_bytes : Z) : bool :=
  (body_bytes <=? 16 * 1024) && bool_decide (max_tokens (budget app) = None)
  && match principal_budget app with None => true | Some _ => false end.

(** ** Ending a prepared request *)

(** The permit is taken before the guard is defused; without one the guard stays armed
    and resolves the attempt when it is dropped. *)
Definition abandon_prepared (pr : PreparedRequest) (stop_reason : StopReason.t) (reason : str) (sv : Server St)
  : Server St * PreparedRequest :=
  let '(sv, ad) := refund_now (pr_admission_debit pr) sv in
  let pr := pr<|pr_admission_debit := ad|> in
  let '(g, permit) := take_permit (pr_capture_guard pr) in
  if negb permit then (sv, pr<|pr_capture_guard := g|>)
  else
    let '(g, marker) := defuse g in
    let job := resolving marker (rg_attempt_id g)
                 (failure_job (pr_session pr) (workflow (session_of (pr_session pr) sv)) (pr_identity pr)
                    stop_reason reason) in
    (submit_or_fail_closed Pool.submit_response job sv, pr<|pr_capture_guard := g|>).

(** Abandoned and then dropped, with the error to return. *)
Definition abandon {A} (pr : PreparedRequest) (stop_reason : StopReason.t) (e : PipelineError) : P St A := fun sv =>
  let '(sv, pr) := abandon_prepared pr stop_reason (pipeline_error_to_string e) sv in
  (drop_prepared pr sv, Err e).

Definition opened_during_audit (act : Breaker.BreakerAction) : PipelineError :=
  match act with
  | Breaker.Abort => Abort (lit "semantic loop circuit breaker opened during audit")
  | _ => TokenRoutes.Blocked (lit "semantic loop circuit breaker opened during audit; retry required")
  end.

(** [awaited] is what runs while the session's jobs are awaited. *)
Definition prepare_chat_durable (awaited : addr -> Server St -> Server St) (d : Draws) (hs : HeaderMap)
    (payload : Value) : P St PreparedRequest :=
  let^ known := (fun sv => (sv, Ok (match session_id (d_probe_uid d) hs with
                                    | Ok sid => Registry.get (sv_world sv) sid
                                    | Err _ => None
                                    end))) in
  (match known with
   | None => pret tt
   | Some a =>
       pdo (awaited a) ;^
       fun sv => pwhen (capture_failed (session_of a sv)) capture_incomplete sv
   end) ;^
  let^ pr := prepare_chat d hs payload None in
  let a := pr_session pr in
  pdo (awaited a) ;^
  fun sv =>
    let s := session_of a sv in
    if capture_failed s then
      abandon pr StopReason.Other (Unavailable (lit "request audit capture failed before provider dispatch")) sv
    else if breaker_open s then
      let act := breaker_action s in
      abandon pr StopReason.LoopDetected (opened_during_audit act)
        (if terminal_action act then latch StopReason.LoopDetected a sv else sv)
    else (sv, Ok pr).

(** ** Forwarding *)

Inductive Sent :=
| Responded (status : Z)
| SendFailed (e : SendError).

(** A step of the spool, under the session at [a]. *)
Definition on_spool {A} (a : addr) (m : W A) (sv : Server St) : Server St * result A WorkerError :=
  let '(ws, r) := m (mkWS (session_of a sv) (sv_spool sv) [] [] (sv_ticks sv) (sv_draws sv)) in
  (sv<|sv_spool := ws_spool ws|><|sv_ticks := ws_ticks ws|><|sv_draws := ws_draws ws|>, r).

(** The guard is given the marker before it is written. *)
Definition arm_marker (d : Draws) (pr : PreparedRequest) : PreparedRequest :=
  pr<|pr_capture_guard := set_marker (pr_capture_guard pr) (d_marker_uid d)|>.

Definition write_marker (d : Draws) (pr : PreparedRequest) (sv : Server St) : Server St * result unit WorkerError :=
  on_spool (pr_session pr)
    (write_response_marker env wcfg (id (session_of (pr_session pr) sv)) (d_marker_uid d)
       (sha256_hex (as_bytes (to_string (pr_payload pr))))) sv.

(** The configured credential goes upstream, else the client's own in passthrough
    mode, after the headers of the allowlist. *)
Definition upstream_request (pr : PreparedRequest) : UpstreamRequest :=
  mkUpstream (pr_payload pr)
    (pr_upstream_passthrough_headers pr
     ++ match app_upstream_auth app with
        | Some named => [named]
        | None => match pr_client_authorization pr with
                  | Some v => [(lit "authorization", v)]
                  | None => []
                  end
        end).

Definition send_refusal (e : SendError) : PipelineError :=
  let reason := classify_upstream_error e in
  if is_timeout e then UpstreamTimeout reason else Upstream reason.

(** After a failed send: the debit is refunded when the request cannot have left, and
    the attempt closed through the response slot. *)
Definition send_failed (pr : PreparedRequest) (tokens : Z) (e : SendError) : P St ForwardedResponse := fun sv =>
  let a := pr_session pr in
  let who := pr_identity pr in
  let reason := lit "upstream_" ++ classify_upstream_error e in
  let sv := if is_connect e
            then on_store (refund_both (id (session_of a sv)) (budget app) (principal_ledger who) tokens) sv
            else sv in
  let '(g, permit) := take_permit (pr_capture_guard pr) in
  if permit then
    let job := resolving (rg_marker g) (rg_attempt_id g)
                 (failure_job a (workflow (session_of a sv)) who StopReason.Other reason) in
    (drop_lease a (submit_or_fail_closed Pool.submit_response job sv), Err (send_refusal e))
  else
    match enqueue_failure a who StopReason.Other reason (drop_guard g sv) with
    | (sv, Ok _) => (drop_lease a sv, Err (send_refusal e))
    | (sv, Err e') => (drop_lease a sv, Err e')
    end.

Definition forward_chat (d : Draws) (send : UpstreamRequest -> Sent) (pr : PreparedRequest)
  : P St ForwardedResponse := fun sv =>
  let pr := arm_marker d pr in
  match write_marker d pr sv with
  | (sv, Err _) =>
      abandon pr StopReason.Other (Unavailable (lit "in-flight response marker could not be persisted")) sv
  | (sv, Ok _) =>
      let '(ad, tokens) := take_for_dispatch (pr_admission_debit pr) in
      match send (upstream_request pr) with
      | Responded status => (sv, Ok (mkForwarded (pr_session pr) status tokens (pr_capture_guard pr)))
      | SendFailed e => send_failed (pr<|pr_admission_debit := ad|>) tokens e sv
      end
  end.

(** The two awaits of [forward_chat] at which its future may be dropped: the write of
    the marker, which still runs, and the send. *)
Definition cancelled_at_write (d : Draws) (pr : PreparedRequest) (sv : Server St) : Server St :=
  let pr := arm_marker d pr in
  drop_prepared pr (write_marker d pr sv).1.

Definition cancelled_at_send (d : Draws) (pr : PreparedRequest) (sv : Server St) : Server St :=
  let pr := arm_marker d pr in
  drop_prepared (pr<|pr_admission_debit := (take_for_dispatch (pr_admission_debit pr)).1|>) (write_marker d pr sv).1.

(** ** Tool calls *)

Definition refuse_unauthenticated_tool_call (d : Draws) (hs : HeaderMap) : P St unit :=
  if negb (require_identity app) then pret tt
  else
    let^ auth := pof (header hs (lit "authorization")) in
    match auth with
    | Some _ => pret tt
    | None =>
        let^ sid := pof (session_id (d_session_uid d) hs) in
        enqueue_transient_failure d sid StopReason.IdentityRejected (pipeline_error_to_string missing_bearer) ;^
        pfail missing_bearer
    end.

Definition pdp_policy_name (c : DenialCode) : str :=
  match c with
  | UnmappedTool => lit "pdp.intent_map"
  | MissionExpired | MissionDenied => lit "pdp.mission"
  | PdpDenied => lit "pdp.authzen"
  | _ => lit "pdp"
  end.

(** A veto before the budget is spent. *)
Definition veto (req : ToolCallRequest) (policy : str) (code : DenialCode) (reason : str) : ToolVerdict :=
  Sandbox.Blocked (req_tool req) (lit "policy") (Some policy) code reason (denial_error (req_id req) code reason) 0.

Definition signed_required (req : ToolCallRequest) : ToolVerdict :=
  veto req (lit "workflow.signed_required") PolicyDenied
    (lit "tool " ++ fmt_debug (req_tool req) ++ lit " requires a signed workflow").

Definition consequential (tool : str) : bool := existsb (fun required => str_eqb required tool) (consequential_tools app).

Definition budgeted_check (d : Draws) (sid : str) (who : AgentIdentity) (raw : list Z) (sv : Server St)
  : Server St * ToolVerdict :=
  let '(st, v) := check_with_principal (app_sandbox app) (sv_store sv) sid (principal_ledger who) raw (d_elapsed_us d) in
  (sv<|sv_store := st|>, v).

(** The verdict: a denial handed in, the workflow veto, the decision point, and last
    the sandbox, which spends. *)
Definition tool_verdict (d : Draws) (sid : str) (w : Workflow.t) (who : AgentIdentity) (caller : AuthenticatedCaller)
    (raw : list Z) (parsed : option ToolCallRequest) (preflight : option ToolVerdict) (sv : Server St)
  : Server St * ToolVerdict :=
  match preflight with
  | Some denial => (sv, denial)
  | None =>
      match parsed with
      | None => budgeted_check d sid who raw sv
      | Some req =>
          if bool_decide (w = Workflow.Unsigned) && consequential (req_tool req) then (sv, signed_required req)
          else match decide_for (app_pdp app) (req_tool req) (d_decide_ms d / 1000) (facts caller) with
               | Deny code reason => (sv, veto req (pdp_policy_name code) code reason)
               | Permit _ => budgeted_check d sid who raw sv
               end
      end
  end.

Definition verdict_record (v : ToolVerdict) : StatusId.t * Value :=
  match v with
  | ToolAllowed tool remaining elapsed _ _ =>
      (StatusId.Success,
       Object (member "tool" (JString tool) ++ member "allowed" (Bool true)
               ++ member "budget_remaining" (if remaining =? u64_max then Null else ser_u remaining)
               ++ member "budget_unlimited" (Bool (remaining =? u64_max))
               ++ member "decision_us" (ser_u elapsed)))
  | Sandbox.Blocked tool stage policy code reason _ elapsed =>
      (StatusId.Failure,
       Object (member "tool" (JString tool) ++ member "allowed" (Bool false) ++ member "stage" (JString stage)
               ++ member "policy" (ser_opt JString policy) ++ member "denial_code" (JString (denial_as_str code))
               ++ member "reason" (JString reason) ++ member "decision_us" (ser_u elapsed)))
  end.

Definition verdict_stop_reason (v : ToolVerdict) : option StopReason.t :=
  match v with
  | ToolAllowed _ _ _ _ _ => None
  | Sandbox.Blocked _ stage _ _ _ _ _ =>
      Some (if str_eqb stage (lit "budget") then StopReason.BudgetExceeded else StopReason.PolicyBlocked)
  end.

Definition tool_job (d : Draws) (a : addr) (who : AgentIdentity) (raw : list Z) (parsed : option ToolCallRequest)
    (v : ToolVerdict) : WorkerJob :=
  let '(status, payload) := verdict_record v in
  let call_id :=
    match parsed ≫= req_id with
    | Some value => match as_str value with Some s => s | None => to_string value end
    | None => d_tool_uid d
    end in
  let calls := (fun req => [Atif.mkToolCall call_id (req_tool req) (req_arguments req) None]) <$> parsed in
  let observation :=
    (fun _ => Atif.mkObservation [Atif.mkObservationResult (Some call_id) (Some (JString (to_string payload))) None None])
      <$> parsed in
  {| wj_session := a; wj_identity := who; wj_class := EventClass.ToolCall; wj_payload := payload;
     wj_text := utf8_lossy raw; wj_analyze_loop := false; wj_status := status;
     wj_stop_reason := verdict_stop_reason v; wj_native_stop_reason := None; wj_metrics := metrics_default;
     wj_prompt_token_correction := 0; wj_cost_usd_micros := 0;
     wj_atif := Some (mkCapture Atif.AgentSource (JString (lit "MCP tool authorization decision")) None None calls
                        observation (Some 0));
     wj_response_marker := None; wj_response_attempt := None |}.

(** An open breaker stops tools only under the actions that stop the agent. *)
Definition tool_breaker_gate (a : addr) : P St unit := fun sv =>
  let s := session_of a sv in
  if breaker_open s && terminal_action (breaker_action s)
  then (latch StopReason.LoopDetected a sv, Err (TokenRoutes.Blocked BREAKER_OPEN))
  else (sv, Ok tt).

Definition already_closed : PipelineError := BadRequest (lit "session is already closed").

Definition intercept_tool_authenticated (d : Draws) (hs : HeaderMap) (raw : list Z) (caller : AuthenticatedCaller)
    (preflight : option ToolVerdict) : P St (ToolVerdict * addr) :=
  let^ sid := pof (session_id (d_session_uid d) hs) in
  let^ w := pof (workflow_of hs (default_workflow app)) in
  let parsed := match parse_tool_call raw with Ok req => Some req | Err _ => None end in
  let scope := match parsed with Some req => tool_scope (req_tool req) | None => TOOL_INVOKE_SCOPE end in
  let^ who := audited (authorize app caller (d_authorize_ms d / 1000) (Some scope))
                (fun e => enqueue_transient_failure d sid StopReason.IdentityRejected (pipeline_error_to_string e)) in
  let^ a := enter_session Registry.get_or_open_no_reopen (fun _ => already_closed) d sid w who (Some caller) in
  tool_breaker_gate a ;^
  let^ i := reserve (Pool.try_reserve sid) in
  let^ v := (fun sv => let '(sv, v) := tool_verdict d sid w who caller raw parsed preflight sv in (sv, Ok v)) in
  pdo (submit_reserved i (tool_job d a who raw parsed v)) ;^
  pret (v, a).

Definition intercept_tool_with_session (d : Draws) (hs : HeaderMap) (raw : list Z) : P St (ToolVerdict * addr) :=
  let^ caller := audited (authenticate app (d_validate_ms d / 1000) hs) (audit_authentication_error d hs) in
  intercept_tool_authenticated d hs raw caller None.

Definition intercept_tool (d : Draws) (hs : HeaderMap) (raw : list Z) : P St ToolVerdict :=
  let^ (v, _) := intercept_tool_with_session d hs raw in pret v.

Definition intercept_tool_durable (awaited : addr -> Server St -> Server St) (d : Draws) (hs : HeaderMap)
    (raw : list Z) : P St ToolVerdict :=
  let^ (v, a) := intercept_tool_with_session d hs raw in
  pdo (awaited a) ;^
  fun sv => if capture_failed (session_of a sv)
            then (sv, Err (Unavailable (lit "tool authorization audit capture failed")))
            else (sv, Ok v).

(** [lease_session]: the session leased. *)
Definition lease_session (d : Draws) (hs : HeaderMap) : P St addr :=
  let^ sid := pof (session_id (d_session_uid d) hs) in
  fun sv =>
    match Registry.get (sv_world sv) sid with
    | None => (sv, Err (BadRequest (lit "unknown session")))
    | Some a =>
        match try_lease (session_of a sv) with
        | None => (sv, Err already_closed)
        | Some s => (on_session_at (fun _ => s) a sv, Ok a)
        end
    end.
End Pipeline.
