(* ===== verification/AuthzProofs.v ===== *)
(** Properties of authorization in the harness: a call is permitted exactly when every
    mission that applies to its caller permits it, an intent token never outlives one,
    and a resolved identity was earned with a validated token. *)

From S2P Require Import Prelude Rust CoreBase Json Core Identity Validator IdentityProofs Rpc Budget Serde Events Exchange.
From S2P Require Import BudgetProofs ExchangeProofs TokenRoutes LoopDetect Sandbox SandboxProofs Atif Session Authz.

(** * Scopes *)

(** The request pipeline reads scopes as the delegation validator does. *)
Lemma scope_allows_covered scopes required : scope_allows scopes required = scope_covered_by required scopes.
Proof.
  unfold scope_allows. rewrite <- existsb_covers. induction scopes as [|s l IH]; [done|].
  cbn [existsb]. by rewrite IH.
Qed.

(** * Missions *)

(** A mission lets an intent through at a time. *)
Definition admits (intent : str) (now_s : Z) (m : MissionConfig) : Prop :=
  now_s < ms_expires_at m /\ intent ∈ ms_allowed_intents m.

Section Missions.
Context {UT : UnicodeTables}.

Lemma existsb_eqb x l : existsb (fun y => str_eqb y x) l = true <-> x ∈ l.
Proof.
  rewrite existsb_exists. split.
  - intros (y & Hy & He). apply str_eqb_eq in He as ->. by apply list_elem_of_In.
  - intros Hx. exists x. split; [by apply list_elem_of_In|]. by apply str_eqb_eq.
Qed.

Lemma mission_refusal_None intent now_s ms :
  mission_refusal intent now_s ms = None <-> Forall (admits intent now_s) ms.
Proof.
  induction ms as [|m ms IH]; cbn; [by split|]. rewrite Forall_cons, <- IH. unfold admits.
  rewrite <- existsb_eqb.
  destruct (now_s >=? ms_expires_at m) eqn:E; b2p; [split; [done|lia]|].
  destruct (existsb _ _) eqn:Ei; cbn; [|split; [done|by intros [[_ ?] _]]].
  split; [intros H; split_and!; [lia|done|done]|tauto].
Qed.

Lemma decide_for_Permit p tool now_s c i : decide_for p tool now_s c = Permit i <->
  i = intent_for p tool /\ (pd_require_mapping p = true -> is_Some (pd_intent_map p !! tool)) /\
  Forall (admits i now_s) (applicable_missions p c).
Proof.
  unfold decide_for, intent_for. destruct (pd_intent_map p !! tool) as [j|] eqn:Ej; cbn.
  - destruct (mission_refusal j now_s (applicable_missions p c)) as [[code reason]|] eqn:E.
    + split; [done|]. intros (-> & _ & H). apply mission_refusal_None in H. congruence.
    + apply mission_refusal_None in E. split; [intros [= <-]; by split_and!|]. by intros (-> & _).
  - destruct (pd_require_mapping p).
    + split; [done|]. intros (_ & H & _). by destruct (H eq_refl).
    + destruct (mission_refusal tool now_s (applicable_missions p c)) as [[code reason]|] eqn:E.
      * split; [done|]. intros (-> & _ & H). apply mission_refusal_None in H. congruence.
      * apply mission_refusal_None in E. split; [intros [= <-]; by split_and!|]. by intros (-> & _).
Qed.

Lemma fold_min_le l n : fold_left Z.min l n <= n /\ Forall (fun x => fold_left Z.min l n <= x) l.
Proof.
  revert n. induction l as [|x l IH]; intros n; cbn; [split; [lia|done]|].
  destruct (IH (Z.min n x)) as [H1 H2]. split; [lia|]. constructor; [lia|done].
Qed.
End Missions.

Definition with_mission (p : PolicyDecisionPoint) (m : MissionConfig) : PolicyDecisionPoint :=
  p<|pd_missions := pd_missions p ++ [m]|>.

(** Missions only narrow.  A tool call is permitted exactly when its tool is mapped
    (or needs no mapping) and every mission that applies to its caller is unexpired and
    lists the intent, the intent then being that of the map or the tool's name; adding
    a mission permits nothing that was not permitted; and an intent token for the call
    expires with its time to live and with every mission that applied. *)
Theorem missions_only_narrow {UT : UnicodeTables} (p : PolicyDecisionPoint) (tool : str) (now_s : Z)
    (c : CallerFacts) :
  (forall i, decide_for p tool now_s c = Permit i <->
     i = intent_for p tool /\ (pd_require_mapping p = true -> is_Some (pd_intent_map p !! tool)) /\
     Forall (admits i now_s) (applicable_missions p c)) /\
  (forall m i, decide_for (with_mission p m) tool now_s c = Permit i -> decide_for p tool now_s c = Permit i) /\
  (forall audience jti, let claims := intent_claims p tool (intent_for p tool) c audience now_s jti in
     ic_exp claims <= sat_add now_s (pd_intent_token_ttl_s p) /\
     Forall (fun m => ic_exp claims <= ms_expires_at m) (applicable_missions p c) /\
     ic_missions claims = map ms_id (applicable_missions p c)).
Proof.
  split_and!; [intros i; apply decide_for_Permit| |].
  - intros m i. rewrite !decide_for_Permit. intros (-> & Hm & Hf). split_and!; [done|done|].
    revert Hf. unfold applicable_missions, with_mission. cbn [pd_mission pd_missions].
    change (pd_mission (p<|pd_missions := pd_missions p ++ [m]|>)) with (pd_mission p).
    change (pd_missions (p<|pd_missions := pd_missions p ++ [m]|>)) with (pd_missions p ++ [m]).
    rewrite List.filter_app, !Forall_app. tauto.
  - intros audience jti claims. subst claims. cbn [ic_exp ic_missions intent_claims].
    destruct (fold_min_le (map ms_expires_at (applicable_missions p c))
                (sat_add now_s (pd_intent_token_ttl_s p))) as [H1 H2].
    split_and!; [done| |done]. rewrite Forall_map in H2. exact H2.
Qed.

(** * Callers *)

Section Callers.
Context {UT : UnicodeTables} {TL : TokenLibs} {SHA : Sha256} {SJ : SerdeJson} {JS : JsonSchema}.
Implicit Types app : App.

(** How long a token is honoured. *)
Definition leeway_of app : Z := match app_identity app with Some (cfg, _) => leeway_secs cfg | None => 0 end.

(** Where the configuration gives the client's bearer another meaning. *)
Definition bearer_not_identity app : bool :=
  upstream_authorization_passthrough app
  || bool_decide (is_Some (upstream_api_key_env app)) || bool_decide (is_Some (upstream_api_key_file app))
  || ignore_client_authorization app.

Lemma check_scope_ok app c scope : check_scope app c scope = Ok tt ->
  enforce_identity_scopes app = true -> forall s, scope = Some s -> scope_covered_by s (scopes c) = true.
Proof.
  unfold check_scope. intros H He s ->. rewrite He, scope_allows_covered in H.
  by destruct (scope_covered_by s (scopes c)).
Qed.

Lemma authorize_ok app c now_s scope i : authorize app c now_s scope = Ok i ->
  ag_instance_uid i = ag_instance_uid (ca_identity c) /\ ag_charter i = ag_charter (ca_identity c) /\
  ag_version i = ag_version (ca_identity c) /\
  match ca_validated c with
  | Some v =>
      now_s <= sat_add (exp (vi_claims v)) (leeway_of app) /\
      ag_ttl_remaining_s i = Some (sat_sub (exp (vi_claims v)) now_s) /\
      (enforce_identity_scopes app = true -> forall s, scope = Some s ->
         scope_covered_by s (scopes (vi_claims v)) = true)
  | None => i = ca_identity c
  end.
Proof.
  unfold authorize. destruct (ca_validated c) as [v|]; [|by intros [= ->]]. fold (leeway_of app).
  destruct (now_s >? _) eqn:E; [done|]. b2p. destruct (check_scope app (vi_claims v) scope) as [[]|] eqn:Es; [|done].
  cbn. intros [= <-]. cbn. split_and!; try done. by apply check_scope_ok.
Qed.

Lemma resolve_anonymous_None app now_s hs i : app_identity app = None \/ bearer_of hs = Ok None ->
  resolve_anonymous_identity app now_s hs None = Ok i ->
  i = anonymous_identity /\
  (bearer_of hs = Ok None /\ require_identity app = false \/
   app_identity app = None /\ bearer_not_identity app = true).
Proof.
  unfold resolve_anonymous_identity, bearer_not_identity. intros Hn.
  destruct (bearer_of hs) as [[token|]|] eqn:Eb; cbn; [|destruct (require_identity app); [done|];
    intros [= <-]; by auto|done].
  destruct (app_identity app) as [[cfg ks]|]; [by destruct Hn|].
  destruct (upstream_authorization_passthrough app); cbn; [intros [= <-]; by auto|].
  destruct (_ || _) eqn:E; [|done]. intros [= <-]. split; [done|]. by right.
Qed.
End Callers.

(** A resolved identity was earned.  When the pipeline resolves an identity, either
    the request bore a token the validator accepted, which is still within its lifetime
    when authorized, covers the required scope where scopes are enforced, and names the
    agent, its charter and version; or the identity is the anonymous one, and either no
    bearer came and none is required, or no validator is configured and the
    configuration gives the client's bearer another meaning. *)
Theorem resolved_identity_is_earned {UT : UnicodeTables} {TL : TokenLibs} {JS : JsonSchema} (app : App)
    (now_v now_a : Z) (hs : HeaderMap) (scope : option str) (i : AgentIdentity) :
  resolve_identity app now_v now_a hs scope = Ok i ->
  (exists token cfg ks v,
     bearer_of hs = Ok (Some token) /\ app_identity app = Some (cfg, ks) /\ validate cfg ks now_v token = Ok v /\
     now_a <= sat_add (exp (vi_claims v)) (leeway_secs cfg) /\
     (enforce_identity_scopes app = true -> forall s, scope = Some s ->
        scope_covered_by s (scopes (vi_claims v)) = true) /\
     ag_instance_uid i = instance_uid (vi_claims v) /\ ag_charter i = charter_of (charter (vi_claims v)) /\
     ag_version i = version (vi_claims v)) \/
  (i = anonymous_identity /\
   (bearer_of hs = Ok None /\ require_identity app = false \/
    app_identity app = None /\ bearer_not_identity app = true)).
Proof.
  unfold resolve_identity, authenticate. destruct (bearer_of hs) as [[token|]|] eqn:Eb; [| |done].
  - destruct (app_identity app) as [[cfg ks]|] eqn:Ei.
    + destruct (validate cfg ks now_v token) as [v|] eqn:Ev; [|done]. intros H. left.
      change (authorize app (mkCaller (agent_identity v) (Some v)) now_a scope = Ok i) in H.
      apply authorize_ok in H as (H1 & H2 & H3 & H4 & _ & H5). exists token, cfg, ks, v.
      unfold leeway_of in H4. rewrite Ei in H4. by split_and!.
    + destruct (resolve_anonymous_identity app now_v hs None) as [i'|] eqn:Er; cbn; [|done]. intros [= <-].
      right. pose proof (resolve_anonymous_None app now_v hs i' (or_introl Ei) Er) as H.
      rewrite Eb, Ei in H. exact H.
  - destruct (resolve_anonymous_identity app now_v hs None) as [i'|] eqn:Er; cbn; [|done]. intros [= <-].
    right. pose proof (resolve_anonymous_None app now_v hs i' (or_intror Eb) Er) as H. rewrite Eb in H. exact H.
Qed.

(** * A concrete gateway *)

Module AuthzSample.

Definition decision_point : PolicyDecisionPoint :=
  mkPdp {[lit "db_write" := lit "write"]} false
    (Some (mkMission (lit "m1") [lit "write"] 2000 [] [] [])) [] 60 (lit "av").

(** A gateway with a validator, one mission, and the given budget for sessions, for
    principals and for tools. *)
Definition app (spec : BudgetSpec) : @App toy_schema :=
  @mkApp toy_schema (lit "signed") true true false None None false (lit "fs:read") Breaker.default_config spec
    (Some spec) false [lit "pay"] (Some (Sample.config, Sample.key_set)) (toy_sandbox spec) decision_point
    (replicate 32 9) None.

Definition text (s : str) : HeaderValue := mkHeaderValue s (Some s).

Definition headers : HeaderMap :=
  [(lit "authorization", text (lit "Bearer leaf")); (lit "x-av-session", text (lit "s-1"))].

Definition resolved : AgentIdentity :=
  mkAgentIdentity (lit "v1") (charter_of (lit "c")) (lit "u2") (Some 490).

Lemma resolves : @resolve_identity ascii_tables Sample.libs toy_schema (app sample_spec) 1200 1210 headers
  (Some (lit "fs:read")) = Ok resolved.
Proof. vm_compute. reflexivity. Qed.
End AuthzSample.

Lemma resolved_identity_is_earned_witness : exists cfg ks token v,
  @validate Sample.libs cfg ks 1200 token = Ok v /\ ag_instance_uid AuthzSample.resolved = instance_uid (vi_claims v).
Proof.
  destruct (@resolved_identity_is_earned ascii_tables Sample.libs toy_schema
    (AuthzSample.app sample_spec) 1200 1210 AuthzSample.headers (Some (lit "fs:read"))
    AuthzSample.resolved AuthzSample.resolves) as [(token & cfg & ks & v & _ & _ & Hv & _ & _ & Hu & _)|[H _]].
  - exists cfg, ks, token, v. split; [exact Hv|exact Hu].
  - discriminate H.
Defined.
