(* ===== verification/PipelineProofs.v ===== *)
(** What the request pipeline guarantees of one request: a refused one costs nothing,
    an admitted one is debited once on both ledgers and refunded once, it entered an
    open session of its own agent and principal, and an allowed tool call passed every
    gate. *)

From S2P Require Import Prelude Rust CoreBase Json Float LoopDetect Core Jcs Identity Validator Compress Rpc Store StoreProofs.
From S2P Require Import IdentityProofs CompressProofs RpcProofs Budget BudgetProofs Sandbox SandboxProofs Serde Events Journal Exchange ExchangeProofs TokenRoutes.
From S2P Require Import Atif Session SessionProofs Worker WorkerQueue Authz AuthzProofs ChatPayload Pipeline.

(** * The ledgers *)

Section Ledgers.
Context {SHA : Sha256} {St : Type} {UT : UnicodeTables} {ST : StateStore St} {SL : StateStoreLaws St}.

(** The token counter of a budget raised by [n], where tokens are capped. *)
Definition charge_tokens (b : ActionBudget) (n : Z) (L : str -> Z) : str -> Z :=
  match max_tokens (ab_spec b) with
  | Some _ => Contract.charge L [mkSpend (key b (lit "tokens")) n 0]
  | None => L
  end.

(** And within the cap. *)
Definition within_cap (b : ActionBudget) (n : Z) (L : str -> Z) : Prop :=
  forall cap, max_tokens (ab_spec b) = Some cap -> L (key b (lit "tokens")) + n <= cap.

(** A counter at or under its cap. *)
Definition capped (b : ActionBudget) (L : str -> Z) : Prop :=
  forall cap, max_tokens (ab_spec b) = Some cap -> L (key b (lit "tokens")) <= cap.

Definition principal_budget_of (p : option (str * BudgetSpec)) : list ActionBudget :=
  match p with Some (pid, spec) => [for_principal pid spec] | None => [] end.

(** Both ledgers charged, the principal's first. *)
Definition charge_both (sid : str) (b : BudgetSpec) (p : option (str * BudgetSpec)) (n : Z) (L : str -> Z) : str -> Z :=
  charge_tokens (for_session sid b) n (foldr (fun pb => charge_tokens pb n) L (principal_budget_of p)).

Lemma charge_tokens_at b n L k : charge_tokens b n L k =
  L k + (if decide (is_Some (max_tokens (ab_spec b)) /\ k = key b (lit "tokens")) then n else 0).
Proof.
  unfold charge_tokens. destruct (max_tokens (ab_spec b)) as [cap|].
  - unfold Contract.charge. rewrite filter_cons, filter_nil. cbn [sp_key].
    destruct (decide (key b (lit "tokens") = k)); case_decide; cbn; try lia; naive_solver.
  - case_decide as Hd; [|lia]. destruct Hd as [[? [=]] _].
Qed.

Lemma charge_tokens_ext b n L L' : L =L L' -> charge_tokens b n L =L charge_tokens b n L'.
Proof. intros H k. rewrite !charge_tokens_at. by rewrite (H k). Qed.

Lemma try_tokens_law s b n : st_wf s -> typed_budget b -> is_u64 n ->
  let '(s', r) := try_tokens s b n in
  st_wf s' /\
  match r with
  | Ok (Allowed _) => st_view s' =L charge_tokens b n (st_view s) /\ within_cap b n (st_view s)
  | _ => st_view s' =L st_view s
  end.
Proof. exact (try_tokens_spec s b n). Qed.

Lemma refund_tokens_law s b n : st_wf s -> is_u64 n ->
  st_wf (refund_tokens s b n) /\
  st_view (refund_tokens s b n) =L
    (if (n >? 0) && bool_decide (is_Some (max_tokens (ab_spec b)))
     then Contract.refund (st_view s) (key b (lit "tokens")) n else st_view s).
Proof.
  intros Hw Hn. unfold refund_tokens. destruct (_ && _); [|done]. by apply st_refund_law.
Qed.

(** A refund right after its charge. *)
Lemma refund_charged s b n L : st_wf s -> is_u64 n -> (forall k, 0 <= L k) ->
  st_view s =L charge_tokens b n L ->
  st_wf (refund_tokens s b n) /\ st_view (refund_tokens s b n) =L L.
Proof.
  intros Hw Hn HL Hv. destruct (refund_tokens_law s b n Hw Hn) as [Hw' Hr]. split; [done|]. rewrite Hr. intros k.
  assert (0 <= n) as H0 by apply Hn.
  destruct (n >? 0) eqn:En; b2p; cbn [andb].
  - destruct (decide (is_Some (max_tokens (ab_spec b)))) as [Hs|Hs].
    + rewrite bool_decide_eq_true_2 by done. unfold Contract.refund, Contract.upd, sat_sub.
      rewrite !(Hv _), !charge_tokens_at. specialize (HL (key b (lit "tokens"))).
      case_decide; subst; repeat case_decide; try lia; naive_solver lia.
    + rewrite bool_decide_eq_false_2 by done. rewrite (Hv k), charge_tokens_at. case_decide; [naive_solver|lia].
  - rewrite (Hv k), charge_tokens_at. case_decide; lia.
Qed.

Lemma view_nonneg s k : st_wf s -> 0 <= st_view s k.
Proof. intros H. by apply st_view_range. Qed.

Lemma charge_nonneg b n L : 0 <= n -> (forall k, 0 <= L k) -> forall k, 0 <= charge_tokens b n L k.
Proof. intros Hn HL k. rewrite charge_tokens_at. specialize (HL k). case_decide; lia. Qed.

Lemma refund_principal_charged s p n L : st_wf s -> is_u64 n -> (forall k, 0 <= L k) ->
  st_view s =L foldr (fun pb => charge_tokens pb n) L (principal_budget_of p) ->
  st_wf (refund_principal p n s) /\ st_view (refund_principal p n s) =L L.
Proof. intros Hw Hn HL Hv. destruct p as [[pid spec]|]; [by apply refund_charged|done]. Qed.

(** Taking back both charges. *)
Lemma refund_both_charged s sid b p n L : st_wf s -> is_u64 n -> (forall k, 0 <= L k) ->
  st_view s =L charge_both sid b p n L ->
  st_wf (refund_both sid b p n s) /\ st_view (refund_both sid b p n s) =L L.
Proof.
  intros Hw Hn HL Hv. unfold refund_both.
  destruct (refund_charged s (for_session sid b) n (foldr (fun pb => charge_tokens pb n) L (principal_budget_of p)) Hw Hn
    ltac:(destruct p as [[pid spec]|]; [apply charge_nonneg; [apply Hn|exact HL]|exact HL]) Hv) as [Hw1 H1].
  by apply refund_principal_charged.
Qed.

Lemma charge_within b n L : within_cap b n L -> capped b (charge_tokens b n L).
Proof.
  intros H cap Hc. rewrite charge_tokens_at, decide_True by (rewrite Hc; eauto). by apply H.
Qed.

Lemma capped_ext b L L' : L =L L' -> capped b L -> capped b L'.
Proof. intros H Hc cap E. rewrite <- (H _). by apply Hc. Qed.

Lemma capped_other sid b pid spec n L : capped (for_principal pid spec) L ->
  capped (for_principal pid spec) (charge_tokens (for_session sid b) n L).
Proof.
  intros H cap E. rewrite charge_tokens_at, decide_False; [rewrite Z.add_0_r; by apply H|].
  intros [_ Hk]. symmetry in Hk. by apply prefix_disjoint in Hk.
Qed.

Lemma charge_both_ext sid b p n L L' : L =L L' -> charge_both sid b p n L =L charge_both sid b p n L'.
Proof.
  intros H. apply charge_tokens_ext. destruct p as [[pid spec]|]; [by apply charge_tokens_ext|done].
Qed.

(** ** The charge *)

Section Charge.
Context {JS : JsonSchema} (app : App).

Lemma charge_session_law sid p n s L : st_wf s -> spec_typed (budget app) -> is_u64 n -> (forall k, 0 <= L k) ->
  st_view s =L foldr (fun pb => charge_tokens pb n) L (principal_budget_of p) ->
  let '(s', r) := charge_session app sid p n s in
  st_wf s' /\
  match r with
  | None => st_view s' =L charge_both sid (budget app) p n L /\
            capped (for_session sid (budget app)) (st_view s')
  | Some _ => st_view s' =L L
  end.
Proof.
  intros Hw Hb Hn HL Hv. unfold charge_session.
  pose proof (try_tokens_law s (for_session sid (budget app)) n Hw Hb Hn) as H.
  destruct (try_tokens s (for_session sid (budget app)) n) as [s1 [[post|limit cap]|e]]; destruct H as [Hw1 H1].
  - destruct H1 as [H1 Hc]. split_and!; [done|rewrite H1; by apply charge_tokens_ext|].
    eapply capped_ext; [|by apply charge_within]. by symmetry.
  - apply refund_principal_charged; [done|done|done|]. by rewrite H1.
  - apply refund_principal_charged; [done|done|done|]. by rewrite H1.
Qed.

Lemma charge_law sid p n s : st_wf s -> spec_typed (budget app) -> principal_typed p -> is_u64 n ->
  let '(s', r) := charge app sid p n s in
  st_wf s' /\
  match r with
  | None => st_view s' =L charge_both sid (budget app) p n (st_view s) /\
            Forall (fun b => capped b (st_view s')) (for_session sid (budget app) :: principal_budget_of p)
  | Some _ => st_view s' =L st_view s
  end.
Proof.
  intros Hw Hb Hp Hn. unfold charge. destruct p as [[pid spec]|].
  - pose proof (try_tokens_law s (for_principal pid spec) n Hw Hp Hn) as H.
    destruct (try_tokens s (for_principal pid spec) n) as [s1 [[post|limit cap]|e]]; destruct H as [Hw1 H1]; [|done..].
    destruct H1 as [H1 Hc].
    pose proof (charge_session_law sid (Some (pid, spec)) n s1 (st_view s) Hw1 Hb Hn
      (fun k => view_nonneg s k Hw) H1) as H2.
    destruct (charge_session app sid (Some (pid, spec)) n s1) as [s2 [r|]]; destruct H2 as [Hw2 H2]; [done|].
    destruct H2 as [H2 Hs]. split_and!; [done|done|]. constructor; [done|]. constructor; [|done].
    eapply capped_ext; [symmetry; exact H2|]. apply capped_other. by apply charge_within.
  - pose proof (charge_session_law sid None n s (st_view s) Hw Hb Hn (fun k => view_nonneg s k Hw)
      ltac:(by intros k)) as H.
    destruct (charge_session app sid None n s) as [s1 [r|]]; destruct H as [Hw1 H1]; [done|].
    split_and!; [done|apply H1|]. constructor; [apply H1|done].
Qed.
End Charge.
End Ledgers.

(** * Steps that leave the store alone *)

Section Frame.
Context {St : Type}.

Definition keeps_store {A} (m : P St A) : Prop := forall sv, sv_store (m sv).1 = sv_store sv.

Lemma keeps_store_bind {A B} (m : P St A) (k : A -> P St B) :
  keeps_store m -> (forall a, keeps_store (k a)) -> keeps_store (pbind m k).
Proof.
  intros Hm Hk sv. specialize (Hm sv). unfold pbind. destruct (m sv) as [sv' [a|e]]; [|done].
  cbn in Hm. by rewrite Hk, Hm.
Qed.

Lemma keeps_pure {A} (r : result A PipelineError) : keeps_store (pof r).
Proof. by intros sv. Qed.

Lemma keeps_look {A} (f : Server St -> result A PipelineError) : keeps_store (fun sv => (sv, f sv)).
Proof. by intros sv. Qed.

Lemma keeps_do f : (forall sv, sv_store (f sv) = sv_store sv) -> keeps_store (pdo f).
Proof. intros H sv. apply H. Qed.

Lemma keeps_store_when b e : keeps_store (@pwhen St b e).
Proof. intros sv. unfold pwhen. by destruct b. Qed.
End Frame.

Create HintDb frame discriminated.
#[export] Hint Resolve keeps_store_bind keeps_pure keeps_look keeps_do keeps_store_when : frame.

Section Requests.
Context {UT : UnicodeTables} {R : Ryu} {SHA : Sha256} {HM : HmacSha256} {SJ : SerdeJson} {JR : JsonReader}.
Context {TL : TokenLibs} {JS : JsonSchema} {DF : DisplayF64} {RS : RecordSerde}.
Context {St : Type} {ST : StateStore St}.
Context (default_hash : str -> str -> Z) (env : Env) (wcfg : WorkerConfig) (app : App).

Lemma keeps_submit_reserved i job (sv : Server St) : sv_store (submit_reserved i job sv) = sv_store sv.
Proof. unfold submit_reserved. by destruct (Pool.submit _ _ _ _ _) as [w h]. Qed.

Lemma keeps_submit_through f job (sv : Server St) : sv_store (submit_through f job sv).1 = sv_store sv.
Proof. unfold submit_through. by destruct (f _ _ _ _) as [[w h] r]. Qed.

Lemma keeps_or_fail_closed f job (sv : Server St) : sv_store (submit_or_fail_closed f job sv) = sv_store sv.
Proof.
  unfold submit_or_fail_closed. pose proof (keeps_submit_through f job sv).
  by destruct (submit_through f job sv) as [sv' [u|e]].
Qed.

Lemma keeps_enqueue_failure a i stop reason : keeps_store (@enqueue_failure SHA St a i stop reason).
Proof.
  intros sv. unfold enqueue_failure.
  pose proof (keeps_submit_through Pool.try_submit (failure_job a (workflow (session_of a sv)) i stop reason) sv) as H.
  by destruct (submit_through _ _ sv) as [sv' r].
Qed.

Lemma keeps_transient d sid stop reason : keeps_store (@enqueue_transient_failure UT SHA JS St app d sid stop reason).
Proof.
  intros sv. unfold enqueue_transient_failure. destruct (count_rejection _ _) as [window audited].
  destruct (negb audited); [done|]. unfold Registry.alloc. by rewrite keeps_enqueue_failure.
Qed.

Lemma keeps_audit d hs e : keeps_store (@audit_authentication_error UT SHA JS St app d hs e).
Proof. intros sv. destruct e; try done; apply keeps_transient. Qed.

Lemma keeps_audited {A} (r : result A PipelineError) (audit : PipelineError -> P St unit) :
  (forall e, keeps_store (audit e)) -> keeps_store (audited r audit).
Proof. intros H. destruct r; [by intros sv|]. apply keeps_store_bind; [done|]. by intros _ sv. Qed.

Lemma keeps_identity d hs hint : keeps_store (@chat_identity UT SHA TL JS St app d hs hint).
Proof. destruct hint; [by intros sv|]. apply keeps_audited. intros e. apply keeps_audit. Qed.

Lemma keeps_bind_caller a c : keeps_store (@bind_caller SHA SJ St a c).
Proof. intros sv. unfold bind_caller. destruct c as [c|]; [|done]. by destruct (bind_session c _) as [s r]. Qed.

Lemma keeps_enter open refusal d sid w i c :
  keeps_store (@enter_session SHA SJ JS St app open refusal d sid w i c).
Proof.
  unfold enter_session. apply keeps_store_bind.
  { intros sv. by destruct (open _ _ _ _ _ _ _ _ _) as [world a]. }
  intros a. repeat (apply keeps_store_bind; [|intros ?]);
    auto using keeps_bind_caller with frame; by intros sv.
Qed.

Lemma keeps_breaker_gate a payload : keeps_store (@breaker_gate SHA St a payload).
Proof.
  intros sv. unfold breaker_gate. destruct (negb _); [done|]. destruct (breaker_action _); try done.
  by destruct (inject_corrective_message payload).
Qed.

Lemma keeps_reserve {A} (f : Pool.t -> Pool.t * result A SubmitError) : keeps_store (@reserve St A f).
Proof. intros sv. unfold reserve. by destruct (f (sv_pool sv)) as [h r]. Qed.

Lemma keeps_refuse_reserved {A} i a who stop e : keeps_store (@refuse_reserved SHA St A i a who stop e).
Proof. intros sv. unfold refuse_reserved. cbn. apply keeps_submit_reserved. Qed.

Lemma breaker_gate_payload a payload (sv sv' : Server St) p : breaker_gate a payload sv = (sv', Ok p) ->
  p = payload \/ inject_corrective_message payload = Ok p.
Proof.
  unfold breaker_gate. destruct (negb _); [intros [= _ <-]; by left|]. destruct (breaker_action _); [done| |done].
  destruct (inject_corrective_message payload); [|done]. intros [= _ <-]. by right.
Qed.

(** The payload the charge is for, and its size. *)
Definition billable (payload : Value) : Prop :=
  forall p, p = payload \/ inject_corrective_message payload = Ok p ->
    is_u64 (tokens_after (compressed default_hash app p)).


(** * Sessions *)

Lemma session_of_at a s (sv : Server St) : heap (sv_world sv) !! a = Some s -> session_of a sv = s.
Proof. intros H. by apply list_lookup_total_correct. Qed.

Lemma at_changed f a s (sv : Server St) : heap (sv_world sv) !! a = Some s ->
  heap (sv_world (on_session_at f a sv)) !! a = Some (f s).
Proof. intros H. change (alter f a (heap (sv_world sv)) !! a = Some (f s)). by rewrite list_lookup_alter_eq, H. Qed.

Lemma keyed_changed f a (sv : Server St) : (forall s, id (f s) = id s) -> keyed (sv_world sv) ->
  keyed (sv_world (on_session_at f a sv)).
Proof.
  intros Hf Hk k b Hb. destruct (Hk k b Hb) as (s & Hs & Hi).
  change (exists s', alter f a (heap (sv_world sv)) !! b = Some s' /\ id s' = k). destruct (decide (a = b)) as [->|].
  - exists (f s). rewrite list_lookup_alter_eq, Hs. split; [done|]. by rewrite Hf.
  - exists s. by rewrite list_lookup_alter_ne.
Qed.

Lemma open_keyed reopen fresh w w' a : keyed w -> Registry.get_or_open_inner reopen fresh (id fresh) w = (w', a) ->
  keyed w' /\ sessions w' !! id fresh = Some a.
Proof.
  intros Hk. unfold Registry.get_or_open_inner.
  assert (Registry.install w (id fresh) fresh = (w', a) -> keyed w' /\ sessions w' !! id fresh = Some a) as Hi.
  { intros [= <- <-]. split; [by apply (install_keyed w fresh)|]. cbn. apply lookup_insert_eq. }
  destruct (sessions w !! id fresh) as [b|] eqn:E; [|done].
  destruct (reopen && _); [|intros [= <- <-]; done]. destruct (Registry.holds w enforcement_tripped b); [|done].
  by intros [= <- <-].
Qed.

(** The session a request got in, and what had to hold. *)
Record entered (sid : str) (w : Workflow.t) (i : AgentIdentity) (caller : option AuthenticatedCaller) (s : Session)
  : Prop := {
  en_id : id s = sid;
  en_workflow : workflow s = w;
  en_uid : ag_instance_uid (identity s) = ag_instance_uid i;
  en_charter : ag_charter (identity s) = ag_charter i;
  en_version : ag_version (identity s) = ag_version i;
  en_latest : latest_identity s = i;
  en_bound : forall c, caller = Some c -> binding s = Some (principal_digest c);
  en_admitting : is_closed s = false;
  en_captured : capture_failed s = false;
}.

Lemma binding_ok s w i : validate_session_binding s w i = Ok tt ->
  workflow s = w /\ ag_instance_uid (identity s) = ag_instance_uid i /\
  ag_charter (identity s) = ag_charter i /\ ag_version (identity s) = ag_version i.
Proof.
  unfold validate_session_binding. destruct (bool_decide (workflow s = w)) eqn:E1; [|done]. cbn [negb].
  destruct (_ || _) eqn:E2; [done|]. intros _. b2p.
  repeat match goal with H : str_eqb _ _ = true |- _ => apply str_eqb_eq in H end. done.
Qed.

Lemma bind_session_ok c s s' : bind_session c s = (s', Ok tt) ->
  binding s' = Some (principal_digest c) /\ s' = s<|binding := binding s'|>.
Proof.
  unfold bind_session, bind_principal. destruct (binding s) as [p|] eqn:E.
  - destruct (bool_decide (p = principal_digest c)) eqn:Ep; [|done]. b2p. subst p. intros [= <-]. rewrite E.
    split; [done|]. by destruct s; cbn in E |- *; subst.
  - by intros [= <-].
Qed.

Lemma pbind_ok {A B} (m : P St A) (k : A -> P St B) sv sv' b : pbind m k sv = (sv', Ok b) ->
  exists sv1 a, m sv = (sv1, Ok a) /\ k a sv1 = (sv', Ok b).
Proof. unfold pbind. destruct (m sv) as [sv1 [a|e]]; [|done]. eauto. Qed.

Lemma pwhen_ok b e (sv sv' : Server St) u : pwhen b e sv = (sv', Ok u) -> b = false /\ sv' = sv.
Proof. unfold pwhen. destruct b; [done|]. by intros [= <-]. Qed.

Lemma bind_caller_ok a caller s (sv sv' : Server St) : keyed (sv_world sv) -> heap (sv_world sv) !! a = Some s ->
  bind_caller a caller sv = (sv', Ok tt) ->
  keyed (sv_world sv') /\ sv_pool sv' = sv_pool sv /\ sessions (sv_world sv') = sessions (sv_world sv) /\
  exists s', heap (sv_world sv') !! a = Some s' /\ s' = s<|binding := binding s'|> /\
    forall c, caller = Some c -> binding s' = Some (principal_digest c).
Proof.
  intros Hk Hs. unfold bind_caller. destruct caller as [c|].
  - rewrite (session_of_at a s sv Hs). destruct (bind_session c s) as [s' r] eqn:E. intros [= <- ->].
    apply bind_session_ok in E as [E1 E2]. split_and!; [|done|done|].
    + intros k b Hb. destruct (Hk k b Hb) as (s0 & Hs0 & Hi).
      change (exists t, alter (fun _ => s') a (heap (sv_world sv)) !! b = Some t /\ id t = k).
      destruct (decide (a = b)) as [->|].
      * exists s'. rewrite list_lookup_alter_eq, Hs0. split; [done|]. assert (s0 = s) as -> by congruence. rewrite E2. exact Hi.
      * exists s0. by rewrite list_lookup_alter_ne.
    + exists s'. split_and!; [by rewrite (at_changed _ _ s)|done|]. by intros c' [= <-].
  - intros [= <-]. split_and!; [done|done|done|]. exists s. split_and!; [done|by destruct s|done].
Qed.

Lemma enter_spec reopen refusal d sid w i caller (sv sv' : Server St) a : keyed (sv_world sv) ->
  enter_session app (fun uid tuid ms now sid wf i br => Registry.get_or_open_inner reopen (new uid tuid ms now sid wf i br) sid)
    refusal d sid w i caller sv = (sv', Ok a) ->
  keyed (sv_world sv') /\ sv_pool sv' = sv_pool sv /\ sessions (sv_world sv') !! sid = Some a /\
  exists s, heap (sv_world sv') !! a = Some s /\ entered sid w i caller s.
Proof.
  intros Hk H. unfold enter_session in H.
  apply pbind_ok in H as (sv1 & a1 & H1 & H).
  destruct (Registry.get_or_open_inner reopen _ sid (sv_world sv)) as [world a0] eqn:Eo.
  injection H1 as E1 <-.
  assert (sv_world sv1 = world /\ sv_pool sv1 = sv_pool sv) as [Ew Ep] by by rewrite <- E1. clear E1.
  apply (open_keyed reopen (new (d_scope_uid d) (d_trajectory_uid d) (d_open d).1 (d_open d).2 sid w i (breaker app)))
    in Eo as [Hk1 Hs1]; [|done].
  rewrite <- Ew in Hk1, Hs1. destruct (Hk1 _ _ Hs1) as (s & Hs & Hid).
  apply pbind_ok in H as (? & s1 & [= <- <-] & H). rewrite (session_of_at a0 s sv1 Hs) in H.
  apply pbind_ok in H as (? & [] & E & H). injection E as <- Eb. apply binding_ok in Eb as (B1 & B2 & B3 & B4).
  apply pbind_ok in H as (sv2 & [] & Ec & H).
  destruct (bind_caller_ok a0 caller s sv1 sv2 Hk1 Hs Ec) as (Hk2 & Ep2 & Es2 & s2 & Hs2 & E2 & Hb).
  apply pbind_ok in H as (? & [] & [= <-] & H).
  set (sv3 := on_session_at (fun s => refresh_identity s i) a0 sv2) in *.
  assert (heap (sv_world sv3) !! a0 = Some (refresh_identity s2 i)) as Hs3 by by apply at_changed.
  apply pbind_ok in H as (? & s3 & [= <- <-] & H). rewrite (session_of_at _ _ _ Hs3) in H.
  apply pbind_ok in H as (? & ? & [Hc ->]%pwhen_ok & H).
  apply pbind_ok in H as (? & ? & [Hf ->]%pwhen_ok & H).
  apply pbind_ok in H as (? & [] & [= <-] & H). injection H as <- <-.
  split_and!.
  - apply keyed_changed; [done|]. by apply keyed_changed.
  - change (sv_pool sv2 = sv_pool sv). congruence.
  - change (sessions (sv_world sv2) !! sid = Some a0). by rewrite Es2.
  - eexists. split; [by apply at_changed|]. rewrite E2 in *. split; done.
Qed.

(** ** Steps that keep what was checked on entry *)

(** What the gates read of a session. *)
Definition gated (s : Session) :=
  (id s, workflow s, identity s, latest_identity s, binding s, closed s, lifecycle s, capture_lost s, loop_state s).

(** The session at [a] still passes the gates it passed, and the registry is the same. *)
Definition settled (a : addr) (sv sv' : Server St) : Prop :=
  sessions (sv_world sv') = sessions (sv_world sv) /\
  forall s, heap (sv_world sv) !! a = Some s ->
    exists s', heap (sv_world sv') !! a = Some s' /\ gated s' = gated s.

Lemma settled_refl a sv : settled a sv sv.
Proof. split; [done|]. eauto. Qed.

Lemma settled_trans a sv1 sv2 sv3 : settled a sv1 sv2 -> settled a sv2 sv3 -> settled a sv1 sv3.
Proof.
  intros [E1 H1] [E2 H2]. split; [congruence|]. intros s Hs. destruct (H1 s Hs) as (s' & Hs' & G1).
  destruct (H2 s' Hs') as (s'' & Hs'' & G2). exists s''. split; [done|congruence].
Qed.

Lemma settled_world a (sv sv' : Server St) : sv_world sv' = sv_world sv -> settled a sv sv'.
Proof. intros E. unfold settled. rewrite E. eauto. Qed.

Lemma settled_session f a b (sv : Server St) : (forall s, gated (f s) = gated s) -> settled a sv (on_session_at f b sv).
Proof.
  intros Hf. split; [done|]. intros s Hs. change (exists s', alter f b (heap (sv_world sv)) !! a = Some s' /\ gated s' = gated s).
  destruct (decide (b = a)) as [->|].
  - exists (f s). by rewrite list_lookup_alter_eq, Hs.
  - exists s. by rewrite list_lookup_alter_ne.
Qed.

Lemma entered_gated sid w i caller s s' : gated s' = gated s -> entered sid w i caller s -> entered sid w i caller s'.
Proof.
  intros [= E1 E2 E3 E4 E5 E6 E7 E8 _] [H1 H2 H3 H4 H5 H6 H7 H8 H9].
  unfold is_closed, artifact_committed_flag, lifecycle_state, capture_failed in *.
  split; unfold is_closed, artifact_committed_flag, lifecycle_state, capture_failed; try congruence.
  { intros c Hc. rewrite E5. by apply H7. }
  all: by rewrite ?E6, ?E7, ?E8.
Qed.

Lemma submit_reserved_settled a i job (sv : Server St) : settled a sv (submit_reserved i job sv).
Proof.
  apply settled_trans with (on_session_at worker_job_started (wj_session job) sv); [by apply settled_session|].
  apply settled_world. unfold submit_reserved, Pool.submit. by destruct (Pool.senders _ !! i).
Qed.

Lemma breaker_gate_ok a payload (sv sv' : Server St) p s sid w i caller : heap (sv_world sv) !! a = Some s ->
  entered sid w i caller s -> breaker_gate a payload sv = (sv', Ok p) ->
  sessions (sv_world sv') = sessions (sv_world sv) /\
  exists s', heap (sv_world sv') !! a = Some s' /\ entered sid w i caller s' /\ breaker_open s' = false /\
    (breaker_open s = false /\ p = payload \/
     breaker_action s = Breaker.Inject /\ inject_corrective_message payload = Ok p).
Proof.
  intros Hs He. unfold breaker_gate. rewrite (session_of_at a s sv Hs).
  destruct (breaker_open s) eqn:Eo; cbn [negb].
  - destruct (breaker_action s) eqn:Ea; [done| |done]. destruct (inject_corrective_message payload); [|done].
    intros [= <- <-]. split; [done|]. eexists. split; [by apply at_changed|]. split_and!; [|done|by right].
    destruct He. by split.
  - intros [= <- <-]. split; [done|]. exists s. by split_and!; [..|left].
Qed.

Lemma reserve_settled {A} (f : Pool.t -> Pool.t * result A SubmitError) a (sv sv' : Server St) x :
  reserve f sv = (sv', Ok x) -> settled a sv sv'.
Proof. unfold reserve. destruct (f _) as [h r]. intros [= <- _]. by apply settled_world. Qed.

Lemma charge_gate_ok i a sid who n b (sv sv' : Server St) : charge_gate app i a sid who n sv = (sv', Ok tt) ->
  settled b sv sv' /\ charge app sid (principal_ledger app who) n (sv_store sv) = (sv_store sv', None).
Proof.
  unfold charge_gate. destruct (charge _ _ _ _ _) as [st [[capped e]|]]; [done|]. intros [= <-].
  split; [by apply settled_world|done].
Qed.

Lemma capture_gate_ok d i a sid who o (sv sv' : Server St) capture :
  capture_gate app d i a sid who o sv = (sv', Ok capture) ->
  sv' = sv /\ atif_capture_from_request (d_call_uid d) (out_payload o) = Ok capture.
Proof. unfold capture_gate. destruct (atif_capture_from_request _ _); [|done]. by intros [= <- <-]. Qed.

(** ** Admission, step by step *)

Section Admission.
Context (d : Draws) (hs : HeaderMap) (payload : Value) (hint : option AgentIdentity) (caller : option AuthenticatedCaller).

(** The admission up to the reservation, none of which spends. *)
Definition arrival (h : ChatHeaders) : P St (AgentIdentity * addr * Value * nat) :=
  let^ who := chat_identity app d hs hint in
  let^ a := enter_session app Registry.get_or_open closed_refusal d (ch_session_id h) (ch_workflow h) who caller in
  let^ p := breaker_gate a payload in
  let^ i := reserve (Pool.try_reserve_pair (ch_session_id h)) in
  pret (who, a, p, i).

(** Once it is paid for: the record submitted, the session leased, the guards made. *)
Definition dispatch (h : ChatHeaders) (who : AgentIdentity) (a : addr) (o : CompressionOutcome) (i : nat)
    (capture : AtifCapture) : P St PreparedRequest :=
  pdo (submit_reserved i (admission_job a who o (last_message_text (out_payload o)) capture (d_attempt_uid d))) ;^
  pdo (on_session_at lease_new a) ;^
  let^ s := (fun sv => (sv, Ok (session_of a sv))) in
  pret {| pr_session := a; pr_identity := who; pr_payload := out_payload o;
          pr_admission_debit := mkDebit (id s) (budget app) (principal_ledger app who) (tokens_after o);
          pr_capture_guard := guard_new a who (d_attempt_uid d) true;
          pr_client_authorization := ch_client_authorization h;
          pr_upstream_passthrough_headers := ch_upstream h |}.

Lemma dispatch_store h who a o i capture (sv : Server St) :
  exists sv' pr, dispatch h who a o i capture sv = (sv', Ok pr) /\ sv_store sv' = sv_store sv.
Proof.
  unfold dispatch, pbind, pdo, pret. do 2 eexists. split; [reflexivity|].
  etrans; [|exact (keeps_submit_reserved i (admission_job a who o (last_message_text (out_payload o)) capture
    (d_attempt_uid d)) sv)]. reflexivity.
Qed.

(** The rest, on the payload that arrived. *)
Definition admission (h : ChatHeaders) (who : AgentIdentity) (a : addr) (p : Value) (i : nat) : P St PreparedRequest :=
  let sid := ch_session_id h in
  match sanitize (app_sandbox app) (lit "chat/completions") p with
  | Err reason => refuse_reserved i a who StopReason.PolicyBlocked (TokenRoutes.Blocked reason)
  | Ok _ =>
      let o := compressed default_hash app p in
      charge_gate app i a sid who (tokens_after o) ;^
      let^ capture := capture_gate app d i a sid who o in
      dispatch h who a o i capture
  end.

Lemma prepare_split (sv : Server St) :
  prepare_chat_with_caller default_hash app d hs payload hint caller sv =
  pbind (pof (chat_headers app d hs payload)) (fun h => pbind (arrival h) (fun '(who, a, p, i) => admission h who a p i)) sv.
Proof.
  unfold prepare_chat_with_caller, arrival, pbind. cbn.
  destruct (chat_headers app d hs payload) as [h|e]; [|done].
  destruct (chat_identity app d hs hint sv) as [sv1 [who|e]]; [|done].
  destruct (enter_session _ _ _ _ _ _ _ _ sv1) as [sv2 [a|e]]; [|done].
  destruct (breaker_gate a payload sv2) as [sv3 [p|e]]; [|done].
  by destruct (reserve _ sv3) as [sv4 [i|e]].
Qed.

Lemma keeps_arrival h : keeps_store (arrival h).
Proof.
  unfold arrival. apply keeps_store_bind; [apply keeps_identity|]. intros who.
  apply keeps_store_bind; [apply keeps_enter|]. intros a.
  apply keeps_store_bind; [apply keeps_breaker_gate|]. intros p.
  apply keeps_store_bind; [apply keeps_reserve|]. by intros i sv.
Qed.

(** The identity is the hint, or the one the request earned. *)
Definition identified (who : AgentIdentity) : Prop :=
  match hint with
  | Some i => who = i
  | None => resolve_identity app (d_validate_ms d / 1000) (d_authorize_ms d / 1000) hs (Some (chat_scope app)) = Ok who
  end.

Lemma chat_identity_ok (sv sv' : Server St) who : chat_identity app d hs hint sv = (sv', Ok who) ->
  sv' = sv /\ identified who.
Proof.
  unfold chat_identity, identified. destruct hint as [i|]; [by intros [= <- <-]|].
  destruct (resolve_identity _ _ _ _ _) as [i|e]; [by intros [= <- <-]|]. cbn [audited]. unfold pbind.
  by destruct (audit_authentication_error app d hs e sv) as [sv1 [u|e']].
Qed.

Lemma arrival_ok h (sv sv' : Server St) who a p i : keyed (sv_world sv) ->
  arrival h sv = (sv', Ok (who, a, p, i)) ->
  identified who /\
  sessions (sv_world sv') !! ch_session_id h = Some a /\
  exists s, heap (sv_world sv') !! a = Some s /\ entered (ch_session_id h) (ch_workflow h) who caller s /\
    breaker_open s = false /\ (p = payload \/ inject_corrective_message payload = Ok p).
Proof.
  intros Hk H. unfold arrival in H. apply pbind_ok in H as (sv1 & who' & [-> Hi]%chat_identity_ok & H).
  apply pbind_ok in H as (sv2 & a' & E2 & H). apply pbind_ok in H as (sv3 & p' & E3 & H).
  apply pbind_ok in H as (sv4 & i' & E4 & H). injection H as <- <- <- <- <-.
  apply (enter_spec true) in E2 as (_ & _ & Hs & s & Hh & He); [|done].
  destruct (breaker_gate_ok _ _ _ _ _ _ _ _ _ _ Hh He E3) as (Es & s' & Hh' & He' & Ho & _).
  destruct (reserve_settled _ a' _ _ _ E4) as [Es4 H4]. destruct (H4 s' Hh') as (s'' & Hh'' & G).
  split_and!; [done|by rewrite Es4, Es|]. exists s''. split_and!; [done|by eapply entered_gated| |].
  - injection G as _ _ _ _ _ _ _ _ G. unfold breaker_open in *. by rewrite G.
  - by eapply breaker_gate_payload.
Qed.

Lemma admission_ok h who a p i (sv sv' : Server St) pr s : heap (sv_world sv) !! a = Some s ->
  admission h who a p i sv = (sv', Ok pr) ->
  let o := compressed default_hash app p in
  settled a sv sv' /\ sanitize (app_sandbox app) (lit "chat/completions") p = Ok tt /\
  charge app (ch_session_id h) (principal_ledger app who) (tokens_after o) (sv_store sv) = (sv_store sv', None) /\
  pr = {| pr_session := a; pr_identity := who; pr_payload := out_payload o;
          pr_admission_debit := mkDebit (id s) (budget app) (principal_ledger app who) (tokens_after o);
          pr_capture_guard := guard_new a who (d_attempt_uid d) true;
          pr_client_authorization := ch_client_authorization h;
          pr_upstream_passthrough_headers := ch_upstream h |}.
Proof.
  intros Hs H o. unfold admission in H. destruct (sanitize _ _ p) as [[]|] eqn:Esan; [|done]. fold o in H.
  apply pbind_ok in H as (sv1 & [] & E1 & H). apply pbind_ok in H as (sv2 & capture & E2 & H).
  apply pbind_ok in H as (? & [] & [= <-] & H). apply pbind_ok in H as (? & [] & [= <-] & H).
  apply pbind_ok in H as (? & s' & [= <- <-] & H). injection H as <- <-.
  apply (charge_gate_ok i a (ch_session_id h) who (tokens_after o) a) in E1 as [S1 E1].
  apply capture_gate_ok in E2 as [-> _]. set (job := admission_job _ _ _ _ _ _).
  assert (settled a sv (on_session_at lease_new a (submit_reserved i job sv1))) as Hset.
  { eapply settled_trans; [exact S1|]. eapply settled_trans; [apply submit_reserved_settled|]. by apply settled_session. }
  split_and!; [done|done| |].
  - change (sv_store (on_session_at lease_new a (submit_reserved i job sv1))) with (sv_store (submit_reserved i job sv1)).
    by rewrite keeps_submit_reserved.
  - destruct Hset as [_ Hset]. destruct (Hset s Hs) as (s' & Hs' & G). rewrite (session_of_at _ _ _ Hs').
    injection G as -> _. done.
Qed.
End Admission.

Lemma refuse_run {A} i a who stop e (sv sv' : Server St) (r : result A PipelineError) :
  refuse_reserved i a who stop e sv = (sv', r) -> sv_store sv' = sv_store sv /\ r = Err e.
Proof.
  intros H. pose proof (@keeps_refuse_reserved A i a who stop e sv) as E. rewrite H in E. split; [exact E|].
  unfold refuse_reserved in H. by injection H as _ <-.
Qed.

Lemma admission_store {SL : StateStoreLaws St} d h who a p i (sv : Server St) :
  st_wf (sv_store sv) -> spec_typed (budget app) -> principal_typed (principal_ledger app who) ->
  is_u64 (tokens_after (compressed default_hash app p)) ->
  let '(sv', r) := admission d h who a p i sv in
  st_wf (sv_store sv') /\
  match r with
  | Err _ => st_view (sv_store sv') =L st_view (sv_store sv)
  | Ok pr =>
      let sid := ch_session_id h in
      let n := tokens_after (compressed default_hash app p) in
      st_view (sv_store sv') =L charge_both sid (budget app) (principal_ledger app who) n (st_view (sv_store sv)) /\
      Forall (fun b => capped b (st_view (sv_store sv')))
        (for_session sid (budget app) :: principal_budget_of (principal_ledger app who))
  end.
Proof.
  intros Hw Hb Hp Hn. unfold admission. destruct (sanitize _ _ p) as [u|reason].
  2: { destruct (refuse_reserved _ _ _ _ _ sv) as [sv' r] eqn:Er. apply refuse_run in Er as [E ->]. by rewrite E. }
  set (o := compressed default_hash app p) in *.
  pose proof (charge_law app (ch_session_id h) (principal_ledger app who) (tokens_after o) (sv_store sv) Hw Hb Hp Hn) as Hc.
  unfold pbind at 1. unfold charge_gate.
  destruct (charge _ _ _ _ _) as [st [[capped e]|]]; destruct Hc as [Hw1 Hc].
  - destruct (refuse_reserved _ _ _ _ _ _) as [sv' r] eqn:Er. apply refuse_run in Er as [E ->]. rewrite E.
    by destruct capped.
  - unfold pbind at 1. unfold capture_gate. destruct (atif_capture_from_request _ _) as [capture|e].
    + destruct (dispatch_store d h who a o i capture (sv<|sv_store := st|>)) as (sv' & pr & Ed & E).
      rewrite Ed, E. by split.
    + destruct (refuse_reserved _ _ _ _ _ _) as [sv' r] eqn:Er. apply refuse_run in Er as [E ->]. rewrite E. destruct Hc as [Hc _].
      by apply (refund_both_charged st (ch_session_id h) (budget app) (principal_ledger app who) (tokens_after o)
        (st_view (sv_store sv)) Hw1 Hn (fun k => view_nonneg (sv_store sv) k Hw)).
Qed.
End Requests.

(** * Properties *)

(** C10. A refused chat request costs nothing, an admitted one exactly what it was
    admitted for.  For every backend that keeps the [StateStore] contract: when the
    admission of a request fails, at whatever gate, every counter reads as before, also
    when the principal's ledger was charged first and the session's refused; when it
    succeeds, the token counter of the session and that of the principal, where they
    are capped, are raised by the compressed size of the payload, none past its cap,
    and nothing else is; and dropping the debit gives back exactly that. *)
Theorem refused_chat_costs_nothing {UT : UnicodeTables} {SHA : Sha256} {HM : HmacSha256} {SJ : SerdeJson}
    {TL : TokenLibs} {JS : JsonSchema} {St : Type} {ST : StateStore St} {SL : StateStoreLaws St}
    (default_hash : str -> str -> Z) (app : App) (d : Draws) (hs : HeaderMap) (payload : Value)
    (hint : option AgentIdentity) (caller : option AuthenticatedCaller) (sv : Server St) :
  st_wf (sv_store sv) -> keyed (sv_world sv) -> spec_typed (budget app) ->
  (forall spec, principal_budget app = Some spec -> spec_typed spec) -> billable default_hash app payload ->
  let '(sv', r) := prepare_chat_with_caller default_hash app d hs payload hint caller sv in
  st_wf (sv_store sv') /\
  match r with
  | Err _ => st_view (sv_store sv') =L st_view (sv_store sv)
  | Ok pr =>
      let ad := pr_admission_debit pr in
      st_view (sv_store sv')
        =L charge_both (ad_session_id ad) (budget app) (principal_ledger app (pr_identity pr)) (ad_tokens ad)
             (st_view (sv_store sv)) /\
      Forall (fun b => capped b (st_view (sv_store sv')))
        (for_session (ad_session_id ad) (budget app) :: principal_budget_of (principal_ledger app (pr_identity pr))) /\
      (exists p, (p = payload \/ inject_corrective_message payload = Ok p) /\
         ad_tokens ad = tokens_after (compressed default_hash app p)) /\
      st_view (sv_store (drop_debit ad sv')) =L st_view (sv_store sv)
  end.
Proof.
  intros Hw Hk Hb Hpb Hbill. rewrite prepare_split. unfold pbind at 1.
  destruct (pof (chat_headers app d hs payload) sv) as [sv0 [h|e]] eqn:Eh; injection Eh as <- Eh; [|done].
  pose proof (keeps_arrival app d hs payload hint caller h sv) as Ea. unfold pbind.
  destruct (arrival app d hs payload hint caller h sv) as [sv1 [[[[who a] p] i]|e]] eqn:Earr; cbn in Ea;
    [|by rewrite Ea].
  destruct (arrival_ok app d hs payload hint caller h sv sv1 who a p i Hk Earr) as (_ & _ & s & Hs & He & _ & Hp).
  assert (principal_typed (principal_ledger app who)) as Hpt.
  { unfold principal_ledger. destruct (principal_budget app) as [spec|] eqn:E; [|done]. exact (Hpb spec eq_refl). }
  assert (st_wf (sv_store sv1)) as Hw1 by by rewrite Ea.
  pose proof (admission_store default_hash app d h who a p i sv1 Hw1 Hb Hpt (Hbill p Hp)) as Hadm.
  destruct (admission default_hash app d h who a p i sv1) as [sv' [pr|e]] eqn:Eadm; rewrite Ea in Hadm; [|exact Hadm].
  destruct Hadm as (Hw' & Hv & Hcap).
  destruct (admission_ok default_hash app d h who a p i sv1 sv' pr s Hs Eadm) as (_ & _ & _ & ->).
  cbn [pr_admission_debit pr_identity ad_session_id ad_tokens]. rewrite (en_id _ _ _ _ _ He).
  split_and!; [done|done|done|eauto|].
  unfold drop_debit. cbn [ad_tokens ad_session_id ad_budget ad_principal].
  set (n := tokens_after _) in *. destruct (n =? 0) eqn:En; b2p.
  - rewrite Hv. intros k. unfold charge_both. rewrite charge_tokens_at, En.
    destruct (principal_ledger app who) as [[pid spec]|]; cbn; rewrite ?charge_tokens_at; repeat case_decide; lia.
  - apply (refund_both_charged (sv_store sv') (ch_session_id h) (budget app) (principal_ledger app who) n
      (st_view (sv_store sv))); [done|exact (Hbill p Hp)|intros k; by apply view_nonneg|exact Hv].
Qed.

(** C11. An admitted request entered an open session of its own.  When the admission of
    a chat request succeeds, its headers were single-valued and well formed, it asks
    for one choice, its identity was given or earned, and it holds the session
    registered under its id: that session has the workflow, agent, charter and version
    of the request, is bound to the caller's principal where the caller is known, is
    neither closed nor lossy, its breaker is closed, possibly because the corrective
    message was injected, and the payload passed the sandbox before it was charged and
    compressed. *)
Theorem admitted_request_entered_an_open_session {UT : UnicodeTables} {SHA : Sha256} {HM : HmacSha256} {SJ : SerdeJson}
    {TL : TokenLibs} {JS : JsonSchema} {St : Type} {ST : StateStore St}
    (default_hash : str -> str -> Z) (app : App) (d : Draws) (hs : HeaderMap) (payload : Value)
    (hint : option AgentIdentity) (caller : option AuthenticatedCaller) (sv sv' : Server St) (pr : PreparedRequest) :
  keyed (sv_world sv) ->
  prepare_chat_with_caller default_hash app d hs payload hint caller sv = (sv', Ok pr) ->
  exists sid w p s,
    session_id (d_session_uid d) hs = Ok sid /\ workflow_of hs (default_workflow app) = Ok w /\
    single_choice payload = true /\ identified app d hs hint (pr_identity pr) /\
    sessions (sv_world sv') !! sid = Some (pr_session pr) /\ heap (sv_world sv') !! pr_session pr = Some s /\
    entered sid w (pr_identity pr) caller s /\ breaker_open s = false /\
    (p = payload \/ inject_corrective_message payload = Ok p) /\
    sanitize (app_sandbox app) (lit "chat/completions") p = Ok tt /\
    pr_payload pr = out_payload (compressed default_hash app p).
Proof.
  intros Hk. rewrite prepare_split. intros H. apply pbind_ok in H as (? & h & Eh & H). injection Eh as <- Eh.
  apply pbind_ok in H as (sv1 & [[[who a] p] i] & Earr & Eadm).
  destruct (arrival_ok app d hs payload hint caller h sv sv1 who a p i Hk Earr) as (Hi & Hs & s & Hh & He & Ho & Hp).
  destruct (admission_ok default_hash app d h who a p i sv1 sv' pr s Hh Eadm) as ([Es Hset] & Hsan & _ & ->).
  destruct (Hset s Hh) as (s' & Hh' & G).
  unfold chat_headers in Eh. destruct (session_id _ hs) as [sid|] eqn:E1; [|done].
  destruct (workflow_of hs _) as [w|] eqn:E2; [|done]. destruct (single_choice payload) eqn:E3; [|done].
  assert (ch_session_id h = sid /\ ch_workflow h = w) as [<- <-].
  { destruct (if upstream_authorization_passthrough app then _ else _) as [auth|]; [|done].
    destruct (passthrough_headers hs _) as [up|]; [|done]. by injection Eh as <-. }
  exists (ch_session_id h), (ch_workflow h), p, s'. cbn [pr_identity pr_session pr_payload].
  split_and!; try done.
  - by rewrite Es.
  - by eapply entered_gated.
  - injection G as _ _ _ _ _ _ _ _ G. unfold breaker_open in *. by rewrite G.
Qed.

(** * Tool calls *)

Section Tools.
Context {UT : UnicodeTables} {SHA : Sha256} {SJ : SerdeJson} {JR : JsonReader}.
Context {JS : JsonSchema} {DF : DisplayF64} {St : Type} {ST : StateStore St}.
Context (app : App) (d : Draws) (hs : HeaderMap) (raw : list Z) (caller : AuthenticatedCaller).

Definition parsed_call : option ToolCallRequest := match parse_tool_call raw with Ok req => Some req | Err _ => None end.

Definition call_scope : str :=
  match parsed_call with Some req => tool_scope (req_tool req) | None => TOOL_INVOKE_SCOPE end.

(** What holds when a tool call gets a verdict. *)
Definition tool_arrived (sid : str) (w : Workflow.t) (who : AgentIdentity) (s : Session) : Prop :=
  session_id (d_session_uid d) hs = Ok sid /\ workflow_of hs (default_workflow app) = Ok w /\
  authorize app caller (d_authorize_ms d / 1000) (Some call_scope) = Ok who /\
  entered sid w who (Some caller) s /\ breaker_open s && terminal_action (breaker_action s) = false.

(** The arrival, whose steps do not spend; the verdict and its record follow. *)
Definition tool_arrival : P St (str * Workflow.t * AgentIdentity * addr * nat) :=
  let^ sid := pof (session_id (d_session_uid d) hs) in
  let^ w := pof (workflow_of hs (default_workflow app)) in
  let^ who := audited (authorize app caller (d_authorize_ms d / 1000) (Some call_scope))
                (fun e => enqueue_transient_failure app d sid StopReason.IdentityRejected (pipeline_error_to_string e)) in
  let^ a := enter_session app Registry.get_or_open_no_reopen (fun _ => already_closed) d sid w who (Some caller) in
  tool_breaker_gate a ;^
  let^ i := reserve (Pool.try_reserve sid) in
  pret (sid, w, who, a, i).

Definition tool_decision (preflight : option ToolVerdict) (sid : str) (w : Workflow.t) (who : AgentIdentity) (a : addr)
    (i : nat) : P St (ToolVerdict * addr) :=
  let^ v := (fun sv => let '(sv, v) := tool_verdict app d sid w who caller raw parsed_call preflight sv in (sv, Ok v)) in
  pdo (submit_reserved i (tool_job d a who raw parsed_call v)) ;^
  pret (v, a).

Lemma intercept_split preflight (sv : Server St) :
  intercept_tool_authenticated app d hs raw caller preflight sv =
  pbind tool_arrival (fun '(sid, w, who, a, i) => tool_decision preflight sid w who a i) sv.
Proof.
  unfold intercept_tool_authenticated, tool_arrival, tool_decision, pbind, pof. cbv zeta. fold parsed_call. fold call_scope.
  destruct (session_id _ hs) as [sid|e]; [|done]. destruct (workflow_of hs _) as [w|e]; [|done].
  destruct (audited _ _ sv) as [sv1 [who|e]]; [|done].
  destruct (enter_session _ _ _ _ _ _ _ _ sv1) as [sv2 [a|e]]; [|done].
  destruct (tool_breaker_gate a sv2) as [sv3 [u|e]]; [|done].
  by destruct (reserve _ sv3) as [sv4 [i|e]].
Qed.

Lemma keeps_tool_arrival : keeps_store tool_arrival.
Proof.
  unfold tool_arrival. apply keeps_store_bind; [apply keeps_pure|]. intros sid.
  apply keeps_store_bind; [apply keeps_pure|]. intros w. apply keeps_store_bind.
  { apply keeps_audited. intros e. apply keeps_transient. }
  intros who. apply keeps_store_bind; [apply keeps_enter|]. intros a. apply keeps_store_bind.
  { intros sv. unfold tool_breaker_gate. by destruct (_ && _). }
  intros _. apply keeps_store_bind; [apply keeps_reserve|]. by intros i sv.
Qed.

Lemma audited_ok {A} (r : result A PipelineError) audit (sv sv' : Server St) x :
  audited r audit sv = (sv', Ok x) -> sv' = sv /\ r = Ok x.
Proof.
  destruct r as [y|e]; [by intros [= <- <-]|]. cbn [audited]. unfold pbind. by destruct (audit e sv) as [sv1 [u|e']].
Qed.

Lemma tool_arrival_ok (sv sv' : Server St) sid w who a i : keyed (sv_world sv) ->
  tool_arrival sv = (sv', Ok (sid, w, who, a, i)) ->
  exists s, heap (sv_world sv') !! a = Some s /\ sessions (sv_world sv') !! sid = Some a /\ tool_arrived sid w who s.
Proof.
  intros Hk H. unfold tool_arrival in H. apply pbind_ok in H as (? & sid' & E1 & H). injection E1 as <- E1.
  apply pbind_ok in H as (? & w' & E2 & H). injection E2 as <- E2.
  apply pbind_ok in H as (? & who' & [-> E3]%audited_ok & H).
  apply pbind_ok in H as (sv2 & a' & E4 & H). apply pbind_ok in H as (sv3 & u & E5 & H).
  apply pbind_ok in H as (sv4 & i' & E6 & H). injection H as <- <- <- <- <- <-.
  apply (enter_spec app false) in E4 as (_ & _ & Hs & s & Hh & He); [|done].
  unfold tool_breaker_gate in E5. rewrite (session_of_at _ _ _ Hh) in E5.
  destruct (breaker_open s && terminal_action (breaker_action s)) eqn:Eb; [done|]. injection E5 as <- _.
  unfold reserve in E6. destruct (Pool.try_reserve sid' (sv_pool sv2)) as [h r]. injection E6 as <- _.
  exists s. by split_and!.
Qed.

(** The verdict and what it did to the store: a call is allowed only by the sandbox,
    after the vetoes. *)
Lemma tool_verdict_spec {SL : StateStoreLaws St} sid w who (sv : Server St) :
  st_wf (sv_store sv) -> spec_typed (cfg_budget (config (app_sandbox app))) ->
  principal_typed (principal_ledger app who) ->
  let '(sv', v) := tool_verdict app d sid w who caller raw parsed_call None sv in
  st_wf (sv_store sv') /\
  if verdict_is_allowed v then
    exists req payout i,
      passed_gates (app_sandbox app) raw req payout /\
      ~ (w = Workflow.Unsigned /\ req_tool req ∈ consequential_tools app) /\
      decide_for (app_pdp app) (req_tool req) (d_decide_ms d / 1000) (facts caller) = Permit i /\
      charged (app_sandbox app) sid (principal_ledger app who) (req_tool req) payout
        (st_view (sv_store sv)) (st_view (sv_store sv'))
  else st_view (sv_store sv') =L st_view (sv_store sv).
Proof.
  intros Hw Hb Hp. unfold tool_verdict.
  pose proof (check_spec (app_sandbox app) (sv_store sv) sid (principal_ledger app who) raw (d_elapsed_us d) Hw Hb Hp) as Hc.
  assert (let '(sv', v) := budgeted_check app d sid who raw sv in
    st_wf (sv_store sv') /\
    ((exists req payout, passed_gates (app_sandbox app) raw req payout /\
        gate_post (app_sandbox app) (sv_store sv) (sv_store sv') sid (principal_ledger app who) (req_tool req) payout v) \/
     (verdict_is_allowed v = false /\ sv_store sv' = sv_store sv))) as Hbc.
  { unfold budgeted_check. by destruct (check_with_principal _ _ _ _ _ _) as [st v]. }
  unfold parsed_call. destruct (parse_tool_call raw) as [req|e] eqn:Ep.
  - destruct (_ && _) eqn:Ev; [by split|].
    destruct (decide_for _ _ _ _) as [i|code reason] eqn:Ed; [|by split].
    destruct (budgeted_check app d sid who raw sv) as [sv' v]. destruct Hbc as [Hw' Hbc]. split; [done|].
    destruct Hbc as [(req' & payout & Hg & Hpost)|[-> ->]]; [|done].
    destruct v as [tool rem el pay pid|]; cbn [verdict_is_allowed]; [|exact Hpost].
    destruct Hpost as (_ & _ & _ & Hch). assert (req' = req) as -> by (destruct Hg as [Hg _]; congruence).
    exists req, payout, i. split_and!; [done| |done|done]. intros [-> Hin].
    rewrite bool_decide_eq_true_2 in Ev by done. cbn [andb] in Ev. unfold consequential in Ev. apply existsb_eqb in Hin. congruence.
  - destruct (budgeted_check app d sid who raw sv) as [sv' v]. destruct Hbc as [Hw' Hbc]. split; [done|].
    destruct Hbc as [(req' & payout & [Hg _] & _)|[-> ->]]; [congruence|done].
Qed.

Lemma tool_verdict_world preflight sid w who (sv : Server St) :
  sv_world (tool_verdict app d sid w who caller raw parsed_call preflight sv).1 = sv_world sv.
Proof.
  assert (sv_world (budgeted_check app d sid who raw sv).1 = sv_world sv) as Hc.
  { unfold budgeted_check. by destruct (check_with_principal _ _ _ _ _ _) as [st v]. }
  unfold tool_verdict. destruct preflight; [done|]. destruct parsed_call as [req|]; [|done].
  destruct (_ && _); [done|]. by destruct (decide_for _ _ _ _).
Qed.

Lemma tool_arrived_gated sid w who s s' : gated s' = gated s -> tool_arrived sid w who s -> tool_arrived sid w who s'.
Proof.
  intros G (H1 & H2 & H3 & H4 & H5). split_and!; try done; [by eapply entered_gated|].
  injection G as _ _ _ _ _ _ _ _ G. unfold breaker_open, breaker_action in *. by rewrite G.
Qed.

(** The decision keeps what the arrival established. *)
Lemma tool_decision_run preflight sid w who a i (sv : Server St) :
  let '(sv1, v) := tool_verdict app d sid w who caller raw parsed_call preflight sv in
  exists sv', tool_decision preflight sid w who a i sv = (sv', Ok (v, a)) /\ sv_store sv' = sv_store sv1 /\
    settled a sv sv'.
Proof.
  pose proof (tool_verdict_world preflight sid w who sv) as Ew. unfold tool_decision, pbind, pdo, pret.
  destruct (tool_verdict _ _ _ _ _ _ _ _ _ sv) as [sv1 v]. eexists. split; [reflexivity|]. split.
  - apply keeps_submit_reserved.
  - eapply settled_trans; [by apply settled_world|]. apply submit_reserved_settled.
Qed.
End Tools.

(** C8. An allowed tool call passed every gate, and any other costs nothing.  The
    interception of a tool call either fails or gives a verdict.  With a verdict, the
    caller was authorized for the tool's own scope, the session is the registered one of
    its id, open, of the caller's agent and bound to its principal, and no breaker that
    stops the agent is open.  If the verdict allows, the call parsed, its schema and
    every policy passed, a consequential tool ran in a signed workflow, every mission
    that applies to the caller permits its intent, and exactly its charges were made on
    both ledgers; if it blocks, or the interception fails, no counter changed. *)
Theorem allowed_tool_call_was_authorized {UT : UnicodeTables} {SHA : Sha256} {SJ : SerdeJson} {JR : JsonReader}
    {JS : JsonSchema} {DF : DisplayF64} {St : Type} {ST : StateStore St} {SL : StateStoreLaws St}
    (app : App) (d : Draws) (hs : HeaderMap) (raw : list Z) (caller : AuthenticatedCaller) (sv : Server St) :
  st_wf (sv_store sv) -> keyed (sv_world sv) -> spec_typed (cfg_budget (config (app_sandbox app))) ->
  (forall spec, principal_budget app = Some spec -> spec_typed spec) ->
  let '(sv', r) := intercept_tool_authenticated app d hs raw caller None sv in
  st_wf (sv_store sv') /\
  match r with
  | Err _ => st_view (sv_store sv') =L st_view (sv_store sv)
  | Ok (v, a) =>
      exists sid w who s,
        heap (sv_world sv') !! a = Some s /\ sessions (sv_world sv') !! sid = Some a /\
        tool_arrived app d hs raw caller sid w who s /\
        if verdict_is_allowed v then
          exists req payout,
            passed_gates (app_sandbox app) raw req payout /\
            ~ (w = Workflow.Unsigned /\ req_tool req ∈ consequential_tools app) /\
            Forall (admits (intent_for (app_pdp app) (req_tool req)) (d_decide_ms d / 1000))
              (applicable_missions (app_pdp app) (facts caller)) /\
            charged (app_sandbox app) sid (principal_ledger app who) (req_tool req) payout
              (st_view (sv_store sv)) (st_view (sv_store sv'))
        else st_view (sv_store sv') =L st_view (sv_store sv)
  end.
Proof.
  intros Hw Hk Hb Hpb. rewrite intercept_split. pose proof (keeps_tool_arrival app d hs raw caller sv) as Ea.
  unfold pbind at 1. destruct (tool_arrival app d hs raw caller sv) as [sv1 [[[[[sid w] who] a] i]|e]] eqn:Earr;
    cbn in Ea; [|by rewrite Ea].
  destruct (tool_arrival_ok app d hs raw caller sv sv1 sid w who a i Hk Earr) as (s & Hh & Hs & Harr).
  assert (principal_typed (principal_ledger app who)) as Hpt.
  { unfold principal_ledger. destruct (principal_budget app) as [spec|] eqn:E; [|done]. exact (Hpb spec eq_refl). }
  pose proof (tool_verdict_spec app d raw caller sid w who sv1 ltac:(by rewrite Ea) Hb Hpt) as Hv.
  pose proof (tool_decision_run app d raw caller None sid w who a i sv1) as Hd.
  destruct (tool_verdict _ _ _ _ _ _ _ _ _ sv1) as [sv2 v]. destruct Hd as (sv' & -> & E2 & Es & Hset).
  rewrite <- E2, Ea in Hv. destruct Hv as [Hw2 Hv]. split; [done|].
  destruct (Hset s Hh) as (s' & Hh' & G). exists sid, w, who, s'. rewrite Es.
  split_and!; [done|done|by eapply tool_arrived_gated|].
  destruct (verdict_is_allowed v); [|done]. destruct Hv as (req & payout & j & H1 & H2 & H3 & H4).
  exists req, payout. apply decide_for_Permit in H3 as (-> & _ & H3). by split_and!.
Qed.

(** * A concrete server *)

Module PipelineSample.

Definition app : @App toy_schema := AuthzSample.app sample_spec.

Definition draws : Draws :=
  mkDraws (lit "u0") (lit "u1") (lit "u2") (lit "u3") (lit "attempt") (lit "marker") (lit "u6") (fun _ => lit "u7")
    (lit "u8") (lit "u9") (lit "u10") 1200000 1210000 (1210000, 0) (1210000, 1) 1210000 5 0 (1210000, 2).

Definition start : Server InMemory.t :=
  mkServer InMemory.new Registry.empty (Pool.spawn 4 None) (0, 0) ∅ 0 0.

Definition payload : Value :=
  Object (member "messages" (Array [Object (member "role" (JString (lit "user")) ++ member "content" (JString (lit "hi")))])).

Definition admit_chat : Server InMemory.t -> Server InMemory.t * result PreparedRequest PipelineError :=
  @prepare_chat_with_caller ascii_tables toy_sha256 toy_hmac JournalSample.serde Sample.libs toy_schema InMemory.t
    (@InMemory.store ascii_tables) (fun _ _ => 0) app draws AuthzSample.headers payload None None.

Definition admitted : Server InMemory.t := (admit_chat start).1.

Definition no_request : PreparedRequest :=
  mkPrepared 0%nat anonymous_identity Null (mkDebit [] sample_spec None 0) (mkGuard 0%nat anonymous_identity None [] false false)
    None [].

Definition request : PreparedRequest := match (admit_chat start).2 with Ok pr => pr | Err _ => no_request end.

Lemma runs : admit_chat start = (admitted, Ok request).
Proof. vm_compute. reflexivity. Qed.

Lemma sizes : @billable toy_sha256 toy_hmac JournalSample.serde toy_schema (fun _ _ => 0) app payload.
Proof. intros p _. split; vm_compute; congruence. Qed.

Lemma start_keyed : keyed (sv_world start).
Proof. intros k a Ha. by destruct (lookup_empty_Some k a Ha). Qed.

Lemma principal_typed spec : principal_budget app = Some spec -> spec_typed spec.
Proof. intros [= <-]. exact sample_typed. Qed.

(** A caller with every tool's scope. *)
Definition caller : AuthenticatedCaller :=
  let v := Sample.identity<|vi_claims := Sample.leaf_claims<|scopes := [lit "tool:*"]|>|> in
  mkCaller (agent_identity v) (Some v).

Definition intercept : Server InMemory.t -> Server InMemory.t * result (ToolVerdict * addr) PipelineError :=
  @intercept_tool_authenticated ascii_tables toy_sha256 toy_serde toy_reader toy_schema toy_display InMemory.t
    (@InMemory.store ascii_tables) app draws AuthzSample.headers toy_text caller None.

Lemma intercepts : (intercept start).2 = Ok (ToolAllowed (lit "db_write") 2 5 2000000 (Some (lit "u2")), 0%nat).
Proof. vm_compute. reflexivity. Qed.
End PipelineSample.

Lemma refused_chat_costs_nothing_witness :
  InMemory.load (sv_store (drop_debit (SHA := toy_sha256) (ST := @InMemory.store ascii_tables)
    (pr_admission_debit PipelineSample.request) PipelineSample.admitted))
    (@key toy_sha256 (for_session (lit "s-1") sample_spec) (lit "tokens"))
  = InMemory.load (sv_store PipelineSample.start) (@key toy_sha256 (for_session (lit "s-1") sample_spec) (lit "tokens")).
Proof.
  pose proof (@refused_chat_costs_nothing ascii_tables toy_sha256 toy_hmac JournalSample.serde Sample.libs toy_schema
    InMemory.t _ (@InMemoryFacts.store_laws ascii_tables) (fun _ _ => 0) PipelineSample.app PipelineSample.draws
    AuthzSample.headers PipelineSample.payload None None PipelineSample.start InMemoryFacts.wf_new
    PipelineSample.start_keyed sample_typed PipelineSample.principal_typed PipelineSample.sizes) as H.
  change (@prepare_chat_with_caller ascii_tables toy_sha256 toy_hmac JournalSample.serde Sample.libs toy_schema
    InMemory.t (@InMemory.store ascii_tables) (fun _ _ => 0) PipelineSample.app PipelineSample.draws
    AuthzSample.headers PipelineSample.payload None None PipelineSample.start)
    with (PipelineSample.admit_chat PipelineSample.start) in H.
  rewrite PipelineSample.runs in H. destruct H as (_ & _ & _ & _ & H). exact (H (@key toy_sha256 (for_session (lit "s-1") sample_spec) (lit "tokens"))).
Defined.

Lemma admitted_request_entered_an_open_session_witness : exists s,
  heap (sv_world PipelineSample.admitted) !! 0%nat = Some s /\ is_closed s = false /\ breaker_open s = false.
Proof.
  destruct (@admitted_request_entered_an_open_session ascii_tables toy_sha256 toy_hmac JournalSample.serde Sample.libs
    toy_schema InMemory.t (@InMemory.store ascii_tables) (fun _ _ => 0) PipelineSample.app PipelineSample.draws
    AuthzSample.headers PipelineSample.payload None None PipelineSample.start PipelineSample.admitted
    PipelineSample.request PipelineSample.start_keyed PipelineSample.runs)
    as (sid & w & p & s & _ & _ & _ & _ & _ & Hs & He & Ho & _).
  exists s. split; [exact Hs|]. split; [exact (en_admitting _ _ _ _ _ He)|exact Ho].
Defined.

Lemma allowed_tool_call_was_authorized_witness : exists req,
  @parse_tool_call ascii_tables toy_serde toy_reader toy_text = Ok req /\
  admits (lit "write") 1210 (mkMission (lit "m1") [lit "write"] 2000 [] [] []).
Proof.
  pose proof (@allowed_tool_call_was_authorized ascii_tables toy_sha256 toy_serde toy_reader toy_schema toy_display
    InMemory.t _ (@InMemoryFacts.store_laws ascii_tables) PipelineSample.app PipelineSample.draws
    AuthzSample.headers toy_text PipelineSample.caller PipelineSample.start InMemoryFacts.wf_new
    PipelineSample.start_keyed sample_typed PipelineSample.principal_typed) as H.
  change (@intercept_tool_authenticated ascii_tables toy_sha256 toy_serde toy_reader toy_schema toy_display
    InMemory.t (@InMemory.store ascii_tables) PipelineSample.app PipelineSample.draws AuthzSample.headers toy_text
    PipelineSample.caller None PipelineSample.start)
    with (PipelineSample.intercept PipelineSample.start) in H.
  rewrite (snd_eq_pair _ _ PipelineSample.intercepts) in H. destruct H as (_ & sid & w & who & s & _ & _ & _ & H).
  destruct H as (req & payout & [Hp _] & _ & Hm & _). exists req. split; [exact Hp|].
  rewrite (Ok_inj _ _ (eq_trans (eq_sym Hp) toy_parse)) in Hm. apply Forall_cons in Hm as [Hm _]. exact Hm.
Defined.
