(* ===== verification/Attempts.v ===== *)
(** What the request pipeline does to the worker's queue and to the counters of the
    sessions: the books of who holds which permit, slot, lease and journalled attempt,
    and that every handler of [Pipeline] keeps them.  [AttemptProofs] runs the system. *)

From S2P Require Import Prelude Rust CoreBase Json Float LoopDetect Core Jcs Identity Validator Compress Rpc Store.
From S2P Require Import Budget Sandbox Serde Events Journal Exchange TokenRoutes Atif Session SessionProofs.
From S2P Require Import Worker WorkerQueue WorkerQueueProofs Authz ChatPayload Pipeline PipelineProofs.

(** * What is in the queue *)

Definition queued (h : Pool.t) : list Envelope := List.concat (map Pool.ch_queue (Pool.senders h)).

Definition opens (h : Pool.t) : list bool := map Pool.ch_open (Pool.senders h).

Lemma queue_insert (ss : list Pool.Channel) i c c' es : ss !! i = Some c ->
  Pool.ch_queue c' ≡ₚ es ++ Pool.ch_queue c ->
  List.concat (map Pool.ch_queue (<[i := c']> ss)) ≡ₚ es ++ List.concat (map Pool.ch_queue ss).
Proof.
  revert i. induction ss as [|x ss IH]; intros [|i]; cbn; [done..| |].
  - intros [= ->] ->. by rewrite app_assoc.
  - intros Hi He. specialize (IH i Hi He). cbn in IH. rewrite IH. rewrite !app_assoc.
    by rewrite (Permutation_app_comm _ es).
Qed.

Lemma map_insert_same {A B} (f : A -> B) (l : list A) i x x' : l !! i = Some x -> f x' = f x ->
  map f (<[i := x']> l) = map f l.
Proof.
  revert i. induction l as [|y l IH]; intros [|i]; cbn; [done..| |].
  - by intros [= ->] ->.
  - intros Hi He. f_equal. by apply IH.
Qed.

(** Operations that leave the queue and the state of the channels alone. *)
Definition same_queue (h h' : Pool.t) : Prop := queued h' = queued h /\ opens h' = opens h.

Lemma same_set h i c c' : Pool.senders h !! i = Some c -> Pool.ch_queue c' = Pool.ch_queue c ->
  Pool.ch_open c' = Pool.ch_open c -> same_queue h (Pool.set_channel h i c').
Proof.
  intros Hc Hq Ho. split; unfold queued, opens; change (Pool.senders (Pool.set_channel h i c')) with (<[i := c']> (Pool.senders h)).
  - f_equal. by apply (map_insert_same _ _ _ c).
  - by apply (map_insert_same _ _ _ c).
Qed.

Lemma same_senders h h' : Pool.senders h' = Pool.senders h -> same_queue h h'.
Proof. intros E. unfold same_queue, queued, opens. by rewrite E. Qed.

Lemma same_trans h1 h2 h3 : same_queue h1 h2 -> same_queue h2 h3 -> same_queue h1 h3.
Proof. intros [H1 H2] [H3 H4]. split; congruence. Qed.

Lemma release_senders o h : Pool.senders (Pool.release o h) = Pool.senders h.
Proof. by destruct o. Qed.

Lemma try_reserve_same sid h h' r : Pool.try_reserve sid h = (h', r) -> same_queue h h'.
Proof.
  unfold Pool.try_reserve, Pool.try_capacity_labeled. destruct (Pool.capacity h) as [|n].
  { intros [= <- _]. by apply same_senders. }
  set (h1 := h<|Pool.capacity := n|>). destruct (Pool.sender_for h1 sid) as [c|] eqn:Hc.
  - destruct (negb (Pool.ch_open c)); [intros [= <- _]; by apply same_senders|].
    destruct (negb (Pool.has_room c)); [intros [= <- _]; by apply same_senders|].
    intros [= <- _]. apply same_trans with h1; [by apply same_senders|]. by apply (same_set h1 _ c).
  - intros [= <- _]. by apply same_senders.
Qed.

Lemma drop_permit_same i h : same_queue h (Pool.drop_worker_permit i h).
Proof.
  unfold Pool.drop_worker_permit. destruct (Pool.senders h !! i) as [c|] eqn:Hc; [|by apply same_senders].
  eapply same_trans; [by apply (same_set h i c (c<|Pool.ch_reserved := (Pool.ch_reserved c - 1)%nat|>))|].
  by apply same_senders.
Qed.

Lemma try_reserve_pair_same sid h h' r : Pool.try_reserve_pair sid h = (h', r) -> same_queue h h'.
Proof.
  unfold Pool.try_reserve_pair. destruct (Pool.try_reserve sid h) as [h1 [i|e]] eqn:E; apply try_reserve_same in E.
  - unfold Pool.try_reserve_response. destruct (Pool.response_capacity h1) as [|n]; intros [= <- _].
    + eapply same_trans; [exact E|]. eapply same_trans; [|apply drop_permit_same]. by apply same_senders.
    + eapply same_trans; [exact E|]. by apply same_senders.
  - by intros [= <- _].
Qed.

(** Operations that put one envelope in. *)
Definition adds (e : Envelope) (h h' : Pool.t) : Prop := queued h' ≡ₚ e :: queued h /\ opens h' = opens h.

Lemma adds_set h i c c' e : Pool.senders h !! i = Some c -> Pool.ch_queue c' = Pool.ch_queue c ++ [e] ->
  Pool.ch_open c' = Pool.ch_open c -> adds e h (Pool.set_channel h i c').
Proof.
  intros Hc Hq Ho. split; unfold queued, opens; change (Pool.senders (Pool.set_channel h i c')) with (<[i := c']> (Pool.senders h)).
  - apply (queue_insert _ i c c' [e]); [done|]. rewrite Hq. by rewrite Permutation_app_comm.
  - by apply (map_insert_same _ _ _ c).
Qed.

Lemma submit_adds i sid job w h w' h' : (i < length (Pool.senders h))%nat -> Pool.submit i sid job w h = (w', h') ->
  w' = Pool.started (wj_session job) w /\ adds (mkEnvelope sid job FromCapacity) h h'.
Proof.
  intros [c Hc]%lookup_lt_is_Some_2. unfold Pool.submit.
  change (Pool.senders (Pool.add_pending h)) with (Pool.senders h). rewrite Hc. intros [= <- <-]. split; [done|].
  by apply (adds_set (Pool.add_pending h) i c).
Qed.

Definition undone (a : addr) (w : World) : World := Pool.finished a (Pool.started a w).

Lemma send_effect sid job o stage w h w' h' r : Pool.submit_with_permit sid job o stage w h = (w', h', r) ->
  match r with
  | Ok _ => w' = Pool.started (wj_session job) w /\ adds (mkEnvelope sid job o) h h'
  | Err e => (w' = w \/ w' = undone (wj_session job) w) /\ same_queue h h' /\
             (e = Closed -> Pool.senders h <> [] -> ~ Forall (fun b => b = true) (opens h))
  end.
Proof.
  unfold Pool.submit_with_permit. destruct (Pool.sender_for h sid) as [c|] eqn:Hc.
  - destruct (Pool.ch_open c) eqn:Ho; cbn [negb].
    + destruct (Pool.has_room c); cbn [negb]; intros [= <- <- <-].
      * split; [done|]. by apply (adds_set (Pool.add_pending h) (Pool.shard_of h sid) c).
      * split_and!; [by right| |done]. apply same_senders. by destruct o.
    + intros [= <- <- <-]. split_and!; [by right|apply same_senders; by destruct o|]. intros _ _ Hf.
      unfold opens in Hf. rewrite Forall_map, Forall_lookup in Hf. specialize (Hf _ _ Hc). cbn in Hf. congruence.
  - intros [= <- <- <-]. split_and!; [by left|apply same_senders, release_senders|]. intros _ Hne _.
    unfold Pool.sender_for in Hc. apply lookup_ge_None in Hc. unfold Pool.shard_of, partition_for in Hc.
    assert (0 < length (Pool.senders h))%nat by (destruct (Pool.senders h); [done|cbn; lia]).
    pose proof (Z.mod_pos_bound (fnv1a (as_bytes sid)) (Z.max (Z.of_nat (length (Pool.senders h))) 1)). lia.
Qed.

(** * The invariant *)

Definition env_session (e : Envelope) : addr := wj_session (en_job e).

(** The attempts a list of envelopes opens, and those it closes. *)
Definition attempt_of (terminal : bool) (e : Envelope) : option (addr * str) :=
  match wj_response_attempt (en_job e) with
  | Some a => if Bool.eqb (ra_terminal a) terminal then Some (env_session e, ra_id a) else None
  | None => None
  end.

Definition opened (l : list Envelope) : list (addr * str) := omap (attempt_of false) l.
Definition closed_by (l : list Envelope) : list (addr * str) := omap (attempt_of true) l.

#[export] Instance opened_perm : Proper ((≡ₚ) ==> (≡ₚ)) opened.
Proof. intros l l' H. unfold opened. by rewrite H. Qed.

#[export] Instance closed_perm : Proper ((≡ₚ) ==> (≡ₚ)) closed_by.
Proof. intros l l' H. unfold closed_by. by rewrite H. Qed.

(** Who holds what: worker permits by shard, response slots, the envelopes being
    processed and those done, the attempts open and with an owner, one entry per lease,
    and the attempts whose record was lost with their session marked. *)
Record Book := mkBook {
  bk_permits : list nat;
  bk_slots : nat;
  bk_running : list Envelope;
  bk_done : list Envelope;
  bk_attempts : list (addr * str);
  bk_streams : list addr;
  bk_lost : list (addr * str);
}.

Section Attempts.
Context {UT : UnicodeTables} {R : Ryu} {SHA : Sha256} {HM : HmacSha256} {SJ : SerdeJson} {JR : JsonReader}.
Context {TL : TokenLibs} {JS : JsonSchema} {DF : DisplayF64} {RS : RecordSerde}.
Context {St : Type} {ST : StateStore St} (C : nat).

(** Everything ever submitted. *)
Definition submitted (b : Book) (sv : Server St) : list Envelope :=
  queued (sv_pool sv) ++ bk_running b ++ bk_done b.

Definition in_flight_of (b : Book) (sv : Server St) : list Envelope := queued (sv_pool sv) ++ bk_running b.

Definition valid (sv : Server St) (a : addr) : Prop := (a < length (heap (sv_world sv)))%nat.

Definition is_lost (sv : Server St) (x : addr * str) : Prop :=
  exists s, heap (sv_world sv) !! x.1 = Some s /\ capture_failed s = true.

Record ok (b : Book) (sv : Server St) : Prop := {
  ok_pool : let h := sv_pool sv in
    PoolFacts.inv C (Pool.senders h) (Pool.pending h) (Pool.capacity h) (Pool.response_capacity h)
      (bk_permits b) (bk_slots b) (bk_running b);
  ok_shards : Pool.senders (sv_pool sv) <> [];
  ok_registered : forall k a, sessions (sv_world sv) !! k = Some a -> valid sv a;
  ok_streams : forall a s, heap (sv_world sv) !! a = Some s ->
    active_streams s = Z.of_nat (PoolFacts.held a (bk_streams b)) mod 2 ^ 64;
  ok_pending : forall a s, heap (sv_world sv) !! a = Some s ->
    pending_jobs s = Z.of_nat (PoolFacts.held a (map env_session (in_flight_of b sv))) mod 2 ^ 64;
  ok_owners : Forall (valid sv) (bk_streams b) /\ Forall (valid sv) (map env_session (in_flight_of b sv));
  ok_attempts : opened (submitted b sv) ≡ₚ bk_attempts b ++ closed_by (submitted b sv) ++ bk_lost b;
  ok_lost : Forall (is_lost sv) (bk_lost b);
  ok_open : Forall (fun o => o = true) (opens (sv_pool sv)) -> bk_lost b = [];
}.

(** ** Steps of the world *)

(** Sessions that gain nothing the invariant counts: same counters, no loss undone. *)
Definition calm (s s' : Session) : Prop :=
  active_streams s' = active_streams s /\ pending_jobs s' = pending_jobs s /\
  (capture_failed s = true -> capture_failed s' = true).

(** The heap only grows, by idle sessions, and its sessions change calmly. *)
Record quiet_world (w w' : World) : Prop := {
  qw_kept : forall a s, heap w !! a = Some s -> exists s', heap w' !! a = Some s' /\ calm s s';
  qw_new : forall a s', heap w' !! a = Some s' -> heap w !! a = None -> active_streams s' = 0 /\ pending_jobs s' = 0;
  qw_registered : forall k a, sessions w' !! k = Some a -> is_Some (heap w' !! a);
}.

Lemma valid_some (sv : Server St) a : valid sv a <-> is_Some (heap (sv_world sv) !! a).
Proof. unfold valid. by rewrite lookup_lt_is_Some. Qed.

Lemma held_invalid n (P : nat -> Prop) l : Forall P l -> ~ P n -> PoolFacts.held n l = 0%nat.
Proof.
  intros Hf Hn. unfold PoolFacts.held. induction Hf as [|x l Hx _ IH]; [done|]. cbn.
  destruct (Nat.eqb_spec n x); [congruence|done].
Qed.

Lemma ok_world b (sv sv' : Server St) : sv_pool sv' = sv_pool sv -> quiet_world (sv_world sv) (sv_world sv') ->
  ok b sv -> ok b sv'.
Proof.
  intros Ep [Hk Hn Hr] [I1 I2 I3 I4 I5 [I6 I7] I8 I9 I10].
  assert (forall a, valid sv a -> valid sv' a) as Hv.
  { intros a. rewrite !valid_some. intros [s Hs]. destruct (Hk a s Hs) as (s' & Hs' & _). by eexists. }
  assert (submitted b sv' = submitted b sv /\ in_flight_of b sv' = in_flight_of b sv) as [Es Ei].
  { unfold submitted, in_flight_of. by rewrite Ep. }
  split; rewrite ?Ep, ?Es, ?Ei; try done.
  - intros k a Ha. apply valid_some. by eapply Hr.
  - intros a s' Hs'. destruct (heap (sv_world sv) !! a) as [s|] eqn:E.
    + destruct (Hk a s E) as (s1 & Hs1 & (A & _ & _)). rewrite Hs' in Hs1. injection Hs1 as <-. rewrite A. by apply I4.
    + destruct (Hn a s' Hs' E) as [-> _]. rewrite (held_invalid a (valid sv)); [done|done|]. rewrite valid_some, E. by intros [? [=]].
  - intros a s' Hs'. destruct (heap (sv_world sv) !! a) as [s|] eqn:E.
    + destruct (Hk a s E) as (s1 & Hs1 & (_ & A & _)). rewrite Hs' in Hs1. injection Hs1 as <-. rewrite A. by apply I5.
    + destruct (Hn a s' Hs' E) as [_ ->]. rewrite (held_invalid a (valid sv)); [done|done|]. rewrite valid_some, E. by intros [? [=]].
  - split; [eapply Forall_impl; [exact I6|]; auto|eapply Forall_impl; [exact I7|]; auto].
  - eapply Forall_impl; [exact I9|]. intros [a x] (s & Hs & Hc). destruct (Hk a s Hs) as (s' & Hs' & (_ & _ & A)).
    exists s'. split; [done|by apply A].
Qed.

Lemma quiet_refl w : (forall k a, sessions w !! k = Some a -> is_Some (heap w !! a)) -> quiet_world w w.
Proof.
  intros Hr. split; [|congruence|done]. intros a s Hs. exists s. by split_and!.
Qed.

Lemma ok_world_registered b sv : ok b sv -> forall k a, sessions (sv_world sv) !! k = Some a -> is_Some (heap (sv_world sv) !! a).
Proof. intros Hok k a Ha. apply valid_some. by eapply ok_registered. Qed.

Lemma ok_session_if f a b (sv : Server St) :
  (forall s, heap (sv_world sv) !! a = Some s -> calm s (f s)) -> ok b sv -> ok b (on_session_at f a sv).
Proof.
  intros Hf Hok. apply (ok_world b sv); [done| |exact Hok].
  assert (forall c s, heap (sv_world sv) !! c = Some s ->
    exists s', heap (sv_world (on_session_at f a sv)) !! c = Some s' /\ calm s s') as Hk.
  { intros c s Hs. change (exists s', alter f a (heap (sv_world sv)) !! c = Some s' /\ calm s s').
    destruct (decide (a = c)) as [->|].
    - exists (f s). rewrite list_lookup_alter_eq, Hs. split; [done|by apply Hf].
    - exists s. rewrite list_lookup_alter_ne by done. by split_and!. }
  split; [done| |].
  - intros c s' Hs' Hn. change (alter f a (heap (sv_world sv)) !! c = Some s') in Hs'.
    apply lookup_lt_Some in Hs'. rewrite length_alter in Hs'. apply lookup_ge_None in Hn. lia.
  - intros k c Hc. destruct (ok_world_registered _ _ Hok k c Hc) as [s Hs]. destruct (Hk c s Hs) as (s' & Hs' & _). by eexists.
Qed.

Lemma ok_session f a b (sv : Server St) : (forall s, calm s (f s)) -> ok b sv -> ok b (on_session_at f a sv).
Proof. intros Hf. apply ok_session_if. auto. Qed.

(** What neither the world nor the pool notices. *)
Lemma ok_same b (sv sv' : Server St) : sv_world sv' = sv_world sv -> sv_pool sv' = sv_pool sv -> ok b sv -> ok b sv'.
Proof.
  intros Ew Ep Hok. apply (ok_world b sv); [done| |exact Hok]. rewrite Ew. apply quiet_refl. by apply (ok_world_registered b).
Qed.

Lemma ok_alloc (b : Book) (sv : Server St) (s : Session) (reg : gmap str addr) : active_streams s = 0 -> pending_jobs s = 0 ->
  (forall k a, reg !! k = Some a -> sessions (sv_world sv) !! k = Some a \/ a = length (heap (sv_world sv))) ->
  ok b sv -> ok b (sv<|sv_world := mkWorld (heap (sv_world sv) ++ [s]) reg|>).
Proof.
  intros Ha Hp Hreg Hok. apply (ok_world b sv); [done| |exact Hok]. split.
  - intros a s0 Hs. exists s0. split; [|by split_and!]. by apply lookup_app_l_Some.
  - intros a s' Hs' Hn. apply lookup_app_Some in Hs' as [Hs'|[Hl Hs']]; [congruence|].
    apply list_lookup_singleton_Some in Hs' as [_ <-]. done.
  - intros k a [Hk| ->]%Hreg.
    + destruct (ok_world_registered _ _ Hok k a Hk) as [s0 Hs0]. exists s0. by apply lookup_app_l_Some.
    + exists s. cbn. by rewrite lookup_app_r, Nat.sub_diag.
Qed.

(** ** Steps of the pool *)

Definition with_pool (b : Book) (ps : list nat) (q : nat) : Book := b<|bk_permits := ps|><|bk_slots := q|>.

Lemma ok_same_queue b (sv : Server St) h ps q : same_queue (sv_pool sv) h -> Pool.senders h <> [] ->
  PoolFacts.inv C (Pool.senders h) (Pool.pending h) (Pool.capacity h) (Pool.response_capacity h) ps q (bk_running b) ->
  ok b sv -> ok (with_pool b ps q) (sv<|sv_pool := h|>).
Proof.
  intros [Eq Eo] Hne Hi [I1 I2 I3 I4 I5 I6 I7 I8 I9].
  assert (submitted (with_pool b ps q) (sv<|sv_pool := h|>) = submitted b sv /\
          in_flight_of (with_pool b ps q) (sv<|sv_pool := h|>) = in_flight_of b sv) as [Es Ei].
  { unfold submitted, in_flight_of. change (sv_pool (sv<|sv_pool := h|>)) with h. by rewrite Eq. }
  split; rewrite ?Es, ?Ei; try done. change (Forall (fun o => o = true) (opens h) -> bk_lost b = []). by rewrite Eo.
Qed.

Lemma not_empty_opens h h' : opens h' = opens h -> Pool.senders h <> [] -> Pool.senders h' <> [].
Proof. unfold opens. destruct (Pool.senders h), (Pool.senders h'); done. Qed.

Lemma ok_pool_same b (sv : Server St) h ps q : same_queue (sv_pool sv) h ->
  PoolFacts.inv C (Pool.senders h) (Pool.pending h) (Pool.capacity h) (Pool.response_capacity h) ps q (bk_running b) ->
  ok b sv -> ok (with_pool b ps q) (sv<|sv_pool := h|>).
Proof. intros Hs Hi Hok. apply ok_same_queue; [done| |done..]. eapply not_empty_opens; [apply Hs|]. apply Hok. Qed.

Lemma ok_try_reserve b (sv : Server St) sid h r : Pool.try_reserve sid (sv_pool sv) = (h, r) -> ok b sv ->
  ok (with_pool b (match r with Ok i => i :: bk_permits b | Err _ => bk_permits b end) (bk_slots b)) (sv<|sv_pool := h|>).
Proof.
  intros E Hok. destruct (PoolFacts.try_reserve_spec _ _ _ _ _ _ _ _ (ok_pool _ _ Hok) E) as (_ & Hi & _).
  apply ok_pool_same; [by eapply try_reserve_same|done..].
Qed.

Lemma ok_reserve_pair b (sv : Server St) sid h r : Pool.try_reserve_pair sid (sv_pool sv) = (h, r) -> ok b sv ->
  ok (match r with Ok i => with_pool b (i :: bk_permits b) (S (bk_slots b)) | Err _ => b end) (sv<|sv_pool := h|>).
Proof.
  intros E Hok. destruct (PoolFacts.reserve_pair_spec _ _ _ _ _ _ _ _ (ok_pool _ _ Hok) E) as [Hi _].
  apply try_reserve_pair_same in E. pose proof (ok_pool_same b sv h _ _ E Hi Hok) as H. by destruct r, b.
Qed.

Lemma ok_drop_response b (sv : Server St) n : bk_slots b = S n -> ok b sv ->
  ok (with_pool b (bk_permits b) n) (on_pool Pool.drop_response_permit sv).
Proof.
  intros En Hok. apply ok_pool_same; [by apply same_senders| |done].
  pose proof (ok_pool _ _ Hok) as Hi. cbn zeta in Hi. rewrite En in Hi. by apply PoolFacts.give_response.
Qed.

(** *** An envelope put in *)

Lemma held_app a l l' : PoolFacts.held a (l ++ l') = (PoolFacts.held a l + PoolFacts.held a l')%nat.
Proof. unfold PoolFacts.held. by rewrite List.filter_app, length_app. Qed.

Lemma started_heap a (w : World) c : heap (Pool.started a w) !! c =
  (if decide (a = c) then worker_job_started <$> heap w !! c else heap w !! c).
Proof.
  change (heap (Pool.started a w)) with (alter worker_job_started a (heap w)). destruct (decide (a = c)) as [->|].
  - by rewrite list_lookup_alter_eq.
  - by rewrite list_lookup_alter_ne.
Qed.

(** What the books say once [e] is in the queue. *)
Definition posted (b : Book) (e : Envelope) (attempts : list (addr * str)) : Prop :=
  match attempt_of false e with
  | Some x => attempts ≡ₚ x :: bk_attempts b
  | None => match attempt_of true e with
            | Some x => bk_attempts b ≡ₚ x :: attempts
            | None => attempts ≡ₚ bk_attempts b
            end
  end.

Definition with_attempts (b : Book) (l : list (addr * str)) : Book := b<|bk_attempts := l|>.

Lemma attempt_one_way e x : attempt_of false e = Some x -> attempt_of true e = None.
Proof. unfold attempt_of. destruct (wj_response_attempt (en_job e)) as [[? []]|]; done. Qed.

Lemma balanced b (l : list Envelope) e attempts : posted b e attempts ->
  opened l ≡ₚ bk_attempts b ++ closed_by l ++ bk_lost b ->
  opened (e :: l) ≡ₚ attempts ++ closed_by (e :: l) ++ bk_lost b.
Proof.
  unfold posted. intros Hp Hl. unfold opened, closed_by in *. cbn.
  destruct (attempt_of false e) as [x|] eqn:E0.
  - rewrite (attempt_one_way _ _ E0), Hp. cbn. by rewrite Hl.
  - destruct (attempt_of true e) as [x|].
    + rewrite Hl, Hp. cbn. by rewrite <- Permutation_middle.
    + by rewrite Hp.
Qed.

Lemma ok_post b (sv : Server St) h e ps q attempts : let a := env_session e in
  adds e (sv_pool sv) h -> valid sv a -> posted b e attempts ->
  PoolFacts.inv C (Pool.senders h) (Pool.pending h) (Pool.capacity h) (Pool.response_capacity h) ps q (bk_running b) ->
  ok b sv ->
  ok (with_attempts (with_pool b ps q) attempts) (sv<|sv_world := Pool.started a (sv_world sv)|><|sv_pool := h|>).
Proof.
  intros a [Eq Eo] Ha Hp Hi [I1 I2 I3 I4 I5 [I6 I7] I8 I9 I10].
  set (sv' := sv<|sv_world := Pool.started a (sv_world sv)|><|sv_pool := h|>). set (b' := with_attempts (with_pool b ps q) attempts).
  assert (submitted b' sv' ≡ₚ e :: submitted b sv) as Es.
  { unfold submitted. change (sv_pool sv') with h. rewrite Eq. done. }
  assert (in_flight_of b' sv' ≡ₚ e :: in_flight_of b sv) as Ei.
  { unfold in_flight_of. change (sv_pool sv') with h. rewrite Eq. done. }
  assert (forall c, valid sv c -> valid sv' c) as Hv.
  { intros c. unfold valid. change (heap (sv_world sv')) with (alter worker_job_started a (heap (sv_world sv))). by rewrite length_alter. }
  assert (forall c s', heap (sv_world sv') !! c = Some s' -> exists s, heap (sv_world sv) !! c = Some s /\
     (active_streams s' = active_streams s /\ (capture_failed s = true -> capture_failed s' = true)) /\
     pending_jobs s' = if decide (a = c) then fetch_add (pending_jobs s) else pending_jobs s) as Hc.
  { intros c s'. change (heap (sv_world sv')) with (heap (Pool.started a (sv_world sv))). rewrite started_heap.
    destruct (decide (a = c)) as [->|].
    - intros (s & Hs & ->)%fmap_Some. exists s. by split_and!.
    - intros Hs. exists s'. by split_and!. }
  split.
  - done.
  - by eapply not_empty_opens.
  - intros k c Hk. apply Hv. by apply (I3 k).
  - intros c s' (s & Hs & [-> _] & _)%Hc. by apply I4.
  - intros c s' (s & Hs & _ & ->)%Hc. rewrite (PoolFacts.held_perm c _ _ (Permutation_map env_session Ei)).
    change (map env_session (e :: in_flight_of b sv)) with (a :: map env_session (in_flight_of b sv)).
    rewrite PoolFacts.held_cons, (I5 c s Hs). destruct (decide (a = c)) as [->|Hne].
    + rewrite Nat.eqb_refl. apply PoolFacts.mod64_succ.
    + by rewrite (proj2 (Nat.eqb_neq c a)).
  - split; [eapply Forall_impl; [exact I6|exact Hv]|]. rewrite (Permutation_map env_session Ei). constructor; [by apply Hv|].
    eapply Forall_impl; [exact I7|exact Hv].
  - rewrite Es. exact (balanced b _ e attempts Hp I8).
  - eapply Forall_impl; [exact I9|]. intros [c x] (s & Hs & Hf). change (heap (sv_world sv) !! c = Some s) in Hs.
    destruct (heap (sv_world sv') !! c) as [s'|] eqn:E.
    + exists s'. split; [done|]. apply Hc in E as (s0 & Hs0 & [_ H] & _). rewrite Hs in Hs0. injection Hs0 as <-. by apply H.
    + apply lookup_ge_None in E. apply lookup_lt_Some in Hs.
      change (heap (sv_world sv')) with (alter worker_job_started a (heap (sv_world sv))) in E. rewrite length_alter in E. lia.
  - change (Forall (fun o => o = true) (opens h) -> bk_lost b = []). by rewrite Eo.
Qed.

(** *** The submissions of the pipeline *)

Lemma valid_on_session f a (sv : Server St) c : valid (on_session_at f a sv) c <-> valid sv c.
Proof.
  unfold valid. change (heap (sv_world (on_session_at f a sv))) with (alter f a (heap (sv_world sv))). by rewrite length_alter.
Qed.

Lemma ok_submit_reserved b (sv : Server St) i rest job attempts : bk_permits b = i :: rest -> valid sv (wj_session job) ->
  posted b (mkEnvelope [] job FromCapacity) attempts -> ok b sv ->
  ok (with_attempts (with_pool b rest (bk_slots b)) attempts) (submit_reserved i job sv).
Proof.
  intros Hp Ha Hat Hok. unfold submit_reserved. destruct (Pool.submit i _ job (sv_world sv) (sv_pool sv)) as [w h] eqn:E.
  pose proof (ok_pool _ _ Hok) as Hi. cbn zeta in Hi.
  assert (i < length (Pool.senders (sv_pool sv)))%nat as Hlt.
  { pose proof (PoolFacts.inv_shards _ _ _ _ _ _ _ _ Hi) as H. rewrite Hp in H. by inversion H. }
  destruct (submit_adds _ _ _ _ _ _ _ Hlt E) as [-> Had].
  refine (ok_post b sv h (mkEnvelope _ job FromCapacity) _ _ attempts Had Ha Hat _ Hok).
  eapply PoolFacts.submit_spec; [exact Hi| |exact E]. by rewrite Hp.
Qed.

Lemma alter_alter {A} (f g : A -> A) i (l : list A) : alter g i (alter f i l) = alter (fun x => g (f x)) i l.
Proof. revert i. induction l as [|x l IH]; intros [|i]; [done..|]. cbn. f_equal. apply IH. Qed.

Lemma ok_undone b a (sv : Server St) : ok b sv -> ok b (sv<|sv_world := undone a (sv_world sv)|>).
Proof.
  intros Hok. replace (sv<|sv_world := undone a (sv_world sv)|>)
    with (on_session_at (fun s => (worker_job_finished (worker_job_started s)).1) a sv).
  - apply ok_session_if; [|done]. intros s Hs. split_and!; [done| |done].
    change (fetch_sub (fetch_add (pending_jobs s)) = pending_jobs s). rewrite (ok_pending _ _ Hok a s Hs).
    by rewrite PoolFacts.mod64_succ, PoolFacts.mod64_pred.
  - unfold on_session_at, undone, Pool.finished, Pool.started, Pool.session_at. cbn.
    by rewrite alter_alter.
Qed.

Definition with_lost (b : Book) (l : list (addr * str)) : Book := b<|bk_lost := l|>.

Lemma ok_lose b (sv : Server St) x attempts : bk_attempts b ≡ₚ x :: attempts -> is_lost sv x ->
  ~ Forall (fun o => o = true) (opens (sv_pool sv)) -> ok b sv ->
  ok (with_lost (with_attempts b attempts) (x :: bk_lost b)) sv.
Proof.
  intros Hp Hl Hn [I1 I2 I3 I4 I5 I6 I7 I8 I9]. split; try done.
  - change (opened (submitted b sv) ≡ₚ attempts ++ closed_by (submitted b sv) ++ x :: bk_lost b).
    rewrite I7, Hp. cbn. by rewrite !Permutation_middle.
  - by constructor.
Qed.

(** A terminal record sent through the response slot: it is in the queue, or the
    session is marked and some channel is closed. *)
Definition closing (b : Book) (x : addr * str) (rest : list (addr * str)) (n : nat) (b' : Book) : Prop :=
  let b0 := with_attempts (with_pool b (bk_permits b) n) rest in b' = b0 \/ b' = with_lost b0 (x :: bk_lost b).

Lemma ok_close b (sv : Server St) n job id rest : bk_slots b = S n -> valid sv (wj_session job) ->
  wj_response_attempt job = Some (mkAttempt id true) -> bk_attempts b ≡ₚ (wj_session job, id) :: rest -> ok b sv ->
  exists b', closing b (wj_session job, id) rest n b' /\ ok b' (submit_or_fail_closed Pool.submit_response job sv).
Proof.
  intros Hn Ha Hj Hat Hok. unfold submit_or_fail_closed, submit_through, Pool.submit_response.
  set (sid := Session.id _). destruct (Pool.submit_with_permit sid job FromResponse StageResponseSlot (sv_world sv) (sv_pool sv))
    as [[w h] r] eqn:E.
  pose proof (ok_pool _ _ Hok) as Hi. cbn zeta in Hi. rewrite Hn in Hi.
  destruct (PoolFacts.send_spec _ _ _ FromResponse _ _ _ _ _ _ _ _ _ Hi E) as [Hi' Hfull]. apply send_effect in E.
  destruct r as [u|e].
  - destruct E as [-> Had]. eexists. split; [by left|].
    refine (ok_post b sv h (mkEnvelope sid job FromResponse) _ _ rest Had Ha _ Hi' Hok).
    unfold posted, attempt_of. cbn [en_job]. rewrite Hj. exact Hat.
  - destruct E as (Hw & Hs & Hc). eexists. split; [by right|].
    destruct e; [done|]. specialize (Hc eq_refl (ok_shards _ _ Hok)).
    assert (ok (with_pool b (bk_permits b) n) (sv<|sv_world := w|><|sv_pool := h|>)) as H.
    { apply (ok_pool_same b (sv<|sv_world := w|>) h (bk_permits b) n); [exact Hs|exact Hi'|].
      destruct Hw as [-> | ->]; [by destruct sv|by apply ok_undone]. }
    refine (ok_lose (with_pool b (bk_permits b) n) _ (wj_session job, id) rest Hat _ _ _);
      [| |apply ok_session; [intros s; by split_and!|exact H]].
    + assert (is_Some (heap w !! wj_session job)) as [s Hs0].
      { apply lookup_lt_is_Some. destruct Hw as [-> | ->]; [done|]. unfold undone. cbn. by rewrite !length_alter. }
      exists (mark_capture_failed s). split; [|done].
      change (alter mark_capture_failed (wj_session job) (heap w) !! wj_session job = Some (mark_capture_failed s)).
      by rewrite list_lookup_alter_eq, Hs0.
    + change (~ Forall (fun o => o = true) (opens h)). destruct Hs as [_ ->]. exact Hc.
Qed.

(** ** Leases *)

Definition with_streams (b : Book) (l : list addr) : Book := b<|bk_streams := l|>.

Lemma ok_leases f a b (sv : Server St) l :
  (forall s, active_streams s = Z.of_nat (PoolFacts.held a (bk_streams b)) mod 2 ^ 64 ->
     active_streams (f s) = Z.of_nat (PoolFacts.held a l) mod 2 ^ 64) ->
  (forall s, pending_jobs (f s) = pending_jobs s /\ capture_failed (f s) = capture_failed s) ->
  (forall c, c <> a -> PoolFacts.held c l = PoolFacts.held c (bk_streams b)) -> Forall (valid sv) l ->
  ok b sv -> ok (with_streams b l) (on_session_at f a sv).
Proof.
  intros Hf Hk Hl Hv [I1 I2 I3 I4 I5 [I6 I7] I8 I9 I10].
  set (sv' := on_session_at f a sv).
  assert (forall c, heap (sv_world sv') !! c = if decide (a = c) then f <$> heap (sv_world sv) !! c else heap (sv_world sv) !! c) as Hh.
  { intros c. change (heap (sv_world sv')) with (alter f a (heap (sv_world sv))). destruct (decide (a = c)) as [->|].
    - by rewrite list_lookup_alter_eq.
    - by rewrite list_lookup_alter_ne. }
  assert (forall c, valid sv c -> valid sv' c) as Hval by (intros c; apply valid_on_session).
  split; try done.
  - intros k c Hc. by eapply Hval, I3.
  - intros c s'. rewrite Hh. change (bk_streams (with_streams b l)) with l. destruct (decide (a = c)) as [->|Hne].
    + intros (s & Hs & ->)%fmap_Some. apply Hf. by apply I4.
    + intros Hs. rewrite Hl by done. by apply I4.
  - intros c s'. rewrite Hh. change (in_flight_of (with_streams b l) sv') with (in_flight_of b sv). destruct (decide (a = c)) as [->|Hne].
    + intros (s & Hs & ->)%fmap_Some. destruct (Hk s) as [-> _]. by apply I5.
    + apply I5.
  - split; [eapply Forall_impl; [exact Hv|exact Hval]|eapply Forall_impl; [exact I7|exact Hval]].
  - eapply Forall_impl; [exact I9|]. intros [c x] (s & Hs & Hc). change (heap (sv_world sv) !! c = Some s) in Hs.
    change (exists s, heap (sv_world sv') !! c = Some s /\ capture_failed s = true). rewrite Hh, Hs.
    destruct (decide (a = c)); [|by eexists]. eexists. split; [done|]. by destruct (Hk s) as [_ ->].
Qed.

Lemma ok_lease a b (sv : Server St) : valid sv a -> ok b sv ->
  ok (with_streams b (a :: bk_streams b)) (on_session_at lease_new a sv).
Proof.
  intros Ha Hok. apply ok_leases; [| |intros c Hc|constructor; [done|apply Hok]|done].
  - intros s Hs. rewrite PoolFacts.held_cons, Nat.eqb_refl. change (fetch_add (active_streams s) = Z.of_nat (S (PoolFacts.held a (bk_streams b))) mod 2 ^ 64).
    rewrite Hs. apply PoolFacts.mod64_succ.
  - done.
  - by rewrite PoolFacts.held_cons, (proj2 (Nat.eqb_neq c a)).
Qed.

Lemma ok_unlease a b (sv : Server St) rest : bk_streams b ≡ₚ a :: rest -> ok b sv ->
  ok (with_streams b rest) (drop_lease a sv).
Proof.
  intros Hp Hok. pose proof (ok_owners _ _ Hok) as [Hv _]. rewrite Hp in Hv. inversion Hv as [|? ? _ Hv'].
  apply ok_leases; [| |intros c Hc|done|done].
  - intros s. rewrite (PoolFacts.held_perm a _ _ Hp), PoolFacts.held_cons, Nat.eqb_refl. intros Hs.
    change (fetch_sub (active_streams s) = Z.of_nat (PoolFacts.held a rest) mod 2 ^ 64). rewrite Hs. apply PoolFacts.mod64_pred.
  - done.
  - by rewrite (PoolFacts.held_perm c _ _ Hp), PoolFacts.held_cons, (proj2 (Nat.eqb_neq c a)).
Qed.

(** * The end of an attempt *)

(** The record that closes the attempt is sent, or the session marked, and then the
    lease released; nothing before that touches sessions or queue. *)
Definition ends_attempt (a : addr) (x : str) (sv sv' : Server St) : Prop :=
  exists sv1 job, sv_world sv1 = sv_world sv /\ sv_pool sv1 = sv_pool sv /\
    wj_session job = a /\ wj_response_attempt job = Some (mkAttempt x true) /\
    sv' = drop_lease a (submit_or_fail_closed Pool.submit_response job sv1).

Lemma ok_end b (sv sv' : Server St) a x n rest leases : bk_slots b = S n -> bk_attempts b ≡ₚ (a, x) :: rest ->
  bk_streams b ≡ₚ a :: leases -> ends_attempt a x sv sv' -> ok b sv ->
  exists lost, ok (mkBook (bk_permits b) n (bk_running b) (bk_done b) rest leases lost) sv'.
Proof.
  intros Hn Hat Hst (sv1 & job & Ew & Ep & <- & Hj & ->) Hok. apply (ok_same _ sv sv1) in Hok; [|done|done].
  assert (valid sv1 (wj_session job)) as Hv.
  { pose proof (ok_owners _ _ Hok) as [H _]. rewrite Hst in H. by inversion H. }
  destruct (ok_close b sv1 n job x rest Hn Hv Hj Hat Hok) as (b' & Hb & Hok').
  exists (bk_lost b'). set (sv2 := submit_or_fail_closed _ _ _) in *. pose proof (ok_unlease (wj_session job) b' sv2 leases) as H.
  by destruct Hb as [-> | ->]; apply H.
Qed.

(** A guard as admission makes it: armed, with its slot. *)
Definition owns (g : ResponseCaptureGuard) (a : addr) : Prop :=
  rg_armed g = true /\ rg_permit g = true /\ rg_session g = a.

Lemma world_drop_debit ad (sv : Server St) :
  sv_world (drop_debit ad sv) = sv_world sv /\ sv_pool (drop_debit ad sv) = sv_pool sv.
Proof. unfold drop_debit. by destruct (_ =? _). Qed.

Lemma drop_guard_ends g a (sv sv1 : Server St) : owns g a -> sv_world sv1 = sv_world sv -> sv_pool sv1 = sv_pool sv ->
  ends_attempt a (rg_attempt_id g) sv (drop_lease a (drop_guard g sv1)).
Proof.
  intros (Ha & Hp & <-) Ew Ep. unfold drop_guard. rewrite Ha, Hp. cbn [negb]. eexists sv1, _. split_and!; [done|done| | |]; [..|reflexivity]; reflexivity.
Qed.

Lemma drop_prepared_ends pr (sv sv1 : Server St) : owns (pr_capture_guard pr) (pr_session pr) ->
  sv_world sv1 = sv_world sv -> sv_pool sv1 = sv_pool sv ->
  ends_attempt (pr_session pr) (rg_attempt_id (pr_capture_guard pr)) sv (drop_prepared pr sv1).
Proof.
  intros Ho Ew Ep. destruct (world_drop_debit (pr_admission_debit pr) sv1). apply drop_guard_ends; [done|congruence..].
Qed.

Lemma drop_forwarded_ends fr (sv : Server St) : owns (fr_capture_guard fr) (fr_session fr) ->
  ends_attempt (fr_session fr) (rg_attempt_id (fr_capture_guard fr)) sv (drop_forwarded fr sv).
Proof. intros Ho. by apply drop_guard_ends. Qed.

Lemma drop_debit_zero ad (sv : Server St) : ad_tokens ad = 0 -> drop_debit ad sv = sv.
Proof. intros Ht. unfold drop_debit. by rewrite Ht. Qed.

Lemma world_refund_now ad (sv : Server St) :
  sv_world (refund_now ad sv).1 = sv_world sv /\ sv_pool (refund_now ad sv).1 = sv_pool sv /\
  ad_tokens (refund_now ad sv).2 = 0.
Proof. unfold refund_now. by destruct (_ =? _). Qed.

Lemma abandon_ends {A} pr stop e (sv sv1 : Server St) : owns (pr_capture_guard pr) (pr_session pr) ->
  sv_world sv1 = sv_world sv -> sv_pool sv1 = sv_pool sv ->
  ends_attempt (pr_session pr) (rg_attempt_id (pr_capture_guard pr)) sv (abandon (A := A) pr stop e sv1).1.
Proof.
  destruct pr as [a who p ad0 [ga gi gm gx gp gr] ca up]. intros (Ha & Hp & Hs) Ew Ep. cbn in *. subst ga gp gr.
  unfold abandon, abandon_prepared. cbn [pr_admission_debit].
  destruct (world_refund_now ad0 sv1) as (Ew1 & Ep1 & Ht). destruct (refund_now ad0 sv1) as [sv2 ad]. cbn [fst snd] in *.
  set (job := resolving gm gx (failure_job a (workflow (session_of a sv2)) who stop (pipeline_error_to_string e))).
  set (sv3 := submit_or_fail_closed Pool.submit_response job sv2).
  change (ends_attempt a gx sv (drop_lease a (drop_debit ad sv3))). rewrite (drop_debit_zero ad sv3 Ht).
  eexists sv2, job. split_and!; [congruence|congruence| | |reflexivity]; reflexivity.
Qed.

Lemma on_spool_same {A} a (m : W A) (sv : Server St) :
  sv_world (on_spool a m sv).1 = sv_world sv /\ sv_pool (on_spool a m sv).1 = sv_pool sv.
Proof. unfold on_spool. by destruct (m _). Qed.

Lemma write_marker_same env wcfg d pr (sv : Server St) :
  sv_world (write_marker env wcfg d pr sv).1 = sv_world sv /\ sv_pool (write_marker env wcfg d pr sv).1 = sv_pool sv.
Proof. apply on_spool_same. Qed.

Section Ends.
Context (env : Env) (wcfg : WorkerConfig) (app : App).

Lemma cancelled_at_write_ends d pr (sv : Server St) : owns (pr_capture_guard pr) (pr_session pr) ->
  ends_attempt (pr_session pr) (rg_attempt_id (pr_capture_guard pr)) sv (cancelled_at_write env wcfg d pr sv).
Proof. intros Ho. by apply (drop_prepared_ends (arm_marker d pr)); [|apply write_marker_same..]. Qed.

Lemma cancelled_at_send_ends d pr (sv : Server St) : owns (pr_capture_guard pr) (pr_session pr) ->
  ends_attempt (pr_session pr) (rg_attempt_id (pr_capture_guard pr)) sv (cancelled_at_send env wcfg d pr sv).
Proof.
  intros Ho. unfold cancelled_at_send. set (pr' := (arm_marker d pr)<|pr_admission_debit := _|>).
  by apply (drop_prepared_ends pr'); [|apply write_marker_same..].
Qed.

Lemma send_failed_ends pr tokens e (sv sv1 : Server St) : owns (pr_capture_guard pr) (pr_session pr) ->
  sv_world sv1 = sv_world sv -> sv_pool sv1 = sv_pool sv ->
  ends_attempt (pr_session pr) (rg_attempt_id (pr_capture_guard pr)) sv (send_failed app pr tokens e sv1).1.
Proof.
  destruct pr as [a who p ad0 [ga gi gm gx gp gr] ca up]. intros (Ha & Hp & Hs) Ew Ep. cbn in Ha, Hp, Hs. subst ga gp gr.
  unfold send_failed. cbn [pr_session pr_identity pr_capture_guard take_permit rg_permit fst snd].
  set (sv2 := if is_connect e then _ else sv1). eexists sv2, _. split_and!; [| | | |reflexivity]; try reflexivity.
  - subst sv2. by destruct (is_connect e).
  - subst sv2. by destruct (is_connect e).
Qed.

Lemma send_failed_err pr tokens e (sv : Server St) : is_ok (send_failed app pr tokens e sv).2 = false.
Proof.
  unfold send_failed. destruct (take_permit _) as [g []]; [done|]. by destruct (enqueue_failure _ _ _ _ _) as [? []].
Qed.

(** Forwarding hands the guard on, with its marker, or ends the attempt. *)
Lemma forward_ends d send pr (sv : Server St) : owns (pr_capture_guard pr) (pr_session pr) ->
  match forward_chat env wcfg app d send pr sv with
  | (sv', Ok fr) => sv_world sv' = sv_world sv /\ sv_pool sv' = sv_pool sv /\ fr_session fr = pr_session pr /\
      owns (fr_capture_guard fr) (fr_session fr) /\
      rg_attempt_id (fr_capture_guard fr) = rg_attempt_id (pr_capture_guard pr)
  | (sv', Err _) => ends_attempt (pr_session pr) (rg_attempt_id (pr_capture_guard pr)) sv sv'
  end.
Proof.
  intros Ho. unfold forward_chat. destruct (write_marker_same env wcfg d (arm_marker d pr) sv) as [Ew Ep].
  destruct (write_marker env wcfg d (arm_marker d pr) sv) as [sv1 [u|e]]; cbn [fst] in Ew, Ep.
  - destruct (send _) as [status|e]; [by split_and!|]. unfold take_for_dispatch.
    match goal with |- context [send_failed app ?p ?t e sv1] => set (pr' := p); set (tokens := t) end.
    pose proof (send_failed_ends pr' tokens e sv sv1 Ho Ew Ep) as H. pose proof (send_failed_err pr' tokens e sv1) as Herr.
    by destruct (send_failed app pr' tokens e sv1) as [sv2 []].
  - pose proof (abandon_ends (A := ForwardedResponse) (arm_marker d pr) StopReason.Other
      (Unavailable (lit "in-flight response marker could not be persisted")) sv sv1 Ho Ew Ep) as H.
    unfold abandon in *. by destruct (abandon_prepared _ _ _ _).
Qed.
End Ends.

(** * Handlers *)

(** From a state of [Pre], [m] ends in one of [Q], or of [E] when it fails. *)
Definition triple {A} (Pre : Server St -> Prop) (m : P St A) (Q : A -> Server St -> Prop) (E : Server St -> Prop) : Prop :=
  forall sv, Pre sv -> match m sv with (sv', Ok a) => Q a sv' | (sv', Err _) => E sv' end.

Lemma hoare_bind {A B} Pre (m : P St A) (k : A -> P St B) Q R' E :
  triple Pre m Q E -> (forall a, triple (Q a) (k a) R' E) -> triple Pre (pbind m k) R' E.
Proof.
  intros Hm Hk sv Hp. specialize (Hm sv Hp). unfold pbind. destruct (m sv) as [sv1 [a|e]]; [|done]. by apply Hk.
Qed.

Lemma hoare_ret {A} (Pre : Server St -> Prop) (a : A) Q E : (forall sv, Pre sv -> Q a sv) -> triple Pre (pret a) Q E.
Proof. intros H sv. apply H. Qed.

Lemma hoare_fail {A} (Pre : Server St -> Prop) (e : PipelineError) (Q : A -> Server St -> Prop) (E : Server St -> Prop) :
  (forall sv, Pre sv -> E sv) -> triple Pre (pfail e) Q E.
Proof. intros H sv. apply H. Qed.

Lemma hoare_of {A} (Pre : Server St -> Prop) (r : result A PipelineError) (E : Server St -> Prop) :
  (forall sv, Pre sv -> E sv) -> triple Pre (pof r) (fun _ => Pre) E.
Proof. intros H sv Hp. unfold pof. destruct r; auto. Qed.

Lemma hoare_do (Pre : Server St -> Prop) f (Q E : Server St -> Prop) : (forall sv, Pre sv -> Q (f sv)) ->
  triple Pre (pdo f) (fun _ => Q) E.
Proof. intros H sv. apply H. Qed.

Lemma hoare_when (Pre : Server St -> Prop) c e (E : Server St -> Prop) : (forall sv, Pre sv -> E sv) ->
  triple Pre (pwhen c e) (fun _ => Pre) E.
Proof. intros H sv Hp. unfold pwhen. destruct c; [by apply H|done]. Qed.

Lemma hoare_read {A} (Pre : Server St -> Prop) (f : Server St -> A) E : triple Pre (fun sv => (sv, Ok (f sv))) (fun _ => Pre) E.
Proof. by intros sv. Qed.

(** [a] is a session, and the books are right. *)
Definition within (b : Book) (a : addr) (sv : Server St) : Prop := ok b sv /\ valid sv a.

Lemma within_ok b a (sv : Server St) : within b a sv -> ok b sv.
Proof. by intros []. Qed.
#[local] Hint Resolve within_ok : core.

Lemma within_session b a f (sv : Server St) : (forall s, calm s (f s)) -> within b a sv -> within b a (on_session_at f a sv).
Proof. intros Hf [Hok Hv]. split; [by apply ok_session|by apply valid_on_session]. Qed.

Lemma session_at_valid (sv : Server St) a : valid sv a -> heap (sv_world sv) !! a = Some (session_of a sv).
Proof. intros [s Hs]%valid_some. unfold session_of. by rewrite (list_lookup_total_correct _ _ _ Hs). Qed.

Lemma calm_latch r s : calm s (latch_enforcement s r).
Proof. by split_and!. Qed.

(** ** Opening and entering a session *)

Lemma hoare_open b reopen fresh sid (sv : Server St) : active_streams fresh = 0 -> pending_jobs fresh = 0 -> ok b sv ->
  let '(world, a) := Registry.get_or_open_inner reopen fresh sid (sv_world sv) in
  within b a (sv<|sv_world := world|>).
Proof.
  intros Hf Hp Hok. unfold Registry.get_or_open_inner.
  assert (forall a, sessions (sv_world sv) !! sid = Some a -> within b a (sv<|sv_world := sv_world sv|>)) as Hsame.
  { intros a Ha. split; [by apply (ok_same b sv)|]. by apply (ok_registered _ _ Hok sid). }
  assert (let '(w, a) := Registry.install (sv_world sv) sid fresh in within b a (sv<|sv_world := w|>)) as Hnew.
  { unfold Registry.install. split.
    - apply ok_alloc; [done..| |done]. intros k a [[_ <-]|[_ H]]%lookup_insert_Some; [by right|by left].
    - unfold valid. cbn. rewrite length_app. cbn. lia. }
  destruct (sessions (sv_world sv) !! sid) as [a|] eqn:Es; [|exact Hnew]. specialize (Hsame a eq_refl).
  destruct (reopen && _); [|done]. by destruct (Registry.holds _ _ _).
Qed.

Lemma hoare_bind_caller b a c : triple (within b a) (bind_caller a c) (fun _ => within b a) (ok b).
Proof.
  intros sv [Hok Hv]. unfold bind_caller. destruct c as [c|]; [|done].
  pose proof (session_at_valid _ _ Hv) as Hs.
  assert (forall s', calm (session_of a sv) s' -> within b a (on_session_at (fun _ => s') a sv)) as H.
  { intros s' Hc. split; [|by apply valid_on_session]. apply ok_session_if; [|done]. intros s. rewrite Hs. by intros [= <-]. }
  unfold bind_session, bind_principal. destruct (binding (session_of a sv)).
  - destruct (bool_decide _); [apply H|apply within_ok with a, H]; by split_and!.
  - apply H. by split_and!.
Qed.

Lemma hoare_enter app reopen refusal d sid w i c b :
  triple (ok b) (enter_session app (fun uid tuid ms now sid wf i br =>
                   Registry.get_or_open_inner reopen (new uid tuid ms now sid wf i br) sid) refusal d sid w i c)
    (fun a => within b a) (ok b).
Proof.
  unfold enter_session. apply hoare_bind with (fun a => within b a).
  { intros sv Hok. pose proof (hoare_open b reopen
      (new (d_scope_uid d) (d_trajectory_uid d) (d_open d).1 (d_open d).2 sid w i (breaker app)) sid sv eq_refl eq_refl Hok) as H.
    by destruct (Registry.get_or_open_inner _ _ _ _). }
  intros a. eapply hoare_bind; [apply hoare_read|]. intros s.
  eapply hoare_bind; [apply hoare_of; eauto|]. intros ?.
  eapply hoare_bind; [apply hoare_bind_caller|]. intros ?.
  eapply hoare_bind; [apply (hoare_do _ _ (within b a)); intros sv; apply within_session; intros s1; by split_and!|]. intros ?.
  eapply hoare_bind; [apply hoare_read|]. intros s1.
  eapply hoare_bind; [apply hoare_when; eauto|]. intros ?.
  eapply hoare_bind; [apply hoare_when; eauto|]. intros ?.
  eapply hoare_bind; [apply (hoare_do _ _ (within b a)); intros sv; apply within_session; intros s2; by split_and!|]. intros ?.
  by apply hoare_ret.
Qed.

Lemma hoare_breaker b a payload : triple (within b a) (breaker_gate a payload) (fun _ => within b a) (ok b).
Proof.
  intros sv H. unfold breaker_gate. destruct (breaker_open _); cbn [negb]; [|done].
  destruct (breaker_action _); [apply within_ok with a, within_session; [|done]; intros s; apply calm_latch| |
    apply within_ok with a, within_session; [|done]; intros s; apply calm_latch].
  destruct (inject_corrective_message payload); [|by apply within_ok with a].
  apply within_session; [|done]. intros s. by split_and!.
Qed.

Lemma hoare_tool_breaker b a : triple (within b a) (tool_breaker_gate a) (fun _ => within b a) (ok b).
Proof.
  intros sv H. unfold tool_breaker_gate. destruct (_ && _); [|done].
  apply within_ok with a, within_session; [|done]. intros s. apply calm_latch.
Qed.

(** ** Reserving and refusing *)

Lemma hoare_reserve_pair b a sid : triple (within b a) (reserve (Pool.try_reserve_pair sid))
  (fun i => within (with_pool b (i :: bk_permits b) (S (bk_slots b))) a) (ok b).
Proof.
  intros sv [Hok Hv]. unfold reserve. destruct (Pool.try_reserve_pair sid (sv_pool sv)) as [h r] eqn:E.
  pose proof (ok_reserve_pair b sv sid h r E Hok) as H. destruct r; [split|]; done.
Qed.

Lemma hoare_reserve b a sid : triple (within b a) (reserve (Pool.try_reserve sid))
  (fun i => within (with_pool b (i :: bk_permits b) (bk_slots b)) a) (ok b).
Proof.
  intros sv [Hok Hv]. unfold reserve. destruct (Pool.try_reserve sid (sv_pool sv)) as [h r] eqn:E.
  pose proof (ok_try_reserve b sv sid h r E Hok) as H. destruct r; [by split|by destruct b].
Qed.

(** A record that neither opens nor closes an attempt. *)
Lemma ok_plain b (sv : Server St) i job : wj_response_attempt job = None -> valid sv (wj_session job) ->
  ok (with_pool b (i :: bk_permits b) (bk_slots b)) sv -> ok b (submit_reserved i job sv).
Proof.
  intros Hj Hv Hok.
  pose proof (ok_submit_reserved (with_pool b (i :: bk_permits b) (bk_slots b)) sv i (bk_permits b) job (bk_attempts b) eq_refl Hv) as H.
  destruct b. apply H; [|done].
  unfold posted, attempt_of. cbn [en_job]. by rewrite Hj.
Qed.

Definition reserved (b : Book) (i : nat) : Book := with_pool b (i :: bk_permits b) (S (bk_slots b)).

Lemma hoare_refuse {A} b i a who stop e (Q : A -> Server St -> Prop) :
  triple (within (reserved b i) a) (refuse_reserved i a who stop e) Q (ok b).
Proof.
  intros sv [Hok Hv]. unfold refuse_reserved.
  pose proof (ok_plain (with_pool b (bk_permits b) (S (bk_slots b))) sv i
    (failure_job a (workflow (session_of a sv)) who stop (pipeline_error_to_string e)) eq_refl Hv Hok) as H.
  apply (ok_drop_response (with_pool b (bk_permits b) (S (bk_slots b))) _ (bk_slots b) eq_refl) in H. by destruct b.
Qed.

Lemma within_store b a f (sv : Server St) : within b a sv -> within b a (on_store f sv).
Proof. intros [Hok Hv]. split; [by apply (ok_same b sv)|done]. Qed.

Lemma hoare_charge app b i a sid who tokens :
  triple (within (reserved b i) a) (charge_gate app i a sid who tokens) (fun _ => within (reserved b i) a) (ok b).
Proof.
  intros sv H. unfold charge_gate. destruct (charge app sid _ tokens (sv_store sv)) as [st [[capped e]|]].
  - pose proof (within_store _ _ (fun _ => st) sv H) as H1. destruct capped.
    + refine (hoare_refuse (A := unit) b i a who StopReason.BudgetExceeded e (fun _ _ => True) _ _).
      apply within_session; [intros s; apply calm_latch|exact H1].
    + exact (hoare_refuse (A := unit) b i a who StopReason.BudgetExceeded e (fun _ _ => True) _ H1).
  - exact (within_store _ _ (fun _ => st) sv H).
Qed.

Lemma hoare_capture app d b i a sid who o :
  triple (within (reserved b i) a) (capture_gate app d i a sid who o) (fun _ => within (reserved b i) a) (ok b).
Proof.
  intros sv H. unfold capture_gate. destruct (atif_capture_from_request _ _); [done|].
  apply (hoare_refuse (A := AtifCapture) b i a who StopReason.Other e (fun _ _ => True)). by apply within_store.
Qed.

(** ** Records through the plain queue *)

Lemma with_pool_id b : with_pool b (bk_permits b) (bk_slots b) = b.
Proof. by destruct b. Qed.

Lemma hoare_enqueue_failure b a i stop reason :
  triple (within b a) (enqueue_failure a i stop reason) (fun _ => ok b) (ok b).
Proof.
  intros sv [Hok Hv]. unfold enqueue_failure, submit_through.
  set (job := failure_job a _ i stop reason). set (sid := Session.id _).
  destruct (Pool.try_submit sid job (sv_world sv) (sv_pool sv)) as [[w h] r] eqn:E.
  assert (ok b (sv<|sv_world := w|><|sv_pool := h|>)) as H; [|by destruct r].
  unfold Pool.try_submit, Pool.try_capacity_labeled in E.
  pose proof (ok_pool _ _ Hok) as Hi. cbn zeta in Hi. destruct (Pool.capacity (sv_pool sv)) as [|n] eqn:Hn.
  { injection E as <- <- <-. pose proof (ok_pool_same b sv (Pool.count_full StageWorkerQueue (sv_pool sv)) (bk_permits b) (bk_slots b)) as H.
    rewrite with_pool_id in H. replace (sv<|sv_world := sv_world sv|>) with sv by (by destruct sv).
    apply H; [by apply same_senders|by rewrite <- Hn in Hi|done]. }
  set (h1 := (sv_pool sv)<|Pool.capacity := n|>) in E.
  destruct (PoolFacts.send_spec _ sid job FromCapacity StageWorkerQueue (sv_world sv) h1 w h r (bk_permits b) (bk_slots b) (bk_running b) Hi E)
    as [Hi' _]. apply send_effect in E. destruct r as [u|e].
  - destruct E as [-> Had].
    pose proof (ok_post b sv h (mkEnvelope sid job FromCapacity) _ _ (bk_attempts b) Had Hv (reflexivity _) Hi' Hok) as H.
    rewrite with_pool_id in H. by destruct b.
  - destruct E as (Hw & Hs & _).
    rewrite <- (with_pool_id b). set (sv1 := sv<|sv_world := w|>). refine (ok_pool_same b sv1 h (bk_permits b) (bk_slots b) Hs Hi' _). subst sv1.
    destruct Hw as [-> | ->]; [by destruct sv|by apply ok_undone].
Qed.

Section Handlers.
Context (default_hash : str -> str -> Z) (app : App).

Lemma hoare_transient b d sid stop reason :
  triple (ok b) (enqueue_transient_failure app d sid stop reason) (fun _ => ok b) (ok b).
Proof.
  intros sv Hok. unfold enqueue_transient_failure. destruct (count_rejection _ _) as [window []]; cbn [negb]; [|by apply (ok_same b sv)].
  set (fresh := new _ _ _ _ _ _ _ _). unfold Registry.alloc. apply hoare_enqueue_failure. split.
  - apply (ok_alloc b (sv<|sv_window := window|>) fresh); [done|done|by left|by apply (ok_same b sv)].
  - unfold valid. cbn. rewrite length_app. cbn. lia.
Qed.

Lemma hoare_audited {A} b (r : result A PipelineError) audit :
  (forall e, triple (ok b) (audit e) (fun _ => ok b) (ok b)) -> triple (ok b) (audited r audit) (fun _ => ok b) (ok b).
Proof.
  intros H. unfold audited. destruct r as [a|e]; [by apply hoare_ret|].
  eapply hoare_bind; [apply H|]. intros ?. by apply hoare_fail.
Qed.

Lemma hoare_identity b d hs hint : triple (ok b) (chat_identity app d hs hint) (fun _ => ok b) (ok b).
Proof.
  unfold chat_identity. destruct hint; [by apply hoare_ret|]. apply hoare_audited. intros e.
  unfold audit_authentication_error. destruct e; try apply hoare_transient; by apply hoare_ret.
Qed.

(** ** Admission *)

Definition admitted (b : Book) (a : addr) (x : str) : Book :=
  mkBook (bk_permits b) (S (bk_slots b)) (bk_running b) (bk_done b) ((a, x) :: bk_attempts b) (a :: bk_streams b) (bk_lost b).

Lemma ok_admitted b i who o capture d (sv : Server St) a text : within (reserved b i) a sv ->
  ok (admitted b a (d_attempt_uid d))
    (on_session_at lease_new a (submit_reserved i (admission_job a who o text capture (d_attempt_uid d)) sv)).
Proof.
  intros [Hok Hv]. set (job := admission_job _ _ _ _ _ _).
  pose proof (ok_submit_reserved (reserved b i) sv i (bk_permits b) job ((a, d_attempt_uid d) :: bk_attempts b) eq_refl Hv (reflexivity _) Hok) as H.
  apply (ok_lease a) in H; [by destruct b|]. unfold valid, submit_reserved.
  destruct (Pool.submit i _ job (sv_world sv) (sv_pool sv)) as [w h] eqn:E.
  unfold Pool.submit in E. assert (w = Pool.started a (sv_world sv)) as -> by (destruct (Pool.senders _ !! i); by injection E as <- _).
  change (a < length (alter worker_job_started a (heap (sv_world sv))))%nat. by rewrite length_alter.
Qed.

Lemma hoare_prepare b d hs payload hint caller :
  triple (ok b) (prepare_chat_with_caller default_hash app d hs payload hint caller)
    (fun pr sv => owns (pr_capture_guard pr) (pr_session pr) /\
       ok (admitted b (pr_session pr) (rg_attempt_id (pr_capture_guard pr))) sv) (ok b).
Proof.
  unfold prepare_chat_with_caller. eapply hoare_bind; [by apply hoare_of|]. intros h.
  eapply hoare_bind; [apply hoare_identity|]. intros who.
  eapply hoare_bind; [apply (hoare_enter app true)|]. intros a.
  eapply hoare_bind; [apply hoare_breaker|]. intros p.
  eapply hoare_bind; [apply hoare_reserve_pair|]. intros i.
  destruct (sanitize _ _ p) as [u|reason]; [|apply (hoare_refuse b i)].
  eapply hoare_bind; [apply (hoare_charge app b i)|]. intros ?.
  eapply hoare_bind; [apply (hoare_capture app d b i)|]. intros capture.
  intros sv H. unfold pbind, pdo, pret. split; [done|]. by apply ok_admitted.
Qed.

(** ** Tool calls *)

Lemma hoare_tool b d hs raw caller preflight :
  triple (ok b) (intercept_tool_authenticated app d hs raw caller preflight) (fun _ => ok b) (ok b).
Proof.
  unfold intercept_tool_authenticated. eapply hoare_bind; [by apply hoare_of|]. intros sid.
  eapply hoare_bind; [by apply hoare_of|]. intros w.
  set (parsed := match parse_tool_call raw with Ok req => Some req | Err _ => None end).
  eapply hoare_bind; [apply hoare_audited; intros e; apply hoare_transient|]. intros who.
  eapply hoare_bind; [apply (hoare_enter app false)|]. intros a.
  eapply hoare_bind; [apply hoare_tool_breaker|]. intros ?.
  eapply hoare_bind; [apply hoare_reserve|]. intros i.
  intros sv [Hok Hv]. unfold pbind, pdo, pret.
  assert (forall st v, ok b (submit_reserved i (tool_job d a who raw parsed v) (sv<|sv_store := st|>))) as H.
  { intros st v. assert (exists job, tool_job d a who raw parsed v = job /\ wj_response_attempt job = None /\ wj_session job = a) as (job & -> & Hj & <-).
    { eexists. split; [reflexivity|]. unfold tool_job. by destruct (verdict_record v). }
    apply ok_plain; [done|done|by apply (ok_same _ sv)]. }
  destruct (tool_verdict app d sid w who caller raw parsed preflight sv) as [sv1 v] eqn:E.
  assert (exists st, sv1 = sv<|sv_store := st|>) as [st ->]; [|apply H].
  assert (exists st, sv = sv<|sv_store := st|>) as Hsame by (exists (sv_store sv); by destruct sv).
  revert E. unfold tool_verdict, budgeted_check. destruct preflight; [by intros [= <- _]|].
  destruct parsed as [req|]; [|destruct (check_with_principal _ _ _ _ _ _); intros [= <- _]; by eexists].
  destruct (bool_decide _ && _); [by intros [= <- _]|].
  destruct (decide_for _ _ _ _); [|by intros [= <- _]]. destruct (check_with_principal _ _ _ _ _ _). intros [= <- _]. by eexists.
Qed.
End Handlers.

(** * The worker's side *)

(** The same envelopes and owners, in another order or another place. *)
Lemma ok_moved b b' (sv : Server St) h : Pool.senders h <> [] ->
  (Forall (fun o => o = true) (opens h) -> Forall (fun o => o = true) (opens (sv_pool sv))) ->
  queued h ++ bk_running b' ≡ₚ in_flight_of b sv -> bk_done b' = bk_done b ->
  bk_attempts b' ≡ₚ bk_attempts b -> bk_streams b' ≡ₚ bk_streams b -> bk_lost b' = bk_lost b ->
  PoolFacts.inv C (Pool.senders h) (Pool.pending h) (Pool.capacity h) (Pool.response_capacity h)
    (bk_permits b') (bk_slots b') (bk_running b') ->
  ok b sv -> ok b' (sv<|sv_pool := h|>).
Proof.
  intros Hne Ho Hq Hd Ha Hs Hl Hi [I1 I2 I3 I4 I5 [I6 I7] I8 I9 I10]. set (sv' := sv<|sv_pool := h|>).
  assert (in_flight_of b' sv' ≡ₚ in_flight_of b sv) as Ei by exact Hq.
  assert (submitted b' sv' ≡ₚ submitted b sv) as Es.
  { unfold submitted. rewrite !app_assoc, Hd. apply Permutation_app_tail. exact Hq. }
  split; try done.
  - intros a s Hh. rewrite (PoolFacts.held_perm a _ _ Hs). by apply I4.
  - intros a s Hh. rewrite (PoolFacts.held_perm a _ _ (Permutation_map env_session Ei)). by apply I5.
  - rewrite Hs. rewrite (Permutation_map env_session Ei). by split.
  - rewrite Es, Ha, Hl. exact I8.
  - by rewrite Hl.
  - rewrite Hl. intros H. by apply I10, Ho.
Qed.

Definition with_running (b : Book) (l : list Envelope) : Book := b<|bk_running := l|>.

Lemma ok_recv b (sv : Server St) i h e : Pool.recv i (sv_pool sv) = (h, Some e) -> ok b sv ->
  ok (with_running b (e :: bk_running b)) (sv<|sv_pool := h|>).
Proof.
  intros E Hok. unfold Pool.recv in E. destruct (Pool.senders (sv_pool sv) !! i) as [c|] eqn:Hc; [|done].
  destruct (Pool.ch_queue c) as [|e' rest] eqn:Hq; [done|]. injection E as <- <-.
  set (c' := c<|Pool.ch_queue := rest|>). set (ss := Pool.senders (sv_pool sv)) in *.
  assert (Pool.senders (Pool.set_channel (sv_pool sv) i c') = <[i := c']> ss) as Hss by done.
  assert (opens (Pool.set_channel (sv_pool sv) i c') = opens (sv_pool sv)) as Ho.
  { unfold opens. rewrite Hss. by apply (map_insert_same _ _ _ c). }
  apply (ok_moved b _ sv (Pool.set_channel (sv_pool sv) i c')); try done.
  - eapply not_empty_opens; [exact Ho|apply Hok].
  - by rewrite Ho.
  - assert (queued (sv_pool sv) ≡ₚ e' :: queued (Pool.set_channel (sv_pool sv) i c')) as H.
    { unfold queued. rewrite Hss. fold ss. pose proof (queue_insert (<[i := c']> ss) i c' c [e']) as H.
      rewrite list_insert_insert_eq, (list_insert_id ss i c Hc) in H. apply H; [|by rewrite Hq].
      rewrite list_lookup_insert_eq; [done|by eapply lookup_lt_Some]. }
    unfold in_flight_of. rewrite H. symmetry. exact (Permutation_middle _ (bk_running b) e').
  - rewrite Hss. by apply (PoolFacts.step_recv C ss _ _ _ _ _ _ i c); [apply Hok|..].
Qed.

Lemma ok_shut b (sv : Server St) i c : Pool.senders (sv_pool sv) !! i = Some c -> ok b sv ->
  ok b (sv<|sv_pool := Pool.set_channel (sv_pool sv) i (c<|Pool.ch_open := false|>)|>).
Proof.
  intros Hc Hok. set (c' := c<|Pool.ch_open := false|>). set (ss := Pool.senders (sv_pool sv)) in *.
  assert (Pool.senders (Pool.set_channel (sv_pool sv) i c') = <[i := c']> ss) as Hss by done.
  pose proof (lookup_lt_Some _ _ _ Hc) as Hlt.
  apply (ok_moved b _ sv (Pool.set_channel (sv_pool sv) i c')); try done.
  - rewrite Hss. intros E. apply (f_equal length) in E. rewrite length_insert in E. cbn in E. lia.
  - unfold opens. rewrite Hss, Forall_map, Forall_lookup. intros H. specialize (H i c'). cbn in H.
    rewrite list_lookup_insert_eq in H by done. by specialize (H eq_refl).
  - unfold in_flight_of, queued. rewrite Hss. by rewrite (map_insert_same Pool.ch_queue _ _ c).
  - change (Pool.pending _) with (Pool.pending (sv_pool sv)). change (Pool.capacity _) with (Pool.capacity (sv_pool sv)).
    change (Pool.response_capacity _) with (Pool.response_capacity (sv_pool sv)). rewrite Hss.
    destruct (ok_pool _ _ Hok) as [H1 H2 H3 H4 H5]. fold ss in H1, H2, H3, H4, H5.
    pose proof (PoolFacts.load_set FromCapacity ss i c c' Hc) as L1. pose proof (PoolFacts.load_set FromResponse ss i c c' Hc) as L2.
    change (Pool.ch_queue c') with (Pool.ch_queue c) in L1, L2. split; [lia|lia| | |].
    + apply (PoolFacts.channel_change C ss i c c' (bk_permits b) (bk_permits b) Hc H3); [done|apply (H3 i c Hc)|done].
    + by rewrite length_insert.
    + rewrite H5. do 2 f_equal. lia.
Qed.

Lemma ok_complete b (sv : Server St) e rest : bk_running b ≡ₚ e :: rest -> ok b sv ->
  let '(w, h) := Pool.complete e (sv_world sv) (sv_pool sv) in
  ok (mkBook (bk_permits b) (bk_slots b) rest (e :: bk_done b) (bk_attempts b) (bk_streams b) (bk_lost b))
    (sv<|sv_world := w|><|sv_pool := h|>).
Proof.
  intros Hr [I1 I2 I3 I4 I5 [I6 I7] I8 I9 I10]. unfold Pool.complete. set (a := wj_session (en_job e)).
  set (h := Pool.sub_pending _). set (sv' := _<|sv_pool := h|>). set (b' := mkBook _ _ _ _ _ _ _).
  assert (Pool.senders h = Pool.senders (sv_pool sv)) as Hs by (subst h; by destruct (en_origin e)).
  assert (queued h = queued (sv_pool sv) /\ opens h = opens (sv_pool sv)) as [Eq Eo] by (unfold queued, opens; by rewrite Hs).
  assert (in_flight_of b sv ≡ₚ e :: in_flight_of b' sv') as Ei.
  { unfold in_flight_of. change (sv_pool sv') with h. rewrite Eq, Hr. symmetry. exact (Permutation_middle _ rest e). }
  assert (submitted b sv ≡ₚ submitted b' sv') as Es.
  { unfold submitted. change (sv_pool sv') with h. rewrite Eq, Hr. apply Permutation_app_head. exact (Permutation_middle rest (bk_done b) e). }
  set (f := fun s => (worker_job_finished s).1).
  assert (forall c, heap (sv_world sv') !! c = if decide (a = c) then f <$> heap (sv_world sv) !! c else heap (sv_world sv) !! c) as Hh.
  { intros c. change (heap (sv_world sv')) with (alter f a (heap (sv_world sv))). destruct (decide (a = c)) as [->|].
    - by rewrite list_lookup_alter_eq.
    - by rewrite list_lookup_alter_ne. }
  assert (forall c, valid sv c -> valid sv' c) as Hval by (intros c; apply (valid_on_session f a sv)).
  assert (Forall (valid sv) (a :: map env_session (in_flight_of b' sv'))) as Hown.
  { rewrite (Permutation_map env_session Ei) in I7. exact I7. }
  split.
  - pose proof (PoolFacts.step_complete _ _ _ _ _ _ _ _ _ _ I1 Hr) as H. subst h. cbn zeta. by destruct (en_origin e).
  - change (Pool.senders h <> []). by rewrite Hs.
  - intros k c Hc. by eapply Hval, I3.
  - intros c s'. rewrite Hh. destruct (decide (a = c)) as [Hac|Hne]; [|apply I4].
    intros (s & Hs1 & ->)%fmap_Some. exact (I4 c s Hs1).
  - intros c s'. rewrite Hh. pose proof (I5 c) as H. rewrite (PoolFacts.held_perm c _ _ (Permutation_map env_session Ei)) in H.
    cbn [map] in H. rewrite PoolFacts.held_cons in H. change (env_session e) with a in H. destruct (decide (a = c)) as [Hac|Hne].
    + intros (s & Hs1 & ->)%fmap_Some. rewrite Hac in H. change (fetch_sub (pending_jobs s) = Z.of_nat (PoolFacts.held c (map env_session (in_flight_of b' sv'))) mod 2 ^ 64).
      rewrite (H s Hs1), Nat.eqb_refl. apply PoolFacts.mod64_pred.
    + rewrite (proj2 (Nat.eqb_neq c a)) in H by done. exact (H s').
  - split; [eapply Forall_impl; [exact I6|exact Hval]|]. inversion Hown as [|? ? _ H]. eapply Forall_impl; [exact H|exact Hval].
  - rewrite <- Es. exact I8.
  - eapply Forall_impl; [exact I9|]. intros [c x] (s & Hs1 & Hc). change (heap (sv_world sv) !! c = Some s) in Hs1.
    change (exists s, heap (sv_world sv') !! c = Some s /\ capture_failed s = true). rewrite Hh, Hs1.
    destruct (decide (a = c)); (eexists; split; [reflexivity|exact Hc]).
  - change (Forall (fun o => o = true) (opens h) -> bk_lost b = []). by rewrite Eo.
Qed.
End Attempts.
