(* ===== verification/AttemptProofs.v ===== *)
(** The composition of the request pipeline with the worker's queue: whatever requests
    come, fail, are cancelled or race a worker that stops, every response attempt that
    was journalled is closed by exactly one terminal record, through capacity reserved
    at admission, and before the lease that keeps its session from closing is released. *)

From S2P Require Import Prelude Rust CoreBase Json Float LoopDetect Core Jcs Identity Validator Compress Rpc Store.
From S2P Require Import Budget Sandbox Serde Events Journal Exchange TokenRoutes Atif Session SessionProofs.
From S2P Require Import WorkerQueue WorkerProofs WorkerQueueProofs Authz AuthzProofs ChatPayload Pipeline PipelineProofs.
From S2P Require Import JcsProofs CompressProofs RpcProofs SandboxProofs IdentityProofs StoreProofs Worker Attempts.

(** * The system *)

(** An admitted request, before or after it was forwarded. *)
Inductive Live :=
| Prepared (pr : PreparedRequest)
| Forwarded (fr : ForwardedResponse).

Definition live_session (l : Live) : addr := match l with Prepared pr => pr_session pr | Forwarded fr => fr_session fr end.
Definition live_guard (l : Live) : ResponseCaptureGuard :=
  match l with Prepared pr => pr_capture_guard pr | Forwarded fr => fr_capture_guard fr end.
Definition live_attempt (l : Live) : addr * str := (live_session l, rg_attempt_id (live_guard l)).

(** The server, the requests alive, the other leases on sessions, and the envelopes
    being processed and done. *)
Record Sys (St : Type) := mkSys {
  sy_server : Server St;
  sy_live : list Live;
  sy_leases : list addr;
  sy_running : list Envelope;
  sy_done : list Envelope;
}.
Arguments mkSys {St}.
Arguments sy_server {St}.
Arguments sy_live {St}.
Arguments sy_leases {St}.
Arguments sy_running {St}.
Arguments sy_done {St}.

Section System.
Context {UT : UnicodeTables} {R : Ryu} {SHA : Sha256} {HM : HmacSha256} {SJ : SerdeJson} {JR : JsonReader}.
Context {TL : TokenLibs} {JS : JsonSchema} {DF : DisplayF64} {RS : RecordSerde}.
Context {St : Type} {ST : StateStore St}.
Context (default_hash : str -> str -> Z) (env : Env) (wcfg : WorkerConfig) (app : App).

(** The ways a request ends without being forwarded: its future is dropped before or
    while the marker is written or the request sent, or it is abandoned. *)
Inductive request_end (pr : PreparedRequest) (sv : Server St) : Server St -> Prop :=
| end_dropped : request_end pr sv (drop_prepared pr sv)
| end_at_write d : request_end pr sv (cancelled_at_write env wcfg d pr sv)
| end_at_send d : request_end pr sv (cancelled_at_send env wcfg d pr sv)
| end_abandoned stop e : request_end pr sv (abandon (A := PreparedRequest) pr stop e sv).1.

(** The relay of a response ends by submitting a record that closes the attempt
    through the slot of the guard. *)
Definition captured (fr : ForwardedResponse) (job : WorkerJob) (sv : Server St) : Server St :=
  drop_lease (fr_session fr) (submit_or_fail_closed Pool.submit_response job sv).

Definition closes (job : WorkerJob) (fr : ForwardedResponse) : Prop :=
  wj_session job = fr_session fr /\
  wj_response_attempt job = Some (mkAttempt (rg_attempt_id (fr_capture_guard fr)) true).

Definition same_pool (sv sv' : Server St) : Prop :=
  sv_pool sv' = sv_pool sv /\ quiet_world (sv_world sv) (sv_world sv').

Inductive gstep : Sys St -> Sys St -> Prop :=
| g_admit sv live ls run dn d hs payload hint caller sv' pr :
    prepare_chat_with_caller default_hash app d hs payload hint caller sv = (sv', Ok pr) ->
    gstep (mkSys sv live ls run dn) (mkSys sv' (Prepared pr :: live) ls run dn)
| g_refuse sv live ls run dn d hs payload hint caller sv' e :
    prepare_chat_with_caller default_hash app d hs payload hint caller sv = (sv', Err e) ->
    gstep (mkSys sv live ls run dn) (mkSys sv' live ls run dn)
| g_tool sv live ls run dn d hs raw caller preflight sv' r :
    intercept_tool_authenticated app d hs raw caller preflight sv = (sv', r) ->
    gstep (mkSys sv live ls run dn) (mkSys sv' live ls run dn)
| g_forward sv live ls run dn pr rest d send sv' fr : live ≡ₚ Prepared pr :: rest ->
    forward_chat env wcfg app d send pr sv = (sv', Ok fr) ->
    gstep (mkSys sv live ls run dn) (mkSys sv' (Forwarded fr :: rest) ls run dn)
| g_unsent sv live ls run dn pr rest d send sv' e : live ≡ₚ Prepared pr :: rest ->
    forward_chat env wcfg app d send pr sv = (sv', Err e) ->
    gstep (mkSys sv live ls run dn) (mkSys sv' rest ls run dn)
| g_end sv live ls run dn pr rest sv' : live ≡ₚ Prepared pr :: rest -> request_end pr sv sv' ->
    gstep (mkSys sv live ls run dn) (mkSys sv' rest ls run dn)
| g_disconnect sv live ls run dn fr rest : live ≡ₚ Forwarded fr :: rest ->
    gstep (mkSys sv live ls run dn) (mkSys (drop_forwarded fr sv) rest ls run dn)
| g_capture sv live ls run dn fr rest job : live ≡ₚ Forwarded fr :: rest -> closes job fr ->
    gstep (mkSys sv live ls run dn) (mkSys (captured fr job sv) rest ls run dn)
| g_lease sv live ls run dn d hs sv' a : lease_session d hs sv = (sv', Ok a) ->
    gstep (mkSys sv live ls run dn) (mkSys sv' live (a :: ls) run dn)
| g_release sv live ls run dn a rest : ls ≡ₚ a :: rest ->
    gstep (mkSys sv live ls run dn) (mkSys (drop_lease a sv) live rest run dn)
| g_recv sv live ls run dn i h e : Pool.recv i (sv_pool sv) = (h, Some e) ->
    gstep (mkSys sv live ls run dn) (mkSys (sv<|sv_pool := h|>) live ls (e :: run) dn)
| g_complete sv live ls run dn e rest w h : run ≡ₚ e :: rest -> Pool.complete e (sv_world sv) (sv_pool sv) = (w, h) ->
    gstep (mkSys sv live ls run dn) (mkSys (sv<|sv_world := w|><|sv_pool := h|>) live ls rest (e :: dn))
| g_shut sv live ls run dn i c : Pool.senders (sv_pool sv) !! i = Some c ->
    gstep (mkSys sv live ls run dn)
      (mkSys (sv<|sv_pool := Pool.set_channel (sv_pool sv) i (c<|Pool.ch_open := false|>)|>) live ls run dn)
| g_quiet sv live ls run dn sv' : same_pool sv sv' ->
    gstep (mkSys sv live ls run dn) (mkSys sv' live ls run dn).

(** A server that has just started: no session has a lease or a job. *)
Record started_up (cap : nat) (parallelism : option nat) (sv : Server St) : Prop := {
  su_pool : sv_pool sv = Pool.spawn cap parallelism;
  su_idle : forall a s, heap (sv_world sv) !! a = Some s -> active_streams s = 0 /\ pending_jobs s = 0;
  su_registered : forall k a, sessions (sv_world sv) !! k = Some a -> is_Some (heap (sv_world sv) !! a);
}.

Definition boot (sv : Server St) : Sys St := mkSys sv [] [] [] [].

(** ** The invariant of the system *)

Definition owned (l : Live) : Prop := owns (live_guard l) (live_session l).

Definition books (live : list Live) (ls : list addr) (run dn : list Envelope) (lost : list (addr * str)) : Book :=
  mkBook [] (length live) run dn (map live_attempt live) (map live_session live ++ ls) lost.

Definition sys_ok (C : nat) (s : Sys St) : Prop :=
  Forall owned (sy_live s) /\
  exists lost, ok C (books (sy_live s) (sy_leases s) (sy_running s) (sy_done s) lost) (sy_server s).

Lemma boot_ok cap parallelism (sv : Server St) : started_up cap parallelism sv -> sys_ok (Nat.max cap 1) (boot sv).
Proof.
  intros [Hp Hi Hr]. split; [constructor|]. exists [].
  assert (queued (sv_pool sv) = []) as Eq.
  { rewrite Hp. unfold queued, Pool.spawn. cbn [Pool.senders]. by induction (Nat.max _ _). }
  pose proof (PoolFacts.start_inv cap parallelism (sv_world sv)) as Hinv.
  split; cbn; unfold submitted, in_flight_of; rewrite ?Eq; cbn; try done.
  - rewrite Hp. exact Hinv.
  - rewrite Hp. unfold Pool.spawn. cbn [Pool.senders]. unfold Pool.MIN_SHARDS. intros E. apply (f_equal length) in E.
    rewrite length_replicate in E. cbn in E. lia.
  - intros k a Ha. apply valid_some. by eapply Hr.
  - intros a s Hs. by apply (Hi a s).
  - intros a s Hs. by apply (Hi a s).
Qed.

(** One request of the live ones ends. *)
Lemma live_ended C (sv sv' : Server St) live ls run dn l rest : live ≡ₚ l :: rest ->
  ends_attempt (live_session l) (rg_attempt_id (live_guard l)) sv sv' ->
  sys_ok C (mkSys sv live ls run dn) -> sys_ok C (mkSys sv' rest ls run dn).
Proof.
  intros Hl He [Ho [lost Hok]]. cbn in *. rewrite Hl in Ho. split; [by inversion Ho|].
  destruct (ok_end C (books live ls run dn lost) sv sv' (live_session l) (rg_attempt_id (live_guard l)) (length rest)
    (map live_attempt rest) (map live_session rest ++ ls)) as [lost' H]; [| | |done|done|by exists lost'].
  - cbn. by rewrite Hl.
  - cbn. by rewrite Hl.
  - cbn. by rewrite Hl.
Qed.

Lemma books_swap C live live' ls run dn lost (sv : Server St) : length live = length live' ->
  map live_attempt live ≡ₚ map live_attempt live' -> map live_session live ≡ₚ map live_session live' ->
  ok C (books live ls run dn lost) sv -> ok C (books live' ls run dn lost) sv.
Proof.
  intros Hn Ha Hs Hok. replace sv with (sv<|sv_pool := sv_pool sv|>) by (by destruct sv).
  apply (ok_moved C (books live ls run dn lost)); try done; [apply Hok|..]; cbn.
  - by rewrite Hs.
  - rewrite <- Hn. apply Hok.
Qed.

Lemma alter_const {A} (f : A -> A) i (l : list A) x : l !! i = Some x -> alter (fun _ => f x) i l = alter f i l.
Proof.
  revert i. induction l as [|y l IH]; intros [|i]; cbn; [done..| |]; [by intros [= ->]|].
  intros H. f_equal. by apply IH.
Qed.

Lemma lease_ok C d hs (sv sv' : Server St) a live ls run dn lost : lease_session d hs sv = (sv', Ok a) ->
  ok C (books live ls run dn lost) sv -> ok C (books live (a :: ls) run dn lost) sv'.
Proof.
  unfold lease_session, pbind, pof. destruct (session_id _ hs) as [sid|]; [|done].
  destruct (Registry.get (sv_world sv) sid) as [c|] eqn:Eg; [|done]. unfold try_lease.
  destruct (is_closed _); [done|]. intros [= <- <-] Hok.
  assert (valid sv c) as Hv by by apply (ok_registered _ _ _ Hok sid).
  replace (on_session_at (fun _ => lease_new (session_of c sv)) c sv) with (on_session_at lease_new c sv).
  - pose proof (ok_lease C c _ sv Hv Hok) as H.
    change (on_session_at lease_new c sv)
      with ((on_session_at lease_new c sv)<|sv_pool := sv_pool (on_session_at lease_new c sv)|>).
    refine (ok_moved C _ _ _ _ _ _ _ _ _ _ _ _ H); try done; [apply Hok|cbn|apply Hok].
    by rewrite <- Permutation_middle.
  - unfold on_session_at, Pool.session_at.
    by rewrite (alter_const lease_new c (heap (sv_world sv)) (session_of c sv) (session_at_valid sv c Hv)).
Qed.

Lemma hoare_run {A} (Pre : Server St -> Prop) (m : P St A) Q E sv sv' r : triple Pre m Q E -> Pre sv -> m sv = (sv', r) ->
  match r with Ok a => Q a sv' | Err _ => E sv' end.
Proof. intros Ht Hp Hm. specialize (Ht sv Hp). by rewrite Hm in Ht. Qed.

Lemma request_end_ends pr (sv sv' : Server St) : owns (pr_capture_guard pr) (pr_session pr) -> request_end pr sv sv' ->
  ends_attempt (pr_session pr) (rg_attempt_id (pr_capture_guard pr)) sv sv'.
Proof.
  intros Ho [|d|d|stop e].
  - by apply drop_prepared_ends.
  - by apply cancelled_at_write_ends.
  - by apply cancelled_at_send_ends.
  - by apply abandon_ends.
Qed.

Lemma gstep_ok C s s' : sys_ok C s -> gstep s s' -> sys_ok C s'.
Proof.
  intros Hs Hg. destruct Hg as [sv live ls run dn d hs payload hint caller sv' pr E|sv live ls run dn d hs payload hint caller sv' e E
    |sv live ls run dn d hs raw caller preflight sv' r E|sv live ls run dn pr rest d send sv' fr Hl E
    |sv live ls run dn pr rest d send sv' e Hl E|sv live ls run dn pr rest sv' Hl E|sv live ls run dn fr rest Hl
    |sv live ls run dn fr rest job Hl [Hj1 Hj2]|sv live ls run dn d hs sv' a E|sv live ls run dn a rest Hl|sv live ls run dn i h e E
    |sv live ls run dn e rest w h Hr E|sv live ls run dn i c E|sv live ls run dn sv' [Ep Ew]].
  all: pose proof Hs as [Ho [lost Hok]]; cbn in Ho, Hok.
  - apply (hoare_run _ _ _ _ _ _ _ (hoare_prepare C default_hash app (books live ls run dn lost) d hs payload hint caller) Hok) in E.
    destruct E as [Hown H]. split; [by constructor|by exists lost].
  - apply (hoare_run _ _ _ _ _ _ _ (hoare_prepare C default_hash app (books live ls run dn lost) d hs payload hint caller) Hok) in E.
    split; [done|by exists lost].
  - apply (hoare_run _ _ _ _ _ _ _ (hoare_tool C app (books live ls run dn lost) d hs raw caller preflight) Hok) in E.
    split; [done|exists lost; by destruct r].
  - rewrite Hl in Ho. apply Forall_cons in Ho as [Hpr Hrest]. pose proof (forward_ends env wcfg app d send pr sv Hpr) as H. rewrite E in H.
    destruct H as (Ew & Ep & Es & Hown & Ex). split; [by constructor|]. exists lost. cbn.
    apply (ok_same C _ sv sv'); [done..|]. apply (books_swap C live); [|..|done]; rewrite Hl; cbn; [done|..].
    + unfold live_attempt. cbn. by rewrite Es, Ex.
    + by rewrite Es.
  - rewrite Hl in Ho. apply Forall_cons in Ho as [Hpr Hrest]. pose proof (forward_ends env wcfg app d send pr sv Hpr) as H. rewrite E in H.
    by apply (live_ended C sv sv' live ls run dn (Prepared pr)).
  - rewrite Hl in Ho. apply Forall_cons in Ho as [Hpr Hrest]. apply (live_ended C sv sv' live ls run dn (Prepared pr)); [done| |done].
    by apply request_end_ends.
  - rewrite Hl in Ho. apply Forall_cons in Ho as [Hfr Hrest]. apply (live_ended C sv _ live ls run dn (Forwarded fr)); [done| |done].
    by apply drop_forwarded_ends.
  - apply (live_ended C sv _ live ls run dn (Forwarded fr)); [done| |done]. exists sv, job. by split_and!.
  - split; [done|]. exists lost. by eapply lease_ok.
  - split; [done|]. exists lost. apply (ok_unlease C a (books live ls run dn lost) sv (map live_session live ++ rest)); [|done].
    cbn. rewrite Hl. by rewrite <- Permutation_middle.
  - split; [done|]. exists lost. by apply (ok_recv C _ _ _ _ _ E) in Hok.
  - split; [done|]. exists lost. pose proof (ok_complete C (books live ls run dn lost) sv e rest Hr Hok) as H. by rewrite E in H.
  - split; [done|]. exists lost. by apply ok_shut.
  - split; [done|]. exists lost. by apply (ok_world C _ sv sv').
Qed.

Lemma reachable_ok cap parallelism (sv : Server St) s : started_up cap parallelism sv -> rtc gstep (boot sv) s ->
  sys_ok (Nat.max cap 1) s.
Proof.
  intros Hb Hr. pose proof (boot_ok _ _ _ Hb) as H. induction Hr as [|s1 s2 s3 Hs _ IH]; [done|]. apply IH. by eapply gstep_ok.
Qed.

(** ** The property *)

Definition everything (s : Sys St) : list Envelope := queued (sv_pool (sy_server s)) ++ sy_running s ++ sy_done s.

Lemma load_length (ss : list Pool.Channel) :
  length (List.concat (map Pool.ch_queue ss)) = (PoolFacts.load FromCapacity ss + PoolFacts.load FromResponse ss)%nat.
Proof.
  unfold PoolFacts.load. induction ss as [|c l IH]; [done|]. cbn. rewrite length_app, IH.
  pose proof (PoolFacts.cnt_total (Pool.ch_queue c)). lia.
Qed.

Lemma flight_bound C b (sv : Server St) : ok C b sv -> (length (in_flight_of b sv) <= 2 * C)%nat.
Proof.
  intros Hok. destruct (ok_pool _ _ _ Hok) as [H1 H2 _ _ _]. unfold in_flight_of, queued. rewrite length_app, load_length.
  pose proof (PoolFacts.cnt_total (bk_running b)). lia.
Qed.

Lemma closed_of l a x : (a, x) ∈ closed_by l -> exists e, e ∈ l /\ env_session e = a.
Proof.
  unfold closed_by. rewrite list_elem_of_omap. intros (e & He & Hx). exists e. split; [done|]. unfold attempt_of in Hx.
  destruct (wj_response_attempt _); [|done]. destruct (Bool.eqb _ _); [|done]. by injection Hx.
Qed.

Lemma held_zero a l : PoolFacts.held a l = 0%nat -> a ∉ l.
Proof.
  induction l as [|x l IH]; [by intros _ ?%not_elem_of_nil|]. rewrite PoolFacts.held_cons.
  destruct (Nat.eqb_spec a x) as [|Hne]; [done|]. intros H [->|Ha]%elem_of_cons; [done|by apply IH].
Qed.




(** C7. Every attempt is closed once.  A server starts idle and then takes any sequence
    of steps: requests admitted and refused, tool calls, forwarding that succeeds or
    fails, requests dropped before, while or after they are sent, responses captured or
    abandoned, leases taken and released, envelopes taken and completed by the worker,
    shards that stop, and any change to sessions that touches neither leases nor jobs.
    In every state reached, the attempts journalled so far are, with multiplicity, those
    of the requests alive, those closed by a terminal record in the queue, in hand or
    done, and those lost; a lost attempt has its session marked, and none is lost while
    every channel is open.  If the attempts have distinct ids, none is closed twice.  And
    once a session has neither a lease nor a job, nothing alive holds it, and each of
    its attempts is closed by a record the worker is done with, or lost. *)
Theorem every_attempt_is_closed_once (cap : nat) (parallelism : option nat) (sv : Server St) (s : Sys St) :
  started_up cap parallelism sv -> rtc gstep (boot sv) s ->
  2 * Z.of_nat (Nat.max cap 1) < 2 ^ 64 -> Z.of_nat (length (sy_live s) + length (sy_leases s)) < 2 ^ 64 ->
  exists lost,
    opened (everything s) ≡ₚ map live_attempt (sy_live s) ++ closed_by (everything s) ++ lost /\
    Forall (is_lost (sy_server s)) lost /\
    (Forall (fun o => o = true) (opens (sv_pool (sy_server s))) -> lost = []) /\
    (NoDup (opened (everything s)) -> NoDup (closed_by (everything s))) /\
    (forall a se, heap (sv_world (sy_server s)) !! a = Some se -> active_streams se = 0 -> pending_jobs se = 0 ->
       (forall l, l ∈ sy_live s -> live_session l <> a) /\
       (forall x, (a, x) ∈ opened (everything s) -> (a, x) ∈ closed_by (sy_done s) \/ (a, x) ∈ lost)).
Proof.
  intros Hb Hr Hc Hl. destruct (reachable_ok _ _ _ _ Hb Hr) as [_ [lost Hok]]. exists lost.
  pose proof (ok_attempts _ _ _ Hok) as Hat. change (opened (everything s) ≡ₚ map live_attempt (sy_live s) ++ closed_by (everything s) ++ lost) in Hat.
  split_and!; [done|apply Hok|apply Hok| |].
  { rewrite Hat. intros (_ & _ & (H & _ & _)%NoDup_app)%NoDup_app. exact H. }
  intros a se Hs Hact Hpen.
  pose proof (ok_streams _ _ _ Hok a se Hs) as H1. rewrite Hact in H1. cbn [books bk_streams] in H1.
  pose proof (PoolFacts.held_le a (map live_session (sy_live s) ++ sy_leases s)) as L1. rewrite length_app, length_map in L1.
  rewrite Z.mod_small in H1 by lia. assert (PoolFacts.held a (map live_session (sy_live s) ++ sy_leases s) = 0%nat) as Z1 by lia.
  apply held_zero in Z1. pose proof (ok_pending _ _ _ Hok a se Hs) as H2. rewrite Hpen in H2.
  set (flight := in_flight_of _ _) in H2.
  assert (length flight <= 2 * Nat.max cap 1)%nat as L2 by exact (flight_bound _ _ _ Hok).
  pose proof (PoolFacts.held_le a (map env_session flight)) as L3. rewrite length_map in L3. rewrite Z.mod_small in H2 by lia.
  assert (PoolFacts.held a (map env_session flight) = 0%nat) as Z2 by lia. apply held_zero in Z2.
  assert (forall l, l ∈ sy_live s -> live_session l <> a) as Hnone.
  { intros l Hin <-. apply Z1, elem_of_app. left. by apply list_elem_of_fmap_2. }
  split; [exact Hnone|]. intros x Hx. rewrite Hat in Hx. apply elem_of_app in Hx as [Hx|Hx]; [|apply elem_of_app in Hx as [Hx|Hx]; [|by right]].
  - exfalso. apply list_elem_of_fmap in Hx as (l & Hlx & Hin). apply (Hnone l Hin). by injection Hlx as -> _.
  - left. unfold everything, closed_by in Hx. rewrite app_assoc, omap_app in Hx. apply elem_of_app in Hx as [Hx|Hx]; [|exact Hx].
    exfalso. apply closed_of in Hx as (e & He & <-). apply Z2. by apply list_elem_of_fmap_2.
Qed.
End System.

(** * A concrete run *)

Module AttemptSample.

(** The client leaves before the request is sent, and the worker does the two records. *)
Definition step : Sys InMemory.t -> Sys InMemory.t -> Prop :=
  @gstep ascii_tables toy_ryu toy_sha256 toy_hmac JournalSample.serde JournalSample.reader Sample.libs toy_schema toy_display
    WorkerSample.record_serde InMemory.t (@InMemory.store ascii_tables) (fun _ _ => 0) WorkerSample.env WorkerSample.cfg
    PipelineSample.app.

Definition left : Server InMemory.t :=
  drop_prepared (SHA := toy_sha256) (ST := @InMemory.store ascii_tables) PipelineSample.request PipelineSample.admitted.

Definition shard : nat := Pool.shard_of (sv_pool left) (lit "s-1").

Definition no_envelope : Envelope :=
  mkEnvelope [] (failure_job 0%nat Workflow.Signed anonymous_identity StopReason.Other []) FromCapacity.

Definition taken (sv : Server InMemory.t) : Server InMemory.t := sv<|sv_pool := (Pool.recv shard (sv_pool sv)).1|>.
Definition next (sv : Server InMemory.t) : Envelope := default no_envelope (Pool.recv shard (sv_pool sv)).2.
Definition worked (e : Envelope) (sv : Server InMemory.t) : Server InMemory.t :=
  sv<|sv_world := (Pool.complete e (sv_world sv) (sv_pool sv)).1|><|sv_pool := (Pool.complete e (sv_world sv) (sv_pool sv)).2|>.

Definition first : Envelope := next left.
Definition between : Server InMemory.t := worked first (taken left).
Definition second : Envelope := next between.
Definition final : Sys InMemory.t := mkSys (worked second (taken between)) [] [] [] [second; first].

Lemma starts : started_up 4 None PipelineSample.start.
Proof. split; [done| |]; [intros a s Hs; by destruct a|intros k a Ha; by destruct (lookup_empty_Some k a Ha)]. Qed.

Lemma recv_next sv e : (Pool.recv shard (sv_pool sv)).2 = Some e -> Pool.recv shard (sv_pool sv) = (sv_pool (taken sv), Some e).
Proof. unfold taken. destruct (Pool.recv shard (sv_pool sv)) as [h o]. by intros [= ->]. Qed.

Lemma run_left : rtc step (boot PipelineSample.start) final.
Proof.
  eapply rtc_l.
  { exact (g_admit _ _ _ _ _ _ _ _ _ PipelineSample.draws AuthzSample.headers PipelineSample.payload None None
      PipelineSample.admitted PipelineSample.request PipelineSample.runs). }
  eapply rtc_l; [eapply (g_end _ _ _ _ _ _ _ _ _ PipelineSample.request []); [done|apply end_dropped]|].
  eapply rtc_l; [apply (g_recv _ _ _ _ _ _ _ _ _ shard (sv_pool (taken left)) first); apply recv_next; vm_compute; reflexivity|].
  eapply rtc_l; [eapply (g_complete _ _ _ _ _ _ _ _ _ first []); [done|apply surjective_pairing]|].
  eapply rtc_l; [apply (g_recv _ _ _ _ _ _ _ _ _ shard (sv_pool (taken between)) second); apply recv_next; vm_compute; reflexivity|].
  eapply rtc_l; [eapply (g_complete _ _ _ _ _ _ _ _ _ second []); [done|apply surjective_pairing]|].
  apply rtc_refl.
Qed.

Lemma all_open : Forall (fun o => o = true) (opens (sv_pool (sy_server final))).
Proof.
  assert (opens (sv_pool (sy_server final)) = replicate 16 true) as -> by (vm_compute; reflexivity).
  by repeat constructor.
Qed.

Lemma idle : exists se, heap (sv_world (sy_server final)) !! 0%nat = Some se /\ active_streams se = 0 /\ pending_jobs se = 0.
Proof. eexists. split; [vm_compute; reflexivity|]. split; vm_compute; reflexivity. Qed.

Lemma one_opened : opened (everything final) = [(0%nat, lit "attempt")].
Proof. vm_compute. reflexivity. Qed.
End AttemptSample.

Lemma every_attempt_is_closed_once_witness :
  opened (everything AttemptSample.final) = [(0%nat, lit "attempt")] /\
  (0%nat, lit "attempt") ∈ closed_by (sy_done AttemptSample.final).
Proof.
  destruct (@every_attempt_is_closed_once ascii_tables toy_ryu toy_sha256 toy_hmac JournalSample.serde JournalSample.reader
    Sample.libs toy_schema toy_display WorkerSample.record_serde InMemory.t (@InMemory.store ascii_tables) (fun _ _ => 0)
    WorkerSample.env WorkerSample.cfg PipelineSample.app 4 None PipelineSample.start AttemptSample.final AttemptSample.starts
    AttemptSample.run_left) as (lost & _ & _ & Hlost & _ & H); [vm_compute; reflexivity|vm_compute; reflexivity|].
  split; [exact AttemptSample.one_opened|].
  destruct AttemptSample.idle as (se & Es & Ea & Ep). destruct (H 0%nat se Es Ea Ep) as [_ Hx].
  destruct (Hx (lit "attempt")) as [Hd|Hl]; [rewrite AttemptSample.one_opened; apply list_elem_of_here|exact Hd|].
  rewrite (Hlost AttemptSample.all_open) in Hl. destruct (not_elem_of_nil _ Hl).
Defined.
