(* ===== verification/AtifWire.v ===== *)
(** The wire form of trajectory documents: what [serde]'s derives generate for the
    types of [av-atif/src/model.rs], which tolerate unknown members and skip absent
    ones. *)

From S2P Require Import Prelude Rust Json Float Serde Atif.

Module AtifWire.
Import Atif.

(** * Reading *)

(** The fields of a struct: members of an object, or the elements of an array. *)
Definition loose_fields (names : list string) (v : Value) : option (list (option Value)) :=
  match v with
  | Object m => Some (map (fun n => map_get (lit n) m) names)
  | Array l => if (length l =? length names)%nat then Some (map Some l) else None
  | _ => None
  end.

Definition de_u64 : Value -> option Z := de_uint u64_max.

Definition de_map (v : Value) : option (list (str * Value)) := as_object v.

Definition source_of_name (s : str) : option Source :=
  if str_eqb s (lit "system") then Some System
  else if str_eqb s (lit "user") then Some User
  else if str_eqb s (lit "agent") then Some AgentSource
  else None.

Definition source_from : Value -> option Source := de_unit_variant source_of_name.

(** Untagged: the first variant that reads. *)
Definition effort_from (v : Value) : option ReasoningEffort :=
  match de_str v with
  | Some s => Some (EffortText s)
  | None => EffortNumeric <$> as_f64 v
  end.

Definition agent_names : list string := ["name"; "version"; "model_name"; "tool_definitions"; "extra"]%string.

Definition agent_from (v : Value) : option Agent :=
  match loose_fields agent_names v with
  | Some [name; version; model; tools; extra] =>
      Some mkAgent <*> required de_str name <*> required de_str version <*> optional de_str model
      <*> optional (de_vec de_map) tools <*> optional de_value extra
  | _ => None
  end.

Definition tool_call_names : list string := ["tool_call_id"; "function_name"; "arguments"; "extra"]%string.

Definition tool_call_from (v : Value) : option ToolCall :=
  match loose_fields tool_call_names v with
  | Some [id; name; arguments; extra] =>
      Some mkToolCall <*> required de_str id <*> required de_str name <*> required de_value arguments
      <*> optional de_value extra
  | _ => None
  end.

Definition subagent_ref_names : list string := ["trajectory_id"; "session_id"; "trajectory_path"; "extra"]%string.

Definition subagent_ref_from (v : Value) : option SubagentTrajectoryRef :=
  match loose_fields subagent_ref_names v with
  | Some [id; sid; path; extra] =>
      Some mkSubagentRef <*> optional de_str id <*> optional de_str sid <*> optional de_str path <*> optional de_value extra
  | _ => None
  end.

Definition obs_result_names : list string := ["source_call_id"; "content"; "subagent_trajectory_ref"; "extra"]%string.

Definition obs_result_from (v : Value) : option ObservationResult :=
  match loose_fields obs_result_names v with
  | Some [call; content; refs; extra] =>
      Some mkObservationResult <*> optional de_str call <*> optional de_value content
      <*> optional (de_vec subagent_ref_from) refs <*> optional de_value extra
  | _ => None
  end.

Definition observation_from (v : Value) : option Observation :=
  match loose_fields ["results"]%string v with
  | Some [results] => Some mkObservation <*> required (de_vec obs_result_from) results
  | _ => None
  end.

Definition metrics_names : list string :=
  ["prompt_tokens"; "completion_tokens"; "cached_tokens"; "cost_usd"; "logprobs"; "completion_token_ids";
   "prompt_token_ids"; "extra"]%string.

Definition metrics_from (v : Value) : option Metrics :=
  match loose_fields metrics_names v with
  | Some [prompt; completion; cached; cost; logprobs; completion_ids; prompt_ids; extra] =>
      Some mkStepMetrics <*> optional de_u64 prompt <*> optional de_u64 completion <*> optional de_u64 cached
      <*> optional as_f64 cost <*> optional (de_vec as_f64) logprobs <*> optional (de_vec de_u64) completion_ids
      <*> optional (de_vec de_u64) prompt_ids <*> optional de_value extra
  | _ => None
  end.

Definition step_names : list string :=
  ["step_id"; "timestamp"; "source"; "message"; "reasoning_effort"; "reasoning_content"; "model_name"; "tool_calls";
   "observation"; "metrics"; "is_copied_context"; "llm_call_count"; "extra"]%string.

Definition step_from (v : Value) : option Step :=
  match loose_fields step_names v with
  | Some [id; timestamp; source; message; effort; reasoning; model; calls; observation; metrics; copied; count; extra] =>
      Some mkStep <*> required de_u64 id <*> optional de_str timestamp <*> required source_from source
      <*> required de_value message <*> optional effort_from effort <*> optional de_str reasoning
      <*> optional de_str model <*> optional (de_vec tool_call_from) calls <*> optional observation_from observation
      <*> optional metrics_from metrics <*> optional de_bool copied <*> optional de_u64 count <*> optional de_value extra
  | _ => None
  end.

Definition final_metrics_names : list string :=
  ["total_prompt_tokens"; "total_completion_tokens"; "total_cached_tokens"; "total_cost_usd"; "total_steps"; "extra"]%string.

Definition final_metrics_from (v : Value) : option FinalMetrics :=
  match loose_fields final_metrics_names v with
  | Some [prompt; completion; cached; cost; steps; extra] =>
      Some mkFinalMetrics <*> optional de_u64 prompt <*> optional de_u64 completion <*> optional de_u64 cached
      <*> optional as_f64 cost <*> optional de_u64 steps <*> optional de_value extra
  | _ => None
  end.

Definition trajectory_names : list string :=
  ["schema_version"; "session_id"; "trajectory_id"; "agent"; "steps"; "notes"; "final_metrics";
   "continued_trajectory_ref"; "subagent_trajectories"; "extra"]%string.

(** [fuel] bounds the nesting of embedded trajectories. *)
Fixpoint trajectory_from (fuel : nat) (v : Value) : option Trajectory :=
  match fuel with
  | O => None
  | S fuel' =>
      match loose_fields trajectory_names v with
      | Some [version; sid; tid; agent; steps; notes; final; continued; subs; extra] =>
          Some mkTrajectory <*> required de_str version <*> optional de_str sid <*> optional de_str tid
          <*> required agent_from agent <*> required (de_vec step_from) steps <*> optional de_str notes
          <*> optional final_metrics_from final <*> optional de_str continued
          <*> optional (de_vec (trajectory_from fuel')) subs <*> optional de_value extra
      | _ => None
      end
  end.

(** * Writing *)

(** A double that is not finite is written as [null]. *)
Definition ser_f64 (f : f64) : Value := if is_finite f then Number (Float f) else Null.

Definition ser_id (v : Value) : Value := v.

Definition source_to (s : Source) : Value :=
  JString (match s with System => lit "system" | User => lit "user" | AgentSource => lit "agent" end).

Definition effort_to (e : ReasoningEffort) : Value :=
  match e with EffortText s => JString s | EffortNumeric f => ser_f64 f end.

Definition agent_to (a : Agent) : Value :=
  Object (member "name" (JString (at_name a)) ++ member "version" (JString (at_version a))
          ++ opt_member "model_name" JString (at_model_name a)
          ++ opt_member "tool_definitions" (fun l => Array (map Object l)) (at_tool_definitions a)
          ++ opt_member "extra" ser_id (at_extra a)).

Definition tool_call_to (c : ToolCall) : Value :=
  Object (member "tool_call_id" (JString (tl_tool_call_id c)) ++ member "function_name" (JString (tl_function_name c))
          ++ member "arguments" (tl_arguments c) ++ opt_member "extra" ser_id (tl_extra c)).

Definition subagent_ref_to (r : SubagentTrajectoryRef) : Value :=
  Object (opt_member "trajectory_id" JString (sr_trajectory_id r) ++ opt_member "session_id" JString (sr_session_id r)
          ++ opt_member "trajectory_path" JString (sr_trajectory_path r) ++ opt_member "extra" ser_id (sr_extra r)).

Definition obs_result_to (r : ObservationResult) : Value :=
  Object (opt_member "source_call_id" JString (or_source_call_id r) ++ opt_member "content" ser_id (or_content r)
          ++ opt_member "subagent_trajectory_ref" (fun l => Array (map subagent_ref_to l)) (or_subagent_trajectory_ref r)
          ++ opt_member "extra" ser_id (or_extra r)).

Definition observation_to (o : Observation) : Value :=
  Object (member "results" (Array (map obs_result_to (ob_results o)))).

Definition metrics_to (m : Metrics) : Value :=
  Object (opt_member "prompt_tokens" ser_u (mt_prompt_tokens m) ++ opt_member "completion_tokens" ser_u (mt_completion_tokens m)
          ++ opt_member "cached_tokens" ser_u (mt_cached_tokens m) ++ opt_member "cost_usd" ser_f64 (mt_cost_usd m)
          ++ opt_member "logprobs" (fun l => Array (map ser_f64 l)) (mt_logprobs m)
          ++ opt_member "completion_token_ids" (fun l => Array (map ser_u l)) (mt_completion_token_ids m)
          ++ opt_member "prompt_token_ids" (fun l => Array (map ser_u l)) (mt_prompt_token_ids m)
          ++ opt_member "extra" ser_id (mt_extra m)).

Definition step_to (s : Step) : Value :=
  Object (member "step_id" (ser_u (st_step_id s)) ++ opt_member "timestamp" JString (st_timestamp s)
          ++ member "source" (source_to (st_source s)) ++ member "message" (st_message s)
          ++ opt_member "reasoning_effort" effort_to (st_reasoning_effort s)
          ++ opt_member "reasoning_content" JString (st_reasoning_content s)
          ++ opt_member "model_name" JString (st_model_name s)
          ++ opt_member "tool_calls" (fun l => Array (map tool_call_to l)) (st_tool_calls s)
          ++ opt_member "observation" observation_to (st_observation s)
          ++ opt_member "metrics" metrics_to (st_metrics s)
          ++ opt_member "is_copied_context" Bool (st_is_copied_context s)
          ++ opt_member "llm_call_count" ser_u (st_llm_call_count s)
          ++ opt_member "extra" ser_id (st_extra s)).

Definition final_metrics_to (m : FinalMetrics) : Value :=
  Object (opt_member "total_prompt_tokens" ser_u (fm_total_prompt_tokens m)
          ++ opt_member "total_completion_tokens" ser_u (fm_total_completion_tokens m)
          ++ opt_member "total_cached_tokens" ser_u (fm_total_cached_tokens m)
          ++ opt_member "total_cost_usd" ser_f64 (fm_total_cost_usd m)
          ++ opt_member "total_steps" ser_u (fm_total_steps m) ++ opt_member "extra" ser_id (fm_extra m)).

Fixpoint trajectory_to (t : Trajectory) : Value :=
  Object (member "schema_version" (JString (tj_schema_version t)) ++ opt_member "session_id" JString (tj_session_id t)
          ++ opt_member "trajectory_id" JString (tj_trajectory_id t) ++ member "agent" (agent_to (tj_agent t))
          ++ member "steps" (Array (map step_to (tj_steps t))) ++ opt_member "notes" JString (tj_notes t)
          ++ opt_member "final_metrics" final_metrics_to (tj_final_metrics t)
          ++ opt_member "continued_trajectory_ref" JString (tj_continued_trajectory_ref t)
          ++ opt_member "subagent_trajectories" (fun l => Array (map trajectory_to l)) (tj_subagent_trajectories t)
          ++ opt_member "extra" ser_id (tj_extra t)).
End AtifWire.
