(* ===== verification/AtifWireProofs.v ===== *)
(** A trajectory document loses nothing on the wire: reading what was written gives it
    back. *)

From S2P Require Import Prelude Rust Json Float Serde Atif AtifWire.

Import Atif AtifWire.

(** * What the wire can carry *)

(** A free value that is written as [null] would read as absent. *)
Definition carried (o : option Value) : Prop := o <> Some Null.
Definition u64_opt (o : option Z) : Prop := forall n, o = Some n -> is_u64 n.
Definition u64s_opt (o : option (list Z)) : Prop := forall l, o = Some l -> Forall is_u64 l.
Definition finite_opt (o : option f64) : Prop := forall f, o = Some f -> is_finite f = true.

Record metrics_carried (m : Metrics) : Prop := {
  mc_counts : u64_opt (mt_prompt_tokens m) /\ u64_opt (mt_completion_tokens m) /\ u64_opt (mt_cached_tokens m);
  mc_cost : finite_opt (mt_cost_usd m);
  mc_logprobs : forall l, mt_logprobs m = Some l -> Forall (fun f => is_finite f = true) l;
  mc_ids : u64s_opt (mt_completion_token_ids m) /\ u64s_opt (mt_prompt_token_ids m);
  mc_extra : carried (mt_extra m);
}.

Definition call_carried (c : ToolCall) : Prop := carried (tl_extra c).
Definition ref_carried (r : SubagentTrajectoryRef) : Prop := carried (sr_extra r).

Record result_carried (r : ObservationResult) : Prop := {
  rc_content : carried (or_content r);
  rc_refs : Forall ref_carried (default [] (or_subagent_trajectory_ref r));
  rc_extra : carried (or_extra r);
}.

Record step_carried (s : Step) : Prop := {
  sc_id : is_u64 (st_step_id s);
  sc_effort : forall f, st_reasoning_effort s = Some (EffortNumeric f) -> is_finite f = true;
  sc_calls : Forall call_carried (default [] (st_tool_calls s));
  sc_results : forall o, st_observation s = Some o -> Forall result_carried (ob_results o);
  sc_metrics : forall m, st_metrics s = Some m -> metrics_carried m;
  sc_count : u64_opt (st_llm_call_count s);
  sc_extra : carried (st_extra s);
}.

Record final_carried (m : FinalMetrics) : Prop := {
  fc_counts : u64_opt (fm_total_prompt_tokens m) /\ u64_opt (fm_total_completion_tokens m) /\
    u64_opt (fm_total_cached_tokens m) /\ u64_opt (fm_total_steps m);
  fc_cost : finite_opt (fm_total_cost_usd m);
  fc_extra : carried (fm_extra m);
}.

(** [depth] bounds the nesting of the embedded trajectories. *)
Inductive trajectory_carried : nat -> Trajectory -> Prop :=
| carried_intro depth t :
    carried (at_extra (tj_agent t)) -> Forall step_carried (tj_steps t) ->
    (forall m, tj_final_metrics t = Some m -> final_carried m) -> carried (tj_extra t) ->
    (forall sub, sub ∈ default [] (tj_subagent_trajectories t) -> trajectory_carried depth sub) ->
    trajectory_carried (S depth) t.

(** * Reading back one member *)

Lemma opt_back {A} (f : Value -> option A) (g : A -> Value) o :
  (forall a, o = Some a -> f (g a) = Some a /\ g a <> Null) ->
  optional f (match o with Some a => Some (g a) | None => None end) = Some o.
Proof. exact (optional_opt f g o). Qed.

Lemma str_back o : optional de_str (match o with Some s => Some (JString s) | None => None end) = Some o.
Proof. by apply opt_back. Qed.

Lemma bool_back o : optional de_bool (match o with Some b => Some (Bool b) | None => None end) = Some o.
Proof. by apply opt_back. Qed.

Lemma value_back o : carried o -> optional de_value (match o with Some v => Some (ser_id v) | None => None end) = Some o.
Proof. intros Hc. apply opt_back. intros v ->. split; [done|]. unfold ser_id. intros ->. by apply Hc. Qed.

Lemma u64_back n : is_u64 n -> de_u64 (ser_u n) = Some n.
Proof. apply de_uint_ser. Qed.

Lemma u64_opt_back o : u64_opt o -> optional de_u64 (match o with Some n => Some (ser_u n) | None => None end) = Some o.
Proof. intros H. apply opt_back. intros n Hn. split; [by apply u64_back, H|done]. Qed.

Lemma f64_back f : is_finite f = true -> as_f64 (ser_f64 f) = Some f.
Proof. unfold ser_f64. by intros ->. Qed.

Lemma f64_opt_back o : finite_opt o ->
  optional as_f64 (match o with Some f => Some (ser_f64 f) | None => None end) = Some o.
Proof. intros H. apply opt_back. intros f Hf. unfold ser_f64. by rewrite (H f Hf). Qed.

Lemma vec_back {A} (f : Value -> option A) (g : A -> Value) l : Forall (fun a => f (g a) = Some a) l ->
  de_vec f (Array (map g l)) = Some l.
Proof. rewrite Forall_forall. apply de_seq_map. Qed.

Lemma vec_opt_back {A} (f : Value -> option A) (g : A -> Value) o :
  Forall (fun a => f (g a) = Some a) (default [] o) ->
  optional (de_vec f) (match o with Some l => Some (Array (map g l)) | None => None end) = Some o.
Proof.
  intros H. apply (opt_back (de_vec f) (fun l => Array (map g l))). intros l ->. split; [by apply vec_back|done].
Qed.

(** Look every field of a struct up among the members that were written. *)
Ltac read_fields :=
  rewrite <- (app_nil_r (opt_member "extra" ser_id _)); get_names;
  cbn [map_get required mbind option_bind de_str as_str de_value].

(** * Structs *)

Lemma tool_call_back c : call_carried c -> tool_call_from (tool_call_to c) = Some c.
Proof.
  intros Hc. unfold tool_call_from, tool_call_to. cbn [loose_fields tool_call_names map]. read_fields.
  rewrite value_back by done. by destruct c.
Qed.

Lemma ref_back r : ref_carried r -> subagent_ref_from (subagent_ref_to r) = Some r.
Proof.
  intros Hc. unfold subagent_ref_from, subagent_ref_to. cbn [loose_fields subagent_ref_names map]. read_fields.
  rewrite !str_back, value_back by done. by destruct r.
Qed.

Lemma result_back r : result_carried r -> obs_result_from (obs_result_to r) = Some r.
Proof.
  intros [Hc Hr He]. unfold obs_result_from, obs_result_to. cbn [loose_fields obs_result_names map]. read_fields.
  rewrite str_back, !value_back by done. rewrite vec_opt_back; [by destruct r|].
  eapply Forall_impl; [exact Hr|]. apply ref_back.
Qed.

Lemma observation_back o : Forall result_carried (ob_results o) -> observation_from (observation_to o) = Some o.
Proof.
  intros H. unfold observation_from, observation_to. cbn [loose_fields map]. rewrite <- (app_nil_r (member _ _)). get_names.
  unfold required. cbn [mbind option_bind]. rewrite vec_back; [by destruct o|]. eapply Forall_impl; [exact H|]. apply result_back.
Qed.

Lemma agent_back a : carried (at_extra a) -> agent_from (agent_to a) = Some a.
Proof.
  intros Hc. unfold agent_from, agent_to. cbn [loose_fields agent_names map]. read_fields.
  rewrite str_back, value_back by done. rewrite (vec_opt_back de_map Object) by (apply Forall_true; done). by destruct a.
Qed.

Lemma u64s_back o : u64s_opt o -> Forall (fun n => de_u64 (ser_u n) = Some n) (default [] o).
Proof. intros H. destruct o as [l|]; [|constructor]. eapply Forall_impl; [by apply H|]. apply u64_back. Qed.

Lemma metrics_back m : metrics_carried m -> metrics_from (metrics_to m) = Some m.
Proof.
  intros [(Hp & Hc & Hh) Hcost Hlp [Hci Hpi] He]. unfold metrics_from, metrics_to. cbn [loose_fields metrics_names map].
  read_fields. rewrite !u64_opt_back, f64_opt_back, value_back by done.
  rewrite (vec_opt_back as_f64 ser_f64).
  2:{ destruct (mt_logprobs m) as [l|]; [|constructor]. eapply Forall_impl; [by apply Hlp|]. apply f64_back. }
  rewrite !(vec_opt_back de_u64 ser_u) by by apply u64s_back. by destruct m.
Qed.

Lemma source_back s : source_from (source_to s) = Some s.
Proof. by destruct s. Qed.

Lemma effort_back e : (forall f, e = EffortNumeric f -> is_finite f = true) ->
  effort_from (effort_to e) = Some e /\ effort_to e <> Null.
Proof.
  destruct e as [s|f]; [done|]. intros H. cbn. unfold ser_f64. rewrite (H f eq_refl). done.
Qed.

Lemma step_back s : step_carried s -> step_from (step_to s) = Some s.
Proof.
  intros [Hid Heff Hcalls Hres Hmet Hcount He]. unfold step_from, step_to. cbn [loose_fields step_names map]. read_fields.
  rewrite u64_back, source_back, !str_back, bool_back, u64_opt_back, value_back by done.
  rewrite (opt_back effort_from effort_to) by (intros e He2; apply effort_back; intros f ->; by apply Heff).
  rewrite (vec_opt_back tool_call_from tool_call_to) by (eapply Forall_impl; [exact Hcalls|]; apply tool_call_back).
  rewrite (opt_back observation_from observation_to) by (intros o Ho; split; [by apply observation_back, Hres|done]).
  rewrite (opt_back metrics_from metrics_to) by (intros m Hm; split; [by apply metrics_back, Hmet|done]). by destruct s.
Qed.

Lemma final_back m : final_carried m -> final_metrics_from (final_metrics_to m) = Some m.
Proof.
  intros [(Hp & Hc & Hh & Hs) Hcost He]. unfold final_metrics_from, final_metrics_to.
  cbn [loose_fields final_metrics_names map]. read_fields.
  rewrite !u64_opt_back, f64_opt_back, value_back by done. by destruct m.
Qed.

Lemma trajectory_wire_back (depth : nat) (t : Trajectory) : trajectory_carried depth t ->
  trajectory_from depth (trajectory_to t) = Some t.
Proof.
  intros H. induction H as [depth t Ha Hs Hf He _ IH]. destruct t as [v sid tid a steps notes fm cont subs ex].
  cbn [tj_agent tj_steps tj_final_metrics tj_extra tj_subagent_trajectories] in *.
  cbn [trajectory_from trajectory_to loose_fields trajectory_names map tj_schema_version tj_session_id tj_trajectory_id tj_agent
    tj_steps tj_notes tj_final_metrics tj_continued_trajectory_ref tj_subagent_trajectories tj_extra]. read_fields.
  rewrite agent_back, !str_back, value_back by done.
  rewrite (vec_back step_from step_to) by (eapply Forall_impl; [exact Hs|]; apply step_back).
  rewrite (opt_back final_metrics_from final_metrics_to) by (intros m Hm; split; [by apply final_back, Hf|done]).
  rewrite (vec_opt_back (trajectory_from depth) trajectory_to) by (by apply Forall_forall). done.
Qed.

(** A trajectory document survives the wire.  A typed trajectory whose numbers fit and
    are finite, whose free members are not [null] and whose embedded trajectories nest less
    than [depth] deep is read back, unchanged, from what is written for it. *)
Theorem trajectory_wire_roundtrip (depth : nat) (t : Trajectory) : trajectory_carried depth t ->
  trajectory_from depth (trajectory_to t) = Some t.
Proof. apply trajectory_wire_back. Qed.
