(* ===== verification/Validate.v ===== *)
(** [av-atif/src/validate.rs]: the trajectory validator, and the derived readers of
    [model.rs] that its strict mode stands in for. *)

From S2P Require Import Prelude Rust CoreBase Json Float Core Serde Rpc Atif AtifWire.

Module Validate.

Inductive Mode := Strict | Compat.

#[global] Instance Mode_eq_dec : EqDecision Mode.
Proof. solve_decision. Defined.

Record ValidationIssue := mkIssue { is_path : str; is_message : str }.

(** A check is the list of the issues it raises, in order. *)
Definition Check : Type := list ValidationIssue.

Definition issue (path : str) (message : str) : Check := [mkIssue path message].

Definition when (b : bool) (c : Check) : Check := if b then c else [].

(** [{path}.{field}], [{path}.{i}] and [{path}[{i}]]. *)
Definition dot (path : str) (field : str) : str := path ++ lit "." ++ field.
Definition dot_index (path : str) (i : nat) : str := dot path (fmt_int (Z.of_nat i)).
Definition at_index (path : str) (i : nat) : str := path ++ lit "[" ++ fmt_int (Z.of_nat i) ++ lit "]".

(** [for (i, x) in items.iter().enumerate()]. *)
Fixpoint each_from {A} (i : nat) (f : nat -> A -> Check) (items : list A) : Check :=
  match items with
  | [] => []
  | x :: rest => f i x ++ each_from (S i) f rest
  end.

Definition each {A} (f : nat -> A -> Check) (items : list A) : Check := each_from 0 f items.

(** [for f in names]. *)
Definition for_names (f : str -> Check) (names : list str) : Check := List.concat (map f names).

(** * Limits and field lists *)

Definition MAX_VALIDATION_ISSUES : nat := 4096.
Definition MAX_NESTED_DEPTH : nat := 128.
Definition MAX_COST_USD : f64 := Atif.MAX_COST_USD.
Definition MAX_ID_LEN : Z := 128.
Definition MAX_NOTES_LEN : Z := 8 * 1024.
Definition MAX_REASONING_LEN : Z := 256 * 1024.

Definition TRAJECTORY_FIELDS : list str :=
  map lit ["schema_version"; "session_id"; "trajectory_id"; "agent"; "steps"; "notes"; "final_metrics";
           "continued_trajectory_ref"; "subagent_trajectories"; "extra"]%string.
Definition AGENT_FIELDS : list str := map lit ["name"; "version"; "model_name"; "tool_definitions"; "extra"]%string.
Definition STEP_FIELDS : list str :=
  map lit ["step_id"; "timestamp"; "source"; "message"; "reasoning_effort"; "reasoning_content"; "model_name";
           "tool_calls"; "observation"; "metrics"; "is_copied_context"; "llm_call_count"; "extra"]%string.
Definition AGENT_ONLY_STEP_FIELDS : list str :=
  map lit ["reasoning_content"; "reasoning_effort"; "model_name"; "tool_calls"; "metrics"]%string.
Definition TOOL_CALL_FIELDS : list str := map lit ["tool_call_id"; "function_name"; "arguments"; "extra"]%string.
Definition OBS_RESULT_FIELDS : list str := map lit ["source_call_id"; "content"; "subagent_trajectory_ref"; "extra"]%string.
Definition SUBAGENT_REF_FIELDS : list str := map lit ["trajectory_id"; "session_id"; "trajectory_path"; "extra"]%string.
Definition METRICS_FIELDS : list str :=
  map lit ["prompt_tokens"; "completion_tokens"; "cached_tokens"; "cost_usd"; "logprobs"; "completion_token_ids";
           "prompt_token_ids"; "extra"]%string.
Definition FINAL_METRICS_FIELDS : list str :=
  map lit ["total_prompt_tokens"; "total_completion_tokens"; "total_cached_tokens"; "total_cost_usd"; "total_steps";
           "extra"]%string.

(** * Accessors *)

Definition Map : Type := list (str * Value).

Definition get (field : string) (m : Map) : option Value := map_get (lit field) m.
Definition has (field : string) (m : Map) : bool := contains_key (lit field) m.

Definition value_u64 (v : Value) : option Z := match v with Number n => as_u64 n | _ => None end.
Definition is_string (v : Value) : bool := match v with JString _ => true | _ => false end.
Definition is_array (v : Value) : bool := match v with Array _ => true | _ => false end.
Definition is_number (v : Value) : bool := match v with Number _ => true | _ => false end.
Definition is_boolean (v : Value) : bool := match v with Bool _ => true | _ => false end.
Definition is_null (v : Value) : bool := match v with Null => true | _ => false end.
Definition is_u64_value (v : Value) : bool := match value_u64 v with Some _ => true | None => false end.

(** [is_some_and]. *)
Definition some_and {A} (p : A -> bool) (o : option A) : bool := match o with Some a => p a | None => false end.

Definition get_str (field : string) (m : Map) : option str := get field m ≫= as_str.
Definition get_u64 (field : string) (m : Map) : option Z := get field m ≫= value_u64.

(** A version, and [<] on versions. *)
Definition Version : Type := Z * Z.
Definition ver_lt (a b : Version) : bool := (a.1 <? b.1) || ((a.1 =? b.1) && (a.2 <? b.2)).

Definition fmt_ver (v : Version) : str := fmt_int v.1 ++ lit "." ++ fmt_int v.2.

Definition digit_value (c : Z) : option Z := if is_ascii_digit c then Some (c - 48) else None.

Fixpoint digits_value (acc : Z) (s : str) : option Z :=
  match s with
  | [] => Some acc
  | c :: r => match digit_value c with
              | Some d => if acc * 10 + d <=? u32_max then digits_value (acc * 10 + d) r else None
              | None => None
              end
  end.

(** [str::parse::<u32>]: a sign, then digits that fit. *)
Definition parse_u32 (s : str) : option Z :=
  match s with
  | [] => None
  | 43 :: [] => None
  | 43 :: r => digits_value 0 r
  | _ => digits_value 0 s
  end.

Definition parse_version (v : str) : option Version :=
  match strip_prefix (lit "ATIF-v") v with
  | None => None
  | Some rest =>
      match split_once (lit ".") rest with
      | None => None
      | Some (maj, min) =>
          match parse_u32 maj, parse_u32 min with
          | Some a, Some b => Some (a, b)
          | _, _ => None
          end
      end
  end.

(** * Timestamps *)

(** The number that the digits at [i .. i+n) spell. *)
Fixpoint digits_at (b : list Z) (i n : nat) (acc : Z) : option Z :=
  match n with
  | O => Some acc
  | S n' => match b !! i with
            | Some c => if is_ascii_digit c then
                          let acc := acc * 10 + (c - 48) in
                          if acc <=? u32_max then digits_at b (S i) n' acc else None
                        else None
            | None => None
            end
  end.

Definition sep (b : list Z) (i : nat) (ch : Z) : bool := bool_decide (b !! i = Some ch).

Definition days_in_month (year month : Z) : Z :=
  if existsb (Z.eqb month) [1; 3; 5; 7; 8; 10; 12] then 31
  else if existsb (Z.eqb month) [4; 6; 9; 11] then 30
  else if ((year mod 4 =? 0) && negb (year mod 100 =? 0)) || (year mod 400 =? 0) then 29 else 28.

(** How many digits follow from [i]. *)
Fixpoint count_digits (b : list Z) : nat :=
  match b with
  | c :: r => if is_ascii_digit c then S (count_digits r) else O
  | [] => O
  end.

(** The time zone from [i] on. *)
Definition offset_ok (b : list Z) (i : nat) (require_offset : bool) : bool :=
  match b !! i with
  | None => negb require_offset
  | Some c =>
      if (c =? 90) || (c =? 122) then (i + 1 =? length b)%nat
      else if (c =? 43) || (c =? 45) then
        match digits_at b (i + 1) 2 0, digits_at b (i + 4) 2 0 with
        | Some oh, Some om => sep b (i + 3) 58 && (oh <=? 14) && (om <=? 59) && (i + 6 =? length b)%nat
        | _, _ => false
        end
      else false
  end.

Definition is_iso8601 (s : str) (require_offset : bool) : bool :=
  let b := as_bytes s in
  if (length b <? 19)%nat then false
  else
    match digits_at b 0 4 0, digits_at b 5 2 0, digits_at b 8 2 0 with
    | Some year, Some month, Some day =>
        if negb (sep b 4 45 && sep b 7 45 && (sep b 10 84 || sep b 10 116)) then false
        else
          match digits_at b 11 2 0, digits_at b 14 2 0, digits_at b 17 2 0 with
          | Some hour, Some min, Some sec =>
              if negb (sep b 13 58 && sep b 16 58) then false
              else if negb ((1 <=? month) && (month <=? 12)) || (23 <? hour) || (59 <? min) || (60 <? sec) then false
              else if (sec =? 60) && negb ((hour =? 23) && (min =? 59)) then false
              else if (day =? 0) || (days_in_month year month <? day) then false
              else if sep b 19 46 then
                let n := count_digits (drop 20 b) in
                if (n =? 0)%nat then false else offset_ok b (20 + n) require_offset
              else offset_ok b 19 require_offset
          | _, _, _ => false
          end
    | _, _, _ => false
    end.

Section Validate.
Context {UT : UnicodeTables}.

(** * Field checks *)

Definition check_unknown_fields (obj : Map) (allowed : list str) (path : str) (mode : Mode) : Check :=
  when (bool_decide (mode = Strict))
    (for_names (fun k => when (negb (known allowed k)) (issue (dot path k) (lit "unknown field (strict mode)")))
       (map fst obj)).

Definition is_visible_ascii (s : str) : bool := forallb Ids.visible_ascii (as_bytes s).

(** [&s[..s.floor_char_boundary(24.min(s.len()))]]. *)
Definition preview (s : str) : str := Ids.floor_prefix (Z.min 24 (str_len s)) s.

Definition check_id_field (obj : Map) (field : string) (path : str) : Check :=
  match get_str field obj with
  | None => []
  | Some s =>
      if str_eqb s [] then issue (dot path (lit field)) (lit "must be non-empty")
      else if MAX_ID_LEN <? str_len s then
        issue (dot path (lit field))
          (lit "id length " ++ fmt_int (str_len s) ++ lit " exceeds 128 bytes (SessionId parity); starts " ++ fmt_debug (preview s))
      else if negb (is_visible_ascii s) then
        issue (dot path (lit field))
          (lit "id " ++ fmt_debug s ++ lit " contains bytes outside visible ASCII (0x21-0x7e); log-injection-safe class required for downstream tools that display it")
      else []
  end.

Definition control_byte (b : Z) : bool := (b <? 0x20) || (b =? 0x7F).

Definition check_display_name_field (obj : Map) (field : string) (path : str) : Check :=
  match get_str field obj with
  | None => []
  | Some s =>
      if str_eqb s [] then []
      else if MAX_ID_LEN <? str_len s then
        issue (dot path (lit field))
          (lit "display name length " ++ fmt_int (str_len s) ++ lit " exceeds 128 bytes; starts " ++ fmt_debug (preview s))
      else when (existsb control_byte (as_bytes s))
        (issue (dot path (lit field))
           (lit "display name contains control bytes (0x00-0x1F or 0x7F); log-injection-safe class required for downstream tools that display it"))
  end.

(** A member of the wrong type, [null] being allowed. *)
Definition check_type (ok : Value -> bool) (obj : Map) (field : string) (path : str) (message : string) : Check :=
  when (some_and (fun v => negb (ok v) && negb (is_null v)) (get field obj)) (issue (dot path (lit field)) (lit message)).

Definition check_string (obj : Map) (field : string) (path : str) : Check :=
  check_type is_string obj field path "must be a string".

(** A member that needs a later version than the file's. *)
Definition requires (obj : Map) (field : string) (path : str) (ver since : Version) (message : str) : Check :=
  when (has field obj && ver_lt ver since) (issue (dot path (lit field)) message).

Definition needs_file (since : string) (ver : Version) : str :=
  lit "field requires ATIF-" ++ lit since ++ lit "+, file is v" ++ fmt_ver ver.

Definition missing (obj_path : str) (field : string) : Check :=
  issue (dot obj_path (lit field)) (lit "required field is missing").

(** A count that receipts can canonicalize. *)
Definition check_count (obj : Map) (path : str) (field : string) : Check :=
  match get field obj with
  | None => []
  | Some v =>
      match value_u64 v with
      | Some n => when (JCS_SAFE_MAX <? n) (issue (dot path (lit field)) (lit "exceeds the JCS-safe integer bound (2^53)"))
      | None => issue (dot path (lit field)) (lit "must be a non-negative integer")
      end
  end.

Definition cost_ok (n : f64) : bool := is_finite n && SFleb (S754_zero false) n && SFleb n MAX_COST_USD.

Definition check_cost (obj : Map) (path : str) (field : string) : Check :=
  match get field obj with
  | None => []
  | Some v =>
      match as_f64 v with
      | Some n => when (negb (cost_ok n)) (issue (dot path (lit field)) (lit "must be a finite non-negative number " ++ 0x2264 :: lit " 9e9"))
      | None => issue (dot path (lit field)) (lit "must be a number")
      end
  end.

(** An array whose items all pass. *)
Definition check_items (obj : Map) (path : str) (field : string) (ok : Value -> bool) (item_message array_message : string)
  : Check :=
  match get field obj with
  | None => []
  | Some v =>
      match as_array v with
      | Some items =>
          each (fun i item => when (negb (ok item)) (issue (at_index (dot path (lit field)) i) (lit item_message))) items
      | None => issue (dot path (lit field)) (lit array_message)
      end
  end.

(** * Tool calls *)

(** The ids collected so far, and the call at [j]. *)
Definition validate_call (ver : Version) (mode : Mode) (path : str) (ids : gset str) (j : nat) (call : Value)
  : gset str * Check :=
  let cpath := dot_index (dot path (lit "tool_calls")) j in
  match as_object call with
  | None => (ids, issue cpath (lit "tool call must be an object"))
  | Some c =>
      let '(ids', id_check) :=
        match get_str "tool_call_id" c with
        | Some id =>
            if str_eqb id [] then (ids, missing cpath "tool_call_id")
            else if bool_decide (id ∈ ids)
                 then (ids, issue (dot cpath (lit "tool_call_id")) (lit "duplicate id " ++ fmt_debug id))
                 else ({[id]} ∪ ids, [])
        | None => (ids, missing cpath "tool_call_id")
        end in
      (ids',
       check_unknown_fields c TOOL_CALL_FIELDS cpath mode
       ++ requires c "extra" cpath ver (1, 7) (lit "field requires ATIF-v1.7+")
       ++ id_check
       ++ check_id_field c "tool_call_id" cpath
       ++ check_id_field c "function_name" cpath
       ++ when (negb (some_and (fun s => negb (str_eqb s [])) (get_str "function_name" c))) (missing cpath "function_name")
       ++ match get "arguments" c with
          | Some (Object _) => []
          | Some _ => issue (dot cpath (lit "arguments")) (lit "must be an object")
          | None => missing cpath "arguments"
          end)
  end.

Fixpoint validate_calls_from (j : nat) (ver : Version) (mode : Mode) (path : str) (ids : gset str) (calls : list Value)
  : gset str * Check :=
  match calls with
  | [] => (ids, [])
  | call :: rest =>
      let '(ids1, c1) := validate_call ver mode path ids j call in
      let '(ids2, c2) := validate_calls_from (S j) ver mode path ids1 rest in
      (ids2, c1 ++ c2)
  end.

Definition validate_calls (ver : Version) (mode : Mode) (path : str) (obj : Map) : gset str * Check :=
  match get "tool_calls" obj with
  | None => (∅, [])
  | Some tc =>
      match as_array tc with
      | Some calls => validate_calls_from 0 ver mode path ∅ calls
      | None => (∅, issue (dot path (lit "tool_calls")) (lit "must be an array"))
      end
  end.

(** * Observations *)

Definition non_empty_str (field : string) (m : Map) : bool := some_and (fun s => negb (str_eqb s [])) (get_str field m).

Definition validate_ref (mode : Mode) (embedded : gset str) (ref_path : str) (reference : Value) : Check :=
  match as_object reference with
  | None => issue ref_path (lit "must be an object")
  | Some m =>
      check_unknown_fields m SUBAGENT_REF_FIELDS ref_path mode
      ++ check_string m "trajectory_id" ref_path ++ check_string m "session_id" ref_path
      ++ check_string m "trajectory_path" ref_path
      ++ check_id_field m "trajectory_id" ref_path ++ check_id_field m "session_id" ref_path
      ++ when (negb (non_empty_str "trajectory_id" m) && negb (non_empty_str "trajectory_path" m))
           (issue ref_path (lit "must set trajectory_id or trajectory_path"))
      ++ when (some_and (fun s => str_eqb s []) (get_str "trajectory_path" m))
           (issue ref_path (lit "trajectory_path must not be an empty string when present"))
      ++ match get_str "trajectory_id" m with
         | Some id => when (negb (str_eqb id []) && negb (bool_decide (id ∈ embedded)))
             (issue (dot ref_path (lit "trajectory_id"))
                (lit "references trajectory_id " ++ fmt_debug id ++ lit " that is not present in the outer trajectory's `subagent_trajectories` array"))
         | None => []
         end
  end.

Definition validate_content (ver : Version) (rpath : str) (res : Map) : Check :=
  match get "content" res with
  | None => []
  | Some content =>
      if negb (is_string content) && negb (is_array content)
      then issue (dot rpath (lit "content")) (lit "must be a string or content-part array")
      else when (ver_lt ver (1, 6) && is_array content)
             (issue (dot rpath (lit "content")) (lit "content-part arrays require ATIF-v1.6+"))
  end.

Definition validate_refs (ver : Version) (mode : Mode) (embedded : gset str) (rpath : str) (res : Map) : Check :=
  check_type is_array res "subagent_trajectory_ref" rpath "must be an array"
  ++ match get "subagent_trajectory_ref" res ≫= as_array with
     | None => []
     | Some references =>
         when (ver_lt ver (1, 7)) (issue (dot rpath (lit "subagent_trajectory_ref")) (needs_file "v1.7" ver))
         ++ each (fun k reference =>
              validate_ref mode embedded (dot_index (dot rpath (lit "subagent_trajectory_ref")) k) reference) references
     end.

(** The call a result answers is one of the same step. *)
Definition validate_source_call (call_ids : gset str) (rpath : str) (res : Map) : Check :=
  match get "source_call_id" res with
  | None | Some Null => []
  | Some (JString id) =>
      when (negb (bool_decide (id ∈ call_ids)))
        (issue (dot rpath (lit "source_call_id"))
           (lit "references unknown tool_call_id " ++ fmt_debug id ++ lit " (must match a tool call in the same step)"))
  | Some _ => issue (dot rpath (lit "source_call_id")) (lit "must be a string")
  end.

Definition validate_result (ver : Version) (mode : Mode) (embedded call_ids : gset str) (opath : str) (j : nat) (r : Value)
  : Check :=
  let rpath := dot_index (dot opath (lit "results")) j in
  match as_object r with
  | None => issue rpath (lit "result must be an object")
  | Some res =>
      check_unknown_fields res OBS_RESULT_FIELDS rpath mode
      ++ requires res "extra" rpath ver (1, 7) (lit "field requires ATIF-v1.7+")
      ++ validate_content ver rpath res
      ++ validate_refs ver mode embedded rpath res
      ++ validate_source_call call_ids rpath res
  end.

Definition validate_observation (ver : Version) (mode : Mode) (embedded call_ids : gset str) (path : str) (obj : Map)
  : Check :=
  match get "observation" obj with
  | None => []
  | Some observation =>
      let opath := dot path (lit "observation") in
      match as_object observation with
      | None => issue opath (lit "must be an object")
      | Some o =>
          check_unknown_fields o [lit "results"] opath mode
          ++ match get "results" o ≫= as_array with
             | Some results => each (validate_result ver mode embedded call_ids opath) results
             | None => issue (dot opath (lit "results")) (lit "required field is missing or not an array")
             end
      end
  end.

(** * Metrics of a step *)

Definition TOKEN_FIELDS : list string := ["prompt_tokens"; "completion_tokens"; "cached_tokens"]%string.

Definition validate_fidelity (ver : Version) (mode : Mode) (source : option str) (path : str) (obj : Map) : Check :=
  when (bool_decide (mode = Strict) && negb (ver_lt ver (1, 7)) && bool_decide (source = Some (lit "agent"))
        && negb (bool_decide (get_u64 "llm_call_count" obj = Some 0)))
    match get "metrics" obj ≫= as_object with
    | Some m =>
        for_names (fun f => when (negb (contains_key f m))
            (issue (dot (dot path (lit "metrics")) f) (lit "required for strict ATIF-v1.7 agent-step fidelity")))
          (map lit TOKEN_FIELDS)
    | None => issue (dot path (lit "metrics")) (lit "required for strict ATIF-v1.7 agent-step fidelity")
    end.

Definition validate_metrics (ver : Version) (mode : Mode) (path : str) (obj : Map) : Check :=
  match get "metrics" obj with
  | None => []
  | Some metrics =>
      let mpath := dot path (lit "metrics") in
      match as_object metrics with
      | None => issue mpath (lit "must be an object")
      | Some m =>
          check_unknown_fields m METRICS_FIELDS mpath mode
          ++ check_count m mpath "prompt_tokens" ++ check_count m mpath "completion_tokens"
          ++ check_count m mpath "cached_tokens"
          ++ check_cost m mpath "cost_usd"
          ++ requires m "completion_token_ids" mpath ver (1, 3) (lit "field requires ATIF-v1.3+")
          ++ requires m "prompt_token_ids" mpath ver (1, 4) (lit "field requires ATIF-v1.4+")
          ++ when (bool_decide (mode = Strict))
               (check_items m mpath "logprobs" is_number "must be a number" "must be an array of numbers"
                ++ check_items m mpath "completion_token_ids" is_u64_value "must be a non-negative integer"
                     "must be an array of non-negative integers"
                ++ check_items m mpath "prompt_token_ids" is_u64_value "must be a non-negative integer"
                     "must be an array of non-negative integers")
      end
  end.

(** * Steps *)

Definition validate_step_id (path : str) (index : nat) (obj : Map) : Check :=
  let expected := Z.of_nat index + 1 in
  match get_u64 "step_id" obj with
  | Some id => when (negb (id =? expected))
      (issue (dot path (lit "step_id"))
         (lit "expected " ++ fmt_int expected ++ lit " (sequential from 1), got " ++ fmt_int id))
  | None => issue (dot path (lit "step_id")) (lit "required field is missing or not an integer")
  end.

Definition validate_timestamp (mode : Mode) (path : str) (obj : Map) : Check :=
  match get "timestamp" obj with
  | None => []
  | Some timestamp =>
      match as_str timestamp with
      | Some ts => when (negb (is_iso8601 ts (bool_decide (mode = Strict))))
          (issue (dot path (lit "timestamp")) (lit "invalid ISO-8601 timestamp " ++ fmt_debug ts))
      | None => issue (dot path (lit "timestamp")) (lit "must be a string")
      end
  end.

Definition known_source (s : str) : bool := existsb (str_eqb s) (map lit ["system"; "user"; "agent"]%string).

Definition validate_source (path : str) (source : option str) : Check :=
  match source with
  | Some s => when (negb (known_source s))
      (issue (dot path (lit "source")) (lit "invalid source " ++ fmt_debug s ++ lit " (system|user|agent)"))
  | None => missing path "source"
  end.

Definition validate_message (path : str) (obj : Map) : Check :=
  match get "message" obj with
  | Some v => when (negb (is_string v || is_array v))
      (issue (dot path (lit "message")) (lit "must be a string or content-part array"))
  | None => missing path "message"
  end.

(** What only agent steps may carry; observations also on system steps. *)
Definition validate_agent_only (ver : Version) (source : option str) (path : str) (obj : Map) : Check :=
  match source with
  | Some src =>
      when (negb (str_eqb src (lit "agent")))
        (for_names (fun f => when (contains_key f obj)
             (issue (dot path f) (lit "agent-only field present on " ++ src ++ lit " step"))) AGENT_ONLY_STEP_FIELDS
         ++ when (has "observation" obj && negb (str_eqb src (lit "system") && negb (ver_lt ver (1, 2))))
              (issue (dot path (lit "observation"))
                 (lit "observation not allowed on " ++ src ++ lit " step (system steps require v1.2+)")))
  | None => []
  end.

(** Steps that called no model carry neither metrics nor reasoning. *)
Definition validate_no_call (source : option str) (path : str) (obj : Map) : Check :=
  when (bool_decide (source = Some (lit "agent")) && bool_decide (get_u64 "llm_call_count" obj = Some 0))
    (for_names (fun field => when (contains_key field obj)
         (issue (dot path field) (lit "must be absent when llm_call_count is 0")))
       (map lit ["metrics"; "reasoning_content"]%string)).

Definition validate_step (embedded : gset str) (ver : Version) (mode : Mode) (path : str) (index : nat) (step : Value)
  : Check :=
  match as_object step with
  | None => issue path (lit "step must be an object")
  | Some obj =>
      let source := get_str "source" obj in
      let '(call_ids, calls) := validate_calls ver mode path obj in
      check_unknown_fields obj STEP_FIELDS path mode
      ++ validate_step_id path index obj
      ++ validate_timestamp mode path obj
      ++ validate_source path source
      ++ validate_message path obj
      ++ when (some_and (fun v => negb (is_string v) && negb (is_number v)) (get "reasoning_effort" obj))
           (issue (dot path (lit "reasoning_effort")) (lit "must be a string or number"))
      ++ check_string obj "model_name" path
      ++ check_display_name_field obj "model_name" path
      ++ check_type is_boolean obj "is_copied_context" path "must be a boolean"
      ++ validate_agent_only ver source path obj
      ++ requires obj "llm_call_count" path ver (1, 7) (lit "field requires ATIF-v1.7+")
      ++ check_type is_u64_value obj "llm_call_count" path "must be a non-negative integer"
      ++ check_string obj "reasoning_content" path
      ++ when (some_and (fun s => MAX_REASONING_LEN <? str_len s) (get_str "reasoning_content" obj))
           (issue (dot path (lit "reasoning_content"))
              (lit "reasoning_content length " ++ fmt_int (str_len (default [] (get_str "reasoning_content" obj)))
               ++ lit " exceeds 262144 bytes"))
      ++ validate_no_call source path obj
      ++ when (ver_lt ver (1, 6) && some_and is_array (get "message" obj))
           (issue (dot path (lit "message")) (lit "content-part arrays require ATIF-v1.6+"))
      ++ calls
      ++ validate_observation ver mode embedded call_ids path obj
      ++ validate_fidelity ver mode source path obj
      ++ validate_metrics ver mode path obj
  end.

(** * Trajectories *)

Definition validate_version (path : str) (obj : Map) : option Version * Check :=
  match get_str "schema_version" obj with
  | Some v =>
      if existsb (str_eqb v) Atif.SUPPORTED_VERSIONS then (parse_version v, [])
      else (None, issue (dot path (lit "schema_version"))
                    (lit "unsupported version " ++ fmt_debug v ++ lit " (supported: v1.0-v1.7)"))
  | None => (None, missing path "schema_version")
  end.

Definition validate_tool_definitions (apath : str) (agent : Map) : Check :=
  match get "tool_definitions" agent with
  | None => []
  | Some defs =>
      let dpath := dot apath (lit "tool_definitions") in
      match as_array defs with
      | Some items =>
          when (512 <? length items)%nat (issue dpath (lit "must not contain more than 512 definitions (schema maxItems)"))
          ++ each (fun index item =>
               match as_object item with
               | Some m => when (128 <? length m)%nat
                   (issue (at_index dpath index) (lit "must not carry more than 128 properties (schema maxProperties)"))
               | None => issue (at_index dpath index) (lit "must be an object")
               end) items
      | None => when (negb (is_null defs)) (issue dpath (lit "must be an array of objects"))
      end
  end.

Definition validate_required_name (apath : str) (agent : Map) (req : string) : Check :=
  match get_str req agent with
  | Some s => when (str_eqb s []) (issue (dot apath (lit req)) (lit "must be non-empty"))
  | None => missing apath req
  end.

Definition validate_agent (ver : Version) (mode : Mode) (path : str) (obj : Map) : Check :=
  match get "agent" obj with
  | Some (Object agent) =>
      let apath := dot path (lit "agent") in
      check_unknown_fields agent AGENT_FIELDS apath mode
      ++ validate_required_name apath agent "name" ++ validate_required_name apath agent "version"
      ++ check_string agent "model_name" apath
      ++ check_display_name_field agent "name" apath ++ check_display_name_field agent "version" apath
      ++ check_display_name_field agent "model_name" apath
      ++ requires agent "tool_definitions" apath ver (1, 5) (needs_file "v1.5" ver)
      ++ validate_tool_definitions apath agent
  | Some _ => issue (dot path (lit "agent")) (lit "must be an object")
  | None => missing path "agent"
  end.

Definition trajectory_id_of (sub : Value) : option str :=
  match value_get (lit "trajectory_id") sub ≫= as_str with
  | Some id => if str_eqb id [] then None else Some id
  | None => None
  end.

Definition embedded_ids (obj : Map) : gset str :=
  list_to_set (omap trajectory_id_of (default [] (get "subagent_trajectories" obj ≫= as_array))).

Definition validate_steps (embedded : gset str) (ver : Version) (mode : Mode) (path : str) (obj : Map) : Check :=
  match get "steps" obj with
  | Some (Array steps) =>
      when (bool_decide (steps = [])) (issue (dot path (lit "steps")) (lit "must contain at least one step"))
      ++ each (fun i => validate_step embedded ver mode (dot_index (dot path (lit "steps")) i) i) steps
  | Some _ => issue (dot path (lit "steps")) (lit "must be an array")
  | None => missing path "steps"
  end.

Definition validate_final_metrics (mode : Mode) (path : str) (obj : Map) : Check :=
  match get "final_metrics" obj with
  | None => []
  | Some fm =>
      let fpath := dot path (lit "final_metrics") in
      match as_object fm with
      | Some m =>
          check_unknown_fields m FINAL_METRICS_FIELDS fpath mode
          ++ check_count m fpath "total_prompt_tokens" ++ check_count m fpath "total_completion_tokens"
          ++ check_count m fpath "total_cached_tokens" ++ check_count m fpath "total_steps"
          ++ check_cost m fpath "total_cost_usd"
      | None => issue fpath (lit "must be an object")
      end
  end.

Definition validate_total_steps (mode : Mode) (path : str) (obj : Map) : Check :=
  when (bool_decide (mode = Strict))
    match get "final_metrics" obj, get "steps" obj with
    | Some (Object m), Some (Array steps) =>
        match get_u64 "total_steps" m with
        | Some total_steps => when (negb (total_steps =? Z.of_nat (length steps)))
            (issue (dot (dot path (lit "final_metrics")) (lit "total_steps"))
               (lit "is " ++ fmt_int total_steps ++ lit " but the trajectory carries "
                ++ fmt_int (Z.of_nat (length steps)) ++ lit " steps"))
        | None => []
        end
    | _, _ => []
    end.

(** The id of an embedded trajectory, among those before it. *)
Definition validate_embedded_id (path : str) (seen : gset str) (i : nat) (sub : Value) : gset str * Check :=
  let ipath := dot (dot_index (dot path (lit "subagent_trajectories")) i) (lit "trajectory_id") in
  match trajectory_id_of sub with
  | Some id =>
      if bool_decide (id ∈ seen) then (seen, issue ipath (lit "duplicate embedded trajectory_id " ++ fmt_debug id))
      else ({[id]} ∪ seen, [])
  | None => (seen, issue ipath (lit "required for embedded subagent trajectories"))
  end.

(** The embedded trajectories, each checked by [f]. *)
Fixpoint validate_subs (f : str -> Value -> Check) (path : str) (seen : gset str) (i : nat) (subs : list Value) : Check :=
  match subs with
  | [] => []
  | sub :: rest =>
      let '(seen', c) := validate_embedded_id path seen i sub in
      c ++ f (dot_index (dot path (lit "subagent_trajectories")) i) sub ++ validate_subs f path seen' (S i) rest
  end.

(** The id of this frame among those of its ancestors. *)
Definition enter_frame (path : str) (ancestors : gset str) (obj : Map) : gset str * Check :=
  match trajectory_id_of (Object obj) with
  | Some id =>
      if bool_decide (id ∈ ancestors)
      then (ancestors, issue (dot path (lit "trajectory_id"))
                         (lit "trajectory_id " ++ fmt_debug id ++ lit " appears as one of its own ancestors (cycle)"))
      else ({[id]} ∪ ancestors, [])
  | None => (ancestors, [])
  end.

(** The checks of one frame that do not recurse. *)
Definition validate_frame (mode : Mode) (top_level : bool) (path : str) (obj : Map) : Check :=
  let '(version, c) := validate_version path obj in
  let ver := default (1, 7) version in
  c ++ requires obj "extra" path ver (1, 1) (needs_file "v1.1" ver)
  ++ requires obj "trajectory_id" path ver (1, 7) (needs_file "v1.7" ver)
  ++ requires obj "subagent_trajectories" path ver (1, 7) (needs_file "v1.7" ver)
  ++ check_string obj "session_id" path ++ check_string obj "trajectory_id" path ++ check_string obj "notes" path
  ++ check_string obj "continued_trajectory_ref" path
  ++ check_id_field obj "session_id" path ++ check_id_field obj "trajectory_id" path
  ++ check_id_field obj "continued_trajectory_ref" path
  ++ when (some_and (fun s => MAX_NOTES_LEN <? str_len s) (get_str "notes" obj))
       (issue (dot path (lit "notes"))
          (lit "notes length " ++ fmt_int (str_len (default [] (get_str "notes" obj))) ++ lit " exceeds 8192 bytes"))
  ++ when (top_level && ver_lt ver (1, 7) && match get "session_id" obj with None | Some Null => true | _ => false end)
       (issue (dot path (lit "session_id")) (lit "required field is missing (optional only since v1.7)"))
  ++ validate_agent ver mode path obj
  ++ validate_steps (embedded_ids obj) ver mode path obj
  ++ validate_final_metrics mode path obj
  ++ validate_total_steps mode path obj.

(** [fuel]: the frames the depth bound still allows, and one. *)
Fixpoint validate_trajectory_obj (fuel depth : nat) (mode : Mode) (top_level : bool) (ancestors : gset str) (path : str)
    (root : Value) : Check :=
  if (MAX_NESTED_DEPTH <? depth)%nat
  then issue path (lit "trajectory nesting exceeds 128; refusing to recurse further")
  else
    match fuel, as_object root with
    | O, _ => []
    | S _, None => issue path (lit "trajectory must be a JSON object")
    | S fuel', Some obj =>
        let '(ancestors', cycle) := enter_frame path ancestors obj in
        check_unknown_fields obj TRAJECTORY_FIELDS path mode
        ++ cycle
        ++ validate_frame mode top_level path obj
        ++ match get "subagent_trajectories" obj with
           | Some (Array subs) =>
               validate_subs (validate_trajectory_obj fuel' (S depth) mode false ancestors') path ∅ 0 subs
           | Some v => when (negb (is_null v)) (issue (dot path (lit "subagent_trajectories")) (lit "must be an array"))
           | None => []
           end
    end.

(** * Nulls and [extra] *)

Definition free_form (parent_key : str) : bool :=
  existsb (str_eqb parent_key) (map lit [""; "agent"; "steps"; "subagent_trajectories"; "tool_calls"]%string).

(** Members whose contents the schema leaves open. *)
Definition open_member (parent_key key : str) : bool :=
  str_eqb key (lit "tool_calls") || str_eqb key (lit "message")
  || (str_eqb key (lit "tool_definitions") && str_eqb parent_key (lit "agent"))
  || (str_eqb key (lit "content") && str_eqb parent_key (lit "results")).

Definition null_issue (path : str) : Check := issue path (lit "explicit null is not schema-valid; omit the field instead").

Fixpoint strict_null_and_extra_conformance (depth : nat) (parent_key path : str) (value : Value) {struct value} : Check :=
  if (MAX_NESTED_DEPTH <? depth)%nat then []
  else
    match value with
    | Object m =>
        (fix members (m : list (str * Value)) : Check :=
           match m with
           | [] => []
           | (key, child) :: rest =>
               let child_path := dot path key in
               (if str_eqb key (lit "extra") then
                  when (negb (free_form parent_key) && negb (is_object child))
                    (issue child_path (lit "must be an object (schema type)"))
                else if open_member parent_key key then when (is_null child) (null_issue child_path)
                else if is_null child then null_issue child_path
                else strict_null_and_extra_conformance (S depth) key child_path child)
               ++ members rest
           end) m
    | Array items =>
        (fix elements (index : nat) (l : list Value) : Check :=
           match l with
           | [] => []
           | child :: rest =>
               let child_path := at_index path index in
               (if is_null child then issue child_path (lit "explicit null is not schema-valid inside this array")
                else strict_null_and_extra_conformance (S depth) parent_key child_path child)
               ++ elements (S index) rest
           end) 0%nat items
    | _ => []
    end.

(** * The validator *)

(** [issue!] on a vector: nothing is pushed past one more than the cap. *)
Definition push (issues : list ValidationIssue) (i : ValidationIssue) : list ValidationIssue :=
  if (length issues <=? MAX_VALIDATION_ISSUES)%nat then issues ++ [i] else issues.

Definition collect (c : Check) : list ValidationIssue := fold_left push c [].

Definition truncate_issues_with_marker (issues : list ValidationIssue) : list ValidationIssue :=
  if (MAX_VALIDATION_ISSUES <? length issues)%nat then
    take MAX_VALIDATION_ISSUES issues
    ++ [mkIssue (lit "trajectory") (lit "validator hit the 4096-issue cap; additional issues suppressed")]
  else issues.

(** Everything there is to say about a document. *)
Definition checks (root : Value) (mode : Mode) : Check :=
  validate_trajectory_obj (S (S MAX_NESTED_DEPTH)) 0 mode true ∅ (lit "trajectory") root
  ++ when (bool_decide (mode = Strict)) (strict_null_and_extra_conformance 0 [] (lit "trajectory") root).

Definition validate_value (root : Value) (mode : Mode) : list ValidationIssue :=
  truncate_issues_with_marker (collect (checks root mode)).

(** ** Typed documents *)

Definition validate_trajectory (t : Atif.Trajectory) (mode : Mode) : list ValidationIssue :=
  validate_value (AtifWire.trajectory_to t) mode.

Inductive WriterError :=
| WriterIo (error : str)
| Invalid (issues : list ValidationIssue).

(** [writer::write_atomic]: [pretty] is [serde_json::to_vec_pretty], and [write] the
    durable write of [av-core] on the disk [d]. *)
Definition write_atomic {D} (pretty : Value -> list Z) (write : list Z -> D -> D * result unit str) (t : Atif.Trajectory)
    (d : D) : D * result unit WriterError :=
  match validate_trajectory t Strict with
  | [] => let '(d', r) := write (pretty (AtifWire.trajectory_to t)) d in (d', map_err WriterIo r)
  | issues => (d, Err (Invalid issues))
  end.

(** ** From bytes *)

Section Bytes.
Context {SJ : SerdeJson} {JR : JsonReader}.

Definition DUP_KEY_SENTINEL : str := lit "__av_atif_dup:".

Definition scan_error_msg (raw : list Z) (e : scan_error) : str :=
  match e with
  | DupKey key =>
      custom_error raw (DUP_KEY_SENTINEL ++ lit "duplicate object key `" ++ escape_debug key ++ lit "` in ATIF")
  | ReadError m => m
  end.

Definition refuse_duplicate_json_keys (raw : list Z) : result unit str :=
  match no_dup_keys (scan raw) with
  | Ok _ => Ok tt
  | Err e =>
      let text := scan_error_msg raw e in
      match strip_prefix DUP_KEY_SENTINEL text with
      | Some rest => Err (lit "duplicate JSON key rejected: " ++ rest)
      | None => Err text
      end
  end.

Definition validate_bytes (bytes : list Z) (mode : Mode) : result (list ValidationIssue) str :=
  let? _ := refuse_duplicate_json_keys bytes in
  match from_bytes bytes with
  | Err error => Err (lit "parse JSON: " ++ error)
  | Ok value => Ok (validate_value value mode)
  end.
End Bytes.
End Validate.
End Validate.
