(* ===== verification/ValidateProofs.v ===== *)
(** The trajectory validator: its report is the list of its checks, cut after a fixed
    number; and a document with an empty strict report is one the typed reader reads,
    as a trajectory with everything its consumers count on. *)

From S2P Require Import Prelude Rust CoreBase Json Float Core Serde Rpc Atif AtifWire AtifWireProofs CoreProofs Validate.

Import Atif AtifWire Validate.

(** * Lists of issues *)

Lemma when_nil b (c : Check) : when b c = [] <-> (b = true -> c = []).
Proof. destruct b; cbn; naive_solver. Qed.

Lemma when_issue b p m : when b (issue p m) = [] -> b = false.
Proof. by destruct b. Qed.

Lemma each_from_nil {A} i (f : nat -> A -> Check) l :
  each_from i f l = [] <-> forall j x, l !! j = Some x -> f (i + j)%nat x = [].
Proof.
  revert i. induction l as [|x l IH]; intros i; cbn; [naive_solver|].
  split.
  - intros [Hx Hl]%app_eq_nil [|j] y; cbn; [intros [= <-]; by rewrite Nat.add_0_r|].
    intros Hj. rewrite <- Nat.add_succ_comm. by apply (proj1 (IH (S i)) Hl).
  - intros H. pose proof (H 0%nat x eq_refl) as Hx. rewrite Nat.add_0_r in Hx. rewrite Hx. cbn.
    apply IH. intros j y Hj. rewrite Nat.add_succ_comm. by apply (H (S j)).
Qed.

Lemma each_nil {A} (f : nat -> A -> Check) l : each f l = [] <-> forall j x, l !! j = Some x -> f j x = [].
Proof. apply (each_from_nil 0). Qed.

Lemma for_names_nil (f : str -> Check) names : for_names f names = [] <-> Forall (fun n => f n = []) names.
Proof.
  unfold for_names. induction names as [|n names IH]; cbn; [by split|]. rewrite Forall_cons, <- IH.
  split; [apply app_eq_nil|by intros [-> ->]].
Qed.

(** Take the checks of an empty report apart. *)
Ltac no_issues :=
  repeat match goal with
  | H : _ ++ _ = @nil ValidationIssue |- _ => apply app_eq_nil in H; destruct H
  | H : when _ (issue _ _) = [] |- _ => apply when_issue in H
  | H : issue _ _ = [] |- _ => discriminate H
  | H : missing _ _ = [] |- _ => discriminate H
  end.

Ltac next_check Hc H := apply app_eq_nil in Hc as [H Hc].

(** * The report *)

Lemma fold_push c l : (length l <= S MAX_VALIDATION_ISSUES)%nat ->
  fold_left push c l = take (S MAX_VALIDATION_ISSUES) (l ++ c).
Proof.
  revert l. induction c as [|i c IH]; intros l Hl; cbn [fold_left].
  { by rewrite app_nil_r, take_ge. }
  unfold push at 2. destruct (Nat.leb_spec (length l) MAX_VALIDATION_ISSUES).
  - rewrite IH by (rewrite length_app; cbn; lia). by rewrite <- app_assoc.
  - rewrite IH by done. rewrite !take_app_le by lia. done.
Qed.

Lemma collect_take c : collect c = take (S MAX_VALIDATION_ISSUES) c.
Proof. apply (fold_push c []). cbn. lia. Qed.

Definition cap_marker : ValidationIssue :=
  mkIssue (lit "trajectory") (lit "validator hit the 4096-issue cap; additional issues suppressed").

Section Report.
Context {UT : UnicodeTables}.
Variables (root : Value) (mode : Mode).
Let all := checks root mode.

Lemma report_below : (length all <= MAX_VALIDATION_ISSUES)%nat -> validate_value root mode = all.
Proof.
  intros Hl. unfold validate_value. fold all. rewrite collect_take, take_ge by lia.
  unfold truncate_issues_with_marker. by rewrite (proj2 (Nat.ltb_ge _ _)) by lia.
Qed.

Lemma report_above : (MAX_VALIDATION_ISSUES < length all)%nat ->
  validate_value root mode = take MAX_VALIDATION_ISSUES all ++ [cap_marker].
Proof.
  intros Hl. unfold validate_value. fold all. rewrite collect_take. unfold truncate_issues_with_marker.
  rewrite length_take, (proj2 (Nat.ltb_lt _ _)) by lia. by rewrite take_take, Nat.min_l by lia.
Qed.

Lemma report_nil : validate_value root mode = [] <-> all = [].
Proof.
  destruct (Nat.le_gt_cases (length all) MAX_VALIDATION_ISSUES) as [Hl|Hl]; [by rewrite report_below|].
  rewrite report_above by done. split; intros H; [by apply app_eq_nil in H as [_ ?]|]. rewrite H in Hl. cbn in Hl. lia.
Qed.
End Report.

(** The report is exact up to the cap.  It is the list of all the issues there are,
    in order, when there are at most 4096 of them; otherwise it is the first 4096 and one
    last entry that says so.  So it has at most 4097 entries, and a document is reported
    clean exactly when no check at all has anything to say. *)
Theorem report_is_exact {UT : UnicodeTables} (root : Value) (mode : Mode) :
  let all := checks root mode in
  let report := validate_value root mode in
  ((length all <= MAX_VALIDATION_ISSUES)%nat -> report = all) /\
  ((MAX_VALIDATION_ISSUES < length all)%nat -> report = take MAX_VALIDATION_ISSUES all ++ [cap_marker]) /\
  (length report <= S MAX_VALIDATION_ISSUES)%nat /\
  (report = [] <-> all = []).
Proof.
  cbv zeta. split; [exact (report_below root mode)|]. split; [exact (report_above root mode)|].
  split; [|exact (report_nil root mode)].
  destruct (Nat.le_gt_cases (length (checks root mode)) MAX_VALIDATION_ISSUES) as [Hl|Hl].
  - rewrite report_below by done. lia.
  - rewrite report_above, length_app, length_take by done. cbn [length]. lia.
Qed.

(** * Reading a checked member *)

Lemma optional_none {A} (f : Value -> option A) : optional f None = Some None.
Proof. done. Qed.

Lemma optional_extra v : exists o, optional de_value v = Some o.
Proof. destruct v as [[]|]; by eexists. Qed.

Lemma check_type_read {A} (rd : Value -> option A) ok obj field path message :
  (forall v, get field obj = Some v -> ok v = true -> is_Some (rd v)) -> rd Null = None ->
  check_type ok obj field path message = [] ->
  optional rd (get field obj) = Some (get field obj ≫= rd).
Proof.
  intros Hok Hnull Hc. apply when_issue in Hc. destruct (get field obj) as [v|]; [|done].
  cbn in Hc |- *. destruct v; cbn in *; try (by rewrite Hnull); rewrite ?andb_true_r in Hc; b2p;
    match goal with |- _ <$> rd ?v = _ => destruct (Hok v) as [a Ha] end; try done; by rewrite Ha.
Qed.

Lemma check_string_read obj field path : check_string obj field path = [] ->
  optional de_str (get field obj) = Some (get_str field obj).
Proof. apply check_type_read; [|done]. intros v _ Hv. destruct v; by eauto. Qed.

Lemma check_bool_read obj field path message : check_type is_boolean obj field path message = [] ->
  exists o, optional de_bool (get field obj) = Some o.
Proof. intros H. eexists. revert H. apply check_type_read; [|done]. intros v _ Hv. destruct v; by eauto. Qed.

(** What [serde] reads as a [u64], in a value a parser builds. *)
Lemma de_u64_wf v : value_wf v -> de_u64 v = value_u64 v.
Proof. destruct v as [| |[u|i|f]| | |]; cbn; try done. intros [_ Hu]. by rewrite (proj2 (Z.leb_le _ _)). Qed.

Lemma get_wf obj field v : value_wf (Object obj) -> get field obj = Some v -> value_wf v.
Proof.
  intros [_ Hw]%value_wf_object Hg%map_get_In. rewrite Forall_forall in Hw. by apply (Hw _ Hg).
Qed.

Lemma items_wf items i v : value_wf (Array items) -> items !! i = Some v -> value_wf v.
Proof. intros Hw%value_wf_array. by apply Forall_lookup_1. Qed.

Lemma check_u64_read obj field path message : value_wf (Object obj) ->
  check_type is_u64_value obj field path message = [] ->
  optional de_u64 (get field obj) = Some (get_u64 field obj).
Proof.
  intros Hw Hc.
  assert (Hb : get_u64 field obj = get field obj ≫= de_u64).
  { unfold get_u64. destruct (get field obj) as [v|] eqn:Hg; [|done]. cbn. by rewrite de_u64_wf by eauto using get_wf. }
  rewrite Hb. revert Hc. apply check_type_read; [|done].
  intros v Hg. rewrite de_u64_wf by eauto using get_wf. unfold is_u64_value.
  destruct (value_u64 v); by eauto.
Qed.

Definition small (o : option Z) : Prop := forall n, o = Some n -> n <= JCS_SAFE_MAX.
Definition payable (o : option f64) : Prop := forall c, o = Some c -> cost_ok c = true.

Lemma check_count_read obj path field : check_count obj path field = [] ->
  optional de_u64 (get field obj) = Some (get_u64 field obj) /\ small (get_u64 field obj) /\
  (has field obj = true -> is_Some (get_u64 field obj)).
Proof.
  unfold check_count, get_u64, has, contains_key, small. unfold get. destruct (map_get _ _) as [v|]; [|done].
  destruct v as [| |[u|i|f]| | |]; cbn -[JCS_SAFE_MAX u64_max]; try done.
  intros Hc%when_issue. b2p. rewrite (proj2 (Z.leb_le u u64_max)).
  - split; [done|]. split; [|by eauto]. by intros n [= <-].
  - etrans; [exact Hc|]. by vm_compute.
Qed.

Lemma check_cost_read obj path field : check_cost obj path field = [] ->
  optional as_f64 (get field obj) = Some (get field obj ≫= as_f64) /\ payable (get field obj ≫= as_f64).
Proof.
  unfold check_cost, payable. destruct (get field obj) as [v|]; [|done].
  destruct v as [| |n| | |]; cbn -[cost_ok]; try done.
  assert (exists f, num_as_f64 n = Some f) as [f Hf] by (destruct n; by eauto).
  rewrite Hf. intros Hc%when_issue. b2p. split; [done|]. by intros c [= <-].
Qed.

(** Reading the items of an array, each with what its check says. *)
Lemma de_seq_read {A} (rd : Value -> option A) (P : nat -> A -> Prop) l :
  (forall i v, l !! i = Some v -> exists a, rd v = Some a /\ P i a) ->
  exists r, de_seq rd l = Some r /\ length r = length l /\
    (forall i v a, l !! i = Some v -> r !! i = Some a -> rd v = Some a) /\
    (forall i a, r !! i = Some a -> P i a).
Proof.
  revert P. induction l as [|v l IH]; intros P H; cbn; [by eexists; split_and!|].
  destruct (H 0%nat v eq_refl) as (a & Ha & HP). rewrite Ha.
  destruct (IH (fun i => P (S i))) as (r & Hr & Hlen & Hrd & HPr); [intros i w Hi; by apply (H (S i))|].
  rewrite Hr. exists (a :: r). split; [done|]. split; [cbn; by rewrite Hlen|]. split.
  - intros [|i] w b; cbn; [by intros [= <-] [= <-]|apply Hrd].
  - intros [|i] b; cbn; [by intros [= <-]|apply HPr].
Qed.

Lemma check_items_read {A} (rd : Value -> option A) obj path field ok m1 m2 :
  (forall items i v, get field obj = Some (Array items) -> items !! i = Some v -> ok v = true -> is_Some (rd v)) ->
  check_items obj path field ok m1 m2 = [] -> exists o, optional (de_vec rd) (get field obj) = Some o.
Proof.
  intros Hok. unfold check_items. destruct (get field obj) as [v|] eqn:Hg; [|by eexists].
  destruct v; try done. cbn. rewrite each_nil. intros Hc.
  destruct (de_seq_read rd (fun _ _ => True) items) as (r & Hr & _); [|rewrite Hr; by eexists].
  intros i v Hi. apply Hc in Hi as Hv. apply when_issue in Hv. b2p.
  destruct (Hok items i v) as [a Ha]; eauto.
Qed.

(** * What a clean document promises *)

Section Sound.
Context {UT : UnicodeTables}.

(** An id that every component of the daemon accepts as a session id. *)
Definition id_ok (s : str) : Prop := exists id, Ids.parse_session_id s = Ok id.
Definition opt_id_ok (o : option str) : Prop := forall s, o = Some s -> id_ok s.

Definition display_ok (s : str) : Prop := str_len s <= MAX_ID_LEN /\ Forall (fun b => control_byte b = false) (as_bytes s).

Record agent_sound (a : Agent) : Prop := {
  as_name : at_name a <> [] /\ display_ok (at_name a);
  as_version : at_version a <> [] /\ display_ok (at_version a);
  as_model : forall m, at_model_name a = Some m -> display_ok m;
}.

Record call_sound (c : ToolCall) : Prop := {
  cs_id : id_ok (tl_tool_call_id c);
  cs_name : id_ok (tl_function_name c);
  cs_arguments : is_object (tl_arguments c) = true;
}.

(** A reference names an embedded trajectory or has a path. *)
Record ref_sound (embedded : gset str) (r : SubagentTrajectoryRef) : Prop := {
  rs_id : forall id, sr_trajectory_id r = Some id -> id_ok id /\ id ∈ embedded;
  rs_path : sr_trajectory_id r = None -> exists p, sr_trajectory_path r = Some p /\ p <> [];
}.

(** A result answers a call of the same step. *)
Record result_sound (embedded calls : gset str) (r : ObservationResult) : Prop := {
  os_call : forall id, or_source_call_id r = Some id -> id ∈ calls;
  os_refs : Forall (ref_sound embedded) (default [] (or_subagent_trajectory_ref r));
}.

Record metrics_sound (m : Metrics) : Prop := {
  ms_prompt : small (mt_prompt_tokens m);
  ms_completion : small (mt_completion_tokens m);
  ms_cached : small (mt_cached_tokens m);
  ms_cost : payable (mt_cost_usd m);
}.

Definition step_calls (s : Step) : list ToolCall := default [] (st_tool_calls s).
Definition step_results (s : Step) : list ObservationResult :=
  match st_observation s with Some o => ob_results o | None => [] end.

Record step_sound (ver : Version) (embedded : gset str) (index : nat) (s : Step) : Prop := {
  ss_number : st_step_id s = Z.of_nat index + 1;
  ss_time : forall ts, st_timestamp s = Some ts -> is_iso8601 ts true = true;
  ss_message : is_string (st_message s) || is_array (st_message s) = true;
  ss_calls : Forall call_sound (step_calls s);
  ss_call_ids : NoDup (map tl_tool_call_id (step_calls s));
  ss_results : Forall (result_sound embedded (list_to_set (map tl_tool_call_id (step_calls s)))) (step_results s);
  ss_metrics : forall m, st_metrics s = Some m -> metrics_sound m;
  ss_agent_only : st_source s <> AgentSource ->
    st_reasoning_content s = None /\ st_reasoning_effort s = None /\ st_model_name s = None /\
    st_tool_calls s = None /\ st_metrics s = None /\ (st_observation s = None \/ st_source s = System);
  ss_fidelity : ver_lt ver (1, 7) = false -> step_ok s;
}.

Record final_sound (steps : nat) (m : FinalMetrics) : Prop := {
  fs_prompt : small (fm_total_prompt_tokens m);
  fs_completion : small (fm_total_completion_tokens m);
  fs_cached : small (fm_total_cached_tokens m);
  fs_cost : payable (fm_total_cost_usd m);
  fs_steps : forall n, fm_total_steps m = Some n -> n = Z.of_nat steps;
}.

(** One frame, whose embedded trajectories are named [embedded]. *)
Record frame_sound (embedded : gset str) (t : Trajectory) : Prop := {
  ts_version : exists ver, tj_schema_version t ∈ SUPPORTED_VERSIONS /\ parse_version (tj_schema_version t) = Some ver /\
    forall i s, tj_steps t !! i = Some s -> step_sound ver embedded i s;
  ts_steps : tj_steps t <> [];
  ts_ids : opt_id_ok (tj_session_id t) /\ opt_id_ok (tj_trajectory_id t) /\ opt_id_ok (tj_continued_trajectory_ref t);
  ts_notes : forall s, tj_notes t = Some s -> str_len s <= MAX_NOTES_LEN;
  ts_agent : agent_sound (tj_agent t);
  ts_final : forall m, tj_final_metrics t = Some m -> final_sound (length (tj_steps t)) m;
}.

Definition subtrajectories (t : Trajectory) : list Trajectory := default [] (tj_subagent_trajectories t).

(** The whole tree: every embedded trajectory has a name of its own that is none of its
    ancestors'. *)
Inductive sound (ancestors : gset str) : Trajectory -> Prop :=
| sound_intro t names :
    map tj_trajectory_id (subtrajectories t) = map Some names -> NoDup names ->
    frame_sound (list_to_set names) t ->
    (forall id, tj_trajectory_id t = Some id -> id ∉ ancestors) ->
    (forall sub, sub ∈ subtrajectories t ->
       sound (match tj_trajectory_id t with Some id => {[id]} ∪ ancestors | None => ancestors end) sub) ->
    sound ancestors t.

(** * Ids and names *)

Lemma check_id_ok obj field path : check_id_field obj field path = [] -> opt_id_ok (get_str field obj).
Proof.
  unfold check_id_field, opt_id_ok, id_ok, Ids.parse_session_id. intros Hc s Hs. rewrite Hs in Hc.
  destruct (str_eqb s []); [done|]. rewrite Z.gtb_ltb. unfold MAX_ID_LEN in Hc. destruct (128 <? str_len s); [done|].
  unfold is_visible_ascii in Hc. destruct (forallb _ _); [by eexists|done].
Qed.

Lemma check_display_ok obj field path s :
  check_display_name_field obj field path = [] -> get_str field obj = Some s -> display_ok s.
Proof.
  unfold check_display_name_field, display_ok. intros Hc Hs. rewrite Hs in Hc.
  destruct (str_eqb s []) eqn:E; [apply str_eqb_eq in E as ->; split; [by vm_compute|constructor]|].
  destruct (MAX_ID_LEN <? str_len s) eqn:Hl; [done|]. b2p. split; [done|].
  apply when_issue in Hc. by apply existsb_false_iff.
Qed.

Lemma id_ok_nonempty s : id_ok s -> s <> [].
Proof. intros [id H] ->. discriminate H. Qed.

(** * Tool calls *)

Lemma extra_read o : exists e, optional de_value o = Some e.
Proof. destruct o as [[]|]; by eexists. Qed.

Lemma call_read ver mode path ids j call ids' : validate_call ver mode path ids j call = (ids', []) ->
  exists c, tool_call_from call = Some c /\ call_sound c /\ tl_tool_call_id c ∉ ids /\ ids' = {[tl_tool_call_id c]} ∪ ids.
Proof.
  unfold validate_call. destruct call as [| | | | |obj]; try done. cbn [as_object].
  destruct (get_str "tool_call_id" obj) as [id|] eqn:Hid; [|intros [? Hc]%pair_equal_spec; no_issues].
  destruct (str_eqb id []) eqn:He; [intros [? Hc]%pair_equal_spec; no_issues|].
  case_bool_decide as Hin; intros [<- Hc]%pair_equal_spec; no_issues.
  pose proof (check_id_ok _ _ _ H2) as Hok. pose proof (check_id_ok _ _ _ H3) as Hname.
  destruct (get_str "function_name" obj) as [name|] eqn:Hn; [|done].
  unfold tool_call_from. cbn [loose_fields tool_call_names map].
  fold (get "tool_call_id" obj) (get "function_name" obj) (get "arguments" obj) (get "extra" obj).
  destruct (extra_read (get "extra" obj)) as [extra ->].
  change (required de_str (get "tool_call_id" obj)) with (get_str "tool_call_id" obj).
  change (required de_str (get "function_name" obj)) with (get_str "function_name" obj). rewrite Hid, Hn.
  destruct (get "arguments" obj) as [[| | | | |args]|]; try done. cbn.
  eexists. split; [done|]. cbn. split; [|done]. split; cbn; [by apply Hok|by apply Hname|done].
Qed.

Lemma calls_read ver mode path j ids calls ids' : validate_calls_from j ver mode path ids calls = (ids', []) ->
  exists cs, de_seq tool_call_from calls = Some cs /\ Forall call_sound cs /\ NoDup (map tl_tool_call_id cs) /\
    (forall id, id ∈ map tl_tool_call_id cs -> id ∉ ids) /\ ids' = list_to_set (map tl_tool_call_id cs) ∪ ids.
Proof.
  revert j ids. induction calls as [|call calls IH]; intros j ids; cbn.
  { intros [= <-]. exists []. split_and!; try done; [constructor|by inversion 1|set_solver]. }
  destruct (validate_call _ _ _ _ _ _) as [ids1 c1] eqn:H1.
  destruct (validate_calls_from _ _ _ _ _ _) as [ids2 c2] eqn:H2.
  intros [<- [-> ->]%app_eq_nil]%pair_equal_spec. destruct (call_read _ _ _ _ _ _ _ H1) as (c & -> & Hc & Hni & ->).
  destruct (IH _ _ H2) as (cs & -> & Hcs & Hnd & Hdis & ->). exists (c :: cs). cbn.
  split_and!; [done|by constructor| |set_solver|set_solver].
  constructor; [|done]. intros Hin. apply Hdis in Hin. set_solver.
Qed.

Lemma step_calls_read ver mode path obj ids : validate_calls ver mode path obj = (ids, []) ->
  exists o, optional (de_vec tool_call_from) (get "tool_calls" obj) = Some o /\
    Forall call_sound (default [] o) /\ NoDup (map tl_tool_call_id (default [] o)) /\
    ids = list_to_set (map tl_tool_call_id (default [] o)) /\ (get "tool_calls" obj = None -> o = None).
Proof.
  unfold validate_calls. destruct (get "tool_calls" obj) as [v|].
  2:{ intros [= <-]. exists None. split_and!; try done; constructor. }
  destruct v as [| | | |calls|]; try done. cbn [as_array]. intros (cs & Hcs & Hs & Hnd & _ & ->)%calls_read.
  exists (Some cs). cbn. rewrite Hcs. split_and!; try done. set_solver.
Qed.

(** * Observations *)

Lemma ref_read mode embedded path v : validate_ref mode embedded path v = [] ->
  exists r, subagent_ref_from v = Some r /\ ref_sound embedded r.
Proof.
  unfold validate_ref. destruct v as [| | | | |obj]; try done. cbn [as_object]. intros Hc. no_issues.
  unfold subagent_ref_from. cbn [loose_fields subagent_ref_names map].
  fold (get "trajectory_id" obj) (get "session_id" obj) (get "trajectory_path" obj) (get "extra" obj).
  destruct (extra_read (get "extra" obj)) as [extra ->].
  rewrite (check_string_read _ _ _ H0), (check_string_read _ _ _ H1), (check_string_read _ _ _ H2). cbn.
  eexists. split; [done|]. pose proof (check_id_ok _ _ _ H3) as Hid. split; cbn.
  - intros id Hg. rewrite Hg in H7. apply Hid in Hg. split; [done|]. apply when_issue in H7.
    rewrite (proj2 (str_eqb_neq id []) (id_ok_nonempty _ Hg)) in H7. cbn in H7. by b2p.
  - intros Hg. revert H5 H6. unfold non_empty_str. rewrite Hg. cbn.
    destruct (get_str "trajectory_path" obj) as [p|]; cbn; [|done]. intros _ Hp.
    exists p. split; [done|]. by apply str_eqb_neq.
Qed.

Lemma each_read {A} (rd : Value -> option A) (P : A -> Prop) (c : nat -> Value -> Check) items :
  (forall i v, items !! i = Some v -> c i v = [] -> exists a, rd v = Some a /\ P a) -> each c items = [] ->
  exists r, de_seq rd items = Some r /\ Forall P r.
Proof.
  intros Hrd Hc. rewrite each_nil in Hc.
  destruct (de_seq_read rd (fun _ => P) items) as (r & Hr & _ & _ & HP); [by eauto|].
  exists r. split; [done|]. apply Forall_lookup. intros i a. apply HP.
Qed.

Lemma refs_read ver mode embedded rpath res : validate_refs ver mode embedded rpath res = [] ->
  exists o, optional (de_vec subagent_ref_from) (get "subagent_trajectory_ref" res) = Some o /\
    Forall (ref_sound embedded) (default [] o).
Proof.
  unfold validate_refs. intros [Ht Hc]%app_eq_nil. unfold check_type in Ht.
  destruct (get "subagent_trajectory_ref" res) as [v|]; [|exists None; split; [done|constructor]].
  apply when_issue in Ht. destruct v; try done; [exists None; split; [done|constructor]|]. cbn in Hc. no_issues.
  eapply (each_read subagent_ref_from (ref_sound embedded)) in H0 as (r & Hr & Hs); [|intros; by eapply ref_read].
  exists (Some r). cbn. by rewrite Hr.
Qed.

Lemma result_read ver mode embedded calls opath j v : validate_result ver mode embedded calls opath j v = [] ->
  exists r, obs_result_from v = Some r /\ result_sound embedded calls r.
Proof.
  unfold validate_result. destruct v as [| | | | |res]; try done. cbn [as_object]. intros Hc. no_issues.
  unfold obs_result_from. cbn [loose_fields obs_result_names map].
  fold (get "source_call_id" res) (get "content" res) (get "subagent_trajectory_ref" res) (get "extra" res).
  destruct (extra_read (get "extra" res)) as [extra ->]. destruct (extra_read (get "content" res)) as [content ->].
  destruct (refs_read _ _ _ _ _ H2) as (refs & -> & Hrefs). revert H3. unfold validate_source_call.
  destruct (get "source_call_id" res) as [[| | |id| |]|]; try done; cbn;
    intros Hin; (eexists; split; [done|]); split; try done; cbn.
  intros id' [= <-]. apply when_issue in Hin. by b2p.
Qed.

Lemma observation_read ver mode embedded calls path obj : validate_observation ver mode embedded calls path obj = [] ->
  exists o, optional observation_from (get "observation" obj) = Some o /\
    Forall (result_sound embedded calls) (match o with Some o => ob_results o | None => [] end) /\
    (get "observation" obj = None -> o = None).
Proof.
  unfold validate_observation.
  destruct (get "observation" obj) as [v|]; [|exists None; split_and!; [done|constructor|done]].
  destruct v as [| | | | |o]; try done. cbn [as_object]. intros Hc. no_issues.
  destruct (get "results" o) as [v|] eqn:Hg; [|done]. destruct v as [| | | |results|]; try done. cbn in H0.
  eapply (each_read obs_result_from (result_sound embedded calls)) in H0 as (r & Hr & Hs); [|intros; by eapply result_read].
  exists (Some (mkObservation r)). split_and!; [|done|done]. cbn [optional]. unfold observation_from.
  cbn [loose_fields map]. fold (get "results" o). rewrite Hg. cbn. by rewrite Hr.
Qed.

(** * Metrics *)

Lemma metrics_read ver path obj : value_wf (Object obj) -> validate_metrics ver Strict path obj = [] ->
  exists o, optional metrics_from (get "metrics" obj) = Some o /\ (forall m, o = Some m -> metrics_sound m) /\
    (get "metrics" obj = None -> o = None) /\
    (forall mm, get "metrics" obj ≫= as_object = Some mm -> has "prompt_tokens" mm = true ->
       has "completion_tokens" mm = true -> has "cached_tokens" mm = true -> metrics_complete o = true).
Proof.
  unfold validate_metrics. intros Hw. destruct (get "metrics" obj) as [v|] eqn:Hg; [|by exists None].
  destruct v as [| | | | |m]; try done. cbn [as_object]. intros Hc. rewrite bool_decide_true in Hc by done. cbn [when] in Hc.
  no_issues. apply (get_wf _ _ _ Hw) in Hg.
  cbn [optional]. unfold metrics_from. cbn [loose_fields metrics_names map].
  fold (get "prompt_tokens" m) (get "completion_tokens" m) (get "cached_tokens" m) (get "cost_usd" m) (get "logprobs" m)
    (get "completion_token_ids" m) (get "prompt_token_ids" m) (get "extra" m).
  destruct (check_count_read _ _ _ H0) as (-> & Hp & Hp'), (check_count_read _ _ _ H1) as (-> & Hq & Hq'),
    (check_count_read _ _ _ H2) as (-> & Hh & Hh'), (check_cost_read _ _ _ H3) as (-> & Hcost).
  assert (Hids : forall field items i v, get field m = Some (Array items) -> items !! i = Some v ->
            is_u64_value v = true -> is_Some (de_u64 v)).
  { intros field items i v Ha Hi. rewrite de_u64_wf by eauto using items_wf, get_wf. unfold is_u64_value.
    destruct (value_u64 v); by eauto. }
  eapply (check_items_read as_f64) in H6 as [lp ->].
  2:{ intros items i v _ _ Hn. destruct v as [| |[]| | |]; by eauto. }
  eapply (check_items_read de_u64) in H7 as [ci ->]; [|by eauto].
  eapply (check_items_read de_u64) in H8 as [pi ->]; [|by eauto].
  destruct (extra_read (get "extra" m)) as [extra ->]. cbn.
  eexists. split; [done|]. split; [by intros ? [= <-]|]. split; [done|].
  intros mm [= <-] [? Ha]%Hp' [? Hb]%Hq' [? Hd]%Hh'. cbn. by rewrite Ha, Hb, Hd.
Qed.

Lemma fidelity_read ver path obj : validate_fidelity ver Strict (Some (lit "agent")) path obj = [] ->
  ver_lt ver (1, 7) = false -> get_u64 "llm_call_count" obj <> Some 0 ->
  exists mm, get "metrics" obj ≫= as_object = Some mm /\ has "prompt_tokens" mm = true /\
    has "completion_tokens" mm = true /\ has "cached_tokens" mm = true.
Proof.
  unfold validate_fidelity. intros Hc Hv Hl. rewrite Hv, (bool_decide_true (Strict = Strict)) in Hc by done.
  rewrite (bool_decide_true (Some (lit "agent") = _)), (bool_decide_false (get_u64 "llm_call_count" obj = Some 0)) in Hc by done.
  cbn [negb andb when] in Hc.
  destruct (get "metrics" obj ≫= as_object) as [mm|] eqn:Hm; [|done]. exists mm. split; [exact Hm|].
  apply for_names_nil in Hc. unfold TOKEN_FIELDS in Hc. cbn [map] in Hc. rewrite !Forall_cons in Hc.
  destruct Hc as (H1 & H2 & H3 & _). no_issues. b2p. done.
Qed.

(** * Steps *)

Lemma source_read path obj : validate_source path (get_str "source" obj) = [] ->
  exists src s, get_str "source" obj = Some src /\ required source_from (get "source" obj) = Some s /\
    (src = lit "agent" <-> s = AgentSource) /\ (src = lit "system" <-> s = System).
Proof.
  unfold validate_source, get_str. destruct (get "source" obj) as [v|]; [|done]. destruct v as [| | |src| |]; try done. cbn.
  intros Hc. no_issues. b2p. unfold known_source in Hc. cbn [existsb map] in Hc. rewrite !orb_true_iff, !str_eqb_eq in Hc.
  destruct Hc as [-> |[-> |[-> |?]]]; [exists (lit "system"), System|exists (lit "user"), User|exists (lit "agent"), AgentSource|done];
    by split_and!.
Qed.

Lemma timestamp_read path obj : validate_timestamp Strict path obj = [] ->
  optional de_str (get "timestamp" obj) = Some (get_str "timestamp" obj) /\
  (forall ts, get_str "timestamp" obj = Some ts -> is_iso8601 ts true = true).
Proof.
  unfold validate_timestamp, get_str. destruct (get "timestamp" obj) as [v|]; [|done].
  destruct v as [| | |ts| |]; try done. cbn -[is_iso8601]. intros Hc%when_issue. b2p.
  rewrite bool_decide_true in Hc by done. split; [done|]. by intros ? [= <-].
Qed.

Lemma message_read path obj : validate_message path obj = [] ->
  exists v, required de_value (get "message" obj) = Some v /\ is_string v || is_array v = true.
Proof.
  unfold validate_message. destruct (get "message" obj) as [v|]; [|done]. intros Hc%when_issue. b2p. by exists v.
Qed.

Lemma effort_read obj path m :
  when (some_and (fun v => negb (is_string v) && negb (is_number v)) (get "reasoning_effort" obj)) (issue path m) = [] ->
  exists o, optional effort_from (get "reasoning_effort" obj) = Some o /\ (get "reasoning_effort" obj = None -> o = None).
Proof.
  intros Hc%when_issue. destruct (get "reasoning_effort" obj) as [v|]; [|by exists None].
  destruct v as [| |[]| | |]; try done; by eexists.
Qed.

Lemma contains_get field obj : contains_key (lit field) obj = false -> get field obj = None.
Proof. unfold contains_key, get. by destruct (map_get _ _). Qed.

Lemma agent_only_read ver src path obj : validate_agent_only ver (Some src) path obj = [] -> src <> lit "agent" ->
  get "reasoning_content" obj = None /\ get "reasoning_effort" obj = None /\ get "model_name" obj = None /\
  get "tool_calls" obj = None /\ get "metrics" obj = None /\ (get "observation" obj = None \/ src = lit "system").
Proof.
  unfold validate_agent_only. intros Hc Hne. rewrite (proj2 (str_eqb_neq _ _)) in Hc by done. cbn [negb when] in Hc.
  no_issues. apply for_names_nil in H. unfold AGENT_ONLY_STEP_FIELDS in H. cbn [map] in H. rewrite !Forall_cons in H.
  destruct H as (?&?&?&?&?&_). no_issues. split_and!; try by apply contains_get.
  destruct (has "observation" obj) eqn:Ho; [|left; by apply contains_get]. right. cbn in H0. b2p. by apply str_eqb_eq.
Qed.

Lemma no_call_read path obj : validate_no_call (Some (lit "agent")) path obj = [] ->
  get_u64 "llm_call_count" obj = Some 0 -> get "metrics" obj = None /\ get "reasoning_content" obj = None.
Proof.
  unfold validate_no_call. intros Hc Hl. rewrite !bool_decide_true in Hc by done. apply for_names_nil in Hc.
  cbn [map] in Hc. rewrite !Forall_cons in Hc. destruct Hc as (?&?&_). no_issues. split; by apply contains_get.
Qed.

(** An agent step of the current version is one the builder accepts. *)
Lemma step_ok_read ver src path obj s : ver_lt ver (1, 7) = false ->
  validate_fidelity ver Strict (Some src) path obj = [] -> validate_no_call (Some src) path obj = [] ->
  (src = lit "agent" <-> st_source s = AgentSource) -> st_llm_call_count s = get_u64 "llm_call_count" obj ->
  st_reasoning_content s = get_str "reasoning_content" obj -> (get "metrics" obj = None -> st_metrics s = None) ->
  (forall mm, get "metrics" obj ≫= as_object = Some mm -> has "prompt_tokens" mm = true ->
     has "completion_tokens" mm = true -> has "cached_tokens" mm = true -> metrics_complete (st_metrics s) = true) ->
  step_ok s.
Proof.
  intros Hv Hf Hn Hsrc Hl Hr Hm0 Hm. unfold step_ok, check_agent_step. rewrite Hl, Hr.
  case_bool_decide as Hs; [|done]. apply Hsrc in Hs as ->. cbn [negb]. case_bool_decide as H0.
  - destruct (no_call_read _ _ Hn H0) as [Hg Hg2]. rewrite (Hm0 Hg). unfold get_str. by rewrite Hg2.
  - destruct (fidelity_read _ _ _ Hf Hv H0) as (mm & Hg & Hp & Hc & Hh). by rewrite (Hm _ Hg Hp Hc Hh).
Qed.

Lemma step_read embedded ver path index v : value_wf v -> validate_step embedded ver Strict path index v = [] ->
  exists s, step_from v = Some s /\ step_sound ver embedded index s.
Proof.
  intros Hw. unfold validate_step. destruct v as [| | | | |obj]; try done. cbn [as_object].
  destruct (validate_calls _ _ _ _) as [ids calls] eqn:Hcalls. intros Hc.
  next_check Hc U1. next_check Hc Hid. next_check Hc Htime. next_check Hc Hsrc. next_check Hc Hmsg.
  next_check Hc Heff. next_check Hc Hmodel. next_check Hc U2. next_check Hc Hcopied. next_check Hc Honly.
  next_check Hc U3. next_check Hc Hcount. next_check Hc Hreas. next_check Hc U4. next_check Hc Hnc.
  next_check Hc U5. apply app_eq_nil in Hc as [-> Hc]. next_check Hc Hobs. apply app_eq_nil in Hc as [Hfid Hmet].
  unfold step_from. cbn [loose_fields step_names map].
  fold (get "step_id" obj) (get "timestamp" obj) (get "source" obj) (get "message" obj) (get "reasoning_effort" obj)
    (get "reasoning_content" obj) (get "model_name" obj) (get "tool_calls" obj) (get "observation" obj)
    (get "metrics" obj) (get "is_copied_context" obj) (get "llm_call_count" obj) (get "extra" obj).
  assert (required de_u64 (get "step_id" obj) = Some (Z.of_nat index + 1)) as ->.
  { unfold validate_step_id, get_u64 in Hid. destruct (get "step_id" obj) as [w|] eqn:Hg; [|done]. cbn in Hid |- *.
    rewrite de_u64_wf by eauto using get_wf. destruct (value_u64 w); [|done]. apply when_issue in Hid. b2p. by subst. }
  destruct (timestamp_read _ _ Htime) as [-> Ht], (source_read _ _ Hsrc) as (src & s & Hg & -> & Hag & Hsy),
    (message_read _ _ Hmsg) as (msg & -> & Hm), (effort_read _ _ _ Heff) as (eff & -> & He).
  rewrite (check_string_read _ _ _ Hmodel), (check_string_read _ _ _ Hreas), (check_u64_read _ _ _ _ Hw Hcount).
  destruct (check_bool_read _ _ _ _ Hcopied) as [cp ->], (extra_read (get "extra" obj)) as [ex ->].
  destruct (step_calls_read _ _ _ _ _ Hcalls) as (cs & -> & Hcs & Hnd & -> & Hc0).
  destruct (observation_read _ _ _ _ _ _ Hobs) as (ob & -> & Hob & Hob0).
  destruct (metrics_read _ _ _ Hw Hmet) as (mt & -> & Hmt & Hmt0 & Hmt1). rewrite Hg in *. cbn [ap_opt].
  eexists. split; [done|]. constructor; cbn [st_step_id st_timestamp st_message st_metrics st_source st_reasoning_content
    st_reasoning_effort st_model_name st_tool_calls st_observation step_calls step_results]; try done.
  - intros Hne. destruct (agent_only_read _ _ _ _ Honly) as (H1 & H2 & H3 & H4 & H5 & H6); [by rewrite Hag|].
    unfold get_str. rewrite H1, H3. split_and!; auto. destruct H6 as [H6|H6]; [by left; apply Hob0|right; by apply Hsy].
  - intros Hv. by eapply step_ok_read.
Qed.

(** * Agents and totals *)

Lemma required_name_read apath obj field : validate_required_name apath obj field = [] ->
  check_display_name_field obj field apath = [] ->
  exists s, get_str field obj = Some s /\ s <> [] /\ display_ok s.
Proof.
  unfold validate_required_name. intros Hc Hd. destruct (get_str field obj) as [s|] eqn:Hg; [|done].
  apply when_issue in Hc. exists s. split; [done|]. split; [by apply str_eqb_neq|by eapply check_display_ok].
Qed.

Lemma tool_definitions_read apath obj : validate_tool_definitions apath obj = [] ->
  exists o, optional (de_vec de_map) (get "tool_definitions" obj) = Some o.
Proof.
  unfold validate_tool_definitions. destruct (get "tool_definitions" obj) as [v|]; [|by eexists].
  destruct v as [| | | |items|]; try done; [by eexists|]. cbn [as_array]. intros [_ Hc]%app_eq_nil.
  eapply (each_read de_map (fun _ => True)) in Hc as (r & Hr & _); [cbn; rewrite Hr; by eexists|].
  intros i v _. destruct v; try done. by eexists.
Qed.

Lemma agent_read ver mode path obj : validate_agent ver mode path obj = [] ->
  exists a, required agent_from (get "agent" obj) = Some a /\ agent_sound a.
Proof.
  unfold validate_agent. destruct (get "agent" obj) as [[| | | | |m]|]; try done. intros Hc. next_check Hc H0.
  next_check Hc Hn. next_check Hc Hv. next_check Hc Hm. next_check Hc Hdn. next_check Hc Hdv. next_check Hc Hdm.
  next_check Hc H1. destruct (tool_definitions_read _ _ Hc) as [td Htd].
  destruct (required_name_read _ _ _ Hn Hdn) as (name & Hname & ? & ?),
    (required_name_read _ _ _ Hv Hdv) as (version & Hversion & ? & ?).
  unfold required. cbn [mbind option_bind]. unfold agent_from. cbn [loose_fields agent_names map].
  fold (get "name" m) (get "version" m) (get "model_name" m) (get "tool_definitions" m) (get "extra" m).
  change (required de_str (get "name" m)) with (get_str "name" m).
  change (required de_str (get "version" m)) with (get_str "version" m).
  rewrite Hname, Hversion, (check_string_read _ _ _ Hm), Htd. destruct (extra_read (get "extra" m)) as [ex ->]. cbn [ap_opt].
  eexists. split; [done|]. split; cbn; try done. intros s. by eapply check_display_ok.
Qed.

Lemma final_read path obj steps : get "steps" obj = Some (Array steps) ->
  validate_final_metrics Strict path obj = [] -> validate_total_steps Strict path obj = [] ->
  exists o, optional final_metrics_from (get "final_metrics" obj) = Some o /\
    (forall m, o = Some m -> final_sound (length steps) m).
Proof.
  unfold validate_final_metrics, validate_total_steps. intros Hs. rewrite Hs, bool_decide_true by done. cbn [when].
  destruct (get "final_metrics" obj) as [v|]; [|by exists None]. destruct v as [| | | | |m]; try done. cbn [as_object].
  intros Hc Ht. next_check Hc H0. next_check Hc Hp. next_check Hc Hq. next_check Hc Hh. next_check Hc Hn.
  cbn [optional]. unfold final_metrics_from. cbn [loose_fields final_metrics_names map].
  fold (get "total_prompt_tokens" m) (get "total_completion_tokens" m) (get "total_cached_tokens" m) (get "total_cost_usd" m)
    (get "total_steps" m) (get "extra" m).
  destruct (check_count_read _ _ _ Hp) as (-> & ? & _), (check_count_read _ _ _ Hq) as (-> & ? & _),
    (check_count_read _ _ _ Hh) as (-> & ? & _), (check_count_read _ _ _ Hn) as (-> & _ & _),
    (check_cost_read _ _ _ Hc) as (-> & ?), (extra_read (get "extra" m)) as [ex ->].
  cbn [ap_opt fmap option_fmap option_map]. eexists. split; [done|]. intros ? [= <-].
  split; cbn [fm_total_prompt_tokens fm_total_completion_tokens fm_total_cached_tokens fm_total_cost_usd fm_total_steps];
    try done. intros n Hg. rewrite Hg in Ht. apply when_issue in Ht. by b2p.
Qed.

Lemma steps_read embedded ver path obj : value_wf (Object obj) -> validate_steps embedded ver Strict path obj = [] ->
  exists l steps, get "steps" obj = Some (Array l) /\ required (de_vec step_from) (get "steps" obj) = Some steps /\
    length steps = length l /\ steps <> [] /\ forall i s, steps !! i = Some s -> step_sound ver embedded i s.
Proof.
  unfold validate_steps. intros Hw. destruct (get "steps" obj) as [[| | | |l|]|] eqn:Hg; try done.
  intros Hc. next_check Hc Hne. apply when_issue in Hne. b2p. rewrite each_nil in Hc.
  destruct (de_seq_read step_from (step_sound ver embedded) l) as (r & Hr & Hlen & _ & HP).
  { intros i v Hi. eapply step_read; [|by apply Hc]. eauto using items_wf, get_wf. }
  exists l, r. split; [done|]. cbn. split; [done|]. split; [done|]. split; [|done]. by intros ->; destruct l.
Qed.

(** * Trajectories *)

Lemma version_read path obj ver : validate_version path obj = (ver, []) ->
  exists s v, get_str "schema_version" obj = Some s /\ s ∈ SUPPORTED_VERSIONS /\ parse_version s = Some v /\ ver = Some v.
Proof.
  unfold validate_version. destruct (get_str "schema_version" obj) as [s|]; [|by intros [_ ?]%pair_equal_spec].
  destruct (existsb (str_eqb s) SUPPORTED_VERSIONS) eqn:Hs; [|by intros [_ ?]%pair_equal_spec].
  intros [<- _]%pair_equal_spec. apply existsb_exists in Hs as (s' & Hin & <-%str_eqb_eq).
  apply list_elem_of_In in Hin. exists s.
  assert (Forall (fun s => is_Some (parse_version s)) SUPPORTED_VERSIONS) as Hall.
  { repeat (constructor; [by eexists; vm_compute|]). constructor. }
  rewrite Forall_forall in Hall. destruct (Hall s Hin) as [v Hv]. by exists v.
Qed.

(** The parts of a frame read; [subs] is what its embedded trajectories read as. *)
Lemma frame_read top path obj names subs : value_wf (Object obj) -> validate_frame Strict top path obj = [] ->
  embedded_ids obj = list_to_set names ->
  exists make : option (list Trajectory) -> Trajectory,
    (forall rd, optional (de_vec rd) (get "subagent_trajectories" obj) = Some subs ->
       Some mkTrajectory <*> required de_str (get "schema_version" obj) <*> optional de_str (get "session_id" obj)
       <*> optional de_str (get "trajectory_id" obj) <*> required agent_from (get "agent" obj)
       <*> required (de_vec step_from) (get "steps" obj) <*> optional de_str (get "notes" obj)
       <*> optional final_metrics_from (get "final_metrics" obj) <*> optional de_str (get "continued_trajectory_ref" obj)
       <*> optional (de_vec rd) (get "subagent_trajectories" obj) <*> optional de_value (get "extra" obj)
       = Some (make subs)) /\
    frame_sound (list_to_set names) (make subs) /\ tj_subagent_trajectories (make subs) = subs /\
    tj_trajectory_id (make subs) = get_str "trajectory_id" obj /\ opt_id_ok (get_str "trajectory_id" obj).
Proof.
  unfold validate_frame. intros Hw Hall <-. destruct (validate_version path obj) as [version c] eqn:Hver.
  cbv zeta in Hall. next_check Hall Hc0. subst c.
  destruct (version_read _ _ _ Hver) as (vs & v & Hvs & Hin & Hpv & ->). cbn [default] in Hall.
  next_check Hall U1. next_check Hall U2. next_check Hall U3. next_check Hall Hsid. next_check Hall Htid.
  next_check Hall Hnotes. next_check Hall Hcont. next_check Hall Isid. next_check Hall Itid. next_check Hall Icont.
  next_check Hall Hnl. next_check Hall U4. next_check Hall Hagent. next_check Hall Hsteps. next_check Hall Hfinal.
  destruct (agent_read _ _ _ _ Hagent) as (a & -> & Ha).
  destruct (steps_read _ _ _ _ Hw Hsteps) as (l & steps & Hl & -> & Hlen & Hne & Hst).
  destruct (final_read _ _ _ Hl Hfinal Hall) as (fm & -> & Hfm). destruct (extra_read (get "extra" obj)) as [ex ->].
  rewrite (check_string_read _ _ _ Hsid), (check_string_read _ _ _ Htid), (check_string_read _ _ _ Hnotes),
    (check_string_read _ _ _ Hcont).
  change (required de_str (get "schema_version" obj)) with (get_str "schema_version" obj). rewrite Hvs.
  eexists (fun subs => mkTrajectory _ _ _ _ _ _ _ _ subs _). split; [intros rd Hrd; by rewrite Hrd|].
  split; [|by split_and!; eauto using check_id_ok]. split; cbn; try done; eauto.
  - split_and!; eauto using check_id_ok.
  - intros s Hs. rewrite Hs in Hnl. apply when_issue in Hnl. cbn [some_and] in Hnl. by b2p.
  - rewrite Hlen. exact Hfm.
Qed.

Lemma trajectory_id_named o id : opt_id_ok (get_str "trajectory_id" o) ->
  trajectory_id_of (Object o) = Some id <-> get_str "trajectory_id" o = Some id.
Proof.
  unfold trajectory_id_of. cbn [value_get]. fold (get "trajectory_id" o). fold (get_str "trajectory_id" o).
  intros Hok. destruct (get_str "trajectory_id" o) as [s|]; [|done].
  by rewrite (proj2 (str_eqb_neq s []) (id_ok_nonempty _ (Hok s eq_refl))).
Qed.

(** The embedded trajectories, given that each of them reads. *)
Lemma subs_read (rd : Value -> option Trajectory) (P : Trajectory -> Prop) f path seen i subs :
  (forall p v, v ∈ subs -> f p v = [] ->
     exists t, rd v = Some t /\ P t /\ (forall id, trajectory_id_of v = Some id -> tj_trajectory_id t = Some id)) ->
  validate_subs f path seen i subs = [] ->
  exists ts names, de_seq rd subs = Some ts /\ Forall P ts /\ map tj_trajectory_id ts = map Some names /\ NoDup names /\
    (forall n, n ∈ names -> n ∉ seen) /\ omap trajectory_id_of subs = names.
Proof.
  revert seen i. induction subs as [|v subs IH]; intros seen i Hrd; cbn [validate_subs de_seq].
  { exists [], []. split_and!; try done; [constructor|by inversion 1]. }
  destruct (validate_embedded_id path seen i v) as [seen' c] eqn:He. intros Hc. next_check Hc Hc1. subst c.
  next_check Hc Hf. revert He. unfold validate_embedded_id.
  destruct (trajectory_id_of v) as [id|] eqn:Hid; [|by intros [_ ?]%pair_equal_spec].
  case_bool_decide as Hin; [by intros [_ ?]%pair_equal_spec|]. intros [<- _]%pair_equal_spec.
  destruct (Hrd _ v (list_elem_of_here _ _) Hf) as (t & -> & HP & Ht).
  destruct (IH _ _ (fun p w Hw => Hrd p w (list_elem_of_further _ _ _ Hw)) Hc) as (ts & names & -> & HPs & Hm & Hnd & Hdis & Ho).
  exists (t :: ts), (id :: names). cbn [map].
  rewrite Hm, (Ht id Hid). split_and!; [done|by constructor|done| | |cbn [omap list_omap]; rewrite Hid; by f_equal].
  - constructor; [|done]. intros Hn. apply Hdis in Hn. set_solver.
  - intros n [-> |Hn]%elem_of_cons; [done|]. apply Hdis in Hn. set_solver.
Qed.

Lemma enter_frame_read path ancestors obj ancestors' : opt_id_ok (get_str "trajectory_id" obj) ->
  enter_frame path ancestors obj = (ancestors', []) ->
  (forall id, get_str "trajectory_id" obj = Some id -> id ∉ ancestors) /\
  ancestors' = match get_str "trajectory_id" obj with Some id => {[id]} ∪ ancestors | None => ancestors end.
Proof.
  unfold enter_frame. intros Hok. pose proof (fun id => trajectory_id_named obj id Hok) as Hn.
  destruct (trajectory_id_of (Object obj)) as [id|].
  - rewrite (proj1 (Hn id) eq_refl). case_bool_decide as Hin; [by intros [_ ?]%pair_equal_spec|].
    intros [<- _]%pair_equal_spec. split; [by intros ? [= <-]|done].
  - intros [<- _]%pair_equal_spec. destruct (get_str "trajectory_id" obj) as [id|]; [|done].
    by discriminate (proj2 (Hn id) eq_refl).
Qed.

Lemma trajectory_read fuel depth ancestors path top root : (fuel + depth = S (S MAX_NESTED_DEPTH))%nat -> value_wf root ->
  validate_trajectory_obj fuel depth Strict top ancestors path root = [] ->
  exists t, trajectory_from fuel root = Some t /\ sound ancestors t /\
    (forall id, trajectory_id_of root = Some id -> tj_trajectory_id t = Some id).
Proof.
  revert depth ancestors path top root. induction fuel as [|fuel IH]; intros depth ancestors path top root Hd Hw; cbn [validate_trajectory_obj].
  all: destruct (Nat.ltb_spec MAX_NESTED_DEPTH depth); [done|].
  { lia. }
  destruct root as [| | | | |obj]; try done. cbn [as_object]. destruct (enter_frame path ancestors obj) as [anc c] eqn:Hen.
  intros Hc. next_check Hc U. next_check Hc Hcy. subst c. next_check Hc Hfr.
  cbn [trajectory_from loose_fields trajectory_names map].
  fold (get "schema_version" obj) (get "session_id" obj) (get "trajectory_id" obj) (get "agent" obj) (get "steps" obj)
    (get "notes" obj) (get "final_metrics" obj) (get "continued_trajectory_ref" obj) (get "subagent_trajectories" obj)
    (get "extra" obj).
  assert (exists subs names, optional (de_vec (trajectory_from fuel)) (get "subagent_trajectories" obj) = Some subs /\
    Forall (sound anc) (default [] subs) /\ map tj_trajectory_id (default [] subs) = map Some names /\ NoDup names /\
    embedded_ids obj = list_to_set names) as (subs & names & Hrd & Hsub & Hnm & Hnd & Hemb).
  { unfold embedded_ids. destruct (get "subagent_trajectories" obj) as [v|] eqn:Hg; [|exists None, []; by split_and!; try constructor].
    destruct v as [| | | |l|]; try done; [exists None, []; by split_and!; try constructor|].
    eapply (subs_read (trajectory_from fuel) (sound anc)) in Hc as (ts & names & Hr & HP & Hm & Hnd & _ & Ho).
    - exists (Some ts), names. cbn. rewrite Hr, Ho. by split_and!.
    - intros p w Hin Hf. eapply IH; [| |exact Hf]; [lia|].
      apply list_elem_of_lookup in Hin as [j Hj]. eauto using items_wf, get_wf. }
  destruct (frame_read _ _ _ names subs Hw Hfr Hemb) as (make & Hmake & Hsound & Hs & Ht & Hok).
  rewrite (Hmake _ Hrd). destruct (enter_frame_read _ _ _ _ Hok Hen) as [Hfresh ->].
  exists (make subs). split; [done|]. split.
  - apply (sound_intro ancestors (make subs) names); unfold subtrajectories; rewrite ?Hs, ?Ht; try done.
    by apply Forall_forall.
  - intros id Hid%trajectory_id_named; [by rewrite Ht|done].
Qed.
End Sound.

Lemma strict_loads {UT : UnicodeTables} (root : Value) : value_wf root -> validate_value root Strict = [] ->
  exists t, trajectory_from (S (S MAX_NESTED_DEPTH)) root = Some t /\ sound ∅ t.
Proof.
  intros Hwf Hclean%report_nil. unfold checks in Hclean. next_check Hclean H.
  destruct (trajectory_read _ 0 _ _ _ _ (Nat.add_0_r _) Hwf H) as (t & Ht & Hs & _). by exists t.
Qed.

(** C21. A strictly valid document is one the daemon can load and rely on.  When the
    strict report is empty the typed reader reads the document, at the validator's depth
    bound, and what it reads is sound in every frame: a supported version; at least one
    step, numbered from one without a gap; ids that pass as session ids; tool calls with
    distinct ids whose results answer a call of the same step and whose references name an
    embedded trajectory or a path; agent-only members on agent steps only, and agent steps
    of the current version as the builder accepts them; counters within 2^53 and costs
    within the cap, the step count being right; embedded trajectories with distinct names,
    none of them the name of an ancestor. *)
Theorem strict_documents_load {UT : UnicodeTables} (root : Value) (Hwf : value_wf root)
    (Hclean : validate_value root Strict = []) :
  exists t, trajectory_from (S (S MAX_NESTED_DEPTH)) root = Some t /\ sound ∅ t.
Proof. by apply strict_loads. Qed.

(** C22. The writer persists only what the daemon can load.  When it succeeds, what reached
    the disk is the one write of the printed document, the trajectory is sound, and a
    process that parses those bytes reads that very trajectory; a refusal names the issues
    and leaves the disk as it was. *)
Theorem written_trajectory_loads {UT : UnicodeTables} {SJ : SerdeJson} {D} (pretty : Value -> list Z)
    (write : list Z -> D -> D * result unit str) (t : Trajectory) (d : D)
    (Hcarried : trajectory_carried (S (S MAX_NESTED_DEPTH)) t) (Hwf : value_wf (trajectory_to t))
    (Hparse : from_bytes (pretty (trajectory_to t)) = Ok (trajectory_to t)) :
  let '(d', r) := write_atomic pretty write t d in
  (r = Ok tt -> write (pretty (trajectory_to t)) d = (d', Ok tt) /\ sound ∅ t /\
     exists v, from_bytes (pretty (trajectory_to t)) = Ok v /\ validate_value v Strict = [] /\
       trajectory_from (S (S MAX_NESTED_DEPTH)) v = Some t) /\
  (forall issues, r = Err (Invalid issues) -> d' = d /\ issues = validate_trajectory t Strict /\ issues <> []).
Proof.
  unfold write_atomic, validate_trajectory. destruct (validate_value (trajectory_to t) Strict) as [|i issues] eqn:Hv.
  - destruct (write _ d) as [d' r]. split; [|by destruct r].
    intros Hr. destruct r as [[]|]; [|done]. split; [done|].
    destruct (strict_loads _ Hwf Hv) as (t' & Ht & Hs). rewrite trajectory_wire_back in Ht by done.
    injection Ht as <-. split; [done|]. exists (trajectory_to t). split; [done|]. split; [done|].
    by apply trajectory_wire_back.
  - split; [done|]. by intros ? [= <-].
Qed.

(** * A document *)

Definition is_scalarb (c : Z) : bool := ((0 <=? c) && (c <=? 0xD7FF)) || ((0xE000 <=? c) && (c <=? 0x10FFFF)).

Fixpoint value_wfb (v : Value) : bool :=
  match v with
  | Null | Bool _ => true
  | Number (PosInt u) => (0 <=? u) && (u <=? u64_max)
  | Number (NegInt i) => (i64_min <=? i) && (i <? 0)
  | Number (Float f) => is_finite f
  | JString s => forallb is_scalarb s
  | Array l => forallb value_wfb l
  | Object m => bool_decide (NoDup (map fst m)) && forallb (fun kv => forallb is_scalarb kv.1 && value_wfb kv.2) m
  end.

Lemma scalars_ok s : forallb is_scalarb s = true -> Forall is_scalar s.
Proof.
  rewrite forallb_true_iff. intros H. eapply Forall_impl; [exact H|]. intros c. unfold is_scalarb, is_scalar.
  rewrite orb_true_iff, !andb_true_iff, !Z.leb_le. lia.
Qed.

Lemma value_wfb_ok v : value_wfb v = true -> value_wf v.
Proof.
  induction v as [|b|n|s|l IH|m IH] using value_ind'; [done|done| | | |].
  - destruct n as [u|i|f]; cbn [value_wfb value_wf number_wf]; [unfold is_u64| |done]; intros H; b2p; lia.
  - apply scalars_ok.
  - cbn [value_wfb]. rewrite forallb_true_iff, value_wf_array. intros H. rewrite Forall_forall in *. auto.
  - cbn [value_wfb]. intros H. b2p. rewrite value_wf_object. split; [done|].
    rewrite forallb_true_iff in H0. rewrite Forall_forall in *. intros kv Hkv. specialize (H0 kv Hkv). cbn in H0. b2p.
    split; [by apply scalars_ok|by apply IH].
Qed.

Definition sample_agent : Agent := mkAgent (lit "agent") (lit "1.0") (Some (lit "model x")) None None.

Definition sample_metrics : Metrics := metrics 10 5 0 (S754_zero false).

Definition blank_step (n : Z) (source : Source) : Step :=
  mkStep n None source (JString (lit "hi")) None None None None None None None None None.

Definition sample_call : ToolCall := mkToolCall (lit "call-1") (lit "search") (Object []) None.

Definition sample_result : ObservationResult :=
  mkObservationResult (Some (lit "call-1")) (Some (JString (lit "done")))
    (Some [mkSubagentRef (Some (lit "sub-1")) None None None]) None.

(** A step that calls a tool, and one that calls no model. *)
Definition sample_steps : list Step :=
  [blank_step 1 User;
   mkStep 2 (Some (lit "2026-02-28T23:59:60Z")) AgentSource (JString (lit "ok")) (Some (EffortText (lit "low"))) None None
     (Some [sample_call]) (Some (mkObservation [sample_result])) (Some sample_metrics) (Some false) (Some 1) None;
   mkStep 3 None AgentSource (JString (lit "bye")) None None None None None None None (Some 0) None].

Definition sample_final (n : Z) : FinalMetrics :=
  mkFinalMetrics (Some 10) (Some 5) (Some 0) (Some (S754_zero false)) (Some n) None.

Definition sample_sub : Trajectory :=
  mkTrajectory ATIF_VERSION None (Some (lit "sub-1")) sample_agent [blank_step 1 System] None None None None None.

Definition sample_trajectory : Trajectory :=
  mkTrajectory ATIF_VERSION (Some (lit "session-1")) (Some (lit "root")) sample_agent sample_steps
    (Some (lit "notes")) (Some (sample_final 3)) None (Some [sample_sub]) None.

Lemma strict_documents_load_witness :
  @validate_value ascii_tables (trajectory_to sample_trajectory) Strict = [] /\
  exists t, trajectory_from (S (S MAX_NESTED_DEPTH)) (trajectory_to sample_trajectory) = Some t /\ @sound ascii_tables ∅ t.
Proof.
  assert (@validate_value ascii_tables (trajectory_to sample_trajectory) Strict = []) as Hc by (vm_compute; reflexivity).
  split; [exact Hc|]. apply (@strict_documents_load ascii_tables); [|exact Hc]. apply value_wfb_ok. vm_compute. reflexivity.
Defined.

Lemma sample_carried : trajectory_carried (S (S MAX_NESTED_DEPTH)) sample_trajectory.
Proof.
  assert (forall n s, step_carried (blank_step n s) <-> is_u64 n) as Hb.
  { intros n s. split; [by intros []|]. intros H. by split; try done; constructor. }
  assert (Hm : metrics_carried sample_metrics).
  { split; try done; try (by intros ? [= <-]); split_and?; try done; by intros ? [= <-]. }
  constructor; cbn [sample_trajectory tj_agent tj_steps tj_final_metrics tj_extra tj_subagent_trajectories default]; try done.
  - repeat apply Forall_cons_2; [by apply Hb| | |constructor].
    + split; cbn; try done; try (by intros ? [= <-]).
      * by repeat constructor.
      * intros o [= <-]. by repeat constructor.
    + split; try done. by intros ? [= <-].
  - intros m [= <-]. split; try done; try (by intros ? [= <-]). split_and!; by intros ? [= <-].
  - intros sub ->%list_elem_of_singleton. constructor; try done.
    + constructor; [by apply Hb|constructor].
    + by inversion 1.
Qed.

Lemma trajectory_wire_roundtrip_witness :
  trajectory_from (S (S MAX_NESTED_DEPTH)) (trajectory_to sample_trajectory) = Some sample_trajectory.
Proof. apply trajectory_wire_roundtrip. exact sample_carried. Defined.

(** A parser and a disk that hold the sample. *)
Definition sample_json : SerdeJson := {| from_bytes := fun _ => Ok (trajectory_to sample_trajectory); to_string := fun _ => [] |}.
Definition sample_write (bytes : list Z) (d : list (list Z)) : list (list Z) * result unit str := (bytes :: d, Ok tt).

Lemma written_trajectory_loads_witness :
  @write_atomic ascii_tables (list (list Z)) (fun _ => [7]) sample_write sample_trajectory [] = ([[7]], Ok tt) /\
  @sound ascii_tables ∅ sample_trajectory.
Proof.
  assert (value_wf (trajectory_to sample_trajectory)) as Hwf by (apply value_wfb_ok; vm_compute; reflexivity).
  pose proof (@written_trajectory_loads ascii_tables sample_json (list (list Z)) (fun _ => [7]) sample_write sample_trajectory []
    sample_carried Hwf eq_refl) as H.
  assert (@write_atomic ascii_tables (list (list Z)) (fun _ => [7]) sample_write sample_trajectory [] = ([[7]], Ok tt)) as Hw
    by (vm_compute; reflexivity).
  split; [exact Hw|]. rewrite Hw in H. exact (proj1 (proj2 (proj1 H eq_refl))).
Defined.

(** A user step with metrics: the builder takes it, though the comment on [push_step] has
    it never accept a step that makes the trajectory un-writable, and from then on every
    write of the trajectory is refused. *)
Definition measured_user_step : Step :=
  mkStep 0 None User (JString (lit "hi")) None None None None None (Some sample_metrics) None None None.

Lemma builder_accepts_an_unwritable_step :
  let '(b, r) := push_step (builder_new (lit "t") sample_agent (Some (lit "s"))) measured_user_step in
  r = Ok tt /\
  @write_atomic ascii_tables (list (list Z)) (fun _ => [7]) sample_write (finish b) [] =
    ([], Err (Invalid [mkIssue (lit "trajectory.steps.0.metrics") (lit "agent-only field present on user step")])).
Proof. vm_compute. split; reflexivity. Qed.
