(* ===== verification/Disk.v ===== *)
(** Files as the embedded log of [av-bridge] uses them: their contents and what a power
    loss may leave of them, the bytes a reader sees line by line, and UTF-8. *)

From S2P Require Import Prelude Rust.

(** * What survives *)

(** The contents of a file: the present ones, and the earlier ones that a power loss may
    bring back because nothing was synchronized since. *)
Record Async := mkAsync { latest : list Z; pending : list (list Z) }.

Definition contents (a : Async) : list (list Z) := pending a ++ [latest a].
Definition on_disk (b : list Z) : Async := mkAsync b [].

(** [write_all]: every prefix of the new bytes may be what survives. *)
Definition append_data (data : list Z) (a : Async) : Async :=
  mkAsync (latest a ++ data) (pending a ++ map (fun k => latest a ++ take k data) (seq 0 (length data))).

(** [set_len] to a shorter length. *)
Definition shorten (n : nat) (a : Async) : Async := mkAsync (take n (latest a)) (contents a).

(** [sync_data]. *)
Definition flush_data (a : Async) : Async := on_disk (latest a).

(** A name in a directory: the file it names, if any, and the contents (or absence) that a
    power loss may bring back because the directory was not synchronized since. *)
Record Slot := mkSlot { sl_file : option Async; sl_lost : list (option (list Z)) }.

Definition no_file : Slot := mkSlot None [].
Definition file_contents (o : option Async) : list (option (list Z)) :=
  match o with Some a => map Some (contents a) | None => [None] end.
Definition images (s : Slot) : list (option (list Z)) := sl_lost s ++ file_contents (sl_file s).

(** What a reader of the running system finds. *)
Definition visible (s : Slot) : option (list Z) := latest <$> sl_file s.

Definition on_file (f : Async -> Async) (s : Slot) : Slot := mkSlot (f <$> sl_file s) (sl_lost s).

(** [OpenOptions::create]: a new entry when there is none. *)
Definition create_entry (s : Slot) : Slot :=
  match sl_file s with Some _ => s | None => mkSlot (Some (on_disk [])) (images s) end.

(** [rename] of a synchronized temporary file over the name. *)
Definition rename_over (data : list Z) (s : Slot) : Slot := mkSlot (Some (on_disk data)) (images s).

(** [sync_directory]. *)
Definition settle_entry (s : Slot) : Slot := mkSlot (sl_file s) [].

(** A power loss leaves one of the images. *)
Definition slot_of (o : option (list Z)) : Slot := mkSlot (on_disk <$> o) [].
Definition survives (s s' : Slot) : Prop := exists o, o ∈ images s /\ s' = slot_of o.

(** The page cache written back. *)
Definition settle (s : Slot) : Slot := slot_of (visible s).

(** * Fates *)

(** The kinds of operation the environment decides on. *)
Inductive IoOp := OpDir | OpRead | OpOpen | OpWrite | OpSync | OpSetLen | OpRename | OpSyncDir.

#[global] Instance IoOp_eq_dec : EqDecision IoOp.
Proof. solve_decision. Defined.

(** An operation is done; or fails, or the process dies in it, after [n] bytes (without
    bytes: before its effect when [n] is zero, after it otherwise). *)
Inductive IoFate := Done | Fails (n : nat) (e : str) | Dies (n : nat).

(** * Reading *)

(** [take(cap).read_until(newline)]: what is read, and the rest. *)
Fixpoint read_until (cap : Z) (b : list Z) : list Z * list Z :=
  match b with
  | [] => ([], [])
  | c :: r =>
      if cap <=? 0 then ([], b)
      else if c =? 10 then ([c], r)
      else let '(l, rest) := read_until (cap - 1) r in (c :: l, rest)
  end.

Definition ends_line (l : list Z) : bool := bool_decide (last l = Some 10).

(** [BufRead::lines] on bytes: the final line may lack its newline; [\r\n] ends a line too. *)
Definition strip_return (l : list Z) : list Z :=
  match last l with Some 13 => removelast l | _ => l end.

Fixpoint split_lines (cur : list Z) (b : list Z) : list (list Z) :=
  match b with
  | [] => match cur with [] => [] | _ => [cur] end
  | c :: r => if c =? 10 then strip_return cur :: split_lines [] r else split_lines (cur ++ [c]) r
  end.

Definition lines_of (b : list Z) : list (list Z) := split_lines [] b.

(** * UTF-8 *)

Definition is_cont (b : Z) : bool := (0x80 <=? b) && (b <=? 0xBF).

Definition three_ok (b b1 : Z) : bool :=
  if b =? 0xE0 then (0xA0 <=? b1) && (b1 <=? 0xBF)
  else if b =? 0xED then (0x80 <=? b1) && (b1 <=? 0x9F) else is_cont b1.

Definition four_ok (b b1 : Z) : bool :=
  if b =? 0xF0 then (0x90 <=? b1) && (b1 <=? 0xBF)
  else if b =? 0xF4 then (0x80 <=? b1) && (b1 <=? 0x8F) else is_cont b1.

(** [str::from_utf8]. *)
Fixpoint decode_utf8 (b : list Z) : option str :=
  match b with
  | [] => Some []
  | c :: r =>
      if (0 <=? c) && (c <? 0x80) then cons c <$> decode_utf8 r
      else if (0xC2 <=? c) && (c <=? 0xDF) then
        match r with
        | c1 :: r => if is_cont c1 then cons ((c - 0xC0) * 64 + (c1 - 0x80)) <$> decode_utf8 r else None
        | _ => None
        end
      else if (0xE0 <=? c) && (c <=? 0xEF) then
        match r with
        | c1 :: c2 :: r =>
            if three_ok c c1 && is_cont c2
            then cons ((c - 0xE0) * 4096 + (c1 - 0x80) * 64 + (c2 - 0x80)) <$> decode_utf8 r else None
        | _ => None
        end
      else if (0xF0 <=? c) && (c <=? 0xF4) then
        match r with
        | c1 :: c2 :: c3 :: r =>
            if four_ok c c1 && is_cont c2 && is_cont c3
            then cons ((c - 0xF0) * 262144 + (c1 - 0x80) * 4096 + (c2 - 0x80) * 64 + (c3 - 0x80)) <$> decode_utf8 r
            else None
        | _ => None
        end
      else None
  end.

Definition is_utf8 (b : list Z) : bool := match decode_utf8 b with Some _ => true | None => false end.

(** [u64::from_str] on trimmed text. *)
Inductive ParseIntError := IntEmpty | IntInvalidDigit | IntPosOverflow.

Definition fmt_parse_int_error (e : ParseIntError) : str :=
  match e with
  | IntEmpty => lit "cannot parse integer from empty string"
  | IntInvalidDigit => lit "invalid digit found in string"
  | IntPosOverflow => lit "number too large to fit in target type"
  end.

Fixpoint u64_digits (acc : Z) (s : str) : result Z ParseIntError :=
  match s with
  | [] => Ok acc
  | c :: r =>
      if is_ascii_digit c then
        let acc := acc * 10 + (c - 48) in
        if acc <=? u64_max then u64_digits acc r else Err IntPosOverflow
      else Err IntInvalidDigit
  end.

Definition parse_u64 (s : str) : result Z ParseIntError :=
  match s with
  | [] => Err IntEmpty
  | 43 :: [] => Err IntInvalidDigit
  | 43 :: r => u64_digits 0 r
  | _ => u64_digits 0 s
  end.

(** [str::trim]. *)
Fixpoint trim_start (s : str) : str :=
  match s with c :: r => if is_whitespace c then trim_start r else s | [] => [] end.
Definition trim (s : str) : str := rev (trim_start (rev (trim_start s))).

(** * Lemmas: reading lines *)

Lemma read_until_line cap l r : Forall (fun b => b <> 10) l -> Z.of_nat (length l) < cap ->
  read_until cap (l ++ 10 :: r) = (l ++ [10], r).
Proof.
  revert cap. induction l as [|c l IH]; intros cap; cbn [app read_until].
  - intros _ Hc. cbn in Hc. by rewrite (proj2 (Z.leb_gt _ _)) by lia.
  - rewrite Forall_cons. intros [Hne Hl] Hc. cbn [length] in Hc.
    rewrite (proj2 (Z.leb_gt _ _)), (proj2 (Z.eqb_neq _ _)) by lia. by rewrite IH by (done || lia).
Qed.

Lemma read_until_tail cap l : Forall (fun b => b <> 10) l -> Z.of_nat (length l) <= cap -> read_until cap l = (l, []).
Proof.
  revert cap. induction l as [|c l IH]; intros cap; cbn [read_until]; [done|].
  rewrite Forall_cons. intros [Hne Hl] Hc. cbn [length] in Hc.
  rewrite (proj2 (Z.leb_gt _ _)), (proj2 (Z.eqb_neq _ _)) by lia. by rewrite IH by (done || lia).
Qed.

Lemma ends_line_snoc l : ends_line (l ++ [10]) = true.
Proof. unfold ends_line. by rewrite last_snoc, bool_decide_true. Qed.

Lemma ends_line_tail l : Forall (fun b => b <> 10) l -> ends_line l = false.
Proof.
  intros H. apply bool_decide_false. intros Hl. apply last_Some_elem_of in Hl. rewrite Forall_forall in H. by apply (H 10).
Qed.

Lemma split_lines_line cur l r : Forall (fun b => b <> 10) l ->
  split_lines cur (l ++ 10 :: r) = strip_return (cur ++ l) :: split_lines [] r.
Proof.
  revert cur. induction l as [|c l IH]; intros cur; cbn [app split_lines]; [by rewrite app_nil_r|].
  rewrite Forall_cons. intros [Hne Hl]. rewrite (proj2 (Z.eqb_neq _ _)), IH by done. by rewrite <- app_assoc.
Qed.

Lemma strip_return_text l : Forall (fun b => 32 <= b) l -> strip_return l = l.
Proof.
  unfold strip_return. intros H. destruct (last l) as [c|] eqn:Hl; [|done].
  apply last_Some_elem_of in Hl. rewrite Forall_forall in H. apply H in Hl.
  destruct c as [|c|c]; [lia| |lia]. repeat (destruct c as [c|c|]; try done; try lia).
Qed.

Lemma text_no_newline l : Forall (fun b => 32 <= b) l -> Forall (fun b => b <> 10) l.
Proof. intros H. eapply Forall_impl; [exact H|]. cbn. lia. Qed.

Lemma decode_app a b : is_utf8 a = true -> is_utf8 (a ++ b) = is_utf8 b.
Proof.
  unfold is_utf8. remember (length a) as n eqn:Hn. revert a Hn. induction n as [n IH] using lt_wf_ind. intros a ->.
  assert (Hstep : forall (z : Z) r, (length r < length a)%nat ->
    match cons z <$> decode_utf8 r with Some _ => true | None => false end = true ->
    match cons z <$> decode_utf8 (r ++ b) with Some _ => true | None => false end =
    match decode_utf8 b with Some _ => true | None => false end).
  { intros z r Hr H. specialize (IH (length r) Hr r eq_refl). destruct (decode_utf8 r); [|done].
    specialize (IH eq_refl). by destruct (decode_utf8 (r ++ b)), (decode_utf8 b). }
  destruct a as [|c r]; [done|]. cbn [decode_utf8 app].
  destruct ((0 <=? c) && (c <? 0x80)); [apply Hstep; cbn; lia|].
  destruct ((0xC2 <=? c) && (c <=? 0xDF)).
  { destruct r as [|c1 r]; [done|]. cbn [app]. destruct (is_cont c1); [apply Hstep; cbn; lia|done]. }
  destruct ((0xE0 <=? c) && (c <=? 0xEF)).
  { destruct r as [|c1 [|c2 r]]; try done. cbn [app]. destruct (three_ok c c1 && is_cont c2); [apply Hstep; cbn; lia|done]. }
  destruct ((0xF0 <=? c) && (c <=? 0xF4)); [|done].
  destruct r as [|c1 [|c2 [|c3 r]]]; try done. cbn [app].
  destruct (four_ok c c1 && is_cont c2 && is_cont c3); [apply Hstep; cbn; lia|done].
Qed.

(** * Lemmas: numbers *)

Lemma digits_text l : Forall (fun c => is_ascii_digit c = true) l -> decode_utf8 l = Some l /\ trim l = l.
Proof.
  intros H. assert (Hstart : forall l', Forall (fun c => is_ascii_digit c = true) l' -> trim_start l' = l').
  { intros [|c l']; [done|]. rewrite Forall_cons. intros [Hc _]. cbn [trim_start].
    unfold is_ascii_digit in Hc. unfold is_whitespace.
    repeat (rewrite (proj2 (Z.eqb_neq c _)) by lia). rewrite (proj2 (Z.leb_gt c 13)), (proj2 (Z.leb_gt 8192 c)) by lia.
    by rewrite andb_false_r. }
  split.
  - induction H as [|c l Hc Hl IH]; [done|]. cbn [decode_utf8]. unfold is_ascii_digit in Hc.
    rewrite (proj2 (Z.leb_le _ _)), (proj2 (Z.ltb_lt _ _)), IH by lia. done.
  - unfold trim. rewrite (Hstart l) by done. rewrite Hstart by (by apply Forall_rev). apply rev_involutive.
Qed.

Lemma of_uint_acc_spec u acc : Zpos acc * 10 ^ Z.of_nat (length (uint_str u)) <= Zpos (Pos.of_uint_acc u acc).
Proof.
  revert acc. induction u; intros acc; cbn [uint_str length Pos.of_uint_acc]; [lia|..];
    rewrite Nat2Z.inj_succ, Z.pow_succ_r by lia;
    match goal with |- _ <= Zpos (Pos.of_uint_acc _ ?a) => specialize (IHu a) end; nia.
Qed.

Lemma u64_digits_cons c acc r : 48 <= c <= 57 -> acc * 10 + (c - 48) <= u64_max ->
  u64_digits acc (c :: r) = u64_digits (acc * 10 + (c - 48)) r.
Proof.
  intros Hc Ha. cbn [u64_digits]. unfold is_ascii_digit.
  by rewrite (proj2 (Z.leb_le 48 c)), (proj2 (Z.leb_le c 57)), (proj2 (Z.leb_le _ u64_max)) by lia.
Qed.

Lemma of_uint_acc_grows u acc : Zpos acc <= Zpos (Pos.of_uint_acc u acc).
Proof.
  pose proof (of_uint_acc_spec u acc). assert (1 <= 10 ^ Z.of_nat (length (uint_str u))) by (apply (Z.pow_le_mono_r 10 0); lia). nia.
Qed.

Lemma u64_digits_acc u acc : Zpos (Pos.of_uint_acc u acc) <= u64_max ->
  u64_digits (Zpos acc) (uint_str u) = Ok (Zpos (Pos.of_uint_acc u acc)).
Proof.
  revert acc. induction u; intros acc H; cbn [uint_str Pos.of_uint_acc] in *; [done|..];
    match type of H with Zpos (Pos.of_uint_acc _ ?a) <= _ =>
      pose proof (of_uint_acc_grows u a); rewrite u64_digits_cons by lia;
      match goal with |- u64_digits ?z _ = _ => replace z with (Zpos a) by lia end
    end; by apply IHu.
Qed.

Lemma u64_digits_uint u : Z.of_uint u <= u64_max -> u64_digits 0 (uint_str u) = Ok (Z.of_uint u).
Proof.
  unfold Z.of_uint. induction u; cbn [uint_str Pos.of_uint Z.of_N]; intros H; [done|..];
    (rewrite u64_digits_cons by (unfold u64_max; lia)); [apply IHu, H|..]; by apply u64_digits_acc.
Qed.

Lemma parse_fmt_int k : 0 <= k <= u64_max -> parse_u64 (fmt_int k) = Ok k.
Proof.
  intros Hk. pose proof (fmt_int_nonempty k) as Hne. unfold fmt_int in *. pose proof (DecimalZ.of_to k) as Hof.
  destruct (Z.to_int k) as [u|u] eqn:Hu; [|destruct k; try done; lia]. cbn in Hof.
  pose proof (u64_digits_uint u) as Hd. rewrite Hof in Hd. specialize (Hd (proj2 Hk)).
  pose proof (uint_str_digits u) as Hall. destruct (uint_str u) as [|c r] eqn:Hs; [done|].
  apply Forall_cons in Hall as [Hc _]. unfold is_ascii_digit in Hc.
  assert (parse_u64 (c :: r) = u64_digits 0 (c :: r)) as ->; [|done].
  unfold parse_u64. destruct (decide (c = 43)) as [-> |Hc43]; [done|].
  destruct c as [|c|c]; [done| |done]. repeat (destruct c as [c|c|]; try done).
Qed.

Lemma fmt_int_digits k : 0 <= k -> Forall (fun c => is_ascii_digit c = true) (fmt_int k).
Proof. intros Hk. unfold fmt_int. destruct k as [|p|p]; [by repeat constructor|apply uint_str_digits|lia]. Qed.

(** A decimal of 64 bits is short. *)
Lemma fmt_int_length k : 0 <= k <= u64_max -> Z.of_nat (length (fmt_int k)) <= 20.
Proof.
  intros Hk. unfold fmt_int. pose proof (DecimalZ.of_to k) as Hof. destruct k as [|p|p]; [done| |lia].
  cbn [Z.to_int] in *. unfold Z.of_int, Z.of_uint in Hof. 
  assert (forall v, Z.of_N (Pos.of_uint v) = Zpos p -> (exists w, v = Decimal.D0 w) \/ Z.of_nat (length (uint_str v)) <= 20) as H.
  { intros v Hv. destruct v; try (left; by exists v); right; cbn [Pos.of_uint Z.of_N] in Hv; try done;
      match type of Hv with Zpos (Pos.of_uint_acc ?w ?a) = _ => pose proof (of_uint_acc_spec w a) as Hb end; rewrite Hv in Hb;
      cbn [uint_str length]; rewrite Nat2Z.inj_succ;
      match type of Hb with _ * 10 ^ ?n <= _ => destruct (Z_le_gt_dec n 19) as [?|Hgt]; [lia|] end;
      exfalso; match type of Hb with _ * 10 ^ ?n <= _ => pose proof (Z.pow_le_mono_r 10 20 n ltac:(lia) ltac:(lia)) end;
      unfold u64_max in Hk; lia. }
  destruct (H _ Hof) as [[w Hw]|?]; [|done].
  pose proof (DecimalZ.to_of (Z.to_int (Zpos p))) as Hn. rewrite DecimalZ.of_to in Hn.
  assert (Pos.to_uint p = Decimal.unorm (Pos.to_uint p)) as Hn' by (by inversion Hn).
  rewrite Hw in Hn', Hof. unfold Decimal.unorm in Hn'. cbn [Decimal.nzhead] in Hn'.
  destruct (Decimal.nzhead w) as [|u| | | | | | | | |] eqn:Hz; try done.
  - injection Hn' as ->. done.
  - by destruct (DecimalFacts.nzhead_nonzero w u).
Qed.
