(* ===== verification/EventLog.v ===== *)
(** [av-bridge/src/embedded.rs], one partition: recovery of its files, publishing,
    reading and retention.  Every operation that touches the disk asks the environment for
    its fate; the process may die in any of them. *)

From S2P Require Import Prelude Rust CoreBase Json Disk.

(** * bus.rs *)

Inductive BusError :=
| UnknownTopic (topic : str)
| BusIo (e : str)
| BusSerde (e : str)
| Backend (e : str).

Definition is_permanent (e : BusError) : bool :=
  match e with UnknownTopic _ | BusSerde _ => true | BusIo _ | Backend _ => false end.

Record StoredEvent := mkStored {
  se_partition : Z;
  se_offset : Z;
  se_key : str;
  se_value : Value;
  se_stored_at : Z;
}.

Definition event_uid_from_value (value : Value) : option str :=
  (value_get (lit "metadata") value ≫= (fun metadata => value_get (lit "uid") metadata)) ≫= as_str.

Definition event_uid (e : StoredEvent) : option str := event_uid_from_value (se_value e).

(** [serde_json] on the derived types [StoredEvent] and [EventUidOffset], and the text of
    a [Utf8Error]. *)
Class EventJson := {
  print_event : StoredEvent -> list Z;
  parse_event : list Z -> option StoredEvent;
  print_mapping : str -> Z -> list Z;
  parse_mapping : list Z -> option (str * Z);
  utf8_error : list Z -> str;
}.

(** * State *)

(** [poisoned] refuses appends until a restart. *)
Record Partition := mkPartition {
  seen_event_uids : gmap str Z;
  next_offset : Z;
  poisoned : option str;
}.

(** [p<N>.jsonl], [p<N>.next-offset], [p<N>.event-uids.jsonl] and the cold directory. *)
Record PartDisk := mkPartDisk {
  pd_segment : Slot;
  pd_watermark : Slot;
  pd_sidecar : Slot;
  pd_cold : gmap str Slot;
}.

Definition blank_disk : PartDisk := mkPartDisk no_file no_file no_file ∅.

Definition on_segment (f : Slot -> Slot) (d : PartDisk) : PartDisk :=
  mkPartDisk (f (pd_segment d)) (pd_watermark d) (pd_sidecar d) (pd_cold d).
Definition on_watermark (f : Slot -> Slot) (d : PartDisk) : PartDisk :=
  mkPartDisk (pd_segment d) (f (pd_watermark d)) (pd_sidecar d) (pd_cold d).
Definition on_sidecar (f : Slot -> Slot) (d : PartDisk) : PartDisk :=
  mkPartDisk (pd_segment d) (pd_watermark d) (f (pd_sidecar d)) (pd_cold d).
Definition on_cold (name : str) (f : Slot -> Slot) (d : PartDisk) : PartDisk :=
  mkPartDisk (pd_segment d) (pd_watermark d) (pd_sidecar d) (<[name := f (default no_file (pd_cold d !! name))]> (pd_cold d)).

(** [sync_directory] of the topic's directory, and of the cold one. *)
Definition settle_topic (d : PartDisk) : PartDisk :=
  mkPartDisk (settle_entry (pd_segment d)) (settle_entry (pd_watermark d)) (settle_entry (pd_sidecar d)) (pd_cold d).
Definition settle_cold (d : PartDisk) : PartDisk :=
  mkPartDisk (pd_segment d) (pd_watermark d) (pd_sidecar d) (settle_entry <$> pd_cold d).

(** * Programs *)

Record PS := mkPS { ps_disk : PartDisk; ps_part : Partition; ps_ticks : nat }.

Inductive outcome (A : Type) := Ret (a : A) | Throw (e : BusError) | Dead.
Arguments Ret {A} _.
Arguments Throw {A} _.
Arguments Dead {A}.

Definition Io (A : Type) : Type := PS -> PS * outcome A.

Definition pret {A} (a : A) : Io A := fun st => (st, Ret a).
Definition pthrow {A} (e : BusError) : Io A := fun st => (st, Throw e).
Definition pbind {A B} (m : Io A) (k : A -> Io B) : Io B := fun st =>
  match m st with
  | (st', Ret a) => k a st'
  | (st', Throw e) => (st', Throw e)
  | (st', Dead) => (st', Dead)
  end.

Declare Scope bus_scope.
Notation "'let%' x ':=' m 'in' k" := (pbind m (fun x => k))
  (at level 10, x pattern, m at level 100, k at level 200) : bus_scope.
Notation "m ';%' k" := (pbind m (fun _ => k)) (at level 100, right associativity) : bus_scope.
Open Scope bus_scope.

(** A closure called on the spot, whose error is a value. *)
Definition attempt {A} (m : Io A) : Io (result A BusError) := fun st =>
  match m st with
  | (st', Ret a) => (st', Ret (Ok a))
  | (st', Throw e) => (st', Ret (Err e))
  | (st', Dead) => (st', Dead)
  end.

Definition pof {A} (r : result A BusError) : Io A := match r with Ok a => pret a | Err e => pthrow e end.
Definition pwhen (b : bool) (m : Io unit) : Io unit := if b then m else pret tt.
Definition look {A} (f : PartDisk -> A) : Io A := fun st => (st, Ret (f (ps_disk st))).
Definition the_part : Io Partition := fun st => (st, Ret (ps_part st)).
Definition set_part (f : Partition -> Partition) : Io unit := fun st =>
  (mkPS (ps_disk st) (f (ps_part st)) (ps_ticks st), Ret tt).
Definition on_disk_st (f : PartDisk -> PartDisk) (st : PS) : PS := mkPS (f (ps_disk st)) (ps_part st) (S (ps_ticks st)).

Definition poison (reason : str) : Io unit :=
  set_part (fun p => mkPartition (seen_event_uids p) (next_offset p) (Some reason)).
Definition set_next (n : Z) : Io unit := set_part (fun p => mkPartition (seen_event_uids p) n (poisoned p)).
Definition set_seen (f : gmap str Z -> gmap str Z) : Io unit :=
  set_part (fun p => mkPartition (f (seen_event_uids p)) (next_offset p) (poisoned p)).

Section Partition.
Context {EJ : EventJson}.
Context (fate : IoOp -> nat -> IoFate).
(** [p<N>], and the path of the segment. *)
Context (stem segment_path : str).

Definition io (op : IoOp) (f : IoFate -> PartDisk -> PartDisk) : Io unit := fun st =>
  let st' := on_disk_st (f (fate op (ps_ticks st))) st in
  match fate op (ps_ticks st) with
  | Done => (st', Ret tt)
  | Fails _ e => (st', Throw (BusIo e))
  | Dies _ => (st', Dead)
  end.

(** An operation whose effect is not on these files (a temporary file, a handle). *)
Definition io_nop (op : IoOp) : Io unit := io op (fun _ d => d).

(** An effect that has happened or not when the operation stops. *)
Definition all_or_nothing (f : PartDisk -> PartDisk) (stop : IoFate) (d : PartDisk) : PartDisk :=
  match stop with Fails O _ | Dies O => d | _ => f d end.

(** [rename]: when it fails, it has not happened. *)
Definition renames (f : PartDisk -> PartDisk) (stop : IoFate) (d : PartDisk) : PartDisk :=
  match stop with Fails _ _ | Dies O => d | _ => f d end.

(** An effect that counts only when the operation succeeds. *)
Definition on_success (f : PartDisk -> PartDisk) (stop : IoFate) (d : PartDisk) : PartDisk :=
  match stop with Done => f d | _ => d end.

(** As many of these bytes as are written. *)
Definition written (stop : IoFate) (data : list Z) : list Z :=
  match stop with Done => data | Fails n _ | Dies n => take n data end.

Definition write_to (on : (Slot -> Slot) -> PartDisk -> PartDisk) (data : list Z) : Io unit :=
  io OpWrite (fun stop => on (on_file (append_data (written stop data)))).
Definition sync_of (on : (Slot -> Slot) -> PartDisk -> PartDisk) : Io unit :=
  io OpSync (on_success (on (on_file flush_data))).
Definition open_create (on : (Slot -> Slot) -> PartDisk -> PartDisk) : Io unit :=
  io OpOpen (all_or_nothing (on create_entry)).
Definition set_len (n : nat) : Io unit := io OpSetLen (all_or_nothing (on_segment (on_file (shorten n)))).
Definition sync_directory : Io unit := io OpSyncDir (on_success settle_topic).

(** A temporary file, written, synchronized and renamed. *)
Definition replace (on : (Slot -> Slot) -> PartDisk -> PartDisk) (data : list Z) : Io unit :=
  io_nop OpOpen ;% io_nop OpWrite ;% io_nop OpSync ;% io OpRename (renames (on (rename_over data))).

(** [av_core::fsutil::write_atomic]. *)
Definition rewrite_atomic (on : (Slot -> Slot) -> PartDisk -> PartDisk) (data : list Z) : Io unit :=
  io_nop OpDir ;% replace on data ;% sync_directory.

(** The bytes of a file that is opened and read to its end. *)
Definition read_bytes (which : PartDisk -> Slot) : Io (option (list Z)) :=
  io_nop OpRead ;% look (fun d => visible (which d)).

Definition exists_file (which : PartDisk -> Slot) : Io bool :=
  look (fun d => match visible (which d) with Some _ => true | None => false end).

(** * The watermark *)

Definition MAX_CONTROL_BYTES : Z := 1024 * 1024.

Definition read_high_water : Io Z :=
  let% found := read_bytes pd_watermark in
  match found with
  | None => pret 0
  | Some data =>
      let name := stem ++ lit ".next-offset" in
      if MAX_CONTROL_BYTES <? Z.of_nat (length data) then
        pthrow (BusIo (name ++ lit " is " ++ fmt_int (Z.of_nat (length data))
                       ++ lit " bytes; refusing to load more than " ++ fmt_int MAX_CONTROL_BYTES))
      else
        match decode_utf8 data with
        | None => pthrow (BusIo (utf8_error data))
        | Some text =>
            match parse_u64 (trim text) with
            | Ok offset => pret offset
            | Err error =>
                pthrow (Backend (lit "high-watermark file " ++ name ++ lit " is corrupt (" ++ fmt_parse_int_error error
                                 ++ lit "); refusing to open the partition"))
            end
        end
  end.

Definition persist_high_water (n : Z) : Io unit := replace on_watermark (fmt_int n) ;% sync_directory.

(** * Recovery *)

Definition MAX_SEGMENT_LINE_BYTES : Z := 16 * 1024 * 1024.

Record Scan := mkScan { sc_complete_len : Z; sc_next_offset : Z; sc_parseable : Z; sc_unparseable : Z }.

Definition scan_line (line : list Z) (s : Scan) : Scan :=
  match parse_event line with
  | Some event => mkScan (sc_complete_len s) (Z.max (sc_next_offset s) (sat_add (se_offset event) 1))
                    (sat_add (sc_parseable s) 1) (sc_unparseable s)
  | None => mkScan (sc_complete_len s) (sat_add (sc_next_offset s) 1) (sc_parseable s) (sat_add (sc_unparseable s) 1)
  end.

(** The loop of [recover_segment]: the scan, and whether the tail is torn. *)
Fixpoint scan_segment (fuel : nat) (b : list Z) (s : Scan) : result (Scan * bool) BusError :=
  match fuel with
  | O => Ok (s, false)
  | S fuel' =>
      let '(buf, rest) := read_until MAX_SEGMENT_LINE_BYTES b in
      match buf with
      | [] => Ok (s, false)
      | _ =>
          if negb (ends_line buf) then
            if Z.of_nat (length buf) =? MAX_SEGMENT_LINE_BYTES then
              Err (Backend (lit "segment " ++ stem ++ lit ".jsonl contains a record above "
                            ++ fmt_int MAX_SEGMENT_LINE_BYTES ++ lit " bytes; refusing to open the partition"))
            else Ok (s, true)
          else
            let s := mkScan (sat_add (sc_complete_len s) (Z.of_nat (length buf))) (sc_next_offset s) (sc_parseable s)
                       (sc_unparseable s) in
            match removelast buf with
            | [] => scan_segment fuel' rest s
            | line => scan_segment fuel' rest (scan_line line s)
            end
      end
  end.

Definition recover_segment (persisted_offset : Z) : Io (Z * Z) :=
  let% found := read_bytes pd_segment in
  match found with
  | None => pret (0, 0)
  | Some data =>
      let% scanned := pof (scan_segment (S (length data)) data (mkScan 0 0 0 0)) in
      let '(s, torn) := scanned in
      if (0 <? sc_unparseable s) && (sc_parseable s =? 0) && (0 <? persisted_offset) then
        pthrow (Backend (lit "segment " ++ stem ++ lit ".jsonl contains only unparseable records ("
                         ++ fmt_int (sc_unparseable s) ++ lit ") but the partition has a retention watermark ("
                         ++ fmt_int persisted_offset
                         ++ lit "); absolute offsets are unrecoverable " ++ 0x2014
                         :: lit " refusing to open the partition (move the segment aside to repair)"))
      else
        pwhen torn (io_nop OpOpen ;% set_len (Z.to_nat (sc_complete_len s)) ;% sync_of on_segment) ;%
        pret (sc_next_offset s, if torn then 1 else 0)
  end.

Definition MAX_SIDECAR_LINE : Z := 4096.

(** The rest of an oversized line: its length so far, whether it ends, what follows. *)
Fixpoint drain_line (fuel : nat) (drained : Z) (b : list Z) : Z * bool * list Z :=
  match fuel with
  | O => (drained, false, b)
  | S fuel' =>
      let '(buf, rest) := read_until (MAX_SIDECAR_LINE + 1) b in
      match buf with
      | [] => (drained, false, rest)
      | _ => let drained := sat_add drained (Z.of_nat (length buf)) in
             if ends_line buf then (drained, true, rest) else drain_line fuel' drained rest
      end
  end.

(** The loop of [recover_event_uids]: the map, the length of the complete lines, and
    whether the tail is torn. *)
Fixpoint scan_uids (fuel : nat) (b : list Z) (seen : gmap str Z) (valid : Z) : gmap str Z * Z * bool :=
  match fuel with
  | O => (seen, valid, false)
  | S fuel' =>
      let '(buf, rest) := read_until (MAX_SIDECAR_LINE + 1) b in
      let n := Z.of_nat (length buf) in
      match buf with
      | [] => (seen, valid, false)
      | _ =>
          if negb (ends_line buf) && (MAX_SIDECAR_LINE <? n) then
            let '(drained, found, rest') := drain_line (S (length rest)) n rest in
            if negb found then (seen, valid, true) else scan_uids fuel' rest' seen (sat_add valid drained)
          else if negb (ends_line buf) then (seen, valid, true)
          else
            let valid := sat_add valid n in
            if MAX_SIDECAR_LINE <? n then scan_uids fuel' rest seen valid
            else
              match removelast buf with
              | [] => scan_uids fuel' rest seen valid
              | payload =>
                  match parse_mapping payload with
                  | Some (uid, offset) => scan_uids fuel' rest (<[uid := offset]> seen) valid
                  | None => scan_uids fuel' rest seen valid
                  end
              end
      end
  end.

Definition recover_event_uids : Io (gmap str Z) :=
  let% present := exists_file pd_sidecar in
  if negb present then pret ∅
  else
    let% found := read_bytes pd_sidecar in
    let data := default [] found in
    let '(seen, valid, torn) := scan_uids (S (length data)) data ∅ 0 in
    pwhen torn
      (let% again := read_bytes pd_sidecar in
       rewrite_atomic on_sidecar (take (Z.to_nat valid) (default [] again))) ;%
    pret seen.

Definition not_utf8 : BusError := BusIo (lit "stream did not contain valid UTF-8").

(** The uids of the records in a list of lines, added to a map. *)
Fixpoint index_lines (lines : list (list Z)) (seen : gmap str Z) : result (gmap str Z) BusError :=
  match lines with
  | [] => Ok seen
  | line :: rest =>
      if negb (is_utf8 line) then Err not_utf8
      else match line with
           | [] => index_lines rest seen
           | _ =>
               match parse_event line with
               | Some event =>
                   match event_uid event with
                   | Some uid => index_lines rest (<[uid := se_offset event]> seen)
                   | None => index_lines rest seen
                   end
               | None => index_lines rest seen
               end
           end
  end.

Definition recover_segment_event_uids (seen : gmap str Z) : Io (gmap str Z) :=
  let% present := exists_file pd_segment in
  if negb present then pret seen
  else
    let% found := read_bytes pd_segment in
    pof (index_lines (lines_of (default [] found)) seen).

(** What the recovery knows of the records that are still there. *)
Record Live := mkLive { lv_uids : gset str; lv_min : Z; lv_max : Z; lv_parseable : bool; lv_unparseable : Z }.

Definition live_line (line : list Z) (l : Live) : Live :=
  match line with
  | [] => l
  | _ =>
      match parse_event line with
      | Some event =>
          mkLive (match event_uid event with Some uid => {[uid]} ∪ lv_uids l | None => lv_uids l end)
            (Z.min (lv_min l) (se_offset event)) (Z.max (lv_max l) (se_offset event)) true (lv_unparseable l)
      | None => mkLive (lv_uids l) (lv_min l) (lv_max l) (lv_parseable l) (sat_add (lv_unparseable l) 1)
      end
  end.

Definition live_lines (lines : list (list Z)) : Live :=
  fold_left (fun l line => if is_utf8 line then live_line line l else l) lines (mkLive ∅ u64_max 0 false 0).

(** The offsets that an unreadable line may stand for. *)
Definition offset_range (l : Live) : option (Z * Z) :=
  if lv_unparseable l =? 0 then None
  else if lv_parseable l then Some (lv_min l, sat_add (lv_max l) (lv_unparseable l))
  else Some (0, u64_max).

Definition in_range (r : option (Z * Z)) (offset : Z) : bool :=
  match r with Some (lo, hi) => (lo <=? offset) && (offset <=? hi) | None => false end.

Definition keep_live (l : Live) (seen : gmap str Z) : gmap str Z :=
  filter (fun kv => bool_decide (kv.1 ∈ lv_uids l) || in_range (offset_range l) kv.2 = true) seen.

Definition drop_stale_uids (seen : gmap str Z) : Io (gmap str Z) :=
  if bool_decide (seen = ∅) then pret seen
  else
    let% present := exists_file pd_segment in
    if negb present then pret (keep_live (live_lines []) seen)
    else
      let% found := read_bytes pd_segment in
      pret (keep_live (live_lines (lines_of (default [] found))) seen).

(** One turn of the loop of [open]: the number of torn lines. *)
Definition open_partition : Io Z :=
  let% persisted_offset := read_high_water in
  let% recovered := recover_segment persisted_offset in
  let '(segment_offset, torn) := recovered in
  let% seen := recover_event_uids in
  let% seen := recover_segment_event_uids seen in
  let% seen := drop_stale_uids seen in
  let% present := exists_file pd_segment in
  open_create on_segment ;%
  pwhen (negb present) sync_directory ;%
  set_part (fun _ => mkPartition seen (Z.max segment_offset persisted_offset) None) ;%
  pret torn.

(** * Publishing *)

Definition io_text (e : BusError) : str :=
  match e with BusIo s | BusSerde s | Backend s | UnknownTopic s => s end.

Definition append_sidecar (uid : str) (offset : Z) : Io unit :=
  let% present := exists_file pd_sidecar in
  open_create on_sidecar ;%
  write_to on_sidecar (print_mapping uid offset) ;%
  write_to on_sidecar [10] ;%
  sync_of on_sidecar ;%
  pwhen (negb present) sync_directory.

(** A failed append is truncated away; when that fails too, the partition is poisoned. *)
Definition undo_append {A} (known_good : nat) (error : BusError) : Io A :=
  let% repaired := attempt (set_len known_good ;% sync_of on_segment) in
  match repaired with
  | Err repair =>
      poison (lit "append failed (" ++ io_text error ++ lit "); truncation failed (" ++ io_text repair ++ lit ")")
  | Ok _ => pret tt
  end ;%
  pthrow error.

(** The next offset, the index and its sidecar, whose failure is only logged. *)
Definition note_published (uid : option str) (offset : Z) : Io unit :=
  set_next (offset + 1) ;%
  match uid with
  | Some u =>
      set_seen <[u := offset]> ;%
      let% _ := attempt (append_sidecar u offset) in pret tt
  | None => pret tt
  end.

(** The record behind the lock: [describe] is how the caller names the partition. *)
Definition publish_record (describe : str) (now partition : Z) (key : str) (value : Value) (uid : option str) : Io Z :=
  let% p := the_part in
  match poisoned p with
  | Some reason =>
      pthrow (Backend (describe ++ lit " is poisoned by an unrepaired append failure (restart to recover): " ++ reason))
  | None =>
      match uid ≫= fun u => seen_event_uids p !! u with
      | Some offset => pret offset
      | None =>
          let offset := next_offset p in
          let record := mkStored partition offset key value now in
          if u64_max <? offset + 1 then pthrow (Backend (lit "embedded offset overflow"))
          else
            io_nop OpRead ;%
            let% known_good := look (fun d => length (default [] (visible (pd_segment d)))) in
            let% appended := attempt
              (write_to on_segment (print_event record) ;% write_to on_segment [10] ;% sync_of on_segment) in
            match appended with
            | Err error => undo_append known_good error
            | Ok _ => note_published uid offset ;% pret offset
            end
      end
  end.

(** * Reading *)

(** The events from [offset] on among these lines, at most [max]. *)
Fixpoint fetch_lines (offset : Z) (max : nat) (lines : list (list Z)) : result (list StoredEvent) BusError :=
  match lines with
  | [] => Ok []
  | line :: rest =>
      if negb (is_utf8 line) then Err not_utf8
      else match line with
           | [] => fetch_lines offset max rest
           | _ =>
               match parse_event line with
               | None => fetch_lines offset max rest
               | Some ev =>
                   if se_offset ev <? offset then fetch_lines offset max rest
                   else match max with
                        | O | S O => Ok [ev]
                        | S max' => let? out := fetch_lines offset max' rest in Ok (ev :: out)
                        end
               end
           end
  end.

Definition fetch_partition (offset : Z) (max : nat) : Io (list StoredEvent) :=
  let% present := exists_file pd_segment in
  if (max =? 0)%nat || negb present then pret []
  else
    let% found := read_bytes pd_segment in
    pof (fetch_lines offset max (lines_of (default [] found))).

(** [fetch_read_only] on the bytes of a segment: it stops before an unterminated line. *)
Fixpoint tail_events (fuel : nat) (offset : Z) (max : nat) (b : list Z) : list StoredEvent :=
  match fuel, max with
  | O, _ | _, O => []
  | S fuel', S max' =>
      let '(buf, rest) := read_until MAX_SEGMENT_LINE_BYTES b in
      if negb (ends_line buf) then []
      else
        match removelast buf with
        | [] => tail_events fuel' offset max rest
        | line =>
            match parse_event line with
            | None => tail_events fuel' offset max rest
            | Some ev =>
                if se_offset ev <? offset then tail_events fuel' offset max rest
                else ev :: tail_events fuel' offset max' rest
            end
        end
  end.

Definition fetch_read_only (offset : Z) (max : nat) : Io (list StoredEvent) :=
  let% found := read_bytes pd_segment in
  match found with
  | None => pret []
  | Some data => pret (tail_events (S (length data)) offset max data)
  end.

(** * Retention *)

(** The lines that [for_each_segment_line] visits, and the error that stops it. *)
Fixpoint segment_lines (fuel : nat) (b : list Z) : list (list Z) * option BusError :=
  match fuel with
  | O => ([], None)
  | S fuel' =>
      let '(buf, rest) := read_until MAX_SEGMENT_LINE_BYTES b in
      match buf with
      | [] => ([], None)
      | _ =>
          if negb (ends_line buf) && (MAX_SEGMENT_LINE_BYTES <=? Z.of_nat (length buf)) then
            ([], Some (Backend (lit "segment line exceeds the " ++ fmt_int MAX_SEGMENT_LINE_BYTES ++ lit "-byte cap in "
                                ++ segment_path)))
          else if negb (is_utf8 buf) then
            ([], Some (Backend (lit "segment line is not UTF-8: " ++ utf8_error buf)))
          else
            let '(lines, e) := segment_lines fuel' rest in
            match trim_end_matches 10 buf with
            | [] => (lines, e)
            | line => (line :: lines, e)
            end
      end
  end.

Definition is_expired (cutoff : Z) (line : list Z) : bool :=
  match parse_event line with Some e => se_stored_at e <? cutoff | None => false end.

Fixpoint visit_all (visit : list Z -> Io unit) (lines : list (list Z)) : Io unit :=
  match lines with [] => pret tt | line :: rest => visit line ;% visit_all visit rest end.

Definition for_each_segment_line (visit : list Z -> Io unit) : Io unit :=
  let% present := exists_file pd_segment in
  if negb present then pret tt
  else
    let% found := read_bytes pd_segment in
    let data := default [] found in
    let '(lines, e) := segment_lines (S (length data)) data in
    visit_all visit lines ;%
    match e with Some e => pthrow e | None => pret tt end.

Definition all_segment_lines : Io (list (list Z)) :=
  let% present := exists_file pd_segment in
  if negb present then pret []
  else
    let% found := read_bytes pd_segment in
    let data := default [] found in
    match segment_lines (S (length data)) data with
    | (lines, None) => pret lines
    | (_, Some e) => pthrow e
    end.

Definition expired_offsets (cutoff : Z) : Io (gset Z) :=
  let% lines := all_segment_lines in
  pret (list_to_set (omap (fun line => if is_expired cutoff line then se_offset <$> parse_event line else None) lines)).

Definition cold_name (e : StoredEvent) : str := fmt_pad 20 (se_offset e) ++ lit ".json".

Definition write_cold_event_once (event : StoredEvent) : Io unit :=
  let name := cold_name event in
  let bytes := print_event event in
  let% present := look (fun d => pd_cold d !! name ≫= visible) in
  match present with
  | Some old =>
      io_nop OpRead ;%
      if bool_decide (old = bytes) then pret tt
      else pthrow (Backend (lit "cold object " ++ name ++ lit " already exists with different content"))
  | None => replace (on_cold name) bytes
  end.

Definition export_cold (cutoff : Z) : Io unit :=
  io_nop OpDir ;%
  for_each_segment_line (fun line =>
    if is_expired cutoff line then
      match parse_event line with Some e => write_cold_event_once e | None => pret tt end
    else pret tt) ;%
  io OpSyncDir (on_success settle_cold).

Definition terminated (line : list Z) : list Z := line ++ [10].

(** The segment without its expired lines. *)
Definition rewrite_segment (cutoff : Z) : Io unit :=
  io_nop OpOpen ;%
  let% lines := all_segment_lines in
  io_nop OpWrite ;% io_nop OpSync ;%
  io OpRename (renames (on_segment
    (rename_over (List.concat (map terminated (List.filter (fun l => negb (is_expired cutoff l)) lines)))))).

(** The mappings in the order of their offsets. *)
Definition by_offset (a b : str * Z) : Prop := a.2 <= b.2.

#[local] Instance by_offset_dec : RelDecision by_offset.
Proof. intros a b. apply Z_le_dec. Defined.

Definition sidecar_bytes (seen : gmap str Z) : list Z :=
  List.concat (map (fun kv => terminated (print_mapping kv.1 kv.2))
    (merge_sort by_offset (map_to_list seen))).

Definition after_rename (expired : gset Z) : Io unit :=
  sync_directory ;%
  let% p := the_part in
  let seen := filter (fun kv => kv.2 ∉ expired) (seen_event_uids p) in
  set_seen (fun _ => seen) ;%
  pwhen (negb (size seen =? size (seen_event_uids p))%nat) (rewrite_atomic on_sidecar (sidecar_bytes seen)) ;%
  io_nop OpOpen.

(** One partition of [enforce_retention]: how many records expired.  [cold] tells whether
    expired records are exported first. *)
Definition retain_partition (describe_error : BusError -> str) (cold : bool) (cutoff : Z) : Io Z :=
  let% p := the_part in
  match poisoned p with
  | Some _ => pret 0
  | None =>
      let% expired := expired_offsets cutoff in
      if bool_decide (expired = ∅) then pret 0
      else
        pwhen cold (export_cold cutoff) ;%
        persist_high_water (next_offset p) ;%
        rewrite_segment cutoff ;%
        let% r := attempt (after_rename expired) in
        match r with
        | Ok _ => pret (Z.of_nat (size expired))
        | Err e =>
            poison (lit "retention post-rename failure (" ++ describe_error e
                    ++ lit "); the append handle may still reference the replaced segment inode (restart to recover)") ;%
            pthrow e
        end
  end.
End Partition.
