(* ===== verification/EventLogProofs.v ===== *)
(** The embedded log keeps what it acknowledged: its files are described by the records
    they hold, and every operation, whatever fails in it, leaves files from which the
    acknowledged records are recovered. *)

From S2P Require Import Prelude Rust CoreBase Json Disk EventLog.

(** * Segments *)

Section Segment.
Context {EJ : EventJson}.

(** What [serde_json] makes of an event: one line of text without control characters that
    reads back, no longer than a reader accepts. *)
Record legible (e : StoredEvent) : Prop := {
  lg_read : parse_event (print_event e) = Some e;
  lg_text : Forall (fun b => 32 <= b) (print_event e);
  lg_utf8 : is_utf8 (print_event e) = true;
  lg_some : print_event e <> [];
  lg_size : Z.of_nat (length (print_event e)) < MAX_SEGMENT_LINE_BYTES;
}.

Definition encode (rs : list StoredEvent) : list Z := List.concat (map (fun e => terminated (print_event e)) rs).

Lemma encode_app rs rs' : encode (rs ++ rs') = encode rs ++ encode rs'.
Proof. unfold encode. by rewrite map_app, concat_app. Qed.

Lemma encode_cons e rs tail : encode (e :: rs) ++ tail = print_event e ++ 10 :: (encode rs ++ tail).
Proof. unfold encode, terminated. cbn [map List.concat]. by rewrite <- !app_assoc. Qed.

Lemma encode_length e rs tail : (length (encode rs ++ tail) < length (encode (e :: rs) ++ tail))%nat.
Proof. rewrite encode_cons, (length_app (print_event e)). cbn [length]. lia. Qed.

Definition newline_free (l : list Z) : Prop := Forall (fun b => b <> 10) l.

(** What an interrupted append leaves after the last complete line. *)
Definition torn_tail (tail : list Z) : Prop := newline_free tail /\ Z.of_nat (length tail) < MAX_SEGMENT_LINE_BYTES.

Lemma read_line e rs tail : legible e ->
  read_until MAX_SEGMENT_LINE_BYTES (encode (e :: rs) ++ tail) = (print_event e ++ [10], encode rs ++ tail).
Proof. intros [_ Ht _ _ Hs]. rewrite encode_cons. apply read_until_line; [by apply text_no_newline|done]. Qed.

Lemma read_tail tail : torn_tail tail -> read_until MAX_SEGMENT_LINE_BYTES tail = (tail, []).
Proof. intros [Hn Hs]. apply read_until_tail; [done|lia]. Qed.

Lemma lines_of_encode rs tail : Forall legible rs -> newline_free tail ->
  lines_of (encode rs ++ tail) = map print_event rs ++ match tail with [] => [] | _ => [tail] end.
Proof.
  unfold lines_of. intros Hrs Ht. induction Hrs as [|e rs He Hrs IH].
  - cbn [encode map List.concat app]. assert (forall cur, newline_free tail ->
      split_lines cur tail = match cur ++ tail with [] => [] | _ => [cur ++ tail] end) as H; [|by apply (H [])].
    clear Ht. induction tail as [|c tail IH]; intros cur; cbn [split_lines]; [rewrite app_nil_r; by destruct cur|].
    unfold newline_free. rewrite Forall_cons. intros [Hne Ht]. rewrite (proj2 (Z.eqb_neq _ _)) by done.
    rewrite IH by done. rewrite <- app_assoc. done.
  - rewrite encode_cons, split_lines_line by (apply text_no_newline, (lg_text _ He)).
    cbn [app map]. by rewrite strip_return_text, IH by apply (lg_text _ He).
Qed.

(** ** Scanning *)

Definition seg_next (rs : list StoredEvent) : Z := fold_left (fun n e => Z.max n (sat_add (se_offset e) 1)) rs 0.

Lemma scan_line_legible e s : legible e ->
  scan_line (print_event e) s = mkScan (sc_complete_len s) (Z.max (sc_next_offset s) (sat_add (se_offset e) 1))
                                  (sat_add (sc_parseable s) 1) (sc_unparseable s).
Proof. intros He. unfold scan_line. by rewrite (lg_read _ He). Qed.

Lemma scan_encode stem fuel rs tail s : Forall legible rs -> torn_tail tail ->
  (length (encode rs ++ tail) < fuel)%nat -> 0 <= sc_complete_len s ->
  sc_complete_len s + Z.of_nat (length (encode rs)) <= u64_max ->
  exists k, scan_segment stem fuel (encode rs ++ tail) s =
    Ok (mkScan (sc_complete_len s + Z.of_nat (length (encode rs)))
          (fold_left (fun n e => Z.max n (sat_add (se_offset e) 1)) rs (sc_next_offset s)) k (sc_unparseable s),
        negb (bool_decide (tail = []))).
Proof.
  revert fuel s. induction rs as [|e rs IH]; intros fuel s Hrs Ht Hf Hc Hmax.
  - destruct fuel as [|fuel]; [lia|]. cbn [encode map List.concat app scan_segment fold_left length].
    rewrite read_tail by done. exists (sc_parseable s). rewrite Z.add_0_r. destruct tail as [|c tail].
    + by destruct s.
    + destruct Ht as [Hn Hs]. rewrite ends_line_tail by done. cbn [negb].
      rewrite (proj2 (Z.eqb_neq _ _)) by lia. by destruct s.
  - apply Forall_cons in Hrs as [He Hrs]. destruct fuel as [|fuel]; [lia|].
    pose proof (encode_length e rs tail) as Hlt. cbn [scan_segment]. rewrite read_line by done.
    assert (Hlen : Z.of_nat (length (encode (e :: rs))) = Z.of_nat (length (print_event e ++ [10])) + Z.of_nat (length (encode rs))).
    { rewrite <- (app_nil_r (encode (e :: rs))), encode_cons, app_nil_r, !length_app. cbn [length]. lia. }
    destruct (print_event e ++ [10]) as [|c0 l0] eqn:Hl; [by destruct (print_event e)|]. rewrite <- Hl in Hlen |- *.
    rewrite ends_line_snoc. cbn [negb]. rewrite removelast_last.
    destruct (print_event e) as [|c1 l1] eqn:Hp; [by destruct (lg_some _ He)|]. rewrite <- Hp in Hlen |- *.
    rewrite scan_line_legible by done. cbn [sc_complete_len sc_next_offset sc_parseable sc_unparseable].
    assert (Hsat : sat_add (sc_complete_len s) (Z.of_nat (length (print_event e ++ [10]))) =
              sc_complete_len s + Z.of_nat (length (print_event e ++ [10]))) by (unfold sat_add; lia).
    destruct (IH fuel (mkScan (sc_complete_len s + Z.of_nat (length (print_event e ++ [10])))
                (Z.max (sc_next_offset s) (sat_add (se_offset e) 1)) (sat_add (sc_parseable s) 1) (sc_unparseable s)))
      as [k Hk]; [done|done|lia|cbn; lia|cbn; lia|]. exists k. rewrite Hsat. etrans; [exact Hk|].
    cbn [sc_complete_len sc_next_offset sc_unparseable fold_left]. do 3 f_equal. lia.
Qed.

(** ** The index of uids *)

Definition index_event (m : gmap str Z) (e : StoredEvent) : gmap str Z :=
  match event_uid e with Some u => <[u := se_offset e]> m | None => m end.
Definition uid_map (rs : list StoredEvent) : gmap str Z := fold_left index_event rs ∅.

Lemma index_encode rs tail m : Forall legible rs -> tail = [] ->
  index_lines (lines_of (encode rs ++ tail)) m = Ok (fold_left index_event rs m).
Proof.
  intros Hrs ->. rewrite lines_of_encode by (done || constructor). rewrite app_nil_r.
  revert m. induction Hrs as [|e rs He Hrs IH]; intros m; cbn [map index_lines fold_left]; [done|].
  rewrite (lg_utf8 _ He). cbn [negb]. destruct (print_event e) as [|c l] eqn:Hp; [by destruct (lg_some _ He)|].
  rewrite <- Hp, (lg_read _ He). unfold index_event at 2. destruct (event_uid e); apply IH.
Qed.

Lemma fold_index_lookup rs m u :
  fold_left index_event rs m !! u = match uid_map rs !! u with Some o => Some o | None => m !! u end.
Proof.
  unfold uid_map. revert m. induction rs as [|e rs IH] using rev_ind; intros m; cbn [fold_left]; [by rewrite lookup_empty|].
  rewrite !fold_left_app. cbn [fold_left]. unfold index_event at 1 3. destruct (event_uid e) as [u'|]; [|apply IH].
  destruct (decide (u' = u)) as [-> |Hne]; [by rewrite !lookup_insert_eq|]. rewrite !lookup_insert_ne by done. apply IH.
Qed.

Lemma uid_map_snoc rs e : uid_map (rs ++ [e]) = index_event (uid_map rs) e.
Proof. unfold uid_map. by rewrite fold_left_app. Qed.

Lemma uid_map_Some rs u o : uid_map rs !! u = Some o -> exists e, e ∈ rs /\ event_uid e = Some u /\ se_offset e = o.
Proof.
  induction rs as [|e rs IH] using rev_ind; [done|]. rewrite uid_map_snoc. unfold index_event.
  destruct (event_uid e) as [u'|] eqn:He.
  - destruct (decide (u' = u)) as [-> |Hne].
    + rewrite lookup_insert_eq. intros [= <-]. exists e. by split; [set_solver|].
    + rewrite lookup_insert_ne by done. intros (e' & ? & ?)%IH. exists e'. by split; [set_solver|].
  - intros (e' & ? & ?)%IH. exists e'. by split; [set_solver|].
Qed.

Lemma uid_map_is_Some rs e u : e ∈ rs -> event_uid e = Some u -> is_Some (uid_map rs !! u).
Proof.
  induction rs as [|e' rs IH] using rev_ind; [by inversion 1|]. rewrite uid_map_snoc. unfold index_event.
  intros [Hin| ->%list_elem_of_singleton]%elem_of_app Hu.
  - destruct (event_uid e') as [u'|]; [|by apply IH]. destruct (decide (u' = u)) as [-> |?];
      [rewrite lookup_insert_eq; by eexists|rewrite lookup_insert_ne by done; by apply IH].
  - rewrite Hu, lookup_insert_eq. by eexists.
Qed.

Definition live_event (l : Live) (e : StoredEvent) : Live :=
  mkLive (match event_uid e with Some uid => {[uid]} ∪ lv_uids l | None => lv_uids l end)
    (Z.min (lv_min l) (se_offset e)) (Z.max (lv_max l) (se_offset e)) true (lv_unparseable l).

Lemma live_encode rs : Forall legible rs ->
  live_lines (lines_of (encode rs)) = fold_left live_event rs (mkLive ∅ u64_max 0 false 0).
Proof.
  intros Hrs. rewrite <- (app_nil_r (encode rs)), lines_of_encode by (done || constructor). rewrite app_nil_r.
  unfold live_lines. generalize (mkLive ∅ u64_max 0 false 0) as l.
  induction Hrs as [|e rs He Hrs IH]; intros l; cbn [map fold_left]; [done|]. rewrite (lg_utf8 _ He).
  rewrite <- IH. f_equal. unfold live_line. destruct (print_event e) eqn:Hp; [by destruct (lg_some _ He)|].
  rewrite <- Hp, (lg_read _ He). done.
Qed.

Lemma live_fold rs l : lv_unparseable (fold_left live_event rs l) = lv_unparseable l /\
  forall u, u ∈ lv_uids (fold_left live_event rs l) <-> u ∈ lv_uids l \/ exists e, e ∈ rs /\ event_uid e = Some u.
Proof.
  revert l. induction rs as [|e rs IH]; intros l; cbn [fold_left].
  { split; [done|]. intros u. split; [by left|]. by intros [?|(e & ?%elem_of_nil & _)]. }
  destruct (IH (live_event l e)) as [-> Hu]. split; [done|]. intros u. rewrite Hu. unfold live_event. cbn [lv_uids].
  setoid_rewrite elem_of_cons. destruct (event_uid e) as [u'|] eqn:He.
  - split; [|naive_solver set_solver]. intros [[-> %elem_of_singleton|?]%elem_of_union|(e' & ? & ?)]; naive_solver.
  - naive_solver.
Qed.

(** Recovery rebuilds the index of the records, whatever the sidecar says. *)
Lemma keep_live_index rs m : Forall legible rs ->
  keep_live (live_lines (lines_of (encode rs))) (fold_left index_event rs m) = uid_map rs.
Proof.
  intros Hrs. rewrite live_encode by done. set (l := mkLive _ _ _ _ _).
  destruct (live_fold rs l) as [Hun Hlive]. apply map_eq. intros u. unfold keep_live, offset_range. rewrite Hun.
  cbn [l lv_unparseable Z.eqb in_range]. apply option_eq. intros o. rewrite map_lookup_filter_Some, fold_index_lookup.
  cbn [fst]. rewrite orb_false_r, bool_decide_eq_true, Hlive. cbn [l lv_uids].
  destruct (uid_map rs !! u) as [o'|] eqn:Hu.
  - split; [by intros [? _]|]. intros [= ->]. split; [done|].
    apply uid_map_Some in Hu as (e & ? & ? & _). right. by exists e.
  - split; [|done]. intros [_ [?%not_elem_of_empty|(e & Hin & He)]]; [done|].
    destruct (uid_map_is_Some _ _ _ Hin He) as [? ?]. congruence.
Qed.

(** ** Visiting the lines *)

Lemma utf8_line e : legible e -> is_utf8 (print_event e ++ [10]) = true.
Proof. intros He. by rewrite decode_app by apply (lg_utf8 _ He). Qed.

Lemma trim_end_line l : newline_free l -> trim_end_matches 10 (l ++ [10]) = l.
Proof.
  unfold trim_end_matches. intros H. rewrite rev_app_distr. cbn [rev app trim_start_matches]. rewrite Z.eqb_refl.
  destruct (rev l) as [|c r] eqn:Hr; [by rewrite <- (rev_involutive l), Hr|]. cbn [trim_start_matches].
  assert (c <> 10) as Hc.
  { unfold newline_free in H. rewrite Forall_forall in H. apply H, list_elem_of_In, in_rev. rewrite Hr. by left. }
  by rewrite (proj2 (Z.eqb_neq _ _)), <- Hr, rev_involutive by done.
Qed.

Lemma segment_lines_encode path fuel rs : Forall legible rs -> (length (encode rs) < fuel)%nat ->
  segment_lines path fuel (encode rs) = (map print_event rs, None).
Proof.
  intros Hrs. revert fuel. induction Hrs as [|e rs He Hrs IH]; intros fuel Hf; (destruct fuel as [|fuel]; [lia|]); [done|].
  pose proof (encode_length e rs []) as Hlt. rewrite !app_nil_r in Hlt. cbn [segment_lines].
  rewrite <- (app_nil_r (encode (e :: rs))), read_line, app_nil_r by done.
  destruct (print_event e ++ [10]) as [|c0 l0] eqn:Hl; [by destruct (print_event e)|]. rewrite <- Hl.
  rewrite ends_line_snoc, utf8_line by done. cbn [negb andb]. rewrite IH by lia.
  rewrite trim_end_line by (apply text_no_newline, (lg_text _ He)). cbn [map].
  destruct (print_event e) eqn:Hp; [by destruct (lg_some _ He)|done].
Qed.

Definition expires (cutoff : Z) (e : StoredEvent) : bool := se_stored_at e <? cutoff.
Definition kept (cutoff : Z) (rs : list StoredEvent) : list StoredEvent := List.filter (fun e => negb (expires cutoff e)) rs.

Lemma is_expired_legible cutoff e : legible e -> is_expired cutoff (print_event e) = expires cutoff e.
Proof. intros He. unfold is_expired. by rewrite (lg_read _ He). Qed.

Lemma kept_lines cutoff rs : Forall legible rs ->
  List.concat (map terminated (List.filter (fun l => negb (is_expired cutoff l)) (map print_event rs))) = encode (kept cutoff rs).
Proof.
  induction 1 as [|e rs He Hrs IH]; [done|]. cbn [map List.filter kept]. rewrite is_expired_legible by done.
  destruct (negb (expires cutoff e)); cbn [map List.concat]; [|done]. unfold encode. cbn [map List.concat]. by rewrite IH.
Qed.

Lemma expired_lines cutoff rs : Forall legible rs ->
  omap (fun line => if is_expired cutoff line then se_offset <$> parse_event line else None) (map print_event rs) =
  map se_offset (List.filter (expires cutoff) rs).
Proof.
  induction 1 as [|e rs He Hrs IH]; [done|]. cbn [map List.filter omap list_omap].
  rewrite is_expired_legible, (lg_read _ He) by done. destruct (expires cutoff e); cbn [fmap option_fmap option_map map]; by rewrite IH.
Qed.

(** ** Fetching *)

Definition from_offset (offset : Z) (rs : list StoredEvent) : list StoredEvent :=
  List.filter (fun e => negb (se_offset e <? offset)) rs.

Lemma fetch_encode offset max rs : Forall legible rs -> (0 < max)%nat ->
  fetch_lines offset max (lines_of (encode rs)) = Ok (take max (from_offset offset rs)).
Proof.
  intros Hrs. rewrite <- (app_nil_r (encode rs)), lines_of_encode by (done || constructor). rewrite app_nil_r.
  revert max. induction Hrs as [|e rs He Hrs IH]; intros max Hmax; cbn [map fetch_lines from_offset List.filter]; [by destruct max|].
  rewrite (lg_utf8 _ He). cbn [negb]. destruct (print_event e) eqn:Hp; [by destruct (lg_some _ He)|].
  rewrite <- Hp, (lg_read _ He). destruct (se_offset e <? offset); [by apply IH|]. cbn [negb].
  destruct max as [|[|max]]; [lia|by destruct (List.filter _ _)|]. rewrite IH by lia. done.
Qed.

Lemma tail_encode fuel offset max rs tail : Forall legible rs -> torn_tail tail ->
  (length (encode rs ++ tail) < fuel)%nat ->
  tail_events fuel offset max (encode rs ++ tail) = take max (from_offset offset rs).
Proof.
  intros Hrs Ht. revert fuel max. induction Hrs as [|e rs He Hrs IH]; intros fuel max Hf; (destruct fuel as [|fuel]; [lia|]).
  - destruct max as [|max]; [done|]. cbn [encode map List.concat app tail_events]. rewrite read_tail by done.
    destruct Ht as [Hn _]. by rewrite ends_line_tail.
  - pose proof (encode_length e rs tail). destruct max as [|max]; [done|]. cbn [tail_events]. rewrite read_line by done.
    rewrite ends_line_snoc. cbn [negb]. rewrite removelast_last. cbn [from_offset List.filter].
    destruct (print_event e) eqn:Hp; [by destruct (lg_some _ He)|]. rewrite <- Hp, (lg_read _ He).
    destruct (se_offset e <? offset); cbn [negb]; [apply IH; lia|]. cbn [take]. f_equal. apply IH. lia.
Qed.
End Segment.
