(* ===== verification/EventLogCrash.v ===== *)
(** What every image of the files of a partition satisfies while an operation runs: a small
    logic of triples with a postcondition for errors and one for the death of the process,
    and the crash invariant of the embedded log. *)

From Stdlib Require Import Sorting.Sorted.
From S2P Require Import Prelude Rust CoreBase Json Disk EventLog EventLogProofs.

(** * Triples *)

Definition Assertion : Type := PartDisk -> Partition -> Prop.

(** From a state of [P], [m] returns into [Q], fails into [E] or dies in [D]. *)
Definition spec {A} (P : Assertion) (m : Io A) (Q : A -> Assertion) (E D : Assertion) : Prop :=
  forall st, P (ps_disk st) (ps_part st) ->
  match m st with
  | (st', Ret a) => Q a (ps_disk st') (ps_part st')
  | (st', Throw _) => E (ps_disk st') (ps_part st')
  | (st', Dead) => D (ps_disk st') (ps_part st')
  end.

Lemma spec_conseq {A} (P P' : Assertion) (m : Io A) (Q Q' : A -> Assertion) (E E' D D' : Assertion) :
  spec P' m Q' E' D' -> (forall d p, P d p -> P' d p) -> (forall a d p, Q' a d p -> Q a d p) ->
  (forall d p, E' d p -> E d p) -> (forall d p, D' d p -> D d p) -> spec P m Q E D.
Proof. intros H HP HQ HE HD st Hst. specialize (H st (HP _ _ Hst)). destruct (m st) as [st' [a|e|]]; auto. Qed.

Lemma spec_from {A} (P P' : Assertion) (m : Io A) (Q : A -> Assertion) (E D : Assertion) :
  (forall d p, P d p -> P' d p) -> spec P' m Q E D -> spec P m Q E D.
Proof. intros HP H st Hst. apply H, HP, Hst. Qed.

Lemma spec_fact {A} (F : Prop) (P : Assertion) (m : Io A) (Q : A -> Assertion) (E D : Assertion) :
  (forall d p, P d p -> F) -> (F -> spec P m Q E D) -> spec P m Q E D.
Proof. intros HF H st Hst. by apply H; [eapply HF|]. Qed.

Lemma spec_ret {A} (a : A) (P E D : Assertion) (Q : A -> Assertion) :
  (forall d p, P d p -> Q a d p) -> spec P (pret a) Q E D.
Proof. intros H st Hst. by apply H. Qed.

Lemma spec_throw {A} e (P E D : Assertion) (Q : A -> Assertion) :
  (forall d p, P d p -> E d p) -> spec P (pthrow e) Q E D.
Proof. intros H st Hst. by apply H. Qed.

Lemma spec_bind {A B} (P : Assertion) (m : Io A) (k : A -> Io B) (R : A -> Assertion) (Q : B -> Assertion) (E D : Assertion) :
  spec P m R E D -> (forall a, spec (R a) (k a) Q E D) -> spec P (pbind m k) Q E D.
Proof.
  intros Hm Hk st Hst. specialize (Hm st Hst). unfold pbind. destruct (m st) as [st' [a|e|]]; [|done|done].
  by apply Hk.
Qed.

Lemma spec_assoc {A B C} (P : Assertion) (m : Io A) (n : Io B) (k : Io C) (Q : C -> Assertion) (E D : Assertion) :
  spec P (pbind (pbind m (fun _ => n)) (fun _ => k)) Q E D -> spec P (pbind m (fun _ => pbind n (fun _ => k))) Q E D.
Proof.
  intros H st Hst. specialize (H st Hst). unfold pbind in *. by destruct (m st) as [st' [a|e|]].
Qed.

Lemma spec_attempt {A} (P : Assertion) (m : Io A) (Q : A -> Assertion) (R : result A BusError -> Assertion) (E E' D : Assertion) :
  spec P m Q E D -> (forall a d p, Q a d p -> R (Ok a) d p) -> (forall e d p, E d p -> R (Err e) d p) ->
  spec P (attempt m) R E' D.
Proof.
  intros Hm HQ HE st Hst. specialize (Hm st Hst). unfold attempt. destruct (m st) as [st' [a|e|]]; [by apply HQ|by apply HE|done].
Qed.

Lemma spec_look {A} (f : PartDisk -> A) (P E D : Assertion) (Q : A -> Assertion) :
  (forall d p, P d p -> Q (f d) d p) -> spec P (look f) Q E D.
Proof. intros H st Hst. by apply H. Qed.

Lemma spec_part (P E D : Assertion) (Q : Partition -> Assertion) :
  (forall d p, P d p -> Q p d p) -> spec P the_part Q E D.
Proof. intros H st Hst. by apply H. Qed.

Lemma spec_set f (P E D : Assertion) (Q : unit -> Assertion) :
  (forall d p, P d p -> Q tt d (f p)) -> spec P (set_part f) Q E D.
Proof. intros H st Hst. by apply H. Qed.

Lemma spec_when b (m : Io unit) (P E D : Assertion) (Q : unit -> Assertion) :
  (b = true -> spec P m Q E D) -> (b = false -> forall d p, P d p -> Q tt d p) -> spec P (pwhen b m) Q E D.
Proof. intros Ht Hf. destruct b; [by apply Ht|]. apply spec_ret. by apply Hf. Qed.

Lemma spec_pre {A} (F : Prop) (P E D : Assertion) (m : Io A) (Q : A -> Assertion) :
  (F -> spec P m Q E D) -> spec (fun d p => F /\ P d p) m Q E D.
Proof. intros H st [HF Hst]. by apply H. Qed.

Lemma spec_any {A} (X : Type) (P : X -> Assertion) (E D : Assertion) (m : Io A) (Q : A -> Assertion) :
  (forall x, spec (P x) m Q E D) -> spec (fun d p => exists x, P x d p) m Q E D.
Proof. intros H st [x Hst]. by apply (H x). Qed.

Section Triples.
Context {EJ : EventJson} (fate : IoOp -> nat -> IoFate).

Definition faulty : Prop := exists op n, fate op n <> Done.

Lemma spec_io op f (P E D : Assertion) (Q : unit -> Assertion) :
  (forall d p, P d p -> Q tt (f Done d) p) ->
  (forall n e d p, faulty -> P d p -> E (f (Fails n e) d) p) ->
  (forall n d p, faulty -> P d p -> D (f (Dies n) d) p) ->
  spec P (io fate op f) Q E D.
Proof.
  intros HQ HE HD st Hst. unfold io.
  assert (fate op (ps_ticks st) <> Done -> faulty) as Hf by (intros ?; by exists op, (ps_ticks st)).
  destruct (fate op (ps_ticks st)) as [|n e|n]; cbn; [by apply HQ|apply HE|apply HD]; try (by apply Hf); done.
Qed.

(** The same when it does not matter how the operation stops. *)
Lemma spec_io_any op f (P E D : Assertion) (Q : unit -> Assertion) :
  (forall d p, P d p -> Q tt (f Done d) p) ->
  (forall stop d p, stop <> Done -> faulty -> P d p -> E (f stop d) p /\ D (f stop d) p) ->
  spec P (io fate op f) Q E D.
Proof. intros HQ HE. apply spec_io; [done|intros n e|intros n]; intros d p Hf Hd; by apply HE. Qed.

(** ** Steps that leave the segment, the watermark and the cold objects alone *)

Definition slot_eases (s s' : Slot) : Prop := s' = s \/ s' = settle_entry s.
Definition eases (d d' : PartDisk) : Prop :=
  slot_eases (pd_segment d) (pd_segment d') /\ slot_eases (pd_watermark d) (pd_watermark d') /\ pd_cold d' = pd_cold d.

Lemma eases_refl d : eases d d.
Proof. by repeat split; try left. Qed.

Definition stable (I : Assertion) : Prop := forall d d' p, eases d d' -> I d p -> I d' p.

Lemma stable_and I J : stable I -> stable J -> stable (fun d p => I d p /\ J d p).
Proof. intros HI HJ d d' p He [??]. split; [by eapply HI|by eapply HJ]. Qed.

Lemma stable_part (J : Partition -> Prop) : stable (fun _ p => J p).
Proof. by intros d d' p _. Qed.

(** A program that keeps every stable assertion, wherever it stops, and stops early only
    for a fault. *)
Definition calm {A} (m : Io A) : Prop := forall I, stable I ->
  spec I m (fun _ => I) (fun d p => faulty /\ I d p) (fun d p => faulty /\ I d p).

Lemma calm_ret {A} (a : A) : calm (pret a).
Proof. intros I HI. by apply spec_ret. Qed.

Lemma calm_bind {A B} (m : Io A) (k : A -> Io B) : calm m -> (forall a, calm (k a)) -> calm (pbind m k).
Proof. intros Hm Hk I HI. eapply spec_bind; [by apply Hm|]. intros a. by apply Hk. Qed.

Lemma calm_io op f : (forall stop d, eases d (f stop d)) -> calm (io fate op f).
Proof. intros Hf I HI. apply spec_io_any; [intros d p; by apply HI|]. intros stop d p _ ? Hd. split; (split; [done|]); by eapply HI. Qed.

Lemma calm_look {A} (f : PartDisk -> A) : calm (look f).
Proof. intros I HI. by apply spec_look. Qed.

Lemma calm_when b (m : Io unit) : calm m -> calm (pwhen b m).
Proof. intros Hm. destruct b; [done|]. apply calm_ret. Qed.

Lemma calm_nop op : calm (io_nop fate op).
Proof. apply calm_io. intros _ d. apply eases_refl. Qed.

Lemma calm_sidecar op (g : IoFate -> Slot -> Slot) : calm (io fate op (fun stop => on_sidecar (g stop))).
Proof. apply calm_io. intros stop d. by repeat split; try left. Qed.

Lemma calm_sidecar_if op (g : (PartDisk -> PartDisk) -> IoFate -> PartDisk -> PartDisk) (f : Slot -> Slot) :
  (forall h stop d, g h stop d = d \/ g h stop d = h d) -> calm (io fate op (g (on_sidecar f))).
Proof.
  intros Hg. apply calm_io. intros stop d. destruct (Hg (on_sidecar f) stop d) as [-> | ->]; [apply eases_refl|].
  by repeat split; try left.
Qed.

Lemma on_success_cases f stop d : on_success f stop d = d \/ on_success f stop d = f d.
Proof. destruct stop; (by left) || (by right). Qed.
Lemma on_success_stops f stop d : stop <> Done -> on_success f stop d = d.
Proof. by destruct stop. Qed.
Lemma all_or_nothing_cases f stop d : all_or_nothing f stop d = d \/ all_or_nothing f stop d = f d.
Proof. destruct stop as [|[|n] e|[|n]]; (by left) || (by right). Qed.
Lemma renames_cases f stop d : renames f stop d = d \/ renames f stop d = f d.
Proof. destruct stop as [|n e|[|n]]; (by left) || (by right). Qed.

Lemma calm_sync_directory : calm (sync_directory fate).
Proof.
  apply calm_io. intros stop d. destruct (on_success_cases settle_topic stop d) as [-> | ->]; [apply eases_refl|].
  by repeat split; try right.
Qed.

Lemma calm_read which : calm (read_bytes fate which).
Proof. apply calm_bind; [apply calm_nop|]. intros _. apply calm_look. Qed.

Lemma calm_rewrite_sidecar data : calm (rewrite_atomic fate on_sidecar data).
Proof.
  unfold rewrite_atomic, replace. repeat (apply calm_bind; [apply calm_nop|intros _] || (apply calm_bind; [|intros _])).
  2: apply calm_sync_directory. repeat (apply calm_bind; [apply calm_nop|intros _]).
  apply calm_sidecar_if, renames_cases.
Qed.

Lemma calm_recover_event_uids : calm (recover_event_uids fate).
Proof.
  unfold recover_event_uids. apply calm_bind; [apply calm_look|]. intros [|]; cbn [negb]; [|apply calm_ret].
  apply calm_bind; [apply calm_read|]. intros found. cbv zeta. destruct (scan_uids _ _ _ _) as [[seen valid] torn].
  apply calm_bind; [|intros _; apply calm_ret]. apply calm_when. apply calm_bind; [apply calm_read|].
  intros again. apply calm_rewrite_sidecar.
Qed.

Lemma calm_append_sidecar uid offset : calm (append_sidecar fate uid offset).
Proof.
  unfold append_sidecar, open_create, write_to, sync_of. apply calm_bind; [apply calm_look|]. intros present.
  apply calm_bind; [apply calm_sidecar_if, all_or_nothing_cases|intros _].
  apply calm_bind; [apply (calm_sidecar OpWrite (fun stop => on_file (append_data
    (written stop (print_mapping uid offset)))))|intros _].
  apply calm_bind; [apply (calm_sidecar OpWrite (fun stop => on_file (append_data
    (written stop [10]))))|intros _].
  apply calm_bind; [apply calm_sidecar_if, on_success_cases|intros _]. apply calm_when, calm_sync_directory.
Qed.

(** A calm program between two assertions that it keeps. *)
Lemma spec_calm {A} (I E D : Assertion) (m : Io A) (Q : A -> Assertion) : calm m -> stable I ->
  (forall a d p, I d p -> Q a d p) -> (forall d p, faulty -> I d p -> E d p /\ D d p) -> spec I m Q E D.
Proof.
  intros Hm HI HQ HE. eapply spec_conseq; [by apply Hm|done|by intros a d p; apply HQ|..]; intros d p [??]; by apply HE.
Qed.
End Triples.

(** * The crash invariant *)

Section Crash.
Context {EJ : EventJson}.
(** Whether the topic has a cold tier; the records acknowledged so far; the latest time
    that a retention pass was asked to drop records before. *)
Context (cold : bool) (acked : list StoredEvent) (dropped : Z).

Notation ColdStore := (gmap str Slot).

(** The cold copy of a record outlives a power loss. *)
Definition archived (c : ColdStore) (e : StoredEvent) : Prop :=
  forall o, o ∈ images (default no_file (c !! cold_name e)) -> o = Some (print_event e).

(** Cold objects are complete under their names. *)
Definition cold_ok (c : ColdStore) : Prop := forall name s, c !! name = Some s -> exists o, sl_file s = on_disk <$> o.

Definition watermark_is (w : option (list Z)) (k : Z) : Prop :=
  0 <= k <= u64_max /\ match w with None => k = 0 | Some data => data = fmt_int k end.

(** The records of a segment, and the next offset that a recovery of it finds. *)
Record Sound (c : ColdStore) (rs : list StoredEvent) (n : Z) : Prop := {
  so_legible : Forall legible rs;
  so_size : Z.of_nat (length (encode rs)) <= u64_max;
  so_sorted : StronglySorted (fun a b => se_offset a < se_offset b) rs;
  so_range : Forall (fun e => 0 <= se_offset e < n) rs;
  so_next : 0 <= n <= u64_max;
  so_uids : forall a b u, a ∈ rs -> b ∈ rs -> event_uid a = Some u -> event_uid b = Some u -> a = b;
  so_acked : forall a, a ∈ acked -> se_offset a < n;
  so_kept : forall a, a ∈ acked -> a ∈ rs \/ se_stored_at a < dropped /\ (cold = true -> archived c a);
  so_agree : forall a b, a ∈ acked -> b ∈ acked \/ b ∈ rs -> se_offset a = se_offset b -> a = b;
}.

(** What a recovery finds in an image of the segment and one of the watermark. *)
Definition Readable (c : ColdStore) (o w : option (list Z)) : Prop :=
  exists rs tail k, default [] o = encode rs ++ tail /\ torn_tail tail /\ watermark_is w k /\
    Sound c rs (Z.max (seg_next rs) k).

(** The crash invariant. *)
Definition Recoverable (d : PartDisk) : Prop :=
  cold_ok (pd_cold d) /\ forall o w, o ∈ images (pd_segment d) -> w ∈ images (pd_watermark d) -> Readable (pd_cold d) o w.

(** A partition that accepts events. *)
Record Running (rs : list StoredEvent) (d : PartDisk) (p : Partition) : Prop := {
  ru_segment : pd_segment d = slot_of (Some (encode rs));
  ru_healthy : poisoned p = None;
  ru_seen : seen_event_uids p = uid_map rs;
  ru_sound : Sound (pd_cold d) rs (next_offset p);
  ru_cold : cold_ok (pd_cold d);
  ru_mark : forall w, w ∈ images (pd_watermark d) -> exists k, watermark_is w k /\ Z.max (seg_next rs) k = next_offset p;
}.

(** ** Facts about the records *)

Lemma seg_next_snoc rs e : seg_next (rs ++ [e]) = Z.max (seg_next rs) (sat_add (se_offset e) 1).
Proof. unfold seg_next. by rewrite fold_left_app. Qed.

Lemma seg_next_bound rs n : Forall (fun e => 0 <= se_offset e < n) rs -> 0 <= n <= u64_max -> 0 <= seg_next rs <= n.
Proof.
  intros H Hn. induction rs as [|e rs IH] using rev_ind; [cbn; lia|]. rewrite seg_next_snoc.
  apply Forall_app in H as [H He]. apply Forall_cons in He as [He _]. specialize (IH H). unfold sat_add. lia.
Qed.

Lemma elem_of_kept cutoff rs e : e ∈ kept cutoff rs <-> e ∈ rs /\ expires cutoff e = false.
Proof. unfold kept. rewrite list_elem_of_In, filter_In, <- list_elem_of_In, negb_true_iff. done. Qed.

Lemma filter_sorted (f : StoredEvent -> bool) rs : StronglySorted (fun a b => se_offset a < se_offset b) rs ->
  StronglySorted (fun a b => se_offset a < se_offset b) (List.filter f rs).
Proof.
  induction 1 as [|e rs Hs IH Hall]; cbn [List.filter]; [constructor|]. destruct (f e); [|done]. constructor; [done|].
  rewrite Forall_forall in Hall |- *. intros x. rewrite list_elem_of_In, filter_In, <- list_elem_of_In. intros [? _]. by apply Hall.
Qed.

Lemma sorted_unique rs a b : StronglySorted (fun a b => se_offset a < se_offset b) rs ->
  a ∈ rs -> b ∈ rs -> se_offset a = se_offset b -> a = b.
Proof.
  induction 1 as [|e rs Hs IH Hall]; [by intros ?%elem_of_nil|]. rewrite Forall_forall in Hall.
  intros [-> |Ha]%elem_of_cons [-> |Hb]%elem_of_cons; intros He; [done| | |by apply IH].
  - specialize (Hall _ Hb). cbn in Hall. lia.
  - specialize (Hall _ Ha). cbn in Hall. lia.
Qed.

Lemma encode_kept_length cutoff rs : (length (encode (kept cutoff rs)) <= length (encode rs))%nat.
Proof.
  unfold encode, kept. induction rs as [|e rs IH]; [done|]. cbn [List.filter map List.concat].
  destruct (negb (expires cutoff e)); cbn [map List.concat]; rewrite !length_app; lia.
Qed.

(** The uid of a record with a sound segment leads to its offset. *)
Lemma uid_map_lookup c rs n e u : Sound c rs n -> e ∈ rs -> event_uid e = Some u -> uid_map rs !! u = Some (se_offset e).
Proof.
  intros Hs Hin Hu. destruct (uid_map_is_Some _ _ _ Hin Hu) as [o Ho]. rewrite Ho.
  apply uid_map_Some in Ho as (e' & Hin' & Hu' & <-). do 2 f_equal. by eapply so_uids.
Qed.

(** ** Preservation *)

Lemma torn_nil : torn_tail [].
Proof. by split; [constructor|]. Qed.

Lemma running_recoverable rs d p : Running rs d p -> Recoverable d.
Proof.
  intros [Hseg _ _ Hs Hc Hw]. split; [done|]. intros o w Ho Hwm. rewrite Hseg in Ho.
  apply list_elem_of_singleton in Ho as ->. destruct (Hw _ Hwm) as (k & Hk & Hmax).
  exists rs, [], k. cbn. rewrite app_nil_r, Hmax. split_and!; try done. apply torn_nil.
Qed.

Lemma slot_eases_images s s' o : slot_eases s s' -> o ∈ images s' -> o ∈ images s.
Proof. intros [-> | ->]; [done|]. unfold images. cbn. rewrite elem_of_app. by right. Qed.

Lemma recoverable_stable : stable (fun d _ => Recoverable d).
Proof.
  intros d d' _ (Hs & Hw & Hc) [Hok H]. unfold Recoverable. rewrite Hc. split; [done|].
  intros o w Ho Hwm. apply H; by eapply slot_eases_images.
Qed.

Lemma running_stable rs : stable (Running rs).
Proof.
  intros d d' p (Hs & Hw & Hc) [Hseg Hp Hseen Hso Hok Hmark]. split; rewrite ?Hc; try done.
  - destruct Hs as [-> | ->]; rewrite Hseg; done.
  - intros w Hin. apply Hmark. by eapply slot_eases_images.
Qed.

(** Cold stores grow: what is archived stays so. *)
Definition cold_grows (c c' : ColdStore) : Prop := forall e, archived c e -> archived c' e.

Lemma sound_grows c c' rs n : cold_grows c c' -> Sound c rs n -> Sound c' rs n.
Proof.
  intros Hg [? ? ? ? ? ? ? Hk ?]. split; try done. intros a Ha. destruct (Hk a Ha) as [?|[? H]]; [by left|right].
  split; [done|]. intros Hc. apply Hg, H, Hc.
Qed.

(** The bytes that a record adds, all or some of them. *)
Lemma readable_append c rs e j w k : Sound c rs (Z.max (seg_next rs) k) -> Sound c (rs ++ [e]) (Z.max (seg_next (rs ++ [e])) k) ->
  legible e -> watermark_is w k -> Readable c (Some (encode rs ++ take j (terminated (print_event e)))) w.
Proof.
  intros Hs Hs' He Hw. destruct (decide (length (terminated (print_event e)) <= j)%nat) as [Hj|Hj].
  - exists (rs ++ [e]), [], k. cbn [default]. rewrite take_ge by done. split_and!; try done; [|apply torn_nil].
    rewrite encode_app, app_nil_r. unfold encode at 3. cbn [map List.concat]. by rewrite app_nil_r.
  - exists rs, (take j (print_event e)), k. unfold terminated in *. rewrite length_app in Hj. cbn in Hj.
    rewrite take_app_le by lia. split_and!; try done. split; [apply Forall_take, text_no_newline, (lg_text _ He)|].
    pose proof (lg_size _ He). rewrite length_take. lia.
Qed.

Lemma sound_snoc c rs n e : Sound c rs n -> legible e -> se_offset e = n -> n + 1 <= u64_max ->
  Z.of_nat (length (encode rs)) + Z.of_nat (length (terminated (print_event e))) <= u64_max ->
  (forall u, event_uid e = Some u -> uid_map rs !! u = None) -> Sound c (rs ++ [e]) (n + 1).
Proof.
  intros Hs He Ho Hn Hlen Hfresh. pose proof Hs as [Hl Hsz Hso Hr Hnx Hu Ha Hk Hag].
  assert (Hnew : forall a u, a ∈ rs -> event_uid a = Some u -> event_uid e = Some u -> False).
  { intros a u Hin Hau Heu. pose proof (uid_map_lookup _ _ _ _ _ Hs Hin Hau). rewrite Hfresh in * by done. done. }
  split.
  - apply Forall_app. split; [done|by apply Forall_singleton].
  - rewrite encode_app, length_app. unfold encode at 2. cbn [map List.concat]. rewrite app_nil_r. lia.
  - clear -Hso Hr Ho. induction Hso as [|a rs Hso IH Hall]; cbn [app]; [by repeat constructor|].
    apply Forall_cons in Hr as [Ha Hr]. constructor; [by apply IH|]. apply Forall_app. split; [done|]. constructor; [lia|constructor].
  - apply Forall_app. split; [|constructor; [lia|constructor]]. eapply Forall_impl; [exact Hr|]. cbn. lia.
  - lia.
  - intros a b u. rewrite !elem_of_app, !list_elem_of_singleton. intros [Hin| ->] [Hin'| ->] Hua Hub; [by eapply Hu|..].
    + by destruct (Hnew a u).
    + by destruct (Hnew b u).
    + done.
  - intros a Hin. specialize (Ha a Hin). lia.
  - intros a Hin. destruct (Hk a Hin) as [?|?]; [left|by right]. rewrite elem_of_app. by left.
  - intros a b Hin. rewrite elem_of_app, list_elem_of_singleton. intros [Hb|[Hb| ->]] Heq; [apply Hag; auto..|].
    specialize (Ha a Hin). lia.
Qed.

Lemma sound_kept c rs n cutoff : Sound c rs n -> cutoff <= dropped ->
  (cold = true -> forall e, e ∈ rs -> expires cutoff e = true -> archived c e) -> Sound c (kept cutoff rs) n.
Proof.
  intros [Hl Hsz Hso Hr Hnx Hu Ha Hk Hag] Hcut Harch.
  assert (Hsub : forall (Q : StoredEvent -> Prop), Forall Q rs -> Forall Q (kept cutoff rs)).
  { intros Q. rewrite !Forall_forall. intros H x [Hx _]%elem_of_kept. by apply H. }
  split; try done.
  - by apply Hsub.
  - pose proof (encode_kept_length cutoff rs). lia.
  - by apply filter_sorted.
  - by apply Hsub.
  - intros a b u [? _]%elem_of_kept [? _]%elem_of_kept. by apply Hu.
  - intros a Hin. destruct (Hk a Hin) as [Hrs|?]; [|by right]. rewrite elem_of_kept.
    destruct (expires cutoff a) eqn:He; [right|by left]. split; [|by intros ?; apply Harch].
    unfold expires in He. lia.
  - intros a b Hin [?|[? _]%elem_of_kept]; apply Hag; auto.
Qed.
End Crash.
