(* ===== verification/EventLogOps.v ===== *)
(** Opening, publishing and retention preserve the crash invariant of the embedded log,
    wherever they stop. *)

From Stdlib Require Import Sorting.Sorted.
From S2P Require Import Prelude Rust CoreBase Json Disk EventLog EventLogProofs EventLogCrash.

Section Ops.
Context {EJ : EventJson} (fate : IoOp -> nat -> IoFate).
Context (cold : bool) (acked : list StoredEvent) (dropped : Z).

Notation Running := (Running cold acked dropped).
Notation Recoverable := (Recoverable cold acked dropped).
Notation Sound := (Sound cold acked dropped).

(** After an error the partition still runs, or it is poisoned and its files recoverable. *)
Definition Failed (rs : list StoredEvent) : Assertion := fun d p =>
  Running rs d p \/ poisoned p <> None /\ Recoverable d.
Definition Died : Assertion := fun d _ => Recoverable d.

Lemma running_died rs d p : Running rs d p -> Died d p.
Proof. apply running_recoverable. Qed.

(** ** Appending *)

Section Append.
Context (rs : list StoredEvent) (r : StoredEvent) (p0 : Partition).
Context (Hlegible : legible r) (Hoffset : se_offset r = next_offset p0) (Hmax : next_offset p0 + 1 <= u64_max).
Context (Hsize : Z.of_nat (length (encode rs)) + Z.of_nat (length (terminated (print_event r))) <= u64_max).
Context (Hfresh : forall u, event_uid r = Some u -> uid_map rs !! u = None).

Definition before (d : PartDisk) : PartDisk := on_segment (fun _ => slot_of (Some (encode rs))) d.

(** The segment ends in [l], a prefix of the record's bytes; its images in others. *)
Definition Appending (l : list Z) : Assertion := fun d p => p = p0 /\ Running rs (before d) p0 /\
  exists a, pd_segment d = mkSlot (Some a) [] /\ latest a = encode rs ++ l /\
    forall b, b ∈ contents a -> exists j, b = encode rs ++ take j (terminated (print_event r)).

Lemma running_appending d : Running rs d p0 -> Appending [] d p0.
Proof.
  intros H. pose proof (ru_segment _ _ _ _ _ _ H) as Hseg. destruct d as [s w sc c]. cbn in Hseg. subst s.
  split_and!; [done|done|]. eexists. split_and!; [reflexivity|by cbn; rewrite app_nil_r|].
  intros b ->%list_elem_of_singleton. exists 0%nat. by rewrite take_0, app_nil_r.
Qed.

Lemma appended_sound d : Running rs d p0 -> Sound (pd_cold d) (rs ++ [r]) (next_offset p0 + 1) /\
  forall w, w ∈ images (pd_watermark d) -> exists k, watermark_is w k /\ Z.max (seg_next rs) k = next_offset p0 /\
    Z.max (seg_next (rs ++ [r])) k = next_offset p0 + 1.
Proof.
  intros [_ _ _ Hs _ Hm]. split; [by apply sound_snoc|]. intros w Hw. destruct (Hm w Hw) as (k & Hk & He).
  exists k. split_and!; [done|done|]. rewrite seg_next_snoc. unfold sat_add. lia.
Qed.

Lemma appending_recoverable l d p : Appending l d p -> Recoverable d.
Proof.
  intros (_ & Hr & a & Hseg & _ & Himg). destruct (appended_sound _ Hr) as [Hs' Hm]. split; [apply (ru_cold _ _ _ _ _ _ Hr)|].
  intros o w Ho Hw. rewrite Hseg in Ho. unfold images in Ho. cbn in Ho. apply list_elem_of_fmap in Ho as (b & -> & Hb).
  destruct (Himg b Hb) as [j ->]. destruct (Hm w Hw) as (k & Hk & He & He').
  apply (readable_append _ _ _ (pd_cold d) rs r j w k); rewrite ?He, ?He'; try done. apply (ru_sound _ _ _ _ _ _ Hr).
Qed.

Lemma appending_write l data rest : terminated (print_event r) = l ++ data ++ rest ->
  spec (Appending l) (write_to fate on_segment data) (fun _ => Appending (l ++ data))
    (fun d p => exists l', Appending l' d p) (fun d p => exists l', Appending l' d p).
Proof.
  intros Ht. assert (Hstep : forall n d p, Appending l d p ->
    Appending (l ++ take n data) (on_segment (on_file (append_data (take n data))) d) p).
  { intros n d p (-> & Hr & a & Hseg & Hl & Himg). split_and!; [done|by destruct d|].
    exists (append_data (take n data) a). split_and!; [cbn; by rewrite Hseg|cbn; by rewrite Hl, <- app_assoc|].
    intros b [Hb|Hb]%elem_of_app; cbn in Hb.
    - apply elem_of_app in Hb as [Hb|(k & -> & Hk)%list_elem_of_fmap].
      { apply Himg. unfold contents. rewrite elem_of_app. by left. }
      apply elem_of_seq in Hk. rewrite length_take in Hk. exists (length l + k `min` n)%nat.
      rewrite Hl, Ht, <- app_assoc, take_app_add, take_take, take_app_le by lia. done.
    - apply list_elem_of_singleton in Hb as ->. exists (length l + length (take n data))%nat.
      rewrite Hl, Ht, <- app_assoc, take_app_add, take_app_le by (rewrite length_take; lia).
      rewrite length_take. destruct (Nat.min_spec n (length data)) as [[? ->]|[? ->]]; [done|by rewrite !take_ge by lia]. }
  assert (Hany : forall stop d p, Appending l d p ->
    Appending (l ++ written stop data) (on_segment (on_file (append_data (written stop data))) d) p).
  { intros [|n e|n] d p; [rewrite <- (take_ge data (length data)) by lia|..]; apply Hstep. }
  apply spec_io_any; [apply (Hany Done)|]. intros stop d p _ _ Hd. specialize (Hany stop d p Hd). split; by eexists.
Qed.

Lemma appending_sync l : spec (Appending l) (sync_of fate on_segment)
  (fun _ d p => p = p0 /\ Running rs (before d) p0 /\ pd_segment d = slot_of (Some (encode rs ++ l)))
  (Appending l) (Appending l).
Proof.
  apply spec_io_any.
  - intros d p (-> & Hr & a & Hseg & Hl & _). split_and!; [done|by destruct d|]. cbn. rewrite Hseg. cbn.
    unfold on_file, flush_data. cbn. by rewrite Hl.
  - intros stop d p Hstop _ H. by rewrite on_success_stops.
Qed.

Lemma appending_shorten l : spec (Appending l) (set_len fate (length (encode rs))) (fun _ => Appending [])
  (fun d p => exists l', Appending l' d p) (fun d p => exists l', Appending l' d p).
Proof.
  assert (Hstep : forall d p, Appending l d p -> Appending [] (on_segment (on_file (shorten (length (encode rs)))) d) p).
  { intros d p (-> & Hr & a & Hseg & Hl & Himg). split_and!; [done|by destruct d|].
    exists (shorten (length (encode rs)) a). split_and!; [cbn; by rewrite Hseg|cbn; by rewrite Hl, take_app_length, app_nil_r|].
    intros b [Hb|Hb]%elem_of_app; [by apply Himg|]. apply list_elem_of_singleton in Hb as ->. exists 0%nat.
    cbn. by rewrite Hl, take_app_length, app_nil_r. }
  apply spec_io_any; [exact Hstep|]. intros stop d p _ _ Hd.
  destruct (all_or_nothing_cases (on_segment (on_file (shorten (length (encode rs))))) stop d) as [-> | ->];
    split; eexists; eauto.
Qed.

(** The append, then its repair when it fails. *)
Definition append_record : Io unit :=
  write_to fate on_segment (print_event r) ;% write_to fate on_segment [10] ;% sync_of fate on_segment.
Definition repair_append : Io unit := set_len fate (length (encode rs)) ;% sync_of fate on_segment.

Definition SomeAppending : Assertion := fun d p => exists l, Appending l d p.

Lemma running_before d p : Running rs (before d) p -> pd_segment d = slot_of (Some (encode rs)) -> Running rs d p.
Proof. unfold before, on_segment. intros H Hseg. rewrite <- Hseg in H. by destruct d. Qed.

(** The record is on the disk; the partition does not know it yet. *)
Definition Appended : Assertion := fun d p =>
  p = p0 /\ Running rs (before d) p0 /\ pd_segment d = slot_of (Some (encode (rs ++ [r]))).

Lemma append_spec : spec (fun d p => p = p0 /\ Running rs d p0) append_record (fun _ => Appended)
  SomeAppending SomeAppending.
Proof.
  apply (spec_from _ (Appending [])); [intros d p [-> Hr]; by apply running_appending|].
  eapply spec_bind; [by apply (appending_write [] (print_event r) [10])|intros []].
  eapply spec_bind; [by apply (appending_write _ [10] []); rewrite app_nil_r|intros []].
  eapply spec_conseq; [apply appending_sync|done| |by eexists..].
  intros _ d p (-> & Hr & Hseg). split_and!; [done|done|]. rewrite Hseg, encode_app. unfold encode at 3.
  cbn [map List.concat]. unfold terminated. by rewrite app_nil_r.
Qed.

Lemma repair_spec : spec SomeAppending repair_append
  (fun _ d p => p = p0 /\ Running rs d p0) SomeAppending SomeAppending.
Proof.
  apply spec_any. intros l. eapply spec_bind; [apply appending_shorten|intros []].
  eapply spec_conseq; [apply appending_sync|done| |by eexists..].
  intros _ d p (-> & Hr & Hseg). split; [done|]. apply running_before; [done|]. by rewrite app_nil_r in Hseg.
Qed.

(** The partition after the append. *)
Definition advance (p : Partition) : Partition :=
  mkPartition (match event_uid r with Some u => <[u := se_offset r]> (seen_event_uids p) | None => seen_event_uids p end)
    (next_offset p + 1) (poisoned p).

Lemma appended_running d : Running rs (before d) p0 -> pd_segment d = slot_of (Some (encode (rs ++ [r]))) ->
  Running (rs ++ [r]) d (advance p0).
Proof.
  intros Hr Hseg. destruct (appended_sound _ Hr) as [Hs Hm]. split; try done.
  - apply (ru_healthy _ _ _ _ _ _ Hr).
  - cbn. by rewrite uid_map_snoc, (ru_seen _ _ _ _ _ _ Hr).
  - apply (ru_cold _ _ _ _ _ _ Hr).
  - intros w Hw. destruct (Hm w Hw) as (k & ? & _ & ?). by exists k.
Qed.

Lemma appended_dies d : Running rs (before d) p0 -> pd_segment d = slot_of (Some (encode (rs ++ [r]))) -> Recoverable d.
Proof. intros. eapply running_recoverable. by apply appended_running. Qed.
End Append.

(** ** Publishing *)

(** The partition runs and is as it was. *)
Definition Same (rs : list StoredEvent) (p0 : Partition) : Assertion := fun d p => p = p0 /\ Running rs d p0.

Lemma same_stable rs p0 : stable (Same rs p0).
Proof. intros d d' p He [-> Hr]. split; [done|]. by eapply running_stable. Qed.

Lemma same_stops rs p0 d p : Same rs p0 d p -> Failed rs d p /\ Died d p.
Proof. intros [-> Hr]. split; [by left|by eapply running_died]. Qed.

Lemma same_calm {A} rs p0 (m : Io A) : calm fate m -> spec (Same rs p0) m (fun _ => Same rs p0) (Failed rs) Died.
Proof.
  intros Hm. apply (spec_calm fate (Same rs p0)); [done|apply same_stable|done|]. intros d p _. apply same_stops.
Qed.

(** The event acknowledged is the one already there with this uid, or the new one. *)
Definition Published (rs : list StoredEvent) (r : StoredEvent) (o : Z) : Assertion := fun d p =>
  exists e, se_offset e = o /\ event_uid e = event_uid r /\
    (e ∈ rs /\ Running rs d p \/ e = r /\ Running (rs ++ [r]) d p).

Lemma failed_after_append rs r p0 e d p : SomeAppending rs r p0 d p -> legible r -> se_offset r = next_offset p0 -> next_offset p0 + 1 <= u64_max ->
  Z.of_nat (length (encode rs)) + Z.of_nat (length (terminated (print_event r))) <= u64_max ->
  (forall u, event_uid r = Some u -> uid_map rs !! u = None) ->
  Failed rs d (mkPartition (seen_event_uids p) (next_offset p) (Some e)).
Proof. intros [l Hl] ?????. right. split; [done|]. by eapply appending_recoverable. Qed.

Lemma undo_spec {A} rs r p0 error (Q : A -> Assertion) : legible r -> se_offset r = next_offset p0 -> next_offset p0 + 1 <= u64_max ->
  Z.of_nat (length (encode rs)) + Z.of_nat (length (terminated (print_event r))) <= u64_max ->
  (forall u, event_uid r = Some u -> uid_map rs !! u = None) ->
  spec (SomeAppending rs r p0) (undo_append fate (length (encode rs)) error) Q (Failed rs) Died.
Proof.
  intros ?????. apply spec_bind with (R := fun a d p => match a with Ok _ => Same rs p0 d p | Err _ => SomeAppending rs r p0 d p end).
  { apply (spec_attempt _ _ (fun _ => Same rs p0) _ (SomeAppending rs r p0)); [|done|done].
    eapply spec_conseq; [by apply repair_spec|done..|]. intros d p [l Hl]. by eapply appending_recoverable. }
  intros repaired. apply spec_bind with (R := fun _ => Failed rs); [|intros []; by apply spec_throw].
  destruct repaired as [[]|repair].
  - apply spec_ret. intros d p Hs. exact (proj1 (same_stops _ _ _ _ Hs)).
  - apply spec_set. intros d p Hs. by eapply failed_after_append.
Qed.

Lemma note_published_spec rs r p0 : legible r -> se_offset r = next_offset p0 -> next_offset p0 + 1 <= u64_max ->
  Z.of_nat (length (encode rs)) + Z.of_nat (length (terminated (print_event r))) <= u64_max ->
  (forall u, event_uid r = Some u -> uid_map rs !! u = None) ->
  spec (Appended rs r p0) (note_published fate (event_uid r) (next_offset p0)) (fun _ => Same (rs ++ [r]) (advance r p0)) (Failed rs) Died.
Proof.
  intros Hl Ho Hmax Hsize Hfresh.
  apply spec_bind with (R := fun _ d p => p = mkPartition (seen_event_uids p0) (next_offset p0 + 1) (poisoned p0)
    /\ Running rs (before rs d) p0 /\ pd_segment d = slot_of (Some (encode (rs ++ [r])))).
  { apply spec_set. intros d p (-> & ? & ?). done. }
  intros []. assert (Hrun : forall d, Running rs (before rs d) p0 /\ pd_segment d = slot_of (Some (encode (rs ++ [r]))) ->
    Running (rs ++ [r]) d (advance r p0)) by (intros d []; by eapply appended_running).
  unfold advance in *. destruct (event_uid r) as [u|]; [|by apply spec_ret; intros d p [-> ?]; split; [|apply Hrun]].
  rewrite Ho in *. set (p1 := mkPartition (<[u := next_offset p0]> (seen_event_uids p0)) (next_offset p0 + 1) (poisoned p0)) in *.
  apply spec_bind with (R := fun _ => Same (rs ++ [r]) p1).
  { apply spec_set. intros d p [-> ?]. by split; [|apply Hrun]. }
  intros []. apply spec_bind with (R := fun _ => Same (rs ++ [r]) p1); [|intros ?; by apply spec_ret].
  apply (spec_attempt _ _ (fun _ => Same (rs ++ [r]) p1) _ (Same (rs ++ [r]) p1)); [|done|done].
  apply (spec_calm fate (Same (rs ++ [r]) p1)); [apply calm_append_sidecar|apply same_stable|done|].
  intros d p _ [-> Hr]. by split; [|eapply running_died].
Qed.

Lemma publish_spec describe now partition key value rs p0 :
  let r := mkStored partition (next_offset p0) key value now in
  legible r ->
  Z.of_nat (length (encode rs)) + Z.of_nat (length (terminated (print_event r))) <= u64_max ->
  spec (Same rs p0)
    (publish_record fate describe now partition key value (event_uid_from_value value))
    (Published rs r) (Failed rs) Died.
Proof.
  intros r Hlegible Hsize.
  apply (spec_fact (poisoned p0 = None /\ seen_event_uids p0 = uid_map rs)); [by intros d p [_ []]|]. intros [Hhealthy Hseen].
  unfold publish_record. apply spec_bind with (R := fun p d p' => p = p0 /\ Same rs p0 d p'); [apply spec_part; by intros d p []|].
  intros p. apply spec_pre. intros ->. rewrite Hhealthy.
  destruct (event_uid_from_value value ≫= fun u => seen_event_uids p0 !! u) as [o|] eqn:Ho.
  { apply spec_ret. intros d p [-> Hr].
    apply bind_Some in Ho as (u & Hu & Ho). rewrite Hseen in Ho. apply uid_map_Some in Ho as (e & Hin & He & Hoff).
    exists e. split_and!; [done|by rewrite He|by left]. }
  assert (Hfresh : forall u, event_uid r = Some u -> uid_map rs !! u = None).
  { intros u Hu. change (event_uid_from_value value = Some u) in Hu. rewrite Hu in Ho. cbn in Ho. by rewrite <- Hseen. }
  cbv zeta. destruct (u64_max <? next_offset p0 + 1) eqn:Hover; [apply spec_throw; intros d p [-> Hr]; by left|].
  apply Z.ltb_ge in Hover.
  eapply spec_bind; [apply same_calm, calm_nop|].
  intros []. apply spec_bind with (R := fun n d p => n = length (encode rs) /\ Same rs p0 d p).
  { apply spec_look. intros d p [-> Hr]. by rewrite (ru_segment _ _ _ _ _ _ Hr). }
  intros n. apply spec_pre. intros ->.
  apply spec_bind with (R := fun a d p => match a with Ok _ => Appended rs r p0 d p | Err _ => SomeAppending rs r p0 d p end).
  { apply (spec_attempt _ _ (fun _ => Appended rs r p0) _ (SomeAppending rs r p0)); [|done|done].
    eapply spec_conseq; [by apply append_spec|done..|]. intros d p [l Hl]. by eapply appending_recoverable. }
  intros [[]|error]; [|by apply undo_spec]. eapply spec_bind; [by apply (note_published_spec rs r p0)|].
  intros []. apply spec_ret. intros d p [-> Hr]. exists r. split_and!; [done|done|by right].
Qed.

(** ** Opening *)

Section Open.
Context (stem : str) (rs : list StoredEvent) (tail : list Z) (w : option (list Z)) (k : Z).
Context (Htorn : torn_tail tail) (Hmark : watermark_is w k).

(** The partition is closed, its segment and its watermark on the disk. *)
Definition Booting (s : Slot) : Assertion := fun d _ =>
  pd_segment d = s /\ pd_watermark d = slot_of w /\ cold_ok (pd_cold d) /\ Sound (pd_cold d) rs (Z.max (seg_next rs) k).

(** Every image of a segment holds these records. *)
Definition holds (s : Slot) : Prop := forall o, o ∈ images s -> exists t, torn_tail t /\ default [] o = encode rs ++ t.

Lemma booting_recoverable s d p : holds s -> Booting s d p -> Recoverable d.
Proof.
  intros Hs (Hseg & Hw & Hc & Hso). split; [done|]. intros o w' Ho Hw'. rewrite Hseg in Ho. rewrite Hw in Hw'.
  destruct (Hs o Ho) as (t & Ht & Hb). exists rs, t, k. split_and!; try done.
  assert (w' = w) as ->; [|done]. unfold slot_of, images in Hw'. cbn in Hw'. by destruct w; apply list_elem_of_singleton in Hw'.
Qed.

Lemma slot_of_images o o' : o' ∈ images (slot_of o) -> o' = o.
Proof. unfold slot_of, images. cbn. by destruct o; intros ->%list_elem_of_singleton. Qed.

Lemma booting_stable o : stable (Booting (slot_of o)).
Proof.
  intros d d' p (Hs & Hw & Hc) (Hseg & Hwm & Hok & Hso). split_and!.
  - destruct Hs as [-> | ->]; by rewrite ?Hseg.
  - destruct Hw as [-> | ->]; by rewrite ?Hwm.
  - by rewrite Hc.
  - by rewrite Hc.
Qed.

Definition FailedOpen : Assertion := fun d _ => faulty fate /\ Recoverable d.

Lemma booting_calm {A} o (m : Io A) : calm fate m -> holds (slot_of o) ->
  spec (Booting (slot_of o)) m (fun _ => Booting (slot_of o)) FailedOpen FailedOpen.
Proof.
  intros Hm Ho. apply (spec_calm fate (Booting (slot_of o))); [done|apply booting_stable|done|].
  intros d p Hf Hb. assert (Recoverable d) by (by eapply booting_recoverable). done.
Qed.

(** A read of a settled segment finds its bytes. *)
Lemma read_segment o (Q : option (list Z) -> Assertion) : holds (slot_of o) ->
  (forall d p, Booting (slot_of o) d p -> Q o d p) ->
  spec (Booting (slot_of o)) (read_bytes fate pd_segment) Q FailedOpen FailedOpen.
Proof.
  intros Ho HQ. eapply spec_bind; [by apply booting_calm; [apply calm_nop|]|]. intros []. apply spec_look.
  intros d p Hb. assert (visible (pd_segment d) = o) as ->; [|by apply HQ].
  destruct Hb as (Hseg & _). rewrite Hseg. unfold visible. by destruct o.
Qed.

Lemma segment_exists o (Q : bool -> Assertion) :
  (forall d p, Booting (slot_of o) d p -> Q (match o with Some _ => true | None => false end) d p) ->
  spec (Booting (slot_of o)) (exists_file pd_segment) Q FailedOpen FailedOpen.
Proof.
  intros HQ. apply spec_look. intros d p Hb. assert (visible (pd_segment d) = o) as ->; [|by apply HQ].
  destruct Hb as (Hseg & _). rewrite Hseg. unfold visible. by destruct o.
Qed.

Lemma read_watermark o : holds (slot_of o) ->
  spec (Booting (slot_of o)) (read_high_water fate stem) (fun n d p => n = k /\ Booting (slot_of o) d p) FailedOpen FailedOpen.
Proof.
  intros Ho. unfold read_high_water. eapply spec_bind with (R := fun found d p => found = w /\ Booting (slot_of o) d p).
  { eapply spec_bind; [by apply booting_calm; [apply calm_nop|]|]. intros []. apply spec_look. intros d p Hb.
    split; [|done]. destruct Hb as (_ & Hwm & _). rewrite Hwm. unfold visible. by destruct w. }
  intros found. apply spec_pre. intros ->. destruct Hmark as [Hk Hw]. destruct w as [data|]; [|by apply spec_ret].
  subst data. pose proof (fmt_int_length k Hk) as Hlen. cbv zeta.
  rewrite (proj2 (Z.ltb_ge _ _)) by (unfold MAX_CONTROL_BYTES; lia).
  destruct (digits_text _ (fmt_int_digits k (proj1 Hk))) as [-> ->]. rewrite parse_fmt_int by done. by apply spec_ret.
Qed.

(** The segment before recovery, and after it. *)
Definition recovered (o : option (list Z)) : option (list Z) := match o with Some _ => Some (encode rs) | None => None end.

Lemma nothing_held : @nil Z = encode rs ++ tail -> rs = [] /\ tail = [].
Proof.
  intros Hbytes. symmetry in Hbytes. apply app_eq_nil in Hbytes as [He ->]. split; [|done].
  destruct rs as [|e rs']; [done|]. exfalso. apply (f_equal length) in He. unfold encode, terminated in He.
  cbn [map List.concat] in He. rewrite !length_app in He. cbn in He. lia.
Qed.

Lemma holds_segment o : default [] o = encode rs ++ tail -> holds (slot_of o).
Proof. intros Hbytes o' ->%slot_of_images. by exists tail. Qed.

Lemma holds_recovered o : default [] o = encode rs ++ tail -> holds (slot_of (recovered o)).
Proof.
  intros Hbytes o' ->%slot_of_images. exists []. split; [apply torn_nil|]. rewrite app_nil_r. unfold recovered.
  destruct o; [done|]. by destruct (nothing_held Hbytes) as [-> _].
Qed.

Lemma truncate_spec o : default [] o = encode rs ++ tail -> spec (Booting (slot_of o)) 
  (io_nop fate OpOpen ;% set_len fate (length (encode rs)) ;% sync_of fate on_segment)
  (fun _ => Booting (slot_of (recovered o))) FailedOpen FailedOpen.
Proof.
  intros Hbytes. eapply spec_bind; [apply booting_calm; [apply calm_nop|by apply holds_segment]|intros []].
  set (Cut := fun d p => Booting (on_file (shorten (length (encode rs))) (slot_of o)) d p).
  assert (Hcut : forall d p, Booting (slot_of o) d p -> Cut (on_segment (on_file (shorten (length (encode rs)))) d) p).
  { intros d p (Hs & ? & ? & ?). split_and!; [cbn; by rewrite Hs|done..]. }
  assert (Hok : holds (on_file (shorten (length (encode rs))) (slot_of o))).
  { intros o'. unfold slot_of, on_file, images. cbn. destruct o as [b|]; cbn; cbn in Hbytes.
    - intros [-> |[-> |?%elem_of_nil]%elem_of_cons]%elem_of_cons; [|..|done].
      + by exists tail.
      + exists []. cbn. rewrite Hbytes, take_app_length, app_nil_r. split; [apply torn_nil|done].
    - intros ->%list_elem_of_singleton. by exists tail. }
  eapply (spec_bind _ _ _ (fun _ => Cut)).
  - apply spec_io_any; [exact Hcut|]. intros stop d p Hstop Hf Hb.
    assert (Recoverable (all_or_nothing (on_segment (on_file (shorten (length (encode rs))))) stop d)) as Hr.
    { destruct (all_or_nothing_cases (on_segment (on_file (shorten (length (encode rs))))) stop d) as [-> | ->].
      - eapply booting_recoverable; [by apply holds_segment|done].
      - eapply booting_recoverable; [exact Hok|by apply Hcut]. }
    split; by split.
  - intros []. apply spec_io_any.
    + intros d p (Hs & ? & ? & ?). split_and!; [|done..]. cbn. rewrite Hs. unfold recovered, on_file, slot_of, flush_data.
      destruct o as [b|]; cbn; [|done]. cbn in Hbytes. by rewrite Hbytes, take_app_length.
    + intros stop d p Hstop Hf Hb. rewrite on_success_stops by done. assert (Recoverable d) by (eapply booting_recoverable; [exact Hok|done]). split; by split.
Qed.

Definition torn_lines : Z := if bool_decide (tail = []) then 0 else 1.

Lemma recover_segment_spec o : default [] o = encode rs ++ tail ->
  Forall legible rs -> Z.of_nat (length (encode rs)) <= u64_max ->
  spec (Booting (slot_of o)) (recover_segment fate stem k)
    (fun r d p => r = (seg_next rs, torn_lines) /\ Booting (slot_of (recovered o)) d p) FailedOpen FailedOpen.
Proof.
  intros Hbytes Hl Hsize. unfold recover_segment.
  eapply spec_bind; [apply (read_segment o (fun found d p => found = o /\ Booting (slot_of o) d p)); [by apply holds_segment|done]|].
  intros found. apply spec_pre. intros ->. destruct o as [data|].
  - cbn in Hbytes. subst data.
    destruct (scan_encode stem (S (length (encode rs ++ tail))) rs tail (mkScan 0 0 0 0)) as [n ->]; [done|done|lia|cbn; lia|cbn; lia|].
    apply (spec_bind _ _ _ (fun a d p => a = (mkScan (Z.of_nat (length (encode rs))) (seg_next rs) n 0, negb (bool_decide (tail = [])))
      /\ Booting (slot_of (Some (encode rs ++ tail))) d p)); [by apply spec_ret|].
    intros [s torn]. apply spec_pre. intros [= -> ->]. cbn [sc_unparseable sc_parseable sc_complete_len sc_next_offset Z.ltb Z.compare andb].
    apply (spec_bind _ _ _ (fun _ => Booting (slot_of (Some (encode rs))))).
    + apply spec_when.
      * intros _. rewrite Nat2Z.id. by apply (truncate_spec (Some (encode rs ++ tail))).
      * intros Ht d p Hb. apply negb_false_iff, bool_decide_eq_true in Ht. subst tail. by rewrite app_nil_r in Hb.
    + intros []. apply spec_ret. intros d p Hb. split; [|done]. unfold torn_lines. by destruct (bool_decide (tail = [])).
  - cbn in Hbytes. destruct (nothing_held Hbytes) as [Hrs Htail]. apply spec_ret. intros d p Hb.
    split; [|done]. unfold torn_lines. by rewrite bool_decide_true, Hrs.
Qed.

(** The index that recovery reads off the segment. *)
Lemma segment_uids_spec o m : default [] o = encode rs ++ tail -> Forall legible rs ->
  spec (Booting (slot_of (recovered o))) (recover_segment_event_uids fate m)
    (fun seen d p => seen = fold_left index_event rs m /\ Booting (slot_of (recovered o)) d p) FailedOpen FailedOpen.
Proof.
  intros Hbytes Hl. unfold recover_segment_event_uids. eapply spec_bind.
  { apply (segment_exists _ (fun b d p => b = (match recovered o with Some _ => true | None => false end)
      /\ Booting (slot_of (recovered o)) d p)). done. }
  intros b. apply spec_pre. intros ->. destruct o as [data|]; cbn [recovered negb].
  - eapply spec_bind.
    { apply (read_segment _ (fun found d p => found = Some (encode rs) /\ Booting (slot_of (Some (encode rs))) d p));
        [by apply (holds_recovered (Some data))|done]. }
    intros found. apply spec_pre. intros ->. change (default [] (Some (encode rs))) with (encode rs).
    pose proof (index_encode rs [] m Hl eq_refl) as Hi. rewrite app_nil_r in Hi. rewrite Hi. by apply spec_ret.
  - cbn in Hbytes. destruct (nothing_held Hbytes) as [Hrs _]. apply spec_ret. intros d p Hb. by rewrite Hrs.
Qed.

Lemma stale_uids_spec o m : default [] o = encode rs ++ tail -> Forall legible rs ->
  spec (Booting (slot_of (recovered o))) (drop_stale_uids fate (fold_left index_event rs m))
    (fun seen d p => seen = uid_map rs /\ Booting (slot_of (recovered o)) d p) FailedOpen FailedOpen.
Proof.
  intros Hbytes Hl. unfold drop_stale_uids. case_bool_decide as He.
  { apply spec_ret. intros d p Hb. split; [|done]. rewrite He. symmetry. apply map_eq. intros u. rewrite lookup_empty.
    pose proof (fold_index_lookup rs m u) as Hu. rewrite He, lookup_empty in Hu. by destruct (uid_map rs !! u). }
  eapply spec_bind.
  { apply (segment_exists _ (fun b d p => b = (match recovered o with Some _ => true | None => false end)
      /\ Booting (slot_of (recovered o)) d p)). done. }
  intros b. apply spec_pre. intros ->. destruct o as [data|]; cbn [recovered negb].
  - eapply spec_bind.
    { apply (read_segment _ (fun found d p => found = Some (encode rs) /\ Booting (slot_of (Some (encode rs))) d p));
        [by apply (holds_recovered (Some data))|done]. }
    intros found. apply spec_pre. intros ->. apply spec_ret. intros d p Hb. split; [|done]. by apply keep_live_index.
  - cbn in Hbytes. destruct (nothing_held Hbytes) as [Hrs _]. apply spec_ret. intros d p Hb. split; [|done].
    rewrite Hrs. apply (keep_live_index [] m). constructor.
Qed.

(** A segment that does not exist is created, and its name synchronized. *)
Lemma create_spec o : default [] o = encode rs ++ tail ->
  spec (Booting (slot_of (recovered o)))
    (open_create fate on_segment ;% pwhen (negb (match o with Some _ => true | None => false end)) (sync_directory fate))
    (fun _ => Booting (slot_of (Some (encode rs)))) FailedOpen FailedOpen.
Proof.
  intros Hbytes. set (Created := Booting (create_entry (slot_of (recovered o)))).
  assert (Hok : holds (create_entry (slot_of (recovered o)))).
  { intros o' Ho'. destruct o as [b|]; [by apply (holds_recovered (Some b))|]. cbn in Hbytes. destruct (nothing_held Hbytes) as [Hrs _].
    exists []. split; [apply torn_nil|]. rewrite Hrs. unfold images in Ho'. cbn in Ho'.
    by apply elem_of_cons in Ho' as [-> | ->%list_elem_of_singleton]. }
  assert (Hstep : forall d p, Booting (slot_of (recovered o)) d p -> Created (on_segment create_entry d) p).
  { intros d p (Hs & ? & ? & ?). split_and!; [cbn; by rewrite Hs|done..]. }
  apply (spec_bind _ _ _ (fun _ => Created)).
  - apply spec_io_any; [exact Hstep|]. intros stop d p Hstop Hf Hb.
    assert (Recoverable (all_or_nothing (on_segment create_entry) stop d)); [|split; by split].
    destruct (all_or_nothing_cases (on_segment create_entry) stop d) as [-> | ->].
    + eapply booting_recoverable; [by apply holds_recovered|done].
    + eapply booting_recoverable; [exact Hok|by apply Hstep].
  - intros []. apply spec_when; intros Ho; destruct o as [b|]; try done.
    cbn in Hbytes. destruct (nothing_held Hbytes) as [Hrs _]. apply spec_io_any.
    + intros d p (Hs & Hw & ? & ?). split_and!; [cbn; by rewrite Hs, Hrs|cbn; by rewrite Hw|done..].
    + intros stop d p Hstop Hf Hb. rewrite on_success_stops by done. assert (Recoverable d); [by eapply booting_recoverable|]. split; by split.
Qed.
End Open.

Lemma booting_running rs w k d p p' : watermark_is w k -> Booting rs w k (slot_of (Some (encode rs))) d p ->
  poisoned p' = None -> seen_event_uids p' = uid_map rs -> next_offset p' = Z.max (seg_next rs) k -> Running rs d p'.
Proof.
  intros Hk (Hs & Hw & Hc & Hso) Hp Hu Hn. split; rewrite ?Hn; try done.
  intros w'. rewrite Hw. intros ->%slot_of_images. by exists k.
Qed.

(** Recovery keeps the complete lines of the segment it finds. *)
Lemma open_spec stem o w : spec
  (fun d _ => pd_segment d = slot_of o /\ pd_watermark d = slot_of w /\ Recoverable d)
  (open_partition fate stem)
  (fun torn d p => exists rs tail, default [] o = encode rs ++ tail /\ torn = torn_lines tail /\ Running rs d p)
  FailedOpen FailedOpen.
Proof.
  intros st (Hs & Hw & [Hc Himg]).
  destruct (Himg o w) as (rs & tail & k & Hbytes & Ht & Hk & Hso).
  { rewrite Hs. unfold slot_of, images. destruct o; cbn; by left. }
  { rewrite Hw. unfold slot_of, images. destruct w; cbn; by left. }
  enough (Hopen : spec (Booting rs w k (slot_of o)) (open_partition fate stem)
    (fun torn d p => exists rs tail, default [] o = encode rs ++ tail /\ torn = torn_lines tail /\ Running rs d p)
    FailedOpen FailedOpen) by (by apply (Hopen st)).
  pose proof (so_legible _ _ _ _ _ _ Hso) as Hl. pose proof (so_size _ _ _ _ _ _ Hso) as Hsize.
  unfold open_partition. eapply spec_bind; [by eapply read_watermark; [|by eapply holds_segment]|].
  intros n. apply spec_pre. intros ->. eapply spec_bind; [by eapply recover_segment_spec|].
  intros r. apply spec_pre. intros ->. eapply spec_bind; [by eapply booting_calm; [done|apply calm_recover_event_uids|by eapply holds_recovered]|].
  intros m. eapply spec_bind; [by eapply segment_uids_spec|]. intros seen. apply spec_pre. intros ->.
  eapply spec_bind; [by eapply stale_uids_spec|]. intros seen. apply spec_pre. intros ->.
  eapply spec_bind.
  { apply (segment_exists rs w k (recovered rs o) (fun b d p => b = (match o with Some _ => true | None => false end)
      /\ Booting rs w k (slot_of (recovered rs o)) d p)). intros d p Hb. split; [by destruct o|done]. }
  intros b. apply spec_pre. intros ->. apply spec_assoc. eapply spec_bind; [by eapply create_spec|]. intros [].
  eapply (spec_bind _ _ _ (fun _ => Running rs)).
  - apply spec_set. intros d p Hb. by eapply booting_running.
  - intros []. apply spec_ret. intros d p Hr. by exists rs, tail.
Qed.
End Ops.
