(* ===== verification/EventLogRetain.v ===== *)
(** Retention drops the expired records of a partition, after their cold copies are on the
    disk, and preserves the crash invariant wherever it stops. *)

From Stdlib Require Import Sorting.Sorted.
From S2P Require Import Prelude Rust CoreBase Json Disk EventLog EventLogProofs EventLogCrash EventLogOps.

Section Retain.
Context {EJ : EventJson} (fate : IoOp -> nat -> IoFate).
Context (cold : bool) (acked : list StoredEvent) (dropped : Z).
Context (segment_path : str) (cutoff : Z) (rs : list StoredEvent) (p0 : Partition).
Context (Hcutoff : cutoff <= dropped).

Notation Running := (Running cold acked dropped).
Notation Recoverable := (Recoverable cold acked dropped).
Notation Sound := (Sound cold acked dropped).
Notation Same := (Same cold acked dropped).
Notation Failed := (Failed cold acked dropped rs).
Notation Died := (Died cold acked dropped).

Definition expired : list StoredEvent := List.filter (expires cutoff) rs.

Lemma elem_of_expired e : e ∈ expired <-> e ∈ rs /\ expires cutoff e = true.
Proof. unfold expired. by rewrite list_elem_of_In, filter_In, <- list_elem_of_In. Qed.

(** ** The index of the records that stay *)

Lemma prune_uids c n : Sound c rs n -> Sound c (kept cutoff rs) n ->
  filter (fun kv : str * Z => kv.2 ∉ (list_to_set (map se_offset expired) : gset Z)) (uid_map rs) = uid_map (kept cutoff rs).
Proof.
  intros Hs Hs'. apply map_eq. intros u. apply option_eq. intros o. rewrite map_lookup_filter_Some. cbn [snd].
  rewrite elem_of_list_to_set, list_elem_of_fmap. split.
  - intros [Hu Ho]. apply uid_map_Some in Hu as (e & Hin & Hu & <-). eapply uid_map_lookup; [exact Hs'| |done].
    apply elem_of_kept. split; [done|]. destruct (expires cutoff e) eqn:He; [|done]. destruct Ho. exists e.
    split; [done|]. by apply elem_of_expired.
  - intros Hu. apply uid_map_Some in Hu as (e & [Hin He]%elem_of_kept & Hu & <-). split; [by eapply uid_map_lookup|].
    intros (e' & Ho & [Hin' He']%elem_of_expired). assert (e = e') as <-; [|congruence].
    by eapply sorted_unique; [apply (so_sorted _ _ _ _ _ _ Hs)|..].
Qed.

Lemma expired_offsets_size c n : Sound c rs n -> size (list_to_set (map se_offset expired) : gset Z) = length expired.
Proof.
  intros Hs. rewrite size_list_to_set, length_map; [done|]. unfold expired.
  pose proof (filter_sorted (expires cutoff) rs (so_sorted _ _ _ _ _ _ Hs)) as Hso.
  induction Hso as [|e l Hso IH Hall]; cbn [map]; constructor; [|done]. rewrite list_elem_of_fmap. intros (e' & He & Hin).
  rewrite Forall_forall in Hall. specialize (Hall _ Hin). lia.
Qed.

Lemma nothing_expired : expired = [] -> kept cutoff rs = rs.
Proof.
  unfold expired, kept. induction rs as [|e l IH]; cbn [List.filter]; [done|].
  destruct (expires cutoff e); cbn [negb]; [done|]. intros ?. by rewrite IH.
Qed.

(** ** Reading the segment *)

Definition Frame (X : PartDisk -> Prop) : Assertion := fun d p => Same rs p0 d p /\ X d.

Lemma frame_calm {A} (X : PartDisk -> Prop) (m : Io A) : calm fate m -> stable (fun d _ => X d) ->
  spec (Frame X) m (fun _ => Frame X) Failed Died.
Proof.
  intros Hm HX. apply (spec_calm fate (Frame X)); [done|apply stable_and; [apply same_stable|done]|done|].
  intros d p _ [Hs _]. by eapply same_stops.
Qed.

Lemma frame_lines (X : PartDisk -> Prop) : stable (fun d _ => X d) ->
  spec (Frame X) (all_segment_lines fate segment_path) (fun ls d p => ls = map print_event rs /\ Frame X d p) Failed Died.
Proof.
  intros HX. unfold all_segment_lines.
  assert (Hseg : forall d p, Frame X d p -> visible (pd_segment d) = Some (encode rs)).
  { intros d p [[-> Hr] _]. by rewrite (ru_segment _ _ _ _ _ _ Hr). }
  apply (spec_fact (Forall legible rs)); [intros d p [[_ Hr] _]; apply (so_legible _ _ _ _ _ _ (ru_sound _ _ _ _ _ _ Hr))|].
  intros Hl. apply (spec_bind _ _ _ (fun b d p => b = true /\ Frame X d p)).
  { apply spec_look. intros d p Hf. by rewrite (Hseg _ _ Hf). }
  intros b. apply spec_pre. intros ->. cbn [negb].
  apply (spec_bind _ _ _ (fun b d p => b = Some (encode rs) /\ Frame X d p)).
  { eapply spec_bind; [by apply frame_calm; [apply calm_nop|]|]. intros []. apply spec_look. intros d p Hf. by rewrite (Hseg _ _ Hf). }
  intros found. apply spec_pre. intros ->. change (default [] (Some (encode rs))) with (encode rs). cbv zeta.
  rewrite segment_lines_encode by (done || lia). by apply spec_ret.
Qed.

(** ** The cold copies *)

(** The records of [es] that expire have their bytes under their cold names. *)
Definition copied (es : list StoredEvent) (d : PartDisk) : Prop := forall e, e ∈ es -> expires cutoff e = true ->
  pd_cold d !! cold_name e ≫= visible = Some (print_event e).

Lemma copied_stable es : stable (fun d _ => copied es d).
Proof. intros d d' _ (_ & _ & Hc) H. unfold copied. by rewrite Hc. Qed.

Lemma copied_nil d : copied [] d.
Proof. by intros e ?%elem_of_nil. Qed.

(** A new cold object takes no other's place. *)
Lemma copy_grows c e : c !! cold_name e ≫= visible = None ->
  cold_grows c (<[cold_name e := rename_over (print_event e) (default no_file (c !! cold_name e))]> c).
Proof.
  intros Hnew a Ha. unfold archived in *. destruct (decide (cold_name a = cold_name e)) as [He|Hne].
  - rewrite He in Ha. assert (Hf : In None (file_contents (sl_file (default no_file (c !! cold_name e))))).
    { destruct (c !! cold_name e) as [s|]; [|by left]. cbn in Hnew |- *. unfold visible in Hnew.
      destruct (sl_file s); [done|by left]. }
    specialize (Ha None). unfold images in Ha. rewrite elem_of_app in Ha. apply list_elem_of_In in Hf.
    by specialize (Ha (or_intror Hf)).
  - intros o. rewrite lookup_insert_ne by done. apply Ha.
Qed.

Lemma running_cold d c p : Running rs d p -> cold_ok c -> cold_grows (pd_cold d) c ->
  Running rs (mkPartDisk (pd_segment d) (pd_watermark d) (pd_sidecar d) c) p.
Proof. intros [? ? ? Hs ? ?] Hok Hg. split; try done. by eapply sound_grows. Qed.

Lemma copy_spec es e : expires cutoff e = true ->
  spec (Frame (copied es)) (write_cold_event_once fate e) (fun _ => Frame (copied (es ++ [e]))) Failed Died.
Proof.
  intros Hexp. unfold write_cold_event_once. cbv zeta.
  apply (spec_bind _ _ _ (fun o d p => Frame (fun d => copied es d /\ pd_cold d !! cold_name e ≫= visible = o) d p)).
  { apply spec_look. intros d p [Hs Hx]. done. }
  intros present. set (X := fun d => copied es d /\ pd_cold d !! cold_name e ≫= visible = present).
  change (spec (Frame X) (match present with
    | Some old => io_nop fate OpRead ;% (if bool_decide (old = print_event e) then pret tt
        else pthrow (Backend (lit "cold object " ++ cold_name e ++ lit " already exists with different content")))
    | None => replace fate (on_cold (cold_name e)) (print_event e) end) (fun _ => Frame (copied (es ++ [e]))) Failed Died).
  assert (HX : stable (fun d _ => X d)).
  { apply stable_and; [apply copied_stable|]. intros d d' _ (_ & _ & Hc). by rewrite Hc. }
  destruct present as [old|].
  - eapply spec_bind; [by apply frame_calm; [apply calm_nop|]|]. intros []. case_bool_decide as Hold.
    + apply spec_ret. intros d p [Hs [Hx Ho]]. split; [done|]. subst old.
      intros a [Ha| ->%list_elem_of_singleton]%elem_of_app; [by apply Hx|done].
    + apply spec_throw. intros d p [[-> Hr] _]. by left.
  - unfold replace. do 3 (eapply spec_bind; [by apply frame_calm; [apply calm_nop|]|]; intros []).
    assert (Hstep : forall d p, Frame X d p ->
      Frame (copied (es ++ [e])) (on_cold (cold_name e) (rename_over (print_event e)) d) p).
    { intros d p [[-> Hr] [Hx Hnew]]. split.
      - split; [done|]. apply running_cold; [done| |by apply copy_grows].
        intros name s [[<- <-]|[_ Hl]]%lookup_insert_Some; [by exists (Some (print_event e))|].
        by eapply (ru_cold _ _ _ _ _ _ Hr).
      - intros a [Ha| ->%list_elem_of_singleton]%elem_of_app Hea; cbn; [|by rewrite lookup_insert_eq].
        destruct (decide (cold_name a = cold_name e)) as [Heq|Hne]; [|rewrite lookup_insert_ne by done; by apply Hx].
        specialize (Hx a Ha Hea). by rewrite Heq, Hnew in Hx. }
    apply spec_io_any; [exact Hstep|]. intros stop d p _ _ Hf.
    destruct (renames_cases (on_cold (cold_name e) (rename_over (print_event e))) stop d) as [-> | ->].
    + eapply same_stops. apply Hf.
    + eapply same_stops. by apply (Hstep _ _ Hf).
Qed.

Definition export_line (line : list Z) : Io unit :=
  if is_expired cutoff line then
    match parse_event line with Some e => write_cold_event_once fate e | None => pret tt end
  else pret tt.

Lemma copy_all_spec es es' : Forall legible es' ->
  spec (Frame (copied es)) (visit_all export_line (map print_event es')) (fun _ => Frame (copied (es ++ es'))) Failed Died.
Proof.
  intros Hl. revert es. induction Hl as [|e es' He Hl IH]; intros es; cbn [map visit_all].
  - rewrite app_nil_r. by apply spec_ret.
  - rewrite cons_middle, app_assoc. apply (spec_bind _ _ _ (fun _ => Frame (copied (es ++ [e])))); [|intros []; apply IH].
    unfold export_line. rewrite is_expired_legible, (lg_read _ He) by done.
    destruct (expires cutoff e) eqn:Hexp; [by apply copy_spec|]. apply spec_ret. intros d p [Hs Hx]. split; [done|].
    intros a [Ha| ->%list_elem_of_singleton]%elem_of_app Hea; [by apply Hx|congruence].
Qed.

Definition exported (d : PartDisk) : Prop := forall e, e ∈ rs -> expires cutoff e = true -> archived (pd_cold d) e.

Lemma settle_grows c : cold_grows c (settle_entry <$> c).
Proof.
  intros e He o. rewrite lookup_fmap. destruct (c !! cold_name e) as [s|] eqn:Hc; unfold archived in He; rewrite Hc in He; [|apply He].
  cbn. intros Ho. apply He. unfold images in *. cbn in *. rewrite elem_of_app. by right.
Qed.

Lemma settle_cold_ok c : cold_ok c -> cold_ok (settle_entry <$> c).
Proof. intros Hc name s. rewrite lookup_fmap_Some. intros (s' & <- & Hs). by apply (Hc name s'). Qed.

Lemma settled_copies d : cold_ok (pd_cold d) -> copied rs d -> exported (settle_cold d).
Proof.
  intros Hok Hx e Hin He o. cbn. rewrite lookup_fmap. specialize (Hx e Hin He). apply bind_Some in Hx as (s & Hs & Hv). rewrite Hs. cbn.
  destruct (Hok _ _ Hs) as [b Hb]. unfold visible in Hv. unfold images. cbn. rewrite Hb in Hv |- *.
  destruct b as [b|]; [|done]. cbn in *. injection Hv as ->. by intros ->%list_elem_of_singleton.
Qed.

Lemma export_spec : spec (Frame (fun _ => True)) (export_cold fate segment_path cutoff) (fun _ => Frame exported) Failed Died.
Proof.
  unfold export_cold. eapply spec_bind; [by apply frame_calm; [apply calm_nop|]|]. intros [].
  apply (spec_bind _ _ _ (fun _ => Frame (copied rs))).
  - apply (spec_fact (Forall legible rs)); [intros d p [[_ Hr] _]; apply (so_legible _ _ _ _ _ _ (ru_sound _ _ _ _ _ _ Hr))|].
    intros Hl. apply (spec_from _ (Frame (copied []))); [intros d p [Hs _]; split; [done|apply copied_nil]|].
    pose proof (copied_stable []) as Hst. unfold for_each_segment_line.
    apply (spec_bind _ _ _ (fun b d p => b = true /\ Frame (copied []) d p)).
    { apply spec_look. intros d p Hf. split; [|done]. destruct Hf as [[_ Hr] _]. by rewrite (ru_segment _ _ _ _ _ _ Hr). }
    intros b. apply spec_pre. intros ->. cbn [negb].
    apply (spec_bind _ _ _ (fun b d p => b = Some (encode rs) /\ Frame (copied []) d p)).
    { eapply spec_bind; [by apply frame_calm; [apply calm_nop|]|]. intros []. apply spec_look. intros d p Hf. split; [|done].
      destruct Hf as [[_ Hr] _]. by rewrite (ru_segment _ _ _ _ _ _ Hr). }
    intros found. apply spec_pre. intros ->. change (default [] (Some (encode rs))) with (encode rs). cbv zeta.
    rewrite segment_lines_encode by (done || lia). eapply spec_bind; [by apply (copy_all_spec [])|]. intros []. by apply spec_ret.
  - intros []. assert (Hstep : forall d p, Frame (copied rs) d p -> Frame exported (settle_cold d) p).
    { intros d p [[-> Hr] Hx]. pose proof (ru_cold _ _ _ _ _ _ Hr) as Hok. split; [|by apply settled_copies].
      split; [done|]. apply running_cold; [done|by apply settle_cold_ok|apply settle_grows]. }
    apply spec_io_any; [exact Hstep|]. intros stop d p Hstop _ Hf. rewrite on_success_stops by done. eapply same_stops. apply Hf.
Qed.

(** ** The watermark *)

Definition marked (d : PartDisk) : Prop := pd_watermark d = slot_of (Some (fmt_int (next_offset p0))).
Definition Archive (d : PartDisk) : Prop := cold = true -> exported d.

Lemma archive_stable : stable (fun d _ => Archive d).
Proof. intros d d' _ (_ & _ & Hc) H. unfold Archive, exported. by rewrite Hc. Qed.

Lemma marked_stable : stable (fun d _ => marked d).
Proof. intros d d' _ (_ & [Hw|Hw] & _) H; unfold marked in *; by rewrite Hw, H. Qed.

Lemma watermark_spec : spec (Frame Archive) (persist_high_water fate (next_offset p0)) (fun _ => Frame (fun d => Archive d /\ marked d)) Failed Died.
Proof.
  unfold persist_high_water, replace.
  assert (Hstep : forall d p, Frame Archive d p ->
    Frame (fun d => Archive d /\ pd_watermark d = mkSlot (Some (on_disk (fmt_int (next_offset p0)))) (sl_lost (pd_watermark d)))
      (on_watermark (rename_over (fmt_int (next_offset p0))) d) p).
  { intros d p [[-> Hr] Ha]. split; [|done]. split; [done|]. pose proof Hr as [Hseg Hp Hu Hs Hc Hm]. split; try done.
    intros w. cbn. unfold images at 1. cbn. rewrite elem_of_app, list_elem_of_singleton. intros [Hw| ->]; [by apply Hm|].
    exists (next_offset p0). destruct Hs. split; [done|]. pose proof (seg_next_bound _ _ so_range so_next). lia. }
  apply (spec_bind _ _ _ (fun _ => Frame (fun d => Archive d /\ pd_watermark d = mkSlot (Some (on_disk (fmt_int (next_offset p0)))) (sl_lost (pd_watermark d))))).
  - do 3 (eapply spec_bind; [by apply frame_calm; [apply calm_nop|apply archive_stable]|]; intros []).
    apply spec_io_any; [exact Hstep|]. intros stop d p _ _ Hf.
    destruct (renames_cases (on_watermark (rename_over (fmt_int (next_offset p0)))) stop d) as [-> | ->].
    + eapply same_stops. apply Hf.
    + eapply same_stops. by apply (Hstep _ _ Hf).
  - intros []. apply spec_io_any.
    + intros d p [Hs [Ha Hw]]. assert (He : eases d (settle_topic d)) by (by repeat split; try right).
      split; [by eapply same_stable|]. split; [exact Ha|]. unfold marked. cbn. by rewrite Hw.
    + intros stop d p Hstop _ [Hs _]. unfold sync_directory. rewrite on_success_stops by done. by eapply same_stops.
Qed.

(** ** The rewritten segment *)

Notation survivors := (kept cutoff rs).

(** The segment is renamed over; a power loss may bring the old one back. *)
Definition Renamed : Assertion := fun d _ =>
  (forall o, o ∈ images (pd_segment d) -> o = Some (encode rs) \/ o = Some (encode survivors)) /\
  sl_file (pd_segment d) = Some (on_disk (encode survivors)) /\ marked d /\ cold_ok (pd_cold d) /\
  Sound (pd_cold d) rs (next_offset p0) /\ Sound (pd_cold d) survivors (next_offset p0).

Lemma max_next c rs' : Sound c rs' (next_offset p0) -> Z.max (seg_next rs') (next_offset p0) = next_offset p0.
Proof. intros []. pose proof (seg_next_bound _ _ so_range so_next). lia. Qed.

Lemma renamed_recoverable d p : Renamed d p -> Recoverable d.
Proof.
  intros (Himg & _ & Hm & Hc & Hs & Hs'). split; [done|]. intros o w Ho Hw. rewrite Hm in Hw. apply slot_of_images in Hw as ->.
  assert (Hk : watermark_is (Some (fmt_int (next_offset p0))) (next_offset p0)) by (split; [apply (so_next _ _ _ _ _ _ Hs)|done]).
  destruct (Himg o Ho) as [-> | ->]; [exists rs|exists survivors]; exists [], (next_offset p0); cbn; rewrite app_nil_r;
    (split_and!; [done|apply torn_nil|done|]); rewrite (max_next (pd_cold d)); done.
Qed.

Lemma renamed_stable : stable Renamed.
Proof.
  intros d d' p He (Himg & Hf & Hm & Hc & Hs & Hs'). pose proof He as (Hseg & Hw & Hcold). split_and!; rewrite ?Hcold; try done.
  - intros o Ho. apply Himg. by eapply slot_eases_images.
  - by destruct Hseg as [-> | ->].
  - by eapply (marked_stable d d' p).
Qed.

(** The partition as the segment is renamed. *)
Definition AtRename : Assertion := fun d p => p = p0 /\ Renamed d p.

Lemma rename_spec : spec (Frame (fun d => Archive d /\ marked d)) (rewrite_segment fate segment_path cutoff)
  (fun _ => AtRename) Failed Died.
Proof.
  set (X := fun d => Archive d /\ marked d).
  assert (HX : stable (fun d _ => X d)) by (apply stable_and; [apply archive_stable|apply marked_stable]).
  unfold rewrite_segment. eapply spec_bind; [by apply frame_calm; [apply calm_nop|]|]. intros [].
  apply (spec_fact (Forall legible rs)); [intros d p [[_ Hr] _]; apply (so_legible _ _ _ _ _ _ (ru_sound _ _ _ _ _ _ Hr))|].
  intros Hl. eapply spec_bind; [by apply frame_lines|]. intros lines. apply spec_pre. intros ->.
  do 2 (eapply spec_bind; [by apply frame_calm; [apply calm_nop|]|]; intros []). rewrite kept_lines by done.
  assert (Hstep : forall d p, Frame X d p -> AtRename (on_segment (rename_over (encode survivors)) d) p).
  { intros d p [[-> Hr] [Ha Hm]]. split; [done|]. pose proof Hr as [Hseg _ _ Hs Hc _].
    assert (Hs' : Sound (pd_cold d) survivors (next_offset p0)).
    { apply sound_kept; [done..|]. intros Hcold e Hin He. by apply Ha. }
    split_and!; try done. cbn. intros o. unfold images at 1. cbn. rewrite Hseg. cbn.
    intros [-> | ->%list_elem_of_singleton]%elem_of_cons; [by left|by right]. }
  apply spec_io; [exact Hstep|..].
  - intros n e d p _ Hf. exact (proj1 (same_stops _ _ _ _ _ _ _ (proj1 Hf))).
  - intros n d p _ Hf. destruct (renames_cases (on_segment (rename_over (encode survivors))) (Dies n) d) as [-> | ->].
    + exact (proj2 (same_stops _ _ _ _ _ _ _ (proj1 Hf))).
    + destruct (Hstep _ _ Hf) as [_ Hr]. by eapply renamed_recoverable.
Qed.

(** Once the new name is on the disk, the partition serves the surviving records. *)
Definition Settled : Assertion := fun d p => p = p0 /\ Renamed d p /\ pd_segment d = slot_of (Some (encode survivors)).

Lemma settled_stable : stable Settled.
Proof.
  intros d d' p He (-> & Hr & Hs). split_and!; [done|by eapply renamed_stable|]. destruct He as ([-> | ->] & _); by rewrite ?Hs.
Qed.

Definition pruned : Partition := mkPartition (uid_map survivors) (next_offset p0) (poisoned p0).

Lemma settled_running d p : Settled d p -> poisoned p0 = None -> Running survivors d pruned.
Proof.
  intros (_ & (_ & _ & Hm & Hc & Hs & Hs') & Hseg) Hp. split; try done. intros w Hw. rewrite Hm in Hw.
  apply slot_of_images in Hw as ->. exists (next_offset p0). split; [|by apply (max_next (pd_cold d))].
  split; [apply (so_next _ _ _ _ _ _ Hs)|done].
Qed.

Definition expired_set : gset Z := list_to_set (map se_offset expired).

Lemma after_rename_spec : poisoned p0 = None -> seen_event_uids p0 = uid_map rs ->
  spec AtRename (after_rename fate expired_set) (fun _ => Running survivors) Died Died.
Proof.
  intros Hp Hseen. unfold after_rename. eapply (spec_bind _ _ _ (fun _ => Settled)).
  - apply spec_io_any.
    + intros d p [-> Hr]. assert (Hr' : Renamed (settle_topic d) p0).
      { eapply renamed_stable; [|exact Hr]. by repeat split; try right. }
      split_and!; [done..|]. destruct Hr as (_ & Hf & _). cbn. unfold settle_entry. by rewrite Hf.
    + intros stop d p Hstop _ [_ Hr]. unfold sync_directory. rewrite on_success_stops by done.
      split; by eapply renamed_recoverable.
  - intros []. apply (spec_bind _ _ _ (fun p d p' => p = p0 /\ Settled d p')).
    { apply spec_part. intros d p Hs. split; [apply Hs|done]. }
    intros p. apply spec_pre. intros ->. rewrite Hseen.
    apply (spec_fact (exists c, Sound c rs (next_offset p0) /\ Sound c survivors (next_offset p0))).
    { intros d p (_ & (_ & _ & _ & _ & ? & ?) & _). by exists (pd_cold d). }
    intros (c & Hs & Hs'). unfold expired_set. rewrite (prune_uids c (next_offset p0)) by done. cbv zeta.
    apply (spec_bind _ _ _ (fun _ d p => p = pruned /\ Running survivors d pruned)).
    { apply spec_set. intros d p Hd. split; [by destruct Hd as (-> & _)|by eapply settled_running]. }
    intros []. apply (spec_from _ (fun d p => Same survivors pruned d p)); [done|].
    apply (spec_bind _ _ _ (fun _ => Same survivors pruned)).
    + apply spec_when; [|done]. intros _.
      apply (spec_calm fate (Same survivors pruned)); [apply calm_rewrite_sidecar|apply same_stable|done|].
      intros d p _ [-> Hr]. split; by eapply running_died.
    + intros []. apply (spec_calm fate (Same survivors pruned)); [apply calm_nop|apply same_stable|by intros _ d p [-> Hr]|].
      intros d p _ [-> Hr]. split; by eapply running_died.
Qed.

(** ** A retention pass over the partition *)

Lemma retain_spec describe_error :
  spec (Same rs p0) (retain_partition fate segment_path describe_error cold cutoff)
    (fun n d p => n = Z.of_nat (length expired) /\ Running survivors d p) Failed Died.
Proof.
  apply (spec_fact (poisoned p0 = None /\ seen_event_uids p0 = uid_map rs /\ exists c, Sound c rs (next_offset p0)));
    [intros d p [_ Hr]; split_and!; [apply Hr..|exists (pd_cold d); apply Hr]|]. intros (Hp & Hseen & c & Hs).
  unfold retain_partition. apply (spec_bind _ _ _ (fun p d p' => p = p0 /\ Same rs p0 d p')).
  { apply spec_part. intros d p Hd. split; [apply Hd|done]. }
  intros p. apply spec_pre. intros ->. rewrite Hp.
  apply (spec_bind _ _ _ (fun ex d p => ex = expired_set /\ Same rs p0 d p)).
  { unfold expired_offsets. apply (spec_from _ (Frame (fun _ => True))); [done|].
    eapply spec_bind; [by apply frame_lines|]. intros lines. apply spec_pre. intros ->.
    rewrite expired_lines by (apply (so_legible _ _ _ _ _ _ Hs)). apply spec_ret. by intros d p [? _]. }
  intros ex. apply spec_pre. intros ->. pose proof (expired_offsets_size c _ Hs) as Hsize. fold expired_set in Hsize.
  case_bool_decide as He.
  { apply spec_ret. intros d p [-> Hr]. rewrite He, size_empty in Hsize.
    destruct expired as [|e l] eqn:Hex; [|done]. split; [done|]. by rewrite nothing_expired. }
  apply (spec_bind _ _ _ (fun _ => Frame Archive)).
  { apply (spec_from _ (Frame (fun _ => True))); [done|]. apply spec_when; intros Hc.
    - eapply spec_conseq; [apply export_spec|done| |done..]. intros _ d p [? ?]. split; [done|]. by intros _.
    - intros d p [? _]. split; [done|]. intros Ht. congruence. }
  intros []. eapply spec_bind; [apply watermark_spec|]. intros []. eapply spec_bind; [apply rename_spec|]. intros [].
  apply (spec_bind _ _ _ (fun r d p => match r with Ok _ => Running survivors d p | Err _ => Recoverable d end)).
  { apply (spec_attempt _ _ (fun _ => Running survivors) _ Died); [|done|done]. by apply after_rename_spec. }
  intros [[]|e].
  - apply spec_ret. intros d p Hr. by rewrite Hsize.
  - apply (spec_bind _ _ _ (fun _ => Failed)); [|intros []; by apply spec_throw]. apply spec_set. intros d p Hr. by right.
Qed.
End Retain.
