(* ===== verification/EventLogSystem.v ===== *)
(** The embedded log over time: processes open a partition, publish, retain and die, power
    is lost, and what was acknowledged stays. *)

From Stdlib Require Import Sorting.Sorted.
From S2P Require Import Prelude Rust CoreBase Json Disk EventLog EventLogProofs EventLogCrash EventLogOps EventLogRetain.

Definition run {A} (m : Io A) (d : PartDisk) (p : Partition) : PS * outcome A := m (mkPS d p 0).

Definition closed : Partition := mkPartition ∅ 0 None.

(** [Down] after a process died or gave up; [Booted] once what it left unwritten is on the
    disk or lost. *)
Inductive Mem := Down | Booted | Up (p : Partition).

Record Sys := mkSys {
  sy_disk : PartDisk;
  sy_mem : Mem;
  (** The records behind the acknowledgements. *)
  sy_acked : list StoredEvent;
  (** The latest time that a retention pass dropped records before. *)
  sy_dropped : Z;
}.

(** A power loss, or the end of a process: every file becomes one of its images. *)
Definition cold_survives (c c' : gmap str Slot) : Prop :=
  forall name, survives (default no_file (c !! name)) (default no_file (c' !! name)).
Definition outlives (d d' : PartDisk) : Prop :=
  survives (pd_segment d) (pd_segment d') /\ survives (pd_watermark d) (pd_watermark d') /\
  survives (pd_sidecar d) (pd_sidecar d') /\ cold_survives (pd_cold d) (pd_cold d').

Section System.
Context {EJ : EventJson}.
(** [p<N>], the path of its segment, the texts of errors, and whether the topic has a cold
    tier. *)
Context (stem segment_path describe : str) (describe_error : BusError -> str) (cold : bool).

(** The record at an offset of the segment. *)
Definition stored_at (d : PartDisk) (offset : Z) : option StoredEvent :=
  List.find (fun e => se_offset e =? offset)
    (omap parse_event (lines_of (default [] (visible (pd_segment d))))).

Definition after_open (r : PS * outcome Z) : Mem := match r.2 with Ret _ => Up (ps_part r.1) | _ => Down end.
Definition after_call {A} (r : PS * outcome A) : Mem := match r.2 with Dead => Down | _ => Up (ps_part r.1) end.
Definition after_publish (r : PS * outcome Z) (acked : list StoredEvent) : list StoredEvent :=
  match r.2 with
  | Ret offset => match stored_at (ps_disk r.1) offset with Some e => e :: acked | None => acked end
  | _ => acked
  end.

(** What [serde_json] and the file system allow of a record: see [legible]. *)
Definition writable (d : PartDisk) (r : StoredEvent) : Prop :=
  legible r /\
  Z.of_nat (length (default [] (visible (pd_segment d)))) + Z.of_nat (length (terminated (print_event r))) <= u64_max.

Inductive step : Sys -> Sys -> Prop :=
| step_open fate d acked dropped r :
    run (open_partition fate stem) d closed = r ->
    step (mkSys d Booted acked dropped) (mkSys (ps_disk r.1) (after_open r) acked dropped)
| step_publish fate d p acked dropped now partition key value r :
    writable d (mkStored partition (next_offset p) key value now) ->
    run (publish_record fate describe now partition key value (event_uid_from_value value)) d p = r ->
    step (mkSys d (Up p) acked dropped) (mkSys (ps_disk r.1) (after_call r) (after_publish r acked) dropped)
| step_retain fate d p acked dropped cutoff r :
    run (retain_partition fate segment_path describe_error cold cutoff) d p = r ->
    step (mkSys d (Up p) acked dropped) (mkSys (ps_disk r.1) (after_call r) acked (Z.max dropped cutoff))
| step_restart d d' mem acked dropped :
    outlives d d' ->
    step (mkSys d mem acked dropped) (mkSys d' Booted acked dropped).

Definition init : Sys := mkSys blank_disk Booted [] 0.

Inductive reachable : Sys -> Prop :=
| reach_init : reachable init
| reach_step s s' : reachable s -> step s s' -> reachable s'.

(** ** The invariant *)

Definition on_the_disk (s : Slot) : Prop := exists o, s = slot_of o.

Definition Inv (s : Sys) : Prop :=
  let d := sy_disk s in
  match sy_mem s with
  | Down => Recoverable cold (sy_acked s) (sy_dropped s) d
  | Booted => Recoverable cold (sy_acked s) (sy_dropped s) d /\ on_the_disk (pd_segment d) /\ on_the_disk (pd_watermark d)
  | Up p =>
      match poisoned p with
      | None => exists rs, Running cold (sy_acked s) (sy_dropped s) rs d p
      | Some _ => Recoverable cold (sy_acked s) (sy_dropped s) d
      end
  end.

Lemma sound_later acked dropped dropped' c rs n : dropped <= dropped' ->
  Sound cold acked dropped c rs n -> Sound cold acked dropped' c rs n.
Proof.
  intros Hle [? ? ? ? ? ? ? Hk ?]. split; try done. intros a Ha. destruct (Hk a Ha) as [?|[? ?]]; [by left|right]. split; [lia|done].
Qed.

Lemma recoverable_later acked dropped dropped' d : dropped <= dropped' ->
  Recoverable cold acked dropped d -> Recoverable cold acked dropped' d.
Proof.
  intros Hle [Hc H]. split; [done|]. intros o w Ho Hw. destruct (H o w Ho Hw) as (rs & tail & k & ? & ? & ? & ?).
  exists rs, tail, k. split_and!; try done. by eapply sound_later.
Qed.

Lemma running_later acked dropped dropped' rs d p : dropped <= dropped' ->
  Running cold acked dropped rs d p -> Running cold acked dropped' rs d p.
Proof. intros Hle []. split; try done. by eapply sound_later. Qed.

(** An acknowledgement of a record of the segment. *)
Lemma running_ack acked dropped rs d p e : e ∈ rs ->
  Running cold acked dropped rs d p -> Running cold (e :: acked) dropped rs d p.
Proof.
  intros Hin [? ? ? Hs ? ?]. split; try done. destruct Hs as [Hl Hsz Hso Hr Hnx Hu Ha Hk Hag]. split; try done.
  - intros a [-> |Hin']%elem_of_cons; [|by apply Ha]. rewrite Forall_forall in Hr. by apply Hr.
  - intros a [-> |Hin']%elem_of_cons; [by left|by apply Hk].
  - intros a b Hina Hinb Heq. rewrite elem_of_cons in Hina. rewrite elem_of_cons in Hinb.
    assert (He : forall x, x ∈ acked \/ x ∈ rs -> se_offset e = se_offset x -> x = e).
    { intros x [Hx|Hx] Hex; [by apply Hag; [|right|]|]. by apply (sorted_unique rs). }
    destruct Hina as [-> |Hina].
    + destruct Hinb as [[-> |Hb]|Hb]; [done|symmetry; apply He; auto..].
    + destruct Hinb as [[-> |Hb]|Hb]; [apply He; auto|apply Hag; auto..].
Qed.

Lemma stored_at_running acked dropped rs d p e : Running cold acked dropped rs d p -> e ∈ rs ->
  stored_at d (se_offset e) = Some e.
Proof.
  intros [Hseg _ _ Hs _ _] Hin. unfold stored_at. rewrite Hseg. change (default [] (visible (slot_of (Some (encode rs))))) with (encode rs).
  pose proof (so_legible _ _ _ _ _ _ Hs) as Hl. pose proof (so_sorted _ _ _ _ _ _ Hs) as Hso.
  rewrite <- (app_nil_r (encode rs)), lines_of_encode by (done || constructor). rewrite app_nil_r. clear Hseg Hs.
  induction Hso as [|a rs Hso IH Hall]; [by apply elem_of_nil in Hin|]. apply Forall_cons in Hl as [Ha Hl].
  cbn [map omap list_omap]. rewrite (lg_read _ Ha). cbn [List.find]. rewrite Forall_forall in Hall.
  apply elem_of_cons in Hin as [-> |Hin]; [by rewrite Z.eqb_refl|]. specialize (Hall _ Hin).
  rewrite (proj2 (Z.eqb_neq _ _)) by lia. by apply IH.
Qed.

Lemma survives_image s s' : survives s s' -> exists o, o ∈ images s /\ s' = slot_of o.
Proof. done. Qed.

Lemma recoverable_outlives acked dropped d d' : outlives d d' -> Recoverable cold acked dropped d ->
  Recoverable cold acked dropped d'.
Proof.
  intros ((o & Ho & Hseg) & (w & Hw & Hwm) & _ & Hcold) [Hc H]. split.
  - intros name s Hs. destruct (Hcold name) as (x & _ & Hx). rewrite Hs in Hx. cbn in Hx. subst s. by exists x.
  - intros o' w' Ho' Hw'. rewrite Hseg in Ho'. rewrite Hwm in Hw'. apply slot_of_images in Ho' as ->. apply slot_of_images in Hw' as ->.
    destruct (H o w Ho Hw) as (rs & tail & k & ? & ? & ? & Hs). exists rs, tail, k. split_and!; try done.
    eapply sound_grows; [|exact Hs]. intros e He x. destruct (Hcold (cold_name e)) as (y & Hy & Hy'). rewrite Hy'.
    intros ->%slot_of_images. by apply He.
Qed.

Lemma inv_recoverable s : Inv s -> Recoverable cold (sy_acked s) (sy_dropped s) (sy_disk s).
Proof.
  unfold Inv. destruct (sy_mem s) as [| |p]; [done|by intros [? _]|]. destruct (poisoned p); [done|].
  intros [rs Hr]. by eapply running_recoverable.
Qed.

Lemma publish_poisoned fate d p now partition key value uid reason : poisoned p = Some reason ->
  exists e, run (publish_record fate describe now partition key value uid) d p = (mkPS d p 0, Throw e).
Proof. intros Hp. unfold run, publish_record, pbind, the_part. cbn. rewrite Hp. by eexists. Qed.

Lemma retain_poisoned fate d p cutoff reason : poisoned p = Some reason ->
  run (retain_partition fate segment_path describe_error cold cutoff) d p = (mkPS d p 0, Ret 0).
Proof. intros Hp. unfold run, retain_partition, pbind, the_part. cbn. by rewrite Hp. Qed.

Lemma failed_inv acked dropped rs d p : Failed cold acked dropped rs d p -> Inv (mkSys d (Up p) acked dropped).
Proof.
  unfold Inv. cbn. intros [Hr|[Hp Hr]].
  - rewrite (ru_healthy _ _ _ _ _ _ Hr). by exists rs.
  - by destruct (poisoned p).
Qed.

Lemma running_inv acked dropped rs d p : Running cold acked dropped rs d p -> Inv (mkSys d (Up p) acked dropped).
Proof. intros Hr. eapply failed_inv. by left. Qed.

Lemma open_inv fate d acked dropped r : Inv (mkSys d Booted acked dropped) ->
  run (open_partition fate stem) d closed = r -> Inv (mkSys (ps_disk r.1) (after_open r) acked dropped).
Proof.
  intros (Hr & [o Ho] & [w Hw]) <-. pose proof (open_spec fate cold acked dropped stem o w (mkPS d closed 0)) as H.
  specialize (H (conj Ho (conj Hw Hr))). unfold run, after_open. destruct (open_partition _ _ _) as [st [torn|e|]]; cbn in *.
  - destruct H as (rs & tail & _ & _ & Hrun). by eapply running_inv.
  - apply H.
  - apply H.
Qed.

Lemma publish_inv fate d p acked dropped now partition key value r : Inv (mkSys d (Up p) acked dropped) ->
  writable d (mkStored partition (next_offset p) key value now) ->
  run (publish_record fate describe now partition key value (event_uid_from_value value)) d p = r ->
  Inv (mkSys (ps_disk r.1) (after_call r) (after_publish r acked) dropped).
Proof.
  intros Hinv [Hl Hsize] Hr. unfold Inv in Hinv. cbn in Hinv. destruct (poisoned p) as [reason|] eqn:Hp.
  { destruct (publish_poisoned fate d p now partition key value (event_uid_from_value value) reason Hp) as [e He].
    rewrite He in Hr. subst r. cbn. unfold Inv. cbn. by rewrite Hp. }
  destruct Hinv as [rs Hrun]. pose proof (ru_segment _ _ _ _ _ _ Hrun) as Hseg. rewrite Hseg in Hsize.
  pose proof (publish_spec fate cold acked dropped describe now partition key value rs p Hl Hsize (mkPS d p 0) (conj eq_refl Hrun)) as H.
  subst r. unfold run, after_call, after_publish. destruct (publish_record _ _ _ _ _ _ _ _) as [st [o|e|]]; cbn in *.
  - destruct H as (e & <- & _ & [[Hin Hr]|[-> Hr]]).
    + rewrite (stored_at_running acked dropped rs _ _ _ Hr Hin). eapply running_inv. by eapply running_ack.
    + rewrite (stored_at_running acked dropped _ _ _ _ Hr) by (rewrite elem_of_app; right; by left).
      eapply running_inv. eapply running_ack; [|done]. rewrite elem_of_app. right. by left.
  - by eapply failed_inv.
  - done.
Qed.

Lemma retain_inv fate d p acked dropped cutoff r : Inv (mkSys d (Up p) acked dropped) ->
  run (retain_partition fate segment_path describe_error cold cutoff) d p = r ->
  Inv (mkSys (ps_disk r.1) (after_call r) acked (Z.max dropped cutoff)).
Proof.
  intros Hinv Hr. unfold Inv in Hinv. cbn in Hinv. destruct (poisoned p) as [reason|] eqn:Hp.
  { rewrite (retain_poisoned fate d p cutoff reason Hp) in Hr. subst r. unfold Inv. cbn. rewrite Hp.
    eapply recoverable_later; [|done]. lia. }
  destruct Hinv as [rs Hrun]. apply (running_later acked dropped (Z.max dropped cutoff)) in Hrun; [|lia].
  pose proof (retain_spec fate cold acked (Z.max dropped cutoff) segment_path cutoff rs p (Z.le_max_r _ _) describe_error
    (mkPS d p 0) (conj eq_refl Hrun)) as H.
  subst r. unfold run, after_call. destruct (retain_partition _ _ _ _ _ _) as [st [n|e|]]; cbn in *.
  - destruct H as [_ Hr]. by eapply running_inv.
  - by eapply failed_inv.
  - done.
Qed.

Lemma sound_empty c : Sound cold [] 0 c [] 0.
Proof.
  split; [constructor|done|apply SSorted_nil|constructor|done|..]; intros a; intros; exfalso; by eapply not_elem_of_nil.
Qed.

Lemma inv_reachable s : reachable s -> Inv s.
Proof.
  induction 1 as [|s s' _ IH Hstep].
  - split; [|split; by exists None]. split; [intros name x Hx; change ((∅ : gmap str Slot) !! name = Some x) in Hx; by rewrite lookup_empty in Hx|]. intros o w Ho Hw.
    apply list_elem_of_singleton in Ho as ->. apply list_elem_of_singleton in Hw as ->. exists [], [], 0.
    split_and!; [done|apply torn_nil|done|apply sound_empty].
  - destruct Hstep.
    + by eapply open_inv.
    + by eapply publish_inv.
    + by eapply retain_inv.
    + pose proof (inv_recoverable _ IH) as Hr. cbn in Hr. split; [by eapply recoverable_outlives|].
      destruct H as ((o & _ & Ho) & (w & _ & Hw) & _). split; [by exists o|by exists w].
Qed.

(** ** What holds in every reachable state *)

Definition fault_free (fate : IoOp -> nat -> IoFate) : Prop := forall op n, fate op n = Done.

Lemma run_fetch fate acked dropped rs d p offset max : fault_free fate -> (0 < max)%nat ->
  Running cold acked dropped rs d p ->
  (run (fetch_partition fate offset max) d p).2 = Ret (take max (from_offset offset rs)).
Proof.
  intros Hf Hmax [Hseg _ _ Hs _ _]. destruct d as [s w sc c]. cbn in Hseg. subst s.
  unfold run, fetch_partition, exists_file, read_bytes, io_nop, io, pbind, look, pof. cbn. rewrite (proj2 (Nat.eqb_neq _ _)) by lia. cbn.
  rewrite Hf. cbn. rewrite fetch_encode by (done || apply (so_legible _ _ _ _ _ _ Hs)). done.
Qed.

Lemma from_offset_first rs a : StronglySorted (fun a b => se_offset a < se_offset b) rs -> a ∈ rs ->
  exists rest, from_offset (se_offset a) rs = a :: rest.
Proof.
  induction 1 as [|e rs Hs IH Hall]; [by intros ?%elem_of_nil|]. rewrite Forall_forall in Hall.
  intros [-> |Hin]%elem_of_cons; cbn [from_offset List.filter].
  - rewrite Z.ltb_irrefl. by eexists.
  - specialize (Hall _ Hin). cbn in Hall. rewrite (proj2 (Z.ltb_lt _ _)) by lia. by apply IH.
Qed.



(** C23. Recovery never refuses what the log itself wrote: a partition whose process died at
    any point opens again when the disk serves. *)
Theorem recovery_succeeds fate d acked dropped :
  reachable (mkSys d Booted acked dropped) -> fault_free fate ->
  exists st torn, run (open_partition fate stem) d closed = (st, Ret torn) /\ poisoned (ps_part st) = None /\ 0 <= torn <= 1.
Proof.
  intros (Hr & [o Ho] & [w Hw])%inv_reachable Hf.
  pose proof (open_spec fate cold acked dropped stem o w (mkPS d closed 0) (conj Ho (conj Hw Hr))) as H.
  unfold run. destruct (open_partition _ _ _) as [st [torn|e|]]; cbn in *.
  - destruct H as (rs & tail & _ & -> & Hrun). exists st, (torn_lines tail). split_and!; [done|apply Hrun|..];
      unfold torn_lines; by case_bool_decide.
  - destruct H as [(op & n & Hn) _]. by rewrite Hf in Hn.
  - destruct H as [(op & n & Hn) _]. by rewrite Hf in Hn.
Qed.

(** C25. Publishing an acknowledged event again appends nothing: while the record is there
    the same offset is acknowledged and the disk is untouched, after a restart as before it. *)
Theorem republish_is_idempotent fate d p acked dropped a u now partition key value :
  reachable (mkSys d (Up p) acked dropped) -> poisoned p = None -> a ∈ acked -> dropped <= se_stored_at a ->
  event_uid a = Some u -> event_uid_from_value value = Some u ->
  run (publish_record fate describe now partition key value (Some u)) d p = (mkPS d p 0, Ret (se_offset a)).
Proof.
  intros Hr%inv_reachable Hp Ha Hd Hu Hv. unfold Inv in Hr. cbn in Hr. rewrite Hp in Hr. destruct Hr as [rs Hr].
  pose proof (ru_sound _ _ _ _ _ _ Hr) as Hs. destruct (so_kept _ _ _ _ _ _ Hs a Ha) as [Hin|[? _]]; [|lia].
  unfold run, publish_record, pbind, the_part. cbn. rewrite Hp, (ru_seen _ _ _ _ _ _ Hr).
  by rewrite (uid_map_lookup _ _ _ _ _ _ _ _ Hs Hin Hu).
Qed.

(** The read-only tail that runs beside a daemon returns what the daemon's own fetch
    returns. *)
Theorem tail_agrees_with_fetch fate d p acked dropped offset max :
  reachable (mkSys d (Up p) acked dropped) -> poisoned p = None -> fault_free fate ->
  (run (fetch_read_only fate offset max) d p).2 = (run (fetch_partition fate offset max) d p).2.
Proof.
  intros Hr%inv_reachable Hp Hf. unfold Inv in Hr. cbn in Hr. rewrite Hp in Hr. destruct Hr as [rs Hr].
  pose proof Hr as [Hseg _ _ Hs _ _]. destruct d as [sg w sc c]. cbn in Hseg. subst sg.
  pose proof (tail_encode (S (length (encode rs))) offset max rs [] (so_legible _ _ _ _ _ _ Hs) torn_nil) as Ht.
  rewrite app_nil_r in Ht. etrans; [|symmetry].
  { unfold run, fetch_read_only, read_bytes, io_nop, io, pbind, look. cbn -[tail_events]. rewrite Hf. cbn -[tail_events]. rewrite Ht by lia. reflexivity. }
  destruct max as [|max].
  - unfold run, fetch_partition, exists_file, pbind, look. done.
  - rewrite (run_fetch fate acked dropped rs) by (done || lia). done.
Qed.
End System.
