(* ===== verification/EventLogExamples.v ===== *)
(** A log of two events: the theorems about the embedded log at a concrete run, and a run
    of failures that none of them covers. *)

From S2P Require Import Prelude Rust CoreBase Json Disk EventLog EventLogProofs EventLogCrash EventLogOps EventLogRetain EventLogSystem.

(** The events [u0] at offset 0 and [u1] at offset 1. *)
Definition sample_value (uid : str) : Value := Object [(lit "metadata", Object [(lit "uid", JString uid)])].
Definition sample (offset stored_at : Z) : StoredEvent :=
  mkStored 0 offset (lit "k") (sample_value (lit "u" ++ fmt_int offset)) stored_at.
Definition samples : list StoredEvent := [sample 0 5; sample 1 20].

(** A printer that tells these events apart. *)
Definition sample_print (e : StoredEvent) : list Z := lit "event " ++ fmt_int (se_offset e) ++ lit " at " ++ fmt_int (se_stored_at e).
Definition sample_parse (b : list Z) : option StoredEvent := List.find (fun e => bool_decide (sample_print e = b)) samples.

Definition SampleJson : EventJson := {|
  print_event := sample_print;
  parse_event := sample_parse;
  print_mapping uid offset := uid ++ lit " " ++ fmt_int offset;
  parse_mapping _ := None;
  utf8_error _ := lit "invalid utf-8 sequence";
|}.

Definition no_fault : IoOp -> nat -> IoFate := fun _ _ => Done.
Definition no_text : BusError -> str := fun _ => [].

Section Run.
#[local] Existing Instance SampleJson.

Definition opened (d : PartDisk) : PS * outcome Z := run (open_partition no_fault (lit "p0")) d closed.
Definition publish_sample (offset now : Z) (st : PS) : PS * outcome Z :=
  run (publish_record no_fault (lit "partition 0") now 0 (lit "k") (sample_value (lit "u" ++ fmt_int offset))
         (Some (lit "u" ++ fmt_int offset))) (ps_disk st) (ps_part st).

(** Opened, one event published; then the power is lost and the log opened again. *)
Definition first : PS := (opened blank_disk).1.
Definition second : PS := (publish_sample 0 5 first).1.
Definition after_loss : PartDisk :=
  mkPartDisk (settle (pd_segment (ps_disk second))) (settle (pd_watermark (ps_disk second)))
    (settle (pd_sidecar (ps_disk second))) ∅.
Definition third : PS := (opened after_loss).1.
Lemma sample_legible offset stored_at : sample offset stored_at ∈ samples -> legible (sample offset stored_at).
Proof.
  unfold samples. intros H. assert (Hcase : sample offset stored_at = sample 0 5 \/ sample offset stored_at = sample 1 20) by set_solver.
  by destruct Hcase as [-> | ->]; (split; [vm_compute; reflexivity|apply (bool_decide_unpack _); vm_compute; exact I|
    vm_compute; reflexivity|vm_compute; discriminate|vm_compute; reflexivity]).
Qed.

Lemma power_lost : outlives (ps_disk second) after_loss.
Proof.
  split_and!; [eexists; split; [|reflexivity]; vm_compute; by left..|].
  intros name. exists None. split; [|reflexivity]. vm_compute. by left.
Qed.

Lemma sample_reachable : reachable (lit "p0") (lit "p0.jsonl") (lit "partition 0") no_text false
  (mkSys (ps_disk third) (Up (ps_part third)) [sample 0 5] 0).
Proof.
  apply (reach_step _ _ _ _ _ (mkSys after_loss Booted [sample 0 5] 0)).
  - apply (reach_step _ _ _ _ _ (mkSys (ps_disk second) (Up (ps_part second)) [sample 0 5] 0)); [|apply step_restart, power_lost].
    apply (reach_step _ _ _ _ _ (mkSys (ps_disk first) (Up (ps_part first)) [] 0)).
    + apply (reach_step _ _ _ _ _ init); [constructor|]. by apply (step_open _ _ _ _ _ no_fault blank_disk [] 0 (opened blank_disk)).
    + assert (Hr : mkSys (ps_disk second) (Up (ps_part second)) [sample 0 5] 0 =
        mkSys (ps_disk (publish_sample 0 5 first).1) (after_call (publish_sample 0 5 first)) (after_publish (publish_sample 0 5 first) []) 0)
        by (vm_compute; reflexivity).
      rewrite Hr. apply (step_publish _ _ _ _ _ no_fault _ (ps_part first) [] 0 5 0 (lit "k") (sample_value (lit "u" ++ fmt_int 0)));
        [|reflexivity]. split; [apply (sample_legible 0 5); by left|vm_compute; discriminate].
  - by apply (step_open _ _ _ _ _ no_fault after_loss [sample 0 5] 0 (opened after_loss)).
Qed.

(** Another process opens what a retention pass left that died after renaming the segment,
    and acknowledges an event; no power loss in between. *)
Definition dies_at_directory : IoOp -> nat -> IoFate := fun op n =>
  if decide (op = OpSyncDir /\ n = 11%nat) then Dies 0 else Done.
Definition cut_short : PS * outcome Z :=
  run (retain_partition dies_at_directory (lit "p0.jsonl") no_text false 10) (ps_disk second) (ps_part second).
Definition reopened : PS * outcome Z := opened (ps_disk cut_short.1).
Definition acknowledged : PS * outcome Z := publish_sample 1 20 reopened.1.
End Run.



Lemma after_loss_reachable : @reachable SampleJson (lit "p0") (lit "p0.jsonl") (lit "partition 0") no_text false
  (mkSys after_loss Booted [sample 0 5] 0).
Proof.
  eapply reach_step; [apply sample_reachable|]. apply step_restart. split_and!; [eexists; split; [|reflexivity]; vm_compute; by left..|].
  intros name. exists None. split; [|reflexivity]. vm_compute. by left.
Qed.

Lemma recovery_succeeds_witness : exists st torn,
  run (@open_partition SampleJson no_fault (lit "p0")) after_loss closed = (st, Ret torn) /\ poisoned (ps_part st) = None /\ 0 <= torn <= 1.
Proof.
  apply (@recovery_succeeds SampleJson (lit "p0") (lit "p0.jsonl") (lit "partition 0") no_text false no_fault after_loss [sample 0 5] 0).
  - apply after_loss_reachable.
  - by intros op n.
Defined.

Lemma republish_is_idempotent_witness :
  run (@publish_record SampleJson no_fault (lit "partition 0") 30 0 (lit "k") (sample_value (lit "u0")) (Some (lit "u0")))
    (ps_disk third) (ps_part third) = (mkPS (ps_disk third) (ps_part third) 0, Ret 0).
Proof.
  apply (@republish_is_idempotent SampleJson (lit "p0") (lit "p0.jsonl") (lit "partition 0") no_text false no_fault
    (ps_disk third) (ps_part third) [sample 0 5] 0 (sample 0 5) (lit "u0") 30 0 (lit "k") (sample_value (lit "u0"))).
  - apply sample_reachable.
  - vm_compute. reflexivity.
  - by left.
  - vm_compute. discriminate.
  - vm_compute. reflexivity.
  - vm_compute. reflexivity.
Defined.

(** A retention pass that dies between the rename of the segment and the
    synchronization of its directory, followed by a process that opens the partition with
    the rename still only in the page cache: recovery does not synchronize the directory,
    so a power loss undoes the rename, and with it an event that was acknowledged since. *)
Theorem unsynchronized_rename_loses_an_acknowledgement :
  cut_short.2 = Dead /\ reopened.2 = Ret 0 /\ acknowledged.2 = Ret 1 /\
  exists d, outlives (ps_disk acknowledged.1) d /\
    (run (@fetch_partition SampleJson no_fault 0 10) d (ps_part acknowledged.1)).2 = Ret [sample 0 5] /\
    (opened d).2 = Ret 0 /\ next_offset (ps_part (opened d).1) = 1.
Proof.
  split_and!; [vm_compute; reflexivity..|].
  exists (mkPartDisk (slot_of (visible (pd_segment (ps_disk second)))) (settle (pd_watermark (ps_disk acknowledged.1)))
    (settle (pd_sidecar (ps_disk acknowledged.1))) ∅).
  split_and!; [|vm_compute; reflexivity..]. split_and!; [eexists; split; [|reflexivity]; vm_compute; by left..|].
  intros name. exists None. split; [|reflexivity]. vm_compute. by left.
Qed.
