(* ===== verification/BridgeManifest.v ===== *)
(** [av-bridge/src/manifest.rs]: the manifest of a bridge, what [validate] and [from_yaml]
    accept, and that a bridge provisioned from a manifest opens again. *)

From S2P Require Import Prelude Rust CoreBase Events.

(** * Data *)

Definition MANIFEST_VERSION : Z := 1.

Record RetentionSpec := mkRetention { hot_hours : Z; cold_uri : option str }.

Record TopicSpec := mkTopic {
  tp_name : str;
  tp_partitions : Z;
  tp_retention : RetentionSpec;
  tp_schema_ref : option str;
}.

Record BridgeManifest := mkManifest {
  manifest_version : Z;
  bm_name : str;
  replication_factor : Z;
  bm_topics : list TopicSpec;
}.

#[global] Instance RetentionSpec_eq_dec : EqDecision RetentionSpec.
Proof. solve_decision. Defined.
#[global] Instance TopicSpec_eq_dec : EqDecision TopicSpec.
Proof. solve_decision. Defined.
#[global] Instance BridgeManifest_eq_dec : EqDecision BridgeManifest.
Proof. solve_decision. Defined.

Definition default_retention : RetentionSpec := mkRetention 720 None.
Definition default_replication_factor : Z := 1.

(** A topic for every event class. *)
Definition default_for (name : str) : BridgeManifest :=
  mkManifest MANIFEST_VERSION name default_replication_factor
    (map (fun c => mkTopic (EventClass.topic c) 8 default_retention (Some (lit "schemas/ocsf-agent-event.schema.json")))
       EventClass.all).

Inductive ManifestError := Version (v : Z) | Parse (e : str) | Invalid (e : str).

Definition fmt_manifest_error (e : ManifestError) : str :=
  match e with
  | Version v => lit "unsupported manifest_version " ++ fmt_int v ++ lit " (this build supports " ++ fmt_int MANIFEST_VERSION ++ lit ")"
  | Parse e => lit "manifest parse: " ++ e
  | Invalid e => lit "manifest invalid: " ++ e
  end.

(** [serde_yaml] on the derived types. *)
Class Yaml := {
  parse_manifest : str -> result BridgeManifest str;
  print_manifest : BridgeManifest -> result str str;
}.

(** * Names *)

Definition ascii_lower (c : Z) : Z := if is_ascii_uppercase c then c + 32 else c.
Definition to_ascii_lowercase (s : str) : str := map ascii_lower s.

(** [name.to_ascii_lowercase().replace('.', "_")]. *)
Definition stream_fold (s : str) : str := map (fun c => if c =? 46 then 95 else c) (to_ascii_lowercase s).

Definition str_le (a b : str) : Prop := lex_cmp a b <> Gt.

#[global] Instance str_le_dec : RelDecision str_le.
Proof. intros a b. unfold str_le. destruct (lex_cmp a b); [left|left|right]; congruence. Defined.

(** [Vec::dedup]: consecutive repetitions are removed. *)
Fixpoint dedup (l : list str) : list str :=
  match l with
  | x :: ((y :: _) as r) => if str_eqb x y then dedup r else x :: dedup r
  | _ => l
  end.

(** [sort_unstable], [dedup], and the comparison of the lengths. *)
Definition has_duplicates (names : list str) : bool :=
  let sorted := merge_sort str_le names in negb (length (dedup sorted) =? length sorted)%nat.

Definition name_byte (b : Z) : bool := is_ascii_alphanumeric b || (b =? 46) || (b =? 95) || (b =? 45).

(** * Paths *)

Inductive Component := RootDir | CurDir | ParentDir | Normal (s : str).

(** The pieces between the separators. *)
Fixpoint pieces (cur : str) (s : str) : list str :=
  match s with
  | [] => [cur]
  | c :: r => if c =? 47 then cur :: pieces [] r else pieces (cur ++ [c]) r
  end.

(** A piece after the first: empty pieces and [.] are skipped. *)
Definition component_of (piece : str) : option Component :=
  if bool_decide (piece = []) || bool_decide (piece = lit ".") then None
  else if bool_decide (piece = lit "..") then Some ParentDir else Some (Normal piece).

Definition is_absolute (s : str) : bool := match s with 47 :: _ => true | _ => false end.

(** [Path::components] on Unix: a leading [.] of a relative path is kept. *)
Definition components (s : str) : list Component :=
  match pieces [] s with
  | [] => []
  | first :: rest =>
      (if is_absolute s then [RootDir]
       else if bool_decide (first = lit ".") then [CurDir]
       else match component_of first with Some c => [c] | None => [] end)
      ++ omap component_of rest
  end.

Definition is_normal (c : Component) : bool := match c with Normal _ => true | _ => false end.
Definition is_parent (c : Component) : bool := match c with ParentDir => true | _ => false end.

(** * validate *)

Section Validate.
Context {UT : UnicodeTables}.

Definition refuse_if (b : bool) (e : ManifestError) : result unit ManifestError := if b then Err e else Ok tt.

Definition has_marker (s : str) : bool := existsb (fun c => (c =? 38) || (c =? 42)) s.

Definition refuse_yaml_marker_chars (field value : str) : result unit ManifestError :=
  refuse_if (has_marker value)
    (Invalid (field ++ lit " " ++ fmt_debug value ++ lit " contains '&' or '*', which the YAML anchor/alias guard "
              ++ lit "refuses at parse time; remove those characters so the provisioned manifest can be re-opened")).

Definition MAX_PARTITIONS : Z := 1024.
Definition MAX_HOT_HOURS : Z := 24 * 365 * 10.
Definition MAX_REFERENCE_BYTES : Z := 4096.

Definition topic_text (t : TopicSpec) : str := lit "topic " ++ fmt_debug (tp_name t).

Definition validate_schema_ref (t : TopicSpec) (reference : str) : result unit ManifestError :=
  let? _ := refuse_yaml_marker_chars (lit "schema_ref") reference in
  let? _ := refuse_if (bool_decide (reference = []))
    (Invalid (topic_text t ++ lit " schema_ref is empty (schema requires minLength 1); omit the field instead")) in
  let? _ := refuse_if (MAX_REFERENCE_BYTES <? str_len reference)
    (Invalid (lit "schema_ref exceeds the schema maxLength of " ++ fmt_int MAX_REFERENCE_BYTES ++ lit " bytes ("
              ++ fmt_int (str_len reference) ++ lit ")")) in
  refuse_if (is_absolute reference || existsb (fun c => negb (is_normal c)) (components reference))
    (Invalid (lit "unsafe schema_ref " ++ fmt_debug reference)).

Definition validate_cold_uri (t : TopicSpec) (uri : str) : result unit ManifestError :=
  let? _ := refuse_yaml_marker_chars (lit "cold_uri") uri in
  let? _ := refuse_if (bool_decide (uri = []))
    (Invalid (topic_text t
              ++ lit " cold_uri is empty (schema requires minLength 1); omit the field to disable cold export")) in
  let? _ := refuse_if (MAX_REFERENCE_BYTES <? str_len uri)
    (Invalid (lit "cold_uri exceeds the schema maxLength of " ++ fmt_int MAX_REFERENCE_BYTES ++ lit " bytes ("
              ++ fmt_int (str_len uri) ++ lit ")")) in
  if contains (lit "://") uri then Ok tt
  else refuse_if (existsb is_parent (components uri))
    (Invalid (lit "unsafe cold_uri " ++ fmt_debug uri ++ lit " (must not contain `..` components; use a scheme URI or a "
              ++ lit "concrete absolute/relative path with no parent-directory traversal)")).

Definition validate_topic (t : TopicSpec) : result unit ManifestError :=
  let name := tp_name t in
  let? _ := refuse_if (bool_decide (name = []) || negb (forallb name_byte (as_bytes name))
                       || bool_decide (name = lit ".") || bool_decide (name = lit ".."))
    (Invalid (lit "unsafe topic name " ++ fmt_debug name)) in
  let? _ := refuse_if (249 <? str_len name)
    (Invalid (lit "topic name " ++ fmt_debug (take 24 name) ++ lit "... is " ++ fmt_int (str_len name)
              ++ lit " bytes, above the 249-byte limit")) in
  let? _ := refuse_if (tp_partitions t =? 0) (Invalid (topic_text t ++ lit " has 0 partitions")) in
  let? _ := refuse_if (MAX_PARTITIONS <? tp_partitions t)
    (Invalid (topic_text t ++ lit " partitions " ++ fmt_int (tp_partitions t) ++ lit " exceeds cap of " ++ fmt_int MAX_PARTITIONS)) in
  let hours := hot_hours (tp_retention t) in
  let? _ := refuse_if (hours =? 0) (Invalid (topic_text t ++ lit " has 0h retention")) in
  let? _ := refuse_if (MAX_HOT_HOURS <? hours)
    (Invalid (topic_text t ++ lit " hot_hours " ++ fmt_int hours ++ lit " exceeds cap of " ++ fmt_int MAX_HOT_HOURS
              ++ lit " (10 years)")) in
  let? _ := match tp_schema_ref t with Some r => validate_schema_ref t r | None => Ok tt end in
  match cold_uri (tp_retention t) with Some uri => validate_cold_uri t uri | None => Ok tt end.

Fixpoint validate_topics (l : list TopicSpec) : result unit ManifestError :=
  match l with
  | [] => Ok tt
  | t :: rest => let? _ := validate_topic t in validate_topics rest
  end.

Definition validate (m : BridgeManifest) : result unit ManifestError :=
  let? _ := refuse_if (negb (manifest_version m =? MANIFEST_VERSION)) (Version (manifest_version m)) in
  let? _ := refuse_if (bool_decide (bm_name m = [])) (Invalid (lit "name is empty")) in
  let? _ := refuse_yaml_marker_chars (lit "name") (bm_name m) in
  let? _ := refuse_if (bool_decide (bm_topics m = [])) (Invalid (lit "no topics declared")) in
  let? _ := refuse_if (256 <? length (bm_topics m))%nat
    (Invalid (fmt_int (Z.of_nat (length (bm_topics m))) ++ lit " topics declared, above the schema maximum of 256")) in
  let? _ := refuse_if (negb ((1 <=? replication_factor m) && (replication_factor m <=? 5)))
    (Invalid (lit "replication_factor must be between 1 and 5")) in
  let names := map tp_name (bm_topics m) in
  let? _ := refuse_if (has_duplicates names) (Invalid (lit "duplicate topic names")) in
  let? _ := refuse_if (has_duplicates (map to_ascii_lowercase names))
    (Invalid (lit "topic names collide case-insensitively (unsafe on case-insensitive filesystems)")) in
  let? _ := refuse_if (has_duplicates (map stream_fold names))
    (Invalid (lit "topic names collide after '.'" ++ 0x2192 :: lit "'_' folding (ambiguous NATS stream names)")) in
  validate_topics (bm_topics m).

(** * from_yaml *)

Definition MAX_YAML_BYTES : Z := 256 * 1024.

Definition anchor_char (c : Z) : bool := is_ascii_alphanumeric c || (c =? 95) || (c =? 45).

(** A marker followed by a character of an anchor name. *)
Fixpoint has_anchor (marker : Z) (s : str) : bool :=
  match s with
  | c :: ((next :: _) as r) => (c =? marker) && anchor_char next || has_anchor marker r
  | _ => false
  end.

Definition anchor_error (kind : str) (marker : Z) : ManifestError :=
  Parse (lit "manifest contains a YAML " ++ kind ++ lit " ('" ++ [marker]
         ++ lit "<name>'); AgentVisor AI refuses anchor/alias syntax to close the billion-laughs attack surface "
         ++ lit "(serde_yaml expands aliases with no cap). Rewrite the document without &/* references.").

Definition guard_yaml (yaml : str) : result unit ManifestError :=
  let? _ := refuse_if (MAX_YAML_BYTES <? str_len yaml)
    (Parse (lit "manifest is " ++ fmt_int (str_len yaml) ++ lit " bytes, exceeds cap of " ++ fmt_int MAX_YAML_BYTES)) in
  let? _ := refuse_if (has_anchor 38 yaml) (anchor_error (lit "anchor") 38) in
  refuse_if (has_anchor 42 yaml) (anchor_error (lit "alias") 42).

Context {YM : Yaml}.

Definition from_yaml (yaml : str) : result BridgeManifest ManifestError :=
  let? _ := guard_yaml yaml in
  match parse_manifest yaml with
  | Err e => Err (Parse e)
  | Ok m => let? _ := validate m in Ok m
  end.

Definition to_yaml (m : BridgeManifest) : result str ManifestError :=
  match print_manifest m with Ok y => Ok y | Err e => Err (Parse e) end.
End Validate.
