(* ===== verification/BridgeManifestProofs.v ===== *)
(** What [validate] accepts, and that an accepted manifest opens again. *)

From Stdlib Require Import Sorting.Sorted.
From S2P Require Import Prelude Rust CoreBase Events BridgeManifest.

(** * Duplicates *)

#[global] Instance str_le_trans : Transitive str_le.
Proof. intros a b c. apply lex_cmp_trans. Qed.

#[global] Instance str_le_total : Total str_le.
Proof. intros a b. unfold str_le. rewrite (lex_cmp_antisym a b). destruct (lex_cmp a b); cbn; by (left + right). Qed.

#[global] Instance str_le_antisym : AntiSymm eq str_le.
Proof. 
  intros a b. unfold str_le. rewrite (lex_cmp_antisym a b). destruct (lex_cmp a b) eqn:E; cbn; try done.
  by apply lex_cmp_eq in E.
Qed.

Lemma dedup_cons x y r : dedup (x :: y :: r) = if str_eqb x y then dedup (y :: r) else x :: dedup (y :: r).
Proof. done. Qed.

Lemma dedup_length l : (length (dedup l) <= length l)%nat.
Proof.
  induction l as [|x [|y r] IH]; [done|done|]. rewrite dedup_cons. destruct (str_eqb x y); cbn [length] in *; lia.
Qed.

Lemma dedup_sorted l : StronglySorted str_le l -> length (dedup l) = length l <-> NoDup l.
Proof.
  induction 1 as [|x l Hs IH Hall]; [by split; [constructor|]|]. destruct l as [|y r].
  { split; [intros _|done]. apply NoDup_singleton. }
  rewrite dedup_cons. pose proof (dedup_length (y :: r)) as Hle. unfold str_eqb. case_bool_decide as Hxy.
  - split; [intros ?; cbn [length] in *; lia|]. subst y. intros Hd. apply NoDup_cons in Hd as [Hd _]. destruct Hd. by left.
  - cbn [length] in *. rewrite NoDup_cons. split.
    + intros Hl. split; [|apply IH; lia]. intros [Heq|Hin]%elem_of_cons; [done|].
      apply Hxy. apply (anti_symm str_le); [by apply Forall_cons in Hall as [? _]|].
      apply StronglySorted_inv in Hs as [_ Hy]. rewrite Forall_forall in Hy. by apply Hy.
    + intros [_ Hd]. apply IH in Hd. lia.
Qed.

Lemma has_duplicates_spec l : has_duplicates l = false <-> NoDup l.
Proof.
  unfold has_duplicates. rewrite negb_false_iff, Nat.eqb_eq.
  rewrite dedup_sorted by apply (StronglySorted_merge_sort str_le). by rewrite merge_sort_Permutation.
Qed.

(** * What is accepted *)

Lemma refuse_if_ok b e : refuse_if b e = Ok tt <-> b = false.
Proof. by destruct b. Qed.

Lemma seq_ok {E} (r : result unit E) (k : result unit E) : (let? _ := r in k) = Ok tt <-> r = Ok tt /\ k = Ok tt.
Proof. destruct r as [[]|e]; naive_solver. Qed.

Definition unmarked (s : str) : Prop := Forall (fun c => c <> 38 /\ c <> 42) s.

Lemma has_marker_spec s : has_marker s = false <-> unmarked s.
Proof.
  unfold has_marker, unmarked. induction s as [|c s IH]; cbn [existsb]; [by split; [constructor|]|].
  rewrite orb_false_iff, IH, Forall_cons, orb_false_iff, !Z.eqb_neq. done.
Qed.

Definition safe_reference (r : str) : Prop :=
  unmarked r /\ 0 < str_len r <= 4096 /\ is_absolute r = false /\ Forall (fun c => is_normal c = true) (components r).

Definition safe_cold_uri (uri : str) : Prop :=
  unmarked uri /\ 0 < str_len uri <= 4096 /\
  (contains (lit "://") uri = true \/ ParentDir ∉ components uri).

Definition from_opt (P : str -> Prop) (o : option str) : Prop := match o with Some s => P s | None => True end.

Record acceptable_topic (t : TopicSpec) : Prop := {
  at_name : Forall (fun b => name_byte b = true) (as_bytes (tp_name t)) /\ 0 < str_len (tp_name t) <= 249 /\
    tp_name t <> lit "." /\ tp_name t <> lit "..";
  at_partitions : tp_partitions t <> 0 /\ tp_partitions t <= 1024;
  at_hours : hot_hours (tp_retention t) <> 0 /\ hot_hours (tp_retention t) <= 87600;
  at_schema : from_opt safe_reference (tp_schema_ref t);
  at_cold : from_opt safe_cold_uri (cold_uri (tp_retention t));
}.

(** Topics have distinct directories on a case-insensitive file system and distinct NATS
    streams. *)
Record acceptable (m : BridgeManifest) : Prop := {
  ac_version : manifest_version m = 1;
  ac_name : bm_name m <> [] /\ unmarked (bm_name m);
  ac_topics : (0 < length (bm_topics m) <= 256)%nat;
  ac_replication : 1 <= replication_factor m <= 5;
  ac_distinct : NoDup (map (fun t => stream_fold (tp_name t)) (bm_topics m));
  ac_each : Forall acceptable_topic (bm_topics m);
}.

Lemma str_len_positive s : s <> [] <-> 0 < str_len s.
Proof.
  destruct s as [|c s]; cbn [str_len]; [done|]. assert (0 <= str_len s) by (induction s as [|a s IH]; cbn [str_len]; [done|];
    assert (0 < len_utf8 a) by (unfold len_utf8; repeat case_match; lia); lia).
  assert (0 < len_utf8 c) by (unfold len_utf8; repeat case_match; lia). split; [lia|done].
Qed.

Section Accepts.
Context {UT : UnicodeTables}.

Lemma schema_ref_ok t r : validate_schema_ref t r = Ok tt <-> safe_reference r.
Proof.
  unfold validate_schema_ref, refuse_yaml_marker_chars, safe_reference, MAX_REFERENCE_BYTES.
  rewrite !seq_ok, !refuse_if_ok, has_marker_spec, bool_decide_eq_false, Z.ltb_ge, orb_false_iff, str_len_positive.
  assert (Hn : existsb (fun c => negb (is_normal c)) (components r) = false <-> Forall (fun c => is_normal c = true) (components r)).
  { induction (components r) as [|c l IH]; cbn [existsb]; [by split; [constructor|]|].
    by rewrite orb_false_iff, IH, Forall_cons, negb_false_iff. }
  rewrite Hn. naive_solver.
Qed.

Lemma cold_uri_ok t uri : validate_cold_uri t uri = Ok tt <-> safe_cold_uri uri.
Proof.
  unfold validate_cold_uri, refuse_yaml_marker_chars, safe_cold_uri, MAX_REFERENCE_BYTES.
  rewrite !seq_ok, !refuse_if_ok, has_marker_spec, bool_decide_eq_false, Z.ltb_ge, str_len_positive.
  assert (Hp : existsb is_parent (components uri) = false <-> ParentDir ∉ components uri).
  { induction (components uri) as [|c l IH]; cbn [existsb]; [by split; [intros _ ?%elem_of_nil|]|].
    rewrite orb_false_iff, IH, not_elem_of_cons. destruct c; naive_solver. }
  destruct (contains _ uri); [naive_solver|]. rewrite refuse_if_ok, Hp. naive_solver.
Qed.

Lemma opt_ok (f : str -> result unit ManifestError) (P : str -> Prop) o : (forall s, f s = Ok tt <-> P s) ->
  match o with Some s => f s | None => Ok tt end = Ok tt <-> from_opt P o.
Proof. intros H. by destruct o; cbn. Qed.

Lemma forallb_Forall_true {A} (f : A -> bool) l : forallb f l = true <-> Forall (fun x => f x = true) l.
Proof. induction l as [|x l IH]; cbn [forallb]; [by split; [constructor|]|]. by rewrite andb_true_iff, IH, Forall_cons. Qed.

Lemma topic_ok t : validate_topic t = Ok tt <-> acceptable_topic t.
Proof.
  unfold validate_topic, MAX_PARTITIONS, MAX_HOT_HOURS. cbv zeta. rewrite !seq_ok, !refuse_if_ok.
  rewrite (opt_ok _ safe_reference) by apply schema_ref_ok. rewrite (opt_ok _ safe_cold_uri) by apply cold_uri_ok.
  rewrite !orb_false_iff, !bool_decide_eq_false, negb_false_iff, forallb_Forall_true, !Z.ltb_ge, !Z.eqb_neq, str_len_positive.
  split; [|intros []; naive_solver lia]. intros H. split; naive_solver lia.
Qed.

Lemma topics_ok l : validate_topics l = Ok tt <-> Forall acceptable_topic l.
Proof.
  induction l as [|t l IH]; cbn [validate_topics]; [by split; [constructor|]|]. by rewrite seq_ok, topic_ok, IH, Forall_cons.
Qed.

(** [validate] accepts exactly the manifests of version 1 with a name, one to 256
    topics whose names stay distinct when case and dots are folded, a replication factor of
    one to five, and in every topic a safe name, bounded partitions and retention, and
    references that stay inside their directory. *)
Theorem validate_exact m : validate m = Ok tt <-> acceptable m.
Proof.
  unfold validate, refuse_yaml_marker_chars, MANIFEST_VERSION. cbv zeta.
  rewrite !seq_ok, !refuse_if_ok, !has_duplicates_spec, topics_ok, has_marker_spec, !bool_decide_eq_false, !negb_false_iff,
    andb_true_iff, !Z.leb_le, Z.eqb_eq, Nat.ltb_ge, !map_map.
  split.
  - intros (?&?&?&Ht&?&?&_&_&?&?). split; try done. destruct (bm_topics m); [done|cbn [length] in *; lia].
  - intros [? [? ?] Ht ? Hd ?]. split_and!; try done; try lia.
    + intros He. rewrite He in Ht. cbn in Ht. lia.
    + apply (NoDup_fmap_1 stream_fold). by rewrite <- list_fmap_compose.
    + apply (NoDup_fmap_1 (map (fun c => if c =? 46 then 95 else c))). by rewrite <- list_fmap_compose.
Qed.
End Accepts.

(** The default manifest is accepted under every name that can be written. *)
Lemma default_manifest_acceptable name : acceptable (default_for name) <-> name <> [] /\ unmarked name.
Proof.
  split; [by intros [_ Hn _ _ _ _]|]. intros Hn. split; [done|done|cbn; lia|done|..].
  - apply (bool_decide_unpack _). vm_compute. exact I.
  - unfold default_for. cbn [bm_topics]. apply Forall_forall. intros t Ht. apply list_elem_of_fmap in Ht as (c & -> & _).
    split; [..|cbn|done].
    + destruct c; (split_and!; [apply forallb_Forall_true; vm_compute; done|vm_compute; done..]).
    + done.
    + done.
    + split_and!; [apply has_marker_spec; vm_compute; done|vm_compute; done..|].
      apply forallb_Forall_true. vm_compute. done.
Qed.

(** * Opening what was provisioned *)

(** The strings of a manifest. *)
Definition topic_strings (t : TopicSpec) : list str :=
  tp_name t :: option_list (tp_schema_ref t) ++ option_list (cold_uri (tp_retention t)).
Definition manifest_strings (m : BridgeManifest) : list str := bm_name m :: mjoin (map topic_strings (bm_topics m)).

Lemma name_unmarked s : Forall (fun b => name_byte b = true) (as_bytes s) -> unmarked s.
Proof.
  unfold unmarked, as_bytes. induction s as [|c s IH]; cbn [map List.concat]; [constructor|]. rewrite Forall_app.
  intros [Hc Hs]. constructor; [|by apply IH]. split; intros ->; apply Forall_cons in Hc as [Hc _]; done.
Qed.

Lemma acceptable_strings m : acceptable m -> Forall unmarked (manifest_strings m).
Proof.
  intros [_ [_ Hn] _ _ _ He]. constructor; [done|]. induction He as [|t l [[Hb _] _ _ Hs Hc] He IH]; [constructor|].
  cbn [map]. change (Forall unmarked (topic_strings t ++ mjoin (map topic_strings l))). apply Forall_app. split; [|done].
  constructor; [by apply name_unmarked|]. apply Forall_app. split.
  - destruct (tp_schema_ref t) as [r|]; constructor; [apply Hs|constructor].
  - destruct (cold_uri (tp_retention t)) as [u|]; constructor; [apply Hc|constructor].
Qed.

Lemma unmarked_no_anchor marker s : marker = 38 \/ marker = 42 -> unmarked s -> has_anchor marker s = false.
Proof.
  intros Hm. induction 1 as [|c s Hc Hs IH]; [done|]. cbn [has_anchor]. destruct s as [|d s]; [done|].
  rewrite IH, (proj2 (Z.eqb_neq c marker)) by (destruct Hm; lia). done.
Qed.

Section Reopen.
Context {UT : UnicodeTables} {YM : Yaml}.
(** [serde_yaml] reads back what it writes, and writes no marker that the strings of the
    document do not have. *)
Context (yaml_back : forall m y, print_manifest m = Ok y -> parse_manifest y = Ok m).
Context (yaml_marks : forall m y, print_manifest m = Ok y -> Forall unmarked (manifest_strings m) -> unmarked y).

(** A manifest that a bridge can be provisioned from is read back as itself when the
    bridge is opened: the anchor guard never refuses what [validate] accepted, as long as
    the document stays under the size cap of the reader. *)
Theorem provisioned_manifest_reopens m y : validate m = Ok tt -> to_yaml m = Ok y -> str_len y <= MAX_YAML_BYTES ->
  from_yaml y = Ok m.
Proof.
  intros Hv Hy Hlen. unfold to_yaml in Hy. destruct (print_manifest m) as [y'|e] eqn:Hp; [|done]. injection Hy as ->.
  assert (Hu : unmarked y) by (by eapply yaml_marks, acceptable_strings, validate_exact).
  unfold from_yaml, guard_yaml. rewrite (proj2 (Z.ltb_ge _ _)) by done.
  rewrite !unmarked_no_anchor by auto. cbn [refuse_if]. by rewrite (yaml_back _ _ Hp), Hv.
Qed.
End Reopen.

(** ** The cap of the reader and the caps of [validate] *)

(** 65 topics, each with a cold directory of 4096 bytes. *)
Definition long_uri : str := replicate 4096 97.
Definition long_topic (n : nat) : TopicSpec :=
  mkTopic (lit "t" ++ fmt_int (Z.of_nat n)) 1 (mkRetention 720 (Some long_uri)) None.
Definition total_len (l : list str) : Z := fold_right (fun s n => str_len s + n) 0 l.
Definition long_manifest : BridgeManifest := mkManifest 1 (lit "bridge") 1 (map long_topic (seq 0 65)).

Lemma long_uri_safe : safe_cold_uri long_uri.
Proof.
  split_and!; [|vm_compute; done..|].
  - apply Forall_replicate. split; lia.
  - right. rewrite list_elem_of_In. vm_compute. by intros [?|[]].
Qed.

(** [validate] bounds every field but not the document: the bytes of this manifest alone
    exceed the cap of [from_yaml], so a bridge provisioned from it never opens. *)
Lemma valid_manifest_above_the_cap {UT : UnicodeTables} : validate long_manifest = Ok tt /\
  forall y, total_len (manifest_strings long_manifest) <= str_len y -> exists e, guard_yaml y = Err (Parse e).
Proof.
  split.
  - apply validate_exact. split; try done.
    + split; [done|]. apply has_marker_spec. vm_compute. done.
    + cbn. lia.
    + apply (bool_decide_unpack _). vm_compute. exact I.
    + unfold long_manifest. cbn [bm_topics]. apply Forall_fmap, Forall_forall. intros n Hn.
      assert (Hname : Forall (fun n => forallb name_byte (as_bytes (tp_name (long_topic n))) && (0 <? str_len (tp_name (long_topic n)))
        && (str_len (tp_name (long_topic n)) <=? 249) && negb (bool_decide (tp_name (long_topic n) = lit "."))
        && negb (bool_decide (tp_name (long_topic n) = lit "..")) = true) (seq 0 65)).
      { apply forallb_Forall_true. vm_compute. done. }
      rewrite Forall_forall in Hname. specialize (Hname n Hn). rewrite !andb_true_iff, !negb_true_iff, !bool_decide_eq_false,
        Z.ltb_lt, Z.leb_le, forallb_Forall_true in Hname. split; try done; [naive_solver|]. apply long_uri_safe.
  - intros y Hy. assert (Hlen : MAX_YAML_BYTES < total_len (manifest_strings long_manifest)) by (vm_compute; done).
    unfold guard_yaml. rewrite (proj2 (Z.ltb_lt _ _)) by lia. by eexists.
Qed.

(** ** A manifest and its document *)

Definition sample_manifest : BridgeManifest :=
  mkManifest 1 (lit "edge") 1 [mkTopic (lit "agent.tool_call") 8 (mkRetention 720 (Some (lit "/mnt/cold"))) None].
Definition sample_document : str := lit "manifest_version: 1, name: edge".

Definition SampleYaml : Yaml := {|
  parse_manifest y := if str_eqb y sample_document then Ok sample_manifest else Err (lit "unknown document");
  print_manifest m := if bool_decide (m = sample_manifest) then Ok sample_document else Err (lit "unknown manifest");
|}.

Lemma provisioned_manifest_reopens_witness : @from_yaml ascii_tables SampleYaml sample_document = Ok sample_manifest.
Proof.
  apply (@provisioned_manifest_reopens ascii_tables SampleYaml).
  - intros m y. cbn. case_bool_decide as Hm; [|done]. subst m. by intros [= <-].
  - intros m y. cbn. case_bool_decide as Hm; [|done]. intros [= <-] _. apply has_marker_spec. vm_compute. reflexivity.
  - vm_compute. reflexivity.
  - vm_compute. reflexivity.
  - vm_compute. discriminate.
Defined.
