(* ===== verification/Broker.v ===== *)
(** [av-bridge/src/embedded.rs], the broker around the partitions, and what [bus.rs] gives
    every bus: routing, the checks of a publication, lookups and retention. *)

From S2P Require Import Prelude Rust CoreBase Json Sandbox Worker WorkerQueue Disk EventLog BridgeManifest.

(** * bus.rs *)

Fixpoint find_uid (uid : str) (events : list StoredEvent) : option StoredEvent :=
  match events with
  | [] => None
  | e :: rest => if bool_decide (event_uid e = Some uid) then Some e else find_uid uid rest
  end.

Definition PAGE : nat := 1024.

(** The loop of the default [find_event_by_uid] over [fetch]. *)
Fixpoint find_event_from (fuel : nat) (fetch : Z -> nat -> result (list StoredEvent) BusError) (topic : str) (partition : Z)
    (uid : str) (offset : Z) : option (result (option PublishAck) BusError) :=
  match fuel with
  | O => None
  | S fuel' =>
      match fetch offset PAGE with
      | Err e => Some (Err e)
      | Ok [] => Some (Ok None)
      | Ok events =>
          match find_uid uid events with
          | Some e => Some (Ok (Some (mkAck topic partition (se_offset e))))
          | None =>
              match last events with
              | Some e =>
                  let next := se_offset e + 1 in
                  if u64_max <? next then Some (Err (Backend (lit "event lookup offset overflow")))
                  else if next <=? offset then Some (Err (Backend (lit "event lookup made no offset progress")))
                  else find_event_from fuel' fetch topic partition uid next
              | None => Some (Err (Backend (lit "event lookup offset overflow")))
              end
          end
      end
  end.

(** * The broker *)

(** The files of a partition and the partition. *)
Notation Cell := (PartDisk * Partition)%type.

Section Broker.
Context {UT : UnicodeTables} {EJ : EventJson} {JS : JsonSchema}.

Definition fmt_bus_error (e : BusError) : str :=
  match e with
  | UnknownTopic topic => lit "unknown topic " ++ fmt_debug topic ++ lit " (provision it via the manifest first)"
  | BusIo e => lit "bus io: " ++ e
  | BusSerde e => lit "bus serde: " ++ e
  | Backend e => lit "bus backend: " ++ e
  end.

Record Broker := mkBroker {
  bk_topics : list TopicSpec;
  bk_parts : gmap str (list Cell);
  bk_validators : gmap str Validator;
}.

Definition with_cell (topic : str) (i : nat) (c : Cell) (b : Broker) : Broker :=
  mkBroker (bk_topics b) (alter (fun cells => <[i := c]> cells) topic (bk_parts b)) (bk_validators b).

Definition stem_of (i : Z) : str := lit "p" ++ fmt_int i.

(** [part.path.display()] below the data directory. *)
Definition segment_of (data_dir topic : str) (i : Z) : str :=
  data_dir ++ lit "/topics/" ++ topic ++ lit "/" ++ stem_of i ++ lit ".jsonl".

Definition describe_partition (topic : str) (i : Z) : str :=
  lit "partition " ++ fmt_int i ++ lit " of topic " ++ fmt_debug topic.

Definition out_of_range (i : Z) : BusError := Backend (lit "partition " ++ fmt_int i ++ lit " out of range").

(** Where a key of a topic goes. *)
Definition route (b : Broker) (topic key : str) : result (Z * Cell) BusError :=
  match bk_parts b !! topic with
  | None => Err (UnknownTopic topic)
  | Some cells =>
      let i := partition_for key (Z.min (Z.of_nat (length cells)) (2 ^ 32 - 1)) in
      match cells !! Z.to_nat i with
      | None => Err (out_of_range i)
      | Some c => Ok (i, c)
      end
  end.

(** The schema of the topic and the uid, before the partition is looked at. *)
Definition admit_event (b : Broker) (topic : str) (value : Value) (uid : option str) : result unit BusError :=
  let? _ := match bk_parts b !! topic with None => Err (UnknownTopic topic) | Some _ => Ok tt end in
  let? _ :=
    match bk_validators b !! topic with
    | None => Ok tt
    | Some v =>
        match take 3 (iter_errors v value) with
        | [] => Ok tt
        | errors => Err (Backend (lit "event rejected by schema for topic " ++ fmt_debug topic ++ lit ": "
                                  ++ join_errors errors))
        end
    end in
  match uid with
  | None => Ok tt
  | Some expected =>
      match event_uid_from_value value with
      | Some actual =>
          if bool_decide (expected = actual) then Ok tt
          else Err (Backend (lit "idempotency UID does not match event metadata UID"))
      | None => Err (Backend (lit "idempotent publish requires event metadata.uid to match the UID"))
      end
  end.

(** [publish_with_uid]; [fate] is what the environment does to the partition's files. *)
Definition publish_with_uid (fate : IoOp -> nat -> IoFate) (now : Z) (b : Broker) (topic key : str) (value : Value)
    (uid : option str) : Broker * outcome PublishAck :=
  match admit_event b topic value uid with
  | Err e => (b, Throw e)
  | Ok _ =>
      match route b topic key with
      | Err e => (b, Throw e)
      | Ok (i, (d, p)) =>
          let '(st, out) := publish_record fate (describe_partition topic i) now i key value uid (mkPS d p 0) in
          (with_cell topic (Z.to_nat i) (ps_disk st, ps_part st) b,
           match out with Ret offset => Ret (mkAck topic i offset) | Throw e => Throw e | Dead => Dead end)
      end
  end.

Definition publish fate now b topic key value := publish_with_uid fate now b topic key value (event_uid_from_value value).
Definition publish_idempotent fate now b topic key value uid := publish_with_uid fate now b topic key value (Some uid).

(** The lookup in the index of the partition, instead of the default scan. *)
Definition find_event_by_uid (b : Broker) (topic key uid : str) : result (option PublishAck) BusError :=
  let? (i, (_, p)) := route b topic key in
  Ok ((fun offset => mkAck topic i offset) <$> seen_event_uids p !! uid).

Definition fetch (fate : IoOp -> nat -> IoFate) (b : Broker) (topic : str) (partition offset : Z) (max : nat) :
    outcome (list StoredEvent) :=
  match bk_parts b !! topic with
  | None => Throw (UnknownTopic topic)
  | Some cells =>
      match cells !! Z.to_nat partition with
      | None => Throw (out_of_range partition)
      | Some (d, p) => (fetch_partition fate offset max (mkPS d p 0)).2
      end
  end.

Definition partitions (b : Broker) (topic : str) : result Z BusError :=
  match bk_parts b !! topic with
  | Some cells => Ok (Z.min (Z.of_nat (length cells)) (2 ^ 32 - 1))
  | None => Err (UnknownTopic topic)
  end.

Definition topics (b : Broker) : list str := merge_sort str_le (map fst (map_to_list (bk_parts b))).

(** ** Retention *)

Definition cutoff_of (now_ms : Z) (t : TopicSpec) : Z := sat_sub now_ms (hot_hours (tp_retention t) * MS_PER_HOUR).

(** A cold tier behind a URI needs the feature [cold-store]; without it such a manifest is
    refused when it is opened. *)
Definition has_cold (t : TopicSpec) : bool := match cold_uri (tp_retention t) with Some _ => true | None => false end.

(** The records expired so far, and the first error with its topic. *)
Record Sweep := mkSweep { sw_total : Z; sw_first : option (str * BusError) }.

Definition add_outcome (topic : str) (out : result Z BusError) (s : Sweep) : Sweep :=
  match out with
  | Ok n => mkSweep (sw_total s + n) (sw_first s)
  | Err e => mkSweep (sw_total s) (match sw_first s with Some f => Some f | None => Some (topic, e) end)
  end.

Definition retain_cell (fate : IoOp -> nat -> IoFate) (data_dir : str) (now_ms : Z) (t : TopicSpec) (i : nat) (c : Cell) :
    PS * outcome Z :=
  retain_partition fate (segment_of data_dir (tp_name t) (Z.of_nat i)) fmt_bus_error (has_cold t) (cutoff_of now_ms t)
    (mkPS c.1 c.2 0).

(** The partitions of a topic in turn; [None] when the process dies. *)
Fixpoint retain_cells (fates : nat -> IoOp -> nat -> IoFate) (data_dir : str) (now_ms : Z) (t : TopicSpec) (i : nat)
    (cells : list Cell) (s : Sweep) : list Cell * option Sweep :=
  match cells with
  | [] => ([], Some s)
  | c :: rest =>
      let '(st, out) := retain_cell (fates i) data_dir now_ms t i c in
      let c' := (ps_disk st, ps_part st) in
      match out with
      | Dead => (c' :: rest, None)
      | Ret n =>
          let '(rest', r) := retain_cells fates data_dir now_ms t (S i) rest (add_outcome (tp_name t) (Ok n) s) in
          (c' :: rest', r)
      | Throw e =>
          let '(rest', r) := retain_cells fates data_dir now_ms t (S i) rest (add_outcome (tp_name t) (Err e) s) in
          (c' :: rest', r)
      end
  end.

Fixpoint retain_topics (fates : str -> nat -> IoOp -> nat -> IoFate) (data_dir : str) (now_ms : Z) (l : list TopicSpec)
    (parts : gmap str (list Cell)) (s : Sweep) : gmap str (list Cell) * option Sweep :=
  match l with
  | [] => (parts, Some s)
  | t :: rest =>
      match parts !! tp_name t with
      | None => retain_topics fates data_dir now_ms rest parts s
      | Some cells =>
          let '(cells', r) := retain_cells (fates (tp_name t)) data_dir now_ms t 0 cells s in
          let parts' := <[tp_name t := cells']> parts in
          match r with
          | None => (parts', None)
          | Some s' => retain_topics fates data_dir now_ms rest parts' s'
          end
      end
  end.

Definition sweep_result (s : Sweep) : result Z BusError :=
  match sw_first s with
  | Some (topic, e) =>
      Err (Backend (lit "retention failed for topic " ++ fmt_debug topic
                    ++ lit " (remaining topics were still processed, " ++ fmt_int (sw_total s) ++ lit " records expired): "
                    ++ fmt_bus_error e))
  | None => Ok (sw_total s)
  end.

Definition enforce_retention (fates : str -> nat -> IoOp -> nat -> IoFate) (data_dir : str) (now_ms : Z) (b : Broker) :
    Broker * outcome Z :=
  let '(parts, r) := retain_topics fates data_dir now_ms (bk_topics b) (bk_parts b) (mkSweep 0 None) in
  (mkBroker (bk_topics b) parts (bk_validators b),
   match r with
   | None => Dead
   | Some s => match sweep_result s with Ok n => Ret n | Err e => Throw e end
   end).

(** ** Opening *)

(** Without the feature [cold-store] a cold tier behind a URI is refused. *)
Fixpoint reject_cold_uri_without_feature (l : list TopicSpec) : result unit BusError :=
  match l with
  | [] => Ok tt
  | t :: rest =>
      match cold_uri (tp_retention t) with
      | Some cold =>
          if contains (lit "://") cold then
            Err (Backend (lit "topic " ++ fmt_debug (tp_name t) ++ lit " configures cold_uri " ++ fmt_debug cold
                          ++ lit " which requires feature cold-store; rebuild av-bridge with `--features cold-store` "
                          ++ lit "(or `cold-store-aws`) or clear the field"))
          else reject_cold_uri_without_feature rest
      | None => reject_cold_uri_without_feature rest
      end
  end.

(** The partitions of a topic, from [i] on, and the torn lines dropped. *)
Fixpoint open_cells (fates : nat -> IoOp -> nat -> IoFate) (i : nat) (disks : list PartDisk) (torn : Z) :
    list PartDisk * outcome (list Cell * Z) :=
  match disks with
  | [] => ([], Ret ([], torn))
  | d :: rest =>
      let '(st, out) := open_partition (fates i) (stem_of (Z.of_nat i)) (mkPS d (mkPartition ∅ 0 None) 0) in
      match out with
      | Throw e => (ps_disk st :: rest, Throw e)
      | Dead => (ps_disk st :: rest, Dead)
      | Ret n =>
          let '(rest', r) := open_cells fates (S i) rest (torn + n) in
          (ps_disk st :: rest',
           match r with Ret (cells, torn) => Ret ((ps_disk st, ps_part st) :: cells, torn) | Throw e => Throw e | Dead => Dead end)
      end
  end.
End Broker.
