(* ===== verification/BrokerProofs.v ===== *)
(** The broker: the lookup that every bus gets by default agrees with the index of the
    embedded log, and retention reaches every partition whatever fails in the others. *)

From Stdlib Require Import Sorting.Sorted.
From S2P Require Import Prelude Rust CoreBase Json Sandbox Worker WorkerQueue Disk EventLog EventLogProofs EventLogCrash EventLogOps EventLogRetain EventLogSystem EventLogExamples BridgeManifest BridgeManifestProofs Broker.

(** * The default lookup *)

Section Lookup.
Context {UT : UnicodeTables} {EJ : EventJson} {JS : JsonSchema}.

Lemma find_uid_app uid a b : find_uid uid (a ++ b) = match find_uid uid a with Some e => Some e | None => find_uid uid b end.
Proof. induction a as [|e a IH]; [done|]. cbn [app find_uid]. by case_bool_decide. Qed.

Lemma find_uid_Some uid l e : find_uid uid l = Some e -> e ∈ l /\ event_uid e = Some uid.
Proof.
  induction l as [|x l IH]; cbn [find_uid]; [done|]. case_bool_decide as Hx.
  - intros [= <-]. split; [by left|done].
  - intros [??]%IH. split; [by right|done].
Qed.

Lemma find_uid_None uid l e : find_uid uid l = None -> e ∈ l -> event_uid e <> Some uid.
Proof.
  induction l as [|x l IH]; cbn [find_uid]; [by intros _ ?%elem_of_nil|]. case_bool_decide as Hx; [done|].
  intros Hl [-> |Hin]%elem_of_cons; [done|by apply IH].
Qed.

(** The index and a scan of sound records find the same offset. *)
Lemma find_uid_index cold acked dropped c rs n uid : Sound cold acked dropped c rs n ->
  uid_map rs !! uid = se_offset <$> find_uid uid rs.
Proof.
  intros Hs. destruct (find_uid uid rs) as [e|] eqn:He.
  - apply find_uid_Some in He as [Hin Hu]. by eapply uid_map_lookup.
  - destruct (uid_map rs !! uid) as [o|] eqn:Ho; [|done]. apply uid_map_Some in Ho as (e & Hin & Hu & _).
    by destruct (find_uid_None _ _ _ He Hin).
Qed.

(** The records after the last of a page. *)
Lemma from_offset_next (a : list StoredEvent) e b : StronglySorted (fun x y => se_offset x < se_offset y) (a ++ e :: b) ->
  from_offset (se_offset e + 1) (a ++ e :: b) = b.
Proof.
  induction a as [|x a IH]; cbn [app]; intros Hs; apply StronglySorted_inv in Hs as [Hs Hall]; rewrite Forall_forall in Hall;
    unfold from_offset; cbn [List.filter].
  - rewrite (proj2 (Z.ltb_lt _ _)) by lia. cbn [negb].
    assert (Hb : forall y, y ∈ b -> se_offset e < se_offset y) by (intros y Hy; by apply Hall). clear -Hb.
    induction b as [|y b IH]; [done|]. cbn [List.filter]. pose proof (Hb y ltac:(by left)).
    rewrite (proj2 (Z.ltb_ge _ _)) by lia. cbn [negb]. f_equal. apply IH. intros z Hz. apply Hb. by right.
  - pose proof (Hall e ltac:(rewrite elem_of_app; right; by left)) as Hlt. cbn in Hlt.
    rewrite (proj2 (Z.ltb_lt _ _)) by lia. cbn [negb]. by apply IH.
Qed.

Lemma from_offset_split offset rs : StronglySorted (fun x y => se_offset x < se_offset y) rs ->
  exists a, rs = a ++ from_offset offset rs.
Proof.
  induction 1 as [|e rs Hs [a Ha] Hall]; [by exists []|]. unfold from_offset. cbn [List.filter].
  destruct (se_offset e <? offset) eqn:He; cbn [negb].
  - exists (e :: a). cbn [app]. by f_equal.
  - exists []. cbn [app]. f_equal. fold (from_offset offset rs).
    assert (Hr : forall y, y ∈ rs -> offset <= se_offset y).
    { rewrite Forall_forall in Hall. intros y Hy. specialize (Hall y Hy). cbn in Hall. lia. }
    clear -Hr. induction rs as [|y rs IH]; [done|]. unfold from_offset. cbn [List.filter].
    pose proof (Hr y ltac:(by left)). rewrite (proj2 (Z.ltb_ge _ _)) by lia. cbn [negb]. f_equal. apply IH. intros z Hz. apply Hr. by right.
Qed.

(** The scan page by page. *)
Lemma find_event_pages (fetch : Z -> nat -> result (list StoredEvent) BusError) topic i uid rs fuel offset :
  (forall o, fetch o PAGE = Ok (take PAGE (from_offset o rs))) ->
  StronglySorted (fun x y => se_offset x < se_offset y) rs -> Forall (fun e => 0 <= se_offset e < u64_max) rs ->
  (length (from_offset offset rs) < fuel)%nat ->
  find_event_from fuel fetch topic i uid offset =
  Some (Ok ((fun e => mkAck topic i (se_offset e)) <$> find_uid uid (from_offset offset rs))).
Proof.
  intros Hf Hs Hr. revert offset. induction fuel as [|fuel IH]; intros offset Hlen; [lia|].
  cbn [find_event_from]. rewrite Hf. destruct (from_offset_split offset rs Hs) as [pre Hpre].
  destruct (from_offset offset rs) as [|x l'] eqn:El; [done|].
  destruct (take PAGE (x :: l')) as [|y page] eqn:Hp; [done|]. rewrite <- (take_drop PAGE (x :: l')), Hp, find_uid_app.
  destruct (find_uid uid (y :: page)) as [e|] eqn:He; [done|].
  destruct (last (y :: page)) as [e|] eqn:Hlast; [|by apply last_None in Hlast].
  apply last_Some in Hlast as [front Hfront]. cbv zeta.
  assert (Hsplit : rs = (pre ++ front) ++ e :: drop PAGE (x :: l')).
  { rewrite Hpre at 1. rewrite <- (take_drop PAGE (x :: l')), Hp, Hfront at 1. by rewrite <- !app_assoc. }
  assert (Hnext : from_offset (se_offset e + 1) rs = drop PAGE (x :: l')).
  { rewrite Hsplit at 1. apply from_offset_next. by rewrite <- Hsplit. }
  assert (Hin : e ∈ x :: l').
  { rewrite <- (take_drop PAGE (x :: l')), Hp, Hfront, !elem_of_app. left. right. by left. }
  assert (He' : offset <= se_offset e < u64_max).
  { split.
    - rewrite <- El in Hin. unfold from_offset in Hin. apply list_elem_of_In, filter_In in Hin as [_ Hin]. lia.
    - rewrite Forall_forall in Hr. apply Hr. rewrite Hpre, elem_of_app. by right. }
  rewrite (proj2 (Z.ltb_ge _ _)), (proj2 (Z.leb_gt _ _)) by lia. rewrite <- Hnext. apply IH. rewrite Hnext, length_drop.
  cbn [length] in *. unfold PAGE. lia.
Qed.

Definition outcome_result {A} (o : outcome A) : result A BusError :=
  match o with Ret a => Ok a | Throw e => Err e | Dead => Err (Backend []) end.


(** * Retention *)

Section Retention.
Context (fates : str -> nat -> IoOp -> nat -> IoFate) (data_dir : str) (now_ms : Z).

Definition alone (t : TopicSpec) (i : nat) (c : Cell) : PS * outcome Z := retain_cell (fates (tp_name t) i) data_dir now_ms t i c.
Definition cell_of (r : PS * outcome Z) : Cell := (ps_disk r.1, ps_part r.1).
Definition survivor (r : PS * outcome Z) : Prop := r.2 <> Dead.

(** The outcomes of a topic, partition by partition. *)
Definition outcomes (t : TopicSpec) (from : nat) (cells : list Cell) : list (PS * outcome Z) := imap (fun i c => alone t (from + i) c) cells.

Definition tally (t : TopicSpec) (s : Sweep) (r : PS * outcome Z) : Sweep := add_outcome (tp_name t) (outcome_result r.2) s.

Lemma outcomes_cons t from c cells : outcomes t from (c :: cells) = alone t from c :: outcomes t (S from) cells.
Proof.
  unfold outcomes. cbn [imap]. rewrite Nat.add_0_r. f_equal. apply imap_ext. intros i x _. cbn. by rewrite Nat.add_succ_r.
Qed.

Lemma retain_cells_spec t from cells s : Forall survivor (outcomes t from cells) ->
  retain_cells (fates (tp_name t)) data_dir now_ms t from cells s =
  (map cell_of (outcomes t from cells), Some (fold_left (tally t) (outcomes t from cells) s)).
Proof.
  revert from s. induction cells as [|c cells IH]; intros from s; [done|]. rewrite outcomes_cons, Forall_cons.
  intros [Hc Hrest]. cbn [retain_cells map fold_left]. unfold tally at 2. unfold alone, survivor, cell_of in *.
  destruct (retain_cell _ _ _ _ _ _) as [st [n|e|]]; cbn in *; [by rewrite IH..|done].
Qed.

(** What every partition of the broker reports, in the order of the manifest. *)
Definition topic_reports (parts : gmap str (list Cell)) (t : TopicSpec) : list (str * result Z BusError) :=
  match parts !! tp_name t with
  | Some cells => map (fun r => (tp_name t, outcome_result r.2)) (outcomes t 0 cells)
  | None => []
  end.
Definition reports (b : Broker) : list (str * result Z BusError) := mjoin (map (topic_reports (bk_parts b)) (bk_topics b)).

Fixpoint total_of (rs : list (str * result Z BusError)) : Z :=
  match rs with [] => 0 | (_, Ok n) :: rest => n + total_of rest | (_, Err _) :: rest => total_of rest end.
Fixpoint first_of (rs : list (str * result Z BusError)) : option (str * BusError) :=
  match rs with [] => None | (topic, Err e) :: _ => Some (topic, e) | (_, Ok _) :: rest => first_of rest end.

Definition add_report (s : Sweep) (r : str * result Z BusError) : Sweep := add_outcome r.1 r.2 s.

Lemma add_reports rs s : fold_left add_report rs s =
  mkSweep (sw_total s + total_of rs) (match sw_first s with Some f => Some f | None => first_of rs end).
Proof.
  revert s. induction rs as [|[topic [n|e]] rs IH]; intros s; cbn [fold_left total_of first_of].
  - destruct s as [n [f|]]; cbn; by rewrite Z.add_0_r.
  - rewrite IH. cbn. f_equal. lia.
  - rewrite IH. cbn. by destruct (sw_first s).
Qed.

Lemma tally_reports t rs s : fold_left (tally t) rs s = fold_left add_report (map (fun r => (tp_name t, outcome_result r.2)) rs) s.
Proof. revert s. induction rs as [|r rs IH]; intros s; [done|]. cbn [fold_left map]. by rewrite IH. Qed.

Lemma topic_reports_insert parts name cells t : tp_name t <> name -> topic_reports (<[name := cells]> parts) t = topic_reports parts t.
Proof. intros Hne. unfold topic_reports. by rewrite lookup_insert_ne by done. Qed.

Lemma retain_topics_spec l parts s : NoDup (map tp_name l) ->
  (forall t cells, t ∈ l -> parts !! tp_name t = Some cells -> Forall survivor (outcomes t 0 cells)) ->
  exists parts', retain_topics fates data_dir now_ms l parts s = (parts', Some (fold_left add_report (mjoin (map (topic_reports parts) l)) s)) /\
    (forall t cells, t ∈ l -> parts !! tp_name t = Some cells -> parts' !! tp_name t = Some (map cell_of (outcomes t 0 cells))) /\
    (forall name, name ∉ map tp_name l -> parts' !! name = parts !! name).
Proof.
  revert parts s. induction l as [|t l IH]; intros parts s Hd Halive.
  { exists parts. split_and!; [done| |done]. by intros t cells ?%elem_of_nil. }
  cbn [map] in Hd. apply NoDup_cons in Hd as [Hnew Hd]. cbn [retain_topics map].
  assert (Hne : forall t', t' ∈ l -> tp_name t' <> tp_name t).
  { intros t' Hin Heq. apply Hnew. rewrite <- Heq. apply list_elem_of_fmap. by exists t'. }
  destruct (parts !! tp_name t) as [cells|] eqn:Hcells.
  - rewrite retain_cells_spec by (apply (Halive t cells); [by left|done]).
    set (parts1 := <[tp_name t := map cell_of (outcomes t 0 cells)]> parts).
    assert (Hsame : forall t', t' ∈ l -> parts1 !! tp_name t' = parts !! tp_name t').
    { intros t' Hin. unfold parts1. rewrite lookup_insert_ne; [done|]. intros Heq. by apply (Hne t' Hin). }
    destruct (IH parts1 (fold_left (tally t) (outcomes t 0 cells) s) Hd) as (parts' & Hrun & Heach & Hother).
    { intros t' cells' Hin Hc. rewrite Hsame in Hc by done. apply (Halive t' cells'); [by right|done]. }
    exists parts'. split_and!.
    + rewrite Hrun. f_equal. f_equal. change (mjoin (topic_reports parts t :: map (topic_reports parts) l))
        with (topic_reports parts t ++ mjoin (map (topic_reports parts) l)).
      rewrite fold_left_app, tally_reports.
      assert (Ht : topic_reports parts t = map (fun r => (tp_name t, outcome_result r.2)) (outcomes t 0 cells)) by (unfold topic_reports; by rewrite Hcells).
      rewrite Ht. f_equal. f_equal.
      apply list_fmap_ext. intros j t' Ht'. unfold topic_reports. rewrite Hsame; [done|]. by eapply list_elem_of_lookup_2.
    + intros t' cells' [-> |Hin]%elem_of_cons Hc.
      * rewrite Hcells in Hc. injection Hc as <-. rewrite Hother by done. unfold parts1. by rewrite lookup_insert_eq.
      * apply Heach; [done|]. by rewrite Hsame.
    + intros name [Hn Hin]%not_elem_of_cons. rewrite Hother by done. unfold parts1. by rewrite lookup_insert_ne.
  - destruct (IH parts s Hd) as (parts' & Hrun & Heach & Hother).
    { intros t' cells' Hin. apply Halive. by right. }
    exists parts'. split_and!.
    + rewrite Hrun. f_equal. f_equal. change (mjoin (topic_reports parts t :: map (topic_reports parts) l))
        with (topic_reports parts t ++ mjoin (map (topic_reports parts) l)).
      assert (Ht : topic_reports parts t = []) by (unfold topic_reports; by rewrite Hcells). by rewrite Ht.
    + intros t' cells' [-> |Hin]%elem_of_cons Hc; [congruence|by apply Heach].
    + intros name [_ Hin]%not_elem_of_cons. by apply Hother.
Qed.

(** A retention pass reaches every partition of every topic whatever fails in the
    others: each ends as a pass over it alone leaves it, and the pass reports the records
    that expired everywhere, or the first failure with that number. *)
Theorem retention_failures_are_contained b : NoDup (map tp_name (bk_topics b)) ->
  (forall t cells, t ∈ bk_topics b -> bk_parts b !! tp_name t = Some cells -> Forall survivor (outcomes t 0 cells)) ->
  let '(b', r) := enforce_retention fates data_dir now_ms b in
  (forall t cells, t ∈ bk_topics b -> bk_parts b !! tp_name t = Some cells ->
     bk_parts b' !! tp_name t = Some (map cell_of (outcomes t 0 cells))) /\
  match first_of (reports b) with
  | None => r = Ret (total_of (reports b))
  | Some (topic, e) => exists text, r = Throw (Backend text) /\
      text = lit "retention failed for topic " ++ fmt_debug topic ++ lit " (remaining topics were still processed, "
             ++ fmt_int (total_of (reports b)) ++ lit " records expired): " ++ fmt_bus_error e
  end.
Proof.
  intros Hd Halive. unfold enforce_retention.
  destruct (retain_topics_spec (bk_topics b) (bk_parts b) (mkSweep 0 None) Hd Halive) as (parts' & -> & Heach & _).
  cbn [bk_parts]. split; [done|]. rewrite add_reports. fold (reports b). unfold sweep_result. cbn [sw_first sw_total].
  destruct (first_of (reports b)) as [[topic e]|]; [by eexists|done].
Qed.
End Retention.
End Lookup.

(** * A broker of one topic with one partition *)

Definition SampleSchema : JsonSchema :=
  {| Validator := unit; compile := fun _ => Ok tt; iter_errors := fun _ _ => [] |}.

Definition sample_topic : TopicSpec := mkTopic (lit "audit") 1 (mkRetention 1 None) None.

Definition sample_broker : @Broker SampleSchema :=
  @mkBroker SampleSchema [sample_topic] {[ lit "audit" := [(ps_disk third, ps_part third)] ]} ∅.


Lemma retention_failures_are_contained_witness :
  let '(b', r) := @enforce_retention ascii_tables SampleJson SampleSchema (fun _ _ => no_fault) (lit "data") (4 * MS_PER_HOUR) sample_broker in
  (forall t cells, t ∈ bk_topics sample_broker -> bk_parts sample_broker !! tp_name t = Some cells ->
     bk_parts b' !! tp_name t = Some (map cell_of (@outcomes ascii_tables SampleJson (fun _ _ => no_fault) (lit "data") (4 * MS_PER_HOUR) t 0 cells))) /\
  match first_of (@reports ascii_tables SampleJson SampleSchema (fun _ _ => no_fault) (lit "data") (4 * MS_PER_HOUR) sample_broker) with
  | None => r = Ret (total_of (@reports ascii_tables SampleJson SampleSchema (fun _ _ => no_fault) (lit "data") (4 * MS_PER_HOUR) sample_broker))
  | Some (topic, e) => exists text, r = Throw (Backend text) /\
      text = lit "retention failed for topic " ++ @fmt_debug ascii_tables topic ++ lit " (remaining topics were still processed, "
             ++ fmt_int (total_of (@reports ascii_tables SampleJson SampleSchema (fun _ _ => no_fault) (lit "data") (4 * MS_PER_HOUR) sample_broker))
             ++ lit " records expired): " ++ @fmt_bus_error ascii_tables e
  end.
Proof.
  apply (@retention_failures_are_contained ascii_tables SampleJson SampleSchema (fun _ _ => no_fault) (lit "data") (4 * MS_PER_HOUR) sample_broker).
  - apply NoDup_singleton.
  - intros t cells Ht Hc. apply list_elem_of_singleton in Ht as ->. unfold sample_broker in Hc. cbn [bk_parts] in Hc.
    rewrite lookup_singleton_eq in Hc. injection Hc as <-. constructor; [|constructor]. vm_compute. discriminate.
Defined.
