(* ===== verification/Redact.v ===== *)
(** [av-redact/src/engine.rs]: the redaction engine.  Regular expressions are the [regex]
    crate's; positions in a text count characters (the crate's byte offsets fall between
    characters). *)

From S2P Require Import Prelude Rust Json Disk.

(** The [regex] crate: compiling a pattern, and the spans of its matches from left to
    right. *)
Class Regex := {
  Pattern : Type;
  compile_regex : str -> result Pattern str;
  find_iter : Pattern -> str -> list (nat * nat);
}.

(** The reading of a JSON pointer by [serde_json]: its reference tokens, [None] when it is
    malformed, and the array index a token stands for. *)
Class JsonPointer := {
  pointer_tokens : str -> option (list str);
  parse_index : str -> option nat;
}.

Definition Span : Type := (nat * nat)%type.

(** [text.get(a..b).unwrap_or_default()]. *)
Definition slice (a b : nat) (s : str) : str :=
  if ((a <=? b) && (b <=? length s))%nat then take (b - a) (drop a s) else [].

(** * Luhn *)

Definition to_digit (c : Z) : Z := c - 48.

Definition luhn_term (i : nat) (d : Z) : Z :=
  if (i mod 2 =? 1)%nat then let doubled := d * 2 in if 9 <? doubled then doubled - 9 else doubled else d.

(** The digits from the last to the first. *)
Fixpoint luhn_sum (i : nat) (rev_digits : list Z) : Z :=
  match rev_digits with [] => 0 | d :: r => luhn_term i d + luhn_sum (S i) r end.

Definition card_length (n : nat) : bool := ((13 <=? n) && (n <=? 19))%nat.

Definition passes_luhn (digits : list Z) : bool :=
  if negb (card_length (length digits)) then false else luhn_sum 0 (rev digits) mod 10 =? 0.

(** * Card numbers *)

Record DigitGroup := mkGroup { dg_start : nat; dg_end : nat; dg_count : nat }.

(** [open] is the start of the current group with its digits so far. *)
Fixpoint digit_groups (i : nat) (open : option (nat * nat)) (s : str) : list DigitGroup :=
  match s with
  | [] => match open with Some (start, n) => [mkGroup start i n] | None => [] end
  | c :: r =>
      if is_ascii_digit c then
        digit_groups (S i) (match open with Some (start, n) => Some (start, S n) | None => Some (i, 1%nat) end) r
      else match open with
           | Some (start, n) => mkGroup start i n :: digit_groups (S i) None r
           | None => digit_groups (S i) None r
           end
  end.

Definition parse_digit_groups (s : str) : list DigitGroup := digit_groups 0 None s.

(** The groups that fit in 19 digits, and their digits. *)
Fixpoint take_groups (total : nat) (groups : list DigitGroup) : nat * nat :=
  match groups with
  | [] => (O, total)
  | g :: rest =>
      if (19 <? total + dg_count g)%nat then (O, total)
      else let '(n, total') := take_groups (total + dg_count g) rest in (S n, total')
  end.

Definition window_digits (s : str) (a b : nat) : list Z := map to_digit (List.filter is_ascii_digit (slice a b s)).

(** The loop [while j > i] over windows of [n] groups. *)
Fixpoint shrink (s : str) (groups : list DigitGroup) (n total : nat) : option (nat * Span) :=
  match n with
  | O => None
  | S n' =>
      let window := take n groups in
      match head window, last window with
      | Some first, Some final =>
          let span := (dg_start first, dg_end final) in
          if card_length total && passes_luhn (window_digits s span.1 span.2) then Some (n, span)
          else shrink s groups n' (total - dg_count final)
      | _, _ => shrink s groups n' total
      end
  end.

(** The loop over the first group of a window. *)
Fixpoint card_windows (fuel : nat) (s : str) (groups : list DigitGroup) : list Span :=
  match fuel, groups with
  | O, _ | _, [] => []
  | S fuel', _ :: rest =>
      let '(n, total) := take_groups 0 groups in
      match shrink s groups n total with
      | Some (n, span) => span :: card_windows fuel' s (drop n groups)
      | None => card_windows fuel' s rest
      end
  end.

Definition card_span_extractor (matched : str) : list Span :=
  let groups := parse_digit_groups matched in card_windows (length groups) matched groups.

(** * IPv4 *)

(** [Ipv4Addr::from_str]: four numbers of one to three digits below 256, without leading
    zeros. *)
Definition octet (s : str) : option Z :=
  match s with
  | [] => None
  | c :: r =>
      if negb (forallb is_ascii_digit s) || (3 <? length s)%nat || ((c =? 48) && negb (bool_decide (r = []))) then None
      else let n := fold_left (fun n c => n * 10 + to_digit c) s 0 in if n <? 256 then Some n else None
  end.

Fixpoint split_dots (cur : str) (s : str) : list str :=
  match s with
  | [] => [cur]
  | c :: r => if c =? 46 then cur :: split_dots [] r else split_dots (cur ++ [c]) r
  end.

Definition parse_ipv4 (s : str) : option (Z * Z * Z * Z) :=
  match split_dots [] s with
  | [a; b; c; d] =>
      match octet a, octet b, octet c, octet d with
      | Some a, Some b, Some c, Some d => Some (a, b, c, d)
      | _, _, _, _ => None
      end
  | _ => None
  end.

(** [Ipv4Addr::is_private]: RFC 1918. *)
Definition is_private (ip : Z * Z * Z * Z) : bool :=
  let '(a, b, _, _) := ip in
  (a =? 10) || ((a =? 172) && (16 <=? b) && (b <=? 31)) || ((a =? 192) && (b =? 168)).

Definition ipv4_span_extractor (matched : str) : list Span :=
  match parse_ipv4 matched with
  | Some ip => if is_private ip then [] else [(0%nat, length matched)]
  | None => []
  end.

(** * Spans *)

Definition span_le (a b : Span) : Prop := (a.1 < b.1)%nat \/ (a.1 = b.1 /\ (a.2 <= b.2)%nat).

#[global] Instance span_le_dec : RelDecision span_le.
Proof.
  intros a b. unfold span_le. destruct (decide (a.1 < b.1)%nat); [left; by left|].
  destruct (decide (a.1 = b.1 /\ (a.2 <= b.2)%nat)); [left; by right|right; tauto].
Defined.

(** The spans after one whose end may still grow. *)
Fixpoint merge_into (current : Span) (sorted : list Span) : list Span :=
  match sorted with
  | [] => [current]
  | (start, stop) :: rest =>
      if (start <=? current.2)%nat
      then merge_into (current.1, if (current.2 <? stop)%nat then stop else current.2) rest
      else current :: merge_into (start, stop) rest
  end.

Definition merge_spans (sorted : list Span) : list Span :=
  match sorted with [] => [] | s :: rest => merge_into s rest end.

(** * The engine *)

Inductive RedactError :=
| InvalidPattern (pattern source : str)
| InvalidPointerPath (path : str)
| ReplacementMatchesPattern (replacement : str)
| JsonParse (e : str).

Record RedactionConfig := mkRedactionConfig {
  regex_patterns : list str;
  rc_pointer_paths : list str;
  rc_replacement : str;
  include_builtin_patterns : bool;
}.

Definition default_redaction_config : RedactionConfig := mkRedactionConfig [] [] (lit "[REDACTED]") true.

Section Engine.
Context {RX : Regex} {JP : JsonPointer}.

Record RedactionRule := mkRule { rr_pattern : Pattern; span_extractor : option (str -> list Span) }.

Record RedactionEngine := mkEngine {
  rules : list RedactionRule;
  pointer_paths : list str;
  replacement : str;
}.

Definition spans_of_match (rule : RedactionRule) (text : str) (m : Span) : list Span :=
  match span_extractor rule with
  | None => [m]
  | Some extract => map (fun sub => ((m.1 + sub.1)%nat, (m.1 + sub.2)%nat)) (extract (slice m.1 m.2 text))
  end.

Definition found_spans (rs : list RedactionRule) (text : str) : list Span :=
  List.concat (map (fun rule => List.concat (map (spans_of_match rule text) (find_iter (rr_pattern rule) text))) rs).

Definition collect_spans (rs : list RedactionRule) (text : str) : list Span := merge_sort span_le (found_spans rs text).

(** The text with each span replaced. *)
Fixpoint splice (replacement : str) (original : str) (cursor : nat) (merged : list Span) : str :=
  match merged with
  | [] => drop cursor original
  | (start, stop) :: rest => slice cursor start original ++ replacement ++ splice replacement original stop rest
  end.

Definition MAX_REDACTION_PASSES : nat := 8.

Fixpoint redact_passes (e : RedactionEngine) (n : nat) (s : str) : str :=
  match n with
  | O => s
  | S n' =>
      match collect_spans (rules e) s with
      | [] => s
      | spans => redact_passes e n' (splice (replacement e) s 0 (merge_spans spans))
      end
  end.

Definition redact_string (e : RedactionEngine) (s : str) : str :=
  if str_eqb s (replacement e) then s
  else if bool_decide (s = []) || forallb is_whitespace s then s
  else redact_passes e MAX_REDACTION_PASSES s.

(** ** Construction *)

Definition compile_rule (extract : option (str -> list Span)) (pattern : str) : result RedactionRule RedactError :=
  match compile_regex pattern with
  | Ok p => Ok (mkRule p extract)
  | Err source => Err (InvalidPattern pattern source)
  end.

Fixpoint compile_rules (l : list (str * option (str -> list Span))) : result (list RedactionRule) RedactError :=
  match l with
  | [] => Ok []
  | (pattern, extract) :: rest =>
      let? rule := compile_rule extract pattern in
      let? rest := compile_rules rest in Ok (rule :: rest)
  end.

Definition card_pattern : str := lit "(?-u:\b)[0-9]{3,19}(?:[- ][0-9]{3,19})*(?-u:\b)".

Definition builtin_patterns : list (str * option (str -> list Span)) :=
  [ (lit "(?i:bearer)\s+[A-Za-z0-9._~+/=-]{8,}", None);
    (lit "(?-u:\b)(?:sk|key)-[A-Za-z0-9_-]{16,}", None);
    (lit "[A-Za-z0-9._%+-]+@[A-Za-z0-9.-]+\.[A-Za-z]{2,}", None);
    (card_pattern, Some card_span_extractor);
    (lit "(?-u:\b)[0-9]{3}-[0-9]{2}-[0-9]{4}(?-u:\b)", None);
    (lit "(?-u:\b)(?:[0-9]{1,3}\.){3}[0-9]{1,3}(?-u:\b)", Some ipv4_span_extractor) ].

Definition builtin_rules : result (list RedactionRule) RedactError := compile_rules builtin_patterns.

Definition valid_path (path : str) : bool := match path with [] => true | c :: _ => c =? 47 end.

Fixpoint check_paths (paths : list str) : result unit RedactError :=
  match paths with
  | [] => Ok tt
  | path :: rest => if valid_path path then check_paths rest else Err (InvalidPointerPath path)
  end.

Definition new_engine (config : RedactionConfig) : result RedactionEngine RedactError :=
  let? builtin := if include_builtin_patterns config then builtin_rules else Ok [] in
  let? custom := compile_rules (map (fun p => (p, None)) (regex_patterns config)) in
  let rs := builtin ++ custom in
  let? _ := check_paths (rc_pointer_paths config) in
  match collect_spans rs (rc_replacement config) with
  | [] => Ok (mkEngine rs (rc_pointer_paths config) (rc_replacement config))
  | _ => Err (ReplacementMatchesPattern (rc_replacement config))
  end.

(** ** Pointers *)

(** [*value.pointer_mut(path) = new], when the pointer names something: the tokens are
    followed from the root, in an array by the index a token reads as. *)
Fixpoint set_at (tokens : list str) (new v : Value) : Value :=
  match tokens with
  | [] => new
  | t :: rest =>
      match v with
      | Object m => match map_get t m with Some child => Object (map_insert t (set_at rest new child) m) | None => v end
      | Array l =>
          match parse_index t with
          | Some i => match l !! i with Some child => Array (<[i := set_at rest new child]> l) | None => v end
          | None => v
          end
      | _ => v
      end
  end.

Definition apply_pointer (new : str) (v : Value) (path : str) : Value :=
  match pointer_tokens path with Some tokens => set_at tokens (JString new) v | None => v end.

Definition apply_pointers (e : RedactionEngine) (v : Value) : Value :=
  fold_left (apply_pointer (replacement e)) (pointer_paths e) v.

(** ** The walk *)

(** The map whose keys are redacted: values under the same new key are collected. *)
Definition add_entry (e : RedactionEngine) (acc : list (str * Value) * list str) (entry : str * Value) : list (str * Value) * list str :=
  let '(entries, collisions) := acc in
  let key := redact_string e entry.1 in
  match map_get key entries with
  | Some existing =>
      if bool_decide (key ∈ collisions) then
        match existing with
        | Array values => (map_insert key (Array (values ++ [entry.2])) entries, collisions)
        | _ => (entries, collisions)
        end
      else (map_insert key (Array [existing; entry.2]) entries, key :: collisions)
  | None => (map_insert key entry.2 entries, collisions)
  end.

Definition rebuild (e : RedactionEngine) (m : list (str * Value)) : list (str * Value) := (fold_left (add_entry e) m ([], [])).1.

(** An integer whose digits match is replaced whole. *)
Definition redact_number (e : RedactionEngine) (n : number) : Value :=
  let scan (z : Z) := if str_eqb (redact_string e (fmt_int z)) (fmt_int z) then Number n else JString (replacement e) in
  match n with PosInt z | NegInt z => scan z | Float _ => Number n end.

(** The walk.  The stack visits every node once and the order does not matter, so the
    values of a map are walked before the map is rebuilt. *)
Fixpoint walk (e : RedactionEngine) (user : bool) (v : Value) : Value :=
  match v with
  | JString s => JString (redact_string e s)
  | Number n => if user then redact_number e n else v
  | Array l => Array (map (walk e user) l)
  | Object m =>
      let m := map (fun kv => (kv.1, walk e user kv.2)) m in
      Object (if user then rebuild e m else m)
  | _ => v
  end.

Definition redact_tree (e : RedactionEngine) (user : bool) (v : Value) : Value := walk e user (apply_pointers e v).
Definition redact_value (e : RedactionEngine) (v : Value) : Value := redact_tree e false v.
Definition redact_user_value (e : RedactionEngine) (v : Value) : Value := redact_tree e true v.

Definition redact_bytes {JS : SerdeJson} (e : RedactionEngine) (raw : list Z) : result (list Z) RedactError :=
  match from_bytes raw with
  | Ok v => Ok (as_bytes (to_string (redact_value e v)))
  | Err m => Err (JsonParse m)
  end.
End Engine.
