(* ===== verification/RedactProofs.v ===== *)
(** Theorems about the redaction engine: merging is exact, no card number survives in a
    digit run, redaction is idempotent, and a map whose keys collide loses no value. *)

From S2P Require Import Prelude Rust Json Disk Redact.

(** * Spans *)

Definition covers (l : list Span) (p : nat) : Prop := exists s, s ∈ l /\ (s.1 <= p < s.2)%nat.
Definition separated (l : list Span) : Prop := StronglySorted (fun a b : Span => (a.2 < b.1)%nat) l.
Definition by_start (l : list Span) : Prop := StronglySorted (fun a b : Span => (a.1 <= b.1)%nat) l.

#[global] Instance span_le_total : Total span_le.
Proof. intros a b. unfold span_le. lia. Qed.

#[global] Instance span_le_trans : Transitive span_le.
Proof. intros a b c. unfold span_le. lia. Qed.

Lemma StronglySorted_weaken {A} (R S : A -> A -> Prop) l : (forall a b, R a b -> S a b) -> StronglySorted R l -> StronglySorted S l.
Proof. intros HRS. induction 1; constructor; [done|]. eapply Forall_impl; [done|auto]. Qed.

Lemma collected_by_start `{RX : Regex} rs text : by_start (collect_spans rs text).
Proof.
  eapply StronglySorted_weaken with (R := span_le); [intros a b; unfold span_le; lia|].
  unfold collect_spans. apply (StronglySorted_merge_sort span_le).
Qed.

Lemma covers_cons s l p : covers (s :: l) p <-> (s.1 <= p < s.2)%nat \/ covers l p.
Proof. unfold covers. set_solver. Qed.

Lemma covers_perm l l' p : l ≡ₚ l' -> covers l p <-> covers l' p.
Proof. intros H. unfold covers. by setoid_rewrite H. Qed.

Lemma merge_into_covers current l p : by_start (current :: l) -> covers (merge_into current l) p <-> covers (current :: l) p.
Proof.
  revert current. induction l as [|[a b] l IH]; intros [c1 c2] Hs; [done|].
  apply StronglySorted_inv in Hs as [Hl Hc]. apply StronglySorted_inv in Hl as [Hl Ha] . cbn [merge_into fst snd] in *.
  apply Forall_cons in Hc as [Hca Hc]. cbn [merge_into fst snd] in *.
  destruct (Nat.leb_spec a c2).
  - rewrite IH by by constructor. rewrite !covers_cons. cbn [fst snd]. rewrite <- Logic.or_assoc.
    apply or_iff_compat_r. destruct (Nat.ltb_spec c2 b); lia.
  - rewrite covers_cons, IH by by constructor. by rewrite !covers_cons.
Qed.

Lemma merge_into_bound current l n : (n < current.1)%nat -> by_start (current :: l) ->
  Forall (fun s : Span => (n < s.1)%nat) (merge_into current l).
Proof.
  revert current. induction l as [|[a b] l IH]; intros [c1 c2] Hn Hs; [by constructor|].
  apply StronglySorted_inv in Hs as [Hl Hc]. apply StronglySorted_inv in Hl as [Hl Ha].
  apply Forall_cons in Hc as [Hca Hc]. cbn [merge_into fst snd] in *.
  destruct (Nat.leb_spec a c2); [by apply IH; [|constructor]|].
  constructor; [done|]. apply IH; [cbn; lia|by constructor].
Qed.

Lemma merge_into_separated current l : by_start (current :: l) -> separated (merge_into current l).
Proof.
  revert current. induction l as [|[a b] l IH]; intros [c1 c2] Hs; [by repeat constructor|].
  apply StronglySorted_inv in Hs as [Hl Hc]. pose proof Hl as Hab. apply StronglySorted_inv in Hl as [Hl Ha].
  apply Forall_cons in Hc as [Hca Hc]. cbn [merge_into fst snd] in *.
  destruct (Nat.leb_spec a c2); [by apply IH; constructor|].
  constructor; [by apply IH|]. by apply merge_into_bound.
Qed.

(** The spans that are cut out are disjoint, in order, and cover exactly the characters
    that some rule matched. *)
Theorem merged_spans_exact `{RX : Regex} (rs : list RedactionRule) (text : str) :
  separated (merge_spans (collect_spans rs text)) /\
  forall p, covers (merge_spans (collect_spans rs text)) p <-> covers (found_spans rs text) p.
Proof.
  pose proof (collected_by_start rs text) as Hs. unfold merge_spans.
  assert (Hp : collect_spans rs text ≡ₚ found_spans rs text) by apply merge_sort_Permutation.
  split; [|intros p; rewrite <- (covers_perm _ _ p Hp)].
  all: destruct (collect_spans rs text); [by try constructor|].
  - by apply merge_into_separated.
  - by apply merge_into_covers.
Qed.

(** * Card numbers *)

(** The digits before a position. *)
Definition digits_before (s : str) (p : nat) : nat := length (List.filter is_ascii_digit (take p s)).

(** Groups that lie end to end: no digit of the text between them. *)
Fixpoint linked (s : str) (groups : list DigitGroup) : Prop :=
  match groups with
  | [] => True
  | g :: rest =>
      (dg_start g < dg_end g <= length s)%nat /\ digits_before s (dg_end g) = (digits_before s (dg_start g) + dg_count g)%nat /\
      match rest with
      | [] => True
      | h :: _ => (dg_end g <= dg_start h)%nat /\ digits_before s (dg_start h) = digits_before s (dg_end g)
      end /\ linked s rest
  end.

Lemma digits_before_snoc p c r : digits_before (p ++ c :: r) (S (length p)) =
  (digits_before (p ++ c :: r) (length p) + (if is_ascii_digit c then 1 else 0))%nat.
Proof.
  unfold digits_before. rewrite take_app_length.
  replace (S (length p)) with (length (p ++ [c])) by (rewrite length_app; cbn; lia).
  rewrite (cons_middle c p r), app_assoc, take_app_length, List.filter_app, length_app. cbn.
  by destruct (is_ascii_digit c).
Qed.

Lemma digit_groups_linked s p r o : s = p ++ r ->
  match o with Some (a, n) => (a < length p)%nat /\ digits_before s (length p) = (digits_before s a + n)%nat | None => True end ->
  linked s (digit_groups (length p) o r) /\
  match digit_groups (length p) o r, o with
  | g :: _, Some (a, _) => dg_start g = a
  | g :: _, None => (length p <= dg_start g)%nat /\ digits_before s (dg_start g) = digits_before s (length p)
  | [], Some _ => False
  | [], None => True
  end.
Proof.
  revert p o. induction r as [|c r IH]; intros p o Hs Ho; cbn.
  - destruct o as [[a n]|]; [|done]. cbn. subst s. rewrite length_app. naive_solver lia.
  - specialize (IH (p ++ [c])). rewrite length_app in IH. cbn in IH.
    rewrite Nat.add_1_r in IH.
    assert (Hs' : s = (p ++ [c]) ++ r) by (by rewrite <- app_assoc).
    pose proof (digits_before_snoc p c r) as Hd. rewrite <- Hs in Hd.
    destruct (is_ascii_digit c).
    + destruct o as [[a n]|].
      * destruct (IH (Some (a, S n))) as [HL Hh]; [done|split; [lia|lia]|]. split; [done|]. by destruct (digit_groups _ _ r).
      * destruct (IH (Some (length p, 1%nat))) as [HL Hh]; [done|split; [lia|lia]|].
        split; [done|]. destruct (digit_groups _ _ r); [done|]. by rewrite Hh.
    + destruct (IH None) as [HL Hh]; [done|done|].
      assert (length p < length s)%nat by (subst s; rewrite length_app; cbn; lia).
      destruct o as [[a n]|].
      * split; [|done]. cbn [linked dg_start dg_end dg_count]. do 2 (split; [lia|]). split; [|done].
        destruct (digit_groups _ None r); [done|lia].
      * split; [done|]. destruct (digit_groups _ None r); [done|]. lia.
Qed.

Lemma parsed_linked s : linked s (parse_digit_groups s).
Proof. apply (digit_groups_linked s [] s None); done. Qed.

Lemma linked_drop s n groups : linked s groups -> linked s (drop n groups).
Proof.
  revert n. induction groups as [|g rest IH]; intros [|n] H; [done..|].
  apply IH. by destruct H as (?&?&?&?).
Qed.

Lemma linked_take s n groups : linked s groups -> linked s (take n groups).
Proof.
  revert n. induction groups as [|g rest IH]; intros [|n] H; [done..|].
  destruct H as (?&?&Hr&H). cbn. do 2 (split; [done|]). split; [|by apply IH].
  by destruct rest, n.
Qed.

(** ** Windows of consecutive groups *)

Definition total_count (groups : list DigitGroup) : nat := sum_list_with dg_count groups.

Definition window_span (window : list DigitGroup) : option Span :=
  match head window, last window with Some first, Some final => Some (dg_start first, dg_end final) | _, _ => None end.

Lemma window_digits_length s a b : (a <= b <= length s)%nat ->
  (length (window_digits s a b) + digits_before s a = digits_before s b)%nat.
Proof.
  intros Hab. unfold window_digits, slice, digits_before. rewrite length_map.
  rewrite (proj2 (Nat.leb_le a b)), (proj2 (Nat.leb_le b (length s))) by lia. cbn.
  replace b with (a + (b - a))%nat at 2 by lia. rewrite <- take_take_drop, List.filter_app, length_app. lia.
Qed.

Lemma window_bounds s window span : linked s window -> window_span window = Some span ->
  (span.1 < span.2 <= length s)%nat /\ (digits_before s span.1 + total_count window)%nat = digits_before s span.2 /\
  Forall (fun g => (span.1 <= dg_start g)%nat /\ (dg_end g <= span.2)%nat) window.
Proof.
  revert span. induction window as [|g [|h rest] IH]; intros span HL; [done| |].
  - intros [= <-]. destruct HL as (?&?&_). rewrite Forall_singleton. cbn [total_count sum_list_with fst snd]. rewrite Nat.add_0_r. lia.
  - destruct HL as (Hg&Hc&[Hgh Hd]&HL). unfold window_span in *. cbn [head] in *.
    rewrite last_cons_cons. destruct (last (h :: rest)) as [final|] eqn:El; [|done]. intros [= <-].
    destruct (IH _ HL eq_refl) as (Hb&Ht&Hall). cbn [fst snd] in *.
    split; [lia|]. split; [change (total_count (g :: h :: rest)) with (dg_count g + total_count (h :: rest))%nat; lia|].
    constructor; [cbn; lia|]. eapply Forall_impl; [exact Hall|]. cbn. intros x. lia.
Qed.

(** The digits of a window are those its groups counted. *)
Lemma window_total s window span : linked s window -> window_span window = Some span ->
  length (window_digits s span.1 span.2) = total_count window.
Proof.
  intros HL Hs. destruct (window_bounds s window span HL Hs) as (Hb&Ht&_).
  pose proof (window_digits_length s span.1 span.2). lia.
Qed.

(** A window that reads as a card number. *)
Definition reads_as_card (s : str) (window : list DigitGroup) (span : Span) : Prop :=
  window_span window = Some span /\ passes_luhn (window_digits s span.1 span.2) = true.

Lemma card_total s window span : linked s window -> reads_as_card s window span -> card_length (total_count window) = true.
Proof.
  intros HL [Hs Hl]. rewrite <- (window_total s window span HL Hs).
  unfold passes_luhn in Hl. by destruct (card_length _).
Qed.

Lemma take_groups_spec total groups n total' : take_groups total groups = (n, total') ->
  (n <= length groups)%nat /\ (total' = total + total_count (take n groups))%nat /\
  forall k, (k <= length groups)%nat -> (total + total_count (take k groups) <= 19)%nat -> (k <= n)%nat.
Proof.
  revert total n. induction groups as [|g rest IH]; intros total n; cbn [take_groups].
  - intros [= <- <-]. cbn. split; [lia|]. split; [lia|]. intros k. lia.
  - destruct (Nat.ltb_spec 19 (total + dg_count g)).
    + intros [= <- <-]. cbn. split; [lia|]. split; [lia|]. intros [|k]; cbn; lia.
    + destruct (take_groups (total + dg_count g) rest) as [m t] eqn:E. intros [= <- <-].
      destruct (IH _ _ E) as (Hm&Ht&Hk). cbn. split; [lia|]. split; [unfold total_count in *; lia|].
      intros [|k]; cbn; [lia|]. intros Hl Hs. specialize (Hk k). unfold total_count in *. lia.
Qed.

Lemma total_count_snoc window g : total_count (window ++ [g]) = (total_count window + dg_count g)%nat.
Proof. unfold total_count. rewrite sum_list_with_app. cbn. lia. Qed.

(** The longest window of at most [n] groups that reads as a card. *)
Lemma shrink_spec s groups n total : (n <= length groups)%nat -> total = total_count (take n groups) -> linked s groups ->
  match shrink s groups n total with
  | Some (k, span) => (0 < k <= n)%nat /\ reads_as_card s (take k groups) span
  | None => forall k span, (k <= n)%nat -> ~ reads_as_card s (take k groups) span
  end.
Proof.
  intros Hn -> HL. induction n as [|n IH]; cbn [shrink].
  - intros k span Hk [Hw _]. by replace k with O in Hw by lia.
  - destruct (lookup_lt_is_Some_2 groups n) as [g Hg]; [lia|].
    rewrite (take_S_r groups n g Hg). rewrite total_count_snoc.
    destruct (take n groups ++ [g]) as [|first w] eqn:Ew; [by destruct (take n groups)|].
    cbn [head]. rewrite <- Ew, last_snoc.
    assert (Hs : window_span (take (S n) groups) = Some (dg_start first, dg_end g)).
    { rewrite (take_S_r groups n g Hg). unfold window_span. rewrite last_snoc, Ew. done. }
    destruct (card_length _ && passes_luhn _) eqn:Ec.
    + b2p. by split; [lia|].
    + replace (total_count (take n groups) + dg_count g - dg_count g)%nat with (total_count (take n groups)) by lia.
      specialize (IH ltac:(lia)). destruct (shrink s groups n _) as [[k span]|]; [by split; [lia|apply IH]|].
      intros k span Hk Hcard. destruct (decide (k = S n)) as [->|]; [|by apply (IH k span); [lia|]].
      pose proof (card_total s _ _ (linked_take s _ _ HL) Hcard) as Hlen.
      rewrite (take_S_r groups n g Hg), total_count_snoc in Hlen.
      destruct Hcard as [Hw Hl]. rewrite Hs in Hw. injection Hw as <-. cbn [fst snd] in *.
      by rewrite Hlen, Hl in Ec.
Qed.

Definition overlap (a b : Span) : Prop := (a.1 < b.2)%nat /\ (b.1 < a.2)%nat.

Lemma window_member s groups n span i g : linked s groups -> window_span (take n groups) = Some span -> groups !! i = Some g ->
  (i < n)%nat -> (span.1 <= dg_start g)%nat /\ (dg_end g <= span.2)%nat.
Proof.
  intros HL Hs Hg Hi. destruct (window_bounds s _ span (linked_take s n _ HL) Hs) as (_&_&Hall).
  apply (proj1 (Forall_lookup _ _) Hall i). by rewrite lookup_take_lt.
Qed.

Lemma linked_lookup s groups i g : linked s groups -> groups !! i = Some g -> (dg_start g < dg_end g)%nat.
Proof.
  intros HL Hg. pose proof (linked_drop s i groups HL) as Hd. rewrite (drop_S _ _ _ Hg) in Hd. destruct Hd as (?&_). lia.
Qed.

Lemma window_overlaps s groups n i m sp span : linked s groups -> window_span (take n groups) = Some sp ->
  window_span (take m (drop i groups)) = Some span -> (i < n)%nat -> overlap sp span.
Proof.
  intros HL Hsp Hs Hi. destruct (groups !! i) as [g|] eqn:Eg.
  2:{ apply lookup_ge_None in Eg. rewrite drop_ge in Hs by done. by rewrite take_nil in Hs. }
  destruct m as [|m]; [by rewrite take_0 in Hs|].
  pose proof (window_member s groups n sp i g HL Hsp Eg Hi).
  pose proof (window_member s (drop i groups) (S m) span 0 g (linked_drop s i _ HL) Hs) as Hg.
  rewrite lookup_drop, Nat.add_0_r in Hg. specialize (Hg Eg ltac:(lia)).
  pose proof (linked_lookup s groups i g HL Eg). unfold overlap. lia.
Qed.

Lemma longest_window s g rest n total : linked s (g :: rest) -> take_groups 0 (g :: rest) = (n, total) ->
  forall m span, reads_as_card s (take m (g :: rest)) span -> exists k, (k <= n)%nat /\ take m (g :: rest) = take k (g :: rest).
Proof.
  intros HL Ht m span Hcard. destruct (take_groups_spec _ _ _ _ Ht) as (Hn&_&Hk).
  exists (m `min` length (g :: rest))%nat. assert (Heq : take m (g :: rest) = take (m `min` length (g :: rest)) (g :: rest)).
  { rewrite <- (firstn_all (g :: rest)) at 1. by rewrite take_take. }
  split; [|done]. apply Hk; [lia|]. rewrite <- Heq.
  pose proof (card_total s _ _ (linked_take s m _ HL) Hcard) as Hc. unfold card_length in Hc.
  apply andb_prop in Hc as [_ Hc]. apply Nat.leb_le in Hc. lia.
Qed.

Lemma card_windows_sound fuel s groups : linked s groups ->
  Forall (fun sp => exists i n, reads_as_card s (take n (drop i groups)) sp) (card_windows fuel s groups).
Proof.
  revert groups. induction fuel as [|fuel IH]; intros [|g rest] HL; [by constructor..|]. cbn [card_windows].
  destruct (take_groups 0 (g :: rest)) as [n total] eqn:Et.
  destruct (take_groups_spec _ _ _ _ Et) as (Hn&Htot&_).
  pose proof (shrink_spec s _ n total Hn Htot HL) as Hs.
  destruct (shrink s (g :: rest) n total) as [[k sp]|].
  - destruct Hs as [_ Hs]. constructor; [by exists 0%nat, k|].
    eapply Forall_impl; [apply (IH _ (linked_drop s k _ HL))|]. intros x (i & m & Hx).
    exists (k + i)%nat, m. by rewrite <- drop_drop.
  - eapply Forall_impl; [apply (IH _ (linked_drop s 1 _ HL))|]. intros x (i & m & Hx). by exists (S i), m.
Qed.

Lemma card_windows_complete fuel s groups i m span : linked s groups -> (length groups <= fuel)%nat ->
  reads_as_card s (take m (drop i groups)) span -> exists sp, sp ∈ card_windows fuel s groups /\ overlap sp span.
Proof.
  revert groups i. induction fuel as [|fuel IH]; intros [|g rest] i HL Hf Hcard; cbn [length] in Hf; try lia.
  1,2: destruct Hcard as [Hcard _]; by rewrite drop_nil, take_nil in Hcard.
  cbn [card_windows]. destruct (take_groups 0 (g :: rest)) as [n total] eqn:Et.
  destruct (take_groups_spec _ _ _ _ Et) as (Hn&Htot&_).
  pose proof (shrink_spec s _ n total Hn Htot HL) as Hs.
  destruct (shrink s (g :: rest) n total) as [[k sp]|].
  - destruct Hs as [Hk [Hs _]]. destruct (decide (i < k)%nat) as [Hi|Hi].
    + exists sp. split; [left|]. by apply (window_overlaps s (g :: rest) k i m); [| |apply Hcard|].
    + destruct (IH (drop k (g :: rest)) (i - k)%nat) as (x & Hx & Ho).
      * by apply linked_drop.
      * rewrite length_drop. cbn [length]. lia.
      * rewrite drop_drop. by replace (k + (i - k))%nat with i by lia.
      * exists x. split; [by right|done].
  - destruct i as [|i].
    + destruct (longest_window s g rest n total HL Et m span Hcard) as (k & Hk & Heq).
      rewrite drop_0, Heq in Hcard. by destruct (Hs k span Hk).
    + by apply (IH rest i); [apply (linked_drop s 1 _ HL)|lia|].
Qed.

(** C27. In a run of digit groups, the spans to cut are sequences of whole groups that pass
    the Luhn check with 13 to 19 digits, and every such sequence of consecutive groups,
    wherever it starts and ends, overlaps a span that is cut: no card number survives whole. *)
Theorem card_numbers_do_not_survive (matched : str) :
  Forall (fun sp => exists i n, reads_as_card matched (take n (drop i (parse_digit_groups matched))) sp) (card_span_extractor matched) /\
  forall i n span, reads_as_card matched (take n (drop i (parse_digit_groups matched))) span ->
    exists sp, sp ∈ card_span_extractor matched /\ overlap sp span.
Proof.
  split; [apply card_windows_sound, parsed_linked|].
  intros i n span. apply card_windows_complete; [apply parsed_linked|lia].
Qed.

(** ** Card numbers in a redacted text *)

Section Text.
Context {RX : Regex}.

Lemma compile_rules_member l rs pattern extract : compile_rules l = Ok rs -> (pattern, extract) ∈ l ->
  exists p, compile_regex pattern = Ok p /\ mkRule p extract ∈ rs.
Proof.
  revert rs. induction l as [|[q x] l IH]; intros rs H Hin; [by apply not_elem_of_nil in Hin|].
  cbn in H. unfold compile_rule in H. destruct (compile_regex q) as [p|] eqn:Ep; [|done]. cbn in H.
  destruct (compile_rules l) as [rest|]; [|done]. injection H as <-.
  apply elem_of_cons in Hin as [[= -> ->]|Hin]; [exists p; split; [done|left]|].
  destruct (IH _ eq_refl Hin) as (p' & ? & ?). exists p'. split; [done|by right].
Qed.

Lemma new_engine_builtin c e pattern extract : new_engine c = Ok e -> include_builtin_patterns c = true ->
  (pattern, extract) ∈ builtin_patterns -> exists p, compile_regex pattern = Ok p /\ mkRule p extract ∈ rules e.
Proof.
  unfold new_engine. intros H Hb Hin. rewrite Hb in H. unfold builtin_rules in H.
  destruct (compile_rules builtin_patterns) as [rs|] eqn:Er; [|done]. cbn in H.
  destruct (compile_rules (map _ _)) as [custom|]; [|done]. cbn in H.
  destruct (check_paths _); [|done]. cbn in H. destruct (collect_spans _ _); [|done]. injection H as <-. cbn [rules].
  destruct (compile_rules_member _ _ _ _ Er Hin) as (p & ? & ?). exists p. split; [done|]. apply elem_of_app. by left.
Qed.

Lemma nothing_collected rs text rule m : collect_spans rs text = [] -> rule ∈ rs -> m ∈ find_iter (rr_pattern rule) text ->
  spans_of_match rule text m = [].
Proof.
  intros H Hr Hm. assert (Hp : collect_spans rs text ≡ₚ found_spans rs text) by apply merge_sort_Permutation.
  rewrite H in Hp. apply Permutation_nil in Hp. destruct (spans_of_match rule text m) as [|s l] eqn:Es; [done|].
  exfalso. apply (not_elem_of_nil (A := Span) s). rewrite <- Hp. unfold found_spans.
  apply list_elem_of_In, in_concat. eexists. split; [apply in_map, list_elem_of_In, Hr|].
  apply in_concat. exists (s :: l). split; [|by left]. rewrite <- Es. by apply in_map, list_elem_of_In.
Qed.

(** In a text on which the engine's passes have settled, no sequence of whole digit groups
    of a candidate run reads as a card number. *)
Theorem settled_text_holds_no_card (c : RedactionConfig) (e : RedactionEngine) (text : str) :
  new_engine c = Ok e -> include_builtin_patterns c = true -> collect_spans (rules e) text = [] ->
  exists p, compile_regex card_pattern = Ok p /\ forall m, m ∈ find_iter p text ->
    forall i n span, ~ reads_as_card (slice m.1 m.2 text) (take n (drop i (parse_digit_groups (slice m.1 m.2 text)))) span.
Proof.
  intros Hnew Hb Hc. destruct (new_engine_builtin c e card_pattern (Some card_span_extractor) Hnew Hb) as (p & Hp & Hrule).
  { unfold builtin_patterns. do 3 right. left. }
  exists p. split; [done|]. intros m Hm i n span Hcard.
  pose proof (nothing_collected _ _ _ m Hc Hrule Hm) as Hn. unfold spans_of_match in Hn. cbn [span_extractor] in Hn.
  apply map_eq_nil in Hn. unfold card_span_extractor in Hn.
  destruct (card_windows_complete _ _ _ i n span (parsed_linked _) (le_n _) Hcard) as (sp & Hin & _).
  rewrite Hn in Hin. by apply not_elem_of_nil in Hin.
Qed.
End Text.

(** ** The check digit *)

Definition digit (d : Z) : Prop := 0 <= d <= 9.

Lemma luhn_term_digit i d : digit d -> digit (luhn_term i d).
Proof. unfold digit, luhn_term. intros. destruct (_ =? _)%nat; [|lia]. destruct (Z.ltb_spec 9 (d * 2)); lia. Qed.

Lemma luhn_term_inj i d d' : digit d -> digit d' -> luhn_term i d = luhn_term i d' -> d = d'.
Proof.
  unfold digit, luhn_term. intros. destruct (_ =? _)%nat; [|done].
  destruct (Z.ltb_spec 9 (d * 2)), (Z.ltb_spec 9 (d' * 2)); lia.
Qed.

Lemma luhn_sum_app i l l' : luhn_sum i (l ++ l') = luhn_sum i l + luhn_sum (i + length l) l'.
Proof.
  revert i. induction l as [|d l IH]; intros i; cbn [app luhn_sum length]; [by rewrite Nat.add_0_r|].
  rewrite IH, Nat.add_succ_comm. lia.
Qed.

(** A number that passes the check fails it after any one of its digits is changed. *)
Theorem luhn_detects_a_wrong_digit (digits : list Z) (j : nat) (a d : Z) :
  passes_luhn digits = true -> digits !! j = Some a -> digit a -> digit d -> d <> a ->
  passes_luhn (<[j := d]> digits) = false.
Proof.
  unfold passes_luhn. rewrite length_insert. destruct (card_length _); [|done]. cbn [negb].
  intros H0 Hj Ha Hd Hne. apply Z.eqb_eq in H0. apply Z.eqb_neq.
  pose proof (lookup_lt_Some _ _ _ Hj) as Hlen. rewrite insert_take_drop by done.
  rewrite <- (take_drop_middle digits j a Hj) in H0.
  rewrite !rev_app_distr in *. cbn [rev] in *. rewrite <- !app_assoc in *. cbn [app] in *.
  rewrite !luhn_sum_app in *. cbn [luhn_sum] in *.
  set (i := (_ + _)%nat) in *. pose proof (luhn_term_digit i a Ha). pose proof (luhn_term_digit i d Hd).
  unfold digit in *. intros Hm. apply Hne, (luhn_term_inj i); [done..|].
  apply Z.mod_divide in H0 as [x H0]; [|done]. apply Z.mod_divide in Hm as [y Hm]; [|done]. lia.
Qed.

(** * Examples *)

Definition card_text : str := lit "123 4111 1111 1111 1111 2027".

(** The groups of the card in the run, between a code and a year. *)
Lemma card_numbers_do_not_survive_witness :
  reads_as_card card_text (take 4 (drop 1 (parse_digit_groups card_text))) (4%nat, 23%nat) /\
  exists sp, sp ∈ card_span_extractor card_text /\ overlap sp (4%nat, 23%nat).
Proof.
  assert (H : reads_as_card card_text (take 4 (drop 1 (parse_digit_groups card_text))) (4%nat, 23%nat))
    by (split; vm_compute; reflexivity).
  split; [exact H|]. exact (proj2 (card_numbers_do_not_survive card_text) 1%nat 4%nat _ H).
Defined.

Example card_text_spans : card_span_extractor card_text = [(4%nat, 23%nat)].
Proof. reflexivity. Qed.

Lemma luhn_detects_a_wrong_digit_witness : passes_luhn [4; 1; 1; 1; 1; 1; 1; 1; 1; 1; 1; 1; 1; 1; 1; 7] = false.
Proof. apply (luhn_detects_a_wrong_digit [4; 1; 1; 1; 1; 1; 1; 1; 1; 1; 1; 1; 1; 1; 1; 1] 15 1 7); unfold digit; try reflexivity; lia. Defined.
