(* ===== verification/RedactTree.v ===== *)
(** Theorems about the walk over a JSON tree: redaction is idempotent, a map whose keys
    collide loses no value, and every string, key and integer of user data is scanned. *)

From S2P Require Import Prelude Rust Json Disk Redact.

Section Tree.
Context {RX : Regex} {JP : JsonPointer}.
Variable e : RedactionEngine.

(** * Strings *)

(** Nothing in the text is left to cut. *)
Definition clean (s : str) : bool :=
  str_eqb s (replacement e) || (bool_decide (s = []) || forallb is_whitespace s) || bool_decide (collect_spans (rules e) s = []).

Lemma redact_clean s : clean s = true -> redact_string e s = s.
Proof.
  unfold clean, redact_string. destruct (str_eqb _ _); [done|]. destruct (_ || forallb _ _); [done|]. cbn [orb].
  intros H. b2p. unfold MAX_REDACTION_PASSES. cbn [redact_passes]. by rewrite H.
Qed.

Lemma redact_replacement : redact_string e (replacement e) = replacement e.
Proof. apply redact_clean. unfold clean. by rewrite str_eqb_refl. Qed.

(** * Pointers *)

Fixpoint get_at (tokens : list str) (v : Value) : option Value :=
  match tokens with
  | [] => Some v
  | t :: rest =>
      match v with
      | Object m => match map_get t m with Some child => get_at rest child | None => None end
      | Array l => match parse_index t with
                   | Some i => match l !! i with Some child => get_at rest child | None => None end
                   | None => None
                   end
      | _ => None
      end
  end.

(** The pointer names nothing, or the replacement. *)
Definition settled (new : str) (tokens : list str) (v : Value) : Prop :=
  match get_at tokens v with Some x => x = JString new | None => True end.

(** Inserting what is there changes nothing. *)
Lemma insert_existing k v m : map_get k m = Some v -> map_insert k v m = m.
Proof.
  induction m as [|[k' w] m IH]; cbn; [done|].
  destruct (str_eqb k' k); [by intros [= ->]|]. intros H. by rewrite IH.
Qed.

Lemma set_settled new tokens v : settled new tokens v -> set_at tokens (JString new) v = v.
Proof.
  unfold settled. revert v. induction tokens as [|t rest IH]; intros v; cbn; [by intros ->|].
  destruct v; try done.
  - destruct (parse_index t) as [i|]; [|done]. destruct (items !! i) as [x|] eqn:Ex; [|done].
    intros H. by rewrite (IH x H), list_insert_id.
  - destruct (map_get t members) as [x|] eqn:Ex; [|done]. intros H. by rewrite (IH x H), insert_existing.
Qed.

Lemma set_settles new tokens v : settled new tokens (set_at tokens (JString new) v).
Proof.
  unfold settled. revert v. induction tokens as [|t rest IH]; intros v; cbn; [done|].
  destruct v; try done.
  - destruct (parse_index t) as [i|] eqn:Ei; [|by rewrite ?Ei].
    destruct (items !! i) as [x|] eqn:Ex; cbn; rewrite ?Ei, ?Ex; [|done].
    rewrite list_lookup_insert_eq; [apply IH|by eapply lookup_lt_Some].
  - destruct (map_get t members) as [x|] eqn:Ex; cbn; rewrite ?Ex; [|done]. rewrite map_get_insert_eq. apply IH.
Qed.

Lemma settled_string new tokens : settled new tokens (JString new).
Proof. by destruct tokens. Qed.

Lemma set_keeps_settled new q tokens v : settled new tokens v -> settled new tokens (set_at q (JString new) v).
Proof.
  revert q v. induction tokens as [|t rest IH]; intros q v Hv.
  { unfold settled in *. cbn in *. rewrite Hv. by destruct q. }
  destruct q as [|u q]; [apply settled_string|].
  destruct v; try done; unfold settled in *; cbn in *.
  - destruct (parse_index u) as [j|]; [|done]. destruct (items !! j) as [y|] eqn:Ey; [|done]. cbn.
    destruct (parse_index t) as [i|]; [|done]. destruct (decide (i = j)) as [->|Hij].
    + rewrite list_lookup_insert_eq by (by eapply lookup_lt_Some). rewrite Ey in Hv. by apply IH.
    + by rewrite list_lookup_insert_ne.
  - destruct (map_get u members) as [y|] eqn:Ey; [|done]. cbn. destruct (decide (t = u)) as [->|Htu].
    + rewrite map_get_insert_eq. rewrite Ey in Hv. by apply IH.
    + by rewrite map_get_insert_ne.
Qed.

(** Every configured pointer names nothing, or the replacement. *)
Definition pointers_settled (paths : list str) (v : Value) : Prop :=
  Forall (fun path => match pointer_tokens path with Some tokens => settled (replacement e) tokens v | None => True end) paths.

Lemma apply_settled paths v : pointers_settled paths v -> fold_left (apply_pointer (replacement e)) paths v = v.
Proof.
  induction 1 as [|p paths Hp _ IH]; [done|]. cbn. unfold apply_pointer at 2.
  destruct (pointer_tokens p); [|done]. by rewrite set_settled.
Qed.

Lemma apply_pointers_settles v : pointers_settled (pointer_paths e) (apply_pointers e v).
Proof.
  unfold apply_pointers. induction (pointer_paths e) as [|p paths IH] using rev_ind; [by constructor|].
  rewrite fold_left_app. cbn. apply Forall_app. split.
  - eapply Forall_impl; [exact IH|]. cbn. intros q. unfold apply_pointer at 2.
    destruct (pointer_tokens q); [|done]. destruct (pointer_tokens p); [|done]. apply set_keeps_settled.
  - constructor; [|constructor]. unfold apply_pointer at 1. destruct (pointer_tokens p); [|done]. apply set_settles.
Qed.

(** * The plain walk *)

Lemma walk_get_member user t m : map_get t (map (fun kv : str * Value => (kv.1, walk e user kv.2)) m) = walk e user <$> map_get t m.
Proof. induction m as [|[k v] m IH]; cbn; [done|]. by destruct (str_eqb k t). Qed.

Lemma walk_get tokens v : get_at tokens (walk e false v) = walk e false <$> get_at tokens v.
Proof.
  revert v. induction tokens as [|t rest IH]; intros v; [done|]. destruct v; try done; cbn.
  - destruct (parse_index t) as [i|]; [|done]. rewrite list_lookup_fmap. by destruct (items !! i); cbn.
  - rewrite walk_get_member. by destruct (map_get t members); cbn.
Qed.

Lemma walk_settled v : pointers_settled (pointer_paths e) v -> pointers_settled (pointer_paths e) (walk e false v).
Proof.
  intros H. eapply Forall_impl; [exact H|]. cbn. intros p. destruct (pointer_tokens p) as [tokens|]; [|done].
  unfold settled. rewrite walk_get. destruct (get_at tokens v); [|done]. intros ->. cbn. by rewrite redact_replacement.
Qed.

(** The strings that stand as values. *)
Fixpoint strings (v : Value) : list str :=
  match v with
  | JString s => [s]
  | Array l => List.concat (map strings l)
  | Object m => List.concat (map (fun kv => strings kv.2) m)
  | _ => []
  end.

Lemma walk_idempotent v : Forall (fun s => clean (redact_string e s) = true) (strings v) ->
  walk e false (walk e false v) = walk e false v.
Proof.
  induction v as [| | |s|l IH|m IH] using value_ind'; try done; cbn [strings walk]; intros H.
  - apply Forall_inv in H. f_equal. by apply redact_clean.
  - f_equal. rewrite map_map. induction IH as [|x l Hx _ IHl]; [done|]. cbn in H |- *.
    apply Forall_app in H as [H1 H2]. by rewrite Hx, IHl.
  - f_equal. rewrite map_map. induction IH as [|x m Hx _ IHm]; [done|]. cbn in *.
    apply Forall_app in H as [H1 H2]. by rewrite Hx, IHm.
Qed.

(** C28. Redaction is idempotent: when the passes settle on every string of the value, what is
    left of it is not changed by a second run, and every configured pointer names nothing
    there or the replacement itself. *)
Theorem redaction_is_idempotent (v : Value) :
  Forall (fun s => clean (redact_string e s) = true) (strings (apply_pointers e v)) ->
  redact_value e (redact_value e v) = redact_value e v /\ pointers_settled (pointer_paths e) (redact_value e v).
Proof.
  intros H. unfold redact_value, redact_tree.
  pose proof (walk_settled _ (apply_pointers_settles v)) as Hs.
  split; [|done]. unfold apply_pointers at 1. rewrite apply_settled by done. by apply walk_idempotent.
Qed.

(** * User data *)

Definition values_at (k : str) (m : list (str * Value)) : list Value :=
  map snd (List.filter (fun kv => str_eqb (redact_string e kv.1) k) m).

(** One value stands for itself, several for the list of them. *)
Definition collected (vs : list Value) : option Value :=
  match vs with [] => None | [v] => Some v | _ => Some (Array vs) end.

Lemma values_at_snoc k m kv : values_at k (m ++ [kv]) =
  values_at k m ++ (if str_eqb (redact_string e kv.1) k then [kv.2] else []).
Proof. unfold values_at. rewrite List.filter_app, map_app. cbn. by destruct (str_eqb _ _). Qed.

Lemma rebuild_invariant m : let acc := fold_left (add_entry e) m ([], []) in
  forall k, map_get k acc.1 = collected (values_at k m) /\ (k ∈ acc.2 <-> (1 < length (values_at k m))%nat).
Proof.
  cbn. induction m as [|[k0 v] m IH] using rev_ind; intros k; [cbn; split; [done|]; split; [set_solver|lia]|].
  rewrite fold_left_app. cbn. set (acc := fold_left _ m _) in *. destruct acc as [entries collisions]. cbn in IH.
  rewrite values_at_snoc. cbn [fst snd]. unfold add_entry. cbn [fst snd].
  destruct (IH (redact_string e k0)) as [Hg Hc]. pose proof (IH k) as [Hgk Hck].
  destruct (str_eqb (redact_string e k0) k) eqn:Ek; [apply str_eqb_eq in Ek; subst k|apply str_eqb_neq in Ek as Hne].
  - rewrite Hg. destruct (values_at (redact_string e k0) m) as [|a [|b vs]] eqn:Ev; cbn [collected].
    + cbn. rewrite map_get_insert_eq. split; [done|]. rewrite Hck. cbn. lia.
    + rewrite bool_decide_false by (rewrite Hck; cbn; lia). cbn. rewrite map_get_insert_eq. split; [done|]. split; [lia|set_solver].
    + rewrite bool_decide_true by (rewrite Hck; cbn; lia). cbn. rewrite map_get_insert_eq. split; [done|]. rewrite Hck. cbn. lia.
  - rewrite app_nil_r. rewrite Hg.
    destruct (collected (values_at (redact_string e k0) m)) as [x|]; cbn.
    + case_bool_decide; [destruct x; cbn; rewrite ?map_get_insert_ne by done; done|].
      cbn. rewrite map_get_insert_ne by done. split; [done|]. set_solver.
    + by rewrite map_get_insert_ne.
Qed.

(** Redacting the keys of a map loses no value: what the map holds at a key is the one
    value whose key became it, or the list of all of them in their order. *)
Theorem rebuild_exact (m : list (str * Value)) (k : str) : map_get k (rebuild e m) = collected (values_at k m).
Proof. apply rebuild_invariant. Qed.

(** ** The order of the walk *)

Definition on_values (f : Value -> Value) (m : list (str * Value)) : list (str * Value) := map (fun kv => (kv.1, f kv.2)) m.

Lemma on_values_insert f k v m : on_values f (map_insert k v m) = map_insert k (f v) (on_values f m).
Proof. unfold on_values. induction m as [|[k' w] m IH]; cbn; [done|]. destruct (str_eqb k' k); cbn; [done|]. by rewrite IH. Qed.

Lemma walk_add_entry acc kv :
  add_entry e (on_values (walk e true) acc.1, acc.2) (kv.1, walk e true kv.2) =
  (on_values (walk e true) (add_entry e acc kv).1, (add_entry e acc kv).2).
Proof.
  destruct acc as [entries collisions], kv as [k v]. cbn [fst snd]. unfold add_entry. cbn [fst snd].
  change (map_get ?k (on_values _ entries)) with (map_get k (map (fun kv : str * Value => (kv.1, walk e true kv.2)) entries)).
  rewrite walk_get_member. destruct (map_get _ entries) as [x|]; cbn [fmap option_fmap option_map].
  - case_bool_decide; cbn [fst snd].
    + destruct x; cbn [walk fst snd]; try done; [|by rewrite on_values_insert; cbn; rewrite map_app].
      by unfold redact_number; destruct n; repeat (destruct (str_eqb _ _)).
    + by rewrite on_values_insert.
  - cbn [fst snd]. by rewrite on_values_insert.
Qed.

(** Walking the values before the map is rebuilt gives what the code's stack gives, which
    rebuilds the map first and then visits its values. *)
Lemma walk_object m : walk e true (Object m) = Object (on_values (walk e true) (rebuild e m)).
Proof.
  cbn [walk]. f_equal. unfold rebuild. fold (on_values (walk e true) m).
  enough (H : forall acc, fold_left (add_entry e) (on_values (walk e true) m) (on_values (walk e true) acc.1, acc.2) =
    (on_values (walk e true) (fold_left (add_entry e) m acc).1, (fold_left (add_entry e) m acc).2)) by (exact (f_equal fst (H ([], [])))).
  induction m as [|kv m IH]; intros acc; [done|]. cbn [fold_left]. rewrite <- IH. unfold on_values at 1. cbn [map fold_left].
  f_equal. apply walk_add_entry.
Qed.

(** ** Everything is scanned *)

Inductive scanned : Value -> Prop :=
| scanned_null : scanned Null
| scanned_bool b : scanned (Bool b)
| scanned_float f : scanned (Number (Float f))
| scanned_int n z : n = PosInt z \/ n = NegInt z -> redact_string e (fmt_int z) = fmt_int z -> scanned (Number n)
| scanned_string s : scanned (JString (redact_string e s))
| scanned_array l : Forall scanned l -> scanned (Array l)
| scanned_object m : Forall (fun kv => (exists t, kv.1 = redact_string e t) /\ scanned kv.2) m -> scanned (Object m).

Lemma redact_number_scanned n : scanned (redact_number e n).
Proof.
  destruct n as [z|z|f]; cbn; [| |constructor].
  all: destruct (str_eqb _ _) eqn:Es; [apply str_eqb_eq in Es; econstructor; eauto|].
  all: rewrite <- redact_replacement; constructor.
Qed.

Lemma Forall_map_insert (P : str * Value -> Prop) k v m : P (k, v) -> Forall P m -> Forall P (map_insert k v m).
Proof.
  intros Hk. induction 1 as [|[k' w] m Hx Hm IH]; cbn; [by repeat constructor|].
  destruct (str_eqb k' k) eqn:Ek; [apply str_eqb_eq in Ek as ->|]; by constructor.
Qed.

Lemma rebuild_scanned m : Forall (fun kv => scanned kv.2) m ->
  Forall (fun kv => (exists t, kv.1 = redact_string e t) /\ scanned kv.2) (rebuild e m).
Proof.
  unfold rebuild. intros Hm.
  enough (H : forall acc, Forall (fun kv => (exists t, kv.1 = redact_string e t) /\ scanned kv.2) acc.1 ->
    Forall (fun kv => (exists t, kv.1 = redact_string e t) /\ scanned kv.2) (fold_left (add_entry e) m acc).1) by (by apply (H ([], []))).
  induction Hm as [|[k v] m Hv _ IH]; intros [entries collisions] Hacc; [done|]. cbn [fold_left]. apply IH. cbn in Hv, Hacc.
  unfold add_entry. cbn [fst snd]. destruct (map_get _ entries) as [x|] eqn:Ex.
  - apply map_get_In in Ex. pose proof (proj1 (Forall_forall _ _) Hacc _ Ex) as [_ Hx]. cbn in Hx. case_bool_decide.
    + destruct x; cbn; try done. apply Forall_map_insert; [|done]. split; [by eexists|]. cbn.
      inversion Hx; subst. constructor. apply Forall_app. by repeat constructor.
    + apply Forall_map_insert; [|done]. split; [by eexists|]. by repeat constructor.
  - apply Forall_map_insert; [|done]. split; [by eexists|done].
Qed.

(** What is left of user data has been scanned throughout: every string and every key, at
    any depth, is the outcome of scanning some text, and no integer is left whose digits
    the rules would cut. *)
Theorem user_data_is_scanned (v : Value) : scanned (redact_user_value e v).
Proof.
  unfold redact_user_value, redact_tree. induction (apply_pointers e v) as [|b|n|s|l IH|m IH] using value_ind'; cbn [walk].
  - constructor.
  - constructor.
  - apply redact_number_scanned.
  - constructor.
  - constructor. by apply Forall_map.
  - constructor. apply rebuild_scanned. by apply Forall_map.
Qed.
End Tree.

(** * An engine *)

(** [str::replace] of a two-character pattern by one character. *)
Fixpoint replace_pair (a b to : Z) (s : str) : str :=
  match s with
  | x :: ((y :: r) as rest) => if (x =? a) && (y =? b) then to :: replace_pair a b to r else x :: replace_pair a b to rest
  | _ => s
  end.

Definition unescape (token : str) : str := replace_pair 126 48 126 (replace_pair 126 49 47 token).

Fixpoint split_slash (cur : str) (s : str) : list str :=
  match s with
  | [] => [cur]
  | c :: r => if c =? 47 then cur :: split_slash [] r else split_slash (cur ++ [c]) r
  end.

(** The tokens of RFC 6901; a pointer that does not start with a slash names nothing. *)
Definition rfc6901_tokens (path : str) : option (list str) :=
  match path with
  | [] => Some []
  | c :: r => if c =? 47 then Some (map unescape (split_slash [] r)) else None
  end.

(** No sign, no leading zero. *)
Definition plain_index (token : str) : option nat :=
  match token with
  | 43 :: _ => None
  | 48 :: _ :: _ => None
  | _ => match parse_u64 token with Ok n => Some (Z.to_nat n) | Err _ => None end
  end.

#[local] Instance rfc6901 : JsonPointer := {| pointer_tokens := rfc6901_tokens; parse_index := plain_index |}.

(** A pattern that is one character: every occurrence matches. *)
Fixpoint occurrences (c : Z) (i : nat) (s : str) : list (nat * nat) :=
  match s with [] => [] | x :: r => if x =? c then (i, S i) :: occurrences c (S i) r else occurrences c (S i) r end.

Definition one_char : Regex := {|
  Pattern := Z;
  compile_regex p := match p with [c] => Ok c | _ => Err (lit "not one character") end;
  find_iter c s := occurrences c 0 s;
|}.

Definition demo_config : RedactionConfig := mkRedactionConfig [lit "7"] [lit "/a/b"; lit "/l/0"] (lit "[R]") false.
Definition demo_engine : @RedactionEngine one_char := mkEngine [mkRule (RX := one_char) 55 None] [lit "/a/b"; lit "/l/0"] (lit "[R]").
Definition demo_value : Value :=
  Object [(lit "a", Object [(lit "b", Number (PosInt 1))]); (lit "l", Array [Null; JString (lit "x77y7")]); (lit "k7", JString []); (lit "k[R]", Number (PosInt 175))].

Example demo_engine_new : new_engine (RX := one_char) demo_config = Ok demo_engine.
Proof. reflexivity. Qed.

Example demo_redacted : redact_user_value demo_engine demo_value =
  Object [(lit "a", Object [(lit "b", JString (lit "[R]"))]); (lit "l", Array [JString (lit "[R]"); JString (lit "x[R]y[R]")]);
          (lit "k[R]", Array [JString []; JString (lit "[R]")])].
Proof. reflexivity. Qed.

Lemma redaction_is_idempotent_witness :
  redact_value demo_engine (redact_value demo_engine demo_value) = redact_value demo_engine demo_value.
Proof.
  apply (@redaction_is_idempotent one_char rfc6901 demo_engine demo_value).
  repeat (apply Forall_cons_2; [vm_compute; reflexivity|]). apply Forall_nil_2.
Defined.
